(* ===== verification/_CoqProject ===== *)
-Q . S2P
Prelude.v
Bytes.v
Text.v
Keyed.v
Hash.v
Chunk.v
Concrete.v
Store.v
StoreProps.v
TreeV1.v
TreeV1Merge.v
TreeV1Build.v
TreeV1Repr.v
TreeV1Props.v
Diff.v
TreeV1Examples.v
TreeV2Codec.v
TreeV2CodecProps.v
TreeV2Segment.v
TreeV2.v
TreeV2Build.v
TreeV2Store.v
TreeV2Props.v
SyncRules.v
ContentStore.v
FastCdc.v
Conflict.v
VersionedRoot.v
TreeV2Diff.v
TreeV2DiffProps.v
Reachability.v
ReachabilityProps.v
TreeV2Examples.v
Merge.v
MergeProps.v
MergeTreesProps.v
MergeDirsProps.v
MergeExamples.v
Guard.v
StorageLayout.v
RootHead.v
Faults.v
Devices.v
DevicesProps.v
DevicesCrash.v
RootHeadProps.v
RootOutcome.v
VaultStore.v
IgnoreMatch.v
Bridge.v
Publish.v
PublishProps.v
RootExamples.v
SeqTracker.v
Crc32c.v
PackFormat.v
PackFormatProps.v
PackStore.v
PackInvariant.v
PackStoreProps.v
PackOpenProps.v
PackCrash.v
StorageWriter.v
StorageWriterProps.v
WriterQueue.v
WriterQueueProps.v
WriterLoop.v
Bulk.v
Objects.v
ObjectsProps.v
ObjectsUpload.v
ObjectsStore.v
DiffPage.v
DiffPull.v
StableSort.v
Session.v
Rebuild.v
RebuildPlan.v
RebuildEmit.v
PackExamples.v
