(* ===== verification/Prelude.v ===== *)
(** * ObsetyNC: verified synchronisation core

    ObsetyNC synchronises a vault of files between devices through a server.
    A vault is a set of file entries (path, content hash, modification time,
    size). It is stored as a Merkle tree of content-addressed objects, in one
    of two formats (Tree v1, grouped by top-level directory, and Tree v2, a
    range tree over the sorted paths), under a root that names its vault, its
    device and its parent. Devices build and update such trees, diff and merge
    them; the server validates an uploaded root, merges it with the current
    one where they diverged, guards against mass reverts, keeps a history of
    roots and moves the durable head of the vault, answering every operation
    of a device exactly once. This library models that core, from the Rust
    sources under src/crates/sync-core/src (below: core) and
    src/crates/sync-server/src (below: server), and proves it correct.

    ** Conventions

    A Rust function is a Gallina function of the same name, or of that name
    with a prefix where two types share a method name ([leaf_serialize],
    [ms_len], [vr_hash], [head_encode]). [Result] is [result], [?] is [let?];
    code that writes a store is in the state monad [St] with [let!]. Byte
    strings and UTF-8 text are [bytes]; [u32], [u64] and [usize] are [N] with
    the wrapping, saturating or checked arithmetic of the code written out
    ([wrap64], [saturating_add64], [adjust_total]). [BTreeMap] and [HashMap]
    are [gmap], or an association list where the order matters. Loops that are
    not structural take fuel, which is the code's own node limit or a bound on
    the input length; the theorems say that they return. Asynchrony, logging
    and performance counters are left out; locks make a handler one function.

    Code outside the repository is a class with the laws the code relies on:
    [Blake3] (digests have 32 bytes; collision freedom is a hypothesis
    [injective_on hash_bytes P] over the objects at hand), [Hex], [HexLower],
    [FlatBuffers] (reading inverts writing), [FastCDC] (a cut is positive,
    within its bounds and decided by the window), [Similar] (a line diff
    describes both texts), [RootJson] and [ManifestJson] (reading
    inverts writing), [RequestCodec] and [JsonValue] (no law: what they read
    is untrusted), [WireManifestJson] and [HashArrayJson] (no law either),
    [DeviceJson] (reading inverts writing). The files [Concrete],
    [RootExamples], [DevicesCrash] and [ObjectsStore] instantiate them with
    executable functions, on which the witnesses of the theorems are
    evaluated.

    ** Shared files

    - [Prelude]: results, the state monad, tactics and hint databases, lists.
    - [Bytes], [Text]: byte strings, order, UTF-8, trimming.
    - [Keyed]: lists sorted by a key, the stable sort, binary search, and the
      maps of such lists.
    - [Hash] (core/hash.rs), [Chunk] (core/chunk.rs): digests, entries, nodes
      of Tree v1 and their codecs.
    - [Concrete]: executable instances.
    - [Faults]: programs over a disk whose operations fail and whose
      unsynchronised writes a crash may lose, and a logic of triples for them.

    ** Stores

    [Store] and [StoreProps] model core/store.rs: the class [ChunkStore] with
    its laws [ChunkStoreLaws], the in-memory store with generations, candidate
    baselines, promotion, retention and byte accounting, and the disk store.
    Shown: its invariant over every sequence of operations, and that an open
    baseline tells exactly the fresh objects. [ContentStore] is
    core/content_store.rs (blobs and manifests, in memory and on disk).

    ** Tree v1 (core/tree.rs)

    [TreeV1] has the operations; [TreeV1Merge] the linear merge of a directory
    with a batch; [TreeV1Build], [TreeV1Repr] the relation [dirs_repr] between
    the children of a root and the vault they hold; [TreeV1Props] that build
    and incremental update refine the map of the vault, that they agree, and
    that loading returns it; [TreeV1Examples] the witnesses, of the diff too.

    ** Tree v2 (core/tree_v2.rs)

    [TreeV2Codec], [TreeV2CodecProps]: nodes and stored roots, canonical in
    both directions. [TreeV2Segment]: content-defined
    segmentation. [TreeV2], [TreeV2Build], [TreeV2Store],
    [TreeV2Props]: build, load, pages, incremental update; building and
    loading is the identity, and an update is the rebuild, hash included, for
    paths of at most 205 bytes, which cannot fill a node ([short_paths]);
    [TreeV2Examples] shows that beyond them it is not. [TreeV2Diff],
    [TreeV2DiffProps]: the recursive diff equals the
    flat one. [Reachability], [ReachabilityProps]: the
    budgeted cursor, the exactness of its walk, garbage collection and the
    termination of retirement. What the code guards by [expect] or
    [unreachable!] is an error value or a phase that is proved not to occur.

    ** Sessions of a browser

    [Session] (core/transactional_tree_v2.rs, with the sweep of
    transactional_tree.rs): a committed and a candidate root over one store,
    with the generation that tells fresh objects; every sequence of operations
    over vaults with paths of at most 205 bytes refines a vault with
    transactions. [StableSort] (the sort of
    core/candidate_mutation_v1.rs): a stable merge sort in units of one
    comparison or one swap; it ends with the sorted rows. [Rebuild]
    (core/replacement_rebuild_v2.rs): the construction of a complete tree in
    units, with one definition per phase of its ticks; it plans every node over
    indices of the entries, waits for the caller to admit the plan, writes the
    nodes and validates what the root reaches. [RebuildPlan] (the planning
    phases) and [RebuildEmit] (the writing phases, the validation and the
    hand-over) show that any positive budgets lead to the plan and then to the
    tree of the rebuild at once. The fuel of a call of [step] counts the units
    it may take and the phase changes that cost none; it always suffices.

    ** Between the versions

    [VersionedRoot] (core/versioned_root.rs): dispatch,
    storage and loading of roots. [Diff]
    (core/diff.rs): deltas and rename detection are exact. [DiffPage]
    (core/diff_page.rs): bounded binary pages of deltas and the cursor from
    one page to the next.

    ** Merging

    [SyncRules] (core/sync_rules.rs): rules and globs. [Conflict]
    (core/conflict.rs): the three-way line merge; when the
    diffs insert only at the end it weaves both sides, otherwise it can lose a
    line. [Merge], [MergeProps], [MergeTreesProps], [MergeDirsProps],
    [MergeExamples] (core/merge.rs): the file-level rule [merge3], the merge
    of sorted lists, of roots of mixed versions and, directory by directory,
    of Tree v1 roots, with the text merge pass. [FastCdc]
    (core/fastcdc_chunker.rs): batch and streaming chunking agree, and
    reassembly inverts splitting.

    ** The server

    - [SeqTracker] (server/seq_tracker.rs): the anti-replay window with its durable
      reservations; between starts it refuses exactly the replays, and no number
      is accepted twice across restarts of the process and crashes.
    - [StorageLayout] (server/storage.rs): path components.
    - [RootHead], [RootHeadProps] (server/root_head.rs): the head with the
      last outcome of every device, its checksummed canonical text.
    - [RootOutcome] (server/root_outcome.rs): requests,
      their identity, and the decision between replay and admission.
    - [VaultStore] (server/storage.rs): heads and history
      on a disk where a rename may be lost until its directory is
      synchronised; runs of operations with faults and crashes.
    - [IgnoreMatch] (server/ignore_match.rs), [Bridge]
      (server/bridge.rs): validation of uploads, projection
      between versions, purge.
    - [Guard] (server/guard.rs): the scan and
      the verdict on a push, in every mode and with or without a grant.
    - [Publish], [PublishProps], [RootExamples] (server/api.rs): the root
      handlers composed of all of these; every operation has one outcome, a
      refused push does not move the head, and a rollback without a barrier
      can leave the head at a lost root.
    - [DiffPull] (server/api.rs, server/bridge.rs): the diff endpoints; a
      client that pages through a diff turns its vault into the target,
      whatever is published meanwhile.

    ** The object store of the server

    - [Crc32c] (server/pack_store.rs): the table-driven checksum is the
      bitwise one and detects any change of up to four consecutive bytes.
    - [PackFormat], [PackFormatProps]: records, segments
      and sidecar indexes as bytes, and the scan of a segment.
    - [PackStore]: the store over a disk in which unsynchronised bytes,
      directory entries and renames may be lost; every operation of the
      operating system asks an oracle ([Fate]) whether it fails.
      [PackInvariant] is the invariant, [PackStoreProps] and [PackOpenProps] the specifications of
      appending, sealing and opening, [PackCrash] the runs with crashes: what
      was acknowledged stays readable and the store opens again. The limits of
      these runs are those of the code. Reads of a run do not fail: one that
      does hides an intact record ([PackExamples]). A group that exceeds the
      limits of a segment is written and rolled back without a fault or a
      crash in between. A crash keeps a prefix of what was not synchronised:
      a tail of zeros keeps the store from opening, which is a theorem too.
    - [StorageWriter], [StorageWriterProps]
      (server/storage_writer.rs): the commit of a group is a left-to-right
      reference, and the old journal is imported completely.
    - [WriterQueue], [WriterQueueProps]: reservations and the
      fair scheduler with its assertions; exact accounts, one queue per owner
      and class, when it panics, and a bound on the wait of bulk messages.
    - [WriterLoop]: the writer thread as a state machine
      over what the channel and the clock answer, beside the request handlers
      that reserve and send; it does not panic, every message is answered once
      unless a commit fails fatally, and what it is told is true.
    - [PackExamples]: witnesses, and two ways in which the
      store can lose an object.

    ** The object endpoints

    - [Bulk] (server/bulk.rs): the binary messages of the bulk data plane; a
      request is accepted exactly when it is the encoding of what it decodes
      to.
    - [Objects] (server/api.rs): reading and writing contents, chunks and
      manifests, one at a time and in bulk, the legacy checks, and the
      validation of manifests, over the interface [ObjectStore] of the storage
      writer.
    - [ObjectsProps]: the laws [ObjectStoreLaws] of that interface; a manifest
      is accepted exactly when it describes a file whose pieces are stored; a
      client that pages through a bulk download of objects within the bulk
      limit gets every object.
      [ObjectsUpload]: the acknowledgements of a bulk upload are true.
    - [ObjectsStore]: the pack store with its commit and its queue implements
      the interface; witnesses, and a stored manifest that cannot be repaired.

    ** The devices

    [Devices] (server/devices.rs): the directories of the enrolled devices,
    the registry that authenticates requests, registration, revocation,
    capability reports, last-seen flushes, purge and the one-time grant, over
    the disk of [Faults]. [DevicesProps]: the invariant and a specification of
    every operation when anything may fail. [DevicesCrash]: the life of the
    server as a step relation, purges included; a revoked device stays revoked
    until it expires and is unknown after its purge, a registered one is found
    again, a grant is spent once; witnesses, and the runs in which a purge that
    fails brings a revoked device back and a registration retried after a
    failure is lost.

    ** Not modelled

    - the Tree v1 session of core/transactional_tree.rs, the mutation cursors
      of candidate_mutation_*.rs, replacement_rebuild_v1.rs, root_export_v1.rs,
      tree_work_memory.rs and tree_metadata.rs: versions of the operations
      above that a browser session runs in small resumable steps, with byte
      accounts of JavaScript memory. The operations they split up are [TreeV1],
      [TreeV2], [Session] and [Reachability]. Of replacement_rebuild_v2.rs the
      memory meters and the retirement of an abandoned construction are left out.
    - core/wasm.rs and wasm_memory.rs: bindings that marshal JavaScript values.
    - the submission side of server/storage_writer.rs, which awaits the answers
      of the modelled writer thread, its importer of loose files, and
      blocking_io.rs: threads around the modelled operations.
    - server/enrollment.rs, ws_ticket.rs, secure.rs, box_key.rs and
      eph_rotation.rs, whose decisions rest on key exchange, authenticated
      encryption and random numbers of libraries; the endpoints, sessions and
      notifications of server/api.rs, admin.rs, ws.rs and ws_data.rs, which
      call external frameworks; configuration and counters.
    - generated code and the TypeScript plugin. *)

From stdpp Require Export base list gmap numbers sorting strings.
From Stdlib Require Export NArith Strings.Byte Lia.

Declare Scope sync_scope.
Delimit Scope sync_scope with sync.
Open Scope sync_scope.

(** * Results and the store-passing monad *)

(** Rust's [Result<A, E>]. *)
Inductive result (E A : Type) : Type :=
  | Ok (a : A)
  | Err (e : E).
Arguments Ok {E A} a.
Arguments Err {E A} e.

Notation "'let?' x := m 'in' k" :=
  (match m with Ok x => k | Err e => Err e end)
  (at level 10, x name, m at level 100, k at level 200) : sync_scope.
Notation "'let?' ' p := m 'in' k" :=
  (match m with Ok p => k | Err e => Err e end)
  (at level 10, p pattern, m at level 100, k at level 200) : sync_scope.

(** [ok_or m e] is [Option::ok_or]. *)
Definition ok_or {E A} (m : option A) (e : E) : result E A :=
  match m with Some a => Ok a | None => Err e end.

(** [check b e] is [if !b { return Err(e) }]. *)
Definition check {E} (b : bool) (e : E) : result E unit :=
  if b then Ok tt else Err e.

Definition map_err {E F A} (f : E → F) (m : result E A) : result F A :=
  match m with Ok a => Ok a | Err e => Err (f e) end.

Definition is_ok {E A} (m : result E A) : bool :=
  match m with Ok _ => true | Err _ => false end.

(** * Assignments to the fields of a record

    [r <| f := v |>] is [r] after [r.f = v]; the update is derived from the
    expansion of a record that an instance of [Settable] gives. *)
Class Settable (R : Type) := rebuild : R → R.
Class Setter {R T : Type} (field : R → T) := update_field : (T → T) → R → R.
Ltac derive_setter :=
  match goal with
  | |- @Setter ?R _ ?field =>
      let inst := constr:(_ : Settable R) in
      let body := eval hnf in inst in
      match eval pattern field in body with
      | ?f _ => exact (λ g, f (λ r, g (field r)))
      end
  end.
#[export] Hint Extern 0 (Setter _) => derive_setter : typeclass_instances.
Notation "r <| field := v |>" := (update_field (field := field) (λ _, v) r)
  (at level 12, field at level 99, v at level 99, left associativity) : sync_scope.

(** Code that takes [&S] for a store with interior mutability: the store is
    threaded, and it is returned on the error path too, because a failing
    operation keeps the objects it has already written. *)
Definition St (S E A : Type) : Type := S → result E A * S.

Definition st_ret {S E A} (a : A) : St S E A := λ s, (Ok a, s).
Definition st_err {S E A} (e : E) : St S E A := λ s, (Err e, s).
Definition st_lift {S E A} (m : result E A) : St S E A := λ s, (m, s).
Definition st_bind {S E A B} (m : St S E A) (k : A → St S E B) : St S E B :=
  λ s, match m s with
       | (Ok a, s') => k a s'
       | (Err e, s') => (Err e, s')
       end.

Notation "'let!' x := m 'in' k" := (st_bind m (λ x, k))
  (at level 10, x name, m at level 100, k at level 200) : sync_scope.
Notation "'let!' ' p := m 'in' k" :=
  (st_bind m (λ x, match x with p => k end))
  (at level 10, p pattern, m at level 100, k at level 200) : sync_scope.

(** Sequential [for x in xs { ys.push(f(x)?) }]. *)
Fixpoint st_map {S E A B} (f : A → St S E B) (xs : list A) : St S E (list B) :=
  match xs with
  | [] => st_ret []
  | x :: xs =>
      let! y := f x in
      let! ys := st_map f xs in
      st_ret (y :: ys)
  end.

(** Sequential [for x in xs { acc = f(acc, x)? }]. *)
Fixpoint st_fold {S E A B} (f : B → A → St S E B) (acc : B) (xs : list A)
    : St S E B :=
  match xs with
  | [] => st_ret acc
  | x :: xs => let! acc' := f acc x in st_fold f acc' xs
  end.

(** * Machine integers

    [u8], [u16], [u32], [u64] and [usize] (64 bits on the server) are kept in
    [N]; every place where the source wraps, saturates or checks writes it
    out with the functions below. *)
Definition U8_MAX : N := 255.
Definition U16_MAX : N := 65535.
Definition U32_MAX : N := 4294967295.
Definition U64_MAX : N := 18446744073709551615.
Definition USIZE_MAX : N := U64_MAX.

Definition wrap64 (n : N) : N := (n mod 18446744073709551616)%N.
Definition saturating_add64 (a b : N) : N := N.min (a + b)%N U64_MAX.
Definition checked_add64 (a b : N) : option N :=
  (if a + b <=? U64_MAX then Some (a + b) else None)%N.
Definition checked_sub64 (a b : N) : option N :=
  (if b <=? a then Some (a - b) else None)%N.

(** [Vec::len], [str::len]. *)
Definition len {A} (l : list A) : N := N.of_nat (length l).

(** * Automation *)

(** Split on the conditionals and matches the translated code is made of. *)
Ltac case_code :=
  repeat match goal with
  | H : Ok _ = Err _ |- _ => discriminate H
  | H : Err _ = Ok _ |- _ => discriminate H
  | H : Some _ = None |- _ => discriminate H
  | H : None = Some _ |- _ => discriminate H
  | H : Ok _ = Ok _ |- _ => injection H as H
  | H : context [match ?x with _ => _ end] |- _ =>
      lazymatch x with context [match _ with _ => _ end] => fail | _ => idtac end;
      destruct x eqn:?
  | |- context [match ?x with _ => _ end] =>
      lazymatch x with context [match _ with _ => _ end] => fail | _ => idtac end;
      destruct x eqn:?
  end.

(** Turn the boolean tests of the code into propositions. *)
Ltac bool_to_prop :=
  repeat match goal with
  | H : _ && _ = true |- _ => apply andb_prop in H as [? ?]
  | H : _ || _ = false |- _ => apply orb_false_elim in H as [? ?]
  | H : negb _ = true |- _ => apply negb_true_iff in H
  | H : negb _ = false |- _ => apply negb_false_iff in H
  | H : N.eqb _ _ = true |- _ => apply N.eqb_eq in H
  | H : N.eqb _ _ = false |- _ => apply N.eqb_neq in H
  | H : N.ltb _ _ = true |- _ => apply N.ltb_lt in H
  | H : N.ltb _ _ = false |- _ => apply N.ltb_ge in H
  | H : N.leb _ _ = true |- _ => apply N.leb_le in H
  | H : N.leb _ _ = false |- _ => apply N.leb_gt in H
  | H : bool_decide _ = true |- _ => apply bool_decide_eq_true_1 in H
  | H : bool_decide _ = false |- _ => apply bool_decide_eq_false_1 in H
  end.

(** The database of the development: facts about lengths and orderings that
    close the routine side conditions. *)
Create HintDb sync.
Create Rewrite HintDb sync.

(** * Generic lemmas *)

Lemma st_bind_Ok {S E A B} (m : St S E A) (k : A → St S E B) s b s' :
  st_bind m k s = (Ok b, s') ↔
  ∃ a s1, m s = (Ok a, s1) ∧ k a s1 = (Ok b, s').
Proof.
  unfold st_bind. destruct (m s) as [[a|e] s1]; split; try done.
  - by exists a, s1.
  - intros (a' & s1' & [= -> ->] & H). done.
  - by intros (? & ? & [=] & _).
Qed.

Lemma st_bind_run {S E A B} (m : St S E A) (k : A → St S E B) s a s1 :
  m s = (Ok a, s1) → st_bind m k s = k a s1.
Proof. unfold st_bind. by intros ->. Qed.

Lemma st_bind_fail {S E A B} (m : St S E A) (k : A → St S E B) s e s1 :
  m s = (Err e, s1) → st_bind m k s = (Err e, s1).
Proof. unfold st_bind. by intros ->. Qed.

Lemma run_inj {S E A} (a a' : A) (s s' : S) :
  (Ok (E := E) a, s) = (Ok a', s') → a = a' ∧ s = s'.
Proof. by intros [= -> ->]. Qed.

Lemma let_ok {E A B} (m : result E A) (k : A → result E B) b :
  (let? x := m in k x) = Ok b ↔ ∃ a, m = Ok a ∧ k a = Ok b.
Proof. destruct m; split; [eauto|by intros (?&[= ->]&?)|done|by intros (?&[=]&?)]. Qed.

Lemma check_ok {E} b (e : E) u : check b e = Ok u ↔ b = true.
Proof. by destruct b, u. Qed.

Section len.
Context {A : Type}.
Implicit Types l : list A.

Lemma len_nil : len (@nil A) = 0%N.
Proof. done. Qed.
Lemma len_cons x l : len (x :: l) = (1 + len l)%N.
Proof. unfold len. simpl. lia. Qed.
Lemma len_app l1 l2 : len (l1 ++ l2) = (len l1 + len l2)%N.
Proof. unfold len. rewrite length_app. lia. Qed.
Lemma len_0 l : len l = 0%N ↔ l = [].
Proof. destruct l; unfold len; simpl; split; [done..|lia|done]. Qed.
Lemma len_length l n : len l = n ↔ length l = N.to_nat n.
Proof. unfold len. lia. Qed.
End len.

#[export] Hint Rewrite @len_nil @len_cons @len_app : sync.

(** Slices with [usize] bounds: [&l[..n]] and [&l[n..]]. *)
Definition takeN {A} (n : N) (l : list A) : list A := take (N.to_nat n) l.
Definition dropN {A} (n : N) (l : list A) : list A := drop (N.to_nat n) l.

Section slices.
Context {A : Type}.
Implicit Types (n k : N) (l : list A).
#[local] Open Scope N_scope.

Lemma dropN_app_le n l l' : n ≤ len l → dropN n (l ++ l') = dropN n l ++ l'.
Proof. unfold dropN, len. intros. by rewrite drop_app_le by lia. Qed.
Lemma takeN_app_le n l l' : n ≤ len l → takeN n (l ++ l') = takeN n l.
Proof. unfold takeN, len. intros. by rewrite take_app_le by lia. Qed.
Lemma len_dropN n l : len (dropN n l) = len l - n.
Proof. unfold dropN, len. rewrite length_drop. lia. Qed.
Lemma len_takeN n l : len (takeN n l) = N.min n (len l).
Proof. unfold takeN, len. rewrite length_take. lia. Qed.
Lemma takeN_dropN n l : takeN n l ++ dropN n l = l.
Proof. apply take_drop. Qed.
Lemma dropN_dropN n k l : dropN k (dropN n l) = dropN (n + k) l.
Proof. unfold dropN. rewrite drop_drop. f_equal. lia. Qed.
Lemma takeN_all n l : len l ≤ n → takeN n l = l.
Proof. unfold takeN, len. intros. apply take_ge. lia. Qed.
Lemma dropN_0 l : dropN 0 l = l.
Proof. done. Qed.
Lemma takeN_app n l l' : len l = n → takeN n (l ++ l') = l.
Proof. intros <-. unfold takeN, len. by rewrite take_app_length' by lia. Qed.
Lemma dropN_app n l l' : len l = n → dropN n (l ++ l') = l'.
Proof. intros <-. unfold dropN, len. by rewrite drop_app_length' by lia. Qed.
End slices.

(** [slice.windows(2).all(|w| f(w[0], w[1]))] *)
Fixpoint windows2 {A} (f : A → A → bool) (l : list A) : bool :=
  match l with
  | x :: ((y :: _) as l') => f x y && windows2 f l'
  | _ => true
  end.

Lemma windows2_Sorted {A} (R : relation A) (f : A → A → bool) l :
  (∀ x y, f x y = true ↔ R x y) → windows2 f l = true ↔ Sorted R l.
Proof.
  intros Hf. induction l as [|x [|y l] IH]; simpl in *.
  - split; [constructor|done].
  - split; [repeat constructor|done].
  - rewrite andb_true_iff, Hf, IH. split.
    + intros [??]. constructor; [done|by constructor].
    + intros [Hs Hh]%Sorted_inv. apply HdRel_inv in Hh. done.
Qed.

Lemma forallb_impl {A} (f g : A → bool) l :
  (∀ x, f x = true → g x = true) → forallb f l = true → forallb g l = true.
Proof. intros H. rewrite !forallb_forall. auto. Qed.

(** [a] is injective on the elements that satisfy [P]: how collision
    resistance of the content hash is stated, for a set of byte strings. *)
Definition injective_on {A B} (f : A → B) (P : A → Prop) : Prop :=
  ∀ x y, P x → P y → f x = f y → x = y.

Lemma injective_on_mono {A B} (f : A → B) (P Q : A → Prop) :
  (∀ x, Q x → P x) → injective_on f P → injective_on f Q.
Proof. intros HPQ Hf x y Hx Hy. apply Hf; auto. Qed.
