(* ===== verification/Bytes.v ===== *)
(** Bytes, byte strings and their orderings; little- and big-endian integers;
    UTF-8 and the [str] operations of the Rust standard library that the
    program uses; lists keyed by a byte string (path-sorted entry lists).

    A Rust [String] or [&str] is the list of its UTF-8 bytes: [str::cmp] is
    the lexicographic order on bytes, and validity is [utf8]. *)

From S2P Require Import Prelude.
Local Open Scope N_scope.

Abbreviation byte := Byte.byte.
Abbreviation bytes := (list byte).

(** * Bytes *)

Definition b2n (b : byte) : N := Byte.to_N b.
Definition n2b (n : N) : byte :=
  match Byte.of_N (n mod 256) with Some b => b | None => x00 end.

#[global] Instance byte_eq_dec : EqDecision byte := Byte.byte_eq_dec.

Lemma b2n_bound b : b2n b < 256.
Proof. unfold b2n. pose proof (Byte.to_N_bounded b). lia. Qed.

Lemma n2b_b2n b : n2b (b2n b) = b.
Proof.
  unfold n2b. rewrite N.mod_small by apply b2n_bound.
  unfold b2n. by rewrite Byte.of_to_N.
Qed.

Lemma b2n_n2b n : b2n (n2b n) = n mod 256.
Proof.
  unfold n2b. destruct (Byte.of_N (n mod 256)) eqn:E.
  - unfold b2n. by apply Byte.to_of_N.
  - apply Byte.of_N_None_iff in E.
    pose proof (N.mod_upper_bound n 256 ltac:(done)). lia.
Qed.

#[global] Instance b2n_inj : Inj (=) (=) b2n.
Proof. intros a b H. by rewrite <-(n2b_b2n a), <-(n2b_b2n b), H. Qed.

#[global] Program Instance byte_countable : Countable byte :=
  inj_countable' b2n n2b _.
Next Obligation. intros. apply n2b_b2n. Qed.

(** A literal byte string. *)
Definition str (s : string) : bytes := String.list_byte_of_string s.

(** * Endianness *)

(** [x.to_le_bytes()] for an [8 * n]-bit [x]. *)
Fixpoint le_bytes (n : nat) (x : N) : bytes :=
  match n with
  | O => []
  | S n => n2b x :: le_bytes n (x / 256)
  end.

(** [uN::from_le_bytes]. *)
Fixpoint le_val (l : bytes) : N :=
  match l with
  | [] => 0
  | b :: l => b2n b + 256 * le_val l
  end.

Definition be_bytes (n : nat) (x : N) : bytes := rev (le_bytes n x).
Definition be_val (l : bytes) : N := le_val (rev l).

Lemma length_le_bytes n x : length (le_bytes n x) = n.
Proof. revert x. induction n; intros; simpl; auto. Qed.

Lemma len_le_bytes n x : len (le_bytes n x) = N.of_nat n.
Proof. unfold len. by rewrite length_le_bytes. Qed.

Lemma le_val_le_bytes n x : x < 256 ^ N.of_nat n → le_val (le_bytes n x) = x.
Proof.
  revert x. induction n as [|n IH]; intros x Hx; simpl in *.
  - lia.
  - rewrite b2n_n2b, IH.
    + pose proof (N.div_mod x 256 ltac:(done)). lia.
    + apply N.Div0.div_lt_upper_bound.
      replace (256 * 256 ^ N.of_nat n) with (256 ^ N.of_nat (S n)); [done|].
      rewrite Nat2N.inj_succ, N.pow_succ_r'. done.
Qed.

Lemma le_val_bound l : le_val l < 256 ^ len l.
Proof.
  unfold len. induction l as [|b l IH]; simpl; [done|].
  change (N.pos (Pos.of_succ_nat (length l))) with (N.of_nat (S (length l))).
  rewrite Nat2N.inj_succ, N.pow_succ_r'.
  pose proof (b2n_bound b). nia.
Qed.

Lemma le_bytes_le_val l n : length l = n → le_bytes n (le_val l) = l.
Proof.
  intros <-. induction l as [|b l IH]; simpl; [done|].
  pose proof (b2n_bound b).
  rewrite (N.mul_comm 256), N.div_add, N.div_small by lia. simpl.
  f_equal; [|done].
  unfold n2b. rewrite N.Div0.mod_add. fold (n2b (b2n b)). apply n2b_b2n.
Qed.

Lemma length_be_bytes n x : length (be_bytes n x) = n.
Proof. unfold be_bytes. by rewrite length_rev, length_le_bytes. Qed.

Lemma be_val_be_bytes n x : x < 256 ^ N.of_nat n → be_val (be_bytes n x) = x.
Proof.
  intros. unfold be_val, be_bytes. rewrite rev_involutive.
  by apply le_val_le_bytes.
Qed.

#[export] Hint Rewrite length_le_bytes length_be_bytes len_le_bytes : sync.

(** * The byte order on strings *)

(** [str::cmp], [<[u8]>::cmp]. *)
Fixpoint bcmp (a b : bytes) : comparison :=
  match a, b with
  | [], [] => Eq
  | [], _ :: _ => Lt
  | _ :: _, [] => Gt
  | x :: a, y :: b =>
      match (b2n x ?= b2n y) with
      | Eq => bcmp a b
      | c => c
      end
  end.

Definition blt (a b : bytes) : bool :=
  match bcmp a b with Lt => true | _ => false end.
Definition ble (a b : bytes) : bool :=
  match bcmp a b with Gt => false | _ => true end.
Definition beq (a b : bytes) : bool := bool_decide (a = b).

Definition bytes_lt (a b : bytes) : Prop := bcmp a b = Lt.
Infix "≺" := bytes_lt (at level 70) : sync_scope.

Lemma bcmp_refl a : bcmp a a = Eq.
Proof. induction a; simpl; [done|]. by rewrite N.compare_refl. Qed.

Lemma bcmp_eq a b : bcmp a b = Eq ↔ a = b.
Proof.
  split; [|intros ->; apply bcmp_refl].
  revert b. induction a as [|x a IH]; intros [|y b]; simpl; try done.
  destruct (N.compare_spec (b2n x) (b2n y)) as [E| |]; try done.
  intros ->%IH. apply (inj b2n) in E. by subst.
Qed.

Lemma bcmp_antisym a b : bcmp b a = CompOpp (bcmp a b).
Proof.
  revert b. induction a as [|x a IH]; intros [|y b]; simpl; try done.
  rewrite (N.compare_antisym (b2n x) (b2n y)).
  destruct (b2n x ?= b2n y); simpl; auto.
Qed.

Lemma bcmp_gt a b : bcmp a b = Gt ↔ b ≺ a.
Proof.
  unfold bytes_lt. rewrite (bcmp_antisym a b). by destruct (bcmp a b).
Qed.

#[global] Instance bytes_lt_trans : Transitive bytes_lt.
Proof.
  unfold bytes_lt. intros a b c. revert b c.
  induction a as [|x a IH]; intros [|y b] [|z c]; simpl; try done.
  intros Hab Hbc.
  destruct (N.compare_spec (b2n x) (b2n y)) as [E1|E1|E1]; try done;
    destruct (N.compare_spec (b2n y) (b2n z)) as [E2|E2|E2]; try done.
  - rewrite (proj2 (N.compare_eq_iff _ _)) by congruence. eauto.
  - rewrite (proj2 (N.compare_lt_iff _ _)); [done|lia].
  - rewrite (proj2 (N.compare_lt_iff _ _)); [done|lia].
  - rewrite (proj2 (N.compare_lt_iff _ _)); [done|lia].
Qed.

#[global] Instance bytes_lt_irrefl : Irreflexive bytes_lt.
Proof. intros a H. unfold bytes_lt in H. by rewrite bcmp_refl in H. Qed.

#[global] Instance bytes_lt_strict : StrictOrder bytes_lt := {}.

#[global] Instance bytes_lt_dec : RelDecision bytes_lt.
Proof.
  intros a b. unfold bytes_lt.
  destruct (bcmp a b) eqn:E; [right|left|right]; congruence.
Defined.

Lemma bytes_lt_asym a b : a ≺ b → b ≺ a → False.
Proof. intros H1 H2. apply (irreflexivity bytes_lt a). by transitivity b. Qed.

Lemma bytes_lt_ne a b : a ≺ b → a ≠ b.
Proof. intros H ->. by apply (irreflexivity bytes_lt b). Qed.

Lemma bytes_trichotomy a b : a ≺ b ∨ a = b ∨ b ≺ a.
Proof.
  destruct (bcmp a b) eqn:E; [apply bcmp_eq in E|..]; auto.
  right; right. by apply bcmp_gt.
Qed.

Lemma bcmp_spec a b : CompareSpec (a = b) (a ≺ b) (b ≺ a) (bcmp a b).
Proof.
  destruct (bcmp a b) eqn:E; constructor.
  - by apply bcmp_eq.
  - done.
  - by apply bcmp_gt.
Qed.

Lemma blt_true a b : blt a b = true ↔ a ≺ b.
Proof. unfold blt, bytes_lt. by destruct (bcmp a b). Qed.
Lemma ble_true a b : ble a b = true ↔ ¬ b ≺ a.
Proof.
  unfold ble. destruct (bcmp_spec a b) as [->|H|H].
  - split; [|done]. intros _. apply (irreflexivity bytes_lt).
  - split; [|done]. intros _ H'. by eapply bytes_lt_asym.
  - by split.
Qed.
Lemma beq_true a b : beq a b = true ↔ a = b.
Proof. apply bool_decide_eq_true. Qed.

Lemma beq_refl b : beq b b = true.
Proof. by apply beq_true. Qed.

#[export] Hint Resolve bytes_lt_ne : sync.

(** * Slices *)

(** [&s[from..to]] when [from <= to <= s.len()]. *)
Definition slice (s : bytes) (from to : N) : bytes :=
  take (N.to_nat (to - from)) (drop (N.to_nat from) s).

(** [s.get(from..to)]: [None] when the range does not fit. *)
Definition get_range (s : bytes) (from to : N) : option bytes :=
  if (from <=? to) && (to <=? len s) then Some (slice s from to) else None.

Fixpoint starts_with (s p : bytes) : bool :=
  match p, s with
  | [], _ => true
  | x :: p, y :: s => bool_decide (x = y) && starts_with s p
  | _ :: _, [] => false
  end.

Definition ends_with (s p : bytes) : bool := starts_with (rev s) (rev p).

Lemma starts_with_app s p : starts_with s p = true ↔ ∃ q, s = p ++ q.
Proof.
  revert s. induction p as [|x p IH]; intros [|y s]; simpl.
  - split; eauto.
  - split; eauto.
  - split; [done|]. by intros [??].
  - rewrite andb_true_iff, bool_decide_eq_true, IH. split.
    + intros [-> [q ->]]. eauto.
    + intros [q [= -> ->]]. eauto.
Qed.

(** [s.contains(c)] for an ASCII character. *)
Definition contains_byte (s : bytes) (c : byte) : bool :=
  existsb (λ b, bool_decide (b = c)) s.

(** [s.find(c)] for an ASCII character. *)
Fixpoint find_byte (s : bytes) (c : byte) : option N :=
  match s with
  | [] => None
  | b :: s => if bool_decide (b = c) then Some 0 else N.succ <$> find_byte s c
  end.

(** [s.split(c)] for an ASCII character: never empty. *)
Fixpoint split_byte (s : bytes) (c : byte) : list bytes :=
  match s with
  | [] => [[]]
  | b :: s =>
      if bool_decide (b = c) then [] :: split_byte s c
      else match split_byte s c with
           | seg :: segs => (b :: seg) :: segs
           | [] => [[b]]
           end
  end.

(** [s.rsplit(c).next()]: the part after the last [c]. *)
Definition rsplit_first (s : bytes) (c : byte) : bytes :=
  List.last (split_byte s c) [].

Lemma split_byte_nonempty s c : split_byte s c ≠ [].
Proof.
  destruct s; simpl; [done|]. case_bool_decide; [done|].
  by destruct (split_byte s c).
Qed.

(** * UTF-8 *)

Definition in_range (lo b hi : N) : bool := (lo <=? b) && (b <=? hi).

(** The scalar values of a well-formed UTF-8 string, [None] when
    [std::str::from_utf8] fails (the table of core::str::validations). *)
Fixpoint utf8_decode (s : bytes) : option (list N) :=
  match s with
  | [] => Some []
  | c0 :: s0 =>
      let w := b2n c0 in
      if w <? 0x80 then cons w <$> utf8_decode s0
      else
        match s0 with
        | [] => None
        | c1 :: s1 =>
            let b1 := b2n c1 in
            if in_range 0xC2 w 0xDF then
              if in_range 0x80 b1 0xBF
              then cons ((w - 0xC0) * 64 + (b1 - 0x80)) <$> utf8_decode s1
              else None
            else
              match s1 with
              | [] => None
              | c2 :: s2 =>
                  let b2 := b2n c2 in
                  if in_range 0xE0 w 0xEF then
                    let lo := if w =? 0xE0 then 0xA0 else 0x80 in
                    let hi := if w =? 0xED then 0x9F else 0xBF in
                    if in_range lo b1 hi && in_range 0x80 b2 0xBF
                    then cons ((w - 0xE0) * 4096 + (b1 - 0x80) * 64 + (b2 - 0x80))
                           <$> utf8_decode s2
                    else None
                  else
                    match s2 with
                    | [] => None
                    | c3 :: s3 =>
                        let b3 := b2n c3 in
                        let lo := if w =? 0xF0 then 0x90 else 0x80 in
                        let hi := if w =? 0xF4 then 0x8F else 0xBF in
                        if in_range 0xF0 w 0xF4 && in_range lo b1 hi
                           && in_range 0x80 b2 0xBF && in_range 0x80 b3 0xBF
                        then cons ((w - 0xF0) * 262144 + (b1 - 0x80) * 4096
                                   + (b2 - 0x80) * 64 + (b3 - 0x80))
                               <$> utf8_decode s3
                        else None
                    end
              end
        end
  end.

(** [std::str::from_utf8(s).is_ok()]. *)
Definition utf8 (s : bytes) : bool :=
  match utf8_decode s with Some _ => true | None => false end.

(** [s.chars()]. *)
Definition chars (s : bytes) : list N := default [] (utf8_decode s).

(** [char::is_control]: general category Cc. *)
Definition is_control (c : N) : bool :=
  (c <? 0x20) || in_range 0x7F c 0x9F.

Definition to_ascii_lowercase (s : bytes) : bytes :=
  (λ b, if in_range 65 (b2n b) 90 then n2b (b2n b + 32) else b) <$> s.

(** * Facts about UTF-8 *)

Definition ascii_byte (b : byte) : bool := b2n b <? 0x80.

Lemma utf8_decode_ascii b s :
  ascii_byte b = true → utf8_decode (b :: s) = cons (b2n b) <$> utf8_decode s.
Proof. unfold ascii_byte. simpl. by intros ->. Qed.

Lemma utf8_ascii s : forallb ascii_byte s = true → utf8 s = true.
Proof.
  unfold utf8. intros Hs. assert (is_Some (utf8_decode s)) as [? ->]; [|done].
  induction s as [|b s IH]; [simpl; eauto|].
  apply andb_prop in Hs as [Hb Hs]. rewrite utf8_decode_ascii by done.
  destruct (IH Hs) as [? ->]. simpl. eauto.
Qed.

(** Induction over the decoding steps of a well-formed string: one character
    of one to four bytes at a time. [P] is shown for the empty string and
    preserved by a leading character [c], whose bytes decode in front of any
    suffix. *)
Lemma utf8_ind (P : bytes → Prop) :
  P [] →
  (∀ c s x, utf8_decode s ≠ None →
     (∀ t, utf8_decode (c ++ t) = cons x <$> utf8_decode t) →
     ((∃ b, c = [b] ∧ ascii_byte b = true) ∨ forallb (λ b, negb (ascii_byte b)) c = true) →
     P s → P (c ++ s)) →
  ∀ s, utf8_decode s ≠ None → P s.
Proof.
  intros Hnil Hstep s. remember (length s) as n eqn:En.
  assert (length s ≤ n)%nat as Hn by lia. clear En.
  revert s Hn. induction n as [|n IH]; intros s Hn Hs.
  { destruct s; [done|simpl in Hn; lia]. }
  assert (∀ c t x, s = c ++ t → (length t < length s)%nat →
    (∀ t, utf8_decode (c ++ t) = cons x <$> utf8_decode t) →
    ((∃ b, c = [b] ∧ ascii_byte b = true) ∨ forallb (λ b, negb (ascii_byte b)) c = true) →
    P s) as G.
  { intros c t x -> Ht Hc Hcc. rewrite Hc in Hs.
    assert (utf8_decode t ≠ None) by (by destruct (utf8_decode t)).
    eapply Hstep; eauto. apply IH; [lia|done]. }
  destruct s as [|c0 s0]; [done|].
  destruct (b2n c0 <? 0x80) eqn:E0.
  { apply (G [c0] s0 (b2n c0)); [done|simpl; lia|..].
    - intros t. simpl. by rewrite E0.
    - left. eauto. }
  assert (ascii_byte c0 = false) as A0 by done.
  assert (∀ lo b hi, in_range lo (b2n b) hi = true → 0x80 ≤ lo → ascii_byte b = false) as A.
  { intros lo b hi Hr Hlo. unfold in_range in Hr. unfold ascii_byte. bool_to_prop.
    apply N.ltb_ge. lia. }
  simpl in Hs. rewrite E0 in Hs.
  destruct s0 as [|c1 s1]; [done|].
  destruct (in_range 0xC2 (b2n c0) 0xDF) eqn:E1.
  { destruct (in_range 0x80 (b2n c1) 0xBF) eqn:E2; [|done].
    eapply (G [c0; c1] s1); [done|simpl; lia|..].
    - intros t. simpl. rewrite E0, E1, E2. done.
    - right. simpl. rewrite A0, (A _ _ _ E2 ltac:(done)). done. }
  destruct s1 as [|c2 s2]; [done|].
  destruct (in_range 0xE0 (b2n c0) 0xEF) eqn:E2.
  { destruct (in_range _ (b2n c1) _ && in_range 0x80 (b2n c2) 0xBF) eqn:E3; [|done].
    eapply (G [c0; c1; c2] s2); [done|simpl; lia|..].
    - intros t. simpl. rewrite E0, E1, E2, E3. done.
    - right. apply andb_prop in E3 as [E3 E4]. simpl.
      rewrite A0, (A _ _ _ E4 ltac:(done)), (A _ _ _ E3 ltac:(by case_match)). done. }
  destruct s2 as [|c3 s3]; [done|].
  destruct (in_range 0xF0 (b2n c0) 0xF4 && _ && _ && _) eqn:E3; [|done].
  eapply (G [c0; c1; c2; c3] s3); [done|simpl; lia|..].
  - intros t. simpl. rewrite E0, E1, E2, E3. done.
  - right. apply andb_prop in E3 as [E3 E6]. apply andb_prop in E3 as [E3 E5].
    apply andb_prop in E3 as [E3 E4]. simpl.
    rewrite A0, (A _ _ _ E5 ltac:(done)), (A _ _ _ E6 ltac:(done)),
      (A _ _ _ E4 ltac:(by case_match)). done.
Qed.

Lemma utf8_decode_app a b :
  utf8 a = true → utf8_decode (a ++ b) = (λ y, chars a ++ y) <$> utf8_decode b.
Proof.
  unfold utf8, chars. intros Ha. assert (utf8_decode a ≠ None) as Hn by (by destruct (utf8_decode a)).
  clear Ha. revert a Hn. apply utf8_ind.
  - simpl. by destruct (utf8_decode b).
  - intros c s x Hs Hc _ IH. rewrite <-app_assoc, !Hc, IH.
    destruct (utf8_decode s); [|done]. simpl. by destruct (utf8_decode b).
Qed.

Lemma utf8_app a b : utf8 a = true → utf8 b = true → utf8 (a ++ b) = true.
Proof.
  intros Ha Hb. unfold utf8. rewrite utf8_decode_app by done.
  unfold utf8 in Hb. by destruct (utf8_decode b).
Qed.

(** An ASCII byte is a character boundary. *)
Lemma utf8_split_ascii a c b :
  ascii_byte c = true → utf8 (a ++ c :: b) = true → utf8 (a ++ [c]) = true.
Proof.
  intros Hc Hu. unfold utf8 in Hu.
  assert (utf8_decode (a ++ c :: b) ≠ None) as Hn by (by destruct (utf8_decode _)).
  clear Hu. remember (a ++ c :: b) as s eqn:Es. revert a Es.
  revert s Hn. refine (utf8_ind _ _ _).
  { intros a Ha. by destruct a. }
  intros w s x Hs Hw Hww IH a Ea.
  assert (∀ a', s = a' ++ c :: b → utf8 (w ++ a' ++ [c]) = true) as Hgo.
  { intros a' Ea'. specialize (IH a' Ea'). unfold utf8 in *. rewrite Hw.
    by destruct (utf8_decode (a' ++ [c])). }
  destruct Hww as [(b0 & -> & Hb0)|Hww].
  - destruct a as [|y a]; simpl in Ea; simplify_eq.
    + by apply utf8_ascii; simpl; rewrite Hc.
    + by apply Hgo.
  - (* the multi-byte character lies inside [a] *)
    apply app_eq_inv in Ea as [(k & -> & Ek)|(k & -> & Ek)].
    + destruct k as [|y k]; simpl in Ek.
      * rewrite app_nil_r in *. apply (Hgo []). done.
      * simplify_eq. rewrite forallb_app in Hww. simpl in Hww. rewrite Hc in Hww.
        by rewrite andb_false_r in Hww.
    + rewrite <-app_assoc. by apply Hgo.
Qed.
