(* ===== verification/Text.v ===== *)
(** The string functions of the Rust standard library that the program uses
    on untrusted text: lossy UTF-8 decoding, the trimming of white space,
    decimal numbers and the first characters. *)

From S2P Require Import Prelude Bytes.
Local Open Scope nat_scope.

(** * Lossy decoding *)

(** The leading character of a byte string: [inl n] when its first [n] bytes
    are one, [inr n] when they are a maximal invalid sequence. *)
Definition utf8_lead (s : bytes) : nat + nat :=
  let cont := λ lo hi (o : option byte),
    match o with Some b => in_range lo (b2n b) hi | None => false end in
  match s with
  | [] => inr 1
  | c0 :: s0 =>
      let w := b2n c0 in
      if (w <? 0x80)%N then inl 1
      else if in_range 0xC2 w 0xDF then
        if cont 0x80%N 0xBF%N (s0 !! 0) then inl 2 else inr 1
      else if in_range 0xE0 w 0xEF then
        if cont (if (w =? 0xE0)%N then 0xA0%N else 0x80%N)
                (if (w =? 0xED)%N then 0x9F%N else 0xBF%N) (s0 !! 0)
        then if cont 0x80%N 0xBF%N (s0 !! 1) then inl 3 else inr 2
        else inr 1
      else if in_range 0xF0 w 0xF4 then
        if cont (if (w =? 0xF0)%N then 0x90%N else 0x80%N)
                (if (w =? 0xF4)%N then 0x8F%N else 0xBF%N) (s0 !! 0)
        then if cont 0x80%N 0xBF%N (s0 !! 1)
             then if cont 0x80%N 0xBF%N (s0 !! 2) then inl 4 else inr 3
             else inr 2
        else inr 1
      else inr 1
  end.

Fixpoint lossy_loop (fuel : nat) (s : bytes) : bytes :=
  match fuel with
  | O => []
  | S fuel =>
      match s with
      | [] => []
      | _ =>
          match utf8_lead s with
          | inl n => take n s ++ lossy_loop fuel (drop n s)
          | inr n => [xef; xbf; xbd] ++ lossy_loop fuel (drop n s)
          end
      end
  end.

(** [String::from_utf8_lossy]. *)
Definition from_utf8_lossy (s : bytes) : bytes := lossy_loop (length s) s.

#[local] Ltac found H := split; [done|]; intros E; apply H; cbv [skipn] in E; by rewrite E.

Lemma lossy_loop_valid fuel s :
  length s ≤ fuel → utf8_decode s ≠ None → lossy_loop fuel s = s.
Proof.
  revert s. induction fuel as [|fuel IH]; intros s Hl Hs.
  { by destruct s; [|simpl in Hl; lia]. }
  destruct s as [|c0 s0]; [done|]. cbn [lossy_loop].
  assert (∃ n, utf8_lead (c0 :: s0) = inl (S n) ∧ utf8_decode (drop n s0) ≠ None) as (n & -> & Hn).
  { unfold utf8_lead. cbn [utf8_decode] in Hs.
    destruct (b2n c0 <? 0x80)%N; [exists 0; found Hs|].
    destruct s0 as [|c1 s1]; [done|]. cbn [lookup list_lookup].
    destruct (in_range 0xC2 (b2n c0) 0xDF).
    { destruct (in_range 0x80 (b2n c1) 0xBF); [|done]. exists 1. found Hs. }
    destruct s1 as [|c2 s2]; [done|]. cbn [lookup list_lookup].
    destruct (in_range 0xE0 (b2n c0) 0xEF).
    { destruct (in_range _ (b2n c1) _); [|done]. destruct (in_range 0x80 (b2n c2) 0xBF); [|done].
      exists 2. found Hs. }
    destruct s2 as [|c3 s3]; [done|]. cbn [lookup list_lookup]. destruct (in_range 0xF0 (b2n c0) 0xF4); [|done].
    destruct (in_range _ (b2n c1) _); [|done]. destruct (in_range 0x80 (b2n c2) 0xBF); [|done].
    destruct (in_range 0x80 (b2n c3) 0xBF); [|done]. exists 3. found Hs. }
  cbn [take drop app]. rewrite IH; [by rewrite take_drop| |done].
  rewrite length_drop. simpl in Hl. lia.
Qed.

Lemma from_utf8_lossy_valid s : utf8 s = true → from_utf8_lossy s = s.
Proof.
  intros Hs. apply lossy_loop_valid; [done|]. unfold utf8 in Hs. by destruct (utf8_decode s).
Qed.

(** Decoding never hides an invalid byte behind ASCII. *)
Lemma lossy_loop_ascii fuel s :
  length s ≤ fuel → forallb ascii_byte (lossy_loop fuel s) = true → lossy_loop fuel s = s.
Proof.
  revert s. induction fuel as [|fuel IH]; intros s Hl.
  { by destruct s; [|simpl in Hl; lia]. }
  destruct s as [|c s]; [done|]. cbn [lossy_loop].
  destruct (utf8_lead (c :: s)) as [n|n] eqn:E; [|done].
  assert (n ≠ 0) as Hn by (unfold utf8_lead in E; repeat case_match; simplify_eq; lia).
  rewrite forallb_app. intros [_ Ha]%andb_prop.
  rewrite IH; [apply take_drop| |done].
  rewrite length_drop. simpl in *. lia.
Qed.

Lemma from_utf8_lossy_ascii s :
  forallb ascii_byte (from_utf8_lossy s) = true → from_utf8_lossy s = s.
Proof. by apply lossy_loop_ascii. Qed.

(** * Trimming *)

(** The length of the white-space character a string starts with, 0 when it
    starts with none: the characters of [char::is_whitespace] (Unicode
    White_Space) in their UTF-8 encoding. *)
Definition space_lead (s : bytes) : nat :=
  match s with
  | [] => 0
  | c0 :: s0 =>
      let w := b2n c0 in
      if in_range 0x09 w 0x0D || (w =? 0x20)%N then 1
      else
        match s0 with
        | [] => 0
        | c1 :: s1 =>
            let b1 := b2n c1 in
            if (w =? 0xC2)%N && ((b1 =? 0x85)%N || (b1 =? 0xA0)%N) then 2
            else
              match s1 with
              | [] => 0
              | c2 :: _ =>
                  let b2 := b2n c2 in
                  if (w =? 0xE1)%N && (b1 =? 0x9A)%N && (b2 =? 0x80)%N
                     || (w =? 0xE2)%N && (b1 =? 0x80)%N
                        && (in_range 0x80 b2 0x8A || in_range 0xA8 b2 0xA9 || (b2 =? 0xAF)%N)
                     || (w =? 0xE2)%N && (b1 =? 0x81)%N && (b2 =? 0x9F)%N
                     || (w =? 0xE3)%N && (b1 =? 0x80)%N && (b2 =? 0x80)%N
                  then 3 else 0
              end
        end
  end.

(** The length of the white-space character a string ends with: in UTF-8 the
    encoding of a character is a suffix of valid text only as its last
    character. *)
Definition space_tail (s : bytes) : nat :=
  let n := length s in
  if space_lead (drop (n - 1) s) =? 1 then 1
  else if space_lead (drop (n - 2) s) =? 2 then 2
  else if space_lead (drop (n - 3) s) =? 3 then 3 else 0.

Fixpoint trim_start_loop (fuel : nat) (s : bytes) : bytes :=
  match fuel, space_lead s with
  | S fuel, S n => trim_start_loop fuel (drop (S n) s)
  | _, _ => s
  end.
Fixpoint trim_end_loop (fuel : nat) (s : bytes) : bytes :=
  match fuel, space_tail s with
  | S fuel, S n => trim_end_loop fuel (take (length s - S n) s)
  | _, _ => s
  end.

(** [str::trim]; every round of a loop removes a byte at least. *)
Definition trim (s : bytes) : bytes :=
  let s := trim_start_loop (length s) s in trim_end_loop (length s) s.

Example trim_unicode :
  trim (str " " ++ [xe2; x80; x83] ++ str "a b" ++ [xc2; xa0; x0a]) = str "a b".
Proof. reflexivity. Qed.

Lemma trim_start_none fuel s : space_lead s = 0 → trim_start_loop fuel s = s.
Proof. destruct fuel; [done|]. cbn [trim_start_loop]. by intros ->. Qed.

Lemma trim_end_prefix fuel s : trim_end_loop fuel s `prefix_of` s.
Proof.
  revert s. induction fuel as [|fuel IH]; intros s; cbn [trim_end_loop]; [done|].
  destruct (space_tail s) as [|n]; [done|].
  etrans; [apply IH|]. exists (drop (length s - S n) s). by rewrite take_drop.
Qed.

(** Trimming text that starts with no white space keeps a prefix of it. *)
Lemma trim_prefix s : space_lead s = 0 → trim s `prefix_of` s.
Proof. intros H. unfold trim. rewrite trim_start_none by done. apply trim_end_prefix. Qed.

Definition no_space (s : bytes) : Prop := ∀ n, space_lead (drop n s) = 0.

Lemma trim_none s : no_space s → trim s = s.
Proof.
  intros H. unfold trim. rewrite trim_start_none by apply (H 0).
  destruct (length s) as [|n] eqn:E; [done|]. cbn [trim_end_loop].
  assert (space_tail s = 0) as ->; [|done]. unfold space_tail. by rewrite !H.
Qed.

(** Printable ASCII text has no white space. *)
Lemma no_space_printable s : forallb (λ b, in_range 0x21 (b2n b) 0x7E) s = true → no_space s.
Proof.
  intros Hs n. assert (forallb (λ b, in_range 0x21 (b2n b) 0x7E) (drop n s) = true) as Hd.
  { rewrite <-(take_drop n s), forallb_app in Hs. by apply andb_prop in Hs as [_ ?]. }
  destruct (drop n s) as [|c l]; [done|]. cbn [forallb] in Hd. apply andb_prop in Hd as [Hc _].
  unfold in_range in Hc. apply andb_prop in Hc as [H1%N.leb_le H2%N.leb_le].
  unfold space_lead, in_range.
  rewrite (proj2 (N.leb_gt (b2n c) 0x0D)), andb_false_r, (proj2 (N.eqb_neq (b2n c) 0x20)) by lia.
  rewrite (proj2 (N.eqb_neq (b2n c) 0xC2)), (proj2 (N.eqb_neq (b2n c) 0xE1)),
    (proj2 (N.eqb_neq (b2n c) 0xE2)), (proj2 (N.eqb_neq (b2n c) 0xE3)) by lia.
  cbn [andb orb]. by destruct l as [|? [|? ?]].
Qed.

(** * Numbers *)

Local Open Scope N_scope.

(** [u64::to_string]. *)
Fixpoint decimal_loop (fuel : nat) (n : N) : bytes :=
  match fuel with
  | O => []
  | S fuel => (if n <? 10 then [] else decimal_loop fuel (n / 10)) ++ [n2b (0x30 + n mod 10)]
  end.
Definition decimal (n : N) : bytes := decimal_loop (S (N.size_nat n)) n.

(** [str::parse::<u64>]. *)
Definition parse_digit (acc : option N) (b : byte) : option N :=
  match acc with
  | None => None
  | Some acc =>
      if in_range 0x30 (b2n b) 0x39 then
        let v := acc * 10 + (b2n b - 0x30) in if v <=? U64_MAX then Some v else None
      else None
  end.
Definition parse_u64 (s : bytes) : option N :=
  let digits := match s with
                | b :: (_ :: _) as rest => if bool_decide (b = "+"%byte) then rest else s
                | _ => s
                end in
  match digits with [] => None | _ => foldl parse_digit (Some 0) digits end.

(** * Characters *)

(** [chars().take(n)] of a string, which is valid UTF-8. *)
Fixpoint take_chars (n : nat) (s : bytes) : bytes :=
  match s with
  | [] => []
  | b :: rest =>
      if in_range 0x80 (b2n b) 0xBF then b :: take_chars n rest
      else match n with O => [] | S n => b :: take_chars n rest end
  end.
