(* ===== verification/Keyed.v ===== *)
(** Lists of records ordered by a byte-string key: the representation of
    entry lists, child lists and delta lists throughout the program.

    Strict sortedness, the stable sort and the binary search of the standard
    library, adjacent-duplicate removal, and the finite map from keys to
    records that a strictly sorted list stands for. *)

From S2P Require Import Prelude Bytes.

(** * Binary search

    [slice::binary_search_by], the loop of the standard library: [f] compares
    an element with the target. [Ok i] is a match, [Err i] the insertion
    point. *)
Section binary_search.
Context {A : Type} (f : A → comparison).

Definition cmp_at (l : list A) (i : nat) : comparison :=
  match l !! i with Some x => f x | None => Gt end.

Fixpoint bs_loop (l : list A) (fuel base size : nat) : nat :=
  match fuel with
  | O => base
  | S fuel =>
      if (size <=? 1)%nat then base
      else
        let half := Nat.div2 size in
        let mid := base + half in
        match cmp_at l mid with
        | Gt => bs_loop l fuel base (size - half)
        | _ => bs_loop l fuel mid (size - half)
        end
  end.

Definition binary_search_by (l : list A) : result nat nat :=
  if (length l =? 0)%nat then Err 0
  else
    let base := bs_loop l (length l) 0 (length l) in
    match cmp_at l base with
    | Eq => Ok base
    | Lt => Err (S base)
    | Gt => Err base
    end.

Lemma bs_loop_spec l fuel base size :
  1 ≤ size → size ≤ S fuel → base + size ≤ length l →
  (base = 0 ∨ cmp_at l base ≠ Gt) →
  (∀ i, base + size ≤ i → cmp_at l i = Gt) →
  (∀ i j, i ≤ j → cmp_at l i = Gt → cmp_at l j = Gt) →
  let b := bs_loop l fuel base size in
  b < length l ∧ (b = 0 ∨ cmp_at l b ≠ Gt) ∧
  (∀ i, b < i → cmp_at l i = Gt).
Proof.
  revert base size. induction fuel as [|fuel IH]; intros base size; simpl.
  - intros. split_and!; [lia|done|]. intros i Hi.
    match goal with H : ∀ i, _ → cmp_at l i = Gt |- _ => apply H; lia end.
  - intros H1 Hf Hlen Hb Hr Hm.
    destruct (Nat.leb_spec size 1) as [Hs|Hs].
    { split_and!; [lia|done|]. intros i Hi. apply Hr. lia. }
    pose proof (Nat.div2_odd size) as Hd.
    assert (1 ≤ Nat.div2 size < size).
    { destruct (Nat.odd size); simpl in Hd; lia. }
    destruct (cmp_at l (base + Nat.div2 size)) eqn:E.
    + apply IH; try lia; auto.
      * right. by rewrite E.
      * intros i Hi. apply Hr. lia.
    + apply IH; try lia; auto.
      * right. by rewrite E.
      * intros i Hi. apply Hr. lia.
    + apply IH; try lia; auto.
      intros i Hi.
      apply (Hm (base + Nat.div2 size)); [|done].
      destruct (Nat.odd size); simpl in Hd; lia.
Qed.

Lemma cmp_at_app l1 l2 i :
  cmp_at (l1 ++ l2) i =
    if (i <? length l1)%nat then cmp_at l1 i else cmp_at l2 (i - length l1).
Proof.
  unfold cmp_at. destruct (Nat.ltb_spec i (length l1)).
  - by rewrite lookup_app_l.
  - by rewrite lookup_app_r.
Qed.

Lemma cmp_at_Forall l c i :
  Forall (λ x, f x = c) l → i < length l → cmp_at l i = c.
Proof.
  intros Hl [x Hx]%lookup_lt_is_Some. unfold cmp_at. rewrite Hx.
  rewrite Forall_forall in Hl. apply Hl. by eapply list_elem_of_lookup_2.
Qed.

Lemma cmp_at_Gt l i : Forall (λ x, f x = Gt) l → cmp_at l i = Gt.
Proof.
  intros Hl. destruct (Nat.lt_ge_cases i (length l)).
  - by apply cmp_at_Forall.
  - unfold cmp_at. by rewrite lookup_ge_None_2.
Qed.

(** On a list that is below the target up to [l1] and above it in [l2], the
    search returns the boundary. *)
Lemma binary_search_by_Err l1 l2 :
  Forall (λ x, f x = Lt) l1 → Forall (λ x, f x = Gt) l2 →
  binary_search_by (l1 ++ l2) = Err (length l1).
Proof.
  intros H1 H2. unfold binary_search_by.
  destruct (Nat.eqb_spec (length (l1 ++ l2)) 0) as [E|E].
  { rewrite length_app in E. f_equal. lia. }
  set (l := l1 ++ l2) in *.
  assert (Hlt : ∀ i, i < length l1 → cmp_at l i = Lt).
  { intros i Hi. unfold l. rewrite cmp_at_app, (proj2 (Nat.ltb_lt _ _)) by done.
    by apply cmp_at_Forall. }
  assert (Hgt : ∀ i, length l1 ≤ i → cmp_at l i = Gt).
  { intros i Hi. unfold l. rewrite cmp_at_app, (proj2 (Nat.ltb_ge _ _)) by done.
    by apply cmp_at_Gt. }
  destruct (bs_loop_spec l (length l) 0 (length l)) as (Hb & Hb0 & Hbr);
    try lia; auto.
  { intros i Hi. apply Hgt. unfold l in Hi. rewrite length_app in Hi. lia. }
  { intros i j Hij Hi. destruct (Nat.lt_ge_cases i (length l1)).
    - rewrite Hlt in Hi by done. done.
    - apply Hgt. lia. }
  set (b := bs_loop l (length l) 0 (length l)) in *.
  destruct (Nat.lt_ge_cases b (length l1)).
  - rewrite Hlt by done. f_equal.
    destruct (Nat.lt_ge_cases (S b) (length l1)); [|lia].
    specialize (Hbr (S b) ltac:(lia)). by rewrite Hlt in Hbr.
  - rewrite Hgt by done. f_equal. destruct Hb0 as [Hb0|Hb0]; [lia|].
    by rewrite Hgt in Hb0.
Qed.

Lemma binary_search_by_Ok l1 x l2 :
  Forall (λ x, f x = Lt) l1 → f x = Eq → Forall (λ x, f x = Gt) l2 →
  binary_search_by (l1 ++ x :: l2) = Ok (length l1).
Proof.
  intros H1 Hx H2. unfold binary_search_by.
  set (l := l1 ++ x :: l2) in *.
  assert (length l ≠ 0) by (unfold l; rewrite length_app; simpl; lia).
  destruct (Nat.eqb_spec (length l) 0) as [E|E]; [lia|].
  assert (Hlt : ∀ i, i < length l1 → cmp_at l i = Lt).
  { intros i Hi. unfold l. rewrite cmp_at_app, (proj2 (Nat.ltb_lt _ _)) by done.
    by apply cmp_at_Forall. }
  assert (Heq : cmp_at l (length l1) = Eq).
  { unfold l. rewrite cmp_at_app, Nat.ltb_irrefl, Nat.sub_diag. done. }
  assert (Hgt : ∀ i, length l1 < i → cmp_at l i = Gt).
  { intros i Hi. unfold l. rewrite cmp_at_app, (proj2 (Nat.ltb_ge _ _)) by lia.
    replace (i - length l1)%nat with (S (i - S (length l1))) by lia.
    apply (cmp_at_Gt l2). done. }
  destruct (bs_loop_spec l (length l) 0 (length l)) as (Hb & Hb0 & Hbr);
    try lia; auto.
  { intros i Hi. apply Hgt. unfold l in Hi. rewrite length_app in Hi.
    simpl in Hi. lia. }
  { intros i j Hij Hi. apply Hgt.
    destruct (Nat.lt_trichotomy i (length l1)) as [?|[->|?]]; [|congruence|lia].
    by rewrite Hlt in Hi. }
  set (b := bs_loop l (length l) 0 (length l)) in *.
  destruct (Nat.lt_trichotomy b (length l1)) as [?|[->|?]].
  - specialize (Hbr (length l1) ltac:(lia)). congruence.
  - by rewrite Heq.
  - destruct Hb0 as [Hb0|Hb0]; [lia|]. by rewrite Hgt in Hb0.
Qed.
End binary_search.

(** [slice::partition_point]. *)
Definition partition_point {A} (p : A → bool) (l : list A) : nat :=
  match binary_search_by (λ x, if p x then Lt else Gt) l with
  | Ok i => i
  | Err i => i
  end.

Lemma partition_point_app {A} (p : A → bool) l1 l2 :
  Forall (λ x, p x = true) l1 → Forall (λ x, p x = false) l2 →
  partition_point p (l1 ++ l2) = length l1.
Proof.
  intros H1 H2. unfold partition_point. rewrite binary_search_by_Err; [done|..].
  - eapply Forall_impl; [exact H1|]. by intros x ->.
  - eapply Forall_impl; [exact H2|]. by intros x ->.
Qed.

(** * Keyed lists *)
Section keyed.
Context {A : Type} (key : A → bytes).
Implicit Types (x y : A) (l : list A) (k : bytes).

Definition key_lt x y : Prop := key x ≺ key y.

#[global] Instance key_lt_trans : Transitive key_lt.
Proof. intros x y z. unfold key_lt. apply transitivity. Qed.

(** Strictly sorted: what the validated tree format guarantees. *)
Definition ssorted l : Prop := StronglySorted key_lt l.

(** [windows(2).all(|w| w[0].key < w[1].key)]. *)
Definition strictly_ordered l : bool :=
  windows2 (λ x y, blt (key x) (key y)) l.

Lemma strictly_ordered_ssorted l : strictly_ordered l = true ↔ ssorted l.
Proof.
  unfold strictly_ordered, ssorted.
  rewrite (windows2_Sorted key_lt) by (intros; apply blt_true).
  split; [apply Sorted_StronglySorted, _|apply StronglySorted_Sorted].
Qed.

(** The stable sort of the standard library ([slice::sort],
    [slice::sort_by]): equal keys keep their order. *)
Fixpoint insert_by x l : list A :=
  match l with
  | [] => [x]
  | y :: l' => if ble (key x) (key y) then x :: l else y :: insert_by x l'
  end.

Fixpoint sort_by l : list A :=
  match l with
  | [] => []
  | x :: l => insert_by x (sort_by l)
  end.

(** The finite map a list stands for (the first record of a key wins). *)
Definition kmap l : gmap bytes A := list_to_map ((λ a, (key a, a)) <$> l).

Lemma insert_by_perm x l : insert_by x l ≡ₚ x :: l.
Proof.
  induction l as [|y l IH]; simpl; [done|].
  destruct (ble _ _); [done|]. rewrite IH. apply Permutation_swap.
Qed.

Lemma sort_by_perm l : sort_by l ≡ₚ l.
Proof. induction l; simpl; [done|]. rewrite insert_by_perm. by f_equiv. Qed.

Lemma length_sort_by l : length (sort_by l) = length l.
Proof. by rewrite sort_by_perm. Qed.

Lemma elem_of_sort_by x l : x ∈ sort_by l ↔ x ∈ l.
Proof. by rewrite sort_by_perm. Qed.

Lemma ssorted_nil : ssorted [].
Proof. constructor. Qed.

Lemma ssorted_cons x l :
  ssorted (x :: l) ↔ Forall (λ y, key x ≺ key y) l ∧ ssorted l.
Proof. unfold ssorted. by rewrite StronglySorted_cons. Qed.

Lemma ssorted_app l1 l2 :
  ssorted (l1 ++ l2) ↔
    (∀ x y, x ∈ l1 → y ∈ l2 → key x ≺ key y) ∧ ssorted l1 ∧ ssorted l2.
Proof. apply StronglySorted_app. Qed.

Lemma ssorted_NoDup l : ssorted l → NoDup (key <$> l).
Proof.
  induction l as [|x l IH]; [constructor|].
  rewrite ssorted_cons, Forall_forall. intros [Hx Hl]. csimpl.
  apply NoDup_cons. split; [|auto].
  intros (y & E & Hy)%list_elem_of_fmap. specialize (Hx y Hy).
  rewrite E in Hx. by apply (irreflexivity bytes_lt _ Hx).
Qed.

Lemma insert_by_id x l :
  ssorted (x :: l) → insert_by x l = x :: l.
Proof.
  rewrite ssorted_cons. intros [Hx _]. destruct l as [|y l]; [done|]. simpl.
  apply Forall_cons in Hx as [Hx _].
  destruct (ble (key x) (key y)) eqn:E; [done|].
  unfold ble in E. unfold bytes_lt in Hx. by rewrite Hx in E.
Qed.

Lemma sort_by_id l : ssorted l → sort_by l = l.
Proof.
  induction l as [|x l IH]; [done|]. simpl. intros Hs.
  pose proof Hs as [_ Hl]%ssorted_cons. rewrite IH by done.
  by apply insert_by_id.
Qed.

Lemma insert_by_ssorted x l :
  key x ∉ (key <$> l) → ssorted l → ssorted (insert_by x l).
Proof.
  induction l as [|y l IH]; intros Hx Hl; simpl.
  { apply ssorted_cons. split; [constructor|done]. }
  csimpl in Hx. apply not_elem_of_cons in Hx as [Hxy Hx].
  pose proof Hl as [Hy Hl']%ssorted_cons.
  destruct (ble (key x) (key y)) eqn:E.
  - apply ssorted_cons. split; [|done].
    assert (key x ≺ key y).
    { apply ble_true in E. destruct (bytes_trichotomy (key x) (key y))
        as [?|[?|?]]; naive_solver. }
    constructor; [done|].
    eapply Forall_impl; [exact Hy|]. intros z Hz. by transitivity (key y).
  - apply ssorted_cons. split; [|auto].
    rewrite (insert_by_perm x l). constructor; [|done].
    destruct (bytes_trichotomy (key x) (key y)) as [Hlt|[?|?]]; [|done..].
    unfold ble in E. unfold bytes_lt in Hlt. by rewrite Hlt in E.
Qed.

Lemma sort_by_ssorted l : NoDup (key <$> l) → ssorted (sort_by l).
Proof.
  induction l as [|x l IH]; csimpl; [intros; constructor|].
  intros [Hx Hl]%NoDup_cons. apply insert_by_ssorted; [|auto].
  by rewrite sort_by_perm.
Qed.

Lemma kmap_cons x l : kmap (x :: l) = <[key x := x]> (kmap l).
Proof. done. Qed.

Lemma kmap_lookup_None l k : kmap l !! k = None ↔ k ∉ (key <$> l).
Proof.
  unfold kmap. rewrite <-not_elem_of_list_to_map, <-list_fmap_compose. done.
Qed.

Lemma kmap_lookup_Some l k a :
  NoDup (key <$> l) → kmap l !! k = Some a ↔ a ∈ l ∧ key a = k.
Proof.
  intros Hnd. unfold kmap. rewrite <-elem_of_list_to_map.
  - rewrite list_elem_of_fmap. naive_solver.
  - by rewrite <-list_fmap_compose.
Qed.

Lemma kmap_perm l1 l2 : NoDup (key <$> l1) → l1 ≡ₚ l2 → kmap l1 = kmap l2.
Proof.
  intros Hnd Hp. unfold kmap. apply list_to_map_proper.
  - by rewrite <-list_fmap_compose.
  - by rewrite Hp.
Qed.

Lemma kmap_sort_by l : NoDup (key <$> l) → kmap (sort_by l) = kmap l.
Proof.
  intros. symmetry. apply kmap_perm; [done|]. symmetry. apply sort_by_perm.
Qed.

Lemma kmap_app l1 l2 : kmap (l1 ++ l2) = kmap l1 ∪ kmap l2.
Proof. unfold kmap. by rewrite fmap_app, list_to_map_app. Qed.

(** A strictly sorted list is determined by its map. *)
Lemma ssorted_ext l1 l2 :
  ssorted l1 → ssorted l2 → kmap l1 = kmap l2 → l1 = l2.
Proof.
  intros H1 H2 E. pose proof (ssorted_NoDup _ H1). pose proof (ssorted_NoDup _ H2).
  apply (StronglySorted_unique_strong key_lt); [|done..|].
  - intros x y _ _ Hxy Hyx. exfalso. by eapply bytes_lt_asym.
  - apply NoDup_Permutation.
    + by eapply NoDup_fmap_1.
    + by eapply NoDup_fmap_1.
    + intros a. pose proof (kmap_lookup_Some l1 (key a) a) as G1.
      pose proof (kmap_lookup_Some l2 (key a) a) as G2.
      rewrite E in G1. naive_solver.
Qed.

Lemma kmap_lookup_lt x l k :
  Forall (λ y, key x ≺ key y) l → ¬ key x ≺ k → kmap l !! k = None.
Proof.
  intros Hl Hk. apply kmap_lookup_None. intros (y & -> & Hy)%list_elem_of_fmap.
  rewrite Forall_forall in Hl. by apply Hk, Hl.
Qed.

(** [dedup_by(|a, b| a.key == b.key)]: the first of a run of equal keys is
    kept. *)
Fixpoint dedup_from x l : list A :=
  match l with
  | [] => [x]
  | y :: l => if beq (key x) (key y) then dedup_from x l else x :: dedup_from y l
  end.
Definition dedup_by l : list A :=
  match l with [] => [] | x :: l => dedup_from x l end.

Lemma dedup_by_id l : ssorted l → dedup_by l = l.
Proof.
  destruct l as [|x l]; [done|]. simpl. revert x.
  induction l as [|y l IH]; intros x; [done|]. simpl.
  intros [Hx Hl]%ssorted_cons. apply Forall_cons in Hx as [Hx _].
  unfold beq. rewrite bool_decide_eq_false_2 by auto with sync.
  by rewrite IH.
Qed.
End keyed.

Arguments ssorted {A} key l : simpl never.

(** The comparison used for [binary_search_by(|x| x.key.cmp(&k))]. *)
Lemma key_search_Ok {A} (key : A → bytes) l1 x l2 :
  ssorted key (l1 ++ x :: l2) →
  binary_search_by (λ y, bcmp (key y) (key x)) (l1 ++ x :: l2) = Ok (length l1).
Proof.
  rewrite ssorted_app, ssorted_cons. intros (H12 & H1 & Hx & H2).
  apply binary_search_by_Ok.
  - apply Forall_forall. intros y Hy. apply H12; [done|left].
  - apply bcmp_refl.
  - eapply Forall_impl; [exact Hx|]. intros y Hy. by apply bcmp_gt.
Qed.

Lemma key_search_Err {A} (key : A → bytes) l1 l2 k :
  Forall (λ y, key y ≺ k) l1 → Forall (λ y, k ≺ key y) l2 →
  binary_search_by (λ y, bcmp (key y) k) (l1 ++ l2) = Err (length l1).
Proof.
  intros H1 H2. apply binary_search_by_Err; [done|].
  eapply Forall_impl; [exact H2|]. intros y Hy. by apply bcmp_gt.
Qed.

(** * Weakly sorted lists and stability of the sort *)
Section weakly_sorted.
Context {A : Type} (key : A → bytes).
Implicit Types (x y : A) (l : list A) (k : bytes).

Definition key_le x y : Prop := ¬ key y ≺ key x.

#[global] Instance key_le_trans : Transitive key_le.
Proof.
  intros x y z Hxy Hyz Hzx. unfold key_le in *.
  destruct (bytes_trichotomy (key y) (key z)) as [H|[H|H]]; [|congruence|done].
  apply Hxy. by transitivity (key z).
Qed.

Definition wsorted l : Prop := StronglySorted key_le l.

Lemma windows2_wsorted l :
  windows2 (λ x y, ble (key x) (key y)) l = true ↔ wsorted l.
Proof.
  rewrite (windows2_Sorted key_le) by (intros; apply ble_true).
  split; [apply Sorted_StronglySorted, _|apply StronglySorted_Sorted].
Qed.

Lemma insert_by_wsorted x l : wsorted l → wsorted (insert_by key x l).
Proof.
  induction l as [|y l IH]; intros Hl; simpl.
  { repeat constructor. }
  pose proof Hl as [Hy Hl']%StronglySorted_cons.
  destruct (ble (key x) (key y)) eqn:E.
  - apply ble_true in E. apply StronglySorted_cons. split; [|done].
    constructor; [done|]. eapply Forall_impl; [exact Hy|].
    intros z Hz. by transitivity y.
  - apply StronglySorted_cons. split; [|by apply IH].
    rewrite (insert_by_perm key x l). constructor; [|done].
    intros Hlt. assert (ble (key x) (key y) = true); [|congruence].
    apply ble_true. intros Hlt'. by eapply bytes_lt_asym.
Qed.

Lemma sort_by_wsorted l : wsorted (sort_by key l).
Proof. induction l; simpl; [constructor|]. by apply insert_by_wsorted. Qed.

Lemma insert_by_wsorted_id x l : wsorted (x :: l) → insert_by key x l = x :: l.
Proof.
  intros [Hx _]%StronglySorted_cons. destruct l as [|y l]; [done|]. simpl.
  apply Forall_cons in Hx as [Hx _]. by rewrite (proj2 (ble_true _ _)).
Qed.

Lemma sort_by_wsorted_id l : wsorted l → sort_by key l = l.
Proof.
  induction l as [|x l IH]; [done|]. intros Hl.
  pose proof Hl as [_ Hl']%StronglySorted_cons. simpl. rewrite IH by done.
  by apply insert_by_wsorted_id.
Qed.

(** The records of one key, in order. *)
Definition with_key k l : list A := filter (λ x, key x = k) l.

Lemma with_key_insert_by k x l :
  with_key k (insert_by key x l) = with_key k (x :: l).
Proof.
  unfold with_key. induction l as [|y l IH]; [done|]. simpl.
  destruct (ble (key x) (key y)) eqn:E; [done|].
  rewrite filter_cons, IH, (filter_cons _ x), (filter_cons _ x (y :: l)), (filter_cons _ y).
  destruct (decide (key x = k)), (decide (key y = k)); try done.
  exfalso. unfold ble in E. subst. destruct (bcmp_spec (key x) (key y)); try done.
  apply (irreflexivity bytes_lt (key x)). congruence.
Qed.

(** The sort is stable. *)
Lemma with_key_sort_by k l : with_key k (sort_by key l) = with_key k l.
Proof.
  induction l as [|x l IH]; [done|]. simpl. rewrite with_key_insert_by.
  unfold with_key in *. rewrite !filter_cons. by case_decide; rewrite IH.
Qed.

Lemma with_key_nil k l : with_key k l = [] ↔ k ∉ (key <$> l).
Proof.
  unfold with_key. induction l as [|x l IH]; csimpl; [split; set_solver|].
  rewrite filter_cons. case_decide; rewrite not_elem_of_cons; naive_solver.
Qed.

Lemma kmap_with_key l k : kmap key l !! k = head (with_key k l).
Proof.
  unfold with_key. induction l as [|x l IH]; [done|].
  rewrite kmap_cons, filter_cons. case_decide; subst.
  - by rewrite lookup_insert_eq.
  - by rewrite lookup_insert_ne.
Qed.

Lemma wsorted_ssorted_dedup x l :
  wsorted (x :: l) → ssorted key (dedup_from key x l) ∧
  (∀ y, y ∈ dedup_from key x l → y ∈ x :: l) ∧
  kmap key (dedup_from key x l) = kmap key (x :: l).
Proof.
  revert x. induction l as [|y l IH]; intros x Hs; simpl.
  { split_and!; [|done..]. repeat constructor. }
  pose proof Hs as [Hx Hl]%StronglySorted_cons.
  unfold beq. case_bool_decide as E.
  - destruct (IH x) as (H1 & H2 & H3).
    { apply StronglySorted_cons. apply StronglySorted_cons in Hl as [_ Hl].
      apply Forall_cons in Hx as [_ Hx]. done. }
    split_and!; [done|set_solver|].
    rewrite H3, !kmap_cons, E, insert_insert_eq. done.
  - destruct (IH y Hl) as (H1 & H2 & H3). split_and!.
    + apply ssorted_cons. split; [|done]. apply Forall_forall. intros z Hz.
      apply H2 in Hz. rewrite Forall_forall in Hx.
      assert (key x ≺ key y) as Hxy.
      { destruct (bytes_trichotomy (key x) (key y)) as [?|[?|?]]; [done..|].
        exfalso. apply (Hx y); [left|done]. }
      apply elem_of_cons in Hz as [->|Hz]; [done|].
      apply StronglySorted_cons in Hl as [Hy _]. rewrite Forall_forall in Hy.
      specialize (Hy z Hz). unfold key_le in Hy.
      destruct (bytes_trichotomy (key y) (key z)) as [?|[<-|?]]; [|done|done].
      by transitivity (key y).
    + set_solver.
    + by rewrite kmap_cons, H3, <-kmap_cons.
Qed.

Lemma dedup_by_wsorted l :
  wsorted l → ssorted key (dedup_by key l) ∧ kmap key (dedup_by key l) = kmap key l.
Proof.
  destruct l as [|x l]; simpl; [repeat constructor|].
  intros Hl. destruct (wsorted_ssorted_dedup x l Hl) as (?&_&?). done.
Qed.
End weakly_sorted.
