(* ===== verification/Hash.v ===== *)
(** src/crates/sync-core/src/hash.rs: content hashes.

    BLAKE3 and the [hex] crate are third-party code. They are the classes
    [Blake3] and [Hex], whose laws are the documented behaviour the program
    relies on: a digest has 32 bytes, hashing is incremental over
    concatenation, decoding inverts encoding. No law says that the hash is
    injective (no function onto 32 bytes is): theorems that need collision
    freedom name the byte strings it is needed for. *)

From S2P Require Import Prelude Bytes.
Local Open Scope N_scope.

Abbreviation FileHash := bytes.

Class Blake3 := {
  hash_bytes : bytes → FileHash;
  hash_bytes_length : ∀ b, length (hash_bytes b) = 32%nat;
}.

Definition hash_content `{Blake3} (data : bytes) : FileHash := hash_bytes data.

(** [IncrementalHasher]: the bytes absorbed so far. *)
Record IncrementalHasher := { ih_inner : bytes }.

Definition ih_new : IncrementalHasher := {| ih_inner := [] |}.
Definition ih_update (h : IncrementalHasher) (data : bytes) : IncrementalHasher :=
  {| ih_inner := ih_inner h ++ data |}.
Definition ih_update_str (h : IncrementalHasher) (s : bytes) : IncrementalHasher :=
  {| ih_inner := ih_inner h ++ s |}.
Definition ih_update_u64 (h : IncrementalHasher) (v : N) : IncrementalHasher :=
  {| ih_inner := ih_inner h ++ le_bytes 8 v |}.
Definition ih_finalize `{Blake3} (h : IncrementalHasher) : FileHash :=
  hash_bytes (ih_inner h).

Definition ZERO_HASH : FileHash := repeat x00 32.

(** The error of [hex::decode]. *)
Inductive FromHexError := InvalidHexCharacter | OddLength | InvalidStringLength.

Class Hex := {
  hex_encode : bytes → bytes;
  hex_decode : bytes → result FromHexError bytes;
  hex_decode_encode : ∀ b, hex_decode (hex_encode b) = Ok b;
}.

Definition hash_to_hex `{Hex} (h : FileHash) : bytes := hex_encode h.

Definition hex_to_hash `{Hex} (s : bytes) : result FromHexError FileHash :=
  let? b := hex_decode s in
  if negb (len b =? 32) then Err InvalidStringLength else Ok b.

Lemma length_ZERO_HASH : length ZERO_HASH = 32%nat.
Proof. done. Qed.

Lemma len_hash_bytes `{Blake3} b : len (hash_bytes b) = 32.
Proof. unfold len. by rewrite hash_bytes_length. Qed.

#[export] Hint Resolve hash_bytes_length : sync.
#[export] Hint Rewrite @hash_bytes_length @len_hash_bytes : sync.
