(* ===== verification/Chunk.v ===== *)
(** src/crates/sync-core/src/chunk.rs: the Tree v1 node types and their
    FlatBuffers encoding.

    The FlatBuffers runtime and the generated accessors of sync-schema are
    library and generated code: they are the class [FlatBuffers], which maps
    a decoded envelope ([FbNode], the tables of schema/chunk.fbs) to its
    bytes and back. The functions here are what chunk.rs adds on both
    sides. *)

From S2P Require Import Prelude Bytes Keyed Hash.
Local Open Scope N_scope.

(** [ChunkError]. Messages keep their fixed text; an interpolated value is
    dropped. [NotFound] carries the hash whose hex form the source prints. *)
Inductive ChunkError :=
  | Deserialize (msg : string)
  | NotFound (hash : FileHash)
  | Io.

Record FileEntry := FileEntryNew {
  fe_path : bytes;
  fe_hash : FileHash;
  fe_mtime_ms : N;
  fe_size_bytes : N;
}.

#[global] Instance FileEntry_eq_dec : EqDecision FileEntry.
Proof. solve_decision. Defined.

(** [impl Ord for FileEntry]. *)
Definition FileEntry_cmp (a b : FileEntry) : comparison :=
  bcmp (fe_path a) (fe_path b).

Record LeafChunk := { lc_entries : list FileEntry }.

(** [LeafChunk::new]. *)
Definition leaf_new (entries : list FileEntry) : LeafChunk :=
  {| lc_entries := sort_by fe_path entries |}.

Record InternalNode := { in_children : list (bytes * FileHash) }.

(** [InternalNode::new]. *)
Definition internal_new (children : list (bytes * FileHash)) : InternalNode :=
  {| in_children := sort_by fst children |}.

Record RootNode := {
  rn_vault_id : bytes;
  rn_created_ms : N;
  rn_version : N;
  rn_children : list (bytes * FileHash);
  rn_total_files : N;
  rn_parent_hash : option FileHash;
  rn_device_id : bytes;
}.

(** * The FlatBuffers tables *)

Record FbEntry := {
  fb_path : bytes; fb_hash : bytes; fb_mtime_ms : N; fb_size_bytes : N }.
Record FbChild := { fb_prefix : bytes; fb_child_hash : bytes }.
Record FbRoot := {
  fbr_version : N; fbr_vault_id : bytes; fbr_created_ms : N;
  fbr_total_files : N; fbr_children : list FbChild;
  fbr_root_hash : option bytes; fbr_parent_hash : option bytes;
  fbr_device_id : option bytes }.
Inductive FbNode :=
  | FbLeafChunk (version : N) (entries : list FbEntry)
  | FbInternalNode (version : N) (children : list FbChild)
  | FbRootNode (root : FbRoot)
  | FbUnknown (node_type : N).

(** What a buffer can hold: strings are UTF-8, integers fit their width, and
    the verifier accepts at most [max_tables] tables (1_000_000 by default). *)
Definition u32_ok (n : N) : bool := n <=? U32_MAX.
Definition u64_ok (n : N) : bool := n <=? U64_MAX.
Definition fb_entry_ok (e : FbEntry) : bool :=
  utf8 (fb_path e) && u64_ok (fb_mtime_ms e) && u64_ok (fb_size_bytes e).
Definition fb_child_ok (c : FbChild) : bool := utf8 (fb_prefix c).
Definition fb_max_tables : N := 1000000.
Definition fb_ok (n : FbNode) : bool :=
  match n with
  | FbLeafChunk v es =>
      u32_ok v && forallb fb_entry_ok es && (len es + 2 <=? fb_max_tables)
  | FbInternalNode v cs =>
      u32_ok v && forallb fb_child_ok cs && (len cs + 2 <=? fb_max_tables)
  | FbRootNode r =>
      u32_ok (fbr_version r) && utf8 (fbr_vault_id r)
      && u64_ok (fbr_created_ms r) && u64_ok (fbr_total_files r)
      && forallb fb_child_ok (fbr_children r)
      && (len (fbr_children r) + 2 <=? fb_max_tables)
      && match fbr_device_id r with Some d => utf8 d | None => true end
  | FbUnknown _ => true
  end.

Class FlatBuffers := {
  fb_finish : FbNode → bytes;
  fb_root : bytes → option FbNode;
  (** the verifier accepts what the builder produced, and reads it back *)
  fb_root_finish : ∀ n, fb_ok n = true → fb_root (fb_finish n) = Some n;
  (** what the verifier accepts is in range *)
  fb_root_ok : ∀ b n, fb_root b = Some n → fb_ok n = true;
}.

Section codec.
Context `{Blake3, FlatBuffers}.

(** [LeafChunk::serialize_entries]. *)
Definition leaf_serialize_entries (entries : list FileEntry) : bytes :=
  let entries :=
    (λ e, {| fb_path := fe_path e; fb_hash := fe_hash e;
             fb_mtime_ms := fe_mtime_ms e;
             fb_size_bytes := fe_size_bytes e |}) <$> entries in
  fb_finish (FbLeafChunk 1 entries).

(** [LeafChunk::serialize]. *)
Definition leaf_serialize (l : LeafChunk) : bytes :=
  leaf_serialize_entries (lc_entries l).

(** [LeafChunk::hash]. *)
Definition leaf_hash (l : LeafChunk) : FileHash := hash_bytes (leaf_serialize l).

(** The loop of [LeafChunk::deserialize]. *)
Fixpoint leaf_read_entries (es : list FbEntry)
    : result ChunkError (list FileEntry) :=
  match es with
  | [] => Ok []
  | e :: es =>
      if negb (len (fb_hash e) =? 32)
      then Err (Deserialize "hash length != 32")
      else
        let? rest := leaf_read_entries es in
        Ok ({| fe_path := fb_path e; fe_hash := fb_hash e;
               fe_mtime_ms := fb_mtime_ms e;
               fe_size_bytes := fb_size_bytes e |} :: rest)
  end.

(** [LeafChunk::deserialize]. *)
Definition leaf_deserialize (b : bytes) : result ChunkError LeafChunk :=
  match fb_root b with
  | None => Err (Deserialize "flatbuffers")
  | Some (FbLeafChunk _ es) =>
      let? entries := leaf_read_entries es in
      Ok {| lc_entries := entries |}
  | Some _ => Err (Deserialize "expected LeafChunk")
  end.

(** The loop of [LeafChunk::validated_path_bounds]. *)
Fixpoint bounds_loop (expected_prefix : bytes) (previous : option bytes)
    (es : list FbEntry) : result ChunkError unit :=
  match es with
  | [] => Ok tt
  | e :: es =>
      let path := fb_path e in
      let prefix :=
        match find_byte path "/"%byte with
        | Some index => take (N.to_nat (index + 1)) path
        | None => []
        end in
      if negb (beq prefix expected_prefix)
         || match previous with Some p => negb (blt p path) | None => false end
         || negb (len (fb_hash e) =? 32)
      then Err (Deserialize "leaf path range is not canonical")
      else bounds_loop expected_prefix (Some path) es
  end.

(** [LeafChunk::validated_path_bounds]. *)
Definition validated_path_bounds (b expected_prefix : bytes)
    (exact_entries : option N) (max_entries : N)
    : result ChunkError (option (bytes * bytes)) :=
  match fb_root b with
  | None => Err (Deserialize "flatbuffers")
  | Some (FbLeafChunk _ []) => Ok None
  | Some (FbLeafChunk _ (first :: rest)) =>
      let entries := first :: rest in
      if (max_entries <? len entries)
         || match exact_entries with
            | Some count => negb (len entries =? count)
            | None => false
            end
      then Err (Deserialize "leaf entry count is not canonical")
      else
        let? _ := bounds_loop expected_prefix None entries in
        Ok (Some (fb_path first, fb_path (List.last rest first)))
  | Some _ => Err (Deserialize "expected LeafChunk")
  end.

(** The [ChildRef] vector written by the serializers. *)
Definition fb_children (cs : list (bytes * FileHash)) : list FbChild :=
  (λ c, {| fb_prefix := fst c; fb_child_hash := snd c |}) <$> cs.

(** The child loop shared by the two deserializers. *)
Fixpoint read_children (cs : list FbChild)
    : result ChunkError (list (bytes * FileHash)) :=
  match cs with
  | [] => Ok []
  | c :: cs =>
      if negb (len (fb_child_hash c) =? 32)
      then Err (Deserialize "hash length != 32")
      else
        let? rest := read_children cs in
        Ok ((fb_prefix c, fb_child_hash c) :: rest)
  end.

(** [InternalNode::serialize]. *)
Definition internal_serialize (n : InternalNode) : bytes :=
  fb_finish (FbInternalNode 1 (fb_children (in_children n))).

(** [InternalNode::hash]. *)
Definition internal_hash (n : InternalNode) : FileHash :=
  hash_bytes (internal_serialize n).

(** [InternalNode::deserialize]. *)
Definition internal_deserialize (b : bytes) : result ChunkError InternalNode :=
  match fb_root b with
  | None => Err (Deserialize "flatbuffers")
  | Some (FbInternalNode _ cs) =>
      let? children := read_children cs in
      Ok {| in_children := children |}
  | Some _ => Err (Deserialize "expected InternalNode")
  end.

(** [RootNode::hash]. *)
Definition root_hash (r : RootNode) : FileHash :=
  ih_finalize
    (fold_left
       (λ hasher c, ih_update (ih_update_str hasher (fst c)) (snd c))
       (rn_children r) ih_new).

(** [RootNode::serialize]. *)
Definition root_serialize (r : RootNode) : bytes :=
  fb_finish (FbRootNode {|
    fbr_version := rn_version r;
    fbr_vault_id := rn_vault_id r;
    fbr_created_ms := rn_created_ms r;
    fbr_total_files := rn_total_files r;
    fbr_children := fb_children (rn_children r);
    fbr_root_hash := Some (root_hash r);
    fbr_parent_hash := rn_parent_hash r;
    fbr_device_id := Some (rn_device_id r);
  |}).

(** [RootNode::deserialize]. *)
Definition root_deserialize (b : bytes) : result ChunkError RootNode :=
  match fb_root b with
  | None => Err (Deserialize "flatbuffers")
  | Some (FbRootNode root) =>
      let parent_hash :=
        match fbr_parent_hash root with
        | Some h => if len h =? 32 then Some h else None
        | None => None
        end in
      let? children := read_children (fbr_children root) in
      Ok {| rn_vault_id := fbr_vault_id root;
            rn_created_ms := fbr_created_ms root;
            rn_version := fbr_version root;
            rn_children := children;
            rn_total_files := fbr_total_files root;
            rn_parent_hash := parent_hash;
            rn_device_id := default [] (fbr_device_id root) |}
  | Some _ => Err (Deserialize "expected RootNode")
  end.
End codec.

(** * Well-formed entries: what the Rust types guarantee *)

Definition entry_ok (e : FileEntry) : bool :=
  utf8 (fe_path e) && (len (fe_hash e) =? 32)
  && u64_ok (fe_mtime_ms e) && u64_ok (fe_size_bytes e).
Definition child_ok (c : bytes * FileHash) : bool :=
  utf8 (fst c) && (len (snd c) =? 32).
Definition root_ok (r : RootNode) : bool :=
  utf8 (rn_vault_id r) && u64_ok (rn_created_ms r) && u32_ok (rn_version r)
  && forallb child_ok (rn_children r) && u64_ok (rn_total_files r)
  && match rn_parent_hash r with Some h => len h =? 32 | None => true end
  && utf8 (rn_device_id r) && (len (rn_children r) + 2 <=? fb_max_tables).

Section codec_facts.
Context `{Blake3, FlatBuffers}.

Lemma leaf_read_entries_ok es :
  forallb entry_ok es = true →
  leaf_read_entries
    ((λ e, {| fb_path := fe_path e; fb_hash := fe_hash e;
              fb_mtime_ms := fe_mtime_ms e;
              fb_size_bytes := fe_size_bytes e |}) <$> es) = Ok es.
Proof.
  induction es as [|e es IH]; [done|]. csimpl.
  intros [He Hes]%andb_prop. unfold entry_ok in He. bool_to_prop.
  rewrite (proj2 (N.eqb_eq _ _)) by done. csimpl.
  rewrite IH by done. by destruct e.
Qed.

Lemma leaf_roundtrip l :
  forallb entry_ok (lc_entries l) = true →
  len (lc_entries l) + 2 ≤ fb_max_tables →
  leaf_deserialize (leaf_serialize l) = Ok l.
Proof.
  intros Hok Hlen. unfold leaf_deserialize, leaf_serialize, leaf_serialize_entries.
  rewrite fb_root_finish.
  - rewrite leaf_read_entries_ok by done. by destruct l.
  - simpl. apply andb_true_intro. split.
    + rewrite forallb_forall in Hok |- *.
      intros x (e & <- & He)%in_map_iff. specialize (Hok e He).
      unfold entry_ok in Hok. bool_to_prop. unfold fb_entry_ok. simpl.
      by rewrite !andb_true_iff.
    + apply N.leb_le. unfold len in *. by rewrite length_fmap.
Qed.

Lemma read_children_ok cs :
  forallb child_ok cs = true → read_children (fb_children cs) = Ok cs.
Proof.
  induction cs as [|[p h] cs IH]; [done|]. unfold fb_children in *. csimpl.
  intros [Hc Hcs]%andb_prop. unfold child_ok in Hc. bool_to_prop. simpl in *.
  rewrite (proj2 (N.eqb_eq _ _)) by done. csimpl. by rewrite IH.
Qed.

Lemma fb_children_ok cs :
  forallb child_ok cs = true → forallb fb_child_ok (fb_children cs) = true.
Proof.
  rewrite !forallb_forall. intros Hok x (c & <- & Hc)%in_map_iff.
  specialize (Hok c Hc). unfold child_ok in Hok. by bool_to_prop.
Qed.

Lemma internal_roundtrip n :
  forallb child_ok (in_children n) = true →
  len (in_children n) + 2 ≤ fb_max_tables →
  internal_deserialize (internal_serialize n) = Ok n.
Proof.
  intros Hok Hlen. unfold internal_deserialize, internal_serialize.
  rewrite fb_root_finish.
  - rewrite read_children_ok by done. by destruct n.
  - simpl. apply andb_true_intro. split; [by apply fb_children_ok|].
    apply N.leb_le. unfold len, fb_children in *. by rewrite length_fmap.
Qed.

(** A leaf is not an internal node and the other way round: the two decoders
    are exclusive on what the encoders produce. *)
Lemma internal_deserialize_leaf l :
  forallb entry_ok (lc_entries l) = true →
  len (lc_entries l) + 2 ≤ fb_max_tables →
  ∃ e, internal_deserialize (leaf_serialize l) = Err e.
Proof.
  intros Hok Hlen. pose proof (leaf_roundtrip l Hok Hlen) as Hr.
  unfold leaf_deserialize in Hr. unfold internal_deserialize.
  destruct (fb_root (leaf_serialize l)) as [[]|]; eauto; done.
Qed.

Lemma leaf_deserialize_internal n :
  forallb child_ok (in_children n) = true →
  len (in_children n) + 2 ≤ fb_max_tables →
  ∃ e, leaf_deserialize (internal_serialize n) = Err e.
Proof.
  intros Hok Hlen. pose proof (internal_roundtrip n Hok Hlen) as Hr.
  unfold internal_deserialize in Hr. unfold leaf_deserialize.
  destruct (fb_root (internal_serialize n)) as [[]|]; eauto; done.
Qed.

Lemma leaf_deserialize_ok b l :
  leaf_deserialize b = Ok l →
  Forall (λ e, entry_ok e = true) (lc_entries l).
Proof.
  unfold leaf_deserialize. destruct (fb_root b) as [[v es| | |]|] eqn:E; try done.
  apply fb_root_ok in E. simpl in E. bool_to_prop.
  match goal with H : forallb _ es = true |- _ => rename H into Hes end.
  clear -Hes. revert l.
  assert (∀ r, leaf_read_entries es = Ok r → Forall (λ e, entry_ok e = true) r).
  { induction es as [|e es IH]; intros r; simpl in *; [intros [= <-]; constructor|].
    apply andb_prop in Hes as [He Hes].
    destruct (N.eqb_spec (len (fb_hash e)) 32) as [Hl|]; [|done]. simpl.
    rewrite let_ok. intros (r' & Hr & [= <-]).
    constructor; [|eauto]. unfold entry_ok. simpl.
    unfold fb_entry_ok in He. bool_to_prop.
    rewrite !andb_true_iff, N.eqb_eq. done. }
  intros l. rewrite let_ok. intros (r & Hr & [= <-]). simpl. eauto.
Qed.

Lemma root_hash_concat r :
  root_hash r = hash_bytes (concat ((λ c, fst c ++ snd c) <$> rn_children r)).
Proof.
  unfold root_hash, ih_finalize. f_equal.
  assert (∀ cs h, ih_inner (fold_left
     (λ hasher c, ih_update (ih_update_str hasher (fst c)) (snd c)) cs h)
     = ih_inner h ++ concat ((λ c : bytes * FileHash, fst c ++ snd c) <$> cs)) as G.
  { induction cs as [|c cs IH]; intros h; simpl; [by rewrite app_nil_r|].
    rewrite IH. simpl. by rewrite <-!app_assoc. }
  apply G.
Qed.

Lemma len_root_hash r : len (root_hash r) = 32.
Proof. rewrite root_hash_concat. apply len_hash_bytes. Qed.

Lemma root_roundtrip r :
  root_ok r = true → root_deserialize (root_serialize r) = Ok r.
Proof.
  intros Hok. unfold root_ok in Hok. bool_to_prop.
  unfold root_deserialize, root_serialize. rewrite fb_root_finish.
  - simpl. rewrite read_children_ok by done.
    destruct r as [v c ver cs t ph d]. simpl in *. f_equal.
    f_equal. destruct ph as [h|]; simpl in *; [|done]. by destruct (len h =? 32).
  - simpl. rewrite !andb_true_iff, N.leb_le. split_and!; auto using fb_children_ok.
    unfold len, fb_children in *. rewrite length_fmap. lia.
Qed.
End codec_facts.
