(* ===== verification/Concrete.v ===== *)
(** Executable instances of the parameters of the model: a 32-byte digest, a
    hex codec and a FlatBuffers codec. They satisfy the laws of the classes
    [Blake3], [Hex] and [FlatBuffers], so that the theorems stated over the
    classes can be evaluated on concrete vaults. They are not the algorithms
    of the libraries they stand for. *)

From S2P Require Import Prelude Bytes Hash Chunk.
Local Open Scope N_scope.

(** * A 32-byte digest *)
Definition poly_hash (b : bytes) : N :=
  fold_left (λ acc x, N.land (acc * 131 + b2n x + 1) 0xFFFFFFFF) b 7.

Program Definition poly_blake3 : Blake3 := {|
  hash_bytes b := le_bytes 32 (poly_hash b);
|}.
Next Obligation. intros. apply length_le_bytes. Qed.

(** * Hex *)
Definition nibble (n : N) : byte := n2b (if n <? 10 then 48 + n else 87 + n).
Definition unnibble (b : byte) : option N :=
  let c := b2n b in
  if in_range 48 c 57 then Some (c - 48)
  else if in_range 97 c 102 then Some (c - 87)
  else if in_range 65 c 70 then Some (c - 55) else None.

Fixpoint base16_encode (b : bytes) : bytes :=
  match b with
  | [] => []
  | x :: b => nibble (b2n x / 16) :: nibble (b2n x mod 16) :: base16_encode b
  end.
Fixpoint base16_decode (s : bytes) : result FromHexError bytes :=
  match s with
  | [] => Ok []
  | [_] => Err OddLength
  | hi :: lo :: s =>
      match unnibble hi, unnibble lo with
      | Some h, Some l => let? b := base16_decode s in Ok (n2b (h * 16 + l) :: b)
      | _, _ => Err InvalidHexCharacter
      end
  end.

Lemma unnibble_nibble n : n < 16 → unnibble (nibble n) = Some n.
Proof.
  intros Hn. destruct n as [|p]; [done|].
  do 4 (destruct p as [p|p|]; try done); lia.
Qed.

Lemma base16_decode_encode b : base16_decode (base16_encode b) = Ok b.
Proof.
  induction b as [|x b IH]; [done|]. simpl.
  pose proof (b2n_bound x) as Hx. pose proof (N.div_mod (b2n x) 16 ltac:(done)).
  rewrite !unnibble_nibble, IH.
  - rewrite (N.mul_comm _ 16), <-N.div_mod by done. by rewrite n2b_b2n.
  - by apply N.mod_upper_bound.
  - apply N.Div0.div_lt_upper_bound. lia.
Qed.

Definition base16_hex : Hex := {|
  hex_encode := base16_encode; hex_decode := base16_decode;
  hex_decode_encode := base16_decode_encode |}.

(** * A self-delimiting codec for the FlatBuffers tables *)

Definition parser (A : Type) : Type := bytes → option (A * bytes).

Definition codec_law {A} (enc : A → bytes) (dec : parser A) (P : A → Prop) : Prop :=
  ∀ a rest, P a → dec (enc a ++ rest) = Some (a, rest).

(** Items are announced by 1 and the list is closed by 0. *)
Definition enc_list {A} (enc : A → bytes) (l : list A) : bytes :=
  concat ((λ a, x01 :: enc a) <$> l) ++ [x00].

Fixpoint dec_list {A} (dec : parser A) (fuel : nat) (s : bytes) : option (list A * bytes) :=
  match fuel, s with
  | S fuel, x01 :: s =>
      '(a, s) ← dec s; '(l, s) ← dec_list dec fuel s; Some (a :: l, s)
  | S _, x00 :: s => Some ([], s)
  | _, _ => None
  end.

Lemma dec_enc_list {A} (enc : A → bytes) dec (P : A → Prop) :
  codec_law enc dec P →
  codec_law (enc_list enc) (λ s, dec_list dec (length s) s) (Forall P).
Proof.
  intros Hc l rest Hl. unfold enc_list.
  assert (∀ fuel, (length l < fuel)%nat →
    dec_list dec fuel (concat ((λ a, x01 :: enc a) <$> l) ++ x00 :: rest)
      = Some (l, rest)) as G.
  { induction Hl as [|a l Ha Hl IH]; intros [|fuel] Hf; csimpl in *; try lia; [done|].
    rewrite <-!app_assoc, Hc by done. simpl. rewrite IH by lia. done. }
  rewrite <-app_assoc. apply G. rewrite !length_app. simpl.
  assert (length l ≤ length (concat ((λ a, x01 :: enc a) <$> l)))%nat; [|lia].
  clear. induction l as [|a l IH]; csimpl; [done|]. rewrite length_app. lia.
Qed.

Definition dec_byte : parser byte :=
  λ s, match s with b :: s => Some (b, s) | [] => None end.
Definition enc_str (s : bytes) : bytes := enc_list (λ b, [b]) s.
Definition dec_str : parser bytes := λ s, dec_list dec_byte (length s) s.

Lemma dec_enc_str : codec_law enc_str dec_str (λ _, True).
Proof.
  intros s rest _. apply (dec_enc_list _ _ (λ _, True)); [by intros b r _|].
  by apply Forall_true.
Qed.

Definition enc_num (n : N) : bytes := le_bytes 8 n.
Definition dec_num : parser N :=
  λ s, if (8 <=? length s)%nat then Some (le_val (take 8 s), drop 8 s) else None.

Lemma dec_enc_num : codec_law enc_num dec_num (λ n, n ≤ U64_MAX).
Proof.
  intros n rest Hn. unfold dec_num, enc_num.
  rewrite length_app, length_le_bytes.
  rewrite (proj2 (Nat.leb_le 8 _)) by lia.
  rewrite take_app_length' by (by rewrite length_le_bytes).
  rewrite drop_app_length' by (by rewrite length_le_bytes).
  rewrite le_val_le_bytes; [done|].
  unfold U64_MAX in Hn. simpl. lia.
Qed.

Definition enc_opt (o : option bytes) : bytes :=
  match o with Some s => x01 :: enc_str s | None => [x00] end.
Definition dec_opt : parser (option bytes) :=
  λ s, match s with
       | x01 :: s => '(a, s) ← dec_str s; Some (Some a, s)
       | x00 :: s => Some (None, s)
       | _ => None
       end.

Lemma dec_enc_opt : codec_law enc_opt dec_opt (λ _, True).
Proof.
  intros [s|] rest _; simpl; [|done]. by rewrite dec_enc_str.
Qed.

Definition enc_entry (e : FbEntry) : bytes :=
  enc_str (fb_path e) ++ enc_str (fb_hash e)
  ++ enc_num (fb_mtime_ms e) ++ enc_num (fb_size_bytes e).
Definition dec_entry : parser FbEntry :=
  λ s, '(p, s) ← dec_str s; '(h, s) ← dec_str s;
       '(m, s) ← dec_num s; '(z, s) ← dec_num s;
       Some (Build_FbEntry p h m z, s).

Lemma dec_enc_entry : codec_law enc_entry dec_entry (λ e, fb_entry_ok e = true).
Proof.
  intros [p h m z] rest Hok. unfold fb_entry_ok in Hok. bool_to_prop.
  unfold u64_ok in *. bool_to_prop. unfold enc_entry, dec_entry.
  cbn [fb_path fb_hash fb_mtime_ms fb_size_bytes] in *.
  rewrite <-!app_assoc, dec_enc_str by done. cbn [mbind option_bind].
  rewrite dec_enc_str by done. cbn [mbind option_bind].
  rewrite dec_enc_num by done. cbn [mbind option_bind]. by rewrite dec_enc_num.
Qed.

Definition enc_child (c : FbChild) : bytes :=
  enc_str (fb_prefix c) ++ enc_str (fb_child_hash c).
Definition dec_child : parser FbChild :=
  λ s, '(p, s) ← dec_str s; '(h, s) ← dec_str s; Some (Build_FbChild p h, s).

Lemma dec_enc_child : codec_law enc_child dec_child (λ _, True).
Proof.
  intros [p h] rest _. unfold enc_child, dec_child. simpl.
  rewrite <-!app_assoc, dec_enc_str by done. cbn [mbind option_bind].
  by rewrite dec_enc_str.
Qed.

Definition dec_children : parser (list FbChild) := λ s, dec_list dec_child (length s) s.
Lemma dec_enc_children : codec_law (enc_list enc_child) dec_children (λ _, True).
Proof.
  intros l rest _. apply (dec_enc_list _ _ (λ _, True)); [apply dec_enc_child|].
  by apply Forall_true.
Qed.

Definition enc_leaf (v : N) (es : list FbEntry) : bytes :=
  enc_num v ++ enc_list enc_entry es.
Definition dec_leaf : parser FbNode :=
  λ s, '(v, s) ← dec_num s; '(es, s) ← dec_list dec_entry (length s) s;
       Some (FbLeafChunk v es, s).
Definition enc_internal (v : N) (cs : list FbChild) : bytes :=
  enc_num v ++ enc_list enc_child cs.
Definition dec_internal : parser FbNode :=
  λ s, '(v, s) ← dec_num s; '(cs, s) ← dec_children s; Some (FbInternalNode v cs, s).
Definition enc_root (r : FbRoot) : bytes :=
  enc_num (fbr_version r) ++ enc_str (fbr_vault_id r)
    ++ enc_num (fbr_created_ms r) ++ enc_num (fbr_total_files r)
    ++ enc_list enc_child (fbr_children r) ++ enc_opt (fbr_root_hash r)
    ++ enc_opt (fbr_parent_hash r) ++ enc_opt (fbr_device_id r).
Definition dec_root : parser FbNode :=
  λ s, '(v, s) ← dec_num s; '(vi, s) ← dec_str s; '(c, s) ← dec_num s;
       '(t, s) ← dec_num s; '(cs, s) ← dec_children s; '(rh, s) ← dec_opt s;
       '(ph, s) ← dec_opt s; '(d, s) ← dec_opt s;
       Some (FbRootNode (Build_FbRoot v vi c t cs rh ph d), s).

Lemma dec_enc_leaf v es rest :
  v ≤ U64_MAX → forallb fb_entry_ok es = true →
  dec_leaf (enc_leaf v es ++ rest) = Some (FbLeafChunk v es, rest).
Proof.
  intros Hv Hes. unfold dec_leaf, enc_leaf.
  rewrite <-app_assoc, dec_enc_num by done. cbn [mbind option_bind].
  rewrite (dec_enc_list _ _ _ dec_enc_entry); [done|].
  rewrite Forall_forall. intros e He%list_elem_of_In.
  rewrite forallb_forall in Hes. by apply Hes.
Qed.

Lemma dec_enc_internal v cs rest :
  v ≤ U64_MAX → dec_internal (enc_internal v cs ++ rest) = Some (FbInternalNode v cs, rest).
Proof.
  intros Hv. unfold dec_internal, enc_internal.
  rewrite <-app_assoc, dec_enc_num by done. cbn [mbind option_bind].
  by rewrite dec_enc_children.
Qed.

Lemma dec_enc_root r rest :
  fbr_version r ≤ U64_MAX → fbr_created_ms r ≤ U64_MAX → fbr_total_files r ≤ U64_MAX →
  dec_root (enc_root r ++ rest) = Some (FbRootNode r, rest).
Proof.
  intros Hv Hc Ht. unfold dec_root, enc_root. rewrite <-!app_assoc.
  rewrite dec_enc_num by done. cbn [mbind option_bind].
  rewrite dec_enc_str by done. cbn [mbind option_bind].
  rewrite dec_enc_num by done. cbn [mbind option_bind].
  rewrite dec_enc_num by done. cbn [mbind option_bind].
  rewrite dec_enc_children by done. cbn [mbind option_bind].
  rewrite dec_enc_opt by done. cbn [mbind option_bind].
  rewrite dec_enc_opt by done. cbn [mbind option_bind].
  rewrite dec_enc_opt by done. cbn [mbind option_bind].
  by destruct r.
Qed.

Definition plain_finish (n : FbNode) : bytes :=
  match n with
  | FbLeafChunk v es => x01 :: enc_leaf v es
  | FbInternalNode v cs => x02 :: enc_internal v cs
  | FbRootNode r => x03 :: enc_root r
  | FbUnknown t => x04 :: replicate (N.to_nat t) x00
  end.

Definition plain_parse (b : bytes) : option FbNode :=
  match b with
  | x01 :: s => fst <$> dec_leaf s
  | x02 :: s => fst <$> dec_internal s
  | x03 :: s => fst <$> dec_root s
  | x04 :: s => Some (FbUnknown (N.of_nat (length s)))
  | _ => None
  end.

Definition plain_root (b : bytes) : option FbNode :=
  n ← plain_parse b; if fb_ok n then Some n else None.

Lemma u32_ok_u64 n : u32_ok n = true → n ≤ U64_MAX.
Proof. unfold u32_ok, U32_MAX, U64_MAX. intros H%N.leb_le. lia. Qed.
Lemma u64_ok_le n : u64_ok n = true → n ≤ U64_MAX.
Proof. apply N.leb_le. Qed.

Lemma plain_parse_finish n : fb_ok n = true → plain_parse (plain_finish n) = Some n.
Proof.
  destruct n as [v es|v cs|r|t]; intros Hok; unfold fb_ok in Hok; bool_to_prop.
  - change (fst <$> dec_leaf (enc_leaf v es) = Some (FbLeafChunk v es)).
    rewrite <-(app_nil_r (enc_leaf v es)).
    rewrite dec_enc_leaf; [done|by apply u32_ok_u64|done].
  - change (fst <$> dec_internal (enc_internal v cs) = Some (FbInternalNode v cs)).
    rewrite <-(app_nil_r (enc_internal v cs)).
    rewrite dec_enc_internal; [done|by apply u32_ok_u64].
  - change (fst <$> dec_root (enc_root r) = Some (FbRootNode r)).
    rewrite <-(app_nil_r (enc_root r)).
    rewrite dec_enc_root; auto using u32_ok_u64, u64_ok_le.
  - simpl. rewrite length_replicate, N2Nat.id. done.
Qed.

Lemma plain_root_finish n : fb_ok n = true → plain_root (plain_finish n) = Some n.
Proof.
  intros Hn. unfold plain_root. rewrite plain_parse_finish by done. simpl. by rewrite Hn.
Qed.
Lemma plain_root_ok b n : plain_root b = Some n → fb_ok n = true.
Proof.
  unfold plain_root. destruct (plain_parse b) as [m|]; simpl; [|done].
  destruct (fb_ok m) eqn:E; naive_solver.
Qed.

Definition plain_flatbuffers : FlatBuffers :=
  {| fb_finish := plain_finish; fb_root := plain_root;
     fb_root_finish := plain_root_finish; fb_root_ok := plain_root_ok |}.
