(* ===== verification/Store.v ===== *)
(** src/crates/sync-core/src/store.rs: the chunk-store interface and its
    in-memory and disk implementations.

    [ChunkStore] is the trait; [ChunkStoreLaws] is what its clients (the tree
    builders, the diff and the merge) rely on, and both implementations
    discharge it. The in-memory store keeps byte accounting and the
    candidate-baseline protocol next to the map; its invariant is [mem_wf] of
    StoreProps.v. *)

From S2P Require Import Prelude Bytes Hash Chunk.
From stdpp Require Import fin_maps.
Local Open Scope N_scope.

(** * The interface *)

Class ChunkStore (S : Type) := {
  cs_has : FileHash → S → bool;
  cs_get : FileHash → S → result ChunkError bytes;
  cs_put : FileHash → bytes → St S ChunkError unit;
  cs_delete : FileHash → St S ChunkError unit;
}.

(** [store.get(h).await?] inside a store-passing computation. *)
Definition st_get {S} `{ChunkStore S} (h : FileHash) : St S ChunkError bytes :=
  λ s, (cs_get h s, s).

(** Content-addressed puts succeed, are read back, and leave every other
    address alone. *)
Class ChunkStoreLaws (S : Type) `{Blake3} `{ChunkStore S} : Prop := {
  cs_put_ok : ∀ b s, ∃ s', cs_put (hash_bytes b) b s = (Ok tt, s');
  cs_get_put : ∀ b s s',
    cs_put (hash_bytes b) b s = (Ok tt, s') → cs_get (hash_bytes b) s' = Ok b;
  cs_get_put_ne : ∀ b h s s',
    cs_put (hash_bytes b) b s = (Ok tt, s') → h ≠ hash_bytes b →
    cs_get h s' = cs_get h s;
}.

(** * Byte accounting *)

Record ChunkStoreMemory := {
  csm_chunks : N;
  csm_map_capacity : N;
  csm_payload_bytes : N;
  csm_buffer_capacity_bytes : N;
  csm_counters_valid : bool;
}.

Definition csm_default : ChunkStoreMemory := {|
  csm_chunks := 0; csm_map_capacity := 0; csm_payload_bytes := 0;
  csm_buffer_capacity_bytes := 0; csm_counters_valid := true |}.

(** [ChunkStoreMemory::combine]. *)
Definition csm_combine (a b : ChunkStoreMemory) : ChunkStoreMemory :=
  let chunks := checked_add64 (csm_chunks a) (csm_chunks b) in
  let map_capacity := checked_add64 (csm_map_capacity a) (csm_map_capacity b) in
  let payload_bytes := checked_add64 (csm_payload_bytes a) (csm_payload_bytes b) in
  let buffer_capacity_bytes :=
    checked_add64 (csm_buffer_capacity_bytes a) (csm_buffer_capacity_bytes b) in
  {| csm_counters_valid :=
       csm_counters_valid a && csm_counters_valid b
       && bool_decide (is_Some chunks) && bool_decide (is_Some map_capacity)
       && bool_decide (is_Some payload_bytes)
       && bool_decide (is_Some buffer_capacity_bytes);
     csm_chunks := default USIZE_MAX chunks;
     csm_map_capacity := default USIZE_MAX map_capacity;
     csm_payload_bytes := default U64_MAX payload_bytes;
     csm_buffer_capacity_bytes := default U64_MAX buffer_capacity_bytes |}.

Record BufferMemory := {
  bm_payload_bytes : N;
  bm_buffer_capacity_bytes : N;
  bm_counters_valid : bool;
}.

Definition bm_default : BufferMemory := {|
  bm_payload_bytes := 0; bm_buffer_capacity_bytes := 0; bm_counters_valid := true |}.

(** [BufferMemory::add_count] and [subtract_count] on (value, valid). *)
Definition add_count (value amount : N) (valid : bool) : N * bool :=
  match checked_add64 value amount with
  | Some next => (next, valid)
  | None => (U64_MAX, false)
  end.
Definition subtract_count (value amount : N) (valid : bool) : N * bool :=
  match checked_sub64 value amount with
  | Some next => (next, valid)
  | None => (0, false)
  end.

(** A [Vec<u8>]: its bytes and the capacity its allocator reports. *)
Record Buffer := { buf_bytes : bytes; buf_capacity : N }.

(** [BufferMemory::add]. *)
Definition bm_add (m : BufferMemory) (length capacity : N) : BufferMemory :=
  let '(p, v) := add_count (bm_payload_bytes m) length (bm_counters_valid m) in
  let '(c, v) := add_count (bm_buffer_capacity_bytes m) capacity v in
  {| bm_payload_bytes := p; bm_buffer_capacity_bytes := c; bm_counters_valid := v |}.

(** [BufferMemory::remove]. *)
Definition bm_remove (m : BufferMemory) (b : Buffer) : BufferMemory :=
  let '(p, v) :=
    subtract_count (bm_payload_bytes m) (len (buf_bytes b)) (bm_counters_valid m) in
  let '(c, v) := subtract_count (bm_buffer_capacity_bytes m) (buf_capacity b) v in
  {| bm_payload_bytes := p; bm_buffer_capacity_bytes := c; bm_counters_valid := v |}.

(** [BufferMemory::summary]. *)
Definition bm_summary (m : BufferMemory) (chunks map_capacity : N) : ChunkStoreMemory := {|
  csm_chunks := chunks; csm_map_capacity := map_capacity;
  csm_payload_bytes := bm_payload_bytes m;
  csm_buffer_capacity_bytes := bm_buffer_capacity_bytes m;
  csm_counters_valid := bm_counters_valid m |}.

(** * The in-memory store *)

Record StoredChunk := { sc_buffer : Buffer; sc_birth_generation : N }.
Definition sc_bytes (c : StoredChunk) : bytes := buf_bytes (sc_buffer c).

(** [MemoryChunkState]: the content of the [RefCell]. *)
Record MemoryChunkStore := {
  ms_map : gmap FileHash StoredChunk;
  ms_memory : BufferMemory;
  ms_insertion_generation : N;
  ms_active_baseline : option N;
}.

Definition ms_new : MemoryChunkStore := {|
  ms_map := ∅; ms_memory := bm_default;
  ms_insertion_generation := 0; ms_active_baseline := None |}.

Definition ms_with_map (s : MemoryChunkStore) (m : gmap FileHash StoredChunk)
    (mem : BufferMemory) : MemoryChunkStore := {|
  ms_map := m; ms_memory := mem;
  ms_insertion_generation := ms_insertion_generation s;
  ms_active_baseline := ms_active_baseline s |}.

Definition ms_len (s : MemoryChunkStore) : N := N.of_nat (size (ms_map s)).
Definition ms_is_empty (s : MemoryChunkStore) : bool := ms_len s =? 0.

(** [memory_summary]; the map capacity is what the allocator reports. *)
Definition ms_memory_summary (s : MemoryChunkStore) (map_capacity : N) : ChunkStoreMemory :=
  bm_summary (ms_memory s) (ms_len s) map_capacity.

(** [candidate_baseline_preflight]. *)
Definition candidate_baseline_preflight (s : MemoryChunkStore) : result ChunkError N :=
  match ms_active_baseline s with
  | Some _ => Err (Deserialize "candidate baseline already pinned")
  | None =>
      let? _ := ok_or (checked_add64 (ms_insertion_generation s) 1)
                  (Deserialize "candidate baseline generation exhausted") in
      Ok (ms_insertion_generation s)
  end.

(** [open_candidate_baseline]. *)
Definition open_candidate_baseline (expected : N) : St MemoryChunkStore ChunkError unit :=
  λ s,
    if bool_decide (is_Some (ms_active_baseline s))
       || negb (ms_insertion_generation s =? expected)
    then (Err (Deserialize "candidate baseline generation changed"), s)
    else
      match checked_add64 expected 1 with
      | None => (Err (Deserialize "candidate baseline generation exhausted"), s)
      | Some next =>
          (Ok tt, {| ms_map := ms_map s; ms_memory := ms_memory s;
                     ms_insertion_generation := next;
                     ms_active_baseline := Some expected |})
      end.

(** [close_candidate_baseline]. *)
Definition close_candidate_baseline (expected : N) : St MemoryChunkStore ChunkError unit :=
  λ s,
    if bool_decide (ms_active_baseline s = Some expected)
    then (Ok tt, {| ms_map := ms_map s; ms_memory := ms_memory s;
                    ms_insertion_generation := ms_insertion_generation s;
                    ms_active_baseline := None |})
    else (Err (Deserialize "candidate baseline pin mismatch"), s).

(** [is_fresh_since]. *)
Definition is_fresh_since (h : FileHash) (baseline : N) (s : MemoryChunkStore)
    : result ChunkError bool :=
  if bool_decide (ms_active_baseline s = Some baseline) then
    match ms_map s !! h with
    | Some c => Ok (baseline <? sc_birth_generation c)
    | None => Err (NotFound h)
    end
  else Err (Deserialize "candidate baseline is not pinned").

(** [insert_chunk]: replacing a resident chunk keeps its birth generation. *)
Definition insert_chunk (h : FileHash) (b : Buffer) (s : MemoryChunkStore)
    : MemoryChunkStore :=
  let birth_generation :=
    match ms_map s !! h with
    | Some c => sc_birth_generation c
    | None => ms_insertion_generation s
    end in
  let chunk := {| sc_buffer := b; sc_birth_generation := birth_generation |} in
  let memory :=
    match ms_map s !! h with
    | Some previous => bm_remove (ms_memory s) (sc_buffer previous)
    | None => ms_memory s
    end in
  ms_with_map s (<[h := chunk]> (ms_map s))
    (bm_add memory (len (buf_bytes b)) (buf_capacity b)).

Definition get_chunk (h : FileHash) (s : MemoryChunkStore) : option bytes :=
  sc_bytes <$> ms_map s !! h.
Definition chunk_byte_length (h : FileHash) (s : MemoryChunkStore) : option N :=
  (λ c, len (sc_bytes c)) <$> ms_map s !! h.
Definition resident_chunk_matches (h : FileHash) (b : bytes) (s : MemoryChunkStore)
    : option bool :=
  (λ c, beq (sc_bytes c) b) <$> ms_map s !! h.

Definition MAX_CHUNK_EXPORT_PART_BYTES : N := 65536.

(** [copy_chunk_range]. *)
Definition copy_chunk_range (h : FileHash) (captured_length offset max_bytes : N)
    (s : MemoryChunkStore) : result ChunkError bytes :=
  if (max_bytes =? 0) || (MAX_CHUNK_EXPORT_PART_BYTES <? max_bytes)
  then Err (Deserialize "invalid chunk export part budget")
  else
    let? remaining := ok_or (checked_sub64 captured_length offset)
                        (Deserialize "chunk export offset exceeds captured length") in
    let count := N.min remaining max_bytes in
    let? end_ := ok_or (checked_add64 offset count)
                   (Deserialize "chunk export offset overflow") in
    match ms_map s !! h with
    | None => Err (Deserialize "chunk export source is missing")
    | Some c =>
        if negb (len (sc_bytes c) =? captured_length)
        then Err (Deserialize "chunk export source length changed")
        else Ok (slice (sc_bytes c) offset end_)
    end.

Definition all_chunks (s : MemoryChunkStore) : list (FileHash * bytes) :=
  (λ kv, (kv.1, sc_bytes kv.2)) <$> map_to_list (ms_map s).
Definition all_chunk_hashes (s : MemoryChunkStore) : list FileHash :=
  (map_to_list (ms_map s)).*1.

Section promotion.
Context `{Blake3}.

(** [hash_bytes(bytes) == *hash] for every staged object. *)
Definition staged_verified (staged : gmap FileHash Buffer) : bool :=
  forallb (λ kv, beq (hash_bytes (buf_bytes kv.2)) kv.1) (map_to_list staged).

(** The insertion loop of [promote_verified_chunks]: resident objects are
    kept. *)
Definition promote_one (kv : FileHash * Buffer) (s : MemoryChunkStore) : MemoryChunkStore :=
  match ms_map s !! kv.1 with
  | Some _ => s
  | None =>
      ms_with_map s
        (<[kv.1 := {| sc_buffer := kv.2;
                      sc_birth_generation := ms_insertion_generation s |}]> (ms_map s))
        (bm_add (ms_memory s) (len (buf_bytes kv.2)) (buf_capacity kv.2))
  end.

(** [promote_verified_chunks]; [reserve_ok] is the answer of
    [try_reserve]. *)
Definition promote_verified_chunks (staged : gmap FileHash Buffer) (reserve_ok : bool)
    : St MemoryChunkStore ChunkError unit :=
  λ s,
    if negb (staged_verified staged)
    then (Err (Deserialize "refusing staged index bytes that do not match"), s)
    else if existsb (λ kv, match ms_map s !! kv.1 with
                           | Some existing => negb (beq (sc_bytes existing) (buf_bytes kv.2))
                           | None => false
                           end) (map_to_list staged)
    then (Err (Deserialize "resident index object has conflicting bytes"), s)
    else if negb reserve_ok
    then (Err (Deserialize "could not reserve staged index promotion"), s)
    else (Ok tt, fold_left (λ s kv, promote_one kv s) (map_to_list staged) s).

(** [prepare_candidate_chunk_promotion]. *)
Definition prepare_candidate_chunk_promotion (staged : gmap FileHash Buffer)
    (reserve_ok : bool) : St MemoryChunkStore ChunkError unit :=
  λ s,
    if negb (staged_verified staged)
    then (Err (Deserialize "refusing staged candidate bytes that do not match"), s)
    else if existsb (λ kv, bool_decide (is_Some (ms_map s !! kv.1))) (map_to_list staged)
    then (Err (Deserialize "resident candidate object appeared after staging"), s)
    else if negb reserve_ok
    then (Err (Deserialize "could not reserve candidate chunk promotion"), s)
    else (Ok tt, s).

(** [promote_prepared_candidate_chunks]: the same body as [insert_chunk],
    once per staged object. *)
Definition promote_prepared_candidate_chunks (staged : gmap FileHash Buffer)
    (s : MemoryChunkStore) : MemoryChunkStore :=
  fold_left (λ s kv, insert_chunk kv.1 kv.2 s) (map_to_list staged) s.
End promotion.

(** One step of the [retain] closure: the removed byte count and the
    accounting. *)
Definition retain_one (reachable : gset FileHash) (kv : FileHash * StoredChunk)
    (acc : gmap FileHash StoredChunk * BufferMemory * N)
    : gmap FileHash StoredChunk * BufferMemory * N :=
  let '(m, mem, removed) := acc in
  if bool_decide (kv.1 ∈ reachable) then acc
  else (delete kv.1 m, bm_remove mem (sc_buffer kv.2),
        saturating_add64 removed (len (sc_bytes kv.2))).

(** [retain_chunks]: [None] is the assertion failure on a pinned baseline. *)
Definition retain_chunks (reachable : gset FileHash) (s : MemoryChunkStore)
    : option (N * N * N * MemoryChunkStore) :=
  match ms_active_baseline s with
  | Some _ => None
  | None =>
      let before := ms_len s in
      let '(m, mem, removed) :=
        fold_left (λ acc kv, retain_one reachable kv acc) (map_to_list (ms_map s))
          (ms_map s, ms_memory s, 0) in
      let s' := ms_with_map s m mem in
      Some (before, ms_len s', removed, s')
  end.

(** [ChunkStore::delete]. *)
Definition mem_delete (h : FileHash) : St MemoryChunkStore ChunkError unit :=
  λ s,
    match ms_active_baseline s with
    | Some _ => (Err (Deserialize "cannot delete with a pinned candidate baseline"), s)
    | None =>
        match ms_map s !! h with
        | Some c =>
            (Ok tt, ms_with_map s (delete h (ms_map s))
                      (bm_remove (ms_memory s) (sc_buffer c)))
        | None => (Ok tt, s)
        end
    end.

(** A vector whose capacity is its length. *)
Definition exact_buffer (b : bytes) : Buffer := {| buf_bytes := b; buf_capacity := len b |}.

#[global] Instance mem_chunk_store : ChunkStore MemoryChunkStore := {|
  cs_has h s := bool_decide (is_Some (ms_map s !! h));
  cs_get h s := match ms_map s !! h with
                | Some c => Ok (sc_bytes c)
                | None => Err (NotFound h)
                end;
  cs_put h b s := (Ok tt, insert_chunk h (exact_buffer b) s);
  cs_delete := mem_delete;
|}.

#[global] Instance mem_chunk_store_laws `{Blake3} : ChunkStoreLaws MemoryChunkStore.
Proof.
  split.
  - intros b s. simpl. eauto.
  - intros b s s' [= <-]. simpl. by rewrite lookup_insert_eq.
  - intros b h s s' [= <-] Hne. simpl. by rewrite lookup_insert_ne.
Qed.

(** * Retirement

    [into_chunks] moves the map out; [next] hands out one buffer at a time and
    takes it off the accounting. *)
Record ChunkRetirement := {
  cr_chunks : list (FileHash * StoredChunk);
  cr_map_capacity : N;
  cr_memory : BufferMemory;
}.

Definition into_chunks (s : MemoryChunkStore) (map_capacity : N) : ChunkRetirement := {|
  cr_chunks := map_to_list (ms_map s);
  cr_map_capacity := map_capacity;
  cr_memory := ms_memory s |}.

Definition cr_next (r : ChunkRetirement) : option (FileHash * bytes) * ChunkRetirement :=
  match cr_chunks r with
  | [] => (None, r)
  | (h, c) :: chunks =>
      (Some (h, sc_bytes c),
       {| cr_chunks := chunks; cr_map_capacity := cr_map_capacity r;
          cr_memory := bm_remove (cr_memory r) (sc_buffer c) |})
  end.

Definition cr_memory_summary (r : ChunkRetirement) : ChunkStoreMemory :=
  bm_summary (cr_memory r) (len (cr_chunks r)) (cr_map_capacity r).

(** * The disk store

    Files are named by the hex of the hash, in a directory named by its first
    two digits. [atomic_write] promotes a complete temporary file by rename,
    so that a reader sees the old file or the new one: the state is the map
    from paths to complete files. I/O errors of the host are not modelled. *)
Section disk.
Context `{Blake3, Hex}.

Record DiskChunkStore := { ds_files : gmap (bytes * bytes) bytes }.

(** [chunk_path]. *)
Definition chunk_path (h : FileHash) : bytes * bytes :=
  let hex := hash_to_hex h in (take 2 hex, drop 2 hex).

(** [read_verified]. *)
Definition read_verified (h : FileHash) (s : DiskChunkStore) : result ChunkError bytes :=
  match ds_files s !! chunk_path h with
  | None => Err (NotFound h)
  | Some data =>
      if negb (beq (hash_bytes data) h)
      then Err (Deserialize "index object failed content-address validation")
      else Ok data
  end.

(** [DiskChunkStore::put]. *)
Definition disk_put (h : FileHash) (data : bytes) : St DiskChunkStore ChunkError unit :=
  λ s,
    if negb (beq (hash_bytes data) h)
    then (Err (Deserialize "refusing index bytes that do not match"), s)
    else (Ok tt, {| ds_files := <[chunk_path h := data]> (ds_files s) |}).

(** [DiskChunkStore::delete]. *)
Definition disk_delete (h : FileHash) : St DiskChunkStore ChunkError unit :=
  λ s, (Ok tt, {| ds_files := delete (chunk_path h) (ds_files s) |}).

#[global] Instance disk_chunk_store : ChunkStore DiskChunkStore := {|
  cs_has h s := is_ok (read_verified h s);
  cs_get := read_verified;
  cs_put := disk_put;
  cs_delete := disk_delete;
|}.

Lemma chunk_path_inj h1 h2 : chunk_path h1 = chunk_path h2 → h1 = h2.
Proof.
  unfold chunk_path, hash_to_hex. intros [= E1 E2].
  assert (hex_encode h1 = hex_encode h2) as E.
  { by rewrite <-(take_drop 2 (hex_encode h1)), <-(take_drop 2 (hex_encode h2)), E1, E2. }
  assert (@Ok FromHexError _ h1 = Ok h2) as [= ->]; [|done].
  by rewrite <-!hex_decode_encode, E.
Qed.

#[global] Instance disk_chunk_store_laws : ChunkStoreLaws DiskChunkStore.
Proof.
  split.
  - intros b s. simpl. unfold disk_put, beq. rewrite bool_decide_eq_true_2 by done.
    simpl. eauto.
  - intros b s s'. simpl. unfold disk_put, beq. rewrite bool_decide_eq_true_2 by done.
    intros [= <-]. unfold read_verified. simpl. rewrite lookup_insert_eq.
    unfold beq. by rewrite bool_decide_eq_true_2.
  - intros b h s s'. simpl. unfold disk_put, beq. rewrite bool_decide_eq_true_2 by done.
    intros [= <-] Hne. unfold read_verified. simpl. rewrite lookup_insert_ne; [done|].
    intros E%chunk_path_inj. done.
Qed.
End disk.
