(* ===== verification/StoreProps.v ===== *)
(** The in-memory chunk store as a state machine: its byte counters are exact
    while they are valid, and an open candidate baseline separates exactly the
    objects that were resident when it was opened from those added since. *)

From S2P Require Import Prelude Bytes Hash Chunk Concrete Store.
From stdpp Require Import fin_maps.
Local Open Scope N_scope.

(** * Totals *)

Definition total {A} (f : A → N) (m : gmap FileHash A) : N :=
  map_fold (λ _ a n, f a + n) 0 m.

Section total.
Context {A : Type} (f : A → N).
Implicit Types m : gmap FileHash A.

Lemma total_empty : total f ∅ = 0.
Proof. apply map_fold_empty. Qed.

Lemma total_insert m h a : m !! h = None → total f (<[h := a]> m) = f a + total f m.
Proof. intros. unfold total. apply (map_fold_insert_L (λ _ a n, f a + n)); [intros; lia|done]. Qed.

Lemma total_delete m h a : m !! h = Some a → total f m = f a + total f (delete h m).
Proof. intros. unfold total. apply (map_fold_delete_L (λ _ a n, f a + n)); [intros; lia|done]. Qed.

Lemma total_replace m h a b :
  m !! h = Some a → f a + total f (<[h := b]> m) = f b + total f m.
Proof.
  intros Hm. rewrite <-insert_delete_eq, total_insert by apply lookup_delete_eq.
  rewrite (total_delete m h a Hm). lia.
Qed.
End total.

Definition payload_of (c : StoredChunk) : N := len (sc_bytes c).
Definition capacity_of (c : StoredChunk) : N := buf_capacity (sc_buffer c).

(** * The counters *)

(** While the counters are valid they are the totals of the map. *)
Definition counts (m : gmap FileHash StoredChunk) (mem : BufferMemory) : Prop :=
  bm_counters_valid mem = true →
  bm_payload_bytes mem = total payload_of m ∧ bm_buffer_capacity_bytes mem = total capacity_of m.

Lemma counts_new : counts ∅ bm_default.
Proof. intros _. by rewrite !total_empty. Qed.

Lemma bm_add_valid mem l c :
  bm_counters_valid (bm_add mem l c) = true →
  bm_counters_valid mem = true ∧ bm_payload_bytes (bm_add mem l c) = bm_payload_bytes mem + l
  ∧ bm_buffer_capacity_bytes (bm_add mem l c) = bm_buffer_capacity_bytes mem + c.
Proof.
  unfold bm_add, add_count. intros H.
  destruct (checked_add64 (bm_payload_bytes mem) l) as [p|] eqn:E1,
    (checked_add64 (bm_buffer_capacity_bytes mem) c) as [q|] eqn:E2; cbn in H; try done.
  unfold checked_add64 in *. repeat case_match; simplify_eq. done.
Qed.

(** The only addition that invalidates the counters is one that overflows. *)
Lemma bm_add_overflow mem l c :
  bm_counters_valid mem = true →
  bm_payload_bytes mem + l ≤ U64_MAX → bm_buffer_capacity_bytes mem + c ≤ U64_MAX →
  bm_counters_valid (bm_add mem l c) = true.
Proof.
  intros Hv H1 H2. unfold bm_add, add_count, checked_add64.
  by rewrite !(proj2 (N.leb_le _ _)) by done.
Qed.

Lemma bm_remove_valid mem b :
  bm_counters_valid (bm_remove mem b) = true → bm_counters_valid mem = true.
Proof.
  unfold bm_remove, subtract_count. intros H. repeat case_match; simplify_eq; done.
Qed.

Lemma counts_remove m mem h c :
  m !! h = Some c → counts m mem → counts (delete h m) (bm_remove mem (sc_buffer c)).
Proof.
  intros Hm Hc Hv. pose proof (bm_remove_valid _ _ Hv) as Hv'. destruct (Hc Hv') as [Hp Hq].
  rewrite (total_delete payload_of _ _ _ Hm) in Hp. rewrite (total_delete capacity_of _ _ _ Hm) in Hq. unfold payload_of, capacity_of, sc_bytes in Hp, Hq.
  unfold bm_remove, subtract_count, checked_sub64.
  rewrite !(proj2 (N.leb_le _ _)) by lia. cbn.
  unfold payload_of, capacity_of, sc_bytes. lia.
Qed.

Lemma counts_add m mem h c :
  m !! h = None → counts m mem →
  counts (<[h := c]> m) (bm_add mem (len (sc_bytes c)) (buf_capacity (sc_buffer c))).
Proof.
  intros Hm Hc Hv. apply bm_add_valid in Hv as (Hv & -> & ->). destruct (Hc Hv) as [-> ->].
  rewrite !total_insert by done. unfold payload_of, capacity_of. lia.
Qed.

Lemma counts_replace m mem h c c' :
  m !! h = Some c → counts m mem →
  counts (<[h := c']> m)
    (bm_add (bm_remove mem (sc_buffer c)) (len (sc_bytes c')) (buf_capacity (sc_buffer c'))).
Proof.
  intros Hm Hc. rewrite <-insert_delete_eq. apply counts_add; [apply lookup_delete_eq|].
  by apply counts_remove.
Qed.

(** * The invariant *)

Record mem_wf (s : MemoryChunkStore) : Prop := {
  wf_counts : counts (ms_map s) (ms_memory s);
  wf_birth : ∀ h c, ms_map s !! h = Some c → sc_birth_generation c ≤ ms_insertion_generation s;
  wf_baseline : ∀ b, ms_active_baseline s = Some b → ms_insertion_generation s = b + 1;
}.

(** What an addition does to the store: the objects are those of before and
    [added], each new one born in the current generation. *)
Record grows (added : gset FileHash) (s s' : MemoryChunkStore) : Prop := {
  gr_generation : ms_insertion_generation s' = ms_insertion_generation s;
  gr_baseline : ms_active_baseline s' = ms_active_baseline s;
  gr_old : ∀ h c, ms_map s !! h = Some c →
    ∃ c', ms_map s' !! h = Some c' ∧ sc_birth_generation c' = sc_birth_generation c;
  gr_new : ∀ h c, ms_map s !! h = None → ms_map s' !! h = Some c →
    h ∈ added ∧ sc_birth_generation c = ms_insertion_generation s;
  gr_added : ∀ h, h ∈ added → is_Some (ms_map s' !! h);
}.

Lemma grows_refl s : grows ∅ s s.
Proof. split; try done; [eauto|congruence]. Qed.

Lemma grows_trans X Y s1 s2 s3 : grows X s1 s2 → grows Y s2 s3 → grows (X ∪ Y) s1 s3.
Proof.
  intros H1 H2. split.
  - by rewrite (gr_generation _ _ _ H2), (gr_generation _ _ _ H1).
  - by rewrite (gr_baseline _ _ _ H2), (gr_baseline _ _ _ H1).
  - intros h c Hc. destruct (gr_old _ _ _ H1 h c Hc) as (c2 & Hc2 & E2).
    destruct (gr_old _ _ _ H2 h c2 Hc2) as (c3 & Hc3 & E3). exists c3. by rewrite E3.
  - intros h c Hn Hc. destruct (ms_map s2 !! h) as [c2|] eqn:E.
    + destruct (gr_new _ _ _ H1 h c2 Hn E) as [? Eb].
      destruct (gr_old _ _ _ H2 h c2 E) as (c3 & Hc3 & E3).
      rewrite Hc in Hc3. injection Hc3 as <-. split; [set_solver|congruence].
    + destruct (gr_new _ _ _ H2 h c E Hc) as [? Eb].
      rewrite (gr_generation _ _ _ H1) in Eb. split; [set_solver|done].
  - intros h [Hh|Hh]%elem_of_union; [|by apply (gr_added _ _ _ H2)].
    destruct (gr_added _ _ _ H1 h Hh) as [c Hc].
    destruct (gr_old _ _ _ H2 h c Hc) as (c' & -> & _). done.
Qed.

Lemma insert_chunk_spec h b s :
  mem_wf s → mem_wf (insert_chunk h b s) ∧ grows {[h]} s (insert_chunk h b s).
Proof.
  intros Hw. unfold insert_chunk. destruct (ms_map s !! h) as [c|] eqn:E.
  - split; split; cbn; try done; try (by apply Hw).
    + by apply (counts_replace _ _ h c {| sc_buffer := b; sc_birth_generation := _ |}),
        wf_counts.
    + intros h' c'. rewrite lookup_insert_Some. intros [[<- <-]|[_ Hc]];
        [cbn; by apply (wf_birth _ Hw h)|by apply (wf_birth _ Hw h')].
    + intros h' c' Hc. destruct (decide (h' = h)) as [->|Hne].
      * rewrite lookup_insert_eq. simplify_eq. by eexists.
      * rewrite lookup_insert_ne by done. by eexists.
    + intros h' c' Hn. rewrite lookup_insert_Some. intros [[<- <-]|[_ Hc]]; congruence.
    + intros h' ->%elem_of_singleton. by rewrite lookup_insert_eq.
  - split; split; cbn; try done; try (by apply Hw).
    + by apply (counts_add _ _ h {| sc_buffer := b; sc_birth_generation := _ |}), wf_counts.
    + intros h' c'. rewrite lookup_insert_Some. intros [[<- <-]|[_ Hc]]; [done|by apply (wf_birth _ Hw h')].
    + intros h' c' Hc. rewrite lookup_insert_ne by congruence. by eexists.
    + intros h' c' Hn. rewrite lookup_insert_Some. intros [[<- <-]|[_ Hc]]; [|congruence].
      split; [set_solver|done].
    + intros h' ->%elem_of_singleton. by rewrite lookup_insert_eq.
Qed.

(** Promoting one object inserts it unless it is resident. *)
Lemma promote_one_insert kv s :
  promote_one kv s
  = match ms_map s !! kv.1 with Some _ => s | None => insert_chunk kv.1 kv.2 s end.
Proof. unfold promote_one, insert_chunk. by destruct (ms_map s !! kv.1). Qed.

Lemma grows_fold (f : FileHash * Buffer → MemoryChunkStore → MemoryChunkStore) :
  (∀ kv s, mem_wf s → mem_wf (f kv s) ∧ grows {[kv.1]} s (f kv s)) →
  ∀ l s, mem_wf s → let s' := fold_left (λ s kv, f kv s) l s in
    mem_wf s' ∧ grows (list_to_set l.*1) s s'.
Proof.
  intros Hf. induction l as [|kv l IH]; intros s Hw; cbn [fold_left].
  - split; [done|]. apply grows_refl.
  - destruct (Hf kv s Hw) as [Hw1 Hg1]. destruct (IH _ Hw1) as [Hw2 Hg2].
    split; [done|]. csimpl. by eapply grows_trans.
Qed.

Lemma promote_one_spec kv s :
  mem_wf s → mem_wf (promote_one kv s) ∧ grows {[kv.1]} s (promote_one kv s).
Proof.
  intros Hw. rewrite promote_one_insert. destruct (ms_map s !! kv.1) as [c|] eqn:E.
  - split; [done|]. split; try done; [eauto|congruence|].
    intros h ->%elem_of_singleton. by rewrite E.
  - by apply insert_chunk_spec.
Qed.

(** The [retain] loop keeps exactly the reachable objects, and its accounting
    follows. *)
Lemma retain_loop reachable l m mem removed m' mem' removed' :
  NoDup l.*1 → (∀ h c, (h, c) ∈ l → m !! h = Some c) → counts m mem →
  fold_left (λ acc kv, retain_one reachable kv acc) l (m, mem, removed) = (m', mem', removed') →
  counts m' mem'
  ∧ ∀ h, m' !! h = if bool_decide (h ∈ l.*1 ∧ h ∉ reachable) then None else m !! h.
Proof.
  revert m mem removed. induction l as [|[h c] l IH]; intros m mem removed Hnd Hin Hc; cbn [fold_left].
  { intros [= <- <- <-]. split; [done|]. intros h.
    rewrite bool_decide_eq_false_2; [done|]. by intros [?%not_elem_of_nil _]. }
  csimpl in Hnd. apply NoDup_cons in Hnd as [Hh Hnd].
  assert (m !! h = Some c) as Hm by (apply Hin; left).
  unfold retain_one at 2. cbn [fst snd]. case_bool_decide as Hr; intros Hf.
  - destruct (IH m mem removed Hnd) as [IH1 IH2]; [|done..|].
    { intros h' c' ?. apply Hin. by right. }
    split; [done|]. intros h'. rewrite IH2. csimpl.
    destruct (decide (h' = h)) as [->|Hne].
    + rewrite !bool_decide_eq_false_2; [done|set_solver..].
    + erewrite bool_decide_ext; [done|]. rewrite elem_of_cons. naive_solver.
  - destruct (IH (delete h m) (bm_remove mem (sc_buffer c))
                (saturating_add64 removed (len (sc_bytes c))) Hnd) as [IH1 IH2]; [| |done|].
    { intros h' c' Hl. rewrite lookup_delete_ne; [apply Hin; by right|].
      intros <-. apply Hh. apply list_elem_of_fmap. by exists (h, c'). }
    { by apply counts_remove. }
    split; [done|]. intros h'. rewrite IH2. csimpl.
    destruct (decide (h' = h)) as [->|Hne].
    + rewrite (bool_decide_eq_true_2 (_ ∈ _ :: _ ∧ _)) by (split; [left|done]).
      rewrite lookup_delete_eq. by case_bool_decide.
    + rewrite lookup_delete_ne by done. erewrite bool_decide_ext; [done|].
      rewrite elem_of_cons. naive_solver.
Qed.

Lemma retain_chunks_map reachable s before after removed s' :
  mem_wf s → retain_chunks reachable s = Some (before, after, removed, s') →
  mem_wf s' ∧ ms_active_baseline s = None ∧ ms_active_baseline s' = None
  ∧ ms_insertion_generation s' = ms_insertion_generation s
  ∧ (∀ h, ms_map s' !! h = if bool_decide (h ∈ reachable) then ms_map s !! h else None).
Proof.
  intros Hw. unfold retain_chunks. destruct (ms_active_baseline s) eqn:Eb; [done|].
  destruct (fold_left _ _ _) as [[m mem] r] eqn:Ef. intros [= <- <- <- <-].
  destruct (retain_loop _ _ _ _ _ _ _ _ (NoDup_fst_map_to_list (ms_map s))
              (λ h c, proj1 (elem_of_map_to_list _ _ _)) (wf_counts _ Hw) Ef) as [Hc Hm].
  assert (∀ h, m !! h = if bool_decide (h ∈ reachable) then ms_map s !! h else None) as Hm'.
  { intros h. rewrite Hm. do 2 case_bool_decide; try done; [naive_solver|].
    destruct (ms_map s !! h) as [c|] eqn:E; [|done].
    apply elem_of_map_to_list in E. destruct H. split; [|done].
    apply list_elem_of_fmap. by exists (h, c). }
  split_and!; try done. split; cbn; [done| |by rewrite Eb].
  intros h c. rewrite Hm'. case_bool_decide; [|done]. by apply wf_birth.
Qed.

(** * Steps *)

Inductive mem_step `{Blake3} : MemoryChunkStore → MemoryChunkStore → Prop :=
  | mem_insert h b s : mem_step s (insert_chunk h b s)
  | mem_promote_verified staged reserve_ok s s' :
      promote_verified_chunks staged reserve_ok s = (Ok tt, s') → mem_step s s'
  | mem_promote_prepared staged s : mem_step s (promote_prepared_candidate_chunks staged s)
  | mem_retain reachable s before after removed s' :
      retain_chunks reachable s = Some (before, after, removed, s') → mem_step s s'
  | mem_remove h s s' : mem_delete h s = (Ok tt, s') → mem_step s s'
  | mem_open b s s' : open_candidate_baseline b s = (Ok tt, s') → mem_step s s'
  | mem_close b s s' : close_candidate_baseline b s = (Ok tt, s') → mem_step s s'.

Lemma open_spec b s s' :
  open_candidate_baseline b s = (Ok tt, s') →
  ms_active_baseline s = None ∧ ms_insertion_generation s = b ∧ b + 1 ≤ U64_MAX
  ∧ s' = {| ms_map := ms_map s; ms_memory := ms_memory s;
            ms_insertion_generation := b + 1; ms_active_baseline := Some b |}.
Proof.
  unfold open_candidate_baseline, checked_add64. intros H. case_code; simplify_eq.
  bool_to_prop. split_and!; try done. by destruct (ms_active_baseline s); [destruct H|].
Qed.

(** Either the step only adds objects, or no baseline is open after it or one
    opened by it. *)
Lemma mem_step_cases `{Blake3} s s' :
  mem_wf s → mem_step s s' →
  mem_wf s' ∧ ((∃ X, grows X s s')
    ∨ (ms_active_baseline s' = None ∧ ms_insertion_generation s' = ms_insertion_generation s)
    ∨ open_candidate_baseline (ms_insertion_generation s) s = (Ok tt, s')).
Proof.
  intros Hw. destruct 1 as [h b s|staged rs s s' Hp|staged s|X s ? ? ? s' Hr|h s s' Hd|b s s' Ho|b s s' Hcl].
  - destruct (insert_chunk_spec h b s Hw). eauto.
  - unfold promote_verified_chunks in Hp. repeat case_match; simplify_eq.
    destruct (grows_fold _ promote_one_spec (map_to_list staged) s Hw). eauto.
  - unfold promote_prepared_candidate_chunks.
    destruct (grows_fold _ (λ kv, insert_chunk_spec kv.1 kv.2) (map_to_list staged) s Hw). eauto.
  - destruct (retain_chunks_map _ _ _ _ _ _ Hw Hr) as (? & ? & ? & ? & _). eauto.
  - unfold mem_delete in Hd. destruct (ms_active_baseline s) eqn:Eb; [done|].
    destruct (ms_map s !! h) as [c|] eqn:E; simplify_eq; [|eauto using grows_refl].
    split; [|by right; left]. split; cbn; [by apply counts_remove, wf_counts| |by rewrite Eb].
    intros h' c' [_ ?]%lookup_delete_Some. by apply (wf_birth _ Hw h').
  - pose proof (open_spec _ _ _ Ho) as (Hn & Hg & Hm & ->). subst b. split; [|by right; right].
    split; cbn; [apply Hw| |by intros ? [= <-]].
    intros h c Hc. pose proof (wf_birth _ Hw h c Hc). lia.
  - unfold close_candidate_baseline in Hcl. case_bool_decide; simplify_eq.
    split; [|by right; left]. split; cbn; [apply Hw..|done].
Qed.

Lemma mem_steps_wf `{Blake3} s s' : mem_wf s → rtc mem_step s s' → mem_wf s'.
Proof.
  intros Hw. induction 1 as [|s1 s2 s3 Hs _ IH]; [done|].
  apply IH. by apply (mem_step_cases s1).
Qed.

(** Since baseline [b] was opened on [s0]: as long as it is open, nothing was
    removed and every later object is born after it. *)
Definition pinned (b : N) (s0 s : MemoryChunkStore) : Prop :=
  mem_wf s ∧ b < ms_insertion_generation s ∧
  (ms_active_baseline s = Some b →
   (∀ h c, ms_map s0 !! h = Some c →
      ∃ c', ms_map s !! h = Some c' ∧ sc_birth_generation c' ≤ b) ∧
   (∀ h c, ms_map s0 !! h = None → ms_map s !! h = Some c → b < sc_birth_generation c)).

Lemma pinned_grows b s0 X s s' : pinned b s0 s → mem_wf s' → grows X s s' → pinned b s0 s'.
Proof.
  intros (Hw & Hb & Hp) Hw' Hg. split_and!; [done|by rewrite (gr_generation _ _ _ Hg)|].
  rewrite (gr_baseline _ _ _ Hg). intros Ha. destruct (Hp Ha) as [Hold Hnew]. split.
  - intros h c Hc. destruct (Hold h c Hc) as (c1 & Hc1 & Hle).
    destruct (gr_old _ _ _ Hg h c1 Hc1) as (c2 & Hc2 & E). exists c2. by rewrite E.
  - intros h c Hn Hc. destruct (ms_map s !! h) as [c1|] eqn:E.
    + destruct (gr_old _ _ _ Hg h c1 E) as (c2 & Hc2 & E2).
      rewrite Hc in Hc2. injection Hc2 as <-. rewrite E2. by apply (Hnew h).
    + destruct (gr_new _ _ _ Hg h c E Hc) as [_ ->]. done.
Qed.

Lemma pinned_step `{Blake3} b s0 s s' : pinned b s0 s → mem_step s s' → pinned b s0 s'.
Proof.
  intros Hpin Hs. pose proof Hpin as (Hw & Hb & Hp).
  destruct (mem_step_cases _ _ Hw Hs) as [Hw' [[X Hg]|[[Hn Hgen]|Ho]]].
  - by eapply pinned_grows.
  - split_and!; [done|by rewrite Hgen|]. by rewrite Hn.
  - apply open_spec in Ho as (_ & _ & _ & ->). split_and!; [done|cbn; lia|].
    cbn. intros [= ?]. lia.
Qed.

Lemma pinned_open b s s1 : mem_wf s → open_candidate_baseline b s = (Ok tt, s1) → pinned b s1 s1.
Proof.
  intros Hw Ho. apply open_spec in Ho as (Hn & Hg & Hm & ->). split_and!.
  - split; cbn; [apply Hw| |by intros ? [= <-]].
    intros h c Hc. pose proof (wf_birth _ Hw h c Hc). lia.
  - cbn. lia.
  - cbn. intros _. split.
    + intros h c Hc. exists c. split; [done|]. pose proof (wf_birth _ Hw h c Hc). lia.
    + congruence.
Qed.

Lemma pinned_steps `{Blake3} b s0 s s' : pinned b s0 s → rtc mem_step s s' → pinned b s0 s'.
Proof. intros Hp. induction 1; [done|]. eauto using pinned_step. Qed.

(** The in-memory chunk store is consistent after any sequence of its
    operations: while the counters are valid they are the byte totals of the
    resident objects, no object is born after the current generation, and an
    open baseline is the generation before the current one. *)
Theorem mem_store_invariant `{Blake3} s : rtc mem_step ms_new s → mem_wf s.
Proof.
  apply mem_steps_wf. split; cbn; [apply counts_new|by intros h c; rewrite lookup_empty|done].
Qed.

(** An open candidate baseline is exact. Whatever insertions and
    promotions run while it stays open, [is_fresh_since] answers whether the
    object is absent from the store the baseline was opened on, and no object
    of that store is lost. *)
Theorem baseline_exact `{Blake3} s b s1 s2 h :
  mem_wf s → open_candidate_baseline b s = (Ok tt, s1) →
  rtc mem_step s1 s2 → ms_active_baseline s2 = Some b →
  is_fresh_since h b s2
    = match ms_map s2 !! h with
      | Some _ => Ok (bool_decide (ms_map s1 !! h = None))
      | None => Err (NotFound h)
      end
  ∧ (is_Some (ms_map s1 !! h) → is_Some (ms_map s2 !! h)).
Proof.
  intros Hw Ho Hs Ha.
  assert (pinned b s1 s2) as (_ & _ & Hp).
  { eapply pinned_steps; [by eapply pinned_open|done]. }
  destruct (Hp Ha) as [Hold Hnew]. split.
  - unfold is_fresh_since. rewrite bool_decide_eq_true_2 by done.
    destruct (ms_map s2 !! h) as [c|] eqn:E2; [|done]. f_equal.
    destruct (ms_map s1 !! h) as [c1|] eqn:E1.
    + destruct (Hold h c1 E1) as (c' & E & Hle). rewrite E2 in E. injection E as <-.
      rewrite bool_decide_eq_false_2 by done. by apply N.ltb_ge.
    + rewrite bool_decide_eq_true_2 by done. apply N.ltb_lt. by apply (Hnew h).
  - intros [c Hc]. by destruct (Hold h c Hc) as (c' & -> & _).
Qed.

(** * Concrete runs *)

#[local] Existing Instance poly_blake3.

Definition note : bytes := str "note".
Definition draft : bytes := str "draft".
Definition st_note : MemoryChunkStore := insert_chunk note (exact_buffer note) ms_new.
Definition st_open : MemoryChunkStore := (open_candidate_baseline 0 st_note).2.
Definition st_draft : MemoryChunkStore := insert_chunk draft (exact_buffer draft) st_open.

Lemma mem_store_invariant_witness :
  rtc mem_step ms_new st_draft ∧ mem_wf st_draft ∧ bm_payload_bytes (ms_memory st_draft) = 9.
Proof.
  assert (rtc mem_step ms_new st_draft) as Hr.
  { eapply rtc_l; [apply (mem_insert note (exact_buffer note))|].
    eapply rtc_l; [apply (mem_open 0); reflexivity|].
    eapply rtc_l; [apply (mem_insert draft (exact_buffer draft))|]. apply rtc_refl. }
  split; [exact Hr|]. split; [exact (mem_store_invariant st_draft Hr)|reflexivity].
Defined.

Lemma baseline_exact_witness :
  is_fresh_since note 0 st_draft = Ok false ∧ is_fresh_since draft 0 st_draft = Ok true
  ∧ is_Some (ms_map st_draft !! note).
Proof.
  assert (mem_wf st_note) as Hw.
  { apply (mem_steps_wf ms_new); [split; cbn; [apply counts_new|by intros h c; rewrite lookup_empty|done]|].
    eapply rtc_l; [apply (mem_insert note (exact_buffer note))|]. apply rtc_refl. }
  assert (rtc mem_step st_open st_draft) as Hr.
  { eapply rtc_l; [apply (mem_insert draft (exact_buffer draft))|]. apply rtc_refl. }
  pose proof (λ h, baseline_exact st_note 0 st_open st_draft h Hw eq_refl Hr eq_refl) as B.
  split; [rewrite (proj1 (B note)); reflexivity|]. split; [rewrite (proj1 (B draft)); reflexivity|].
  apply (proj2 (B note)). by eexists.
Defined.
