(* ===== verification/TreeV1.v ===== *)
(** src/crates/sync-core/src/tree.rs: the Tree v1 builder, the incremental
    update and the loader.

    The clock is an argument ([now]); the store is any [ChunkStore]. *)

From S2P Require Import Prelude Bytes Keyed Hash Chunk Store.
From stdpp Require Import pretty.
Local Open Scope N_scope.

Definition TARGET_CHUNK_ENTRIES : nat := 1000.

(** [top_level_prefix]. *)
Definition top_level_prefix (path : bytes) : bytes :=
  match find_byte path "/"%byte with
  | Some idx => take (N.to_nat (idx + 1)) path
  | None => []
  end.

(** * BTreeMap

    A [BTreeMap<String, V>] is its association list in key order. *)

(** [f(map.entry(k).or_default())]. *)
Fixpoint bt_entry {V} (k : bytes) (d : V) (f : V → V) (m : list (bytes * V))
    : list (bytes * V) :=
  match m with
  | [] => [(k, f d)]
  | (k', v) :: m' =>
      match bcmp k k' with
      | Lt => (k, f d) :: m
      | Eq => (k', f v) :: m'
      | Gt => (k', v) :: bt_entry k d f m'
      end
  end.

(** * Slices of at most [n] records: [slice::chunks]. *)
Fixpoint chunks_fuel {A} (fuel n : nat) (l : list A) : list (list A) :=
  match fuel, l with
  | O, _ => []
  | _, [] => []
  | S fuel, _ => take n l :: chunks_fuel fuel n (drop n l)
  end.
Definition slice_chunks {A} (n : nat) (l : list A) : list (list A) :=
  chunks_fuel (length l) n l.

(** [format!("{}{}", prefix, i)]. *)
Definition child_label (prefix : bytes) (i : N) : bytes := prefix ++ str (pretty i).

(** [iter().enumerate().map(|(i, hash)| (format!(..), hash))]. *)
Definition label_children (prefix : bytes) (hashes : list FileHash)
    : list (bytes * FileHash) :=
  imap (λ i h, (child_label prefix (N.of_nat i), h)) hashes.

(** * Merging one prefix *)

Inductive FinalPathState :=
  | Upsert (entry : FileEntry)
  | Delete (path : bytes).

Definition fps_path (s : FinalPathState) : bytes :=
  match s with Upsert e => fe_path e | Delete p => p end.

(** The loop over [sorted_upserts]: a later record replaces the last one
    pushed when the paths are equal. *)
Fixpoint keep_last_from (previous : FileEntry) (l : list FileEntry) : list FileEntry :=
  match l with
  | [] => [previous]
  | e :: l =>
      if beq (fe_path previous) (fe_path e) then keep_last_from e l
      else previous :: keep_last_from e l
  end.
Definition keep_last (l : list FileEntry) : list FileEntry :=
  match l with [] => [] | e :: l => keep_last_from e l end.

(** The merge of the two normalized operation streams. *)
Fixpoint merge_states (upserts : list FileEntry) : list bytes → list FinalPathState :=
  fix go deletions :=
    match upserts, deletions with
    | [], _ => Delete <$> deletions
    | _, [] => Upsert <$> upserts
    | u :: upserts', d :: deletions' =>
        match bcmp (fe_path u) d with
        | Lt => Upsert u :: merge_states upserts' deletions
        | Eq => Upsert u :: merge_states upserts' deletions'
        | Gt => Delete d :: go deletions'
        end
    end.

(** [if let FinalPathState::Upsert(entry) = state { merged.push(entry) }]. *)
Definition push_upsert (s : FinalPathState) (merged : list FileEntry) : list FileEntry :=
  match s with Upsert e => e :: merged | Delete _ => merged end.

(** The two-pointer pass over existing entries and final states. *)
Fixpoint apply_states (existing : list FileEntry) : list FinalPathState → list FileEntry :=
  fix go states :=
    match existing, states with
    | [], _ => foldr push_upsert [] states
    | _, [] => existing
    | e :: existing', s :: states' =>
        match bcmp (fe_path e) (fps_path s) with
        | Lt => e :: apply_states existing' states
        | Eq => push_upsert s (apply_states existing' states')
        | Gt => push_upsert s (go states')
        end
    end.

(** [merge_prefix_entries]. *)
Definition merge_prefix_entries (existing upserts : list FileEntry)
    (deletions : list bytes) : list FileEntry :=
  let sorted_upserts :=
    if negb (windows2 (λ a b, ble (fe_path a) (fe_path b)) upserts)
    then sort_by fe_path upserts else upserts in
  let upserts := keep_last sorted_upserts in
  let deletions :=
    if negb (windows2 ble deletions) then sort_by id deletions else deletions in
  let deletions := dedup_by id deletions in
  apply_states existing (merge_states upserts deletions).

(** * Building, loading, updating *)

Definition MAX_VISITED_NODES : N := 1000000.
Definition MAX_LOADED_ENTRIES : N := 10000000.

Section tree.
Context {S : Type} `{Blake3, FlatBuffers, ChunkStore S}.

(** The body of the loop of [build_leaf_chunks]. *)
Definition put_leaf (entries : list FileEntry) : St S ChunkError FileHash :=
  let leaf := leaf_new entries in
  let b := leaf_serialize leaf in
  let h := hash_bytes b in
  let! _ := cs_put h b in
  st_ret h.

(** [build_leaf_chunks]. *)
Definition build_leaf_chunks (entries : list FileEntry)
    : St S ChunkError (list FileHash) :=
  let! hashes := st_map put_leaf (slice_chunks TARGET_CHUNK_ENTRIES entries) in
  if (len hashes =? 0) then
    let! h := put_leaf [] in
    st_ret [h]
  else st_ret hashes.

(** One directory: its single leaf, or an internal node over its leaves. *)
Definition build_prefix (prefix : bytes) (leaf_hashes : list FileHash)
    : St S ChunkError FileHash :=
  match leaf_hashes with
  | [h] => st_ret h
  | _ =>
      let node := internal_new (label_children prefix leaf_hashes) in
      let node_bytes := internal_serialize node in
      let node_hash := hash_bytes node_bytes in
      let! _ := cs_put node_hash node_bytes in
      st_ret node_hash
  end.

(** [groups.entry(top_level_prefix(&entry.path)).or_default().push(entry)]. *)
Definition group_entries (entries : list FileEntry) : list (bytes * list FileEntry) :=
  fold_left
    (λ groups e, bt_entry (top_level_prefix (fe_path e)) [] (λ g, g ++ [e]) groups)
    entries [].

(** The loop of [build_tree] over the groups. *)
Definition build_group (acc : N * list (bytes * FileHash))
    (g : bytes * list FileEntry) : St S ChunkError (N * list (bytes * FileHash)) :=
  let '(total_files, root_children) := acc in
  let '(prefix, group_entries) := g in
  let group_entries := sort_by fe_path group_entries in
  let total_files := total_files + len group_entries in
  let! leaf_hashes := build_leaf_chunks group_entries in
  let! h := build_prefix prefix leaf_hashes in
  st_ret (total_files, root_children ++ [(prefix, h)]).

(** [build_tree]. *)
Definition build_tree (now : N) (entries : list FileEntry) (vault_id device_id : bytes)
    : St S ChunkError RootNode :=
  let groups := group_entries entries in
  let! acc := st_fold build_group (0, []) groups in
  let '(total_files, root_children) := acc in
  st_ret {| rn_vault_id := vault_id;
            rn_created_ms := now;
            rn_version := 1;
            rn_children := root_children;
            rn_total_files := total_files;
            rn_parent_hash := None;
            rn_device_id := device_id |}.

(** The traversal of [load_all_entries]: [fuel] is the number of nodes that
    may still be visited, so an exhausted fuel with work left is the
    too-many-nodes error of the source. *)
Fixpoint load_loop (fuel : nat) (s : S) (pending : list FileHash)
    (all_entries : list FileEntry) : result ChunkError (list FileEntry) :=
  match pending with
  | [] => Ok all_entries
  | next_hash :: pending =>
      match fuel with
      | O => Err (Deserialize "tree has too many nodes")
      | Datatypes.S fuel =>
          let? b := cs_get next_hash s in
          match leaf_deserialize b with
          | Ok leaf =>
              if (MAX_LOADED_ENTRIES
                  <? saturating_add64 (len all_entries) (len (lc_entries leaf)))
              then Err (Deserialize "tree has too many entries")
              else load_loop fuel s pending (all_entries ++ lc_entries leaf)
          | Err _ =>
              match internal_deserialize b with
              | Ok node => load_loop fuel s ((in_children node).*2 ++ pending) all_entries
              | Err _ =>
                  Err (Deserialize "could not parse as LeafChunk or InternalNode")
              end
          end
      end
  end.

(** [load_all_entries]. *)
Definition load_all_entries (h : FileHash) (s : S)
    : result ChunkError (list FileEntry) :=
  let? all_entries := load_loop (N.to_nat MAX_VISITED_NODES) s [h] [] in
  Ok (sort_by fe_path all_entries).

Definition st_load (h : FileHash) : St S ChunkError (list FileEntry) :=
  λ s, (load_all_entries h s, s).

(** The two grouping loops of [update_tree]. *)
Definition changes_by_prefix (changed : list FileEntry) (deleted : list bytes)
    : list (bytes * (list FileEntry * list bytes)) :=
  let m :=
    fold_left
      (λ m e, bt_entry (top_level_prefix (fe_path e)) ([], [])
                (λ p, (p.1 ++ [e], p.2)) m) changed [] in
  fold_left
    (λ m p, bt_entry (top_level_prefix p) ([], []) (λ q, (q.1, q.2 ++ [p])) m)
    deleted m.

(** [total_files - old_count + new_count] on [u64]. *)
Definition adjust_total (total old_count new_count : N) : N :=
  wrap64 (total + 18446744073709551616 - old_count + new_count).

(** [Vec::remove], [v[i].1 = x] and [Vec::insert]. *)
Definition vec_remove {A} (i : nat) (l : list A) : list A := take i l ++ drop (1 + i) l.
Definition vec_insert {A} (i : nat) (x : A) (l : list A) : list A :=
  take i l ++ x :: drop i l.
Definition set_snd {A B} (i : nat) (b : B) (l : list (A * B)) : list (A * B) :=
  alter (λ p, (p.1, b)) i l.

(** The body of the loop of [update_tree]. *)
Definition update_prefix (acc : N * list (bytes * FileHash))
    (c : bytes * (list FileEntry * list bytes))
    : St S ChunkError (N * list (bytes * FileHash)) :=
  let '(total_files, new_children) := acc in
  let '(prefix, (adds, dels)) := c in
  let child_position :=
    binary_search_by (λ c : bytes * FileHash, bcmp c.1 prefix) new_children in
  let existing_hash :=
    match child_position with
    | Ok index => snd <$> new_children !! index
    | Err _ => None
    end in
  let! entries :=
    match existing_hash with
    | Some h => st_load h
    | None => st_ret []
    end in
  let old_count := len entries in
  let entries := merge_prefix_entries entries adds dels in
  let new_count := len entries in
  let total_files := adjust_total total_files old_count new_count in
  if (new_count =? 0) then
    match child_position with
    | Ok index => st_ret (total_files, vec_remove index new_children)
    | Err _ => st_ret (total_files, new_children)
    end
  else
    let! leaf_hashes := build_leaf_chunks entries in
    let! new_hash := build_prefix prefix leaf_hashes in
    match child_position with
    | Ok index => st_ret (total_files, set_snd index new_hash new_children)
    | Err index => st_ret (total_files, vec_insert index (prefix, new_hash) new_children)
    end.

(** [update_tree]. *)
Definition update_tree (now : N) (root : RootNode) (changed : list FileEntry)
    (deleted : list bytes) : St S ChunkError RootNode :=
  let! acc := st_fold update_prefix (rn_total_files root, rn_children root)
                (changes_by_prefix changed deleted) in
  let '(total_files, new_children) := acc in
  st_ret {| rn_vault_id := rn_vault_id root;
            rn_created_ms := now;
            rn_version := rn_version root;
            rn_children := new_children;
            rn_total_files := total_files;
            rn_parent_hash := Some (root_hash root);
            rn_device_id := rn_device_id root |}.
End tree.
