(* ===== verification/TreeV1Merge.v ===== *)
(** Correctness of [merge_prefix_entries] (src/crates/sync-core/src/tree.rs):
    the linear merge of sorted operation streams is the sequential update of
    the vault state, deletions first, later upserts winning. *)

From S2P Require Import Prelude Bytes Keyed Hash Chunk Store TreeV1.

(** * The abstract vault state

    A vault is a finite map from paths to entries; an update deletes the
    deleted paths and then writes the upserts in order. *)
Abbreviation vault := (gmap bytes FileEntry).

Definition entries_map (l : list FileEntry) : vault := kmap fe_path l.

Definition apply_update (m : vault) (upserts : list FileEntry) (deletions : list bytes)
    : vault :=
  fold_left (λ m e, <[fe_path e := e]> m) upserts
    (fold_left (λ m p, delete p m) deletions m).

Lemma apply_deletes_lookup (ds : list bytes) (m : vault) p :
  fold_left (λ m p, delete p m) ds m !! p = if decide (p ∈ ds) then None else m !! p.
Proof.
  revert m. induction ds as [|d ds IH]; intros m; cbn [fold_left].
  { done. }
  rewrite IH, lookup_delete. repeat case_decide; set_solver.
Qed.

Lemma apply_upserts_lookup (us : list FileEntry) (m : vault) p :
  fold_left (λ m e, <[fe_path e := e]> m) us m !! p =
    match last (with_key fe_path p us) with Some e => Some e | None => m !! p end.
Proof.
  revert m. induction us as [|u us IH]; intros m; [done|]. cbn [fold_left].
  rewrite IH. unfold with_key. rewrite filter_cons. case_decide as E.
  - rewrite last_cons. destruct (last _); [done|]. by rewrite E, lookup_insert_eq.
  - destruct (last _); [done|]. by rewrite lookup_insert_ne.
Qed.

Lemma apply_update_lookup m us ds p :
  apply_update m us ds !! p =
    match last (with_key fe_path p us) with
    | Some e => Some e
    | None => if decide (p ∈ ds) then None else m !! p
    end.
Proof. unfold apply_update. by rewrite apply_upserts_lookup, apply_deletes_lookup. Qed.

(** * Normalization of the upserts *)

Lemma keep_last_from_spec e l :
  wsorted fe_path (e :: l) →
  ssorted fe_path (keep_last_from e l) ∧
  (∀ x, x ∈ keep_last_from e l → x ∈ e :: l) ∧
  (∀ p, entries_map (keep_last_from e l) !! p = last (with_key fe_path p (e :: l))).
Proof.
  revert e. induction l as [|y l IH]; intros e Hs; simpl.
  { split_and!; [repeat constructor|done|]. intros p.
    unfold entries_map. rewrite kmap_with_key. unfold with_key.
    rewrite filter_cons, filter_nil. by case_decide. }
  pose proof Hs as [He Hl]%StronglySorted_cons.
  destruct (IH y Hl) as (H1 & H2 & H3).
  unfold beq. case_bool_decide as E.
  - split_and!; [done|set_solver|]. intros p. rewrite H3. unfold with_key.
    rewrite (filter_cons _ e (y :: l)). case_decide as Ep; [|done].
    rewrite filter_cons, decide_True by congruence. done.
  - assert (∀ z, z ∈ y :: l → fe_path e ≺ fe_path z) as Hlt.
    { intros z Hz. rewrite Forall_forall in He.
      assert (fe_path e ≺ fe_path y) as Hey.
      { destruct (bytes_trichotomy (fe_path e) (fe_path y)) as [?|[?|?]]; [done..|].
        exfalso. apply (He y); [left|done]. }
      apply elem_of_cons in Hz as [->|Hz]; [done|].
      apply StronglySorted_cons in Hl as [Hy _]. rewrite Forall_forall in Hy.
      specialize (Hy z Hz). unfold key_le in Hy.
      destruct (bytes_trichotomy (fe_path y) (fe_path z)) as [?|[<-|?]]; [|done|done].
      by transitivity (fe_path y). }
    split_and!.
    + apply ssorted_cons. split; [|done]. apply Forall_forall. auto.
    + set_solver.
    + intros p. unfold entries_map. rewrite kmap_cons, lookup_insert.
      fold (entries_map (keep_last_from y l)). rewrite H3.
      unfold with_key. rewrite (filter_cons _ e). repeat case_decide; try done.
      assert (with_key fe_path p (y :: l) = []) as Hn.
      { apply with_key_nil. intros (z & -> & Hz)%list_elem_of_fmap.
        specialize (Hlt z Hz). subst.
        apply (irreflexivity bytes_lt (fe_path z)). congruence. }
      unfold with_key in Hn. by rewrite Hn.
Qed.

Lemma keep_last_spec l :
  wsorted fe_path l →
  ssorted fe_path (keep_last l) ∧
  (∀ p, entries_map (keep_last l) !! p = last (with_key fe_path p l)).
Proof.
  destruct l as [|e l]; simpl; [intros; split; [constructor|done]|].
  intros Hs. destruct (keep_last_from_spec e l Hs) as (?&_&?). done.
Qed.

(** * The two merges *)

Definition states_map (l : list FinalPathState) : gmap bytes FinalPathState :=
  kmap fps_path l.

Lemma states_upserts us : ssorted fe_path us →
  ssorted fps_path (Upsert <$> us) ∧
  ∀ p, states_map (Upsert <$> us) !! p = Upsert <$> entries_map us !! p.
Proof.
  induction us as [|u us IH]; [intros; split; [constructor|done]|].
  intros [Hu Hus]%ssorted_cons. destruct (IH Hus) as [H1 H2]. split.
  - csimpl. apply ssorted_cons. split; [|done]. by rewrite Forall_fmap.
  - intros p. csimpl. unfold states_map, entries_map. rewrite !kmap_cons, !lookup_insert.
    simpl. case_decide; [done|]. apply H2.
Qed.

Lemma states_deletes (ds : list bytes) : ssorted id ds →
  ssorted fps_path (Delete <$> ds) ∧
  ∀ p, states_map (Delete <$> ds) !! p = if decide (p ∈ ds) then Some (Delete p) else None.
Proof.
  induction ds as [|d ds IH]; [intros; split; [constructor|done]|].
  intros [Hd Hds]%ssorted_cons. destruct (IH Hds) as [H1 H2]. split.
  - csimpl. apply ssorted_cons. split; [|done]. by rewrite Forall_fmap.
  - intros p. csimpl. unfold states_map. rewrite kmap_cons, lookup_insert. simpl.
    fold (states_map (Delete <$> ds)). rewrite H2.
    repeat case_decide; set_solver.
Qed.

Lemma merge_states_nil_l ds : merge_states [] ds = Delete <$> ds.
Proof. by destruct ds. Qed.
Lemma merge_states_nil_r us : merge_states us [] = Upsert <$> us.
Proof. by destruct us. Qed.
Lemma merge_states_cons u us d ds :
  merge_states (u :: us) (d :: ds) =
    match bcmp (fe_path u) d with
    | Lt => Upsert u :: merge_states us (d :: ds)
    | Eq => Upsert u :: merge_states us ds
    | Gt => Delete d :: merge_states (u :: us) ds
    end.
Proof. done. Qed.

Lemma apply_states_nil_l ss : apply_states [] ss = foldr push_upsert [] ss.
Proof. by destruct ss. Qed.
Lemma apply_states_nil_r es : apply_states es [] = es.
Proof. by destruct es. Qed.
Lemma apply_states_cons e es s ss :
  apply_states (e :: es) (s :: ss) =
    match bcmp (fe_path e) (fps_path s) with
    | Lt => e :: apply_states es (s :: ss)
    | Eq => push_upsert s (apply_states es ss)
    | Gt => push_upsert s (apply_states (e :: es) ss)
    end.
Proof. done. Qed.

Lemma ssorted_keys_lt {A} (key : A → bytes) x l k :
  ssorted key (x :: l) → k ∈ (key <$> l) → key x ≺ k.
Proof.
  rewrite ssorted_cons, Forall_forall. intros [Hx _] (y & -> & Hy)%list_elem_of_fmap.
  by apply Hx.
Qed.

(** Every path of the merge comes from one of the streams. *)
Lemma merge_states_paths us ds s :
  s ∈ merge_states us ds → fps_path s ∈ (fe_path <$> us) ∨ fps_path s ∈ ds.
Proof.
  revert ds. induction us as [|u us IHu].
  { intros ds. rewrite merge_states_nil_l, list_elem_of_fmap. naive_solver. }
  induction ds as [|d ds IHd].
  { rewrite merge_states_nil_r, list_elem_of_fmap. intros (e & -> & He). left.
    apply (list_elem_of_fmap_2 fe_path _ _ He). }
  rewrite merge_states_cons. csimpl. rewrite !elem_of_cons.
  destruct (bcmp (fe_path u) d); rewrite elem_of_cons;
    (intros [->|Hs]; [simpl; by auto|]).
  - destruct (IHu _ Hs); auto.
  - destruct (IHu _ Hs) as [?|[?|?]%elem_of_cons]; auto.
  - destruct (IHd Hs) as [[?|?]%elem_of_cons|?]; auto.
Qed.

Lemma merge_states_ssorted us ds :
  ssorted fe_path us → ssorted id ds → ssorted fps_path (merge_states us ds).
Proof.
  revert ds. induction us as [|u us IHu].
  { intros ds _ Hd. rewrite merge_states_nil_l. by apply states_deletes. }
  induction ds as [|d ds IHd]; intros Hu Hd.
  { rewrite merge_states_nil_r. by apply states_upserts. }
  pose proof Hu as [_ Hus]%ssorted_cons. pose proof Hd as [_ Hds]%ssorted_cons.
  rewrite merge_states_cons. destruct (bcmp_spec (fe_path u) d) as [E|E|E].
  - apply ssorted_cons. split; [|by apply IHu].
    apply Forall_forall. intros s [Hs|Hs]%merge_states_paths; simpl.
    + by eapply ssorted_keys_lt.
    + rewrite E. eapply (ssorted_keys_lt id d ds); [done|by rewrite list_fmap_id].
  - apply ssorted_cons. split; [|by apply IHu].
    apply Forall_forall. intros s [Hs|[->|Hs]%elem_of_cons]%merge_states_paths; simpl.
    + by eapply ssorted_keys_lt.
    + done.
    + trans d; [done|].
      eapply (ssorted_keys_lt id d ds); [done|by rewrite list_fmap_id].
  - apply ssorted_cons. split; [|by apply IHd].
    apply Forall_forall. intros s [Hs|Hs]%merge_states_paths; simpl.
    + csimpl in Hs. apply elem_of_cons in Hs as [->|Hs]; [done|].
      trans (fe_path u); [done|]. by eapply ssorted_keys_lt.
    + eapply (ssorted_keys_lt id d ds); [done|by rewrite list_fmap_id].
Qed.

Lemma entries_map_lt e es p :
  ssorted fe_path (e :: es) → ¬ fe_path e ≺ p → entries_map es !! p = None.
Proof. intros [He _]%ssorted_cons. by apply kmap_lookup_lt. Qed.

Lemma merge_states_lookup us ds p :
  ssorted fe_path us → ssorted id ds →
  states_map (merge_states us ds) !! p =
    match entries_map us !! p with
    | Some e => Some (Upsert e)
    | None => if decide (p ∈ ds) then Some (Delete p) else None
    end.
Proof.
  revert ds. induction us as [|u us IHu].
  { intros ds _ Hd. rewrite merge_states_nil_l.
    by rewrite (proj2 (states_deletes ds Hd)). }
  induction ds as [|d ds IHd]; intros Hu Hd.
  { rewrite merge_states_nil_r. rewrite (proj2 (states_upserts _ Hu)).
    destruct (entries_map _ !! p); done. }
  pose proof Hu as [_ Hus]%ssorted_cons. pose proof Hd as [Hdd Hds]%ssorted_cons.
  rewrite merge_states_cons. unfold entries_map in *. rewrite kmap_cons, lookup_insert.
  destruct (bcmp_spec (fe_path u) d) as [E|E|E];
    unfold states_map; rewrite kmap_cons, lookup_insert; cbn [fps_path].
  - destruct (decide (fe_path u = p)) as [Ep|Ep]; [done|]. fold (states_map (merge_states us ds)).
    rewrite IHu by done. destruct (kmap _ _ !! p); [done|].
    repeat case_decide; set_solver.
  - destruct (decide (fe_path u = p)) as [Ep|Ep]; [done|]. fold (states_map (merge_states us (d :: ds))).
    by rewrite IHu.
  - destruct (decide (d = p)) as [Ep|Ep].
    + subst p. rewrite (decide_False (P := fe_path u = d))
        by (intros Hc; apply (irreflexivity bytes_lt d); congruence).
      rewrite (kmap_lookup_lt fe_path u us d).
      * rewrite decide_True by set_solver. done.
      * by apply ssorted_cons in Hu as [? _].
      * intros Hlt. by eapply bytes_lt_asym.
    + fold (states_map (merge_states (u :: us) ds)). rewrite IHd by done.
      rewrite kmap_cons, lookup_insert. destruct (decide (fe_path u = p)); [done|].
      destruct (kmap _ _ !! p); [done|]. repeat case_decide; set_solver.
Qed.

(** * The final pass *)

Lemma push_upsert_spec s l :
  Forall (λ e, fps_path s ≺ fe_path e) l → ssorted fe_path l →
  ssorted fe_path (push_upsert s l) ∧
  (∀ p, entries_map (push_upsert s l) !! p =
     if decide (fps_path s = p)
     then match s with Upsert e => Some e | Delete _ => None end
     else entries_map l !! p).
Proof.
  intros Hs Hl. destruct s as [e|d]; simpl in *.
  - split; [by apply ssorted_cons|]. intros p. unfold entries_map.
    by rewrite kmap_cons, lookup_insert.
  - split; [done|]. intros p. case_decide as E; [|done]. subst.
    apply kmap_lookup_None. intros (e & -> & He)%list_elem_of_fmap.
    rewrite Forall_forall in Hs. by apply (irreflexivity bytes_lt (fe_path e)), Hs.
Qed.

Lemma push_upsert_paths s l e :
  e ∈ push_upsert s l → fe_path e = fps_path s ∨ e ∈ l.
Proof. destruct s; simpl; [rewrite elem_of_cons; intros [->|?]|]; auto. Qed.

Lemma apply_states_paths es ss e :
  e ∈ apply_states es ss → fe_path e ∈ (fe_path <$> es) ∨ fe_path e ∈ (fps_path <$> ss).
Proof.
  revert ss. induction es as [|x es IHe].
  { intros ss. rewrite apply_states_nil_l. induction ss as [|s ss IH]; simpl; [set_solver|].
    intros [->|Hs]%push_upsert_paths; csimpl; set_solver. }
  induction ss as [|s ss IHs].
  { rewrite apply_states_nil_r. left. by apply list_elem_of_fmap_2. }
  rewrite apply_states_cons. csimpl.
  destruct (bcmp (fe_path x) (fps_path s)).
  - intros [->|Hs]%push_upsert_paths; [set_solver|]. destruct (IHe _ Hs); set_solver.
  - intros [->|Hs]%elem_of_cons; [set_solver|].
    destruct (IHe _ Hs); csimpl in *; set_solver.
  - intros [->|Hs]%push_upsert_paths; [set_solver|].
    destruct (IHs Hs); csimpl in *; set_solver.
Qed.

Lemma apply_states_spec es ss :
  ssorted fe_path es → ssorted fps_path ss →
  ssorted fe_path (apply_states es ss) ∧
  (∀ p, entries_map (apply_states es ss) !! p =
     match states_map ss !! p with
     | Some (Upsert e) => Some e
     | Some (Delete _) => None
     | None => entries_map es !! p
     end).
Proof.
  revert ss. induction es as [|x es IHe].
  { intros ss _ Hs. rewrite apply_states_nil_l. induction ss as [|s ss IH]; simpl.
    { split; [constructor|done]. }
    pose proof Hs as [Hss Hs']%ssorted_cons. destruct (IH Hs') as [H1 H2].
    destruct (push_upsert_spec s (foldr push_upsert [] ss)) as [H3 H4]; [|done|].
    { apply Forall_forall. intros e He.
      rewrite <-apply_states_nil_l in He. apply apply_states_paths in He as [He|He].
      - set_solver.
      - by eapply ssorted_keys_lt. }
    split; [done|]. intros p. rewrite H4, H2. unfold states_map.
    rewrite kmap_cons, lookup_insert. by case_decide. }
  induction ss as [|s ss IHs]; intros He Hs.
  { rewrite apply_states_nil_r. done. }
  pose proof He as [Hxe He']%ssorted_cons. pose proof Hs as [Hss Hs']%ssorted_cons.
  rewrite apply_states_cons. unfold states_map. setoid_rewrite kmap_cons.
  setoid_rewrite lookup_insert. fold (states_map ss).
  destruct (bcmp_spec (fe_path x) (fps_path s)) as [E|E|E].
  - destruct (IHe ss He' Hs') as [H1 H2].
    destruct (push_upsert_spec s (apply_states es ss)) as [H3 H4]; [|done|].
    { apply Forall_forall. intros e [Hp|Hp]%apply_states_paths.
      - rewrite <-E. by eapply ssorted_keys_lt.
      - by eapply ssorted_keys_lt. }
    split; [done|]. intros p. rewrite H4, H2. case_decide as Ep; [by destruct s|].
    fold (states_map ss). destruct (states_map ss !! p) as [[]|]; try done.
    unfold entries_map. rewrite kmap_cons, lookup_insert_ne; congruence.
  - destruct (IHe (s :: ss) He' Hs) as [H1 H2]. split.
    + apply ssorted_cons. split; [|done]. apply Forall_forall.
      intros e [Hp|Hp]%apply_states_paths; [by eapply ssorted_keys_lt|].
      csimpl in Hp. apply elem_of_cons in Hp as [->|Hp]; [done|].
      trans (fps_path s); [done|]. by eapply ssorted_keys_lt.
    + intros p. unfold entries_map. rewrite kmap_cons, lookup_insert.
      fold (entries_map (apply_states es (s :: ss))). rewrite H2.
      unfold states_map. rewrite kmap_cons, lookup_insert.
      destruct (decide (fe_path x = p)) as [Ex|Ex].
      * subst p. rewrite decide_False by (intros Hc; apply (irreflexivity bytes_lt (fe_path x)); congruence).
        rewrite (kmap_lookup_lt fps_path s ss (fe_path x)); [|done|];
          [by unfold entries_map; rewrite kmap_cons, lookup_insert_eq|].
        intros Hlt. by eapply bytes_lt_asym.
      * destruct (decide (fps_path s = p)); [by destruct s|].
        destruct (kmap fps_path ss !! p) as [[]|]; try done. unfold entries_map. rewrite kmap_cons, lookup_insert_ne by done. done.
  - destruct (IHs He Hs') as [H1 H2].
    destruct (push_upsert_spec s (apply_states (x :: es) ss)) as [H3 H4]; [|done|].
    { apply Forall_forall. intros e [Hp|Hp]%apply_states_paths.
      - csimpl in Hp. apply elem_of_cons in Hp as [->|Hp]; [done|].
        trans (fe_path x); [done|]. by eapply ssorted_keys_lt.
      - by eapply ssorted_keys_lt. }
    split; [done|]. intros p. rewrite H4, H2.
    fold (states_map ss). case_decide; by destruct s.
Qed.

(** * The theorem *)

Lemma normalized_upserts us :
  wsorted fe_path
    (if negb (windows2 (λ a b, ble (fe_path a) (fe_path b)) us)
     then sort_by fe_path us else us) ∧
  ∀ p, with_key fe_path p
    (if negb (windows2 (λ a b, ble (fe_path a) (fe_path b)) us)
     then sort_by fe_path us else us) = with_key fe_path p us.
Proof.
  destruct (windows2 _ us) eqn:E; simpl.
  - split; [by apply windows2_wsorted|done].
  - split; [apply sort_by_wsorted|]. intros. apply with_key_sort_by.
Qed.

Lemma normalized_deletions (ds : list bytes) :
  let ds' := dedup_by id (if negb (windows2 ble ds) then sort_by id ds else ds) in
  ssorted id ds' ∧ ∀ p, p ∈ ds' ↔ p ∈ ds.
Proof.
  set (d0 := if negb (windows2 ble ds) then sort_by id ds else ds).
  assert (wsorted id d0 ∧ ∀ p, p ∈ d0 ↔ p ∈ ds) as [Hw Hd].
  { unfold d0. destruct (windows2 ble ds) eqn:E; simpl.
    - split; [by apply (windows2_wsorted id)|done].
    - split; [apply sort_by_wsorted|]. intros. apply elem_of_sort_by. }
  simpl. destruct (dedup_by_wsorted id d0 Hw) as [H1 H2]. split; [done|].
  intros p. rewrite <-Hd.
  assert (∀ l : list bytes, p ∈ l ↔ kmap id l !! p ≠ None) as G.
  { intros l. rewrite kmap_lookup_None, list_fmap_id.
    split; [naive_solver|]. intros Hn. destruct (decide (p ∈ l)); [done|]. by destruct Hn. }
  by rewrite !G, H2.
Qed.

Lemma merge_prefix_entries_spec existing us ds :
  ssorted fe_path existing →
  ssorted fe_path (merge_prefix_entries existing us ds) ∧
  entries_map (merge_prefix_entries existing us ds) =
    apply_update (entries_map existing) us ds.
Proof.
  intros Hex. unfold merge_prefix_entries.
  destruct (normalized_upserts us) as [Hw Hk].
  destruct (keep_last_spec _ Hw) as [Hus Hul].
  destruct (normalized_deletions ds) as [Hds Hdl].
  set (us' := keep_last _) in *. set (ds' := dedup_by id _) in *.
  destruct (apply_states_spec existing (merge_states us' ds')) as [H1 H2];
    [done|by apply merge_states_ssorted|].
  split; [done|]. apply map_eq. intros p.
  rewrite H2, merge_states_lookup, apply_update_lookup, Hul, Hk by done.
  destruct (last _); [done|].
  destruct (decide (p ∈ ds')), (decide (p ∈ ds)); naive_solver.
Qed.
