(* ===== verification/TreeV1Build.v ===== *)
(** Tree v1 building and loading (src/crates/sync-core/src/tree.rs): a tree
    built from entries loads back to them, over any lawful store. *)

From S2P Require Import Prelude Bytes Keyed Hash Chunk Store TreeV1 TreeV1Merge.
From stdpp Require Import pretty.
Local Open Scope N_scope.

(** * Slices *)
Section chunks.
Context {A : Type}.
Implicit Types l : list A.

Lemma chunks_fuel_spec fuel n l :
  (0 < n)%nat → (length l ≤ fuel)%nat →
  concat (chunks_fuel fuel n l) = l ∧
  Forall (λ c, c ≠ [] ∧ (length c ≤ n)%nat) (chunks_fuel fuel n l) ∧
  (n * length (chunks_fuel fuel n l) ≤ length l + n - 1)%nat.
Proof.
  intros Hn. revert l. induction fuel as [|fuel IH]; intros l Hl.
  { destruct l; simpl in *; [|lia]. split_and!; [done|constructor|lia]. }
  destruct l as [|x l]; [simpl; split_and!; [done|constructor|lia]|].
  cbn [chunks_fuel]. set (l' := x :: l) in *.
  destruct (IH (drop n l')) as (H1 & H2 & H3).
  { rewrite length_drop. unfold l' in *. simpl in *. lia. }
  split_and!.
  - cbn [concat]. by rewrite H1, take_drop.
  - constructor; [|done]. split; [|rewrite length_take; lia].
    unfold l'. destruct n; [lia|done].
  - cbn [length]. rewrite length_drop in H3.
    destruct (Nat.le_ge_cases n (length l')); [lia|].
    assert (drop n l' = []) as E by (apply drop_ge; lia). rewrite E in *.
    destruct fuel; simpl; unfold l'; simpl; lia.
Qed.

Lemma slice_chunks_spec n l :
  (0 < n)%nat →
  concat (slice_chunks n l) = l ∧
  Forall (λ c, c ≠ [] ∧ (length c ≤ n)%nat) (slice_chunks n l) ∧
  (n * length (slice_chunks n l) ≤ length l + n - 1)%nat.
Proof. intros. by apply chunks_fuel_spec. Qed.
End chunks.

(** * Sorted concatenations *)

Lemma ssorted_concat {A} (key : A → bytes) (ls : list (list A)) :
  ssorted key (concat ls) → Forall (ssorted key) ls.
Proof.
  induction ls as [|l ls IH]; [constructor|]. simpl. rewrite ssorted_app.
  intros (_ & ? & ?). constructor; auto.
Qed.

Lemma sort_by_perm_ssorted {A} (key : A → bytes) l es :
  l ≡ₚ es → ssorted key es → sort_by key l = es.
Proof.
  intros Hp Hs. pose proof (ssorted_NoDup _ _ Hs) as Hnd.
  assert (NoDup (key <$> l)) by (by rewrite Hp).
  apply (ssorted_ext key); [by apply sort_by_ssorted|done|].
  rewrite kmap_sort_by by done. by apply kmap_perm.
Qed.

Lemma concat_perm {A} (ls1 ls2 : list (list A)) :
  ls1 ≡ₚ ls2 → concat ls1 ≡ₚ concat ls2.
Proof.
  induction 1; simpl; [done|by f_equiv| |by etrans].
  rewrite !app_assoc. f_equiv. apply Permutation_app_comm.
Qed.

(** * Decimal labels are ASCII *)

Lemma str_cons a s : str (String a s) = Ascii.byte_of_ascii a :: str s.
Proof. done. Qed.

Lemma digit_ascii d : d < 10 → ascii_byte (Ascii.byte_of_ascii (pretty_N_char d)) = true.
Proof.
  intros Hd. destruct d as [|p]; [done|].
  do 4 (destruct p as [p|p|]; try done); lia.
Qed.

Lemma pretty_ascii (n : N) : forallb ascii_byte (str (pretty n)) = true.
Proof.
  unfold pretty, pretty_N. case_decide; [done|].
  assert (∀ s, forallb ascii_byte (str s) = true →
    forallb ascii_byte (str (pretty_N_go n s)) = true) as G; [|by apply G].
  clear. induction (N.lt_wf_0 n) as [n _ IH]; intros s Hs.
  destruct (decide (n = 0)) as [->|Hn]; [by rewrite pretty_N_go_0|].
  rewrite pretty_N_go_step by lia. apply IH.
  - apply N.div_lt; lia.
  - rewrite str_cons. cbn [forallb]. rewrite digit_ascii; [done|].
    by apply N.mod_upper_bound.
Qed.

Lemma child_label_utf8 p i : utf8 p = true → utf8 (child_label p i) = true.
Proof. intros. apply utf8_app; [done|]. apply utf8_ascii, pretty_ascii. Qed.

Lemma top_level_prefix_utf8 p : utf8 p = true → utf8 (top_level_prefix p) = true.
Proof.
  intros Hp. unfold top_level_prefix.
  assert (∀ s i, find_byte s "/"%byte = Some i →
    ∃ a b, s = a ++ "/"%byte :: b ∧ take (N.to_nat (i + 1)) s = a ++ ["/"%byte]) as G.
  { induction s as [|c s IH]; intros i; simpl; [done|]. case_bool_decide as E.
    - intros [= <-]. exists [], s. subst. done.
    - destruct (find_byte s "/"%byte) as [j|]; simpl; [|done]. intros [= <-].
      destruct (IH j eq_refl) as (a & b & -> & Hb). exists (c :: a), b.
      split; [done|]. replace (N.to_nat (N.succ j + 1)) with (S (N.to_nat (j + 1))) by lia.
      simpl. by rewrite Hb. }
  destruct (find_byte p "/"%byte) as [i|] eqn:E; [|done].
  destruct (G p i E) as (a & b & -> & ->). by eapply utf8_split_ascii.
Qed.

(** * What the builder writes *)
Section build.
Context {S : Type} {B3 : Blake3} {FB : FlatBuffers} {CS : ChunkStore S} {CSL : ChunkStoreLaws S}.

(** Storing byte strings under their hashes. *)
Definition put_all (bs : list bytes) (s : S) : S :=
  fold_left (λ s b, (cs_put (hash_bytes b) b s).2) bs s.

Lemma put_all_one b s : cs_put (hash_bytes b) b s = (Ok tt, put_all [b] s).
Proof. destruct (cs_put_ok b s) as [s' Hs]. simpl. by rewrite Hs. Qed.

Lemma put_all_app bs1 bs2 s : put_all (bs1 ++ bs2) s = put_all bs2 (put_all bs1 s).
Proof. apply fold_left_app. Qed.

(** Every byte string of [bs] is readable under its hash. *)
Definition stored (s : S) (bs : list bytes) : Prop :=
  ∀ b, b ∈ bs → cs_get (hash_bytes b) s = Ok b.

(** Reads that succeed in [s1] give the same bytes in [s2]. *)
Definition store_le (s1 s2 : S) : Prop :=
  ∀ h b, cs_get h s1 = Ok b → cs_get h s2 = Ok b.

(** Writing [bs] overwrites no resident object by different bytes. *)
Definition no_clobber (s : S) (bs : list bytes) : Prop :=
  ∀ b b', b ∈ bs → cs_get (hash_bytes b) s = Ok b' → b' = b.

#[global] Instance store_le_preorder : PreOrder store_le.
Proof. split; [by intros s h b|]. intros s1 s2 s3 H12 H23 h b Hb. auto. Qed.

Lemma put_all_get bs s h :
  h ∉ (hash_bytes <$> bs) → cs_get h (put_all bs s) = cs_get h s.
Proof.
  revert s. induction bs as [|b bs IH]; intros s; [done|]. csimpl.
  intros [Hne Hin]%not_elem_of_cons. change (put_all (b :: bs) s) with (put_all bs (put_all [b] s)).
  rewrite IH by done. eapply cs_get_put_ne; [apply put_all_one|done].
Qed.

Lemma put_all_stored bs s :
  injective_on hash_bytes (.∈ bs) → stored (put_all bs s) bs.
Proof.
  revert s. induction bs as [|b bs IH] using rev_ind; intros s Hinj x Hx; [set_solver|].
  rewrite put_all_app. destruct (decide (hash_bytes x = hash_bytes b)) as [E|E].
  - apply Hinj in E as ->; [|done|set_solver].
    eapply cs_get_put, put_all_one.
  - rewrite put_all_get; [|by set_solver].
    apply IH; [|by set_solver].
    eapply injective_on_mono; [|done]. set_solver.
Qed.

Lemma put_all_le bs s :
  injective_on hash_bytes (.∈ bs) → no_clobber s bs → store_le s (put_all bs s).
Proof.
  intros Hinj Hnc h b Hb.
  destruct (decide (h ∈ (hash_bytes <$> bs))) as [Hin|Hin].
  - apply list_elem_of_fmap in Hin as (x & -> & Hx).
    rewrite (Hnc x b Hx Hb). by apply put_all_stored.
  - by rewrite put_all_get.
Qed.

(** ** Pure descriptions of the written objects *)

Definition leaf_blob (es : list FileEntry) : bytes := leaf_serialize (leaf_new es).

Definition leaf_blobs (es : list FileEntry) : list bytes :=
  match slice_chunks TARGET_CHUNK_ENTRIES es with
  | [] => [leaf_blob []]
  | cs => leaf_blob <$> cs
  end.

Definition node_blob (p : bytes) (ls : list bytes) : bytes :=
  internal_serialize (internal_new (label_children p (hash_bytes <$> ls))).

Definition prefix_blobs (p : bytes) (es : list FileEntry) : list bytes :=
  match leaf_blobs es with
  | [b] => [b]
  | ls => ls ++ [node_blob p ls]
  end.

Definition prefix_hash (p : bytes) (es : list FileEntry) : FileHash :=
  match leaf_blobs es with
  | [b] => hash_bytes b
  | ls => hash_bytes (node_blob p ls)
  end.

Lemma put_leaf_run es s :
  put_leaf es s = (Ok (hash_bytes (leaf_blob es)), put_all [leaf_blob es] s).
Proof. unfold put_leaf. erewrite st_bind_run by apply put_all_one. done. Qed.

Lemma put_leaves_run cs s :
  st_map put_leaf cs s =
    (Ok (hash_bytes <$> (leaf_blob <$> cs)), put_all (leaf_blob <$> cs) s).
Proof.
  revert s. induction cs as [|c cs IH]; intros s; [done|]. cbn [st_map].
  erewrite st_bind_run by apply put_leaf_run.
  erewrite st_bind_run by apply IH. done.
Qed.

Lemma build_leaf_chunks_run es s :
  build_leaf_chunks es s = (Ok (hash_bytes <$> leaf_blobs es), put_all (leaf_blobs es) s).
Proof.
  unfold build_leaf_chunks, leaf_blobs.
  erewrite st_bind_run by apply put_leaves_run.
  destruct (slice_chunks _ es) as [|c cs].
  - simpl. erewrite st_bind_run by apply put_leaf_run. done.
  - rewrite (proj2 (N.eqb_neq _ _)); [done|]. by rewrite len_0.
Qed.

Lemma leaf_blobs_nonempty es : leaf_blobs es ≠ [].
Proof. unfold leaf_blobs. by destruct (slice_chunks _ es). Qed.

Lemma build_prefix_run p es s :
  build_prefix p (hash_bytes <$> leaf_blobs es) (put_all (leaf_blobs es) s) =
    (Ok (prefix_hash p es), put_all (prefix_blobs p es) s).
Proof.
  unfold build_prefix, prefix_hash, prefix_blobs.
  pose proof (leaf_blobs_nonempty es) as Hne.
  destruct (leaf_blobs es) as [|b1 [|b2 bs]]; [done|done|].
  set (ls := b1 :: b2 :: bs). rewrite put_all_app.
  change (hash_bytes <$> ls) with (hash_bytes b1 :: hash_bytes b2 :: (hash_bytes <$> bs)).
  cbv beta iota. erewrite st_bind_run; [|apply put_all_one]. done.
Qed.

(** Leaves followed by the directory node: the two calls of the builder. *)
Lemma build_dir_run {B} p es (k : FileHash → St S ChunkError B) s :
  (let! hs := build_leaf_chunks es in let! h := build_prefix p hs in k h) s =
    k (prefix_hash p es) (put_all (prefix_blobs p es) s).
Proof.
  erewrite st_bind_run by apply build_leaf_chunks_run.
  erewrite st_bind_run by apply build_prefix_run. done.
Qed.

(** ** Loading *)

Lemma load_loop_leaves fuel s cs acc :
  (length cs ≤ fuel)%nat → stored s (leaf_blob <$> cs) →
  Forall (λ c, forallb entry_ok c = true ∧ ssorted fe_path c
               ∧ (length c ≤ TARGET_CHUNK_ENTRIES)%nat) cs →
  len acc + len (concat cs) ≤ MAX_LOADED_ENTRIES →
  load_loop fuel s (hash_bytes <$> (leaf_blob <$> cs)) acc = Ok (acc ++ concat cs).
Proof.
  intros Hf Hst Hcs. revert fuel acc Hf.
  induction Hcs as [|c cs (Hok & Hs & Hl) Hcs IH]; intros [|fuel] acc Hf Hlen;
    csimpl in *; try lia; [by rewrite app_nil_r..|].
  rewrite Hst by (left). unfold leaf_blob, leaf_new. rewrite sort_by_id by done.
  rewrite leaf_roundtrip.
  - cbn [lc_entries]. autorewrite with sync in Hlen.
    rewrite (proj2 (N.ltb_ge _ _)).
    + rewrite IH; [by rewrite app_assoc|..].
      * intros b Hb. apply Hst. by right.
      * lia.
      * autorewrite with sync. lia.
    + unfold saturating_add64, MAX_LOADED_ENTRIES, U64_MAX in *. lia.
  - done.
  - unfold fb_max_tables, len, TARGET_CHUNK_ENTRIES in *. cbn [lc_entries]. lia.
Qed.

Lemma leaf_blobs_chunks es :
  es ≠ [] → leaf_blobs es = leaf_blob <$> slice_chunks TARGET_CHUNK_ENTRIES es.
Proof.
  intros Hne. unfold leaf_blobs.
  destruct (slice_chunks_spec TARGET_CHUNK_ENTRIES es) as (Hc & _); [unfold TARGET_CHUNK_ENTRIES; lia|].
  by destruct (slice_chunks _ es).
Qed.

Lemma slice_chunks_ok es :
  ssorted fe_path es → forallb entry_ok es = true →
  Forall (λ c, forallb entry_ok c = true ∧ ssorted fe_path c
               ∧ (length c ≤ TARGET_CHUNK_ENTRIES)%nat)
    (slice_chunks TARGET_CHUNK_ENTRIES es).
Proof.
  intros Hs Hok.
  destruct (slice_chunks_spec TARGET_CHUNK_ENTRIES es) as (Hc & Hl & _);
    [unfold TARGET_CHUNK_ENTRIES; lia|].
  rewrite <-Hc in Hs, Hok. apply ssorted_concat in Hs.
  rewrite Forall_forall in Hl, Hs |- *. intros c Hin. split_and!.
  - rewrite forallb_forall in Hok |- *. intros e He. apply Hok.
    apply in_concat. exists c. split; [by apply list_elem_of_In|done].
  - by apply Hs.
  - by apply Hl.
Qed.

Lemma label_children_snd p hs : (label_children p hs).*2 = hs.
Proof.
  unfold label_children. apply list_eq. intros i.
  rewrite list_lookup_fmap, list_lookup_imap. by destruct (hs !! i).
Qed.

Lemma label_children_ok p hs :
  utf8 p = true → Forall (λ h, len h = 32) hs →
  forallb child_ok (label_children p hs) = true.
Proof.
  intros Hp Hhs. apply forallb_forall. intros c Hc%list_elem_of_In.
  apply elem_of_lookup_imap in Hc as (i & h & -> & Hh).
  unfold child_ok. simpl. rewrite child_label_utf8 by done.
  apply N.eqb_eq. rewrite Forall_forall in Hhs. apply Hhs.
  by eapply list_elem_of_lookup_2.
Qed.

Lemma forallb_perm {A} (f : A → bool) l1 l2 :
  l1 ≡ₚ l2 → forallb f l1 = forallb f l2.
Proof. induction 1; simpl; try congruence. by destruct (f x), (f y). Qed.

(** The directory node is read as an internal node with its children in
    label order. *)
Lemma node_blob_read p ls :
  utf8 p = true → len ls + 2 ≤ fb_max_tables →
  ∃ hs e, hs ≡ₚ hash_bytes <$> ls ∧
    leaf_deserialize (node_blob p ls) = Err e ∧
    ∃ node, internal_deserialize (node_blob p ls) = Ok node ∧ (in_children node).*2 = hs.
Proof.
  intros Hp Hl.
  set (node := internal_new (label_children p (hash_bytes <$> ls))).
  assert (in_children node ≡ₚ label_children p (hash_bytes <$> ls)) as Hperm
    by apply sort_by_perm.
  assert (forallb child_ok (in_children node) = true) as Hok.
  { rewrite (forallb_perm _ _ _ Hperm). apply label_children_ok; [done|].
    rewrite Forall_fmap. apply Forall_true. intros. apply len_hash_bytes. }
  assert (len (in_children node) + 2 ≤ fb_max_tables) as Hlen.
  { unfold len in *. rewrite Hperm. unfold label_children.
    by rewrite length_imap, length_fmap. }
  destruct (leaf_deserialize_internal node Hok Hlen) as [e He].
  exists (in_children node).*2, e. split_and!; [|done|].
  - by rewrite Hperm, label_children_snd.
  - exists node. split; [by apply internal_roundtrip|done].
Qed.

(** A stored directory node loads the concatenation of its leaves. *)
Lemma load_node p cs es s :
  utf8 p = true → concat cs = es → ssorted fe_path es →
  len cs ≤ 10000 → len es ≤ MAX_LOADED_ENTRIES →
  Forall (λ c, forallb entry_ok c = true ∧ ssorted fe_path c
               ∧ (length c ≤ TARGET_CHUNK_ENTRIES)%nat) cs →
  stored s ((leaf_blob <$> cs) ++ [node_blob p (leaf_blob <$> cs)]) →
  load_all_entries (hash_bytes (node_blob p (leaf_blob <$> cs))) s = Ok es.
Proof.
  intros Hp Hc Hs Hn Hlen Hcs Hst.
  destruct (node_blob_read p (leaf_blob <$> cs)) as (hs & e & Hhs & Hleaf & node & Hnode & Hch);
    [done| |].
  { unfold len, fb_max_tables in *. rewrite length_fmap. lia. }
  rewrite <-list_fmap_compose in Hhs.
  apply Permutation_map_inv in Hhs as (cs' & -> & Hperm).
  assert (length cs < N.to_nat MAX_VISITED_NODES)%nat as Hfuel
    by (unfold MAX_VISITED_NODES, len in *; lia).
  unfold load_all_entries. destruct (N.to_nat MAX_VISITED_NODES) as [|fuel]; [lia|].
  cbn [load_loop]. rewrite Hst by set_solver. rewrite Hleaf, Hnode, Hch, app_nil_r.
  change (map (hash_bytes ∘ leaf_blob) cs') with ((hash_bytes ∘ leaf_blob) <$> cs').
  rewrite list_fmap_compose, load_loop_leaves.
  - cbn [app]. f_equal. apply sort_by_perm_ssorted; [|done].
    rewrite <-Hc. symmetry. by apply concat_perm.
  - rewrite <-Hperm. lia.
  - intros b Hb. apply Hst, elem_of_app. left. by rewrite Hperm.
  - by rewrite <-Hperm.
  - unfold len in *. rewrite <-(concat_perm _ _ Hperm), Hc. simpl. lia.
Qed.

(** The stored directory loads back. *)
Lemma load_prefix p es s :
  utf8 p = true → es ≠ [] → ssorted fe_path es → forallb entry_ok es = true →
  len es ≤ MAX_LOADED_ENTRIES → stored s (prefix_blobs p es) →
  load_all_entries (prefix_hash p es) s = Ok es.
Proof.
  intros Hp Hne Hs Hok Hlen Hst.
  destruct (slice_chunks_spec TARGET_CHUNK_ENTRIES es) as (Hc & _ & Hcl);
    [unfold TARGET_CHUNK_ENTRIES; lia|].
  pose proof (slice_chunks_ok es Hs Hok) as Hcs.
  unfold prefix_hash, prefix_blobs in *. rewrite leaf_blobs_chunks in * by done.
  set (cs := slice_chunks TARGET_CHUNK_ENTRIES es) in *.
  assert (len cs ≤ 10000) as Hn.
  { unfold len, MAX_LOADED_ENTRIES, TARGET_CHUNK_ENTRIES in *. lia. }
  destruct cs as [|c [|c' cs']] eqn:Ecs.
  - exfalso. apply Hne. by rewrite <-Hc.
  - change (stored s (leaf_blob <$> [c])) in Hst.
    change (load_all_entries (hash_bytes (leaf_blob c)) s = Ok es).
    assert (load_loop (N.to_nat MAX_VISITED_NODES) s (hash_bytes <$> (leaf_blob <$> [c])) []
      = Ok ([] ++ concat [c])) as E.
    { apply load_loop_leaves; [unfold MAX_VISITED_NODES; simpl; lia|done|done|].
      by rewrite Hc. }
    unfold load_all_entries. change [hash_bytes (leaf_blob c)] with
      (hash_bytes <$> (leaf_blob <$> [c])).
    rewrite E, Hc. cbn [app]. by rewrite sort_by_id.
  - change (stored s ((leaf_blob <$> c :: c' :: cs')
      ++ [node_blob p (leaf_blob <$> c :: c' :: cs')])) in Hst.
    change (load_all_entries (hash_bytes (node_blob p (leaf_blob <$> c :: c' :: cs'))) s = Ok es).
    rewrite <-Ecs in *. by apply load_node.
Qed.
End build.
