(* ===== verification/TreeV1Repr.v ===== *)
(** The directory view of a vault, and the [BTreeMap] groupings of
    src/crates/sync-core/src/tree.rs that produce it. *)

From S2P Require Import Prelude Bytes Keyed Hash Chunk Store TreeV1 TreeV1Merge.
Local Open Scope N_scope.

(** * Association lists in key order *)
Section assoc.
Context {V : Type}.
Implicit Types m : list (bytes * V).

Abbreviation amap m := (list_to_map m : gmap bytes V).

Lemma amap_kmap m k : amap m !! k = snd <$> kmap fst m !! k.
Proof.
  unfold kmap. induction m as [|[k' v] m IH]; [done|]. csimpl.
  rewrite !lookup_insert. case_decide; [done|]. apply IH.
Qed.

Lemma amap_ext m1 m2 :
  ssorted fst m1 → ssorted fst m2 → (∀ k, amap m1 !! k = amap m2 !! k) → m1 = m2.
Proof.
  intros H1 H2 E. apply (ssorted_ext fst); [done..|]. apply map_eq. intros k.
  specialize (E k). rewrite !amap_kmap in E.
  assert (∀ m x, ssorted fst m → kmap fst m !! k = Some x → x.1 = k) as Hk.
  { intros m x Hm Hx. by eapply kmap_lookup_Some in Hx as [_ ?]; [|apply ssorted_NoDup]. }
  destruct (kmap fst m1 !! k) as [x|] eqn:E1, (kmap fst m2 !! k) as [y|] eqn:E2; try done.
  apply Hk in E1, E2; [|done..]. simpl in E. destruct x, y. naive_solver.
Qed.

Lemma amap_elem m k v : ssorted fst m → amap m !! k = Some v ↔ (k, v) ∈ m.
Proof. intros Hm. symmetry. by apply elem_of_list_to_map, ssorted_NoDup. Qed.

Lemma bt_entry_keys k d f m x : x ∈ (bt_entry k d f m).*1 → x = k ∨ x ∈ m.*1.
Proof.
  induction m as [|[k' v] m IH]; cbn [bt_entry].
  { csimpl. set_solver. }
  destruct (bcmp k k'); csimpl; set_solver.
Qed.

Lemma ssorted_fst_cons k v m :
  ssorted fst ((k, v) :: m) ↔ Forall (λ x, k ≺ x) m.*1 ∧ ssorted fst m.
Proof. by rewrite ssorted_cons, Forall_fmap. Qed.

Lemma bt_entry_spec k d f m :
  ssorted fst m →
  ssorted fst (bt_entry k d f m) ∧
  amap (bt_entry k d f m) = <[k := f (default d (amap m !! k))]> (amap m).
Proof.
  induction m as [|[k' v] m IH]; cbn [bt_entry].
  { intros _. split; [repeat constructor|done]. }
  intros Hs. pose proof Hs as [Hk' Hm]%ssorted_fst_cons.
  destruct (bcmp k k') eqn:E.
  - apply bcmp_eq in E as <-. split; [by apply ssorted_fst_cons|]. csimpl.
    by rewrite lookup_insert_eq, insert_insert_eq.
  - assert (k ≺ k') as Hlt by done.
    assert (Forall (λ x, k ≺ x) ((k', v) :: m).*1) as Hk.
    { csimpl. constructor; [done|]. eapply Forall_impl; [done|]. intros x Hx. by trans k'. }
    split; [by apply ssorted_fst_cons|].
    rewrite (not_elem_of_list_to_map_1 ((k', v) :: m) k); [done|].
    rewrite Forall_forall in Hk. intros Hin%Hk. by apply (irreflexivity bytes_lt k).
  - apply bcmp_gt in E. destruct (IH Hm) as [H1 H2]. split.
    + apply ssorted_fst_cons. split; [|done]. rewrite Forall_forall in Hk' |- *.
      intros x [->|Hx]%bt_entry_keys; [done|auto].
    + apply bytes_lt_ne in E. csimpl. rewrite H2, lookup_insert_ne by done.
      by rewrite insert_insert_ne.
Qed.

(** Grouping a list into a [BTreeMap]. *)
Lemma bt_group {A} (key : A → bytes) (d : V) (f : A → V → V) l m :
  ssorted fst m →
  let m' := fold_left (λ m a, bt_entry (key a) d (f a) m) l m in
  ssorted fst m' ∧
  ∀ k, amap m' !! k =
    match filter (λ a, key a = k) l with
    | [] => amap m !! k
    | g => Some (fold_left (λ v a, f a v) g (default d (amap m !! k)))
    end.
Proof.
  revert m. induction l as [|a l IH]; intros m Hm; [done|]. cbn [fold_left].
  destruct (bt_entry_spec (key a) d (f a) m Hm) as [H1 H2].
  destruct (IH _ H1) as [H3 H4]. split; [done|]. intros k.
  rewrite H4, H2, filter_cons. case_decide as E.
  - subst k. rewrite lookup_insert_eq. by destruct (filter _ l).
  - rewrite lookup_insert_ne by done. done.
Qed.
End assoc.

Abbreviation amap m := (list_to_map m : gmap bytes _).

(** * Directories of a vault *)

Definition keyed (m : vault) : Prop := map_Forall (λ k e, fe_path e = k) m.

Definition in_dir (p : bytes) (e : FileEntry) : Prop := top_level_prefix (fe_path e) = p.
#[global] Instance in_dir_dec p e : Decision (in_dir p e).
Proof. unfold in_dir. apply _. Defined.

(** The entries below [p], in path order. *)
Definition dir_entries (p : bytes) (m : vault) : list FileEntry :=
  sort_by fe_path (filter (in_dir p) (map_to_list m).*2).

Lemma keyed_NoDup m : keyed m → NoDup (fe_path <$> (map_to_list m).*2).
Proof.
  intros Hm. replace (fe_path <$> (map_to_list m).*2) with (map_to_list m).*1;
    [apply NoDup_fst_map_to_list|].
  rewrite <-list_fmap_compose. apply list_fmap_ext. intros i [k e] Hi.
  symmetry. apply Hm. by eapply elem_of_map_to_list, list_elem_of_lookup_2.
Qed.

Lemma NoDup_key_filter {A B} (key : A → B) (P : A → Prop) `{∀ x, Decision (P x)} l :
  NoDup (key <$> l) → NoDup (key <$> filter P l).
Proof.
  intros Hl. eapply sublist_NoDup; [done|]. apply fmap_sublist, sublist_filter.
Qed.

Lemma dir_entries_ssorted p m : keyed m → ssorted fe_path (dir_entries p m).
Proof. intros. by apply sort_by_ssorted, NoDup_key_filter, keyed_NoDup. Qed.

Lemma elem_of_dir_entries p m e :
  keyed m → e ∈ dir_entries p m ↔ m !! fe_path e = Some e ∧ in_dir p e.
Proof.
  intros Hm. unfold dir_entries. rewrite elem_of_sort_by, list_elem_of_filter.
  rewrite list_elem_of_fmap. split.
  - intros [Hd ([k e'] & -> & Hin)]. apply elem_of_map_to_list in Hin. simpl in *.
    split; [|done]. by rewrite (Hm _ _ Hin).
  - intros [Hl Hd]. split; [done|]. exists (fe_path e, e). split; [done|].
    by apply elem_of_map_to_list.
Qed.

Lemma dir_entries_lookup p m k :
  keyed m →
  entries_map (dir_entries p m) !! k =
    if decide (top_level_prefix k = p) then m !! k else None.
Proof.
  intros Hm. apply option_eq. intros e. unfold entries_map.
  rewrite kmap_lookup_Some by (by apply ssorted_NoDup, dir_entries_ssorted).
  rewrite elem_of_dir_entries by done. unfold in_dir. case_decide; split; try naive_solver.
  intros He. pose proof (Hm _ _ He) as E. simpl in E. naive_solver.
Qed.

Lemma dir_entries_unique p m es :
  keyed m → ssorted fe_path es →
  (∀ k, entries_map es !! k = if decide (top_level_prefix k = p) then m !! k else None) →
  es = dir_entries p m.
Proof.
  intros Hm Hes E. apply (ssorted_ext fe_path); [done|by apply dir_entries_ssorted|].
  apply map_eq. intros k. rewrite E. symmetry. by apply dir_entries_lookup.
Qed.

Lemma size_kmap {A} (key : A → bytes) l :
  NoDup (key <$> l) → size (kmap key l) = length l.
Proof.
  intros Hl. unfold kmap. rewrite map_size_list_to_map.
  - by rewrite length_fmap.
  - by rewrite <-list_fmap_compose.
Qed.

(** The rest of the vault, away from [p]. *)
Definition outside (p : bytes) (m : vault) : vault :=
  filter (λ kv, top_level_prefix kv.1 ≠ p) m.

Lemma size_dir p m :
  keyed m → size m = (length (dir_entries p m) + size (outside p m))%nat.
Proof.
  intros Hm. rewrite <-(size_kmap fe_path) by (by apply ssorted_NoDup, dir_entries_ssorted).
  change (kmap fe_path (dir_entries p m)) with (entries_map (dir_entries p m)).
  replace (entries_map (dir_entries p m)) with
    (filter (λ kv : bytes * FileEntry, top_level_prefix kv.1 = p) m).
  - rewrite <-map_size_disj_union by apply map_disjoint_filter_complement.
    unfold outside. by rewrite map_filter_union_complement.
  - apply map_eq. intros k. rewrite dir_entries_lookup by done. rewrite map_lookup_filter.
    destruct (m !! k); simpl; by repeat case_decide.
Qed.

(** * Updates by directory *)

Lemma apply_update_keyed m us ds : keyed m → keyed (apply_update m us ds).
Proof.
  intros Hm k e. rewrite apply_update_lookup.
  destruct (last _) as [e'|] eqn:E.
  - intros [= <-]. apply last_Some in E as [l E].
    assert (e' ∈ with_key fe_path k us) as Hin by (rewrite E; set_solver).
    by apply list_elem_of_filter in Hin as [? _].
  - case_decide; [done|]. apply Hm.
Qed.

Lemma with_key_None {A} (key : A → bytes) k l :
  Forall (λ a, key a ≠ k) l → with_key key k l = [].
Proof.
  intros Hl. apply with_key_nil. intros (a & -> & Ha)%list_elem_of_fmap.
  rewrite Forall_forall in Hl. by apply (Hl a).
Qed.

(** [us] and [ds] only touch directory [p]. *)
Definition within (p : bytes) (us : list FileEntry) (ds : list bytes) : Prop :=
  Forall (in_dir p) us ∧ Forall (λ d, top_level_prefix d = p) ds.

Lemma within_lookup_ne p us ds m k :
  within p us ds → top_level_prefix k ≠ p → apply_update m us ds !! k = m !! k.
Proof.
  intros [Hu Hd] Hk. rewrite apply_update_lookup, with_key_None.
  - simpl. rewrite decide_False; [done|]. intros Hin.
    rewrite Forall_forall in Hd. by apply Hk, Hd.
  - eapply Forall_impl; [exact Hu|]. unfold in_dir. by intros e He <-.
Qed.

Lemma dir_entries_update p us ds m :
  keyed m → within p us ds →
  merge_prefix_entries (dir_entries p m) us ds = dir_entries p (apply_update m us ds).
Proof.
  intros Hm Hw.
  destruct (merge_prefix_entries_spec (dir_entries p m) us ds) as [H1 H2];
    [by apply dir_entries_ssorted|].
  apply dir_entries_unique; [by apply apply_update_keyed|done|].
  intros k. rewrite H2, apply_update_lookup, dir_entries_lookup by done.
  destruct (decide (top_level_prefix k = p)) as [E|E]; [by rewrite apply_update_lookup|].
  destruct Hw as [Hu Hd]. rewrite with_key_None.
  - simpl. by case_decide.
  - eapply Forall_impl; [exact Hu|]. unfold in_dir. by intros e He <-.
Qed.

Lemma dir_entries_update_ne p q us ds m :
  keyed m → within p us ds → q ≠ p →
  dir_entries q (apply_update m us ds) = dir_entries q m.
Proof.
  intros Hm Hw Hq. symmetry. apply dir_entries_unique.
  - by apply apply_update_keyed.
  - by apply dir_entries_ssorted.
  - intros k. rewrite dir_entries_lookup by done. case_decide; [|done].
    symmetry. eapply within_lookup_ne; [done|congruence].
Qed.

Lemma outside_update p us ds m :
  within p us ds → outside p (apply_update m us ds) = outside p m.
Proof.
  intros Hw. apply map_eq. intros k. unfold outside. apply option_eq. intros e.
  rewrite !map_lookup_filter_Some. simpl.
  destruct (decide (top_level_prefix k = p)); [naive_solver|].
  by erewrite within_lookup_ne.
Qed.

(** ** The groupings of the code *)

Lemma fold_push {A} (l : list A) acc : fold_left (λ v a, v ++ [a]) l acc = acc ++ l.
Proof.
  revert acc. induction l as [|a l IH]; intros acc; simpl; [by rewrite app_nil_r|].
  by rewrite IH, <-app_assoc.
Qed.

Lemma group_entries_spec es :
  ssorted fst (group_entries es) ∧
  ∀ p, amap (group_entries es) !! p =
    match filter (in_dir p) es with [] => None | g => Some g end.
Proof.
  destruct (bt_group (λ e, top_level_prefix (fe_path e)) [] (λ e g, g ++ [e]) es [])
    as [H1 H2]; [constructor|].
  split; [done|]. intros p. unfold group_entries. rewrite H2.
  change (filter _ es) with (filter (in_dir p) es).
  destruct (filter (in_dir p) es) as [|e g] eqn:E; [done|].
  by rewrite fold_push.
Qed.

Lemma fold_push_fst {A B} (l : list A) (acc : list A * B) :
  fold_left (λ v a, (v.1 ++ [a], v.2)) l acc = (acc.1 ++ l, acc.2).
Proof.
  revert acc. induction l as [|a l IH]; intros acc; simpl.
  - rewrite app_nil_r. by destruct acc.
  - rewrite IH. simpl. by rewrite <-app_assoc.
Qed.

Lemma fold_push_snd {A B} (l : list B) (acc : A * list B) :
  fold_left (λ v a, (v.1, v.2 ++ [a])) l acc = (acc.1, acc.2 ++ l).
Proof.
  revert acc. induction l as [|a l IH]; intros acc; simpl.
  - rewrite app_nil_r. by destruct acc.
  - rewrite IH. simpl. by rewrite <-app_assoc.
Qed.

Definition dels_in (p : bytes) (ds : list bytes) : list bytes :=
  filter (λ d, top_level_prefix d = p) ds.

Lemma changes_by_prefix_spec us ds :
  ssorted fst (changes_by_prefix us ds) ∧
  ∀ p, amap (changes_by_prefix us ds) !! p =
    match filter (in_dir p) us, dels_in p ds with
    | [], [] => None
    | u, d => Some (u, d)
    end.
Proof.
  unfold changes_by_prefix.
  destruct (bt_group (λ e, top_level_prefix (fe_path e)) ([], [])
    (λ e (v : list FileEntry * list bytes), (v.1 ++ [e], v.2)) us []) as [H1 H2];
    [constructor|].
  set (m1 := fold_left _ us []) in *.
  destruct (bt_group top_level_prefix ([], [])
    (λ d (v : list FileEntry * list bytes), (v.1, v.2 ++ [d])) ds m1 H1) as [H3 H4].
  split; [exact H3|]. intros p. etrans; [apply H4|]. rewrite H2.
  change (filter _ us) with (filter (in_dir p) us).
  change (filter _ ds) with (dels_in p ds).
  destruct (filter (in_dir p) us) as [|u us'], (dels_in p ds) as [|d ds']; try done.
  - by rewrite fold_push_snd.
  - by rewrite fold_push_fst.
  - by rewrite fold_push_snd, fold_push_fst.
Qed.
