(* ===== verification/TreeV1Props.v ===== *)
(** Refinement of src/crates/sync-core/src/tree.rs against the vault map:
    [build_tree] and [update_tree] implement the map they are given, the tree
    is a function of the map alone, and every directory loads back. *)

From S2P Require Import Prelude Bytes Keyed Hash Chunk Store TreeV1 TreeV1Merge.
From S2P Require Import TreeV1Build TreeV1Repr.
Local Open Scope N_scope.

Lemma vec_remove_mid {A} l1 (x : A) l2 : vec_remove (length l1) (l1 ++ x :: l2) = l1 ++ l2.
Proof. unfold vec_remove. by rewrite take_app_length, <-Nat.add_comm, <-drop_drop, drop_app_length. Qed.

Lemma vec_insert_mid {A} l1 (x : A) l2 : vec_insert (length l1) x (l1 ++ l2) = l1 ++ x :: l2.
Proof. unfold vec_insert. by rewrite take_app_length, drop_app_length. Qed.

Lemma set_snd_mid {A B} l1 (a : A) (b b' : B) l2 :
  set_snd (length l1) b' (l1 ++ (a, b) :: l2) = l1 ++ (a, b') :: l2.
Proof. unfold set_snd. by rewrite alter_app_r_alt, Nat.sub_diag. Qed.

Section refinement.
Context {S : Type} {B3 : Blake3} {FB : FlatBuffers} {CS : ChunkStore S} {CSL : ChunkStoreLaws S}.

(** The byte strings in play: the hash has no collision among them. *)
Context (P : bytes → Prop).

(** Every resident object is one of them, under its own hash. *)
Definition store_ok (s : S) : Prop :=
  ∀ h b, cs_get h s = Ok b → hash_bytes b = h ∧ P b.

(** A directory the code can write and read back. *)
Definition dir_ok (p : bytes) (es : list FileEntry) : Prop :=
  forallb entry_ok es = true ∧ len es ≤ MAX_LOADED_ENTRIES
  ∧ Forall P (prefix_blobs p es).

Definition vault_ok (m : vault) : Prop := keyed m ∧ ∀ p, dir_ok p (dir_entries p m).

(** The child of the root for one directory. *)
Definition dir_child (p : bytes) (m : vault) : option FileHash :=
  match dir_entries p m with [] => None | es => Some (prefix_hash p es) end.

(** [children] are the directories of [m] and the store holds them. *)
Record dirs_repr (s : S) (children : list (bytes * FileHash)) (m : vault) : Prop := {
  dr_sorted : ssorted fst children;
  dr_child : ∀ p, amap children !! p = dir_child p m;
  dr_stored : ∀ p, dir_entries p m ≠ [] → stored s (prefix_blobs p (dir_entries p m));
}.

Definition tree_repr (s : S) (root : RootNode) (m : vault) : Prop :=
  dirs_repr s (rn_children root) m ∧ rn_total_files root = wrap64 (N.of_nat (size m)).

Context (Hinj : injective_on hash_bytes P).

Lemma put_all_ok bs s :
  store_ok s → Forall P bs →
  store_ok (put_all bs s) ∧ store_le s (put_all bs s) ∧ stored (put_all bs s) bs.
Proof.
  intros Hs Hbs. rewrite Forall_forall in Hbs.
  assert (injective_on hash_bytes (.∈ bs)) as Hinj'
    by (eapply injective_on_mono; [exact Hbs|done]).
  assert (stored (put_all bs s) bs) as Hst by (by apply put_all_stored).
  split_and!; [|apply put_all_le; [done|]|done].
  - intros h b Hb. destruct (decide (h ∈ (hash_bytes <$> bs))) as [Hin|Hin].
    + apply list_elem_of_fmap in Hin as (x & -> & Hx).
      rewrite (Hst x Hx) in Hb. injection Hb as <-. auto.
    + rewrite put_all_get in Hb by done. by apply Hs.
  - intros b b' Hb Hget. apply Hs in Hget as [E Hb']. apply Hinj; auto.
Qed.

Lemma entry_ok_utf8 p m :
  keyed m → forallb entry_ok (dir_entries p m) = true → dir_entries p m ≠ [] →
  utf8 p = true.
Proof.
  intros Hm Hok Hne. destruct (dir_entries p m) as [|e es] eqn:E; [done|].
  assert (e ∈ dir_entries p m) as He by (rewrite E; left).
  apply elem_of_dir_entries in He as [_ <-]; [|done].
  apply top_level_prefix_utf8. simpl in Hok. unfold entry_ok in Hok.
  by bool_to_prop.
Qed.

(** Every directory of a represented vault loads back to its entries. *)
Lemma dirs_repr_load s children m p h :
  vault_ok m → dirs_repr s children m → (p, h) ∈ children →
  load_all_entries h s = Ok (dir_entries p m) ∧ dir_entries p m ≠ [].
Proof.
  intros [Hm Hok] [Hsort Hch Hst] Hin.
  apply amap_elem in Hin; [|done]. rewrite Hch in Hin. unfold dir_child in Hin.
  destruct (Hok p) as (He & Hl & _).
  destruct (dir_entries p m) as [|e es] eqn:E; [done|]. rewrite <-E in *.
  injection Hin as <-. split; [|by rewrite E].
  apply load_prefix; auto.
  - eapply entry_ok_utf8; [done..|by rewrite E].
  - by rewrite E.
  - by apply dir_entries_ssorted.
  - apply Hst. by rewrite E.
Qed.

(** ** One step of [update_tree] *)

Lemma adjust_total_spec m m' p :
  keyed m → keyed m' → outside p m' = outside p m →
  len (dir_entries p m) ≤ MAX_LOADED_ENTRIES →
  adjust_total (wrap64 (N.of_nat (size m))) (len (dir_entries p m)) (len (dir_entries p m'))
    = wrap64 (N.of_nat (size m')).
Proof.
  intros Hm Hm' Ho Hl. rewrite (size_dir p m Hm), (size_dir p m' Hm'), Ho.
  unfold adjust_total, wrap64, len, MAX_LOADED_ENTRIES in *.
  set (M := 18446744073709551616) in *.
  set (o := N.of_nat (length (dir_entries p m))) in *.
  set (n := N.of_nat (length (dir_entries p m'))).
  rewrite !Nat2N.inj_add. fold o n. set (r := N.of_nat (size _)).
  assert (o < M) by (unfold M; lia).
  replace ((o + r) mod M + M - o + n) with ((o + r) mod M + (M - o + n))
    by (generalize ((o + r) mod M); intros; lia).
  rewrite N.Div0.add_mod_idemp_l.
  replace (o + r + (M - o + n)) with (n + r + 1 * M) by lia.
  by rewrite N.Div0.mod_add.
Qed.

Lemma dir_child_update_ne p q us ds m :
  keyed m → within p us ds → q ≠ p →
  dir_child q (apply_update m us ds) = dir_child q m.
Proof. intros. unfold dir_child. by erewrite dir_entries_update_ne. Qed.

(** The position the child search returns. *)
Lemma child_search (children : list (bytes * FileHash)) p :
  ssorted fst children →
  (∃ l1 h l2, children = l1 ++ (p, h) :: l2 ∧
     binary_search_by (λ c : bytes * FileHash, bcmp c.1 p) children = Ok (length l1)) ∨
  (∃ l1 l2, children = l1 ++ l2 ∧
     Forall (λ c : bytes * FileHash, c.1 ≺ p) l1 ∧
     Forall (λ c : bytes * FileHash, p ≺ c.1) l2 ∧
     binary_search_by (λ c : bytes * FileHash, bcmp c.1 p) children = Err (length l1)).
Proof.
  intros Hs. destruct (amap children !! p) as [h|] eqn:E.
  - apply amap_elem in E; [|done]. apply list_elem_of_split in E as (l1 & l2 & ->).
    left. exists l1, h, l2. split; [done|]. by apply (key_search_Ok fst l1 (p, h) l2).
  - right. assert (Forall (λ c : bytes * FileHash, c.1 ≠ p) children) as Hne.
    { rewrite Forall_forall. intros [k h] Hin Hk. simpl in Hk. subst k.
      apply amap_elem in Hin; [|done]. congruence. }
    assert (∃ l1 l2, children = l1 ++ l2 ∧ Forall (λ c : bytes * FileHash, c.1 ≺ p) l1 ∧
      Forall (λ c : bytes * FileHash, p ≺ c.1) l2) as (l1 & l2 & -> & H1 & H2).
    { clear E. induction children as [|[k h] l IH]; [by exists [], []|].
      apply Forall_cons in Hne as [Hk Hne]. pose proof Hs as [Hlt Hs']%ssorted_fst_cons.
      destruct (IH Hs' Hne) as (l1 & l2 & -> & H1 & H2). simpl in Hk.
      destruct (bytes_trichotomy k p) as [Hkp|[->|Hkp]]; [|done|].
      - exists ((k, h) :: l1), l2. split_and!; [done|by constructor|done].
      - exists [], ((k, h) :: l1 ++ l2). split_and!; [done|constructor|].
        constructor; [done|]. rewrite Forall_forall in Hlt. apply Forall_forall.
        intros c Hc. trans k; [done|]. apply Hlt, list_elem_of_fmap. eauto. }
    exists l1, l2. split_and!; [done..|]. by apply (key_search_Err fst).
Qed.

(** Replacing, removing and inserting the child of [p]. *)
Lemma amap_mid l1 p (h : FileHash) l2 :
  p ∉ l1.*1 → amap (l1 ++ (p, h) :: l2) = <[p := h]> (amap (l1 ++ l2)).
Proof.
  intros Hp. induction l1 as [|[k v] l1 IH]; [done|]. csimpl in *.
  apply not_elem_of_cons in Hp as [Hne Hp]. rewrite IH by done.
  by rewrite insert_insert_ne.
Qed.

Lemma ssorted_mid l1 p (h : FileHash) l2 :
  ssorted fst (l1 ++ (p, h) :: l2) ↔
    ssorted fst (l1 ++ l2) ∧ Forall (λ c : bytes * FileHash, c.1 ≺ p) l1 ∧
    Forall (λ c : bytes * FileHash, p ≺ c.1) l2.
Proof.
  rewrite !ssorted_app, ssorted_cons, !Forall_forall. simpl. split.
  - intros (H12 & H1 & Hp & H2). split_and!; try done.
    + intros x y Hx Hy. apply H12; [done|by right].
    + intros x Hx. by apply (H12 x (p, h)); [|left].
  - intros ((H12 & H1 & H2) & Hp1 & Hp2). split_and!; try done.
    intros x y Hx [->|Hy]%elem_of_cons; [by apply Hp1|by apply H12].
Qed.

Lemma mid_notin l1 p (l2 : list (bytes * FileHash)) :
  Forall (λ c : bytes * FileHash, c.1 ≺ p) l1 →
  Forall (λ c : bytes * FileHash, p ≺ c.1) l2 → p ∉ l1.*1 ∧ amap (l1 ++ l2) !! p = None.
Proof.
  rewrite !Forall_forall. intros H1 H2.
  assert (p ∉ l1.*1) as Hn1.
  { intros ([k h] & -> & Hin)%list_elem_of_fmap. apply H1 in Hin. by apply (irreflexivity bytes_lt k). }
  split; [done|]. apply not_elem_of_list_to_map_1. rewrite fmap_app.
  intros [?|([k h] & -> & Hin)%list_elem_of_fmap]%elem_of_app; [done|].
  apply H2 in Hin. by apply (irreflexivity bytes_lt k).
Qed.

(** The directories after [p] has been rewritten. *)
Lemma dirs_repr_update s s' children m us ds p l1 l2 child' :
  keyed m → within p us ds → dirs_repr s children m → store_le s s' →
  Forall (λ c : bytes * FileHash, c.1 ≺ p) l1 →
  Forall (λ c : bytes * FileHash, p ≺ c.1) l2 →
  ssorted fst (l1 ++ l2) →
  (∀ q, q ≠ p → amap children !! q = amap (l1 ++ l2) !! q) →
  let m' := apply_update m us ds in
  dir_child p m' = child' →
  (dir_entries p m' ≠ [] → stored s' (prefix_blobs p (dir_entries p m'))) →
  dirs_repr s' (l1 ++ match child' with Some h => (p, h) :: l2 | None => l2 end) m'.
Proof.
  intros Hm Hw [Hs Hch Hst] Hle H1 H2 Hs' Hq m' Hc Hst'.
  destruct (mid_notin l1 p l2 H1 H2) as [Hn HNone]. split.
  - destruct child'; [by apply ssorted_mid|done].
  - intros q. destruct (decide (q = p)) as [->|Hne].
    + rewrite Hc. destruct child'; [|done]. by rewrite amap_mid, lookup_insert_eq.
    + unfold m'. erewrite dir_child_update_ne by done. rewrite <-Hch, Hq by done.
      destruct child'; [|done]. by rewrite amap_mid, lookup_insert_ne.
  - intros q Hne. destruct (decide (q = p)) as [->|Hne']; [by apply Hst'|].
    unfold m' in *. erewrite dir_entries_update_ne in * by done.
    intros b Hb. by apply Hle, (Hst q).
Qed.

Lemma vault_ok_update m us ds p :
  vault_ok m → within p us ds →
  dir_ok p (dir_entries p (apply_update m us ds)) → vault_ok (apply_update m us ds).
Proof.
  intros [Hm Hok] Hw Hp. split; [by apply apply_update_keyed|]. intros q.
  destruct (decide (q = p)) as [->|Hne]; [done|]. by erewrite dir_entries_update_ne.
Qed.

(** What the step writes, and where the child goes. *)
Lemma update_prefix_run s children m p us ds l1 l2 :
  keyed m → within p us ds →
  len (dir_entries p m) ≤ MAX_LOADED_ENTRIES →
  (∃ h, children = l1 ++ (p, h) :: l2 ∧ load_all_entries h s = Ok (dir_entries p m) ∧
     binary_search_by (λ c : bytes * FileHash, bcmp c.1 p) children = Ok (length l1)) ∨
  (children = l1 ++ l2 ∧ dir_entries p m = [] ∧
     binary_search_by (λ c : bytes * FileHash, bcmp c.1 p) children = Err (length l1)) →
  let m' := apply_update m us ds in
  update_prefix (wrap64 (N.of_nat (size m)), children) (p, (us, ds)) s =
    (Ok (wrap64 (N.of_nat (size m')),
         l1 ++ match dir_child p m' with Some h => (p, h) :: l2 | None => l2 end),
     match dir_entries p m' with
     | [] => s
     | es => put_all (prefix_blobs p es) s
     end).
Proof.
  intros Hm Hw Hl Hc m'. unfold update_prefix.
  assert (adjust_total (wrap64 (N.of_nat (size m))) (len (dir_entries p m))
    (len (dir_entries p m')) = wrap64 (N.of_nat (size m'))) as Ht.
  { apply adjust_total_spec; [done|by apply apply_update_keyed|by apply outside_update|done]. }
  destruct Hc as [(h & -> & Hload & ->)|(-> & Hnil & ->)].
  - rewrite list_lookup_middle by done. cbn [fmap option_fmap option_map snd].
    unfold st_bind at 1, st_load. rewrite Hload.
    rewrite dir_entries_update by done. fold m'. rewrite Ht. unfold dir_child.
    destruct (dir_entries p m') as [|e es]; [by rewrite vec_remove_mid|].
    rewrite len_cons, (proj2 (N.eqb_neq _ _)) by lia.
    etrans; [apply build_dir_run|]. cbv beta. by rewrite set_snd_mid.
  - cbn [st_bind st_ret]. unfold st_bind at 1, st_ret at 1.
    rewrite <-Hnil, dir_entries_update by done. fold m'. rewrite Ht. unfold dir_child.
    destruct (dir_entries p m') as [|e es]; [done|].
    rewrite len_cons, (proj2 (N.eqb_neq _ _)) by lia.
    etrans; [apply build_dir_run|]. cbv beta. by rewrite vec_insert_mid.
Qed.

Lemma update_prefix_spec s children m p us ds :
  store_ok s → vault_ok m → dirs_repr s children m → within p us ds →
  let m' := apply_update m us ds in
  dir_ok p (dir_entries p m') →
  ∃ children' s',
    update_prefix (wrap64 (N.of_nat (size m)), children) (p, (us, ds)) s =
      (Ok (wrap64 (N.of_nat (size m')), children'), s') ∧
    store_ok s' ∧ store_le s s' ∧ dirs_repr s' children' m'.
Proof.
  intros Hs Hv Hr Hw m' Hok.
  set (s' := match dir_entries p m' with [] => s | es => put_all (prefix_blobs p es) s end).
  assert (store_ok s' ∧ store_le s s' ∧
    (dir_entries p m' ≠ [] → stored s' (prefix_blobs p (dir_entries p m')))) as (Hs' & Hle & Hst).
  { unfold s'. destruct (dir_entries p m') eqn:E; [done|]. rewrite <-E in *.
    destruct (put_all_ok (prefix_blobs p (dir_entries p m')) s) as (?&?&?); [done|apply Hok|done]. }
  pose proof Hv as [Hm Hdirs]. pose proof (dr_sorted _ _ _ Hr) as Hsort.
  destruct (child_search children p Hsort) as [(l1 & h & l2 & Hc & Hbs)|(l1 & l2 & Hc & H1 & H2 & Hbs)].
  - destruct (dirs_repr_load s children m p h Hv Hr) as [Hload Hne]; [set_solver|].
    pose proof Hsort as Hsort'. rewrite Hc in Hsort'. apply ssorted_mid in Hsort' as (Hs12 & H1 & H2).
    eexists _, s'. split; [eapply update_prefix_run; eauto; apply Hdirs|].
    split_and!; [done..|]. eapply dirs_repr_update; eauto. intros q Hq.
    rewrite Hc, amap_mid, lookup_insert_ne; [done|done|]. by apply (mid_notin l1 p l2).
  - assert (dir_entries p m = []) as Hnil.
    { pose proof (dr_child _ _ _ Hr p) as Hch. rewrite Hc in Hch.
      rewrite (proj2 (mid_notin l1 p l2 H1 H2)) in Hch. unfold dir_child in Hch.
      by destruct (dir_entries p m). }
    eexists _, s'. split; [eapply update_prefix_run; eauto; apply Hdirs|].
    split_and!; [done..|]. eapply dirs_repr_update; eauto; congruence.
Qed.

(** ** The whole update *)

(** Applying the changes directory by directory. *)
Definition apply_groups (m : vault) (cs : list (bytes * (list FileEntry * list bytes)))
    : vault :=
  fold_left (λ m c, apply_update m c.2.1 c.2.2) cs m.

Lemma apply_groups_other m cs q :
  keyed m → Forall (λ c, within c.1 c.2.1 c.2.2) cs → q ∉ cs.*1 →
  dir_entries q (apply_groups m cs) = dir_entries q m.
Proof.
  intros Hm Hcs. revert m Hm. induction Hcs as [|c cs Hc Hcs IH]; intros m Hm; [done|].
  csimpl. intros [Hq Hqs]%not_elem_of_cons.
  change (apply_groups m (c :: cs)) with (apply_groups (apply_update m c.2.1 c.2.2) cs).
  rewrite IH by (done || by apply apply_update_keyed). by eapply dir_entries_update_ne.
Qed.

Lemma update_fold_spec cs s children m :
  store_ok s → vault_ok m → dirs_repr s children m →
  NoDup cs.*1 → Forall (λ c, within c.1 c.2.1 c.2.2) cs →
  (∀ p, dir_ok p (dir_entries p (apply_groups m cs))) →
  ∃ children' s',
    st_fold update_prefix (wrap64 (N.of_nat (size m)), children) cs s =
      (Ok (wrap64 (N.of_nat (size (apply_groups m cs))), children'), s') ∧
    store_ok s' ∧ store_le s s' ∧ dirs_repr s' children' (apply_groups m cs).
Proof.
  intros Hs Hv Hr Hnd Hcs. revert s children m Hs Hv Hr.
  induction cs as [|[p [us ds]] cs IH]; intros s children m Hs Hv Hr Hok.
  { exists children, s. by split_and!. }
  apply Forall_cons in Hcs as [Hc Hcs]. csimpl in Hnd. apply NoDup_cons in Hnd as [Hp Hnd].
  simpl in Hc. set (m1 := apply_update m us ds).
  change (apply_groups m ((p, (us, ds)) :: cs)) with (apply_groups m1 cs) in *.
  assert (keyed m1) as Hm1 by (apply apply_update_keyed, Hv).
  assert (dir_ok p (dir_entries p m1)) as Hok1.
  { rewrite <-(apply_groups_other m1 cs p) by done. apply Hok. }
  destruct (update_prefix_spec s children m p us ds Hs Hv Hr Hc Hok1)
    as (ch1 & s1 & Hrun & Hs1 & Hle1 & Hr1).
  destruct (IH Hnd Hcs s1 ch1 m1 Hs1) as (ch2 & s2 & Hrun2 & Hs2 & Hle2 & Hr2); [|done..|].
  { by eapply vault_ok_update. }
  exists ch2, s2. cbn [st_fold]. erewrite st_bind_run by exact Hrun.
  split_and!; [exact Hrun2|done|by etrans|done].
Qed.

Lemma changes_within us ds :
  NoDup (changes_by_prefix us ds).*1 ∧
  Forall (λ c, within c.1 c.2.1 c.2.2) (changes_by_prefix us ds) ∧
  ∀ p u d, (p, (u, d)) ∈ changes_by_prefix us ds ↔
    u = filter (in_dir p) us ∧ d = dels_in p ds ∧ (u ≠ [] ∨ d ≠ []).
Proof.
  destruct (changes_by_prefix_spec us ds) as [Hs Hl].
  assert (∀ p u d, (p, (u, d)) ∈ changes_by_prefix us ds ↔
    u = filter (in_dir p) us ∧ d = dels_in p ds ∧ (u ≠ [] ∨ d ≠ [])) as Hin.
  { intros p u d. rewrite <-amap_elem by done. rewrite Hl.
    destruct (filter (in_dir p) us), (dels_in p ds); naive_solver. }
  split_and!; [by apply ssorted_NoDup| |done].
  apply Forall_forall. intros [p [u d]] (-> & -> & _)%Hin. split; apply Forall_forall; simpl.
  - by intros x [? _]%list_elem_of_filter.
  - by intros x [? _]%list_elem_of_filter.
Qed.

Lemma apply_groups_lookup m cs k :
  NoDup cs.*1 → Forall (λ c, within c.1 c.2.1 c.2.2) cs →
  apply_groups m cs !! k =
    match amap cs !! top_level_prefix k with
    | Some (u, d) => apply_update m u d !! k
    | None => m !! k
    end.
Proof.
  intros Hnd Hcs. revert m. induction Hcs as [|[p [u d]] cs Hc Hcs IH]; intros m; [done|].
  csimpl in *. apply NoDup_cons in Hnd as [Hp Hnd]. simpl in Hc.
  change (apply_groups m ((p, (u, d)) :: cs)) with (apply_groups (apply_update m u d) cs).
  rewrite IH by done. destruct (decide (top_level_prefix k = p)) as [E|E].
  - rewrite E, lookup_insert_eq. by rewrite (not_elem_of_list_to_map_1 _ _ Hp).
  - rewrite lookup_insert_ne by done. destruct (amap cs !! _) as [[u' d']|].
    + rewrite !apply_update_lookup. destruct (last _); [done|]. case_decide; [done|].
      rewrite <-apply_update_lookup. by eapply within_lookup_ne.
    + by eapply within_lookup_ne.
Qed.

Lemma with_key_in_dir k us :
  with_key fe_path k (filter (in_dir (top_level_prefix k)) us) = with_key fe_path k us.
Proof.
  unfold with_key, in_dir. induction us as [|u us IH]; [done|].
  rewrite !filter_cons. destruct (decide (fe_path u = k)) as [E|E].
  - rewrite decide_True by (by rewrite E). rewrite filter_cons, decide_True by done.
    by rewrite IH.
  - case_decide; [rewrite filter_cons, decide_False by done|]; done.
Qed.

Lemma apply_groups_changes m us ds :
  apply_groups m (changes_by_prefix us ds) = apply_update m us ds.
Proof.
  destruct (changes_within us ds) as (Hnd & Hw & _).
  destruct (changes_by_prefix_spec us ds) as [_ Hl].
  apply map_eq. intros k. rewrite apply_groups_lookup by done. rewrite Hl.
  assert (k ∈ dels_in (top_level_prefix k) ds ↔ k ∈ ds) as Hd.
  { unfold dels_in. rewrite list_elem_of_filter. naive_solver. }
  assert (apply_update m (filter (in_dir (top_level_prefix k)) us)
    (dels_in (top_level_prefix k) ds) !! k = apply_update m us ds !! k) as E.
  { rewrite !apply_update_lookup, with_key_in_dir. destruct (last _); [done|].
    by rewrite (decide_ext _ _ _ _ Hd). }
  rewrite <-E. by destruct (filter _ us), (dels_in _ ds).
Qed.

Lemma update_tree_spec now root us ds s m :
  store_ok s → vault_ok m → tree_repr s root m → vault_ok (apply_update m us ds) →
  ∃ root' s',
    update_tree now root us ds s = (Ok root', s') ∧
    store_ok s' ∧ store_le s s' ∧ tree_repr s' root' (apply_update m us ds) ∧
    rn_parent_hash root' = Some (root_hash root).
Proof.
  intros Hs Hv [Hr Ht] Hv'.
  destruct (changes_within us ds) as (Hnd & Hw & _).
  destruct (update_fold_spec (changes_by_prefix us ds) s (rn_children root) m)
    as (ch & s' & Hrun & Hs' & Hle & Hr'); auto.
  { intros p. rewrite apply_groups_changes. apply Hv'. }
  rewrite apply_groups_changes in *. eexists _, s'. unfold update_tree.
  split; [rewrite Ht; erewrite st_bind_run by exact Hrun; reflexivity|].
  split_and!; [done..| |done]. by split.
Qed.

(** ** Building *)

Definition group_child (g : bytes * list FileEntry) : bytes * FileHash :=
  (g.1, prefix_hash g.1 (sort_by fe_path g.2)).
Definition group_blobs (g : bytes * list FileEntry) : list bytes :=
  prefix_blobs g.1 (sort_by fe_path g.2).

Lemma build_fold_run gs total ch s :
  st_fold build_group (total, ch) gs s =
    (Ok (total + len (concat gs.*2), ch ++ (group_child <$> gs)),
     put_all (concat (group_blobs <$> gs)) s).
Proof.
  revert total ch s. induction gs as [|[p g] gs IH]; intros total ch s.
  { csimpl. unfold st_ret. by rewrite N.add_0_r, app_nil_r. }
  cbn [st_fold]. unfold st_bind at 1.
  assert (build_group (total, ch) (p, g) s =
    (Ok (total + len g, ch ++ [group_child (p, g)]), put_all (group_blobs (p, g)) s)) as ->.
  { unfold build_group. etrans; [apply build_dir_run|]. cbv beta.
    unfold len. by rewrite length_sort_by. }
  rewrite IH. csimpl. rewrite put_all_app, len_app, <-app_assoc, N.add_assoc. done.
Qed.

Lemma group_dir es p :
  NoDup (fe_path <$> es) →
  sort_by fe_path (filter (in_dir p) es) = dir_entries p (entries_map es).
Proof.
  intros Hnd. apply (NoDup_key_filter fe_path (in_dir p)) in Hnd as Hnd'.
  assert (keyed (entries_map es)) as Hk.
  { intros k e He. by apply kmap_lookup_Some in He as [_ ?]. }
  apply dir_entries_unique; [done|by apply sort_by_ssorted|].
  intros k. apply option_eq. intros e. unfold entries_map.
  rewrite kmap_sort_by, kmap_lookup_Some by done.
  rewrite list_elem_of_filter. unfold in_dir.
  case_decide; rewrite ?kmap_lookup_Some by done; naive_solver.
Qed.

(** The groups are a partition of the entries. *)
Lemma group_entries_total es : len (concat (group_entries es).*2) = len es.
Proof.
  assert (∀ (e : FileEntry) k m,
    len (concat (bt_entry k [] (λ g, g ++ [e]) m).*2) = 1 + len (concat m.*2)) as G.
  { intros e k m. induction m as [|[k' v] m IH]; [done|]. cbn [bt_entry].
    destruct (bcmp k k'); csimpl; autorewrite with sync in *; [lia|lia|].
    change (@len) with (@len). rewrite IH. lia. }
  unfold group_entries.
  assert (∀ m, len (concat (fold_left (λ groups e,
    bt_entry (top_level_prefix (fe_path e)) [] (λ g, g ++ [e]) groups) es m).*2)
    = len (concat m.*2) + len es) as G2; [|by rewrite G2].
  induction es as [|e es IH]; intros m; cbn [fold_left].
  - by rewrite len_nil, N.add_0_r.
  - rewrite IH, G, len_cons. lia.
Qed.

Lemma group_children_sorted gs : ssorted fst gs → ssorted fst (group_child <$> gs).
Proof.
  induction gs as [|[p g] gs IH]; [constructor|]. intros [H1 H2]%ssorted_fst_cons.
  csimpl. apply ssorted_fst_cons. split; [|by apply IH].
  rewrite <-list_fmap_compose. exact H1.
Qed.

Lemma group_children_lookup gs p :
  amap (group_child <$> gs) !! p =
    (λ g, prefix_hash p (sort_by fe_path g)) <$> amap gs !! p.
Proof.
  induction gs as [|[q g] gs IH]; [done|]. csimpl.
  rewrite !lookup_insert. case_decide; [by subst|done].
Qed.

Lemma build_tree_spec now es vault_id device_id s :
  store_ok s → NoDup (fe_path <$> es) → vault_ok (entries_map es) →
  ∃ root s',
    build_tree now es vault_id device_id s = (Ok root, s') ∧
    store_ok s' ∧ store_le s s' ∧ dirs_repr s' (rn_children root) (entries_map es) ∧
    rn_total_files root = len es.
Proof.
  intros Hs Hnd Hv. destruct (group_entries_spec es) as [Hsort Hl].
  assert (∀ p g, (p, g) ∈ group_entries es ↔ g = filter (in_dir p) es ∧ g ≠ []) as Hin.
  { intros p g. rewrite <-amap_elem, Hl by done. destruct (filter _ es); naive_solver. }
  assert (Forall P (concat (group_blobs <$> group_entries es))) as HP.
  { apply Forall_concat, Forall_fmap, Forall_forall. intros [p g] [-> _]%Hin.
    simpl. unfold group_blobs. simpl. rewrite group_dir by done. apply Hv. }
  destruct (put_all_ok _ s Hs HP) as (Hs' & Hle & Hst).
  eexists _, _. split; [unfold build_tree; erewrite st_bind_run by apply build_fold_run; reflexivity|].
  split_and!; [done..| |].
  - cbn [rn_children app]. split.
    + by apply group_children_sorted.
    + intros p. rewrite group_children_lookup, Hl. unfold dir_child.
      rewrite <-group_dir by done.
      destruct (filter (in_dir p) es) as [|e g]; [done|].
      destruct (sort_by fe_path (e :: g)) eqn:E2; [|by rewrite <-E2].
      apply (f_equal length) in E2. by rewrite length_sort_by in E2.
    + intros p Hne b Hb. apply Hst. rewrite <-group_dir in Hne, Hb by done.
      apply list_elem_of_In, in_concat. exists (group_blobs (p, filter (in_dir p) es)).
      split; [|by apply list_elem_of_In]. apply list_elem_of_In, list_elem_of_fmap.
      eexists. split; [done|]. apply Hin. split; [done|]. intros E. by rewrite E in Hne.
  - cbn [rn_total_files]. by rewrite group_entries_total.
Qed.

(** A list of distinct, writable entries gives a writable vault. *)
Lemma entries_vault_ok es :
  NoDup (fe_path <$> es) → forallb entry_ok es = true → len es ≤ MAX_LOADED_ENTRIES →
  P (leaf_blob []) → Forall P (concat (group_blobs <$> group_entries es)) →
  vault_ok (entries_map es).
Proof.
  intros Hnd Hok Hl H0 HP. split.
  { intros k e He. by apply kmap_lookup_Some in He as [_ ?]. }
  intros p. rewrite <-group_dir by done. split_and!.
  - rewrite (forallb_perm _ _ _ (sort_by_perm _ _)). apply forallb_forall.
    intros e [_ He]%list_elem_of_In%list_elem_of_filter. rewrite forallb_forall in Hok.
    by apply Hok, list_elem_of_In.
  - unfold len in *. rewrite length_sort_by. pose proof (length_filter (in_dir p) es). lia.
  - destruct (filter (in_dir p) es) as [|e g] eqn:E; [by repeat constructor|].
    rewrite Forall_concat, Forall_fmap, Forall_forall in HP. apply (HP (p, e :: g)).
    destruct (group_entries_spec es) as [Hsort Hg]. apply amap_elem; [done|].
    by rewrite Hg, E.
Qed.

(** * The theorems *)

(** C12: [build_tree] over any lawful store succeeds on distinct writable
    entries; its root lists exactly the directories of the vault in order,
    counts the files, and nothing readable before is lost. *)
Theorem build_tree_refines now es vault_id device_id s :
  store_ok s → NoDup (fe_path <$> es) → vault_ok (entries_map es) →
  ∃ root s',
    build_tree now es vault_id device_id s = (Ok root, s') ∧
    store_ok s' ∧ store_le s s' ∧ dirs_repr s' (rn_children root) (entries_map es) ∧
    rn_total_files root = len es.
Proof. apply build_tree_spec. Qed.

(** C6: [update_tree] on a root that represents the vault [m] succeeds and
    returns a root that represents [m] with the deletions and then the
    upserts applied; the old root stays readable and is the parent. *)
Theorem update_tree_refines now root us ds s m :
  store_ok s → vault_ok m → tree_repr s root m → vault_ok (apply_update m us ds) →
  ∃ root' s',
    update_tree now root us ds s = (Ok root', s') ∧
    store_ok s' ∧ store_le s s' ∧ tree_repr s' root' (apply_update m us ds) ∧
    tree_repr s' root m ∧ rn_parent_hash root' = Some (root_hash root).
Proof.
  intros Hs Hv Hr Hv'.
  destruct (update_tree_spec now root us ds s m) as (root' & s' & Hrun & Hs' & Hle & Hr' & Hp);
    [done..|].
  exists root', s'. split_and!; [done..| |done].
  destruct Hr as [[H1 H2 H3] Ht]. split; [|done]. split; [done..|].
  intros p Hne b Hb. by apply Hle, (H3 p Hne).
Qed.

(** The incremental update and a rebuild of the same vault agree: the
    children lists are equal, so the tree depends on the vault alone and
    not on the history that led to it. *)
Theorem update_matches_rebuild now now' root us ds s m es vault_id device_id s2 :
  store_ok s → store_ok s2 → vault_ok m → tree_repr s root m →
  NoDup (fe_path <$> es) → entries_map es = apply_update m us ds →
  vault_ok (entries_map es) →
  ∃ root1 s1 root2 s2',
    update_tree now root us ds s = (Ok root1, s1) ∧
    build_tree now' es vault_id device_id s2 = (Ok root2, s2') ∧
    rn_children root1 = rn_children root2 ∧ rn_total_files root1 = wrap64 (rn_total_files root2).
Proof.
  intros Hs Hs2 Hv Hr Hnd E Hv'.
  destruct (update_tree_spec now root us ds s m) as (root1 & s1 & Hrun & _ & _ & [Hr1 Ht1] & _);
    [done..|by rewrite <-E|].
  destruct (build_tree_spec now' es vault_id device_id s2) as (root2 & s2' & Hrun2 & _ & _ & Hr2 & Ht2);
    [done..|].
  exists root1, s1, root2, s2'. split_and!; [done..| |].
  - apply amap_ext; [apply Hr1|apply Hr2|]. intros p.
    by rewrite (dr_child _ _ _ Hr1), (dr_child _ _ _ Hr2), E.
  - rewrite Ht1, Ht2, <-E. unfold entries_map. by rewrite size_kmap.
Qed.

(** Reading a represented tree back: every child of the root loads the
    entries of its directory, all of them and in path order, and every entry
    of the vault is in the directory its path names. *)
Theorem tree_loads_vault s root m :
  vault_ok m → tree_repr s root m →
  (∀ p h, (p, h) ∈ rn_children root → load_all_entries h s = Ok (dir_entries p m)) ∧
  (∀ k e, m !! k = Some e →
     ∃ h es, (top_level_prefix k, h) ∈ rn_children root ∧
             load_all_entries h s = Ok es ∧ e ∈ es).
Proof using CSL.
  intros Hv [Hr _]. split.
  { intros p h Hin. by eapply dirs_repr_load. }
  intros k e He. pose proof (proj1 Hv _ _ He) as E. simpl in E.
  assert (e ∈ dir_entries (top_level_prefix k) m) as Hin.
  { apply elem_of_dir_entries; [apply Hv|]. unfold in_dir. by rewrite E. }
  pose proof (dr_child _ _ _ Hr (top_level_prefix k)) as Hc. unfold dir_child in Hc.
  destruct (dir_entries (top_level_prefix k) m) as [|x xs] eqn:Ed; [by apply not_elem_of_nil in Hin|].
  rewrite <-Ed in *. apply amap_elem in Hc; [|apply Hr].
  eexists _, _. split_and!; [done|by eapply dirs_repr_load|done].
Qed.
End refinement.

(** The linear merge of one directory is the sequential update of its
    path map: deletions first, then the upserts in order, the last write of a
    path winning; the result is again in strict path order. *)
Theorem merge_prefix_entries_correct existing upserts deletions :
  ssorted fe_path existing →
  ssorted fe_path (merge_prefix_entries existing upserts deletions) ∧
  entries_map (merge_prefix_entries existing upserts deletions) =
    apply_update (entries_map existing) upserts deletions.
Proof. apply merge_prefix_entries_spec. Qed.
