(* ===== verification/Diff.v ===== *)
(** src/crates/sync-core/src/diff.rs: file-level deltas between two roots,
    and the rename detection over them.

    Correctness of the deltas of src/crates/sync-core/src/diff.rs: they are
    exactly the difference of the two vaults, and rename detection keeps
    their effect. *)

From S2P Require Import Prelude Bytes Keyed Hash Chunk Store TreeV1 TreeV1Merge TreeV1Build TreeV1Repr TreeV1Props.
Local Open Scope N_scope.

(** [FileDelta]. *)
Inductive FileDelta :=
  | Added (path : bytes) (hash : FileHash) (size mtime_ms : N)
  | Modified (path : bytes) (hash : FileHash) (size mtime_ms : N)
  | Deleted (path : bytes) (hash : FileHash)
  | Renamed (path old_path : bytes) (hash : FileHash) (size mtime_ms : N).

#[global] Instance FileDelta_eq_dec : EqDecision FileDelta.
Proof. solve_decision. Defined.

(** [DiffStats], [DiffResult]. *)
Record DiffStats := {
  nodes_visited : N;
  nodes_skipped : N;
  entries_materialized : N;
}.
Record DiffResult := { dr_deltas : list FileDelta; dr_stats : DiffStats }.

Definition delta_path (d : FileDelta) : bytes :=
  match d with
  | Added path _ _ _ | Modified path _ _ _ | Deleted path _ | Renamed path _ _ _ _ => path
  end.

Definition added (e : FileEntry) : FileDelta :=
  Added (fe_path e) (fe_hash e) (fe_size_bytes e) (fe_mtime_ms e).
Definition modified (e : FileEntry) : FileDelta :=
  Modified (fe_path e) (fe_hash e) (fe_size_bytes e) (fe_mtime_ms e).
Definition deleted (e : FileEntry) : FileDelta := Deleted (fe_path e) (fe_hash e).

(** [diff_entries]: what it pushes. *)
Fixpoint diff_entries (from : list FileEntry) : list FileEntry → list FileDelta :=
  fix go to :=
    match from, to with
    | [], _ => added <$> to
    | _, [] => deleted <$> from
    | f :: from', t :: to' =>
        match bcmp (fe_path f) (fe_path t) with
        | Eq =>
            if negb (beq (fe_hash f) (fe_hash t))
               || negb (fe_mtime_ms f =? fe_mtime_ms t)
               || negb (fe_size_bytes f =? fe_size_bytes t)
            then modified t :: diff_entries from' to'
            else diff_entries from' to'
        | Lt => deleted f :: diff_entries from' to
        | Gt => added t :: go to'
        end
    end.

(** * [detect_renames] *)

(** One [HashMap<FileHash, Vec<usize>>]: the positions of the deltas [sel]
    gives a hash to. *)
Definition index_by_hash (sel : FileDelta → option FileHash) (deltas : list FileDelta)
    : gmap FileHash (list nat) :=
  foldl (λ m kd,
    match sel kd.2 with
    | Some h => <[h := default [] (m !! h) ++ [kd.1]]> m
    | None => m
    end) ∅ (imap pair deltas).

Definition deleted_hash (d : FileDelta) : option FileHash :=
  match d with Deleted _ h => Some h | _ => None end.
Definition added_hash (d : FileDelta) : option FileHash :=
  match d with Added _ h _ _ => Some h | _ => None end.

(** The loop over the deleted hashes; [HashMap] iteration order does not
    matter to it, any order of the keys is taken. *)
Definition pair_rename (deltas : list FileDelta) (added : gmap FileHash (list nat))
    (acc : gmap nat FileDelta * gset nat) (hd : FileHash * list nat)
    : gmap nat FileDelta * gset nat :=
  let '(replacements, consumed_additions) := acc in
  let '(hash, deleted_indices) := hd in
  match added !! hash, deleted_indices with
  | Some [add_index], [delete_index] =>
      match deltas !! delete_index, deltas !! add_index with
      | Some (Deleted old_path _), Some (Added path _ size mtime_ms) =>
          (<[delete_index := Renamed path old_path hash size mtime_ms]> replacements,
           {[ add_index ]} ∪ consumed_additions)
      | _, _ => acc
      end
  | _, _ => acc
  end.

(** The final [filter_map]. *)
Definition emit (replacements : gmap nat FileDelta) (consumed_additions : gset nat)
    (index : nat) (delta : FileDelta) : list FileDelta :=
  match replacements !! index with
  | Some r => [r]
  | None => if decide (index ∈ consumed_additions) then [] else [delta]
  end.

Definition detect_renames (deltas : list FileDelta) : list FileDelta :=
  let deleted := index_by_hash deleted_hash deltas in
  let added := index_by_hash added_hash deltas in
  let '(replacements, consumed_additions) :=
    foldl (pair_rename deltas added) (∅, ∅) (map_to_list deleted) in
  concat (imap (emit replacements consumed_additions) deltas).

(** * [compute_deltas] *)
Section diff.
Context {S : Type} {B3 : Blake3} {FB : FlatBuffers} {CS : ChunkStore S}.

Definition visit (st : DiffStats) : DiffStats :=
  {| nodes_visited := nodes_visited st + 1; nodes_skipped := nodes_skipped st;
     entries_materialized := entries_materialized st |}.
Definition skip (st : DiffStats) : DiffStats :=
  {| nodes_visited := nodes_visited st; nodes_skipped := nodes_skipped st + 1;
     entries_materialized := entries_materialized st |}.
Definition materialize (n : N) (st : DiffStats) : DiffStats :=
  {| nodes_visited := nodes_visited st; nodes_skipped := nodes_skipped st;
     entries_materialized := entries_materialized st + n |}.

(** A directory only one side has: all its entries, as [push] deltas. *)
Definition push_all (s : S) (push : FileEntry → FileDelta) (h : FileHash)
    (raw : list FileDelta) (st : DiffStats) : result ChunkError (list FileDelta * DiffStats) :=
  let? entries := load_all_entries h s in
  Ok (raw ++ (push <$> entries), materialize (len entries) st).

(** The loops over what remains of one side. *)
Fixpoint push_rest (s : S) (push : FileEntry → FileDelta)
    (children : list (bytes * FileHash)) (raw : list FileDelta) (st : DiffStats)
    : result ChunkError (list FileDelta * DiffStats) :=
  match children with
  | [] => Ok (raw, st)
  | (_, h) :: children =>
      let? ' (raw, st) := push_all s push h raw (visit st) in
      push_rest s push children raw st
  end.

(** The two-pointer merge over the prefixes of the two roots. *)
Fixpoint diff_children (s : S) (from : list (bytes * FileHash))
    : list (bytes * FileHash) → list FileDelta → DiffStats →
      result ChunkError (list FileDelta * DiffStats) :=
  fix go to raw st :=
    match from, to with
    | [], _ => push_rest s added to raw st
    | _, [] => push_rest s deleted from raw st
    | (from_prefix, from_hash) :: from', (to_prefix, to_hash) :: to' =>
        let st := visit st in
        match bcmp from_prefix to_prefix with
        | Eq =>
            if negb (beq from_hash to_hash) then
              let? from_entries := load_all_entries from_hash s in
              let? to_entries := load_all_entries to_hash s in
              diff_children s from' to'
                (raw ++ diff_entries from_entries to_entries)
                (materialize (len from_entries + len to_entries) st)
            else diff_children s from' to' raw (skip st)
        | Lt =>
            let? ' (raw, st) := push_all s deleted from_hash raw st in
            diff_children s from' to raw st
        | Gt =>
            let? ' (raw, st) := push_all s added to_hash raw st in
            go to' raw st
        end
    end.

(** [compute_deltas_with_stats]. *)
Definition compute_deltas_with_stats (s : S) (from_root to_root : RootNode)
    : result ChunkError DiffResult :=
  let stats := {| nodes_visited := 1; nodes_skipped := 0; entries_materialized := 0 |} in
  if beq (root_hash from_root) (root_hash to_root) then
    Ok {| dr_deltas := []; dr_stats := skip stats |}
  else
    let? ' (raw_deltas, stats) :=
      diff_children s (rn_children from_root) (rn_children to_root) [] stats in
    Ok {| dr_deltas := detect_renames raw_deltas; dr_stats := stats |}.

(** [compute_deltas]. *)
Definition compute_deltas (s : S) (from_root to_root : RootNode)
    : result ChunkError (list FileDelta) :=
  let? r := compute_deltas_with_stats s from_root to_root in
  Ok (dr_deltas r).
End diff.


(** * The effect of a delta

    A delta writes or removes paths: [(p, Some e)] or [(p, None)]. *)
Definition effect : Type := bytes * option FileEntry.

Definition write (path : bytes) (hash : FileHash) (size mtime_ms : N) : effect :=
  (path, Some {| fe_path := path; fe_hash := hash; fe_mtime_ms := mtime_ms;
                 fe_size_bytes := size |}).

Definition delta_effects (d : FileDelta) : list effect :=
  match d with
  | Added p h size mtime | Modified p h size mtime => [write p h size mtime]
  | Deleted p _ => [(p, None)]
  | Renamed p old h size mtime => [(old, None); write p h size mtime]
  end.

Definition effects (ds : list FileDelta) : list effect := concat (delta_effects <$> ds).

(** What a puller does with the deltas, in order. *)
Definition apply_effect (m : vault) (x : effect) : vault := partial_alter (λ _, x.2) x.1 m.
Definition apply_deltas (ds : list FileDelta) (m : vault) : vault :=
  fold_left apply_effect (effects ds) m.

(** [fx] is exactly the difference between [m1] and [m2]: every path that
    differs, once, with its target, and no other path. *)
Definition exact_delta (fx : list effect) (m1 m2 : vault) : Prop :=
  NoDup fx.*1 ∧ ∀ k o, (k, o) ∈ fx ↔ m1 !! k ≠ m2 !! k ∧ o = m2 !! k.

Lemma effects_app ds1 ds2 : effects (ds1 ++ ds2) = effects ds1 ++ effects ds2.
Proof. unfold effects. by rewrite fmap_app, concat_app. Qed.

Lemma effects_cons d ds : effects (d :: ds) = delta_effects d ++ effects ds.
Proof. done. Qed.

Lemma exact_delta_perm fx fx' m1 m2 :
  fx ≡ₚ fx' → exact_delta fx m1 m2 → exact_delta fx' m1 m2.
Proof.
  intros Hp [Hnd Hx]. split; [by rewrite <-Hp|]. intros k o. by rewrite <-Hp.
Qed.

Lemma apply_effects_lookup fx m k :
  NoDup fx.*1 →
  fold_left apply_effect fx m !! k =
    match (list_to_map fx : gmap bytes _) !! k with Some o => o | None => m !! k end.
Proof.
  revert m. induction fx as [|[p o] fx IH]; intros m; [done|]. csimpl.
  intros [Hp Hnd]%NoDup_cons. rewrite IH by done. unfold apply_effect. simpl.
  destruct (decide (k = p)) as [->|Hne].
  - rewrite (not_elem_of_list_to_map_1 _ _ Hp), lookup_insert_eq.
    by rewrite lookup_partial_alter_eq.
  - rewrite lookup_insert_ne by done. by rewrite lookup_partial_alter_ne.
Qed.

Lemma exact_delta_apply fx m1 m2 :
  exact_delta fx m1 m2 → fold_left apply_effect fx m1 = m2.
Proof.
  intros [Hnd Hx]. apply map_eq. intros k. rewrite apply_effects_lookup by done.
  destruct (list_to_map fx !! k) as [o|] eqn:E.
  - apply elem_of_list_to_map_2, Hx in E as [_ ->]. done.
  - apply not_elem_of_list_to_map_2 in E. apply dec_stable. intros Hne. apply E.
    apply list_elem_of_fmap. exists (k, m2 !! k). split; [done|]. by apply Hx.
Qed.

(** * Two sorted directories *)

Lemma effects_added es : effects (added <$> es) = (λ e, (fe_path e, Some e)) <$> es.
Proof. induction es as [|[] es IH]; [done|]. csimpl. rewrite effects_cons, IH. done. Qed.

Lemma effects_deleted es : effects (deleted <$> es) = (λ e, (fe_path e, None)) <$> es.
Proof. induction es as [|e es IH]; [done|]. csimpl. by rewrite effects_cons, IH. Qed.

Lemma exact_delta_added es :
  NoDup (fe_path <$> es) → exact_delta (effects (added <$> es)) ∅ (entries_map es).
Proof.
  intros Hnd. rewrite effects_added. split.
  { by rewrite <-list_fmap_compose. }
  intros k o. rewrite list_elem_of_fmap, lookup_empty. split.
  - intros (e & [= -> ->] & He).
    assert (entries_map es !! fe_path e = Some e) as -> by (by apply kmap_lookup_Some).
    done.
  - intros [Hne ->]. destruct (entries_map es !! k) as [e|] eqn:E; [|done].
    apply kmap_lookup_Some in E as [He <-]; [|done]. by exists e.
Qed.

Lemma exact_delta_deleted es :
  NoDup (fe_path <$> es) → exact_delta (effects (deleted <$> es)) (entries_map es) ∅.
Proof.
  intros Hnd. rewrite effects_deleted. split.
  { by rewrite <-list_fmap_compose. }
  intros k o. rewrite list_elem_of_fmap, lookup_empty. split.
  - intros (e & [= -> ->] & He).
    assert (entries_map es !! fe_path e = Some e) as -> by (by apply kmap_lookup_Some).
    done.
  - intros [Hne ->]. destruct (entries_map es !! k) as [e|] eqn:E; [|done].
    apply kmap_lookup_Some in E as [He <-]; [|done]. by exists e.
Qed.

(** One path in front of a difference that does not mention it. *)
Lemma exact_delta_cons k o fx m1 m2 m1' m2' :
  exact_delta fx m1 m2 → m1 !! k = None → m2 !! k = None →
  (∀ k', k' ≠ k → m1' !! k' = m1 !! k') → (∀ k', k' ≠ k → m2' !! k' = m2 !! k') →
  m1' !! k ≠ m2' !! k → m2' !! k = o →
  exact_delta ((k, o) :: fx) m1' m2'.
Proof.
  intros [Hnd Hx] H1 H2 H1' H2' Hne Ho. split.
  - csimpl. apply NoDup_cons. split; [|done].
    intros ([k' o'] & -> & [Hne' _]%Hx)%list_elem_of_fmap. simpl in *. congruence.
  - intros k' o'. rewrite elem_of_cons, Hx. destruct (decide (k' = k)) as [->|Hk].
    + rewrite H1, H2. naive_solver.
    + rewrite H1', H2' by done. naive_solver.
Qed.

Lemma exact_delta_skip k fx m1 m2 m1' m2' :
  exact_delta fx m1 m2 → m1 !! k = None → m2 !! k = None →
  (∀ k', k' ≠ k → m1' !! k' = m1 !! k') → (∀ k', k' ≠ k → m2' !! k' = m2 !! k') →
  m1' !! k = m2' !! k → exact_delta fx m1' m2'.
Proof.
  intros [Hnd Hx] H1 H2 H1' H2' He. split; [done|]. intros k' o'. rewrite Hx.
  destruct (decide (k' = k)) as [->|Hk]; [rewrite H1, H2, He; naive_solver|].
  by rewrite H1', H2'.
Qed.

Lemma entries_map_cons_eq e es : entries_map (e :: es) !! fe_path e = Some e.
Proof. apply lookup_insert_eq. Qed.
Lemma entries_map_cons_ne e es k :
  k ≠ fe_path e → entries_map (e :: es) !! k = entries_map es !! k.
Proof. intros. by apply lookup_insert_ne. Qed.

Lemma entries_map_above p es :
  Forall (λ e, p ≺ fe_path e) es → entries_map es !! p = None.
Proof.
  intros Hes. apply kmap_lookup_None. intros (e & -> & He)%list_elem_of_fmap.
  rewrite Forall_forall in Hes. by apply (irreflexivity bytes_lt (fe_path e)), Hes.
Qed.

Lemma Forall_above p q es :
  p ≺ q → Forall (λ e, q ≺ fe_path e) es → Forall (λ e, p ≺ fe_path e) es.
Proof. intros Hpq Hes. eapply Forall_impl; [exact Hes|]. intros e He. by trans q. Qed.

Lemma same_entry f t :
  fe_path f = fe_path t →
  negb (beq (fe_hash f) (fe_hash t)) || negb (fe_mtime_ms f =? fe_mtime_ms t)
    || negb (fe_size_bytes f =? fe_size_bytes t) = bool_decide (f ≠ t).
Proof.
  intros Hp. unfold beq. symmetry. destruct (decide (f = t)) as [->|Hne].
  - rewrite bool_decide_eq_false_2, bool_decide_eq_true_2, !N.eqb_refl by naive_solver. done.
  - rewrite bool_decide_eq_true_2 by done. destruct f, t; simpl in *. subst.
    case_bool_decide; [|done]. destruct (N.eqb_spec fe_mtime_ms fe_mtime_ms0); [|done].
    destruct (N.eqb_spec fe_size_bytes fe_size_bytes0); [|done]. congruence.
Qed.

Lemma modified_effect t : delta_effects (modified t) = [(fe_path t, Some t)].
Proof. by destruct t. Qed.
Lemma added_effect t : delta_effects (added t) = [(fe_path t, Some t)].
Proof. by destruct t. Qed.

Lemma diff_entries_spec from to :
  ssorted fe_path from → ssorted fe_path to →
  exact_delta (effects (diff_entries from to)) (entries_map from) (entries_map to).
Proof.
  revert to. induction from as [|f from IHf]; intros to Hf Ht.
  { destruct to; apply exact_delta_added; by apply ssorted_NoDup. }
  induction to as [|t to IHt].
  { apply (exact_delta_deleted (f :: from)). by apply ssorted_NoDup. }
  pose proof Hf as [Hf1 Hf2]%ssorted_cons. pose proof Ht as [Ht1 Ht2]%ssorted_cons.
  cbn [diff_entries]. destruct (bcmp_spec (fe_path f) (fe_path t)) as [E|E|E].
  - rewrite same_entry by done. rewrite E in *.
    pose proof (entries_map_above _ _ Hf1) as N1. pose proof (entries_map_above _ _ Ht1) as N2.
    pose proof (entries_map_cons_eq f from) as E1. rewrite E in E1.
    case_bool_decide as Hne.
    + rewrite effects_cons, modified_effect.
      eapply exact_delta_cons; [by apply IHf|done|done|..].
      * intros k Hk. apply entries_map_cons_ne. congruence.
      * intros k Hk. by apply entries_map_cons_ne.
      * rewrite E1, entries_map_cons_eq. congruence.
      * apply entries_map_cons_eq.
    + subst f.
      eapply (exact_delta_skip (fe_path t)); [by apply IHf|done|done|..].
      * intros k Hk. apply entries_map_cons_ne. congruence.
      * intros k Hk. by apply entries_map_cons_ne.
      * rewrite E1, entries_map_cons_eq. congruence.
  - assert (entries_map (t :: to) !! fe_path f = None) as N2.
    { apply entries_map_above. constructor; [done|]. by eapply Forall_above. }
    rewrite effects_cons. eapply exact_delta_cons; [by apply IHf|..]; try done.
    + by apply entries_map_above.
    + intros k Hk. by apply entries_map_cons_ne.
    + by rewrite entries_map_cons_eq, N2.
  - assert (entries_map (f :: from) !! fe_path t = None) as N1.
    { apply entries_map_above. constructor; [done|]. by eapply Forall_above. }
    rewrite effects_cons, added_effect. eapply exact_delta_cons; [by apply IHt|..]; try done.
    + by apply entries_map_above.
    + intros k Hk. by apply entries_map_cons_ne.
    + by rewrite entries_map_cons_eq, N1.
    + apply entries_map_cons_eq.
Qed.

(** * Rename detection *)

(** Moving the content of cell [j] into cell [i]. *)
Lemma concat_move {A} (L : list (list A)) i j x y :
  i ≠ j → L !! i = Some x → L !! j = Some y →
  concat (<[i := x ++ y]> (<[j := []]> L)) ≡ₚ concat L.
Proof.
  intros Hij Hi Hj.
  assert (∀ (M : list (list A)) k z w, M !! k = Some z →
    concat (<[k := w]> M) ++ z ≡ₚ concat M ++ w) as G.
  { intros M k z w. revert k. induction M as [|a M IH]; intros [|k]; simpl; try done.
    - intros [= ->]. rewrite (Permutation_app_comm w), (Permutation_app_comm z).
      rewrite <-!app_assoc. f_equiv. apply Permutation_app_comm.
    - intros Hk. rewrite <-!app_assoc. f_equiv. by apply IH. }
  pose proof (G L j y [] Hj) as Gj. rewrite app_nil_r in Gj.
  apply (Permutation_app_inv_r x).
  rewrite G by (by rewrite list_lookup_insert_ne).
  by rewrite (Permutation_app_comm x y), app_assoc, Gj.
Qed.

Lemma index_by_hash_lookup sel ds h ks i :
  index_by_hash sel ds !! h = Some ks → i ∈ ks →
  ∃ d, ds !! i = Some d ∧ sel d = Some h.
Proof.
  unfold index_by_hash. revert h ks.
  assert (∀ (l : list (nat * FileDelta)) (m : gmap FileHash (list nat)),
    (∀ kd, kd ∈ l → ds !! kd.1 = Some kd.2) →
    (∀ h ks, m !! h = Some ks → i ∈ ks → ∃ d, ds !! i = Some d ∧ sel d = Some h) →
    ∀ h ks, foldl (λ m kd, match sel kd.2 with
      | Some h => <[h := default [] (m !! h) ++ [kd.1]]> m | None => m end) m l !! h = Some ks →
      i ∈ ks → ∃ d, ds !! i = Some d ∧ sel d = Some h) as G.
  { induction l as [|[k d] l IH]; intros m Hl Hm; [done|]. cbn [foldl].
    apply IH; [intros; apply Hl; by right|]. cbn [fst snd].
    destruct (sel d) as [h'|] eqn:E; [|done]. intros h ks.
    destruct (decide (h = h')) as [->|Hne]; [|rewrite lookup_insert_ne by done; apply Hm].
    rewrite lookup_insert_eq. intros [= <-] [Hi|Hi]%elem_of_app.
    - destruct (m !! h') as [ks|] eqn:Em; [by eapply Hm|by apply not_elem_of_nil in Hi].
    - apply list_elem_of_singleton in Hi as ->. exists d. split; [|done].
      by apply (Hl (k, d)); left. }
  intros h ks. apply G; [|done].
  intros [k d] Hin. apply elem_of_lookup_imap in Hin as (i' & d' & [= -> ->] & Hd). done.
Qed.

(** The state of the pairing loop: what has been paired belongs to hashes
    already seen, and emitting it keeps the effects. *)
Definition paired (ds : list FileDelta) (seen : FileHash → Prop)
    (acc : gmap nat FileDelta * gset nat) : Prop :=
  (∀ i r, acc.1 !! i = Some r → ∃ d h, ds !! i = Some d ∧ deleted_hash d = Some h ∧ seen h) ∧
  (∀ j, j ∈ acc.2 → ∃ d h, ds !! j = Some d ∧ added_hash d = Some h ∧ seen h) ∧
  effects (concat (imap (emit acc.1 acc.2) ds)) ≡ₚ effects ds.

Lemma effects_concat L : effects (concat L) = concat (effects <$> L).
Proof. induction L as [|l L IH]; [done|]. csimpl. by rewrite effects_app, IH. Qed.

Lemma emit_pair ds R C i j old path h h' size mtime :
  ds !! i = Some (Deleted old h) → ds !! j = Some (Added path h' size mtime) →
  R !! i = None → R !! j = None → i ∉ C → j ∉ C →
  effects (concat (imap (emit (<[i := Renamed path old h' size mtime]> R) ({[j]} ∪ C)) ds)) ≡ₚ
  effects (concat (imap (emit R C) ds)).
Proof.
  intros Hi Hj Ri Rj Ci Cj. assert (i ≠ j) as Hij by congruence.
  rewrite !effects_concat.
  rewrite <-(concat_move (effects <$> imap (emit R C) ds) i j
    [(old, None)] [write path h' size mtime]); [|done|..].
  2,3: rewrite list_lookup_fmap, list_lookup_imap, ?Hi, ?Hj; simpl;
       unfold emit; by rewrite ?Ri, ?Rj, decide_False.
  apply reflexive_eq. f_equal. apply list_eq. intros k.
  rewrite list_lookup_fmap, list_lookup_imap.
  destruct (decide (k = i)) as [->|Hki].
  - rewrite list_lookup_insert_eq.
    + rewrite Hi. simpl. unfold emit. by rewrite lookup_insert_eq.
    + rewrite length_insert, length_fmap, length_imap. by apply lookup_lt_Some in Hi.
  - rewrite list_lookup_insert_ne by done. destruct (decide (k = j)) as [->|Hkj].
    + rewrite list_lookup_insert_eq.
      * rewrite Hj. simpl. unfold emit. rewrite lookup_insert_ne by done.
        rewrite Rj, decide_True by set_solver. done.
      * rewrite length_fmap, length_imap. by apply lookup_lt_Some in Hj.
    + rewrite list_lookup_insert_ne, list_lookup_fmap, list_lookup_imap by done.
      destruct (ds !! k) as [d|]; [|done]. simpl. unfold emit.
      rewrite lookup_insert_ne by done. destruct (R !! k); [done|].
      by rewrite (decide_ext _ (k ∈ C)) by set_solver.
Qed.

Lemma pair_rename_step ds seen acc h ks :
  paired ds seen acc → ¬ seen h → index_by_hash deleted_hash ds !! h = Some ks →
  paired ds (λ x, seen x ∨ x = h) (pair_rename ds (index_by_hash added_hash ds) acc (h, ks)).
Proof.
  destruct acc as [R C]. intros (HR & HC & HE) Hh His.
  assert (paired ds (λ x, seen x ∨ x = h) (R, C)) as Hsame.
  { split_and!; [| |done].
    - intros i r Hi. destruct (HR i r Hi) as (d & h' & ?&?&?). exists d, h'. auto.
    - intros j Hj. destruct (HC j Hj) as (d & h' & ?&?&?). exists d, h'. auto. }
  unfold pair_rename.
  destruct (index_by_hash added_hash ds !! h) as [[|j [|]]|] eqn:Hadd; try done.
  destruct ks as [|i [|]]; try done.
  destruct (index_by_hash_lookup _ _ _ _ i His) as (di & Hi & Hdi); [by left|].
  destruct (index_by_hash_lookup _ _ _ _ j Hadd) as (dj & Hj & Hdj); [by left|].
  rewrite Hi, Hj. destruct di as [| |old h1|]; try done. destruct dj as [path h2 size mtime| | |]; try done.
  injection Hdi as ->. injection Hdj as ->.
  assert (R !! i = None) as Ri.
  { apply eq_None_not_Some. intros [r Hr]. destruct (HR _ _ Hr) as (d & h' & E1 & E2 & E3).
    rewrite Hi in E1. injection E1 as <-. injection E2 as <-. done. }
  assert (R !! j = None) as Rj.
  { apply eq_None_not_Some. intros [r Hr]. destruct (HR _ _ Hr) as (d & h' & E1 & E2 & E3).
    rewrite Hj in E1. by injection E1 as <-. }
  assert (i ∉ C) as Ci.
  { intros Hin. destruct (HC _ Hin) as (d & h' & E1 & E2 & E3).
    rewrite Hi in E1. by injection E1 as <-. }
  assert (j ∉ C) as Cj.
  { intros Hin. destruct (HC _ Hin) as (d & h' & E1 & E2 & E3).
    rewrite Hj in E1. injection E1 as <-. injection E2 as <-. done. }
  destruct Hsame as (HR' & HC' & _). split_and!; simpl.
  - intros k r. destruct (decide (k = i)) as [->|Hne]; [|rewrite lookup_insert_ne by done; apply HR'].
    intros _. eexists _, h. split_and!; [done|done|by right].
  - intros k [->%elem_of_singleton|Hk]%elem_of_union; [|by apply HC'].
    eexists _, h. split_and!; [done|done|by right].
  - by rewrite emit_pair.
Qed.

Lemma pair_rename_fold ds hs seen acc :
  paired ds seen acc → NoDup hs.*1 → Forall (λ x, ¬ seen x) hs.*1 →
  Forall (λ x, index_by_hash deleted_hash ds !! x.1 = Some x.2) hs →
  ∃ seen', paired ds seen' (foldl (pair_rename ds (index_by_hash added_hash ds)) acc hs).
Proof.
  revert seen acc. induction hs as [|[h ks] hs IH]; intros seen acc Hp Hnd Hs Hl; [by eexists|].
  csimpl in *. apply NoDup_cons in Hnd as [Hh Hnd]. apply Forall_cons in Hs as [Hh' Hs].
  apply Forall_cons in Hl as [Hl Hl']. eapply IH; [by apply pair_rename_step|done| |done].
  rewrite Forall_forall in Hs |- *. intros x Hx [?| ->]; [by apply (Hs x)|done].
Qed.

Lemma imap_emit_empty ds k : concat (imap (λ i, emit ∅ ∅ (k + i)) ds) = ds.
Proof.
  revert k. induction ds as [|d ds IH]; intros k; [done|]. rewrite imap_cons.
  unfold emit at 1. simpl. rewrite lookup_empty. f_equal.
  rewrite <-(IH (Datatypes.S k)) at 2. done.
Qed.

Lemma detect_renames_spec ds : effects (detect_renames ds) ≡ₚ effects ds.
Proof.
  unfold detect_renames.
  destruct (pair_rename_fold ds (map_to_list (index_by_hash deleted_hash ds)) (λ _, False) (∅, ∅))
    as [seen (_ & _ & HE)].
  - split_and!; [by intros i r|by intros j|]. simpl.
    change (imap (emit ∅ ∅) ds) with (imap (λ i, emit ∅ ∅ (0 + i)%nat) ds).
    by rewrite imap_emit_empty.
  - apply NoDup_fst_map_to_list.
  - apply Forall_forall. tauto.
  - apply Forall_forall. intros [h ks] Hin. by apply elem_of_map_to_list in Hin.
  - destruct (foldl _ _ _) as [R C]. exact HE.
Qed.

(** * The children of two roots *)

Lemma diff_entries_refl es : diff_entries es es = [].
Proof.
  induction es as [|e es IH]; [done|]. cbn [diff_entries]. rewrite bcmp_refl.
  by rewrite same_entry, bool_decide_eq_false_2 by naive_solver.
Qed.
Lemma diff_entries_nil_l es : diff_entries [] es = added <$> es.
Proof. by destruct es. Qed.
Lemma diff_entries_nil_r es : diff_entries es [] = deleted <$> es.
Proof. by destruct es. Qed.

(** The union of two sorted key lists, in order. *)
Fixpoint merge_keys (ks1 : list bytes) : list bytes → list bytes :=
  fix go ks2 :=
    match ks1, ks2 with
    | [], _ => ks2
    | _, [] => ks1
    | k1 :: ks1', k2 :: ks2' =>
        match bcmp k1 k2 with
        | Eq => k1 :: merge_keys ks1' ks2'
        | Lt => k1 :: merge_keys ks1' ks2
        | Gt => k2 :: go ks2'
        end
    end.

Lemma elem_of_merge_keys ks1 ks2 k : k ∈ merge_keys ks1 ks2 ↔ k ∈ ks1 ∨ k ∈ ks2.
Proof.
  revert ks2. induction ks1 as [|k1 ks1 IH1]; intros ks2; [destruct ks2; set_solver|].
  induction ks2 as [|k2 ks2 IH2]; [set_solver|].
  cbn [merge_keys]. destruct (bcmp_spec k1 k2) as [->| |]; rewrite elem_of_cons;
    [rewrite IH1|rewrite IH1|rewrite IH2]; set_solver.
Qed.

Lemma merge_keys_sorted ks1 ks2 :
  ssorted id ks1 → ssorted id ks2 → ssorted id (merge_keys ks1 ks2).
Proof.
  revert ks2. induction ks1 as [|k1 ks1 IH1]; intros ks2 H1 H2; [by destruct ks2|].
  induction ks2 as [|k2 ks2 IH2]; [done|].
  pose proof H1 as [Hk1 Hs1]%ssorted_cons. pose proof H2 as [Hk2 Hs2]%ssorted_cons.
  rewrite Forall_forall in Hk1, Hk2. unfold id in Hk1, Hk2.
  cbn [merge_keys]. destruct (bcmp_spec k1 k2) as [->|E|E]; apply ssorted_cons;
    (split; [apply Forall_forall; intros k Hk|auto]); unfold id.
  - apply elem_of_merge_keys in Hk as [?|?]; auto.
  - apply elem_of_merge_keys in Hk as [?|[->|?]%elem_of_cons]; auto. trans k2; auto.
  - change (k ∈ merge_keys (k1 :: ks1) ks2) in Hk.
    apply elem_of_merge_keys in Hk as [[->|?]%elem_of_cons|?]; auto. trans k1; auto.
Qed.

Section children.
Context {S : Type} {B3 : Blake3} {FB : FlatBuffers} {CS : ChunkStore S}.
Context (s : S) (D1 D2 : bytes → list FileEntry).

(** The raw deltas of the directories [ps]. *)
Definition dir_deltas (ps : list bytes) : list FileDelta :=
  concat ((λ p, diff_entries (D1 p) (D2 p)) <$> ps).

Lemma push_rest_spec push D cs raw st :
  Forall (λ c, load_all_entries c.2 s = Ok (D c.1)) cs →
  ∃ st', push_rest s push cs raw st = Ok (raw ++ concat ((λ p, push <$> D p) <$> cs.*1), st').
Proof.
  intros Hcs. revert raw st. induction Hcs as [|[p h] cs Hc Hcs IH]; intros raw st.
  { exists st. simpl. by rewrite app_nil_r. }
  cbn [push_rest]. unfold push_all. simpl in Hc. rewrite Hc.
  edestruct IH as [st' ->]. exists st'. csimpl. by rewrite <-app_assoc.
Qed.

(** The hypotheses of the merge: both sides sorted and readable, and a
    directory one side lacks is empty there. *)
Record sides (from to : list (bytes * FileHash)) : Prop := {
  sd_from : ssorted fst from;
  sd_to : ssorted fst to;
  sd_load_from : Forall (λ c, load_all_entries c.2 s = Ok (D1 c.1)) from;
  sd_load_to : Forall (λ c, load_all_entries c.2 s = Ok (D2 c.1)) to;
  sd_only_from : ∀ p, p ∈ from.*1 → p ∉ to.*1 → D2 p = [];
  sd_only_to : ∀ p, p ∈ to.*1 → p ∉ from.*1 → D1 p = [];
}.

Lemma above_notin p q (l : list (bytes * FileHash)) h :
  p ≺ q → ssorted fst ((q, h) :: l) → p ∉ ((q, h) :: l).*1.
Proof.
  intros Hpq [Hq _]%ssorted_fst_cons. csimpl. rewrite not_elem_of_cons.
  split; [by apply bytes_lt_ne|]. rewrite Forall_forall in Hq. intros Hin.
  apply (bytes_lt_asym p q); auto.
Qed.

Lemma head_notin p (l : list (bytes * FileHash)) h :
  ssorted fst ((p, h) :: l) → p ∉ l.*1.
Proof.
  intros [Hp _]%ssorted_fst_cons Hin. rewrite Forall_forall in Hp.
  by apply (irreflexivity bytes_lt p), Hp.
Qed.

Lemma sides_both p h g from to :
  sides ((p, h) :: from) ((p, g) :: to) →
  sides from to ∧ load_all_entries h s = Ok (D1 p) ∧ load_all_entries g s = Ok (D2 p).
Proof.
  intros [Sf St Lf Lt Hf Ht]. pose proof (head_notin _ _ _ Sf). pose proof (head_notin _ _ _ St).
  apply ssorted_fst_cons in Sf as [_ Sf]. apply ssorted_fst_cons in St as [_ St].
  apply Forall_cons in Lf as [Lp Lf]. apply Forall_cons in Lt as [Lq Lt].
  split_and!; [|done..]. split; auto.
  - intros x Hx Hx'. apply Hf; csimpl; [by right|]. apply not_elem_of_cons. naive_solver.
  - intros x Hx Hx'. apply Ht; csimpl; [by right|]. apply not_elem_of_cons. naive_solver.
Qed.

Lemma sides_from p h q g from to :
  p ≺ q → sides ((p, h) :: from) ((q, g) :: to) →
  sides from ((q, g) :: to) ∧ load_all_entries h s = Ok (D1 p) ∧ D2 p = [].
Proof.
  intros E [Sf St Lf Lt Hf Ht]. pose proof (above_notin p q to g E St) as Hn.
  apply ssorted_fst_cons in Sf as [_ Sf]. apply Forall_cons in Lf as [Lp Lf].
  split_and!; [|done|by apply Hf; [left|]]. split; auto.
  - intros x Hx Hx'. apply Hf; [by right|done].
  - intros x Hx Hx'. apply Ht; [done|]. csimpl. apply not_elem_of_cons. naive_solver.
Qed.

Lemma sides_to p h q g from to :
  q ≺ p → sides ((p, h) :: from) ((q, g) :: to) →
  sides ((p, h) :: from) to ∧ load_all_entries g s = Ok (D2 q) ∧ D1 q = [].
Proof.
  intros E [Sf St Lf Lt Hf Ht]. pose proof (above_notin q p from h E Sf) as Hn.
  apply ssorted_fst_cons in St as [_ St]. apply Forall_cons in Lt as [Lq Lt].
  split_and!; [|done|by apply Ht; [left|]]. split; auto.
  - intros x Hx Hx'. apply Hf; [done|]. csimpl. apply not_elem_of_cons. naive_solver.
  - intros x Hx Hx'. apply Ht; [by right|done].
Qed.

Lemma dir_deltas_cons p ps :
  dir_deltas (p :: ps) = diff_entries (D1 p) (D2 p) ++ dir_deltas ps.
Proof. done. Qed.

Lemma dir_deltas_only push (D : bytes → list FileEntry) ps :
  (∀ p, p ∈ ps → diff_entries (D1 p) (D2 p) = push <$> D p) →
  dir_deltas ps = concat ((λ p, push <$> D p) <$> ps).
Proof.
  intros HD. unfold dir_deltas. f_equal. apply list_fmap_ext.
  intros i q Hq%list_elem_of_lookup_2. auto.
Qed.

Lemma diff_children_eq p h g from to raw st :
  diff_children s ((p, h) :: from) ((p, g) :: to) raw st =
    if negb (beq h g) then
      let? from_entries := load_all_entries h s in
      let? to_entries := load_all_entries g s in
      diff_children s from to (raw ++ diff_entries from_entries to_entries)
        (materialize (len from_entries + len to_entries) (visit st))
    else diff_children s from to raw (skip (visit st)).
Proof. cbn [diff_children]. by rewrite bcmp_refl. Qed.

Lemma diff_children_lt p h q g from to raw st :
  p ≺ q →
  diff_children s ((p, h) :: from) ((q, g) :: to) raw st =
    let? ' (raw, st) := push_all s deleted h raw (visit st) in
    diff_children s from ((q, g) :: to) raw st.
Proof. intros E. cbn [diff_children]. unfold bytes_lt in E. by rewrite E. Qed.

Lemma diff_children_gt p h q g from to raw st :
  q ≺ p →
  diff_children s ((p, h) :: from) ((q, g) :: to) raw st =
    let? ' (raw, st) := push_all s added g raw (visit st) in
    diff_children s ((p, h) :: from) to raw st.
Proof. intros E%bcmp_gt. cbn [diff_children]. by rewrite E. Qed.

Lemma merge_keys_cons p q ps qs :
  merge_keys (p :: ps) (q :: qs) =
    match bcmp p q with
    | Eq => p :: merge_keys ps qs
    | Lt => p :: merge_keys ps (q :: qs)
    | Gt => q :: merge_keys (p :: ps) qs
    end.
Proof. done. Qed.

Lemma diff_children_spec from to raw st :
  sides from to →
  ∃ st', diff_children s from to raw st =
    Ok (raw ++ dir_deltas (merge_keys from.*1 to.*1), st').
Proof.
  revert to raw st. induction from as [|[p h] from IHf]; intros to raw st Hs.
  { destruct (push_rest_spec added D2 to raw st (sd_load_to _ _ Hs)) as [st' E]. exists st'.
    rewrite (dir_deltas_only added D2).
    - replace (merge_keys [].*1 to.*1) with to.*1 by (by destruct to). by destruct to.
    - intros q Hq. rewrite (sd_only_to _ _ Hs); [by rewrite diff_entries_nil_l| |apply not_elem_of_nil].
      by destruct to. }
  revert raw st Hs. induction to as [|[q g] to IHt]; intros raw st Hs.
  { destruct (push_rest_spec deleted D1 ((p, h) :: from) raw st (sd_load_from _ _ Hs)) as [st' E].
    exists st'. rewrite (dir_deltas_only deleted D1); [done|].
    intros q Hq. rewrite (sd_only_from _ _ Hs); [apply diff_entries_nil_r|done|apply not_elem_of_nil]. }
  rewrite !fmap_cons. cbn [fst]. rewrite merge_keys_cons. destruct (bcmp_spec p q) as [<-|E|E].
  - apply sides_both in Hs as (Hs & Lp & Lq). rewrite diff_children_eq, dir_deltas_cons.
    unfold beq. case_bool_decide as Eh; cbn [negb].
    + subst g. rewrite Lp in Lq. injection Lq as <-. rewrite diff_entries_refl. by apply IHf.
    + rewrite Lp, Lq, app_assoc. by apply IHf.
  - apply sides_from in Hs as (Hs & Lp & Hn); [|done].
    rewrite diff_children_lt, dir_deltas_cons, Hn, diff_entries_nil_r by done.
    unfold push_all. rewrite Lp, app_assoc. by apply (IHf ((q, g) :: to)).
  - apply sides_to in Hs as (Hs & Lq & Hn); [|done].
    rewrite diff_children_gt, dir_deltas_cons, Hn, diff_entries_nil_l by done.
    unfold push_all. rewrite Lq, app_assoc. by apply IHt.
Qed.
End children.

(** * Whole vaults *)

Lemma dir_entries_ext m1 m2 :
  keyed m1 → keyed m2 → (∀ p, dir_entries p m1 = dir_entries p m2) → m1 = m2.
Proof.
  intros H1 H2 E. apply map_eq. intros k.
  pose proof (dir_entries_lookup (top_level_prefix k) m1 k H1) as L1.
  pose proof (dir_entries_lookup (top_level_prefix k) m2 k H2) as L2.
  rewrite decide_True in L1, L2 by done. congruence.
Qed.

Lemma dir_effects m1 m2 p k o :
  keyed m1 → keyed m2 →
  (k, o) ∈ effects (diff_entries (dir_entries p m1) (dir_entries p m2)) ↔
    top_level_prefix k = p ∧ m1 !! k ≠ m2 !! k ∧ o = m2 !! k.
Proof.
  intros H1 H2.
  destruct (diff_entries_spec (dir_entries p m1) (dir_entries p m2)) as [_ Hx];
    [by apply dir_entries_ssorted..|].
  rewrite Hx, !dir_entries_lookup by done. case_decide; naive_solver.
Qed.

Lemma effects_dir_deltas D1 D2 ps :
  effects (dir_deltas D1 D2 ps) =
    concat ((λ p, effects (diff_entries (D1 p) (D2 p))) <$> ps).
Proof. unfold dir_deltas. by rewrite effects_concat, <-list_fmap_compose. Qed.

Lemma dir_deltas_exact m1 m2 ps :
  keyed m1 → keyed m2 → NoDup ps →
  (∀ p, p ∉ ps → dir_entries p m1 = dir_entries p m2) →
  exact_delta (effects (dir_deltas (λ p, dir_entries p m1) (λ p, dir_entries p m2) ps)) m1 m2.
Proof.
  intros H1 H2 Hnd Hps. rewrite effects_dir_deltas. split.
  - clear Hps. induction Hnd as [|p ps Hp Hnd IH]; [constructor|]. csimpl.
    rewrite fmap_app. apply NoDup_app. split_and!; [|intros k Hk Hk'|done].
    + apply diff_entries_spec; by apply dir_entries_ssorted.
    + apply list_elem_of_fmap in Hk as ([k' o] & -> & (<- & _)%dir_effects); [|done..].
      apply list_elem_of_fmap in Hk' as ([k'' o'] & E & Hin). simpl in E. subst k''.
      apply list_elem_of_In, in_concat in Hin as (l & Hl & Hin).
      apply list_elem_of_In, list_elem_of_fmap in Hl as (q & -> & Hq).
      apply list_elem_of_In, dir_effects in Hin as (E & _); [|done..]. congruence.
  - intros k o. split.
    + intros Hin. apply list_elem_of_In, in_concat in Hin as (l & Hl & Hin).
      apply list_elem_of_In, list_elem_of_fmap in Hl as (q & -> & Hq).
      by apply list_elem_of_In, dir_effects in Hin as (_ & ?).
    + intros [Hne ->]. destruct (decide (top_level_prefix k ∈ ps)) as [Hin|Hin].
      * apply list_elem_of_In, in_concat.
        eexists. split; [apply list_elem_of_In, list_elem_of_fmap; by exists (top_level_prefix k)|].
        by apply list_elem_of_In, dir_effects.
      * exfalso. apply Hps in Hin as E.
        pose proof (dir_entries_lookup (top_level_prefix k) m1 k H1) as L1.
        pose proof (dir_entries_lookup (top_level_prefix k) m2 k H2) as L2.
        rewrite decide_True in L1, L2 by done. congruence.
Qed.

Section roots.
Context {S : Type} {B3 : Blake3} {FB : FlatBuffers} {CS : ChunkStore S} {CSL : ChunkStoreLaws S}.
Context (P : bytes → Prop) (s : S) (r1 r2 : RootNode) (m1 m2 : vault).
Context (V1 : vault_ok P m1) (V2 : vault_ok P m2).
Context (R1 : dirs_repr s (rn_children r1) m1) (R2 : dirs_repr s (rn_children r2) m2).

Lemma dirs_repr_absent children m p :
  dirs_repr s children m → p ∉ children.*1 → dir_entries p m = [].
Proof.
  intros Hr Hp. pose proof (dr_child _ _ _ Hr p) as Hc.
  rewrite (not_elem_of_list_to_map_1 _ _ Hp) in Hc. unfold dir_child in Hc.
  by destruct (dir_entries p m).
Qed.

Lemma dirs_repr_loads children m :
  vault_ok P m → dirs_repr s children m →
  Forall (λ c, load_all_entries c.2 s = Ok (dir_entries c.1 m)) children.
Proof.
  intros Hv Hr. apply Forall_forall. intros [p h] Hin.
  by eapply dirs_repr_load.
Qed.

Lemma same_children_same_vault : rn_children r1 = rn_children r2 → m1 = m2.
Proof.
  intros E. apply dir_entries_ext; [apply V1|apply V2|]. intros p.
  destruct (amap (rn_children r1) !! p) as [h|] eqn:Eh.
  - apply amap_elem in Eh; [|apply R1].
    destruct (dirs_repr_load P s _ m1 p h V1 R1 Eh) as [L1 _]. rewrite E in Eh.
    destruct (dirs_repr_load P s _ m2 p h V2 R2 Eh) as [L2 _]. congruence.
  - apply not_elem_of_list_to_map_2 in Eh.
    rewrite (dirs_repr_absent _ _ p R1 Eh). rewrite E in Eh.
    by rewrite (dirs_repr_absent _ _ p R2 Eh).
Qed.

(** The deltas between two roots of these vaults. *)
Definition root_deltas : list FileDelta :=
  if beq (root_hash r1) (root_hash r2) then []
  else detect_renames (dir_deltas (λ p, dir_entries p m1) (λ p, dir_entries p m2)
                         (merge_keys (rn_children r1).*1 (rn_children r2).*1)).

Lemma compute_deltas_spec :
  (root_hash r1 = root_hash r2 → rn_children r1 = rn_children r2) →
  compute_deltas s r1 r2 = Ok root_deltas ∧ exact_delta (effects root_deltas) m1 m2.
Proof.
  intros Hroot. unfold compute_deltas, compute_deltas_with_stats, root_deltas, beq.
  case_bool_decide as Eh.
  { split; [done|]. rewrite (same_children_same_vault (Hroot Eh)).
    split; [constructor|]. intros k o. split; [by intros ?%not_elem_of_nil|by intros [? _]]. }
  set (st0 := Build_DiffStats 1 0 0).
  destruct (diff_children_spec s (λ p, dir_entries p m1) (λ p, dir_entries p m2)
    (rn_children r1) (rn_children r2) [] st0) as [st' ->].
  { split; [apply R1|apply R2|by apply dirs_repr_loads..| |];
      intros p _ Hp; by eapply dirs_repr_absent. }
  split; [done|].
  eapply exact_delta_perm; [symmetry; apply detect_renames_spec|].
  assert (∀ ch : list (bytes * FileHash), ssorted fst ch → ssorted id ch.*1) as G.
  { intros ch. induction ch as [|[k h] ch IH]; [constructor|].
    intros [Hk Hs]%ssorted_fst_cons. csimpl. apply ssorted_cons. split; [done|by apply IH]. }
  apply dir_deltas_exact; [apply V1|apply V2| |].
  - rewrite <-(list_fmap_id (merge_keys _ _)). apply ssorted_NoDup.
    apply merge_keys_sorted; apply G; [apply R1|apply R2].
  - intros p. rewrite elem_of_merge_keys. intros Hp.
    rewrite (dirs_repr_absent _ _ p R1), (dirs_repr_absent _ _ p R2); naive_solver.
Qed.
End roots.

(** * The theorems *)

(** The two-pointer diff of two sorted directories is their exact
    difference: every path whose entry differs, once, with its target (or its
    removal), and no other path. *)
Theorem diff_entries_exact from to :
  ssorted fe_path from → ssorted fe_path to →
  exact_delta (effects (diff_entries from to)) (entries_map from) (entries_map to).
Proof. apply diff_entries_spec. Qed.

(** Rename detection only regroups: for any raw deltas, the writes and
    removals after it are a permutation of those before it, so no file is
    lost, duplicated or invented by a rename. *)
Theorem detect_renames_keeps_effects deltas :
  effects (detect_renames deltas) ≡ₚ effects deltas.
Proof. apply detect_renames_spec. Qed.

(** C9: the deltas between two roots in one store are computed without error,
    are the exact difference of the two vaults, and applied to the first
    vault give the second. Equal root hashes must mean equal child lists. *)
Theorem compute_deltas_exact {S : Type} {B3 : Blake3} {FB : FlatBuffers} {CS : ChunkStore S}
    {CSL : ChunkStoreLaws S} (P : bytes → Prop) (s : S) r1 r2 m1 m2 :
  vault_ok P m1 → vault_ok P m2 →
  dirs_repr s (rn_children r1) m1 → dirs_repr s (rn_children r2) m2 →
  (root_hash r1 = root_hash r2 → rn_children r1 = rn_children r2) →
  ∃ ds, compute_deltas s r1 r2 = Ok ds ∧ exact_delta (effects ds) m1 m2
        ∧ apply_deltas ds m1 = m2.
Proof.
  intros V1 V2 R1 R2 Hroot.
  destruct (compute_deltas_spec P s r1 r2 m1 m2 V1 V2 R1 R2 Hroot) as [Hds Hx].
  exists (root_deltas r1 r2 m1 m2). split_and!; [done..|]. by apply exact_delta_apply.
Qed.
