(* ===== verification/TreeV1Examples.v ===== *)
(** Tree v1 and its diff at work on a small vault: concrete runs of build,
    load, update and deltas, and the witnesses of the theorems. *)

From S2P Require Import Prelude Bytes Keyed Hash Chunk Concrete Store TreeV1 TreeV1Merge TreeV1Build.
From S2P Require Import TreeV1Repr TreeV1Props Diff.
Local Open Scope N_scope.

#[local] Existing Instance poly_blake3.
#[local] Existing Instance plain_flatbuffers.

Ltac by_decision := refine (bool_decide_eq_true_1 _ _); vm_compute; reflexivity.

Lemma NoDup_injective_on {A B} (f : A → B) l : NoDup (f <$> l) → injective_on f (.∈ l).
Proof.
  induction l as [|x l IH]; csimpl; [intros _ a b; set_solver|].
  intros [Hx Hl]%NoDup_cons a b [->|Ha]%elem_of_cons [->|Hb]%elem_of_cons E; [done|..].
  - destruct Hx. rewrite E. by apply list_elem_of_fmap_2.
  - destruct Hx. rewrite <-E. by apply list_elem_of_fmap_2.
  - by apply IH.
Qed.

Definition ex_entry (p : string) (n : N) : FileEntry :=
  {| fe_path := str p; fe_hash := hash_bytes (le_bytes 4 n);
     fe_mtime_ms := 1700000000000 + n; fe_size_bytes := n |}.

Definition ex_old : list FileEntry :=
  [ex_entry "notes/b.md" 2; ex_entry "readme.md" 1; ex_entry "notes/a.md" 3; ex_entry "old/x" 9].
Definition ex_changed : list FileEntry := [ex_entry "notes/b.md" 7; ex_entry "new/c.md" 4].
Definition ex_deleted : list bytes := [str "old/x"; str "missing/y"].
Definition ex_new : list FileEntry :=
  [ex_entry "notes/b.md" 7; ex_entry "new/c.md" 4; ex_entry "readme.md" 1; ex_entry "notes/a.md" 3].

(** Every object the two trees are made of. *)
Definition ex_objects : list bytes :=
  Eval vm_compute in remove_dups (leaf_blob [] ::
    concat (group_blobs <$> group_entries ex_old) ++
    concat (group_blobs <$> group_entries ex_new)).

Definition ex_P (b : bytes) : Prop := b ∈ ex_objects.

Lemma ex_inj : injective_on hash_bytes ex_P.
Proof. apply NoDup_injective_on. by_decision. Qed.

Lemma ex_vault es :
  NoDup (fe_path <$> es) → forallb entry_ok es = true → len es ≤ MAX_LOADED_ENTRIES →
  Forall ex_P (leaf_blob [] :: concat (group_blobs <$> group_entries es)) →
  vault_ok ex_P (entries_map es).
Proof. intros ??? [??]%Forall_cons. by apply entries_vault_ok. Qed.

Lemma ex_old_ok : vault_ok ex_P (entries_map ex_old).
Proof. apply ex_vault; [by_decision|reflexivity|by_decision|unfold ex_P; by_decision]. Qed.
Lemma ex_new_ok : vault_ok ex_P (entries_map ex_new).
Proof. apply ex_vault; [by_decision|reflexivity|by_decision|unfold ex_P; by_decision]. Qed.
Lemma ex_update : entries_map ex_new = apply_update (entries_map ex_old) ex_changed ex_deleted.
Proof. by_decision. Qed.

Lemma ex_empty_ok : store_ok (S := MemoryChunkStore) ex_P ms_new.
Proof. intros h b. vm_compute. discriminate. Qed.

Definition ex_root : RootNode * MemoryChunkStore :=
  Eval vm_compute in
    match build_tree 1700000000000 ex_old (str "v") (str "d") ms_new with
    | (Ok r, s) => (r, s)
    | (Err _, s) => ({| rn_vault_id := []; rn_created_ms := 0; rn_version := 0;
                        rn_children := []; rn_total_files := 0;
                        rn_parent_hash := None; rn_device_id := [] |}, s)
    end.

Lemma ex_root_built :
  build_tree 1700000000000 ex_old (str "v") (str "d") ms_new = (Ok ex_root.1, ex_root.2).
Proof. vm_compute. reflexivity. Qed.

Lemma ex_root_repr : store_ok ex_P ex_root.2 ∧ tree_repr ex_root.2 ex_root.1 (entries_map ex_old).
Proof.
  destruct (build_tree_spec ex_P ex_inj 1700000000000 ex_old (str "v") (str "d") ms_new)
    as (root & s' & Hrun & Hs & _ & Hr & Ht); [apply ex_empty_ok|by_decision|apply ex_old_ok|].
  rewrite ex_root_built in Hrun. apply run_inj in Hrun as [<- <-]. split; [done|]. split; [done|].
  vm_compute. reflexivity.
Qed.

Lemma build_tree_refines_witness :
  ∃ root s',
    build_tree 1700000000000 ex_old (str "v") (str "d") (ms_new) = (Ok root, s') ∧
    store_ok ex_P s' ∧ store_le ms_new s' ∧
    dirs_repr s' (rn_children root) (entries_map ex_old) ∧ rn_total_files root = 4.
Proof.
  apply (build_tree_refines ex_P ex_inj 1700000000000 ex_old (str "v") (str "d") ms_new).
  - exact ex_empty_ok.
  - by_decision.
  - exact ex_old_ok.
Defined.

Lemma update_tree_refines_witness :
  ∃ root' s',
    update_tree 1700000000001 ex_root.1 ex_changed ex_deleted ex_root.2 = (Ok root', s') ∧
    store_ok ex_P s' ∧ store_le ex_root.2 s' ∧
    tree_repr s' root' (apply_update (entries_map ex_old) ex_changed ex_deleted) ∧
    tree_repr s' ex_root.1 (entries_map ex_old) ∧
    rn_parent_hash root' = Some (root_hash ex_root.1).
Proof.
  apply (update_tree_refines ex_P ex_inj 1700000000001 ex_root.1 ex_changed ex_deleted).
  - apply ex_root_repr.
  - exact ex_old_ok.
  - apply ex_root_repr.
  - rewrite <-ex_update. exact ex_new_ok.
Defined.

Lemma update_matches_rebuild_witness :
  ∃ root1 s1 root2 s2',
    update_tree 1700000000001 ex_root.1 ex_changed ex_deleted ex_root.2 = (Ok root1, s1) ∧
    build_tree 1700000000002 ex_new (str "v") (str "e") ms_new = (Ok root2, s2') ∧
    rn_children root1 = rn_children root2 ∧
    rn_total_files root1 = wrap64 (rn_total_files root2).
Proof.
  apply (update_matches_rebuild ex_P ex_inj) with (m := entries_map ex_old).
  - apply ex_root_repr.
  - exact ex_empty_ok.
  - exact ex_old_ok.
  - apply ex_root_repr.
  - by_decision.
  - exact ex_update.
  - exact ex_new_ok.
Defined.

Lemma tree_loads_vault_witness :
  (∀ p h, (p, h) ∈ rn_children ex_root.1 →
     load_all_entries h ex_root.2 = Ok (dir_entries p (entries_map ex_old))) ∧
  (∀ k e, entries_map ex_old !! k = Some e →
     ∃ h es, (top_level_prefix k, h) ∈ rn_children ex_root.1 ∧
             load_all_entries h ex_root.2 = Ok es ∧ e ∈ es).
Proof. apply (tree_loads_vault ex_P); [exact ex_old_ok|apply ex_root_repr]. Defined.

Lemma merge_prefix_entries_correct_witness :
  ssorted fe_path [ex_entry "notes/a.md" 3; ex_entry "notes/b.md" 2] ∧
  entries_map (merge_prefix_entries [ex_entry "notes/a.md" 3; ex_entry "notes/b.md" 2]
    [ex_entry "notes/c.md" 5; ex_entry "notes/a.md" 8; ex_entry "notes/c.md" 6]
    [str "notes/b.md"; str "notes/a.md"]) =
  apply_update (entries_map [ex_entry "notes/a.md" 3; ex_entry "notes/b.md" 2])
    [ex_entry "notes/c.md" 5; ex_entry "notes/a.md" 8; ex_entry "notes/c.md" 6]
    [str "notes/b.md"; str "notes/a.md"].
Proof.
  assert (ssorted fe_path [ex_entry "notes/a.md" 3; ex_entry "notes/b.md" 2]) as Hs
    by (apply strictly_ordered_ssorted; reflexivity).
  split; [exact Hs|].
  apply (merge_prefix_entries_correct
    [ex_entry "notes/a.md" 3; ex_entry "notes/b.md" 2]
    [ex_entry "notes/c.md" 5; ex_entry "notes/a.md" 8; ex_entry "notes/c.md" 6]
    [str "notes/b.md"; str "notes/a.md"] Hs).
Defined.



(** A file moved with its content, next to a real deletion. *)
Example rename_detected :
  detect_renames
    [Deleted (str "a") (str "h1"); Deleted (str "b") (str "h2"); Added (str "c") (str "h1") 5 6]
  = [Renamed (str "c") (str "a") (str "h1") 5 6; Deleted (str "b") (str "h2")].
Proof. vm_compute. reflexivity. Qed.

(** Two sources with the same content: no rename is guessed. *)
Example ambiguous_rename_kept :
  detect_renames
    [Deleted (str "a") (str "h1"); Deleted (str "b") (str "h1"); Added (str "c") (str "h1") 5 6]
  = [Deleted (str "a") (str "h1"); Deleted (str "b") (str "h1"); Added (str "c") (str "h1") 5 6].
Proof. vm_compute. reflexivity. Qed.

Lemma diff_entries_exact_witness :
  diff_entries [ex_entry "a" 1; ex_entry "b" 2] [ex_entry "b" 3; ex_entry "c" 4]
    = [deleted (ex_entry "a" 1); modified (ex_entry "b" 3); added (ex_entry "c" 4)] ∧
  exact_delta (effects (diff_entries [ex_entry "a" 1; ex_entry "b" 2]
                                     [ex_entry "b" 3; ex_entry "c" 4]))
    (entries_map [ex_entry "a" 1; ex_entry "b" 2])
    (entries_map [ex_entry "b" 3; ex_entry "c" 4]).
Proof.
  split; [vm_compute; reflexivity|].
  apply diff_entries_exact; apply strictly_ordered_ssorted; reflexivity.
Defined.

(** Two trees in one store. *)
Definition ex_root2 : RootNode * MemoryChunkStore :=
  Eval vm_compute in
    match update_tree 1700000000001 ex_root.1 ex_changed ex_deleted ex_root.2 with
    | (Ok r, s) => (r, s)
    | (Err _, s) => (ex_root.1, s)
    end.

Lemma ex_root2_built :
  update_tree 1700000000001 ex_root.1 ex_changed ex_deleted ex_root.2
    = (Ok ex_root2.1, ex_root2.2).
Proof. vm_compute. reflexivity. Qed.

Lemma ex_root2_repr :
  dirs_repr ex_root2.2 (rn_children ex_root.1) (entries_map ex_old) ∧
  dirs_repr ex_root2.2 (rn_children ex_root2.1) (entries_map ex_new).
Proof.
  destruct ex_root_repr as [Hs Hr].
  destruct (update_tree_spec ex_P ex_inj 1700000000001 ex_root.1 ex_changed ex_deleted ex_root.2
    (entries_map ex_old)) as (root & s' & Hrun & _ & Hle & Hr' & _);
    [done|apply ex_old_ok|done|rewrite <-ex_update; apply ex_new_ok|].
  rewrite ex_root2_built in Hrun. apply run_inj in Hrun as [<- <-].
  rewrite <-ex_update in Hr'. split; [|apply Hr'].
  destruct Hr as [[H1 H2 H3] _]. split; [done..|].
  intros p Hne b Hb. by apply Hle, (H3 p Hne).
Qed.

Lemma compute_deltas_exact_witness :
  ∃ ds, compute_deltas ex_root2.2 ex_root.1 ex_root2.1 = Ok ds ∧
        exact_delta (effects ds) (entries_map ex_old) (entries_map ex_new) ∧
        apply_deltas ds (entries_map ex_old) = entries_map ex_new.
Proof.
  apply (compute_deltas_exact ex_P).
  - exact ex_old_ok.
  - exact ex_new_ok.
  - apply ex_root2_repr.
  - apply ex_root2_repr.
  - intros E. exfalso.
    assert (beq (root_hash ex_root.1) (root_hash ex_root2.1) = true) as Hb
      by (rewrite E; apply bool_decide_eq_true_2; reflexivity).
    vm_compute in Hb. discriminate.
Defined.
