(* ===== verification/TreeV2Codec.v ===== *)
(** src/crates/sync-core/src/tree_v2.rs: the records of Tree v2, their
    validation and their canonical byte encodings (leaf [OVL2], internal
    [OVI2], stored root [OVR2]).

    A [Reader] is the unread suffix of its buffer. Allocation
    ([try_reserve_exact]) is taken to succeed. *)

From S2P Require Import Prelude Bytes Keyed Hash Chunk.
Local Open Scope N_scope.

Definition LEAF_MAGIC : bytes := str "OVL2".
Definition INTERNAL_MAGIC : bytes := str "OVI2".
Definition ROOT_MAGIC : bytes := str "OVR2".
Definition LEAF_HEADER_BYTES : N := 8.
Definition INTERNAL_HEADER_BYTES : N := 12.
Definition STORED_ROOT_HEADER_BYTES : N := 64.
Definition MAX_STORED_ROOT_BYTES : N := 16 * 1024.
Definition MAX_ROOT_ID_BYTES : N := 1024.
Definition TREE_VERSION : N := 2.
Definition MIN_LEAF_ENTRIES : N := 128.
Definition MAX_LEAF_ENTRIES : N := 1024.
Definition MIN_LEAF_BYTES : N := 32 * 1024.
Definition MAX_NODE_BYTES : N := 256 * 1024.
Definition MAX_PATH_BYTES : N := 4096.
Definition MAX_TREE_DEPTH : N := 16.
Definition MAX_VISITED_NODES : N := 1000000.
Definition MAX_LOADED_ENTRIES : N := 10000000.
Definition LEAF_ANCHOR_MASK : N := 0x7f.
Definition MIN_INTERNAL_CHILDREN : N := 32.
Definition MAX_INTERNAL_CHILDREN : N := 256.
Definition INTERNAL_ANCHOR_MASK : N := 0x1f.

Record RangeRef := {
  rr_min_path : bytes;
  rr_max_path : bytes;
  rr_hash : FileHash;
  rr_file_count : N;
  rr_serialized_bytes : N;
  rr_height : N;
}.
#[global] Instance RangeRef_eq_dec : EqDecision RangeRef.
Proof. solve_decision. Defined.

Record TreeV2Root := {
  tv_version : N;
  tv_total_files : N;
  tv_child : option RangeRef;
}.
#[global] Instance TreeV2Root_eq_dec : EqDecision TreeV2Root.
Proof. solve_decision. Defined.

Record RootNodeV2 := {
  r2_vault_id : bytes;
  r2_created_ms : N;
  r2_tree : TreeV2Root;
  r2_parent_hash : option FileHash;
  r2_device_id : bytes;
}.

Inductive V2Node :=
  | V2Leaf (entries : list FileEntry)
  | V2Internal (child_height : N) (children : list RangeRef).

Definition invalid (message : string) : ChunkError := Deserialize message.

(** * Validation *)

(** [validate_path]. *)
Definition validate_path (path : bytes) : result ChunkError unit :=
  if (len path =? 0) || (MAX_PATH_BYTES <? len path) || starts_with path (str "/")
  then Err (invalid "Tree v2 path length is invalid")
  else if contains_byte path "\"%byte
          || existsb (λ c, is_control c || (c =? 0x7f)) (chars path)
          || existsb (λ segment, beq segment [] || beq segment (str ".") || beq segment (str ".."))
               (split_byte path "/"%byte)
  then Err (invalid "unsafe Tree v2 vault-relative path")
  else Ok tt.

(** [validate_root_id]; the interpolated kind is kept in the message. *)
Definition validate_root_id (kind : string) (value : bytes) (allow_empty : bool)
    : result ChunkError unit :=
  if (negb allow_empty && (len value =? 0))
     || (MAX_ROOT_ID_BYTES <? len value)
     || existsb (λ c, is_control c || (c =? 0x7f)) (chars value)
  then Err (invalid ("Tree v2 " +:+ kind +:+ " id is invalid"))
  else Ok tt.

(** [validate_range]. *)
Definition validate_range (range : RangeRef) : result ChunkError unit :=
  let? _ := validate_path (rr_min_path range) in
  let? _ := validate_path (rr_max_path range) in
  if blt (rr_max_path range) (rr_min_path range)
     || (rr_file_count range =? 0)
     || (MAX_LOADED_ENTRIES <? rr_file_count range)
     || ((rr_height range =? 0) && (MAX_LEAF_ENTRIES <? rr_file_count range))
     || (rr_serialized_bytes range =? 0)
     || (MAX_NODE_BYTES <? rr_serialized_bytes range)
     || (MAX_TREE_DEPTH <? rr_height range)
  then Err (invalid "Tree v2 range descriptor is invalid")
  else Ok tt.

(** [for x in xs { f(x)? }]. *)
Fixpoint for_each {A} (f : A → result ChunkError unit) (l : list A) : result ChunkError unit :=
  match l with
  | [] => Ok tt
  | x :: l => let? _ := f x in for_each f l
  end.

(** [validate_entries]. *)
Definition validate_entries (entries : list FileEntry) : result ChunkError unit :=
  if MAX_LOADED_ENTRIES <? len entries
  then Err (invalid "Tree v2 exceeds the entry limit")
  else
    let? _ := for_each (λ e, validate_path (fe_path e)) entries in
    if negb (strictly_ordered fe_path entries)
    then Err (invalid "Tree v2 entries are not strictly ordered")
    else Ok tt.

(** [validate_ranges]. *)
Definition validate_ranges (ranges : list RangeRef) (expected_height : N)
    : result ChunkError unit :=
  let? _ :=
    for_each (λ r,
      if negb (rr_height r =? expected_height)
      then Err (invalid "Tree v2 range height is inconsistent")
      else validate_range r) ranges in
  if negb (windows2 (λ a b, blt (rr_max_path a) (rr_min_path b)
                             && blt (rr_max_path a) (rr_max_path b)) ranges)
  then Err (invalid "Tree v2 ranges overlap or are unordered")
  else Ok tt.

(** [validate_root_shape]. *)
Definition validate_root_shape (root : TreeV2Root) : result ChunkError unit :=
  if negb (tv_version root =? TREE_VERSION)
  then Err (invalid "unsupported Tree v2 root version")
  else
    match tv_child root with
    | None =>
        if tv_total_files root =? 0 then Ok tt
        else Err (invalid "Tree v2 root shape is inconsistent")
    | Some child =>
        if (0 <? tv_total_files root) && (rr_file_count child =? tv_total_files root)
           && (rr_height child <=? MAX_TREE_DEPTH)
        then validate_range child
        else Err (invalid "Tree v2 root shape is inconsistent")
    end.

Definition leaf_record_len (e : FileEntry) : N := 2 + len (fe_path e) + 32 + 8 + 8.
Definition range_record_len (r : RangeRef) : N :=
  2 + 2 + len (rr_min_path r) + len (rr_max_path r) + 32 + 8 + 4.

(** [iter().try_fold(init, checked_add)]. *)
Fixpoint try_sum (sum : N) (l : list N) : option N :=
  match l with
  | [] => Some sum
  | x :: l => match checked_add64 sum x with Some sum => try_sum sum l | None => None end
  end.

(** * Encoding *)

(** The bytes [encode_range_ref] appends. *)
Definition range_bytes (r : RangeRef) : bytes :=
  le_bytes 2 (len (rr_min_path r)) ++ le_bytes 2 (len (rr_max_path r))
  ++ rr_min_path r ++ rr_max_path r ++ rr_hash r
  ++ le_bytes 8 (rr_file_count r) ++ le_bytes 4 (rr_serialized_bytes r).

(** [encode_range_ref]: what it appends to the output. *)
Definition encode_range_ref (r : RangeRef) : result ChunkError bytes :=
  let? _ := validate_range r in
  let? _ := check (len (rr_min_path r) <=? U16_MAX) (invalid "Tree v2 minimum path is too long") in
  let? _ := check (len (rr_max_path r) <=? U16_MAX) (invalid "Tree v2 maximum path is too long") in
  Ok (range_bytes r).

Definition entry_bytes (e : FileEntry) : bytes :=
  le_bytes 2 (len (fe_path e)) ++ fe_path e ++ fe_hash e
  ++ le_bytes 8 (fe_mtime_ms e) ++ le_bytes 8 (fe_size_bytes e).

(** [encode_leaf]. *)
Definition encode_leaf (entries : list FileEntry) : result ChunkError bytes :=
  let? _ := validate_entries entries in
  if MAX_LEAF_ENTRIES <? len entries
  then Err (invalid "Tree v2 leaf exceeds the entry cap")
  else
    let? capacity := ok_or (try_sum LEAF_HEADER_BYTES (leaf_record_len <$> entries))
                       (invalid "Tree v2 leaf length overflow") in
    if MAX_NODE_BYTES <? capacity
    then Err (invalid "Tree v2 leaf exceeds the byte cap")
    else Ok (LEAF_MAGIC ++ le_bytes 4 (len entries) ++ concat (entry_bytes <$> entries)).

(** The loop [for child in children { encode_range_ref(child, &mut output)? }]. *)
Fixpoint encode_ranges (rs : list RangeRef) : result ChunkError bytes :=
  match rs with
  | [] => Ok []
  | r :: rs => let? a := encode_range_ref r in let? b := encode_ranges rs in Ok (a ++ b)
  end.

(** [encode_internal]. *)
Definition encode_internal (child_height : N) (children : list RangeRef)
    : result ChunkError bytes :=
  if (len children =? 0) || (MAX_INTERNAL_CHILDREN <? len children)
  then Err (invalid "Tree v2 internal child count is invalid")
  else
    let? _ := validate_ranges children child_height in
    let? capacity := ok_or (try_sum INTERNAL_HEADER_BYTES (range_record_len <$> children))
                       (invalid "Tree v2 internal length overflow") in
    if MAX_NODE_BYTES <? capacity
    then Err (invalid "Tree v2 internal node exceeds the byte cap")
    else
      let? body := encode_ranges children in
      Ok (INTERNAL_MAGIC ++ le_bytes 2 child_height ++ le_bytes 2 0
          ++ le_bytes 4 (len children) ++ body).

(** * Reading *)

Abbreviation Reader := bytes.

(** [Reader::take]. *)
Definition rd_take (length : N) : St Reader ChunkError bytes := λ r,
  if length <=? len r
  then (Ok (take (N.to_nat length) r), drop (N.to_nat length) r)
  else (Err (invalid "Tree v2 node is truncated"), r).

Definition rd_u8 : St Reader ChunkError N := let! b := rd_take 1 in st_ret (le_val b).
Definition rd_u16 : St Reader ChunkError N := let! b := rd_take 2 in st_ret (le_val b).
Definition rd_u32 : St Reader ChunkError N := let! b := rd_take 4 in st_ret (le_val b).
Definition rd_u64 : St Reader ChunkError N := let! b := rd_take 8 in st_ret (le_val b).

(** [Reader::finish]. *)
Definition rd_finish : St Reader ChunkError unit := λ r,
  match r with
  | [] => (Ok tt, r)
  | _ => (Err (invalid "Tree v2 node has trailing bytes"), r)
  end.

Definition rd_check (b : bool) (message : string) : St Reader ChunkError unit :=
  st_lift (check b (invalid message)).

(** [std::str::from_utf8(reader.take(n)?)]. *)
Definition rd_str (n : N) (message : string) : St Reader ChunkError bytes :=
  let! s := rd_take n in
  let! _ := rd_check (utf8 s) message in
  st_ret s.

(** [for _ in 0..n { v.push(p(reader)?) }]. *)
Fixpoint rd_repeat {A} (n : nat) (p : St Reader ChunkError A) : St Reader ChunkError (list A) :=
  match n with
  | O => st_ret []
  | S n => let! x := p in let! xs := rd_repeat n p in st_ret (x :: xs)
  end.

(** [decode_range_ref]. *)
Definition decode_range_ref (height : N) : St Reader ChunkError RangeRef :=
  let! min_len := rd_u16 in
  let! max_len := rd_u16 in
  let! _ := rd_check (negb ((min_len =? 0) || (MAX_PATH_BYTES <? min_len)
                            || (max_len =? 0) || (MAX_PATH_BYTES <? max_len)))
              "Tree v2 range path length is invalid" in
  let! min_path := rd_str min_len "Tree v2 minimum path is not UTF-8" in
  let! max_path := rd_str max_len "Tree v2 maximum path is not UTF-8" in
  let! hash := rd_take 32 in
  let! file_count := rd_u64 in
  let! serialized_bytes := rd_u32 in
  let range := {| rr_min_path := min_path; rr_max_path := max_path; rr_hash := hash;
                  rr_file_count := file_count; rr_serialized_bytes := serialized_bytes;
                  rr_height := height |} in
  let! _ := st_lift (validate_range range) in
  st_ret range.

(** The record loop of [decode_node] for leaves. *)
Definition decode_entry : St Reader ChunkError FileEntry :=
  let! path_len := rd_u16 in
  let! _ := rd_check (negb ((path_len =? 0) || (MAX_PATH_BYTES <? path_len)))
              "Tree v2 leaf path length is invalid" in
  let! path := rd_str path_len "Tree v2 leaf path is not UTF-8" in
  let! _ := st_lift (validate_path path) in
  let! hash := rd_take 32 in
  let! mtime_ms := rd_u64 in
  let! size_bytes := rd_u64 in
  st_ret (FileEntryNew path hash mtime_ms size_bytes).

Definition decode_leaf : St Reader ChunkError V2Node :=
  let! _ := rd_take 4 in
  let! count := rd_u32 in
  let! _ := rd_check (negb ((count =? 0) || (MAX_LEAF_ENTRIES <? count)))
              "Tree v2 leaf entry count is invalid" in
  let! entries := rd_repeat (N.to_nat count) decode_entry in
  let! _ := rd_finish in
  let! _ := st_lift (validate_entries entries) in
  st_ret (V2Leaf entries).

Definition decode_internal : St Reader ChunkError V2Node :=
  let! _ := rd_take 4 in
  let! child_height := rd_u16 in
  let! _ := rd_check (negb (MAX_TREE_DEPTH <=? child_height))
              "Tree v2 internal header is invalid" in
  let! reserved := rd_u16 in
  let! _ := rd_check (reserved =? 0) "Tree v2 internal header is invalid" in
  let! count := rd_u32 in
  let! _ := rd_check (negb ((count =? 0) || (MAX_INTERNAL_CHILDREN <? count)))
              "Tree v2 internal child count is invalid" in
  let! children := rd_repeat (N.to_nat count) (decode_range_ref child_height) in
  let! _ := rd_finish in
  let! _ := st_lift (validate_ranges children child_height) in
  st_ret (V2Internal child_height children).

(** [decode_node]. *)
Definition decode_node (b : bytes) : result ChunkError V2Node :=
  if (MAX_NODE_BYTES <? len b) || (len b <? LEAF_HEADER_BYTES)
  then Err (invalid "Tree v2 node length is invalid")
  else if beq (take 4 b) LEAF_MAGIC then (decode_leaf b).1
  else if beq (take 4 b) INTERNAL_MAGIC then
    if len b <? INTERNAL_HEADER_BYTES
    then Err (invalid "Tree v2 internal header is truncated")
    else (decode_internal b).1
  else Err (invalid "unknown Tree v2 node magic").

(** * Roots *)
Section roots.
Context {B3 : Blake3}.

(** [TreeV2Root::hash]. The source panics on a descriptor that does not
    validate; its callers have validated the root before. *)
Definition tv_hash (root : TreeV2Root) : FileHash :=
  hash_bytes (ROOT_MAGIC ++ le_bytes 4 (tv_version root) ++ le_bytes 8 (tv_total_files root)
    ++ match tv_child root with
       | Some child => [x01] ++ le_bytes 2 (rr_height child) ++ range_bytes child
       | None => [x00]
       end).

(** [TreeV2Root::height]. *)
Definition tv_height (root : TreeV2Root) : N :=
  match tv_child root with Some child => rr_height child | None => 0 end.

Definition r2_hash (r : RootNodeV2) : FileHash := tv_hash (r2_tree r).
Definition r2_total_files (r : RootNodeV2) : N := tv_total_files (r2_tree r).

(** [RootNodeV2::validate]. *)
Definition r2_validate (r : RootNodeV2) : result ChunkError unit :=
  let? _ := validate_root_shape (r2_tree r) in
  let? _ := validate_root_id "vault" (r2_vault_id r) false in
  validate_root_id "device" (r2_device_id r) true.

(** [RootNodeV2::new]. *)
Definition r2_new (vault_id device_id : bytes) (tree : TreeV2Root)
    : result ChunkError RootNodeV2 :=
  let root := {| r2_vault_id := vault_id; r2_created_ms := 0; r2_tree := tree;
                 r2_parent_hash := None; r2_device_id := device_id |} in
  let? _ := r2_validate root in
  Ok root.

(** [replacement_root_serialized_length]. *)
Definition replacement_root_serialized_length (vault_id device_id : bytes)
    (child_paths : option (bytes * bytes)) : result ChunkError N :=
  let? _ := validate_root_id "vault" vault_id false in
  let? _ := validate_root_id "device" device_id true in
  let? capacity := ok_or (try_sum STORED_ROOT_HEADER_BYTES [len vault_id; len device_id])
                     (invalid "Tree v2 stored root length overflow") in
  let? capacity :=
    match child_paths with
    | Some (min_path, max_path) =>
        let? _ := validate_path min_path in
        let? _ := validate_path max_path in
        if blt max_path min_path then Err (invalid "Tree v2 root range is inverted")
        else ok_or (try_sum capacity [2 + 48; len min_path; len max_path])
               (invalid "Tree v2 stored root length overflow")
    | None => Ok capacity
    end in
  if MAX_STORED_ROOT_BYTES <? capacity
  then Err (invalid "Tree v2 stored root exceeds the byte cap")
  else Ok capacity.

(** [RootNodeV2::serialized_length]. *)
Definition r2_serialized_length (r : RootNodeV2) : result ChunkError N :=
  let? _ := r2_validate r in
  let? capacity := replacement_root_serialized_length (r2_vault_id r) (r2_device_id r)
    ((λ c, (rr_min_path c, rr_max_path c)) <$> tv_child (r2_tree r)) in
  let? capacity :=
    match r2_parent_hash r with
    | Some _ => ok_or (checked_add64 capacity 32) (invalid "Tree v2 stored root length overflow")
    | None => Ok capacity
    end in
  if MAX_STORED_ROOT_BYTES <? capacity
  then Err (invalid "Tree v2 stored root exceeds the byte cap")
  else Ok capacity.

Definition root_flags (r : RootNodeV2) : N :=
  N.lor (if r2_parent_hash r then 1 else 0) (if tv_child (r2_tree r) then 2 else 0).

(** [RootNodeV2::serialize]. *)
Definition r2_serialize (r : RootNodeV2) : result ChunkError bytes :=
  let? _ := r2_serialized_length r in
  let? _ := check (len (r2_vault_id r) <=? U16_MAX) (invalid "Tree v2 vault id is too long") in
  let? _ := check (len (r2_device_id r) <=? U16_MAX) (invalid "Tree v2 device id is too long") in
  let? child :=
    match tv_child (r2_tree r) with
    | Some child => let? b := encode_range_ref child in Ok (le_bytes 2 (rr_height child) ++ b)
    | None => Ok []
    end in
  Ok (ROOT_MAGIC ++ le_bytes 4 TREE_VERSION ++ le_bytes 8 (r2_created_ms r)
      ++ le_bytes 8 (r2_total_files r)
      ++ le_bytes 2 (len (r2_vault_id r)) ++ le_bytes 2 (len (r2_device_id r))
      ++ [n2b (root_flags r)] ++ [x00; x00; x00] ++ r2_hash r
      ++ match r2_parent_hash r with Some h => h | None => [] end
      ++ child ++ r2_vault_id r ++ r2_device_id r).

(** The field reads of [RootNodeV2::deserialize], with the declared hash. *)
Definition decode_root : St Reader ChunkError (RootNodeV2 * FileHash) :=
  let! magic := rd_take 4 in
  let! _ := rd_check (beq magic ROOT_MAGIC) "unknown Tree v2 root magic" in
  let! version := rd_u32 in
  let! _ := rd_check (version =? TREE_VERSION) "unsupported Tree v2 root version" in
  let! created_ms := rd_u64 in
  let! total_files := rd_u64 in
  let! vault_len := rd_u16 in
  let! device_len := rd_u16 in
  let! flags := rd_u8 in
  let! _ := rd_check (N.ldiff flags 3 =? 0) "Tree v2 stored root flags are invalid" in
  let! reserved := rd_take 3 in
  let! _ := rd_check (beq reserved [x00; x00; x00]) "Tree v2 stored root flags are invalid" in
  let! declared_hash := rd_take 32 in
  let! parent_hash :=
    (if N.testbit flags 0 then let! h := rd_take 32 in st_ret (Some h) else st_ret None) in
  let! child :=
    (if N.testbit flags 1 then
       let! height := rd_u16 in let! c := decode_range_ref height in st_ret (Some c)
     else st_ret None) in
  let! _ := rd_check (negb ((vault_len =? 0) || (MAX_ROOT_ID_BYTES <? vault_len)
                            || (MAX_ROOT_ID_BYTES <? device_len)))
              "Tree v2 root identifier length is invalid" in
  let! vault_id := rd_str vault_len "Tree v2 vault id is not UTF-8" in
  let! device_id := rd_str device_len "Tree v2 device id is not UTF-8" in
  let! _ := rd_finish in
  st_ret ({| r2_vault_id := vault_id; r2_created_ms := created_ms;
             r2_tree := {| tv_version := TREE_VERSION; tv_total_files := total_files;
                           tv_child := child |};
             r2_parent_hash := parent_hash; r2_device_id := device_id |}, declared_hash).

(** [RootNodeV2::deserialize]. *)
Definition r2_deserialize (b : bytes) : result ChunkError RootNodeV2 :=
  if (len b <? STORED_ROOT_HEADER_BYTES) || (MAX_STORED_ROOT_BYTES <? len b)
  then Err (invalid "Tree v2 stored root length is invalid")
  else
    let? ' (root, declared_hash) := (decode_root b).1 in
    let? _ := r2_validate root in
    if negb (beq (r2_hash root) declared_hash)
    then Err (invalid "Tree v2 declared root hash is invalid")
    else Ok root.
End roots.
