(* ===== verification/TreeV2CodecProps.v ===== *)
(** The Tree v2 codecs of src/crates/sync-core/src/tree_v2.rs are canonical:
    decoding inverts encoding, and a byte string that decodes is the encoding
    of what it decodes to. *)

From S2P Require Import Prelude Bytes Keyed Hash Chunk TreeV2Codec.
Local Open Scope N_scope.

(** * Readers that consume exactly a byte string *)

Definition reads {A} (p : St Reader ChunkError A) (x : A) (b : bytes) : Prop :=
  ∀ rest, p (b ++ rest) = (Ok x, rest).

Lemma reads_ret {A} (x : A) : reads (st_ret x) x [].
Proof. done. Qed.

Lemma reads_bind {A B} (p : St Reader ChunkError A) (k : A → St Reader ChunkError B) x y a b :
  reads p x a → reads (k x) y b → reads (st_bind p k) y (a ++ b).
Proof.
  intros Hp Hk rest. rewrite <-app_assoc. erewrite st_bind_run by apply Hp. apply Hk.
Qed.

(** Steps that read nothing. *)
Lemma reads_pure {A B} (p : St Reader ChunkError A) (k : A → St Reader ChunkError B) x y b :
  reads p x [] → reads (k x) y b → reads (st_bind p k) y b.
Proof. intros Hp Hk. by apply (reads_bind p k x y [] b). Qed.

Lemma reads_lift {A} (m : result ChunkError A) x : m = Ok x → reads (st_lift m) x [].
Proof. by intros -> rest. Qed.

Lemma reads_check b msg : b = true → reads (rd_check b msg) tt [].
Proof. intros ->. by apply reads_lift. Qed.

Lemma reads_take n b : len b = n → reads (rd_take n) b b.
Proof.
  intros Hn rest. unfold rd_take. rewrite len_app, Hn, (proj2 (N.leb_le _ _)) by lia.
  apply len_length in Hn. rewrite <-Hn. by rewrite take_app_length, drop_app_length.
Qed.

Lemma reads_le n w x :
  w = N.of_nat n → x < 256 ^ w → reads (let! b := rd_take w in st_ret (le_val b)) x (le_bytes n x).
Proof.
  intros -> Hx. rewrite <-(app_nil_r (le_bytes n x)).
  eapply reads_bind; [apply reads_take, len_le_bytes|].
  rewrite le_val_le_bytes by done. apply reads_ret.
Qed.

Lemma reads_u16 x : x ≤ U16_MAX → reads rd_u16 x (le_bytes 2 x).
Proof. intros. apply reads_le; [done|]. unfold U16_MAX in *. simpl. lia. Qed.
Lemma reads_u32 x : x ≤ U32_MAX → reads rd_u32 x (le_bytes 4 x).
Proof. intros. apply reads_le; [done|]. unfold U32_MAX in *. simpl. lia. Qed.
Lemma reads_u64 x : x ≤ U64_MAX → reads rd_u64 x (le_bytes 8 x).
Proof. intros. apply reads_le; [done|]. unfold U64_MAX in *. simpl. lia. Qed.

Lemma reads_str n s msg : len s = n → utf8 s = true → reads (rd_str n msg) s s.
Proof.
  intros Hn Hu. rewrite <-(app_nil_r s) at 2. eapply reads_bind; [by apply reads_take|].
  eapply reads_pure; [by apply reads_check|]. apply reads_ret.
Qed.

Lemma reads_repeat {A} (p : St Reader ChunkError A) (enc : A → bytes) xs :
  Forall (λ x, reads p x (enc x)) xs →
  reads (rd_repeat (length xs) p) xs (concat (enc <$> xs)).
Proof.
  induction 1 as [|x xs Hx Hxs IH]; [apply reads_ret|]. csimpl.
  eapply reads_bind; [done|]. rewrite <-(app_nil_r (concat _)).
  eapply reads_bind; [done|]. apply reads_ret.
Qed.

(** Readers that consume the whole buffer. *)
Definition runs {A} (p : St Reader ChunkError A) (x : A) (b : bytes) : Prop := p b = (Ok x, []).

Lemma runs_bind {A B} (p : St Reader ChunkError A) (k : A → St Reader ChunkError B) x y a b :
  reads p x a → runs (k x) y b → runs (st_bind p k) y (a ++ b).
Proof. intros Hp Hk. unfold runs. by erewrite st_bind_run by apply Hp. Qed.

Lemma runs_pure {A B} (p : St Reader ChunkError A) (k : A → St Reader ChunkError B) x y b :
  reads p x [] → runs (k x) y b → runs (st_bind p k) y b.
Proof. intros Hp Hk. by apply (runs_bind p k x y [] b). Qed.

Lemma runs_last {A B} (p : St Reader ChunkError A) (k : A → St Reader ChunkError B) x y a :
  reads p x a → runs (k x) y [] → runs (st_bind p k) y a.
Proof. intros Hp Hk. rewrite <-(app_nil_r a). by eapply runs_bind. Qed.

Lemma runs_finish {B} (k : unit → St Reader ChunkError B) y :
  runs (k tt) y [] → runs (st_bind rd_finish k) y [].
Proof. done. Qed.

(** * Inversion of successful reads *)

Lemma rd_take_inv n b x rest :
  rd_take n b = (Ok x, rest) → b = x ++ rest ∧ len x = n.
Proof.
  unfold rd_take. destruct (N.leb_spec n (len b)); [|done].
  intros [= <- <-]. rewrite take_drop. split; [done|].
  unfold len in *. rewrite length_take. lia.
Qed.

Lemma rd_le_inv n w b x rest :
  w = N.of_nat n → (let! b := rd_take w in st_ret (le_val b)) b = (Ok x, rest) →
  b = le_bytes n x ++ rest ∧ x < 256 ^ w.
Proof.
  intros ->. intros (y & s1 & Hy & [= <- <-])%st_bind_Ok.
  apply rd_take_inv in Hy as [-> Hl]. rewrite le_bytes_le_val by (apply len_length in Hl; lia).
  split; [done|]. rewrite <-Hl. apply le_val_bound.
Qed.

Lemma rd_u8_inv b x rest : rd_u8 b = (Ok x, rest) → b = le_bytes 1 x ++ rest ∧ x ≤ U8_MAX.
Proof. intros [-> H]%(rd_le_inv 1); [|done]. split; [done|]. unfold U8_MAX. simpl in H. lia. Qed.
Lemma rd_u16_inv b x rest : rd_u16 b = (Ok x, rest) → b = le_bytes 2 x ++ rest ∧ x ≤ U16_MAX.
Proof. intros [-> H]%(rd_le_inv 2); [|done]. split; [done|]. unfold U16_MAX. simpl in H. lia. Qed.
Lemma rd_u32_inv b x rest : rd_u32 b = (Ok x, rest) → b = le_bytes 4 x ++ rest ∧ x ≤ U32_MAX.
Proof. intros [-> H]%(rd_le_inv 4); [|done]. split; [done|]. unfold U32_MAX. simpl in H. lia. Qed.
Lemma rd_u64_inv b x rest : rd_u64 b = (Ok x, rest) → b = le_bytes 8 x ++ rest ∧ x ≤ U64_MAX.
Proof. intros [-> H]%(rd_le_inv 8); [|done]. split; [done|]. unfold U64_MAX. simpl in H. lia. Qed.

Lemma rd_check_inv c msg b u rest : rd_check c msg b = (Ok u, rest) → c = true ∧ rest = b.
Proof. unfold rd_check, st_lift, check. by destruct c; [intros [= _ <-]|]. Qed.

Lemma st_lift_inv {A} (m : result ChunkError A) (b : Reader) x rest :
  st_lift m b = (Ok x, rest) → m = Ok x ∧ rest = b.
Proof. by intros [= -> <-]. Qed.

Lemma rd_finish_inv b u rest : rd_finish b = (Ok u, rest) → b = [] ∧ rest = [].
Proof. unfold rd_finish. by destruct b; [intros [= _ <-]|]. Qed.

Lemma rd_str_inv n msg b s rest :
  rd_str n msg b = (Ok s, rest) → b = s ++ rest ∧ len s = n ∧ utf8 s = true.
Proof.
  intros (x & s1 & [-> Hl]%rd_take_inv & H)%st_bind_Ok.
  apply st_bind_Ok in H as (u & s2 & [Hc ->]%rd_check_inv & [= <- <-]). done.
Qed.

Lemma rd_repeat_inv {A} (p : St Reader ChunkError A) (enc : A → bytes) (P : A → Prop) n b xs rest :
  (∀ b x rest, p b = (Ok x, rest) → b = enc x ++ rest ∧ P x) →
  rd_repeat n p b = (Ok xs, rest) →
  b = concat (enc <$> xs) ++ rest ∧ Forall P xs ∧ length xs = n.
Proof.
  intros Hp. revert b xs rest. induction n as [|n IH]; intros b xs rest; cbn [rd_repeat].
  { intros [= <- <-]. split_and!; [done|constructor|done]. }
  intros (x & s1 & [-> Hx]%Hp & H)%st_bind_Ok.
  apply st_bind_Ok in H as (ys & s2 & (-> & Hys & Hl)%IH & [= <- <-]).
  csimpl. rewrite <-app_assoc. split_and!; [done|by constructor|by rewrite Hl].
Qed.

(** Take a successful sequence of reads apart. *)
Ltac inv_reads H :=
  repeat match type of H with
  | st_bind _ _ _ = (Ok _, _) =>
      let x := fresh "x" in let s := fresh "s" in let E := fresh "E" in
      apply st_bind_Ok in H as (x & s & E & H); cbv beta in H;
      lazymatch type of E with
      | rd_take _ _ = _ => apply rd_take_inv in E as [? ?]
      | rd_u8 _ = _ => apply rd_u8_inv in E as [? ?]
      | rd_u16 _ = _ => apply rd_u16_inv in E as [? ?]
      | rd_u32 _ = _ => apply rd_u32_inv in E as [? ?]
      | rd_u64 _ = _ => apply rd_u64_inv in E as [? ?]
      | rd_str _ _ _ = _ => apply rd_str_inv in E as (? & ? & ?)
      | rd_check _ _ _ = _ => apply rd_check_inv in E as [? ?]
      | st_lift _ _ = _ => apply st_lift_inv in E as [? ?]
      | rd_finish _ = _ => apply rd_finish_inv in E as [? ?]
      | _ => idtac
      end
  end.

(** * What validation gives *)

(** What the Rust field types guarantee of a descriptor and of a root. *)
Definition range_typed (r : RangeRef) : bool :=
  utf8 (rr_min_path r) && utf8 (rr_max_path r) && (len (rr_hash r) =? 32)
  && (rr_file_count r <=? U64_MAX) && (rr_serialized_bytes r <=? U32_MAX)
  && (rr_height r <=? U16_MAX).

Definition root_typed (r : RootNodeV2) : bool :=
  utf8 (r2_vault_id r) && utf8 (r2_device_id r) && (r2_created_ms r <=? U64_MAX)
  && (r2_total_files r <=? U64_MAX)
  && match r2_parent_hash r with Some h => len h =? 32 | None => true end
  && match tv_child (r2_tree r) with Some c => range_typed c | None => true end.

Lemma validate_path_len p u : validate_path p = Ok u → 0 < len p ∧ len p ≤ MAX_PATH_BYTES.
Proof.
  unfold validate_path. destruct (_ || _ || starts_with _ _) eqn:E; [done|]. intros _.
  bool_to_prop. lia.
Qed.

Lemma for_each_ok {A} (f : A → result ChunkError unit) l u :
  for_each f l = Ok u ↔ Forall (λ x, f x = Ok tt) l.
Proof.
  destruct u. induction l as [|x l IH]; cbn [for_each]; [split; [constructor|done]|].
  rewrite Forall_cons. destruct (f x) as [[]|]; naive_solver.
Qed.

(** The conditions of [validate_range]. *)
Record range_valid (r : RangeRef) : Prop := {
  rv_min : validate_path (rr_min_path r) = Ok tt;
  rv_max : validate_path (rr_max_path r) = Ok tt;
  rv_order : ¬ rr_max_path r ≺ rr_min_path r;
  rv_count : 0 < rr_file_count r ≤ MAX_LOADED_ENTRIES;
  rv_leaf_count : rr_height r = 0 → rr_file_count r ≤ MAX_LEAF_ENTRIES;
  rv_bytes : 0 < rr_serialized_bytes r ≤ MAX_NODE_BYTES;
  rv_height : rr_height r ≤ MAX_TREE_DEPTH;
}.

Lemma validate_range_ok r u : validate_range r = Ok u ↔ range_valid r.
Proof.
  destruct u. unfold validate_range. split.
  - destruct (validate_path (rr_min_path r)) as [[]|] eqn:E1; [|done].
    destruct (validate_path (rr_max_path r)) as [[]|] eqn:E2; [|done].
    destruct (_ || _) eqn:E; [done|]. intros _. bool_to_prop. split; try done; try lia.
    + intros Hlt%blt_true. congruence.
    + intros Hh. destruct (N.ltb_spec MAX_LEAF_ENTRIES (rr_file_count r)); [|done].
      rewrite (proj2 (N.eqb_eq _ _) Hh) in *. done.
  - intros [E1 E2 Ho [Hc1 Hc2] Hl [Hb1 Hb2] Hh]. rewrite E1, E2.
    destruct (_ || _) eqn:E; [|done]. exfalso.
    rewrite !orb_true_iff, andb_true_iff in E.
    rewrite !N.eqb_eq, !N.ltb_lt, blt_true in E. naive_solver lia.
Qed.

Lemma validate_entries_ok es u :
  validate_entries es = Ok u ↔
    len es ≤ MAX_LOADED_ENTRIES ∧ Forall (λ e, validate_path (fe_path e) = Ok tt) es
    ∧ ssorted fe_path es.
Proof.
  destruct u. unfold validate_entries. rewrite <-strictly_ordered_ssorted.
  destruct (N.ltb_spec MAX_LOADED_ENTRIES (len es)); [split; [done|lia]|].
  rewrite <-(for_each_ok (λ e, validate_path (fe_path e)) es tt).
  destruct (for_each _ es) as [[]|]; [|naive_solver].
  destruct (strictly_ordered fe_path es); naive_solver.
Qed.

(** Consecutive ranges neither overlap nor come out of order. *)
Definition range_lt (a b : RangeRef) : Prop :=
  rr_max_path a ≺ rr_min_path b ∧ rr_max_path a ≺ rr_max_path b.

Lemma validate_ranges_ok rs h u :
  validate_ranges rs h = Ok u ↔
    Forall (λ r, rr_height r = h ∧ range_valid r) rs ∧ Sorted range_lt rs.
Proof.
  destruct u. unfold validate_ranges.
  rewrite <-(windows2_Sorted range_lt (λ a b, blt (rr_max_path a) (rr_min_path b)
                             && blt (rr_max_path a) (rr_max_path b))).
  2:{ intros a b. rewrite andb_true_iff, !blt_true. done. }
  set (f := λ r : RangeRef, _).
  assert (Forall (λ r, f r = Ok tt) rs ↔ Forall (λ r, rr_height r = h ∧ range_valid r) rs) as Hf.
  { apply Forall_iff. intros r. unfold f. rewrite <-(validate_range_ok r tt).
    destruct (N.eqb_spec (rr_height r) h); naive_solver. }
  rewrite <-Hf, <-(for_each_ok f rs tt).
  destruct (for_each f rs) as [[]|]; [|naive_solver].
  destruct (windows2 _ rs); naive_solver.
Qed.

Lemma try_sum_ok acc l s : try_sum acc l = Some s → s = acc + foldr N.add 0 l.
Proof.
  revert acc. induction l as [|x l IH]; intros acc; cbn [try_sum foldr].
  { intros [= <-]. lia. }
  unfold checked_add64. destruct (acc + x <=? U64_MAX); [|done]. intros ->%IH. lia.
Qed.

Lemma try_sum_Some acc l : acc + foldr N.add 0 l ≤ U64_MAX → try_sum acc l = Some (acc + foldr N.add 0 l).
Proof.
  revert acc. induction l as [|x l IH]; intros acc Hl; cbn [try_sum foldr] in *.
  { f_equal. lia. }
  unfold checked_add64. rewrite (proj2 (N.leb_le _ _)) by lia. rewrite IH by lia. f_equal. lia.
Qed.

(** * Records *)

Lemma decode_entry_reads e :
  entry_ok e = true → validate_path (fe_path e) = Ok tt →
  reads decode_entry e (entry_bytes e).
Proof.
  intros He Hv. pose proof (validate_path_len _ _ Hv) as [H1 H2]. unfold entry_ok in He.
  bool_to_prop. unfold decode_entry, entry_bytes.
  eapply reads_bind; [apply reads_u16; unfold MAX_PATH_BYTES, U16_MAX in *; lia|]. cbv beta.
  eapply reads_pure.
  { apply reads_check. apply negb_true_iff, orb_false_iff.
    split; [apply N.eqb_neq|apply N.ltb_ge]; lia. }
  eapply reads_bind; [by apply reads_str|]. cbv beta.
  eapply reads_pure; [by apply reads_lift|].
  eapply reads_bind; [by apply reads_take|]. cbv beta.
  eapply reads_bind; [by apply reads_u64, N.leb_le|]. cbv beta.
  rewrite <-(app_nil_r (le_bytes 8 (fe_size_bytes e))).
  eapply reads_bind; [by apply reads_u64, N.leb_le|]. cbv beta. destruct e. apply reads_ret.
Qed.

Lemma decode_entry_inv b e rest :
  decode_entry b = (Ok e, rest) →
  b = entry_bytes e ++ rest ∧ entry_ok e = true ∧ validate_path (fe_path e) = Ok tt.
Proof.
  unfold decode_entry. intros H. inv_reads H. injection H as <- <-. subst.
  unfold entry_bytes, entry_ok. cbn [fe_path fe_hash fe_mtime_ms fe_size_bytes].
  repeat match goal with u : unit |- _ => destruct u end.
  split_and!; [|bool_to_prop|done].
  - by rewrite <-!app_assoc.
  - unfold u64_ok. repeat (apply andb_true_intro; split); try done.
    + by apply N.eqb_eq.
    + by apply N.leb_le.
    + by apply N.leb_le.
Qed.

Lemma decode_range_ref_reads r :
  range_typed r = true → range_valid r → reads (decode_range_ref (rr_height r)) r (range_bytes r).
Proof.
  intros Ht Hv. pose proof (validate_path_len _ _ (rv_min _ Hv)) as [H1 H2].
  pose proof (validate_path_len _ _ (rv_max _ Hv)) as [H3 H4].
  unfold range_typed in Ht. bool_to_prop. unfold decode_range_ref, range_bytes.
  eapply reads_bind; [apply reads_u16; unfold MAX_PATH_BYTES, U16_MAX in *; lia|]. cbv beta.
  eapply reads_bind; [apply reads_u16; unfold MAX_PATH_BYTES, U16_MAX in *; lia|]. cbv beta.
  eapply reads_pure.
  { apply reads_check. apply negb_true_iff. rewrite !orb_false_iff.
    rewrite !N.eqb_neq, !N.ltb_ge. lia. }
  eapply reads_bind; [by apply reads_str|]. cbv beta.
  eapply reads_bind; [by apply reads_str|]. cbv beta.
  eapply reads_bind; [by apply reads_take|]. cbv beta.
  eapply reads_bind; [by apply reads_u64|]. cbv beta.
  rewrite <-(app_nil_r (le_bytes 4 _)).
  eapply reads_bind; [by apply reads_u32|]. cbv beta.
  eapply (reads_pure _ _ tt); [|destruct r; apply reads_ret].
  apply reads_lift, validate_range_ok. by destruct r.
Qed.

Lemma decode_range_ref_inv h b r rest :
  h ≤ U16_MAX → decode_range_ref h b = (Ok r, rest) →
  b = range_bytes r ++ rest ∧ range_typed r = true ∧ range_valid r ∧ rr_height r = h.
Proof.
  intros Hh. unfold decode_range_ref. intros H. inv_reads H. injection H as <- <-. subst.
  repeat match goal with u : unit |- _ => destruct u end.
  match goal with H : validate_range ?r = Ok _ |- _ =>
    apply validate_range_ok in H; set (range := r) in * end.
  split_and!; [unfold range, range_bytes; simpl; by rewrite <-!app_assoc| |done|done].
  unfold range_typed, range. cbn. repeat (apply andb_true_intro; split); try done.
  - by apply N.eqb_eq.
  - by apply N.leb_le.
  - by apply N.leb_le.
  - by apply N.leb_le.
Qed.

(** * Nodes *)

Lemma encode_ranges_ok rs b :
  encode_ranges rs = Ok b ↔ Forall range_valid rs ∧ b = concat (range_bytes <$> rs).
Proof.
  revert b. induction rs as [|r rs IH]; intros b; cbn [encode_ranges].
  { split; [intros [= <-]; by split|by intros [_ ->]]. }
  unfold encode_range_ref. csimpl. rewrite Forall_cons. split.
  - destruct (validate_range r) as [u|] eqn:Ev; [|done].
    apply validate_range_ok in Ev. unfold check.
    destruct (len (rr_min_path r) <=? U16_MAX); [|done].
    destruct (len (rr_max_path r) <=? U16_MAX); [|done].
    destruct (encode_ranges rs) as [b'|]; [|done]. intros [= <-].
    destruct (proj1 (IH b') eq_refl) as [? ->]. done.
  - intros [[Hr Hrs] ->]. pose proof (validate_path_len _ _ (rv_min _ Hr)) as [_ H2].
    pose proof (validate_path_len _ _ (rv_max _ Hr)) as [_ H4].
    rewrite (proj2 (validate_range_ok r tt) Hr). unfold check, MAX_PATH_BYTES, U16_MAX in *.
    rewrite !(proj2 (N.leb_le _ _)) by lia. by rewrite (proj2 (IH _) (conj Hrs eq_refl)).
Qed.

Lemma len_entry_bytes e : len (fe_hash e) = 32 → len (entry_bytes e) = leaf_record_len e.
Proof.
  intros Hh. unfold entry_bytes, leaf_record_len. rewrite !len_app, !len_le_bytes. lia.
Qed.
Lemma len_range_bytes r : len (rr_hash r) = 32 → len (range_bytes r) = range_record_len r.
Proof.
  intros Hh. unfold range_bytes, range_record_len. rewrite !len_app, !len_le_bytes. lia.
Qed.
Lemma len_concat_fmap {A} (f : A → bytes) (g : A → N) l :
  Forall (λ x, len (f x) = g x) l → len (concat (f <$> l)) = foldr N.add 0 (g <$> l).
Proof. induction 1 as [|x l Hx Hl IH]; [done|]. csimpl. by rewrite len_app, Hx, IH. Qed.

Lemma entries_bytes_len es :
  forallb entry_ok es = true →
  len (concat (entry_bytes <$> es)) = foldr N.add 0 (leaf_record_len <$> es).
Proof.
  intros Hok. apply len_concat_fmap, Forall_forall. intros e He%list_elem_of_In.
  apply len_entry_bytes. rewrite forallb_forall in Hok. apply Hok in He.
  unfold entry_ok in He. by bool_to_prop.
Qed.

Lemma ranges_bytes_len rs :
  forallb range_typed rs = true →
  len (concat (range_bytes <$> rs)) = foldr N.add 0 (range_record_len <$> rs).
Proof.
  intros Hok. apply len_concat_fmap, Forall_forall. intros e He%list_elem_of_In.
  apply len_range_bytes. rewrite forallb_forall in Hok. apply Hok in He.
  unfold range_typed in He. by bool_to_prop.
Qed.

(** When [encode_leaf] succeeds, and what it returns. *)
Lemma encode_leaf_ok es b :
  encode_leaf es = Ok b ↔
    validate_entries es = Ok tt ∧ len es ≤ MAX_LEAF_ENTRIES ∧
    LEAF_HEADER_BYTES + foldr N.add 0 (leaf_record_len <$> es) ≤ MAX_NODE_BYTES ∧
    b = LEAF_MAGIC ++ le_bytes 4 (len es) ++ concat (entry_bytes <$> es).
Proof.
  unfold encode_leaf. destruct (validate_entries es) as [[]|]; [|naive_solver].
  destruct (N.ltb_spec MAX_LEAF_ENTRIES (len es)); [split; [done|lia]|].
  split.
  - destruct (try_sum _ _) as [c|] eqn:Ec; [|done]. apply try_sum_ok in Ec. simpl.
    destruct (N.ltb_spec MAX_NODE_BYTES c); [done|]. intros [= <-]. subst c. done.
  - intros (_ & _ & Hc & ->). rewrite try_sum_Some; simpl.
    + by rewrite (proj2 (N.ltb_ge _ _)).
    + unfold MAX_NODE_BYTES, U64_MAX in *. lia.
Qed.

Lemma encode_internal_ok h cs b :
  encode_internal h cs = Ok b ↔
    0 < len cs ≤ MAX_INTERNAL_CHILDREN ∧ validate_ranges cs h = Ok tt ∧
    INTERNAL_HEADER_BYTES + foldr N.add 0 (range_record_len <$> cs) ≤ MAX_NODE_BYTES ∧
    b = INTERNAL_MAGIC ++ le_bytes 2 h ++ le_bytes 2 0 ++ le_bytes 4 (len cs)
        ++ concat (range_bytes <$> cs).
Proof.
  unfold encode_internal.
  destruct (N.eqb_spec (len cs) 0); [split; [done|lia]|].
  destruct (N.ltb_spec MAX_INTERNAL_CHILDREN (len cs)); [split; [done|lia]|]. cbn [orb].
  destruct (validate_ranges cs h) as [[]|] eqn:Ev; [|naive_solver].
  apply validate_ranges_ok in Ev as [Hv _].
  assert (encode_ranges cs = Ok (concat (range_bytes <$> cs))) as ->.
  { apply encode_ranges_ok. split; [|done]. eapply Forall_impl; [exact Hv|]. by intros ? [_ ?]. }
  split.
  - destruct (try_sum _ _) as [c|] eqn:Ec; [|done]. apply try_sum_ok in Ec. simpl.
    destruct (N.ltb_spec MAX_NODE_BYTES c); [done|]. intros [= <-]. subst c.
    split_and!; [lia..|done|done|done].
  - intros (_ & _ & Hc & ->). rewrite try_sum_Some; cbn [ok_or].
    + by rewrite (proj2 (N.ltb_ge _ _)).
    + unfold MAX_NODE_BYTES, U64_MAX in *. lia.
Qed.

Lemma leaf_header_split (magic a b : bytes) : length magic = 4%nat → take 4 (magic ++ a ++ b) = magic.
Proof. intros E. rewrite <-E. apply take_app_length. Qed.

Lemma decode_leaf_node es b :
  forallb entry_ok es = true → es ≠ [] → encode_leaf es = Ok b → decode_node b = Ok (V2Leaf es).
Proof.
  intros Hok Hne (Hv & Hc & Hb & ->)%encode_leaf_ok. unfold decode_node.
  pose proof Hv as (_ & Hp & _)%validate_entries_ok.
  rewrite !len_app, len_le_bytes, entries_bytes_len by done.
  change (len LEAF_MAGIC) with 4. unfold LEAF_HEADER_BYTES in *.
  rewrite (proj2 (N.ltb_ge _ _)) by lia. rewrite (proj2 (N.ltb_ge _ _)) by lia. cbn [orb].
  rewrite leaf_header_split, beq_refl by done.
  assert (runs decode_leaf (V2Leaf es) (LEAF_MAGIC ++ le_bytes 4 (len es) ++ concat (entry_bytes <$> es)))
    as Hr; [|unfold runs in Hr; by rewrite Hr].
  assert (0 < len es) by (destruct es; [done|rewrite len_cons; lia]).
  unfold decode_leaf. eapply runs_bind; [by apply reads_take|]. cbv beta.
  eapply runs_bind; [apply reads_u32; unfold MAX_LEAF_ENTRIES, U32_MAX in *; lia|]. cbv beta.
  eapply runs_pure.
  { apply reads_check, negb_true_iff, orb_false_iff. rewrite N.eqb_neq, N.ltb_ge. lia. }
  rewrite <-(app_nil_r (concat _)). unfold len at 1. rewrite Nat2N.id.
  eapply runs_bind.
  { apply reads_repeat. apply Forall_forall. intros e He. apply decode_entry_reads.
    - rewrite forallb_forall in Hok. by apply Hok, list_elem_of_In.
    - rewrite Forall_forall in Hp. by apply Hp. }
  cbv beta. eapply runs_finish, runs_pure; [by apply reads_lift|]. done.
Qed.

Lemma decode_leaf_inv b n rest :
  decode_leaf b = (Ok n, rest) →
  ∃ magic es, n = V2Leaf es ∧ length magic = 4%nat ∧
    b = magic ++ le_bytes 4 (len es) ++ concat (entry_bytes <$> es) ∧
    forallb entry_ok es = true ∧ validate_entries es = Ok tt ∧ 0 < len es ≤ MAX_LEAF_ENTRIES.
Proof.
  unfold decode_leaf. intros H. inv_reads H. injection H as <- <-. subst.
  match goal with H : rd_repeat _ _ _ = _ |- _ =>
    apply (rd_repeat_inv _ entry_bytes (λ e, entry_ok e = true ∧ validate_path (fe_path e) = Ok tt))
      in H as (-> & Hall & Hn); [|apply decode_entry_inv] end.
  repeat match goal with u : unit |- _ => destruct u end. bool_to_prop.
  eexists _, _. split; [done|].
  match goal with H : len ?m = 4 |- _ => apply len_length in H; split; [exact H|] end.
  match goal with E : length ?xs = N.to_nat ?n |- _ => assert (n = len xs) as -> by (unfold len; lia) end.
  split_and!; [by rewrite app_nil_r| |done|lia|done].
  apply forallb_forall. intros e He%list_elem_of_In. rewrite Forall_forall in Hall. by apply Hall.
Qed.

Lemma decode_internal_node h cs b :
  forallb range_typed cs = true → h < MAX_TREE_DEPTH → encode_internal h cs = Ok b →
  decode_node b = Ok (V2Internal h cs).
Proof.
  intros Hok Hh (Hc & Hv & Hb & ->)%encode_internal_ok. unfold decode_node.
  pose proof Hv as (Hp & _)%validate_ranges_ok.
  rewrite !len_app, !len_le_bytes, ranges_bytes_len by done.
  change (len INTERNAL_MAGIC) with 4. unfold LEAF_HEADER_BYTES, INTERNAL_HEADER_BYTES in *.
  rewrite (proj2 (N.ltb_ge _ _)) by lia. rewrite (proj2 (N.ltb_ge _ _)) by lia. cbn [orb].
  rewrite leaf_header_split by done. change (beq INTERNAL_MAGIC LEAF_MAGIC) with false. cbv iota.
  rewrite beq_refl, (proj2 (N.ltb_ge _ _)) by lia.
  assert (runs decode_internal (V2Internal h cs) (INTERNAL_MAGIC ++ le_bytes 2 h ++ le_bytes 2 0
    ++ le_bytes 4 (len cs) ++ concat (range_bytes <$> cs)))
    as Hr; [|unfold runs in Hr; by rewrite Hr].
  unfold decode_internal. eapply runs_bind; [by apply reads_take|]. cbv beta.
  eapply runs_bind; [apply reads_u16; unfold MAX_TREE_DEPTH, U16_MAX in *; lia|]. cbv beta.
  eapply runs_pure; [by apply reads_check, negb_true_iff, N.leb_gt|].
  eapply runs_bind; [apply reads_u16; unfold U16_MAX in *; lia|]. cbv beta.
  eapply runs_pure; [by apply reads_check|].
  eapply runs_bind; [apply reads_u32; unfold MAX_INTERNAL_CHILDREN, U32_MAX in *; lia|]. cbv beta.
  eapply runs_pure.
  { apply reads_check, negb_true_iff, orb_false_iff. rewrite N.eqb_neq, N.ltb_ge. lia. }
  rewrite <-(app_nil_r (concat _)). unfold len at 1. rewrite Nat2N.id.
  eapply runs_bind.
  { apply reads_repeat. apply Forall_forall. intros r Hr. rewrite Forall_forall in Hp.
    destruct (Hp r Hr) as [<- Hrv]. apply decode_range_ref_reads; [|done].
    rewrite forallb_forall in Hok. by apply Hok, list_elem_of_In. }
  cbv beta. eapply runs_finish, runs_pure; [by apply reads_lift|]. done.
Qed.

Lemma decode_internal_inv b n rest :
  decode_internal b = (Ok n, rest) →
  ∃ magic h cs, n = V2Internal h cs ∧ length magic = 4%nat ∧ h < MAX_TREE_DEPTH ∧
    b = magic ++ le_bytes 2 h ++ le_bytes 2 0 ++ le_bytes 4 (len cs) ++ concat (range_bytes <$> cs) ∧
    forallb range_typed cs = true ∧ validate_ranges cs h = Ok tt
    ∧ 0 < len cs ≤ MAX_INTERNAL_CHILDREN.
Proof.
  unfold decode_internal. intros H. inv_reads H. injection H as <- <-. subst.
  bool_to_prop.
  match goal with H : rd_repeat _ (decode_range_ref ?h) _ = _ |- _ =>
    apply (rd_repeat_inv _ range_bytes (λ r, range_typed r = true))
      in H as (-> & Hall & Hn) end.
  2:{ intros b' y rest' Hy. apply decode_range_ref_inv in Hy as (?&?&?); done. }
  repeat match goal with u : unit |- _ => destruct u end.
  eexists _, _, _. split; [done|].
  match goal with H : len ?m = 4 |- _ => apply len_length in H; split; [exact H|] end.
  match goal with E : length ?xs = N.to_nat ?n |- _ => assert (n = len xs) as -> by (unfold len; lia) end.
  split_and!; [done|by subst; rewrite app_nil_r| |done|lia|done].
  apply forallb_forall. intros e He%list_elem_of_In. rewrite Forall_forall in Hall. by apply Hall.
Qed.

Lemma take4_magic (magic m rest : bytes) :
  length m = 4%nat → take 4 (m ++ rest) = magic → m = magic.
Proof. intros E. rewrite <-E. by rewrite take_app_length. Qed.

(** What a decoded node is. *)
Lemma decode_node_inv b n :
  decode_node b = Ok n →
  match n with
  | V2Leaf es => forallb entry_ok es = true ∧ es ≠ [] ∧ encode_leaf es = Ok b
  | V2Internal h cs =>
      forallb range_typed cs = true ∧ h < MAX_TREE_DEPTH ∧ encode_internal h cs = Ok b
  end.
Proof.
  unfold decode_node. destruct (_ || _) eqn:Eb; [done|]. bool_to_prop.
  destruct (beq (take 4 b) LEAF_MAGIC) eqn:E1.
  - apply beq_true in E1. destruct (decode_leaf b) as [r rest] eqn:Ed. simpl. intros ->.
    apply decode_leaf_inv in Ed as (magic & es & -> & Hm & -> & Hok & Hv & Hc).
    apply take4_magic in E1 as ->; [|done]. split_and!; [done| |].
    + intros ->. by destruct Hc.
    + apply encode_leaf_ok. rewrite !len_app, len_le_bytes, entries_bytes_len in * by done.
      change (len LEAF_MAGIC) with 4 in *. unfold LEAF_HEADER_BYTES.
      split_and!; [done|lia|lia|done].
  - destruct (beq (take 4 b) INTERNAL_MAGIC) eqn:E2; [|done]. apply beq_true in E2.
    destruct (len b <? INTERNAL_HEADER_BYTES) eqn:E3; [done|].
    destruct (decode_internal b) as [r rest] eqn:Ed. simpl. intros ->.
    apply decode_internal_inv in Ed as (magic & h & cs & -> & Hm & Hh & -> & Hok & Hv & Hc).
    apply take4_magic in E2 as ->; [|done]. split_and!; [done|done|].
    apply encode_internal_ok. rewrite !len_app, !len_le_bytes, ranges_bytes_len in * by done.
    change (len INTERNAL_MAGIC) with 4 in *. unfold INTERNAL_HEADER_BYTES.
    split_and!; [lia|lia|done|lia|done].
Qed.

(** * Stored roots *)
Section stored_roots.
Context {B3 : Blake3}.

Definition parent_bytes (r : RootNodeV2) : bytes :=
  match r2_parent_hash r with Some h => h | None => [] end.
Definition child_bytes (r : RootNodeV2) : bytes :=
  match tv_child (r2_tree r) with
  | Some c => le_bytes 2 (rr_height c) ++ range_bytes c
  | None => []
  end.
Definition root_bytes (r : RootNodeV2) : bytes :=
  ROOT_MAGIC ++ le_bytes 4 TREE_VERSION ++ le_bytes 8 (r2_created_ms r)
  ++ le_bytes 8 (r2_total_files r)
  ++ le_bytes 2 (len (r2_vault_id r)) ++ le_bytes 2 (len (r2_device_id r))
  ++ [n2b (root_flags r)] ++ [x00; x00; x00] ++ r2_hash r
  ++ parent_bytes r ++ child_bytes r ++ r2_vault_id r ++ r2_device_id r.

Lemma validate_root_id_len kind v e u :
  validate_root_id kind v e = Ok u →
  len v ≤ MAX_ROOT_ID_BYTES ∧ (e = false → 0 < len v).
Proof.
  unfold validate_root_id. destruct (_ || _ || _) eqn:E; [done|]. intros _. bool_to_prop.
  split; [lia|]. intros ->. destruct (N.eqb_spec (len v) 0); [done|lia].
Qed.

Lemma validate_root_shape_child t u c :
  validate_root_shape t = Ok u → tv_child t = Some c → range_valid c ∧ tv_version t = TREE_VERSION.
Proof.
  unfold validate_root_shape. destruct (N.eqb_spec (tv_version t) TREE_VERSION); [|done].
  intros H E. rewrite E in H. cbn [negb] in H. destruct (_ && _); [|done].
  apply validate_range_ok in H. done.
Qed.

Lemma validate_root_shape_version t u :
  validate_root_shape t = Ok u → tv_version t = TREE_VERSION.
Proof.
  unfold validate_root_shape. by destruct (N.eqb_spec (tv_version t) TREE_VERSION).
Qed.

Lemma len_root_bytes r :
  root_typed r = true →
  len (root_bytes r) = STORED_ROOT_HEADER_BYTES + len (parent_bytes r) + len (child_bytes r)
    + len (r2_vault_id r) + len (r2_device_id r).
Proof.
  intros _. unfold root_bytes. rewrite !len_app, !len_le_bytes.
  unfold r2_hash, tv_hash. rewrite len_hash_bytes.
  change (len ROOT_MAGIC) with 4. change (len [x00; x00; x00]) with 3.
  change (len [n2b (root_flags r)]) with 1. unfold STORED_ROOT_HEADER_BYTES. lia.
Qed.

Lemma len_child_bytes r :
  root_typed r = true →
  len (child_bytes r) =
    match tv_child (r2_tree r) with
    | Some c => 50 + len (rr_min_path c) + len (rr_max_path c)
    | None => 0
    end.
Proof.
  unfold root_typed, child_bytes. intros H. bool_to_prop.
  destruct (tv_child (r2_tree r)) as [c|]; [|done]. unfold range_typed in *. bool_to_prop.
  rewrite len_app, len_le_bytes, len_range_bytes by done. unfold range_record_len. lia.
Qed.

Lemma len_parent_bytes r :
  root_typed r = true →
  len (parent_bytes r) = match r2_parent_hash r with Some _ => 32 | None => 0 end.
Proof.
  unfold root_typed, parent_bytes. intros H. bool_to_prop.
  destruct (r2_parent_hash r); [by bool_to_prop|done].
Qed.

(** When [serialize] succeeds, and what it returns. *)
Lemma r2_serialize_ok r b :
  root_typed r = true →
  r2_serialize r = Ok b ↔
    r2_validate r = Ok tt ∧ len (root_bytes r) ≤ MAX_STORED_ROOT_BYTES ∧ b = root_bytes r.
Proof.
  intros Ht. unfold r2_serialize, r2_serialized_length.
  destruct (r2_validate r) as [[]|] eqn:Ev; [|naive_solver].
  pose proof Ev as Ev'. unfold r2_validate in Ev'.
  destruct (validate_root_shape (r2_tree r)) as [[]|] eqn:Es; [|done].
  destruct (validate_root_id "vault" _ false) as [[]|] eqn:E1; [|done].
  pose proof (validate_root_id_len _ _ _ _ E1) as [L1 _].
  pose proof (validate_root_id_len _ _ _ _ Ev') as [L2 _].
  rewrite len_root_bytes, len_child_bytes, len_parent_bytes by done.
  unfold replacement_root_serialized_length. rewrite E1, Ev'.
  unfold MAX_ROOT_ID_BYTES, MAX_STORED_ROOT_BYTES, STORED_ROOT_HEADER_BYTES in *.
  rewrite try_sum_Some by (cbn [foldr]; unfold U64_MAX; lia). cbn [ok_or foldr].
  unfold check, U16_MAX. rewrite !(proj2 (N.leb_le _ _)) by lia.
  unfold root_bytes, child_bytes, parent_bytes.
  destruct (tv_child (r2_tree r)) as [c|] eqn:Ec; cbn [fmap option_fmap option_map].
  - destruct (validate_root_shape_child _ _ _ Es Ec) as [Hc _].
    rewrite (rv_min _ Hc), (rv_max _ Hc).
    destruct (blt (rr_max_path c) (rr_min_path c)) eqn:Eo.
    { apply blt_true in Eo. by apply (rv_order _ Hc) in Eo. }
    pose proof (validate_path_len _ _ (rv_min _ Hc)) as [_ L3].
    pose proof (validate_path_len _ _ (rv_max _ Hc)) as [_ L4].
    unfold MAX_PATH_BYTES in *.
    rewrite try_sum_Some by (cbn [foldr]; unfold U64_MAX; lia). cbn [ok_or foldr].
    unfold encode_range_ref. rewrite (proj2 (validate_range_ok c tt) Hc).
    unfold check, U16_MAX. rewrite !(proj2 (N.leb_le _ _)) by lia.
    unfold checked_add64, U64_MAX, ok_or.
    destruct (r2_parent_hash r); repeat
      match goal with |- context [if ?a <? ?b then _ else _] => destruct (N.ltb_spec a b)
      | |- context [if ?a <=? ?b then _ else _] => destruct (N.leb_spec a b) end;
      (split; [intros [=]; subst; split_and!; (lia || done)
              |intros (_ & ? & ->); (lia || done)]).
  - unfold checked_add64, U64_MAX, ok_or.
    destruct (r2_parent_hash r); repeat
      match goal with |- context [if ?a <? ?b then _ else _] => destruct (N.ltb_spec a b)
      | |- context [if ?a <=? ?b then _ else _] => destruct (N.leb_spec a b) end;
      (split; [intros [=]; subst; split_and!; (lia || done)
              |intros (_ & ? & ->); (lia || done)]).
Qed.

Lemma root_flags_bits r :
  N.ldiff (root_flags r) 3 = 0 ∧ root_flags r < 256 ∧
  N.testbit (root_flags r) 0 = (if r2_parent_hash r then true else false) ∧
  N.testbit (root_flags r) 1 = (if tv_child (r2_tree r) then true else false).
Proof. unfold root_flags. by destruct (r2_parent_hash r), (tv_child (r2_tree r)). Qed.

Lemma reads_u8 x : x < 256 → reads rd_u8 x [n2b x].
Proof. intros. by apply (reads_le 1 1 x). Qed.

Lemma reads_parent r :
  root_typed r = true →
  reads (if N.testbit (root_flags r) 0 then let! h := rd_take 32 in st_ret (Some h)
         else st_ret None) (r2_parent_hash r) (parent_bytes r).
Proof.
  intros Ht. destruct (root_flags_bits r) as (_ & _ & -> & _).
  pose proof (len_parent_bytes r Ht) as Hl. unfold parent_bytes in *.
  destruct (r2_parent_hash r) as [h|]; [|apply reads_ret].
  rewrite <-(app_nil_r h) at 2. eapply reads_bind; [by apply reads_take|]. apply reads_ret.
Qed.

Lemma reads_child r :
  root_typed r = true → validate_root_shape (r2_tree r) = Ok tt →
  reads (if N.testbit (root_flags r) 1 then
           let! height := rd_u16 in let! c := decode_range_ref height in st_ret (Some c)
         else st_ret None) (tv_child (r2_tree r)) (child_bytes r).
Proof.
  intros Ht Hs. destruct (root_flags_bits r) as (_ & _ & _ & ->). unfold child_bytes.
  unfold root_typed in Ht. bool_to_prop.
  destruct (tv_child (r2_tree r)) as [c|] eqn:Ec; [|apply reads_ret].
  destruct (validate_root_shape_child _ _ _ Hs Ec) as [Hc _].
  pose proof (rv_height _ Hc).
  eapply reads_bind; [apply reads_u16; unfold MAX_TREE_DEPTH, U16_MAX in *; lia|]. cbv beta.
  rewrite <-(app_nil_r (range_bytes c)).
  eapply reads_bind; [by apply decode_range_ref_reads|]. apply reads_ret.
Qed.

Lemma decode_root_runs r :
  root_typed r = true → r2_validate r = Ok tt → runs decode_root (r, r2_hash r) (root_bytes r).
Proof.
  intros Ht Hv. unfold r2_validate in Hv.
  destruct (validate_root_shape (r2_tree r)) as [[]|] eqn:Es; [|done].
  destruct (validate_root_id "vault" _ false) as [[]|] eqn:E1; [|done].
  pose proof (validate_root_id_len _ _ _ _ E1) as [L1 L1'].
  pose proof (validate_root_id_len _ _ _ _ Hv) as [L2 _]. specialize (L1' eq_refl).
  pose proof (reads_parent r Ht) as Hp. pose proof (reads_child r Ht Es) as Hc.
  destruct (root_flags_bits r) as (F1 & F2 & _).
  unfold root_typed in Ht. bool_to_prop.
  unfold decode_root, root_bytes. unfold MAX_ROOT_ID_BYTES, U16_MAX in *.
  eapply runs_bind; [by apply reads_take|]. cbv beta.
  eapply runs_pure; [by apply reads_check|].
  eapply runs_bind; [by apply reads_u32|]. cbv beta.
  eapply runs_pure; [by apply reads_check|].
  eapply runs_bind; [by apply reads_u64|]. cbv beta.
  eapply runs_bind; [by apply reads_u64|]. cbv beta.
  eapply runs_bind; [apply reads_u16; unfold U16_MAX; lia|]. cbv beta.
  eapply runs_bind; [apply reads_u16; unfold U16_MAX; lia|]. cbv beta.
  eapply runs_bind; [by apply reads_u8|]. cbv beta.
  eapply runs_pure; [by apply reads_check; rewrite F1|].
  eapply runs_bind; [by apply reads_take|]. cbv beta.
  eapply runs_pure; [by apply reads_check|].
  eapply runs_bind; [apply reads_take, len_hash_bytes|]. cbv beta.
  eapply runs_bind; [exact Hp|]. cbv beta. eapply runs_bind; [exact Hc|]. cbv beta.
  eapply runs_pure.
  { apply reads_check, negb_true_iff. rewrite !orb_false_iff, N.eqb_neq, !N.ltb_ge.
    unfold MAX_ROOT_ID_BYTES. lia. }
  eapply runs_bind; [by apply reads_str|]. cbv beta.
  eapply runs_last; [by apply reads_str|]. cbv beta. eapply runs_finish.
  apply validate_root_shape_version in Es. unfold r2_total_files.
  destruct r as [? ? [? ? ?] ? ?]; simpl in *. by rewrite <-Es.
Qed.

Lemma rd_opt_inv {A} (c : bool) (p : St Reader ChunkError A) (enc : A → bytes) (P : A → Prop) b o rest :
  (∀ b x rest, p b = (Ok x, rest) → b = enc x ++ rest ∧ P x) →
  (if c then let! x := p in st_ret (Some x) else st_ret None) b = (Ok o, rest) →
  match o with
  | Some x => c = true ∧ b = enc x ++ rest ∧ P x
  | None => c = false ∧ b = rest
  end.
Proof.
  intros Hp. destruct c; [|by intros [= <- <-]].
  intros (x & s1 & Hx & [= <- <-])%st_bind_Ok. by apply Hp in Hx.
Qed.

Lemma rd_child_inv b c rest :
  (let! height := rd_u16 in decode_range_ref height) b = (Ok c, rest) →
  b = (le_bytes 2 (rr_height c) ++ range_bytes c) ++ rest ∧ range_typed c = true.
Proof.
  intros (h & s1 & [-> Hh]%rd_u16_inv & Hc)%st_bind_Ok.
  apply decode_range_ref_inv in Hc as (-> & Ht & _ & <-); [|done].
  by rewrite <-app_assoc.
Qed.

Lemma flags_small f : f ≤ U8_MAX → N.ldiff f 3 = 0 →
  f = N.lor (if N.testbit f 0 then 1 else 0) (if N.testbit f 1 then 2 else 0).
Proof.
  intros _ Hf. assert (f = N.land f 3) as E.
  { apply N.bits_inj. intros i. apply (f_equal (λ x, N.testbit x i)) in Hf.
    rewrite N.ldiff_spec, N.bits_0 in Hf. rewrite N.land_spec.
    by destruct (N.testbit f i), (N.testbit 3 i). }
  change 3 with (N.ones 2) in E. rewrite N.land_ones in E.
  assert (f < 4) by (rewrite E; by apply N.mod_upper_bound).
  assert (f = 0 ∨ f = 1 ∨ f = 2 ∨ f = 3) as [-> | [-> | [-> | ->]]] by lia; done.
Qed.

Lemma bind_assoc {A B C} (m : St Reader ChunkError A) (f : A → St Reader ChunkError B)
    (g : B → St Reader ChunkError C) b :
  st_bind m (λ x, st_bind (f x) g) b = st_bind (st_bind m f) g b.
Proof. unfold st_bind. by destruct (m b) as [[]]. Qed.

Lemma decode_root_inv b r h rest :
  decode_root b = (Ok (r, h), rest) →
  root_typed r = true ∧ (h = r2_hash r → b = root_bytes r).
Proof.
  unfold decode_root. intros H. inv_reads H. injection H as <- <- <-.
  match goal with E : (if N.testbit ?f 0 then _ else _) _ = _ |- _ =>
    apply (rd_opt_inv _ _ id (λ h, len h = 32)) in E;
      [|intros ??? [-> ?]%rd_take_inv; done] end.
  match goal with E : (if N.testbit ?f 1 then _ else _) ?b = (Ok ?o, ?rest) |- _ =>
    assert ((if N.testbit f 1 then
        let! c := (let! height := rd_u16 in decode_range_ref height) in st_ret (Some c)
      else st_ret None) b = (Ok o, rest)) as E'
      by (rewrite <-E; destruct (N.testbit f 1); [symmetry; apply bind_assoc|done]);
    clear E; apply (rd_opt_inv _ _ _ _ _ _ _ rd_child_inv) in E' end.
  repeat match goal with u : unit |- _ => destruct u end. bool_to_prop.
  match goal with H : beq _ ROOT_MAGIC = true |- _ => apply beq_true in H end.
  match goal with H : beq _ [x00; x00; x00] = true |- _ => apply beq_true in H end.
  match goal with H1 : N.ldiff ?f 3 = 0, H2 : ?f ≤ U8_MAX |- _ =>
    pose proof (flags_small f H2 H1) as Hf end.
  assert (match x12 with Some h => s11 = h ++ s12 ∧ len h = 32 | None => s11 = s12 end ∧
    N.testbit x7 0 = if x12 then true else false) as [Hp Hp'] by (destruct x12; naive_solver).
  assert (match x13 with
    | Some c => s12 = (le_bytes 2 (rr_height c) ++ range_bytes c) ++ s13 ∧ range_typed c = true
    | None => s12 = s13 end ∧
    N.testbit x7 1 = if x13 then true else false) as [Hc Hc'] by (destruct x13; naive_solver).
  rewrite Hp', Hc' in Hf. clear E' Hp' Hc'. split.
  - unfold root_typed, r2_total_files. cbn.
    repeat (apply andb_true_intro; split); try done; try by apply N.leb_le.
    + destruct x12; [by apply N.eqb_eq, Hp|done].
    + by destruct x13; [apply Hc|].
  - intros ->. unfold root_bytes, parent_bytes, child_bytes, root_flags, r2_total_files. cbn [
      r2_parent_hash r2_tree tv_child r2_vault_id r2_device_id r2_created_ms tv_total_files].
    destruct x12; [destruct Hp as [Hp _]|]; (destruct x13; [destruct Hc as [Hc _]|]);
      cbn in Hf; subst; rewrite ?app_nil_r, <-?app_assoc; reflexivity.
Qed.

(** C36: the Tree v2 node codec is canonical in both directions: a node
    that encodes decodes to itself, and the only byte string that decodes to
    a node is its encoding, so a content hash names exactly one node. *)
Theorem node_codec_canonical es h cs b :
  forallb entry_ok es = true → es ≠ [] → forallb range_typed cs = true → h < MAX_TREE_DEPTH →
  (encode_leaf es = Ok b ↔ decode_node b = Ok (V2Leaf es)) ∧
  (encode_internal h cs = Ok b ↔ decode_node b = Ok (V2Internal h cs)).
Proof.
  intros Hes Hne Hcs Hh. split; split.
  - by apply decode_leaf_node.
  - intros Hd. apply decode_node_inv in Hd. apply Hd.
  - by apply decode_internal_node.
  - intros Hd. apply decode_node_inv in Hd. apply Hd.
Qed.

Lemma stored_root_iff r b :
  root_typed r = true →
  (r2_serialize r = Ok b ↔ r2_deserialize b = Ok r).
Proof.
  intros Ht. rewrite r2_serialize_ok by done. unfold r2_deserialize. split.
  - intros (Hv & Hl & ->). pose proof (len_root_bytes r Ht) as Hlen.
    rewrite (proj2 (N.ltb_ge _ _)) by lia. rewrite (proj2 (N.ltb_ge _ _)) by lia. cbn [orb].
    rewrite (decode_root_runs r Ht Hv). cbn [fst]. rewrite Hv, beq_refl. done.
  - destruct (_ || _) eqn:El; [done|]. bool_to_prop.
    destruct (decode_root b) as [[[r' h]|] rest] eqn:Ed; cbn [fst]; [|done].
    destruct (r2_validate r') as [[]|] eqn:Ev; [|done].
    destruct (beq (r2_hash r') h) eqn:Eh; [|done]. cbn [negb]. intros [= ->].
    apply beq_true in Eh. apply decode_root_inv in Ed as [_ Hb].
    rewrite <-Hb by done. done.
Qed.

(** Stored roots: what [serialize] accepts [deserialize] returns
    unchanged, and bytes that [deserialize] accepts are exactly the bytes
    [serialize] produces for the root it returns. *)
Theorem stored_root_canonical r b :
  root_typed r = true →
  (r2_serialize r = Ok b ↔ r2_deserialize b = Ok r).
Proof. apply stored_root_iff. Qed.
End stored_roots.
