(* ===== verification/TreeV2Segment.v ===== *)
(** src/crates/sync-core/src/tree_v2.rs: [segment_by], the path-only
    segmentation of records into nodes, with the gear fingerprint that
    chooses its natural boundaries. *)

From S2P Require Import Prelude Bytes Keyed Hash Chunk TreeV2Codec.
Local Open Scope N_scope.

(** * The gear fingerprint *)

Definition wrapping_add64 (a b : N) : N := wrap64 (a + b).
Definition wrapping_mul64 (a b : N) : N := wrap64 (a * b).

(** [u64::rotate_left(1)]. *)
Definition rotate_left1 (x : N) : N := N.lor (wrap64 (N.shiftl x 1)) (N.shiftr x 63).

(** [gear_word]. *)
Definition gear_word (value : N) : N :=
  let mixed := wrapping_add64 value 0x9e3779b97f4a7c15 in
  let mixed := wrapping_mul64 (N.lxor mixed (N.shiftr mixed 30)) 0xbf58476d1ce4e5b9 in
  let mixed := wrapping_mul64 (N.lxor mixed (N.shiftr mixed 27)) 0x94d049bb133111eb in
  N.lxor mixed (N.shiftr mixed 31).

(** [gear_hash]. *)
Definition gear_hash (path : bytes) : N :=
  fold_left (λ state b, wrapping_add64 (rotate_left1 state) (gear_word (b2n b))) path 0.

(** * Segments *)

Record Segment := { sg_start : N; sg_end : N; sg_stable_end : bool }.

(** The parameters of [segment_by] that select the node kind. *)
Record SegmentKind := {
  sk_header_bytes : N;
  sk_min_records : N;
  sk_max_records : N;
  sk_min_bytes : N;
  sk_anchor_mask : N;
}.

Definition leaf_kind : SegmentKind := {|
  sk_header_bytes := LEAF_HEADER_BYTES; sk_min_records := MIN_LEAF_ENTRIES;
  sk_max_records := MAX_LEAF_ENTRIES; sk_min_bytes := MIN_LEAF_BYTES;
  sk_anchor_mask := LEAF_ANCHOR_MASK |}.
Definition internal_kind : SegmentKind := {|
  sk_header_bytes := INTERNAL_HEADER_BYTES; sk_min_records := MIN_INTERNAL_CHILDREN;
  sk_max_records := MAX_INTERNAL_CHILDREN; sk_min_bytes := 0;
  sk_anchor_mask := INTERNAL_ANCHOR_MASK |}.

(** [natural || forced]; the fingerprint is computed when the first two
    conditions hold. *)
Definition closes (k : SegmentKind) (records bytes : N) (key : Bytes.bytes) : bool :=
  let natural := if (sk_min_records k <=? records) && (sk_min_bytes k <=? bytes)
                 then N.land (gear_hash key) (sk_anchor_mask k) =? 0 else false in
  let forced := (sk_max_records k <=? records) || (bytes =? MAX_NODE_BYTES) in
  natural || forced.

(** The loop of [segment_by]; the list holds [record_len] and [key] of the
    records from [index] on. *)
Fixpoint segment_loop (k : SegmentKind) (records : list (N * Bytes.bytes))
    (index start bytes : N) (output : list Segment) : result ChunkError (list Segment) :=
  match records with
  | [] =>
      Ok (if start <? index
          then output ++ [{| sg_start := start; sg_end := index; sg_stable_end := false |}]
          else output)
  | (length, key) :: records =>
      if MAX_NODE_BYTES <? saturating_add64 (sk_header_bytes k) length
      then Err (invalid "one Tree v2 record exceeds the node cap")
      else
        let '(output, start, bytes) :=
          if (start <? index)
             && ((sk_max_records k <=? index - start)
                 || (MAX_NODE_BYTES <? saturating_add64 bytes length))
          then (output ++ [{| sg_start := start; sg_end := index; sg_stable_end := true |}],
                index, sk_header_bytes k)
          else (output, start, bytes) in
        let? bytes := ok_or (checked_add64 bytes length)
                        (invalid "Tree v2 segment length overflow") in
        if closes k (index - start + 1) bytes key
        then segment_loop k records (index + 1) (index + 1) (sk_header_bytes k)
               (output ++ [{| sg_start := start; sg_end := index + 1; sg_stable_end := true |}])
        else segment_loop k records (index + 1) start bytes output
  end.

Definition segment_by (k : SegmentKind) (records : list (N * bytes))
    : result ChunkError (list Segment) :=
  segment_loop k records 0 0 (sk_header_bytes k) [].

Definition entry_record (e : FileEntry) : N * bytes := (leaf_record_len e, fe_path e).
Definition range_record (r : RangeRef) : N * bytes := (range_record_len r, rr_max_path r).

(** [segment_entries]. *)
Definition segment_entries (entries : list FileEntry) : result ChunkError (list Segment) :=
  match entries with
  | [] => Ok []
  | _ =>
      let? _ := validate_entries entries in
      segment_by leaf_kind (entry_record <$> entries)
  end.

(** [segment_ranges]. *)
Definition segment_ranges (ranges : list RangeRef) : result ChunkError (list Segment) :=
  match ranges with
  | [] => Ok []
  | _ => segment_by internal_kind (range_record <$> ranges)
  end.

(** [&records[segment.start..segment.end]]. *)
Definition segment_slice {A} (l : list A) (s : Segment) : list A :=
  take (N.to_nat (sg_end s - sg_start s)) (drop (N.to_nat (sg_start s)) l).


Section cut.
Context {A : Type} (k : SegmentKind) (rec : A → N * bytes).
Implicit Types (l cur g : list A) (gs : list (list A)).

(** The encoded size of a node over [g]. *)
Definition weight g : N := sk_header_bytes k + foldr N.add 0 ((λ x, (rec x).1) <$> g).

(** The node over [g] is closed before a record [x] that does not fit. *)
Definition overflows g (x : A) : bool :=
  negb (len g =? 0)
  && ((sk_max_records k <=? len g) || (MAX_NODE_BYTES <? weight g + (rec x).1)).

(** One record: the finished nodes and the open one, first closed when the
    record does not fit, then extended. *)
Definition cut_before (acc : list (list A) * list A) (x : A) : list (list A) * list A :=
  if overflows acc.2 x then (acc.1 ++ [acc.2], []) else acc.
Definition cut_push (acc : list (list A) * list A) (x : A) : list (list A) * list A :=
  let cur := acc.2 ++ [x] in
  if closes k (len cur) (weight cur) (rec x).2 then (acc.1 ++ [cur], []) else (acc.1, cur).
Definition cut_step (acc : list (list A) * list A) (x : A) : list (list A) * list A :=
  cut_push (cut_before acc x) x.

Definition run_cut l : list (list A) * list A := fold_left cut_step l ([], []).

(** The nodes over [l]. *)
Definition cut l : list (list A) :=
  let '(gs, cur) := run_cut l in
  match cur with [] => gs | _ => gs ++ [cur] end.

(** The segments of consecutive closed groups that start at [base]. *)
Fixpoint seg_closed (base : N) gs : list Segment :=
  match gs with
  | [] => []
  | g :: gs =>
      {| sg_start := base; sg_end := base + len g; sg_stable_end := true |}
        :: seg_closed (base + len g) gs
  end.

Lemma seg_closed_snoc base gs g :
  seg_closed base (gs ++ [g]) =
    seg_closed base gs ++
      [{| sg_start := base + len (concat gs); sg_end := base + len (concat gs) + len g;
          sg_stable_end := true |}].
Proof.
  revert base. induction gs as [|g' gs IH]; intros base; cbn [seg_closed app concat].
  - by rewrite len_nil, N.add_0_r.
  - rewrite IH, len_app. do 2 f_equal. by rewrite N.add_assoc.
Qed.

Lemma len_concat_snoc gs g : len (concat (gs ++ [g])) = len (concat gs) + len g.
Proof. rewrite concat_app, len_app. cbn [concat]. by rewrite app_nil_r. Qed.
Lemma len_snoc g x : len (g ++ [x]) = len g + 1.
Proof. by rewrite len_app. Qed.

Lemma weight_nil : weight [] = sk_header_bytes k.
Proof. unfold weight. simpl. lia. Qed.
Lemma weight_snoc g x : weight (g ++ [x]) = weight g + (rec x).1.
Proof.
  unfold weight. rewrite fmap_app. induction (_ <$> g) as [|y ys IH]; simpl in *; lia.
Qed.

(** ** Caps *)
Context (Hmax : 1 < sk_max_records k) (Hhdr : sk_header_bytes k ≤ MAX_NODE_BYTES).

Definition record_fits (x : A) : Prop := sk_header_bytes k + (rec x).1 ≤ MAX_NODE_BYTES.

(** A node that can be written. *)
Definition fits g : Prop :=
  g ≠ [] ∧ len g ≤ sk_max_records k ∧ weight g ≤ MAX_NODE_BYTES.
(** The open node: below the record cap. *)
Definition open_ok cur : Prop :=
  len cur < sk_max_records k ∧ weight cur ≤ MAX_NODE_BYTES.

Lemma cut_before_spec acc x :
  record_fits x → Forall fits acc.1 → open_ok acc.2 →
  let '(gs1, cur1) := cut_before acc x in
  concat gs1 ++ cur1 = concat acc.1 ++ acc.2 ∧ Forall fits gs1 ∧ open_ok cur1
  ∧ weight cur1 + (rec x).1 ≤ MAX_NODE_BYTES.
Proof.
  destruct acc as [gs cur]. cbn [fst snd]. intros Hx Hgs [Ho1 Ho2]. unfold cut_before. cbn [fst snd].
  destruct (overflows cur x) eqn:Eov; unfold overflows in Eov.
  - bool_to_prop. rewrite concat_app, weight_nil. cbn [concat]. rewrite !app_nil_r.
    split_and!; [done| |split; [rewrite len_nil; lia|by rewrite weight_nil]|done].
    apply Forall_app; split; [done|]. constructor; [|done].
    split_and!; [by intros ->|lia|done].
  - split_and!; [done..|]. destruct cur as [|y cur]; [by rewrite weight_nil|].
    rewrite len_cons in Eov. destruct (N.eqb_spec (1 + len cur) 0); [lia|].
    cbn [negb andb] in Eov. by bool_to_prop.
Qed.

Lemma cut_push_spec acc x :
  Forall fits acc.1 → open_ok acc.2 → weight acc.2 + (rec x).1 ≤ MAX_NODE_BYTES →
  let '(gs1, cur1) := cut_push acc x in
  concat gs1 ++ cur1 = (concat acc.1 ++ acc.2) ++ [x] ∧ Forall fits gs1 ∧ open_ok cur1.
Proof.
  destruct acc as [gs cur]. cbn [fst snd]. intros Hgs [Ho1 Ho2] Hw. unfold cut_push. cbn [fst snd].
  rewrite <-weight_snoc in Hw. destruct (closes k _ _ _) eqn:Ec.
  - rewrite concat_app. cbn [concat]. rewrite !app_nil_r, app_assoc.
    split_and!; [done| |split; [rewrite len_nil; lia|by rewrite weight_nil]].
    apply Forall_app; split; [done|]. constructor; [|done].
    split_and!; [by destruct cur| |done]. rewrite len_app, len_cons, len_nil. lia.
  - rewrite app_assoc. split_and!; [done..|]. split; [|done].
    unfold closes in Ec. by bool_to_prop.
Qed.

Lemma cut_step_spec gs cur x gs' cur' :
  record_fits x → Forall fits gs → open_ok cur →
  cut_step (gs, cur) x = (gs', cur') →
  concat gs' ++ cur' = (concat gs ++ cur) ++ [x] ∧ Forall fits gs' ∧ open_ok cur'.
Proof.
  intros Hx Hgs Ho. unfold cut_step. pose proof (cut_before_spec (gs, cur) x Hx Hgs Ho) as Hb.
  destruct (cut_before (gs, cur) x) as [gs1 cur1]. destruct Hb as (E & Hgs1 & Ho1 & Hw).
  pose proof (cut_push_spec (gs1, cur1) x Hgs1 Ho1 Hw) as Hp. intros E'. rewrite E' in Hp.
  cbn [fst snd] in *. by rewrite <-E.
Qed.

Lemma run_cut_spec l :
  Forall record_fits l →
  let '(gs, cur) := run_cut l in
  concat gs ++ cur = l ∧ Forall fits gs ∧ open_ok cur.
Proof.
  unfold run_cut. induction l as [|x l IH] using rev_ind.
  { intros _. simpl. split_and!; [done|constructor|]. split; [rewrite len_nil; lia|].
    by rewrite weight_nil. }
  intros [Hl Hx]%Forall_app. apply Forall_cons in Hx as [Hx _]. specialize (IH Hl).
  rewrite fold_left_app. cbn [fold_left].
  destruct (fold_left cut_step l ([], [])) as [gs cur]. destruct IH as (E & Hgs & Ho).
  destruct (cut_step (gs, cur) x) as [gs' cur'] eqn:Es.
  destruct (cut_step_spec gs cur x gs' cur') as (E' & ? & ?); [done..|].
  by rewrite E', E.
Qed.

(** The nodes tile the records, and each can be written. *)
Lemma cut_spec l : Forall record_fits l → concat (cut l) = l ∧ Forall fits (cut l).
Proof.
  intros Hl%run_cut_spec. unfold cut. destruct (run_cut l) as [gs cur].
  destruct Hl as (E & Hgs & [Ho1 Ho2]). destruct cur as [|x cur].
  - by rewrite app_nil_r in E.
  - rewrite concat_app. cbn [concat]. rewrite app_nil_r. split; [done|].
    apply Forall_app. split; [done|]. constructor; [|done]. split_and!; [done|lia|done].
Qed.

(** ** The loop of the code *)

(** What the code returns for the nodes [gs] and the open node [cur]. *)
Definition segments_of (st : list (list A) * list A) : list Segment :=
  seg_closed 0 st.1 ++
  match st.2 with
  | [] => []
  | _ => [{| sg_start := len (concat st.1); sg_end := len (concat st.1) + len st.2;
             sg_stable_end := false |}]
  end.

(** The test of the code before a record is [overflows]. *)
Lemma overflows_code n cur x :
  weight cur ≤ MAX_NODE_BYTES → (rec x).1 ≤ MAX_NODE_BYTES →
  (n <? n + len cur) &&
    ((sk_max_records k <=? n + len cur - n)
     || (MAX_NODE_BYTES <? saturating_add64 (weight cur) (rec x).1)) = overflows cur x.
Proof.
  intros Hw Hx. unfold overflows, saturating_add64.
  rewrite N.min_l by (unfold MAX_NODE_BYTES, U64_MAX in *; lia). f_equal.
  - destruct (N.eqb_spec (len cur) 0) as [->|]; cbn [negb].
    + apply N.ltb_ge. lia.
    + apply N.ltb_lt. lia.
  - by replace (n + len cur - n) with (len cur) by lia.
Qed.

Lemma segment_loop_cut l gs cur :
  Forall record_fits l → Forall fits gs → open_ok cur →
  segment_loop k (rec <$> l) (len (concat gs) + len cur) (len (concat gs)) (weight cur)
    (seg_closed 0 gs) = Ok (segments_of (fold_left cut_step l (gs, cur))).
Proof.
  intros Hl. revert gs cur. induction Hl as [|x l Hx Hl IH]; intros gs cur Hgs Ho.
  { cbn [fmap list_fmap segment_loop fold_left]. unfold segments_of. cbn [fst snd].
    destruct cur as [|y cur].
    - rewrite len_nil, N.add_0_r, N.ltb_irrefl. by rewrite app_nil_r.
    - rewrite (proj2 (N.ltb_lt _ _)) by (rewrite len_cons; lia). done. }
  assert ((rec x).1 ≤ MAX_NODE_BYTES) as Hx' by (unfold record_fits in Hx; lia).
  rewrite fmap_cons, (surjective_pairing (rec x)). cbn [segment_loop fold_left].
  unfold saturating_add64 at 1.
  rewrite N.min_l by (unfold record_fits, MAX_NODE_BYTES, U64_MAX in *; lia).
  rewrite (proj2 (N.ltb_ge _ _)) by done. rewrite overflows_code by (done || apply Ho).
  unfold cut_step. pose proof (cut_before_spec (gs, cur) x Hx Hgs Ho) as Hb.
  assert ((if overflows cur x then
       (seg_closed 0 gs ++ [{| sg_start := len (concat gs); sg_end := len (concat gs) + len cur;
          sg_stable_end := true |}], len (concat gs) + len cur, sk_header_bytes k)
     else (seg_closed 0 gs, len (concat gs), weight cur)) =
    (seg_closed 0 (cut_before (gs, cur) x).1, len (concat (cut_before (gs, cur) x).1),
      weight (cut_before (gs, cur) x).2)) as ->.
  { unfold cut_before. cbn [fst snd]. destruct (overflows cur x); [|done]. cbn [fst snd].
    rewrite seg_closed_snoc, weight_nil, concat_app, len_app. cbn [concat]. by rewrite app_nil_r. }
  destruct (cut_before (gs, cur) x) as [gs1 cur1]. cbn [fst snd] in *.
  destruct Hb as (E & Hgs1 & Ho1 & Hw).
  unfold checked_add64. rewrite (proj2 (N.leb_le _ _)) by (unfold MAX_NODE_BYTES, U64_MAX in *; lia).
  cbn [ok_or]. rewrite <-weight_snoc.
  assert (len (concat gs) + len cur = len (concat gs1) + len cur1) as ->.
  { apply (f_equal len) in E. rewrite !len_app in E. lia. }
  pose proof (cut_push_spec (gs1, cur1) x Hgs1 Ho1 Hw) as Hp.
  unfold cut_push in *. cbn [fst snd] in *.
  assert (len (concat gs1) + len cur1 - len (concat gs1) + 1 = len (cur1 ++ [x])) as ->
    by (rewrite len_app, len_cons, len_nil; lia).
  destruct (closes k _ _ _).
  - destruct Hp as (_ & Hg & Ho'). rewrite <-IH by done.
    rewrite seg_closed_snoc, weight_nil, len_concat_snoc, len_snoc.
    change (len []) with 0. by rewrite N.add_0_r, N.add_0_l, !N.add_assoc.
  - destruct Hp as (_ & Hg & Ho'). rewrite <-IH by done.
    by rewrite len_snoc, N.add_assoc.
Qed.

Lemma segment_by_cut l :
  Forall record_fits l → segment_by k (rec <$> l) = Ok (segments_of (run_cut l)).
Proof.
  intros Hl. unfold segment_by, run_cut. rewrite <-weight_nil.
  apply (segment_loop_cut l [] []); [done|constructor|].
  split; [rewrite len_nil; lia|by rewrite weight_nil].
Qed.

(** The slices the code takes are the nodes. *)
Lemma slice_closed pre gs tail :
  segment_slice (pre ++ concat gs ++ tail) <$> seg_closed (len pre) gs = gs.
Proof.
  revert pre. induction gs as [|g gs IH]; intros pre; [done|]. cbn [seg_closed concat].
  rewrite fmap_cons. f_equal.
  - unfold segment_slice, len. cbn [sg_start sg_end].
    replace (N.to_nat (N.of_nat (length pre) + N.of_nat (length g) - N.of_nat (length pre)))
      with (length g) by lia.
    by rewrite Nat2N.id, drop_app_length, <-app_assoc, take_app_length.
  - rewrite <-app_assoc, (app_assoc pre g), <-len_app. apply IH.
Qed.

Lemma segment_slices l :
  Forall record_fits l → segment_slice l <$> segments_of (run_cut l) = cut l.
Proof.
  intros Hl%run_cut_spec. unfold cut, segments_of.
  destruct (run_cut l) as [gs cur]. destruct Hl as (<- & _ & _). cbn [fst snd].
  rewrite fmap_app.
  assert (segment_slice (concat gs ++ cur) <$> seg_closed 0 gs = gs) as ->
    by apply (slice_closed [] gs cur).
  destruct cur as [|y cur]; [by rewrite app_nil_r|]. csimpl. f_equal.
  unfold segment_slice, len. cbn [sg_start sg_end]. do 2 f_equal.
  replace (N.to_nat (_ - _)) with (length (y :: cur)) by (simpl; lia).
  rewrite Nat2N.id, drop_app_length. by rewrite firstn_all.
Qed.

(** ** Locality *)

Lemma run_cut_acc l gs cur :
  fold_left cut_step l (gs, cur) =
    (gs ++ (fold_left cut_step l ([], cur)).1, (fold_left cut_step l ([], cur)).2).
Proof.
  revert gs cur. induction l as [|x l IH]; intros gs cur; cbn [fold_left].
  { cbn [fst snd]. by rewrite app_nil_r. }
  assert (∀ gs, cut_step (gs, cur) x = (gs ++ (cut_step ([], cur) x).1, (cut_step ([], cur) x).2)) as E.
  { intros gs'. unfold cut_step, cut_before, cut_push. cbn [fst snd].
    destruct (overflows cur x); cbn [fst snd app]; destruct (closes _ _ _ _);
      cbn [fst snd app]; by rewrite <-?app_assoc, ?app_nil_r. }
  rewrite E. destruct (cut_step ([], cur) x) as [g1 c1]. cbn [fst snd].
  rewrite (IH (gs ++ g1)), (IH g1). cbn [fst snd]. by rewrite app_assoc.
Qed.

(** After a prefix that ends on a closed node, the rest is cut on its own. *)
Lemma run_cut_app l1 l2 gs :
  run_cut l1 = (gs, []) → run_cut (l1 ++ l2) = (gs ++ (run_cut l2).1, (run_cut l2).2).
Proof. intros E. unfold run_cut in *. rewrite fold_left_app, E. apply run_cut_acc. Qed.

Lemma cut_app l1 l2 gs : run_cut l1 = (gs, []) → cut (l1 ++ l2) = gs ++ cut l2.
Proof.
  intros E. unfold cut. erewrite run_cut_app by done.
  destruct (run_cut l2) as [gs2 cur2]. cbn [fst snd]. destruct cur2; [done|].
  by rewrite app_assoc.
Qed.

Lemma run_cut_groups gs :
  Forall (λ g, run_cut g = ([g], [])) gs → run_cut (concat gs) = (gs, []).
Proof.
  induction 1 as [|g gs Hg Hgs IH]; [done|]. cbn [concat].
  erewrite run_cut_app by done. by rewrite IH.
Qed.

(** ** Small records never overflow a node, so every node but the last
    closes by itself. *)
Definition small (x : A) : Prop :=
  sk_header_bytes k + sk_max_records k * (rec x).1 ≤ MAX_NODE_BYTES.

Lemma weight_small (b : N) g :
  sk_header_bytes k + sk_max_records k * b ≤ MAX_NODE_BYTES →
  Forall (λ x, (rec x).1 ≤ b) g → weight g ≤ sk_header_bytes k + len g * b.
Proof.
  intros Hb. unfold weight. induction 1 as [|x g Hx Hg IH]; csimpl; [lia|].
  rewrite len_cons. simpl. lia.
Qed.

Lemma run_cut_self (b : N) l :
  sk_header_bytes k + sk_max_records k * b ≤ MAX_NODE_BYTES →
  Forall (λ x, (rec x).1 ≤ b) l →
  let '(gs, cur) := run_cut l in
  Forall (λ g, run_cut g = ([g], [])) gs ∧ run_cut cur = ([], cur).
Proof.
  intros Hb Hl. assert (Forall record_fits l) as Hfits.
  { eapply Forall_impl; [exact Hl|]. intros x Hx. cbv beta in Hx.
    pose proof (N.mul_le_mono_r 1 (sk_max_records k) b). unfold record_fits. lia. }
  induction l as [|x l IH] using rev_ind; [done|].
  apply Forall_app in Hl as [Hl Hx]. apply Forall_cons in Hx as [Hx _].
  apply Forall_app in Hfits as [Hf _]. specialize (IH Hl Hf).
  pose proof (run_cut_spec l Hf) as Hspec.
  unfold run_cut at 1. rewrite fold_left_app. fold (run_cut l). cbn [fold_left].
  destruct (run_cut l) as [gs cur]. destruct IH as [Hgs Hcur]. destruct Hspec as (El & _ & [Ho _]).
  assert (overflows cur x = false) as Hov.
  { unfold overflows. destruct (N.eqb_spec (len cur) 0); [done|]. cbn [negb andb].
    apply orb_false_iff. rewrite N.leb_gt, N.ltb_ge. split; [done|].
    rewrite <-El in Hl. apply Forall_app in Hl as [_ Hc].
    pose proof (weight_small b cur Hb Hc).
    pose proof (N.mul_le_mono_r (len cur + 1) (sk_max_records k) b). lia. }
  unfold cut_step, cut_before. cbn [fst snd]. rewrite Hov. unfold cut_push. cbn [fst snd].
  assert (run_cut (cur ++ [x]) = cut_push ([], cur) x) as Hr.
  { unfold run_cut in *. rewrite fold_left_app, Hcur. cbn [fold_left].
    unfold cut_step, cut_before. cbn [fst snd]. by rewrite Hov. }
  unfold cut_push in Hr. cbn [fst snd app] in Hr.
  destruct (closes k _ _ _); (split; [|done]); [|done].
  apply Forall_app. split; [done|]. by constructor.
Qed.

(** ** Nodes are not too small: with records of at most [b] bytes, every
    closed node holds at least [m] of them. *)
Lemma run_cut_min (m b : N) l :
  0 < b → sk_header_bytes k + m * b ≤ MAX_NODE_BYTES →
  m ≤ sk_min_records k → m ≤ sk_max_records k →
  Forall (λ x, (rec x).1 ≤ b) l → Forall record_fits l →
  Forall (λ g, m ≤ len g) (run_cut l).1.
Proof.
  intros Hb0 Hb Hmin Hmx Hl Hfits.
  assert (∀ g, Forall (λ x, (rec x).1 ≤ b) g → weight g ≤ sk_header_bytes k + len g * b) as Hw.
  { unfold weight. induction 1 as [|x g Hx Hg IH]; csimpl; [lia|]. rewrite len_cons. simpl. lia. }
  induction l as [|x l IH] using rev_ind; [constructor|].
  apply Forall_app in Hl as [Hl Hx]. apply Forall_cons in Hx as [Hx _].
  apply Forall_app in Hfits as [Hf _]. specialize (IH Hl Hf).
  pose proof (run_cut_spec l Hf) as Hspec.
  unfold run_cut at 1. rewrite fold_left_app. fold (run_cut l). cbn [fold_left].
  destruct (run_cut l) as [gs cur]. destruct Hspec as (El & _ & _). cbn [fst] in IH.
  rewrite <-El in Hl. apply Forall_app in Hl as [_ Hc].
  assert (Forall (λ g, m ≤ len g) (cut_before (gs, cur) x).1 ∧
    Forall (λ x, (rec x).1 ≤ b) (cut_before (gs, cur) x).2) as [H1 H2].
  { unfold cut_before. cbn [fst snd]. destruct (overflows cur x) eqn:Eo; [|done]. cbn [fst snd].
    split; [|constructor]. apply Forall_app. split; [done|]. constructor; [|done].
    unfold overflows in Eo. bool_to_prop. apply orb_true_iff in H0 as [H0|H0].
    - apply N.leb_le in H0. lia.
    - apply N.ltb_lt in H0. specialize (Hw cur Hc). cbv beta in Hx. nia. }
  unfold cut_step, cut_push. destruct (closes k _ _ _) eqn:Ec; [|done]. cbn [fst].
  apply Forall_app. split; [done|]. constructor; [|done].
  assert (Forall (λ x, (rec x).1 ≤ b) ((cut_before (gs, cur) x).2 ++ [x])) as H3
    by (apply Forall_app; split; [done|by constructor]).
  specialize (Hw _ H3). unfold closes in Ec.
  apply orb_true_iff in Ec as [Ec|Ec].
  - destruct (_ && _) eqn:En in Ec; [|done]. bool_to_prop. lia.
  - apply orb_true_iff in Ec as [Ec%N.leb_le|Ec%N.eqb_eq]; [lia|]. nia.
Qed.

Lemma cut_count (m b : N) l :
  0 < b → sk_header_bytes k + m * b ≤ MAX_NODE_BYTES →
  m ≤ sk_min_records k → m ≤ sk_max_records k →
  Forall (λ x, (rec x).1 ≤ b) l → Forall record_fits l →
  m * len (cut l) ≤ len l + m.
Proof.
  intros Hb0 Hb Hmin Hmx Hl Hf. pose proof (run_cut_min m b l Hb0 Hb Hmin Hmx Hl Hf) as Hg.
  pose proof (run_cut_spec l Hf) as Hspec. unfold cut.
  destruct (run_cut l) as [gs cur]. destruct Hspec as (<- & _ & _). cbn [fst] in Hg.
  assert (m * len gs ≤ len (concat gs)) as Hc.
  { clear -Hg. induction Hg as [|g gs Hx Hg IH]; [unfold len; simpl; lia|].
    cbn [concat]. rewrite len_app, len_cons. lia. }
  rewrite len_app. destruct cur; [lia|]. rewrite (len_app gs). change (len [_]) with 1. lia.
Qed.
End cut.
