(* ===== verification/TreeV2.v ===== *)
(** src/crates/sync-core/src/tree_v2.rs: building, loading, updating and
    paging the range Merkle tree over a chunk store. *)

From S2P Require Import Prelude Bytes Keyed Hash Chunk Store TreeV1 TreeV2Codec TreeV2Segment.
Local Open Scope N_scope.

(** [UpdateStats]. *)
Record UpdateStats := {
  us_leaves_loaded : N;
  us_entries_loaded : N;
  us_replacement_leaves : N;
  us_internal_nodes_emitted : N;
  us_resync_leaves_scanned : N;
  us_reached_tree_end : bool;
}.
Definition us_default : UpdateStats := {|
  us_leaves_loaded := 0; us_entries_loaded := 0; us_replacement_leaves := 0;
  us_internal_nodes_emitted := 0; us_resync_leaves_scanned := 0; us_reached_tree_end := false |}.

(** * The traversal budget *)

Record TraversalBudget := { tb_nodes : N; tb_entries : N }.
Definition tb_default : TraversalBudget := {| tb_nodes := 0; tb_entries := 0 |}.

(** [TraversalBudget::node]. *)
Definition budget_node (depth : N) : St TraversalBudget ChunkError unit := λ b,
  if MAX_TREE_DEPTH <? depth
  then (Err (invalid "Tree v2 exceeds the depth limit"), b)
  else
    let b := {| tb_nodes := saturating_add64 (tb_nodes b) 1; tb_entries := tb_entries b |} in
    if MAX_VISITED_NODES <? tb_nodes b
    then (Err (invalid "Tree v2 exceeds the node limit"), b)
    else (Ok tt, b).

(** [TraversalBudget::entries]. *)
Definition budget_entries (count : N) : St TraversalBudget ChunkError unit := λ b,
  let b := {| tb_nodes := tb_nodes b; tb_entries := saturating_add64 (tb_entries b) count |} in
  if MAX_LOADED_ENTRIES <? tb_entries b
  then (Err (invalid "Tree v2 exceeds the entry limit"), b)
  else (Ok tt, b).

(** Run a read-only traversal on the current store, keeping the budget. *)
Definition with_budget {S A} (m : S → St TraversalBudget ChunkError A) (b : TraversalBudget)
    : St S ChunkError (A * TraversalBudget) := λ s,
  match m s b with
  | (Ok a, b') => (Ok (a, b'), s)
  | (Err e, _) => (Err e, s)
  end.

Definition empty_root : TreeV2Root :=
  {| tv_version := TREE_VERSION; tv_total_files := 0; tv_child := None |}.

(** [iter().try_fold(0u64, |sum, r| sum.checked_add(r.file_count))]. *)
Definition count_files (rs : list RangeRef) : result ChunkError N :=
  ok_or (try_sum 0 (rr_file_count <$> rs)) (invalid "Tree v2 file count overflow").

(** [validate_descriptor_for_node]. *)
Definition validate_descriptor_for_node (range : RangeRef) (serialized_bytes : N) (node : V2Node)
    : result ChunkError unit :=
  let? _ := check (serialized_bytes <=? U32_MAX)
              (invalid "Tree v2 child length does not fit its descriptor") in
  let? matches :=
    match node with
    | V2Leaf entries =>
        match entries with
        | [] => Ok false
        | first :: rest =>
            let last := List.last rest first in
            Ok (beq (rr_min_path range) (fe_path first)
                && beq (rr_max_path range) (fe_path last)
                && (rr_file_count range =? len entries)
                && (rr_serialized_bytes range =? serialized_bytes)
                && (rr_height range =? 0))
        end
    | V2Internal child_height children =>
        match children with
        | [] => Ok false
        | first :: rest =>
            let last := List.last rest first in
            let? file_count := count_files children in
            Ok (beq (rr_min_path range) (rr_min_path first)
                && beq (rr_max_path range) (rr_max_path last)
                && (rr_file_count range =? file_count)
                && (rr_serialized_bytes range =? serialized_bytes)
                && (rr_height range =? child_height + 1))
        end
    end in
  check matches (invalid "Tree v2 child descriptor does not match its bytes").

Section tree_v2.
Context {S : Type} {B3 : Blake3} {CS : ChunkStore S}.

(** [validate_loaded_node]. *)
Definition validate_loaded_node (range : RangeRef) (b : bytes) : result ChunkError V2Node :=
  let? _ := validate_range range in
  if negb (len b =? rr_serialized_bytes range) || negb (beq (hash_bytes b) (rr_hash range))
  then Err (invalid "Tree v2 child failed content-address validation")
  else
    let? node := decode_node b in
    let? _ := validate_descriptor_for_node range (len b) node in
    Ok node.

(** [load_node]. *)
Definition load_node (s : S) (range : RangeRef) : result ChunkError V2Node :=
  let? _ := validate_range range in
  let? b := cs_get (rr_hash range) s in
  validate_loaded_node range b.

(** [store_leaf]; the source indexes [entries[0]], the callers pass
    non-empty slices. *)
Definition store_leaf (entries : list FileEntry) : St S ChunkError RangeRef :=
  let! b := st_lift (encode_leaf entries) in
  let h := hash_bytes b in
  let! _ := st_lift (check (len b <=? U32_MAX)
              (invalid "Tree v2 leaf length does not fit its descriptor")) in
  let! _ := cs_put h b in
  st_ret {| rr_min_path := match entries with e :: _ => fe_path e | [] => [] end;
            rr_max_path := match entries with e :: es => fe_path (List.last es e) | [] => [] end;
            rr_hash := h; rr_file_count := len entries; rr_serialized_bytes := len b;
            rr_height := 0 |}.

(** [store_internal]. The boundary strings are moved out of a level that is
    dropped afterwards. *)
Definition store_internal (child_height : N) (children : list RangeRef)
    : St S ChunkError RangeRef :=
  let! b := st_lift (encode_internal child_height children) in
  let h := hash_bytes b in
  let! _ := st_lift (check (len b <=? U32_MAX)
              (invalid "Tree v2 internal length does not fit its descriptor")) in
  let! _ := cs_put h b in
  let! file_count := st_lift (count_files children) in
  st_ret {| rr_min_path := match children with c :: _ => rr_min_path c | [] => [] end;
            rr_max_path := match children with c :: cs => rr_max_path (List.last cs c) | [] => [] end;
            rr_hash := h; rr_file_count := file_count; rr_serialized_bytes := len b;
            rr_height := child_height + 1 |}.

(** The loop of [root_from_leaves]. Every round raises the height of the
    level by one and the source stops with the depth error at height
    [MAX_TREE_DEPTH], so [fuel = MAX_TREE_DEPTH + 1] rounds are all there can be. *)
Fixpoint build_levels (fuel : nat) (ranges : list RangeRef) (emitted : N)
    : St S ChunkError (RangeRef * N) :=
  match ranges, fuel with
  | [child], _ => st_ret (child, emitted)
  | _, O => st_err (invalid "Tree v2 exceeds the depth limit")
  | _, Datatypes.S fuel =>
      let child_height := match ranges with r :: _ => rr_height r | [] => 0 end in
      if MAX_TREE_DEPTH <=? child_height
      then st_err (invalid "Tree v2 exceeds the depth limit")
      else
        let! _ := st_lift (validate_ranges ranges child_height) in
        let! segments := st_lift (segment_ranges ranges) in
        let! parents :=
          st_map (λ seg, store_internal child_height (segment_slice ranges seg)) segments in
        build_levels fuel parents (emitted + len segments)
  end.

(** [root_from_leaves]. *)
Definition root_from_leaves (ranges : list RangeRef) : St S ChunkError (TreeV2Root * N) :=
  match ranges with
  | [] => st_ret (empty_root, 0)
  | _ =>
      let! _ := st_lift (validate_ranges ranges 0) in
      let! total_files := st_lift (count_files ranges) in
      let! ' (child, emitted) := build_levels 17 ranges 0 in
      st_ret ({| tv_version := TREE_VERSION; tv_total_files := total_files;
                 tv_child := Some child |}, emitted)
  end.

(** [build_tree]. *)
Definition build_tree_v2 (entries : list FileEntry) : St S ChunkError TreeV2Root :=
  let entries := sort_by fe_path entries in
  let! _ := st_lift (validate_entries entries) in
  match entries with
  | [] => st_ret empty_root
  | _ =>
      let! segments := st_lift (segment_entries entries) in
      let! leaves := st_map (λ seg, store_leaf (segment_slice entries seg)) segments in
      let! ' (root, _) := root_from_leaves leaves in
      st_ret root
  end.

(** The loop of [collect_leaf_refs]; the top of the stack is the head. Every
    round charges the budget one node, so [MAX_VISITED_NODES + 1] rounds end
    in the node-limit error. *)
Fixpoint collect_loop (fuel : nat) (s : S) (pending leaves : list RangeRef)
    : St TraversalBudget ChunkError (list RangeRef) :=
  match pending with
  | [] => st_ret leaves
  | range :: pending =>
      match fuel with
      | O => st_err (invalid "Tree v2 exceeds the node limit")
      | Datatypes.S fuel =>
          let! _ := budget_node (rr_height range) in
          if rr_height range =? 0 then collect_loop fuel s pending (leaves ++ [range])
          else
            let! node := st_lift (load_node s range) in
            match node with
            | V2Internal _ children => collect_loop fuel s (children ++ pending) leaves
            | V2Leaf _ => st_err (invalid "Tree v2 internal descriptor names a leaf")
            end
      end
  end.

(** [collect_leaf_refs]. *)
Definition collect_leaf_refs (root : TreeV2Root) (s : S)
    : St TraversalBudget ChunkError (list RangeRef) :=
  let! _ := st_lift (validate_root_shape root) in
  let pending := match tv_child root with Some c => [c] | None => [] end in
  let! leaves := collect_loop (N.to_nat (MAX_VISITED_NODES + 1)) s pending [] in
  let! _ := st_lift (validate_ranges leaves 0) in
  let! total := st_lift (count_files leaves) in
  if negb (total =? tv_total_files root)
  then st_err (invalid "Tree v2 root total does not match its ranges")
  else st_ret leaves.

(** The read loop of [load_leaf_span]. *)
Fixpoint load_span_loop (s : S) (leaves : list RangeRef) (output : list FileEntry)
    : St TraversalBudget ChunkError (list FileEntry) :=
  match leaves with
  | [] => st_ret output
  | leaf :: leaves =>
      let! _ := budget_node 0 in
      let! node := st_lift (load_node s leaf) in
      match node with
      | V2Internal _ _ => st_err (invalid "Tree v2 leaf descriptor names an internal node")
      | V2Leaf entries =>
          let! _ := budget_entries (len entries) in
          load_span_loop s leaves (output ++ entries)
      end
  end.

(** [load_leaf_span]. *)
Definition load_leaf_span (leaves : list RangeRef) (s : S)
    : St TraversalBudget ChunkError (list FileEntry) :=
  let! _ := st_lift (for_each (λ leaf,
      let? _ := validate_range leaf in
      check (rr_height leaf =? 0) (invalid "Tree v2 leaf span contains an internal node"))
    leaves) in
  let! _ := st_lift (ok_or (try_sum 0 (rr_file_count <$> leaves))
              (invalid "Tree v2 entry capacity overflow")) in
  let! output := load_span_loop s leaves [] in
  let! _ := st_lift (validate_entries output) in
  st_ret output.

(** [load_all_entries]. *)
Definition load_all_entries_v2 (root : TreeV2Root) (s : S) : result ChunkError (list FileEntry) :=
  let load :=
    let! leaves := collect_leaf_refs root s in
    let! entries := load_leaf_span leaves s in
    if negb (len entries =? tv_total_files root)
    then st_err (invalid "Tree v2 root total does not match its leaves")
    else st_ret entries in
  (load tb_default).1.

(** [leaf_ranges]. *)
Definition leaf_ranges (root : TreeV2Root) (s : S) : result ChunkError (list RangeRef) :=
  (collect_leaf_refs root s tb_default).1.

(** [segment.end.saturating_sub(1)] of the last segment is the last entry of
    a boundary that reappears. *)
Definition resynchronized (segments : list Segment) (entries : list FileEntry)
    (last_leaf : RangeRef) : bool :=
  match last segments with
  | Some segment =>
      sg_stable_end segment
      && match entries !! N.to_nat (sg_end segment - 1) with
         | Some e => beq (fe_path e) (rr_max_path last_leaf)
         | None => false
         end
  | None => false
  end.

(** The loop of [update_tree]: [last_leaf] is [leaves[end]], [rest] is
    [leaves[end + 1..]] and [scanned] is [end - start + 1]. *)
Fixpoint resync_loop (s : S) (last_leaf : RangeRef) (rest : list RangeRef) (scanned : N)
    (entries : list FileEntry) (stats : UpdateStats)
    : St TraversalBudget ChunkError (list Segment * list FileEntry * list RangeRef * UpdateStats) :=
  let! segments := st_lift (segment_entries entries) in
  let reached_tree_end := match rest with [] => true | _ => false end in
  match rest with
  | next :: rest' =>
      if resynchronized segments entries last_leaf then
        st_ret (segments, entries, rest,
          {| us_leaves_loaded := us_leaves_loaded stats;
             us_entries_loaded := us_entries_loaded stats;
             us_replacement_leaves := us_replacement_leaves stats;
             us_internal_nodes_emitted := us_internal_nodes_emitted stats;
             us_resync_leaves_scanned := scanned;
             us_reached_tree_end := reached_tree_end |})
      else
        let! appended := load_leaf_span [next] s in
        resync_loop s next rest' (scanned + 1) (entries ++ appended)
          {| us_leaves_loaded := saturating_add64 (us_leaves_loaded stats) 1;
             us_entries_loaded := saturating_add64 (us_entries_loaded stats) (len appended);
             us_replacement_leaves := us_replacement_leaves stats;
             us_internal_nodes_emitted := us_internal_nodes_emitted stats;
             us_resync_leaves_scanned := us_resync_leaves_scanned stats;
             us_reached_tree_end := us_reached_tree_end stats |}
  | [] =>
      st_ret (segments, entries, [],
        {| us_leaves_loaded := us_leaves_loaded stats;
           us_entries_loaded := us_entries_loaded stats;
           us_replacement_leaves := us_replacement_leaves stats;
           us_internal_nodes_emitted := us_internal_nodes_emitted stats;
           us_resync_leaves_scanned := scanned;
           us_reached_tree_end := reached_tree_end |})
  end.

(** [update_tree], from the choice of the first and last affected leaf on;
    [leaves] is not empty and [first_leaf] is its head. *)
Definition update_leaves (first_leaf : RangeRef) (leaves : list RangeRef) (budget : TraversalBudget)
    (first_path last_path : bytes) (changed : list FileEntry) (deleted : list bytes)
    : St S ChunkError (TreeV2Root * UpdateStats) :=
  let bound := (length leaves - 1)%nat in
  let start := Nat.min (partition_point (λ r, blt (rr_max_path r) first_path) leaves) bound in
  let stop := Nat.max (Nat.min (partition_point (λ r, blt (rr_max_path r) last_path) leaves)
                         bound) start in
  let span := take (stop - start + 1) (drop start leaves) in
  let! ' (loaded, budget) := with_budget (load_leaf_span span) budget in
  let stats :=
    {| us_leaves_loaded := N.of_nat (stop - start + 1); us_entries_loaded := len loaded;
       us_replacement_leaves := 0; us_internal_nodes_emitted := 0;
       us_resync_leaves_scanned := 0; us_reached_tree_end := false |} in
  let! ' (r, budget) :=
    with_budget (λ s, resync_loop s (nth stop leaves first_leaf)
      (drop (stop + 1) leaves) (N.of_nat (stop - start + 1))
      (merge_prefix_entries loaded changed deleted) stats) budget in
  let '(segments, entries, rest, stats) := r in
  let! replacement_refs := st_map (λ seg, store_leaf (segment_slice entries seg)) segments in
  let next_leaves := take start leaves ++ replacement_refs ++ rest in
  let! _ := st_lift (validate_ranges next_leaves 0) in
  let! ' (next, internal_nodes) := root_from_leaves next_leaves in
  st_ret (next,
    {| us_leaves_loaded := us_leaves_loaded stats;
       us_entries_loaded := us_entries_loaded stats;
       us_replacement_leaves := len replacement_refs;
       us_internal_nodes_emitted := internal_nodes;
       us_resync_leaves_scanned := us_resync_leaves_scanned stats;
       us_reached_tree_end := us_reached_tree_end stats |}).

(** [update_tree]. *)
Definition update_tree_v2 (root : TreeV2Root) (changed : list FileEntry) (deleted : list bytes)
    : St S ChunkError (TreeV2Root * UpdateStats) :=
  let! _ := st_lift (validate_root_shape root) in
  let! _ := st_lift (for_each (λ e, validate_path (fe_path e)) changed) in
  let! _ := st_lift (for_each validate_path deleted) in
  match sort_by id ((fe_path <$> changed) ++ deleted) with
  | [] => st_ret (root, us_default)
  | first_path :: paths =>
      let last_path := List.last paths first_path in
      let! ' (leaves, budget) := with_budget (collect_leaf_refs root) tb_default in
      match leaves with
      | [] =>
          let merged := merge_prefix_entries [] changed deleted in
          let! segments := st_lift (segment_entries merged) in
          let! next := build_tree_v2 merged in
          st_ret (next,
            {| us_leaves_loaded := 0; us_entries_loaded := 0;
               us_replacement_leaves := len segments; us_internal_nodes_emitted := 0;
               us_resync_leaves_scanned := 0; us_reached_tree_end := true |})
      | first_leaf :: _ =>
          update_leaves first_leaf leaves budget first_path last_path changed deleted
      end
  end.

(** [range_page]: the page loop over the leaves. *)
Definition after (after_path : option bytes) (p : bytes) : bool :=
  match after_path with Some q => blt q p | None => true end.

Fixpoint page_entries (after_path : option bytes) (max_entries : N)
    (entries output : list FileEntry) : list FileEntry * bool :=
  match entries with
  | [] => (output, false)
  | e :: entries =>
      if negb (after after_path (fe_path e))
      then page_entries after_path max_entries entries output
      else
        let output := output ++ [e] in
        if len output =? max_entries then (output, true)
        else page_entries after_path max_entries entries output
  end.

Fixpoint page_loop (s : S) (after_path : option bytes) (max_entries : N)
    (leaves : list RangeRef) (output : list FileEntry)
    : St TraversalBudget ChunkError (list FileEntry) :=
  match leaves with
  | [] => st_ret output
  | range :: leaves =>
      if negb (after after_path (rr_max_path range))
      then page_loop s after_path max_entries leaves output
      else
        let! entries := load_leaf_span [range] s in
        match page_entries after_path max_entries entries output with
        | (output, true) => st_ret output
        | (output, false) => page_loop s after_path max_entries leaves output
        end
  end.

Definition range_page (root : TreeV2Root) (after_path : option bytes) (max_entries : N) (s : S)
    : result ChunkError (list FileEntry) :=
  if (max_entries =? 0) || (8192 <? max_entries)
  then Err (invalid "Tree v2 range page limit is invalid")
  else
    let? _ := match after_path with Some p => validate_path p | None => Ok tt end in
    let page :=
      let! leaves := collect_leaf_refs root s in
      page_loop s after_path max_entries leaves [] in
    (page tb_default).1.
End tree_v2.
