(* ===== verification/TreeV2Build.v ===== *)
(** The trees that src/crates/sync-core/src/tree_v2.rs writes, as a pure
    function of the entries: nodes, levels and stored objects. *)

From S2P Require Import Prelude Bytes Keyed Hash Chunk Store TreeV1 TreeV1Build.
From S2P Require Import TreeV2Codec TreeV2CodecProps TreeV2Segment TreeV2.
Local Open Scope N_scope.

(** * Cutting commutes with renaming the records *)
Section cut_fmap.
Context {A B : Type} (k : SegmentKind) (rec : B → N * bytes) (f : A → B).

Abbreviation lmap := (fmap (M := list)).

Lemma weight_fmap g : weight k rec (f <$> g) = weight k (λ x, rec (f x)) g.
Proof. unfold weight. by rewrite <-list_fmap_compose. Qed.

Lemma len_fmap {X Y} (h : X → Y) l : len (h <$> l) = len l.
Proof. unfold len. by rewrite length_fmap. Qed.

Lemma cut_step_fmap acc x :
  cut_step k rec (lmap (lmap f) acc.1, lmap f acc.2) (f x) =
    let r := cut_step k (λ x, rec (f x)) acc x in (lmap (lmap f) r.1, lmap f r.2).
Proof.
  destruct acc as [gs cur]. unfold cut_step, cut_before, cut_push, overflows. cbn [fst snd].
  rewrite len_fmap, weight_fmap. destruct (_ && _); cbn [fst snd].
  - change ([] ++ [f x]) with (lmap f ([] ++ [x])). rewrite len_fmap, weight_fmap.
    destruct (closes _ _ _ _); cbn [fst snd]; by rewrite ?(fmap_app _ (gs ++ _)), (fmap_app _ gs).
  - replace (lmap f cur ++ [f x]) with (lmap f (cur ++ [x])) by (by rewrite fmap_app).
    rewrite len_fmap, weight_fmap. destruct (closes _ _ _ _); cbn [fst snd]; [|done].
    by rewrite (fmap_app _ gs).
Qed.

Lemma run_cut_fmap l :
  run_cut k rec (f <$> l) =
    let r := run_cut k (λ x, rec (f x)) l in (lmap (lmap f) r.1, lmap f r.2).
Proof.
  unfold run_cut. induction l as [|x l IH] using rev_ind; [done|].
  rewrite fmap_app. csimpl. rewrite !fold_left_app, IH. cbn [fold_left]. apply cut_step_fmap.
Qed.

Lemma cut_fmap l : cut k rec (f <$> l) = lmap (lmap f) (cut k (λ x, rec (f x)) l).
Proof.
  unfold cut. rewrite run_cut_fmap. destruct (run_cut k _ l) as [gs cur]. cbn [fst snd].
  destruct cur; [done|]. rewrite fmap_app. done.
Qed.
End cut_fmap.

(** * Nodes *)

Definition leaf_bytes (es : list FileEntry) : bytes :=
  LEAF_MAGIC ++ le_bytes 4 (len es) ++ concat (entry_bytes <$> es).
Definition node_bytes (h : N) (cs : list RangeRef) : bytes :=
  INTERNAL_MAGIC ++ le_bytes 2 h ++ le_bytes 2 0 ++ le_bytes 4 (len cs)
  ++ concat (range_bytes <$> cs).

Definition sum_files (rs : list RangeRef) : N := foldr N.add 0 (rr_file_count <$> rs).

Section nodes.
Context {B3 : Blake3}.

Definition leaf_ref (es : list FileEntry) : RangeRef :=
  {| rr_min_path := match es with e :: _ => fe_path e | [] => [] end;
     rr_max_path := match es with e :: es => fe_path (List.last es e) | [] => [] end;
     rr_hash := hash_bytes (leaf_bytes es); rr_file_count := len es;
     rr_serialized_bytes := len (leaf_bytes es); rr_height := 0 |}.

Definition parent_ref (h : N) (cs : list RangeRef) : RangeRef :=
  {| rr_min_path := match cs with c :: _ => rr_min_path c | [] => [] end;
     rr_max_path := match cs with c :: cs => rr_max_path (List.last cs c) | [] => [] end;
     rr_hash := hash_bytes (node_bytes h cs); rr_file_count := sum_files cs;
     rr_serialized_bytes := len (node_bytes h cs); rr_height := h + 1 |}.

(** A range tree with its entries at the leaves. *)
Inductive rtree := RLeaf (es : list FileEntry) | RNode (h : N) (cs : list rtree).

Fixpoint t_ref (t : rtree) : RangeRef :=
  match t with
  | RLeaf es => leaf_ref es
  | RNode h cs => parent_ref h (map t_ref cs)
  end.
Fixpoint t_leaves (t : rtree) : list (list FileEntry) :=
  match t with RLeaf es => [es] | RNode _ cs => concat (map t_leaves cs) end.
Fixpoint t_nodes (t : rtree) : N :=
  match t with RLeaf _ => 1 | RNode _ cs => 1 + foldr N.add 0 (map t_nodes cs) end.

Definition tree_record (t : rtree) : N * bytes := range_record (t_ref t).

(** The next level over a level of height [h]. *)
Definition next_level (h : N) (ts : list rtree) : list rtree :=
  RNode h <$> cut internal_kind tree_record ts.

Definition level_bytes (h : N) (ts : list rtree) : list bytes :=
  (λ g, node_bytes h (t_ref <$> g)) <$> cut internal_kind tree_record ts.

Fixpoint grow (fuel : nat) (h : N) (ts : list rtree) : rtree :=
  match ts, fuel with
  | [t], _ => t
  | _, O => RLeaf []
  | _, S fuel => grow fuel (h + 1) (next_level h ts)
  end.

(** The internal nodes written by [build_levels], and their number. *)
Fixpoint grow_bytes (fuel : nat) (h : N) (ts : list rtree) : list bytes :=
  match ts, fuel with
  | [t], _ => []
  | _, O => []
  | _, S fuel => level_bytes h ts ++ grow_bytes fuel (h + 1) (next_level h ts)
  end.

Definition leaf_level (es : list FileEntry) : list rtree :=
  RLeaf <$> cut leaf_kind entry_record es.

(** The root over [es], and everything written below it. *)
Definition root_of (es : list FileEntry) : TreeV2Root :=
  match es with
  | [] => empty_root
  | _ => {| tv_version := TREE_VERSION; tv_total_files := len es;
            tv_child := Some (t_ref (grow 17 0 (leaf_level es))) |}
  end.
Definition leaves_bytes (es : list FileEntry) : list bytes :=
  leaf_bytes <$> cut leaf_kind entry_record es.
Definition written (es : list FileEntry) : list bytes :=
  leaves_bytes es ++ grow_bytes 17 0 (leaf_level es).
End nodes.

(** * Well-formed levels *)

#[global] Instance range_lt_trans : Transitive range_lt.
Proof. intros a b c [H1 H2] [H3 H4]. split; by trans (rr_max_path b). Qed.

Lemma StronglySorted_app_cross {A} (R : relation A) l1 l2 x y :
  StronglySorted R (l1 ++ l2) → x ∈ l1 → y ∈ l2 → R x y.
Proof. intros (H & _)%StronglySorted_app Hx Hy. by apply H. Qed.

Lemma StronglySorted_concat {A} (R : relation A) (ls : list (list A)) l :
  StronglySorted R (concat ls) → l ∈ ls → StronglySorted R l.
Proof.
  induction ls as [|l' ls IH]; [by intros _ ?%not_elem_of_nil|]. cbn [concat].
  intros (_ & H1 & H2)%StronglySorted_app [->|Hl]%elem_of_cons; auto.
Qed.

Lemma StronglySorted_of_fmap {A B} (R : relation B) (f : A → B) l :
  StronglySorted R (f <$> l) → StronglySorted (λ x y, R (f x) (f y)) l.
Proof.
  induction l as [|x l IH]; [constructor|]. csimpl. rewrite !StronglySorted_cons, Forall_fmap.
  intros [H1 H2]. split; [exact H1|by apply IH].
Qed.

Lemma last_elem {A} (x : A) l : List.last l x ∈ x :: l.
Proof.
  destruct l as [|y l _] using rev_ind; [by left|].
  rewrite List.last_last. right. apply elem_of_app. right. by left.
Qed.

Section levels.
Context {B3 : Blake3}.

Definition range_good (h : N) (r : RangeRef) : Prop :=
  rr_height r = h ∧ range_valid r ∧ range_typed r = true.

Record refs_ok (h : N) (rs : list RangeRef) : Prop := {
  ro_good : Forall (range_good h) rs;
  ro_sorted : StronglySorted range_lt rs;
  ro_files : sum_files rs ≤ MAX_LOADED_ENTRIES;
}.

(** A vault the format admits. *)
Definition entries_ok (es : list FileEntry) : Prop :=
  validate_entries es = Ok tt ∧ forallb entry_ok es = true.

Lemma leaf_record_le e : validate_path (fe_path e) = Ok tt → leaf_record_len e ≤ 4146.
Proof.
  intros [_ H]%validate_path_len. unfold leaf_record_len, MAX_PATH_BYTES in *. lia.
Qed.
Lemma range_record_le r : range_valid r → range_record_len r ≤ 8240.
Proof.
  intros Hr. pose proof (validate_path_len _ _ (rv_min _ Hr)) as [_ H1].
  pose proof (validate_path_len _ _ (rv_max _ Hr)) as [_ H2].
  unfold range_record_len, MAX_PATH_BYTES in *. lia.
Qed.

Lemma entries_fit es :
  entries_ok es → Forall (record_fits leaf_kind entry_record) es ∧
                  Forall (λ e, (entry_record e).1 ≤ 4146) es.
Proof.
  intros [(_ & Hv & _)%validate_entries_ok _].
  split; (eapply Forall_impl; [exact Hv|]); intros e He; apply leaf_record_le in He; cbn.
  - unfold record_fits. cbn. unfold LEAF_HEADER_BYTES, MAX_NODE_BYTES. lia.
  - done.
Qed.

Lemma refs_fit h ts :
  refs_ok h (t_ref <$> ts) → Forall (record_fits internal_kind tree_record) ts ∧
                   Forall (λ t, (tree_record t).1 ≤ 8240) ts.
Proof.
  intros [Hg _ _]. rewrite Forall_fmap in Hg.
  split; (eapply Forall_impl; [exact Hg|]); intros t (_ & Ht & _); apply range_record_le in Ht; cbn.
  - unfold record_fits. cbn. unfold INTERNAL_HEADER_BYTES, MAX_NODE_BYTES. lia.
  - done.
Qed.

Lemma leaf_kind_ok : 1 < sk_max_records leaf_kind ∧ sk_header_bytes leaf_kind ≤ MAX_NODE_BYTES.
Proof. done. Qed.
Lemma internal_kind_ok :
  1 < sk_max_records internal_kind ∧ sk_header_bytes internal_kind ≤ MAX_NODE_BYTES.
Proof. done. Qed.

(** ** Leaves *)

Lemma entries_ok_sub es g gs :
  entries_ok es → concat gs = es → g ∈ gs → entries_ok g.
Proof.
  intros [(Hl & Hv & Hs)%validate_entries_ok Hok] <- Hg. split.
  - apply validate_entries_ok. rewrite Forall_concat in Hv. rewrite Forall_forall in Hv.
    apply ssorted_concat in Hs. rewrite Forall_forall in Hs. split_and!; [|by apply Hv|by apply Hs].
    apply list_elem_of_split in Hg as (g1 & g2 & ->).
    rewrite concat_app, len_app in Hl. cbn [concat] in Hl. rewrite len_app in Hl. lia.
  - apply forallb_forall. intros e He. rewrite forallb_forall in Hok. apply Hok.
    apply in_concat. exists g. split; [by apply list_elem_of_In|done].
Qed.

Lemma weight_leaf g : weight leaf_kind entry_record g = LEAF_HEADER_BYTES + foldr N.add 0 (leaf_record_len <$> g).
Proof. done. Qed.

Lemma leaf_group_encodes g :
  entries_ok g → fits leaf_kind entry_record g → encode_leaf g = Ok (leaf_bytes g).
Proof.
  intros [Hv _] (_ & Hc & Hw). rewrite weight_leaf in Hw. by apply encode_leaf_ok.
Qed.

Lemma len_leaf_bytes g :
  entries_ok g → len (leaf_bytes g) = weight leaf_kind entry_record g.
Proof.
  intros [_ Hok]. unfold leaf_bytes. rewrite !len_app, len_le_bytes, entries_bytes_len by done.
  rewrite weight_leaf. change (len LEAF_MAGIC) with 4. unfold LEAF_HEADER_BYTES. lia.
Qed.

Lemma leaf_ref_good g :
  entries_ok g → fits leaf_kind entry_record g → range_good 0 (leaf_ref g).
Proof.
  intros Hg (Hne & Hc & Hw). pose proof (len_leaf_bytes g Hg) as Hl.
  destruct Hg as [(Hm & Hv & Hs)%validate_entries_ok Hok].
  destruct g as [|e g]; [done|]. pose proof (last_elem e g) as He.
  assert (List.last g e ∈ e :: g) as He' by done.
  rewrite Forall_forall in Hv. rewrite forallb_forall in Hok.
  assert (entry_ok e = true) as Hoe by (apply Hok; by left).
  assert (entry_ok (List.last g e) = true) as Hol by (apply Hok; by apply list_elem_of_In).
  unfold entry_ok in Hoe, Hol. bool_to_prop.
  assert (0 < len (e :: g)) by (rewrite len_cons; lia).
  assert (0 < weight leaf_kind entry_record (e :: g)) by (rewrite weight_leaf; unfold LEAF_HEADER_BYTES; lia).
  cbn [sk_max_records leaf_kind] in Hc. unfold leaf_ref. split_and!; [done|split|]; cbn [rr_min_path rr_max_path
    rr_file_count rr_height rr_serialized_bytes rr_hash].
  - apply Hv. by left.
  - by apply Hv.
  - apply elem_of_cons in He as [->|He]; [apply irreflexivity, _|].
    apply ssorted_cons in Hs as [Hs _]. rewrite Forall_forall in Hs. specialize (Hs _ He).
    intros ?. by apply (bytes_lt_asym (fe_path e) (fe_path (List.last g e))).
  - lia.
  - done.
  - lia.
  - done.
  - unfold range_typed. cbn [rr_min_path rr_max_path rr_file_count rr_height rr_serialized_bytes rr_hash].
    repeat (apply andb_true_intro; split); try done.
    + apply N.eqb_eq, len_hash_bytes.
    + apply N.leb_le. unfold MAX_LEAF_ENTRIES, U64_MAX in *. lia.
    + apply N.leb_le. unfold MAX_NODE_BYTES, U32_MAX in *. lia.
Qed.

Lemma sorted_groups {A} (R : relation A) (f : list A → RangeRef) (gs : list (list A)) :
  (∀ g g', g ≠ [] → g' ≠ [] → (∀ x y, x ∈ g → y ∈ g' → R x y) → range_lt (f g) (f g')) →
  Forall (λ g, g ≠ []) gs → StronglySorted R (concat gs) → StronglySorted range_lt (f <$> gs).
Proof.
  intros Hf Hne. induction Hne as [|g gs Hg Hgs IH]; [constructor|]. cbn [concat].
  intros (Hx & H1 & H2)%StronglySorted_app. csimpl. apply StronglySorted_cons.
  split; [|by apply IH]. apply Forall_fmap. rewrite Forall_forall in Hgs |- *. intros g' Hg'.
  apply Hf; [done|by apply Hgs|]. intros x y Hx' Hy. apply Hx; [done|].
  apply list_elem_of_In, in_concat. exists g'.
  split; by apply list_elem_of_In.
Qed.

Lemma leaf_ref_lt g g' :
  g ≠ [] → g' ≠ [] → (∀ x y, x ∈ g → y ∈ g' → key_lt fe_path x y) →
  range_lt (leaf_ref g) (leaf_ref g').
Proof.
  destruct g as [|e g]; [done|]. destruct g' as [|e' g']; [done|]. intros _ _ H.
  split; cbn; apply H; (apply last_elem || by left).
Qed.

Lemma parent_ref_lt h g g' :
  g ≠ [] → g' ≠ [] → (∀ x y, x ∈ g → y ∈ g' → range_lt x y) →
  range_lt (parent_ref h g) (parent_ref h g').
Proof.
  destruct g as [|r g]; [done|]. destruct g' as [|r' g']; [done|]. intros _ _ H.
  pose proof (last_elem r g). pose proof (last_elem r' g').
  split; cbn; [apply H; [done|by left]|by apply H].
Qed.

Lemma fits_nonempty {A} k (rec : A → _) gs : Forall (fits k rec) gs → Forall (λ g, g ≠ []) gs.
Proof. intros Hgs. eapply Forall_impl; [exact Hgs|]. by intros g [? _]. Qed.

Lemma leaf_level_groups es :
  entries_ok es →
  concat (cut leaf_kind entry_record es) = es ∧
  Forall (fits leaf_kind entry_record) (cut leaf_kind entry_record es) ∧
  Forall entries_ok (cut leaf_kind entry_record es).
Proof.
  intros Hes. destruct (entries_fit es Hes) as [Hf _]. destruct leaf_kind_ok as [K1 K2].
  destruct (cut_spec leaf_kind entry_record K1 K2 es Hf) as [Hc Hg]. split_and!; [done..|].
  apply Forall_forall. intros g Hin. by eapply entries_ok_sub.
Qed.

Lemma leaf_level_refs es :
  t_ref <$> leaf_level es = leaf_ref <$> cut leaf_kind entry_record es.
Proof. unfold leaf_level. by rewrite <-list_fmap_compose. Qed.

Lemma sum_leaf_refs gs : sum_files (leaf_ref <$> gs) = len (concat gs).
Proof.
  unfold sum_files. induction gs as [|g gs IH]; [done|]. csimpl. by rewrite IH, len_app.
Qed.

Lemma leaf_level_ok es : entries_ok es → refs_ok 0 (t_ref <$> leaf_level es).
Proof.
  intros Hes. destruct (leaf_level_groups es Hes) as (Hc & Hf & Ho). rewrite leaf_level_refs.
  pose proof Hes as [(Hl & _ & Hs)%validate_entries_ok _]. split.
  - apply Forall_fmap, Forall_forall. intros g Hg. rewrite Forall_forall in Hf, Ho.
    apply leaf_ref_good; auto.
  - eapply (sorted_groups (key_lt fe_path)); [apply leaf_ref_lt|by eapply fits_nonempty|].
    rewrite Hc. apply Hs.
  - by rewrite sum_leaf_refs, Hc.
Qed.

(** ** Internal nodes *)

Lemma sum_files_app a b : sum_files (a ++ b) = sum_files a + sum_files b.
Proof. unfold sum_files. induction a as [|r a IH]; [done|]. csimpl. simpl. rewrite IH. lia. Qed.

Lemma sum_files_le rs r : r ∈ rs → rr_file_count r ≤ sum_files rs.
Proof.
  intros (l1 & l2 & ->)%list_elem_of_split. rewrite sum_files_app. unfold sum_files. csimpl. lia.
Qed.

Lemma refs_ok_sub h rs g gs : refs_ok h rs → concat gs = rs → g ∈ gs → refs_ok h g.
Proof.
  intros [Hg Hs Hf] <- Hin. split.
  - rewrite Forall_concat, Forall_forall in Hg. by apply Hg.
  - by eapply StronglySorted_concat.
  - apply list_elem_of_split in Hin as (g1 & g2 & ->). rewrite concat_app in Hf.
    cbn [concat] in Hf. rewrite !sum_files_app in Hf. lia.
Qed.

Lemma weight_internal g :
  weight internal_kind range_record g = INTERNAL_HEADER_BYTES + foldr N.add 0 (range_record_len <$> g).
Proof. done. Qed.

Lemma refs_validate h rs : refs_ok h rs → validate_ranges rs h = Ok tt.
Proof.
  intros [Hg Hs _]. apply validate_ranges_ok. split; [|by apply StronglySorted_Sorted].
  eapply Forall_impl; [exact Hg|]. by intros r (?&?&_).
Qed.

Lemma node_group_encodes h g :
  refs_ok h g → fits internal_kind range_record g → encode_internal h g = Ok (node_bytes h g).
Proof.
  intros Hg (Hne & Hc & Hw). rewrite weight_internal in Hw. apply encode_internal_ok.
  split_and!; [|done|by apply refs_validate|done|done].
  destruct g; [done|]. rewrite len_cons. lia.
Qed.

Lemma len_node_bytes h g :
  refs_ok h g → len (node_bytes h g) = weight internal_kind range_record g.
Proof.
  intros [Hg _ _]. unfold node_bytes. rewrite !len_app, !len_le_bytes, ranges_bytes_len.
  - rewrite weight_internal. change (len INTERNAL_MAGIC) with 4. unfold INTERNAL_HEADER_BYTES. lia.
  - apply forallb_forall. intros r Hr%list_elem_of_In. rewrite Forall_forall in Hg. by apply Hg.
Qed.

Lemma parent_ref_good h g :
  h < MAX_TREE_DEPTH → refs_ok h g → fits internal_kind range_record g →
  range_good (h + 1) (parent_ref h g).
Proof.
  intros Hh Hg (Hne & Hc & Hw). pose proof (len_node_bytes h g Hg) as Hl.
  destruct Hg as [Hgood Hs Hf]. destruct g as [|r g]; [done|].
  pose proof (last_elem r g) as Hlast. rewrite Forall_forall in Hgood.
  destruct (Hgood r) as (_ & Vr & Tr); [by left|].
  destruct (Hgood _ Hlast) as (_ & Vl & Tl). unfold range_typed in Tr, Tl. bool_to_prop.
  assert (0 < weight internal_kind range_record (r :: g))
    by (rewrite weight_internal; unfold INTERNAL_HEADER_BYTES; lia).
  pose proof (rv_count _ Vr) as [? _].
  assert (rr_file_count r ≤ sum_files (r :: g)) by (apply sum_files_le; by left).
  unfold parent_ref. split_and!; [done|split|]; cbn [rr_min_path rr_max_path
    rr_file_count rr_height rr_serialized_bytes rr_hash].
  - apply Vr.
  - apply Vl.
  - pose proof (rv_order _ Vr) as Ho. apply elem_of_cons in Hlast as [->|Hin]; [done|].
    apply StronglySorted_cons in Hs as [Hs _]. rewrite Forall_forall in Hs.
    destruct (Hs _ Hin) as [_ Hlt]. intros Hlt'. apply Ho. by trans (rr_max_path (List.last g r)).
  - lia.
  - lia.
  - lia.
  - lia.
  - unfold range_typed. cbn [rr_min_path rr_max_path rr_file_count rr_height rr_serialized_bytes rr_hash].
    repeat (apply andb_true_intro; split); try done.
    + apply N.eqb_eq, len_hash_bytes.
    + apply N.leb_le. unfold MAX_LOADED_ENTRIES, U64_MAX in *. lia.
    + apply N.leb_le. unfold MAX_NODE_BYTES, U32_MAX in *. lia.
    + apply N.leb_le. unfold MAX_TREE_DEPTH, U16_MAX in *. lia.
Qed.

(** ** The next level *)

Lemma fits_refs g : fits internal_kind tree_record g → fits internal_kind range_record (t_ref <$> g).
Proof.
  intros (Hne & Hc & Hw). split_and!.
  - by destruct g.
  - by rewrite len_fmap.
  - by rewrite (weight_fmap internal_kind range_record t_ref).
Qed.

Lemma level_groups h ts :
  refs_ok h (t_ref <$> ts) →
  concat (cut internal_kind tree_record ts) = ts ∧
  Forall (λ g, g ≠ [] ∧ fits internal_kind range_record (t_ref <$> g) ∧ refs_ok h (t_ref <$> g))
    (cut internal_kind tree_record ts).
Proof.
  intros Hr. destruct (refs_fit h ts Hr) as [Hf _]. destruct internal_kind_ok as [K1 K2].
  destruct (cut_spec internal_kind tree_record K1 K2 ts Hf) as [Hc Hg]. split; [done|].
  rewrite Forall_forall in Hg |- *. intros g Hin. specialize (Hg g Hin).
  split_and!; [apply Hg|by apply fits_refs|].
  eapply (refs_ok_sub h (t_ref <$> ts) _ (fmap (M := list) t_ref <$> cut internal_kind tree_record ts)).
  - done.
  - rewrite <-Hc at 2. clear. induction (cut _ _ _) as [|g gs IH]; [done|].
    csimpl. by rewrite fmap_app, IH.
  - apply list_elem_of_fmap. by exists g.
Qed.

Lemma next_level_refs h ts :
  t_ref <$> next_level h ts =
    (λ g, parent_ref h (t_ref <$> g)) <$> cut internal_kind tree_record ts.
Proof. unfold next_level. by rewrite <-list_fmap_compose. Qed.

Lemma fmap_concat {X Y} (f : X → Y) (ls : list (list X)) :
  f <$> concat ls = concat (fmap (M := list) f <$> ls).
Proof. induction ls as [|l ls IH]; [done|]. csimpl. by rewrite fmap_app, IH. Qed.

Lemma sum_next_level h ts :
  refs_ok h (t_ref <$> ts) → sum_files (t_ref <$> next_level h ts) = sum_files (t_ref <$> ts).
Proof.
  intros Hr. destruct (level_groups h ts Hr) as [Hc _]. rewrite next_level_refs.
  rewrite <-Hc at 2. rewrite fmap_concat. clear.
  induction (cut _ _ _) as [|g gs IH]; [done|]. csimpl. rewrite sum_files_app, <-IH. done.
Qed.

Lemma next_level_ok h ts :
  h < MAX_TREE_DEPTH → refs_ok h (t_ref <$> ts) → refs_ok (h + 1) (t_ref <$> next_level h ts).
Proof.
  intros Hh Hr. destruct (level_groups h ts Hr) as [Hc Hg].
  pose proof (sum_next_level h ts Hr) as Hsum. split; [| |by rewrite Hsum; apply Hr].
  - rewrite next_level_refs. apply Forall_fmap. eapply Forall_impl; [exact Hg|].
    intros g (_ & Hf & Ho). by apply parent_ref_good.
  - rewrite next_level_refs.
    apply (sorted_groups (λ x y, range_lt (t_ref x) (t_ref y))
             (λ g, parent_ref h (t_ref <$> g))).
    + intros g g' Hne Hne' H. apply parent_ref_lt; [by destruct g|by destruct g'|].
      intros x y (x' & -> & Hx)%list_elem_of_fmap (y' & -> & Hy)%list_elem_of_fmap. auto.
    + eapply Forall_impl; [exact Hg|]. by intros g (?&_).
    + rewrite Hc. apply StronglySorted_of_fmap, (ro_sorted _ _ Hr).
Qed.

Lemma next_level_count h ts :
  refs_ok h (t_ref <$> ts) → 31 * len (next_level h ts) ≤ len ts + 31.
Proof.
  intros Hr. destruct (refs_fit h ts Hr) as [Hf Hb]. destruct internal_kind_ok as [K1 K2].
  unfold next_level. rewrite len_fmap.
  by apply (cut_count internal_kind tree_record K1 K2 31 8240 ts).
Qed.

Lemma next_level_nonempty h ts :
  refs_ok h (t_ref <$> ts) → ts ≠ [] → next_level h ts ≠ [].
Proof.
  intros Hr Hne E. destruct (level_groups h ts Hr) as [Hc _]. unfold next_level in E.
  apply fmap_nil_inv in E. rewrite E in Hc. by symmetry in Hc.
Qed.

(** Sixteen-fold shrinking: five rounds are enough for every vault. *)
Lemma next_level_pow h ts (k : nat) :
  refs_ok h (t_ref <$> ts) → ts ≠ [] → len ts ≤ 16 ^ N.of_nat (S k) →
  len (next_level h ts) ≤ 16 ^ N.of_nat k.
Proof.
  intros Hr Hne Hl. pose proof (next_level_count h ts Hr) as Hc.
  rewrite Nat2N.inj_succ, N.pow_succ_r' in Hl.
  pose proof (N.pow_nonzero 16 (N.of_nat k)).
  destruct k as [|k].
  - change (16 ^ N.of_nat 0) with 1 in *. lia.
  - rewrite Nat2N.inj_succ, N.pow_succ_r' in *.
    pose proof (N.pow_nonzero 16 (N.of_nat k)). lia.
Qed.
End levels.
