(* ===== verification/TreeV2Store.v ===== *)
(** What src/crates/sync-core/src/tree_v2.rs writes to and reads from a
    lawful chunk store: the runs of the builder, and the loader on a stored
    tree. *)

From S2P Require Import Prelude Bytes Keyed Hash Chunk Store TreeV1 TreeV1Build.
From S2P Require Import TreeV2Codec TreeV2CodecProps TreeV2Segment TreeV2.
From S2P Require Import TreeV2Build.
Local Open Scope N_scope.

Section runs.
Context {S : Type} {B3 : Blake3} {CS : ChunkStore S} {CSL : ChunkStoreLaws S}.

Lemma count_files_ok rs : sum_files rs ≤ U64_MAX → count_files rs = Ok (sum_files rs).
Proof.
  intros Hl. unfold count_files. by rewrite try_sum_Some by (unfold sum_files in *; lia).
Qed.

(** ** Writing *)

Lemma store_leaf_run g s :
  entries_ok g → fits leaf_kind entry_record g →
  store_leaf g s = (Ok (leaf_ref g), put_all [leaf_bytes g] s).
Proof.
  intros Hg Hf. unfold store_leaf. rewrite leaf_group_encodes by done.
  erewrite st_bind_run by done.
  rewrite len_leaf_bytes by done. destruct Hf as (_ & _ & Hw).
  unfold check. rewrite (proj2 (N.leb_le _ _)) by (unfold MAX_NODE_BYTES, U32_MAX in *; lia).
  erewrite st_bind_run by done. erewrite st_bind_run by apply put_all_one.
  unfold leaf_ref. by rewrite len_leaf_bytes.
Qed.

Lemma store_internal_run h g s :
  h < MAX_TREE_DEPTH → refs_ok h g → fits internal_kind range_record g →
  store_internal h g s = (Ok (parent_ref h g), put_all [node_bytes h g] s).
Proof.
  intros Hh Hg Hf. unfold store_internal. rewrite node_group_encodes by done.
  erewrite st_bind_run by done.
  rewrite (len_node_bytes h) by done. pose proof Hf as (_ & _ & Hw).
  unfold check. rewrite (proj2 (N.leb_le _ _)) by (unfold MAX_NODE_BYTES, U32_MAX in *; lia).
  erewrite st_bind_run by done. erewrite st_bind_run by apply put_all_one.
  rewrite count_files_ok
    by (pose proof (ro_files _ _ Hg); unfold MAX_LOADED_ENTRIES, U64_MAX in *; lia).
  erewrite st_bind_run by done. unfold parent_ref. by rewrite (len_node_bytes h).
Qed.

Lemma st_map_puts {A B} (f : A → St S ChunkError B) (res : A → B) (blob : A → bytes) l s :
  (∀ x s, x ∈ l → f x s = (Ok (res x), put_all [blob x] s)) →
  st_map f l s = (Ok (res <$> l), put_all (blob <$> l) s).
Proof.
  revert s. induction l as [|x l IH]; intros s Hf; [done|]. cbn [st_map].
  erewrite st_bind_run by (apply Hf; by left).
  erewrite st_bind_run by (apply IH; intros; apply Hf; by right). done.
Qed.

Lemma st_map_fmap {A B C} (g : A → B) (f : B → St S ChunkError C) l s :
  st_map (λ x, f (g x)) l s = st_map f (g <$> l) s.
Proof.
  revert s. induction l as [|x l IH]; intros s; [done|]. csimpl.
  unfold st_bind. destruct (f (g x) s) as [[c|e] s1]; [|done]. by rewrite IH.
Qed.

Lemma put_leaves_run_v2 es s :
  entries_ok es → es ≠ [] →
  ∃ segs, segment_entries es = Ok segs ∧ segs = segments_of (run_cut leaf_kind entry_record es) ∧
    st_map (λ seg, store_leaf (segment_slice es seg)) segs s =
      (Ok (t_ref <$> leaf_level es), put_all (leaves_bytes es) s).
Proof.
  intros Hes Hne. destruct (entries_fit es Hes) as [Hf _]. destruct leaf_kind_ok as [K1 K2].
  eexists. split_and!; [|done|].
  - unfold segment_entries. destruct es as [|e es]; [done|].
    destruct Hes as [-> _]. by apply segment_by_cut.
  - rewrite (st_map_fmap (segment_slice es) store_leaf), segment_slices by done.
    destruct (leaf_level_groups es Hes) as (_ & Hg & Ho). rewrite Forall_forall in Hg, Ho.
    rewrite (st_map_puts store_leaf leaf_ref leaf_bytes).
    + by rewrite leaf_level_refs.
    + intros g s' Hin. apply store_leaf_run; auto.
Qed.

Lemma put_level_run h ts s :
  h < MAX_TREE_DEPTH → refs_ok h (t_ref <$> ts) → ts ≠ [] →
  ∃ segs, segment_ranges (t_ref <$> ts) = Ok segs ∧ len segs = len (next_level h ts) ∧
    st_map (λ seg, store_internal h (segment_slice (t_ref <$> ts) seg)) segs s =
      (Ok (t_ref <$> next_level h ts), put_all (level_bytes h ts) s).
Proof.
  intros Hh Hr Hne. destruct internal_kind_ok as [K1 K2].
  assert (Forall (record_fits internal_kind range_record) (t_ref <$> ts)) as Hf.
  { apply Forall_fmap. destruct (refs_fit h ts Hr) as [Hf _]. exact Hf. }
  destruct (level_groups h ts Hr) as [_ Hg]. rewrite Forall_forall in Hg.
  exists (segments_of (run_cut internal_kind range_record (t_ref <$> ts))). split_and!.
  - unfold segment_ranges. destruct ts as [|t ts]; [done|].
    rewrite fmap_cons. by apply segment_by_cut.
  - rewrite <-(len_fmap (segment_slice (t_ref <$> ts))), segment_slices by done.
    rewrite (cut_fmap internal_kind range_record t_ref). unfold next_level. by rewrite !len_fmap.
  - rewrite (st_map_fmap (segment_slice (t_ref <$> ts)) (store_internal h)), segment_slices by done.
    rewrite (cut_fmap internal_kind range_record t_ref).
    rewrite (st_map_puts (store_internal h) (parent_ref h) (node_bytes h)).
    + rewrite next_level_refs. unfold level_bytes. by rewrite <-!list_fmap_compose.
    + intros g s' (g' & -> & Hin)%list_elem_of_fmap. destruct (Hg g' Hin) as (_ & ? & ?).
      by apply store_internal_run.
Qed.

(** The internal nodes above a level. *)
Lemma build_levels_run (k fuel : nat) h ts emitted s :
  (k ≤ fuel)%nat → h + N.of_nat k ≤ MAX_TREE_DEPTH → len ts ≤ 16 ^ N.of_nat k →
  refs_ok h (t_ref <$> ts) → ts ≠ [] →
  ∃ n, build_levels fuel (t_ref <$> ts) emitted s =
    (Ok (t_ref (grow fuel h ts), n), put_all (grow_bytes fuel h ts) s).
Proof.
  revert fuel h ts emitted s. induction k as [|k IH]; intros fuel h ts emitted s Hk Hh Hl Hr Hne.
  { destruct ts as [|t [|t' ts]]; [done| |].
    - exists emitted. by destruct fuel.
    - change (16 ^ N.of_nat 0) with 1 in Hl. rewrite !len_cons in Hl. lia. }
  destruct ts as [|t [|t' ts]]; [done|exists emitted; by destruct fuel|].
  set (ts' := t :: t' :: ts) in *. destruct fuel as [|fuel]; [lia|].
  assert (h < MAX_TREE_DEPTH) as Hh' by lia.
  change (grow (Datatypes.S fuel) h ts') with (grow fuel (h + 1) (next_level h ts')).
  change (grow_bytes (Datatypes.S fuel) h ts') with
    (level_bytes h ts' ++ grow_bytes fuel (h + 1) (next_level h ts')).
  destruct (put_level_run h ts' s Hh' Hr Hne) as (segs & Hseg & Hlen & Hput).
  destruct (IH fuel (h + 1) (next_level h ts') (emitted + len segs) (put_all (level_bytes h ts') s))
    as [n Hn]; [lia|lia|by apply next_level_pow|by apply next_level_ok|by apply next_level_nonempty|].
  exists n. rewrite put_all_app, <-Hn.
  assert (rr_height (t_ref t) = h) as Hht.
  { pose proof (ro_good _ _ Hr) as Hg. unfold ts' in Hg. csimpl in Hg.
    apply Forall_cons in Hg as [[? _] _]. done. }
  change (t_ref <$> ts') with (t_ref t :: t_ref t' :: (t_ref <$> ts)) in *.
  cbn [build_levels]. rewrite Hht. rewrite (proj2 (N.leb_gt _ _)) by done.
  rewrite (refs_validate h) by done. erewrite st_bind_run by done.
  rewrite Hseg. erewrite st_bind_run by done.
  erewrite st_bind_run by exact Hput. done.
Qed.

Lemma leaf_level_count es : entries_ok es → 63 * len (leaf_level es) ≤ len es + 63.
Proof.
  intros Hes. destruct (entries_fit es Hes) as [Hf Hb]. destruct leaf_kind_ok as [K1 K2].
  unfold leaf_level. rewrite len_fmap.
  by apply (cut_count leaf_kind entry_record K1 K2 63 4146 es).
Qed.

Lemma leaf_level_pow es : entries_ok es → len (leaf_level es) ≤ 16 ^ N.of_nat 5.
Proof.
  intros Hes. pose proof (leaf_level_count es Hes).
  destruct Hes as [(Hl & _)%validate_entries_ok _].
  change (16 ^ N.of_nat 5) with 1048576. unfold MAX_LOADED_ENTRIES in *. lia.
Qed.

Lemma leaf_level_nonempty es : entries_ok es → es ≠ [] → leaf_level es ≠ [].
Proof.
  intros Hes Hne E. destruct (leaf_level_groups es Hes) as (Hc & _).
  unfold leaf_level in E. apply fmap_nil_inv in E. rewrite E in Hc. by symmetry in Hc.
Qed.

Lemma sum_leaf_level es : entries_ok es → sum_files (t_ref <$> leaf_level es) = len es.
Proof.
  intros Hes. destruct (leaf_level_groups es Hes) as (Hc & _).
  by rewrite leaf_level_refs, sum_leaf_refs, Hc.
Qed.

Lemma root_from_leaves_run es s :
  entries_ok es → es ≠ [] →
  ∃ n, root_from_leaves (t_ref <$> leaf_level es) s =
    (Ok (root_of es, n), put_all (grow_bytes 17 0 (leaf_level es)) s).
Proof.
  intros Hes Hne. pose proof (leaf_level_ok es Hes) as Hr.
  destruct (build_levels_run 5 17 0 (leaf_level es) 0 s) as [n Hn];
    [lia|done|by apply leaf_level_pow|done|by apply leaf_level_nonempty|].
  exists n. unfold root_from_leaves.
  destruct (t_ref <$> leaf_level es) as [|r rs] eqn:E.
  { apply fmap_nil_inv in E. by apply leaf_level_nonempty in E. }
  rewrite <-E in *. rewrite (refs_validate 0) by done. erewrite st_bind_run by done.
  rewrite count_files_ok
    by (pose proof (ro_files _ _ Hr); unfold MAX_LOADED_ENTRIES, U64_MAX in *; lia).
  erewrite st_bind_run by done. erewrite st_bind_run by exact Hn.
  rewrite sum_leaf_level by done. unfold root_of. by destruct es.
Qed.

Lemma build_tree_v2_run es s :
  entries_ok (sort_by fe_path es) →
  build_tree_v2 es s = (Ok (root_of (sort_by fe_path es)), put_all (written (sort_by fe_path es)) s).
Proof.
  intros Hes. unfold build_tree_v2. pose proof Hes as [-> _]. erewrite st_bind_run by done.
  destruct (sort_by fe_path es) as [|e es'] eqn:E; [done|].
  destruct (put_leaves_run_v2 (e :: es') s Hes) as (segs & Hseg & _ & Hput); [done|].
  rewrite Hseg. erewrite st_bind_run by done. erewrite st_bind_run by exact Hput.
  destruct (root_from_leaves_run (e :: es') (put_all (leaves_bytes (e :: es')) s) Hes) as [n Hn];
    [done|].
  erewrite st_bind_run by exact Hn. unfold written. by rewrite put_all_app.
Qed.

(** ** Reading *)

Definition charge (b : TraversalBudget) (n : N) : TraversalBudget :=
  {| tb_nodes := tb_nodes b + n; tb_entries := tb_entries b |}.

Lemma charge_0 b : charge b 0 = b.
Proof. destruct b. unfold charge. simpl. by rewrite N.add_0_r. Qed.
Lemma charge_charge b n m : charge (charge b n) m = charge b (n + m).
Proof. unfold charge. simpl. by rewrite N.add_assoc. Qed.

Lemma budget_node_run d b :
  d ≤ MAX_TREE_DEPTH → tb_nodes b + 1 ≤ MAX_VISITED_NODES → budget_node d b = (Ok tt, charge b 1).
Proof.
  intros Hd Hb. unfold budget_node, saturating_add64. rewrite (proj2 (N.ltb_ge _ _)) by done.
  cbn [tb_nodes]. rewrite N.min_l by (unfold MAX_VISITED_NODES, U64_MAX in *; lia).
  by rewrite (proj2 (N.ltb_ge _ _)).
Qed.

Lemma load_leaf s g :
  entries_ok g → fits leaf_kind entry_record g → cs_get (hash_bytes (leaf_bytes g)) s = Ok (leaf_bytes g) →
  load_node s (leaf_ref g) = Ok (V2Leaf g).
Proof.
  intros Hg Hf Hget. destruct (leaf_ref_good g Hg Hf) as (_ & Hv & _).
  apply (validate_range_ok _ tt) in Hv. unfold load_node, validate_loaded_node.
  rewrite Hv. cbn [rr_hash leaf_ref rr_serialized_bytes]. rewrite Hget, N.eqb_refl, beq_refl. cbn [negb orb].
  pose proof Hg as [_ Hok]. destruct Hf as (Hne & Hc & Hw).
  erewrite decode_leaf_node; [|done|done|by apply leaf_group_encodes].
  unfold validate_descriptor_for_node, check. rewrite len_leaf_bytes by done.
  rewrite (proj2 (N.leb_le _ _)) by (unfold MAX_NODE_BYTES, U32_MAX in *; lia).
  destruct g as [|e g]; [done|]. cbn [leaf_ref rr_min_path rr_max_path rr_file_count rr_serialized_bytes rr_height].
  rewrite !beq_refl, !N.eqb_refl, len_leaf_bytes by done. by rewrite N.eqb_refl.
Qed.

Lemma load_internal s h g :
  h < MAX_TREE_DEPTH → refs_ok h g → fits internal_kind range_record g →
  cs_get (hash_bytes (node_bytes h g)) s = Ok (node_bytes h g) →
  load_node s (parent_ref h g) = Ok (V2Internal h g).
Proof.
  intros Hh Hg Hf Hget. destruct (parent_ref_good h g Hh Hg Hf) as (_ & Hv & _).
  apply (validate_range_ok _ tt) in Hv. unfold load_node, validate_loaded_node.
  rewrite Hv. cbn [rr_hash parent_ref rr_serialized_bytes]. rewrite Hget, N.eqb_refl, beq_refl. cbn [negb orb].
  assert (forallb range_typed g = true) as Ht.
  { apply forallb_forall. intros r Hr%list_elem_of_In.
    pose proof (ro_good _ _ Hg) as Hgood. rewrite Forall_forall in Hgood. by apply Hgood. }
  erewrite decode_internal_node; [|done|done|by apply node_group_encodes].
  destruct Hf as (Hne & Hc & Hw).
  unfold validate_descriptor_for_node, check. rewrite (len_node_bytes h) by done.
  rewrite (proj2 (N.leb_le _ _)) by (unfold MAX_NODE_BYTES, U32_MAX in *; lia).
  rewrite count_files_ok
    by (pose proof (ro_files _ _ Hg); unfold MAX_LOADED_ENTRIES, U64_MAX in *; lia).
  destruct g as [|e g]; [done|]. cbn [parent_ref rr_min_path rr_max_path rr_file_count rr_serialized_bytes rr_height].
  rewrite !beq_refl, !N.eqb_refl, (len_node_bytes h) by done. by rewrite N.eqb_refl.
Qed.

(** [collect_loop] replaces a stored tree by its leaves. *)
Definition readable (s : S) (t : rtree) : Prop :=
  ∀ fuel pend acc b,
    tb_nodes b + t_nodes t ≤ MAX_VISITED_NODES → (N.to_nat (t_nodes t) ≤ fuel)%nat →
    collect_loop fuel s (t_ref t :: pend) acc b =
      collect_loop (fuel - N.to_nat (t_nodes t)) s pend (acc ++ (leaf_ref <$> t_leaves t))
        (charge b (t_nodes t)).

Definition forest_nodes (ts : list rtree) : N := foldr N.add 0 (map t_nodes ts).

Lemma readable_forest s ts fuel pend acc b :
  Forall (readable s) ts →
  tb_nodes b + forest_nodes ts ≤ MAX_VISITED_NODES → (N.to_nat (forest_nodes ts) ≤ fuel)%nat →
  collect_loop fuel s ((t_ref <$> ts) ++ pend) acc b =
    collect_loop (fuel - N.to_nat (forest_nodes ts)) s pend
      (acc ++ (leaf_ref <$> concat (t_leaves <$> ts))) (charge b (forest_nodes ts)).
Proof.
  intros Hts. revert fuel acc b. induction Hts as [|t ts Ht Hts IH]; intros fuel acc b Hb Hf.
  { csimpl. by rewrite Nat.sub_0_r, app_nil_r, charge_0. }
  unfold forest_nodes in *. cbn [map foldr] in *. csimpl. rewrite Ht by lia.
  rewrite IH; [|simpl; lia|lia]. rewrite charge_charge, fmap_app, app_assoc.
  f_equal. lia.
Qed.

Lemma readable_all s t fuel b :
  readable s t → tb_nodes b + t_nodes t ≤ MAX_VISITED_NODES → (N.to_nat (t_nodes t) ≤ fuel)%nat →
  collect_loop fuel s [t_ref t] [] b = (Ok (leaf_ref <$> t_leaves t), charge b (t_nodes t)).
Proof. intros Ht Hb Hf. rewrite Ht by done. by destruct (fuel - _)%nat. Qed.

Lemma readable_leaf s es : readable s (RLeaf es).
Proof.
  intros fuel pend acc b Hb Hf. cbn [t_nodes] in *. destruct fuel as [|fuel]; [simpl in Hf; lia|].
  replace (Datatypes.S fuel - N.to_nat 1)%nat with fuel by lia.
  cbn [collect_loop t_ref]. erewrite st_bind_run by (by apply budget_node_run).
  cbn [rr_height leaf_ref]. by rewrite N.eqb_refl.
Qed.

Lemma readable_node s h cs :
  h < MAX_TREE_DEPTH → load_node s (t_ref (RNode h cs)) = Ok (V2Internal h (t_ref <$> cs)) →
  Forall (readable s) cs → readable s (RNode h cs).
Proof.
  intros Hh Hload Hcs fuel pend acc b Hb Hf.
  change (t_nodes (RNode h cs)) with (1 + forest_nodes cs) in *.
  destruct fuel as [|fuel]; [lia|]. cbn [collect_loop].
  erewrite st_bind_run by (apply budget_node_run; [cbn; lia|lia]).
  rewrite (proj2 (N.eqb_neq _ _)) by (cbn; lia).
  unfold st_bind, st_lift. rewrite Hload.
  rewrite readable_forest; [|done|simpl; lia|lia]. rewrite charge_charge.
  change (t_leaves (RNode h cs)) with (concat (t_leaves <$> cs)).
  f_equal. lia.
Qed.

Lemma forest_app a b : forest_nodes (a ++ b) = forest_nodes a + forest_nodes b.
Proof.
  unfold forest_nodes. induction a as [|x a IH]; [done|]. cbn [app map foldr]. rewrite IH. lia.
Qed.

Lemma forest_groups h gs :
  forest_nodes (RNode h <$> gs) = forest_nodes (concat gs) + len gs ∧
  concat (t_leaves <$> (RNode h <$> gs)) = concat (t_leaves <$> concat gs).
Proof.
  induction gs as [|g gs [IH1 IH2]]; [done|]. cbn [concat]. rewrite !fmap_cons, fmap_app, concat_app.
  cbn [concat]. split; [|by rewrite IH2].
  change (forest_nodes (RNode h g :: (RNode h <$> gs))) with
    (1 + forest_nodes g + forest_nodes (RNode h <$> gs)).
  rewrite forest_app, len_cons, IH1. lia.
Qed.

Lemma forest_next_level h ts :
  refs_ok h (t_ref <$> ts) →
  forest_nodes (next_level h ts) = forest_nodes ts + len (next_level h ts) ∧
  concat (t_leaves <$> next_level h ts) = concat (t_leaves <$> ts).
Proof.
  intros Hr. destruct (level_groups h ts Hr) as [Hc _]. unfold next_level. rewrite len_fmap.
  destruct (forest_groups h (cut internal_kind tree_record ts)) as [F1 F2]. by rewrite Hc in F1, F2.
Qed.

Lemma next_level_readable s h ts :
  h < MAX_TREE_DEPTH → refs_ok h (t_ref <$> ts) → stored s (level_bytes h ts) →
  Forall (readable s) ts → Forall (readable s) (next_level h ts).
Proof.
  intros Hh Hr Hst Hts. destruct (level_groups h ts Hr) as [Hc Hg].
  rewrite <-Hc in Hts. unfold next_level. rewrite Forall_concat in Hts.
  apply Forall_fmap, Forall_forall. intros g Hin. rewrite Forall_forall in Hts, Hg.
  destruct (Hg g Hin) as (_ & Hf & Ho). apply readable_node; [done| |by apply Hts].
  apply load_internal; [done..|]. apply Hst. unfold level_bytes. apply list_elem_of_fmap.
  by exists g.
Qed.

Record grown (s : S) (h : N) (ts : list rtree) (t : rtree) : Prop := {
  gr_readable : readable s t;
  gr_leaves : t_leaves t = concat (t_leaves <$> ts);
  gr_nodes : t_nodes t ≤ forest_nodes ts + len ts;
  gr_ref : ∃ h', h' ≤ MAX_TREE_DEPTH ∧ range_good h' (t_ref t);
  gr_files : rr_file_count (t_ref t) = sum_files (t_ref <$> ts);
}.

Lemma grow_spec (k fuel : nat) h ts s :
  (k ≤ fuel)%nat → h + N.of_nat k ≤ MAX_TREE_DEPTH → len ts ≤ 16 ^ N.of_nat k →
  refs_ok h (t_ref <$> ts) → ts ≠ [] → Forall (readable s) ts →
  stored s (grow_bytes fuel h ts) → grown s h ts (grow fuel h ts).
Proof.
  revert fuel h ts. induction k as [|k IH]; intros fuel h ts Hk Hh Hl Hr Hne Hts Hst.
  all: destruct ts as [|t [|t' ts]]; [done| |].
  1,3: assert (grow fuel h [t] = t) as -> by (by destruct fuel);
    apply Forall_cons in Hts as [Ht _]; split; [done|by csimpl; rewrite app_nil_r| | |];
    [unfold forest_nodes; simpl; lia
    |exists h; split; [lia|]; pose proof (ro_good _ _ Hr) as Hg; by apply Forall_cons in Hg as [? _]
    |unfold sum_files; csimpl; lia].
  { change (16 ^ N.of_nat 0) with 1 in Hl. rewrite !len_cons in Hl. lia. }
  set (ts' := t :: t' :: ts) in *. destruct fuel as [|fuel]; [lia|].
  assert (h < MAX_TREE_DEPTH) as Hh' by lia.
  change (grow (Datatypes.S fuel) h ts') with (grow fuel (h + 1) (next_level h ts')).
  change (grow_bytes (Datatypes.S fuel) h ts') with
    (level_bytes h ts' ++ grow_bytes fuel (h + 1) (next_level h ts')) in Hst.
  destruct (IH fuel (h + 1) (next_level h ts')) as [G1 G2 G3 G4 G5]; [lia|lia|by apply next_level_pow|
    by apply next_level_ok|by apply next_level_nonempty| | |].
  - apply next_level_readable; [done..| |done]. intros b Hb. apply Hst, elem_of_app. by left.
  - intros b Hb. apply Hst, elem_of_app. by right.
  - destruct (forest_next_level h ts' Hr) as [F1 F2].
    pose proof (next_level_count h ts' Hr) as Hc.
    assert (2 ≤ len ts') by (unfold ts'; rewrite !len_cons; lia).
    split; [done|by rewrite G2|lia|done|by rewrite G5, (sum_next_level h)].
Qed.

Lemma leaf_forest es :
  forest_nodes (leaf_level es) = len (leaf_level es) ∧
  concat (t_leaves <$> leaf_level es) = cut leaf_kind entry_record es.
Proof.
  unfold leaf_level, forest_nodes. induction (cut leaf_kind entry_record es) as [|g gs [IH1 IH2]]; [done|].
  csimpl. rewrite len_cons, IH2. split; [|done].
  change (map t_nodes (RLeaf <$> gs)) with (t_nodes <$> (RLeaf <$> gs)) in *. lia.
Qed.

(** The tree over [es], stored. *)
Lemma stored_tree es s :
  entries_ok es → es ≠ [] → stored s (written es) →
  grown s 0 (leaf_level es) (grow 17 0 (leaf_level es)).
Proof.
  intros Hes Hne Hst. apply (grow_spec 5 17); [lia|done|by apply leaf_level_pow|
    by apply leaf_level_ok|by apply leaf_level_nonempty| |].
  - unfold leaf_level. apply Forall_fmap, Forall_forall. intros g _. apply readable_leaf.
  - intros b Hb. apply Hst. unfold written. apply elem_of_app. by right.
Qed.

Definition leaf_refs (es : list FileEntry) : list RangeRef :=
  leaf_ref <$> cut leaf_kind entry_record es.

Lemma root_of_shape es s :
  entries_ok es → stored s (written es) → validate_root_shape (root_of es) = Ok tt.
Proof.
  intros Hes Hst. destruct (decide (es = [])) as [->|Hne]; [done|].
  destruct (stored_tree es s Hes Hne Hst) as [_ _ _ (h & Hh & <- & Hv & _) Hf].
  rewrite sum_leaf_level in Hf by done. unfold root_of. destruct es as [|e es]; [done|].
  unfold validate_root_shape. cbn [tv_version tv_child tv_total_files].
  rewrite N.eqb_refl, Hf, N.eqb_refl. rewrite (proj2 (N.ltb_lt _ _)) by (rewrite len_cons; lia).
  rewrite (proj2 (N.leb_le _ _)) by done. by apply (validate_range_ok _ tt).
Qed.

Lemma collect_leaf_refs_run es s :
  entries_ok es → stored s (written es) →
  ∃ n, n ≤ 2 * len (leaf_refs es) ∧
    collect_leaf_refs (root_of es) s tb_default = (Ok (leaf_refs es), charge tb_default n).
Proof.
  intros Hes Hst. unfold collect_leaf_refs. rewrite (root_of_shape es s) by done.
  erewrite st_bind_run by done.
  destruct (decide (es = [])) as [->|Hne]; [exists 0; split; [lia|done]|].
  destruct (stored_tree es s Hes Hne Hst) as [Hr Hlv Hn _ _].
  destruct (leaf_forest es) as [F1 F2].
  pose proof (leaf_level_count es Hes) as Hc. pose proof Hes as [(Hmax & _)%validate_entries_ok _].
  assert (tv_child (root_of es) = Some (t_ref (grow 17 0 (leaf_level es)))) as -> by (by destruct es).
  set (t := grow 17 0 (leaf_level es)) in *.
  assert (len (leaf_refs es) = len (leaf_level es)) as Hll
    by (unfold leaf_refs, leaf_level; by rewrite !len_fmap).
  exists (t_nodes t). split; [lia|].
  assert (t_nodes t ≤ MAX_VISITED_NODES) as Hm
    by (unfold MAX_VISITED_NODES, MAX_LOADED_ENTRIES in *; lia).
  erewrite st_bind_run by (apply readable_all; [done|change (tb_nodes tb_default) with 0|]; lia).
  rewrite Hlv, F2. fold (leaf_refs es).
  pose proof (leaf_level_ok es Hes) as Ho. rewrite leaf_level_refs in Ho. fold (leaf_refs es) in Ho.
  rewrite (refs_validate 0) by done. erewrite st_bind_run by done.
  rewrite count_files_ok
    by (pose proof (ro_files _ _ Ho); unfold MAX_LOADED_ENTRIES, U64_MAX in *; lia).
  erewrite st_bind_run by done.
  pose proof (sum_leaf_level es Hes) as Hsum. rewrite leaf_level_refs in Hsum.
  unfold leaf_refs. rewrite Hsum.
  assert (tv_total_files (root_of es) = len es) as -> by (by destruct es).
  by rewrite N.eqb_refl.
Qed.

(** ** Reading spans of leaves *)

Definition charge_span (b : TraversalBudget) (gs : list (list FileEntry)) : TraversalBudget :=
  {| tb_nodes := tb_nodes b + len gs; tb_entries := tb_entries b + len (concat gs) |}.

(** Leaves that can be read back from [s]. *)
Definition leaf_in (s : S) (g : list FileEntry) : Prop :=
  entries_ok g ∧ fits leaf_kind entry_record g ∧
  cs_get (hash_bytes (leaf_bytes g)) s = Ok (leaf_bytes g).

Lemma load_span_loop_run s gs out b :
  Forall (leaf_in s) gs →
  tb_nodes b + len gs ≤ MAX_VISITED_NODES → tb_entries b + len (concat gs) ≤ MAX_LOADED_ENTRIES →
  load_span_loop s (leaf_ref <$> gs) out b = (Ok (out ++ concat gs), charge_span b gs).
Proof.
  intros Hgs. revert out b. induction Hgs as [|g gs (Ho & Hf & Hget) Hgs IH]; intros out b Hn He.
  { csimpl. unfold charge_span, st_ret. rewrite !N.add_0_r, app_nil_r. by destruct b. }
  csimpl. rewrite len_cons in Hn. cbn [concat] in He. rewrite len_app in He.
  erewrite st_bind_run by (apply budget_node_run; lia). rewrite load_leaf by done.
  erewrite st_bind_run by done. cbv beta iota.
  assert (budget_entries (len g) (charge b 1) =
    (Ok tt, {| tb_nodes := tb_nodes b + 1; tb_entries := tb_entries b + len g |})) as Hb.
  { unfold budget_entries, saturating_add64, charge. cbn [tb_nodes tb_entries].
    rewrite N.min_l by (unfold MAX_LOADED_ENTRIES, U64_MAX in *; lia).
    by rewrite (proj2 (N.ltb_ge _ _)) by lia. }
  erewrite st_bind_run by exact Hb. rewrite IH; [|cbn; lia..].
  rewrite <-app_assoc. f_equal. unfold charge_span. cbn [tb_nodes tb_entries concat].
  rewrite len_cons, len_app. f_equal; lia.
Qed.

Lemma load_leaf_span_run s gs b :
  Forall (leaf_in s) gs → entries_ok (concat gs) →
  tb_nodes b + len gs ≤ MAX_VISITED_NODES → tb_entries b + len (concat gs) ≤ MAX_LOADED_ENTRIES →
  load_leaf_span (leaf_ref <$> gs) s b = (Ok (concat gs), charge_span b gs).
Proof.
  intros Hgs Hc Hn He. unfold load_leaf_span.
  assert (for_each (λ leaf,
      let? _ := validate_range leaf in
      check (rr_height leaf =? 0) (invalid "Tree v2 leaf span contains an internal node"))
    (leaf_ref <$> gs) = Ok tt) as ->.
  { apply for_each_ok, Forall_fmap. eapply Forall_impl; [exact Hgs|]. intros g (Ho & Hf & _). cbn.
    destruct (leaf_ref_good g Ho Hf) as (_ & Hv & _).
    apply (validate_range_ok _ tt) in Hv. by rewrite Hv. }
  erewrite st_bind_run by done.
  rewrite try_sum_Some.
  2:{ rewrite N.add_0_l. fold (sum_files (leaf_ref <$> gs)). rewrite sum_leaf_refs.
      unfold MAX_LOADED_ENTRIES, U64_MAX in *. lia. }
  erewrite st_bind_run by done. erewrite st_bind_run by (by apply load_span_loop_run).
  cbn [app]. destruct Hc as [-> _]. by erewrite st_bind_run by done.
Qed.

Lemma written_leaves es s :
  entries_ok es → stored s (written es) → Forall (leaf_in s) (cut leaf_kind entry_record es).
Proof.
  intros Hes Hst. destruct (leaf_level_groups es Hes) as (_ & Hf & Ho).
  rewrite Forall_forall in Hf, Ho |- *. intros g Hg. split_and!; [by apply Ho|by apply Hf|].
  apply Hst. unfold written. apply elem_of_app. left. unfold leaves_bytes.
  apply list_elem_of_fmap. by exists g.
Qed.

Lemma leaf_count_bound es :
  entries_ok es → len (cut leaf_kind entry_record es) ≤ 158732.
Proof.
  intros Hes. pose proof (leaf_level_count es Hes) as Hc. unfold leaf_level in Hc.
  rewrite len_fmap in Hc. destruct Hes as [(Hl & _)%validate_entries_ok _].
  unfold MAX_LOADED_ENTRIES in *. lia.
Qed.

Lemma load_all_entries_run es s :
  entries_ok es → stored s (written es) → load_all_entries_v2 (root_of es) s = Ok es.
Proof.
  intros Hes Hst. destruct (leaf_level_groups es Hes) as (Hc & _ & _).
  pose proof (leaf_count_bound es Hes) as Hb.
  destruct (collect_leaf_refs_run es s Hes Hst) as (n & Hn & Hrun).
  unfold leaf_refs in Hn. rewrite len_fmap in Hn.
  unfold load_all_entries_v2. erewrite st_bind_run by exact Hrun.
  erewrite st_bind_run.
  2:{ apply load_leaf_span_run; [by apply written_leaves|by rewrite Hc| |].
      - cbn [charge tb_default tb_nodes]. unfold MAX_VISITED_NODES. lia.
      - cbn [charge tb_default tb_entries]. rewrite Hc.
        destruct Hes as [(Hl & _)%validate_entries_ok _]. lia. }
  rewrite Hc. assert (tv_total_files (root_of es) = len es) as -> by (by destruct es).
  by rewrite N.eqb_refl.
Qed.
End runs.
