(* ===== verification/TreeV2Props.v ===== *)
(** Tree v2: the incremental update against a rebuild, and the theorems on
    building, loading, updating and segmenting. *)

From S2P Require Import Prelude Bytes Keyed Hash Chunk Store TreeV1 TreeV1Merge TreeV1Build TreeV1Repr.
From S2P Require Import TreeV1Props TreeV2Codec TreeV2CodecProps TreeV2Segment TreeV2 TreeV2Build.
From S2P Require Import TreeV2Store.
Local Open Scope N_scope.

(** * Merging in the middle of a sorted list *)

Lemma merge_middle pre mid suf us ds :
  ssorted fe_path (pre ++ mid ++ suf) →
  (∀ p, p ∈ (fe_path <$> us) ++ ds →
     Forall (λ e, fe_path e ≺ p) pre ∧ Forall (λ e, p ≺ fe_path e) suf) →
  merge_prefix_entries (pre ++ mid ++ suf) us ds = pre ++ merge_prefix_entries mid us ds ++ suf.
Proof.
  intros Hs Hops. pose proof Hs as (Hx & Hpre & (Hy & Hmid & Hsuf)%ssorted_app)%ssorted_app.
  destruct (merge_prefix_entries_spec (pre ++ mid ++ suf) us ds Hs) as [H1 H2].
  destruct (merge_prefix_entries_spec mid us ds Hmid) as [H3 H4].
  set (M := merge_prefix_entries mid us ds) in *.
  assert (∀ k e, entries_map M !! k = Some e → k ∈ (fe_path <$> us) ++ ds ∨ e ∈ mid) as HM.
  { intros k e. rewrite H4, apply_update_lookup.
    destruct (last _) as [e'|] eqn:El.
    - intros _. left. apply elem_of_app. left. apply last_Some in El as [l El].
      assert (e' ∈ with_key fe_path k us) as Hin by (rewrite El; set_solver).
      apply list_elem_of_filter in Hin as [<- Hin]. apply list_elem_of_fmap. by exists e'.
    - case_decide; [done|]. intros He. right.
      by apply kmap_lookup_Some in He as [? _]; [|by apply ssorted_NoDup]. }
  assert (∀ e, e ∈ M → fe_path e ∈ (fe_path <$> us) ++ ds ∨ e ∈ mid) as HM'.
  { intros e He. apply (HM (fe_path e) e), kmap_lookup_Some; [by apply ssorted_NoDup|done]. }
  apply (ssorted_ext fe_path); [done| |].
  - apply ssorted_app. split_and!; [|done|apply ssorted_app; split_and!; [|done|done]].
    + intros x y Hx' [[Hin|Hin]%HM'|Hy']%elem_of_app.
      * destruct (Hops _ Hin) as [Hp _]. rewrite Forall_forall in Hp. by apply Hp.
      * apply Hx; [done|]. apply elem_of_app. by left.
      * apply Hx; [done|]. apply elem_of_app. by right.
    + intros x y [Hin|Hin]%HM' Hy'.
      * destruct (Hops _ Hin) as [_ Hp]. rewrite Forall_forall in Hp. by apply Hp.
      * by apply Hy.
  - change (kmap fe_path) with entries_map. rewrite H2. apply map_eq. intros k.
    rewrite apply_update_lookup. unfold entries_map. rewrite !kmap_app, !lookup_union.
    change (kmap fe_path M) with (entries_map M). rewrite H4, apply_update_lookup.
    change (kmap fe_path) with entries_map.
    destruct (decide (k ∈ (fe_path <$> us) ++ ds)) as [Hin|Hin].
    + destruct (Hops _ Hin) as [Hp1 Hp2].
      assert (entries_map pre !! k = None) as ->.
      { apply kmap_lookup_None. intros (e & -> & He)%list_elem_of_fmap.
        rewrite Forall_forall in Hp1. by apply (irreflexivity bytes_lt (fe_path e)), Hp1. }
      assert (entries_map suf !! k = None) as ->.
      { apply kmap_lookup_None. intros (e & -> & He)%list_elem_of_fmap.
        rewrite Forall_forall in Hp2. by apply (irreflexivity bytes_lt (fe_path e)), Hp2. }
      rewrite !(left_id_L None _), !(right_id_L None _). done.
    + assert (last (with_key fe_path k us) = None) as ->.
      { rewrite with_key_None; [done|]. apply Forall_forall. intros e He <-.
        apply Hin, elem_of_app. left. apply list_elem_of_fmap. by exists e. }
      assert (k ∉ ds) by (intros Hd; apply Hin, elem_of_app; by right).
      by rewrite !decide_False.
Qed.

(** * Where the changed paths lie *)

Lemma StronglySorted_lookup_lt {A} (R : relation A) l i j x y :
  StronglySorted R l → (i < j)%nat → l !! i = Some x → l !! j = Some y → R x y.
Proof.
  intros Hl. revert i j. induction Hl as [|z l Hl IH Hz]; intros [|i] [|j] Hij Hi Hj; simpl in *; try lia; try done.
  - injection Hi as <-. rewrite Forall_forall in Hz. by eapply Hz, list_elem_of_lookup_2.
  - eapply IH; [|done..]. lia.
Qed.

Lemma sorted_partition rs x :
  StronglySorted range_lt rs →
  ∃ l1 l2, rs = l1 ++ l2 ∧ Forall (λ r, rr_max_path r ≺ x) l1 ∧ Forall (λ r, ¬ rr_max_path r ≺ x) l2.
Proof.
  induction 1 as [|r rs Hrs IH Hr]; [by exists [], []|].
  destruct (decide (rr_max_path r ≺ x)) as [Hlt|Hge].
  - destruct IH as (l1 & l2 & -> & H1 & H2). exists (r :: l1), l2. split_and!; [done|by constructor|done].
  - exists [], (r :: rs). split_and!; [done|constructor|]. constructor; [done|].
    eapply Forall_impl; [exact Hr|]. intros r' [_ Hlt] Hx. apply Hge. by trans (rr_max_path r').
Qed.

Lemma partition_spec rs x (i := partition_point (λ r, blt (rr_max_path r) x) rs) :
  StronglySorted range_lt rs →
  (i ≤ length rs)%nat ∧
  (∀ j r, rs !! j = Some r → (j < i)%nat → rr_max_path r ≺ x) ∧
  (∀ j r, rs !! j = Some r → (i ≤ j)%nat → ¬ rr_max_path r ≺ x).
Proof.
  intros Hs. destruct (sorted_partition rs x Hs) as (l1 & l2 & -> & H1 & H2).
  assert (i = length l1) as ->.
  { apply partition_point_app.
    - eapply Forall_impl; [exact H1|]. intros r Hr. by apply blt_true.
    - eapply Forall_impl; [exact H2|]. intros r Hr. apply not_true_is_false. by rewrite blt_true. }
  rewrite Forall_forall in H1, H2. split_and!.
  - rewrite length_app. lia.
  - intros j r Hj Hlt. rewrite lookup_app_l in Hj by done. by eapply H1, list_elem_of_lookup_2.
  - intros j r Hj Hge. rewrite lookup_app_r in Hj by done. by eapply H2, list_elem_of_lookup_2.
Qed.

Section update.
Context {S : Type} {B3 : Blake3} {CS : ChunkStore S} {CSL : ChunkStoreLaws S}.

(** Paths short enough that a full leaf stays below the byte cap. The code
    accepts up to 4,096 bytes; with longer paths than these an update can give
    another tree than a rebuild (TreeV2Examples,
    [update_not_canonical_long_paths]). *)
Definition short_paths (es : list FileEntry) : Prop := Forall (λ e, len (fe_path e) ≤ 205) es.

Lemma short_records es :
  short_paths es → Forall (λ e, (entry_record e).1 ≤ 255) es.
Proof.
  intros Hs. eapply Forall_impl; [exact Hs|]. intros e He. cbv beta in He.
  unfold entry_record. cbn [fst]. unfold leaf_record_len. lia.
Qed.

(** All leaves but the last close by themselves. *)
Lemma closed_prefix es pre rest :
  entries_ok es → short_paths es →
  cut leaf_kind entry_record es = pre ++ rest → rest ≠ [] →
  run_cut leaf_kind entry_record (concat pre) = (pre, []).
Proof.
  intros Hes Hsh Hc Hne. destruct leaf_kind_ok as [K1 K2].
  pose proof (run_cut_self leaf_kind entry_record K1 K2 255 es) as Hself.
  specialize (Hself ltac:(done) (short_records es Hsh)).
  unfold cut in Hc. destruct (run_cut leaf_kind entry_record es) as [gs cur].
  destruct Hself as [Hgs _]. apply run_cut_groups. destruct cur as [|e cur].
  - rewrite Hc in Hgs. by apply Forall_app in Hgs as [? _].
  - destruct rest as [|r rest _] using rev_ind; [done|]. rewrite app_assoc in Hc.
    apply app_inj_tail in Hc as [-> _]. by apply Forall_app in Hgs as [? _].
Qed.

Lemma closed_suffix es pre rest :
  entries_ok es → short_paths es →
  cut leaf_kind entry_record es = pre ++ rest → rest ≠ [] →
  cut leaf_kind entry_record (concat rest) = rest.
Proof.
  intros Hes Hsh Hc Hne. destruct (leaf_level_groups es Hes) as (Hcat & _ & _).
  pose proof (closed_prefix es pre rest Hes Hsh Hc Hne) as Hp.
  apply (cut_app leaf_kind entry_record) with (l2 := concat rest) in Hp.
  rewrite <-concat_app, <-Hc, Hcat, Hc in Hp. by apply app_inv_head in Hp.
Qed.

(** Entries of a group lie between its bounds. *)
Lemma group_bounds g e :
  ssorted fe_path g → e ∈ g →
  ¬ rr_max_path (leaf_ref g) ≺ fe_path e ∧ ¬ fe_path e ≺ rr_min_path (leaf_ref g).
Proof.
  intros Hs He. destruct g as [|x g]; [by apply not_elem_of_nil in He|]. cbn [leaf_ref rr_max_path rr_min_path].
  split.
  - destruct g as [|y g _] using rev_ind.
    + apply list_elem_of_singleton in He as ->. apply (irreflexivity bytes_lt).
    + rewrite List.last_last. rewrite app_comm_cons in Hs, He.
      apply ssorted_app in Hs as (Hx & _). apply elem_of_app in He as [He|He].
      * intros Hlt. apply (bytes_lt_asym (fe_path e) (fe_path y)); [|done]. apply Hx; [done|by left].
      * apply list_elem_of_singleton in He as ->. apply (irreflexivity bytes_lt).
  - apply ssorted_cons in Hs as [Hs _]. apply elem_of_cons in He as [->|He].
    + apply (irreflexivity bytes_lt).
    + rewrite Forall_forall in Hs. intros Hlt. by apply (bytes_lt_asym _ _ Hlt), Hs.
Qed.

Lemma entries_ok_app a b : entries_ok (a ++ b) → entries_ok a ∧ entries_ok b.
Proof.
  intros H. assert (concat [a; b] = a ++ b) as E by (simpl; by rewrite app_nil_r).
  split; (eapply entries_ok_sub; [exact H|exact E|]); set_solver.
Qed.

Lemma segment_entries_run es :
  entries_ok es → segment_entries es = Ok (segments_of (run_cut leaf_kind entry_record es)).
Proof.
  intros Hes. destruct (entries_fit es Hes) as [Hf _]. destruct leaf_kind_ok as [K1 K2].
  unfold segment_entries. destruct es as [|e es]; [done|].
  destruct Hes as [-> _]. by apply segment_by_cut.
Qed.

Lemma resynchronized_closed es entries leaf :
  resynchronized (segments_of (run_cut leaf_kind entry_record es)) entries leaf = true →
  (run_cut leaf_kind entry_record es).2 = [].
Proof.
  unfold resynchronized, segments_of. destruct (run_cut _ _ es) as [gs cur]. cbn [fst snd].
  destruct cur as [|e cur]; [done|]. by rewrite last_snoc.
Qed.

Lemma resync_loop_run s leaf r R scanned stats b :
  Forall (leaf_in s) r → entries_ok (R ++ concat r) →
  tb_nodes b + len r ≤ MAX_VISITED_NODES → tb_entries b + len (concat r) ≤ MAX_LOADED_ENTRIES →
  ∃ pre r' stats' b',
    let R' := R ++ concat pre in
    r = pre ++ r' ∧ (r' = [] ∨ (run_cut leaf_kind entry_record R').2 = []) ∧
    resync_loop s leaf (leaf_ref <$> r) scanned R stats b =
      (Ok (segments_of (run_cut leaf_kind entry_record R'), R', leaf_ref <$> r', stats'), b').
Proof.
  intros Hr. revert leaf R scanned stats b.
  induction Hr as [|g r Hg Hr IH]; intros leaf R scanned stats b Hok Hn He.
  { cbn [concat] in *. rewrite app_nil_r in Hok. eexists [], [], _, _. cbv zeta. csimpl.
    rewrite app_nil_r, segment_entries_run by done. split_and!; [done|by left|].
    by erewrite st_bind_run by done. }
  pose proof (entries_ok_app _ _ Hok) as [HR Hrest].
  cbn [concat] in *. rewrite len_app, len_cons in *.
  rewrite fmap_cons. cbn [resync_loop]. rewrite segment_entries_run by done.
  erewrite st_bind_run by done.
  destruct (resynchronized _ _ _) eqn:Ers.
  { eexists [], (g :: r), _, _. cbv zeta. cbn [concat]. rewrite app_nil_r.
    split_and!; [done|right; by eapply resynchronized_closed|done]. }
  assert (load_leaf_span [leaf_ref g] s b = (Ok g, charge_span b [g])) as Hload.
  { pose proof (load_leaf_span_run s [g] b) as L. cbn [concat fmap list_fmap] in L.
    rewrite app_nil_r in L. apply L; [by constructor|apply Hg|unfold len; simpl; lia|lia]. }
  erewrite st_bind_run by exact Hload.
  destruct (IH (leaf_ref g) (R ++ g) (scanned + 1)
    {| us_leaves_loaded := saturating_add64 (us_leaves_loaded stats) 1;
       us_entries_loaded := saturating_add64 (us_entries_loaded stats) (len g);
       us_replacement_leaves := us_replacement_leaves stats;
       us_internal_nodes_emitted := us_internal_nodes_emitted stats;
       us_resync_leaves_scanned := us_resync_leaves_scanned stats;
       us_reached_tree_end := us_reached_tree_end stats |} (charge_span b [g]))
    as (pre & r' & stats' & b' & -> & Hend & Hrun).
  - by rewrite <-app_assoc.
  - unfold charge_span. cbn [tb_nodes]. change (len [g]) with 1. lia.
  - unfold charge_span. cbn [tb_entries concat]. rewrite app_nil_r. lia.
  - exists (g :: pre), r', stats', b'. cbv zeta in *. cbn [concat]. rewrite app_assoc.
    by split_and!.
Qed.

(** The new leaves, given where the loop stopped. *)
Lemma cut_replaced es g1 span pre r' R :
  entries_ok es → short_paths es →
  cut leaf_kind entry_record es = g1 ++ span ++ pre ++ r' → span ≠ [] →
  (r' = [] ∨ (run_cut leaf_kind entry_record R).2 = []) →
  cut leaf_kind entry_record (concat g1 ++ R ++ concat r') =
    g1 ++ cut leaf_kind entry_record R ++ r'.
Proof.
  intros Hes Hsh Hc Hne Hend.
  assert (run_cut leaf_kind entry_record (concat g1) = (g1, [])) as H1.
  { eapply closed_prefix; [done..|exact Hc|]. by destruct span. }
  rewrite (cut_app _ _ _ _ _ H1). f_equal. destruct r' as [|g r'].
  { cbn [concat]. by rewrite !app_nil_r. }
  destruct Hend as [?|Hend]; [done|].
  destruct (run_cut leaf_kind entry_record R) as [gR cR] eqn:ER. cbn [snd] in Hend. subst cR.
  rewrite (cut_app _ _ _ _ _ ER). unfold cut at 2. rewrite ER. f_equal.
  apply (closed_suffix es (g1 ++ span ++ pre)); [done..|by rewrite Hc, <-!app_assoc|done].
Qed.

Lemma sorted_ends (l : list bytes) x xs p :
  sort_by id l = x :: xs → p ∈ l → ¬ p ≺ x ∧ ¬ List.last xs x ≺ p.
Proof.
  intros E Hp. pose proof (sort_by_wsorted id l) as Hw. rewrite E in Hw.
  apply (elem_of_sort_by id) in Hp. rewrite E in Hp. split.
  - apply StronglySorted_cons in Hw as [Hx _]. apply elem_of_cons in Hp as [->|Hp].
    + apply (irreflexivity bytes_lt).
    + rewrite Forall_forall in Hx. by apply Hx.
  - destruct xs as [|y xs _] using rev_ind.
    + apply list_elem_of_singleton in Hp as ->. apply (irreflexivity bytes_lt).
    + rewrite List.last_last. rewrite app_comm_cons in Hw, Hp.
      apply StronglySorted_app in Hw as (Hx & _). apply elem_of_app in Hp as [Hp|Hp].
      * apply (Hx p y); [done|by left].
      * apply list_elem_of_singleton in Hp as ->. apply (irreflexivity bytes_lt).
Qed.

Lemma not_lt_trans a b c : ¬ b ≺ a → b ≺ c → a ≺ c.
Proof.
  intros Hab Hbc. destruct (bytes_trichotomy a b) as [H|[->|H]]; [by trans b|done|done].
Qed.

(** The indices the code computes. *)
Definition window_start (rs : list RangeRef) (first : bytes) : nat :=
  Nat.min (partition_point (λ r, blt (rr_max_path r) first) rs) (length rs - 1).
Definition window_stop (rs : list RangeRef) (first last : bytes) : nat :=
  Nat.max (Nat.min (partition_point (λ r, blt (rr_max_path r) last) rs) (length rs - 1))
    (window_start rs first).

Lemma window_before es first p :
  entries_ok es → ¬ p ≺ first →
  let gs := cut leaf_kind entry_record es in
  Forall (λ e, fe_path e ≺ p) (concat (take (window_start (leaf_ref <$> gs) first) gs)).
Proof.
  intros Hes Hp gs. pose proof (leaf_level_ok es Hes) as [_ Hsort _].
  rewrite leaf_level_refs in Hsort. fold gs in Hsort.
  destruct (partition_spec (leaf_ref <$> gs) first Hsort) as (_ & Hlt & _).
  destruct (leaf_level_groups es Hes) as (_ & _ & Ho). fold gs in Ho.
  apply Forall_concat, Forall_forall. intros g Hg. apply Forall_forall. intros e He.
  apply list_elem_of_lookup in Hg as [j Hj]. apply lookup_take_Some in Hj as [Hj Hlt'].
  assert (ssorted fe_path g) as Hs.
  { rewrite Forall_forall in Ho. apply list_elem_of_lookup_2, Ho in Hj.
    by destruct Hj as [(_ & _ & ?)%validate_entries_ok _]. }
  destruct (group_bounds g e Hs He) as [Hb _].
  assert (rr_max_path (leaf_ref g) ≺ first) as Hm.
  { apply (Hlt j); [by rewrite list_lookup_fmap, Hj|]. unfold window_start in Hlt'. lia. }
  eapply not_lt_trans; [exact Hb|].
  destruct (bytes_trichotomy first p) as [H|[->|H]]; [by trans first|done|done].
Qed.

Lemma window_after es first last p :
  entries_ok es → es ≠ [] → ¬ last ≺ p →
  let gs := cut leaf_kind entry_record es in
  Forall (λ e, p ≺ fe_path e) (concat (drop (window_stop (leaf_ref <$> gs) first last + 1) gs)).
Proof.
  intros Hes Hne Hp gs. pose proof (leaf_level_ok es Hes) as [_ Hsort _].
  rewrite leaf_level_refs in Hsort. fold gs in Hsort.
  destruct (partition_spec (leaf_ref <$> gs) last Hsort) as (_ & _ & Hge).
  destruct (leaf_level_groups es Hes) as (_ & _ & Ho). fold gs in Ho.
  apply Forall_concat, Forall_forall. intros g Hg. apply Forall_forall. intros e He.
  apply list_elem_of_lookup in Hg as [j Hj]. rewrite lookup_drop in Hj.
  set (k := partition_point _ _) in Hge. set (w := window_stop _ _ _) in Hj.
  assert (k < w + 1 + j)%nat as Hk.
  { apply lookup_lt_Some in Hj. unfold w, window_stop, k in *. rewrite length_fmap in *. lia. }
  assert (ssorted fe_path g) as Hs.
  { rewrite Forall_forall in Ho. apply list_elem_of_lookup_2, Ho in Hj.
    by destruct Hj as [(_ & _ & ?)%validate_entries_ok _]. }
  destruct (group_bounds g e Hs He) as [_ Hb].
  assert (∃ gk, gs !! k = Some gk) as [gk Hgk].
  { apply lookup_lt_is_Some. apply lookup_lt_Some in Hj. lia. }
  assert (¬ rr_max_path (leaf_ref gk) ≺ last) as Hm
    by (apply (Hge k); [by rewrite list_lookup_fmap, Hgk|done]).
  assert (range_lt (leaf_ref gk) (leaf_ref g)) as [Hlt _].
  { eapply (StronglySorted_lookup_lt range_lt _ k (w + 1 + j)); [exact Hsort|done|..];
      by rewrite list_lookup_fmap, ?Hgk, ?Hj. }
  assert (p ≺ rr_min_path (leaf_ref g)) as Hpm.
  { eapply not_lt_trans; [|exact Hlt]. intros Hx. apply Hp.
    eapply not_lt_trans; [exact Hm|done]. }
  destruct (bytes_trichotomy (rr_min_path (leaf_ref g)) (fe_path e)) as [H|[<-|H]];
    [by trans (rr_min_path (leaf_ref g))|done|done].
Qed.

Lemma put_segments_run R s :
  entries_ok R →
  st_map (λ seg, store_leaf (segment_slice R seg)) (segments_of (run_cut leaf_kind entry_record R)) s =
    (Ok (leaf_ref <$> cut leaf_kind entry_record R), put_all (leaves_bytes R) s).
Proof.
  intros HR. destruct (decide (R = [])) as [->|Hne]; [done|].
  destruct (put_leaves_run_v2 R s HR Hne) as (segs & _ & -> & ->). by rewrite leaf_level_refs.
Qed.

Lemma root_from_leaf_refs N s :
  entries_ok N →
  ∃ n, root_from_leaves (leaf_refs N) s =
    (Ok (root_of N, n), put_all (grow_bytes 17 0 (leaf_level N)) s).
Proof.
  intros HN. destruct (decide (N = [])) as [->|Hne]; [by exists 0|].
  unfold leaf_refs. rewrite <-leaf_level_refs. by apply root_from_leaves_run.
Qed.

Context (P : bytes → Prop) (Hinj : injective_on hash_bytes P).

(** Writing the replacement leaves and the levels above completes [written N]. *)
Lemma completed_store s N g1 R r' :
  store_ok P s → Forall P (written N) →
  cut leaf_kind entry_record N = g1 ++ cut leaf_kind entry_record R ++ r' →
  Forall (leaf_in s) g1 → Forall (leaf_in s) r' →
  let s' := put_all (grow_bytes 17 0 (leaf_level N)) (put_all (leaves_bytes R) s) in
  store_ok P s' ∧ store_le s s' ∧ stored s' (written N).
Proof.
  intros Hs HP Hc H1 H3 s'. unfold s'. rewrite <-put_all_app.
  assert (leaves_bytes N = (leaf_bytes <$> g1) ++ leaves_bytes R ++ (leaf_bytes <$> r')) as Hl.
  { unfold leaves_bytes. by rewrite Hc, !fmap_app. }
  unfold written in *. rewrite Hl in *. apply Forall_app in HP as [HP1 HP2].
  apply Forall_app in HP1 as [_ HP1]. apply Forall_app in HP1 as [HP1 _].
  destruct (put_all_ok P Hinj (leaves_bytes R ++ grow_bytes 17 0 (leaf_level N)) s Hs)
    as (Hs' & Hle & Hst); [by apply Forall_app|].
  split_and!; [done..|]. rewrite Forall_forall in H1, H3.
  assert (∀ gs : list (list FileEntry), (∀ g, g ∈ gs → leaf_in s g) →
    ∀ b, b ∈ leaf_bytes <$> gs → cs_get (hash_bytes b) s = Ok b) as Hold.
  { intros gs Hgs b (g & -> & Hg)%list_elem_of_fmap. by destruct (Hgs g Hg) as (_ & _ & ?). }
  intros b [[Hb|[Hb|Hb]%elem_of_app]%elem_of_app|Hb]%elem_of_app.
  - by apply Hle, (Hold g1).
  - apply Hst, elem_of_app. by left.
  - by apply Hle, (Hold r').
  - apply Hst, elem_of_app. by right.
Qed.

Lemma merge_nil_ops es : merge_prefix_entries es [] [] = es.
Proof. by destruct es. Qed.

Lemma sort_by_nil_ops (us : list FileEntry) (ds : list bytes) :
  sort_by id ((fe_path <$> us) ++ ds) = [] → us = [] ∧ ds = [].
Proof.
  intros E. apply (f_equal length) in E. rewrite length_sort_by, length_app, length_fmap in E.
  destruct us, ds; simpl in *; (done || lia).
Qed.

Lemma update_empty_run us ds s first paths :
  sort_by id ((fe_path <$> us) ++ ds) = first :: paths →
  Forall (λ e, validate_path (fe_path e) = Ok tt) us → Forall (λ p, validate_path p = Ok tt) ds →
  entries_ok (merge_prefix_entries [] us ds) →
  ∃ stats, update_tree_v2 (root_of []) us ds s =
    (Ok (root_of (merge_prefix_entries [] us ds), stats),
     put_all (written (merge_prefix_entries [] us ds)) s).
Proof.
  intros Hsort Hus Hds HN. unfold update_tree_v2.
  erewrite st_bind_run by done.
  rewrite (proj2 (for_each_ok (λ e, validate_path (fe_path e)) us tt)) by done.
  erewrite st_bind_run by done.
  rewrite (proj2 (for_each_ok validate_path ds tt)) by done.
  erewrite st_bind_run by done. rewrite Hsort.
  erewrite st_bind_run by done. cbv beta iota.
  rewrite segment_entries_run by done. erewrite st_bind_run by done.
  assert (sort_by fe_path (merge_prefix_entries [] us ds) = merge_prefix_entries [] us ds) as Es.
  { apply sort_by_id. by destruct HN as [(_ & _ & ?)%validate_entries_ok _]. }
  erewrite st_bind_run by (apply build_tree_v2_run; by rewrite Es). rewrite Es.
  eexists. done.
Qed.

Lemma span_split {X} (gs : list X) i j :
  (i ≤ j)%nat → (j < length gs)%nat →
  gs = take i gs ++ take (j - i + 1) (drop i gs) ++ drop (j + 1) gs ∧
  take (j - i + 1) (drop i gs) ≠ [].
Proof.
  intros Hij Hj. split.
  - rewrite <-(take_drop i gs) at 1. f_equal. rewrite <-(take_drop (j - i + 1) (drop i gs)) at 1.
    f_equal. rewrite drop_drop. f_equal. lia.
  - intros E. apply (f_equal length) in E. rewrite length_take, length_drop in E. simpl in E. lia.
Qed.

(** The leaves before, inside and after the affected window, and the merged
    entries split along them. *)
Lemma update_window es us ds first paths :
  sort_by id ((fe_path <$> us) ++ ds) = first :: paths → entries_ok es → es ≠ [] →
  let rs := leaf_refs es in
  let start := window_start rs first in
  let stop := window_stop rs first (List.last paths first) in
  ∃ g1 span g3,
    cut leaf_kind entry_record es = g1 ++ span ++ g3 ∧ span ≠ [] ∧
    take start rs = leaf_ref <$> g1 ∧
    take (stop - start + 1) (drop start rs) = leaf_ref <$> span ∧
    drop (stop + 1) rs = leaf_ref <$> g3 ∧
    es = concat g1 ++ concat span ++ concat g3 ∧
    merge_prefix_entries es us ds =
      concat g1 ++ merge_prefix_entries (concat span) us ds ++ concat g3.
Proof.
  intros Hsort Hes Hne. cbv zeta. unfold leaf_refs.
  destruct (leaf_level_groups es Hes) as (Hcat & _ & _).
  pose proof (λ p, window_before es first p Hes) as Hbefore.
  pose proof (λ p, window_after es first (List.last paths first) p Hes Hne) as Hafter.
  cbv zeta in Hbefore, Hafter. set (gs := cut leaf_kind entry_record es) in *.
  assert (0 < length gs)%nat as Hgs by (destruct gs; [by symmetry in Hcat|simpl; lia]).
  set (start := window_start (leaf_ref <$> gs) first) in *.
  set (stop := window_stop (leaf_ref <$> gs) first (List.last paths first)) in *.
  assert (start ≤ stop)%nat as Hss by (unfold stop, window_stop; fold start; lia).
  assert (stop < length gs)%nat as Hsl.
  { unfold stop, window_stop, window_start. rewrite length_fmap. lia. }
  destruct (span_split gs start stop Hss Hsl) as [Hsplit Hspan].
  rewrite <-!fmap_drop, <-!fmap_take.
  eexists _, _, _. split; [exact Hsplit|].
  assert (es = concat (take start gs) ++ concat (take (stop - start + 1) (drop start gs))
    ++ concat (drop (stop + 1) gs)) as Ees by (rewrite <-Hcat, Hsplit at 1; by rewrite !concat_app).
  split_and!; [done..|]. rewrite Ees at 1. apply merge_middle.
  - rewrite <-Ees. by destruct Hes as [(_ & _ & ?)%validate_entries_ok _].
  - intros p Hp. destruct (sorted_ends _ _ _ p Hsort Hp) as [Hp1 Hp2].
    split; [by apply Hbefore|by apply Hafter].
Qed.

Lemma update_leaves_run es us ds s first paths leaf0 b (N := merge_prefix_entries es us ds) :
  sort_by id ((fe_path <$> us) ++ ds) = first :: paths →
  store_ok P s → entries_ok es → short_paths es → es ≠ [] → stored s (written es) →
  entries_ok N → Forall P (written N) →
  tb_nodes b + len (leaf_refs es) ≤ MAX_VISITED_NODES → tb_entries b = 0 →
  ∃ stats s',
    update_leaves leaf0 (leaf_refs es) b first (List.last paths first) us ds s =
      (Ok (root_of N, stats), s') ∧
    store_ok P s' ∧ store_le s s' ∧ stored s' (written N).
Proof.
  intros Hsort Hs Hes Hsh Hne Hst HN HP Hnodes Hents. unfold update_leaves.
  fold (window_start (leaf_refs es) first).
  fold (window_stop (leaf_refs es) first (List.last paths first)).
  destruct (update_window es us ds first paths Hsort Hes Hne)
    as (g1 & span & g3 & Hsplit & Hspan & -> & -> & -> & Ees & EN). fold N in EN.
  pose proof (written_leaves es s Hes Hst) as Hleaf.
  unfold leaf_refs in Hnodes. rewrite len_fmap, Hsplit in Hnodes.
  rewrite Hsplit in Hleaf. apply Forall_app in Hleaf as [L1 Hleaf]. apply Forall_app in Hleaf as [L2 L3].
  assert (len es ≤ MAX_LOADED_ENTRIES) as Hmax
    by (by destruct Hes as [(? & _)%validate_entries_ok _]).
  rewrite Ees in Hmax. rewrite !len_app in Hmax. rewrite !len_app in Hnodes.
  assert (with_budget (load_leaf_span (leaf_ref <$> span)) b s =
    (Ok (concat span, charge_span b span), s)) as Hload.
  { unfold with_budget. rewrite load_leaf_span_run; [done|done| |lia|lia].
    rewrite Ees in Hes. apply entries_ok_app in Hes as [_ Hes]. by apply entries_ok_app in Hes as [? _]. }
  erewrite st_bind_run by exact Hload. cbv beta iota zeta.
  assert (entries_ok (merge_prefix_entries (concat span) us ds ++ concat g3)) as HT.
  { rewrite EN in HN. by apply entries_ok_app in HN as [_ ?]. }
  set (M := merge_prefix_entries (concat span) us ds) in *. set (b1 := charge_span b span).
  assert (tb_nodes b1 + len g3 ≤ MAX_VISITED_NODES) as Hb1 by (unfold b1; simpl; lia).
  assert (tb_entries b1 + len (concat g3) ≤ MAX_LOADED_ENTRIES) as Hb2 by (unfold b1; simpl; lia).
  match goal with |- context [resync_loop _ ?l _ ?n _ ?st] =>
    destruct (resync_loop_run s l g3 M n st b1 L3 HT Hb1 Hb2)
      as (pre & r' & stats' & b' & -> & Hend & Hrun) end.
  unfold st_bind at 1, with_budget at 1. rewrite Hrun. cbv beta iota. cbv zeta in Hend.
  set (R := M ++ concat pre) in *.
  assert (N = concat g1 ++ R ++ concat r') as EN'.
  { rewrite EN. unfold R. by rewrite concat_app, <-!app_assoc. }
  assert (entries_ok R) as HR.
  { rewrite EN' in HN. apply entries_ok_app in HN as [_ HN]. by apply entries_ok_app in HN as [? _]. }
  pose proof (cut_replaced es g1 span pre r' R Hes Hsh Hsplit Hspan Hend) as Hcut.
  rewrite <-EN' in Hcut.
  erewrite st_bind_run by (by apply put_segments_run).
  assert ((leaf_ref <$> g1) ++ (leaf_ref <$> cut leaf_kind entry_record R) ++ (leaf_ref <$> r')
    = leaf_refs N) as ->.
  { unfold leaf_refs. by rewrite Hcut, !fmap_app. }
  pose proof (leaf_level_ok N HN) as Hro. rewrite leaf_level_refs in Hro. fold (leaf_refs N) in Hro.
  rewrite (refs_validate 0) by done. erewrite st_bind_run by done.
  destruct (root_from_leaf_refs N (put_all (leaves_bytes R) s) HN) as [n Hn].
  erewrite st_bind_run by exact Hn. eexists _, _. split; [reflexivity|].
  apply Forall_app in L3 as [_ L3]. by eapply completed_store.
Qed.

Lemma update_tree_v2_spec es us ds s (N := merge_prefix_entries es us ds) :
  store_ok P s → entries_ok es → short_paths es → stored s (written es) →
  Forall (λ e, validate_path (fe_path e) = Ok tt) us → Forall (λ p, validate_path p = Ok tt) ds →
  entries_ok N → Forall P (written N) →
  ∃ stats s', update_tree_v2 (root_of es) us ds s = (Ok (root_of N, stats), s') ∧
    store_ok P s' ∧ store_le s s' ∧ stored s' (written N).
Proof.
  intros Hs Hes Hsh Hst Hus Hds HN HP.
  destruct (sort_by id ((fe_path <$> us) ++ ds)) as [|first paths] eqn:Hsort.
  { pose proof (sort_by_nil_ops us ds Hsort) as [-> ->]. unfold N in *. rewrite merge_nil_ops in *.
    eexists us_default, s. split; [|done]. unfold update_tree_v2.
    rewrite (root_of_shape es s) by done. done. }
  destruct (decide (es = [])) as [->|Hne].
  { destruct (update_empty_run us ds s first paths Hsort Hus Hds HN) as [stats Hrun].
    eexists stats, _. split; [exact Hrun|]. by apply put_all_ok. }
  unfold update_tree_v2. rewrite (root_of_shape es s) by done. erewrite st_bind_run by done.
  rewrite (proj2 (for_each_ok (λ e, validate_path (fe_path e)) us tt)) by done.
  erewrite st_bind_run by done.
  rewrite (proj2 (for_each_ok validate_path ds tt)) by done.
  erewrite st_bind_run by done. rewrite Hsort. cbv zeta.
  destruct (collect_leaf_refs_run es s Hes Hst) as (n & Hn & Hcol).
  unfold with_budget at 1. unfold st_bind at 1. rewrite Hcol. cbv beta iota.
  pose proof (leaf_count_bound es Hes) as Hcnt.
  destruct (leaf_refs es) as [|leaf0 rest] eqn:El.
  { unfold leaf_refs in El. apply fmap_nil_inv in El.
    destruct (leaf_level_groups es Hes) as (Hcat & _). rewrite El in Hcat. by symmetry in Hcat. }
  rewrite <-El in *. apply update_leaves_run; try done.
  unfold leaf_refs in *. rewrite len_fmap in *. simpl. unfold MAX_VISITED_NODES. lia.
Qed.
End update.


(** [segment_entries] succeeds on every vault the format admits; the
    slices it selects tile the entries in order, none is empty, each has at
    most 1,024 records and encodes within the node byte cap. *)
Theorem segment_entries_tiles es :
  entries_ok es →
  ∃ segs, segment_entries es = Ok segs ∧
    concat (segment_slice es <$> segs) = es ∧
    Forall (λ g, g ≠ [] ∧ len g ≤ MAX_LEAF_ENTRIES ∧
                 ∃ b, encode_leaf g = Ok b ∧ len b ≤ MAX_NODE_BYTES) (segment_slice es <$> segs).
Proof.
  intros Hes. exists (segments_of (run_cut leaf_kind entry_record es)).
  destruct (entries_fit es Hes) as [Hf _]. destruct leaf_kind_ok as [K1 K2].
  destruct (leaf_level_groups es Hes) as (Hc & Hg & Ho).
  rewrite segment_slices by done. split_and!; [by apply segment_entries_run|done|].
  rewrite Forall_forall in Hg, Ho |- *. intros g Hin.
  destruct (Hg g Hin) as (H1 & H2 & H3). split_and!; [done..|]. exists (leaf_bytes g).
  rewrite len_leaf_bytes by auto. split; [|done]. apply leaf_group_encodes; auto.
Qed.

Section trees.
Context {S : Type} {B3 : Blake3} {CS : ChunkStore S} {CSL : ChunkStoreLaws S}.
Context (P : bytes → Prop) (Hinj : injective_on hash_bytes P).

(** Building a Tree v2 from any list of distinct valid entries, in any
    order, succeeds within the depth and node budgets; loading the root
    returns exactly the entries in path order, nothing readable before is
    lost, and the root is a function of the entries alone. *)
Theorem build_load_v2 es s :
  store_ok P s → entries_ok (sort_by fe_path es) → Forall P (written (sort_by fe_path es)) →
  ∃ s', build_tree_v2 es s = (Ok (root_of (sort_by fe_path es)), s') ∧
    load_all_entries_v2 (root_of (sort_by fe_path es)) s' = Ok (sort_by fe_path es) ∧
    store_ok P s' ∧ store_le s s'.
Proof.
  intros Hs Hes HP. destruct (put_all_ok P Hinj _ s Hs HP) as (Hs' & Hle & Hst).
  eexists. split; [by apply build_tree_v2_run|]. split_and!; [|done..].
  by apply load_all_entries_run.
Qed.

(** C2: the localized update is a rebuild when the paths of the stored vault
    are at most 205 bytes long: [update_tree] then succeeds and returns the
    very root [build_tree] gives for the updated entries, deletions first and
    the last upsert of a path winning, and that root loads them. The new paths
    may have any valid length. Beyond the bound the roots can differ
    (TreeV2Examples, [update_not_canonical_long_paths]). *)
Theorem update_is_rebuild_v2 es us ds s (N := merge_prefix_entries es us ds) :
  store_ok P s → entries_ok es → short_paths es → stored s (written es) →
  Forall (λ e, validate_path (fe_path e) = Ok tt) us → Forall (λ p, validate_path p = Ok tt) ds →
  entries_ok N → Forall P (written N) →
  ∃ root stats s', update_tree_v2 (root_of es) us ds s = (Ok (root, stats), s') ∧
    (build_tree_v2 N s).1 = Ok root ∧ load_all_entries_v2 root s' = Ok N ∧
    load_all_entries_v2 (root_of es) s' = Ok es.
Proof.
  intros Hs Hes Hsh Hst Hus Hds HN HP.
  destruct (update_tree_v2_spec P Hinj es us ds s) as (stats & s' & Hrun & Hs' & Hle & Hst'); [done..|].
  assert (sort_by fe_path N = N) as Es.
  { apply sort_by_id. by destruct HN as [(_ & _ & ?)%validate_entries_ok _]. }
  exists (root_of N), stats, s'. split_and!; [done| |by apply load_all_entries_run|].
  - rewrite build_tree_v2_run by (by rewrite Es). by rewrite Es.
  - apply load_all_entries_run; [done|]. intros b Hb. by apply Hle, Hst.
Qed.
End trees.
