(* ===== verification/SyncRules.v ===== *)
(** src/crates/sync-core/src/sync_rules.rs: the per-file-type strategies, the
    glob matcher that selects them and the text-file test of the merge.

    [glob_match] is the two-index loop with its single backtracking point;
    [glob_spec] is what a glob means. They agree on every text that holds no
    literal asterisk; with one, the loop reads the pattern's [*] as that
    literal and gives up too early ([glob_match_star_text]). *)

From S2P Require Import Prelude Bytes.
Local Open Scope nat_scope.

(** * The strategies *)

Inductive BinaryStrategy := ConflictCopy | LocalOnly | Immutable.

#[global] Instance BinaryStrategy_eq_dec : EqDecision BinaryStrategy.
Proof. solve_decision. Defined.

Record SyncRules := { binary_rules : list (bytes * BinaryStrategy) }.

Definition default_rules : list (bytes * BinaryStrategy) :=
  [ (str "*.sqlite", LocalOnly); (str "*.sqlite-wal", LocalOnly);
    (str "*.sqlite-shm", LocalOnly); (str ".DS_Store", LocalOnly);
    (str "thumbs.db", LocalOnly);
    (str "*.png", Immutable); (str "*.jpg", Immutable); (str "*.jpeg", Immutable);
    (str "*.webp", Immutable); (str "*.gif", Immutable); (str "*.bmp", Immutable);
    (str "*.svg", Immutable); (str "*.pdf", Immutable); (str "*.mp3", Immutable);
    (str "*.mp4", Immutable); (str "*.wav", Immutable); (str "*.ogg", Immutable);
    (str "*.flac", Immutable); (str "*.zip", Immutable); (str "*.tar", Immutable);
    (str "*.gz", Immutable);
    (str "*", ConflictCopy) ].

(** * The matcher *)

Definition star : byte := "*"%byte.
Definition question : byte := "?"%byte.

(** [pattern[pi] == b'?' || pattern[pi] == text[ti]] *)
Definition hit (c d : byte) : bool := bool_decide (c = question) || bool_decide (c = d).

(** The main loop; [back] is [(star_pi, star_ti)], absent while [star_pi] is
    [usize::MAX]. The result is the final [pi], or [None] for
    [return false]. *)
Fixpoint glob_loop (fuel : nat) (pattern text : bytes) (pi ti : nat)
    (back : option (nat * nat)) : option nat :=
  match fuel with
  | O => None
  | S fuel =>
      if ti <? length text then
        if match pattern !! pi, text !! ti with
           | Some c, Some d => hit c d
           | _, _ => false
           end then glob_loop fuel pattern text (pi + 1) (ti + 1) back
        else if bool_decide (pattern !! pi = Some star) then
          glob_loop fuel pattern text (pi + 1) ti (Some (pi, ti))
        else match back with
             | Some (star_pi, star_ti) =>
                 glob_loop fuel pattern text (star_pi + 1) (star_ti + 1)
                   (Some (star_pi, star_ti + 1))
             | None => None
             end
      else Some pi
  end.

(** [while pi < pattern.len() && pattern[pi] == b'*' { pi += 1; }] *)
Fixpoint skip_stars (p : bytes) : bytes :=
  match p with
  | c :: p' => if bool_decide (c = star) then skip_stars p' else p
  | [] => []
  end.

(** Every backtrack moves [star_ti] on, and between two of them [pi] grows. *)
Definition glob_fuel (pattern text : bytes) : nat :=
  S ((length text + 2) * (length pattern + length text + 2)).

Definition glob_match (pattern text : bytes) : bool :=
  match glob_loop (glob_fuel pattern text) pattern text 0 0 None with
  | Some pi => bool_decide (skip_stars (drop pi pattern) = [])
  | None => false
  end.

Definition strategy_for (r : SyncRules) (path : bytes) : BinaryStrategy :=
  let filename := rsplit_first path "/"%byte in
  match find (λ rule, glob_match rule.1 filename) (binary_rules r) with
  | Some rule => rule.2
  | None => ConflictCopy
  end.

Definition is_local_only (r : SyncRules) (path : bytes) : bool :=
  bool_decide (strategy_for r path = LocalOnly).

(** * Text files *)

Definition TEXT_EXTENSIONS : list bytes :=
  str <$> ["md"; "txt"; "css"; "json"; "js"; "ts"; "html"; "xml"; "yaml"; "yml"; "toml";
           "csv"; "canvas"; "excalidraw"; "svg"; "tex"; "bib"; "org"; "rst"]%string.

(** [str::to_lowercase] agrees with the ASCII mapping here: the one non-ASCII
    character it maps to ASCII is the Kelvin sign, and no extension has a k. *)
Definition is_text_file (path : bytes) : bool :=
  bool_decide (to_ascii_lowercase (rsplit_first path "."%byte) ∈ TEXT_EXTENSIONS).

(** * What a glob means *)

Fixpoint glob_spec (p t : bytes) : bool :=
  match p with
  | [] => bool_decide (t = [])
  | c :: p' =>
      if bool_decide (c = star) then
        (fix from (u : bytes) : bool :=
           glob_spec p' u || match u with [] => false | _ :: u' => from u' end) t
      else match t with
           | [] => false
           | d :: t' => hit c d && glob_spec p' t'
           end
  end.

Lemma glob_spec_star p t :
  glob_spec (star :: p) t =
    glob_spec p t || match t with [] => false | _ :: t' => glob_spec (star :: p) t' end.
Proof. destruct t; done. Qed.

Lemma glob_spec_lit c p t :
  c ≠ star →
  glob_spec (c :: p) t = match t with [] => false | d :: t' => hit c d && glob_spec p t' end.
Proof. intros Hc. cbn. by rewrite bool_decide_eq_false_2. Qed.

(** A leading star absorbs any prefix of the text. *)
Lemma glob_spec_star_suffix p v u : glob_spec (star :: p) u = true → glob_spec (star :: p) (v ++ u) = true.
Proof.
  intros Hu. induction v as [|c v IH]; [done|].
  rewrite glob_spec_star. cbn [app]. by rewrite IH, orb_true_r.
Qed.

Lemma glob_spec_star_iff p t :
  glob_spec (star :: p) t = true ↔ ∃ v u, t = v ++ u ∧ glob_spec p u = true.
Proof.
  split.
  - induction t as [|c t IH]; rewrite glob_spec_star, orb_true_iff.
    + intros [H|[=]]. by exists [], [].
    + intros [H|(v & u & -> & H)%IH]; [by exists [], (c :: t)|by exists (c :: v), u].
  - intros (v & u & -> & H). apply glob_spec_star_suffix.
    by rewrite glob_spec_star, H.
Qed.

Lemma glob_spec_nil p : glob_spec p [] = bool_decide (skip_stars p = []).
Proof.
  induction p as [|c p IH]; [done|]. destruct (decide (c = star)) as [->|Hc].
  - rewrite glob_spec_star, orb_false_r, IH. done.
  - rewrite glob_spec_lit by done. cbn. by rewrite (bool_decide_eq_false_2 (c = star)).
Qed.

(** [lit] has no star and matches the start of [t], leaving [u]. *)
Inductive lit_match : bytes → bytes → bytes → Prop :=
  | lit_nil u : lit_match [] u u
  | lit_cons c d p t u : c ≠ star → hit c d = true → lit_match p t u → lit_match (c :: p) (d :: t) u.

Lemma lit_match_spec lit t u q :
  lit_match lit t u → glob_spec (lit ++ q) t = glob_spec q u.
Proof.
  induction 1 as [|c d p t u Hc Hd H IH]; [done|]. cbn [app].
  by rewrite glob_spec_lit, Hd, IH by done.
Qed.

Lemma lit_match_snoc lit t c d u :
  lit_match lit t (d :: u) → c ≠ star → hit c d = true → lit_match (lit ++ [c]) t u.
Proof.
  remember (d :: u) as w eqn:E. induction 1; intros; subst; simpl; repeat constructor; auto.
Qed.

Lemma lit_match_length lit t u : lit_match lit t u → length t = length lit + length u.
Proof. induction 1; simpl; lia. Qed.

(** What a starless prefix leaves of any text it matches. *)
Lemma lit_prefix lit t u q w :
  lit_match lit t u → glob_spec (lit ++ q) w = true →
  length lit ≤ length w ∧ glob_spec q (drop (length lit) w) = true.
Proof.
  intros H. revert w. induction H as [|c d p t u Hc Hd H IH]; intros w; cbn [app].
  { rewrite drop_0. split; [simpl; lia|done]. }
  rewrite glob_spec_lit by done. destruct w as [|e w]; [done|].
  rewrite andb_true_iff. intros [_ Hw]. apply IH in Hw as [??]. simpl. split; [lia|done].
Qed.

(** Greedy commitment: once the literals after a star have matched at their
    earliest position, the next star may start there. *)
Lemma glob_commit lit t u q :
  lit_match lit t u →
  glob_spec (star :: lit ++ star :: q) t = glob_spec (star :: q) u.
Proof.
  intros H. apply eq_bool_prop_intro. rewrite !Is_true_true.
  rewrite glob_spec_star_iff. split.
  - intros (v & w & -> & Hw). destruct (lit_prefix lit _ u _ w H Hw) as [Hl Hq].
    pose proof (lit_match_length _ _ _ H) as Hlen. rewrite length_app in Hlen.
    assert (u = drop (length lit) (v ++ w)) as ->.
    { clear -H. revert H. generalize (v ++ w). induction 1; simpl; [by rewrite drop_0|done]. }
    rewrite <-(take_drop (length v) (drop (length lit) (v ++ w))).
    apply glob_spec_star_suffix. rewrite drop_drop, Nat.add_comm, <-drop_drop, drop_app_length.
    done.
  - intros Hq. exists [], t. split; [done|]. by rewrite (lit_match_spec _ _ _ _ H).
Qed.

(** * The loop computes it *)

Lemma drop_lookup_cons {A} (l : list A) i x : l !! i = Some x → drop i l = x :: drop (i + 1) l.
Proof. intros H. rewrite Nat.add_1_r. by apply drop_S. Qed.

Definition back_pos (back : option (nat * nat)) : nat :=
  match back with None => 0 | Some (_, st) => S st end.

(** Since the last star (or the start) the loop has matched literals only,
    and everything before that star is settled. *)
Definition glob_inv (p t : bytes) (pi ti : nat) (back : option (nat * nat)) : Prop :=
  pi ≤ length p ∧ ti ≤ length t ∧
  match back with
  | None => lit_match (take pi p) t (drop ti t)
  | Some (sp, st) =>
      p !! sp = Some star ∧ sp < pi ∧ st ≤ ti ∧
      lit_match (take (pi - (sp + 1)) (drop (sp + 1) p)) (drop st t) (drop ti t) ∧
      glob_spec p t = glob_spec (drop sp p) (drop st t)
  end.

Lemma glob_inv_lit p t pi ti back c d :
  glob_inv p t pi ti back → p !! pi = Some c → t !! ti = Some d → c ≠ star → hit c d = true →
  glob_inv p t (pi + 1) (ti + 1) back.
Proof.
  intros (H1 & H2 & H3) Hp Ht Hc Hh.
  pose proof (lookup_lt_Some _ _ _ Hp). pose proof (lookup_lt_Some _ _ _ Ht).
  rewrite (drop_lookup_cons t ti d) in H3 by done.
  split_and!; [lia..|]. destruct back as [[sp st]|].
  - destruct H3 as (? & ? & ? & H3 & ?). split_and!; [done|lia..| |done].
    replace (pi + 1 - (sp + 1)) with (S (pi - (sp + 1))) by lia.
    rewrite (take_S_r _ _ c); [by eapply lit_match_snoc|].
    rewrite lookup_drop. by replace (sp + 1 + (pi - (sp + 1))) with pi by lia.
  - rewrite Nat.add_1_r, (take_S_r _ _ c) by done. by eapply lit_match_snoc.
Qed.

(** What is left to match is the rest of the pattern on the rest of the text,
    or the last star absorbs one more byte. *)
Lemma glob_inv_None p t pi ti :
  glob_inv p t pi ti None → glob_spec p t = glob_spec (drop pi p) (drop ti t).
Proof.
  intros (_ & _ & H). rewrite <-(lit_match_spec _ _ _ _ H). by rewrite take_drop.
Qed.

Lemma glob_inv_split p t pi sp st ti :
  glob_inv p t pi ti (Some (sp, st)) →
  ∃ lit, drop sp p = star :: lit ++ drop pi p ∧ lit_match lit (drop st t) (drop ti t) ∧
         glob_spec p t = glob_spec (star :: lit ++ drop pi p) (drop st t).
Proof.
  intros (_ & _ & Hs & Hlt & _ & Hl & E). eexists. assert (drop sp p = star ::
    take (pi - (sp + 1)) (drop (sp + 1) p) ++ drop pi p) as Ed.
  { rewrite (drop_lookup_cons p sp star) by done. f_equal.
    rewrite <-(take_drop (pi - (sp + 1)) (drop (sp + 1) p)) at 1. f_equal.
    rewrite drop_drop. f_equal. lia. }
  split_and!; [exact Ed|done|]. by rewrite E, Ed.
Qed.

Lemma glob_inv_star p t pi ti back :
  glob_inv p t pi ti back → p !! pi = Some star → glob_inv p t (pi + 1) ti (Some (pi, ti)).
Proof.
  intros Hi Hp. pose proof Hi as (H1 & H2 & _). pose proof (lookup_lt_Some _ _ _ Hp).
  split_and!; [lia|lia|done|lia|lia| |].
  - rewrite Nat.sub_diag. constructor.
  - destruct back as [[sp st]|].
    + destruct (glob_inv_split _ _ _ _ _ _ Hi) as (lit & _ & Hl & ->).
      rewrite (drop_lookup_cons p pi star) by done. by apply glob_commit.
    + by apply glob_inv_None.
Qed.

Lemma glob_inv_back p t pi sp st ti :
  glob_inv p t pi ti (Some (sp, st)) → ti < length t →
  glob_spec (drop pi p) (drop ti t) = false →
  glob_inv p t (sp + 1) (st + 1) (Some (sp, st + 1)).
Proof.
  intros Hi Hlt Hf. pose proof Hi as (H1 & H2 & Hs & Hsp & Hst & _).
  split_and!; [lia|lia|done|lia|lia| |].
  { rewrite Nat.sub_diag. constructor. }
  destruct (glob_inv_split _ _ _ _ _ _ Hi) as (lit & Ed & Hl & ->). rewrite Ed, glob_spec_star.
  rewrite (lit_match_spec _ _ _ _ Hl), Hf. cbn [orb].
  destruct (lookup_lt_is_Some_2 t st) as [d Hd]; [lia|].
  by rewrite (drop_lookup_cons t st d).
Qed.

(** At the end of the text only stars may be left. *)
Lemma glob_inv_end p t pi back :
  glob_inv p t pi (length t) back → glob_spec p t = bool_decide (skip_stars (drop pi p) = []).
Proof.
  intros Hi. rewrite <-glob_spec_nil, <-(drop_all t). destruct back as [[sp st]|].
  - destruct (glob_inv_split _ _ _ _ _ _ Hi) as (lit & _ & Hl & ->).
    rewrite glob_spec_star, (lit_match_spec _ _ _ _ Hl), orb_comm.
    destruct (drop st t) as [|d w] eqn:E; [done|].
    destruct (glob_spec (star :: lit ++ drop pi p) w) eqn:F; [|done].
    apply glob_spec_star_iff in F as (v & u & -> & F).
    eapply lit_prefix in F as [F _]; [|exact Hl]. apply lit_match_length in Hl.
    rewrite drop_all in Hl. simpl in Hl. rewrite length_app in Hl. lia.
  - by apply glob_inv_None.
Qed.

Lemma glob_loop_spec fuel p t pi ti back :
  star ∉ t → glob_inv p t pi ti back →
  (length t + 1 - back_pos back) * (length p + 1) + (length p - pi) < fuel →
  match glob_loop fuel p t pi ti back with
  | Some pi => bool_decide (skip_stars (drop pi p) = [])
  | None => false
  end = glob_spec p t.
Proof.
  intros Ht. revert pi ti back. induction fuel as [|fuel IH]; intros pi ti back Hi Hf; [by apply Nat.nlt_0_r in Hf|].
  cbn [glob_loop]. pose proof Hi as (H1 & H2 & H3).
  destruct (Nat.ltb_spec ti (length t)) as [Hlt|Hge].
  2: { assert (ti = length t) as -> by lia. symmetry. by eapply glob_inv_end. }
  destruct (lookup_lt_is_Some_2 t ti Hlt) as [d Hd]. rewrite Hd.
  assert (d ≠ star) by (intros ->; by apply Ht; eapply list_elem_of_lookup_2).
  destruct (p !! pi) as [c|] eqn:Hp; [destruct (hit c d) eqn:Hh|].
  - assert (c ≠ star).
    { intros ->. unfold hit in Hh. by apply orb_true_iff in Hh as [?%bool_decide_eq_true|?%bool_decide_eq_true]. }
    pose proof (lookup_lt_Some _ _ _ Hp). apply IH; [by eapply glob_inv_lit|lia].
  - case_bool_decide as Hs.
    + injection Hs as ->. pose proof (lookup_lt_Some _ _ _ Hp).
      apply IH; [by eapply glob_inv_star|]. destruct back as [[sp st]|]; simpl in *; nia.
    + assert (glob_spec (drop pi p) (drop ti t) = false) as Hfalse.
      { rewrite (drop_lookup_cons p pi c), (drop_lookup_cons t ti d) by done.
        rewrite glob_spec_lit by congruence. by rewrite Hh. }
      destruct back as [[sp st]|]; [|symmetry; by rewrite (glob_inv_None _ _ _ _ Hi)].
      destruct H3 as (?&?&?&_). apply IH; [by eapply glob_inv_back|]. simpl in *. nia.
  - rewrite bool_decide_eq_false_2 by done.
    assert (glob_spec (drop pi p) (drop ti t) = false) as Hfalse.
    { apply lookup_ge_None in Hp. rewrite drop_ge, (drop_lookup_cons t ti d) by done. done. }
    destruct back as [[sp st]|]; [|symmetry; by rewrite (glob_inv_None _ _ _ _ Hi)].
    destruct H3 as (?&?&?&_). apply IH; [by eapply glob_inv_back|]. simpl in *. nia.
Qed.

(** On every text without a literal asterisk the two-index matcher
    terminates and decides exactly the meaning of the glob, however many
    stars the pattern has. *)
Theorem glob_match_correct pattern text :
  star ∉ text → glob_match pattern text = glob_spec pattern text.
Proof.
  intros Ht. apply glob_loop_spec; [done| |unfold glob_fuel; simpl; nia].
  split_and!; [lia..|]. constructor.
Qed.

Lemma glob_match_correct_witness :
  glob_match (str "*a*b?.m*d") (str "xaab.bc.md") = glob_spec (str "*a*b?.m*d") (str "xaab.bc.md").
Proof.
  apply (glob_match_correct (str "*a*b?.m*d") (str "xaab.bc.md")).
  apply (bool_decide_eq_true_1 _). vm_compute. reflexivity.
Defined.

(** With a literal asterisk in the file name the matcher is wrong: the
    catch-all pattern does not match the name [*a], and a database whose name
    starts with an asterisk escapes the local-only rule. *)
Theorem glob_match_star_text :
  glob_match (str "*") (str "*a") = false ∧ glob_spec (str "*") (str "*a") = true ∧
  strategy_for {| binary_rules := default_rules |} (str "db/*1.sqlite") = ConflictCopy ∧
  strategy_for {| binary_rules := default_rules |} (str "db/1.sqlite") = LocalOnly.
Proof. vm_compute. auto. Qed.
