(* ===== verification/ContentStore.v ===== *)
(** src/crates/sync-core/src/content_store.rs: the store of file contents.

    [ContentStore] is the trait, [ContentStoreLaws] what the merge and the
    file transfer rely on; the in-memory and the disk store discharge it.
    The JSON form of a manifest is third-party code ([serde_json]): the class
    [ManifestJson], whose law is that a manifest whose fields fit their
    machine widths is read back as it was written. *)

From S2P Require Import Prelude Bytes Hash Chunk.
Local Open Scope N_scope.

(** Reference to a sub-file chunk within a manifest. *)
Record ChunkRef := { cr_hash : FileHash; cr_offset : N; cr_size : N }.

Record FileManifest := {
  fm_file_hash : FileHash;
  fm_total_size : N;
  fm_chunks : list ChunkRef;
}.

#[global] Instance ChunkRef_eq_dec : EqDecision ChunkRef.
Proof. solve_decision. Defined.
#[global] Instance FileManifest_eq_dec : EqDecision FileManifest.
Proof. solve_decision. Defined.

(** The field widths of the two structs. *)
Definition chunk_ref_ok (c : ChunkRef) : bool :=
  (len (cr_hash c) =? 32) && u64_ok (cr_offset c) && u32_ok (cr_size c).
Definition manifest_ok (m : FileManifest) : bool :=
  (len (fm_file_hash m) =? 32) && u64_ok (fm_total_size m) && forallb chunk_ref_ok (fm_chunks m).

(** * The interface *)

Class ContentStore (S : Type) := {
  ct_has : FileHash → S → bool;
  ct_get : FileHash → S → result ChunkError bytes;
  ct_put : FileHash → bytes → St S ChunkError unit;
  ct_has_manifest : FileHash → S → bool;
  ct_get_manifest : FileHash → S → result ChunkError FileManifest;
  ct_put_manifest : FileManifest → St S ChunkError unit;
}.

Class ContentStoreLaws (S : Type) `{Blake3} `{ContentStore S} : Prop := {
  ct_put_ok : ∀ b s, ∃ s', ct_put (hash_bytes b) b s = (Ok tt, s');
  ct_get_put : ∀ b s s',
    ct_put (hash_bytes b) b s = (Ok tt, s') → ct_get (hash_bytes b) s' = Ok b;
  ct_get_put_ne : ∀ b h s s',
    ct_put (hash_bytes b) b s = (Ok tt, s') → h ≠ hash_bytes b → ct_get h s' = ct_get h s;
  ct_put_manifest_ok : ∀ m s, ∃ s', ct_put_manifest m s = (Ok tt, s');
  ct_get_put_manifest : ∀ m s s',
    manifest_ok m = true → ct_put_manifest m s = (Ok tt, s') →
    ct_get_manifest (fm_file_hash m) s' = Ok m;
  ct_get_put_manifest_ne : ∀ m h s s',
    ct_put_manifest m s = (Ok tt, s') → h ≠ fm_file_hash m →
    ct_get_manifest h s' = ct_get_manifest h s;
  ct_blob_manifest : ∀ m h s s', ct_put_manifest m s = (Ok tt, s') → ct_get h s' = ct_get h s;
  ct_manifest_blob : ∀ b h s s',
    ct_put (hash_bytes b) b s = (Ok tt, s') → ct_get_manifest h s' = ct_get_manifest h s;
  ct_has_get : ∀ h s, ct_has h s = is_ok (ct_get h s);
  ct_has_get_manifest : ∀ h s, ct_has_manifest h s = is_ok (ct_get_manifest h s);
}.

(** * In memory *)

Record MemoryContentStore := {
  mc_blobs : gmap FileHash bytes;
  mc_manifests : gmap FileHash FileManifest;
}.

Definition mc_new : MemoryContentStore := {| mc_blobs := ∅; mc_manifests := ∅ |}.

#[global] Instance mem_content_store : ContentStore MemoryContentStore := {|
  ct_has h s := bool_decide (is_Some (mc_blobs s !! h));
  ct_get h s := ok_or (mc_blobs s !! h) (NotFound h);
  ct_put h data s :=
    (Ok tt, {| mc_blobs := <[h := data]> (mc_blobs s); mc_manifests := mc_manifests s |});
  ct_has_manifest h s := bool_decide (is_Some (mc_manifests s !! h));
  ct_get_manifest h s := ok_or (mc_manifests s !! h) (NotFound h);
  ct_put_manifest m s :=
    (Ok tt, {| mc_blobs := mc_blobs s;
               mc_manifests := <[fm_file_hash m := m]> (mc_manifests s) |});
|}.

Lemma is_ok_ok_or {E A} (o : option A) (e : E) : is_ok (ok_or o e) = bool_decide (is_Some o).
Proof. by destruct o. Qed.

#[global] Instance mem_content_store_laws `{Blake3} : ContentStoreLaws MemoryContentStore.
Proof.
  split; simpl; intros; simplify_eq; simpl; rewrite ?is_ok_ok_or; try (by eauto);
    by rewrite ?lookup_insert_eq, ?lookup_insert_ne by done.
Qed.

(** * On disk *)

(** [serde_json::to_vec] and [from_slice] at type [FileManifest]. *)
Class ManifestJson := {
  json_to_vec : FileManifest → bytes;
  json_from_slice : bytes → option FileManifest;
  json_roundtrip : ∀ m, manifest_ok m = true → json_from_slice (json_to_vec m) = Some m;
}.

(** Blobs live at [<first2hex>/<rest>], manifests below [manifests/]: two
    disjoint trees of complete files, since writes are promoted by rename. *)
Inductive ContentPath :=
  | BlobPath (dir file : bytes)
  | ManifestPath (dir file : bytes).

#[global] Instance ContentPath_eq_dec : EqDecision ContentPath.
Proof. solve_decision. Defined.
#[global] Instance ContentPath_countable : Countable ContentPath.
Proof.
  refine (inj_countable' (λ p, match p with BlobPath d f => inl (d, f) | ManifestPath d f => inr (d, f) end)
            (λ x, match x with inl (d, f) => BlobPath d f | inr (d, f) => ManifestPath d f end) _).
  by intros [].
Defined.

Section disk.
Context {B3 : Blake3} {HX : Hex} {MJ : ManifestJson}.

Record DiskContentStore := { dc_files : gmap ContentPath bytes }.

Definition blob_path (h : FileHash) : ContentPath :=
  let hex := hash_to_hex h in BlobPath (take 2 hex) (drop 2 hex).
Definition manifest_path (h : FileHash) : ContentPath :=
  let hex := hash_to_hex h in ManifestPath (take 2 hex) (drop 2 hex).

Definition dc_get (h : FileHash) (s : DiskContentStore) : result ChunkError bytes :=
  match dc_files s !! blob_path h with
  | None => Err (NotFound h)
  | Some data =>
      if negb (beq (hash_bytes data) h)
      then Err (Deserialize "content object failed content-address validation")
      else Ok data
  end.

Definition dc_put (h : FileHash) (data : bytes) : St DiskContentStore ChunkError unit := λ s,
  if negb (beq (hash_bytes data) h)
  then (Err (Deserialize "refusing content bytes that do not match"), s)
  else (Ok tt, {| dc_files := <[blob_path h := data]> (dc_files s) |}).

Definition dc_get_manifest (h : FileHash) (s : DiskContentStore)
    : result ChunkError FileManifest :=
  let? data := ok_or (dc_files s !! manifest_path h) (NotFound h) in
  let? manifest := ok_or (json_from_slice data) (Deserialize "manifest") in
  if negb (beq (fm_file_hash manifest) h)
  then Err (Deserialize "manifest file_hash does not match its storage address")
  else Ok manifest.

Definition dc_put_manifest (m : FileManifest) : St DiskContentStore ChunkError unit := λ s,
  (Ok tt, {| dc_files := <[manifest_path (fm_file_hash m) := json_to_vec m]> (dc_files s) |}).

#[global] Instance disk_content_store : ContentStore DiskContentStore := {|
  ct_has h s := is_ok (dc_get h s);
  ct_get := dc_get;
  ct_put := dc_put;
  ct_has_manifest h s := is_ok (dc_get_manifest h s);
  ct_get_manifest := dc_get_manifest;
  ct_put_manifest := dc_put_manifest;
|}.

Lemma hex_split_inj h1 h2 :
  take 2 (hash_to_hex h1) = take 2 (hash_to_hex h2) →
  drop 2 (hash_to_hex h1) = drop 2 (hash_to_hex h2) → h1 = h2.
Proof.
  unfold hash_to_hex. intros E1 E2.
  assert (hex_encode h1 = hex_encode h2) as E.
  { by rewrite <-(take_drop 2 (hex_encode h1)), <-(take_drop 2 (hex_encode h2)), E1, E2. }
  assert (@Ok FromHexError _ h1 = Ok h2) as [= ->]; [|done].
  by rewrite <-!hex_decode_encode, E.
Qed.

Lemma dc_put_self b s :
  dc_put (hash_bytes b) b s =
    (Ok tt, {| dc_files := <[blob_path (hash_bytes b) := b]> (dc_files s) |}).
Proof. unfold dc_put, beq. by rewrite bool_decide_eq_true_2. Qed.

#[global] Instance disk_content_store_laws : ContentStoreLaws DiskContentStore.
Proof.
  split; simpl; try done.
  - intros b s. rewrite dc_put_self. eauto.
  - intros b s s'. rewrite dc_put_self. intros [= <-]. unfold dc_get. simpl.
    rewrite lookup_insert_eq. unfold beq. by rewrite bool_decide_eq_true_2.
  - intros b h s s'. rewrite dc_put_self. intros [= <-] Hne. unfold dc_get. simpl.
    rewrite lookup_insert_ne; [done|]. intros [= E1 E2]. by apply Hne, hex_split_inj.
  - intros m s. unfold dc_put_manifest. eauto.
  - intros m s s' Hm [= <-]. unfold dc_get_manifest. simpl. rewrite lookup_insert_eq. simpl.
    rewrite json_roundtrip by done. simpl. unfold beq. by rewrite bool_decide_eq_true_2.
  - intros m h s s' [= <-] Hne. unfold dc_get_manifest. simpl.
    rewrite lookup_insert_ne; [done|]. intros [= E1 E2]. by apply Hne, hex_split_inj.
  - intros m h s s' [= <-]. unfold dc_get. simpl. by rewrite lookup_insert_ne.
  - intros b h s s'. rewrite dc_put_self. intros [= <-]. unfold dc_get_manifest. simpl.
    by rewrite lookup_insert_ne.
Qed.

(** The disk store never returns bytes that do not hash to the address
    asked for, whatever is in its files. *)
Lemma dc_get_hash h s b : dc_get h s = Ok b → hash_bytes b = h.
Proof.
  unfold dc_get. destruct (_ !! _) as [d|]; [|done].
  unfold beq. case_bool_decide; [|done]. by intros [= <-].
Qed.
End disk.
