(* ===== verification/FastCdc.v ===== *)
(** src/crates/sync-core/src/fastcdc_chunker.rs: large files are split into
    content-defined chunks, in one pass over the whole file ([chunk_file]) or
    incrementally over a bounded window ([StreamingChunker]).

    The FastCDC crate is the class [FastCDC]: its iterator restarts on the
    rest of the data after every chunk, a chunk is not empty and at most
    [MAX_CHUNK] long, and the first boundary is decided by the first
    [MAX_CHUNK] bytes.

    The chunker theorems: streaming equals chunking the whole file, whatever
    the feed sizes, and chunks reassemble to the file they came from. *)

From S2P Require Import Prelude Bytes Hash Chunk Concrete ContentStore.
Local Open Scope N_scope.

Definition FILE_CHUNK_THRESHOLD : N := 1048576.
Definition MIN_CHUNK : N := 256 * 1024.
Definition AVG_CHUNK : N := 1024 * 1024.
Definition MAX_CHUNK : N := 4 * 1024 * 1024.
Definition STREAMING_CHUNKER_WINDOW_BYTES : N := MAX_CHUNK.

(** [fastcdc::v2020::Chunk]. *)
Record CdcChunk := { cc_offset : N; cc_length : N }.

Definition cc_shift (n : N) (c : CdcChunk) : CdcChunk :=
  {| cc_offset := n + cc_offset c; cc_length := cc_length c |}.

(** [FastCDC::new(data, MIN_CHUNK, AVG_CHUNK, MAX_CHUNK)] as the list of the
    chunks it yields; [next()] is its head. *)
Class FastCDC := {
  fc_chunks : bytes → list CdcChunk;
  fc_nil : fc_chunks [] = [];
  fc_step : ∀ data, data ≠ [] → ∃ n,
    0 < n ∧ n ≤ len data ∧ n ≤ MAX_CHUNK ∧
    fc_chunks data = {| cc_offset := 0; cc_length := n |} :: (cc_shift n <$> fc_chunks (dropN n data));
  fc_local : ∀ data, MAX_CHUNK ≤ len data →
    head (fc_chunks data) = head (fc_chunks (takeN MAX_CHUNK data));
}.

(** * The streaming planner *)

Record StreamingChunker := {
  sc_pending : bytes;
  sc_pending_start : N;
  sc_chunks : list ChunkRef;
  sc_file_hasher : IncrementalHasher;
  sc_total_size : N;
  sc_emitted_size : N;
  sc_finished : bool;
}.

Definition sc_new : StreamingChunker := {|
  sc_pending := []; sc_pending_start := 0; sc_chunks := []; sc_file_hasher := ih_new;
  sc_total_size := 0; sc_emitted_size := 0; sc_finished := false |}.

Definition sc_set_pending (p : bytes) (start : N) (s : StreamingChunker) : StreamingChunker := {|
  sc_pending := p; sc_pending_start := start; sc_chunks := sc_chunks s;
  sc_file_hasher := sc_file_hasher s; sc_total_size := sc_total_size s;
  sc_emitted_size := sc_emitted_size s; sc_finished := sc_finished s |}.

Section chunker.
Context {B3 : Blake3} {FC : FastCDC}.

(** [emit_prefix]. *)
Definition emit_prefix (length : N) (s : StreamingChunker) : StreamingChunker :=
  let end_ := sc_pending_start s + length in
  let hash := hash_bytes (slice (sc_pending s) (sc_pending_start s) end_) in
  {| sc_pending := sc_pending s;
     sc_pending_start := end_;
     sc_chunks := sc_chunks s ++
       [{| cr_hash := hash; cr_offset := sc_emitted_size s;
           cr_size := length mod 4294967296 |}];
     sc_file_hasher := sc_file_hasher s;
     sc_total_size := sc_total_size s;
     sc_emitted_size := wrap64 (sc_emitted_size s + length);
     sc_finished := sc_finished s |}.

(** Reclaim the consumed prefix. *)
Definition reclaim (s : StreamingChunker) : StreamingChunker :=
  if negb (sc_pending_start s =? 0)
  then sc_set_pending (dropN (sc_pending_start s) (sc_pending s)) 0 s
  else s.

(** [while !remaining.is_empty()]. *)
Fixpoint update_loop (fuel : nat) (remaining : bytes) (s : StreamingChunker)
    : result string unit * StreamingChunker :=
  match fuel with
  | O => (Err "out of fuel"%string, s)
  | S fuel =>
      if len remaining =? 0 then (Ok tt, s)
      else
        let s := reclaim s in
        let available := STREAMING_CHUNKER_WINDOW_BYTES - len (sc_pending s) in
        let take := N.min available (len remaining) in
        let s := sc_set_pending (sc_pending s ++ takeN take remaining) (sc_pending_start s) s in
        let remaining := dropN take remaining in
        if len (sc_pending s) =? STREAMING_CHUNKER_WINDOW_BYTES then
          match head (fc_chunks (sc_pending s)) with
          | None => (Err "FastCDC produced no chunk"%string, s)
          | Some first => update_loop fuel remaining (emit_prefix (cc_length first) s)
          end
        else update_loop fuel remaining s
  end.

Definition sc_update (b : bytes) (s : StreamingChunker) : result string unit * StreamingChunker :=
  if sc_finished s then (Err "chunker already finished"%string, s)
  else
    let hashed size := {|
      sc_pending := sc_pending s; sc_pending_start := sc_pending_start s;
      sc_chunks := sc_chunks s; sc_file_hasher := ih_update (sc_file_hasher s) b;
      sc_total_size := size; sc_emitted_size := sc_emitted_size s;
      sc_finished := sc_finished s |} in
    match checked_add64 (sc_total_size s) (len b) with
    | None => (Err "file size overflow"%string, hashed (sc_total_size s))
    | Some total => update_loop (S (length b)) b (hashed total)
    end.

(** [while self.pending_start < self.pending.len()]. *)
Fixpoint drain_loop (fuel : nat) (s : StreamingChunker)
    : result string unit * StreamingChunker :=
  match fuel with
  | O => (Err "out of fuel"%string, s)
  | S fuel =>
      if sc_pending_start s <? len (sc_pending s) then
        match head (fc_chunks (dropN (sc_pending_start s) (sc_pending s))) with
        | None => (Err "FastCDC produced no final chunk"%string, s)
        | Some first => drain_loop fuel (emit_prefix (cc_length first) s)
        end
      else (Ok tt, s)
  end.

Definition sc_finish (s : StreamingChunker) : result string FileManifest * StreamingChunker :=
  if sc_finished s then (Err "chunker already finished"%string, s)
  else match drain_loop (S (length (sc_pending s))) s with
       | (Err e, s) => (Err e, s)
       | (Ok _, s) =>
           (Ok {| fm_file_hash := ih_finalize (sc_file_hasher s);
                  fm_total_size := sc_total_size s; fm_chunks := sc_chunks s |},
            {| sc_pending := []; sc_pending_start := 0; sc_chunks := [];
               sc_file_hasher := sc_file_hasher s; sc_total_size := sc_total_size s;
               sc_emitted_size := sc_emitted_size s; sc_finished := true |})
       end.

(** The caller's loop over its feeds. *)
Fixpoint sc_feed (feeds : list bytes) (s : StreamingChunker)
    : result string unit * StreamingChunker :=
  match feeds with
  | [] => (Ok tt, s)
  | b :: feeds =>
      match sc_update b s with
      | (Ok _, s) => sc_feed feeds s
      | (Err e, s) => (Err e, s)
      end
  end.

(** * Whole files *)

Record ChunkedFile := { cf_manifest : FileManifest; cf_chunk_data : list (FileHash * bytes) }.

Definition chunk_bytes (data : bytes) (c : CdcChunk) : bytes :=
  slice data (cc_offset c) (cc_offset c + cc_length c).

Definition chunk_file (data : bytes) : ChunkedFile :=
  let chunks := (λ c, {| cr_hash := hash_bytes (chunk_bytes data c);
                         cr_offset := cc_offset c;
                         cr_size := cc_length c mod 4294967296 |}) <$> fc_chunks data in
  {| cf_manifest := {| fm_file_hash := hash_bytes data; fm_total_size := len data;
                       fm_chunks := chunks |};
     cf_chunk_data := (λ c, (hash_bytes (chunk_bytes data c), chunk_bytes data c)) <$> fc_chunks data |}.

(** The parallel loop of [reassemble_file]; [None] is [return None]. *)
Fixpoint reassemble_loop (refs : list ChunkRef) (chunks : list (FileHash * bytes))
    (result : bytes) : option bytes :=
  match refs, chunks with
  | r :: refs, (chunk_hash, chunk_data) :: chunks =>
      if negb (beq chunk_hash (cr_hash r)) || negb (len chunk_data =? cr_size r) then None
      else reassemble_loop refs chunks (result ++ chunk_data)
  | _, _ => Some result
  end.

Definition reassemble_file (manifest : FileManifest) (chunks : list (FileHash * bytes))
    : option bytes :=
  if negb (len (fm_chunks manifest) =? len chunks) then None
  else match reassemble_loop (fm_chunks manifest) chunks [] with
       | None => None
       | Some result =>
           if negb (beq (hash_bytes result) (fm_file_hash manifest)) then None else Some result
       end.

Definition should_chunk (size : N) : bool := FILE_CHUNK_THRESHOLD <=? size.
End chunker.


#[local] Hint Rewrite @len_dropN @len_takeN : sync.

Lemma slice_dropN s a n : slice s a (a + n) = takeN n (dropN a s).
Proof. unfold slice, takeN, dropN. do 2 f_equal. lia. Qed.

Section chunker.
Context {B3 : Blake3} {FC : FastCDC}.

Definition ref_at (off : N) (b : bytes) : ChunkRef :=
  {| cr_hash := hash_bytes b; cr_offset := off; cr_size := len b |}.

(** The pieces the iterator cuts a string into. *)
Definition pieces (data : bytes) : list bytes := chunk_bytes data <$> fc_chunks data.

Definition refs_at (off : N) (data : bytes) : list ChunkRef :=
  (λ c, {| cr_hash := hash_bytes (chunk_bytes data c); cr_offset := off + cc_offset c;
           cr_size := cc_length c |}) <$> fc_chunks data.

Lemma fc_head data :
  data ≠ [] → ∃ n, head (fc_chunks data) = Some {| cc_offset := 0; cc_length := n |} ∧
    0 < n ∧ n ≤ len data ∧ n ≤ MAX_CHUNK.
Proof.
  intros Hd. destruct (fc_step data Hd) as (n & ? & ? & ? & ->). by exists n.
Qed.

Lemma refs_at_step off data n :
  head (fc_chunks data) = Some {| cc_offset := 0; cc_length := n |} → data ≠ [] →
  refs_at off data = ref_at off (takeN n data) :: refs_at (off + n) (dropN n data).
Proof.
  intros Hh Hd. destruct (fc_step data Hd) as (n' & H1 & H2 & H3 & E).
  unfold refs_at. rewrite E in Hh |- *. simpl in Hh. injection Hh as ->. csimpl.
  f_equal.
  - unfold ref_at, chunk_bytes. cbn [cc_offset cc_length].
    rewrite slice_dropN, dropN_0, len_takeN. f_equal; lia.
  - rewrite <-list_fmap_compose. apply list_fmap_ext. intros i c _. cbn.
    f_equal; [|lia]. unfold chunk_bytes, cc_shift. cbn. by rewrite !slice_dropN, dropN_dropN.
Qed.

Lemma pieces_step data n :
  head (fc_chunks data) = Some {| cc_offset := 0; cc_length := n |} → data ≠ [] →
  pieces data = takeN n data :: pieces (dropN n data).
Proof.
  intros Hh Hd. destruct (fc_step data Hd) as (n' & H1 & H2 & H3 & E).
  unfold pieces. rewrite E in Hh |- *. simpl in Hh. injection Hh as ->. csimpl. f_equal.
  { unfold chunk_bytes. cbn. by rewrite slice_dropN. }
  rewrite <-list_fmap_compose. apply list_fmap_ext. intros i c _. cbn.
  unfold chunk_bytes, cc_shift. cbn. by rewrite !slice_dropN, dropN_dropN.
Qed.

(** Once a full window is there the first boundary is final. *)
Lemma fc_head_window data more :
  len data = MAX_CHUNK → head (fc_chunks (data ++ more)) = head (fc_chunks data).
Proof.
  intros Hd. rewrite fc_local by (rewrite len_app; lia).
  rewrite takeN_app_le, takeN_all by lia. done.
Qed.

Lemma fc_length data c : c ∈ fc_chunks data → cc_length c ≤ MAX_CHUNK.
Proof.
  remember (length data) as k eqn:Hk. revert data Hk c.
  induction k as [k IH] using (well_founded_induction lt_wf). intros data -> c.
  destruct (decide (data = [])) as [->|Hd]; [rewrite fc_nil; set_solver|].
  destruct (fc_step data Hd) as (n & H1 & H2 & H3 & ->).
  intros [->|(c' & -> & Hc')%list_elem_of_fmap]%elem_of_cons; [done|]. cbn.
  eapply (IH (length (dropN n data))); [|done|done].
  unfold dropN. rewrite length_drop. unfold len in *. lia.
Qed.

Lemma chunk_file_refs data : fm_chunks (cf_manifest (chunk_file data)) = refs_at 0 data.
Proof.
  apply Forall_fmap_ext_1, Forall_forall. intros c Hc%fc_length. cbn. f_equal.
  apply N.mod_small. unfold MAX_CHUNK in Hc. lia.
Qed.

(** ** The streaming invariant

    [D] has been fed: the bytes still pending are its unplanned end, and the
    plan of the whole file ([D] and the [more] that follows) starts with
    the chunks recorded so far. *)
Record sc_inv (D : bytes) (s : StreamingChunker) : Prop := {
  si_finished : sc_finished s = false;
  si_hasher : ih_inner (sc_file_hasher s) = D;
  si_total : sc_total_size s = len D;
  si_fits : len D ≤ U64_MAX;
  si_start : sc_pending_start s ≤ len (sc_pending s);
  si_window : len (sc_pending s) ≤ STREAMING_CHUNKER_WINDOW_BYTES;
}.

Definition sc_rest (s : StreamingChunker) : bytes := dropN (sc_pending_start s) (sc_pending s).

(** [R] is what of the feed has not been copied into the window yet. *)
Definition sc_plan (more D R : bytes) (s : StreamingChunker) : Prop :=
  sc_emitted_size s + len (sc_rest s) + len R = len D ∧
  refs_at 0 (D ++ more) = sc_chunks s ++ refs_at (sc_emitted_size s) (sc_rest s ++ R ++ more).

Lemma emit_prefix_step more D R s n :
  sc_inv D s → sc_plan more D R s →
  sc_rest s ≠ [] → n ≤ len (sc_rest s) → n ≤ MAX_CHUNK →
  head (fc_chunks (sc_rest s ++ R ++ more)) = Some {| cc_offset := 0; cc_length := n |} →
  sc_inv D (emit_prefix n s) ∧ sc_plan more D R (emit_prefix n s) ∧
  sc_pending (emit_prefix n s) = sc_pending s ∧
  sc_pending_start (emit_prefix n s) = sc_pending_start s + n.
Proof.
  intros [] [Hlen Hplan] Hne Hn Hmax Hhead. unfold sc_rest in *. rewrite len_dropN in *.
  split_and!; [by constructor; simpl; try lia; done| |done|done].
  assert (wrap64 (sc_emitted_size s + n) = sc_emitted_size s + n) as Hw.
  { apply N.mod_small. unfold U64_MAX in *. lia. }
  split.
  { unfold sc_rest. cbn. rewrite Hw, len_dropN. lia. }
  rewrite Hplan. unfold sc_rest. cbn. rewrite Hw, <-app_assoc. f_equal.
  rewrite (refs_at_step _ _ n); [|done|intros [? _]%app_eq_nil; done].
  rewrite takeN_app_le, dropN_app_le by (rewrite len_dropN; lia).
  rewrite dropN_dropN. cbn [app]. f_equal. unfold ref_at. rewrite slice_dropN, len_takeN, len_dropN.
  f_equal. rewrite N.mod_small; unfold MAX_CHUNK in *; lia.
Qed.

Lemma reclaim_spec more D R s :
  sc_inv D s → sc_plan more D R s →
  sc_inv D (reclaim s) ∧ sc_plan more D R (reclaim s) ∧ sc_pending_start (reclaim s) = 0 ∧
  sc_pending (reclaim s) = sc_rest s.
Proof.
  intros Hi Hp. unfold reclaim. destruct (N.eqb_spec (sc_pending_start s) 0) as [E|E]; simpl.
  - unfold sc_rest. rewrite E. done.
  - destruct Hi. split_and!; [|done..]. constructor; simpl; try done; rewrite ?len_dropN; lia.
Qed.

Lemma copy_window more D R s k :
  sc_inv D s → sc_plan more D R s → sc_pending_start s = 0 →
  k ≤ len R → len (sc_pending s) + k ≤ STREAMING_CHUNKER_WINDOW_BYTES →
  let s' := sc_set_pending (sc_pending s ++ takeN k R) (sc_pending_start s) s in
  sc_inv D s' ∧ sc_plan more D (dropN k R) s' ∧ len (sc_pending s') = len (sc_pending s) + k.
Proof.
  intros Hi [Hl Hp] E Hk Hw s'. pose proof Hi as [].
  assert (len (sc_pending s') = len (sc_pending s) + k) as Hlen.
  { unfold s'. cbn. rewrite len_app, len_takeN. lia. }
  split_and!; [|split|done].
  - constructor; cbn; try done; [lia|]. unfold s' in Hlen. cbn in Hlen. lia.
  - unfold sc_rest, s' in *. cbn. rewrite E, !dropN_0, len_app, len_takeN, len_dropN in *. lia.
  - rewrite Hp. unfold sc_rest, s'. cbn. rewrite E, !dropN_0.
    rewrite <-(takeN_dropN k R) at 1. by rewrite <-!app_assoc.
Qed.

Lemma update_loop_spec more fuel D R s :
  (length R < fuel)%nat → sc_inv D s → sc_plan more D R s →
  (sc_pending_start s = 0 → len (sc_pending s) < STREAMING_CHUNKER_WINDOW_BYTES) →
  ∃ s', update_loop fuel R s = (Ok tt, s') ∧ sc_inv D s' ∧ sc_plan more D [] s' ∧
    (sc_pending_start s' = 0 → len (sc_pending s') < STREAMING_CHUNKER_WINDOW_BYTES).
Proof.
  revert R s. induction fuel as [|fuel IH]; intros R s Hf Hi Hp Hroom; [lia|].
  cbn [update_loop]. destruct (N.eqb_spec (len R) 0) as [E|E].
  { apply len_0 in E as ->. eauto. }
  destruct (reclaim_spec more D R s Hi Hp) as (Hi1 & Hp1 & E1 & Er).
  assert (len (sc_pending (reclaim s)) < STREAMING_CHUNKER_WINDOW_BYTES) as Hlt.
  { rewrite Er. unfold sc_rest. rewrite len_dropN. destruct Hi.
    destruct (N.eq_dec (sc_pending_start s) 0); [auto with lia|lia]. }
  clear Hi Hp Hroom Er. revert Hi1 Hp1 E1 Hlt. generalize (reclaim s). clear s.
  intros s Hi Hp E1 Hlt. set (k := N.min _ (len R)).
  destruct (copy_window more D R s k Hi Hp E1) as (Hi2 & Hp2 & Hl2); [lia..|].
  set (s2 := sc_set_pending _ _ s) in *.
  assert (length (dropN k R) < fuel)%nat as Hf2.
  { unfold dropN. rewrite length_drop. unfold len in *. lia. }
  destruct (N.eqb_spec (len (sc_pending s2)) STREAMING_CHUNKER_WINDOW_BYTES) as [Efull|Efull].
  - assert (sc_pending_start s2 = 0) as Es2 by done.
    assert (sc_rest s2 = sc_pending s2) as Er by (unfold sc_rest; by rewrite Es2).
    assert (sc_pending s2 ≠ []) as Hne by (intros Ez; by rewrite Ez in Efull).
    destruct (fc_head (sc_pending s2) Hne) as (n & Hh & Hn0 & Hn & Hmax). rewrite Hh.
    destruct (emit_prefix_step more D (dropN k R) s2 n) as (Hi3 & Hp3 & Ep & Est); try done.
    + by rewrite Er.
    + by rewrite Er.
    + by rewrite Er, fc_head_window, Hh.
    + apply IH; [done..|]. cbn [cc_length]. rewrite Est. lia.
  - apply IH; [done..|]. intros _. pose proof (si_window _ _ Hi2). lia.
Qed.

Lemma sc_update_spec more D b s :
  sc_inv D s → sc_plan (b ++ more) D [] s →
  (sc_pending_start s = 0 → len (sc_pending s) < STREAMING_CHUNKER_WINDOW_BYTES) →
  len (D ++ b) ≤ U64_MAX →
  ∃ s', sc_update b s = (Ok tt, s') ∧ sc_inv (D ++ b) s' ∧ sc_plan more (D ++ b) [] s' ∧
    (sc_pending_start s' = 0 → len (sc_pending s') < STREAMING_CHUNKER_WINDOW_BYTES).
Proof.
  intros [] [Hl Hp] Hroom Hfits. unfold sc_update. rewrite si_finished0.
  rewrite len_app in Hfits. unfold checked_add64. rewrite si_total0.
  rewrite (proj2 (N.leb_le _ _) Hfits). apply update_loop_spec; [lia| |split|done].
  - constructor; cbn; rewrite ?si_hasher0, ?len_app; try done.
  - unfold sc_rest in *. cbn. rewrite len_app. rewrite len_nil in Hl. lia.
  - by rewrite <-app_assoc, Hp.
Qed.

Lemma sc_feed_spec feeds D s :
  sc_inv D s → sc_plan (concat feeds) D [] s →
  (sc_pending_start s = 0 → len (sc_pending s) < STREAMING_CHUNKER_WINDOW_BYTES) →
  len (D ++ concat feeds) ≤ U64_MAX →
  ∃ s', sc_feed feeds s = (Ok tt, s') ∧ sc_inv (D ++ concat feeds) s' ∧
        sc_plan [] (D ++ concat feeds) [] s'.
Proof.
  revert D s. induction feeds as [|b feeds IH]; intros D s Hi Hp Hr Hf; cbn [sc_feed concat] in *.
  { rewrite app_nil_r in *. eauto. }
  rewrite app_assoc in Hf |- *.
  destruct (sc_update_spec (concat feeds) D b s) as (s1 & -> & ? & ? & ?); [done..| |].
  { rewrite len_app in Hf. lia. }
  by apply IH.
Qed.

Lemma drain_loop_spec fuel D s :
  (length (sc_rest s) < fuel)%nat → sc_inv D s → sc_plan [] D [] s →
  ∃ s', drain_loop fuel s = (Ok tt, s') ∧ sc_inv D s' ∧ sc_chunks s' = refs_at 0 D.
Proof.
  revert s. induction fuel as [|fuel IH]; intros s Hf Hi Hp; [lia|]. cbn [drain_loop].
  destruct (N.ltb_spec (sc_pending_start s) (len (sc_pending s))) as [Hlt|Hge].
  - assert (sc_rest s ≠ []) as Hne.
    { unfold sc_rest. intros E%len_0. rewrite len_dropN in E. lia. }
    fold (sc_rest s). destruct (fc_head (sc_rest s) Hne) as (n & Hh & Hn0 & Hn & Hmax).
    rewrite Hh. cbn [cc_length].
    destruct (emit_prefix_step [] D [] s n) as (Hi3 & Hp3 & Ep & Est); try done.
    { by rewrite !app_nil_r. }
    apply IH; [|done..]. unfold sc_rest, len in *. rewrite Ep, Est. unfold dropN in *.
    rewrite length_drop in *. lia.
  - exists s. split_and!; [done..|]. destruct Hp as [_ Hp].
    assert (sc_rest s = []) as E by (apply len_0; unfold sc_rest; rewrite len_dropN; lia).
    rewrite E, !app_nil_r in Hp. rewrite Hp. unfold refs_at. rewrite fc_nil.
    by rewrite app_nil_r.
Qed.

Lemma sc_new_inv : sc_inv [] sc_new.
Proof. by constructor. Qed.
Lemma sc_new_plan more : sc_plan more [] [] sc_new.
Proof. by split. Qed.

(** C31: streaming a file through the bounded window, in feeds of any sizes,
    plans exactly the manifest that chunking the whole file gives, and the
    payload buffer never exceeds its window. *)
Theorem streaming_is_batch feeds :
  len (concat feeds) ≤ U64_MAX →
  ∃ s, sc_feed feeds sc_new = (Ok tt, s) ∧
    len (sc_pending s) ≤ STREAMING_CHUNKER_WINDOW_BYTES ∧
    (sc_finish s).1 = Ok (cf_manifest (chunk_file (concat feeds))).
Proof.
  intros Hfits. destruct (sc_feed_spec feeds [] sc_new) as (s & Hrun & Hi & Hp);
    [apply sc_new_inv|apply sc_new_plan|done|done|].
  exists s. split_and!; [done|apply Hi|]. unfold sc_finish. rewrite (si_finished _ _ Hi).
  destruct (drain_loop_spec (Datatypes.S (length (sc_pending s))) (concat feeds) s)
    as (s' & -> & [] & E); [|done..|].
  { unfold sc_rest, dropN. rewrite length_drop. lia. }
  cbn [fst]. rewrite E, <-chunk_file_refs, si_total0. unfold ih_finalize. by rewrite si_hasher0.
Qed.

(** ** Reassembly *)

Lemma pieces_concat data : concat (pieces data) = data.
Proof.
  remember (length data) as k eqn:Hk. revert data Hk.
  induction k as [k IH] using (well_founded_induction lt_wf). intros data ->.
  destruct (decide (data = [])) as [->|Hd]; [unfold pieces; by rewrite fc_nil|].
  destruct (fc_head data Hd) as (n & Hh & H1 & H2 & _). rewrite (pieces_step _ n) by done.
  cbn [concat]. rewrite (IH (length (dropN n data))); [apply takeN_dropN| |done].
  unfold dropN. rewrite length_drop. unfold len in *. lia.
Qed.

Lemma reassemble_loop_Some refs chunks acc b :
  length refs = length chunks → reassemble_loop refs chunks acc = Some b →
  b = acc ++ concat chunks.*2 ∧ chunks.*1 = cr_hash <$> refs.
Proof.
  revert chunks acc. induction refs as [|r refs IH]; intros [|[h d] chunks] acc Hl; try done; cbn.
  { intros [= <-]. by rewrite app_nil_r. }
  destruct (negb (beq h (cr_hash r)) || _) eqn:E; [done|]. bool_to_prop.
  intros Hr. apply IH in Hr as [-> Hh]; [|simpl in Hl; lia]. csimpl.
  rewrite Hh, <-app_assoc. split; [done|]. f_equal. by apply beq_true.
Qed.

(** The references of a manifest against the bytes they stand for. *)
Definition ref_for (r : ChunkRef) (b : bytes) : Prop :=
  cr_hash r = hash_bytes b ∧ cr_size r = len b.

Lemma reassemble_loop_refs refs bs acc :
  Forall2 ref_for refs bs →
  reassemble_loop refs ((λ b, (hash_bytes b, b)) <$> bs) acc = Some (acc ++ concat bs).
Proof.
  intros Hf. revert acc. induction Hf as [|r b refs bs [E1 E2] _ IH]; intros acc; csimpl.
  { by rewrite app_nil_r. }
  rewrite E1, E2, (proj2 (beq_true _ _)), N.eqb_refl by done. cbn [negb orb].
  by rewrite IH, <-app_assoc.
Qed.

Lemma refs_for_pieces off data : Forall2 ref_for (refs_at off data) (pieces data).
Proof.
  remember (length data) as k eqn:Hk. revert off data Hk.
  induction k as [k IH] using (well_founded_induction lt_wf). intros off data ->.
  destruct (decide (data = [])) as [->|Hd].
  { unfold refs_at, pieces. rewrite fc_nil. constructor. }
  destruct (fc_head data Hd) as (n & Hh & H1 & H2 & _).
  rewrite (pieces_step _ n), (refs_at_step _ _ n) by done. constructor; [done|].
  eapply (IH (length (dropN n data))); [|done].
  unfold dropN. rewrite length_drop. unfold len in *. lia.
Qed.

Lemma chunk_data_pieces data :
  cf_chunk_data (chunk_file data) = (λ b, (hash_bytes b, b)) <$> pieces data.
Proof. unfold pieces. by rewrite <-list_fmap_compose. Qed.

(** splitting and reassembling is the identity, and for the manifest of
    a file no other chunk list is accepted: whatever [reassemble_file]
    returns hashes to the file hash and is the file itself unless the
    content hash collides. *)
Theorem reassemble_chunk_file data :
  reassemble_file (cf_manifest (chunk_file data)) (cf_chunk_data (chunk_file data)) = Some data ∧
  ∀ chunks b, reassemble_file (cf_manifest (chunk_file data)) chunks = Some b →
    b = concat chunks.*2 ∧ chunks.*1 = hash_bytes <$> pieces data ∧
    hash_bytes b = hash_bytes data.
Proof.
  pose proof (refs_for_pieces 0 data) as Hf. split.
  - unfold reassemble_file. rewrite chunk_file_refs, chunk_data_pieces.
    rewrite (reassemble_loop_refs _ _ _ Hf). cbn [app]. rewrite pieces_concat.
    unfold len. rewrite length_fmap, (Forall2_length _ _ _ Hf), N.eqb_refl. cbn.
    by rewrite (proj2 (beq_true _ _)).
  - intros chunks b. unfold reassemble_file. rewrite chunk_file_refs.
    destruct (N.eqb_spec (len (refs_at 0 data)) (len chunks)) as [El|]; [|done]. cbn [negb].
    destruct (reassemble_loop _ _ _) as [r|] eqn:Er; [|done].
    destruct (beq _ _) eqn:Eh; [|done]. apply beq_true in Eh. intros [= ->].
    apply reassemble_loop_Some in Er as [-> Hh]; [|unfold len in El; lia].
    split_and!; [done| |done]. rewrite Hh.
    clear -Hf. induction Hf as [|r b refs bs [E _] _ IH]; csimpl; [done|]. by rewrite E, IH.
Qed.
End chunker.

(** * A chunker that obeys the laws: cut after the first zero byte. *)

Fixpoint cut_at_zero (fuel : N) (data : bytes) : N :=
  match data with
  | [] => 0
  | b :: data => if bool_decide (b = x00) || (fuel =? 1) then 1 else 1 + cut_at_zero (fuel - 1) data
  end.

Fixpoint zero_chunks (fuel : nat) (off : N) (data : bytes) : list CdcChunk :=
  match fuel with
  | O => []
  | S fuel =>
      if len data =? 0 then []
      else let n := cut_at_zero MAX_CHUNK data in
           {| cc_offset := off; cc_length := n |} :: zero_chunks fuel (off + n) (dropN n data)
  end.

Lemma cut_at_zero_bounds m data :
  data ≠ [] → 0 < m → 0 < cut_at_zero m data ∧ cut_at_zero m data ≤ len data ∧ cut_at_zero m data ≤ m.
Proof.
  revert m. induction data as [|b data IH]; intros m Hd Hm; [done|]. cbn [cut_at_zero].
  rewrite len_cons. destruct (bool_decide (b = x00) || (m =? 1)) eqn:E; [lia|]. bool_to_prop.
  destruct data as [|c data]; [simpl; lia|]. destruct (IH (m - 1)) as (?&?&?); [done|lia|lia].
Qed.

Lemma cut_at_zero_take m k data :
  0 < m → m ≤ k → cut_at_zero m (takeN k data) = cut_at_zero m data.
Proof.
  revert m k. induction data as [|b data IH]; intros m k Hm Hk.
  { unfold takeN. by rewrite take_nil. }
  unfold takeN. replace (N.to_nat k) with (Datatypes.S (N.to_nat (k - 1))) by lia. cbn [take cut_at_zero].
  destruct (bool_decide (b = x00) || (m =? 1)) eqn:E; [done|]. bool_to_prop.
  f_equal. apply IH; lia.
Qed.

Lemma zero_chunks_shift fuel fuel' off o data :
  (length data ≤ fuel)%nat → (length data ≤ fuel')%nat →
  zero_chunks fuel (off + o) data = cc_shift off <$> zero_chunks fuel' o data.
Proof.
  revert fuel' o data. induction fuel as [|fuel IH]; intros fuel' o data Hf Hf'.
  { destruct data, fuel'; simpl in *; try done; lia. }
  destruct data as [|b data]; [by destruct fuel'|]. destruct fuel' as [|fuel']; [simpl in *; lia|].
  cbn [zero_chunks]. rewrite len_cons. destruct (N.eqb_spec (1 + len data) 0) as [|_]; [lia|].
  destruct (cut_at_zero_bounds MAX_CHUNK (b :: data)) as (?&?&?); [done|done|].
  set (n := cut_at_zero MAX_CHUNK (b :: data)) in *. csimpl. f_equal.
  assert (length (dropN n (b :: data)) ≤ length data)%nat as Hl.
  { unfold dropN. rewrite length_drop. simpl. lia. }
  simpl in Hf, Hf'. rewrite <-N.add_assoc. apply IH; lia.
Qed.

Program Definition zero_cdc : FastCDC := {|
  fc_chunks data := zero_chunks (length data) 0 data;
|}.
Next Obligation. done. Qed.
Next Obligation.
  intros data Hd. exists (cut_at_zero MAX_CHUNK data).
  destruct (cut_at_zero_bounds MAX_CHUNK data) as (?&?&?); [done|done|]. split_and!; [done..|].
  destruct data as [|b data]; [done|]. cbn [length zero_chunks]. rewrite len_cons.
  destruct (N.eqb_spec (1 + len data) 0); [lia|]. f_equal.
  rewrite N.add_comm. apply zero_chunks_shift; [|done]. unfold dropN. rewrite length_drop. unfold len in *. cbn [length] in *. lia.
Qed.
Next Obligation.
  intros data Hm. destruct data as [|b data]; [done|].
  destruct (takeN MAX_CHUNK (b :: data)) as [|c t] eqn:E.
  { apply (f_equal len) in E. rewrite len_takeN, len_cons, len_nil in E. unfold MAX_CHUNK in *. lia. }
  cbn [length zero_chunks]. rewrite !len_cons.
  destruct (N.eqb_spec (1 + len data) 0), (N.eqb_spec (1 + len t) 0); [lia..|]. cbn [head].
  by rewrite <-E, cut_at_zero_take.
Qed.

Lemma streaming_is_batch_witness :
  ∃ s, sc_feed (B3 := poly_blake3) (FC := zero_cdc)
         [str "ab"; x01 :: x00 :: str "c"; []; [x00; x00; x02]] sc_new = (Ok tt, s) ∧
    len (sc_pending s) ≤ STREAMING_CHUNKER_WINDOW_BYTES ∧
    (sc_finish (B3 := poly_blake3) (FC := zero_cdc) s).1 =
      Ok (cf_manifest (chunk_file (B3 := poly_blake3) (FC := zero_cdc)
            (concat [str "ab"; x01 :: x00 :: str "c"; []; [x00; x00; x02]]))).
Proof.
  apply (streaming_is_batch (B3 := poly_blake3) (FC := zero_cdc)
           [str "ab"; x01 :: x00 :: str "c"; []; [x00; x00; x02]]).
  vm_compute. discriminate.
Defined.
