(* ===== verification/Conflict.v ===== *)
(** src/crates/sync-core/src/conflict.rs: the three-hash classification of a
    file and the three-way line merge.

    Diffing is third-party code (the [similar] crate): the class [Similar] is
    its tokenizer and its edit scripts, with the documented laws that tokens
    concatenate to the text, that lines are tokens when no carriage return
    occurs, and that the operations of a script walk both texts in order.

    The line merge: it does not prefer a side; when every insertion is at the
    end of the base it is the common application of both edit scripts; an
    insertion in the middle makes it lose a line of the base. *)

From S2P Require Import Prelude Bytes Text Hash.
Local Open Scope nat_scope.

(** * Classification *)

Inductive SyncAction :=
  | NoChange
  | FastForward
  | LocalOnlyChange
  | Conflict (base_hash local_hash remote_hash : FileHash).

Definition classify_sync (base local remote : FileHash) : SyncAction :=
  if bool_decide (local = remote) then NoChange
  else if bool_decide (local = base) then FastForward
  else if bool_decide (remote = base) then LocalOnlyChange
  else Conflict base local remote.

Record FileConflict := {
  fc_path : bytes;
  fc_base_hash : FileHash;
  fc_side_a_hash : FileHash;
  fc_side_b_hash : FileHash;
}.

#[global] Instance FileConflict_eq_dec : EqDecision FileConflict.
Proof. solve_decision. Defined.

Inductive TextMergeResult :=
  | Merged (content : bytes)
  | Overlap.

#[global] Instance TextMergeResult_eq_dec : EqDecision TextMergeResult.
Proof. solve_decision. Defined.

(** * Strings *)

Definition newline : byte := x0a.
Definition carriage_return : byte := x0d.

(** [s.split_inclusive('\n')]. *)
Fixpoint split_inclusive (s : bytes) : list bytes :=
  match s with
  | [] => []
  | b :: s' =>
      if bool_decide (b = newline) then [b] :: split_inclusive s'
      else match split_inclusive s' with
           | [] => [[b]]
           | seg :: segs => (b :: seg) :: segs
           end
  end.

(** [strip_suffix] of one character. *)
Definition strip_suffix (c : byte) (s : bytes) : option bytes :=
  match rev s with
  | b :: r => if bool_decide (b = c) then Some (rev r) else None
  | [] => None
  end.

(** [s.lines()]. *)
Definition line_of (seg : bytes) : bytes :=
  match strip_suffix newline seg with
  | None => seg
  | Some l => match strip_suffix carriage_return l with None => l | Some l' => l' end
  end.
Definition str_lines (s : bytes) : list bytes := line_of <$> split_inclusive s.

(** [s.trim_end_matches('\n')]. *)
Fixpoint trim_front (s : bytes) : bytes :=
  match s with
  | b :: s' => if bool_decide (b = newline) then trim_front s' else s
  | [] => []
  end.
Definition trim_end_newlines (s : bytes) : bytes := rev (trim_front (rev s)).

(** [lines.join("\n")]. *)
Fixpoint join_lines (ls : list bytes) : bytes :=
  match ls with
  | [] => []
  | [l] => l
  | l :: ls => l ++ newline :: join_lines ls
  end.

(** * Edit scripts *)

Inductive DiffOp :=
  | OpEqual (old_index new_index len : nat)
  | OpDelete (old_index old_len new_index : nat)
  | OpInsert (old_index new_index new_len : nat)
  | OpReplace (old_index old_len new_index new_len : nat).

(** The script [ops] turns [old] from position [i] on into [new] from [j]. *)
Fixpoint script_ok (old new : list bytes) (i j : nat) (ops : list DiffOp) : Prop :=
  match ops with
  | [] => i = length old ∧ j = length new
  | OpEqual oi ni n :: ops =>
      oi = i ∧ ni = j ∧ 0 < n ∧ i + n ≤ length old ∧ j + n ≤ length new ∧
      take n (drop i old) = take n (drop j new) ∧ script_ok old new (i + n) (j + n) ops
  | OpDelete oi ol ni :: ops =>
      oi = i ∧ ni = j ∧ 0 < ol ∧ i + ol ≤ length old ∧ script_ok old new (i + ol) j ops
  | OpInsert oi ni nl :: ops =>
      oi = i ∧ ni = j ∧ 0 < nl ∧ j + nl ≤ length new ∧ script_ok old new i (j + nl) ops
  | OpReplace oi ol ni nl :: ops =>
      oi = i ∧ ni = j ∧ 0 < ol ∧ 0 < nl ∧ i + ol ≤ length old ∧ j + nl ≤ length new ∧
      script_ok old new (i + ol) (j + nl) ops
  end.

Class Similar := {
  td_slices : bytes → list bytes;
  td_ops : bytes → bytes → list DiffOp;
  td_slices_concat : ∀ s, concat (td_slices s) = s;
  td_slices_lines : ∀ s, carriage_return ∉ s → td_slices s = split_inclusive s;
  td_ops_ok : ∀ old new, script_ok (td_slices old) (td_slices new) 0 0 (td_ops old new);
}.

Section merge.
Context {SM : Similar}.

Record ChangeRange := { cr_start : nat; cr_end : nat }.

Definition change_range (op : DiffOp) : option ChangeRange :=
  match op with
  | OpEqual _ _ _ => None
  | OpDelete old_index old_len _ | OpReplace old_index old_len _ _ =>
      Some {| cr_start := old_index; cr_end := old_index + old_len |}
  | OpInsert old_index _ _ => Some {| cr_start := old_index; cr_end := old_index |}
  end.

Definition collect_changed_ranges (ops : list DiffOp) : list ChangeRange :=
  omap change_range ops.

(** An insertion point counts as one line. *)
Definition effective_end (r : ChangeRange) : nat :=
  if cr_start r =? cr_end r then cr_end r + 1 else cr_end r.

Definition ranges_overlap (a b : list ChangeRange) : bool :=
  existsb (λ ra, existsb (λ rb,
    (cr_start ra <? effective_end rb) && (cr_start rb <? effective_end ra)) b) a.

Record MergeOp := { mo_old_len : nat; mo_new_lines : list bytes }.

Definition new_lines (slices : list bytes) (new_index new_len : nat) : list bytes :=
  trim_end_newlines <$> take new_len (drop new_index slices).

Definition merge_op (slices : list bytes) (op : DiffOp) : option (nat * MergeOp) :=
  match op with
  | OpDelete old_index old_len _ =>
      Some (old_index, {| mo_old_len := old_len; mo_new_lines := [] |})
  | OpReplace old_index old_len new_index new_len =>
      Some (old_index, {| mo_old_len := old_len;
                          mo_new_lines := new_lines slices new_index new_len |})
  | OpInsert old_index new_index new_len =>
      Some (old_index, {| mo_old_len := 0; mo_new_lines := new_lines slices new_index new_len |})
  | OpEqual _ _ _ => None
  end.

(** [collect_ops]: the last operation at an index wins. *)
Definition collect_ops (slices : list bytes) (ops : list DiffOp) : gmap nat MergeOp :=
  fold_left (λ m kv, <[kv.1 := kv.2]> m) (omap (merge_op slices) ops) ∅.

(** [while i < base_lines.len()]; [None] is [return None]. *)
Fixpoint apply_loop (fuel : nat) (base_lines : list bytes) (local_ops remote_ops : gmap nat MergeOp)
    (i : nat) (result : list bytes) : option (list bytes) :=
  match fuel with
  | O => Some result
  | S fuel =>
      match base_lines !! i with
      | None => Some result
      | Some line =>
          match local_ops !! i, remote_ops !! i with
          | Some op, None | None, Some op =>
              apply_loop fuel base_lines local_ops remote_ops
                (i + Nat.max (mo_old_len op) 1) (result ++ mo_new_lines op)
          | None, None =>
              apply_loop fuel base_lines local_ops remote_ops (i + 1) (result ++ [line])
          | Some _, Some _ => None
          end
      end
  end.

Definition trailing (ops : gmap nat MergeOp) (n : nat) : list bytes :=
  match ops !! n with Some op => mo_new_lines op | None => [] end.

Definition apply_non_overlapping_changes (base : bytes) (local_ops remote_ops : gmap nat MergeOp)
    : option bytes :=
  let base_lines := str_lines base in
  match apply_loop (length base_lines) base_lines local_ops remote_ops 0 [] with
  | None => None
  | Some result =>
      let result := result ++ trailing local_ops (length base_lines)
                           ++ trailing remote_ops (length base_lines) in
      Some (join_lines result ++ if ends_with base [newline] then [newline] else [])
  end.

Definition three_way_text_merge (base local remote : bytes) : TextMergeResult :=
  let base_str := from_utf8_lossy base in
  let local_str := from_utf8_lossy local in
  let remote_str := from_utf8_lossy remote in
  let diff_local := td_ops base_str local_str in
  let diff_remote := td_ops base_str remote_str in
  if ranges_overlap (collect_changed_ranges diff_local) (collect_changed_ranges diff_remote)
  then Overlap
  else match apply_non_overlapping_changes base_str
               (collect_ops (td_slices local_str) diff_local)
               (collect_ops (td_slices remote_str) diff_remote) with
       | Some content => Merged content
       | None => Overlap
       end.
End merge.


(** * No side is preferred *)
Section symmetry.
Context {SM : Similar}.

Lemma ranges_overlap_true a b :
  ranges_overlap a b = true ↔
  ∃ ra rb, ra ∈ a ∧ rb ∈ b ∧ cr_start ra < effective_end rb ∧ cr_start rb < effective_end ra.
Proof.
  unfold ranges_overlap. rewrite existsb_exists. setoid_rewrite existsb_exists.
  setoid_rewrite andb_true_iff. setoid_rewrite Nat.ltb_lt.
  setoid_rewrite <-list_elem_of_In. naive_solver.
Qed.

Lemma ranges_overlap_sym a b : ranges_overlap a b = ranges_overlap b a.
Proof. apply eq_bool_prop_intro. rewrite !Is_true_true, !ranges_overlap_true. naive_solver. Qed.

Lemma effective_end_pos r : cr_start r ≤ cr_end r → cr_start r < effective_end r.
Proof. unfold effective_end. destruct (Nat.eqb_spec (cr_start r) (cr_end r)); lia. Qed.

(** Every recorded operation has its range. *)
Lemma merge_op_range slices op k mo :
  merge_op slices op = Some (k, mo) →
  change_range op = Some {| cr_start := k; cr_end := k + mo_old_len mo |}.
Proof. destruct op; simpl; intros; simplify_eq; simpl; by rewrite ?Nat.add_0_r. Qed.

Lemma fold_insert_elem (l : list (nat * MergeOp)) (m : gmap nat MergeOp) k mo :
  fold_left (λ m kv, <[kv.1 := kv.2]> m) l m !! k = Some mo → (k, mo) ∈ l ∨ m !! k = Some mo.
Proof.
  revert m. induction l as [|[k' o] l IH]; intros m; simpl; [by right|].
  intros [?|Hm]%IH; [by left; right|]. simpl in Hm.
  destruct (decide (k' = k)) as [->|]; [rewrite lookup_insert_eq in Hm; simplify_eq; left; left|].
  rewrite lookup_insert_ne in Hm by done. by right.
Qed.

Lemma collect_ops_range slices ops k mo :
  collect_ops slices ops !! k = Some mo →
  {| cr_start := k; cr_end := k + mo_old_len mo |} ∈ collect_changed_ranges ops.
Proof.
  unfold collect_ops. intros [H|H]%fold_insert_elem; [|done].
  apply list_elem_of_omap in H as (op & Hop & E%merge_op_range).
  apply list_elem_of_omap. eauto.
Qed.

(** Operations at one index on both sides count as an overlap. *)
Lemma same_index_overlaps s1 ops1 s2 ops2 k o1 o2 :
  collect_ops s1 ops1 !! k = Some o1 → collect_ops s2 ops2 !! k = Some o2 →
  ranges_overlap (collect_changed_ranges ops1) (collect_changed_ranges ops2) = true.
Proof.
  intros H1%collect_ops_range H2%collect_ops_range. apply ranges_overlap_true.
  do 2 eexists. split_and!; [exact H1|exact H2|..]; cbn [cr_start];
    apply (effective_end_pos {| cr_start := k |}); simpl; lia.
Qed.

Lemma apply_loop_sym fuel lines L R i acc :
  apply_loop fuel lines L R i acc = apply_loop fuel lines R L i acc.
Proof.
  revert i acc. induction fuel as [|fuel IH]; intros i acc; [done|]. cbn [apply_loop].
  destruct (lines !! i); [|done]. destruct (L !! i), (R !! i); auto.
Qed.

(** The three-way line merge is symmetric: exchanging local and remote
    gives the same text, or the same overlap, for all inputs and any diff
    the diffing library reports. *)
Theorem text_merge_symmetric base local remote :
  three_way_text_merge base local remote = three_way_text_merge base remote local.
Proof.
  unfold three_way_text_merge. rewrite ranges_overlap_sym.
  destruct (ranges_overlap _ _) eqn:Ho; [done|].
  unfold apply_non_overlapping_changes. rewrite apply_loop_sym.
  destruct (apply_loop _ _ _ _ _ _) as [r|]; [|done].
  do 4 f_equal. unfold trailing. set (n := length _).
  destruct (collect_ops _ _ !! n) as [o1|] eqn:E1, (collect_ops _ (td_ops _ (from_utf8_lossy remote)) !! n) as [o2|] eqn:E2;
    rewrite ?app_nil_r; try done.
  by rewrite (same_index_overlaps _ _ _ _ _ _ _ E2 E1) in Ho.
Qed.
End symmetry.

(** * Weaving edits into the base *)

Abbreviation edit := (nat * MergeOp)%type.
Implicit Types (E : list edit) (e : edit).

Definition edit_span (e : edit) : nat := Nat.max (mo_old_len e.2) 1.

(** Two edits that share no line; an insertion point counts as one. *)
Definition apart (e f : edit) : Prop := e.1 + edit_span e ≤ f.1 ∨ f.1 + edit_span f ≤ e.1.

Definition covered E (i : nat) : bool :=
  existsb (λ e, (e.1 <=? i) && (i <? e.1 + mo_old_len e.2)) E.
Definition inserted E (i : nat) : list bytes :=
  concat ((λ e, mo_new_lines e.2) <$> filter (λ e, e.1 = i) E).

(** The lines of the base that no edit covers, with the new lines of every
    edit where it starts. *)
Fixpoint weave_from E (i : nat) (lines : list bytes) : list bytes :=
  match lines with
  | [] => []
  | line :: lines =>
      inserted E i ++ (if covered E i then [] else [line]) ++ weave_from E (i + 1) lines
  end.
Definition weave (lines : list bytes) E : list bytes :=
  weave_from E 0 lines ++ inserted E (length lines).

Lemma covered_true E i :
  covered E i = true ↔ ∃ e, e ∈ E ∧ e.1 ≤ i < e.1 + mo_old_len e.2.
Proof.
  unfold covered. rewrite existsb_exists. setoid_rewrite andb_true_iff.
  setoid_rewrite Nat.ltb_lt. setoid_rewrite Nat.leb_le. by setoid_rewrite <-list_elem_of_In.
Qed.

Lemma inserted_none E i : (∀ e, e ∈ E → e.1 ≠ i) → inserted E i = [].
Proof.
  intros H. unfold inserted. induction E as [|f E IH]; [done|].
  rewrite filter_cons, decide_False by (apply H; left). apply IH. intros e He. apply H. by right.
Qed.

Lemma apart_sym e f : apart e f → apart f e.
Proof. unfold apart. tauto. Qed.

Lemma sorted_apart E e f : StronglySorted apart E → e ∈ E → f ∈ E → e = f ∨ apart e f.
Proof.
  induction 1 as [|g E Hs IH Hf]; [set_solver|]. rewrite Forall_forall in Hf.
  intros [->|He]%elem_of_cons [->|Hf']%elem_of_cons; auto using apart_sym.
Qed.

Lemma inserted_one E e : StronglySorted apart E → e ∈ E → inserted E e.1 = mo_new_lines e.2.
Proof.
  induction 1 as [|g E Hs IH Hf]; [set_solver|]. rewrite Forall_forall in Hf.
  intros [->|He]%elem_of_cons; unfold inserted; rewrite filter_cons.
  - rewrite decide_True by done. csimpl. fold (inserted E g.1).
    rewrite inserted_none, app_nil_r; [done|]. intros f Hin Ef.
    destruct (Hf f Hin) as [?|?]; unfold edit_span in *; lia.
  - rewrite decide_False; [by apply IH|]. intros Eg.
    destruct (Hf e He) as [?|?]; unfold edit_span in *; lia.
Qed.

(** Inside an edit nothing comes through. *)
Lemma weave_skip E e i lines k :
  StronglySorted apart E → e ∈ E → e.1 < i → i + k = e.1 + mo_old_len e.2 →
  weave_from E i lines = weave_from E (i + k) (drop k lines).
Proof.
  intros Hs He. revert i lines. induction k as [|k IH]; intros i lines Hi Hk.
  { by rewrite Nat.add_0_r, drop_0. }
  destruct lines as [|line lines]; [by rewrite drop_nil|]. cbn [weave_from drop].
  rewrite inserted_none.
  - rewrite (proj2 (covered_true E i)) by (exists e; split; [done|lia]). cbn [app].
    rewrite IH by lia. f_equal. lia.
  - intros f Hf <-. destruct (sorted_apart E e f Hs He Hf) as [->|[?|?]]; unfold edit_span in *; lia.
Qed.

(** One step of the loop at an edit, and where there is none. *)
Lemma weave_edit E e line lines :
  StronglySorted apart E → e ∈ E → 0 < mo_old_len e.2 →
  weave_from E e.1 (line :: lines) =
    mo_new_lines e.2 ++ weave_from E (e.1 + mo_old_len e.2) (drop (mo_old_len e.2) (line :: lines)).
Proof.
  intros Hs He Hl. cbn [weave_from]. rewrite inserted_one by done. f_equal.
  rewrite (proj2 (covered_true E e.1)) by (exists e; split; [done|lia]). cbn [app].
  rewrite (weave_skip E e _ _ (mo_old_len e.2 - 1)) by (done || lia).
  destruct (mo_old_len e.2) as [|k] eqn:Ek; [lia|]. cbn [drop].
  replace (S k - 1) with k by lia. f_equal. lia.
Qed.

Lemma weave_step E i line lines :
  (∀ e, e ∈ E → e.1 ≠ i) → covered E i = false →
  weave_from E i (line :: lines) = line :: weave_from E (i + 1) lines.
Proof. intros Hi Hc. cbn [weave_from]. by rewrite inserted_none, Hc. Qed.

(** * The loop weaves *)

(** No edit reaches over [i]. *)
Definition boundary E (i : nat) : Prop := ∀ e, e ∈ E → e.1 < i → e.1 + mo_old_len e.2 ≤ i.

Lemma boundary_uncovered E i :
  boundary E i → (∀ e, e ∈ E → e.1 ≠ i) → covered E i = false.
Proof.
  intros Hb Hn. apply not_true_iff_false. rewrite covered_true. intros (e & He & H1 & H2).
  specialize (Hn e He). specialize (Hb e He). lia.
Qed.

Lemma boundary_step E i : boundary E i → (∀ e, e ∈ E → e.1 ≠ i) → boundary E (i + 1).
Proof.
  intros Hb Hn e He Hlt. specialize (Hn e He). specialize (Hb e He). lia.
Qed.

Lemma boundary_edit E e :
  StronglySorted apart E → e ∈ E → boundary E (e.1 + mo_old_len e.2).
Proof.
  intros Hs He f Hf Hlt. destruct (sorted_apart E e f Hs He Hf) as [->|[?|?]];
    unfold edit_span in *; lia.
Qed.

(** The map [m] holds exactly the edits of [E]. *)
Definition indexes (m : gmap nat MergeOp) E : Prop := ∀ k op, m !! k = Some op ↔ (k, op) ∈ E.

Definition edits_fit (n : nat) E : Prop :=
  Forall (λ e, (0 < mo_old_len e.2 ∧ e.1 + mo_old_len e.2 ≤ n) ∨ (e.1 = n ∧ mo_old_len e.2 = 0)) E.

Lemma apply_loop_weave fuel lines L R EL ER E i acc :
  E = EL ++ ER → indexes L EL → indexes R ER → StronglySorted apart E → edits_fit (length lines) E →
  boundary E i → length lines - i ≤ fuel →
  apply_loop fuel lines L R i acc = Some (acc ++ weave_from E i (drop i lines)).
Proof.
  intros HE HL HR Hs Hfit. revert i acc. induction fuel as [|fuel IH]; intros i acc Hb Hf.
  { rewrite drop_ge by lia. cbn. by rewrite app_nil_r. }
  cbn [apply_loop]. destruct (lines !! i) as [line|] eqn:Hi.
  2: { apply lookup_ge_None in Hi. rewrite drop_ge by lia. cbn. by rewrite app_nil_r. }
  pose proof (lookup_lt_Some _ _ _ Hi) as Hlt. rewrite (drop_S _ _ _ Hi).
  assert (∀ op, (i, op) ∈ E →
    apply_loop fuel lines L R (i + Nat.max (mo_old_len op) 1) (acc ++ mo_new_lines op) =
    Some (acc ++ weave_from E i (line :: drop (S i) lines))) as Hedit.
  { intros op Hin. pose proof Hfit as Hfit'. unfold edits_fit in Hfit'. rewrite Forall_forall in Hfit'.
    destruct (Hfit' _ Hin) as [[H1 H2]|[H1 _]]; cbn [fst snd] in *; [|lia].
    pose proof (weave_edit E (i, op) line (drop (S i) lines) Hs Hin H1) as Hw. cbn [fst snd] in Hw.
    rewrite Hw.
    rewrite Nat.max_l by lia. rewrite IH; [|apply (boundary_edit E (i, op)); done|lia].
    rewrite <-(drop_S _ _ _ Hi), drop_drop, <-app_assoc. done. }
  destruct (L !! i) as [op|] eqn:EL'; destruct (R !! i) as [op'|] eqn:ER'.
  - exfalso. apply HL in EL'. apply HR in ER'.
    rewrite HE in Hs. apply StronglySorted_app in Hs as (Hs & _ & _). destruct (Hs _ _ EL' ER') as [?|?];
      unfold edit_span in *; simpl in *; lia.
  - apply Hedit. rewrite HE. apply elem_of_app. left. by apply HL.
  - apply Hedit. rewrite HE. apply elem_of_app. right. by apply HR.
  - assert (∀ e, e ∈ E → e.1 ≠ i) as Hnone.
    { rewrite HE. intros [k op] [Hk%HL|Hk%HR]%elem_of_app; simpl; intros ->; congruence. }
    rewrite weave_step by auto using boundary_uncovered.
    rewrite IH by (auto using boundary_step || lia). rewrite <-app_assoc, Nat.add_1_r. done.
Qed.

Lemma trailing_inserted m E n :
  indexes m E → StronglySorted apart E → trailing m n = inserted E n.
Proof.
  intros Hm Hs. unfold trailing. destruct (m !! n) as [op|] eqn:En.
  - apply Hm in En. symmetry. by apply (inserted_one E (n, op)).
  - symmetry. apply inserted_none. intros [k op] Hk%Hm; simpl. intros ->. congruence.
Qed.

Lemma inserted_app E1 E2 n : inserted (E1 ++ E2) n = inserted E1 n ++ inserted E2 n.
Proof. unfold inserted. by rewrite filter_app, fmap_app, concat_app. Qed.

(** * Scripts give edits *)

Definition edits (slices : list bytes) (ops : list DiffOp) : list edit := omap (merge_op slices) ops.

(** Every insertion is the last operation of the script. *)
Fixpoint inserts_last (ops : list DiffOp) : bool :=
  match ops with
  | [] => true
  | OpInsert _ _ _ :: ops => bool_decide (ops = [])
  | _ :: ops => inserts_last ops
  end.

#[global] Instance DiffOp_eq_dec : EqDecision DiffOp.
Proof. solve_decision. Defined.

Lemma script_edits old new i j ops :
  script_ok old new i j ops → inserts_last ops = true →
  Forall (λ e, i ≤ e.1) (edits new ops) ∧
  StronglySorted (λ e f, e.1 + edit_span e ≤ f.1) (edits new ops) ∧
  edits_fit (length old) (edits new ops).
Proof.
  unfold edits_fit. revert i j. induction ops as [|op ops IH]; intros i j Hok Hl.
  { split_and!; constructor. }
  unfold edits. destruct op as [oi ni n|oi ol ni|oi ni nl|oi ol ni nl]; cbn in Hok, Hl |- *.
  - destruct Hok as (-> & -> & Hn & Hle & _ & _ & Hok). destruct (IH _ _ Hok Hl) as (H1 & H2 & H3).
    split_and!; [|done..]. eapply Forall_impl; [exact H1|]. simpl. lia.
  - destruct Hok as (-> & -> & Hn & Hle & Hok). destruct (IH _ _ Hok Hl) as (H1 & H2 & H3).
    split_and!; constructor; simpl; auto; try lia.
    + eapply Forall_impl; [exact H1|]. simpl. lia.
    + eapply Forall_impl; [exact H1|]. unfold edit_span. simpl. lia.
  - destruct Hok as (-> & -> & Hn & _ & Hok). apply bool_decide_eq_true in Hl as ->.
    destruct Hok as [-> _]. split_and!; [by repeat constructor..|].
    apply Forall_cons_2; [by right|constructor].
  - destruct Hok as (-> & -> & Hn & _ & Hle & _ & Hok). destruct (IH _ _ Hok Hl) as (H1 & H2 & H3).
    split_and!; constructor; simpl; auto; try lia.
    + eapply Forall_impl; [exact H1|]. simpl. lia.
    + eapply Forall_impl; [exact H1|]. unfold edit_span. simpl. lia.
Qed.

Lemma fold_insert_lookup E (m : gmap nat MergeOp) k op :
  NoDup E.*1 →
  fold_left (λ m kv, <[kv.1 := kv.2]> m) E m !! k = Some op ↔
  (k, op) ∈ E ∨ (k ∉ E.*1 ∧ m !! k = Some op).
Proof.
  revert m. induction E as [|[k' o] E IH]; intros m; csimpl; [set_solver|].
  intros [Hk Hnd]%NoDup_cons. rewrite IH by done. rewrite elem_of_cons, not_elem_of_cons. simpl.
  assert (∀ o, (k', o) ∈ E → False) as Hno.
  { intros o' Hin. by apply Hk; apply (list_elem_of_fmap_2 fst _ _ Hin). }
  destruct (decide (k' = k)) as [->|Hne].
  - rewrite lookup_insert_eq. naive_solver.
  - rewrite lookup_insert_ne by done. naive_solver.
Qed.

Lemma collect_indexes slices ops :
  StronglySorted (λ e f, e.1 + edit_span e ≤ f.1) (edits slices ops) →
  indexes (collect_ops slices ops) (edits slices ops).
Proof.
  intros Hs k op. unfold collect_ops. rewrite fold_insert_lookup.
  - rewrite lookup_empty. unfold edits. naive_solver.
  - change (NoDup (edits slices ops).*1). induction Hs as [|e E Hs IH Hf]; csimpl; constructor; [|done].
    intros (f & Ef & Hin)%list_elem_of_fmap. rewrite Forall_forall in Hf.
    specialize (Hf f Hin). unfold edit_span in Hf. lia.
Qed.

Lemma no_overlap_apart s1 ops1 s2 ops2 e f :
  ranges_overlap (collect_changed_ranges ops1) (collect_changed_ranges ops2) = false →
  e ∈ edits s1 ops1 → f ∈ edits s2 ops2 → apart e f.
Proof.
  intros Ho He Hf. destruct (decide (apart e f)) as [|Hn]; [done|].
  assert (ranges_overlap (collect_changed_ranges ops1) (collect_changed_ranges ops2) = true);
    [|congruence]. apply ranges_overlap_true.
  apply list_elem_of_omap in He as (o1 & Ho1 & E1). apply list_elem_of_omap in Hf as (o2 & Ho2 & E2).
  destruct e as [k1 m1], f as [k2 m2]. apply merge_op_range in E1, E2.
  exists {| cr_start := k1; cr_end := k1 + mo_old_len m1 |}, {| cr_start := k2; cr_end := k2 + mo_old_len m2 |}.
  split_and!; [by apply list_elem_of_omap; eauto..| |].
  all: unfold apart, edit_span, effective_end in *; cbn in *; case_match eqn:Hc; rewrite ?Nat.eqb_eq, ?Nat.eqb_neq in Hc; lia.
Qed.

Lemma sorted_is_apart E :
  StronglySorted (λ e f, e.1 + edit_span e ≤ f.1) E → StronglySorted apart E.
Proof.
  induction 1 as [|e E _ IH Hf]; constructor; [done|].
  eapply Forall_impl; [exact Hf|]. by left.
Qed.

Lemma sorted_app_apart E1 E2 :
  StronglySorted (λ e f, e.1 + edit_span e ≤ f.1) E1 →
  StronglySorted (λ e f, e.1 + edit_span e ≤ f.1) E2 →
  (∀ e f, e ∈ E1 → f ∈ E2 → apart e f) → StronglySorted apart (E1 ++ E2).
Proof.
  intros H1 H2 H12. apply StronglySorted_app. split_and!; auto using sorted_is_apart.
Qed.

Section exact.
Context {SM : Similar}.
Context (base local remote : bytes).
Context (Hb : utf8 base = true) (Hl : utf8 local = true) (Hr : utf8 remote = true).
Context (Cb : carriage_return ∉ base).

Lemma three_way_weaves :
  ranges_overlap (collect_changed_ranges (td_ops base local))
    (collect_changed_ranges (td_ops base remote)) = false →
  inserts_last (td_ops base local) = true → inserts_last (td_ops base remote) = true →
  three_way_text_merge base local remote =
    Merged (join_lines (weave (str_lines base)
              (edits (td_slices local) (td_ops base local) ++
               edits (td_slices remote) (td_ops base remote)))
            ++ if ends_with base [newline] then [newline] else []).
Proof using Hb Hl Hr Cb.
  intros Ho Il Ir. unfold three_way_text_merge. rewrite !from_utf8_lossy_valid, Ho by done.
  pose proof (script_edits _ _ _ _ _ (td_ops_ok base local) Il) as (_ & Sl & Fl).
  pose proof (script_edits _ _ _ _ _ (td_ops_ok base remote) Ir) as (_ & Sr & Fr).
  set (EL := edits _ (td_ops base local)) in *. set (ER := edits _ (td_ops base remote)) in *.
  assert (StronglySorted apart (EL ++ ER)) as Hs.
  { apply sorted_app_apart; [done..|]. intros e f. by apply no_overlap_apart. }
  assert (length (str_lines base) = length (td_slices base)) as Hn.
  { unfold str_lines. by rewrite length_fmap, td_slices_lines. }
  unfold apply_non_overlapping_changes.
  rewrite (apply_loop_weave _ _ _ _ EL ER (EL ++ ER)); [|done|by apply collect_indexes..|done| | |lia].
  - cbn [app]. rewrite drop_0. unfold weave. rewrite inserted_app.
    apply StronglySorted_app in Hs as (_ & HsL & HsR).
    by rewrite (trailing_inserted _ _ _ (collect_indexes _ _ Sl)), (trailing_inserted _ _ _ (collect_indexes _ _ Sr)).
  - rewrite Hn. by apply Forall_app.
  - intros e _. lia.
Qed.

(** When the two diffs do not overlap and insert only at the end of the
    base, the merge succeeds and is the base with both edit scripts applied
    at once: every base line that no side covers is kept, and the new lines
    of both sides stand where their edits start. *)
Theorem text_merge_weaves :
  ranges_overlap (collect_changed_ranges (td_ops base local))
    (collect_changed_ranges (td_ops base remote)) = false →
  inserts_last (td_ops base local) = true → inserts_last (td_ops base remote) = true →
  three_way_text_merge base local remote =
    Merged (join_lines (weave (str_lines base)
              (edits (td_slices local) (td_ops base local) ++
               edits (td_slices remote) (td_ops base remote)))
            ++ if ends_with base [newline] then [newline] else []).
Proof using Hb Hl Hr Cb. apply three_way_weaves. Qed.
End exact.

(** * Lines *)

Lemma concat_split_inclusive s : concat (split_inclusive s) = s.
Proof.
  induction s as [|b s IH]; [done|]. cbn [split_inclusive]. case_bool_decide.
  - cbn. by rewrite IH.
  - destruct (split_inclusive s) as [|seg segs]; cbn in *; by rewrite <-IH.
Qed.

(** A segment is a line, with its newline unless it is the last. *)
Lemma split_inclusive_form s :
  Forall (λ seg, ∃ l, newline ∉ l ∧ (seg = l ++ [newline] ∨ seg = l)) (split_inclusive s).
Proof.
  induction s as [|b s IH]; [constructor|]. cbn [split_inclusive]. case_bool_decide as Hb.
  - constructor; [|done]. exists []. subst. split; [set_solver|by left].
  - destruct (split_inclusive s) as [|seg segs].
    + constructor; [|done]. exists [b]. split; [set_solver|by right].
    + apply Forall_cons in IH as [(l & Hl & H) IH]. constructor; [|done].
      exists (b :: l). split; [set_solver|]. destruct H as [->| ->]; auto.
Qed.

Lemma split_inclusive_terminated t :
  Forall (λ seg, ∃ l, newline ∉ l ∧ seg = l ++ [newline]) (split_inclusive (t ++ [newline])).
Proof.
  induction t as [|b t IH]; cbn [app split_inclusive].
  { rewrite bool_decide_eq_true_2 by done. constructor; [|constructor]. exists []. set_solver. }
  case_bool_decide as Hb.
  - constructor; [|done]. exists []. subst. set_solver.
  - destruct (split_inclusive (t ++ [newline])) as [|seg segs] eqn:E.
    + apply (f_equal (@concat byte)) in E. rewrite concat_split_inclusive in E. by destruct t.
    + apply Forall_cons in IH as [(l & Hl & ->) IH]. constructor; [|done].
      exists (b :: l). split; [set_solver|done].
Qed.

Lemma strip_suffix_snoc c l : strip_suffix c (l ++ [c]) = Some l.
Proof.
  unfold strip_suffix. rewrite rev_app_distr. simpl. rewrite bool_decide_eq_true_2 by done.
  by rewrite rev_involutive.
Qed.

Lemma strip_suffix_none c l : c ∉ l → strip_suffix c l = None.
Proof.
  intros Hc. unfold strip_suffix. destruct (rev l) as [|b r] eqn:E; [done|].
  case_bool_decide; [|done]. subst. destruct Hc. rewrite <-(rev_involutive l), E. simpl. set_solver.
Qed.

Lemma line_of_snoc l : carriage_return ∉ l → line_of (l ++ [newline]) = l.
Proof. intros Hc. unfold line_of. by rewrite strip_suffix_snoc, strip_suffix_none. Qed.

Lemma trim_front_none s : newline ∉ s → trim_front s = s.
Proof.
  destruct s as [|b s]; [done|]. intros Hn. cbn. rewrite bool_decide_eq_false_2; [done|set_solver].
Qed.

Lemma elem_of_rev {A} (x : A) l : x ∈ rev l ↔ x ∈ l.
Proof. by rewrite !list_elem_of_In, <-in_rev. Qed.

Lemma trim_newlines_none l : newline ∉ l → trim_end_newlines l = l.
Proof.
  intros Hl. unfold trim_end_newlines.
  rewrite trim_front_none by (by rewrite elem_of_rev). apply rev_involutive.
Qed.

Lemma trim_snoc l : newline ∉ l → trim_end_newlines (l ++ [newline]) = l.
Proof.
  intros Hl. unfold trim_end_newlines. rewrite rev_app_distr. cbn [rev app trim_front].
  rewrite bool_decide_eq_true_2 by done.
  rewrite trim_front_none by (by rewrite elem_of_rev). apply rev_involutive.
Qed.

Lemma elem_of_split s b seg : seg ∈ split_inclusive s → b ∈ seg → b ∈ s.
Proof.
  intros Hs Hb. rewrite <-(concat_split_inclusive s). apply list_elem_of_In, in_concat.
  exists seg. by rewrite <-!list_elem_of_In.
Qed.

(** Without carriage returns the two ways of stripping a line agree. *)
Lemma line_of_trim s :
  carriage_return ∉ s → line_of <$> split_inclusive s = trim_end_newlines <$> split_inclusive s.
Proof.
  intros Hc. pose proof (split_inclusive_form s) as Hf. rewrite Forall_forall in Hf.
  apply Forall_fmap_ext_1, Forall_forall. intros seg Hseg.
  assert (carriage_return ∉ seg) as Hc' by (intros H; by eapply Hc, elem_of_split).
  destruct (Hf seg Hseg) as (l & Hl & [->| ->]).
  - rewrite line_of_snoc, trim_snoc by set_solver. done.
  - rewrite trim_newlines_none by done. unfold line_of. by rewrite strip_suffix_none.
Qed.

Lemma join_lines_snoc ls : ls ≠ [] → join_lines ls ++ [newline] = concat ((.++ [newline]) <$> ls).
Proof.
  induction ls as [|l [|l' ls] IH]; [done| |]; intros _; csimpl.
  - by rewrite app_nil_r.
  - specialize (IH ltac:(done)). csimpl in IH. rewrite <-IH, <-!app_assoc. done.
Qed.

Lemma join_str_lines t :
  carriage_return ∉ t → join_lines (str_lines (t ++ [newline])) ++ [newline] = t ++ [newline].
Proof.
  intros Hc. pose proof (split_inclusive_terminated t) as Hf. rewrite Forall_forall in Hf.
  unfold str_lines. rewrite join_lines_snoc.
  - rewrite <-list_fmap_compose. rewrite <-(concat_split_inclusive (t ++ [newline])) at 2. f_equal.
    rewrite <-(list_fmap_id (split_inclusive (t ++ [newline]))) at 2.
    apply Forall_fmap_ext_1, Forall_forall. intros seg Hseg.
    destruct (Hf seg Hseg) as (l & Hl & ->). cbn. rewrite line_of_snoc; [done|].
    intros Hin. apply Hc. apply (elem_of_split _ carriage_return) in Hseg; set_solver.
  - intros E%fmap_nil_inv. apply (f_equal (@concat byte)) in E.
    rewrite concat_split_inclusive in E. by destruct t.
Qed.

(** * A script applied to its own base gives its target *)

Lemma weave_from_old e E i lines :
  e.1 + edit_span e ≤ i → weave_from (e :: E) i lines = weave_from E i lines.
Proof.
  unfold edit_span. revert i. induction lines as [|line lines IH]; intros i Hi; [done|].
  cbn [weave_from]. rewrite IH by lia. unfold inserted, covered. rewrite filter_cons, decide_False by lia.
  cbn [existsb]. destruct (Nat.ltb_spec i (e.1 + mo_old_len e.2)); [lia|]. by rewrite andb_false_r.
Qed.

Lemma inserted_old e E n : e.1 < n → inserted (e :: E) n = inserted E n.
Proof. intros. unfold inserted. by rewrite filter_cons, decide_False by lia. Qed.

Lemma weave_copy E i lines k :
  (∀ e, e ∈ E → i + k ≤ e.1) → k ≤ length lines →
  weave_from E i lines = take k lines ++ weave_from E (i + k) (drop k lines).
Proof.
  revert i lines. induction k as [|k IH]; intros i lines HE Hk.
  { by rewrite Nat.add_0_r, drop_0. }
  destruct lines as [|line lines]; [simpl in Hk; lia|]. rewrite weave_step.
  - cbn [take drop app]. f_equal. rewrite IH; [f_equal; f_equal; lia| |simpl in Hk; lia].
    intros e He. specialize (HE e He). lia.
  - intros e He. specialize (HE e He). lia.
  - apply not_true_iff_false. rewrite covered_true. intros (e & He & ?). specialize (HE e He). lia.
Qed.

Lemma weave_script old new i j ops :
  script_ok old new i j ops → inserts_last ops = true →
  weave_from (edits new ops) i (drop i (trim_end_newlines <$> old)) ++
    inserted (edits new ops) (length old) = trim_end_newlines <$> drop j new.
Proof.
  revert i j. induction ops as [|op ops IH]; intros i j Hok Hl.
  { destruct Hok as [-> ->]. rewrite !drop_ge; [done|by rewrite ?length_fmap..]. }
  pose proof (script_edits old new i j (op :: ops) Hok Hl) as (_ & Hs & Hfit).
  apply sorted_is_apart in Hs.
  assert (∀ ol nls j', edits new (op :: ops) = (i, {| mo_old_len := ol; mo_new_lines := nls |}) :: edits new ops →
    0 < ol → i + ol ≤ length old → script_ok old new (i + ol) j' ops → inserts_last ops = true →
    weave_from (edits new (op :: ops)) i (drop i (trim_end_newlines <$> old)) ++
      inserted (edits new (op :: ops)) (length old) = nls ++ (trim_end_newlines <$> drop j' new)) as Hedit.
  { intros ol nls j' E Hol Hle Hok' Hl'. rewrite <-(IH (i + ol) j') by done. rewrite E in Hs |- *.
    destruct (lookup_lt_is_Some_2 (trim_end_newlines <$> old) i) as [line Hi]; [rewrite length_fmap; lia|].
    rewrite (drop_S _ _ _ Hi).
    pose proof (weave_edit _ _ line (drop (S i) (trim_end_newlines <$> old)) Hs (list_elem_of_here _ _) Hol) as Hw.
    cbn [fst snd mo_old_len mo_new_lines] in Hw. rewrite Hw, <-(drop_S _ _ _ Hi), drop_drop, <-app_assoc.
    rewrite weave_from_old by (unfold edit_span; simpl; lia). do 2 f_equal.
    destruct (decide (i = length old)); [lia|]. apply inserted_old. simpl. lia. }
  destruct op as [oi ni n|oi ol ni|oi ni nl|oi ol ni nl]; cbn in Hok, Hl.
  - destruct Hok as (-> & -> & Hn & Hle & Hle' & Heq & Hok).
    change (edits new (OpEqual i j n :: ops)) with (edits new ops) in *.
    pose proof (script_edits _ _ _ _ _ Hok Hl) as (Hge & _ & _). rewrite Forall_forall in Hge.
    rewrite (weave_copy _ _ _ n), drop_drop by (try done; rewrite length_drop, length_fmap; lia).
    rewrite <-app_assoc, (IH (i + n) (j + n)) by done.
    rewrite <-fmap_drop, <-fmap_take, Heq, <-fmap_app. f_equal.
    by rewrite <-drop_drop, take_drop.
  - destruct Hok as (-> & -> & Hn & Hle & Hok). by rewrite (Hedit ol [] j).
  - destruct Hok as (-> & -> & Hn & Hle & Hok). apply bool_decide_eq_true in Hl as ->.
    destruct Hok as [-> E]. rewrite drop_ge by (by rewrite length_fmap). cbn.
    rewrite decide_True by done. cbn. rewrite app_nil_r.
    unfold new_lines. rewrite take_ge; [done|]. rewrite length_drop. lia.
  - destruct Hok as (-> & -> & Hn & Hn' & Hle & Hle' & Hok).
    rewrite (Hedit ol (new_lines new j nl) (j + nl)) by done. unfold new_lines.
    rewrite <-fmap_app. f_equal. by rewrite <-drop_drop, take_drop.
Qed.

Lemma no_ranges_no_edits slices ops : collect_changed_ranges ops = [] → edits slices ops = [].
Proof.
  unfold collect_changed_ranges, edits. induction ops as [|op ops IH]; [done|].
  destruct op; cbn; [exact IH|done..].
Qed.

Section identity.
Context {SM : Similar}.

(** Merging with a side that did not change returns the other side's
    text byte for byte, for newline-terminated texts whose insertions are
    at the end of the base. *)
Theorem text_merge_identity base local remote :
  utf8 (base ++ [newline]) = true → utf8 (local ++ [newline]) = true → utf8 remote = true →
  carriage_return ∉ base ++ [newline] → carriage_return ∉ local ++ [newline] →
  collect_changed_ranges (td_ops (base ++ [newline]) remote) = [] →
  inserts_last (td_ops (base ++ [newline]) (local ++ [newline])) = true →
  three_way_text_merge (base ++ [newline]) (local ++ [newline]) remote = Merged (local ++ [newline]).
Proof.
  intros Ub Ul Ur Cb Cl Hr Il.
  rewrite three_way_weaves; [|done..| |done|].
  - rewrite (no_ranges_no_edits _ _ Hr), app_nil_r. f_equal.
    assert (ends_with (base ++ [newline]) [newline] = true) as ->.
    { unfold ends_with. rewrite rev_app_distr. cbn. by destruct (rev base). }
    transitivity (join_lines (str_lines (local ++ [newline])) ++ [newline]);
      [|apply join_str_lines; set_solver].
    do 2 f_equal. unfold weave, str_lines. rewrite !line_of_trim, <-!td_slices_lines by done.
    pose proof (weave_script _ _ _ _ _ (td_ops_ok (base ++ [newline]) (local ++ [newline])) Il) as Hw.
    rewrite !drop_0 in Hw. by rewrite length_fmap.
  - rewrite Hr. unfold ranges_overlap.
    generalize (collect_changed_ranges (td_ops (base ++ [newline]) (local ++ [newline]))).
    intros rs. induction rs as [|r rs IH]; [done|]. cbn [existsb orb]. exact IH.
  - clear -Hr. unfold collect_changed_ranges in Hr. induction (td_ops _ remote) as [|op ops IH]; [done|].
    destruct op; cbn in *; [auto|done..].
Qed.
End identity.

(** * A diff that obeys the laws

    One operation between the common start and the common end of the two
    texts. *)

Fixpoint common_prefix (a b : list bytes) : nat :=
  match a, b with
  | x :: a, y :: b => if bool_decide (x = y) then S (common_prefix a b) else 0
  | _, _ => 0
  end.

Definition middle_op (i j ol nl : nat) : list DiffOp :=
  match ol, nl with
  | 0, 0 => []
  | 0, _ => [OpInsert i j nl]
  | _, 0 => [OpDelete i ol j]
  | _, _ => [OpReplace i ol j nl]
  end.
Definition equal_op (i j n : nat) : list DiffOp := if n =? 0 then [] else [OpEqual i j n].

Definition simple_ops (old new : list bytes) : list DiffOp :=
  let p := common_prefix old new in
  let q := common_prefix (rev (drop p old)) (rev (drop p new)) in
  equal_op 0 0 p ++ middle_op p p (length old - p - q) (length new - p - q) ++
  equal_op (length old - q) (length new - q) q.

Lemma common_prefix_spec a b (p := common_prefix a b) :
  p ≤ length a ∧ p ≤ length b ∧ take p a = take p b.
Proof.
  subst p. revert b. induction a as [|x a IH]; intros [|y b]; cbn; try (split_and!; lia || done).
  case_bool_decide; cbn; [|split_and!; lia || done].
  destruct (IH b) as (?&?&E). subst. rewrite E. split_and!; lia || done.
Qed.

Lemma script_equal old new i j n ops :
  i + n ≤ length old → j + n ≤ length new → take n (drop i old) = take n (drop j new) →
  script_ok old new (i + n) (j + n) ops → script_ok old new i j (equal_op i j n ++ ops).
Proof.
  intros. unfold equal_op. destruct (Nat.eqb_spec n 0) as [->|]; cbn.
  - by rewrite !Nat.add_0_r in *.
  - split_and!; try done; lia.
Qed.

Lemma script_middle old new i j ol nl ops :
  i + ol ≤ length old → j + nl ≤ length new →
  script_ok old new (i + ol) (j + nl) ops → script_ok old new i j (middle_op i j ol nl ++ ops).
Proof.
  intros H1 H2 H3. destruct ol as [|ol], nl as [|nl]; cbn in *; rewrite ?Nat.add_0_r in *;
    try split_and!; done || lia.
Qed.

Lemma simple_ops_ok old new : script_ok old new 0 0 (simple_ops old new).
Proof.
  unfold simple_ops. destruct (common_prefix_spec old new) as (P1 & P2 & P3).
  set (p := common_prefix old new) in *.
  destruct (common_prefix_spec (rev (drop p old)) (rev (drop p new))) as (Q1 & Q2 & Q3).
  set (q := common_prefix (rev _) (rev _)) in *. rewrite !length_rev, !length_drop in Q1, Q2.
  apply script_equal; [lia|lia|by rewrite !drop_0|]. cbn [Nat.add].
  apply script_middle; [lia|lia|].
  replace (p + (length old - p - q)) with (length old - q) by lia.
  replace (p + (length new - p - q)) with (length new - q) by lia.
  rewrite <-(app_nil_r (equal_op _ _ q)). apply script_equal; [lia|lia| |split; lia].
  rewrite !firstn_rev in Q3. apply (f_equal (@rev bytes)) in Q3.
  rewrite !rev_involutive, !length_drop, !drop_drop in Q3.
  replace (p + (length old - p - q)) with (length old - q) in Q3 by lia.
  replace (p + (length new - p - q)) with (length new - q) in Q3 by lia. by rewrite Q3.
Qed.

Definition simple_similar : Similar := {|
  td_slices := split_inclusive;
  td_ops old new := simple_ops (split_inclusive old) (split_inclusive new);
  td_slices_concat := concat_split_inclusive;
  td_slices_lines s _ := eq_refl;
  td_ops_ok old new := simple_ops_ok _ _;
|}.

Section concrete.
#[local] Existing Instance simple_similar.

Definition three_lines : bytes := str "alpha" ++ newline :: str "beta" ++ newline :: str "gamma" ++ [newline].

Lemma text_merge_weaves_witness :
  three_way_text_merge three_lines
    (str "ALPHA" ++ newline :: str "beta" ++ newline :: str "gamma" ++ [newline])
    (str "alpha" ++ newline :: str "beta" ++ newline :: str "gamma" ++ newline :: str "delta" ++ [newline])
  = Merged (str "ALPHA" ++ newline :: str "beta" ++ newline :: str "gamma" ++ newline :: str "delta" ++ [newline]).
Proof.
  etransitivity; [apply (text_merge_weaves three_lines); try reflexivity|vm_compute; reflexivity].
  apply (bool_decide_eq_true_1 _). vm_compute. reflexivity.
Defined.

Lemma text_merge_identity_witness :
  three_way_text_merge (str "a" ++ [newline]) (str "b" ++ [newline]) (str "a" ++ [newline])
  = Merged (str "b" ++ [newline]).
Proof.
  apply (text_merge_identity (str "a") (str "b") (str "a" ++ [newline]));
    try reflexivity; apply (bool_decide_eq_true_1 _); vm_compute; reflexivity.
Defined.

(** an insertion before the end of the base loses a line. One device
    puts a line at the top of a note, the other one at the bottom; the
    edits do not overlap, the merge reports success, and the line of the
    base that follows the insertion is gone although both devices kept
    it. *)
Theorem text_merge_drops_line :
  three_way_text_merge (str "kept" ++ [newline])
    (str "top" ++ newline :: str "kept" ++ [newline])
    (str "kept" ++ newline :: str "bottom" ++ [newline])
  = Merged (str "top" ++ newline :: str "bottom" ++ [newline]).
Proof. vm_compute. reflexivity. Qed.
End concrete.
