(* ===== verification/VersionedRoot.v ===== *)
(** src/crates/sync-core/src/versioned_root.rs: the boundary between Tree v1
    and Tree v2 roots. Clients decode, build and load through
    [VersionedRoot]; what they read back does not depend on the version. *)

From S2P Require Import Prelude Bytes Keyed Hash Chunk Store TreeV1 TreeV1Merge TreeV1Build TreeV1Repr.
From S2P Require Import TreeV1Props TreeV2Codec TreeV2CodecProps TreeV2Segment TreeV2 TreeV2Build.
From S2P Require Import TreeV2Store.
Local Open Scope N_scope.

Definition TREE_V1 : N := 1.
Definition TREE_V2 : N := 2.

Inductive VersionedRoot :=
  | V1 (root : RootNode)
  | V2 (root : RootNodeV2).

Section versioned.
Context {B3 : Blake3} {FB : FlatBuffers}.

Definition vr_deserialize (b : bytes) : result ChunkError VersionedRoot :=
  if starts_with b (str "OVR2") then
    let? r := r2_deserialize b in Ok (V2 r)
  else
    let? r := root_deserialize b in
    if negb (rn_version r =? TREE_V1)
    then Err (Deserialize "unsupported Tree v1 root version")
    else Ok (V1 r).

Definition vr_serialize (r : VersionedRoot) : result ChunkError bytes :=
  match r with
  | V1 r =>
      if negb (rn_version r =? TREE_V1)
      then Err (Deserialize "unsupported Tree v1 root version")
      else Ok (root_serialize r)
  | V2 r => r2_serialize r
  end.

Definition vr_version (r : VersionedRoot) : N :=
  match r with V1 _ => TREE_V1 | V2 _ => TREE_V2 end.
Definition vr_hash (r : VersionedRoot) : FileHash :=
  match r with V1 r => root_hash r | V2 r => r2_hash r end.
Definition vr_vault_id (r : VersionedRoot) : bytes :=
  match r with V1 r => rn_vault_id r | V2 r => r2_vault_id r end.
Definition vr_created_ms (r : VersionedRoot) : N :=
  match r with V1 r => rn_created_ms r | V2 r => r2_created_ms r end.
Definition vr_total_files (r : VersionedRoot) : N :=
  match r with V1 r => rn_total_files r | V2 r => r2_total_files r end.
Definition vr_parent_hash (r : VersionedRoot) : option FileHash :=
  match r with V1 r => rn_parent_hash r | V2 r => r2_parent_hash r end.
Definition vr_device_id (r : VersionedRoot) : bytes :=
  match r with V1 r => rn_device_id r | V2 r => r2_device_id r end.

Definition set_history_metadata (created_ms : N) (parent_hash : option FileHash)
    (device_id : bytes) (r : VersionedRoot) : VersionedRoot :=
  match r with
  | V1 r => V1 {| rn_vault_id := rn_vault_id r; rn_created_ms := created_ms;
                  rn_version := rn_version r; rn_children := rn_children r;
                  rn_total_files := rn_total_files r; rn_parent_hash := parent_hash;
                  rn_device_id := device_id |}
  | V2 r => V2 {| r2_vault_id := r2_vault_id r; r2_created_ms := created_ms;
                  r2_parent_hash := parent_hash; r2_device_id := device_id;
                  r2_tree := r2_tree r |}
  end.

Definition as_v1 (r : VersionedRoot) : option RootNode :=
  match r with V1 r => Some r | V2 _ => None end.
Definition as_v2 (r : VersionedRoot) : option RootNodeV2 :=
  match r with V1 _ => None | V2 r => Some r end.

(** [versioned_root::empty_root]. *)
Definition empty_versioned_root (version : N) (vault_id device_id : bytes)
    : result ChunkError VersionedRoot :=
  if version =? TREE_V1 then
    Ok (V1 {| rn_vault_id := vault_id; rn_created_ms := 0; rn_version := TREE_V1;
              rn_children := []; rn_total_files := 0; rn_parent_hash := None;
              rn_device_id := device_id |})
  else if version =? TREE_V2 then
    let? r := r2_new vault_id device_id
                {| tv_version := TREE_V2; tv_total_files := 0; tv_child := None |} in
    Ok (V2 r)
  else Err (Deserialize "unsupported tree version").

Section stores.
Context {S : Type} {CS : ChunkStore S}.

(** [versioned_root::build_root]. *)
Definition build_root (now : N) (entries : list FileEntry) (version : N)
    (vault_id device_id : bytes) : St S ChunkError VersionedRoot :=
  if version =? TREE_V1 then
    let! r := build_tree now entries vault_id device_id in st_ret (V1 r)
  else if version =? TREE_V2 then
    let! tree := build_tree_v2 entries in
    let! r := st_lift (r2_new vault_id device_id tree) in st_ret (V2 r)
  else st_err (Deserialize "unsupported tree version").

(** [for (_, hash) in &root.children { entries.extend(...) }] *)
Fixpoint load_children (children : list (bytes * FileHash)) (s : S)
    : result ChunkError (list FileEntry) :=
  match children with
  | [] => Ok []
  | (_, h) :: children =>
      let? es := load_all_entries h s in
      let? rest := load_children children s in
      Ok (es ++ rest)
  end.

(** [versioned_root::load_all_entries]. *)
Definition vr_load_all_entries (r : VersionedRoot) (s : S)
    : result ChunkError (list FileEntry) :=
  if MAX_LOADED_ENTRIES <? vr_total_files r
  then Err (Deserialize "versioned root exceeds the entry limit")
  else
    let? entries :=
      match r with
      | V1 r => let? es := load_children (rn_children r) s in Ok (sort_by fe_path es)
      | V2 r => load_all_entries_v2 (r2_tree r) s
      end in
    if negb (len entries =? vr_total_files r)
    then Err (Deserialize "root declares a different number of files")
    else if negb (strictly_ordered fe_path entries)
    then Err (Deserialize "versioned root entries are not strictly ordered")
    else Ok entries.
End stores.
End versioned.


Lemma sort_by_perm_eq {A} (key : A → bytes) l1 l2 :
  NoDup (key <$> l1) → l1 ≡ₚ l2 → sort_by key l1 = sort_by key l2.
Proof.
  intros Hnd Hp. assert (NoDup (key <$> l2)) by (by rewrite <-Hp).
  apply (ssorted_ext key); [by apply sort_by_ssorted..|].
  rewrite !kmap_sort_by by done. by apply kmap_perm.
Qed.

(** The entries of a vault in path order. *)
Definition vault_entries (m : vault) : list FileEntry := sort_by fe_path (map_to_list m).*2.

Lemma vault_entries_ssorted m : keyed m → ssorted fe_path (vault_entries m).
Proof. intros. by apply sort_by_ssorted, keyed_NoDup. Qed.

Lemma elem_of_vault_entries m e : keyed m → e ∈ vault_entries m ↔ m !! fe_path e = Some e.
Proof.
  intros Hm. unfold vault_entries. rewrite elem_of_sort_by, list_elem_of_fmap. split.
  - intros ([k e'] & -> & Hin%elem_of_map_to_list). pose proof (Hm _ _ Hin) as E. simpl in *. by subst.
  - intros Hin. exists (fe_path e, e). split; [done|]. by apply elem_of_map_to_list.
Qed.

Lemma vault_entries_map m : keyed m → entries_map (vault_entries m) = m.
Proof.
  intros Hm. apply map_eq. intros k. apply option_eq. intros e. unfold entries_map.
  rewrite kmap_lookup_Some by (by apply ssorted_NoDup, vault_entries_ssorted).
  rewrite elem_of_vault_entries by done. split; [by intros [? <-]|].
  intros He. pose proof (Hm _ _ He) as E. simpl in E. by rewrite E.
Qed.

Lemma keyed_entries_map es : keyed (entries_map es).
Proof.
  unfold entries_map. induction es as [|e es IH]; [apply map_Forall_empty|].
  rewrite kmap_cons. by apply map_Forall_insert_2.
Qed.

Lemma vault_entries_of es :
  NoDup (fe_path <$> es) → vault_entries (entries_map es) = sort_by fe_path es.
Proof.
  intros Hnd. apply (ssorted_ext fe_path).
  - apply vault_entries_ssorted, keyed_entries_map.
  - by apply sort_by_ssorted.
  - rewrite kmap_sort_by by done. apply vault_entries_map, keyed_entries_map.
Qed.

Lemma vault_entries_unique m es :
  keyed m → ssorted fe_path es → entries_map es = m → es = vault_entries m.
Proof.
  intros Hm Hs E. apply (ssorted_ext fe_path); [done|by apply vault_entries_ssorted|].
  fold (entries_map es). rewrite E. symmetry. by apply vault_entries_map.
Qed.

Lemma len_vault_entries m : len (vault_entries m) = N.of_nat (size m).
Proof.
  unfold len, vault_entries. by rewrite length_sort_by, length_fmap, length_map_to_list.
Qed.

Section load.
Context {S : Type} {B3 : Blake3} {FB : FlatBuffers} {CS : ChunkStore S} {CSL : ChunkStoreLaws S}.
Context (P : bytes → Prop).

Lemma dirs_NoDup (children : list (bytes * FileHash)) m :
  keyed m → ssorted fst children → NoDup (concat ((λ c, dir_entries c.1 m) <$> children)).
Proof.
  intros Hm. induction children as [|[p h] cs IH]; [constructor|].
  intros [Hp Hcs]%ssorted_cons. csimpl. apply NoDup_app. split_and!; [| |auto].
  - by eapply NoDup_fmap_1, ssorted_NoDup, dir_entries_ssorted.
  - intros e He (d & Hd & Hin)%list_elem_of_In%in_concat.
    apply list_elem_of_In, list_elem_of_fmap in Hd as ([q h'] & -> & Hq).
    apply list_elem_of_In in Hin. rewrite elem_of_dir_entries in He, Hin by done.
    destruct He as [_ He], Hin as [_ Hin]. unfold in_dir in *. simpl in *.
    rewrite Forall_forall in Hp. specialize (Hp _ Hq). simpl in Hp.
    apply bytes_lt_ne in Hp. congruence.
Qed.

Lemma load_children_spec s children m :
  vault_ok P m → dirs_repr s children m →
  ∃ es, load_children children s = Ok es ∧ es ≡ₚ vault_entries m.
Proof.
  intros Hv Hr. pose proof Hr as [Hsort Hchild _].
  exists (concat ((λ c, dir_entries c.1 m) <$> children)). split.
  - assert (∀ p h, (p, h) ∈ children → load_all_entries h s = Ok (dir_entries p m)) as Hl.
    { intros p h Hin. by eapply dirs_repr_load. }
    clear Hr Hsort Hchild. induction children as [|[p h] cs IH]; [done|]. cbn [load_children].
    rewrite (Hl p h) by left. rewrite IH; [done|]. intros p' h' Hin. apply Hl. by right.
  - destruct Hv as [Hm _]. apply NoDup_Permutation; [by apply dirs_NoDup|..].
    { by eapply NoDup_fmap_1, ssorted_NoDup, vault_entries_ssorted. }
    intros e. rewrite elem_of_vault_entries by done. rewrite list_elem_of_In, in_concat. split.
    + intros (d & Hd & Hin). apply list_elem_of_In, list_elem_of_fmap in Hd as (c & -> & _).
      by apply list_elem_of_In, elem_of_dir_entries in Hin as [? _].
    + intros He. set (p := top_level_prefix (fe_path e)).
      assert (e ∈ dir_entries p m) as Hin by (by apply elem_of_dir_entries).
      exists (dir_entries p m). rewrite <-!list_elem_of_In. split; [|done].
      assert (is_Some (dir_child p m)) as [h Hh].
      { unfold dir_child. destruct (dir_entries p m); [set_solver|eauto]. }
      rewrite <-Hchild in Hh. apply amap_elem in Hh; [|done].
      apply list_elem_of_fmap. by exists (p, h).
Qed.

Lemma vr_load_V1 s root m :
  vault_ok P m → dirs_repr s (rn_children root) m → rn_total_files root = N.of_nat (size m) →
  N.of_nat (size m) ≤ MAX_LOADED_ENTRIES →
  vr_load_all_entries (V1 root) s = Ok (vault_entries m).
Proof.
  intros Hv Hr Ht Hle. pose proof Hv as [Hm _]. unfold vr_load_all_entries. cbn [vr_total_files].
  rewrite Ht, (proj2 (N.ltb_ge _ _)) by done.
  destruct (load_children_spec s (rn_children root) m Hv Hr) as (es & -> & Hp).
  assert (ssorted fe_path (vault_entries m)) as Hs by (by apply vault_entries_ssorted).
  assert (sort_by fe_path es = vault_entries m) as ->.
  { rewrite (sort_by_perm_eq _ es (vault_entries m)); [by apply sort_by_id| |done].
    rewrite Hp. by apply ssorted_NoDup. }
  rewrite len_vault_entries, N.eqb_refl. cbn [negb].
  by rewrite (proj2 (strictly_ordered_ssorted _ _) Hs).
Qed.

Lemma vr_load_V2 s (r : RootNodeV2) es :
  r2_tree r = root_of es → entries_ok es → stored s (written es) →
  vr_load_all_entries (V2 r) s = Ok es.
Proof.
  intros Hr Hes Hst. pose proof Hes as [(Hmax & _ & Hs)%validate_entries_ok _].
  assert (tv_total_files (root_of es) = len es) as Ht by (by destruct es).
  unfold vr_load_all_entries. cbn [vr_total_files]. unfold r2_total_files. rewrite Hr, Ht.
  rewrite (proj2 (N.ltb_ge _ _)) by done. rewrite load_all_entries_run by done.
  rewrite N.eqb_refl. cbn [negb]. by rewrite (proj2 (strictly_ordered_ssorted _ _) Hs).
Qed.

Context (Hinj : injective_on hash_bytes P).

(** What the builder of a version needs of a vault. *)
Definition buildable (version : N) (es : list FileEntry) : Prop :=
  if version =? TREE_V1 then vault_ok P (entries_map es) ∧ len es ≤ MAX_LOADED_ENTRIES
  else entries_ok (sort_by fe_path es) ∧ Forall P (written (sort_by fe_path es)).

Lemma build_root_spec now es version vault_id device_id s :
  version = TREE_V1 ∨ version = TREE_V2 →
  store_ok P s → NoDup (fe_path <$> es) → buildable version es →
  validate_root_id "vault" vault_id false = Ok tt →
  validate_root_id "device" device_id true = Ok tt →
  ∃ root s', build_root now es version vault_id device_id s = (Ok root, s') ∧
    vr_version root = version ∧ store_ok P s' ∧ store_le s s' ∧
    vr_load_all_entries root s' = Ok (sort_by fe_path es).
Proof.
  intros Hver Hs Hnd Hb Hvid Hdid. unfold build_root, buildable in *. destruct Hver as [->| ->].
  - cbn in Hb. destruct Hb as [Hv Hmax]. rewrite N.eqb_refl.
    destruct (build_tree_spec P Hinj now es vault_id device_id s)
      as (r & s' & Hrun & Hs' & Hle & Hr & Ht); [done..|].
    exists (V1 r), s'. erewrite st_bind_run by exact Hrun. split_and!; [done..|].
    assert (N.of_nat (size (entries_map es)) = len es) as Hsz.
    { unfold entries_map. by rewrite size_kmap. }
    rewrite (vr_load_V1 s' r (entries_map es)); [|done..|by rewrite Ht|by rewrite Hsz].
    by rewrite vault_entries_of.
  - cbn in Hb. destruct Hb as [Hes HP]. change (TREE_V2 =? TREE_V1) with false. rewrite N.eqb_refl.
    destruct (put_all_ok P Hinj _ s Hs HP) as (Hs' & Hle & Hst).
    set (es' := sort_by fe_path es) in *.
    assert (validate_root_shape (root_of es') = Ok tt) as Hshape by (by eapply root_of_shape).
    set (r := {| r2_vault_id := vault_id; r2_created_ms := 0; r2_tree := root_of es';
                 r2_parent_hash := None; r2_device_id := device_id |}).
    assert (r2_new vault_id device_id (root_of es') = Ok r) as Hnew.
    { unfold r2_new, r2_validate. cbn [r2_tree r2_vault_id r2_device_id].
      by rewrite Hshape, Hvid, Hdid. }
    exists (V2 r), (put_all (written es') s).
    erewrite st_bind_run by (by apply build_tree_v2_run).
    unfold st_bind, st_lift. fold es'. rewrite Hnew. split_and!; [done..|].
    apply vr_load_V2; [done|done|exact Hst].
Qed.

(** A vault built in either tree version and loaded back through the
    versioned boundary gives the same list: all entries in path order. A
    version that is neither is refused and writes nothing. *)
Theorem versioned_build_load now es version vault_id device_id s :
  store_ok P s → NoDup (fe_path <$> es) → buildable version es →
  validate_root_id "vault" vault_id false = Ok tt →
  validate_root_id "device" device_id true = Ok tt →
  if (version =? TREE_V1) || (version =? TREE_V2) then
    ∃ root s', build_root now es version vault_id device_id s = (Ok root, s') ∧
      vr_version root = version ∧ store_le s s' ∧
      vr_load_all_entries root s' = Ok (sort_by fe_path es)
  else build_root now es version vault_id device_id s =
         (Err (Deserialize "unsupported tree version"), s).
Proof.
  intros Hs Hnd Hb Hvid Hdid.
  destruct (N.eqb_spec version TREE_V1) as [E1|E1]; [|destruct (N.eqb_spec version TREE_V2) as [E2|E2]].
  1,2: cbn [orb]; destruct (build_root_spec now es version vault_id device_id s)
    as (root & s' & ? & ? & ? & ? & ?); eauto 10.
  unfold build_root. by rewrite !(proj2 (N.eqb_neq _ _)).
Qed.
End load.

Section stored.
Context {B3 : Blake3} {FB : FlatBuffers}.

(** The roots the structs can hold. FlatBuffers starts with the offset of
    its root table, which spells the version 2 magic in no buffer below
    800 MB. *)
Definition storable (r : VersionedRoot) : Prop :=
  match r with
  | V1 r => root_ok r = true ∧ starts_with (root_serialize r) (str "OVR2") = false
  | V2 r => root_typed r = true
  end.

(** The two stored formats are disjoint and reading inverts writing:
    bytes written for a root of either version are read back as that root,
    and bytes read as a version 2 root are the bytes that root is stored
    as. *)
Theorem versioned_root_roundtrip r b :
  storable r →
  (vr_serialize r = Ok b → vr_deserialize b = Ok r) ∧
  (∀ r2, r = V2 r2 → vr_deserialize b = Ok r → vr_serialize r = Ok b).
Proof.
  intros Hr. split.
  - destruct r as [r|r]; cbn [vr_serialize].
    + destruct Hr as [Hok Hm]. destruct (rn_version r =? TREE_V1) eqn:Ev; [|done].
      intros [= <-]. unfold vr_deserialize. rewrite Hm, root_roundtrip by done. by rewrite Ev.
    + intros Hs. pose proof Hs as (_ & _ & ->)%r2_serialize_ok; [|done].
      apply stored_root_iff in Hs; [|done]. unfold vr_deserialize.
      assert (starts_with (root_bytes r) (str "OVR2") = true) as ->; [|by rewrite Hs].
      apply starts_with_app. unfold root_bytes. eauto.
  - intros r2 ->. unfold vr_deserialize. destruct (starts_with _ _).
    + destruct (r2_deserialize b) as [r'|] eqn:E; [|done]. intros [= ->].
      by apply stored_root_iff in E.
    + destruct (root_deserialize b) as [r'|]; [|done]. by destruct (negb _).
Qed.
End stored.
