(* ===== verification/TreeV2Diff.v ===== *)
(** src/crates/sync-core/src/tree_v2.rs, [compute_deltas_with_stats]: the
    recursive comparison of two range trees; and src/crates/sync-core/src/
    diff.rs, [compute_versioned_deltas]: the diff of any two stored roots. *)

From S2P Require Import Prelude Bytes Keyed Hash Chunk Store TreeV1 TreeV2Codec TreeV2Segment TreeV2.
From S2P Require Import Diff VersionedRoot.
Local Open Scope N_scope.

(** [from[i].min_path == to[j].min_path && from[i].max_path == to[j].max_path]. *)
Definition same_span (f t : RangeRef) : bool :=
  beq (rr_min_path f) (rr_min_path t) && beq (rr_max_path f) (rr_max_path t).

(** The inner loop of [align_range_windows]: the window up to the next common
    range end, and what remains of both sides. It is entered with both sides
    non-empty. *)
Fixpoint drift_window (from : list RangeRef)
    : list RangeRef → list RangeRef * list RangeRef * list RangeRef * list RangeRef :=
  fix go to :=
    match from, to with
    | f :: from', t :: to' =>
        match bcmp (rr_max_path f) (rr_max_path t) with
        | Eq => ([f], [t], from', to')
        | Lt =>
            match from' with
            | [] => ([f], to, [], [])
            | _ => let '(l, r, from2, to2) := drift_window from' to in (f :: l, r, from2, to2)
            end
        | Gt =>
            match to' with
            | [] => (from, [t], [], [])
            | _ => let '(l, r, from2, to2) := go to' in (l, t :: r, from2, to2)
            end
        end
    | _, _ => ([], [], from, to)
    end.

(** The outer loop. Every round takes at least one range of [from], which is
    the fuel. *)
Fixpoint align_loop (fuel : nat) (from to : list RangeRef)
    : list (list RangeRef * list RangeRef) :=
  match from, to with
  | [], [] => []
  | f :: from', t :: to' =>
      match fuel with
      | O => [(from, to)]
      | S fuel =>
          if same_span f t then ([f], [t]) :: align_loop fuel from' to'
          else
            let '(l, r, from2, to2) := drift_window from to in
            (l, r) :: align_loop fuel from2 to2
      end
  | _, _ => [(from, to)]
  end.

(** [align_range_windows]. *)
Definition align_range_windows (from to : list RangeRef)
    : list (list RangeRef * list RangeRef) :=
  align_loop (length from) from to.

(** The statistics, with saturating counters. *)
Definition visit_ranges (n : N) (st : DiffStats) : DiffStats :=
  {| nodes_visited := saturating_add64 (nodes_visited st) n; nodes_skipped := nodes_skipped st;
     entries_materialized := entries_materialized st |}.
Definition skip_range (st : DiffStats) : DiffStats :=
  {| nodes_visited := nodes_visited st; nodes_skipped := saturating_add64 (nodes_skipped st) 1;
     entries_materialized := entries_materialized st |}.
Definition materialize_entries (n : N) (st : DiffStats) : DiffStats :=
  {| nodes_visited := nodes_visited st; nodes_skipped := nodes_skipped st;
     entries_materialized := saturating_add64 (entries_materialized st) n |}.

(** The locals of the traversal: the stack of tasks with its top at the head,
    the raw deltas and the statistics. *)
Record DiffWork := {
  dw_tasks : list (list RangeRef * list RangeRef);
  dw_raw : list FileDelta;
  dw_stats : DiffStats;
}.

(** A window of one range on each side with the same span and hash. *)
Definition same_subtree (left right : list RangeRef) : bool :=
  match left, right with
  | [f], [t] => same_span f t && beq (rr_hash f) (rr_hash t)
  | _, _ => false
  end.

Section diff_v2.
Context {S : Type} {B3 : Blake3} {FB : FlatBuffers} {CS : ChunkStore S}.

(** [expand_one_level]. *)
Fixpoint expand_one_level (s : S) (ranges output : list RangeRef)
    : St TraversalBudget ChunkError (list RangeRef) :=
  match ranges with
  | [] => st_ret output
  | range :: ranges =>
      if rr_height range =? 0 then expand_one_level s ranges (output ++ [range])
      else
        let! _ := budget_node (rr_height range) in
        let! node := st_lift (load_node s range) in
        match node with
        | V2Internal _ children => expand_one_level s ranges (output ++ children)
        | V2Leaf _ => st_err (invalid "Tree v2 internal descriptor names a leaf")
        end
  end.

(** The body of the loop over the windows of a task. *)
Definition diff_window (s : S) (w : DiffWork) (window : list RangeRef * list RangeRef)
    : St TraversalBudget ChunkError DiffWork :=
  let left := window.1 in
  let right := window.2 in
  let stats := visit_ranges (len left + len right) (dw_stats w) in
  if same_subtree left right then
    st_ret {| dw_tasks := dw_tasks w; dw_raw := dw_raw w; dw_stats := skip_range stats |}
  else if existsb (λ r, 0 <? rr_height r) (left ++ right) then
    let! expanded_left := expand_one_level s left [] in
    let! expanded_right := expand_one_level s right [] in
    st_ret {| dw_tasks := (expanded_left, expanded_right) :: dw_tasks w;
              dw_raw := dw_raw w; dw_stats := stats |}
  else
    let! from_entries := load_leaf_span left s in
    let! to_entries := load_leaf_span right s in
    st_ret {| dw_tasks := dw_tasks w;
              dw_raw := dw_raw w ++ diff_entries from_entries to_entries;
              dw_stats := materialize_entries (len from_entries + len to_entries) stats |}.

(** The loop over the stack of tasks. A task beyond the first is pushed by a
    window that has charged the budget a node, so [MAX_VISITED_NODES + 2]
    rounds end in the node-limit error. *)
Fixpoint diff_tasks (fuel : nat) (s : S) (w : DiffWork) : St TraversalBudget ChunkError DiffWork :=
  match dw_tasks w with
  | [] => st_ret w
  | (from_ranges, to_ranges) :: tasks =>
      match fuel with
      | O => st_err (invalid "Tree v2 exceeds the node limit")
      | Datatypes.S fuel =>
          let! w := st_fold (diff_window s)
            {| dw_tasks := tasks; dw_raw := dw_raw w; dw_stats := dw_stats w |}
            (rev (align_range_windows from_ranges to_ranges)) in
          diff_tasks fuel s w
      end
  end.

Definition root_ranges (root : TreeV2Root) : list RangeRef :=
  match tv_child root with Some c => [c] | None => [] end.

(** [tree_v2::compute_deltas_with_stats]. *)
Definition compute_deltas_with_stats_v2 (s : S) (from to : TreeV2Root)
    : result ChunkError DiffResult :=
  let? _ := validate_root_shape from in
  let? _ := validate_root_shape to in
  let stats := {| nodes_visited := 1; nodes_skipped := 0; entries_materialized := 0 |} in
  if beq (tv_hash from) (tv_hash to) then
    Ok {| dr_deltas := [];
          dr_stats := {| nodes_visited := 1; nodes_skipped := 1; entries_materialized := 0 |} |}
  else
    let run := diff_tasks (N.to_nat (MAX_VISITED_NODES + 2)) s
      {| dw_tasks := [(root_ranges from, root_ranges to)]; dw_raw := []; dw_stats := stats |} in
    let? w := (run tb_default).1 in
    Ok {| dr_deltas := detect_renames (sort_by delta_path (dw_raw w)); dr_stats := dw_stats w |}.

(** [tree_v2::compute_deltas]. *)
Definition compute_deltas_v2 (s : S) (from to : TreeV2Root) : result ChunkError (list FileDelta) :=
  let? r := compute_deltas_with_stats_v2 s from to in
  Ok (dr_deltas r).

(** [compute_versioned_deltas_with_stats]. *)
Definition compute_versioned_deltas_with_stats (s : S) (from to : VersionedRoot)
    : result ChunkError DiffResult :=
  let? r :=
    match from, to with
    | V1 from, V1 to => compute_deltas_with_stats s from to
    | V2 from, V2 to => compute_deltas_with_stats_v2 s (r2_tree from) (r2_tree to)
    | _, _ =>
        let? from_entries := vr_load_all_entries from s in
        let? to_entries := vr_load_all_entries to s in
        Ok {| dr_deltas := detect_renames (diff_entries from_entries to_entries);
              dr_stats := {| nodes_visited := 2; nodes_skipped := 0;
                             entries_materialized := len from_entries + len to_entries |} |}
    end in
  Ok {| dr_deltas := sort_by delta_path (dr_deltas r); dr_stats := dr_stats r |}.

(** [compute_versioned_deltas]. *)
Definition compute_versioned_deltas (s : S) (from to : VersionedRoot)
    : result ChunkError (list FileDelta) :=
  let? r := compute_versioned_deltas_with_stats s from to in
  Ok (dr_deltas r).
End diff_v2.
