(* ===== verification/TreeV2DiffProps.v ===== *)
(** The range-tree diff is the flat diff of the two vaults: skipping equal
    subtrees, aligning drifting boundaries and visiting windows in any order
    lose nothing and invent nothing. *)

From S2P Require Import Prelude Bytes Keyed Hash Chunk Store TreeV1 TreeV1Merge TreeV1Build TreeV1Repr TreeV1Props.
From S2P Require Import TreeV2Codec TreeV2CodecProps TreeV2Segment TreeV2.
From S2P Require Import TreeV2Build TreeV2Store TreeV2Props Diff.
From S2P Require Import VersionedRoot TreeV2Diff.
Local Open Scope N_scope.

(** * Splitting the flat diff *)

Lemma diff_entries_cons f from t to :
  diff_entries (f :: from) (t :: to) =
    match bcmp (fe_path f) (fe_path t) with
    | Eq =>
        if negb (beq (fe_hash f) (fe_hash t)) || negb (fe_mtime_ms f =? fe_mtime_ms t)
           || negb (fe_size_bytes f =? fe_size_bytes t)
        then modified t :: diff_entries from to
        else diff_entries from to
    | Lt => deleted f :: diff_entries from (t :: to)
    | Gt => added t :: diff_entries (f :: from) to
    end.
Proof. done. Qed.

Lemma diff_entries_app a1 a2 b1 b2 :
  (∀ x y, x ∈ a1 → y ∈ b2 → fe_path x ≺ fe_path y) →
  (∀ x y, x ∈ b1 → y ∈ a2 → fe_path x ≺ fe_path y) →
  diff_entries (a1 ++ a2) (b1 ++ b2) = diff_entries a1 b1 ++ diff_entries a2 b2.
Proof.
  revert b1. induction a1 as [|a a1 IHa]; intros b1 Hab Hba.
  - rewrite diff_entries_nil_l. induction b1 as [|b b1 IHb]; [done|].
    destruct a2 as [|a a2]; [by rewrite !diff_entries_nil_l, fmap_app|].
    assert (bcmp (fe_path a) (fe_path b) = Gt) as E by (apply bcmp_gt, Hba; set_solver).
    cbn [app]. cbn [diff_entries]. rewrite E. csimpl. f_equal. apply IHb.
    intros x y Hx Hy. apply Hba; [by right|done].
  - induction b1 as [|b b1 IHb].
    + rewrite diff_entries_nil_r. cbn [app]. destruct b2 as [|b b2].
      { rewrite !diff_entries_nil_r. by rewrite app_comm_cons, fmap_app. }
      assert (bcmp (fe_path a) (fe_path b) = Lt) as E by (apply Hab; set_solver).
      cbn [diff_entries]. rewrite E. csimpl. f_equal.
      rewrite <-diff_entries_nil_r. apply (IHa []); [|by intros ? ? ?%not_elem_of_nil].
      intros x y Hx Hy. apply Hab; [by right|done].
    + cbn [app diff_entries]. destruct (bcmp (fe_path a) (fe_path b)).
      * assert (diff_entries (a1 ++ a2) (b1 ++ b2) = diff_entries a1 b1 ++ diff_entries a2 b2) as ->.
        { apply IHa; intros x y Hx Hy; [apply Hab|apply Hba]; by try right. }
        by destruct (_ || _).
      * cbn [app]. f_equal. apply (IHa (b :: b1)); [|done]. intros x y Hx Hy. apply Hab; [by right|done].
      * cbn [app]. f_equal. apply IHb. intros x y Hx Hy. apply Hba; [by right|done].
Qed.

Lemma diff_entries_paths from to d :
  d ∈ diff_entries from to → delta_path d ∈ (fe_path <$> from) ∨ delta_path d ∈ (fe_path <$> to).
Proof.
  revert to. induction from as [|f from IHf]; intros to.
  { rewrite diff_entries_nil_l. intros (e & -> & He)%list_elem_of_fmap. right.
    apply list_elem_of_fmap. by exists e. }
  induction to as [|t to IHt].
  { rewrite diff_entries_nil_r. intros (e & -> & He)%list_elem_of_fmap. left.
    apply list_elem_of_fmap. by exists e. }
  cbn [diff_entries]. csimpl. rewrite !elem_of_cons.
  destruct (bcmp (fe_path f) (fe_path t)).
  - destruct (_ || _); [rewrite elem_of_cons; intros [->|Hd]|intros Hd]; [naive_solver| |];
      destruct (IHf _ Hd); naive_solver.
  - rewrite elem_of_cons. intros [->|Hd]; [naive_solver|]. destruct (IHf _ Hd) as [?|H]; [naive_solver|].
    csimpl in H. rewrite elem_of_cons in H. naive_solver.
  - rewrite elem_of_cons. intros [->|Hd]; [naive_solver|].
    destruct (IHt Hd) as [H|?]; [csimpl in H; rewrite elem_of_cons in H|]; naive_solver.
Qed.

Lemma diff_entries_above from to p :
  Forall (λ e, p ≺ fe_path e) from → Forall (λ e, p ≺ fe_path e) to →
  Forall (λ d, p ≺ delta_path d) (diff_entries from to).
Proof.
  rewrite !Forall_forall. intros Hf Ht d [H|H]%diff_entries_paths;
    apply list_elem_of_fmap in H as (e & -> & He); auto.
Qed.

Lemma diff_entries_sorted from to :
  ssorted fe_path from → ssorted fe_path to → ssorted delta_path (diff_entries from to).
Proof.
  revert to. induction from as [|f from IHf]; intros to Hf Ht.
  { rewrite diff_entries_nil_l. clear Hf. induction to as [|t to IH]; [constructor|].
    apply ssorted_cons in Ht as [Ht1 Ht2]. csimpl. apply ssorted_cons. split; [|by apply IH].
    by rewrite Forall_fmap. }
  apply ssorted_cons in Hf as [Hf1 Hf2]. induction to as [|t to IHt].
  { rewrite diff_entries_nil_r. clear IHf. csimpl. apply ssorted_cons. split; [by rewrite Forall_fmap|].
    clear Hf1. induction from as [|g from IH]; [constructor|]. apply ssorted_cons in Hf2 as [H1 H2].
    csimpl. apply ssorted_cons. split; [by rewrite Forall_fmap|by apply IH]. }
  pose proof Ht as [Ht1 Ht2]%ssorted_cons. rewrite diff_entries_cons.
  destruct (bcmp_spec (fe_path f) (fe_path t)) as [E|E|E].
  - destruct (_ || _); [|by apply IHf]. apply ssorted_cons. split; [|by apply IHf].
    rewrite E in Hf1. by apply diff_entries_above.
  - apply ssorted_cons. split; [|by apply IHf]. apply diff_entries_above; [done|].
    constructor; [done|]. by eapply Forall_above.
  - apply ssorted_cons. split; [|by apply IHt]. apply diff_entries_above; [|done].
    constructor; [done|]. by eapply Forall_above.
Qed.

(** * Stored forests *)

Lemma rtree_ind' (P : rtree → Prop) :
  (∀ es, P (RLeaf es)) → (∀ h cs, Forall P cs → P (RNode h cs)) → ∀ t, P t.
Proof.
  intros HL HN. fix IH 1. intros [es|h cs]; [apply HL|]. apply HN.
  induction cs as [|c cs IHcs]; constructor; [apply IH|exact IHcs].
Qed.

Definition t_entries (t : rtree) : list FileEntry := concat (t_leaves t).
Definition f_entries (ts : list rtree) : list FileEntry := concat (t_entries <$> ts).

Lemma f_entries_app a b : f_entries (a ++ b) = f_entries a ++ f_entries b.
Proof. unfold f_entries. by rewrite fmap_app, concat_app. Qed.

Lemma concat_concat {A} (l : list (list (list A))) : concat (concat l) = concat (@concat A <$> l).
Proof. induction l as [|x l IH]; [done|]. csimpl. by rewrite concat_app, IH. Qed.

Lemma t_entries_node h cs : t_entries (RNode h cs) = f_entries cs.
Proof.
  unfold t_entries, f_entries. change (t_leaves (RNode h cs)) with (concat (t_leaves <$> cs)).
  rewrite concat_concat. by rewrite <-list_fmap_compose.
Qed.

Section trees.
Context {S : Type} {B3 : Blake3} {CS : ChunkStore S}.

(** Every node of the tree can be loaded through its descriptor. *)
Fixpoint tree_in (s : S) (t : rtree) : Prop :=
  match t with
  | RLeaf g => leaf_in s g
  | RNode h cs =>
      h < MAX_TREE_DEPTH ∧ cs ≠ [] ∧
      load_node s (t_ref (RNode h cs)) = Ok (V2Internal h (t_ref <$> cs)) ∧
      foldr and True (map (tree_in s) cs)
  end.

Lemma foldr_and {A} (P : A → Prop) l : foldr and True (map P l) ↔ Forall P l.
Proof.
  induction l as [|x l IH]; cbn; [by split|]. by rewrite Forall_cons, IH.
Qed.

Lemma tree_in_node s h cs :
  tree_in s (RNode h cs) ↔
  h < MAX_TREE_DEPTH ∧ cs ≠ [] ∧
  load_node s (t_ref (RNode h cs)) = Ok (V2Internal h (t_ref <$> cs)) ∧ Forall (tree_in s) cs.
Proof. cbn [tree_in]. by rewrite foldr_and. Qed.

(** The last entry of a tree has the maximum path of its descriptor. *)
Lemma t_last s t :
  tree_in s t → ∃ e, last (t_entries t) = Some e ∧ fe_path e = rr_max_path (t_ref t).
Proof.
  induction t as [g|h cs IH] using rtree_ind'.
  - intros (_ & (Hne & _) & _). unfold t_entries. cbn [t_leaves concat t_ref]. rewrite app_nil_r.
    destruct g as [|e g]; [done|]. exists (List.last g e). split; [|done].
    destruct g as [|e' g _] using rev_ind; [done|].
    rewrite List.last_last, app_comm_cons. apply last_snoc.
  - rewrite tree_in_node. intros (_ & Hne & _ & Hcs). rewrite t_entries_node.
    destruct cs as [|c cs _] using rev_ind; [done|].
    apply Forall_app in Hcs as [_ [Hc _]%Forall_cons]. apply Forall_app in IH as [_ [IH _]%Forall_cons].
    destruct (IH Hc) as (e & He & Hp). exists e. split.
    + rewrite f_entries_app. unfold f_entries at 2. csimpl. rewrite app_nil_r, last_app, He. done.
    + rewrite Hp. cbn [t_ref]. change (map t_ref (cs ++ [c])) with (t_ref <$> (cs ++ [c])).
      rewrite fmap_app. csimpl. destruct cs as [|c' cs]; [done|]. csimpl.
      cbn [parent_ref rr_max_path]. by rewrite List.last_last.
Qed.

Lemma t_entries_nonempty s t : tree_in s t → t_entries t ≠ [].
Proof. intros (e & He & _)%t_last E. by rewrite E in He. Qed.

(** Two stored trees with the same hash are the same tree. *)
Lemma load_node_hash s r1 r2 n1 n2 :
  load_node s r1 = Ok n1 → load_node s r2 = Ok n2 → rr_hash r1 = rr_hash r2 → n1 = n2.
Proof.
  unfold load_node, validate_loaded_node. intros H1 H2 E. rewrite E in H1.
  destruct (validate_range r1) as [[]|]; [|done]. destruct (validate_range r2) as [[]|]; [|done].
  destruct (cs_get (rr_hash r2) s) as [b|]; [|done].
  destruct (negb _ || _); [done|]. destruct (negb _ || _) in H2; [done|].
  destruct (decode_node b) as [n|]; [|done].
  destruct (validate_descriptor_for_node r1 _ _); [|done].
  destruct (validate_descriptor_for_node r2 _ _); [|done]. congruence.
Qed.

Lemma tree_in_load s t :
  tree_in s t → load_node s (t_ref t)
    = Ok (match t with RLeaf g => V2Leaf g | RNode h cs => V2Internal h (t_ref <$> cs) end).
Proof.
  destruct t as [g|h cs]; [intros (H1 & H2 & H3); by apply load_leaf|].
  by intros (_ & _ & H & _)%tree_in_node.
Qed.

Lemma tree_hash_inj s t1 t2 :
  tree_in s t1 → tree_in s t2 → rr_hash (t_ref t1) = rr_hash (t_ref t2) → t1 = t2.
Proof.
  revert t2. induction t1 as [g|h cs IH] using rtree_ind'; intros t2 H1 H2 E;
    pose proof (load_node_hash _ _ _ _ _ (tree_in_load _ _ H1) (tree_in_load _ _ H2) E) as En;
    destruct t2 as [g'|h' cs']; try done; injection En; intros.
  - congruence.
  - subst h'. f_equal. apply tree_in_node in H1 as (_ & _ & _ & H1).
    apply tree_in_node in H2 as (_ & _ & _ & H2).
    clear E En. revert cs' H2 H. induction IH as [|c cs Hc _ IHcs]; intros [|c' cs'] H2 E; try done.
    csimpl in E. injection E as E1 E2. apply Forall_cons in H1 as [H1 H1'], H2 as [H2 H2'].
    f_equal; [apply Hc; [done..|by rewrite E1]|by apply IHcs].
Qed.

(** ** Alignment *)

Record forest_ok (s : S) (ts : list rtree) : Prop := {
  fo_in : Forall (tree_in s) ts;
  fo_entries : entries_ok (f_entries ts);
}.

Lemma forest_ok_app s a b : forest_ok s (a ++ b) → forest_ok s a ∧ forest_ok s b.
Proof.
  intros [[H1 H2]%Forall_app H3]. rewrite f_entries_app in H3. apply entries_ok_app in H3 as [??].
  done.
Qed.

Lemma forest_sorted s ts : forest_ok s ts → ssorted fe_path (f_entries ts).
Proof. intros [_ [(_ & _ & ?)%validate_entries_ok _]]. done. Qed.

Lemma sorted_last l e x : ssorted fe_path l → last l = Some e → x ∈ l → ¬ fe_path e ≺ fe_path x.
Proof.
  intros Hs Hl Hx. apply last_Some in Hl as [l' ->]. apply ssorted_app in Hs as (Hlt & _ & _).
  apply elem_of_app in Hx as [Hx| ->%list_elem_of_singleton].
  - intros H. eapply bytes_lt_asym; [exact H|]. apply Hlt; [done|by left].
  - by apply (irreflexivity bytes_lt).
Qed.

(** A window that ends at a common path splits the diff. *)
Lemma window_split l x r y e e' :
  ssorted fe_path (l ++ x) → ssorted fe_path (r ++ y) →
  last l = Some e → last r = Some e' → fe_path e = fe_path e' →
  diff_entries (l ++ x) (r ++ y) = diff_entries l r ++ diff_entries x y.
Proof.
  intros H1 H2 He He' Ep. pose proof H1 as (X1 & S1 & _)%ssorted_app.
  pose proof H2 as (X2 & S2 & _)%ssorted_app.
  assert (e ∈ l) as Hl by (by apply last_Some_elem_of).
  assert (e' ∈ r) as Hr by (by apply last_Some_elem_of).
  apply diff_entries_app; intros a b Ha Hb.
  - pose proof (sorted_last l e a S1 He Ha) as Hn. rewrite Ep in Hn.
    pose proof (X2 e' b Hr Hb). destruct (bytes_trichotomy (fe_path a) (fe_path e')) as [?|[E|?]];
      [by trans (fe_path e')|by rewrite E|done].
  - pose proof (sorted_last r e' a S2 He' Ha) as Hn. rewrite <-Ep in Hn.
    pose proof (X1 e b Hl Hb). destruct (bytes_trichotomy (fe_path a) (fe_path e)) as [?|[E|?]];
      [by trans (fe_path e)|by rewrite E|done].
Qed.

Lemma f_last s l t :
  tree_in s t → ∃ e, last (f_entries (l ++ [t])) = Some e ∧ fe_path e = rr_max_path (t_ref t).
Proof.
  intros (e & He & Hp)%t_last. exists e. split; [|done]. rewrite f_entries_app.
  unfold f_entries at 2. csimpl. by rewrite app_nil_r, last_app, He.
Qed.

(** Both windows are closed at the same path, or nothing is left. *)
Definition window_closed (l r x y : list rtree) : Prop :=
  (x = [] ∧ y = []) ∨
  ∃ e e', last (f_entries l) = Some e ∧ last (f_entries r) = Some e' ∧ fe_path e = fe_path e'.

Lemma closed_cons_l t l r x y :
  window_closed l r x y → window_closed (t :: l) r x y.
Proof.
  intros [?|(e & e' & He & He' & Hp)]; [by left|]. right. exists e, e'. split_and!; [|done..].
  change (t :: l) with ([t] ++ l). by rewrite f_entries_app, last_app, He.
Qed.
Lemma closed_cons_r t l r x y :
  window_closed l r x y → window_closed l (t :: r) x y.
Proof.
  intros [?|(e & e' & He & He' & Hp)]; [by left|]. right. exists e, e'. split_and!; [done| |done].
  change (t :: r) with ([t] ++ r). by rewrite f_entries_app, last_app, He'.
Qed.

Lemma closed_pair s t1 t2 x y :
  tree_in s t1 → tree_in s t2 → rr_max_path (t_ref t1) = rr_max_path (t_ref t2) →
  window_closed [t1] [t2] x y.
Proof.
  intros H1 H2 E. right. destruct (f_last s [] t1 H1) as (e & He & Hp).
  destruct (f_last s [] t2 H2) as (e' & He' & Hp'). exists e, e'. split_and!; [done..|congruence].
Qed.

Lemma drift_trees s ts1 ts2 :
  Forall (tree_in s) ts1 → Forall (tree_in s) ts2 → ts1 ≠ [] → ts2 ≠ [] →
  ∃ l r x y, drift_window (t_ref <$> ts1) (t_ref <$> ts2)
      = (t_ref <$> l, t_ref <$> r, t_ref <$> x, t_ref <$> y)
    ∧ ts1 = l ++ x ∧ ts2 = r ++ y ∧ l ≠ [] ∧ window_closed l r x y.
Proof.
  intros H1 H2. revert ts2 H2. induction H1 as [|t1 ts1 Ht1 H1 IH1]; intros ts2 H2 Hne1 Hne2; [done|].
  clear Hne1. induction H2 as [|t2 ts2 Ht2 H2 IH2]; [done|]. csimpl.
  change (drift_window (t_ref t1 :: (t_ref <$> ts1)) (t_ref t2 :: (t_ref <$> ts2))) with
    (match bcmp (rr_max_path (t_ref t1)) (rr_max_path (t_ref t2)) with
     | Eq => ([t_ref t1], [t_ref t2], t_ref <$> ts1, t_ref <$> ts2)
     | Lt => match t_ref <$> ts1 with
             | [] => ([t_ref t1], t_ref t2 :: (t_ref <$> ts2), [], [])
             | _ => let '(l, r, x, y) := drift_window (t_ref <$> ts1) (t_ref t2 :: (t_ref <$> ts2)) in
                    (t_ref t1 :: l, r, x, y)
             end
     | Gt => match t_ref <$> ts2 with
             | [] => (t_ref t1 :: (t_ref <$> ts1), [t_ref t2], [], [])
             | _ => let '(l, r, x, y) := drift_window (t_ref t1 :: (t_ref <$> ts1)) (t_ref <$> ts2) in
                    (l, t_ref t2 :: r, x, y)
             end
     end).
  destruct (bcmp_spec (rr_max_path (t_ref t1)) (rr_max_path (t_ref t2))) as [E|E|E].
  - exists [t1], [t2], ts1, ts2. split_and!; [done..|by eapply closed_pair].
  - destruct ts1 as [|t1' ts1]; csimpl.
    { exists [t1], (t2 :: ts2), [], []. rewrite !app_nil_r. split_and!; [done..|by left]. }
    destruct (IH1 (t2 :: ts2)) as (l & r & x & y & Hd & E1 & E2 & Hl & Hc); [by constructor|done..|].
    csimpl in Hd. rewrite Hd. exists (t1 :: l), r, x, y. rewrite E1.
    split_and!; [done..|by apply closed_cons_l].
  - destruct ts2 as [|t2' ts2]; csimpl.
    { exists (t1 :: ts1), [t2], [], []. rewrite !app_nil_r. split_and!; [done..|by left]. }
    destruct IH2 as (l & r & x & y & Hd & E1 & E2 & Hl & Hc); [done..|].
    csimpl in Hd. rewrite Hd. exists l, (t2 :: r), x, y. rewrite E2.
    split_and!; [done..|by apply closed_cons_r].
Qed.

(** The windows of two forests, as forests. *)
Definition refs_of (w : list rtree * list rtree) : list RangeRef * list RangeRef :=
  (t_ref <$> w.1, t_ref <$> w.2).
Definition w_diff (w : list rtree * list rtree) : list FileDelta :=
  diff_entries (f_entries w.1) (f_entries w.2).

Lemma closed_split s l r x y :
  forest_ok s (l ++ x) → forest_ok s (r ++ y) → window_closed l r x y →
  w_diff (l ++ x, r ++ y) = w_diff (l, r) ++ w_diff (x, y).
Proof.
  intros H1%forest_sorted H2%forest_sorted. rewrite f_entries_app in H1, H2.
  unfold w_diff. cbn [fst snd]. rewrite !f_entries_app.
  intros [[-> ->]|(e & e' & He & He' & Hp)].
  - cbn [f_entries fmap list_fmap concat]. by rewrite !app_nil_r.
  - by eapply window_split.
Qed.

Lemma align_single ts1 ts2 :
  ∃ tws, [(t_ref <$> ts1, t_ref <$> ts2)] = refs_of <$> tws
    ∧ concat (fst <$> tws) = ts1 ∧ concat (snd <$> tws) = ts2
    ∧ w_diff (ts1, ts2) = concat (w_diff <$> tws).
Proof. exists [(ts1, ts2)]. csimpl. by rewrite !app_nil_r. Qed.

Lemma align_trees s fuel ts1 ts2 :
  (length ts1 ≤ fuel)%nat → forest_ok s ts1 → forest_ok s ts2 →
  ∃ tws, align_loop fuel (t_ref <$> ts1) (t_ref <$> ts2) = refs_of <$> tws
    ∧ concat (fst <$> tws) = ts1 ∧ concat (snd <$> tws) = ts2
    ∧ w_diff (ts1, ts2) = concat (w_diff <$> tws).
Proof.
  revert ts1 ts2. induction fuel as [|fuel IH]; intros ts1 ts2 Hf H1 H2.
  all: destruct ts1 as [|t1 ts1]; destruct ts2 as [|t2 ts2]; try (simpl in Hf; lia).
  1,3: by exists [].
  1,2,3: apply align_single.
  pose proof (fo_in _ _ H1) as F1. pose proof (fo_in _ _ H2) as F2.
  assert (∃ l r x y,
    align_loop (Datatypes.S fuel) (t_ref <$> t1 :: ts1) (t_ref <$> t2 :: ts2)
      = refs_of (l, r) :: align_loop fuel (t_ref <$> x) (t_ref <$> y)
    ∧ t1 :: ts1 = l ++ x ∧ t2 :: ts2 = r ++ y ∧ l ≠ [] ∧ window_closed l r x y)
    as (l & r & x & y & -> & E1 & E2 & Hl & Hc).
  { csimpl. cbn [align_loop]. destruct (same_span (t_ref t1) (t_ref t2)) eqn:Es.
    - exists [t1], [t2], ts1, ts2. split_and!; [done..|].
      apply andb_prop in Es as [_ Es%beq_true].
      apply Forall_cons in F1 as [? _], F2 as [? _]. by eapply closed_pair.
    - destruct (drift_trees s _ _ F1 F2) as (l & r & x & y & Hd & ?); [done..|].
      csimpl in Hd. rewrite Hd. by exists l, r, x, y. }
  rewrite E1, E2 in *. pose proof (closed_split s l r x y H1 H2 Hc) as Hw.
  apply forest_ok_app in H1 as [_ H1], H2 as [_ H2].
  destruct (IH x y) as (tws & -> & C1 & C2 & Hd); [|done..|].
  { rewrite length_app in Hf. destruct l; [done|]. simpl in Hf. lia. }
  exists ((l, r) :: tws). csimpl. rewrite C1, C2, Hw, Hd. done.
Qed.
End trees.

(** * Running the traversal *)

Definition sum_over {A} (f : A → N) (l : list A) : N := foldr N.add 0 (f <$> l).

Lemma sum_over_cons {A} (f : A → N) x l : sum_over f (x :: l) = f x + sum_over f l.
Proof. done. Qed.
Lemma sum_over_one {A} (f : A → N) x : sum_over f [x] = f x.
Proof. unfold sum_over. csimpl. apply N.add_0_r. Qed.
Lemma sum_over_app {A} (f : A → N) l1 l2 : sum_over f (l1 ++ l2) = sum_over f l1 + sum_over f l2.
Proof. induction l1 as [|x l1 IH]; [done|]. cbn [app]. rewrite !sum_over_cons, IH. lia. Qed.
Lemma sum_over_perm {A} (f : A → N) l1 l2 : l1 ≡ₚ l2 → sum_over f l1 = sum_over f l2.
Proof. induction 1; rewrite ?sum_over_cons in *; lia. Qed.

Definition t_expand (t : rtree) : list rtree :=
  match t with RLeaf _ => [t] | RNode _ cs => cs end.
Definition f_expand (ts : list rtree) : list rtree := concat (t_expand <$> ts).
Definition t_inner (t : rtree) : N := match t with RLeaf _ => 0 | RNode _ _ => 1 end.

Lemma forest_nodes_sum ts : forest_nodes ts = sum_over t_nodes ts.
Proof. done. Qed.

Lemma f_expand_entries ts : f_entries (f_expand ts) = f_entries ts.
Proof.
  unfold f_expand. induction ts as [|t ts IH]; [done|]. csimpl. rewrite f_entries_app, IH.
  change (f_entries (t :: ts)) with (t_entries t ++ f_entries ts). f_equal.
  destruct t as [g|h cs]; cbn [t_expand]; [|by rewrite t_entries_node].
  unfold f_entries. csimpl. apply app_nil_r.
Qed.

Lemma f_expand_nodes ts : forest_nodes (f_expand ts) + sum_over t_inner ts = forest_nodes ts.
Proof.
  unfold f_expand. induction ts as [|t ts IH]; [done|]. csimpl. rewrite forest_app, sum_over_cons.
  change (forest_nodes (t :: ts)) with (t_nodes t + forest_nodes ts).
  assert (forest_nodes (t_expand t) + t_inner t = t_nodes t); [|lia].
  destruct t as [g|h cs]; [done|]. cbn [t_expand t_inner].
  change (t_nodes (RNode h cs)) with (1 + forest_nodes cs). lia.
Qed.

Definition w_nodes (w : list rtree * list rtree) : N := forest_nodes w.1 + forest_nodes w.2.
Definition w_entries (w : list rtree * list rtree) : N :=
  len (f_entries w.1) + len (f_entries w.2).

Section runs.
Context {S : Type} {B3 : Blake3} {CS : ChunkStore S} {CSL : ChunkStoreLaws S}.

Definition window_ok (s : S) (w : list rtree * list rtree) : Prop :=
  forest_ok s w.1 ∧ forest_ok s w.2.

Lemma f_expand_ok s ts : forest_ok s ts → forest_ok s (f_expand ts).
Proof.
  intros [H1 H2]. split; [|by rewrite f_expand_entries].
  unfold f_expand. apply Forall_concat, Forall_fmap. eapply Forall_impl; [exact H1|].
  intros [g|h cs] Ht; cbn [compose t_expand]; [by constructor|]. by apply tree_in_node in Ht as (_ & _ & _ & ?).
Qed.

Lemma expand_run s ts out b :
  Forall (tree_in s) ts → tb_nodes b + sum_over t_inner ts ≤ MAX_VISITED_NODES →
  expand_one_level s (t_ref <$> ts) out b
    = (Ok (out ++ (t_ref <$> f_expand ts)), charge b (sum_over t_inner ts)).
Proof.
  intros Hts. revert out b. induction Hts as [|t ts Ht Hts IH]; intros out b Hb.
  { csimpl. by rewrite app_nil_r, charge_0. }
  rewrite sum_over_cons in Hb. csimpl. unfold f_expand. csimpl. rewrite fmap_app, app_assoc.
  destruct t as [g|h cs].
  - cbn [t_ref leaf_ref rr_height]. rewrite N.eqb_refl. rewrite IH by done.
    by rewrite sum_over_cons.
  - pose proof Ht as (Hh & _ & Hl & _)%tree_in_node.
    rewrite (proj2 (N.eqb_neq _ _)) by (cbn; lia). cbn [t_inner] in Hb.
    erewrite st_bind_run by (apply budget_node_run; [cbn; lia|lia]).
    unfold st_bind, st_lift. rewrite Hl. rewrite IH by (cbn; lia).
    rewrite charge_charge, sum_over_cons. done.
Qed.

Lemma all_leaves ts :
  existsb (λ r, 0 <? rr_height r) (t_ref <$> ts) = false → ∃ gs, ts = RLeaf <$> gs.
Proof.
  induction ts as [|[g|h cs] ts IH]; csimpl; [by exists []|..].
  - intros H. destruct (IH H) as [gs ->]. by exists (g :: gs).
  - intros [H _]%orb_false_elim. apply N.ltb_ge in H. cbn in H. lia.
Qed.

Lemma some_inner ts :
  existsb (λ r, 0 <? rr_height r) (t_ref <$> ts) = true → 1 ≤ sum_over t_inner ts.
Proof.
  induction ts as [|[g|h cs] ts IH]; csimpl; [done|..]; rewrite sum_over_cons.
  - intros H. by apply IH.
  - intros _. cbn [t_inner]. lia.
Qed.

Lemma leaves_forest gs :
  t_ref <$> (RLeaf <$> gs) = leaf_ref <$> gs ∧ f_entries (RLeaf <$> gs) = concat gs
  ∧ forest_nodes (RLeaf <$> gs) = len gs.
Proof.
  induction gs as [|g gs (IH1 & IH2 & IH3)]; [done|]. csimpl. rewrite IH1. split_and!; [done|..].
  - change (f_entries (RLeaf g :: (RLeaf <$> gs))) with (t_entries (RLeaf g) ++ f_entries (RLeaf <$> gs)).
    rewrite IH2. unfold t_entries. cbn. by rewrite app_nil_r.
  - change (forest_nodes (RLeaf g :: (RLeaf <$> gs))) with (1 + forest_nodes (RLeaf <$> gs)).
    rewrite IH3, len_cons. done.
Qed.

(** Reading the leaves of a window. *)
Lemma span_run s gs b :
  forest_ok s (RLeaf <$> gs) → tb_nodes b + len gs ≤ MAX_VISITED_NODES →
  tb_entries b + len (concat gs) ≤ MAX_LOADED_ENTRIES →
  load_leaf_span (t_ref <$> (RLeaf <$> gs)) s b = (Ok (concat gs), charge_span b gs).
Proof.
  intros [H1 H2] Hn He. destruct (leaves_forest gs) as (-> & E & _). rewrite E in H2.
  apply load_leaf_span_run; try done. rewrite Forall_fmap in H1. exact H1.
Qed.

(** What one window does: it is skipped with no difference, replaced by its
    children, or diffed. *)
Record window_done (s : S) (w : DiffWork) (b : TraversalBudget) (nodes entries : N)
    (diff : list FileDelta) (w' : DiffWork) (b' : TraversalBudget)
    (pushed : list (list rtree * list rtree)) (new : list FileDelta) : Prop := {
  wd_tasks : dw_tasks w' = (refs_of <$> pushed) ++ dw_tasks w;
  wd_raw : dw_raw w' = dw_raw w ++ new;
  wd_ok : Forall (window_ok s) pushed;
  wd_diff : new ++ concat (w_diff <$> pushed) ≡ₚ diff;
  wd_fuel : sum_over (λ p, 1 + w_nodes p) pushed ≤ nodes;
  wd_nodes : tb_nodes b' + sum_over w_nodes pushed ≤ tb_nodes b + nodes;
  wd_entries : tb_entries b' + sum_over w_entries pushed ≤ tb_entries b + entries;
}.

Lemma same_subtree_inv s l r :
  Forall (tree_in s) l → Forall (tree_in s) r →
  same_subtree (t_ref <$> l) (t_ref <$> r) = true → l = r.
Proof.
  intros Hl Hr. destruct l as [|t1 [|]], r as [|t2 [|]]; try done. csimpl.
  intros [_ E%beq_true]%andb_prop. apply Forall_cons in Hl as [Hl _], Hr as [Hr _].
  f_equal. by apply (tree_hash_inj s).
Qed.

Lemma diff_window_run s w tw b :
  window_ok s tw → tb_nodes b + w_nodes tw ≤ MAX_VISITED_NODES →
  tb_entries b + w_entries tw ≤ MAX_LOADED_ENTRIES →
  ∃ w' b' pushed new, diff_window s w (refs_of tw) b = (Ok w', b')
    ∧ window_done s w b (w_nodes tw) (w_entries tw) (w_diff tw) w' b' pushed new.
Proof.
  destruct tw as [l r]. intros [Hl Hr] Hn He. unfold w_nodes, w_entries in *. cbn [fst snd] in *.
  unfold diff_window, refs_of. cbn [fst snd].
  destruct (same_subtree _ _) eqn:Es.
  { apply (same_subtree_inv s) in Es as ->; [|apply Hl|apply Hr].
    eexists _, b, [], []. split; [done|]. split; cbn; rewrite ?app_nil_r; try done; try lia.
    unfold w_diff. cbn. by rewrite diff_entries_refl. }
  destruct (existsb _ _) eqn:Ex.
  - assert (1 ≤ sum_over t_inner l + sum_over t_inner r) as Hi.
    { rewrite <-sum_over_app. apply some_inner. by rewrite fmap_app. }
    pose proof (f_expand_nodes l) as Nl. pose proof (f_expand_nodes r) as Nr.
    erewrite st_bind_run by (apply expand_run; [apply Hl|lia]).
    erewrite st_bind_run by (apply expand_run; [apply Hr|cbn; lia]).
    eexists _, _, [(f_expand l, f_expand r)], []. split; [done|]. split; cbn [app].
    + done.
    + by rewrite app_nil_r.
    + constructor; [|constructor]. split; by apply f_expand_ok.
    + csimpl. rewrite app_nil_r. unfold w_diff. cbn [fst snd]. by rewrite !f_expand_entries.
    + rewrite sum_over_one. unfold w_nodes. cbn [fst snd]. lia.
    + rewrite sum_over_one. unfold w_nodes, charge. cbn [fst snd tb_nodes]. lia.
    + rewrite sum_over_one. unfold w_entries, charge. cbn [fst snd tb_entries].
      rewrite !f_expand_entries. lia.
  - rewrite existsb_app in Ex. apply orb_false_elim in Ex as [[gl ->]%all_leaves [gr ->]%all_leaves].
    destruct (leaves_forest gl) as (_ & El & Ml). destruct (leaves_forest gr) as (_ & Er & Mr).
    rewrite El, Er, Ml, Mr in *.
    erewrite st_bind_run by (apply span_run; [done|lia..]).
    erewrite st_bind_run by (apply span_run; [done|cbn; lia..]).
    eexists _, _, [], _. split; [done|]. split; [done..| | |cbn; lia|cbn; lia].
    + unfold w_diff. cbn [fst snd fmap list_fmap concat]. by rewrite El, Er, app_nil_r.
    + cbn. lia.
Qed.

Lemma window_done_trans s w b n1 e1 d1 w1 b1 p1 x1 n2 e2 d2 w2 b2 p2 x2 :
  window_done s w b n1 e1 d1 w1 b1 p1 x1 → window_done s w1 b1 n2 e2 d2 w2 b2 p2 x2 →
  window_done s w b (n1 + n2) (e1 + e2) (d1 ++ d2) w2 b2 (p2 ++ p1) (x1 ++ x2).
Proof.
  intros [T1 R1 O1 D1 F1 N1 E1] [T2 R2 O2 D2 F2 N2 E2]. split.
  - by rewrite T2, T1, fmap_app, app_assoc.
  - by rewrite R2, R1, app_assoc.
  - by apply Forall_app.
  - rewrite <-D1, <-D2, fmap_app, concat_app. solve_Permutation.
  - rewrite sum_over_app. lia.
  - rewrite sum_over_app. lia.
  - rewrite sum_over_app. lia.
Qed.

Lemma windows_run s tws w b :
  Forall (window_ok s) tws → tb_nodes b + sum_over w_nodes tws ≤ MAX_VISITED_NODES →
  tb_entries b + sum_over w_entries tws ≤ MAX_LOADED_ENTRIES →
  ∃ w' b' pushed new, st_fold (diff_window s) w (refs_of <$> tws) b = (Ok w', b')
    ∧ window_done s w b (sum_over w_nodes tws) (sum_over w_entries tws)
        (concat (w_diff <$> tws)) w' b' pushed new.
Proof.
  intros Hok. revert w b. induction Hok as [|tw tws Htw _ IH]; intros w b Hn He.
  { exists w, b, [], []. split; [done|].
    split; cbn; rewrite ?app_nil_r; try done; unfold sum_over; cbn; lia. }
  rewrite sum_over_cons in Hn, He.
  destruct (diff_window_run s w tw b Htw) as (w1 & b1 & p1 & x1 & Hr1 & H1); [lia..|].
  pose proof (wd_nodes _ _ _ _ _ _ _ _ _ _ H1). pose proof (wd_entries _ _ _ _ _ _ _ _ _ _ H1).
  destruct (IH w1 b1) as (w2 & b2 & p2 & x2 & Hr2 & H2); [lia..|].
  exists w2, b2, (p2 ++ p1), (x1 ++ x2). csimpl. split.
  - by erewrite st_bind_run by exact Hr1.
  - rewrite !sum_over_cons. by eapply window_done_trans.
Qed.

Lemma sum_windows tws :
  sum_over w_nodes tws = w_nodes (concat (fst <$> tws), concat (snd <$> tws)) ∧
  sum_over w_entries tws = w_entries (concat (fst <$> tws), concat (snd <$> tws)).
Proof.
  induction tws as [|[l r] tws [IH1 IH2]]; [done|]. rewrite !sum_over_cons, IH1, IH2. csimpl.
  unfold w_nodes, w_entries. cbn [fst snd]. rewrite !forest_app, !f_entries_app, !len_app. lia.
Qed.

Lemma windows_ok s tws :
  forest_ok s (concat (fst <$> tws)) → forest_ok s (concat (snd <$> tws)) →
  Forall (window_ok s) tws.
Proof.
  induction tws as [|[l r] tws IH]; [done|]. csimpl. intros [H1 H2]%forest_ok_app [H3 H4]%forest_ok_app.
  constructor; [by split|by apply IH].
Qed.

Lemma fmap_rev {A B} (f : A → B) l : f <$> rev l = rev (f <$> l).
Proof. apply map_rev. Qed.

Lemma concat_perm_diff {A} (l1 l2 : list (list A)) : l1 ≡ₚ l2 → concat l1 ≡ₚ concat l2.
Proof.
  induction 1; cbn [concat]; [done|by f_equiv| |by etrans]. solve_Permutation.
Qed.

Lemma sum_over_rev {A} (f : A → N) l : sum_over f (rev l) = sum_over f l.
Proof. apply sum_over_perm. symmetry. apply Permutation_rev. Qed.

(** The whole traversal, from a stack of tasks. *)
Lemma diff_tasks_run (fuel : nat) s tasks raw stats b :
  Forall (window_ok s) tasks →
  sum_over (λ p, 1 + w_nodes p) tasks ≤ N.of_nat fuel →
  tb_nodes b + sum_over w_nodes tasks ≤ MAX_VISITED_NODES →
  tb_entries b + sum_over w_entries tasks ≤ MAX_LOADED_ENTRIES →
  ∃ w b', diff_tasks fuel s {| dw_tasks := refs_of <$> tasks; dw_raw := raw; dw_stats := stats |} b
      = (Ok w, b')
    ∧ dw_raw w ≡ₚ raw ++ concat (w_diff <$> tasks).
Proof.
  revert tasks raw stats b. induction fuel as [|fuel IH]; intros tasks raw stats b Hok Hf Hn He.
  all: destruct tasks as [|[l r] tasks].
  1,3: eexists _, b; split; [done|]; cbn; by rewrite app_nil_r.
  { rewrite sum_over_cons in Hf. lia. }
  rewrite sum_over_cons in Hf, Hn, He. apply Forall_cons in Hok as [[Hl Hr] Hok].
  csimpl. cbn [diff_tasks dw_tasks dw_raw dw_stats refs_of fst snd].
  unfold align_range_windows. rewrite length_fmap.
  destruct (align_trees s (length l) l r) as (tws & -> & C1 & C2 & Hd); [done..|].
  rewrite <-(fmap_rev refs_of). destruct (sum_windows tws) as [Sn Se]. rewrite C1, C2 in Sn, Se.
  destruct (windows_run s (rev tws)
    {| dw_tasks := refs_of <$> tasks; dw_raw := raw; dw_stats := stats |} b)
    as ([tasks' raw' stats'] & b1 & pushed & new & Hrun & [WT WR WO WD WF WN WE]).
  { rewrite <-Permutation_rev. apply windows_ok; by rewrite ?C1, ?C2. }
  { rewrite sum_over_rev, Sn. lia. }
  { rewrite sum_over_rev, Se. lia. }
  cbn [dw_tasks dw_raw] in WT, WR. subst tasks' raw'.
  rewrite sum_over_rev in WF, WN, WE. rewrite Sn in WF, WN. rewrite Se in WE.
  erewrite st_bind_run by exact Hrun. rewrite <-fmap_app.
  destruct (IH (pushed ++ tasks) (raw ++ new) stats' b1) as (w & b2 & Hrun2 & Hraw).
  - by apply Forall_app.
  - rewrite sum_over_app. lia.
  - rewrite sum_over_app. lia.
  - rewrite sum_over_app. lia.
  - exists w, b2. split; [exact Hrun2|]. rewrite Hraw, fmap_app, concat_app.
    assert (concat (w_diff <$> rev tws) ≡ₚ w_diff (l, r)) as Hp.
    { rewrite Hd. apply concat_perm_diff. rewrite fmap_rev. symmetry. apply Permutation_rev. }
    rewrite <-Hp, <-WD. solve_Permutation.
Qed.

(** ** The tree over a vault *)

Lemma next_level_in s h ts :
  h < MAX_TREE_DEPTH → refs_ok h (t_ref <$> ts) → stored s (level_bytes h ts) →
  Forall (tree_in s) ts → Forall (tree_in s) (next_level h ts).
Proof.
  intros Hh Hr Hst Hts. destruct (level_groups h ts Hr) as [Hc Hg].
  rewrite <-Hc in Hts. unfold next_level. rewrite Forall_concat in Hts.
  apply Forall_fmap, Forall_forall. intros g Hin. rewrite Forall_forall in Hts, Hg.
  destruct (Hg g Hin) as (Hne & Hf & Ho). apply tree_in_node. split_and!; [done..| |by apply Hts].
  apply load_internal; [done..|]. apply Hst. unfold level_bytes. apply list_elem_of_fmap.
  by exists g.
Qed.

Lemma grow_in (k fuel : nat) h ts s :
  (k ≤ fuel)%nat → h + N.of_nat k ≤ MAX_TREE_DEPTH → len ts ≤ 16 ^ N.of_nat k →
  refs_ok h (t_ref <$> ts) → ts ≠ [] → Forall (tree_in s) ts →
  stored s (grow_bytes fuel h ts) → tree_in s (grow fuel h ts).
Proof.
  revert fuel h ts. induction k as [|k IH]; intros fuel h ts Hk Hh Hl Hr Hne Hts Hst.
  all: destruct ts as [|t [|t' ts]]; [done| |].
  1,3: assert (grow fuel h [t] = t) as -> by (by destruct fuel); by apply Forall_cons in Hts as [? _].
  { change (16 ^ N.of_nat 0) with 1 in Hl. rewrite !len_cons in Hl. lia. }
  set (ts' := t :: t' :: ts) in *. destruct fuel as [|fuel]; [lia|].
  assert (h < MAX_TREE_DEPTH) as Hh' by lia.
  change (grow (Datatypes.S fuel) h ts') with (grow fuel (h + 1) (next_level h ts')).
  change (grow_bytes (Datatypes.S fuel) h ts') with
    (level_bytes h ts' ++ grow_bytes fuel (h + 1) (next_level h ts')) in Hst.
  apply IH; [lia|lia|by apply next_level_pow|by apply next_level_ok|by apply next_level_nonempty|..].
  - apply next_level_in; [done..| |done]. intros b Hb. apply Hst, elem_of_app. by left.
  - intros b Hb. apply Hst, elem_of_app. by right.
Qed.

(** The forest below the root of a stored vault. *)
Definition root_forest (es : list FileEntry) : list rtree :=
  match es with [] => [] | _ => [grow 17 0 (leaf_level es)] end.

Lemma root_forest_ok es s :
  entries_ok es → stored s (written es) →
  forest_ok s (root_forest es) ∧ f_entries (root_forest es) = es
  ∧ root_ranges (root_of es) = t_ref <$> root_forest es
  ∧ forest_nodes (root_forest es) ≤ 317464.
Proof.
  intros Hes Hst. destruct (decide (es = [])) as [->|Hne].
  { split_and!; [split; [constructor|done]|done..]. }
  assert (root_forest es = [grow 17 0 (leaf_level es)]) as Er by (by destruct es).
  destruct (stored_tree es s Hes Hne Hst) as [_ Hlv Hn _ _].
  destruct (leaf_level_groups es Hes) as (Hc & _ & _). destruct (leaf_forest es) as [F1 F2].
  assert (f_entries (root_forest es) = es) as Ee.
  { rewrite Er. unfold f_entries. cbn [fmap list_fmap concat]. rewrite app_nil_r. unfold t_entries.
    by rewrite Hlv, F2. }
  split_and!; [split|done|rewrite Er; by destruct es|].
  - rewrite Er. constructor; [|constructor].
    apply (grow_in 5 17); [lia|done|by apply leaf_level_pow|by apply leaf_level_ok|
      by apply leaf_level_nonempty| |].
    + unfold leaf_level. apply Forall_fmap. pose proof (written_leaves es s Hes Hst) as Hw. exact Hw.
    + intros b Hb. apply Hst. unfold written. apply elem_of_app. by right.
  - by rewrite Ee.
  - rewrite Er. unfold forest_nodes. cbn [map foldr]. rewrite F1 in Hn.
    pose proof (leaf_count_bound es Hes) as Hb.
    assert (len (leaf_level es) = len (cut leaf_kind entry_record es)) as El
      by (unfold leaf_level; apply len_fmap). lia.
Qed.

(** The bytes under the root hash. *)
Definition root_blob (root : TreeV2Root) : bytes :=
  ROOT_MAGIC ++ le_bytes 4 (tv_version root) ++ le_bytes 8 (tv_total_files root)
  ++ match tv_child root with
     | Some child => [x01] ++ le_bytes 2 (rr_height child) ++ range_bytes child
     | None => [x00]
     end.

Lemma range_bytes_inj r1 r2 :
  range_typed r1 = true → range_valid r1 → range_typed r2 = true → range_valid r2 →
  rr_height r1 = rr_height r2 → range_bytes r1 = range_bytes r2 → r1 = r2.
Proof.
  intros T1 V1 T2 V2 Eh Eb. pose proof (decode_range_ref_reads r1 T1 V1 []) as H1.
  pose proof (decode_range_ref_reads r2 T2 V2 []) as H2. rewrite Eh, Eb, H2 in H1. congruence.
Qed.

Lemma root_blob_forest es1 es2 s :
  entries_ok es1 → entries_ok es2 → stored s (written es1) → stored s (written es2) →
  root_blob (root_of es1) = root_blob (root_of es2) → es1 = es2.
Proof.
  intros H1 H2 S1 S2 E. destruct (root_forest_ok es1 s H1 S1) as (F1 & E1 & R1 & _).
  destruct (root_forest_ok es2 s H2 S2) as (F2 & E2 & R2 & _).
  rewrite <-E1, <-E2. f_equal. unfold root_blob in E.
  apply app_inv_head in E. apply app_inj_1 in E as [_ E]; [|by rewrite !length_le_bytes].
  apply app_inj_1 in E as [_ E]; [|by rewrite !length_le_bytes].
  unfold root_ranges in R1, R2.
  destruct (decide (es1 = [])) as [->|N1], (decide (es2 = [])) as [->|N2]; [done|..].
  { by destruct es2. } { by destruct es1. }
  destruct (stored_tree es1 s H1 N1 S1) as [_ _ _ (h1 & Hh1 & <- & V1 & T1) _].
  destruct (stored_tree es2 s H2 N2 S2) as [_ _ _ (h2 & Hh2 & <- & V2 & T2) _].
  assert (∀ es, es ≠ [] → tv_child (root_of es) = Some (t_ref (grow 17 0 (leaf_level es)))
    ∧ root_forest es = [grow 17 0 (leaf_level es)]) as Hg by (by intros []).
  destruct (Hg _ N1) as [C1 G1], (Hg _ N2) as [C2 G2]. rewrite C1, C2 in E. rewrite G1, G2 in *.
  set (t1 := grow 17 0 (leaf_level es1)) in *. set (t2 := grow 17 0 (leaf_level es2)) in *.
  clearbody t1 t2. apply app_inv_head in E.
  apply app_inj_1 in E as [Eh Eb]; [|by rewrite !length_le_bytes].
  apply (f_equal le_val) in Eh.
  rewrite !le_val_le_bytes in Eh by (change (256 ^ N.of_nat 2) with 65536; unfold MAX_TREE_DEPTH in *; lia).
  f_equal. apply (tree_hash_inj s); [by destruct F1 as [[? _]%Forall_cons _]|by destruct F2 as [[? _]%Forall_cons _]|].
  f_equal. by apply range_bytes_inj.
Qed.

(** Sorting the raw deltas recovers the flat diff. *)
Lemma sort_raw raw es1 es2 :
  ssorted fe_path es1 → ssorted fe_path es2 → raw ≡ₚ diff_entries es1 es2 →
  sort_by delta_path raw = diff_entries es1 es2.
Proof.
  intros H1 H2 Hp. pose proof (diff_entries_sorted _ _ H1 H2) as Hs.
  rewrite (sort_by_perm_eq _ raw (diff_entries es1 es2)); [by apply sort_by_id| |done].
  rewrite Hp. by apply ssorted_NoDup.
Qed.

Lemma compute_deltas_v2_run es1 es2 s :
  entries_ok es1 → entries_ok es2 → stored s (written es1) → stored s (written es2) →
  len es1 + len es2 ≤ MAX_LOADED_ENTRIES →
  injective_on hash_bytes (λ b, b = root_blob (root_of es1) ∨ b = root_blob (root_of es2)) →
  ∃ stats, compute_deltas_with_stats_v2 s (root_of es1) (root_of es2)
    = Ok {| dr_deltas := detect_renames (diff_entries es1 es2); dr_stats := stats |}.
Proof.
  intros H1 H2 S1 S2 Hmax Hinj. unfold compute_deltas_with_stats_v2.
  rewrite (root_of_shape es1 s), (root_of_shape es2 s) by done.
  destruct (beq _ _) eqn:Eh.
  { apply beq_true in Eh. apply Hinj in Eh; [|by left|by right].
    apply (root_blob_forest _ _ s) in Eh as ->; [|done..].
    rewrite diff_entries_refl. by eexists. }
  destruct (root_forest_ok es1 s H1 S1) as (F1 & E1 & R1 & N1).
  destruct (root_forest_ok es2 s H2 S2) as (F2 & E2 & R2 & N2). rewrite R1, R2.
  destruct (diff_tasks_run (N.to_nat (MAX_VISITED_NODES + 2)) s [(root_forest es1, root_forest es2)] []
    {| nodes_visited := 1; nodes_skipped := 0; entries_materialized := 0 |} tb_default)
    as (w & b' & Hrun & Hraw).
  - by constructor.
  - rewrite sum_over_one. unfold w_nodes, MAX_VISITED_NODES. cbn [fst snd]. lia.
  - rewrite sum_over_one. unfold w_nodes, MAX_VISITED_NODES. cbn [fst snd tb_default tb_nodes]. lia.
  - rewrite sum_over_one. unfold w_entries. cbn [fst snd tb_default tb_entries]. by rewrite E1, E2.
  - cbn [fmap list_fmap refs_of fst snd concat app] in Hrun, Hraw. rewrite app_nil_r in Hraw.
    unfold w_diff in Hraw. cbn [fst snd] in Hraw. rewrite E1, E2 in Hraw.
    change (t_ref <$> root_forest es1, t_ref <$> root_forest es2)
      with (refs_of (root_forest es1, root_forest es2)).
    rewrite Hrun. cbn [fst]. exists (dw_stats w). f_equal. f_equal. f_equal. apply sort_raw; [| |done].
    + by destruct H1 as [(_ & _ & ?)%validate_entries_ok _].
    + by destruct H2 as [(_ & _ & ?)%validate_entries_ok _].
Qed.

(** * The theorems *)

(** C28: the recursive range-tree diff is the flat diff. For any two vaults
    stored in one store, within the entry budget, it succeeds and its deltas
    are those of the flat comparison of the two entry lists after rename
    detection; applied to the first vault they give the second. *)
Theorem tree_diff_is_flat_diff es1 es2 s :
  entries_ok es1 → entries_ok es2 → stored s (written es1) → stored s (written es2) →
  len es1 + len es2 ≤ MAX_LOADED_ENTRIES →
  injective_on hash_bytes (λ b, b = root_blob (root_of es1) ∨ b = root_blob (root_of es2)) →
  ∃ stats, compute_deltas_with_stats_v2 s (root_of es1) (root_of es2)
      = Ok {| dr_deltas := detect_renames (diff_entries es1 es2); dr_stats := stats |}
    ∧ apply_deltas (detect_renames (diff_entries es1 es2)) (entries_map es1) = entries_map es2.
Proof.
  intros H1 H2 S1 S2 Hmax Hinj.
  destruct (compute_deltas_v2_run es1 es2 s) as [stats Hrun]; [done..|].
  exists stats. split; [done|]. apply exact_delta_apply.
  eapply exact_delta_perm; [symmetry; apply detect_renames_spec|].
  destruct H1 as [(_ & _ & ?)%validate_entries_ok _]. destruct H2 as [(_ & _ & ?)%validate_entries_ok _].
  by apply diff_entries_spec.
Qed.
End runs.

Section versioned.
Context {S : Type} {B3 : Blake3} {FB : FlatBuffers} {CS : ChunkStore S} {CSL : ChunkStoreLaws S}.
Context (P : bytes → Prop).

(** A stored root of either version holds the vault [m]. *)
Definition vr_holds (s : S) (r : VersionedRoot) (m : vault) : Prop :=
  N.of_nat (size m) ≤ MAX_LOADED_ENTRIES ∧
  match r with
  | V1 r => vault_ok P m ∧ dirs_repr s (rn_children r) m ∧ rn_total_files r = N.of_nat (size m)
  | V2 r => ∃ es, r2_tree r = root_of es ∧ entries_ok es ∧ stored s (written es)
                  ∧ entries_map es = m
  end.

(** Equal root hashes mean equal trees. *)
Definition hashes_separate (r1 r2 : VersionedRoot) : Prop :=
  match r1, r2 with
  | V1 r1, V1 r2 => root_hash r1 = root_hash r2 → rn_children r1 = rn_children r2
  | V2 r1, V2 r2 =>
      injective_on hash_bytes (λ b, b = root_blob (r2_tree r1) ∨ b = root_blob (r2_tree r2))
  | _, _ => True
  end.

Lemma holds_load s r m :
  vr_holds s r m →
  ∃ es, vr_load_all_entries r s = Ok es ∧ ssorted fe_path es ∧ entries_map es = m.
Proof.
  destruct r as [r|r].
  - intros (Hmax & Hv & Hr & Ht). pose proof Hv as [Hm _]. exists (vault_entries m).
    split_and!; [by apply (vr_load_V1 P)|by apply vault_entries_ssorted|by apply vault_entries_map].
  - intros (Hmax & es & Hr & Hes & Hst & <-). exists es. pose proof Hes as [(_ & _ & Hs)%validate_entries_ok _].
    split_and!; [by apply vr_load_V2|done..].
Qed.

Lemma size_entries_map es : ssorted fe_path es → N.of_nat (size (entries_map es)) = len es.
Proof. intros Hs. unfold entries_map. rewrite size_kmap; [done|]. by apply ssorted_NoDup. Qed.

Lemma effects_perm ds1 ds2 : ds1 ≡ₚ ds2 → effects ds1 ≡ₚ effects ds2.
Proof. intros Hp. unfold effects. apply concat_perm_diff. by rewrite Hp. Qed.

(** The deltas between two roots of these vaults, whatever store they are
    read from. *)
Definition versioned_deltas (r1 r2 : VersionedRoot) (m1 m2 : vault) : list FileDelta :=
  match r1, r2 with
  | V1 r1, V1 r2 => root_deltas r1 r2 m1 m2
  | _, _ => detect_renames (diff_entries (vault_entries m1) (vault_entries m2))
  end.

Lemma holds_entries s r m :
  vr_holds s r m → vr_load_all_entries r s = Ok (vault_entries m) ∧ ssorted fe_path (vault_entries m)
                   ∧ entries_map (vault_entries m) = m.
Proof.
  intros (es & Hl & Hs & <-)%holds_load. rewrite <-(vault_entries_unique (entries_map es) es); [done| |done|done].
  apply keyed_entries_map.
Qed.

Lemma versioned_deltas_run s r1 r2 m1 m2 :
  vr_holds s r1 m1 → vr_holds s r2 m2 → hashes_separate r1 r2 →
  N.of_nat (size m1) + N.of_nat (size m2) ≤ MAX_LOADED_ENTRIES →
  compute_versioned_deltas s r1 r2 = Ok (sort_by delta_path (versioned_deltas r1 r2 m1 m2))
    ∧ exact_delta (effects (versioned_deltas r1 r2 m1 m2)) m1 m2.
Proof.
  intros H1 H2 Hsep Hmax. unfold compute_versioned_deltas, compute_versioned_deltas_with_stats.
  destruct (holds_entries _ _ _ H1) as (L1 & S1 & E1). destruct (holds_entries _ _ _ H2) as (L2 & S2 & E2).
  assert (exact_delta (effects (detect_renames (diff_entries (vault_entries m1) (vault_entries m2)))) m1 m2) as Hflat.
  { eapply exact_delta_perm; [symmetry; apply detect_renames_spec|]. rewrite <-E1, <-E2 at 2. by apply diff_entries_spec. }
  destruct r1 as [r1|r1], r2 as [r2|r2]; cbn [versioned_deltas].
  - destruct H1 as (_ & V1 & R1 & _), H2 as (_ & V2 & R2 & _).
    destruct (compute_deltas_spec P s r1 r2 m1 m2 V1 V2 R1 R2 Hsep) as [Hds Hx].
    unfold compute_deltas in Hds. destruct (compute_deltas_with_stats s r1 r2) as [r|]; [|done].
    injection Hds as ->. by split.
  - by rewrite L1, L2.
  - by rewrite L1, L2.
  - destruct H1 as (_ & es1 & T1 & O1 & W1 & M1), H2 as (_ & es2 & T2 & O2 & W2 & M2).
    pose proof O1 as [(_ & _ & Z1)%validate_entries_ok _]. pose proof O2 as [(_ & _ & Z2)%validate_entries_ok _].
    rewrite <-M1, <-M2, !size_entries_map in Hmax by done. cbn in Hsep. rewrite T1, T2 in *.
    destruct (compute_deltas_v2_run es1 es2 s) as [stats ->]; [done..|].
    assert (es1 = vault_entries m1) as -> by (apply vault_entries_unique; [rewrite <-M1; apply keyed_entries_map|done..]).
    assert (es2 = vault_entries m2) as -> by (apply vault_entries_unique; [rewrite <-M2; apply keyed_entries_map|done..]).
    done.
Qed.

(** The diff of any two stored roots, of the same tree version or across
    the migration, is exact: it succeeds, touches exactly the paths whose
    entry differs, once each, and applied to the first vault gives the
    second; the deltas come in path order. *)
Theorem versioned_deltas_exact s r1 r2 m1 m2 :
  vr_holds s r1 m1 → vr_holds s r2 m2 → hashes_separate r1 r2 →
  N.of_nat (size m1) + N.of_nat (size m2) ≤ MAX_LOADED_ENTRIES →
  ∃ ds, compute_versioned_deltas s r1 r2 = Ok ds ∧ exact_delta (effects ds) m1 m2
    ∧ apply_deltas ds m1 = m2 ∧ wsorted delta_path ds.
Proof.
  intros H1 H2 Hsep Hmax. destruct (versioned_deltas_run s r1 r2 m1 m2) as [Hrun Hx]; [done..|].
  set (ds := versioned_deltas r1 r2 m1 m2) in *. exists (sort_by delta_path ds).
  assert (exact_delta (effects (sort_by delta_path ds)) m1 m2) as Hx'.
  { eapply exact_delta_perm; [|exact Hx]. apply effects_perm. symmetry. apply sort_by_perm. }
  split_and!; [done..|by apply exact_delta_apply|apply sort_by_wsorted].
Qed.
End versioned.
