(* ===== verification/Reachability.v ===== *)
(** src/crates/sync-core/src/tree_v2.rs, [V2ReachabilityCursor]: the resumable
    walk that collects the addresses of all nodes below a root, and its
    step-by-step retirement. *)

From S2P Require Import Prelude Bytes Keyed Hash Chunk Store TreeV1 TreeV2Codec TreeV2Segment TreeV2.
Local Open Scope N_scope.

(** A loop with a [usize] bound and an early exit: at most [p] rounds, with
    no work for the rounds after the exit. *)
Section bounded_loop.
Context {A B : Type} (body : A → A + B).

Fixpoint bounded_loop (p : positive) (a : A) : A + B :=
  match p with
  | xH => body a
  | xO p => match bounded_loop p a with inl a => bounded_loop p a | inr b => inr b end
  | xI p =>
      match body a with
      | inl a => match bounded_loop p a with inl a => bounded_loop p a | inr b => inr b end
      | inr b => inr b
      end
  end.
End bounded_loop.

(** [V2ReachabilityCursor]. The top of the stack [pending] is its head; a
    collection has an allocation once something was pushed or inserted, until
    it is moved out. *)
Record V2ReachabilityCursor := {
  rc_pending : list RangeRef;
  rc_pending_allocated : bool;
  rc_expanding : option (list RangeRef);
  rc_reachable : gset FileHash;
  rc_reachable_allocated : bool;
  rc_descriptors : gmap FileHash RangeRef;
  rc_descriptors_allocated : bool;
  rc_budget : TraversalBudget;
  rc_completed : N;
  rc_seeding_complete : bool;
  rc_retiring : bool;
  rc_retiring_pending : option (list RangeRef);
  rc_retiring_descriptors : option (list RangeRef);
  rc_retiring_hashes : option (list FileHash);
  rc_retirement_phase : N;
}.

Record V2ReachabilityProgress := {
  rp_units : N;
  rp_completed : N;
  rp_remaining : N;
  rp_reachable : N;
  rp_done : bool;
}.

(** [V2ReachabilityCursor::new]. *)
Definition rc_new (root : TreeV2Root) : result ChunkError V2ReachabilityCursor :=
  let? _ := validate_root_shape root in
  Ok {| rc_pending := []; rc_pending_allocated := false; rc_expanding := None;
        rc_reachable := ∅; rc_reachable_allocated := false;
        rc_descriptors := ∅; rc_descriptors_allocated := false;
        rc_budget := tb_default; rc_completed := 0; rc_seeding_complete := false;
        rc_retiring := false; rc_retiring_pending := None; rc_retiring_descriptors := None;
        rc_retiring_hashes := None; rc_retirement_phase := 0 |}.

(** Assignments to the fields the walk changes. *)
Definition rc_set_walk (c : V2ReachabilityCursor) (pending : list RangeRef)
    (expanding : option (list RangeRef)) (completed : N) : V2ReachabilityCursor :=
  {| rc_pending := pending;
     rc_pending_allocated := rc_pending_allocated c || negb (bool_decide (pending = []));
     rc_expanding := expanding;
     rc_reachable := rc_reachable c; rc_reachable_allocated := rc_reachable_allocated c;
     rc_descriptors := rc_descriptors c; rc_descriptors_allocated := rc_descriptors_allocated c;
     rc_budget := rc_budget c; rc_completed := completed;
     rc_seeding_complete := rc_seeding_complete c; rc_retiring := rc_retiring c;
     rc_retiring_pending := rc_retiring_pending c;
     rc_retiring_descriptors := rc_retiring_descriptors c;
     rc_retiring_hashes := rc_retiring_hashes c;
     rc_retirement_phase := rc_retirement_phase c |}.
Definition rc_set_budget (c : V2ReachabilityCursor) (b : TraversalBudget) : V2ReachabilityCursor :=
  {| rc_pending := rc_pending c; rc_pending_allocated := rc_pending_allocated c;
     rc_expanding := rc_expanding c;
     rc_reachable := rc_reachable c; rc_reachable_allocated := rc_reachable_allocated c;
     rc_descriptors := rc_descriptors c; rc_descriptors_allocated := rc_descriptors_allocated c;
     rc_budget := b; rc_completed := rc_completed c;
     rc_seeding_complete := rc_seeding_complete c; rc_retiring := rc_retiring c;
     rc_retiring_pending := rc_retiring_pending c;
     rc_retiring_descriptors := rc_retiring_descriptors c;
     rc_retiring_hashes := rc_retiring_hashes c;
     rc_retirement_phase := rc_retirement_phase c |}.
Definition rc_record (c : V2ReachabilityCursor) (range : RangeRef) : V2ReachabilityCursor :=
  {| rc_pending := rc_pending c; rc_pending_allocated := rc_pending_allocated c;
     rc_expanding := rc_expanding c;
     rc_reachable := {[ rr_hash range ]} ∪ rc_reachable c; rc_reachable_allocated := true;
     rc_descriptors := <[rr_hash range := range]> (rc_descriptors c);
     rc_descriptors_allocated := true;
     rc_budget := rc_budget c; rc_completed := rc_completed c;
     rc_seeding_complete := rc_seeding_complete c; rc_retiring := rc_retiring c;
     rc_retiring_pending := rc_retiring_pending c;
     rc_retiring_descriptors := rc_retiring_descriptors c;
     rc_retiring_hashes := rc_retiring_hashes c;
     rc_retirement_phase := rc_retirement_phase c |}.

(** [seed_root_child]. *)
Definition seed_root_child (range : RangeRef) : St V2ReachabilityCursor ChunkError unit := λ c,
  if rc_retiring c || rc_seeding_complete c
  then (Err (invalid "Tree v2 reachability root seeding is complete"), c)
  else (Ok tt, rc_set_walk c (range :: rc_pending c) (rc_expanding c)
                 (saturating_add64 (rc_completed c) 1)).

(** [finish_seeding]; [None] is the assertion failure on a retiring cursor. *)
Definition finish_seeding (c : V2ReachabilityCursor) : option V2ReachabilityCursor :=
  if rc_retiring c then None
  else Some
    {| rc_pending := rc_pending c; rc_pending_allocated := rc_pending_allocated c;
       rc_expanding := rc_expanding c;
       rc_reachable := rc_reachable c; rc_reachable_allocated := rc_reachable_allocated c;
       rc_descriptors := rc_descriptors c; rc_descriptors_allocated := rc_descriptors_allocated c;
       rc_budget := rc_budget c; rc_completed := rc_completed c;
       rc_seeding_complete := true; rc_retiring := rc_retiring c;
       rc_retiring_pending := rc_retiring_pending c;
       rc_retiring_descriptors := rc_retiring_descriptors c;
       rc_retiring_hashes := rc_retiring_hashes c;
       rc_retirement_phase := rc_retirement_phase c |}.

(** [progress]. *)
Definition progress (c : V2ReachabilityCursor) (units : N) : V2ReachabilityProgress :=
  {| rp_units := units; rp_completed := rc_completed c;
     rp_remaining := len (rc_pending c)
                     + match rc_expanding c with Some l => len l | None => 0 end;
     rp_reachable := N.of_nat (size (rc_reachable c));
     rp_done := negb (rc_retiring c) && rc_seeding_complete c
                && bool_decide (rc_pending c = []) && bool_decide (rc_expanding c = None) |}.

(** The test of [finish] and [take_reachable]. *)
Definition walk_complete (c : V2ReachabilityCursor) : bool := rp_done (progress c 0).

(** [finish]. *)
Definition rc_finish (c : V2ReachabilityCursor) : result ChunkError (gset FileHash) :=
  if walk_complete c then Ok (rc_reachable c)
  else Err (invalid "Tree v2 reachability validation is incomplete").

(** [take_reachable]. *)
Definition take_reachable : St V2ReachabilityCursor ChunkError (gset FileHash) := λ c,
  if walk_complete c then
    (Ok (rc_reachable c),
     {| rc_pending := rc_pending c; rc_pending_allocated := rc_pending_allocated c;
        rc_expanding := rc_expanding c;
        rc_reachable := ∅; rc_reachable_allocated := false;
        rc_descriptors := rc_descriptors c; rc_descriptors_allocated := rc_descriptors_allocated c;
        rc_budget := rc_budget c; rc_completed := rc_completed c;
        rc_seeding_complete := rc_seeding_complete c; rc_retiring := rc_retiring c;
        rc_retiring_pending := rc_retiring_pending c;
        rc_retiring_descriptors := rc_retiring_descriptors c;
        rc_retiring_hashes := rc_retiring_hashes c;
        rc_retirement_phase := rc_retirement_phase c |})
  else (Err (invalid "Tree v2 reachability validation is incomplete"), c).

Section walk.
Context {S : Type} {B3 : Blake3} {CS : ChunkStore S}.

(** One round of [step]: [inr] leaves the loop. *)
Definition step_unit (s : S) (cu : V2ReachabilityCursor * N)
    : V2ReachabilityCursor * N + result ChunkError unit * V2ReachabilityCursor * N :=
  let '(c, units) := cu in
  match rc_expanding c with
  | Some (child :: children) =>
      inl (rc_set_walk c (child :: rc_pending c)
             (match children with [] => None | _ => Some children end)
             (saturating_add64 (rc_completed c) 1), units + 1)
  | Some [] => inr (Err (invalid "active Tree v2 child expansion is non-empty"), c, units)
  | None =>
      match rc_pending c with
      | [] => inr (Ok tt, c, units)
      | range :: pending =>
          let c := rc_set_walk c pending None (saturating_add64 (rc_completed c) 1) in
          let units := units + 1 in
          match rc_descriptors c !! rr_hash range with
          | Some previous =>
              if bool_decide (previous = range) then inl (c, units)
              else inr (Err (invalid "Tree v2 repeated hash has a different child descriptor"),
                        c, units)
          | None =>
              match budget_node (rr_height range) (rc_budget c) with
              | (Err e, b) => inr (Err e, rc_set_budget c b, units)
              | (Ok _, b) =>
                  let c := rc_set_budget c b in
                  match load_node s range with
                  | Err e => inr (Err e, c, units)
                  | Ok (V2Leaf entries) =>
                      match budget_entries (len entries) (rc_budget c) with
                      | (Err e, b) => inr (Err e, rc_set_budget c b, units)
                      | (Ok _, b) => inl (rc_record (rc_set_budget c b) range, units)
                      end
                  | Ok (V2Internal _ children) =>
                      let expanding := match children with [] => None | _ => Some children end in
                      inl (rc_record (rc_set_walk c (rc_pending c) expanding (rc_completed c)) range,
                           units)
                  end
              end
          end
      end
  end.

(** [step]. *)
Definition rc_step (s : S) (max_units : N)
    : St V2ReachabilityCursor ChunkError V2ReachabilityProgress := λ c,
  if rc_retiring c then (Err (invalid "Tree v2 reachability is retiring"), c)
  else
    match max_units with
    | 0 => (Err (invalid "Tree v2 reachability step budget must be positive"), c)
    | N.pos p =>
        if negb (rc_seeding_complete c)
        then (Err (invalid "Tree v2 reachability root seeding is incomplete"), c)
        else
          match bounded_loop (step_unit s) p (c, 0) with
          | inl (c, units) => (Ok (progress c units), c)
          | inr (Ok _, c, units) => (Ok (progress c units), c)
          | inr (Err e, c, _) => (Err e, c)
          end
    end.

(** The loop of [reachable_hashes]; a step of [usize::MAX] units runs to the
    end, so that two rounds leave it. *)
Fixpoint reach_loop (fuel : nat) (s : S) (c : V2ReachabilityCursor)
    : result ChunkError V2ReachabilityCursor :=
  if walk_complete c then Ok c
  else
    match fuel with
    | O => Ok c
    | Datatypes.S fuel =>
        match rc_step s USIZE_MAX c with
        | (Err e, _) => Err e
        | (Ok _, c) => reach_loop fuel s c
        end
    end.

(** [reachable_hashes]. *)
Definition reachable_hashes (s : S) (root : TreeV2Root) : result ChunkError (gset FileHash) :=
  let? c := rc_new root in
  let seed := match tv_child root with Some range => seed_root_child range | None => st_ret tt end in
  match seed c with
  | (Err e, _) => Err e
  | (Ok _, c) =>
      match finish_seeding c with
      | None => Err (invalid "retiring Tree v2 reachability cannot resume")
      | Some c => let? c := reach_loop 2 s c in rc_finish c
      end
  end.
End walk.

(** * Retirement *)

(** The cursor in a retirement phase, with what the phases still own. *)
Definition rc_set_retire (c : V2ReachabilityCursor) (expanding : option (list RangeRef))
    (rp : option (list RangeRef)) (rd : option (list RangeRef)) (rh : option (list FileHash))
    (phase : N) : V2ReachabilityCursor :=
  {| rc_pending := match rp with Some _ => [] | None => rc_pending c end;
     rc_pending_allocated := match rp with Some _ => false | None => rc_pending_allocated c end;
     rc_expanding := expanding;
     rc_reachable := match rh with Some _ => ∅ | None => rc_reachable c end;
     rc_reachable_allocated := match rh with Some _ => false | None => rc_reachable_allocated c end;
     rc_descriptors := match rd with Some _ => ∅ | None => rc_descriptors c end;
     rc_descriptors_allocated := match rd with Some _ => false | None => rc_descriptors_allocated c end;
     rc_budget := rc_budget c; rc_completed := rc_completed c;
     rc_seeding_complete := rc_seeding_complete c; rc_retiring := true;
     rc_retiring_pending := rp; rc_retiring_descriptors := rd; rc_retiring_hashes := rh;
     rc_retirement_phase := phase |}.

(** One round of the loop of [retire_one]: [Some b] returns [b], [None] goes
    on to the next phase. *)
Definition retire_round (c : V2ReachabilityCursor) : option bool * V2ReachabilityCursor :=
  let ex := rc_expanding c in
  let rp := rc_retiring_pending c in
  let rd := rc_retiring_descriptors c in
  let rh := rc_retiring_hashes c in
  match rc_retirement_phase c with
  | 0 =>
      match ex with
      | Some (_ :: children) => (Some true, rc_set_retire c (Some children) rp rd rh 0)
      | Some [] => (Some true, rc_set_retire c None rp rd rh 1)
      | None => (None, rc_set_retire c None rp rd rh 1)
      end
  | 1 =>
      match rp with
      | None =>
          if negb (rc_pending_allocated c) then (None, rc_set_retire c ex rp rd rh 2)
          else
            match rev (rc_pending c) with
            | _ :: rest => (Some true, rc_set_retire c ex (Some rest) rd rh 1)
            | [] =>
                (Some true,
                 rc_set_retire (rc_set_retire c ex (Some []) rd rh 1) ex None rd rh 2)
            end
      | Some (_ :: rest) => (Some true, rc_set_retire c ex (Some rest) rd rh 1)
      | Some [] => (Some true, rc_set_retire (rc_set_retire c ex rp rd rh 1) ex None rd rh 2)
      end
  | 2 =>
      match rd with
      | None =>
          if negb (rc_descriptors_allocated c) then (None, rc_set_retire c ex rp rd rh 3)
          else
            match (map_to_list (rc_descriptors c)).*2 with
            | _ :: rest => (Some true, rc_set_retire c ex rp (Some rest) rh 2)
            | [] =>
                (Some true,
                 rc_set_retire (rc_set_retire c ex rp (Some []) rh 2) ex rp None rh 3)
            end
      | Some (_ :: rest) => (Some true, rc_set_retire c ex rp (Some rest) rh 2)
      | Some [] => (Some true, rc_set_retire (rc_set_retire c ex rp rd rh 2) ex rp None rh 3)
      end
  | 3 =>
      match rh with
      | None =>
          if negb (rc_reachable_allocated c) then (None, rc_set_retire c ex rp rd rh 4)
          else
            match elements (rc_reachable c) with
            | _ :: rest => (Some true, rc_set_retire c ex rp rd (Some rest) 3)
            | [] =>
                (Some true,
                 rc_set_retire (rc_set_retire c ex rp rd (Some []) 3) ex rp rd None 4)
            end
      | Some (_ :: rest) => (Some true, rc_set_retire c ex rp rd (Some rest) 3)
      | Some [] => (Some true, rc_set_retire (rc_set_retire c ex rp rd rh 3) ex rp rd None 4)
      end
  | _ => (Some false, rc_set_retire c ex rp rd rh 4)
  end.

(** [retire_one]: the phases only grow, so the loop has at most five rounds. *)
Fixpoint retire_loop (fuel : nat) (c : V2ReachabilityCursor) : bool * V2ReachabilityCursor :=
  match fuel with
  | O => (false, c)
  | S fuel =>
      match retire_round c with
      | (Some b, c) => (b, c)
      | (None, c) => retire_loop fuel c
      end
  end.
Definition retire_one (c : V2ReachabilityCursor) : bool * V2ReachabilityCursor :=
  retire_loop 5 c.
