(* ===== verification/ReachabilityProps.v ===== *)
(** The reachability walk finds exactly the objects a stored vault was written
    as, however often subtrees repeat; collecting garbage with its result
    keeps the vault loadable; retirement ends. *)

From S2P Require Import Prelude Bytes Keyed Hash Chunk Store StoreProps TreeV1 TreeV1Build.
From S2P Require Import TreeV2Codec TreeV2CodecProps TreeV2Segment TreeV2.
From S2P Require Import TreeV2Build TreeV2Store TreeV2DiffProps Reachability.
Local Open Scope N_scope.

(** * The bounded loop *)
Section loops.
Context {A B : Type} (body : A → A + B).

Fixpoint nat_loop (n : nat) (a : A) : A + B :=
  match n with
  | O => inl a
  | S n => match body a with inl a => nat_loop n a | inr b => inr b end
  end.

Lemma nat_loop_add n m a :
  nat_loop (n + m) a = match nat_loop n a with inl a => nat_loop m a | inr b => inr b end.
Proof.
  revert a. induction n as [|n IH]; intros a; cbn [nat_loop Nat.add]; [done|].
  by destruct (body a).
Qed.

Lemma bounded_loop_nat p a : bounded_loop body p a = nat_loop (Pos.to_nat p) a.
Proof.
  revert a. induction p as [p IH|p IH|]; intros a; cbn [bounded_loop].
  - rewrite Pos2Nat.inj_xI. replace (S (2 * Pos.to_nat p))%nat with (S (Pos.to_nat p + Pos.to_nat p)) by lia.
    cbn [nat_loop]. destruct (body a) as [a1|]; [|done]. rewrite nat_loop_add, IH.
    destruct (nat_loop _ a1); [|done]. apply IH.
  - rewrite Pos2Nat.inj_xO. replace (2 * Pos.to_nat p)%nat with (Pos.to_nat p + Pos.to_nat p)%nat by lia.
    rewrite nat_loop_add, IH. destruct (nat_loop _ a); [|done]. apply IH.
  - change (Pos.to_nat 1) with 1%nat. cbn. by destruct (body a).
Qed.

(** A loop whose rounds decrease a measure ends in its exit. *)
Lemma nat_loop_exit (I : A → Prop) (Q : B → Prop) (mu : A → nat) :
  (∀ a, I a → match body a with inl a' => I a' ∧ (mu a' < mu a)%nat | inr b => Q b end) →
  ∀ n a, I a → (mu a < n)%nat → ∃ b, nat_loop n a = inr b ∧ Q b.
Proof.
  intros Hb. induction n as [|n IH]; intros a Ha Hn; [lia|]. cbn [nat_loop].
  specialize (Hb a Ha). destruct (body a) as [a'|b]; [|by exists b].
  destruct Hb as [Ha' Hlt]. apply IH; [done|lia].
Qed.
End loops.

(** * Subtrees *)

Fixpoint subtrees (t : rtree) : list rtree :=
  t :: match t with RLeaf _ => [] | RNode _ cs => concat (map subtrees cs) end.
Definition children (t : rtree) : list rtree :=
  match t with RLeaf _ => [] | RNode _ cs => cs end.

Lemma subtrees_eq t : subtrees t = t :: concat (subtrees <$> children t).
Proof. by destruct t. Qed.

Lemma subtrees_self t : t ∈ subtrees t.
Proof. rewrite subtrees_eq. by left. Qed.

Lemma subtrees_child t t' c : t ∈ subtrees t' → c ∈ children t → c ∈ subtrees t'.
Proof.
  induction t' as [g|h cs IH] using rtree_ind'; rewrite (subtrees_eq (_ _)); cbn [children fmap list_fmap concat].
  - rewrite elem_of_cons. intros [->|?%not_elem_of_nil]; [|done]. by intros ?%not_elem_of_nil.
  - rewrite !elem_of_cons. intros [->|Ht] Hc; right.
    + apply list_elem_of_In, in_concat. exists (subtrees c). rewrite <-!list_elem_of_In.
      split; [by apply list_elem_of_fmap_2|apply subtrees_self].
    + apply list_elem_of_In, in_concat in Ht as (l & Hl & Hin).
      apply list_elem_of_In, list_elem_of_fmap in Hl as (c' & -> & Hc').
      apply list_elem_of_In in Hin. rewrite Forall_forall in IH. specialize (IH c' Hc' Hin Hc).
      apply list_elem_of_In, in_concat. exists (subtrees c'). rewrite <-!list_elem_of_In.
      split; [by apply list_elem_of_fmap_2|done].
Qed.

(** A property closed under children holds below a tree it holds of. *)
Lemma subtrees_closed (P : rtree → Prop) t :
  (∀ u c, u ∈ subtrees t → P u → c ∈ children u → P c) → P t → ∀ u, u ∈ subtrees t → P u.
Proof.
  induction t as [g|h cs IH] using rtree_ind'; intros Hc Ht u; rewrite subtrees_eq; cbn [children].
  - rewrite elem_of_cons. by intros [->|?%not_elem_of_nil].
  - rewrite elem_of_cons. intros [->|Hu]; [done|].
    apply list_elem_of_In, in_concat in Hu as (l & Hl & Hin).
    apply list_elem_of_In, list_elem_of_fmap in Hl as (c' & -> & Hc'). apply list_elem_of_In in Hin.
    rewrite Forall_forall in IH. apply (IH c' Hc'); [| |done].
    + intros v c Hv. apply Hc. rewrite subtrees_eq. right.
      apply list_elem_of_In, in_concat. exists (subtrees c'). rewrite <-!list_elem_of_In.
      split; [by apply list_elem_of_fmap_2|done].
    + apply (Hc (RNode h cs)); [apply subtrees_self|done..].
Qed.

Section walk.
Context {S : Type} {B3 : Blake3} {CS : ChunkStore S}.

Lemma subtree_in s t u : tree_in s t → u ∈ subtrees t → tree_in s u.
Proof.
  intros Ht. apply (subtrees_closed (tree_in s)); [|done].
  intros v c _ Hv Hc. destruct v as [g|h cs]; [by apply not_elem_of_nil in Hc|].
  apply tree_in_node in Hv as (_ & _ & _ & Hcs). rewrite Forall_forall in Hcs. by apply Hcs.
Qed.

(** * The invariant of the walk *)

Definition visited (c : V2ReachabilityCursor) (t : rtree) : Prop :=
  is_Some (rc_descriptors c !! rr_hash (t_ref t)).

(** [ps] and [xs] are the trees of the stack and of the expansion. *)
Record walk_inv (s : S) (t0 : rtree) (c : V2ReachabilityCursor) (ps xs : list rtree) : Prop := {
  wi_pending : rc_pending c = t_ref <$> ps;
  wi_expanding : rc_expanding c = match xs with [] => None | _ => Some (t_ref <$> xs) end;
  wi_reach : rc_reachable c = dom (rc_descriptors c);
  wi_sub : Forall (.∈ subtrees t0) (ps ++ xs);
  wi_desc : ∀ h r, rc_descriptors c !! h = Some r →
    ∃ t, t ∈ subtrees t0 ∧ r = t_ref t ∧ rr_hash r = h;
  wi_closed : ∀ t u, t ∈ subtrees t0 → visited c t → u ∈ children t →
    visited c u ∨ u ∈ ps ++ xs;
  wi_root : visited c t0 ∨ t0 ∈ ps ++ xs;
  wi_nodes : tb_nodes (rc_budget c) + forest_nodes (ps ++ xs) ≤ MAX_VISITED_NODES;
  wi_entries : tb_entries (rc_budget c) + len (f_entries (ps ++ xs)) ≤ MAX_LOADED_ENTRIES;
  wi_retiring : rc_retiring c = false;
  wi_seeded : rc_seeding_complete c = true;
}.

(** The rounds left: a pending tree of [n] nodes takes [2 n - 1], an
    expanding one [2 n]. *)
Definition rounds (ps xs : list rtree) : N :=
  sum_over (λ t, 2 * t_nodes t - 1) ps + sum_over (λ t, 2 * t_nodes t) xs.

Lemma t_nodes_pos t : 1 ≤ t_nodes t.
Proof. destruct t; cbn [t_nodes]; lia. Qed.

Lemma t_nodes_children t : t_nodes t = 1 + forest_nodes (children t).
Proof. by destruct t. Qed.

Lemma sum_double ts : sum_over (λ t, 2 * t_nodes t) ts = 2 * forest_nodes ts.
Proof.
  induction ts as [|t ts IH]; [done|]. rewrite sum_over_cons, IH.
  change (forest_nodes (t :: ts)) with (t_nodes t + forest_nodes ts). lia.
Qed.

Lemma len_f_cons t ts : len (f_entries (t :: ts)) = len (t_entries t) + len (f_entries ts).
Proof. change (f_entries (t :: ts)) with (t_entries t ++ f_entries ts). apply len_app. Qed.

Lemma forest_cons t ts : forest_nodes (t :: ts) = t_nodes t + forest_nodes ts.
Proof. done. Qed.

(** Only the tree itself has the hash of a stored tree. *)
Lemma visited_insert s t0 c t u range :
  tree_in s t0 → t ∈ subtrees t0 → u ∈ subtrees t0 → range = t_ref t →
  visited (rc_record c range) u ↔ u = t ∨ visited c u.
Proof.
  intros H0 Ht Hu ->. unfold visited. cbn [rc_descriptors rc_record]. split.
  - destruct (decide (rr_hash (t_ref u) = rr_hash (t_ref t))) as [E|E].
    + intros _. left. apply (tree_hash_inj s); [by eapply subtree_in..|done].
    + rewrite lookup_insert_ne by done. by right.
  - intros [->|Hv]; [by rewrite lookup_insert_eq|]. by apply lookup_insert_is_Some'; right.
Qed.

(** Moving one child from the expansion to the stack. *)
Lemma walk_move s t0 c ps x xs units :
  walk_inv s t0 c ps (x :: xs) →
  ∃ c', step_unit s (c, units) = inl (c', units + 1) ∧ walk_inv s t0 c' (x :: ps) xs.
Proof.
  intros [H1 H2 H3 H4 H5 H6 H7 H8 H9 H10 H11]. unfold step_unit. rewrite H2. csimpl.
  eexists. split; [done|].
  assert (ps ++ x :: xs ≡ₚ (x :: ps) ++ xs) as Hp by solve_Permutation.
  split; cbn [rc_set_walk rc_pending rc_expanding rc_reachable rc_descriptors rc_budget rc_retiring
              rc_seeding_complete]; try done.
  - by rewrite H1.
  - by destruct xs.
  - by rewrite <-Hp.
  - intros t u Ht Hv Hu. rewrite <-Hp. by apply (H6 t).
  - by rewrite <-Hp.
  - rewrite forest_app, forest_cons in *. lia.
  - rewrite f_entries_app, len_app, len_f_cons in *. lia.
Qed.

(** A subtree that was visited before is not expanded again. *)
Lemma walk_skip s t0 c t ps units :
  tree_in s t0 → walk_inv s t0 c (t :: ps) [] → visited c t →
  ∃ c', step_unit s (c, units) = inl (c', units + 1) ∧ walk_inv s t0 c' ps [].
Proof.
  intros H0 [H1 H2 H3 H4 H5 H6 H7 H8 H9 H10 H11] [r Hr]. unfold step_unit. rewrite H2, H1. csimpl.
  rewrite app_nil_r in *. apply Forall_cons in H4 as [Ht H4].
  assert (r = t_ref t) as ->.
  { destruct (H5 _ _ Hr) as (t' & Ht' & -> & E). f_equal.
    apply (tree_hash_inj s); [by eapply subtree_in..|done]. }
  rewrite Hr, bool_decide_eq_true_2 by done. eexists. split; [done|].
  assert (visited c t) as Hv by (by eexists).
  split; cbn [rc_set_walk rc_pending rc_expanding rc_reachable rc_descriptors rc_budget rc_retiring
              rc_seeding_complete]; rewrite ?app_nil_r; try done.
  - intros u v Hu Hvu Hc. destruct (H6 u v Hu Hvu Hc) as [?|[->|?]%elem_of_cons]; auto.
  - destruct H7 as [?|[->|?]%elem_of_cons]; auto.
  - rewrite forest_cons in H8. lia.
  - rewrite len_f_cons in H9. lia.
Qed.

(** Recording a new tree and expanding its children; [c1] is the cursor after
    the budget was charged and the children were set to expand. *)
Lemma walk_record s t0 c c1 t ps :
  tree_in s t0 → walk_inv s t0 c (t :: ps) [] → ¬ visited c t →
  rc_pending c1 = t_ref <$> ps →
  rc_expanding c1 = match children t with [] => None | _ => Some (t_ref <$> children t) end →
  rc_reachable c1 = rc_reachable c → rc_descriptors c1 = rc_descriptors c →
  rc_retiring c1 = rc_retiring c → rc_seeding_complete c1 = rc_seeding_complete c →
  tb_nodes (rc_budget c1) + forest_nodes (children t) ≤ tb_nodes (rc_budget c) + t_nodes t →
  tb_entries (rc_budget c1) + len (f_entries (children t))
    ≤ tb_entries (rc_budget c) + len (t_entries t) →
  walk_inv s t0 (rc_record c1 (t_ref t)) ps (children t).
Proof.
  intros H0 [H1 H2 H3 H4 H5 H6 H7 H8 H9 H10 H11] Hnew E1 E2 E3 E4 E5 E6 Hb1 Hb2.
  rewrite app_nil_r in *. apply Forall_cons in H4 as [Ht H4].
  set (c' := rc_record _ _).
  assert (∀ u, u ∈ subtrees t0 → visited c' u ↔ u = t ∨ visited c u) as Hvis.
  { intros u Hu. unfold c'. rewrite (visited_insert s t0 _ t u _ H0 Ht Hu) by done.
    unfold visited. by rewrite E4. }
  split; cbn [c' rc_record rc_pending rc_expanding rc_reachable rc_descriptors
              rc_budget rc_retiring rc_seeding_complete]; rewrite ?E5, ?E6; try done.
  - by rewrite E3, E4, H3, dom_insert_L.
  - apply Forall_app. split; [done|]. apply Forall_forall. intros u Hu. by eapply subtrees_child.
  - intros h r. rewrite E4, lookup_insert_Some. intros [[<- <-]|[_ Hr]]; [by exists t|by apply H5].
  - intros u v Hu Hvu Hc. assert (v ∈ subtrees t0) as Hv by (by eapply subtrees_child).
    rewrite elem_of_app. apply (Hvis u Hu) in Hvu as [E|Hvu]; [right; right; by rewrite <-E|].
    destruct (H6 u v Hu Hvu Hc) as [?|[?|?]%elem_of_cons]; [left|left|by right; left];
      apply (Hvis v Hv); auto.
  - rewrite elem_of_app. destruct H7 as [?|[?|?]%elem_of_cons]; [left|left|by right; left];
      apply (Hvis t0 (subtrees_self t0)); auto.
  - rewrite forest_app. rewrite forest_cons in H8. lia.
  - rewrite f_entries_app, len_app. rewrite len_f_cons in H9. lia.
Qed.

(** One round on a state with work left. *)
Lemma walk_step s t0 c ps xs units :
  tree_in s t0 → walk_inv s t0 c ps xs → ps ++ xs ≠ [] →
  ∃ c' ps' xs', step_unit s (c, units) = inl (c', units + 1) ∧ walk_inv s t0 c' ps' xs'
    ∧ rounds ps' xs' < rounds ps xs.
Proof.
  intros H0 Hi Hne. unfold rounds. destruct xs as [|x xs].
  2: { destruct (walk_move _ _ _ _ _ _ units Hi) as (c' & Hs & Hi').
       exists c', (x :: ps), xs. split_and!; [done..|]. rewrite !sum_over_cons.
       pose proof (t_nodes_pos x). lia. }
  destruct ps as [|t ps]; [done|]. clear Hne. rewrite sum_over_cons.
  pose proof (t_nodes_pos t) as Hpos.
  destruct (rc_descriptors c !! rr_hash (t_ref t)) as [r|] eqn:Ed.
  { destruct (walk_skip _ _ _ _ _ units H0 Hi) as (c' & Hs & Hi'); [by eexists|].
    exists c', ps, []. split_and!; [done..|]. lia. }
  assert (¬ visited c t) as Hnew by (unfold visited; rewrite Ed; by intros [??]).
  assert (tree_in s t) as Ht.
  { pose proof (wi_sub _ _ _ _ _ Hi) as Hsub. rewrite app_nil_r in Hsub.
    apply Forall_cons in Hsub as [? _]. by eapply subtree_in. }
  pose proof (wi_nodes _ _ _ _ _ Hi) as Hn. pose proof (wi_entries _ _ _ _ _ Hi) as He.
  rewrite app_nil_r, forest_cons in Hn. rewrite app_nil_r, len_f_cons in He.
  unfold step_unit. rewrite (wi_expanding _ _ _ _ _ Hi), (wi_pending _ _ _ _ _ Hi).
  cbn [fmap list_fmap rc_set_walk rc_descriptors rc_budget rc_pending rc_completed rc_set_budget].
  rewrite Ed, budget_node_run; [|destruct t; [done|]; apply tree_in_node in Ht; cbn; lia|lia].
  rewrite (tree_in_load _ _ Ht). destruct t as [g|h cs].
  - assert (t_entries (RLeaf g) = g) as Eg by apply app_nil_r. rewrite Eg in He.
    cbn [rc_budget rc_set_budget]. unfold budget_entries, saturating_add64, charge at 1.
    cbn [tb_nodes tb_entries charge].
    rewrite N.min_l by (unfold MAX_LOADED_ENTRIES, U64_MAX in *; lia).
    rewrite (proj2 (N.ltb_ge _ _)) by lia.
    eexists _, ps, []. split_and!; [done| |].
    + apply (walk_record s t0 c _ (RLeaf g) ps); [done..|cbn; lia|].
      rewrite Eg. unfold f_entries. cbn. change (len []) with 0. lia.
    + cbn [t_nodes]. unfold sum_over at 2. cbn. lia.
  - pose proof Ht as (_ & Hcs & _ & _)%tree_in_node.
    eexists _, ps, cs. split_and!; [done| |].
    + destruct cs as [|u cs]; [done|].
      apply (walk_record s t0 c _ (RNode h (u :: cs)) ps); [done..| |];
        cbn [rc_set_walk rc_set_budget rc_budget].
      * rewrite t_nodes_children. unfold charge. cbn [tb_nodes children]. lia.
      * rewrite t_entries_node. unfold charge. cbn [tb_entries children]. lia.
    + rewrite sum_double, t_nodes_children. cbn [children]. lia.
Qed.

Lemma walk_done s t0 c units : walk_inv s t0 c [] [] → step_unit s (c, units) = inr (Ok tt, c, units).
Proof. intros [H1 H2 _ _ _ _ _ _ _ _ _]. unfold step_unit. by rewrite H2, H1. Qed.

(** The walk ends with every node of the tree. *)
Lemma walk_runs s t0 c ps xs (p : positive) :
  tree_in s t0 → walk_inv s t0 c ps xs → rounds ps xs < N.pos p →
  ∃ c' units, bounded_loop (step_unit s) p (c, 0) = inr (Ok tt, c', units) ∧ walk_inv s t0 c' [] [].
Proof.
  intros H0 Hi Hr. rewrite bounded_loop_nat.
  assert (∀ (n : nat) c ps xs units, walk_inv s t0 c ps xs → rounds ps xs < N.of_nat n →
    ∃ c' units', nat_loop (step_unit s) n (c, units) = inr (Ok tt, c', units')
      ∧ walk_inv s t0 c' [] []) as Hloop.
  2: { apply (Hloop (Pos.to_nat p) c ps xs 0); [done|lia]. }
  clear Hi Hr c ps xs. induction n as [|n IH]; intros c ps xs units Hi Hn; [lia|]. cbn [nat_loop].
  destruct (decide (ps ++ xs = [])) as [[-> ->]%app_eq_nil|Hne].
  { rewrite (walk_done _ _ _ _ Hi). by exists c, units. }
  destruct (walk_step _ _ _ _ _ units H0 Hi Hne) as (c' & ps' & xs' & -> & Hi' & Hlt).
  apply (IH c' ps' xs'); [done|lia].
Qed.

Lemma walk_result s t0 c :
  tree_in s t0 → walk_inv s t0 c [] [] →
  rc_reachable c = list_to_set ((λ t, rr_hash (t_ref t)) <$> subtrees t0).
Proof.
  intros H0 Hi. rewrite (wi_reach _ _ _ _ _ Hi). apply set_eq. intros h.
  rewrite elem_of_dom, elem_of_list_to_set, list_elem_of_fmap. split.
  - intros [r Hr]. destruct (wi_desc _ _ _ _ _ Hi h r Hr) as (t & Ht & -> & E). by exists t.
  - intros (t & -> & Ht). apply (subtrees_closed (visited c) t0); [| |done].
    + intros u v Hu Hv Hc. destruct (wi_closed _ _ _ _ _ Hi u v Hu Hv Hc) as [?|?%not_elem_of_nil]; done.
    + destruct (wi_root _ _ _ _ _ Hi) as [?|?%not_elem_of_nil]; done.
Qed.
End walk.

(** * The objects of a vault *)
Section objects.
Context {S : Type} {B3 : Blake3} {CS : ChunkStore S}.

Definition blob (t : rtree) : bytes :=
  match t with RLeaf es => leaf_bytes es | RNode h cs => node_bytes h (t_ref <$> cs) end.
Definition f_blobs (ts : list rtree) : list bytes := blob <$> concat (subtrees <$> ts).

Lemma blob_hash t : rr_hash (t_ref t) = hash_bytes (blob t).
Proof. by destruct t. Qed.

Lemma f_blobs_app a b : f_blobs (a ++ b) = f_blobs a ++ f_blobs b.
Proof. unfold f_blobs. by rewrite fmap_app, concat_app, fmap_app. Qed.

Lemma f_blobs_groups h gs :
  f_blobs (RNode h <$> gs) ≡ₚ ((λ g, node_bytes h (t_ref <$> g)) <$> gs) ++ f_blobs (concat gs).
Proof.
  induction gs as [|g gs IH]; [done|].
  change (RNode h <$> g :: gs) with ([RNode h g] ++ (RNode h <$> gs)).
  change (concat (g :: gs)) with (g ++ concat gs). rewrite !f_blobs_app, IH.
  assert (f_blobs [RNode h g] = node_bytes h (t_ref <$> g) :: f_blobs g) as ->.
  { unfold f_blobs. cbn [fmap list_fmap concat]. rewrite app_nil_r, subtrees_eq. done. }
  csimpl. solve_Permutation.
Qed.

Lemma f_blobs_level h ts :
  refs_ok h (t_ref <$> ts) → f_blobs (next_level h ts) ≡ₚ level_bytes h ts ++ f_blobs ts.
Proof.
  intros Hr. destruct (level_groups h ts Hr) as [Hc _]. unfold next_level.
  rewrite f_blobs_groups. by rewrite Hc.
Qed.

Lemma grow_blobs (k fuel : nat) h ts :
  (k ≤ fuel)%nat → h + N.of_nat k ≤ MAX_TREE_DEPTH → len ts ≤ 16 ^ N.of_nat k →
  refs_ok h (t_ref <$> ts) → ts ≠ [] →
  f_blobs [grow fuel h ts] ≡ₚ f_blobs ts ++ grow_bytes fuel h ts.
Proof.
  revert fuel h ts. induction k as [|k IH]; intros fuel h ts Hk Hh Hl Hr Hne.
  all: destruct ts as [|t [|t' ts]]; [done| |].
  1,3: assert (grow fuel h [t] = t ∧ grow_bytes fuel h [t] = []) as [-> ->] by (by destruct fuel);
       by rewrite app_nil_r.
  { change (16 ^ N.of_nat 0) with 1 in Hl. rewrite !len_cons in Hl. lia. }
  set (ts' := t :: t' :: ts) in *. destruct fuel as [|fuel]; [lia|].
  assert (h < MAX_TREE_DEPTH) as Hh' by lia.
  change (grow (Datatypes.S fuel) h ts') with (grow fuel (h + 1) (next_level h ts')).
  change (grow_bytes (Datatypes.S fuel) h ts') with
    (level_bytes h ts' ++ grow_bytes fuel (h + 1) (next_level h ts')).
  rewrite IH; [|lia|lia|by apply next_level_pow|by apply next_level_ok|by apply next_level_nonempty].
  rewrite (f_blobs_level h ts') by done. solve_Permutation.
Qed.

(** The nodes below the root are what the build wrote. *)
Lemma written_blobs es : entries_ok es → f_blobs (root_forest es) ≡ₚ written es.
Proof.
  intros Hes. destruct (decide (es = [])) as [->|Hne]; [done|].
  assert (root_forest es = [grow 17 0 (leaf_level es)]) as -> by (by destruct es).
  rewrite (grow_blobs 5 17); [|lia|done|by apply leaf_level_pow|by apply leaf_level_ok|
    by apply leaf_level_nonempty].
  unfold written. apply Permutation_app_tail. unfold leaves_bytes, leaf_level.
  set (gs := cut _ _ _). clearbody gs. clear. induction gs as [|g gs IH]; [done|].
  change (RLeaf <$> g :: gs) with ([RLeaf g] ++ (RLeaf <$> gs)). rewrite f_blobs_app, IH. done.
Qed.

Lemma seed_inv s t0 c :
  tree_in s t0 → rc_pending c = [t_ref t0] → rc_expanding c = None → rc_reachable c = ∅ →
  rc_descriptors c = ∅ → rc_budget c = tb_default → rc_retiring c = false →
  rc_seeding_complete c = true → forest_nodes [t0] ≤ MAX_VISITED_NODES →
  len (f_entries [t0]) ≤ MAX_LOADED_ENTRIES → walk_inv s t0 c [t0] [].
Proof.
  intros H0 E1 E2 E3 E4 E5 E6 E7 Hn He. split; try done.
  - by rewrite E3, E4, dom_empty_L.
  - constructor; [apply subtrees_self|constructor].
  - intros h r. by rewrite E4, lookup_empty.
  - intros t u _ [? Hv]. by rewrite E4, lookup_empty in Hv.
  - right. by left.
  - by rewrite E5.
  - by rewrite E5.
Qed.

Lemma reach_loop_run s t0 c :
  tree_in s t0 → walk_inv s t0 c [t0] [] → t_nodes t0 ≤ MAX_VISITED_NODES →
  ∃ c', reach_loop 2 s c = Ok c' ∧ walk_inv s t0 c' [] [].
Proof.
  intros H0 Hi Hn. pose proof Hi as [E1 E2 _ _ _ _ _ _ _ E6 E7].
  assert (walk_complete c = false) as Ew.
  { unfold walk_complete, progress. cbn [rp_done]. by rewrite E1, E6, E7, andb_false_r. }
  cbn [reach_loop]. rewrite Ew. unfold rc_step. rewrite E6, E7.
  unfold USIZE_MAX, U64_MAX. cbn [negb].
  destruct (walk_runs s t0 c [t0] [] 18446744073709551615 H0 Hi) as (c' & units & Hrun & Hi').
  { unfold rounds, sum_over. cbn [map foldr fmap list_fmap]. unfold MAX_VISITED_NODES in *. lia. }
  rewrite Hrun. exists c'. split; [|done]. destruct Hi' as [F1 F2 _ _ _ _ _ _ _ F6 F7].
  unfold walk_complete, progress. cbn [rp_done]. by rewrite F1, F2, F6, F7.
Qed.

Lemma reachable_run es s :
  entries_ok es → stored s (written es) →
  reachable_hashes s (root_of es) = Ok (list_to_set (hash_bytes <$> written es)).
Proof.
  intros Hes Hst. destruct (root_forest_ok es s Hes Hst) as ([Hin Hle] & Hee & Hrr & Hn).
  pose proof (written_blobs es Hes) as Hw. unfold reachable_hashes, rc_new.
  rewrite (root_of_shape es s) by done.
  destruct (decide (es = [])) as [->|Hne]; [done|].
  assert (tv_child (root_of es) = Some (t_ref (grow 17 0 (leaf_level es)))) as -> by (by destruct es).
  assert (root_forest es = [grow 17 0 (leaf_level es)]) as Er by (by destruct es). rewrite Er in *.
  revert Hin Hle Hee Hrr Hn Hw Er. generalize (grow 17 0 (leaf_level es)).
  intros t0 Hin Hle Hee Hrr Hn Hw Er.
  apply Forall_cons in Hin as [Hin _].
  cbn [seed_root_child rc_retiring rc_seeding_complete orb finish_seeding rc_set_walk].
  match goal with |- context [reach_loop 2 s ?c] => set (c0 := c) end.
  assert (t_nodes t0 ≤ MAX_VISITED_NODES) as Hn'.
  { rewrite forest_cons in Hn. unfold MAX_VISITED_NODES. lia. }
  destruct (reach_loop_run s t0 c0 Hin) as (c' & Hrun & Hi); [|done|].
  { apply seed_inv; try done; rewrite ?forest_cons; [unfold forest_nodes; cbn [map foldr]; lia|].
    rewrite Hee. destruct Hes as [(Hl & _)%validate_entries_ok _]. exact Hl. }
  rewrite Hrun. unfold rc_finish. pose proof Hi as [F1 F2 _ _ _ _ _ _ _ F6 F7].
  assert (walk_complete c' = true) as ->.
  { unfold walk_complete, progress. cbn [rp_done]. by rewrite F1, F2, F6, F7. }
  rewrite (walk_result s t0 c' Hin Hi). f_equal. apply list_to_set_perm_L.
  unfold f_blobs in Hw. cbn [fmap list_fmap concat] in Hw. rewrite app_nil_r in Hw.
  rewrite <-Hw, <-list_fmap_compose. apply Permutation_refl', list_fmap_ext.
  intros _ t _. apply blob_hash.
Qed.

(** The reachability walk is exact: for the root of a stored vault it
    runs to the end within its node and entry budgets and returns the
    addresses of the objects the vault was written as, no more and no
    fewer, whatever else the store holds. *)
Theorem reachable_exact es s :
  entries_ok es → stored s (written es) →
  reachable_hashes s (root_of es) = Ok (list_to_set (hash_bytes <$> written es)).
Proof. apply reachable_run. Qed.
End objects.

(** * Garbage collection *)
Section gc.
Context {B3 : Blake3}.

(** C17: collecting the garbage of the resident store with what the walk
    found keeps the vault: with no candidate baseline open the collection
    runs, the same entries load from the same root afterwards, and every
    object that is not part of the vault is gone. *)
Theorem gc_keeps_vault es (s : MemoryChunkStore) :
  mem_wf s → ms_active_baseline s = None → entries_ok es → stored s (written es) →
  ∃ live before after removed s',
    reachable_hashes s (root_of es) = Ok live ∧
    retain_chunks live s = Some (before, after, removed, s') ∧
    load_all_entries_v2 (root_of es) s' = Ok es ∧
    reachable_hashes s' (root_of es) = Ok live ∧
    ∀ h, cs_has h s' = true → ∃ b, b ∈ written es ∧ hash_bytes b = h.
Proof.
  intros Hw Hb Hes Hst. pose proof (reachable_run es s Hes Hst) as Hr.
  remember (list_to_set (hash_bytes <$> written es)) as live eqn:El in Hr.
  assert (∃ before after removed s', retain_chunks live s = Some (before, after, removed, s'))
    as (before & after & removed & s' & Hret).
  { unfold retain_chunks. rewrite Hb. destruct (fold_left _ _ _) as [[??]?]. eauto. }
  destruct (retain_chunks_map _ _ _ _ _ _ Hw Hret) as (_ & _ & _ & _ & Hm).
  assert (stored s' (written es)) as Hst'.
  { intros b Hin. specialize (Hst b Hin). cbn [cs_get mem_chunk_store] in *. rewrite Hm.
    rewrite bool_decide_eq_true_2; [done|]. rewrite El.
    apply elem_of_list_to_set, list_elem_of_fmap. eauto. }
  exists live, before, after, removed, s'.
  split; [exact Hr|]. split; [exact Hret|]. split; [by apply load_all_entries_run|].
  split; [rewrite El; by apply reachable_run|]. clear Hret. rewrite El in Hm.
  intros h. cbn [cs_has mem_chunk_store]. rewrite bool_decide_eq_true, Hm.
  case_bool_decide as Hin; [|by intros [??]]. intros _.
  apply elem_of_list_to_set, list_elem_of_fmap in Hin as (b & -> & Hin). eauto.
Qed.
End gc.

(** * Retirement *)

Definition items (o : option (list RangeRef)) : N := match o with Some l => len l | None => 0 end.
Definition hash_items (o : option (list FileHash)) : N := match o with Some l => len l | None => 0 end.

(** The items the cursor still owns. *)
Definition owned (c : V2ReachabilityCursor) : N :=
  items (rc_expanding c) + (len (rc_pending c) + items (rc_retiring_pending c))
  + (N.of_nat (size (rc_descriptors c)) + items (rc_retiring_descriptors c))
  + (N.of_nat (size (rc_reachable c)) + hash_items (rc_retiring_hashes c)).

(** The calls one collection takes: one for each item and one for the empty
    allocation. *)
Definition calls (moved : option N) (allocated : bool) (n : N) : N :=
  match moved with Some k => k + 1 | None => if allocated then n + 1 else 0 end.
Definition expand_calls (c : V2ReachabilityCursor) : N :=
  match rc_expanding c with Some l => len l + 1 | None => 0 end.
Definition pending_calls (c : V2ReachabilityCursor) : N :=
  calls (len <$> rc_retiring_pending c) (rc_pending_allocated c) (len (rc_pending c)).
Definition descriptor_calls (c : V2ReachabilityCursor) : N :=
  calls (len <$> rc_retiring_descriptors c) (rc_descriptors_allocated c)
    (N.of_nat (size (rc_descriptors c))).
Definition hash_calls (c : V2ReachabilityCursor) : N :=
  calls (len <$> rc_retiring_hashes c) (rc_reachable_allocated c) (N.of_nat (size (rc_reachable c))).
Definition calls_left (c : V2ReachabilityCursor) : N :=
  match rc_retirement_phase c with
  | 0 => expand_calls c + pending_calls c + descriptor_calls c + hash_calls c
  | 1 => pending_calls c + descriptor_calls c + hash_calls c
  | 2 => descriptor_calls c + hash_calls c
  | 3 => hash_calls c
  | _ => 0
  end.

(** A collection is empty once it was moved out or has no allocation, and
    nothing is left of the phases that are over. *)
Record retire_wf (c : V2ReachabilityCursor) : Prop := {
  rw_pending : is_Some (rc_retiring_pending c) → rc_pending_allocated c = false;
  rw_pending_nil : rc_pending_allocated c = false → rc_pending c = [];
  rw_descriptors : is_Some (rc_retiring_descriptors c) → rc_descriptors_allocated c = false;
  rw_descriptors_nil : rc_descriptors_allocated c = false → rc_descriptors c = ∅;
  rw_reachable : is_Some (rc_retiring_hashes c) → rc_reachable_allocated c = false;
  rw_reachable_nil : rc_reachable_allocated c = false → rc_reachable c = ∅;
  rw_expanded : 1 ≤ rc_retirement_phase c → rc_expanding c = None;
  rw_no_pending : 2 ≤ rc_retirement_phase c →
    rc_pending_allocated c = false ∧ rc_retiring_pending c = None;
  rw_no_descriptors : 3 ≤ rc_retirement_phase c →
    rc_descriptors_allocated c = false ∧ rc_retiring_descriptors c = None;
  rw_no_hashes : 4 ≤ rc_retirement_phase c →
    rc_reachable_allocated c = false ∧ rc_retiring_hashes c = None;
  rw_phase : rc_retirement_phase c ≤ 4;
}.

(** What one round of the loop does. *)
Definition round_ok (c : V2ReachabilityCursor) (r : option bool * V2ReachabilityCursor) : Prop :=
  retire_wf r.2 ∧
  match r.1 with
  | Some true => calls_left c = calls_left r.2 + 1 ∧ owned r.2 ≤ owned c ≤ owned r.2 + 1
  | Some false => calls_left c = 0 ∧ owned r.2 = 0
  | None => calls_left c = calls_left r.2 ∧ owned c = owned r.2
            ∧ rc_retirement_phase r.2 = rc_retirement_phase c + 1
  end.

Lemma size_values (m : gmap FileHash RangeRef) : len (map_to_list m).*2 = N.of_nat (size m).
Proof. rewrite len_fmap. unfold len. by rewrite length_map_to_list. Qed.

Lemma size_elements (X : gset FileHash) : len (elements X) = N.of_nat (size X).
Proof. done. Qed.

Lemma moved_eq {A B} (o : option A) (b : bool) (x e : B) :
  (is_Some o → b = false) → (b = false → x = e) →
  match o with Some _ => e | None => x end = x.
Proof. destruct o; [|done]. intros H1 H2. symmetry. by apply H2, H1. Qed.

Ltac round_fields :=
  cbn [fst snd rc_set_retire rc_pending rc_pending_allocated rc_expanding rc_reachable
       rc_reachable_allocated rc_descriptors rc_descriptors_allocated rc_retiring_pending
       rc_retiring_descriptors rc_retiring_hashes rc_retirement_phase fmap option_fmap option_map
       items hash_items calls negb] in *.
Ltac round_start c :=
  intros [W1 W1' W2 W2' W3 W3' W4 W5 W6 W7 _] E; unfold round_ok, retire_round;
  destruct c as [pe pea ex re rea de dea bu co se ret rp rd rh ph]; round_fields; subst ph;
  pose proof (moved_eq _ _ _ _ W1 W1') as Q1; pose proof (moved_eq _ _ _ _ W1 (λ E, E)) as Q1';
  pose proof (moved_eq _ _ _ _ W2 W2') as Q2; pose proof (moved_eq _ _ _ _ W2 (λ E, E)) as Q2';
  pose proof (moved_eq _ _ _ _ W3 W3') as Q3; pose proof (moved_eq _ _ _ _ W3 (λ E, E)) as Q3'.
Ltac round_done :=
  unfold rc_set_retire; round_fields;
  repeat match goal with Q : match ?o with Some _ => _ | None => _ end = _ |- _ => rewrite !Q; clear Q end;
  split; [split|]; unfold calls_left, owned, expand_calls, pending_calls, descriptor_calls,
    hash_calls; round_fields; rewrite ?map_size_empty, ?size_empty, ?len_cons, ?(@len_nil RangeRef), ?(@len_nil FileHash);
  try done; try lia.

Lemma round_phase0 c : retire_wf c → rc_retirement_phase c = 0 → round_ok c (retire_round c).
Proof. round_start c. destruct ex as [[|x l]|]; round_done. Qed.

Lemma round_phase1 c : retire_wf c → rc_retirement_phase c = 1 → round_ok c (retire_round c).
Proof.
  round_start c. rewrite W4 by done. destruct rp as [[|x l]|].
  1-2: rewrite (W1' (W1 (mk_is_Some _ _ eq_refl))), (W1 (mk_is_Some _ _ eq_refl)); round_done.
  destruct pea; [|by rewrite (W1' eq_refl); round_done].
  assert (len (rev pe) = len pe) as Hl by (unfold len; by rewrite length_rev).
  destruct (rev pe) as [|x l]; rewrite ?len_cons, ?len_nil in Hl; round_done.
Qed.

Lemma round_phase2 c : retire_wf c → rc_retirement_phase c = 2 → round_ok c (retire_round c).
Proof.
  round_start c. rewrite W4 by lia. destruct (W5 (N.le_refl _)) as [-> ->]. rewrite (W1' eq_refl).
  destruct rd as [[|x l]|].
  1-2: rewrite (W2' (W2 (mk_is_Some _ _ eq_refl))), (W2 (mk_is_Some _ _ eq_refl)); round_done.
  destruct dea; [|by rewrite (W2' eq_refl); round_done].
  pose proof (size_values de) as Hl.
  destruct ((map_to_list de).*2) as [|x l]; rewrite ?len_cons, ?(@len_nil RangeRef) in Hl; round_done.
Qed.

Lemma round_phase3 c : retire_wf c → rc_retirement_phase c = 3 → round_ok c (retire_round c).
Proof.
  round_start c. rewrite W4 by lia. destruct W5 as [-> ->]; [lia|]. rewrite (W1' eq_refl).
  destruct (W6 (N.le_refl _)) as [-> ->]. rewrite (W2' eq_refl).
  destruct rh as [[|x l]|].
  1-2: rewrite (W3' (W3 (mk_is_Some _ _ eq_refl))), (W3 (mk_is_Some _ _ eq_refl)); round_done.
  destruct rea; [|by rewrite (W3' eq_refl); round_done].
  pose proof (size_elements re) as Hl.
  destruct (elements re) as [|x l]; rewrite ?len_cons, ?(@len_nil FileHash) in Hl; round_done.
Qed.

Lemma round_phase4 c : retire_wf c → rc_retirement_phase c = 4 → round_ok c (retire_round c).
Proof.
  round_start c. rewrite W4 by lia. destruct W5 as [-> ->]; [lia|]. rewrite (W1' eq_refl).
  destruct W6 as [-> ->]; [lia|]. rewrite (W2' eq_refl).
  destruct (W7 (N.le_refl _)) as [-> ->]. rewrite (W3' eq_refl). round_done.
Qed.

Lemma retire_round_ok c : retire_wf c → round_ok c (retire_round c).
Proof.
  intros Hc. pose proof (rw_phase _ Hc) as Hp.
  destruct (rc_retirement_phase c) as [|[p|p|]] eqn:E.
  - by apply round_phase0.
  - destruct p; [lia|lia|]. by apply round_phase3.
  - destruct p as [|[]|]; [lia|lia|lia| |]; [by apply round_phase4|by apply round_phase2].
  - by apply round_phase1.
Qed.

Lemma retire_loop_ok (fuel : nat) c b c' :
  retire_wf c → 5 ≤ rc_retirement_phase c + N.of_nat fuel → retire_loop fuel c = (b, c') →
  retire_wf c' ∧
  if b then calls_left c = calls_left c' + 1 ∧ owned c' ≤ owned c ≤ owned c' + 1
  else calls_left c = 0 ∧ owned c' = 0.
Proof.
  revert c. induction fuel as [|fuel IH]; intros c Hc Hf; cbn [retire_loop].
  { pose proof (rw_phase _ Hc). lia. }
  pose proof (retire_round_ok c Hc) as [Hw Hr]. destruct (retire_round c) as [[[]|] c1]; cbn [fst snd] in *.
  1-2: by intros [= <- <-].
  destruct Hr as (E1 & E2 & E3). intros Hl. rewrite E1, E2. apply (IH c1); [done|lia|done].
Qed.

Lemma retire_one_ok c b c' :
  retire_wf c → retire_one c = (b, c') →
  retire_wf c' ∧
  if b then calls_left c = calls_left c' + 1 ∧ owned c' ≤ owned c ≤ owned c' + 1
  else calls_left c = 0 ∧ owned c' = 0.
Proof. intros Hc. apply retire_loop_ok; [done|lia]. Qed.

(** A call that had something to drop. *)
Definition retires (c c' : V2ReachabilityCursor) : Prop := retire_one c = (true, c').

Lemma retire_run c :
  retire_wf c →
  ∃ c' c'', nsteps retires (N.to_nat (calls_left c)) c c' ∧ retire_one c' = (false, c'')
    ∧ owned c'' = 0.
Proof.
  remember (N.to_nat (calls_left c)) as n eqn:En. revert c En. induction n as [|n IH]; intros c En Hc.
  - destruct (retire_one c) as [b c''] eqn:E. pose proof (retire_one_ok c b c'' Hc E) as [_ Hb].
    destruct b; [lia|]. exists c, c''. split_and!; [constructor|done|apply Hb].
  - destruct (retire_one c) as [b c1] eqn:E. pose proof (retire_one_ok c b c1 Hc E) as [Hw Hb].
    destruct b; [|lia]. destruct (IH c1) as (c' & c'' & Hs & Hl & Ho); [lia|done|].
    exists c', c''. split_and!; [by eapply nsteps_l|done..].
Qed.

Section retire.
Context {S : Type} {B3 : Blake3} {CS : ChunkStore S}.

(** Everything a client does with a cursor before it retires it, failed
    calls included. *)
Inductive rc_op (s : S) : V2ReachabilityCursor → V2ReachabilityCursor → Prop :=
  | op_seed range c : rc_op s c (seed_root_child range c).2
  | op_finish c c' : finish_seeding c = Some c' → rc_op s c c'
  | op_step max_units c : rc_op s c (rc_step s max_units c).2
  | op_take c : rc_op s c (take_reachable c).2.

Record live (c : V2ReachabilityCursor) : Prop := {
  lv_phase : rc_retirement_phase c = 0;
  lv_none : rc_retiring_pending c = None ∧ rc_retiring_descriptors c = None
            ∧ rc_retiring_hashes c = None;
  lv_pending : rc_pending_allocated c = false → rc_pending c = [];
  lv_descriptors : rc_descriptors_allocated c = false → rc_descriptors c = ∅;
  lv_reachable : rc_reachable_allocated c = false → rc_reachable c = ∅;
}.

Lemma live_wf c : live c → retire_wf c.
Proof.
  intros [E (N1 & N2 & N3) H1 H2 H3].
  split; rewrite ?N1, ?N2, ?N3, ?E; (done || lia || by intros [??]).
Qed.

Lemma live_set_walk c ps ex n : live c → live (rc_set_walk c ps ex n).
Proof.
  intros [? ? ? ? ?]. split; cbn; try done. intros [_ Hn]%orb_false_iff.
  apply negb_false_iff, bool_decide_eq_true in Hn. done.
Qed.
Lemma live_set_budget c b : live c → live (rc_set_budget c b).
Proof. by intros []. Qed.
Lemma live_record c r : live c → live (rc_record c r).
Proof. by intros []. Qed.

Lemma live_step_unit s c units :
  live c →
  match step_unit s (c, units) with inl (c', _) => live c' | inr (_, c', _) => live c' end.
Proof.
  intros Hc. unfold step_unit.
  repeat (case_match; simplify_eq;
          eauto using live_set_walk, live_set_budget, live_record).
Qed.

Lemma live_op s c c' : live c → rc_op s c c' → live c'.
Proof.
  intros Hc Ho. revert Hc. destruct Ho as [range c|c c' Hf|max_units c|c]; intros Hc.
  - unfold seed_root_child. case_match; cbn [snd]; [exact Hc|]. by apply live_set_walk.
  - unfold finish_seeding in Hf. case_match; simplify_eq. destruct Hc. by split.
  - unfold rc_step. case_match; [done|]. case_match; [done|]. case_match; [done|].
    match goal with |- context [bounded_loop _ ?p _] => rewrite (bounded_loop_nat _ p) end.
    match goal with |- context [nat_loop _ ?n _] => generalize n end. intros n.
    clear H H1. generalize 0. revert c Hc.
    induction n as [|n IH]; intros c Hc u; cbn [nat_loop]; [done|].
    pose proof (live_step_unit s c u Hc). destruct (step_unit s (c, u)) as [[c1 u1]|[[[] c1] u1]]; eauto.
  - unfold take_reachable. case_match; [|done]. destruct Hc. by split.
Qed.

Lemma live_calls c : live c → calls_left c ≤ owned c + 4.
Proof.
  intros [E (N1 & N2 & N3) _ _ _]. unfold calls_left, owned, expand_calls, pending_calls,
    descriptor_calls, hash_calls. rewrite E, N1, N2, N3. cbn [fmap option_fmap option_map calls items hash_items].
  destruct (rc_expanding c), (rc_pending_allocated c), (rc_descriptors_allocated c),
    (rc_reachable_allocated c); cbn [items]; lia.
Qed.

(** Retirement ends. Whatever was done with a cursor, calling
    [retire_one] until it says it is done takes [calls_left] calls, at most
    the items the cursor owns and one for each of its four collections; each
    call drops at most one item, and after the last one nothing is owned. *)
Theorem retire_terminates s root c0 c :
  rc_new root = Ok c0 → rtc (rc_op s) c0 c →
  calls_left c ≤ owned c + 4 ∧
  (∀ c1 c2, rtc retires c c1 → retires c1 c2 → owned c2 ≤ owned c1 ≤ owned c2 + 1) ∧
  ∃ c' c'', nsteps retires (N.to_nat (calls_left c)) c c' ∧ retire_one c' = (false, c'')
    ∧ owned c'' = 0.
Proof.
  intros Hn Hops. assert (live c) as Hl.
  { apply (rtc_ind_r (R := rc_op s) live c0); [|by intros; eapply live_op|done].
    unfold rc_new in Hn. destruct (validate_root_shape root); simplify_eq. done. }
  split_and!; [by apply live_calls| |by apply retire_run, live_wf].
  intros c1 c2 H1 H2. assert (retire_wf c1) as Hw.
  { apply (rtc_ind_r (R := retires) retire_wf c); [by apply live_wf| |done].
    intros y z _ Hr Hy. by apply (retire_one_ok y true z). }
  by apply (retire_one_ok c1 true c2).
Qed.
End retire.
