(* ===== verification/TreeV2Examples.v ===== *)
(** Tree v2 at work: concrete builds, updates, diffs and reachability walks,
    and the witnesses of the theorems. *)

From S2P Require Import Prelude Bytes Keyed Hash Chunk Concrete Store StoreProps TreeV1 TreeV1Merge.
From S2P Require Import TreeV1Build TreeV1Repr TreeV1Props Diff TreeV1Examples TreeV2Codec.
From S2P Require Import TreeV2CodecProps TreeV2Segment TreeV2 TreeV2Build TreeV2Store TreeV2Props.
From S2P Require Import VersionedRoot TreeV2Diff TreeV2DiffProps Reachability ReachabilityProps.
Local Open Scope N_scope.

Section small.
#[local] Existing Instance poly_blake3.

(** * The codecs *)

Definition ex_range : RangeRef :=
  {| rr_min_path := str "notes/a.md"; rr_max_path := str "notes/z.md";
     rr_hash := repeat x07 32; rr_file_count := 12; rr_serialized_bytes := 900;
     rr_height := 1 |}.
Definition ex_stored_root : RootNodeV2 :=
  {| r2_vault_id := str "vault"; r2_created_ms := 1700000000000;
     r2_tree := {| tv_version := 2; tv_total_files := 12; tv_child := Some ex_range |};
     r2_parent_hash := Some (repeat x09 32); r2_device_id := str "phone" |}.
Definition ex_stored_bytes : bytes :=
  Eval vm_compute in match r2_serialize ex_stored_root with Ok b => b | Err _ => [] end.

Lemma stored_root_canonical_witness :
  r2_serialize ex_stored_root = Ok ex_stored_bytes ∧ r2_deserialize ex_stored_bytes = Ok ex_stored_root.
Proof.
  assert (r2_serialize ex_stored_root = Ok ex_stored_bytes) as E by (vm_compute; reflexivity).
  split; [exact E|]. apply (stored_root_canonical ex_stored_root); [vm_compute; reflexivity|exact E].
Defined.

Definition ex_leaf : list FileEntry := [ex_entry "a.md" 1; ex_entry "b.md" 2].
Definition ex_leaf_bytes : bytes :=
  Eval vm_compute in match encode_leaf ex_leaf with Ok b => b | Err _ => [] end.

Lemma node_codec_canonical_witness :
  encode_leaf ex_leaf = Ok ex_leaf_bytes ∧ decode_node ex_leaf_bytes = Ok (V2Leaf ex_leaf).
Proof.
  assert (encode_leaf ex_leaf = Ok ex_leaf_bytes) as E by (vm_compute; reflexivity).
  split; [exact E|].
  apply (node_codec_canonical ex_leaf 1 [ex_range] ex_leaf_bytes);
    [vm_compute; reflexivity|discriminate|vm_compute; reflexivity|reflexivity|exact E].
Defined.

(** * Trees *)

Definition v2_old : list FileEntry :=
  [ex_entry "notes/b.md" 2; ex_entry "readme.md" 1; ex_entry "notes/a.md" 3; ex_entry "old/x" 9].
Definition v2_sorted : list FileEntry := Eval vm_compute in sort_by fe_path v2_old.
Definition v2_us : list FileEntry := [ex_entry "notes/b.md" 7; ex_entry "new/c.md" 4].
Definition v2_ds : list bytes := [str "old/x"; str "missing/y"].
Definition v2_new : list FileEntry := Eval vm_compute in merge_prefix_entries v2_sorted v2_us v2_ds.

Definition v2_objects : list bytes :=
  Eval vm_compute in remove_dups (written v2_sorted ++ written v2_new).
Definition v2_P (b : bytes) : Prop := b ∈ v2_objects.

Lemma v2_inj : injective_on hash_bytes v2_P.
Proof. apply NoDup_injective_on. by_decision. Qed.

Lemma v2_sorted_ok : entries_ok v2_sorted.
Proof. split; vm_compute; reflexivity. Qed.
Lemma v2_new_ok : entries_ok v2_new.
Proof. split; vm_compute; reflexivity. Qed.
Lemma v2_empty_ok : store_ok (S := MemoryChunkStore) v2_P ms_new.
Proof. intros h b. vm_compute. discriminate. Qed.

Lemma segment_entries_tiles_witness :
  ∃ segs, segment_entries v2_sorted = Ok segs ∧ concat (segment_slice v2_sorted <$> segs) = v2_sorted ∧
    Forall (λ g, g ≠ [] ∧ len g ≤ MAX_LEAF_ENTRIES ∧
                 ∃ b, encode_leaf g = Ok b ∧ len b ≤ MAX_NODE_BYTES) (segment_slice v2_sorted <$> segs).
Proof. apply segment_entries_tiles. exact v2_sorted_ok. Defined.

Lemma build_load_v2_witness :
  ∃ s', build_tree_v2 v2_old (ms_new) = (Ok (root_of (sort_by fe_path v2_old)), s') ∧
    load_all_entries_v2 (root_of (sort_by fe_path v2_old)) s' = Ok (sort_by fe_path v2_old) ∧
    store_ok v2_P s' ∧ store_le ms_new s'.
Proof.
  apply (build_load_v2 v2_P v2_inj).
  - exact v2_empty_ok.
  - exact v2_sorted_ok.
  - unfold v2_P. by_decision.
Defined.

Lemma update_is_rebuild_v2_witness :
  ∃ root stats s',
    update_tree_v2 (root_of v2_sorted) v2_us v2_ds (put_all (written v2_sorted) ms_new)
      = (Ok (root, stats), s') ∧
    (build_tree_v2 (merge_prefix_entries v2_sorted v2_us v2_ds)
       (put_all (written v2_sorted) ms_new)).1 = Ok root ∧
    load_all_entries_v2 root s' = Ok (merge_prefix_entries v2_sorted v2_us v2_ds) ∧
    load_all_entries_v2 (root_of v2_sorted) s' = Ok v2_sorted.
Proof.
  assert (Forall v2_P (written v2_sorted)) as HP by (unfold v2_P; by_decision).
  destruct (put_all_ok v2_P v2_inj (written v2_sorted) ms_new v2_empty_ok HP) as (Hs & _ & Hst).
  apply (update_is_rebuild_v2 v2_P v2_inj).
  - exact Hs.
  - exact v2_sorted_ok.
  - unfold short_paths. by_decision.
  - exact Hst.
  - apply Forall_forall. intros e He. repeat (apply elem_of_cons in He as [->|He];
      [vm_compute; reflexivity|]). by apply not_elem_of_nil in He.
  - apply Forall_forall. intros e He. repeat (apply elem_of_cons in He as [->|He];
      [vm_compute; reflexivity|]). by apply not_elem_of_nil in He.
  - exact v2_new_ok.
  - unfold v2_P. by_decision.
Defined.

End small.

(** * Long paths

    Sixty-three entries with 4,096-byte paths fill a leaf up to 938 bytes;
    whether a sixty-fourth record joins it depends on the length of that
    record. [update_tree] does not load the full leaf again when a short
    path is added right behind it. *)

Section long_paths.
(** A cheap content address: the first bytes and the length. *)
Definition prefix_hash_bytes (b : bytes) : FileHash :=
  take 24 (b ++ repeat x00 24) ++ le_bytes 8 (len b).
Lemma length_prefix_hash b : length (prefix_hash_bytes b) = 32%nat.
Proof.
  unfold prefix_hash_bytes.
  rewrite length_app, length_take, length_app, repeat_length, length_le_bytes. lia.
Qed.
Definition prefix_blake3 : Blake3 :=
  {| hash_bytes := prefix_hash_bytes; hash_bytes_length := length_prefix_hash |}.
#[local] Existing Instance prefix_blake3.

Definition long_entry (i : N) : FileEntry :=
  {| fe_path := repeat "b"%byte 4094 ++ [n2b (48 + i / 10); n2b (48 + i mod 10)];
     fe_hash := repeat x07 32; fe_mtime_ms := 0; fe_size_bytes := i |}.
Definition last_entry : FileEntry :=
  {| fe_path := repeat "d"%byte 4096; fe_hash := repeat x07 32; fe_mtime_ms := 0; fe_size_bytes := 0 |}.
Definition short_entry : FileEntry :=
  {| fe_path := str "c"; fe_hash := repeat x07 32; fe_mtime_ms := 0; fe_size_bytes := 0 |}.
Definition long_vault : list FileEntry :=
  (long_entry <$> (N.of_nat <$> seq 0 63)) ++ [last_entry].
Definition long_vault_next : list FileEntry :=
  (long_entry <$> (N.of_nat <$> seq 0 63)) ++ [short_entry; last_entry].

(** The file counts of the leaves after the update, and after a rebuild. *)
Definition leaf_counts (r : result ChunkError TreeV2Root * MemoryChunkStore) : list N :=
  match r with
  | (Ok root, s) =>
      match leaf_ranges root s with Ok rs => rr_file_count <$> rs | Err _ => [] end
  | (Err _, _) => []
  end.
Definition then_update (us : list FileEntry) (r : result ChunkError TreeV2Root * MemoryChunkStore)
    : result ChunkError TreeV2Root * MemoryChunkStore :=
  match r with
  | (Ok root, s) =>
      match update_tree_v2 root us [] s with
      | (Ok (root', _), s') => (Ok root', s')
      | (Err e, s') => (Err e, s')
      end
  | (Err e, s) => (Err e, s)
  end.
Definition updated_counts : list N :=
  leaf_counts (then_update [short_entry] (build_tree_v2 long_vault ms_new)).
Definition rebuilt_counts : list N := leaf_counts (build_tree_v2 long_vault_next ms_new).

(** With 4,096-byte paths the localized update is not the canonical
    rebuild: adding one entry to the stored vault gives leaves of 63 and 2
    files, building the same 65 entries gives leaves of 64 and 1, so one
    vault has two roots depending on its history. *)
Theorem update_not_canonical_long_paths :
  updated_counts = [63; 2] ∧ rebuilt_counts = [64; 1] ∧
  merge_prefix_entries long_vault [short_entry] [] = long_vault_next.
Proof. split_and!; [vm_compute; reflexivity|vm_compute; reflexivity|by_decision]. Qed.
End long_paths.


#[local] Existing Instance poly_blake3.
#[local] Existing Instance plain_flatbuffers.

(** Both vaults in one store. *)
Definition dx_store : MemoryChunkStore := put_all (written v2_sorted ++ written v2_new) ms_new.

Lemma dx_stored : stored dx_store (written v2_sorted) ∧ stored dx_store (written v2_new).
Proof.
  assert (Forall v2_P (written v2_sorted ++ written v2_new)) as HP by (unfold v2_P; by_decision).
  destruct (put_all_ok v2_P v2_inj _ ms_new v2_empty_ok HP) as (_ & _ & Hst).
  split; intros b Hb; apply Hst, elem_of_app; auto.
Qed.

Lemma dx_roots :
  injective_on hash_bytes (λ b, b = root_blob (root_of v2_sorted) ∨ b = root_blob (root_of v2_new)).
Proof.
  assert (hash_bytes (root_blob (root_of v2_sorted)) ≠ hash_bytes (root_blob (root_of v2_new)))
    as Hne by by_decision.
  intros x y [->| ->] [->| ->] E; congruence.
Qed.

Lemma tree_diff_is_flat_diff_witness :
  ∃ stats, compute_deltas_with_stats_v2 dx_store (root_of v2_sorted) (root_of v2_new)
      = Ok {| dr_deltas := detect_renames (diff_entries v2_sorted v2_new); dr_stats := stats |}
    ∧ apply_deltas (detect_renames (diff_entries v2_sorted v2_new)) (entries_map v2_sorted)
      = entries_map v2_new.
Proof.
  destruct dx_stored as [H1 H2].
  apply (tree_diff_is_flat_diff v2_sorted v2_new dx_store);
    [exact v2_sorted_ok|exact v2_new_ok|exact H1|exact H2|vm_compute; discriminate|exact dx_roots].
Defined.

Definition dx_root (es : list FileEntry) : VersionedRoot :=
  V2 {| r2_vault_id := str "vault"; r2_created_ms := 0; r2_tree := root_of es;
        r2_parent_hash := None; r2_device_id := str "laptop" |}.

Lemma dx_holds es :
  entries_ok es → stored dx_store (written es) → len es ≤ MAX_LOADED_ENTRIES →
  vr_holds v2_P dx_store (dx_root es) (entries_map es).
Proof.
  intros He Hs Hl. pose proof He as [(_ & _ & Hso)%validate_entries_ok _].
  split; [by rewrite size_entries_map|]. by exists es.
Qed.

Lemma versioned_deltas_exact_witness :
  ∃ ds, compute_versioned_deltas dx_store (dx_root v2_sorted) (dx_root v2_new) = Ok ds
    ∧ exact_delta (effects ds) (entries_map v2_sorted) (entries_map v2_new)
    ∧ apply_deltas ds (entries_map v2_sorted) = entries_map v2_new ∧ wsorted delta_path ds.
Proof.
  destruct dx_stored as [H1 H2].
  apply (versioned_deltas_exact v2_P).
  - apply dx_holds; [exact v2_sorted_ok|exact H1|vm_compute; discriminate].
  - apply dx_holds; [exact v2_new_ok|exact H2|vm_compute; discriminate].
  - exact dx_roots.
  - rewrite !size_entries_map; [vm_compute; discriminate|..];
      [destruct v2_new_ok as [(_ & _ & ?)%validate_entries_ok _]
      |destruct v2_sorted_ok as [(_ & _ & ?)%validate_entries_ok _]]; done.
Defined.



Lemma reachable_exact_witness :
  reachable_hashes dx_store (root_of v2_sorted)
    = Ok (list_to_set (hash_bytes <$> written v2_sorted)).
Proof.
  destruct dx_stored as [H1 _].
  apply (reachable_exact v2_sorted dx_store); [exact v2_sorted_ok|exact H1].
Defined.

Lemma dx_wf : mem_wf dx_store ∧ ms_active_baseline dx_store = None.
Proof.
  split; [|vm_compute; reflexivity].
  apply (mem_steps_wf ms_new).
  { split; cbn; [apply counts_new|by intros h c; rewrite lookup_empty|done]. }
  unfold dx_store. set (bs := written v2_sorted ++ written v2_new). clearbody bs.
  generalize (ms_new). induction bs as [|b bs IH]; intros s; [done|].
  eapply rtc_l; [|apply IH]. apply mem_insert.
Qed.

(** The store also holds the objects of the second vault, which go. *)
Lemma gc_keeps_vault_witness :
  ∃ live before after removed s',
    reachable_hashes dx_store (root_of v2_sorted) = Ok live ∧
    retain_chunks live dx_store = Some (before, after, removed, s') ∧
    load_all_entries_v2 (root_of v2_sorted) s' = Ok v2_sorted ∧
    reachable_hashes s' (root_of v2_sorted) = Ok live ∧
    ∀ h, cs_has h s' = true → ∃ b, b ∈ written v2_sorted ∧ hash_bytes b = h.
Proof.
  destruct dx_stored as [H1 _]. destruct dx_wf as [H2 H3].
  apply (gc_keeps_vault v2_sorted dx_store); [exact H2|exact H3|exact v2_sorted_ok|exact H1].
Defined.

(** A cursor in the middle of its walk: seeded and three units in. *)
Definition rx_child : RangeRef := default (leaf_ref []) (tv_child (root_of v2_sorted)).
Definition rx_start : V2ReachabilityCursor :=
  {| rc_pending := []; rc_pending_allocated := false; rc_expanding := None;
     rc_reachable := ∅; rc_reachable_allocated := false;
     rc_descriptors := ∅; rc_descriptors_allocated := false;
     rc_budget := tb_default; rc_completed := 0; rc_seeding_complete := false;
     rc_retiring := false; rc_retiring_pending := None; rc_retiring_descriptors := None;
     rc_retiring_hashes := None; rc_retirement_phase := 0 |}.
Definition rx_seeded : V2ReachabilityCursor := (seed_root_child rx_child rx_start).2.
Definition rx_ready : V2ReachabilityCursor := default rx_seeded (finish_seeding rx_seeded).
Definition rx_middle : V2ReachabilityCursor := (rc_step dx_store 3 rx_ready).2.

Lemma retire_terminates_witness :
  calls_left rx_middle ≤ owned rx_middle + 4 ∧
  (∀ c1 c2, rtc retires rx_middle c1 → retires c1 c2 → owned c2 ≤ owned c1 ≤ owned c2 + 1) ∧
  ∃ c' c'', nsteps retires (N.to_nat (calls_left rx_middle)) rx_middle c'
    ∧ retire_one c' = (false, c'') ∧ owned c'' = 0.
Proof.
  apply (retire_terminates dx_store (root_of v2_sorted) rx_start rx_middle).
  - unfold rc_new. rewrite (root_of_shape v2_sorted dx_store); [reflexivity|exact v2_sorted_ok|].
    exact (proj1 dx_stored).
  - eapply rtc_l; [apply (op_seed dx_store rx_child)|].
    eapply rtc_l; [apply (op_finish dx_store _ rx_ready); reflexivity|].
    apply rtc_once. apply (op_step dx_store 3).
Defined.

(** It owns a descriptor and an address, and three of its collections have an
    allocation. *)
Lemma rx_middle_owned : (calls_left rx_middle, owned rx_middle) = (5, 2).
Proof. vm_compute. reflexivity. Qed.
