(* ===== verification/Merge.v ===== *)
(** src/crates/sync-core/src/merge.rs: the server-side three-way merge of two
    trees that diverged from a common ancestor.

    [merge_entry_lists] decides file by file; [merge_trees] decides whole
    directories of Tree v1 by their hash first; [merge_versioned_trees]
    flattens any pair that involves Tree v2. Files edited on both sides go
    through [try_text_merge] in a post-pass over the content store. *)

From S2P Require Import Prelude Bytes Keyed Hash Chunk Store TreeV1 TreeV2Codec TreeV2.
From S2P Require Import VersionedRoot SyncRules ContentStore FastCdc Conflict.
Local Open Scope N_scope.

Record MergeResult := {
  mr_new_root : RootNode;
  mr_file_conflicts : list FileConflict;
  mr_auto_resolved_count : N;
  mr_text_merged_count : N;
}.

Record VersionedMergeResult := {
  vmr_new_root : VersionedRoot;
  vmr_file_conflicts : list FileConflict;
  vmr_auto_resolved_count : N;
  vmr_text_merged_count : N;
}.

Record TextMergeTodo := {
  tt_path : bytes;
  tt_base_hash : FileHash;
  tt_a : FileEntry;
  tt_b : FileEntry;
}.

(** The four [&mut] accumulators the merge threads through its calls. *)
Record MergeAcc := {
  ma_merged : list FileEntry;
  ma_conflicts : list FileConflict;
  ma_auto_resolved : N;
  ma_text_todo : list TextMergeTodo;
}.

Definition ma_new : MergeAcc :=
  {| ma_merged := []; ma_conflicts := []; ma_auto_resolved := 0; ma_text_todo := [] |}.

Definition push_merged (e : FileEntry) (acc : MergeAcc) : MergeAcc := {|
  ma_merged := ma_merged acc ++ [e]; ma_conflicts := ma_conflicts acc;
  ma_auto_resolved := ma_auto_resolved acc; ma_text_todo := ma_text_todo acc |}.
Definition push_conflict (c : FileConflict) (acc : MergeAcc) : MergeAcc := {|
  ma_merged := ma_merged acc; ma_conflicts := ma_conflicts acc ++ [c];
  ma_auto_resolved := ma_auto_resolved acc; ma_text_todo := ma_text_todo acc |}.
Definition auto_resolve (acc : MergeAcc) : MergeAcc := {|
  ma_merged := ma_merged acc; ma_conflicts := ma_conflicts acc;
  ma_auto_resolved := ma_auto_resolved acc + 1; ma_text_todo := ma_text_todo acc |}.
Definition push_todo (t : TextMergeTodo) (acc : MergeAcc) : MergeAcc := {|
  ma_merged := ma_merged acc; ma_conflicts := ma_conflicts acc;
  ma_auto_resolved := ma_auto_resolved acc; ma_text_todo := ma_text_todo acc ++ [t] |}.

(** [iter().map(|x| (key(x), x)).collect::<HashMap>()]: the last one wins. *)
Definition hash_map {A V} (key : A → bytes) (val : A → V) (l : list A) : gmap bytes V :=
  list_to_map ((λ a, (key a, val a)) <$> rev l).

(** * File level *)

(** [a.min(b)]: the first of two equal strings. *)
Definition str_min (a b : bytes) : bytes := if ble a b then a else b.

Definition peek (l : list FileEntry) : option bytes := fe_path <$> head l.

(** Drop the head of [l] when its path is [p]. *)
Definition advance (p : bytes) (l : list FileEntry) : list FileEntry :=
  match l with
  | e :: l' => if beq (fe_path e) p then l' else l
  | [] => []
  end.

(** The least head of the three slices: the arms of the source's match, in
    each of which the slices whose head equals the result move on. *)
Definition least (a b c : option bytes) : option bytes :=
  match a, b, c with
  | None, None, None => None
  | Some a, None, None => Some a
  | None, Some b, None => Some b
  | None, None, Some c => Some c
  | Some a, Some b, None => Some (if ble a b then a else b)
  | Some a, None, Some c => Some (if ble a c then a else c)
  | None, Some b, Some c => Some (if ble b c then b else c)
  | Some a, Some b, Some c => Some (str_min (str_min a b) c)
  end.

(** The three-pointer loop; [last] is [paths.last()]. *)
Fixpoint path_loop (fuel : nat) (a b c : list FileEntry) (last : option bytes) : list bytes :=
  match fuel with
  | O => []
  | S fuel =>
      match least (peek a) (peek b) (peek c) with
      | None => []
      | Some p =>
          let rest := path_loop fuel (advance p a) (advance p b) (advance p c) (Some p) in
          if bool_decide (last = Some p) then rest else p :: rest
      end
  end.

Definition merge_paths (base a b : list FileEntry) : list bytes :=
  path_loop (S (length a + length b + length base)) a b base None.

Definition same_hash (x y : FileEntry) : bool := beq (fe_hash x) (fe_hash y).

(** The arms of the per-path match. *)
Definition merge_path (path : bytes) (base a b : option FileEntry) (acc : MergeAcc) : MergeAcc :=
  match base, a, b with
  | Some base, Some a, Some b =>
      if same_hash a base && same_hash b base then push_merged base acc
      else if same_hash b base then push_merged a (auto_resolve acc)
      else if same_hash a base then push_merged b (auto_resolve acc)
      else
        let acc := push_merged a acc in
        if same_hash a b then auto_resolve acc
        else push_todo {| tt_path := path; tt_base_hash := fe_hash base; tt_a := a; tt_b := b |} acc
  | None, Some a, None => push_merged a (auto_resolve acc)
  | None, None, Some b => push_merged b (auto_resolve acc)
  | None, Some a, Some b =>
      let acc := push_merged a acc in
      if negb (same_hash a b)
      then push_conflict {| fc_path := path; fc_base_hash := ZERO_HASH;
                            fc_side_a_hash := fe_hash a; fc_side_b_hash := fe_hash b |} acc
      else acc
  | Some base, None, Some b =>
      if same_hash b base then acc else push_merged b (auto_resolve acc)
  | Some base, Some a, None =>
      if same_hash a base then acc else push_merged a (auto_resolve acc)
  | Some _, None, None | None, None, None => acc
  end.

Definition merge_entry_lists (base a b : list FileEntry) (acc : MergeAcc) : MergeAcc :=
  let base_map := hash_map fe_path id base in
  let a_map := hash_map fe_path id a in
  let b_map := hash_map fe_path id b in
  fold_left (λ acc path, merge_path path (base_map !! path) (a_map !! path) (b_map !! path) acc)
    (merge_paths base a b) acc.

(** * Content level *)

(** [merged_entries.iter_mut().find(|e| e.path == path)] and the update. *)
Fixpoint patch_entry (path : bytes) (hash : FileHash) (size mtime : N) (l : list FileEntry)
    : list FileEntry :=
  match l with
  | [] => []
  | e :: l =>
      if beq (fe_path e) path
      then {| fe_path := fe_path e; fe_hash := hash; fe_mtime_ms := mtime; fe_size_bytes := size |} :: l
      else e :: patch_entry path hash size mtime l
  end.

Section merge.
Context {B3 : Blake3} {FB : FlatBuffers} {SM : Similar}.

Section content.
Context {C : Type} {CT : ContentStore C}.

Definition try_text_merge (todo : TextMergeTodo) (merged_entries : list FileEntry)
    : St C ChunkError (bool * list FileEntry) := λ c,
  if negb (is_text_file (tt_path todo))
     || (FILE_CHUNK_THRESHOLD <=? fe_size_bytes (tt_a todo))
     || (FILE_CHUNK_THRESHOLD <=? fe_size_bytes (tt_b todo))
  then (Ok (false, merged_entries), c)
  else
    match ct_get (tt_base_hash todo) c, ct_get (fe_hash (tt_a todo)) c,
          ct_get (fe_hash (tt_b todo)) c with
    | Ok base_bytes, Ok a_bytes, Ok b_bytes =>
        if negb (utf8 base_bytes) || negb (utf8 a_bytes) || negb (utf8 b_bytes)
        then (Ok (false, merged_entries), c)
        else
          match three_way_text_merge base_bytes a_bytes b_bytes with
          | Overlap => (Ok (false, merged_entries), c)
          | Merged merged =>
              if FILE_CHUNK_THRESHOLD <=? len merged then (Ok (false, merged_entries), c)
              else
                let merged_hash := hash_bytes merged in
                (let! _ :=
                   if negb (beq merged_hash (fe_hash (tt_a todo)))
                   then ct_put merged_hash merged else st_ret tt in
                 st_ret (true,
                   patch_entry (tt_path todo) merged_hash (len merged)
                     (N.max (fe_mtime_ms (tt_a todo)) (fe_mtime_ms (tt_b todo)))
                     merged_entries)) c
          end
    | _, _, _ => (Ok (false, merged_entries), c)
    end.

Definition todo_conflict (todo : TextMergeTodo) : FileConflict := {|
  fc_path := tt_path todo; fc_base_hash := tt_base_hash todo;
  fc_side_a_hash := fe_hash (tt_a todo); fc_side_b_hash := fe_hash (tt_b todo) |}.

(** [for todo in &text_todo]: merged entries, conflicts, merged count. *)
Fixpoint text_pass (todos : list TextMergeTodo) (merged : list FileEntry)
    (conflicts : list FileConflict) (count : N)
    : St C ChunkError (list FileEntry * list FileConflict * N) :=
  match todos with
  | [] => st_ret (merged, conflicts, count)
  | todo :: todos =>
      let! '(resolved, merged) := try_text_merge todo merged in
      if resolved : bool then text_pass todos merged conflicts (count + 1)
      else text_pass todos merged (conflicts ++ [todo_conflict todo]) count
  end.
End content.

(** * Directory level *)

Section trees.
Context {S : Type} {CS : ChunkStore S}.

Definition extend_merged (es : list FileEntry) (acc : MergeAcc) : MergeAcc := {|
  ma_merged := ma_merged acc ++ es; ma_conflicts := ma_conflicts acc;
  ma_auto_resolved := ma_auto_resolved acc; ma_text_todo := ma_text_todo acc |}.

(** [let entries = load_all_entries(store, h)?; for e in entries { push }] *)
Definition take_side (s : S) (h : FileHash) (acc : MergeAcc) : result ChunkError MergeAcc :=
  let? es := load_all_entries h s in Ok (extend_merged es acc).

(** The arms of the per-prefix match. *)
Definition merge_prefix (s : S) (base a b : option FileHash) (acc : MergeAcc)
    : result ChunkError MergeAcc :=
  match base, a, b with
  | Some bh, Some ah, Some bh2 =>
      if beq ah bh && beq bh2 bh then take_side s bh acc
      else if beq bh2 bh then take_side s ah (auto_resolve acc)
      else if beq ah bh then take_side s bh2 (auto_resolve acc)
      else
        let? base_entries := load_all_entries bh s in
        let? a_entries := load_all_entries ah s in
        let? b_entries := load_all_entries bh2 s in
        Ok (merge_entry_lists base_entries a_entries b_entries acc)
  | None, Some ah, None => take_side s ah (auto_resolve acc)
  | None, None, Some bh => take_side s bh (auto_resolve acc)
  | None, Some ah, Some bh =>
      let? a_entries := load_all_entries ah s in
      let? b_entries := load_all_entries bh s in
      Ok (merge_entry_lists [] a_entries b_entries acc)
  | Some bh, None, Some bh2 =>
      if beq bh2 bh then Ok acc else take_side s bh2 (auto_resolve acc)
  | Some bh, Some ah, None =>
      if beq ah bh then Ok acc else take_side s ah (auto_resolve acc)
  | Some _, None, None | None, None, None => Ok acc
  end.

Fixpoint merge_prefixes (s : S) (base a b : gmap bytes FileHash) (prefixes : list bytes)
    (acc : MergeAcc) : result ChunkError MergeAcc :=
  match prefixes with
  | [] => Ok acc
  | p :: prefixes =>
      let? acc := merge_prefix s (base !! p) (a !! p) (b !! p) acc in
      merge_prefixes s base a b prefixes acc
  end.

Definition children_map (r : RootNode) : gmap bytes FileHash :=
  hash_map fst snd (rn_children r).

(** Keys of the three maps, sorted and deduplicated. *)
Definition all_prefixes (base a b : gmap bytes FileHash) : list bytes :=
  dedup_by id (sort_by id
    ((map_to_list base).*1 ++ (map_to_list a).*1 ++ (map_to_list b).*1)).

Context {C : Type} {CT : ContentStore C}.

(** [merge_trees]: the chunk store and the content store are threaded. *)
Definition merge_trees (now : N) (base side_a side_b : RootNode) (s : S) (c : C)
    : result ChunkError MergeResult * S * C :=
  let base_map := children_map base in
  let a_map := children_map side_a in
  let b_map := children_map side_b in
  match merge_prefixes s base_map a_map b_map (all_prefixes base_map a_map b_map) ma_new with
  | Err e => (Err e, s, c)
  | Ok acc =>
      match text_pass (ma_text_todo acc) (ma_merged acc) (ma_conflicts acc) 0 c with
      | (Err e, c) => (Err e, s, c)
      | (Ok (merged, conflicts, text_merged), c) =>
          let all_entries := dedup_by fe_path (sort_by fe_path merged) in
          match build_tree now all_entries (rn_vault_id side_a) (str "server") s with
          | (Err e, s) => (Err e, s, c)
          | (Ok new_root, s) =>
              (Ok {| mr_new_root :=
                       {| rn_vault_id := rn_vault_id new_root;
                          rn_created_ms := rn_created_ms new_root;
                          rn_version := rn_version new_root;
                          rn_children := rn_children new_root;
                          rn_total_files := rn_total_files new_root;
                          rn_parent_hash := Some (root_hash side_a);
                          rn_device_id := rn_device_id new_root |};
                     mr_file_conflicts := conflicts;
                     mr_auto_resolved_count := ma_auto_resolved acc;
                     mr_text_merged_count := text_merged |}, s, c)
          end
      end
  end.

Definition merge_versioned_trees (now : N) (base side_a side_b : VersionedRoot) (s : S) (c : C)
    : result ChunkError VersionedMergeResult * S * C :=
  match base, side_a, side_b with
  | V1 base, V1 side_a, V1 side_b =>
      match merge_trees now base side_a side_b s c with
      | (Err e, s, c) => (Err e, s, c)
      | (Ok r, s, c) =>
          (Ok {| vmr_new_root := V1 (mr_new_root r);
                 vmr_file_conflicts := mr_file_conflicts r;
                 vmr_auto_resolved_count := mr_auto_resolved_count r;
                 vmr_text_merged_count := mr_text_merged_count r |}, s, c)
      end
  | _, _, _ =>
      match vr_load_all_entries base s, vr_load_all_entries side_a s,
            vr_load_all_entries side_b s with
      | Ok base_entries, Ok a_entries, Ok b_entries =>
          let acc := merge_entry_lists base_entries a_entries b_entries ma_new in
          match text_pass (ma_text_todo acc) (ma_merged acc) (ma_conflicts acc) 0 c with
          | (Err e, c) => (Err e, s, c)
          | (Ok (merged, conflicts, text_merged), c) =>
              let merged := dedup_by fe_path (sort_by fe_path merged) in
              match build_root now merged (vr_version side_a) (vr_vault_id side_a)
                      (str "server") s with
              | (Err e, s) => (Err e, s, c)
              | (Ok new_root, s) =>
                  (Ok {| vmr_new_root :=
                           set_history_metadata 0 (Some (vr_hash side_a)) (str "server") new_root;
                         vmr_file_conflicts := conflicts;
                         vmr_auto_resolved_count := ma_auto_resolved acc;
                         vmr_text_merged_count := text_merged |}, s, c)
              end
          end
      | Err e, _, _ => (Err e, s, c)
      | Ok _, Err e, _ => (Err e, s, c)
      | Ok _, Ok _, Err e => (Err e, s, c)
      end
  end.
End trees.
End merge.
