(* ===== verification/MergeProps.v ===== *)
(** The three-way merge, file level: the linear pass over three sorted lists
    computes, path by path, the resolution [merge3], and reports exactly the
    files that both sides edited differently. *)

From S2P Require Import Prelude Bytes Keyed Hash Chunk Store TreeV1 TreeV1Merge.
From S2P Require Import TreeV2Codec VersionedRoot SyncRules ContentStore FastCdc Conflict Merge.
Local Open Scope N_scope.

(** * The resolution of one file *)

(** Two versions of a file have the same content, or both are absent. *)
Definition same (x y : option FileEntry) : bool := bool_decide (fe_hash <$> x = fe_hash <$> y).

(** Take the side that changed the content; when both did, an edit wins over
    a deletion, and side A stands for two edits. *)
Definition merge3 (base a b : option FileEntry) : option FileEntry :=
  if same a base then if same b base then base else b
  else if same b base then a
  else match a with Some a => Some a | None => b end.

(** Both sides wrote different contents. *)
Definition clash (base a b : option FileEntry) : bool :=
  negb (same a base) && negb (same b base) && negb (same a b) &&
  bool_decide (is_Some a) && bool_decide (is_Some b).

Definition todo3 (path : bytes) (base a b : option FileEntry) : option TextMergeTodo :=
  match base, a, b with
  | Some base, Some a, Some b =>
      if clash (Some base) (Some a) (Some b)
      then Some {| tt_path := path; tt_base_hash := fe_hash base; tt_a := a; tt_b := b |}
      else None
  | _, _, _ => None
  end.

Definition conflict3 (path : bytes) (base a b : option FileEntry) : option FileConflict :=
  match base, a, b with
  | None, Some a, Some b =>
      if clash None (Some a) (Some b)
      then Some {| fc_path := path; fc_base_hash := ZERO_HASH;
                   fc_side_a_hash := fe_hash a; fc_side_b_hash := fe_hash b |}
      else None
  | _, _, _ => None
  end.

Lemma same_hash_decide x y : same_hash x y = bool_decide (fe_hash x = fe_hash y).
Proof. done. Qed.

Lemma merge_path_spec path base a b acc :
  let acc' := merge_path path base a b acc in
  ma_merged acc' = ma_merged acc ++ option_list (merge3 base a b) ∧
  ma_conflicts acc' = ma_conflicts acc ++ option_list (conflict3 path base a b) ∧
  ma_text_todo acc' = ma_text_todo acc ++ option_list (todo3 path base a b).
Proof.
  assert (∀ x y : FileEntry, same (Some x) (Some y) = same_hash x y) as Hs.
  { intros x y. unfold same. rewrite same_hash_decide. apply bool_decide_ext.
    split; [intros [= E]; exact E|cbn; by intros ->]. }
  assert (∀ x : FileEntry, same (Some x) None = false ∧ same None (Some x) = false) as Hn by done.
  assert (∀ x y, same_hash x y = same_hash y x) as Hsym.
  { intros. rewrite !same_hash_decide. by apply bool_decide_ext. }
  destruct base as [e|], a as [ea|], b as [eb|]; cbn [merge_path conflict3 todo3];
    unfold merge3, clash; rewrite ?Hs, ?(proj1 (Hn _)), ?(proj2 (Hn _)); cbn;
    repeat (rewrite ?app_nil_r; case_match; bool_to_prop; cbn in * );
    rewrite ?app_nil_r; try (split_and!; congruence || done).
Qed.

(** * The path list *)

Lemma least_None a b c : least a b c = None → a = None ∧ b = None ∧ c = None.
Proof. by destruct a, b, c. Qed.

Definition ople (p : bytes) (o : option bytes) : Prop := ∀ q, o = Some q → ¬ q ≺ p.

Lemma bytes_nlt_trans (x y z : bytes) : ¬ y ≺ x → ¬ z ≺ y → ¬ z ≺ x.
Proof.
  intros Hyx Hzy Hzx. destruct (bytes_trichotomy x y) as [H|[->|H]]; [|done..].
  apply Hzy. by transitivity x.
Qed.

Lemma str_min_spec x y :
  (str_min x y = x ∨ str_min x y = y) ∧ ¬ x ≺ str_min x y ∧ ¬ y ≺ str_min x y.
Proof.
  unfold str_min. destruct (ble x y) eqn:E.
  - apply ble_true in E. split_and!; [by left| |done]. by intros ?%(irreflexivity bytes_lt).
  - split_and!; [by right| |by intros ?%(irreflexivity bytes_lt)].
    intros H. unfold ble in E. by rewrite H in E.
Qed.

Lemma least_Some a b c p :
  least a b c = Some p →
  (a = Some p ∨ b = Some p ∨ c = Some p) ∧ ople p a ∧ ople p b ∧ ople p c.
Proof.
  assert (∀ x : bytes, ¬ x ≺ x) as Hirr by (intros x; apply irreflexivity, _).
  unfold ople. destruct a as [a|], b as [b|], c as [c|]; cbn; intros [= <-];
    try fold (str_min a b); try fold (str_min a c); try fold (str_min b c).
  - destruct (str_min_spec a b) as ([E|E] & H1 & H2), (str_min_spec (str_min a b) c) as ([E'|E'] & H3 & H4);
      (split; [rewrite E', ?E; auto|]); split_and!; intros q [= <-]; eauto using bytes_nlt_trans.
  - destruct (str_min_spec a b) as ([E|E] & H1 & H2); (split; [rewrite E; auto|]); naive_solver.
  - destruct (str_min_spec a c) as ([E|E] & H1 & H2); (split; [rewrite E; auto|]); naive_solver.
  - naive_solver.
  - destruct (str_min_spec b c) as ([E|E] & H1 & H2); (split; [rewrite E; auto|]); naive_solver.
  - naive_solver.
  - naive_solver.
Qed.

(** [advance p] removes the head of a sorted slice that starts at [p] or
    later exactly when it is [p], and leaves later paths only. *)
Lemma advance_spec p l :
  ssorted fe_path l → ople p (peek l) →
  ssorted fe_path (advance p l) ∧ Forall (λ e, p ≺ fe_path e) (advance p l) ∧
  (∀ q, q ∈ fe_path <$> l ↔ (q = p ∧ peek l = Some p) ∨ q ∈ fe_path <$> advance p l) ∧
  (length (advance p l) ≤ length l)%nat ∧
  (peek l = Some p → S (length (advance p l)) = length l).
Proof.
  destruct l as [|e l]; [intros; split_and!; [constructor..| | |]; set_solver|].
  intros Hs Hp. pose proof Hs as [He Hl]%ssorted_cons. specialize (Hp _ eq_refl). cbn.
  destruct (beq (fe_path e) p) eqn:E.
  - apply beq_true in E. subst p. split_and!; [done|done| |lia|done]. set_solver.
  - assert (fe_path e ≠ p) as Hne by (intros H; by rewrite (proj2 (beq_true _ _) H) in E).
    assert (p ≺ fe_path e) by (destruct (bytes_trichotomy p (fe_path e)) as [?|[?|?]]; congruence || done).
    split_and!; [done| |set_solver|done|congruence].
    constructor; [done|]. eapply Forall_impl; [exact He|]. intros x Hx. by transitivity (fe_path e).
Qed.

Lemma path_loop_spec fuel a b c last :
  ssorted fe_path a → ssorted fe_path b → ssorted fe_path c →
  (∀ q e, last = Some q → e ∈ a ∨ e ∈ b ∨ e ∈ c → q ≺ fe_path e) →
  (length a + length b + length c < fuel)%nat →
  ssorted id (path_loop fuel a b c last) ∧
  ∀ p, p ∈ path_loop fuel a b c last ↔
       p ∈ fe_path <$> a ∨ p ∈ fe_path <$> b ∨ p ∈ fe_path <$> c.
Proof.
  revert a b c last. induction fuel as [|fuel IH]; intros a b c last Ha Hb Hc Hlast Hf; [lia|].
  cbn [path_loop]. destruct (least (peek a) (peek b) (peek c)) as [p|] eqn:El.
  2: { apply least_None in El as (Ea & Eb & Ec). destruct a, b, c; try done. split; [constructor|set_solver]. }
  apply least_Some in El as (Hin & Pa & Pb & Pc).
  destruct (advance_spec p a Ha Pa) as (Sa & Fa & Ma & La & La').
  destruct (advance_spec p b Hb Pb) as (Sb & Fb & Mb & Lb & Lb').
  destruct (advance_spec p c Hc Pc) as (Sc & Fc & Mc & Lc & Lc').
  rewrite bool_decide_eq_false_2.
  2: { intros ->. assert (∃ e, (e ∈ a ∨ e ∈ b ∨ e ∈ c) ∧ fe_path e = p) as (e & He & <-).
       { destruct Hin as [H|[H|H]].
         - destruct a as [|e a]; [done|]. injection H as <-. exists e. set_solver.
         - destruct b as [|e b]; [done|]. injection H as <-. exists e. set_solver.
         - destruct c as [|e c]; [done|]. injection H as <-. exists e. set_solver. }
       by apply (irreflexivity bytes_lt (fe_path e)), (Hlast _ e). }
  rewrite Forall_forall in Fa, Fb, Fc.
  destruct (IH (advance p a) (advance p b) (advance p c) (Some p)) as [Hs Hm]; [done..| | |].
  { intros q e [= <-] [?|[?|?]]; auto. }
  { destruct Hin as [H|[H|H]]; [specialize (La' H)|specialize (Lb' H)|specialize (Lc' H)]; lia. }
  split.
  - apply ssorted_cons. split; [|done]. apply Forall_forall. intros q Hq%Hm.
    rewrite !list_elem_of_fmap in Hq. unfold id. naive_solver.
  - intros q. rewrite elem_of_cons, Hm, Ma, Mb, Mc. naive_solver.
Qed.

Lemma merge_paths_spec base a b :
  ssorted fe_path base → ssorted fe_path a → ssorted fe_path b →
  ssorted id (merge_paths base a b) ∧
  ∀ p, p ∈ merge_paths base a b ↔
       p ∈ fe_path <$> a ∨ p ∈ fe_path <$> b ∨ p ∈ fe_path <$> base.
Proof. intros. apply path_loop_spec; try done. lia. Qed.

(** * The whole pass *)

Lemma hash_map_entries l : NoDup (fe_path <$> l) → hash_map fe_path id l = entries_map l.
Proof.
  intros Hnd. unfold hash_map, entries_map, kmap. symmetry. apply list_to_map_proper.
  - by rewrite <-list_fmap_compose.
  - by rewrite (Permutation_rev l) at 1.
Qed.

Lemma fold_merge_path (f g h : bytes → option FileEntry) paths acc :
  let acc' := fold_left (λ acc p, merge_path p (f p) (g p) (h p) acc) paths acc in
  ma_merged acc' = ma_merged acc ++ omap (λ p, merge3 (f p) (g p) (h p)) paths ∧
  ma_conflicts acc' = ma_conflicts acc ++ omap (λ p, conflict3 p (f p) (g p) (h p)) paths ∧
  ma_text_todo acc' = ma_text_todo acc ++ omap (λ p, todo3 p (f p) (g p) (h p)) paths.
Proof.
  revert acc. induction paths as [|p paths IH]; intros acc; cbn [fold_left omap list_omap].
  { by rewrite !app_nil_r. }
  destruct (IH (merge_path p (f p) (g p) (h p) acc)) as (-> & -> & ->).
  destruct (merge_path_spec p (f p) (g p) (h p) acc) as (-> & -> & ->).
  rewrite <-!app_assoc. split_and!; f_equal; by case_match.
Qed.

Section lists.
Context (base a b : list FileEntry).
Context (Sbase : ssorted fe_path base) (Sa : ssorted fe_path a) (Sb : ssorted fe_path b).

Let at3 {X} (f : option FileEntry → option FileEntry → option FileEntry → X) (p : bytes) : X :=
  f (entries_map base !! p) (entries_map a !! p) (entries_map b !! p).

Lemma merge_entry_lists_run acc :
  let acc' := merge_entry_lists base a b acc in
  ma_merged acc' = ma_merged acc ++ omap (at3 merge3) (merge_paths base a b) ∧
  ma_conflicts acc' = ma_conflicts acc ++ omap (λ p, at3 (conflict3 p) p) (merge_paths base a b) ∧
  ma_text_todo acc' = ma_text_todo acc ++ omap (λ p, at3 (todo3 p) p) (merge_paths base a b).
Proof using Sbase Sa Sb.
  unfold merge_entry_lists. rewrite !hash_map_entries by (by apply ssorted_NoDup).
  apply (fold_merge_path (λ p, entries_map base !! p) (λ p, entries_map a !! p) (λ p, entries_map b !! p)).
Qed.

Lemma entries_map_path l p e : entries_map l !! p = Some e → fe_path e = p.
Proof.
  unfold entries_map. rewrite kmap_with_key. intros He.
  assert (e ∈ with_key fe_path p l) as [? _]%list_elem_of_filter; [|done].
  destruct (with_key fe_path p l); [done|]. injection He as ->. left.
Qed.

Lemma merge3_path p e : at3 merge3 p = Some e → fe_path e = p.
Proof using.
  unfold at3, merge3. repeat case_match; intros; simplify_eq; eauto using entries_map_path.
Qed.

Lemma at3_outside {X} (f : option FileEntry → option FileEntry → option FileEntry → X) p :
  p ∉ merge_paths base a b → at3 f p = f None None None.
Proof using Sbase Sa Sb.
  destruct (merge_paths_spec base a b Sbase Sa Sb) as [_ Hm]. rewrite Hm. intros Hp.
  unfold at3. by rewrite !(proj2 (kmap_lookup_None fe_path _ _)) by tauto.
Qed.

Lemma omap_keyed_ssorted {X} (key : X → bytes) (f : bytes → option X) ps :
  (∀ p x, f p = Some x → key x = p) → ssorted id ps → ssorted key (omap f ps).
Proof using.
  intros Hf. induction ps as [|p ps IH]; [intros; constructor|].
  intros [Hp Hps]%ssorted_cons. cbn. destruct (f p) as [x|] eqn:E; [|auto].
  apply ssorted_cons. split; [|auto]. apply Forall_forall. intros y (q & Hq & Ey)%list_elem_of_omap.
  rewrite (Hf _ _ E), (Hf _ _ Ey). rewrite Forall_forall in Hp. by apply (Hp q).
Qed.

Lemma merged_ssorted : ssorted fe_path (omap (at3 merge3) (merge_paths base a b)).
Proof using Sbase Sa Sb.
  apply omap_keyed_ssorted; [apply merge3_path|]. by apply merge_paths_spec.
Qed.

Lemma merged_lookup p :
  entries_map (omap (at3 merge3) (merge_paths base a b)) !! p = at3 merge3 p.
Proof using Sbase Sa Sb.
  apply option_eq. intros e. unfold entries_map.
  rewrite kmap_lookup_Some by (by apply ssorted_NoDup, merged_ssorted).
  rewrite list_elem_of_omap. split.
  - intros [(q & _ & E) <-]. pose proof (merge3_path _ _ E) as <-. done.
  - intros E. split; [|by eapply merge3_path]. exists p. split; [|done].
    destruct (decide (p ∈ merge_paths base a b)) as [|Hn]; [done|].
    by rewrite at3_outside in E.
Qed.

Lemma elem_of_omap_paths {X} (f : bytes → option FileEntry → option FileEntry → option FileEntry → option X) x :
  (∀ p, f p None None None = None) →
  x ∈ omap (λ p, at3 (f p) p) (merge_paths base a b) ↔ ∃ p, at3 (f p) p = Some x.
Proof using Sbase Sa Sb.
  intros Hf. rewrite list_elem_of_omap. split; [naive_solver|]. intros [p E]. exists p. split; [|done].
  destruct (decide (p ∈ merge_paths base a b)) as [|Hn]; [done|].
  by rewrite at3_outside, Hf in E.
Qed.

(** The file-level merge of three sorted lists: for every path the
    merged list holds the resolution of its three versions (the side that
    changed the content; an edit over a deletion), in strict path order;
    the files left for the content merge are exactly those both sides
    rewrote differently, and the immediate conflicts exactly those both
    sides created with different contents. *)
Theorem merge_entry_lists_exact :
  let acc := merge_entry_lists base a b ma_new in
  ssorted fe_path (ma_merged acc) ∧
  (∀ p, entries_map (ma_merged acc) !! p =
        merge3 (entries_map base !! p) (entries_map a !! p) (entries_map b !! p)) ∧
  (∀ t, t ∈ ma_text_todo acc ↔ ∃ p,
     todo3 p (entries_map base !! p) (entries_map a !! p) (entries_map b !! p) = Some t) ∧
  (∀ c, c ∈ ma_conflicts acc ↔ ∃ p,
     conflict3 p (entries_map base !! p) (entries_map a !! p) (entries_map b !! p) = Some c).
Proof using Sbase Sa Sb.
  intros acc. destruct (merge_entry_lists_run ma_new) as (Em & Ec & Et). subst acc.
  rewrite Em, Ec, Et. cbn [ma_new ma_merged ma_conflicts ma_text_todo app].
  split_and!; [apply merged_ssorted|apply merged_lookup|..];
    intros x; by apply elem_of_omap_paths.
Qed.
End lists.

(** The order of the two sides does not matter: merging A into B or B
    into A leaves every file with the same content, or absent on both, except
    the files both sides rewrote differently, and those are the same ones. *)
Theorem merge_order_independent base a b p :
  ssorted fe_path base → ssorted fe_path a → ssorted fe_path b →
  let base' := entries_map base !! p in
  let a' := entries_map a !! p in
  let b' := entries_map b !! p in
  clash base' a' b' = clash base' b' a' ∧
  (clash base' a' b' = false →
   fe_hash <$> entries_map (ma_merged (merge_entry_lists base a b ma_new)) !! p =
   fe_hash <$> entries_map (ma_merged (merge_entry_lists base b a ma_new)) !! p).
Proof.
  intros Sbase Sa Sb base' a' b'.
  assert (∀ x y, same x y = same y x) as Hsym by (intros; by apply bool_decide_ext).
  split.
  - unfold clash. rewrite (Hsym a' b'). repeat (case_match || case_bool_decide || destruct (same _ _)); done.
  - destruct (merge_entry_lists_run base a b Sbase Sa Sb ma_new) as (-> & _).
    destruct (merge_entry_lists_run base b a Sbase Sb Sa ma_new) as (-> & _).
    cbn [ma_new ma_merged app]. rewrite !merged_lookup by done. fold base' a' b'.
    unfold clash, merge3. destruct (same a' base') eqn:Ea, (same b' base') eqn:Eb; cbn [negb andb];
      [done|done|done|]. destruct (same a' b') eqn:Eab; cbn.
    + intros _. unfold same in Eab. case_bool_decide as E; [|done]. destruct a', b'; done.
    + destruct a' as [ea|], b' as [eb|]; cbn; done.
Qed.

(** * The content pass *)

Lemma patch_entry_paths p h sz mt l : fe_path <$> patch_entry p h sz mt l = fe_path <$> l.
Proof.
  induction l as [|e l IH]; [done|]. cbn [patch_entry]. destruct (beq _ _); csimpl; [done|by rewrite IH].
Qed.

Lemma patch_entry_lookup p h sz mt l q :
  entries_map (patch_entry p h sz mt l) !! q =
    if decide (q = p) then
      (λ e, {| fe_path := fe_path e; fe_hash := h; fe_mtime_ms := mt; fe_size_bytes := sz |})
        <$> entries_map l !! q
    else entries_map l !! q.
Proof.
  unfold entries_map. induction l as [|e l IH]; [by case_decide|]. cbn [patch_entry].
  unfold beq in *. case_bool_decide as E; rewrite !kmap_cons; cbn [fe_path].
  - subst p. case_decide as Eq; [subst; by rewrite !lookup_insert_eq|by rewrite !lookup_insert_ne].
  - destruct (decide (fe_path e = q)) as [<-|Hq].
    + rewrite !lookup_insert_eq. by rewrite decide_False.
    + by rewrite !lookup_insert_ne, IH.
Qed.

Section content.
Context {B3 : Blake3} {SM : Similar} {C : Type} {CT : ContentStore C} {CTL : ContentStoreLaws C}.

(** What the pass may do to one file: leave side A and report the conflict,
    or replace it by the line merge of the three stored texts. *)
Definition text_merged (c : C) (t : TextMergeTodo) (e : FileEntry) : Prop :=
  ∃ x y z m,
    ct_get (tt_base_hash t) c = Ok x ∧ ct_get (fe_hash (tt_a t)) c = Ok y ∧
    ct_get (fe_hash (tt_b t)) c = Ok z ∧ three_way_text_merge x y z = Merged m ∧
    len m < FILE_CHUNK_THRESHOLD ∧
    e = {| fe_path := tt_path t; fe_hash := hash_bytes m;
           fe_mtime_ms := N.max (fe_mtime_ms (tt_a t)) (fe_mtime_ms (tt_b t));
           fe_size_bytes := len m |}.

(** Contents are what their address says, and hashing separates them. *)
Context (Q : bytes → Prop) (Qinj : injective_on hash_bytes Q).

(** The line merge of the three texts of [t], whichever they are, is again a
    text that hashing separates. *)
Definition merges_in (t : TextMergeTodo) : Prop := ∀ x y z m,
  Q x → Q y → Q z → hash_bytes x = tt_base_hash t → hash_bytes y = fe_hash (tt_a t) →
  hash_bytes z = fe_hash (tt_b t) → three_way_text_merge x y z = Merged m → Q m.

Definition content_ok (c : C) : Prop := ∀ h d, ct_get h c = Ok d → hash_bytes d = h ∧ Q d.
Definition content_le (c c' : C) : Prop := ∀ h d, ct_get h c = Ok d → ct_get h c' = Ok d.

Lemma content_put m c c' :
  content_ok c → Q m → ct_put (hash_bytes m) m c = (Ok tt, c') → content_ok c' ∧ content_le c c'.
Proof using CTL Qinj.
  intros Hc Hm Hp. pose proof (ct_get_put _ _ _ Hp) as Hg. split.
  - intros h d Hd. destruct (decide (h = hash_bytes m)) as [->|Hne].
    + rewrite Hg in Hd. by injection Hd as <-.
    + rewrite (ct_get_put_ne _ _ _ _ Hp Hne) in Hd. by apply Hc.
  - intros h d Hd. destruct (decide (h = hash_bytes m)) as [->|Hne].
    + destruct (Hc _ _ Hd) as [E Hq]. rewrite Hg. f_equal. by apply Qinj.
    + by rewrite (ct_get_put_ne _ _ _ _ Hp Hne).
Qed.

Lemma text_merged_mono c c' t e : content_le c c' → text_merged c t e → text_merged c' t e.
Proof. intros Hle (x & y & z & m & H1 & H2 & H3 & H). exists x, y, z, m. split_and!; try by apply Hle. all: naive_solver. Qed.

(** The merged text can be read back under its hash. *)
Definition readable (c : C) (e : FileEntry) : Prop :=
  ∃ m, ct_get (fe_hash e) c = Ok m ∧ hash_bytes m = fe_hash e ∧ fe_size_bytes e = len m.

Lemma readable_mono c c' e : content_le c c' → readable c e → readable c' e.
Proof. intros Hle (m & H1 & H2). exists m. eauto. Qed.

Lemma try_text_merge_spec t merged c :
  content_ok c → merges_in t →
  ∃ resolved merged' c', try_text_merge t merged c = (Ok (resolved, merged'), c') ∧
    content_ok c' ∧ content_le c c' ∧
    if resolved : bool
    then ∃ e, text_merged c t e ∧ readable c' e ∧
              merged' = patch_entry (tt_path t) (fe_hash e) (fe_size_bytes e) (fe_mtime_ms e) merged
    else merged' = merged.
Proof using CTL Qinj.
  intros Hc Qmerge. assert (content_le c c) as Hrefl by (by intros h d).
  assert (∃ resolved merged' c', (Ok (E := ChunkError) (false, merged), c) = (Ok (resolved, merged'), c') ∧
    content_ok c' ∧ content_le c c' ∧ if resolved : bool then
      ∃ e, text_merged c t e ∧ readable c' e ∧
           merged' = patch_entry (tt_path t) (fe_hash e) (fe_size_bytes e) (fe_mtime_ms e) merged
    else merged' = merged) as Hno by (by exists false, merged, c).
  unfold try_text_merge. destruct (_ || _); [exact Hno|].
  destruct (ct_get (tt_base_hash t) c) as [x|] eqn:Hx; [|exact Hno].
  destruct (ct_get (fe_hash (tt_a t)) c) as [y|] eqn:Hy; [|exact Hno].
  destruct (ct_get (fe_hash (tt_b t)) c) as [z|] eqn:Hz; [|exact Hno].
  destruct (_ || _); [exact Hno|].
  destruct (three_way_text_merge x y z) as [m|] eqn:Hm; [|exact Hno].
  destruct (FILE_CHUNK_THRESHOLD <=? len m) eqn:Hl; [exact Hno|]. apply N.leb_gt in Hl.
  set (e := {| fe_path := tt_path t; fe_hash := hash_bytes m;
               fe_mtime_ms := N.max (fe_mtime_ms (tt_a t)) (fe_mtime_ms (tt_b t));
               fe_size_bytes := len m |}).
  assert (text_merged c t e) as Ht by (exists x, y, z, m; by split_and!).
  destruct (Hc _ _ Hx) as [Ex Qx], (Hc _ _ Hy) as [Ey Qy], (Hc _ _ Hz) as [Ez Qz].
  assert (Q m) as Qm by (by apply (Qmerge x y z)). unfold st_bind.
  destruct (beq (hash_bytes m) (fe_hash (tt_a t))) eqn:E; cbn [negb].
  - apply beq_true in E. exists true. do 2 eexists. split; [reflexivity|]. split_and!; [done..|].
    exists e. split_and!; [done| |done]. exists y. cbn. rewrite E at 1. split_and!; [done|congruence|].
    assert (m = y) as -> by (apply Qinj; [done..|congruence]). done.
  - destruct (ct_put_ok m c) as [c' Hp]. rewrite Hp. destruct (content_put m c c') as [Hc' Hle]; [done..|].
    exists true. do 2 eexists. split; [reflexivity|]. split_and!; [done..|].
    exists e. split_and!; [done| |done]. exists m. cbn. by rewrite (ct_get_put _ _ _ Hp).
Qed.

Lemma text_pass_spec todos merged conflicts count c :
  content_ok c → Forall merges_in todos → NoDup (tt_path <$> todos) →
  (∀ t, t ∈ todos → ∃ e, entries_map merged !! tt_path t = Some e ∧ fe_path e = tt_path t) →
  ∃ M R F c', text_pass todos merged conflicts count c =
      (Ok (M, conflicts ++ (todo_conflict <$> F), count + len R), c') ∧
    todos ≡ₚ R ++ F ∧ content_ok c' ∧ content_le c c' ∧
    fe_path <$> M = fe_path <$> merged ∧
    (∀ t, t ∈ R → ∃ e, text_merged c' t e ∧ readable c' e ∧ entries_map M !! tt_path t = Some e) ∧
    (∀ p, p ∉ tt_path <$> R → entries_map M !! p = entries_map merged !! p).
Proof using CTL Qinj.
  revert merged conflicts count c. induction todos as [|t todos IH]; intros merged conflicts count c Hc HQ Hnd Hin.
  { exists merged, [], [], c. cbn [text_pass]. rewrite app_nil_r, len_nil, N.add_0_r.
    split_and!; [done|done|done|by intros h d|done| |done]. by intros t ?%elem_of_nil. }
  csimpl in Hnd. apply NoDup_cons in Hnd as [Ht Hnd]. apply Forall_cons in HQ as [HQt HQ].
  cbn [text_pass]. destruct (try_text_merge_spec t merged c Hc HQt) as (b & merged' & c1 & Hrun & Hc1 & Hle1 & Hb).
  erewrite st_bind_run by exact Hrun. destruct b.
  - destruct Hb as (e & Hm & Hr & ->).
    destruct (IH (patch_entry (tt_path t) (fe_hash e) (fe_size_bytes e) (fe_mtime_ms e) merged)
                conflicts (count + 1) c1) as (M & R & F & c' & Hrun' & Hp & Hc' & Hle & Hpaths & HR & Hrest); [done..| |].
    { intros t' Ht'. rewrite patch_entry_lookup. destruct (Hin t') as (e' & E' & Hpath); [by right|].
      rewrite E'. case_decide; [|eauto]. eexists. split; [done|done]. }
    exists M, (t :: R), F, c'. rewrite Hrun', len_cons.
    split_and!; [do 2 f_equal; f_equal; lia|by rewrite Hp|done|by intros h d Hd; apply Hle, Hle1| | |].
    + by rewrite Hpaths, patch_entry_paths.
    + intros t' [->|Ht']%elem_of_cons; [|auto]. exists e.
      assert (content_le c c') as Hle' by (intros h d Hd; by apply Hle, Hle1).
      split_and!; [by apply (text_merged_mono c)|by apply (readable_mono c1)|].
      rewrite Hrest by (intros (t' & E' & Ht')%list_elem_of_fmap; apply Ht; rewrite E';
        apply list_elem_of_fmap_2; rewrite Hp; set_solver).
      rewrite patch_entry_lookup, decide_True by done. destruct (Hin t) as (e' & -> & Hpath); [left|].
      cbn. f_equal. destruct Hm as (x & y & z & m & _ & _ & _ & _ & _ & ->). cbn. by rewrite Hpath.
    + intros p Hp'. csimpl in Hp'. apply not_elem_of_cons in Hp' as [Hne Hp'].
      rewrite Hrest, patch_entry_lookup, decide_False by done. done.
  - subst merged'. destruct (IH merged (conflicts ++ [todo_conflict t]) count c1)
      as (M & R & F & c' & Hrun' & Hp & Hc' & Hle & Hpaths & HR & Hrest); [done..|set_solver|].
    exists M, R, (t :: F), c'. rewrite Hrun', <-app_assoc.
    split_and!; [done| |done|by intros h d Hd; apply Hle, Hle1|done..].
    rewrite Hp. apply Permutation_middle.
Qed.
End content.
