(* ===== verification/MergeTreesProps.v ===== *)
(** The three-way merge of whole trees. Any pair of roots that involves Tree
    v2 is merged file by file; three Tree v1 roots are merged directory by
    directory first. In both cases no edit is lost silently: a file that both
    sides rewrote differently is line-merged or reported. *)

From S2P Require Import Prelude Bytes Keyed Hash Chunk Store TreeV1 TreeV1Merge TreeV1Build.
From S2P Require Import TreeV1Repr TreeV1Props TreeV2Codec TreeV2CodecProps TreeV2Segment.
From S2P Require Import TreeV2Segment TreeV2 TreeV2Build TreeV2Store VersionedRoot.
From S2P Require Import VersionedRoot SyncRules ContentStore FastCdc Conflict Merge MergeProps.
Local Open Scope N_scope.

Lemma todo3_inv p base a b t :
  todo3 p base a b = Some t →
  tt_path t = p ∧ clash base a b = true ∧ a = Some (tt_a t) ∧ b = Some (tt_b t) ∧
  fe_hash <$> base = Some (tt_base_hash t) ∧
  merge3 base a b = Some (tt_a t).
Proof.
  unfold todo3. destruct base as [e|], a as [ea|], b as [eb|]; try done.
  destruct (clash _ _ _) eqn:E; [|done]. intros [= <-]. cbn. split_and!; try done.
  unfold clash in E. unfold merge3. destruct (same (Some ea) (Some e)), (same (Some eb) (Some e)); done.
Qed.

Lemma clash_reported p base a b :
  clash base a b = true → is_Some (todo3 p base a b) ∨ is_Some (conflict3 p base a b).
Proof.
  intros E. unfold todo3, conflict3. destruct base as [e|], a as [ea|], b as [eb|];
    try (unfold clash in E; by rewrite ?andb_false_r in E); rewrite E; eauto.
Qed.

Lemma ssorted_keys {A} (key : A → bytes) l : ssorted key l ↔ ssorted id (key <$> l).
Proof.
  induction l as [|x l IH]; csimpl; [split; constructor|].
  rewrite !ssorted_cons, IH, Forall_fmap. done.
Qed.

Section todos.
Context (base a b : list FileEntry).
Context (Sbase : ssorted fe_path base) (Sa : ssorted fe_path a) (Sb : ssorted fe_path b).

Lemma todos_sorted :
  ssorted tt_path (ma_text_todo (merge_entry_lists base a b ma_new)).
Proof using Sbase Sa Sb.
  destruct (merge_entry_lists_run base a b Sbase Sa Sb ma_new) as (_ & _ & ->). cbn [ma_new ma_text_todo app].
  apply omap_keyed_ssorted; [|by apply merge_paths_spec]. by intros p t (-> & _)%todo3_inv.
Qed.

Lemma merge_lists_lookup p :
  entries_map (ma_merged (merge_entry_lists base a b ma_new)) !! p =
  merge3 (entries_map base !! p) (entries_map a !! p) (entries_map b !! p).
Proof using Sbase Sa Sb.
  destruct (merge_entry_lists_run base a b Sbase Sa Sb ma_new) as (-> & _ & _). by apply merged_lookup.
Qed.

Lemma merge_lists_sorted : ssorted fe_path (ma_merged (merge_entry_lists base a b ma_new)).
Proof using Sbase Sa Sb.
  destruct (merge_entry_lists_run base a b Sbase Sa Sb ma_new) as (-> & _ & _). by apply merged_ssorted.
Qed.

Lemma merge_lists_todo t :
  t ∈ ma_text_todo (merge_entry_lists base a b ma_new) ↔
  todo3 (tt_path t) (entries_map base !! tt_path t) (entries_map a !! tt_path t)
    (entries_map b !! tt_path t) = Some t.
Proof using Sbase Sa Sb.
  destruct (merge_entry_lists_run base a b Sbase Sa Sb ma_new) as (_ & _ & ->).
  cbn [ma_new ma_text_todo app]. rewrite elem_of_omap_paths by done. split; [|eauto].
  intros [p E]. by destruct (todo3_inv _ _ _ _ _ E) as (-> & _).
Qed.

Lemma merge_lists_conflict c :
  c ∈ ma_conflicts (merge_entry_lists base a b ma_new) ↔ ∃ p,
    conflict3 p (entries_map base !! p) (entries_map a !! p) (entries_map b !! p) = Some c.
Proof using Sbase Sa Sb.
  destruct (merge_entry_lists_run base a b Sbase Sa Sb ma_new) as (_ & -> & _).
  cbn [ma_new ma_conflicts app]. by rewrite elem_of_omap_paths.
Qed.

Lemma merge_lists_todo_entry t :
  t ∈ ma_text_todo (merge_entry_lists base a b ma_new) →
  ∃ e, entries_map (ma_merged (merge_entry_lists base a b ma_new)) !! tt_path t = Some e ∧
       fe_path e = tt_path t.
Proof using Sbase Sa Sb.
  intros Ht%merge_lists_todo. destruct (todo3_inv _ _ _ _ _ Ht) as (_ & _ & Ea & _ & _ & E).
  exists (tt_a t). rewrite merge_lists_lookup, E. split; [done|]. by eapply entries_map_path.
Qed.
End todos.

(** * The verdict on one file

    [x] is what the merged vault holds, [conflicts] what the caller is told. *)
Section verdict.
Context {B3 : Blake3} {SM : Similar} {C : Type} {CT : ContentStore C}.

(** The line merge of the three texts, stored and readable. *)
Definition line_merged (c : C) (path : bytes) (base a b : option FileEntry) (e : FileEntry) : Prop :=
  ∃ t, todo3 path base a b = Some t ∧ text_merged c t e ∧ readable c e.

Definition reported (conflicts : list FileConflict) (path : bytes) (a b : option FileEntry) : Prop :=
  ∃ f, f ∈ conflicts ∧ fc_path f = path ∧ Some (fc_side_a_hash f) = (fe_hash <$> a)
       ∧ Some (fc_side_b_hash f) = (fe_hash <$> b).

(** Files without a clash are resolved as [r]; on a clash side A is kept and
    the conflict reported, or the file is line-merged. *)
Definition verdict_as (r : option FileEntry) (c : C) (conflicts : list FileConflict) (path : bytes)
    (base a b x : option FileEntry) : Prop :=
  if clash base a b
  then (x = a ∧ reported conflicts path a b) ∨ ∃ e, x = Some e ∧ line_merged c path base a b e
  else x = r.

Definition verdict (c : C) (conflicts : list FileConflict) (path : bytes)
    (base a b x : option FileEntry) : Prop :=
  verdict_as (merge3 base a b) c conflicts path base a b x.

Lemma todo_reported t conflicts path base a b :
  todo3 path base a b = Some t → todo_conflict t ∈ conflicts → reported conflicts path a b.
Proof.
  intros (<- & _ & -> & -> & _)%todo3_inv Hin. by exists (todo_conflict t).
Qed.

Lemma conflict_reported f conflicts path base a b :
  conflict3 path base a b = Some f → f ∈ conflicts → reported conflicts path a b.
Proof.
  intros E Hin. exists f. unfold conflict3 in E. destruct base, a as [ea|], b as [eb|]; try done.
  destruct (clash _ _ _); [|done]. by injection E as <-.
Qed.

Lemma merge3_clash base a b : clash base a b = true → merge3 base a b = a.
Proof.
  unfold clash, merge3. destruct (same a base), (same b base), (same a b); try done.
  cbn [negb andb]. by destruct a.
Qed.
End verdict.

Section flat.
Context {B3 : Blake3} {FB : FlatBuffers} {SM : Similar}.
Context {S : Type} {CS : ChunkStore S} {CSL : ChunkStoreLaws S}.
Context {C : Type} {CT : ContentStore C} {CTL : ContentStoreLaws C}.
Context (P : bytes → Prop) (Hinj : injective_on hash_bytes P).
Context (Q : bytes → Prop) (Qinj : injective_on hash_bytes Q).

(** Hashing separates the line merges of the files both sides rewrote. *)
Definition merges_ok (B A D : bytes → option FileEntry) : Prop :=
  ∀ p t, todo3 p (B p) (A p) (D p) = Some t → merges_in Q t.

(** The content pass: what was merged stays, apart from the clashes, and
    those are reported or line-merged. [B], [A] and [D] look a path up in the
    base and on the two sides. *)
Section pass.
Context (B A D : bytes → option FileEntry) (merged : list FileEntry).
Context (todos : list TextMergeTodo) (conflicts : list FileConflict).
Context (Ptodo : NoDup (tt_path <$> todos)).
Context (Htodo : ∀ t, t ∈ todos ↔ todo3 (tt_path t) (B (tt_path t)) (A (tt_path t)) (D (tt_path t)) = Some t).
Context (Hconf : ∀ p f, conflict3 p (B p) (A p) (D p) = Some f → f ∈ conflicts).
Context (Hclash : ∀ p, clash (B p) (A p) (D p) = true → entries_map merged !! p = A p).
Context (HA : ∀ p e, A p = Some e → fe_path e = p).
Context (Hmerges : merges_ok B A D).

Lemma text_pass_general c :
  content_ok Q c →
  ∃ M conflicts' n c',
    text_pass todos merged conflicts 0 c = (Ok (M, conflicts', n), c') ∧
    content_ok Q c' ∧ content_le c c' ∧ fe_path <$> M = fe_path <$> merged ∧
    ∀ p, verdict_as (entries_map merged !! p) c' conflicts' p (B p) (A p) (D p) (entries_map M !! p).
Proof using CTL Qinj Ptodo Htodo Hconf Hclash HA Hmerges.
  intros Hc. destruct (text_pass_spec Q Qinj todos merged conflicts 0 c)
    as (M & R & F & c' & Hrun & Hp & Hc' & Hle & Hpaths & HR & Hrest); [done| |done| |].
  { apply Forall_forall. intros t Ht%Htodo. by eapply Hmerges. }
  { intros t (_ & Hcl & Ea & _)%Htodo%todo3_inv. exists (tt_a t). rewrite Hclash by done. eauto. }
  exists M, (conflicts ++ (todo_conflict <$> F)), (0 + len R), c'. split_and!; [done..|].
  assert (∀ t, t ∈ R ∨ t ∈ F ↔ t ∈ todos) as Hsplit by (intros t; by rewrite Hp, elem_of_app).
  assert (∀ p, (∀ t, t ∈ R → tt_path t ≠ p) → entries_map M !! p = entries_map merged !! p) as Hkeep.
  { intros p Hn. apply Hrest. intros (t & -> & Ht)%list_elem_of_fmap. by apply (Hn t). }
  intros p. unfold verdict_as. destruct (clash _ _ _) eqn:Ecl.
  - destruct (clash_reported p _ _ _ Ecl) as [[t Ht]|[f Hf]].
    + destruct (todo3_inv _ _ _ _ _ Ht) as (Hpath & _). subst p.
      assert (t ∈ R ∨ t ∈ F) as [Hin|Hin] by (by apply Hsplit, Htodo).
      * right. destruct (HR t Hin) as (e & H1 & H2 & H3). exists e. split; [done|]. by exists t.
      * left. rewrite Hkeep, Hclash; [|done|].
        -- split; [done|]. eapply todo_reported; [exact Ht|].
           apply elem_of_app. right. by apply list_elem_of_fmap_2.
        -- intros t' Ht' E. rewrite Hp, fmap_app in Ptodo. apply NoDup_app in Ptodo as (_ & Hnd & _).
           apply (Hnd (tt_path t)); [rewrite <-E|]; by apply list_elem_of_fmap_2.
    + left. rewrite Hkeep, Hclash; [|done|].
      * split; [done|]. eapply conflict_reported; [exact Hf|]. apply elem_of_app. left. eauto.
      * intros t Ht <-. assert (t ∈ todos) as Ht'%Htodo by (apply Hsplit; by left).
        unfold conflict3 in Hf. unfold todo3 in Ht'. by destruct (B (tt_path t)).
  - apply Hkeep. intros t Ht <-. assert (t ∈ todos) as Ht'%Htodo by (apply Hsplit; by left).
    apply todo3_inv in Ht' as (_ & E & _). congruence.
Qed.
End pass.

Lemma text_pass_verdicts base a b c :
  ssorted fe_path base → ssorted fe_path a → ssorted fe_path b → content_ok Q c →
  merges_ok (λ p, entries_map base !! p) (λ p, entries_map a !! p) (λ p, entries_map b !! p) →
  let acc := merge_entry_lists base a b ma_new in
  ∃ M conflicts n c',
    text_pass (ma_text_todo acc) (ma_merged acc) (ma_conflicts acc) 0 c
      = (Ok (M, conflicts, n), c') ∧
    content_ok Q c' ∧ content_le c c' ∧ ssorted fe_path M ∧
    ∀ p, verdict c' conflicts p (entries_map base !! p) (entries_map a !! p)
           (entries_map b !! p) (entries_map M !! p).
Proof using CTL Qinj.
  intros Sbase Sa Sb Hc Hmerges acc.
  destruct (text_pass_general (λ p, entries_map base !! p) (λ p, entries_map a !! p)
    (λ p, entries_map b !! p) (ma_merged acc) (ma_text_todo acc) (ma_conflicts acc))
    with (c := c) as (M & conflicts & n & c' & Hrun & Hc' & Hle & Hpaths & Hv).
  - by apply ssorted_NoDup, todos_sorted.
  - intros t. by apply merge_lists_todo.
  - intros p f Hf. apply merge_lists_conflict; eauto.
  - intros p Hcl. unfold acc. by rewrite merge_lists_lookup, merge3_clash.
  - intros p e. apply entries_map_path.
  - done.
  - done.
  - exists M, conflicts, n, c'. split_and!; [done..| |].
    + apply (ssorted_keys fe_path). rewrite Hpaths.
      apply (ssorted_keys fe_path (ma_merged acc)). by apply merge_lists_sorted.
    + intros p. specialize (Hv p). subst acc. by rewrite merge_lists_lookup in Hv.
Qed.

Definition not_all_v1 (base a b : VersionedRoot) : Prop :=
  match base, a, b with V1 _, V1 _, V1 _ => False | _, _, _ => True end.

Lemma load_set_history r t h d s :
  vr_load_all_entries (set_history_metadata t h d r) s = vr_load_all_entries r s.
Proof. by destruct r. Qed.

Lemma load_sorted r s es : vr_load_all_entries r s = Ok es → ssorted fe_path es.
Proof.
  unfold vr_load_all_entries. destruct (_ <? _); [done|]. destruct (match r with V1 _ => _ | _ => _ end); [|done].
  destruct (negb (_ =? _)); [done|]. destruct (strictly_ordered _ _) eqn:E; [|done].
  intros [= <-]. by apply strictly_ordered_ssorted.
Qed.

(** C4: merging any three roots that are not all Tree v1, read from one
    store: when the merged vault can be built, the merge succeeds, the new
    root has the version of the server's root and names it as parent, and
    loading it gives, for every path, the resolution of its three versions;
    a file that both sides rewrote differently is line-merged with its text
    stored, or keeps the server's version and is reported. Nothing that was
    readable before is lost. *)
Theorem merge_versioned_correct now base a b s c eb ea ec :
  not_all_v1 base a b →
  vr_load_all_entries base s = Ok eb → vr_load_all_entries a s = Ok ea →
  vr_load_all_entries b s = Ok ec →
  store_ok P s → content_ok Q c →
  merges_ok (λ p, entries_map eb !! p) (λ p, entries_map ea !! p) (λ p, entries_map ec !! p) →
  validate_root_id "vault" (vr_vault_id a) false = Ok tt →
  (let acc := merge_entry_lists eb ea ec ma_new in
   ∀ M conflicts n c',
     text_pass (ma_text_todo acc) (ma_merged acc) (ma_conflicts acc) 0 c
       = (Ok (M, conflicts, n), c') → buildable P (vr_version a) M) →
  ∃ r s' c' M, merge_versioned_trees now base a b s c = (Ok r, s', c') ∧
    vr_load_all_entries (vmr_new_root r) s' = Ok M ∧
    (∀ p, verdict c' (vmr_file_conflicts r) p (entries_map eb !! p) (entries_map ea !! p)
            (entries_map ec !! p) (entries_map M !! p)) ∧
    vr_version (vmr_new_root r) = vr_version a ∧
    vr_parent_hash (vmr_new_root r) = Some (vr_hash a) ∧
    store_le s s' ∧ content_le c c'.
Proof using CSL Hinj CTL Qinj.
  intros Hv1 Lb La Lc Hs Hc HQ Hvid Hbuild.
  destruct (text_pass_verdicts eb ea ec c) as (M & conflicts & n & c' & Hrun & Hc' & Hle & HM & Hver);
    [by eapply load_sorted..|done|done|].
  assert (dedup_by fe_path (sort_by fe_path M) = M) as EM.
  { rewrite sort_by_id by done. by apply dedup_by_id. }
  destruct (build_root_spec P Hinj now M (vr_version a) (vr_vault_id a) (str "server") s)
    as (root & s' & Hb & Hv & Hs' & Hsle & Hload); [by destruct a; auto|done|by apply ssorted_NoDup|eauto|done|done|].
  eexists _, s', c', M. split_and!.
  - unfold merge_versioned_trees. rewrite Lb, La, Lc. rewrite Hrun. cbv zeta. rewrite EM, Hb.
    destruct base, a, b; done.
  - cbn [vmr_new_root]. rewrite load_set_history, Hload, sort_by_id by done. done.
  - exact Hver.
  - cbn [vmr_new_root]. rewrite <-Hv. by destruct root.
  - cbn [vmr_new_root]. by destruct root.
  - done.
  - done.
Qed.
End flat.
