(* ===== verification/MergeDirsProps.v ===== *)
(** The directory level of [merge_trees]: whole directories that one side left
    alone are taken from the other without looking inside; the result is the
    file-level resolution, except that a side that removed a directory
    altogether loses against any change inside it. *)

From S2P Require Import Prelude Bytes Keyed Hash Chunk Store TreeV1 TreeV1Merge TreeV1Build.
From S2P Require Import TreeV1Repr TreeV1Props TreeV2Codec TreeV2CodecProps TreeV2 TreeV2Build.
From S2P Require Import VersionedRoot SyncRules ContentStore FastCdc.
From S2P Require Import Conflict Merge MergeProps MergeTreesProps.
Local Open Scope N_scope.

(** * One directory *)

(** Both sides changed the directory and both still have it. *)
Definition both_changed (B A D : list FileEntry) : bool :=
  bool_decide (A ≠ B) && bool_decide (D ≠ B) && bool_decide (A ≠ []) && bool_decide (D ≠ []).

Definition dir_acc (B A D : list FileEntry) : MergeAcc :=
  if both_changed B A D then merge_entry_lists B A D ma_new else ma_new.

Definition dir_merge (B A D : list FileEntry) : list FileEntry :=
  if decide (A = B) then D
  else if decide (D = B) then A
  else if decide (A = []) then D
  else if decide (D = []) then A
  else ma_merged (merge_entry_lists B A D ma_new).

(** The five cases. *)
Section cases.
Context (B A D : list FileEntry).

#[local] Ltac cases :=
  unfold dir_merge, dir_acc, both_changed; intros; subst;
  repeat (case_decide || case_bool_decide); try done; try congruence.

Lemma dir_a_same : A = B → dir_merge B A D = D ∧ dir_acc B A D = ma_new.
Proof. cases. Qed.
Lemma dir_b_same : D = B → dir_merge B A D = A ∧ dir_acc B A D = ma_new.
Proof. cases. Qed.
Lemma dir_a_gone : A = [] → D ≠ B → dir_merge B A D = D ∧ dir_acc B A D = ma_new.
Proof. cases. Qed.
Lemma dir_b_gone : D = [] → A ≠ B → dir_merge B A D = A ∧ dir_acc B A D = ma_new.
Proof. cases. Qed.
Lemma dir_both : A ≠ B → D ≠ B → A ≠ [] → D ≠ [] →
  dir_merge B A D = ma_merged (merge_entry_lists B A D ma_new) ∧
  dir_acc B A D = merge_entry_lists B A D ma_new.
Proof. cases. Qed.
End cases.

(** The accumulators after [acc] and then [acc']. *)
Definition extends (acc acc' : MergeAcc) (M : list FileEntry) (X : MergeAcc) : Prop :=
  ma_merged acc' = ma_merged acc ++ M ∧
  ma_conflicts acc' = ma_conflicts acc ++ ma_conflicts X ∧
  ma_text_todo acc' = ma_text_todo acc ++ ma_text_todo X.

Section dirs.
Context {S : Type} {B3 : Blake3} {FB : FlatBuffers} {CS : ChunkStore S} {CSL : ChunkStoreLaws S}.

(** A child of a root and the directory it stands for. *)
Definition child_of (s : S) (p : bytes) (o : option FileHash) (es : list FileEntry) : Prop :=
  o = match es with [] => None | _ => Some (prefix_hash p es) end ∧
  (es ≠ [] → load_all_entries (prefix_hash p es) s = Ok es).

Lemma child_of_None s p es : child_of s p None es → es = [].
Proof. intros [E _]. by destruct es. Qed.

Lemma child_of_Some s p h es :
  child_of s p (Some h) es → es ≠ [] ∧ h = prefix_hash p es ∧ load_all_entries h s = Ok es.
Proof. intros [E L]. destruct es; [done|]. injection E as ->. by auto. Qed.

Lemma child_hash_eq s p h1 h2 es1 es2 :
  child_of s p (Some h1) es1 → child_of s p (Some h2) es2 →
  beq h1 h2 = bool_decide (es1 = es2).
Proof.
  intros (_ & E1 & L1)%child_of_Some (_ & E2 & L2)%child_of_Some. unfold beq.
  apply bool_decide_ext. split; [|congruence].
  intros E. rewrite E, L2 in L1. by injection L1.
Qed.

Lemma merge_lists_extends B A D acc :
  ssorted fe_path B → ssorted fe_path A → ssorted fe_path D →
  extends acc (merge_entry_lists B A D acc) (ma_merged (merge_entry_lists B A D ma_new))
    (merge_entry_lists B A D ma_new).
Proof.
  intros HB HA HD. unfold extends.
  destruct (merge_entry_lists_run B A D HB HA HD acc) as (-> & -> & ->).
  by destruct (merge_entry_lists_run B A D HB HA HD ma_new) as (-> & -> & ->).
Qed.

Lemma take_side_run s h es acc :
  load_all_entries h s = Ok es → take_side s h acc = Ok (extend_merged es acc).
Proof. unfold take_side. by intros ->. Qed.

Lemma merge_prefix_run s p ob oa od B A D acc :
  child_of s p ob B → child_of s p oa A → child_of s p od D →
  ssorted fe_path B → ssorted fe_path A → ssorted fe_path D →
  ∃ acc', merge_prefix s ob oa od acc = Ok acc' ∧
    extends acc acc' (dir_merge B A D) (dir_acc B A D).
Proof.
  intros HB HA HD SB SA SD.
  assert (∀ es acc0, ma_conflicts acc0 = ma_conflicts acc → ma_text_todo acc0 = ma_text_todo acc →
    ma_merged acc0 = ma_merged acc → dir_merge B A D = es ∧ dir_acc B A D = ma_new →
    ∃ acc', Ok (E := ChunkError) (extend_merged es acc0) = Ok acc' ∧
      extends acc acc' (dir_merge B A D) (dir_acc B A D)) as Hside.
  { intros es acc0 E1 E2 E3 [-> ->]. eexists. split; [done|]. unfold extends. cbn.
    by rewrite E1, E2, E3, !app_nil_r. }
  assert (dir_merge B A D = [] ∧ dir_acc B A D = ma_new →
    ∃ acc', Ok (E := ChunkError) acc = Ok acc' ∧
      extends acc acc' (dir_merge B A D) (dir_acc B A D)) as Hskip.
  { intros [-> ->]. eexists. split; [done|]. unfold extends. cbn. by rewrite !app_nil_r. }
  assert (A ≠ B → D ≠ B → A ≠ [] → D ≠ [] →
    ∃ acc', Ok (E := ChunkError) (merge_entry_lists B A D acc) = Ok acc' ∧
      extends acc acc' (dir_merge B A D) (dir_acc B A D)) as Hboth.
  { intros. eexists. split; [done|]. destruct (dir_both B A D) as [-> ->]; [done..|].
    by apply merge_lists_extends. }
  destruct ob as [bh|], oa as [ah|], od as [dh|]; cbn [merge_prefix].
  - rewrite (child_hash_eq s p ah bh A B), (child_hash_eq s p dh bh D B) by done.
    apply child_of_Some in HB as (NB & _ & LB), HA as (NA & _ & LA), HD as (ND & _ & LD).
    destruct (bool_decide_reflect (A = B)), (bool_decide_reflect (D = B)); cbn [andb].
    + rewrite (take_side_run _ _ _ _ LB). apply Hside; [done..|]. subst D. by apply dir_a_same.
    + rewrite (take_side_run _ _ _ _ LD). apply Hside; [done..|]. by apply dir_a_same.
    + rewrite (take_side_run _ _ _ _ LA). apply Hside; [done..|]. by apply dir_b_same.
    + rewrite LB, LA, LD. by apply Hboth.
  - rewrite (child_hash_eq s p ah bh A B) by done.
    apply child_of_Some in HB as (NB & _ & LB), HA as (NA & _ & LA). apply child_of_None in HD.
    destruct (bool_decide_reflect (A = B)) as [E|E].
    + apply Hskip. rewrite <-HD. by apply dir_a_same.
    + rewrite (take_side_run _ _ _ _ LA). apply Hside; [done..|]. by apply dir_b_gone.
  - rewrite (child_hash_eq s p dh bh D B) by done.
    apply child_of_Some in HB as (NB & _ & LB), HD as (ND & _ & LD). apply child_of_None in HA.
    destruct (bool_decide_reflect (D = B)) as [E|E].
    + apply Hskip. rewrite <-HA. by apply dir_b_same.
    + rewrite (take_side_run _ _ _ _ LD). apply Hside; [done..|]. by apply dir_a_gone.
  - apply child_of_Some in HB as (NB & _). apply child_of_None in HA, HD.
    apply Hskip. rewrite <-HD. apply dir_a_gone; congruence.
  - apply child_of_None in HB. apply child_of_Some in HA as (NA & _ & LA), HD as (ND & _ & LD).
    rewrite LA, LD. rewrite <-HB. apply Hboth; congruence.
  - apply child_of_None in HB, HD. apply child_of_Some in HA as (NA & _ & LA).
    rewrite (take_side_run _ _ _ _ LA). apply Hside; [done..|]. apply dir_b_same. congruence.
  - apply child_of_None in HB, HA. apply child_of_Some in HD as (ND & _ & LD).
    rewrite (take_side_run _ _ _ _ LD). apply Hside; [done..|]. apply dir_a_same. congruence.
  - apply child_of_None in HB, HA, HD. apply Hskip. rewrite <-HD. apply dir_a_same. congruence.
Qed.
End dirs.

(** * The resolution of a directory, file by file *)

(** One side removed the directory, and the other changed it. *)
Definition dir_removed (B A D : list FileEntry) : Prop :=
  (A = [] ∨ D = []) ∧ A ≠ B ∧ D ≠ B.

Lemma merge3_elem base a b e : merge3 base a b = Some e → base = Some e ∨ a = Some e ∨ b = Some e.
Proof. unfold merge3. repeat case_match; naive_solver. Qed.

Section dir_lookup.
Context (B A D : list FileEntry).
Context (SB : ssorted fe_path B) (SA : ssorted fe_path A) (SD : ssorted fe_path D).

Let at3 {X} (f : option FileEntry → option FileEntry → option FileEntry → X) (q : bytes) : X :=
  f (entries_map B !! q) (entries_map A !! q) (entries_map D !! q).

Lemma dir_cases (R : Prop) :
  (A = B → R) → (D = B → R) → (dir_removed B A D → R) →
  (A ≠ B → D ≠ B → A ≠ [] → D ≠ [] → R) → R.
Proof using.
  intros H1 H2 H3 H4. destruct (decide (A = B)), (decide (D = B)); auto.
  destruct (decide (A = [])); [apply H3; split; auto|].
  destruct (decide (D = [])); [apply H3; split; auto|auto].
Qed.

Lemma dir_merge_sorted : ssorted fe_path (dir_merge B A D).
Proof using SB SA SD.
  unfold dir_merge. repeat case_decide; try done. by apply merge_lists_sorted.
Qed.

Lemma dir_removed_lookup q :
  dir_removed B A D →
  entries_map (dir_merge B A D) !! q = if decide (A = []) then entries_map D !! q else entries_map A !! q.
Proof using.
  intros ([E|E] & HA & HD).
  - rewrite (proj1 (dir_a_gone B A D E HD)). by rewrite decide_True.
  - rewrite (proj1 (dir_b_gone B A D E HA)). case_decide as EA; [|done]. by rewrite EA, E.
Qed.

(** Unless a side removed it, the directory holds the file-level contents. *)
Lemma dir_merge_content q :
  ¬ dir_removed B A D →
  fe_hash <$> entries_map (dir_merge B A D) !! q = fe_hash <$> at3 merge3 q.
Proof using SB SA SD.
  intros Hr. unfold at3. apply dir_cases.
  - intros E. rewrite (proj1 (dir_a_same B A D E)), E. unfold merge3, same.
    rewrite bool_decide_eq_true_2 by done. by case_bool_decide.
  - intros E. rewrite (proj1 (dir_b_same B A D E)), E. unfold merge3, same.
    rewrite (bool_decide_eq_true_2 (fe_hash <$> entries_map B !! q = _)) by done. by case_bool_decide.
  - done.
  - intros. rewrite (proj1 (dir_both B A D ltac:(done) ltac:(done) ltac:(done) ltac:(done))).
    by rewrite merge_lists_lookup.
Qed.

Lemma clash_both q : at3 clash q = true → A ≠ B ∧ D ≠ B ∧ A ≠ [] ∧ D ≠ [].
Proof using.
  unfold at3, clash. intros H. split_and!; intros E; rewrite E in H.
  - unfold same at 1 in H. by rewrite bool_decide_eq_true_2 in H.
  - unfold same at 2 in H. rewrite (bool_decide_eq_true_2 (_ <$> entries_map B !! q = _)) in H by done.
    by rewrite andb_false_r in H.
  - cbn in H. by rewrite andb_false_r in H.
  - cbn in H. by rewrite andb_false_r in H.
Qed.

Lemma dir_merge_clash q : at3 clash q = true → entries_map (dir_merge B A D) !! q = entries_map A !! q.
Proof using SB SA SD.
  intros Hc. destruct (clash_both q Hc) as (H1 & H2 & H3 & H4).
  rewrite (proj1 (dir_both B A D H1 H2 H3 H4)). rewrite merge_lists_lookup by done.
  by apply merge3_clash.
Qed.

Lemma dir_merge_elem e : e ∈ dir_merge B A D → e ∈ B ∨ e ∈ A ∨ e ∈ D.
Proof using SB SA SD.
  intros He. apply dir_cases.
  - intros E. rewrite (proj1 (dir_a_same B A D E)) in He. auto.
  - intros E. rewrite (proj1 (dir_b_same B A D E)) in He. auto.
  - intros ([E|E] & HA & HD).
    + rewrite (proj1 (dir_a_gone B A D E HD)) in He. auto.
    + rewrite (proj1 (dir_b_gone B A D E HA)) in He. auto.
  - intros H1 H2 H3 H4. rewrite (proj1 (dir_both B A D H1 H2 H3 H4)) in He.
    assert (entries_map (ma_merged (merge_entry_lists B A D ma_new)) !! fe_path e = Some e) as E.
    { apply kmap_lookup_Some; [by apply ssorted_NoDup, merge_lists_sorted|done]. }
    rewrite merge_lists_lookup in E by done. apply merge3_elem in E.
    unfold entries_map in E. rewrite !kmap_lookup_Some in E by (by apply ssorted_NoDup). naive_solver.
Qed.

Lemma dir_todo t :
  t ∈ ma_text_todo (dir_acc B A D) ↔ at3 (todo3 (tt_path t)) (tt_path t) = Some t.
Proof using SB SA SD.
  split.
  - unfold dir_acc. destruct (both_changed B A D); [|cbn; by intros ?%elem_of_nil].
    by apply merge_lists_todo.
  - intros E. destruct (todo3_inv _ _ _ _ _ E) as (_ & Hc & _).
    destruct (clash_both _ Hc) as (H1 & H2 & H3 & H4).
    rewrite (proj2 (dir_both B A D H1 H2 H3 H4)). by apply merge_lists_todo.
Qed.

Lemma dir_conflict q f :
  at3 (conflict3 q) q = Some f → f ∈ ma_conflicts (dir_acc B A D).
Proof using SB SA SD.
  intros E. assert (at3 clash q = true) as Hc.
  { unfold at3, conflict3 in *. destruct (entries_map B !! q), (entries_map A !! q), (entries_map D !! q); try done.
    by destruct (clash _ _ _). }
  destruct (clash_both _ Hc) as (H1 & H2 & H3 & H4).
  rewrite (proj2 (dir_both B A D H1 H2 H3 H4)). apply merge_lists_conflict; eauto.
Qed.

Lemma dir_todos_NoDup : NoDup (tt_path <$> ma_text_todo (dir_acc B A D)).
Proof using SB SA SD.
  unfold dir_acc. destruct (both_changed B A D); [|constructor].
  by apply ssorted_NoDup, todos_sorted.
Qed.
End dir_lookup.

(** * All directories *)

Section concat_dirs.
Context {X : Type} (key : X → bytes) (f : bytes → list X).
Context (Hnd : ∀ p, NoDup (key <$> f p)).
Context (Hdir : ∀ p x, x ∈ f p → top_level_prefix (key x) = p).

Lemma elem_of_concat_dirs ps x :
  x ∈ concat (f <$> ps) ↔ top_level_prefix (key x) ∈ ps ∧ x ∈ f (top_level_prefix (key x)).
Proof using Hdir.
  rewrite list_elem_of_In, in_concat. setoid_rewrite <-list_elem_of_In.
  setoid_rewrite list_elem_of_fmap. split.
  - intros (l & (p & -> & Hp) & Hx). by rewrite (Hdir p x Hx).
  - intros [Hp Hx]. eauto.
Qed.

Lemma concat_dirs_NoDup ps : NoDup ps → NoDup (key <$> concat (f <$> ps)).
Proof using Hnd Hdir.
  induction ps as [|p ps IH]; csimpl; [constructor|]. intros [Hp Hps]%NoDup_cons.
  rewrite fmap_app. apply NoDup_app. split_and!; [done| |auto].
  intros k (x & -> & Hx)%list_elem_of_fmap (y & E & Hy)%list_elem_of_fmap.
  apply elem_of_concat_dirs in Hy as [Hy _]. apply Hp. by rewrite <-(Hdir p x Hx), E.
Qed.
End concat_dirs.

Lemma concat_dirs_lookup (f : bytes → list FileEntry) ps q :
  (∀ p, NoDup (fe_path <$> f p)) → (∀ p e, e ∈ f p → top_level_prefix (fe_path e) = p) → NoDup ps →
  (top_level_prefix q ∉ ps → f (top_level_prefix q) = []) →
  entries_map (concat (f <$> ps)) !! q = entries_map (f (top_level_prefix q)) !! q.
Proof.
  intros Hnd Hdir Hps Hout. apply option_eq. intros e. unfold entries_map.
  rewrite !kmap_lookup_Some by auto using concat_dirs_NoDup.
  rewrite (elem_of_concat_dirs fe_path) by done. split.
  - by intros [[_ ?] <-].
  - intros [He <-]. split; [|done]. split; [|done].
    destruct (decide (top_level_prefix (fe_path e) ∈ ps)) as [|Hn]; [done|].
    rewrite Hout in He by done. by apply elem_of_nil in He.
Qed.

Lemma all_prefixes_spec base a b :
  ssorted id (all_prefixes base a b) ∧
  ∀ p, p ∈ all_prefixes base a b ↔ is_Some (base !! p) ∨ is_Some (a !! p) ∨ is_Some (b !! p).
Proof.
  unfold all_prefixes. set (l := _ ++ _ ++ _).
  destruct (dedup_by_wsorted id (sort_by id l)) as [Hs Hm]; [apply sort_by_wsorted|].
  split; [done|]. intros p.
  assert (∀ m : gmap bytes FileHash, p ∈ (map_to_list m).*1 ↔ is_Some (m !! p)) as Hkeys.
  { intros m. rewrite list_elem_of_fmap. split.
    - intros ([k v] & -> & Hin%elem_of_map_to_list). eauto.
    - intros [v Hv]. exists (p, v). split; [done|]. by apply elem_of_map_to_list. }
  assert (∀ k : list bytes, p ∈ k ↔ kmap id k !! p ≠ None) as Hmem.
  { intros k. rewrite kmap_lookup_None, list_fmap_id. destruct (decide (p ∈ k)); naive_solver. }
  rewrite (Hmem (dedup_by _ _)), Hm, <-Hmem, elem_of_sort_by. unfold l.
  by rewrite !elem_of_app, !Hkeys.
Qed.

Section tree.
Context {B3 : Blake3} {FB : FlatBuffers} {SM : Similar}.
Context {S : Type} {CS : ChunkStore S} {CSL : ChunkStoreLaws S}.
Context {C : Type} {CT : ContentStore C} {CTL : ContentStoreLaws C}.
Context (P : bytes → Prop) (Hinj : injective_on hash_bytes P).
Context (Q : bytes → Prop) (Qinj : injective_on hash_bytes Q).

Context (s : S) (rb ra rd : RootNode) (mb ma md : vault).
Context (Vb : vault_ok P mb) (Va : vault_ok P ma) (Vd : vault_ok P md).
Context (Rb : dirs_repr s (rn_children rb) mb) (Ra : dirs_repr s (rn_children ra) ma).
Context (Rd : dirs_repr s (rn_children rd) md).

#[local] Ltac sorted_dirs := apply dir_entries_ssorted; (apply Vb || apply Va || apply Vd).

Definition dir_of (p : bytes) : list FileEntry :=
  dir_merge (dir_entries p mb) (dir_entries p ma) (dir_entries p md).
Definition acc_of (p : bytes) : MergeAcc :=
  dir_acc (dir_entries p mb) (dir_entries p ma) (dir_entries p md).

Lemma children_map_spec r m p :
  dirs_repr s (rn_children r) m → children_map r !! p = dir_child p m.
Proof.
  intros [Hs Hc _]. rewrite <-Hc. unfold children_map, hash_map.
  assert ((λ a : bytes * FileHash, (a.1, a.2)) <$> rev (rn_children r) = rev (rn_children r)) as ->.
  { rewrite <-(list_fmap_id (rev (rn_children r))) at 2. apply list_fmap_ext. by intros ? []. }
  f_equal. apply list_to_map_proper; [|symmetry; apply Permutation_rev].
  rewrite <-Permutation_rev. by apply (ssorted_NoDup fst).
Qed.

Lemma child_of_repr r m p :
  vault_ok P m → dirs_repr s (rn_children r) m → child_of s p (dir_child p m) (dir_entries p m).
Proof using CSL.
  intros Hv Hr. split; [unfold dir_child; by destruct (dir_entries p m)|]. intros Hne.
  assert (dir_child p m = Some (prefix_hash p (dir_entries p m))) as E.
  { unfold dir_child. by destruct (dir_entries p m). }
  rewrite <-(dr_child _ _ _ Hr) in E. apply amap_elem in E; [|apply Hr].
  by destruct (dirs_repr_load P s (rn_children r) m p _ Hv Hr E).
Qed.

Lemma merge_prefixes_run ps acc :
  ∃ acc', merge_prefixes s (children_map rb) (children_map ra) (children_map rd) ps acc = Ok acc' ∧
    ma_merged acc' = ma_merged acc ++ concat (dir_of <$> ps) ∧
    ma_conflicts acc' = ma_conflicts acc ++ concat ((ma_conflicts ∘ acc_of) <$> ps) ∧
    ma_text_todo acc' = ma_text_todo acc ++ concat ((ma_text_todo ∘ acc_of) <$> ps).
Proof using CSL Vb Va Vd Rb Ra Rd.
  revert acc. induction ps as [|p ps IH]; intros acc; csimpl.
  { exists acc. by rewrite !app_nil_r. }
  rewrite (children_map_spec rb mb), (children_map_spec ra ma), (children_map_spec rd md) by done.
  destruct (merge_prefix_run s p (dir_child p mb) (dir_child p ma) (dir_child p md)
    (dir_entries p mb) (dir_entries p ma) (dir_entries p md) acc) as (acc1 & -> & E1 & E2 & E3);
    [by eapply child_of_repr..|sorted_dirs|sorted_dirs|sorted_dirs|].
  destruct (IH acc1) as (acc' & Hrun & M1 & M2 & M3). exists acc'.
  by rewrite M1, M2, M3, E1, E2, E3, <-!app_assoc.
Qed.

Lemma dir_of_sorted p : ssorted fe_path (dir_of p).
Proof using Vb Va Vd.
  apply dir_merge_sorted; sorted_dirs.
Qed.

Lemma dir_of_in_dir p e : e ∈ dir_of p → top_level_prefix (fe_path e) = p.
Proof using Vb Va Vd.
  intros He. apply dir_merge_elem in He;
    [|sorted_dirs..].
  destruct Vb as [Kb _], Va as [Ka _], Vd as [Kd _].
  rewrite !elem_of_dir_entries in He by done. unfold in_dir in He. naive_solver.
Qed.

Lemma dir_lookup m q : keyed m → entries_map (dir_entries (top_level_prefix q) m) !! q = m !! q.
Proof. intros Hm. rewrite dir_entries_lookup by done. by rewrite decide_True. Qed.

Abbreviation prefixes := (all_prefixes (children_map rb) (children_map ra) (children_map rd)).

Lemma not_in_prefixes p :
  p ∉ prefixes → dir_entries p mb = [] ∧ dir_entries p ma = [] ∧ dir_entries p md = [].
Proof using Rb Ra Rd.
  destruct (all_prefixes_spec (children_map rb) (children_map ra) (children_map rd)) as [_ Hp].
  rewrite Hp, (children_map_spec rb mb), (children_map_spec ra ma), (children_map_spec rd md) by done.
  unfold dir_child. intros Hn. split_and!;
    [destruct (dir_entries p mb)|destruct (dir_entries p ma)|destruct (dir_entries p md)]; naive_solver.
Qed.

Lemma dir_of_outside p : p ∉ prefixes → dir_of p = [].
Proof using Rb Ra Rd. unfold dir_of. by intros (-> & -> & ->)%not_in_prefixes. Qed.

Lemma prefixes_NoDup : NoDup prefixes.
Proof using.
  rewrite <-(list_fmap_id prefixes). apply (ssorted_NoDup id), all_prefixes_spec.
Qed.

Lemma merged_dirs_lookup q :
  entries_map (concat (dir_of <$> prefixes)) !! q = entries_map (dir_of (top_level_prefix q)) !! q.
Proof using Vb Va Vd Rb Ra Rd.
  apply concat_dirs_lookup; [|apply dir_of_in_dir|apply prefixes_NoDup|apply dir_of_outside].
  intros p. apply ssorted_NoDup, dir_of_sorted.
Qed.

Lemma acc_of_todo p t :
  t ∈ ma_text_todo (acc_of p) ↔
  todo3 (tt_path t) (entries_map (dir_entries p mb) !! tt_path t)
    (entries_map (dir_entries p ma) !! tt_path t) (entries_map (dir_entries p md) !! tt_path t) = Some t.
Proof using Vb Va Vd.
  apply dir_todo; sorted_dirs.
Qed.

Lemma acc_of_todo_dir p t : t ∈ ma_text_todo (acc_of p) → top_level_prefix (tt_path t) = p.
Proof using Vb Va Vd.
  intros (_ & _ & Ea & _)%acc_of_todo%todo3_inv. rewrite dir_entries_lookup in Ea by apply Va.
  by case_decide.
Qed.

Lemma merged_todos t :
  t ∈ concat ((ma_text_todo ∘ acc_of) <$> prefixes) ↔
  todo3 (tt_path t) (mb !! tt_path t) (ma !! tt_path t) (md !! tt_path t) = Some t.
Proof using Vb Va Vd Rb Ra Rd.
  rewrite (elem_of_concat_dirs tt_path) by (intros p x; apply acc_of_todo_dir). cbn [compose].
  rewrite acc_of_todo, !dir_lookup by (apply Vb || apply Va || apply Vd).
  split; [by intros [_ ?]|]. intros E. split; [|done].
  destruct (decide (top_level_prefix (tt_path t) ∈ prefixes)) as [|Hn]; [done|].
  apply not_in_prefixes in Hn as (_ & Ha & _).
  apply todo3_inv in E as (_ & _ & Ea & _). rewrite <-(dir_lookup ma), Ha in Ea by apply Va. done.
Qed.

Lemma merged_conflicts q f :
  conflict3 q (mb !! q) (ma !! q) (md !! q) = Some f →
  f ∈ concat ((ma_conflicts ∘ acc_of) <$> prefixes).
Proof using Vb Va Vd Rb Ra Rd.
  intros E. apply list_elem_of_In, in_concat. exists (ma_conflicts (acc_of (top_level_prefix q))).
  rewrite <-!list_elem_of_In. split.
  - apply (list_elem_of_fmap_2 (ma_conflicts ∘ acc_of)).
    destruct (decide (top_level_prefix q ∈ prefixes)) as [|Hn]; [done|].
    apply not_in_prefixes in Hn as (_ & Ha & _).
    rewrite <-(dir_lookup ma), Ha in E by apply Va. unfold conflict3 in E. by destruct (mb !! q).
  - rewrite <-(dir_lookup mb q), <-(dir_lookup ma q), <-(dir_lookup md q) in E by (apply Vb || apply Va || apply Vd).
    eapply dir_conflict; [sorted_dirs..|exact E].
Qed.

Lemma merged_todos_NoDup : NoDup (tt_path <$> concat ((ma_text_todo ∘ acc_of) <$> prefixes)).
Proof using Vb Va Vd.
  apply concat_dirs_NoDup; [|intros p x; apply acc_of_todo_dir|apply prefixes_NoDup].
  intros p. apply dir_todos_NoDup; sorted_dirs.
Qed.

Lemma merged_clash q :
  clash (mb !! q) (ma !! q) (md !! q) = true →
  entries_map (concat (dir_of <$> prefixes)) !! q = ma !! q.
Proof using Vb Va Vd Rb Ra Rd.
  rewrite <-(dir_lookup mb q), <-(dir_lookup ma q), <-(dir_lookup md q) by (apply Vb || apply Va || apply Vd). intros Hc.
  rewrite merged_dirs_lookup. apply dir_merge_clash; [..|exact Hc];
    sorted_dirs.
Qed.

(** C22: merging three Tree v1 roots of one store: when the merged vault can
    be built, the merge succeeds; for every file that both sides rewrote
    differently the line merge is stored and taken, or the server's version
    is kept and the conflict reported; every other file has the content of
    its three-way resolution, unless one side removed its whole directory
    while the other changed it, in which case the directory of the side that
    kept it is taken as it is. The new root names the server's root as its
    parent, and nothing readable before is lost. *)
Theorem merge_trees_correct now c :
  store_ok P s → content_ok Q c → merges_ok Q (λ q, mb !! q) (λ q, ma !! q) (λ q, md !! q) →
  (∀ acc M conflicts n c',
     merge_prefixes s (children_map rb) (children_map ra) (children_map rd) prefixes ma_new = Ok acc →
     text_pass (ma_text_todo acc) (ma_merged acc) (ma_conflicts acc) 0 c = (Ok (M, conflicts, n), c') →
     vault_ok P (entries_map M)) →
  ∃ r s' c' m,
    merge_trees now rb ra rd s c = (Ok r, s', c') ∧
    dirs_repr s' (rn_children (mr_new_root r)) m ∧
    rn_parent_hash (mr_new_root r) = Some (root_hash ra) ∧
    store_le s s' ∧ content_le c c' ∧
    ∀ q (B := dir_entries (top_level_prefix q) mb) (A := dir_entries (top_level_prefix q) ma)
        (D := dir_entries (top_level_prefix q) md),
      ∃ x, verdict_as x c' (mr_file_conflicts r) q (mb !! q) (ma !! q) (md !! q) (m !! q) ∧
        (dir_removed B A D → x = if decide (A = []) then md !! q else ma !! q) ∧
        (¬ dir_removed B A D → fe_hash <$> x = fe_hash <$> merge3 (mb !! q) (ma !! q) (md !! q)).
Proof using CSL Hinj CTL Qinj Vb Va Vd Rb Ra Rd.
  intros Hs Hc HQ Hbuild.
  destruct (merge_prefixes_run prefixes ma_new) as (acc & Hacc & E1 & E2 & E3).
  cbn [ma_new ma_merged ma_conflicts ma_text_todo app] in E1, E2, E3.
  destruct (text_pass_general Q Qinj (λ q, mb !! q) (λ q, ma !! q) (λ q, md !! q)
    (ma_merged acc) (ma_text_todo acc) (ma_conflicts acc)) with (c := c)
    as (M & conflicts & n & c' & Hrun & Hc' & Hle & Hpaths & Hv).
  { rewrite E3. apply merged_todos_NoDup. }
  { intros t. rewrite E3. apply merged_todos. }
  { intros q f Hf. rewrite E2. by eapply merged_conflicts. }
  { intros q Hcl. rewrite E1. by apply merged_clash. }
  { intros q e He. by apply (proj1 Va _ _ He). }
  { done. }
  { done. }
  assert (NoDup (fe_path <$> M)) as HM.
  { rewrite Hpaths, E1. apply concat_dirs_NoDup; [|apply dir_of_in_dir|apply prefixes_NoDup].
    intros p. apply ssorted_NoDup, dir_of_sorted. }
  assert (dedup_by fe_path (sort_by fe_path M) = sort_by fe_path M) as EM.
  { by apply dedup_by_id, sort_by_ssorted. }
  assert (entries_map (sort_by fe_path M) = entries_map M) as Em by (by apply kmap_sort_by).
  destruct (build_tree_spec P Hinj now (sort_by fe_path M) (rn_vault_id ra) (str "server") s)
    as (root & s' & Hb & Hs' & Hsle & Hr & Ht); [done|by apply ssorted_NoDup, sort_by_ssorted|rewrite Em; eauto|].
  rewrite Em in Hr. eexists _, s', c', (entries_map M). split_and!.
  - unfold merge_trees. cbv zeta. rewrite Hacc, Hrun, EM, Hb. reflexivity.
  - exact Hr.
  - done.
  - done.
  - done.
  - intros q B A D. exists (entries_map (ma_merged acc) !! q). split; [apply Hv|].
    rewrite E1, merged_dirs_lookup. unfold dir_of. fold B A D.
    rewrite <-(dir_lookup mb q), <-(dir_lookup ma q), <-(dir_lookup md q) by (apply Vb || apply Va || apply Vd). fold B A D. split.
    + apply dir_removed_lookup.
    + apply dir_merge_content; sorted_dirs.
Qed.
End tree.
