(* ===== verification/MergeExamples.v ===== *)
(** The merge on a concrete vault: two devices edit different lines of one
    note and other files, over the in-memory stores. The hypotheses of the
    merge theorems hold for it. Then a vault on which the directory shortcut
    of Tree v1 brings a deleted file back. *)

From S2P Require Import Prelude Bytes Keyed Hash Chunk Store Concrete TreeV1 TreeV1Merge.
From S2P Require Import TreeV1Build TreeV1Repr TreeV1Props TreeV1Examples TreeV2Codec TreeV2CodecProps.
From S2P Require Import TreeV2Segment TreeV2 TreeV2Build TreeV2Store.
From S2P Require Import VersionedRoot SyncRules ContentStore FastCdc.
From S2P Require Import Conflict Merge MergeProps MergeTreesProps MergeDirsProps.
Local Open Scope N_scope.

#[local] Existing Instance poly_blake3.
#[local] Existing Instance plain_flatbuffers.
#[local] Existing Instance simple_similar.

Definition lines (ls : list string) : bytes := concat ((λ l, str l ++ [newline]) <$> ls).

(** * Contents *)

Definition mx_base_text : bytes := lines ["alpha"; "beta"; "gamma"]%string.
Definition mx_a_text : bytes := lines ["ALPHA"; "beta"; "gamma"]%string.
Definition mx_b_text : bytes := lines ["alpha"; "beta"; "gamma"; "delta"]%string.
Definition mx_ab_text : bytes := lines ["ALPHA"; "beta"; "gamma"; "delta"]%string.
Definition mx_texts : list bytes := [mx_base_text; mx_a_text; mx_b_text; mx_ab_text].

Definition mx_Q (b : bytes) : Prop := b ∈ mx_texts.

Lemma mx_Q_inj : injective_on hash_bytes mx_Q.
Proof. apply NoDup_injective_on. by_decision. Qed.

(** [merges_in], decided over the finitely many texts. *)
Definition merges_in_b (texts : list bytes) (t : TextMergeTodo) : bool :=
  forallb (λ x, forallb (λ y, forallb (λ z,
    if beq (hash_bytes x) (tt_base_hash t) then
    if beq (hash_bytes y) (fe_hash (tt_a t)) then
    if beq (hash_bytes z) (fe_hash (tt_b t)) then
      match three_way_text_merge x y z with
      | Merged m => bool_decide (m ∈ texts)
      | Overlap => true
      end
    else true else true else true) texts) texts) texts.

Lemma merges_in_b_spec texts t : merges_in_b texts t = true → merges_in (.∈ texts) t.
Proof.
  unfold merges_in_b. intros H x y z m Hx Hy Hz Ex Ey Ez E.
  rewrite forallb_forall in H. specialize (H x (proj1 (list_elem_of_In _ _) Hx)).
  rewrite forallb_forall in H. specialize (H y (proj1 (list_elem_of_In _ _) Hy)).
  rewrite forallb_forall in H. specialize (H z (proj1 (list_elem_of_In _ _) Hz)).
  rewrite !(proj2 (beq_true _ _)), E in H by done. by apply bool_decide_eq_true in H.
Qed.

Definition mx_content : MemoryContentStore := Eval vm_compute in
  {| mc_blobs := list_to_map ((λ t, (hash_bytes t, t)) <$> [mx_base_text; mx_a_text; mx_b_text]);
     mc_manifests := ∅ |}.

Lemma mem_content_ok Q c :
  map_Forall (λ h d, hash_bytes d = h ∧ Q d) (mc_blobs c) → content_ok Q c.
Proof.
  intros H h d. cbn. destruct (mc_blobs c !! h) as [d'|] eqn:E; [|done].
  intros [= <-]. apply (H _ _ E).
Qed.

Lemma mem_store_ok P s :
  map_Forall (λ h c, hash_bytes (sc_bytes c) = h ∧ P (sc_bytes c)) (ms_map s) → store_ok P s.
Proof.
  intros H h d. cbn. destruct (ms_map s !! h) as [c|] eqn:E; [|done].
  intros [= <-]. apply (H _ _ E).
Qed.

Lemma mx_content_ok : content_ok mx_Q mx_content.
Proof. apply mem_content_ok. unfold mx_Q. by_decision. Qed.

(** * Vaults *)

Definition note (p : string) (text : bytes) (mtime : N) : FileEntry :=
  {| fe_path := str p; fe_hash := hash_bytes text; fe_mtime_ms := mtime; fe_size_bytes := len text |}.

Definition mx_base : list FileEntry :=
  Eval vm_compute in [note "notes/a.md" mx_base_text 1; ex_entry "notes/b.md" 2; ex_entry "old/x" 3; ex_entry "readme.md" 4].
Definition mx_a : list FileEntry :=
  Eval vm_compute in [ex_entry "new/c.md" 8; note "notes/a.md" mx_a_text 5; ex_entry "notes/b.md" 6; ex_entry "old/x" 3; ex_entry "readme.md" 4].
Definition mx_b : list FileEntry :=
  Eval vm_compute in [ex_entry "new/c.md" 9; note "notes/a.md" mx_b_text 7; ex_entry "notes/b.md" 2; ex_entry "readme.md" 4].

Definition mx_acc : MergeAcc := Eval vm_compute in merge_entry_lists mx_base mx_a mx_b ma_new.
Definition mx_pass : list FileEntry * list FileConflict * N * MemoryContentStore :=
  Eval vm_compute in
    match text_pass (ma_text_todo mx_acc) (ma_merged mx_acc) (ma_conflicts mx_acc) 0 mx_content with
    | (Ok x, c) => (x, c)
    | (Err _, c) => ([], [], 0, c)
    end.
Definition mx_merged : list FileEntry := Eval vm_compute in mx_pass.1.1.1.

Lemma mx_pass_run :
  text_pass (ma_text_todo mx_acc) (ma_merged mx_acc) (ma_conflicts mx_acc) 0 mx_content
    = (Ok (mx_pass.1), mx_pass.2).
Proof. vm_compute. reflexivity. Qed.

Lemma mx_sorted : ssorted fe_path mx_base ∧ ssorted fe_path mx_a ∧ ssorted fe_path mx_b.
Proof. split_and!; apply strictly_ordered_ssorted; vm_compute; reflexivity. Qed.

(** The note has both edits, the one-sided edit and deletion are honoured, and
    the file both devices created is a conflict. *)
Lemma mx_outcome :
  mx_merged = [ex_entry "new/c.md" 8; note "notes/a.md" mx_ab_text 7; ex_entry "notes/b.md" 6; ex_entry "readme.md" 4] ∧
  fc_path <$> mx_pass.1.1.2 = [str "new/c.md"].
Proof. split; by_decision. Qed.

Lemma merge_entry_lists_exact_witness :
  let acc := merge_entry_lists mx_base mx_a mx_b ma_new in
  ssorted fe_path (ma_merged acc) ∧
  entries_map (ma_merged acc) !! str "old/x" =
    merge3 (entries_map mx_base !! str "old/x") (entries_map mx_a !! str "old/x") (entries_map mx_b !! str "old/x").
Proof.
  destruct mx_sorted as (H1 & H2 & H3).
  destruct (merge_entry_lists_exact mx_base mx_a mx_b H1 H2 H3) as (Hs & Hl & _).
  split; [exact Hs|apply Hl].
Defined.

Lemma merge_order_independent_witness :
  clash (entries_map mx_base !! str "notes/b.md") (entries_map mx_a !! str "notes/b.md")
    (entries_map mx_b !! str "notes/b.md") = false ∧
  fe_hash <$> entries_map (ma_merged (merge_entry_lists mx_base mx_a mx_b ma_new)) !! str "notes/b.md" =
  fe_hash <$> entries_map (ma_merged (merge_entry_lists mx_base mx_b mx_a ma_new)) !! str "notes/b.md".
Proof.
  destruct mx_sorted as (H1 & H2 & H3).
  assert (clash (entries_map mx_base !! str "notes/b.md") (entries_map mx_a !! str "notes/b.md")
    (entries_map mx_b !! str "notes/b.md") = false) as Hc by (vm_compute; reflexivity).
  split; [exact Hc|].
  exact (proj2 (merge_order_independent mx_base mx_a mx_b (str "notes/b.md") H1 H2 H3) Hc).
Defined.

Lemma mx_merges :
  merges_ok mx_Q (λ p, entries_map mx_base !! p) (λ p, entries_map mx_a !! p) (λ p, entries_map mx_b !! p).
Proof.
  destruct mx_sorted as (H1 & H2 & H3). intros p t Ht. apply merges_in_b_spec.
  destruct (todo3_inv _ _ _ _ _ Ht) as (<- & _).
  apply (merge_lists_todo mx_base mx_a mx_b H1 H2 H3) in Ht.
  assert (forallb (merges_in_b mx_texts) (ma_text_todo (merge_entry_lists mx_base mx_a mx_b ma_new)) = true) as H
    by (vm_compute; reflexivity).
  rewrite forallb_forall in H. by apply H, list_elem_of_In.
Qed.

(** * Tree v2 roots *)

Definition mx_objects : list bytes := Eval vm_compute in
  remove_dups (concat (written <$> [mx_base; mx_a; mx_b; mx_merged]) ++
    leaf_blob [] :: concat ((λ es, concat (group_blobs <$> group_entries es)) <$> [mx_base; mx_a; mx_b; mx_merged])).
Definition mx_P (b : bytes) : Prop := b ∈ mx_objects.

Lemma mx_inj : injective_on hash_bytes mx_P.
Proof. apply NoDup_injective_on. by_decision. Qed.

Definition mx_build (version : N) (es : list FileEntry) (s : MemoryChunkStore) : VersionedRoot * MemoryChunkStore :=
  match build_root 1700000000000 es version (str "vault") (str "server") s with
  | (Ok r, s) => (r, s)
  | (Err _, s) => (V1 {| rn_vault_id := []; rn_created_ms := 0; rn_version := 0; rn_children := [];
                         rn_total_files := 0; rn_parent_hash := None; rn_device_id := [] |}, s)
  end.

Definition mx_roots (version : N) : VersionedRoot * VersionedRoot * VersionedRoot * MemoryChunkStore :=
  let '(rb, s) := mx_build version mx_base ms_new in
  let '(ra, s) := mx_build version mx_a s in
  let '(rc, s) := mx_build version mx_b s in (rb, ra, rc, s).

Definition mx_v2 := Eval vm_compute in mx_roots TREE_V2.

Lemma mx_store_ok : store_ok mx_P mx_v2.2.
Proof. apply mem_store_ok. unfold mx_P. by_decision. Qed.

Lemma mx_buildable : buildable mx_P TREE_V2 mx_merged.
Proof.
  split; [split; vm_compute; reflexivity|]. unfold mx_P. by_decision.
Qed.

Lemma merge_versioned_correct_witness :
  ∃ r s' c' M,
    merge_versioned_trees 1700000000009 mx_v2.1.1.1 mx_v2.1.1.2 mx_v2.1.2 mx_v2.2 mx_content = (Ok r, s', c') ∧
    vr_load_all_entries (vmr_new_root r) s' = Ok M ∧
    (∀ p, verdict c' (vmr_file_conflicts r) p (entries_map mx_base !! p) (entries_map mx_a !! p)
            (entries_map mx_b !! p) (entries_map M !! p)) ∧
    vr_version (vmr_new_root r) = vr_version mx_v2.1.1.2 ∧
    vr_parent_hash (vmr_new_root r) = Some (vr_hash mx_v2.1.1.2) ∧
    store_le mx_v2.2 s' ∧ content_le mx_content c'.
Proof.
  apply (merge_versioned_correct mx_P mx_inj mx_Q mx_Q_inj).
  - exact I.
  - vm_compute. reflexivity.
  - vm_compute. reflexivity.
  - vm_compute. reflexivity.
  - exact mx_store_ok.
  - exact mx_content_ok.
  - exact mx_merges.
  - vm_compute. reflexivity.
  - intros acc M conflicts n c'.
    change acc with (merge_entry_lists mx_base mx_a mx_b ma_new).
    replace (merge_entry_lists mx_base mx_a mx_b ma_new) with mx_acc by (vm_compute; reflexivity).
    rewrite mx_pass_run. intros E. apply run_inj in E as [E _].
    apply (f_equal (λ x, x.1.1)) in E. cbn [fst] in E. rewrite <-E. exact mx_buildable.
Defined.

Lemma versioned_build_load_witness :
  ∃ root s', build_root 1700000000000 (rev mx_merged) TREE_V2 (str "vault") (str "server") ms_new = (Ok root, s') ∧
    vr_version root = TREE_V2 ∧ store_le ms_new s' ∧
    vr_load_all_entries root s' = Ok (sort_by fe_path (rev mx_merged)).
Proof.
  apply (versioned_build_load mx_P mx_inj 1700000000000 (rev mx_merged) TREE_V2 (str "vault") (str "server") ms_new).
  - apply mem_store_ok. intros h c. vm_compute. discriminate.
  - by_decision.
  - split; [split; vm_compute; reflexivity|]. unfold mx_P. by_decision.
  - vm_compute. reflexivity.
  - vm_compute. reflexivity.
Defined.

(** * Tree v1 roots *)

Definition mx_v1 := Eval vm_compute in mx_roots TREE_V1.
Definition v1_of (r : VersionedRoot) : RootNode :=
  match r with
  | V1 r => r
  | V2 r => {| rn_vault_id := r2_vault_id r; rn_created_ms := 0; rn_version := 0; rn_children := [];
               rn_total_files := 0; rn_parent_hash := None; rn_device_id := [] |}
  end.

Lemma versioned_root_roundtrip_witness :
  ∃ b, vr_serialize mx_v1.1.1.1 = Ok b ∧ vr_deserialize b = Ok mx_v1.1.1.1.
Proof.
  assert (storable mx_v1.1.1.1) as Hs by (split; vm_compute; reflexivity).
  eexists. split; [reflexivity|].
  apply (versioned_root_roundtrip mx_v1.1.1.1 (root_serialize (v1_of mx_v1.1.1.1)) Hs). reflexivity.
Defined.

Lemma mx_vault es :
  NoDup (fe_path <$> es) → forallb entry_ok es = true → len es ≤ MAX_LOADED_ENTRIES →
  Forall mx_P (leaf_blob [] :: concat (group_blobs <$> group_entries es)) →
  vault_ok mx_P (entries_map es).
Proof. intros ??? [??]%Forall_cons. by apply entries_vault_ok. Qed.

Lemma mx_v1_vaults :
  vault_ok mx_P (entries_map mx_base) ∧ vault_ok mx_P (entries_map mx_a) ∧
  vault_ok mx_P (entries_map mx_b) ∧ vault_ok mx_P (entries_map mx_merged).
Proof.
  split_and!; (apply mx_vault; [by_decision|vm_compute; reflexivity|by_decision|unfold mx_P; by_decision]).
Qed.

Lemma dirs_repr_le {S} `{ChunkStore S} (s s' : S) children m :
  dirs_repr s children m → store_le s s' → dirs_repr s' children m.
Proof.
  intros [H1 H2 H3] Hle. split; [done..|]. intros p Hp b Hb. by apply Hle, (H3 p).
Qed.

Lemma mx_v1_repr :
  store_ok mx_P mx_v1.2 ∧
  dirs_repr mx_v1.2 (rn_children (v1_of mx_v1.1.1.1)) (entries_map mx_base) ∧
  dirs_repr mx_v1.2 (rn_children (v1_of mx_v1.1.1.2)) (entries_map mx_a) ∧
  dirs_repr mx_v1.2 (rn_children (v1_of mx_v1.1.2)) (entries_map mx_b).
Proof.
  destruct mx_v1_vaults as (Vb & Va & Vd & _).
  assert (store_ok (S := MemoryChunkStore) mx_P ms_new) as H0.
  { apply mem_store_ok. intros h c. vm_compute. discriminate. }
  destruct (build_tree_spec mx_P mx_inj 1700000000000 mx_base (str "vault") (str "server") ms_new)
    as (rb & s1 & R1 & H1 & L1 & D1 & _); [done|by_decision|done|].
  destruct (build_tree_spec mx_P mx_inj 1700000000000 mx_a (str "vault") (str "server") s1)
    as (ra & s2 & R2 & H2 & L2 & D2 & _); [done|by_decision|done|].
  destruct (build_tree_spec mx_P mx_inj 1700000000000 mx_b (str "vault") (str "server") s2)
    as (rd & s3 & R3 & H3 & L3 & D3 & _); [done|by_decision|done|].
  assert (mx_roots TREE_V1 = (V1 rb, V1 ra, V1 rd, s3)) as E.
  { unfold mx_roots, mx_build, build_root. cbn [N.eqb TREE_V1 Pos.eqb].
    unfold st_bind, st_ret. rewrite R1. cbv beta iota. rewrite R2. cbv beta iota. by rewrite R3. }
  assert (mx_v1 = (V1 rb, V1 ra, V1 rd, s3)) as ->.
  { rewrite <-E. vm_compute. reflexivity. }
  cbn [fst snd v1_of]. split_and!; [done| | |done].
  - eapply dirs_repr_le; [exact D1|]. by transitivity s2.
  - by eapply dirs_repr_le.
Qed.

Definition mx_v1_acc : result ChunkError MergeAcc :=
  Eval vm_compute in
    merge_prefixes mx_v1.2 (children_map (v1_of mx_v1.1.1.1)) (children_map (v1_of mx_v1.1.1.2))
      (children_map (v1_of mx_v1.1.2))
      (all_prefixes (children_map (v1_of mx_v1.1.1.1)) (children_map (v1_of mx_v1.1.1.2))
         (children_map (v1_of mx_v1.1.2))) ma_new.

Lemma mx_v1_acc_run :
  merge_prefixes mx_v1.2 (children_map (v1_of mx_v1.1.1.1)) (children_map (v1_of mx_v1.1.1.2))
      (children_map (v1_of mx_v1.1.2))
      (all_prefixes (children_map (v1_of mx_v1.1.1.1)) (children_map (v1_of mx_v1.1.1.2))
         (children_map (v1_of mx_v1.1.2))) ma_new = mx_v1_acc.
Proof. vm_compute. reflexivity. Qed.

Definition mx_v1_pass : list FileEntry :=
  Eval vm_compute in
    match mx_v1_acc with
    | Ok acc =>
        match text_pass (ma_text_todo acc) (ma_merged acc) (ma_conflicts acc) 0 mx_content with
        | (Ok (M, _, _), _) => M
        | (Err _, _) => []
        end
    | Err _ => []
    end.

Lemma mx_v1_pass_run acc :
  mx_v1_acc = Ok acc →
  ∃ conflicts n c', text_pass (ma_text_todo acc) (ma_merged acc) (ma_conflicts acc) 0 mx_content
    = (Ok (mx_v1_pass, conflicts, n), c').
Proof. intros [= <-]. do 3 eexists. vm_compute. reflexivity. Qed.

(** The same files as with Tree v2. *)
Lemma mx_v1_same : entries_map mx_v1_pass = entries_map mx_merged.
Proof. by_decision. Qed.

Lemma merge_trees_correct_witness :
  ∃ r s' c' m,
    merge_trees 1700000000009 (v1_of mx_v1.1.1.1) (v1_of mx_v1.1.1.2) (v1_of mx_v1.1.2) mx_v1.2 mx_content
      = (Ok r, s', c') ∧
    dirs_repr s' (rn_children (mr_new_root r)) m ∧
    rn_parent_hash (mr_new_root r) = Some (root_hash (v1_of mx_v1.1.1.2)).
Proof.
  destruct mx_v1_vaults as (Vb & Va & Vd & Vm). destruct mx_v1_repr as (Hs & Rb & Ra & Rd).
  destruct (merge_trees_correct mx_P mx_inj mx_Q mx_Q_inj mx_v1.2 _ _ _ _ _ _ Vb Va Vd Rb Ra Rd
              1700000000009 mx_content) as (r & s' & c' & m & Hrun & Hr & Hp & _).
  - exact Hs.
  - exact mx_content_ok.
  - exact mx_merges.
  - intros acc M conflicts n c' Hacc. rewrite mx_v1_acc_run in Hacc. 
    destruct (mx_v1_pass_run acc Hacc) as (cs & k & d & ->).
    intros E. apply run_inj in E as [E _]. apply (f_equal (λ x, x.1.1)) in E. cbn [fst] in E.
    rewrite <-E, mx_v1_same. exact Vm.
  - exists r, s', c', m. split; [exact Hrun|]. split; [exact Hr|exact Hp].
Defined.

(** * A deleted file comes back

    One device deletes the directory [dir], the other edits [dir/x] only. *)

Definition rz_base : list FileEntry :=
  Eval vm_compute in [ex_entry "dir/x" 1; ex_entry "dir/y" 2; ex_entry "keep" 3].
Definition rz_a : list FileEntry := Eval vm_compute in [ex_entry "keep" 3].
Definition rz_b : list FileEntry :=
  Eval vm_compute in [ex_entry "dir/x" 9; ex_entry "dir/y" 2; ex_entry "keep" 3].

(** The paths of the merged vault, for roots of one version. *)
Definition rz_paths (version : N) : option (list bytes) :=
  let '(rb, s) := mx_build version rz_base ms_new in
  let '(ra, s) := mx_build version rz_a s in
  let '(rc, s) := mx_build version rz_b s in
  match merge_versioned_trees 1700000000009 rb ra rc s mc_new with
  | (Ok r, s, _) =>
      match vr_load_all_entries (vmr_new_root r) s with
      | Ok es => Some (fe_path <$> es)
      | Err _ => None
      end
  | (Err _, _, _) => None
  end.

(** The result of a merge depends on the tree version. The server's side
    deleted a directory of two files and the other side edited one of them:
    with Tree v2 roots the edited file is kept and the other stays deleted,
    with Tree v1 roots the whole directory comes back, the untouched file
    included. *)
Theorem merge_versions_disagree :
  rz_paths TREE_V2 = Some [str "dir/x"; str "keep"] ∧
  rz_paths TREE_V1 = Some [str "dir/x"; str "dir/y"; str "keep"].
Proof. split; vm_compute; reflexivity. Qed.
