(* ===== verification/Guard.v ===== *)
(** src/crates/sync-server/src/guard.rs: the scan of a candidate root against
    the root it replaces, and the tripwires over its counts.

    The environment variables are a parameter, the Unicode value of each
    variable that is set. The counts are sums of list lengths; [+=] on them
    does not reach 2^64, while the arithmetic of [triggered] works on
    configured values and is written with its wrap-around.

    The guard counts what it says: its scan of two stored roots gives the
    numbers of deleted, changed, regressed and added files of the two vaults,
    whatever the tree versions. *)

From S2P Require Import Prelude Bytes Text Keyed Hash Chunk Store TreeV1 TreeV1Merge TreeV1Build TreeV1Repr TreeV1Props Diff TreeV2Codec TreeV2CodecProps TreeV2Build VersionedRoot TreeV2DiffProps Merge MergeDirsProps.
Local Open Scope N_scope.

Inductive GuardMode := Enforce | Warn | Off.

Record GuardConfig := {
  mode : GuardMode;
  mtime_regression_max : N;
  mtime_skew_ms : N;
  blast_pct : N;
  blast_min : N;
}.

(** * [GuardConfig::from_env] *)

Definition parse_env (env : bytes → option bytes) (key : bytes) (default : N) : N :=
  match env key with
  | Some v => match parse_u64 v with Some n => n | None => default end
  | None => default
  end.

Definition guard_from_env (env : bytes → option bytes) : GuardConfig :=
  {| mode := match env (str "OBSETYNC_GUARD") with
             | Some v => if beq v (str "off") then Off
                         else if beq v (str "enforce") then Enforce else Warn
             | None => Warn
             end;
     mtime_regression_max := parse_env env (str "OBSETYNC_GUARD_MTIME_K") 25;
     mtime_skew_ms := parse_env env (str "OBSETYNC_GUARD_MTIME_SKEW_MS") 43200000;
     blast_pct := parse_env env (str "OBSETYNC_GUARD_BLAST_PCT") 25;
     blast_min := parse_env env (str "OBSETYNC_GUARD_BLAST_MIN") 200 |}.

(** * The scan *)

Record GuardScan := {
  deletions : N;
  content_changes : N;
  mtime_regressions : N;
  additions : N;
  current_total : N;
}.

Definition scan_default (total : N) : GuardScan :=
  {| deletions := 0; content_changes := 0; mtime_regressions := 0; additions := 0;
     current_total := total |}.

Definition add_deletions (n : N) (out : GuardScan) : GuardScan :=
  {| deletions := deletions out + n; content_changes := content_changes out;
     mtime_regressions := mtime_regressions out; additions := additions out;
     current_total := current_total out |}.
Definition add_additions (n : N) (out : GuardScan) : GuardScan :=
  {| deletions := deletions out; content_changes := content_changes out;
     mtime_regressions := mtime_regressions out; additions := additions out + n;
     current_total := current_total out |}.
Definition add_change (regressed : bool) (out : GuardScan) : GuardScan :=
  {| deletions := deletions out; content_changes := content_changes out + 1;
     mtime_regressions := mtime_regressions out + (if regressed then 1 else 0);
     additions := additions out; current_total := current_total out |}.

(** [compare_entries]. *)
Fixpoint compare_entries (skew_ms : N) (cur : list FileEntry)
    : list FileEntry → GuardScan → GuardScan :=
  fix go cand out :=
    match cur, cand with
    | [], _ => add_additions (len cand) out
    | _, [] => add_deletions (len cur) out
    | c :: cur', d :: cand' =>
        match bcmp (fe_path c) (fe_path d) with
        | Eq =>
            let out :=
              if beq (fe_hash c) (fe_hash d) then out
              else add_change (saturating_add64 (fe_mtime_ms d) skew_ms <? fe_mtime_ms c) out in
            compare_entries skew_ms cur' cand' out
        | Lt => compare_entries skew_ms cur' cand (add_deletions 1 out)
        | Gt => go cand' (add_additions 1 out)
        end
    end.

Section scan.
Context {S : Type} {B3 : Blake3} {FB : FlatBuffers} {CS : ChunkStore S}.

(** The loop over the prefixes of the current root. *)
Fixpoint scan_current (s : S) (skew_ms : N) (cand_children : gmap bytes FileHash)
    (children : list (bytes * FileHash)) (out : GuardScan) : result ChunkError GuardScan :=
  match children with
  | [] => Ok out
  | (prefix, cur_hash) :: children =>
      let? out :=
        match cand_children !! prefix with
        | Some cand_hash =>
            if beq cand_hash cur_hash then Ok out
            else
              let? cur_entries := load_all_entries cur_hash s in
              let? cand_entries := load_all_entries cand_hash s in
              Ok (compare_entries skew_ms cur_entries cand_entries out)
        | None =>
            let? cur_entries := load_all_entries cur_hash s in
            Ok (add_deletions (len cur_entries) out)
        end in
      scan_current s skew_ms cand_children children out
  end.

(** The loop over the prefixes only the candidate has. *)
Fixpoint scan_candidate (s : S) (cur_children : gmap bytes FileHash)
    (children : list (bytes * FileHash)) (out : GuardScan) : result ChunkError GuardScan :=
  match children with
  | [] => Ok out
  | (prefix, cand_hash) :: children =>
      let? out :=
        match cur_children !! prefix with
        | Some _ => Ok out
        | None =>
            let? cand_entries := load_all_entries cand_hash s in
            Ok (add_additions (len cand_entries) out)
        end in
      scan_candidate s cur_children children out
  end.

(** [scan_inner]. *)
Definition scan_inner (s : S) (current candidate : RootNode) (skew_ms : N)
    : result ChunkError GuardScan :=
  let? out := scan_current s skew_ms (children_map candidate) (rn_children current)
                (scan_default (rn_total_files current)) in
  scan_candidate s (children_map current) (rn_children candidate) out.

(** [scan] and [scan_versioned], without the thread they run on. *)
Definition scan_versioned (s : S) (cfg : GuardConfig) (current candidate : VersionedRoot)
    : result ChunkError GuardScan :=
  match current, candidate with
  | V1 current, V1 candidate => scan_inner s current candidate (mtime_skew_ms cfg)
  | _, _ =>
      let? current_entries := vr_load_all_entries current s in
      let? candidate_entries := vr_load_all_entries candidate s in
      Ok (compare_entries (mtime_skew_ms cfg) current_entries candidate_entries
            (scan_default (vr_total_files current)))
  end.
End scan.

(** [GuardScan::triggered]. *)
Definition triggered (out : GuardScan) (cfg : GuardConfig) : option bytes :=
  if mtime_regression_max cfg <? mtime_regressions out then Some (str "mtime_regression")
  else
    let blast := wrap64 (deletions out + content_changes out) in
    let ceiling := N.max (blast_min cfg) (wrap64 (current_total out * blast_pct cfg) / 100) in
    if ceiling <? blast then Some (str "blast_radius") else None.

(** [enforce_guard] of src/crates/sync-server/src/api.rs without its log
    lines: [bypass] is what [consume_deletion_bypass] answers, asked only when
    the push would be refused; the result says whether it was asked. *)
Inductive GuardVerdict :=
  | GuardPass (bypass_consumed : bool)
  | GuardRejected (reason : bytes) (out : GuardScan)
  | GuardFailed (e : ChunkError).

Definition enforce_guard {S : Type} {B3 : Blake3} {FB : FlatBuffers} {CS : ChunkStore S}
    (s : S) (cfg : GuardConfig) (bypass : bool) (current candidate : VersionedRoot)
    : GuardVerdict :=
  match mode cfg with
  | Off => GuardPass false
  | _ =>
      match scan_versioned s cfg current candidate with
      | Err e => GuardFailed e
      | Ok out =>
          match triggered out cfg, mode cfg with
          | Some reason, Enforce =>
              if bypass then GuardPass true else GuardRejected reason out
          | _, _ => GuardPass false
          end
      end
  end.


(** * Counting *)

Fixpoint count {A} (f : A → bool) (l : list A) : N :=
  match l with [] => 0 | x :: l => (if f x then 1 else 0) + count f l end.

Section counting.
Context {A : Type}.
Implicit Types (f g : A → bool) (l : list A).

Lemma count_app f l1 l2 : count f (l1 ++ l2) = count f l1 + count f l2.
Proof. induction l1 as [|x l1 IH]; [done|]. cbn [app count]. rewrite IH. lia. Qed.

Lemma count_perm f l1 l2 : l1 ≡ₚ l2 → count f l1 = count f l2.
Proof. induction 1; cbn [count]; lia. Qed.

Lemma count_ext f g l : Forall (λ x, f x = g x) l → count f l = count g l.
Proof. induction 1 as [|x l E _ IH]; [done|]. cbn [count]. by rewrite E, IH. Qed.

Lemma count_all f l : Forall (λ x, f x = true) l → count f l = len l.
Proof. induction 1 as [|x l E _ IH]; [done|]. cbn [count]. rewrite E, IH, len_cons. lia. Qed.

Lemma count_none f l : Forall (λ x, f x = false) l → count f l = 0.
Proof. induction 1 as [|x l E _ IH]; [done|]. cbn [count]. by rewrite E, IH. Qed.

Lemma count_le f l : count f l ≤ len l.
Proof. induction l as [|x l IH]; [done|]. cbn [count]. rewrite len_cons. destruct (f x); lia. Qed.
End counting.

(** * What each count is about *)

Definition is_gone (m : vault) (e : FileEntry) : bool := bool_decide (m !! fe_path e = None).
Definition is_changed (m : vault) (e : FileEntry) : bool :=
  match m !! fe_path e with Some d => negb (beq (fe_hash e) (fe_hash d)) | None => false end.
Definition is_regressed (skew_ms : N) (m : vault) (e : FileEntry) : bool :=
  match m !! fe_path e with
  | Some d => negb (beq (fe_hash e) (fe_hash d))
              && (saturating_add64 (fe_mtime_ms d) skew_ms <? fe_mtime_ms e)
  | None => false
  end.

(** The counts of the pairs below [cur] and [cand], seen in [m1] and [m2]. *)
Definition scan_of (skew_ms : N) (m1 m2 : vault) (cur cand : list FileEntry) (out : GuardScan)
    : GuardScan :=
  {| deletions := deletions out + count (is_gone m2) cur;
     content_changes := content_changes out + count (is_changed m2) cur;
     mtime_regressions := mtime_regressions out + count (is_regressed skew_ms m2) cur;
     additions := additions out + count (is_gone m1) cand;
     current_total := current_total out |}.

Lemma scan_of_ext skew_ms m1 m2 m1' m2' cur cand out :
  Forall (λ e, m2 !! fe_path e = m2' !! fe_path e) cur →
  Forall (λ e, m1 !! fe_path e = m1' !! fe_path e) cand →
  scan_of skew_ms m1 m2 cur cand out = scan_of skew_ms m1' m2' cur cand out.
Proof.
  intros H1 H2. unfold scan_of. f_equal; f_equal; apply count_ext;
    (eapply Forall_impl; [eassumption|]); intros e E;
    unfold is_gone, is_changed, is_regressed; by rewrite E.
Qed.

Lemma scan_of_app skew_ms m1 m2 a a' b b' out :
  scan_of skew_ms m1 m2 (a ++ a') (b ++ b') out
    = scan_of skew_ms m1 m2 a' b' (scan_of skew_ms m1 m2 a b out).
Proof. unfold scan_of. cbn. rewrite !count_app. f_equal; lia. Qed.

Lemma scan_of_perm skew_ms m1 m2 a a' b b' out :
  a ≡ₚ a' → b ≡ₚ b' → scan_of skew_ms m1 m2 a b out = scan_of skew_ms m1 m2 a' b' out.
Proof. intros Ha Hb. unfold scan_of. f_equal; f_equal; by apply count_perm. Qed.

Lemma cons_lookup_above t to es :
  Forall (λ e, fe_path t ≺ fe_path e) es →
  Forall (λ e, entries_map (t :: to) !! fe_path e = entries_map to !! fe_path e) es.
Proof.
  intros H. eapply Forall_impl; [exact H|]. intros e He. apply entries_map_cons_ne.
  by apply not_eq_sym, bytes_lt_ne.
Qed.

(** The two-pointer comparison of two sorted lists. *)
Lemma compare_entries_spec skew_ms cur cand out :
  ssorted fe_path cur → ssorted fe_path cand →
  compare_entries skew_ms cur cand out
    = scan_of skew_ms (entries_map cur) (entries_map cand) cur cand out.
Proof.
  revert cand out. induction cur as [|c cur IHc]; intros cand out Hc Hd.
  { destruct cand as [|d cand]; cbn [compare_entries]; unfold add_additions, scan_of; cbn [count];
      rewrite ?N.add_0_r; [by destruct out|]. f_equal. f_equal.
    symmetry. apply (count_all (is_gone (entries_map [])) (d :: cand)).
    apply Forall_forall. intros e _. by apply bool_decide_eq_true_2. }
  revert out. induction cand as [|d cand IHd]; intros out.
  { cbn [compare_entries]; unfold add_deletions, scan_of.
    rewrite (count_all (is_gone _)) by (apply Forall_forall; intros; by apply bool_decide_eq_true_2).
    rewrite (count_none (is_changed _)) by (by apply Forall_forall).
    rewrite (count_none (is_regressed _ _)) by (by apply Forall_forall).
    cbn [count]. by rewrite !N.add_0_r. }
  pose proof Hc as [Hc1 Hc2]%ssorted_cons. pose proof Hd as [Hd1 Hd2]%ssorted_cons.
  cbn [compare_entries]. destruct (bcmp_spec (fe_path c) (fe_path d)) as [E|E|E].
  - rewrite IHc by done.
    rewrite (scan_of_app _ _ _ [c] cur [d] cand out : scan_of _ _ _ (c :: cur) (d :: cand) _ = _).
    rewrite (scan_of_ext _ (entries_map (c :: cur)) (entries_map (d :: cand)) (entries_map cur)
               (entries_map cand) cur cand).
    2: { apply cons_lookup_above. by rewrite <-E. }
    2: { apply cons_lookup_above. by rewrite E. }
    f_equal. unfold scan_of. cbn [count]. unfold is_gone, is_changed, is_regressed.
    rewrite E, entries_map_cons_eq, <-E, entries_map_cons_eq, !bool_decide_eq_false_2 by done.
    destruct (beq _ _); cbn [negb andb]; [by destruct out; rewrite !N.add_0_r|].
    unfold add_change. by rewrite !N.add_0_r.
  - rewrite IHc by done.
    rewrite (scan_of_app _ _ _ [c] cur [] (d :: cand) out : scan_of _ _ _ (c :: cur) (d :: cand) _ = _).
    assert (entries_map (d :: cand) !! fe_path c = None) as N2.
    { apply entries_map_above. constructor; [done|]. by eapply Forall_above. }
    rewrite (scan_of_ext _ (entries_map (c :: cur)) (entries_map (d :: cand)) (entries_map cur) (entries_map (d :: cand)) cur (d :: cand)).
    2: by apply Forall_forall.
    2: { apply cons_lookup_above. constructor; [done|]. by eapply Forall_above. }
    f_equal. unfold scan_of, add_deletions. cbn [count]. unfold is_gone, is_changed, is_regressed.
    by rewrite N2, bool_decide_eq_true_2, !N.add_0_r.
  - rewrite IHd by done.
    rewrite (scan_of_app _ _ _ [] (c :: cur) [d] cand out : scan_of _ _ _ (c :: cur) (d :: cand) _ = _).
    assert (entries_map (c :: cur) !! fe_path d = None) as N1.
    { apply entries_map_above. constructor; [done|]. by eapply Forall_above. }
    rewrite (scan_of_ext _ (entries_map (c :: cur)) (entries_map (d :: cand)) (entries_map (c :: cur)) (entries_map cand) (c :: cur) cand).
    2: { apply cons_lookup_above. constructor; [done|]. by eapply Forall_above. }
    2: by apply Forall_forall.
    f_equal. unfold scan_of, add_additions. cbn [count]. unfold is_gone.
    by rewrite N1, bool_decide_eq_true_2, !N.add_0_r.
Qed.

(** * Whole roots *)

Lemma dirs_perm m ps :
  keyed m → NoDup ps → (∀ p, p ∉ ps → dir_entries p m = []) →
  concat ((λ p, dir_entries p m) <$> ps) ≡ₚ vault_entries m.
Proof.
  intros Hm Hps Hout.
  assert (∀ p e, e ∈ dir_entries p m → top_level_prefix (fe_path e) = p) as Hdir.
  { by intros p e [_ ?]%elem_of_dir_entries. }
  apply NoDup_Permutation.
  - apply (NoDup_fmap_1 fe_path), concat_dirs_NoDup; [|done|done].
    intros p. by apply ssorted_NoDup, dir_entries_ssorted.
  - by eapply NoDup_fmap_1, ssorted_NoDup, vault_entries_ssorted.
  - intros e. rewrite (elem_of_concat_dirs fe_path) by done.
    rewrite elem_of_vault_entries, elem_of_dir_entries by done. split; [by intros (_ & ? & _)|].
    intros He. split_and!; [|done..].
    destruct (decide (top_level_prefix (fe_path e) ∈ ps)) as [|Hn]; [done|].
    assert (e ∈ dir_entries (top_level_prefix (fe_path e)) m) as Hin by (by apply elem_of_dir_entries).
    rewrite Hout in Hin by done. by apply not_elem_of_nil in Hin.
Qed.

Section dirs.
Context (skew_ms : N) (m1 m2 : vault) (K1 : keyed m1) (K2 : keyed m2).

(** One directory of both vaults. *)
Lemma scan_dir_lookup p m m' : keyed m → keyed m' →
  Forall (λ e, entries_map (dir_entries p m') !! fe_path e = m' !! fe_path e) (dir_entries p m).
Proof.
  intros Hm Hm'. apply Forall_forall. intros e [_ Hd]%elem_of_dir_entries; [|done].
  rewrite dir_entries_lookup by done. by rewrite decide_True.
Qed.

Lemma compare_dir p out :
  compare_entries skew_ms (dir_entries p m1) (dir_entries p m2) out
    = scan_of skew_ms m1 m2 (dir_entries p m1) (dir_entries p m2) out.
Proof using K1 K2.
  rewrite compare_entries_spec by (by apply dir_entries_ssorted).
  apply scan_of_ext; by apply scan_dir_lookup.
Qed.

Lemma skip_dir p out :
  dir_entries p m1 = dir_entries p m2 →
  out = scan_of skew_ms m1 m2 (dir_entries p m1) (dir_entries p m2) out.
Proof using K1 K2.
  intros E. rewrite <-compare_dir. rewrite E. generalize (dir_entries p m2). intros es.
  clear. revert out. induction es as [|e es IH]; intros out.
  - destruct out. cbn [compare_entries]. unfold add_additions. cbn. by rewrite N.add_0_r.
  - cbn [compare_entries]. rewrite (proj2 (bcmp_eq _ _)) by done.
    unfold beq. rewrite bool_decide_eq_true_2 by done. apply IH.
Qed.

Lemma gone_dir p out :
  dir_entries p m2 = [] →
  add_deletions (len (dir_entries p m1)) out
    = scan_of skew_ms m1 m2 (dir_entries p m1) (dir_entries p m2) out.
Proof using K1 K2.
  intros E. rewrite <-compare_dir, E. destruct (dir_entries p m1); cbn [compare_entries]; [|done].
  unfold add_deletions, add_additions. cbn. by rewrite !N.add_0_r.
Qed.

Lemma new_dir p out :
  dir_entries p m1 = [] →
  add_additions (len (dir_entries p m2)) out
    = scan_of skew_ms m1 m2 (dir_entries p m1) (dir_entries p m2) out.
Proof using K1 K2. intros E. rewrite <-compare_dir, E. by destruct (dir_entries p m2). Qed.
End dirs.

Section roots.
Context {S : Type} {B3 : Blake3} {FB : FlatBuffers} {CS : ChunkStore S} {CSL : ChunkStoreLaws S}.
Context (P : bytes → Prop) (s : S) (r1 r2 : RootNode) (m1 m2 : vault) (skew_ms : N).
Context (V1 : vault_ok P m1) (V2 : vault_ok P m2).
Context (R1 : dirs_repr s (rn_children r1) m1) (R2 : dirs_repr s (rn_children r2) m2).

Abbreviation D1 := (λ p, dir_entries p m1).
Abbreviation D2 := (λ p, dir_entries p m2).

Lemma child_load r m p h :
  vault_ok P m → dirs_repr s (rn_children r) m → dir_child p m = Some h →
  load_all_entries h s = Ok (dir_entries p m).
Proof.
  intros Hv Hr Hc. pose proof (dr_child _ _ _ Hr p) as E. rewrite Hc in E.
  apply amap_elem in E; [|apply Hr]. by eapply dirs_repr_load.
Qed.

Lemma no_child p m : dir_child p m = None → dir_entries p m = [].
Proof. unfold dir_child. by destruct (dir_entries p m). Qed.

Lemma scan_current_run cs out :
  (∀ p h, (p, h) ∈ cs → (p, h) ∈ rn_children r1) →
  scan_current s skew_ms (children_map r2) cs out
    = Ok (scan_of skew_ms m1 m2 (concat (D1 <$> cs.*1)) (concat (D2 <$> cs.*1)) out).
Proof using V1 V2 R1 R2 CSL.
  revert out. induction cs as [|[p h] cs IH]; intros out Hsub.
  { cbn [scan_current]. unfold scan_of. cbn. rewrite !N.add_0_r. by destruct out. }
  cbn [scan_current]. csimpl. rewrite scan_of_app, (children_map_spec s r2 m2) by done.
  assert (load_all_entries h s = Ok (dir_entries p m1)) as L1.
  { eapply dirs_repr_load; [done..|]. apply Hsub. by left. }
  assert (∀ out', scan_current s skew_ms (children_map r2) cs out'
    = Ok (scan_of skew_ms m1 m2 (concat (D1 <$> cs.*1)) (concat (D2 <$> cs.*1)) out')) as IH'.
  { intros out'. apply IH. intros p' h' Hin. apply Hsub. by right. }
  destruct (dir_child p m2) as [h2|] eqn:E2.
  - pose proof (child_load r2 m2 p h2 V2 R2 E2) as L2. unfold beq. case_bool_decide as Eh.
    + subst h2. rewrite <-skip_dir; [apply IH'|apply V1|apply V2|congruence].
    + rewrite L1, L2, compare_dir by (apply V1 || apply V2). apply IH'.
  - rewrite L1. rewrite (gone_dir skew_ms m1 m2); [apply IH'|apply V1|apply V2|by apply no_child].
Qed.

Lemma scan_candidate_run cs out :
  (∀ p h, (p, h) ∈ cs → (p, h) ∈ rn_children r2) →
  scan_candidate s (children_map r1) cs out
    = Ok (scan_of skew_ms m1 m2 (concat (D1 <$> filter (λ p, dir_child p m1 = None) cs.*1))
            (concat (D2 <$> filter (λ p, dir_child p m1 = None) cs.*1)) out).
Proof using V1 V2 R1 R2 CSL.
  revert out. induction cs as [|[p h] cs IH]; intros out Hsub.
  { cbn [scan_candidate]. unfold scan_of. cbn. rewrite !N.add_0_r. by destruct out. }
  cbn [scan_candidate]. csimpl. rewrite filter_cons, (children_map_spec s r1 m1) by done.
  assert (load_all_entries h s = Ok (dir_entries p m2)) as L2.
  { eapply dirs_repr_load; [done..|]. apply Hsub. by left. }
  assert (∀ p' h', (p', h') ∈ cs → (p', h') ∈ rn_children r2) as Hsub'.
  { intros p' h' Hin. apply Hsub. by right. }
  destruct (dir_child p m1) as [h1|] eqn:E1.
  - rewrite decide_False by done. by apply IH.
  - rewrite decide_True by done. csimpl. rewrite L2, scan_of_app.
    rewrite (new_dir skew_ms m1 m2); [by apply IH|apply V1|apply V2|by apply no_child].
Qed.

Lemma scan_inner_run :
  scan_inner s r1 r2 skew_ms
    = Ok (scan_of skew_ms m1 m2 (vault_entries m1) (vault_entries m2)
            (scan_default (rn_total_files r1))).
Proof using V1 V2 R1 R2 CSL.
  unfold scan_inner. rewrite scan_current_run by done. cbn [mbind]. rewrite scan_candidate_run by done.
  rewrite <-scan_of_app, <-!concat_app, <-!fmap_app. f_equal.
  set (ps := (rn_children r1).*1 ++ _).
  assert (∀ p r m, dirs_repr s (rn_children r) m → p ∉ (rn_children r).*1 ↔ dir_child p m = None) as Hin.
  { intros p r m Hr. rewrite <-(dr_child _ _ _ Hr p). split.
    - apply not_elem_of_list_to_map_1.
    - apply not_elem_of_list_to_map_2. }
  assert (NoDup ps) as Hnd.
  { apply NoDup_app. split_and!.
    - apply ssorted_NoDup, R1.
    - intros p Hp [Hn _]%list_elem_of_filter. by apply (Hin p r1 m1 R1) in Hn.
    - apply NoDup_filter, ssorted_NoDup, R2. }
  apply scan_of_perm; apply dirs_perm; [apply V1|done| |apply V2|done|].
  - intros p Hp. apply no_child, (Hin p r1 m1 R1). intros H. apply Hp, elem_of_app. by left.
  - intros p Hp. apply no_child, (Hin p r2 m2 R2). intros H. apply Hp, elem_of_app.
    destruct (decide (p ∈ (rn_children r1).*1)) as [|Hn]; [by left|right].
    apply list_elem_of_filter. split; [by apply (Hin p r1 m1 R1)|done].
Qed.
End roots.

Section verdict.
Context {S : Type} {B3 : Blake3} {FB : FlatBuffers} {CS : ChunkStore S} {CSL : ChunkStoreLaws S}.
Context (P : bytes → Prop).

(** The counts of the two vaults. *)
Definition true_scan (skew_ms : N) (m1 m2 : vault) : GuardScan :=
  {| deletions := count (is_gone m2) (vault_entries m1);
     content_changes := count (is_changed m2) (vault_entries m1);
     mtime_regressions := count (is_regressed skew_ms m2) (vault_entries m1);
     additions := count (is_gone m1) (vault_entries m2);
     current_total := N.of_nat (size m1) |}.

Lemma holds_total s r m : vr_holds P s r m → vr_total_files r = N.of_nat (size m).
Proof.
  destruct r as [r|r]; intros [_ H].
  - apply H.
  - destruct H as (es & Hr & Hes & _ & <-). pose proof Hes as [(_ & _ & Hs)%validate_entries_ok _].
    rewrite size_entries_map by done. cbn [vr_total_files]. unfold r2_total_files. rewrite Hr.
    by destruct es.
Qed.

Lemma scan_versioned_run s cfg r1 r2 m1 m2 :
  vr_holds P s r1 m1 → vr_holds P s r2 m2 →
  scan_versioned s cfg r1 r2 = Ok (true_scan (mtime_skew_ms cfg) m1 m2).
Proof using CSL.
  intros H1 H2.
  assert (∀ es1 es2, ssorted fe_path es1 → ssorted fe_path es2 → entries_map es1 = m1 →
    entries_map es2 = m2 → compare_entries (mtime_skew_ms cfg) es1 es2 (scan_default (vr_total_files r1))
      = true_scan (mtime_skew_ms cfg) m1 m2) as Hflat.
  { intros es1 es2 S1 S2 E1 E2. rewrite compare_entries_spec, E1, E2 by done.
    assert (∀ es m, ssorted fe_path es → entries_map es = m → es = vault_entries m) as Hu.
    { intros es m Hs <-. apply vault_entries_unique; [apply keyed_entries_map|done..]. }
    rewrite (Hu es1 m1 S1 E1), (Hu es2 m2 S2 E2), (holds_total s r1 m1 H1). done. }
  destruct (holds_load P s r1 m1 H1) as (es1 & L1 & S1 & E1).
  destruct (holds_load P s r2 m2 H2) as (es2 & L2 & S2 & E2).
  destruct r1 as [r1|r1], r2 as [r2|r2]; cbn [scan_versioned].
  2-4: rewrite L1, L2; by rewrite Hflat.
  destruct H1 as (_ & V1 & R1 & T1), H2 as (_ & V2 & R2 & _).
  rewrite (scan_inner_run P s r1 r2 m1 m2) by done. by rewrite T1.
Qed.

(** The guard's scan is exact: for any two stored roots of either tree
    version it succeeds and its counts are the numbers of files of the
    replaced vault that are gone, that have other content, and that have
    other content and an older modification time beyond the skew allowance,
    and of files only the candidate has; no subtree it skips hides a change. *)
Theorem guard_scan_exact s cfg r1 r2 m1 m2 :
  vr_holds P s r1 m1 → vr_holds P s r2 m2 →
  scan_versioned s cfg r1 r2 = Ok (true_scan (mtime_skew_ms cfg) m1 m2).
Proof using CSL. apply scan_versioned_run. Qed.

(** The limit a push exceeds, from the counts of the two vaults. The percentage
    is taken of a product in 64 bits: it is exact unless the configured
    percentage is so large that the product wraps. *)
Definition limit_exceeded (cfg : GuardConfig) (m1 m2 : vault) : option bytes :=
  let t := true_scan (mtime_skew_ms cfg) m1 m2 in
  if mtime_regression_max cfg <? mtime_regressions t then Some (str "mtime_regression")
  else if N.max (blast_min cfg) (wrap64 (N.of_nat (size m1) * blast_pct cfg) / 100)
            <? deletions t + content_changes t
  then Some (str "blast_radius") else None.

(** C32: the verdict of the guard, in every mode and with or without a grant. A
    push exceeds the limits when more than [mtime_regression_max] files move
    back in time, or when the deleted and changed files are more than both
    [blast_min] and [blast_pct] percent of the replaced vault (as computed in
    64 bits). In enforcing mode such a push is refused with the reason,
    regressions first, and the exact counts, unless the device has an approved
    one-time grant, which lets it through and is used up. Every other push
    goes through and uses no grant; the other modes let every push through. *)
Theorem guard_verdict_exact s cfg bypass r1 r2 m1 m2 :
  vr_holds P s r1 m1 → vr_holds P s r2 m2 →
  enforce_guard s cfg bypass r1 r2 =
    match mode cfg, limit_exceeded cfg m1 m2 with
    | Enforce, Some reason =>
        if bypass then GuardPass true else GuardRejected reason (true_scan (mtime_skew_ms cfg) m1 m2)
    | _, _ => GuardPass false
    end.
Proof using CSL.
  intros H1 H2. unfold enforce_guard, limit_exceeded. rewrite (scan_versioned_run s cfg r1 r2 m1 m2) by done.
  set (t := true_scan (mtime_skew_ms cfg) m1 m2). unfold triggered.
  assert (deletions t + content_changes t ≤ U64_MAX) as Hs.
  { pose proof (count_le (is_gone m2) (vault_entries m1)) as B1.
    pose proof (count_le (is_changed m2) (vault_entries m1)) as B2.
    rewrite len_vault_entries in B1, B2. destruct H1 as [Hmax _].
    unfold t, true_scan, MAX_LOADED_ENTRIES, U64_MAX in *. cbn [deletions content_changes]. lia. }
  assert (wrap64 (deletions t + content_changes t) = deletions t + content_changes t) as ->.
  { apply N.mod_small. unfold U64_MAX in Hs. lia. }
  change (current_total t) with (N.of_nat (size m1)).
  destruct (mode cfg); [|by repeat case_match..].
  destruct (mtime_regression_max cfg <? mtime_regressions t); [done|].
  by destruct (_ <? deletions t + content_changes t).
Qed.
End verdict.
