(* ===== verification/StorageLayout.v ===== *)
(** src/crates/sync-server/src/storage.rs, the name mapping: how identifiers
    from requests become directory names below the data directory. *)

From S2P Require Import Prelude Bytes Hash.
Local Open Scope N_scope.

(** [u8::is_ascii_alphanumeric]. *)
Definition is_ascii_alphanumeric (b : byte) : bool :=
  in_range 0x30 (b2n b) 0x39 || in_range 0x41 (b2n b) 0x5A || in_range 0x61 (b2n b) 0x7A.

(** The characters a literal component may have. *)
Definition component_byte (b : byte) : bool :=
  is_ascii_alphanumeric b || existsb (λ c, bool_decide (b = c)) (str "-_.").

(** The test [safe] of [storage_component]. *)
Definition component_safe (value : bytes) : bool :=
  negb (beq value []) && (len value <=? 128) && negb (beq value (str "."))
  && negb (beq value (str "..")) && forallb component_byte value.

(** [storage_component]. *)
Definition storage_component `{Blake3} `{Hex} (value : bytes) : bytes :=
  if component_safe value then value
  else str "~" ++ hash_to_hex (hash_bytes value).

Lemma storage_component_safe `{Blake3} `{Hex} value :
  component_safe value = true → storage_component value = value.
Proof. unfold storage_component. by intros ->. Qed.

Lemma component_byte_ascii b : component_byte b = true → ascii_byte b = true.
Proof. destruct b; vm_compute; congruence. Qed.

Lemma component_safe_ascii value :
  component_safe value = true → forallb ascii_byte value = true.
Proof.
  unfold component_safe. intros H. bool_to_prop.
  match goal with H : forallb _ _ = true |- _ => revert H end.
  rewrite !forallb_forall. intros Hb b Hin. by apply component_byte_ascii, Hb.
Qed.

(** Two identifiers share a directory only when their hashes collide. *)
Lemma storage_component_inj {B3 : Blake3} {HX : Hex} (P : bytes → Prop) :
  injective_on hash_bytes P → injective_on storage_component P.
Proof.
  intros Hinj x y Hx Hy. unfold storage_component.
  assert (∀ v w, component_safe v = true → str "~" ++ w ≠ v) as Hne.
  { intros v w Hv <-. unfold component_safe in Hv. bool_to_prop. discriminate. }
  destruct (component_safe x) eqn:Ex, (component_safe y) eqn:Ey; intros E.
  - done.
  - by destruct (Hne x (hash_to_hex (hash_bytes y)) Ex).
  - by destruct (Hne y (hash_to_hex (hash_bytes x)) Ey).
  - apply app_inv_head in E. apply Hinj; [done..|].
    assert (hex_decode (hash_to_hex (hash_bytes x)) = hex_decode (hash_to_hex (hash_bytes y))) as E'
      by (by rewrite E).
    unfold hash_to_hex in E'. rewrite !hex_decode_encode in E'. by injection E'.
Qed.
