(* ===== verification/RootHead.v ===== *)
(** src/crates/sync-server/src/root_head.rs: the authoritative head of a vault,
    its selected root with the last outcome of every device.

    [serde_json] is third-party code: its [Value] is the inductive type
    [Value], with an object as the association list of its map in key order,
    and the class [RootJson] is the text form of a receipt and of a payload,
    with the law that reading inverts writing on well-typed values without
    floating-point numbers (a string is a byte list here; those of the code
    are UTF-8). [HexLower] is the documented form of [hex]
    output: two lowercase digits per byte. *)

From S2P Require Import Prelude Bytes Text Keyed Hash StorageLayout.
Local Open Scope N_scope.

Definition MAX_ROOT_HEAD_BYTES : N := 2 * 1024 * 1024.
Definition MAX_ROOT_RECEIPT_BYTES : N := 64 * 1024.
Definition MAX_ROOT_RECEIPT_DEVICES : N := 128.
Definition MAX_ROOT_SEQUENCE : N := 9007199254740991.
Definition MAGIC : bytes := str "OBSETYNC_ROOT_HEAD_V1" ++ [x0a].
Definition DOMAIN : bytes := str "obsetync:root-head:v1" ++ [x00].
Definition PREFIX_BYTES : N := len MAGIC + 64 + 1.

(** * JSON values *)

Inductive Number := PosInt (n : N) | NegInt (n : N) | Float (text : bytes).

Inductive Value :=
  | Null
  | Bool (b : bool)
  | Num (n : Number)
  | Str (s : bytes)
  | Arr (items : list Value)
  | Obj (fields : list (bytes * Value)).

Abbreviation Fields := (list (bytes * Value)).

(** [Map::get], [Value::as_str] and the like. *)
Fixpoint field (key : bytes) (object : Fields) : option Value :=
  match object with
  | [] => None
  | (k, v) :: object => if beq key k then Some v else field key object
  end.
Definition as_str (v : Value) : option bytes := match v with Str s => Some s | _ => None end.
Definition as_u64 (v : Value) : option N :=
  match v with Num (PosInt n) => Some n | _ => None end.
Definition as_object (v : Value) : option Fields := match v with Obj o => Some o | _ => None end.
Definition as_array (v : Value) : option (list Value) :=
  match v with Arr l => Some l | _ => None end.
Definition is_true_value (v : option Value) : bool :=
  match v with Some (Bool true) => true | _ => false end.

(** What the Rust types guarantee of a value, and what its text form keeps. *)
Fixpoint value_typed (v : Value) : bool :=
  match v with
  | Null | Bool _ => true
  | Num (PosInt n) => n <=? U64_MAX
  | Num (NegInt n) => (1 <=? n) && (n <=? 9223372036854775808)
  | Num (Float _) => false
  | Str _ => true
  | Arr items => forallb value_typed items
  | Obj fields =>
      strictly_ordered fst fields && forallb (λ kv, value_typed kv.2) fields
  end.

(** * Receipts and heads *)

Record RootReceipt := {
  sequence : N;
  mutation_id : bytes;
  request_hash : bytes;
  outcome : Value;
}.

Record RootHead := {
  head_root_hash : option FileHash;
  head_receipts : gmap bytes RootReceipt;
}.

(** [PayloadRef] and [Payload]. *)
Record Payload := {
  pl_schema : N;
  pl_vault_id : bytes;
  pl_root_hash : option bytes;
  pl_receipts : gmap bytes RootReceipt;
}.

Definition receipt_typed (r : RootReceipt) : bool :=
  (sequence r <=? U64_MAX) && value_typed (outcome r).
Definition payload_typed (p : Payload) : Prop :=
  pl_schema p ≤ 4294967295 ∧ map_Forall (λ _ r, receipt_typed r = true) (pl_receipts p).

Class RootJson := {
  receipt_json : RootReceipt → bytes;
  payload_json : Payload → bytes;
  payload_of_json : bytes → option Payload;
  payload_of_json_json : ∀ p, payload_typed p → payload_of_json (payload_json p) = Some p;
}.

Class HexLower `{Hex} : Prop := {
  hex_encode_len : ∀ b, len (hex_encode b) = 2 * len b;
  hex_encode_lower : ∀ b,
    forallb (λ c, in_range 0x30 (b2n c) 0x39 || in_range 0x61 (b2n c) 0x66) (hex_encode b) = true;
}.

(** [io::Error] of kind [InvalidData]. *)
Abbreviation IoResult := (result string).

(** * Validation *)

Definition lower_hex_byte (b : byte) : bool :=
  in_range 0x30 (b2n b) 0x39 || in_range 0x61 (b2n b) 0x66.
Definition lower_hex (value : bytes) (length : N) : bool :=
  (len value =? length) && forallb lower_hex_byte value.
Definition is_ascii_hexdigit (b : byte) : bool :=
  lower_hex_byte b || in_range 0x41 (b2n b) 0x46.

Definition is_lower_hex_field (key : bytes) (object : Fields) : bool :=
  match field key object ≫= as_str with Some v => lower_hex v 64 | None => false end.

Definition only_cancelled (object : Fields) : bool :=
  (len object =? 1) && is_true_value (field (str "cancelled") object).

(** [RootReceipt::is_cancelled]. *)
Definition is_cancelled (r : RootReceipt) : bool :=
  match as_object (outcome r) with Some object => only_cancelled object | None => false end.

(** The loop over the conflict rows. *)
Fixpoint validate_conflicts (conflicts : list Value) : IoResult unit :=
  match conflicts with
  | [] => Ok tt
  | conflict :: conflicts =>
      match as_object conflict with
      | None => Err "invalid root conflict row"%string
      | Some row =>
          if negb (len row =? 4)
             || match field (str "path") row ≫= as_str with
                | Some p => beq p []
                | None => true
                end
          then Err "invalid root conflict fields"%string
          else if negb (forallb (λ f, is_lower_hex_field f row)
                          [str "base_hash"; str "side_a_hash"; str "side_b_hash"])
          then Err "invalid root conflict hash"%string
          else validate_conflicts conflicts
      end
  end.

Definition is_safe_count (key : bytes) (object : Fields) : bool :=
  match field key object ≫= as_u64 with Some v => v <=? MAX_ROOT_SEQUENCE | None => false end.

(** [validate_result]. *)
Definition validate_result (value : Value) : IoResult unit :=
  match as_object value with
  | None => Err "root outcome must be an object"%string
  | Some object =>
      if only_cancelled object then Ok tt
      else if negb (is_lower_hex_field (str "root_hash") object)
      then Err "invalid root outcome hash"%string
      else if is_true_value (field (str "accepted") object) && (len object =? 2) then Ok tt
      else if negb (is_true_value (field (str "merged") object)) || negb (len object =? 5)
      then Err "invalid root outcome discriminator or fields"%string
      else if negb (forallb (λ f, is_safe_count f object) [str "auto_resolved"; str "text_merged"])
      then Err "invalid root merge count"%string
      else
        match field (str "conflicts") object ≫= as_array with
        | None => Err "invalid root merge conflicts"%string
        | Some conflicts => validate_conflicts conflicts
        end
  end.

(** [bounded_json]: the text, unless it is longer than the limit. *)
Definition bounded_json (text : bytes) (limit : N) : IoResult bytes :=
  if len text <=? limit then Ok text
  else Err "root metadata encoding or capacity failure"%string.

(** [validate_device_id]. *)
Definition validate_device_id (device : bytes) : IoResult unit :=
  if negb (component_safe device) then Err "invalid root receipt device identity"%string else Ok tt.

Section codec.
Context {B3 : Blake3} {HX : Hex} {RJ : RootJson}.

(** [RootReceipt::validate]. *)
Definition receipt_validate (r : RootReceipt) : IoResult unit :=
  if (sequence r =? 0) || (MAX_ROOT_SEQUENCE <? sequence r)
  then Err "root receipt sequence is not a positive safe integer"%string
  else if negb (lower_hex (mutation_id r) 32) || negb (lower_hex (request_hash r) 64)
  then Err "invalid root receipt identity"%string
  else
    let? _ := validate_result (outcome r) in
    let? _ := bounded_json (receipt_json r) MAX_ROOT_RECEIPT_BYTES in
    Ok tt.

(** The loop of [validate_head] over the receipts, in key order. *)
Fixpoint validate_receipts (l : list (bytes * RootReceipt)) : IoResult unit :=
  match l with
  | [] => Ok tt
  | (device, receipt) :: l =>
      let? _ := validate_device_id device in
      let? _ := receipt_validate receipt in
      validate_receipts l
  end.

Definition receipt_list (head : RootHead) : list (bytes * RootReceipt) :=
  sort_by fst (map_to_list (head_receipts head)).

(** [validate_head]. *)
Definition validate_head (head : RootHead) : IoResult unit :=
  if MAX_ROOT_RECEIPT_DEVICES <? N.of_nat (size (head_receipts head))
  then Err "root receipt device capacity exceeded"%string
  else
    let? _ := validate_receipts (receipt_list head) in
    if match head_root_hash head with
       | Some _ => false
       | None => match receipt_list head with
                 | [] => true
                 | l => existsb (λ kv, negb (is_cancelled kv.2)) l
                 end
       end
    then Err "null root requires retained cancellation-only history"%string
    else Ok tt.

(** * The text form *)

(** [payload_bytes]. *)
Definition payload_bytes (vault_id : bytes) (head : RootHead) : IoResult bytes :=
  bounded_json
    (payload_json {| pl_schema := 1; pl_vault_id := vault_id;
                     pl_root_hash := hash_to_hex <$> head_root_hash head;
                     pl_receipts := head_receipts head |})
    (MAX_ROOT_HEAD_BYTES - PREFIX_BYTES).

(** [checksum_hex]. *)
Definition checksum_hex (payload : bytes) : bytes :=
  hash_to_hex (ih_finalize (ih_update (ih_update ih_new DOMAIN) payload)).

(** [frame_payload]. *)
Definition frame_payload (payload : bytes) : bytes :=
  MAGIC ++ checksum_hex payload ++ [x0a] ++ payload.

(** [root_head::encode]. *)
Definition head_encode (vault_id : bytes) (head : RootHead) : IoResult bytes :=
  let? _ := validate_head head in
  if bool_decide (head_receipts head = ∅) then
    match head_root_hash head with
    | Some h => Ok (hash_to_hex h)
    | None => Err "missing legacy root"%string
    end
  else
    let? payload := payload_bytes vault_id head in
    Ok (frame_payload payload).

(** The legacy form: 64 hexadecimal digits, white space around them. *)
Definition legacy_text (b : bytes) : option bytes :=
  if utf8 b && (len (trim b) =? 64) && forallb is_ascii_hexdigit (trim b)
  then Some (trim b) else None.

(** [root_head::decode]. *)
Definition head_decode (vault_id b : bytes) : IoResult RootHead :=
  if MAX_ROOT_HEAD_BYTES <? len b then Err "root head byte capacity exceeded"%string
  else
    match legacy_text b with
    | Some text =>
        match hex_to_hash text with
        | Ok h => Ok {| head_root_hash := Some h; head_receipts := ∅ |}
        | Err _ => Err "invalid legacy root hash"%string
        end
    | None =>
        if (len b <? PREFIX_BYTES) || negb (beq (takeN (len MAGIC) b) MAGIC)
        then Err "unknown or truncated root head format"%string
        else
          let checksum := takeN 64 (dropN (len MAGIC) b) in
          if negb (beq (takeN 1 (dropN (len MAGIC + 64) b)) [x0a])
             || negb (forallb lower_hex_byte checksum)
          then Err "invalid root head checksum encoding"%string
          else
            let payload := dropN PREFIX_BYTES b in
            if negb (beq checksum (checksum_hex payload))
            then Err "root head checksum mismatch"%string
            else
              match payload_of_json payload with
              | None => Err "invalid root head payload"%string
              | Some parsed =>
                  if negb (pl_schema parsed =? 1) || negb (beq (pl_vault_id parsed) vault_id)
                     || match pl_root_hash parsed with
                        | Some h => negb (lower_hex h 64)
                        | None => false
                        end
                  then Err "unsupported root head schema or scope"%string
                  else
                    let? h :=
                      match pl_root_hash parsed with
                      | None => Ok None
                      | Some h => match hex_to_hash h with
                                  | Ok h => Ok (Some h)
                                  | Err _ => Err "invalid root hash"%string
                                  end
                      end in
                    let head := {| head_root_hash := h; head_receipts := pl_receipts parsed |} in
                    let? _ := validate_head head in
                    let? again := payload_bytes vault_id head in
                    if beq again payload then Ok head
                    else Err "noncanonical or ambiguous root head payload"%string
              end
    end.
End codec.
