(* ===== verification/Faults.v ===== *)
(** Programs over a disk whose operations fail and whose unsynchronised writes
    a crash may lose: small files that are replaced or removed, the oracle of
    the operating system, and the program logic for both stores that use it
    ([PackStore] and [Devices]). *)

From S2P Require Import Prelude Bytes RootHead.
Local Open Scope N_scope.

(** * Replaced files *)

(** The name of a file: its durable content and the contents it was renamed
    to, or [None] where it was removed, since its directory was last
    synchronised. After a crash it has any of them, whole, because a temporary
    file is synchronised before it is renamed. *)
Record SideFile := { sd_durable : option bytes; sd_pending : list (option bytes) }.

Definition sd_absent : SideFile := {| sd_durable := None; sd_pending := [] |}.
Definition sd_visible (s : SideFile) : option bytes :=
  match last (sd_pending s) with Some c => c | None => sd_durable s end.
Definition sd_set (c : option bytes) (s : SideFile) : SideFile :=
  {| sd_durable := sd_durable s; sd_pending := sd_pending s ++ [c] |}.
Definition sd_sync (s : SideFile) : SideFile := {| sd_durable := sd_visible s; sd_pending := [] |}.
Definition sd_contents (s : SideFile) : list (option bytes) := sd_durable s :: sd_pending s.

Definition sd_survives (s s' : SideFile) : Prop :=
  ∃ c, c ∈ sd_contents s ∧ s' = {| sd_durable := c; sd_pending := [] |}.

Lemma sd_contents_set c s : sd_contents (sd_set c s) = sd_contents s ++ [c].
Proof. done. Qed.

Lemma sd_visible_contents s : sd_visible s ∈ sd_contents s.
Proof.
  unfold sd_visible, sd_contents. destruct (last (sd_pending s)) as [c|] eqn:E; [|left].
  right. by apply last_Some_elem_of.
Qed.

Lemma sd_contents_sync s c : c ∈ sd_contents (sd_sync s) → c ∈ sd_contents s.
Proof. intros ->%list_elem_of_singleton. apply sd_visible_contents. Qed.

(** What becomes of an operation of the operating system: it is done, or it
    fails part of the way, as far as the number says. *)
Inductive Fate := Done | Fails (written : N).

(** * Programs *)

(** The disk, what becomes of the next operations and the state in memory. An
    empty list of fates is a run without faults. *)
Record World (D X : Type) := { w_disk : D; w_fates : list Fate; w_extra : X }.
Arguments w_disk {D X}.
Arguments w_fates {D X}.
Arguments w_extra {D X}.
Arguments Build_World {D X}.

Section programs.
Context {D X : Type}.

Definition world (d : D) (fates : list Fate) (x : X) : World D X :=
  {| w_disk := d; w_fates := fates; w_extra := x |}.

Definition w_set_disk (d : D) (w : World D X) : World D X :=
  {| w_disk := d; w_fates := w_fates w; w_extra := w_extra w |}.
Definition w_set_extra (x : X) (w : World D X) : World D X :=
  {| w_disk := w_disk w; w_fates := w_fates w; w_extra := x |}.

(** One operation of the operating system: [done] and [failed] are what it
    does to the disk. *)
Definition os_call (message : string) (done : D → D) (failed : N → D → D)
    : St (World D X) string unit := λ w,
  match w_fates w with
  | Fails n :: fates =>
      (Err message, {| w_disk := failed n (w_disk w); w_fates := fates; w_extra := w_extra w |})
  | Done :: fates =>
      (Ok tt, {| w_disk := done (w_disk w); w_fates := fates; w_extra := w_extra w |})
  | [] => (Ok tt, w_set_disk (done (w_disk w)) w)
  end.

(** An operation that leaves the disk as it was when it fails. *)
Definition os_try (message : string) (done : D → D) : St (World D X) string unit :=
  os_call message done (λ _ d, d).
Definition os_read (message : string) : St (World D X) string unit := os_try message id.
Definition get_disk : St (World D X) string D := λ w, (Ok (w_disk w), w).
Definition get_extra : St (World D X) string X := λ w, (Ok (w_extra w), w).
Definition set_extra (f : X → X) : St (World D X) string unit := λ w,
  (Ok tt, w_set_extra (f (w_extra w)) w).

(** [let _ = operation], and an operation whose error is handled. *)
Definition os_result {A} (m : St (World D X) string A) : St (World D X) string (result string A) := λ w,
  match m w with (r, w') => (Ok r, w') end.
End programs.

(** * Triples

    [triple F A m Q E]: from a disk and an index in [A], [m] succeeds in [Q],
    or there was a fault to meet ([F]) and it fails in [E]. *)

Section triples.
Context {D X : Type}.
Abbreviation assertion := (D → X → Prop).
Abbreviation OS := (St (World D X) string).

Definition faulty (F : Prop) (w : World D X) : Prop := w_fates w ≠ [] → F.

Definition triple {A} (F : Prop) (P : assertion) (m : OS A) (Q : A → assertion) (E : assertion) : Prop :=
  ∀ w, faulty F w → P (w_disk w) (w_extra w) →
    match m w with
    | (Ok a, w') => faulty F w' ∧ Q a (w_disk w') (w_extra w')
    | (Err _, w') => F ∧ E (w_disk w') (w_extra w')
    end.

Context {F : Prop}.
Implicit Types (P : assertion).

Lemma t_ret {A} (a : A) P Q E : (∀ d i, P d i → Q a d i) → triple F P (st_ret a) Q E.
Proof. intros H w Hf HP. simpl. auto. Qed.

Lemma t_err {A} e P (Q : A → assertion) E :
  (∀ d i, P d i → F ∧ E d i) → triple F P (st_err e) Q E.
Proof. intros H w Hf HP. simpl. auto. Qed.

Lemma t_bind {A B} (m : OS A) (k : A → OS B) P R Q E :
  triple F P m R E → (∀ a, triple F (R a) (k a) Q E) → triple F P (st_bind m k) Q E.
Proof.
  intros Hm Hk w Hf HP. unfold st_bind. specialize (Hm w Hf HP).
  destruct (m w) as [[a|e] w']; [|done]. destruct Hm as [Hf' HR]. by apply Hk.
Qed.

Lemma t_assoc {A B C} (m : OS A) (k1 : A → OS B) (k2 : B → OS C) P Q E :
  triple F P (st_bind (st_bind m k1) k2) Q E → triple F P (st_bind m (λ x, st_bind (k1 x) k2)) Q E.
Proof. intros H w Hf HP. specialize (H w Hf HP). revert H. unfold st_bind. by destruct (m w) as [[]]. Qed.

Lemma t_conseq {A} (m : OS A) P P' (Q Q' : A → assertion) (E E' : assertion) :
  triple F P' m Q' E' → (∀ d i, P d i → P' d i) → (∀ a d i, Q' a d i → Q a d i) →
  (∀ d i, E' d i → E d i) → triple F P m Q E.
Proof.
  intros Hm HP HQ HE w Hf H. specialize (Hm w Hf (HP _ _ H)).
  destruct (m w) as [[a|e] w']; naive_solver.
Qed.

Lemma t_pre {A} (m : OS A) P P' Q E :
  triple F P' m Q E → (∀ d i, P d i → P' d i) → triple F P m Q E.
Proof. intros Hm HP. by eapply t_conseq. Qed.

(** Facts about the state, at any point of a program. *)
Lemma t_exists {A Y} (m : OS A) (P : Y → assertion) Q E :
  (∀ x, triple F (P x) m Q E) → triple F (λ d i, ∃ x, P x d i) m Q E.
Proof. intros H w Hf [x HP]. by apply (H x w Hf). Qed.

Lemma t_pure {A} (m : OS A) (φ : Prop) P Q E :
  (φ → triple F P m Q E) → triple F (λ d i, φ ∧ P d i) m Q E.
Proof. intros H w Hf [Hφ HP]. by apply (H Hφ w Hf). Qed.

(** From a known disk and index. *)
Lemma t_pin {A} (m : OS A) P Q E :
  (∀ d0 i0, P d0 i0 → triple F (λ d i, d = d0 ∧ i = i0) m Q E) → triple F P m Q E.
Proof. intros H w Hf HP. by apply (H _ _ HP w Hf). Qed.

Lemma t_lift_ok {A} (r : IoResult A) a P Q E :
  r = Ok a → (∀ d i, P d i → Q a d i) → triple F P (st_lift r) Q E.
Proof. intros -> H w Hf HP. simpl. auto. Qed.

Lemma t_lift_bind {A B} (a : A) (k : A → OS B) P Q E :
  triple F P (k a) Q E → triple F P (st_bind (st_lift (Ok a)) k) Q E.
Proof. intros H. exact H. Qed.

Lemma t_with_disk {B} (k : D → OS B) P Q E :
  (∀ d0, triple F (λ d i, d = d0 ∧ P d i) (k d0) Q E) → triple F P (st_bind get_disk k) Q E.
Proof. intros H w Hf HP. unfold st_bind, get_disk. by apply H. Qed.

Lemma t_with_extra {B} (k : X → OS B) P Q E :
  (∀ x0, triple F (λ d x, x = x0 ∧ P d x) (k x0) Q E) → triple F P (st_bind get_extra k) Q E.
Proof. intros H w Hf HP. unfold st_bind, get_extra. by apply H. Qed.

Lemma t_set_extra f P (Q : assertion) E :
  (∀ d x, P d x → Q d (f x)) → triple F P (set_extra f) (λ _, Q) E.
Proof. intros H w Hf HP. unfold set_extra. split; [done|]. by apply H. Qed.

Lemma t_lift {A} (r : result string A) P (Q : A → assertion) E :
  (∀ a, r = Ok a → ∀ d x, P d x → Q a d x) → (∀ e, r = Err e → F ∧ ∀ d x, P d x → E d x) →
  triple F P (st_lift r) Q E.
Proof. intros HQ HE w Hf HP. destruct r as [a|e]; cbn; [split; [done|]; by eapply HQ|]. destruct (HE e); auto. Qed.

Lemma t_os_call message f g P (Q : assertion) E :
  (∀ d i, P d i → Q (f d) i) → (∀ n d i, F → P d i → E (g n d) i) →
  triple F P (os_call message f g) (λ _, Q) E.
Proof.
  intros HQ HE w Hf HP. unfold os_call, faulty in *.
  destruct (w_fates w) as [|[|n] fates] eqn:Ef; simpl.
  - rewrite Ef. auto.
  - split; [intros _; by apply Hf|]. auto.
  - assert F by (by apply Hf). auto.
Qed.

Lemma t_os_try message f P (Q E : assertion) :
  (∀ d i, P d i → Q (f d) i) → (∀ d i, F → P d i → E d i) →
  triple F P (os_try message f) (λ _, Q) E.
Proof. intros. apply t_os_call; auto. Qed.

Lemma t_os_read message P (E : assertion) :
  (∀ d i, F → P d i → E d i) → triple F P (os_read message) (λ _, P) E.
Proof. intros. by apply t_os_try. Qed.

(** A handled error: there was a fault. *)
Lemma t_os_result {A} (m : OS A) P (Q : IoResult A → assertion) E :
  triple F P m (λ a, Q (Ok a)) (λ d i, F → ∀ e, Q (Err e) d i) → triple F P (os_result m) Q E.
Proof.
  intros Hm w Hf HP. specialize (Hm w Hf HP). unfold os_result.
  destruct (m w) as [[a|e] w']; [done|]. destruct Hm as [HF HQ]. split; [by intros _|]. auto.
Qed.

Lemma t_handled {A} (m : OS A) P E :
  triple F P m (λ _, P) P → triple F P (os_result m) (λ r d i, (is_ok r = false → F) ∧ P d i) E.
Proof.
  intros Hm. apply t_os_result. eapply t_conseq; [exact Hm|done| |].
  - intros a d i H. split; [discriminate|done].
  - intros d i H HF e. done.
Qed.
End triples.

Lemma triple_run {D X A} (F : Prop) (P : D → X → Prop) (m : St (World D X) string A) Q E d fates i :
  triple F P m Q E → (fates ≠ [] → F) → P d i →
  match m (world d fates i) with
  | (Ok a, w') => Q a (w_disk w') (w_extra w')
  | (Err _, w') => F ∧ E (w_disk w') (w_extra w')
  end.
Proof.
  intros Ht Hf HP. specialize (Ht (world d fates i) Hf HP).
  destruct (m (world d fates i)) as [[a|e] w']; [by destruct Ht|done].
Qed.
