(* ===== verification/Devices.v ===== *)
(** src/crates/sync-server/src/devices.rs: the enrolled devices, on disk and in
    the registry that authenticates requests.

    - A device has a directory with [device.json], the marker [revoked] and the
      one-time grant [guard-bypass]; [tokens] holds the compatibility index.
      Every file is a [SideFile]. A directory has been created or removed for
      good only when [devices] was synchronised: after a crash a directory
      that was removed before may be back with any of its files.
    - The registry maps tokens and identifiers to entries they share ([Arc]):
      an entry is an address in [rg_heap]. Mutations are serialised by a lock
      and readers see an entry before or after one, so an operation is one
      step. A [HashMap] is iterated in the order of [map_to_list].
    - The time ([now_ms]) is an argument, also the modification times of the
      files of the token index. Logging and [list], a view, are left out. *)

From S2P Require Import Prelude Bytes Text Keyed Hash Faults StorageLayout RootHead.
Local Open Scope N_scope.

(** * Data *)

Record DeviceInfo := {
  di_name : bytes;
  di_device_id : bytes;
  di_enrolled_at : N;
  di_last_seen : N;
  di_vaults : list bytes;
  di_capabilities : list bytes;
  di_bearer_token : bytes;
}.

(** [serde_json]: [to_vec_pretty], and [read_to_string] with [from_str], which
    fails for text that is not UTF-8 too. *)
Class DeviceJson := {
  dj_encode : DeviceInfo → bytes;
  dj_decode : bytes → option DeviceInfo;
  dj_roundtrip : ∀ info, dj_decode (dj_encode info) = Some info;
  dj_nonempty : ∀ info, dj_encode info ≠ [];
}.

Inductive AuthenticationError := Unknown | Revoked.

Record SessionCapabilityReport := {
  sr_session_id : bytes;
  sr_vaults : list bytes;
  sr_capabilities : list bytes;
}.

Record RegistryEntry := {
  re_name : bytes;
  re_device_id : bytes;
  re_enrolled_at : N;
  re_vaults : list bytes;
  re_capabilities : list bytes;
  re_session_capabilities : list SessionCapabilityReport;
  re_bearer_token : bytes;
  re_last_seen : N;
  re_persisted_last_seen : N;
  re_revoked : bool;
  re_revoked_at : N;
  re_session_cancelled : bool;
}.

Record Registry := {
  rg_heap : gmap N RegistryEntry;
  rg_by_token : gmap bytes N;
  rg_by_id : gmap bytes N;
  rg_next : N;
}.

Definition rg_empty : Registry := {| rg_heap := ∅; rg_by_token := ∅; rg_by_id := ∅; rg_next := 0 |}.

Record FleetCapabilityStatus := { fc_enrolled_devices : N; fc_ready_devices : N }.

Definition MAX_CAPABILITIES : N := 32.
Definition MAX_CAPABILITY_LEN : N := 64.
Definition MAX_VAULT_ID_LEN : N := 1024.
Definition MAX_CAPABILITY_SESSIONS : N := 8.
Definition TOUCH_THROTTLE_MS : N := 30000.

(** * The disk *)

Inductive DeviceFile := JsonFile | RevokedFile | BypassFile.

Record DeviceDir := {
  dd_exists : bool;
  dd_linked : bool;
  dd_json : SideFile;
  dd_revoked : SideFile;
  dd_bypass : SideFile;
}.

Definition dd_absent : DeviceDir :=
  {| dd_exists := false; dd_linked := false; dd_json := sd_absent; dd_revoked := sd_absent; dd_bypass := sd_absent |}.

Definition dd_file (k : DeviceFile) (x : DeviceDir) : SideFile :=
  match k with JsonFile => dd_json x | RevokedFile => dd_revoked x | BypassFile => dd_bypass x end.
Definition dd_map (f : DeviceFile → SideFile → SideFile) (x : DeviceDir) : DeviceDir :=
  {| dd_exists := dd_exists x; dd_linked := dd_linked x;
     dd_json := f JsonFile (dd_json x); dd_revoked := f RevokedFile (dd_revoked x);
     dd_bypass := f BypassFile (dd_bypass x) |}.

#[global] Instance DeviceFile_eq_dec : EqDecision DeviceFile.
Proof. solve_decision. Defined.

Definition dd_set (k : DeviceFile) (c : option bytes) (x : DeviceDir) : DeviceDir :=
  dd_map (λ k' f, if bool_decide (k' = k) then sd_set c f else f) x.
Definition dd_sync (x : DeviceDir) : DeviceDir := dd_map (λ _, sd_sync) x.
Definition dd_create (x : DeviceDir) : DeviceDir :=
  {| dd_exists := true; dd_linked := dd_linked x;
     dd_json := dd_json x; dd_revoked := dd_revoked x; dd_bypass := dd_bypass x |}.

(** [remove_dir_all]: the files in any order, then the directory; a failure
    leaves the files whose bit is not set in [n]. *)
Definition dd_remove_file (f : SideFile) : SideFile :=
  match sd_visible f with Some _ => sd_set None f | None => f end.
Definition dd_remove_some (n : N) (x : DeviceDir) : DeviceDir :=
  dd_map (λ k f, if N.testbit n (match k with JsonFile => 0 | RevokedFile => 1 | BypassFile => 2 end)
                 then dd_remove_file f else f) x.
Definition dd_remove_all (x : DeviceDir) : DeviceDir :=
  let x := dd_map (λ _, dd_remove_file) x in
  {| dd_exists := false; dd_linked := dd_linked x;
     dd_json := dd_json x; dd_revoked := dd_revoked x; dd_bypass := dd_bypass x |}.

(** The directory entry becomes durable, or its removal does. *)
Definition dd_link (x : DeviceDir) : DeviceDir :=
  if dd_exists x then
    {| dd_exists := true; dd_linked := true;
       dd_json := dd_json x; dd_revoked := dd_revoked x; dd_bypass := dd_bypass x |}
  else dd_absent.

Definition dd_survives (x x' : DeviceDir) : Prop :=
  x' = dd_absent ∧ (dd_exists x = false ∨ dd_linked x = false) ∨
  dd_exists x' = true ∧ dd_linked x' = true ∧ (dd_exists x = true ∨ dd_linked x = true) ∧
  ∀ k, sd_survives (dd_file k x) (dd_file k x').

Record DeviceDisk := {
  dk_dirs : gmap bytes DeviceDir;
  dk_tokens : gmap bytes SideFile;
}.

Definition dk_empty : DeviceDisk := {| dk_dirs := ∅; dk_tokens := ∅ |}.
Definition dk_dir (name : bytes) (d : DeviceDisk) : DeviceDir := default dd_absent (dk_dirs d !! name).
Definition dk_token (name : bytes) (d : DeviceDisk) : SideFile := default sd_absent (dk_tokens d !! name).
Definition dk_update (name : bytes) (f : DeviceDir → DeviceDir) (d : DeviceDisk) : DeviceDisk :=
  {| dk_dirs := <[name := f (dk_dir name d)]> (dk_dirs d); dk_tokens := dk_tokens d |}.
Definition dk_set_token (name : bytes) (c : option bytes) (d : DeviceDisk) : DeviceDisk :=
  {| dk_dirs := dk_dirs d; dk_tokens := <[name := sd_set c (dk_token name d)]> (dk_tokens d) |}.
Definition dk_sync_tokens (d : DeviceDisk) : DeviceDisk :=
  {| dk_dirs := dk_dirs d; dk_tokens := sd_sync <$> dk_tokens d |}.

(** Synchronising [devices] and what is above it. *)
Definition dk_sync_devices (d : DeviceDisk) : DeviceDisk :=
  {| dk_dirs := dd_link <$> dk_dirs d; dk_tokens := dk_tokens d |}.

Definition dk_survives (d d' : DeviceDisk) : Prop :=
  (∀ name, dd_survives (dk_dir name d) (dk_dir name d')) ∧
  ∀ name, sd_survives (dk_token name d) (dk_token name d').

(** * The state and the operating system *)

Abbreviation DeviceWorld := (World DeviceDisk Registry).
Abbreviation Dev := (St DeviceWorld string).

Section devices.
Context {B3 : Blake3} {HX : Hex} {DJ : DeviceJson}.

(** * Files *)

Definition device_dir (device_id : bytes) : bytes := storage_component device_id.
Definition token_path (token : bytes) : bytes := storage_component token.

(** [atomic_write] of a file of a device directory, and of the token index. *)
Definition atomic_write (name : bytes) (k : DeviceFile) (content : bytes) : Dev unit :=
  let! _ := os_try "create_dir failed" (dk_update name dd_create) in
  let! _ := os_read "write failed" in
  let! _ := os_try "rename failed" (dk_update name (dd_set k (Some content))) in
  let! _ := os_try "sync failed" (dk_update name dd_sync) in
  os_try "sync failed" dk_sync_devices.

Definition atomic_write_token (name content : bytes) : Dev unit :=
  let! _ := os_read "create_dir failed" in
  let! _ := os_read "write failed" in
  let! _ := os_try "rename failed" (dk_set_token name (Some content)) in
  let! _ := os_try "sync failed" dk_sync_tokens in
  os_try "sync failed" dk_sync_devices.

Definition persist_device_info (info : DeviceInfo) : Dev unit :=
  atomic_write (device_dir (di_device_id info)) JsonFile (dj_encode info).

Definition persist_revocation (device_id : bytes) (timestamp : N) : Dev N :=
  let! d := get_disk in
  if negb (dd_exists (dk_dir (device_dir device_id) d)) then st_err "device not found"%string
  else
    let! _ := atomic_write (device_dir device_id) RevokedFile (decimal timestamp) in
    st_ret timestamp.

(** A file as [read_to_string] finds it: [None] when it does not exist. *)
Definition read_file (name : bytes) (k : DeviceFile) : Dev (option bytes) :=
  let! _ := os_read "read failed" in
  let! d := get_disk in
  st_ret (sd_visible (dd_file k (dk_dir name d))).

Definition get_device (device_id : bytes) : Dev (option DeviceInfo) :=
  let! found := os_result (read_file (device_dir device_id) JsonFile) in
  st_ret (match found with Ok (Some data) => dj_decode data | _ => None end).

Definition load_revocation_strict (device_id : bytes) : Dev (option N) :=
  let! found := read_file (device_dir device_id) RevokedFile in
  match found with
  | None => st_ret None
  | Some value =>
      if negb (utf8 value) then st_err "read revocation marker"%string
      else if beq (trim value) [] then st_ret (Some 0)
      else match parse_u64 (trim value) with
           | Some timestamp => st_ret (Some timestamp)
           | None => st_err "parse revocation marker"%string
           end
  end.

Definition register_device (device_id name bearer_token : bytes) (now : N) : Dev unit :=
  let! _ := os_try "create_dir failed" (dk_update (device_dir device_id) dd_create) in
  let! _ := os_read "create_dir failed" in
  let info := {| di_name := name; di_device_id := device_id; di_enrolled_at := now; di_last_seen := now;
                 di_vaults := []; di_capabilities := []; di_bearer_token := bearer_token |} in
  let! _ := atomic_write_token (token_path bearer_token) device_id in
  let! _ := os_try "sync failed" dk_sync_tokens in
  persist_device_info info.

Definition delete_device (device_id : bytes) : Dev unit :=
  let! found := get_device device_id in
  let! _ := match found with
            | Some info =>
                let! _ := os_result (os_try "remove failed" (dk_set_token (token_path (di_bearer_token info)) None)) in
                os_result (os_try "sync failed" dk_sync_tokens)
            | None => st_ret (Ok tt)
            end in
  let! d := get_disk in
  let name := device_dir device_id in
  if dd_exists (dk_dir name d) then
    let! _ := os_call "remove_dir_all failed" (dk_update name dd_remove_all) (λ n, dk_update name (dd_remove_some n)) in
    os_try "sync failed" dk_sync_devices
  else st_ret tt.

(** ** The one-time grant *)

Definition grant_deletion_bypass (device_id : bytes) (ttl_secs now : N) : Dev unit :=
  let expiry := saturating_add64 now (N.min (ttl_secs * 1000) U64_MAX) in
  atomic_write (device_dir device_id) BypassFile (decimal expiry).

Definition consume_deletion_bypass (device_id : bytes) (now : N) : Dev bool :=
  let name := device_dir device_id in
  let! d := get_disk in
  match sd_visible (dd_bypass (dk_dir name d)) with
  | None => st_ret false
  | Some value =>
      let! renamed := os_result (os_try "rename failed" (dk_update name (dd_set BypassFile None))) in
      match renamed with
      | Err _ => st_ret false
      | Ok _ =>
          let! found := os_result (os_read "read failed") in
          let! _ := os_result (os_read "remove failed") in
          let! synced := os_result (os_try "sync failed" (dk_update name dd_sync)) in
          match synced, found with
          | Ok _, Ok _ =>
              st_ret (utf8 value && match parse_u64 (trim value) with Some exp => now <? exp | None => false end)
          | _, _ => st_ret false
          end
      end
  end.

Definition deletion_bypass_remaining_ms (device_id : bytes) (now : N) : Dev (option N) :=
  let! found := os_result (read_file (device_dir device_id) BypassFile) in
  st_ret (match found with
          | Ok (Some value) =>
              if utf8 value then
                exp ← parse_u64 (trim value);
                remaining ← checked_sub64 exp now;
                if 0 <? remaining then Some remaining else None
              else None
          | _ => None
          end).

(** * Tests *)

Definition valid_token (token : bytes) : bool := (len token =? 64) && forallb is_ascii_hexdigit token.

Definition capability_byte (b : byte) : bool :=
  is_ascii_alphanumeric b || existsb (λ c, bool_decide (b = c)) (str "-_.").

Definition normalize_capabilities (capabilities : list bytes) : IoResult (list bytes) :=
  if MAX_CAPABILITIES <? len capabilities then Err "too many device capabilities"%string
  else if existsb (λ c, beq c [] || (MAX_CAPABILITY_LEN <? len c) || negb (forallb capability_byte c)) capabilities
  then Err "invalid device capability"%string
  else Ok (dedup_by id (sort_by id (to_ascii_lowercase <$> capabilities))).

Definition validate_vault_id (vault_id : bytes) : IoResult bytes :=
  if beq vault_id [] || (MAX_VAULT_ID_LEN <? len vault_id)
     || existsb (λ b, (b2n b <? 0x20) || (b2n b =? 0x7F)) vault_id
  then Err "invalid vault id"%string else Ok vault_id.

(** * Loading *)

(** The tokens whose index entry is the identifier. *)
Definition indexed_tokens (device_id : bytes) (d : DeviceDisk) : list bytes :=
  omap (λ x : bytes * SideFile,
          if valid_token (fst x) && bool_decide (sd_visible (snd x) = Some device_id)
          then Some (fst x) else None) (map_to_list (dk_tokens d)).

Definition recover_zero_length_device (mtime : bytes → N) (device_id : bytes) : Dev (option DeviceInfo) :=
  let! _ := os_read "read_dir failed" in
  let! d := get_disk in
  match indexed_tokens device_id d with
  | [] => st_ret None
  | [bearer_token] =>
      let recorded_at := mtime bearer_token in
      let info := {| di_name := str "Recovered device " ++ take_chars 8 device_id; di_device_id := device_id;
                     di_enrolled_at := recorded_at; di_last_seen := recorded_at;
                     di_vaults := []; di_capabilities := []; di_bearer_token := bearer_token |} in
      let! _ := persist_device_info info in
      st_ret (Some info)
  | _ => st_err "device has multiple token index entries"%string
  end.

(** The turn of the loop of [load_devices_strict] for one directory. *)
Definition load_device (mtime : bytes → N) (directory_id : bytes) : Dev (option DeviceInfo) :=
  let! found := read_file directory_id JsonFile in
  match found with
  | None => st_ret None
  | Some data =>
      let! info := if beq data [] then recover_zero_length_device mtime directory_id
                   else match dj_decode data with
                        | Some info => st_ret (Some info)
                        | None => st_err "parse device metadata"%string
                        end in
      match info with
      | None => st_ret None
      | Some info =>
          if beq (di_device_id info) directory_id then st_ret (Some info)
          else st_err "device metadata id does not match directory"%string
      end
  end.

Definition device_directories (d : DeviceDisk) : list bytes :=
  sort_by id (omap (λ x : bytes * DeviceDir, if dd_exists (snd x) then Some (fst x) else None)
                (map_to_list (dk_dirs d))).

Definition load_devices_strict (mtime : bytes → N) : Dev (list DeviceInfo) :=
  let! _ := os_read "read_dir failed" in
  let! d := get_disk in
  let! found := st_map (load_device mtime)
                  (filter (λ name, name ≠ str "tokens") (device_directories d)) in
  st_ret (omap id found).

(** * The registry *)

Definition from_disk (info : DeviceInfo) (revoked_at : option N) : RegistryEntry :=
  {| re_name := di_name info;
     re_device_id := di_device_id info;
     re_enrolled_at := di_enrolled_at info;
     re_vaults := di_vaults info;
     re_capabilities := di_capabilities info;
     re_session_capabilities := [];
     re_bearer_token := di_bearer_token info;
     re_last_seen := di_last_seen info;
     re_persisted_last_seen := di_last_seen info;
     re_revoked := bool_decide (is_Some revoked_at);
     re_revoked_at := default 0 revoked_at;
     re_session_cancelled := false |}.

Definition snapshot (e : RegistryEntry) : DeviceInfo :=
  {| di_name := re_name e;
     di_device_id := re_device_id e;
     di_enrolled_at := re_enrolled_at e;
     di_last_seen := re_last_seen e;
     di_vaults := re_vaults e;
     di_capabilities := re_capabilities e;
     di_bearer_token := re_bearer_token e |}.

(** A new entry, in both maps. *)
Definition rg_insert (e : RegistryEntry) (r : Registry) : Registry :=
  {| rg_heap := <[rg_next r := e]> (rg_heap r);
     rg_by_token := <[re_bearer_token e := rg_next r]> (rg_by_token r);
     rg_by_id := <[re_device_id e := rg_next r]> (rg_by_id r);
     rg_next := rg_next r + 1 |}.

Definition rg_write (a : N) (e : RegistryEntry) (r : Registry) : Registry :=
  {| rg_heap := <[a := e]> (rg_heap r); rg_by_token := rg_by_token r; rg_by_id := rg_by_id r;
     rg_next := rg_next r |}.

(** [DeviceRegistry::entry], with its address. *)
Definition rg_entry (device_id : bytes) (r : Registry) : option (N * RegistryEntry) :=
  a ← rg_by_id r !! device_id; e ← rg_heap r !! a; Some (a, e).

Definition load_step (r : Registry) (info : DeviceInfo) : Dev Registry :=
  if negb (valid_token (di_bearer_token info)) then st_err "device has an invalid bearer token"%string
  else if bool_decide (is_Some (rg_by_id r !! di_device_id info)) then st_err "duplicate device id"%string
  else if bool_decide (is_Some (rg_by_token r !! di_bearer_token info))
  then st_err "duplicate bearer token in device registry"%string
  else
    let! revoked := load_revocation_strict (di_device_id info) in
    st_ret (rg_insert (from_disk info revoked) r).

Definition load (mtime : bytes → N) : Dev Registry :=
  let! infos := load_devices_strict mtime in
  st_fold load_step rg_empty infos.

(** ** Reading *)

Definition touch (now : N) (e : RegistryEntry) : RegistryEntry :=
  {| re_name := re_name e; re_device_id := re_device_id e; re_enrolled_at := re_enrolled_at e;
     re_vaults := re_vaults e; re_capabilities := re_capabilities e;
     re_session_capabilities := re_session_capabilities e; re_bearer_token := re_bearer_token e;
     re_last_seen := N.max (re_last_seen e) now; re_persisted_last_seen := re_persisted_last_seen e;
     re_revoked := re_revoked e; re_revoked_at := re_revoked_at e;
     re_session_cancelled := re_session_cancelled e |}.

Definition authenticate (token : bytes) (now : N) (r : Registry)
    : result AuthenticationError bytes * Registry :=
  if negb (valid_token token) then (Err Unknown, r)
  else
    match a ← rg_by_token r !! token; e ← rg_heap r !! a; Some (a, e) with
    | None => (Err Unknown, r)
    | Some (a, e) =>
        if re_revoked e then (Err Revoked, r) else (Ok (re_device_id e), rg_write a (touch now e) r)
    end.

Definition is_revoked (device_id : bytes) (r : Registry) : bool :=
  match rg_entry device_id r with Some (_, e) => re_revoked e | None => false end.

Definition revoked_at (device_id : bytes) (r : Registry) : option N :=
  '(_, e) ← rg_entry device_id r; if re_revoked e then Some (re_revoked_at e) else None.

Definition get (device_id : bytes) (r : Registry) : option DeviceInfo :=
  '(_, e) ← rg_entry device_id r; Some (snapshot e).

(** [Some cancelled]: the token of the session. *)
Definition session_token (device_id : bytes) (r : Registry) : option bool :=
  '(_, e) ← rg_entry device_id r; if re_revoked e then None else Some (re_session_cancelled e).

Definition session_supports (device_id session_id vault_id capability : bytes) (r : Registry) : bool :=
  match rg_entry device_id r with
  | None => false
  | Some (_, e) =>
      if re_revoked e then false
      else match find (λ report, beq (sr_session_id report) session_id) (re_session_capabilities e) with
           | None => false
           | Some report => existsb (beq vault_id) (sr_vaults report)
                            && existsb (beq capability) (sr_capabilities report)
           end
  end.

Definition fleet_step (capability : bytes) (status : FleetCapabilityStatus) (e : RegistryEntry)
    : FleetCapabilityStatus :=
  if re_revoked e then status
  else {| fc_enrolled_devices := fc_enrolled_devices status + 1;
          fc_ready_devices := fc_ready_devices status
                              + (if existsb (beq capability) (re_capabilities e) then 1 else 0) |}.

(** The entries of [by_id]. *)
Definition rg_entries (r : Registry) : list (N * RegistryEntry) :=
  omap (λ x : bytes * N, e ← rg_heap r !! snd x; Some (snd x, e)) (map_to_list (rg_by_id r)).

Definition fleet_capability (capability : bytes) (r : Registry) : FleetCapabilityStatus :=
  foldl (fleet_step capability) {| fc_enrolled_devices := 0; fc_ready_devices := 0 |} (rg_entries r).*2.

Definition fleet_ready (s : FleetCapabilityStatus) : bool :=
  (0 <? fc_enrolled_devices s) && (fc_ready_devices s =? fc_enrolled_devices s).

(** ** Mutations *)

(** Adding a vault to a list that is kept sorted. *)
Definition add_vault (vault_id : option bytes) (vaults : list bytes) : list bytes :=
  match vault_id with
  | Some v => if existsb (beq v) vaults then vaults else sort_by id (vaults ++ [v])
  | None => vaults
  end.

Definition set_capabilities (vaults capabilities : list bytes) (reports : list SessionCapabilityReport)
    (e : RegistryEntry) : RegistryEntry :=
  {| re_name := re_name e; re_device_id := re_device_id e; re_enrolled_at := re_enrolled_at e;
     re_vaults := vaults; re_capabilities := capabilities; re_session_capabilities := reports;
     re_bearer_token := re_bearer_token e; re_last_seen := re_last_seen e;
     re_persisted_last_seen := re_persisted_last_seen e; re_revoked := re_revoked e;
     re_revoked_at := re_revoked_at e; re_session_cancelled := re_session_cancelled e |}.

(** The queue of session reports after a new one: the report of the session
    moves to the back, the oldest ones are dropped. *)
Definition update_reports (session_id : bytes) (vault_id : option bytes) (capabilities : list bytes)
    (reports : list SessionCapabilityReport) : list SessionCapabilityReport :=
  let same report := beq (sr_session_id report) session_id in
  let vaults :=
    match find same reports, vault_id with
    | Some report, Some _ => add_vault vault_id (sr_vaults report)
    | Some _, None => []
    | None, _ => option_list vault_id
    end in
  let others := match list_find (λ report, same report = true) reports with
                | Some (position, _) => delete position reports
                | None => reports
                end in
  let all := others ++ [{| sr_session_id := session_id; sr_vaults := vaults; sr_capabilities := capabilities |}] in
  drop (length all - N.to_nat MAX_CAPABILITY_SESSIONS) all.

Definition report_capabilities (device_id session_id : bytes) (vault_id : option bytes)
    (capabilities : list bytes) : Dev unit :=
  let! capabilities := st_lift (normalize_capabilities capabilities) in
  let! _ := match vault_id with
            | Some v => let! _ := st_lift (validate_vault_id v) in st_ret tt
            | None => st_ret tt
            end in
  let! r := get_extra in
  match rg_entry device_id r with
  | None => st_err "device not found"%string
  | Some (a, e) =>
      if re_revoked e then st_err "device revoked"%string
      else
        let known := snapshot e in
        let vaults := add_vault vault_id (di_vaults known) in
        let! _ := persist_device_info
                    {| di_name := di_name known; di_device_id := di_device_id known;
                       di_enrolled_at := di_enrolled_at known; di_last_seen := di_last_seen known;
                       di_vaults := vaults; di_capabilities := capabilities;
                       di_bearer_token := di_bearer_token known |} in
        set_extra
          (rg_write a (set_capabilities vaults capabilities
                         (update_reports session_id vault_id capabilities (re_session_capabilities e)) e))
  end.

Definition register (device_id name bearer_token : bytes) (now : N) : Dev unit :=
  if negb (valid_token bearer_token) then st_err "invalid bearer token"%string
  else
    let! r := get_extra in
    match rg_entry device_id r with
    | Some (_, existing) =>
        if beq (re_name existing) name && beq (re_bearer_token existing) bearer_token
           && negb (re_revoked existing)
        then atomic_write_token (token_path bearer_token) device_id
        else st_err "device id already exists with different metadata"%string
    | None =>
        if bool_decide (is_Some (rg_by_token r !! bearer_token))
        then st_err "bearer token already belongs to another device"%string
        else
          let! _ := register_device device_id name bearer_token now in
          let! found := get_device device_id in
          let! info := st_lift (ok_or found "registered device could not be reloaded"%string) in
          set_extra (rg_insert (from_disk info None))
    end.

Definition mark_revoked (timestamp : N) (e : RegistryEntry) : RegistryEntry :=
  {| re_name := re_name e; re_device_id := re_device_id e; re_enrolled_at := re_enrolled_at e;
     re_vaults := re_vaults e; re_capabilities := re_capabilities e;
     re_session_capabilities := re_session_capabilities e; re_bearer_token := re_bearer_token e;
     re_last_seen := re_last_seen e; re_persisted_last_seen := re_persisted_last_seen e;
     re_revoked := true; re_revoked_at := timestamp; re_session_cancelled := true |}.

Definition revoke (device_id : bytes) (now : N) : Dev unit :=
  let! r := get_extra in
  match rg_entry device_id r with
  | None => st_err "device not found"%string
  | Some (a, e) =>
      let! timestamp := persist_revocation device_id now in
      set_extra (rg_write a (mark_revoked timestamp e))
  end.

Definition mark_persisted (observed : N) (e : RegistryEntry) : RegistryEntry :=
  {| re_name := re_name e; re_device_id := re_device_id e; re_enrolled_at := re_enrolled_at e;
     re_vaults := re_vaults e; re_capabilities := re_capabilities e;
     re_session_capabilities := re_session_capabilities e; re_bearer_token := re_bearer_token e;
     re_last_seen := re_last_seen e; re_persisted_last_seen := observed;
     re_revoked := re_revoked e; re_revoked_at := re_revoked_at e;
     re_session_cancelled := re_session_cancelled e |}.

Definition flush_step (force : bool) (now : N) (flushed : N) (x : N * RegistryEntry) : Dev N :=
  let '(a, e) := x in
  if re_last_seen e <=? re_persisted_last_seen e then st_ret flushed
  else if negb force && (now - re_persisted_last_seen e <? TOUCH_THROTTLE_MS) then st_ret flushed
  else
    let! _ := persist_device_info (snapshot e) in
    let! _ := set_extra (rg_write a (mark_persisted (re_last_seen e) e)) in
    st_ret (flushed + 1).

Definition flush_last_seen (force : bool) (now : N) : Dev N :=
  let! r := get_extra in
  st_fold (flush_step force now) 0 (rg_entries r).

Definition set_revoked_at (timestamp : N) (e : RegistryEntry) : RegistryEntry :=
  {| re_name := re_name e; re_device_id := re_device_id e; re_enrolled_at := re_enrolled_at e;
     re_vaults := re_vaults e; re_capabilities := re_capabilities e;
     re_session_capabilities := re_session_capabilities e; re_bearer_token := re_bearer_token e;
     re_last_seen := re_last_seen e; re_persisted_last_seen := re_persisted_last_seen e;
     re_revoked := re_revoked e; re_revoked_at := timestamp;
     re_session_cancelled := re_session_cancelled e |}.

Definition purge_step (ttl_ms now : N) (remove_ids : list bytes) (x : N * RegistryEntry) : Dev (list bytes) :=
  let '(a, e) := x in
  if negb (re_revoked e) then st_ret remove_ids
  else if re_revoked_at e =? 0 then
    let! timestamp := persist_revocation (re_device_id e) now in
    let! _ := set_extra (rg_write a (set_revoked_at timestamp e)) in
    st_ret remove_ids
  else if ttl_ms <=? now - re_revoked_at e then
    let! _ := delete_device (re_device_id e) in
    st_ret (remove_ids ++ [re_device_id e])
  else st_ret remove_ids.

Definition cancel_session (e : RegistryEntry) : RegistryEntry :=
  {| re_name := re_name e; re_device_id := re_device_id e; re_enrolled_at := re_enrolled_at e;
     re_vaults := re_vaults e; re_capabilities := re_capabilities e;
     re_session_capabilities := re_session_capabilities e; re_bearer_token := re_bearer_token e;
     re_last_seen := re_last_seen e; re_persisted_last_seen := re_persisted_last_seen e;
     re_revoked := re_revoked e; re_revoked_at := re_revoked_at e; re_session_cancelled := true |}.

(** The turn of the last loop of [purge_expired_revoked]. *)
Definition rg_remove (r : Registry) (device_id : bytes) : Registry :=
  match rg_entry device_id r with
  | None => r
  | Some (a, e) =>
      {| rg_heap := <[a := cancel_session e]> (rg_heap r);
         rg_by_token := delete (re_bearer_token e) (rg_by_token r);
         rg_by_id := delete device_id (rg_by_id r);
         rg_next := rg_next r |}
  end.

Definition purge_expired_revoked (ttl_secs now : N) : Dev N :=
  let ttl_ms := N.min (ttl_secs * 1000) U64_MAX in
  let! r := get_extra in
  let! remove_ids := st_fold (purge_step ttl_ms now) [] (rg_entries r) in
  let! _ := set_extra (λ r, foldl rg_remove r remove_ids) in
  st_ret (len remove_ids).
End devices.
