(* ===== verification/DevicesProps.v ===== *)
(** The device registry over a disk that fails and crashes: the invariant that
    a revoked device stays revoked until it expires, a purged one has no record,
    a registered device is found again and a one-time grant is spent once, and a
    specification of every operation. *)

From S2P Require Import Prelude Bytes Text Keyed Hash Faults StorageLayout RootHead Devices.
Local Open Scope N_scope.

(** * Numbers in files *)

Lemma parse_decimal_loop fuel n :
  n < 2 ^ N.of_nat fuel → n ≤ U64_MAX → foldl parse_digit (Some 0) (decimal_loop fuel n) = Some n.
Proof.
  revert n. induction fuel as [|fuel IH]; intros n Hn Hmax; [cbn in *; assert (n = 0) as -> by lia; done|].
  cbn [decimal_loop]. rewrite foldl_app. cbn [foldl].
  assert (foldl parse_digit (Some 0) (if n <? 10 then [] else decimal_loop fuel (n / 10)) = Some (n / 10)) as ->.
  { destruct (N.ltb_spec n 10); [cbn; by rewrite N.div_small|]. apply IH.
    - rewrite Nat2N.inj_succ, N.pow_succ_r' in Hn. apply N.Div0.div_lt_upper_bound. lia.
    - etrans; [|exact Hmax]. apply N.Div0.div_le_upper_bound. lia. }
  pose proof (N.mod_lt n 10 ltac:(done)) as Hm. pose proof (N.Div0.div_mod n 10) as Hd.
  revert Hm Hd. generalize (n mod 10) as m, (n / 10) as q. intros m q Hm Hd.
  cbn [parse_digit]. rewrite !b2n_n2b, (N.mod_small (0x30 + m)) by lia.
  assert (in_range 0x30 (0x30 + m) 0x39 = true) as ->.
  { unfold in_range. apply andb_true_iff. split; apply N.leb_le; lia. }
  replace (q * 10 + (0x30 + m - 0x30)) with n by lia.
  by rewrite (proj2 (N.leb_le n U64_MAX)).
Qed.

Definition digit_byte (b : byte) : bool := in_range 0x30 (b2n b) 0x39.

Lemma decimal_loop_digits fuel n : forallb digit_byte (decimal_loop fuel n) = true.
Proof.
  revert n. induction fuel as [|fuel IH]; intros n; [done|]. cbn [decimal_loop]. rewrite forallb_app.
  apply andb_true_iff. split; [by destruct (n <? 10)|]. cbn [forallb]. rewrite andb_true_r.
  pose proof (N.mod_lt n 10 ltac:(done)) as Hm. revert Hm. generalize (n mod 10) as m. intros m Hm.
  unfold digit_byte, in_range. rewrite b2n_n2b, N.mod_small by lia.
  apply andb_true_iff. split; apply N.leb_le; lia.
Qed.

Lemma decimal_nonempty n : decimal n ≠ [].
Proof. unfold decimal. cbn [decimal_loop]. by destruct (if n <? 10 then _ else _). Qed.

Lemma decimal_trim n : trim (decimal n) = decimal n.
Proof.
  apply trim_none, no_space_printable. eapply forallb_impl, decimal_loop_digits.
  intros b. unfold digit_byte, in_range. rewrite !andb_true_iff, !N.leb_le. lia.
Qed.

Lemma decimal_utf8 n : utf8 (decimal n) = true.
Proof.
  apply utf8_ascii. eapply forallb_impl, decimal_loop_digits.
  intros b. unfold digit_byte, ascii_byte, in_range. rewrite andb_true_iff, !N.leb_le, N.ltb_lt. lia.
Qed.

Lemma size_nat_gt n : n < 2 ^ N.of_nat (N.size_nat n).
Proof.
  destruct n as [|p]; [done|]. cbn [N.size_nat].
  induction p as [p IH|p IH|]; cbn [Pos.size_nat]; [| |done]; rewrite Nat2N.inj_succ, N.pow_succ_r'; lia.
Qed.

(** What is written is read. *)
Lemma parse_decimal n : n ≤ U64_MAX → parse_u64 (trim (decimal n)) = Some n.
Proof.
  intros Hn. rewrite decimal_trim. unfold parse_u64.
  pose proof (decimal_loop_digits (S (N.size_nat n)) n) as Hd. fold (decimal n) in Hd.
  assert (foldl parse_digit (Some 0) (decimal n) = Some n) as Hp.
  { apply parse_decimal_loop; [|done].
    rewrite Nat2N.inj_succ, N.pow_succ_r'. pose proof (size_nat_gt n). lia. }
  destruct (decimal n) as [|b l] eqn:E; [by destruct (decimal_nonempty n)|].
  assert (b ≠ "+"%byte) as Hb.
  { intros ->. cbn [forallb] in Hd. by apply andb_prop in Hd as [? _]. }
  destruct l as [|b' l]; [done|]. by rewrite bool_decide_eq_false_2.
Qed.

(** * The invariant *)

(** Which devices are in the registry, were registered, had a registration
    that failed, were revoked, had a revocation that was tried, which a purge
    found expired, which a purge removed, and which may have a grant that is
    not spent. *)
Record Marks := {
  mk_loaded : gset bytes;
  mk_registered : gset bytes;
  mk_failed : gset bytes;
  mk_revoked : gset bytes;
  mk_attempted : gset bytes;
  mk_expired : gset bytes;
  mk_purged : gset bytes;
  mk_bypass : gset bytes;
}.

#[global] Instance mk_settable : Settable Marks := λ mk,
  {| mk_loaded := mk_loaded mk; mk_registered := mk_registered mk; mk_failed := mk_failed mk;
     mk_revoked := mk_revoked mk; mk_attempted := mk_attempted mk; mk_expired := mk_expired mk;
     mk_purged := mk_purged mk; mk_bypass := mk_bypass mk |}.

(** Somebody tried to register the device. *)
Definition mk_known (mk : Marks) : gset bytes := mk_registered mk ∪ mk_failed mk.

(** [W id token]: the pairs enrollments hand out. Identifiers and tokens are
    random: they determine each other. *)
Record enrollment_ok (W : bytes → bytes → Prop) : Prop := {
  eo_id : ∀ id t, W id t → component_safe id = true ∧ id ≠ str "tokens";
  eo_token : ∀ id t, W id t → valid_token t = true;
  eo_inj : ∀ id t t', W id t → W id t' → t = t';
  eo_inj' : ∀ id id' t, W id t → W id' t → id = id';
}.

Section inv.
Context {B3 : Blake3} {HX : Hex} {DJ : DeviceJson} (W : bytes → bytes → Prop).
Implicit Types (mk : Marks) (name : bytes) (x : DeviceDir) (d : DeviceDisk).

Definition file_ok mk name (k : DeviceFile) (c : bytes) : Prop :=
  match k with
  | JsonFile => name ∈ mk_known mk ∧ name ∉ mk_purged mk ∧
      ∃ info, c = dj_encode info ∧ di_device_id info = name ∧ W name (di_bearer_token info)
  | RevokedFile => name ∈ mk_attempted mk ∧ ∃ n, n ≤ U64_MAX ∧ c = decimal n
  | BypassFile => name ∈ mk_bypass mk
  end.

(** Every content a file may have is one that was written for it. A purge that
    fails may have removed any part of an expired device. *)
Record dir_inv mk name x : Prop := {
  dir_files : ∀ k c, Some c ∈ sd_contents (dd_file k x) → file_ok mk name k c;
  dir_loaded : name ∉ mk_expired mk → name ∈ mk_loaded mk →
    dd_exists x = true ∧ is_Some (sd_visible (dd_json x));
  dir_present : name ∉ mk_expired mk → name ∈ mk_registered mk →
    dd_exists x = true ∧ dd_linked x = true ∧ None ∉ sd_contents (dd_json x);
  dir_revoked : name ∉ mk_expired mk → name ∈ mk_revoked mk →
    name ∈ mk_registered mk ∧ None ∉ sd_contents (dd_revoked x);
}.

Definition dev_inv mk d : Prop := ∀ name, dir_inv mk name (dk_dir name d).

(** ** One directory *)

Lemma dd_file_map f k x : dd_file k (dd_map f x) = f k (dd_file k x).
Proof. by destruct k. Qed.

Lemma sd_set_elem c f c' : c' ∈ sd_contents (sd_set c f) ↔ c' ∈ sd_contents f ∨ c' = c.
Proof. rewrite sd_contents_set, elem_of_app, list_elem_of_singleton. done. Qed.

Lemma sd_set_visible c f : sd_visible (sd_set c f) = c.
Proof. unfold sd_visible, sd_set. cbn. by rewrite last_snoc. Qed.

Lemma sd_sync_visible f : sd_visible (sd_sync f) = sd_visible f.
Proof. done. Qed.

Lemma dir_inv_absent mk name :
  (name ∉ mk_expired mk → name ∉ mk_loaded mk ∧ name ∉ mk_registered mk ∧ name ∉ mk_revoked mk) →
  dir_inv mk name dd_absent.
Proof.
  intros H. split; [|intros He; destruct (H He) as (? & ? & ?); done..]. intros k c.
  destruct k; by intros ?%list_elem_of_singleton.
Qed.

(** Whatever is removed of an expired device. *)
Lemma dir_inv_expired mk name x x' :
  name ∈ mk_expired mk → dir_inv mk name x →
  (∀ k c, Some c ∈ sd_contents (dd_file k x') → Some c ∈ sd_contents (dd_file k x)) → dir_inv mk name x'.
Proof. intros He [H1 _ _ _] Hc. split; [|done..]. intros k c Hin. by apply H1, Hc. Qed.

Lemma dir_inv_create mk name x : dir_inv mk name x → dir_inv mk name (dd_create x).
Proof.
  intros [H1 H2 H3 H4]. split.
  - intros k c. destruct k; apply (H1 JsonFile) || apply (H1 RevokedFile) || apply (H1 BypassFile).
  - intros Hx H. split; [done|]. by apply H2.
  - intros Hx H. split; [done|]. by apply H3.
  - done.
Qed.

Lemma dir_inv_set mk name x k c :
  dir_inv mk name x → file_ok mk name k c → dir_inv mk name (dd_set k (Some c) x).
Proof.
  intros [H1 H2 H3 H4] Hc. unfold dd_set. split.
  - intros k' c'. rewrite dd_file_map. case_bool_decide as E; [subst|apply H1].
    rewrite sd_set_elem. intros [H|[= ->]]; [by apply H1|done].
  - intros Hx H. split; [by apply H2|]. cbn [dd_map dd_json]. case_bool_decide; [by rewrite sd_set_visible|by apply H2].
  - intros Hx H. destruct (H3 Hx H) as (E1 & E2 & E3). split_and!; [done..|]. cbn [dd_map dd_json].
    case_bool_decide; [|done]. rewrite sd_set_elem. by intros [?|?].
  - intros Hx H. destruct (H4 Hx H) as [E1 E2]. split; [done|]. cbn [dd_map dd_revoked].
    case_bool_decide; [|done]. rewrite sd_set_elem. by intros [?|?].
Qed.

Lemma dir_inv_unset mk name x : dir_inv mk name x → dir_inv mk name (dd_set BypassFile None x).
Proof.
  intros [H1 H2 H3 H4]. split; [|done..]. intros k c. unfold dd_set. rewrite dd_file_map.
  case_bool_decide as E; [subst|apply H1]. rewrite sd_set_elem. intros [H|?]; [by apply H1|done].
Qed.

Lemma dir_inv_sync mk name x : dir_inv mk name x → dir_inv mk name (dd_sync x).
Proof.
  intros [H1 H2 H3 H4]. unfold dd_sync. split.
  - intros k c. rewrite dd_file_map. intros ?%sd_contents_sync. by apply H1.
  - exact H2.
  - intros Hx H. destruct (H3 Hx H) as (E1 & E2 & E3). split_and!; [done..|]. cbn. by intros ?%sd_contents_sync.
  - intros Hx H. destruct (H4 Hx H) as [E1 E2]. split; [done|]. cbn. by intros ?%sd_contents_sync.
Qed.

Lemma dir_inv_link mk name x : dir_inv mk name x → dir_inv mk name (dd_link x).
Proof.
  intros [H1 H2 H3 H4]. unfold dd_link. destruct (dd_exists x) eqn:E.
  - split; [|done| |done].
    + intros k c. destruct k; apply (H1 JsonFile) || apply (H1 RevokedFile) || apply (H1 BypassFile).
    + intros Hx H. destruct (H3 Hx H) as (_ & _ & ?). done.
  - apply dir_inv_absent. intros Hx. split_and!; intros H.
    + by destruct (H2 Hx H).
    + by destruct (H3 Hx H).
    + destruct (H4 Hx H) as [H' _]. by destruct (H3 Hx H').
Qed.

(** After a crash nothing is loaded. *)
Definition unloaded mk : Marks := mk <| mk_loaded := ∅ |>.

Lemma dir_inv_survives mk name x x' : dir_inv mk name x → dd_survives x x' → dir_inv (unloaded mk) name x'.
Proof.
  intros [H1 H2 H3 H4] [[-> Hx]|(E1 & E2 & _ & Hf)].
  - apply dir_inv_absent. intros He. split_and!; [cbn; set_solver| |]; cbn [unloaded update_field rebuild mk_settable].
    + intros H. destruct (H3 He H) as (? & ? & _). destruct Hx; congruence.
    + intros H. destruct (H4 He H) as [H' _]. destruct (H3 He H') as (? & ? & _). destruct Hx; congruence.
  - assert (∀ k c, c ∈ sd_contents (dd_file k x') → c ∈ sd_contents (dd_file k x)) as Hc.
    { intros k c. destruct (Hf k) as (c' & Hc' & ->). cbn. by intros ->%list_elem_of_singleton. }
    split.
    + intros k c Hin. apply Hc, H1 in Hin. by destruct k.
    + cbn. set_solver.
    + intros He H. destruct (H3 He H) as (_ & _ & Hn). split_and!; [done..|]. intros Hin. by apply (Hc JsonFile) in Hin.
    + intros He H. destruct (H4 He H) as (? & Hn). split; [done|]. intros Hin. by apply (Hc RevokedFile) in Hin.
Qed.

(** ** The disk *)

Lemma dk_dir_update name f d name' :
  dk_dir name' (dk_update name f d) = if decide (name' = name) then f (dk_dir name d) else dk_dir name' d.
Proof.
  unfold dk_dir at 1, dk_update. cbn [dk_dirs]. case_decide as E; [subst; by rewrite lookup_insert_eq|].
  by rewrite lookup_insert_ne by done.
Qed.

Lemma dk_dir_sync name d : dk_dir name (dk_sync_devices d) = dd_link (dk_dir name d).
Proof. unfold dk_dir, dk_sync_devices. cbn [dk_dirs]. rewrite lookup_fmap. by destruct (dk_dirs d !! name). Qed.

Lemma dev_inv_update mk name f d :
  dev_inv mk d → (dir_inv mk name (dk_dir name d) → dir_inv mk name (f (dk_dir name d))) →
  dev_inv mk (dk_update name f d).
Proof. intros H Hf name'. rewrite dk_dir_update. case_decide; [subst; by apply Hf|apply H]. Qed.

Lemma dev_inv_sync mk d : dev_inv mk d → dev_inv mk (dk_sync_devices d).
Proof. intros H name. rewrite dk_dir_sync. by apply dir_inv_link. Qed.

Lemma dev_inv_survives mk d d' : dev_inv mk d → dk_survives d d' → dev_inv (unloaded mk) d'.
Proof. intros H [Hd _] name. by eapply dir_inv_survives. Qed.

(** Synchronised for good. *)
Definition dir_settled name d : Prop :=
  let x := dk_dir name d in
  dd_exists x = true ∧ dd_linked x = true ∧ ∀ k, sd_pending (dd_file k x) = [].

Definition holds_file name (k : DeviceFile) (c : bytes) d : Prop :=
  sd_visible (dd_file k (dk_dir name d)) = Some c.

(** ** Writing *)

Section writes.
Context {F : Prop} (mk : Marks) (r0 : Registry).

Definition at_rest d r : Prop := dev_inv mk d ∧ r = r0.

Lemma rest_try message f E :
  (∀ d, dev_inv mk d → dev_inv mk (f d)) → (∀ d r, F → at_rest d r → E d r) →
  triple F at_rest (os_try message f) (λ _, at_rest) E.
Proof. intros H HE. apply t_os_try; [|done]. intros d r [Hd ->]. split; [auto|done]. Qed.

Lemma rest_read message : triple F at_rest (os_read message) (λ _, at_rest) at_rest.
Proof. by apply t_os_read. Qed.

Lemma dir_inv_put name k c d :
  file_ok mk name k c → dev_inv mk d → dev_inv mk (dk_update name (dd_set k (Some c)) d).
Proof. intros Hc H. apply dev_inv_update; [done|]. intros Hx. by apply dir_inv_set. Qed.

Lemma settled_link name d :
  dd_exists (dk_dir name d) = true → (∀ k, sd_pending (dd_file k (dk_dir name d)) = []) →
  dir_settled name (dk_sync_devices d).
Proof.
  intros E Hp. unfold dir_settled. rewrite dk_dir_sync. unfold dd_link. rewrite E.
  split_and!; [done..|]. intros k. specialize (Hp k). by destruct k.
Qed.

Lemma link_file name k d : dd_exists (dk_dir name d) = true →
  dd_file k (dk_dir name (dk_sync_devices d)) = dd_file k (dk_dir name d).
Proof. intros E. rewrite dk_dir_sync. unfold dd_link. rewrite E. by destruct k. Qed.

Lemma atomic_write_spec name k c :
  file_ok mk name k c →
  triple F at_rest (atomic_write name k c)
    (λ _ d r, at_rest d r ∧ dir_settled name d ∧ holds_file name k c d) at_rest.
Proof.
  intros Hc. unfold atomic_write.
  eapply t_bind.
  { eapply (t_os_try _ _ _ (λ d r, at_rest d r ∧ dd_exists (dk_dir name d) = true)); [|done].
    intros d r [Hd ->]. split; [split; [|done]|by rewrite dk_dir_update, decide_True].
    apply dev_inv_update; [done|]. apply dir_inv_create. }
  intros []. eapply t_bind; [apply t_os_read; by intros d r _ [? _]|]. intros [].
  eapply t_bind.
  { eapply (t_os_try _ _ _ (λ d r, at_rest d r ∧ dd_exists (dk_dir name d) = true ∧ holds_file name k c d));
      [|by intros d r _ [? _]].
    intros d r [[Hd ->] He]. split; [split; [by apply dir_inv_put|done]|]. split.
    - by rewrite dk_dir_update, decide_True.
    - unfold holds_file. rewrite dk_dir_update, decide_True by done. unfold dd_set. rewrite dd_file_map.
      rewrite bool_decide_eq_true_2 by done. apply sd_set_visible. }
  intros []. eapply t_bind.
  { eapply (t_os_try _ _ _ (λ d r, at_rest d r ∧ dd_exists (dk_dir name d) = true ∧ holds_file name k c d ∧
      ∀ k', sd_pending (dd_file k' (dk_dir name d)) = [])); [|by intros d r _ [? _]].
    intros d r ([Hd ->] & He & Hh). split; [split; [|done]|split_and!].
    - apply dev_inv_update; [done|]. apply dir_inv_sync.
    - by rewrite dk_dir_update, decide_True.
    - unfold holds_file. rewrite dk_dir_update, decide_True by done. unfold dd_sync. rewrite dd_file_map.
      by rewrite sd_sync_visible.
    - intros k'. rewrite dk_dir_update, decide_True by done. unfold dd_sync. by rewrite dd_file_map. }
  intros []. apply (t_os_try _ _ _ (λ d r, at_rest d r ∧ dir_settled name d ∧ holds_file name k c d));
    [|by intros d r _ [? _]].
  intros d r ([Hd ->] & He & Hh & Hp). split; [split; [by apply dev_inv_sync|done]|].
  split; [by apply settled_link|]. unfold holds_file. by rewrite link_file.
Qed.

Lemma atomic_write_token_spec name c :
  triple F at_rest (atomic_write_token name c) (λ _, at_rest) at_rest.
Proof.
  unfold atomic_write_token.
  eapply t_bind; [apply rest_read|]. intros []. eapply t_bind; [apply rest_read|]. intros [].
  eapply t_bind; [by apply rest_try|]. intros []. eapply t_bind; [by apply rest_try|]. intros [].
  apply rest_try; [|done]. intros d. apply dev_inv_sync.
Qed.

Context (HW : enrollment_ok W).

Lemma device_dir_id id t : W id t → device_dir id = id.
Proof. intros H. apply storage_component_safe, (eo_id W HW id t H). Qed.

Lemma persist_info_spec info :
  W (di_device_id info) (di_bearer_token info) → di_device_id info ∈ mk_known mk → di_device_id info ∉ mk_purged mk →
  triple F at_rest (persist_device_info info)
    (λ _ d r, at_rest d r ∧ dir_settled (di_device_id info) d ∧
       holds_file (di_device_id info) JsonFile (dj_encode info) d) at_rest.
Proof.
  intros Hi Hk Hp. unfold persist_device_info. rewrite (device_dir_id _ _ Hi). apply atomic_write_spec.
  split_and!; [done..|]. by exists info.
Qed.

Lemma register_device_spec id name t now :
  W id t → id ∈ mk_known mk → id ∉ mk_purged mk →
  triple F at_rest (register_device id name t now)
    (λ _ d r, at_rest d r ∧ dir_settled id d ∧
       holds_file id JsonFile (dj_encode {| di_name := name; di_device_id := id; di_enrolled_at := now;
         di_last_seen := now; di_vaults := []; di_capabilities := []; di_bearer_token := t |}) d) at_rest.
Proof.
  intros Hi Hk Hp. unfold register_device. rewrite (device_dir_id _ _ Hi).
  eapply t_bind; [apply rest_try; [|done]|].
  { intros d Hd. apply dev_inv_update; [done|]. apply dir_inv_create. }
  intros []. eapply t_bind; [apply rest_read|]. intros []. cbv zeta.
  eapply t_bind; [apply atomic_write_token_spec|]. intros [].
  eapply t_bind; [by apply rest_try|]. intros [].
  eapply t_conseq; [by apply (persist_info_spec {| di_name := name; di_device_id := id; di_enrolled_at := now;
         di_last_seen := now; di_vaults := []; di_capabilities := []; di_bearer_token := t |})|done..].
Qed.

(** ** Reading *)

Lemma read_file_spec (P : DeviceDisk → Registry → Prop) name k E :
  (∀ d r, F → P d r → E d r) →
  triple F P (read_file name k)
    (λ c d r, c = sd_visible (dd_file k (dk_dir name d)) ∧ P d r) E.
Proof.
  intros HE. unfold read_file. eapply t_bind; [by apply t_os_read|]. intros [].
  apply t_with_disk. intros d0. apply t_ret. by intros d r [-> HP].
Qed.

Lemma get_device_spec (P : DeviceDisk → Registry → Prop) id t info E :
  W id t → (∀ d r, P d r → holds_file id JsonFile (dj_encode info) d) →
  triple F P (get_device id) (λ found d r, (found = Some info ∨ found = None) ∧ P d r) E.
Proof.
  intros Hi HP. unfold get_device. rewrite (device_dir_id _ _ Hi).
  eapply t_bind.
  { apply (t_os_result _ _ (λ res d r, (res = Ok (Some (dj_encode info)) ∨ ∃ e, res = Err e) ∧ P d r)).
    eapply t_conseq; [apply (read_file_spec P id JsonFile P); by intros d r _|done| |].
    - intros c d r [-> H]. split; [|done]. left. by rewrite (HP d r H).
    - intros d r H _ e. split; [right; by exists e|done]. }
  intros res. apply t_ret. intros d r [[->|[e ->]] H]; (split; [|done]).
  - left. apply dj_roundtrip.
  - by right.
Qed.
End writes.

(** ** Loading *)

Section loads.
Context {F : Prop} (mk : Marks) (d0 : DeviceDisk) (r0 : Registry) (HW : enrollment_ok W) (Hd0 : dev_inv mk d0).

Definition pinned_at d r : Prop := d = d0 ∧ r = r0.

(** What the directory of a device holds. *)
Definition info_at name : option DeviceInfo :=
  match sd_visible (dd_json (dk_dir name d0)) with Some c => dj_decode c | None => None end.
Definition marker_at name : option N :=
  match sd_visible (dd_revoked (dk_dir name d0)) with Some c => parse_u64 (trim c) | None => None end.

Lemma visible_file_ok name k c : sd_visible (dd_file k (dk_dir name d0)) = Some c → file_ok mk name k c.
Proof. intros H. apply (dir_files _ _ _ (Hd0 name) k). rewrite <-H. apply sd_visible_contents. Qed.

Lemma info_at_ok name info :
  info_at name = Some info → di_device_id info = name ∧ W name (di_bearer_token info) ∧
  is_Some (sd_visible (dd_json (dk_dir name d0))).
Proof.
  unfold info_at. destruct (sd_visible _) as [c|] eqn:E; [|done].
  destruct (visible_file_ok name JsonFile c E) as (_ & _ & i & -> & Hi & Hw). rewrite dj_roundtrip. intros [= <-]. eauto.
Qed.

Lemma info_at_known name info : info_at name = Some info → name ∈ mk_known mk ∧ name ∉ mk_purged mk.
Proof.
  unfold info_at. destruct (sd_visible _) as [c|] eqn:E; [|done].
  by destruct (visible_file_ok name JsonFile c E) as (? & ? & _).
Qed.

Lemma info_at_some name :
  is_Some (sd_visible (dd_json (dk_dir name d0))) → is_Some (info_at name).
Proof.
  unfold info_at. intros [c E]. rewrite E. destruct (visible_file_ok name JsonFile c E) as (_ & _ & i & -> & _).
  rewrite dj_roundtrip. by eexists.
Qed.

Lemma marker_at_iff name :
  is_Some (marker_at name) ↔ is_Some (sd_visible (dd_revoked (dk_dir name d0))).
Proof.
  unfold marker_at. destruct (sd_visible _) as [c|] eqn:E; [|done].
  destruct (visible_file_ok name RevokedFile c E) as (_ & n & Hn & ->). by rewrite parse_decimal.
Qed.

Lemma load_device_spec mtime name :
  triple F pinned_at (load_device mtime name) (λ found d r, found = info_at name ∧ pinned_at d r) pinned_at.
Proof.
  unfold load_device. eapply t_bind; [by apply (read_file_spec pinned_at)|].
  intros found. apply t_pin. intros d1 r1 (-> & -> & ->). unfold info_at. cbn [dd_file].
  destruct (sd_visible (dd_json (dk_dir name d0))) as [c|] eqn:E; [|apply t_ret; by intros d r [-> ->]].
  destruct (visible_file_ok name JsonFile c E) as (_ & _ & i & -> & Hi & _).
  unfold beq. rewrite bool_decide_eq_false_2 by apply dj_nonempty. rewrite dj_roundtrip.
  eapply (t_bind _ _ _ (λ y d r, y = Some i ∧ pinned_at d r)); [apply t_ret; by intros d r [-> ->]|].
  intros x. apply t_pin. intros d1 r1 (-> & -> & ->). rewrite bool_decide_eq_true_2 by done.
  apply t_ret. by intros d r [-> ->].
Qed.

Lemma t_st_map {A B} (f : A → Dev B) (g : A → B) (P E : DeviceDisk → Registry → Prop) l :
  (∀ a, triple F P (f a) (λ b d r, b = g a ∧ P d r) E) →
  triple F P (st_map f l) (λ bs d r, bs = g <$> l ∧ P d r) E.
Proof.
  intros Hf. induction l as [|a l IH]; cbn [st_map]; [by apply t_ret|].
  eapply t_bind; [apply Hf|]. intros b. apply t_pure. intros ->.
  eapply t_bind; [apply IH|]. intros bs. apply t_pure. intros ->. by apply t_ret.
Qed.

Lemma load_devices_spec mtime :
  triple F pinned_at (load_devices_strict mtime)
    (λ infos d r, infos = omap info_at (filter (λ name, name ≠ str "tokens") (device_directories d0)) ∧ pinned_at d r)
    pinned_at.
Proof.
  unfold load_devices_strict. eapply t_bind; [by apply t_os_read|]. intros [].
  apply t_with_disk. intros d1. apply t_pin. intros d2 r2 (-> & -> & ->).
  eapply t_bind; [apply (t_st_map _ info_at pinned_at pinned_at); apply load_device_spec|].
  intros found. apply t_pure. intros ->. apply t_ret. intros d r H. split; [|done].
  generalize (filter (λ name, name ≠ str "tokens") (device_directories d0)). intros l.
  induction l as [|a l IH]; [done|]. csimpl. destruct (info_at a); csimpl; by rewrite IH.
Qed.

Lemma load_revocation_spec name t :
  W name t →
  triple F pinned_at (load_revocation_strict name) (λ m d r, m = marker_at name ∧ pinned_at d r) pinned_at.
Proof.
  intros Hw. unfold load_revocation_strict. rewrite (device_dir_id HW _ _ Hw).
  eapply t_bind; [by apply (read_file_spec pinned_at)|].
  intros found. apply t_pin. intros d1 r1 (-> & -> & ->). unfold marker_at. cbn [dd_file].
  destruct (sd_visible (dd_revoked (dk_dir name d0))) as [c|] eqn:E; [|apply t_ret; by intros d r [-> ->]].
  destruct (visible_file_ok name RevokedFile c E) as (_ & n & Hn & ->).
  rewrite decimal_utf8, parse_decimal by done. cbn [negb]. rewrite decimal_trim.
  unfold beq. rewrite bool_decide_eq_false_2 by apply decimal_nonempty.
  apply t_ret. by intros d r [-> ->].
Qed.
End loads.

(** * The registry *)

(** The two maps name the same entries. *)
Record reg_maps (r : Registry) : Prop := {
  rm_token : ∀ t a, rg_by_token r !! t = Some a →
    ∃ e, rg_heap r !! a = Some e ∧ re_bearer_token e = t ∧ rg_by_id r !! re_device_id e = Some a;
  rm_id : ∀ id a, rg_by_id r !! id = Some a →
    ∃ e, rg_heap r !! a = Some e ∧ re_device_id e = id ∧ W id (re_bearer_token e) ∧
      rg_by_token r !! re_bearer_token e = Some a;
  rm_next : ∀ a, is_Some (rg_heap r !! a) → a < rg_next r;
}.

Record reg_inv (mk : Marks) (r : Registry) : Prop := {
  ri_maps : reg_maps r;
  ri_loaded : ∀ id, is_Some (rg_by_id r !! id) ↔ id ∈ mk_loaded mk;
  ri_known : mk_loaded mk ⊆ mk_known mk;
  ri_revoked : ∀ id, id ∉ mk_expired mk → id ∈ mk_revoked mk →
    ∃ a e, rg_by_id r !! id = Some a ∧ rg_heap r !! a = Some e ∧ re_revoked e = true;
  ri_attempted : ∀ id a e, rg_by_id r !! id = Some a → rg_heap r !! a = Some e →
    re_revoked e = true → id ∈ mk_attempted mk;
}.

Lemma reg_maps_empty : reg_maps rg_empty.
Proof.
  split; [intros t a H|intros id a H|intros a [e H]]; cbn in H; by rewrite lookup_empty in H.
Qed.

Lemma by_id_entry r id a : reg_maps r → rg_by_id r !! id = Some a →
  ∃ e, rg_entry id r = Some (a, e) ∧ rg_heap r !! a = Some e ∧ re_device_id e = id ∧ W id (re_bearer_token e).
Proof.
  intros Hm Ha. destruct (rm_id r Hm id a Ha) as (e & He & Hid & Hw & _). exists e.
  unfold rg_entry. rewrite Ha. cbn. by rewrite He.
Qed.

Lemma rg_entry_Some r id a e : rg_entry id r = Some (a, e) → rg_by_id r !! id = Some a ∧ rg_heap r !! a = Some e.
Proof.
  unfold rg_entry. destruct (rg_by_id r !! id) as [a'|] eqn:E; [|done]. cbn.
  destruct (rg_heap r !! a') as [e'|] eqn:E'; [|done]. cbn. by intros [= <- <-].
Qed.

Lemma rg_entry_None r id : reg_maps r → rg_entry id r = None → rg_by_id r !! id = None.
Proof.
  intros Hm H. destruct (rg_by_id r !! id) as [a|] eqn:E; [|done].
  destruct (by_id_entry r id a Hm E) as (e & He & _). by rewrite He in H.
Qed.

(** Rewriting an entry. *)
Lemma reg_maps_write r a e e' :
  reg_maps r → rg_heap r !! a = Some e → re_device_id e' = re_device_id e →
  re_bearer_token e' = re_bearer_token e → reg_maps (rg_write a e' r).
Proof.
  intros [H1 H2 H3] He Hid Ht. split; cbn [rg_write rg_heap rg_by_token rg_by_id rg_next].
  - intros t a' Ha. destruct (H1 t a' Ha) as (e1 & E1 & E2 & E3). destruct (decide (a' = a)) as [->|Hne].
    + simplify_eq. exists e'. rewrite lookup_insert_eq, Hid. done.
    + exists e1. by rewrite lookup_insert_ne.
  - intros id a' Ha. destruct (H2 id a' Ha) as (e1 & E1 & E2 & E3 & E4). destruct (decide (a' = a)) as [->|Hne].
    + simplify_eq. exists e'. rewrite lookup_insert_eq, Hid, Ht. done.
    + exists e1. by rewrite lookup_insert_ne.
  - intros a' Ha. destruct (decide (a' = a)) as [->|Hne]; [apply H3; by eexists|].
    rewrite lookup_insert_ne in Ha by done. by apply H3.
Qed.

Lemma reg_inv_write mk r a e e' :
  reg_inv mk r → rg_heap r !! a = Some e → re_device_id e' = re_device_id e →
  re_bearer_token e' = re_bearer_token e →
  re_revoked e' = re_revoked e ∨ re_revoked e' = true ∧ re_device_id e ∈ mk_attempted mk →
  reg_inv mk (rg_write a e' r).
Proof.
  intros [H1 H2 Hk H3 H4] He Hid Ht Hr. split; [by eapply reg_maps_write|done|done| |].
  - intros id Hx Hin. destruct (H3 id Hx Hin) as (a' & e1 & E1 & E2 & E3). exists a'.
    cbn [rg_write rg_heap rg_by_id]. destruct (decide (a' = a)) as [->|Hne].
    + simplify_eq. exists e'. rewrite lookup_insert_eq. split_and!; [done..|]. destruct Hr as [->|[-> _]]; done.
    + exists e1. by rewrite lookup_insert_ne.
  - intros id a' e1 Ha. cbn [rg_write rg_heap rg_by_id] in *. destruct (decide (a' = a)) as [->|Hne].
    + rewrite lookup_insert_eq. intros [= <-] Hv. destruct (rm_id r H1 id a Ha) as (e2 & E2 & <- & _).
      assert (e2 = e) as -> by congruence. destruct Hr as [Hr|[_ Hr]]; [|done]. eapply H4; [done..|congruence].
    + rewrite lookup_insert_ne by done. by apply H4.
Qed.

(** A new entry. *)
Lemma reg_maps_insert r e :
  reg_maps r → W (re_device_id e) (re_bearer_token e) →
  rg_by_id r !! re_device_id e = None → rg_by_token r !! re_bearer_token e = None → reg_maps (rg_insert e r).
Proof.
  intros [H1 H2 H3] Hw Hid Ht. split; cbn [rg_insert rg_heap rg_by_token rg_by_id rg_next].
  - intros t a. destruct (decide (t = re_bearer_token e)) as [->|Hne].
    + rewrite lookup_insert_eq. intros [= <-]. exists e. by rewrite !lookup_insert_eq.
    + rewrite lookup_insert_ne by done. intros Ha. destruct (H1 t a Ha) as (e1 & E1 & E2 & E3).
      assert (a < rg_next r) by (apply H3; by eexists). exists e1.
      rewrite !lookup_insert_ne; [done| |lia]. intros E. rewrite <-E in E3. congruence.
  - intros id a. destruct (decide (id = re_device_id e)) as [->|Hne].
    + rewrite lookup_insert_eq. intros [= <-]. exists e. by rewrite !lookup_insert_eq.
    + rewrite lookup_insert_ne by done. intros Ha. destruct (H2 id a Ha) as (e1 & E1 & E2 & E3 & E4).
      assert (a < rg_next r) by (apply H3; by eexists). exists e1.
      rewrite !lookup_insert_ne; [done| |lia]. intros E. rewrite <-E in E4. congruence.
  - intros a Ha. destruct (decide (a = rg_next r)) as [->|Hne]; [lia|].
    rewrite lookup_insert_ne in Ha by done. apply H3 in Ha. lia.
Qed.

Lemma rg_insert_entry r e id a e' :
  reg_maps r → rg_by_id (rg_insert e r) !! id = Some a → rg_heap (rg_insert e r) !! a = Some e' →
  (id = re_device_id e ∧ e' = e) ∨ (rg_by_id r !! id = Some a ∧ rg_heap r !! a = Some e').
Proof.
  intros Hm. cbn [rg_insert rg_by_id rg_heap]. destruct (decide (id = re_device_id e)) as [->|Hne].
  - rewrite lookup_insert_eq. intros [= <-]. rewrite lookup_insert_eq. intros [= <-]. by left.
  - rewrite lookup_insert_ne by done. intros Ha. destruct (rm_id r Hm id a Ha) as (e1 & E1 & _).
    assert (a < rg_next r) by (apply (rm_next r Hm); by eexists).
    rewrite lookup_insert_ne by lia. by right.
Qed.

(** ** Loading the registry *)

Section load.
Context {F : Prop} (mk : Marks) (d0 : DeviceDisk) (r0 : Registry) (HW : enrollment_ok W) (Hd0 : dev_inv mk d0).

(** The registry holds the devices [ids], as the disk has them. *)
Record loaded_from (ids : gset bytes) (r : Registry) : Prop := {
  lf_maps : reg_maps r;
  lf_ids : ∀ id, is_Some (rg_by_id r !! id) ↔ id ∈ ids;
  lf_revoked : ∀ id a e, rg_by_id r !! id = Some a → rg_heap r !! a = Some e →
    re_revoked e = bool_decide (is_Some (marker_at d0 id));
}.

Lemma load_step_spec ids r info :
  loaded_from ids r → info_at d0 (di_device_id info) = Some info → di_device_id info ∉ ids →
  triple F (pinned_at d0 r0) (load_step r info)
    (λ r' d rr, loaded_from ({[di_device_id info]} ∪ ids) r' ∧ pinned_at d0 r0 d rr) (pinned_at d0 r0).
Proof.
  intros [Hm Hids Hrev] Hi Hnew. destruct (info_at_ok mk d0 Hd0 _ _ Hi) as (_ & Hw & _).
  assert (rg_by_id r !! di_device_id info = None) as Hid.
  { destruct (rg_by_id r !! di_device_id info) eqn:E; [|done]. destruct Hnew. apply Hids. by eexists. }
  assert (rg_by_token r !! di_bearer_token info = None) as Ht.
  { destruct (rg_by_token r !! di_bearer_token info) as [a|] eqn:E; [|done]. exfalso.
    destruct (rm_token r Hm _ _ E) as (e & _ & Et & Ea). destruct (rm_id r Hm _ _ Ea) as (e' & He' & Ei & Hw' & _).
    destruct (rm_token r Hm _ _ E) as (e2 & He2 & Et2 & Ea2). simplify_eq.
    rewrite Et2 in Hw'. rewrite (eo_inj' W HW _ _ _ Hw Hw') in Hid. congruence. }
  unfold load_step. rewrite (eo_token W HW _ _ Hw). cbn [negb].
  rewrite bool_decide_eq_false_2 by (rewrite Hid; by intros [? ?]).
  rewrite bool_decide_eq_false_2 by (rewrite Ht; by intros [? ?]).
  eapply t_bind; [by apply (load_revocation_spec mk d0 r0 HW Hd0 _ _ Hw)|].
  intros m. apply t_pure. intros ->. apply t_ret. intros d x Hp. split; [|done].
  set (e := from_disk info (marker_at d0 (di_device_id info))). split.
  - by apply reg_maps_insert.
  - intros id. cbn [rg_insert rg_by_id]. rewrite elem_of_union, elem_of_singleton, <-Hids.
    change (re_device_id e) with (di_device_id info). destruct (decide (id = di_device_id info)) as [->|Hne].
    + rewrite lookup_insert_eq. split; [by left|by eexists].
    + rewrite lookup_insert_ne by done. naive_solver.
  - intros id a e' Ha He'. destruct (rg_insert_entry r e id a e' Hm Ha He') as [[-> ->]|[Ha' He'']]; [done|].
    by eapply Hrev.
Qed.

Lemma load_fold_spec infos ids r :
  loaded_from ids r → Forall (λ info, info_at d0 (di_device_id info) = Some info) infos →
  NoDup (di_device_id <$> infos) → Forall (λ info, di_device_id info ∉ ids) infos →
  triple F (pinned_at d0 r0) (st_fold load_step r infos)
    (λ r' d rr, loaded_from (list_to_set (di_device_id <$> infos) ∪ ids) r' ∧ pinned_at d0 r0 d rr)
    (pinned_at d0 r0).
Proof.
  revert ids r. induction infos as [|info infos IH]; intros ids r Hl Hi Hnd Hnew; cbn [st_fold].
  { apply t_ret. intros d x Hp. split; [|done]. cbn. by rewrite union_empty_l_L. }
  apply Forall_cons in Hi as [Hi1 Hi]. apply Forall_cons in Hnew as [Hn1 Hnew].
  csimpl in Hnd. apply NoDup_cons in Hnd as [Hnin Hnd].
  eapply t_bind; [by apply (load_step_spec ids r info)|]. intros r1. apply t_pure. intros Hl1.
  eapply t_conseq; [apply (IH _ r1 Hl1 Hi Hnd)|done| |done].
  - apply Forall_forall. intros i Hin. rewrite not_elem_of_union, not_elem_of_singleton.
    rewrite Forall_forall in Hnew. split; [|by apply Hnew]. intros E. apply Hnin. rewrite <-E.
    apply list_elem_of_fmap. eauto.
  - intros r2 d x [H ?]. split; [|done]. csimpl.
    replace ({[di_device_id info]} ∪ list_to_set (di_device_id <$> infos) ∪ ids)
      with (list_to_set (di_device_id <$> infos) ∪ ({[di_device_id info]} ∪ ids)) by set_solver. done.
Qed.

Definition device_names : list bytes := filter (λ name, name ≠ str "tokens") (device_directories d0).

Definition names_loaded : gset bytes := list_to_set (di_device_id <$> omap (info_at d0) device_names).

Lemma device_names_NoDup : NoDup device_names.
Proof.
  unfold device_names, device_directories. apply NoDup_filter. rewrite sort_by_perm.
  pose proof (NoDup_fst_map_to_list (dk_dirs d0)) as Hnd.
  induction (map_to_list (dk_dirs d0)) as [|[n x] l IH]; csimpl in *; [constructor|].
  apply NoDup_cons in Hnd as [Hn Hnd]. destruct (dd_exists x); csimpl; [|by apply IH].
  constructor; [|by apply IH]. rewrite list_elem_of_omap. intros ([n' x'] & Hin & E). cbn in E.
  destruct (dd_exists x'); [|done]. injection E as ->. apply Hn. apply list_elem_of_fmap. by exists (n, x').
Qed.

Lemma info_ids l : NoDup l → NoDup (di_device_id <$> omap (info_at d0) l) ∧
  ∀ name, name ∈ di_device_id <$> omap (info_at d0) l → name ∈ l.
Proof.
  induction 1 as [|n l Hn Hnd [IH1 IH2]]; [split; [constructor|done]|]. csimpl.
  destruct (info_at d0 n) as [info|] eqn:E; csimpl.
  - destruct (info_at_ok mk d0 Hd0 _ _ E) as (Hi & _). split.
    + constructor; [|done]. rewrite Hi. by intros ?%IH2.
    + intros name. rewrite Hi, !elem_of_cons. intros [->|?%IH2]; [by left|by right].
  - split; [done|]. intros name ?%IH2. by right.
Qed.

(** A device is loaded when its record is visible. *)
Lemma names_loaded_iff name t :
  W name t → name ∈ names_loaded ↔ dd_exists (dk_dir name d0) = true ∧ is_Some (sd_visible (dd_json (dk_dir name d0))).
Proof.
  intros Hw. destruct (eo_id W HW _ _ Hw) as [_ Htok]. unfold names_loaded.
  rewrite elem_of_list_to_set, list_elem_of_fmap. setoid_rewrite list_elem_of_omap.
  assert (name ∈ device_names ↔ dd_exists (dk_dir name d0) = true) as Hn.
  { unfold device_names, device_directories. rewrite list_elem_of_filter, elem_of_sort_by, list_elem_of_omap.
    unfold dk_dir. split.
    - intros (_ & [n x] & Hin & E). cbn in E. destruct (dd_exists x) eqn:Ex; [|done]. injection E as ->.
      apply elem_of_map_to_list in Hin. by rewrite Hin.
    - intros E. split; [done|]. destruct (dk_dirs d0 !! name) as [x|] eqn:Hx; [|done]. cbn in E.
      exists (name, x). rewrite elem_of_map_to_list. cbn. by rewrite E. }
  rewrite <-Hn. split.
  - intros (info & -> & n & Hin & E). destruct (info_at_ok mk d0 Hd0 _ _ E) as (-> & _ & Hv). done.
  - intros [Hin Hv]. destruct (info_at_some mk d0 Hd0 name Hv) as [info E].
    destruct (info_at_ok mk d0 Hd0 _ _ E) as (Hi & _). exists info. split; [done|]. eauto.
Qed.

Lemma load_spec mtime :
  triple F (pinned_at d0 r0) (load mtime)
    (λ r d rr, loaded_from names_loaded r ∧ pinned_at d0 r0 d rr) (pinned_at d0 r0).
Proof.
  unfold load. eapply t_bind; [apply (load_devices_spec mk d0 r0 Hd0)|]. intros infos. apply t_pure. intros ->.
  fold device_names. destruct (info_ids device_names device_names_NoDup) as [Hnd _].
  eapply t_conseq; [apply (load_fold_spec (omap (info_at d0) device_names) ∅ rg_empty)|done| |done].
  - split; [apply reg_maps_empty| |].
    + intros id. cbn. rewrite lookup_empty. split; [by intros [? ?]|set_solver].
    + intros id a e H. cbn in H. by rewrite lookup_empty in H.
  - apply Forall_forall. intros info (n & _ & E)%list_elem_of_omap.
    by destruct (info_at_ok mk d0 Hd0 _ _ E) as (-> & _).
  - done.
  - apply Forall_forall. set_solver.
  - intros r d x [H ?]. split; [|done]. unfold names_loaded. by rewrite union_empty_r_L in H.
Qed.
End load.

(** * Operations *)

Section operations.
Context (HW : enrollment_ok W).
Implicit Types (r : Registry).

Definition sys_inv mk d r : Prop := dev_inv mk d ∧ reg_inv mk r.

(** More marks, when the directory earns them. *)
Definition with_device (id : bytes) mk : Marks :=
  mk <| mk_loaded := {[id]} ∪ mk_loaded mk |> <| mk_registered := {[id]} ∪ mk_registered mk |>.
Definition with_failed (id : bytes) mk : Marks := mk <| mk_failed := {[id]} ∪ mk_failed mk |>.
Definition with_attempt (id : bytes) mk : Marks := mk <| mk_attempted := {[id]} ∪ mk_attempted mk |>.
Definition with_revoked (id : bytes) mk : Marks :=
  mk <| mk_registered := {[id]} ∪ mk_registered mk |> <| mk_revoked := {[id]} ∪ mk_revoked mk |>.
Definition with_grant (id : bytes) mk : Marks := mk <| mk_bypass := {[id]} ∪ mk_bypass mk |>.
Definition with_spent (id : bytes) mk : Marks := mk <| mk_bypass := mk_bypass mk ∖ {[id]} |>.

(** A registration of the device is tried; a purge finds devices expired; it
    removes their directories; it removes them from the registry. *)
Definition unpurged (id : bytes) mk : Marks := mk <| mk_purged := mk_purged mk ∖ {[id]} |>.
Definition with_expired (ids : gset bytes) mk : Marks := mk <| mk_expired := ids ∪ mk_expired mk |>.
Definition with_gone (ids : gset bytes) mk : Marks :=
  mk <| mk_expired := ids ∪ mk_expired mk |> <| mk_purged := (ids ∖ mk_expired mk) ∪ mk_purged mk |>.
Definition with_removed (ids : gset bytes) mk : Marks := mk <| mk_loaded := mk_loaded mk ∖ ids |>.

Lemma dir_inv_marks mk mk' name x :
  dir_inv mk name x → mk_attempted mk ⊆ mk_attempted mk' → (name ∈ mk_bypass mk → name ∈ mk_bypass mk') →
  (name ∈ mk_loaded mk' → name ∈ mk_loaded mk) → (name ∈ mk_registered mk' ↔ name ∈ mk_registered mk) →
  (name ∈ mk_revoked mk' → name ∈ mk_revoked mk) → (name ∈ mk_failed mk → name ∈ mk_known mk') →
  mk_expired mk ⊆ mk_expired mk' → (name ∈ mk_purged mk' → name ∈ mk_purged mk) → dir_inv mk' name x.
Proof.
  intros [H1 H2 H3 H4] Ha Hb Hl Hg Hr Hf Hx Hp.
  assert (name ∉ mk_expired mk' → name ∉ mk_expired mk) as Hx' by (intros H H'; by apply H, Hx). split.
  - intros k c Hc. apply H1 in Hc. destruct k; [|destruct Hc as [? ?]; split; [by apply Ha|done]|by apply Hb].
    destruct Hc as (Hk & Hn & ?). split_and!; [|by intros ?%Hp|done].
    apply elem_of_union in Hk as [Hk|Hk]; [apply elem_of_union_l; by apply Hg|by apply Hf].
  - auto.
  - intros He H. apply H3; [auto|]. by apply Hg.
  - intros He H. destruct (H4 (Hx' He) (Hr H)) as [? ?]. split; [by apply Hg|done].
Qed.

Lemma settled_contents name d k : dir_settled name d → sd_contents (dd_file k (dk_dir name d)) = [sd_visible (dd_file k (dk_dir name d))].
Proof. intros (_ & _ & Hp). unfold sd_contents, sd_visible. by rewrite Hp. Qed.

Ltac marks := unfold mk_known; cbn; set_solver.

Lemma dev_inv_marks mk mk' d :
  dev_inv mk d → mk_attempted mk ⊆ mk_attempted mk' → mk_bypass mk ⊆ mk_bypass mk' →
  mk_loaded mk' ⊆ mk_loaded mk → mk_registered mk' = mk_registered mk → mk_revoked mk' = mk_revoked mk →
  mk_failed mk ⊆ mk_failed mk' → mk_expired mk ⊆ mk_expired mk' → mk_purged mk' ⊆ mk_purged mk → dev_inv mk' d.
Proof.
  intros H Ha Hb Hl Hg Hr Hf Hx Hp name. apply (dir_inv_marks mk); [apply H|..]; try done.
  - apply Hb.
  - apply Hl.
  - by rewrite Hg.
  - by rewrite Hr.
  - intros ?%Hf. by apply elem_of_union_r.
  - apply Hp.
Qed.

(** A registration that has written its record. *)
Lemma dev_inv_device mk d id c :
  dev_inv (with_failed id mk) d → dir_settled id d → holds_file id JsonFile c d → dev_inv (with_device id mk) d.
Proof.
  intros Hd Hs Hh name. destruct (decide (name = id)) as [->|Hne].
  - destruct (Hd id) as [H1 H2 H3 H4].
    assert (dd_exists (dk_dir id d) = true ∧ dd_linked (dk_dir id d) = true ∧
            None ∉ sd_contents (dd_json (dk_dir id d))) as Hp.
    { destruct Hs as (E1 & E2 & Hp) eqn:Es. split_and!; [done..|].
      change (dd_json (dk_dir id d)) with (dd_file JsonFile (dk_dir id d)).
      rewrite (settled_contents id d JsonFile Hs), Hh, list_elem_of_singleton. done. }
    split.
    + intros k c' Hc. apply H1 in Hc. destruct k; [|done..]. destruct Hc as (_ & ? & ?). split; [marks|done].
    + intros _ _. split; [apply Hs|]. by eexists.
    + by intros _ _.
    + intros Hx H. destruct (H4 Hx H) as [H' ?]. split; [marks|done].
  - apply (dir_inv_marks (with_failed id mk)); [apply Hd|done|done|..]; marks.
Qed.

(** A grant whose removal is durable. *)
Lemma dev_inv_spent mk d id :
  dev_inv mk d → sd_contents (dd_bypass (dk_dir id d)) = [None] → dev_inv (with_spent id mk) d.
Proof.
  intros Hd Hb name. destruct (decide (name = id)) as [->|Hne].
  - destruct (Hd id) as [H1 H2 H3 H4]. split; [|done..].
    intros k c Hc. destruct k; [by apply H1 in Hc..|]. cbn [dd_file] in Hc. rewrite Hb in Hc.
    by apply list_elem_of_singleton in Hc.
  - apply (dir_inv_marks mk); [apply Hd|..]; marks.
Qed.

Lemma dev_inv_revoked mk d id c :
  dev_inv mk d → dir_settled id d → holds_file id RevokedFile c d → id ∈ mk_loaded mk →
  dev_inv (with_revoked id mk) d.
Proof.
  intros Hd Hs Hh Hl name. destruct (decide (name = id)) as [->|Hne].
  - destruct (Hd id) as [H1 H2 H3 H4]. split.
    + intros k c' Hc. apply H1 in Hc. destruct k; [|done..]. destruct Hc as (? & ? & ?). split; [marks|done].
    + done.
    + intros Hx _. destruct (H2 Hx Hl) as [He [j Hj]]. destruct Hs as (E1 & E2 & Hp) eqn:Es. split_and!; [done..|].
      change (dd_json (dk_dir id d)) with (dd_file JsonFile (dk_dir id d)).
      rewrite (settled_contents id d JsonFile Hs), list_elem_of_singleton. cbn [dd_file]. rewrite Hj. done.
    + intros _ _. split; [marks|].
      change (dd_revoked (dk_dir id d)) with (dd_file RevokedFile (dk_dir id d)).
      rewrite (settled_contents id d RevokedFile Hs), Hh, list_elem_of_singleton. done.
  - apply (dir_inv_marks mk); [apply Hd|done|done|..]; marks.
Qed.

(** ** Authentication *)

Lemma authenticate_inv mk token now r : reg_inv mk r → reg_inv mk (snd (authenticate token now r)).
Proof.
  intros H. unfold authenticate. destruct (negb _); [done|].
  destruct (rg_by_token r !! token) as [a|] eqn:Ea; [cbn [mbind option_bind]|done].
  destruct (rg_heap r !! a) as [e|] eqn:Ee; [cbn [mbind option_bind]|done].
  destruct (re_revoked e) eqn:Er; [done|]. cbn [snd]. apply (reg_inv_write mk r a e); [done..|]. by left.
Qed.

(** Who is authenticated: the owner of the token, unless it is revoked. *)
Lemma authenticate_entry mk token now r id :
  reg_inv mk r → fst (authenticate token now r) = Ok id →
  ∃ a e, rg_by_id r !! id = Some a ∧ rg_heap r !! a = Some e ∧ re_revoked e = false ∧ W id token.
Proof.
  intros [Hm _ _ _ _]. unfold authenticate. destruct (negb _); [done|].
  destruct (rg_by_token r !! token) as [a|] eqn:Ea; [cbn [mbind option_bind]|done].
  destruct (rg_heap r !! a) as [e|] eqn:Ee; [cbn [mbind option_bind]|done].
  destruct (re_revoked e) eqn:Er; [done|]. cbn [fst]. intros [= <-].
  destruct (rm_token r Hm _ _ Ea) as (e' & E1 & E2 & E3). assert (e' = e) as -> by congruence.
  destruct (rm_id r Hm _ _ E3) as (e2 & E4 & _ & Hw & _). assert (e2 = e) as -> by congruence.
  rewrite E2 in Hw. by exists a, e.
Qed.

Lemma authenticate_unknown mk token now r id :
  reg_inv mk r → rg_by_id r !! id = None → W id token → fst (authenticate token now r) = Err Unknown.
Proof.
  intros [Hm _ _ _ _] Hid Hw. unfold authenticate. destruct (negb _); [done|].
  destruct (rg_by_token r !! token) as [a|] eqn:Ea; [|done]. exfalso.
  destruct (rm_token r Hm _ _ Ea) as (e & E1 & E2 & E3). destruct (rm_id r Hm _ _ E3) as (e2 & E4 & _ & Hw' & _).
  assert (e2 = e) as -> by congruence. rewrite E2 in Hw'. rewrite (eo_inj' W HW _ _ _ Hw Hw') in Hid. congruence.
Qed.

Lemma authenticate_id mk token now r id a e :
  reg_inv mk r → rg_by_id r !! id = Some a → rg_heap r !! a = Some e → W id token →
  fst (authenticate token now r) = if re_revoked e then Err Revoked else Ok id.
Proof.
  intros [Hm _ _ _ _] Ha He Hw. destruct (rm_id r Hm id a Ha) as (e' & E1 & E2 & E3 & E4).
  assert (e' = e) as -> by congruence. rewrite (eo_inj W HW _ _ _ E3 Hw) in E4. unfold authenticate.
  rewrite (eo_token W HW _ _ Hw), E4. cbn [negb mbind option_bind]. rewrite He. cbn [mbind option_bind].
  rewrite E2. by destruct (re_revoked e).
Qed.

(** ** Mutations

    Any operation may fail at any point: the invariant holds all the same. *)

Lemma reg_inv_marks mk mk' r :
  reg_inv mk r → mk_loaded mk' = mk_loaded mk → mk_revoked mk' = mk_revoked mk → mk_known mk ⊆ mk_known mk' →
  mk_expired mk ⊆ mk_expired mk' → mk_attempted mk ⊆ mk_attempted mk' → reg_inv mk' r.
Proof.
  intros [H1 H2 Hk H3 H4] Hl Hr Hk' Hx Ha. split; [done| | | |].
  - intros id. by rewrite Hl.
  - rewrite Hl. by etrans.
  - intros id Hn Hin. rewrite Hr in Hin. apply H3; [|done]. intros ?. by apply Hn, Hx.
  - intros id a e E1 E2 E3. by eapply Ha, H4.
Qed.

Lemma at_rest_sys mk r d r' : reg_inv mk r → at_rest mk r d r' → sys_inv mk d r'.
Proof. intros Hr [Hd ->]. done. Qed.

Lemma sys_inv_unpurged mk id d r : sys_inv mk d r → sys_inv (unpurged id mk) d r.
Proof. intros [Hd Hr]. split; [apply (dev_inv_marks mk); try done; marks|by apply (reg_inv_marks mk)]. Qed.

Lemma sys_inv_failed mk id d r : sys_inv mk d r → sys_inv (with_failed id mk) d r.
Proof. intros [Hd Hr]. split; [apply (dev_inv_marks mk); try done; marks|apply (reg_inv_marks mk); try done; marks]. Qed.

Lemma reg_inv_registered mk r info :
  reg_inv mk r → W (di_device_id info) (di_bearer_token info) →
  rg_by_id r !! di_device_id info = None → rg_by_token r !! di_bearer_token info = None →
  reg_inv (with_device (di_device_id info) mk) (rg_insert (from_disk info None) r).
Proof.
  intros [Hm Hl Hk Hv Ha] Hw Hid Ht. split.
  - by apply reg_maps_insert.
  - intros id'. cbn. rewrite elem_of_union, elem_of_singleton, <-Hl.
    destruct (decide (id' = di_device_id info)) as [->|Hne].
    + rewrite lookup_insert_eq. split; [by left|by eexists].
    + rewrite lookup_insert_ne by done. naive_solver.
  - marks.
  - intros id' Hx Hin. destruct (Hv id' Hx Hin) as (a & e & E1 & E2 & E3). exists a, e. cbn.
    assert (a < rg_next r) by (apply (rm_next _ Hm); by eexists).
    rewrite !lookup_insert_ne; [done|lia|congruence].
  - intros id' a e Ha' He. destruct (rg_insert_entry r _ id' a e Hm Ha' He) as [[_ ->]|[E1 E2]]; [done|by eapply Ha].
Qed.

Lemma register_spec mk r0 id name t now :
  W id t → reg_inv mk r0 →
  triple True (at_rest mk r0) (register id name t now)
    (λ _, sys_inv (if rg_by_id r0 !! id then unpurged id mk else with_device id (unpurged id mk)))
    (sys_inv (if rg_by_id r0 !! id then unpurged id mk else with_failed id (unpurged id mk))).
Proof.
  intros Hw Hr. unfold register. rewrite (eo_token W HW _ _ Hw). cbn [negb].
  apply t_with_extra. intros r1. apply t_pin. intros d r (-> & Hd & ->).
  destruct (sys_inv_unpurged mk id d r0 (conj Hd Hr)) as [Hd' Hr']. set (mk1 := unpurged id mk) in *.
  destruct (rg_entry id r0) as [[a e]|] eqn:E.
  { destruct (rg_entry_Some _ _ _ _ E) as [-> He].
    destruct (beq _ _ && _ && _); [|by apply t_err; intros ? ? [-> ->]].
    eapply t_conseq; [apply (atomic_write_token_spec mk1 r0)|by intros ? ? [-> ->]| |];
      intros; by eapply at_rest_sys. }
  pose proof (rg_entry_None _ _ (ri_maps _ _ Hr) E) as Hid. rewrite Hid.
  destruct (sys_inv_failed mk1 id d r0 (conj Hd' Hr')) as [Hd1 Hr1].
  case_bool_decide as Et; [by apply t_err; intros ? ? [-> ->]|].
  eapply t_bind.
  { eapply t_conseq; [apply (register_device_spec (with_failed id mk1) r0 HW id name t now Hw); marks
      |by intros ? ? [-> ->]| |].
    - intros a d1 r1 H. exact H.
    - intros; by eapply at_rest_sys. }
  intros []. eapply t_bind.
  { eapply (get_device_spec HW _ id t); [done|]. by intros d1 r1 (_ & _ & ?). }
  intros found. apply t_pure. intros [-> | ->]; [|apply t_err; intros ? ? [? _]; split; [done|by eapply at_rest_sys]].
  apply t_lift_bind, t_set_extra.
  intros d1 r1 ([Hd2 ->] & Hs & Hh). split; [by eapply dev_inv_device|].
  apply (reg_inv_registered mk1 r0 {| di_name := name; di_device_id := id; di_enrolled_at := now;
    di_last_seen := now; di_vaults := []; di_capabilities := []; di_bearer_token := t |}); try done.
  by destruct (rg_by_token r0 !! t) eqn:?; [destruct Et; eexists|].
Qed.

(** ** Revocations *)

Lemma sys_inv_attempt mk id d r : sys_inv mk d r → sys_inv (with_attempt id mk) d r.
Proof. intros [Hd Hr]. split; [apply (dev_inv_marks mk); try done; marks|apply (reg_inv_marks mk); try done; marks]. Qed.

Lemma reg_inv_revoked mk r id a e timestamp :
  reg_inv mk r → rg_by_id r !! id = Some a → rg_heap r !! a = Some e → id ∈ mk_attempted mk →
  reg_inv (with_revoked id mk) (rg_write a (mark_revoked timestamp e) r).
Proof.
  intros Hr Ha He Hin. destruct (rm_id _ (ri_maps _ _ Hr) _ _ Ha) as (e' & E1 & E2 & _).
  assert (e' = e) as -> by congruence.
  destruct (reg_inv_write mk r a e (mark_revoked timestamp e) Hr He) as [H1 H2 Hk H3 H4]; [done..|right; by rewrite E2|].
  split; [done..|marks| |done]. intros id' Hx [->%elem_of_singleton|Hin']%elem_of_union; [|by apply H3].
  exists a, (mark_revoked timestamp e). cbn [rg_write rg_heap rg_by_id]. by rewrite lookup_insert_eq.
Qed.

(** The marker is written and synchronised. *)
Lemma persist_revocation_spec mk r0 id t now :
  W id t → id ∈ mk_attempted mk → now ≤ U64_MAX →
  triple True (at_rest mk r0) (persist_revocation id now)
    (λ timestamp d r, timestamp = now ∧ at_rest mk r0 d r ∧ dir_settled id d ∧ holds_file id RevokedFile (decimal now) d)
    (at_rest mk r0).
Proof.
  intros Hw Ha Hnow. unfold persist_revocation. rewrite (device_dir_id HW _ _ Hw).
  apply t_with_disk. intros d1. destruct (negb _); [by apply t_err; intros ? ? [_ ?]|].
  eapply t_bind.
  { eapply t_conseq; [apply (atomic_write_spec mk r0 id RevokedFile (decimal now))|by intros ? ? [_ ?]
      |intros ? ? ? H; exact H|done]. split; [done|by exists now]. }
  intros []. by apply t_ret.
Qed.

Lemma revoke_spec mk r0 id now :
  reg_inv mk r0 → now ≤ U64_MAX →
  triple True (at_rest mk r0) (revoke id now) (λ _, sys_inv (with_revoked id (with_attempt id mk)))
    (sys_inv (with_attempt id mk)).
Proof.
  intros Hr Hnow. unfold revoke. apply t_with_extra. intros r1. apply t_pin. intros d r (-> & Hd & ->).
  destruct (sys_inv_attempt mk id d r0 (conj Hd Hr)) as [Hd' Hr'].
  destruct (rg_entry id r0) as [[a e]|] eqn:E; [|by apply t_err; intros ? ? [-> ->]].
  destruct (rg_entry_Some _ _ _ _ E) as [Ha He]. destruct (rm_id _ (ri_maps _ _ Hr) _ _ Ha) as (e' & _ & _ & Hw & _).
  eapply t_bind.
  { eapply t_conseq; [apply (persist_revocation_spec (with_attempt id mk) r0 id _ now Hw); [marks|done]
      |by intros ? ? [-> ->]| |].
    - intros timestamp d1 r1 H. exact H.
    - intros; by eapply at_rest_sys. }
  intros timestamp. apply t_pure. intros ->. apply t_set_extra. intros d1 r1 ([Hd1 ->] & Hs & Hh). split.
  - eapply dev_inv_revoked; [done..|]. apply (ri_loaded _ _ Hr'). by eexists.
  - apply reg_inv_revoked; [done..|marks].
Qed.

(** The devices that were purged are not in the registry. *)
Definition apart mk : Prop := mk_purged mk ## mk_loaded mk.

Lemma loaded_known mk r id a :
  reg_inv mk r → apart mk → rg_by_id r !! id = Some a → id ∈ mk_known mk ∧ id ∉ mk_purged mk.
Proof.
  intros Hr Hp Ha. assert (id ∈ mk_loaded mk) as Hl by (apply (ri_loaded _ _ Hr); by eexists).
  split; [by apply (ri_known _ _ Hr)|]. intros ?. by apply (Hp id).
Qed.

Lemma report_capabilities_spec mk r0 id session vault capabilities :
  reg_inv mk r0 → apart mk →
  triple True (at_rest mk r0) (report_capabilities id session vault capabilities) (λ _, sys_inv mk) (sys_inv mk).
Proof.
  intros Hr Hp. assert (∀ d r, at_rest mk r0 d r → sys_inv mk d r) as Hs by (intros; by eapply at_rest_sys).
  unfold report_capabilities. eapply t_bind; [by apply (t_lift _ _ (λ _, at_rest mk r0)); auto|].
  intros caps. apply (t_bind _ _ _ (λ _, at_rest mk r0)).
  { destruct vault; [|by apply t_ret]. eapply t_bind; [by apply (t_lift _ _ (λ _, at_rest mk r0)); auto|].
    intros v. by apply t_ret. }
  intros []. apply t_with_extra. intros r1. apply t_pin. intros d r (-> & Hd & ->).
  destruct (rg_entry id r0) as [[a e]|] eqn:E; [|by apply t_err; intros ? ? [-> ->]].
  destruct (rg_entry_Some _ _ _ _ E) as [Ha He].
  destruct (re_revoked e) eqn:Er; [by apply t_err; intros ? ? [-> ->]|].
  destruct (rm_id _ (ri_maps _ _ Hr) _ _ Ha) as (e' & He' & Hi & Hw & _). assert (e' = e) as -> by congruence.
  destruct (loaded_known mk r0 id a Hr Hp Ha) as [Hk Hn].
  eapply t_bind.
  { eapply t_conseq; [apply (persist_info_spec mk r0 HW)|by intros ? ? [-> ->]|intros ? ? ? [H _]; exact H|done];
      cbn; by rewrite Hi. }
  intros []. apply t_set_extra. intros d1 r1 [Hd1 ->]. split; [done|]. eapply reg_inv_write; [done..|]. by left.
Qed.

(** The entries of a list are still those of the registry, up to what a flush
    or a purge changes. *)
Definition same_entry (e e' : RegistryEntry) : Prop :=
  re_device_id e' = re_device_id e ∧ re_bearer_token e' = re_bearer_token e ∧ re_revoked e' = re_revoked e.
Definition entry_of (r : Registry) (ae : N * RegistryEntry) : Prop :=
  W (re_device_id ae.2) (re_bearer_token ae.2) ∧ rg_by_id r !! re_device_id ae.2 = Some ae.1 ∧
  ∃ e', rg_heap r !! ae.1 = Some e' ∧ same_entry ae.2 e'.
Definition entries_of (l : list (N * RegistryEntry)) (r : Registry) : Prop := Forall (entry_of r) l.

Lemma entries_of_write l r a e e1 :
  entries_of l r → rg_heap r !! a = Some e → same_entry e e1 → entries_of l (rg_write a e1 r).
Proof.
  intros H He (E1 & E2 & E3). eapply Forall_impl; [exact H|]. intros [b eb] (Hw & Hb & e' & E & S1 & S2 & S3).
  split_and!; [done..|]. cbn [fst snd rg_write rg_heap] in *. destruct (decide (b = a)) as [->|Hne].
  - assert (e' = e) as -> by congruence. exists e1. rewrite lookup_insert_eq. repeat split; congruence.
  - exists e'. by rewrite lookup_insert_ne.
Qed.

Lemma rg_entries_of r : reg_maps r → entries_of (rg_entries r) r.
Proof.
  intros Hm. apply Forall_forall. intros [a e] Hin. unfold rg_entries in Hin.
  apply list_elem_of_omap in Hin as ([id b] & Hin & E). cbn [snd] in E.
  destruct (rg_heap r !! b) as [eb|] eqn:Hb; [|done]. cbn in E. injection E as -> ->.
  apply elem_of_map_to_list in Hin. destruct (rm_id r Hm _ _ Hin) as (e' & E1 & E2 & E3 & _).
  assert (e' = e) as -> by congruence. unfold entry_of. cbn. rewrite E2. split_and!; [done..|]. by exists e.
Qed.

Lemma flush_spec mk force now :
  apart mk → triple True (sys_inv mk) (flush_last_seen force now) (λ _, sys_inv mk) (sys_inv mk).
Proof.
  intros Hp. unfold flush_last_seen. apply t_with_extra. intros r0. apply t_pin. intros d r (-> & Hd & Hr).
  generalize (rg_entries_of r0 (ri_maps _ _ Hr)). generalize (rg_entries r0) at 1 2. intros l.
  assert (∀ l' n, l' ⊆ l →
    triple True (λ d r, sys_inv mk d r ∧ entries_of l r) (st_fold (flush_step force now) n l')
      (λ _, sys_inv mk) (sys_inv mk)) as Hfold.
  { induction l' as [|[a e] l' IH]; intros n Hsub; cbn [st_fold]; [apply t_ret; by intros ? ? [? _]|].
    eapply t_bind; [|intros m; apply IH; set_solver].
    assert ((a, e) ∈ l) as Hin by set_solver.
    unfold flush_step. destruct (_ <=? _); [by apply t_ret|]. destruct (_ && _); [by apply t_ret|].
    apply t_pin. intros d1 r1 ([Hd1 Hr1] & Hl).
    pose proof Hl as Hl'. unfold entries_of in Hl'. rewrite Forall_forall in Hl'.
    destruct (Hl' _ Hin) as (Hw & Ha & e' & He' & S1 & S2 & S3). cbn [fst snd] in *.
    destruct (loaded_known mk r1 _ a Hr1 Hp Ha) as [Hk Hn].
    eapply t_bind.
    { eapply t_conseq; [by apply (persist_info_spec mk r1 HW)|by intros ? ? [-> ->]|intros ? ? ? [H _]; exact H|].
      intros; by eapply at_rest_sys. }
    intros []. apply (t_bind _ _ _ (λ _ d r, sys_inv mk d r ∧ entries_of l r)); [|intros ?; by apply t_ret].
    apply t_set_extra. intros d2 r2 [Hd2 ->]. split; [split; [done|]|].
    - eapply reg_inv_write; [done..| | |]; [done..|]. cbn. left. congruence.
    - by eapply entries_of_write. }
  intros Hl. eapply t_pre; [by apply Hfold|]. by intros ? ? [-> ->].
Qed.

(** ** Purging *)

Lemma remove_file_contents f c : Some c ∈ sd_contents (dd_remove_file f) → Some c ∈ sd_contents f.
Proof.
  unfold dd_remove_file. destruct (sd_visible f); [|done]. rewrite sd_set_elem. by intros [?|?].
Qed.

Lemma dev_inv_lossy mk id f d :
  id ∈ mk_expired mk → dev_inv mk d →
  (∀ x k c, Some c ∈ sd_contents (dd_file k (f x)) → Some c ∈ sd_contents (dd_file k x)) →
  dev_inv mk (dk_update id f d).
Proof. intros He Hd Hf. apply dev_inv_update; [done|]. intros Hx. apply (dir_inv_expired mk id (dk_dir id d)); auto. Qed.

Lemma remove_some_contents n x k c :
  Some c ∈ sd_contents (dd_file k (dd_remove_some n x)) → Some c ∈ sd_contents (dd_file k x).
Proof. unfold dd_remove_some. rewrite dd_file_map. destruct (N.testbit _ _); [apply remove_file_contents|done]. Qed.

Lemma remove_all_contents x k c :
  Some c ∈ sd_contents (dd_file k (dd_remove_all x)) → Some c ∈ sd_contents (dd_file k x).
Proof. destruct k; apply remove_file_contents. Qed.

Lemma sys_inv_expired mk ids d r : sys_inv mk d r → sys_inv (with_expired ids mk) d r.
Proof. intros [Hd Hr]. split; [apply (dev_inv_marks mk); try done; marks|apply (reg_inv_marks mk); try done; marks]. Qed.

(** The removal of the directory is durable: no record comes back. *)
Lemma dev_inv_gone mk id d :
  dev_inv (with_expired {[id]} mk) d → (id ∉ mk_expired mk → dk_dir id d = dd_absent) →
  dev_inv (with_gone {[id]} mk) d.
Proof.
  intros Hd Ha name. destruct (decide (name = id)) as [->|Hne].
  - destruct (decide (id ∈ mk_expired mk)) as [He|He].
    + apply (dir_inv_marks (with_expired {[id]} mk)); [apply Hd|..]; marks.
    + rewrite (Ha He). apply dir_inv_absent. marks.
  - apply (dir_inv_marks (with_expired {[id]} mk)); [apply Hd|..]; marks.
Qed.

Lemma get_device_keeps {F} (P E : DeviceDisk → Registry → Prop) id : triple F P (get_device id) (λ _, P) E.
Proof.
  unfold get_device. eapply t_bind.
  { apply (t_os_result _ _ (λ _, P)). eapply t_conseq; [apply (read_file_spec P (device_dir id) JsonFile P)|done| |].
    - by intros ? ? _.
    - by intros ? ? ? [_ ?].
    - by intros ? ? ? _ ?. }
  intros found. by apply t_ret.
Qed.

Lemma delete_device_spec mk r0 id t :
  W id t → id ∈ mk_loaded mk →
  triple True (at_rest mk r0) (delete_device id) (λ _, at_rest (with_gone {[id]} mk) r0)
    (at_rest (with_expired {[id]} mk) r0).
Proof.
  intros Hw Hl. set (mk1 := with_expired {[id]} mk).
  assert (id ∈ mk_expired mk1) as He by marks.
  set (kept := λ d r, at_rest mk1 r0 d r ∧ (id ∉ mk_expired mk → dd_exists (dk_dir id d) = true)).
  assert (∀ d r, kept d r → at_rest mk1 r0 d r) as Hkept by (by intros ? ? [? _]).
  unfold delete_device. rewrite (device_dir_id HW _ _ Hw). apply (t_pre _ _ kept).
  2:{ intros d r [Hd ->]. split; [|intros Hx; by apply (dir_loaded _ _ _ (Hd id))].
      split; [|done]. apply (dev_inv_marks mk); try done. marks. }
  eapply t_bind; [apply (get_device_keeps kept (at_rest mk1 r0))|]. intros found.
  apply (t_bind _ _ _ (λ _, kept)).
  { destruct found as [info|]; [|by apply t_ret]. apply (t_bind _ _ _ (λ _, kept)).
    - apply t_os_result, t_os_try; [done|]. by intros d r _ H _.
    - intros _. apply t_os_result, t_os_try; [done|]. by intros d r _ H _. }
  intros _. apply t_with_disk. intros d0. destruct (dd_exists (dk_dir id d0)) eqn:Ex.
  - apply (t_bind _ _ _ (λ _ d r, at_rest mk1 r0 d r ∧ dd_exists (dk_dir id d) = false)).
    + apply t_os_call.
      * intros d r (_ & [Hd ->] & _). split; [split; [|done]|by rewrite dk_dir_update, decide_True].
        apply dev_inv_lossy; [done..|]. apply remove_all_contents.
      * intros n d r _ (_ & [Hd ->] & _). split; [|done].
        apply dev_inv_lossy; [done..|]. apply remove_some_contents.
    + intros []. apply t_os_try; [|by intros d r _ [? _]]. intros d r [[Hd ->] Hx]. split; [|done].
      apply dev_inv_gone; [by apply dev_inv_sync|]. intros _. rewrite dk_dir_sync. unfold dd_link. by rewrite Hx.
  - apply t_ret. intros d r (-> & [Hd ->] & Hx). split; [|done]. apply dev_inv_gone; [done|].
    intros Hn. apply Hx in Hn. congruence.
Qed.

(** What a purge finds expired. *)
Definition expired_entry (ttl_ms now : N) (e : RegistryEntry) : bool :=
  re_revoked e && negb (re_revoked_at e =? 0) && (ttl_ms <=? now - re_revoked_at e).
Definition expired_of (ttl_ms now : N) (l : list (N * RegistryEntry)) : list bytes :=
  omap (λ ae, if expired_entry ttl_ms now ae.2 then Some (re_device_id ae.2) else None) l.
Definition ids_of (l : list (N * RegistryEntry)) : list bytes := (λ ae, re_device_id ae.2) <$> l.

Lemma entries_NoDup r : reg_maps r → NoDup (ids_of (rg_entries r)).
Proof.
  intros Hm. unfold rg_entries, ids_of. pose proof (NoDup_fst_map_to_list (rg_by_id r)) as Hnd.
  assert (∀ y, y ∈ map_to_list (rg_by_id r) → rg_by_id r !! y.1 = Some y.2) as Hin
    by (intros [id a]; apply elem_of_map_to_list).
  assert (∀ l, (∀ y, y ∈ l → rg_by_id r !! y.1 = Some y.2) →
    ((λ ae : N * RegistryEntry, re_device_id ae.2) <$>
      omap (λ y : bytes * N, e ← rg_heap r !! y.2; Some (y.2, e)) l) = l.*1) as ->; [|done|done].
  clear Hnd Hin. induction l as [|[id a] l IH]; intros Hin; [done|]. csimpl.
  destruct (rm_id r Hm id a (Hin (id, a) (list_elem_of_here _ _))) as (e & E & Ei & _). rewrite E. csimpl. rewrite Ei. f_equal. apply IH.
  intros y Hy. apply Hin. by right.
Qed.

(** Removed from the registry. *)
Lemma reg_maps_remove r id : reg_maps r → reg_maps (rg_remove r id).
Proof.
  intros Hm. unfold rg_remove. destruct (rg_entry id r) as [[a e]|] eqn:E; [|done].
  destruct (rg_entry_Some _ _ _ _ E) as [Ha He]. destruct (rm_id r Hm _ _ Ha) as (e' & E1 & E2 & E3 & E4).
  assert (e' = e) as -> by congruence. destruct Hm as [H1 H2 H3].
  split; cbn [rg_heap rg_by_token rg_by_id rg_next].
  - intros t a' [Hne Ha']%lookup_delete_Some. destruct (H1 t a' Ha') as (e1 & F1 & F2 & F3).
    assert (a' ≠ a) by (intros ->; congruence). exists e1. rewrite lookup_insert_ne by done. split_and!; [done..|].
    rewrite lookup_delete_ne; [done|]. intros F. rewrite <-F in F3. congruence.
  - intros id' a' [Hne Ha']%lookup_delete_Some. destruct (H2 id' a' Ha') as (e1 & F1 & F2 & F3 & F4).
    assert (a' ≠ a) by (intros ->; congruence). exists e1. rewrite lookup_insert_ne by done. split_and!; [done..|].
    rewrite lookup_delete_ne; [done|]. intros F. rewrite <-F in F4. congruence.
  - intros a' Ha'. destruct (decide (a' = a)) as [->|Hne]; [apply H3; by eexists|].
    rewrite lookup_insert_ne in Ha' by done. by apply H3.
Qed.

Lemma rg_remove_by_id r id : reg_maps r → rg_by_id (rg_remove r id) = delete id (rg_by_id r).
Proof.
  intros Hm. unfold rg_remove. destruct (rg_entry id r) as [[a e]|] eqn:E; [done|].
  by rewrite delete_id by by apply rg_entry_None.
Qed.

Lemma rg_remove_heap r id id' a : reg_maps r → id' ≠ id → rg_by_id r !! id' = Some a →
  rg_heap (rg_remove r id) !! a = rg_heap r !! a.
Proof.
  intros Hm Hne Ha. unfold rg_remove. destruct (rg_entry id r) as [[a' e]|] eqn:E; [|done].
  destruct (rg_entry_Some _ _ _ _ E) as [Ha' He]. destruct (rm_id r Hm _ _ Ha) as (e1 & F1 & F2 & _).
  destruct (rm_id r Hm _ _ Ha') as (e2 & G1 & G2 & _). cbn [rg_heap]. rewrite lookup_insert_ne; [done|]. congruence.
Qed.

Lemma reg_inv_remove mk r id :
  reg_inv mk r → id ∈ mk_expired mk → reg_inv (with_removed {[id]} mk) (rg_remove r id).
Proof.
  intros [Hm Hl Hk Hv Ha] He. split; [by apply reg_maps_remove| |marks|..].
  - intros id'. rewrite rg_remove_by_id by done. cbn. rewrite elem_of_difference, elem_of_singleton, <-Hl.
    destruct (decide (id' = id)) as [->|Hne].
    + rewrite lookup_delete_eq. split; [by intros [? ?]|naive_solver].
    + rewrite lookup_delete_ne by done. naive_solver.
  - intros id' Hx Hin. assert (id' ≠ id) as Hne by (intros ->; by apply Hx).
    destruct (Hv id' Hx Hin) as (a & e & E1 & E2 & E3). exists a, e.
    rewrite rg_remove_by_id, lookup_delete_ne by done. by rewrite (rg_remove_heap r id id' a).
  - intros id' a e. rewrite rg_remove_by_id by done. intros [Hne E1]%lookup_delete_Some E2.
    rewrite (rg_remove_heap r id id' a) in E2 by done. by apply (Ha id' a e).
Qed.

Lemma reg_inv_removes mk r ids :
  reg_inv mk r → list_to_set ids ⊆ mk_expired mk → reg_inv (with_removed (list_to_set ids) mk) (foldl rg_remove r ids).
Proof.
  revert mk r. induction ids as [|id ids IH]; intros mk r Hr Hs; cbn [foldl].
  - apply (reg_inv_marks mk); try done. cbn. set_solver.
  - apply (reg_inv_remove mk r id) in Hr; [|cbn in Hs; set_solver].
    apply IH in Hr; [|cbn in *; set_solver]. eapply reg_inv_marks; [exact Hr|..]; try done. cbn. set_solver.
Qed.

(** One turn of the loop: an expired device is gone, or the purge fails and
    nothing is known of it. *)
Lemma purge_step_spec mk l ids ttl_ms now ae :
  now ≤ U64_MAX → ae ∈ l →
  let new := list_to_set (expired_of ttl_ms now [ae]) in
  triple True (λ d r, sys_inv mk d r ∧ entries_of l r) (purge_step ttl_ms now ids ae)
    (λ ids' d r, ids' = ids ++ expired_of ttl_ms now [ae] ∧ sys_inv (with_gone new mk) d r ∧ entries_of l r)
    (sys_inv (with_expired new mk)).
Proof.
  intros Hnow Hin. destruct ae as [a e]. unfold expired_of, expired_entry. csimpl.
  assert (∀ d r, sys_inv mk d r → sys_inv (with_gone ∅ mk) d r ∧ sys_inv (with_expired ∅ mk) d r) as Hsame.
  { intros d r [Hd Hr]. split; (split; [apply (dev_inv_marks mk); try done; marks|apply (reg_inv_marks mk); try done; marks]). }
  apply t_pin. intros d1 r1 ([Hd Hr] & Hl). pose proof Hl as Hl'. unfold entries_of in Hl'. rewrite Forall_forall in Hl'.
  destruct (Hl' _ Hin) as (Hw & Ha & e' & He' & S1 & S2 & S3). cbn [fst snd] in *.
  destruct (re_revoked e) eqn:Er; csimpl.
  2:{ apply t_ret. intros d r [-> ->]. rewrite app_nil_r. split_and!; [done|by apply Hsame|done]. }
  destruct (re_revoked_at e =? 0) eqn:Ez; csimpl.
  { assert (re_device_id e ∈ mk_attempted mk) as Hat by (eapply (ri_attempted _ _ Hr); [exact Ha|exact He'|congruence]).
    eapply t_bind.
    { eapply t_conseq; [apply (persist_revocation_spec mk r1 _ _ now Hw Hat Hnow)|by intros ? ? [-> ->]|intros ? ? ? H; exact H|].
      intros d r [? ->]. by apply Hsame. }
    intros timestamp. apply t_pure. intros ->.
    apply (t_bind _ _ _ (λ _ d r, sys_inv (with_gone ∅ mk) d r ∧ entries_of l r)).
    - apply t_set_extra. intros d r ([Hd2 ->] & _).
      split; [|eapply entries_of_write; [done..|repeat split; cbn; congruence]].
      apply Hsame. split; [done|]. eapply reg_inv_write; [done..| | |]; [done..|]. left. cbn. congruence.
    - intros []. apply t_ret. intros d r H. by rewrite app_nil_r. }
  destruct (ttl_ms <=? now - re_revoked_at e) eqn:Et; csimpl.
  2:{ apply t_ret. intros d r [-> ->]. rewrite app_nil_r. split_and!; [done|by apply Hsame|done]. }
  rewrite union_empty_r_L.
  assert (re_device_id e ∈ mk_loaded mk) as Hlo by (apply (ri_loaded _ _ Hr); by eexists).
  eapply t_bind.
  { eapply t_conseq; [apply (delete_device_spec mk r1 _ _ Hw Hlo)|by intros ? ? [-> ->]|intros ? ? ? H; exact H|].
    intros d r [? ->]. split; [done|]. apply (reg_inv_marks mk); try done. marks. }
  intros []. apply t_ret. intros d r [Hd2 ->]. rewrite union_empty_r_L. split_and!; [done| |done].
  split; [done|]. apply (reg_inv_marks mk); try done. marks.
Qed.

Lemma purge_fold_spec mk l l' ids ttl_ms now :
  now ≤ U64_MAX → l' ⊆ l → NoDup (ids_of l') →
  triple True (λ d r, sys_inv mk d r ∧ entries_of l r) (st_fold (purge_step ttl_ms now) ids l')
    (λ ids' d r, ids' = ids ++ expired_of ttl_ms now l' ∧
       sys_inv (with_gone (list_to_set (expired_of ttl_ms now l')) mk) d r)
    (sys_inv (with_expired (list_to_set (expired_of ttl_ms now l')) mk)).
Proof.
  intros Hnow. revert mk ids. induction l' as [|ae l' IH]; intros mk ids Hsub Hnd; cbn [st_fold].
  { apply t_ret. intros d r [[Hd Hr] _]. rewrite app_nil_r. split; [done|].
    split; [apply (dev_inv_marks mk); try done; marks|apply (reg_inv_marks mk); try done; marks]. }
  assert (expired_of ttl_ms now (ae :: l') = expired_of ttl_ms now [ae] ++ expired_of ttl_ms now l') as ->.
  { unfold expired_of. csimpl. by destruct (expired_entry _ _ _). }
  unfold ids_of in Hnd. rewrite fmap_cons in Hnd. apply NoDup_cons in Hnd as [Hn Hnd].
  assert (expired_of ttl_ms now [ae] ## expired_of ttl_ms now l') as Hdis.
  { intros id H1 H2. unfold expired_of in *. apply list_elem_of_omap in H1 as (ae1 & ->%list_elem_of_singleton & E1).
    apply list_elem_of_omap in H2 as (ae2 & Hin & E2). apply Hn, list_elem_of_fmap. exists ae2.
    destruct (expired_entry _ _ ae.2), (expired_entry _ _ ae2.2); naive_solver. }
  rewrite list_to_set_app_L. eapply t_bind.
  { eapply t_conseq; [apply (purge_step_spec mk l ids ttl_ms now ae Hnow)|done|intros ? ? ? H; exact H|].
    - set_solver.
    - intros d r [Hd Hr]. split.
      + eapply dev_inv_marks; [exact Hd|..]; try done. marks.
      + eapply reg_inv_marks; [exact Hr|..]; try done. marks. }
  intros ids1. apply t_pure. intros ->. 
  eapply t_conseq; [apply (IH (with_gone (list_to_set (expired_of ttl_ms now [ae])) mk)); [set_solver|done]|done| |].
  - intros ids' d r [-> [Hd Hr]]. rewrite <-app_assoc. split; [done|]. split.
    + eapply dev_inv_marks; [exact Hd|..]; try done; cbn; set_solver.
    + eapply reg_inv_marks; [exact Hr|..]; try done; cbn; set_solver.
  - intros d r [Hd Hr]. split.
    + eapply dev_inv_marks; [exact Hd|..]; try done; cbn; set_solver.
    + eapply reg_inv_marks; [exact Hr|..]; try done; cbn; set_solver.
Qed.

Definition ttl_ms_of (ttl_secs : N) : N := N.min (ttl_secs * 1000) U64_MAX.
Definition expired_ids (ttl_secs now : N) (r : Registry) : gset bytes :=
  list_to_set (expired_of (ttl_ms_of ttl_secs) now (rg_entries r)).

Lemma expired_attempted mk ttl now r : reg_inv mk r → expired_ids ttl now r ⊆ mk_attempted mk.
Proof.
  intros Hr id Hin. unfold expired_ids, expired_of in Hin.
  apply elem_of_list_to_set, list_elem_of_omap in Hin as ([a e] & Hin & E). cbn [snd] in E.
  destruct (expired_entry _ _ e) eqn:Ee; [|done]. injection E as <-.
  unfold expired_entry in Ee. apply andb_prop in Ee as [[Ee _]%andb_prop _].
  pose proof (rg_entries_of r (ri_maps _ _ Hr)) as Hl. unfold entries_of in Hl. rewrite Forall_forall in Hl.
  destruct (Hl _ Hin) as (_ & Ha & e' & He' & _ & _ & S3). cbn [fst snd] in *.
  eapply (ri_attempted _ _ Hr); [exact Ha|exact He'|congruence].
Qed.

Lemma purge_spec mk r0 ttl now :
  reg_inv mk r0 → now ≤ U64_MAX →
  triple True (at_rest mk r0) (purge_expired_revoked ttl now)
    (λ _, sys_inv (with_removed (expired_ids ttl now r0) (with_gone (expired_ids ttl now r0) mk)))
    (sys_inv (with_expired (expired_ids ttl now r0) mk)).
Proof.
  intros Hr Hnow. unfold purge_expired_revoked. apply t_with_extra. intros r1. apply t_pin. intros d r (-> & Hd & ->).
  fold (ttl_ms_of ttl). unfold expired_ids. eapply t_bind.
  { eapply t_conseq; [apply (purge_fold_spec mk (rg_entries r0) (rg_entries r0) [] (ttl_ms_of ttl) now Hnow)| | |].
    - done.
    - apply entries_NoDup, Hr.
    - intros ? ? [-> ->]. split; [done|]. apply rg_entries_of, Hr.
    - intros ? ? ? H. exact H.
    - done. }
  intros ids. apply t_pure. cbn [app]. intros ->.
  apply (t_bind _ _ _ (λ _, sys_inv (with_removed (list_to_set (expired_of (ttl_ms_of ttl) now (rg_entries r0)))
    (with_gone (list_to_set (expired_of (ttl_ms_of ttl) now (rg_entries r0))) mk)))); [|intros ?; by apply t_ret].
  apply t_set_extra. intros d1 r1 [Hd1 Hr1]. split.
  - eapply dev_inv_marks; [exact Hd1|..]; try done. cbn. set_solver.
  - apply reg_inv_removes; [done|]. cbn. set_solver.
Qed.

(** ** The one-time grant *)

Lemma grant_spec mk r0 id t ttl now :
  W id t → reg_inv mk r0 →
  triple True (at_rest mk r0) (grant_deletion_bypass id ttl now) (λ _, sys_inv (with_grant id mk))
    (sys_inv (with_grant id mk)).
Proof.
  intros Hw Hr. unfold grant_deletion_bypass. rewrite (device_dir_id HW _ _ Hw).
  assert (reg_inv (with_grant id mk) r0) by (by apply (reg_inv_marks mk)).
  eapply t_conseq; [apply (atomic_write_spec (with_grant id mk) r0 id BypassFile)| | |].
  - cbn. set_solver.
  - intros d r [Hd ->]. split; [|done]. apply (dev_inv_marks mk); try done. marks.
  - intros _ d r [? _]. by eapply at_rest_sys.
  - intros d r ?. by eapply at_rest_sys.
Qed.

Lemma unset_contents name d :
  let x := dk_dir name (dk_update name dd_sync (dk_update name (dd_set BypassFile None) d)) in
  sd_contents (dd_bypass x) = [None].
Proof.
  cbn zeta. rewrite !dk_dir_update, !decide_True by done. unfold dd_set, dd_sync. cbn [dd_map dd_bypass].
  rewrite bool_decide_eq_true_2 by done. unfold sd_contents, sd_sync. cbn [sd_durable sd_pending].
  by rewrite sd_set_visible.
Qed.

(** A grant that is used was there, and its removal is durable. *)
Lemma consume_spec mk r0 id t now :
  W id t → reg_inv mk r0 →
  triple True (at_rest mk r0) (consume_deletion_bypass id now)
    (λ used d r, sys_inv (if used : bool then with_spent id mk else mk) d r ∧ (used = true → id ∈ mk_bypass mk))
    (λ _ _, False).
Proof.
  intros Hw Hr. unfold consume_deletion_bypass. rewrite (device_dir_id HW _ _ Hw).
  assert (reg_inv (with_spent id mk) r0) as Hr' by (by apply (reg_inv_marks mk)).
  apply t_with_disk. intros d0. apply t_pin. intros d1 r1 (-> & Hd & ->).
  destruct (sd_visible (dd_bypass (dk_dir id d0))) as [value|] eqn:Ev; [|apply t_ret; by intros ? ? [-> ->]].
  assert (id ∈ mk_bypass mk) as Hin by by apply (visible_file_ok mk d0 Hd id BypassFile value).
  assert (dev_inv mk (dk_update id (dd_set BypassFile None) d0)) as Hd1.
  { apply dev_inv_update; [done|]. apply dir_inv_unset. }
  set (d2 := dk_update id (dd_set BypassFile None) d0) in *.
  apply (t_bind _ _ _ (λ (res : result string unit) d r, r = r0 ∧ if res then d = d2 else d = d0)).
  { apply t_os_result. apply t_os_try; [by intros ? ? [-> ->]|]. by intros ? ? _ [-> ->]. }
  intros [u|err]; [|apply t_ret; by intros ? ? [-> ->]].
  apply (t_bind _ _ _ (λ _ d r, r = r0 ∧ d = d2)); [apply t_os_result, t_os_read; by intros ? ? _ H _ e|].
  intros found. apply (t_bind _ _ _ (λ _ d r, r = r0 ∧ d = d2)); [apply t_os_result, t_os_read; by intros ? ? _ H _ e|].
  intros removed.
  apply (t_bind _ _ _ (λ (res : result string unit) d r, r = r0 ∧ if res then d = dk_update id dd_sync d2 else d = d2)).
  { apply t_os_result. apply t_os_try; [by intros ? ? [-> ->]|]. by intros ? ? _ [-> ->]. }
  intros [u'|err]; [|apply t_ret; by intros ? ? [-> ->]].
  assert (dev_inv mk (dk_update id dd_sync d2)) as Hd2.
  { apply dev_inv_update; [done|]. apply dir_inv_sync. }
  destruct found as [|err]; [|apply t_ret; by intros ? ? [-> ->]].
  apply t_ret. intros ? ? [-> ->]. split; [|done].
  destruct (_ && _); [|done]. split; [|done]. apply dev_inv_spent; [done|]. apply unset_contents.
Qed.
End operations.
End inv.
