(* ===== verification/DevicesCrash.v ===== *)
(** The life of the devices of a server: requests, purges, faults, restarts and
    crashes in any order. A revoked device is never authenticated again until
    a purge finds it expired, nor after that purge when it succeeds; a
    registered one is authenticated after every restart until somebody tries
    to revoke it, and a one-time grant is spent once.

    What becomes of a device whose purge fails is left open: it may be back
    ([purge_can_unrevoke]). So is a registration that failed, left its record
    unsynchronised and was acknowledged when it was retried
    ([retried_registration_lost]).

    Devices on concrete disks: a life of two devices, and the runs in which a
    purge and a retried registration go wrong. *)

From S2P Require Import Prelude Bytes Text Keyed Hash Concrete StorageLayout RootHead Faults Devices DevicesProps.
Local Open Scope N_scope.

(** * The machine *)

(** What the callers of the operations were told:
    - the devices whose registration was acknowledged, the ones whose record an
      acknowledged registration wrote, and the ones whose registration failed;
    - the ones whose revocation was acknowledged, and was tried;
    - the ones a purge found expired, and the ones whose first such purge
      succeeded and that nobody has tried to register since;
    - the grants that were requested, the failed ones too, and the used ones. *)
Record History := {
  h_acked : gset bytes;
  h_registered : gset bytes;
  h_failed : gset bytes;
  h_revoked : gset bytes;
  h_attempted : gset bytes;
  h_expired : gset bytes;
  h_purged : gset bytes;
  h_granted : list bytes;
  h_used : list bytes;
}.

#[global] Instance h_settable : Settable History := λ h,
  {| h_acked := h_acked h; h_registered := h_registered h; h_failed := h_failed h; h_revoked := h_revoked h;
     h_attempted := h_attempted h; h_expired := h_expired h; h_purged := h_purged h;
     h_granted := h_granted h; h_used := h_used h |}.

Definition h_empty : History :=
  {| h_acked := ∅; h_registered := ∅; h_failed := ∅; h_revoked := ∅; h_attempted := ∅; h_expired := ∅;
     h_purged := ∅; h_granted := []; h_used := [] |}.

(** A registration is tried; it is acknowledged, and wrote the record unless the
    registry had the device; it fails, and may have written something unless
    the registry had the device. *)
Definition h_enroll (id : bytes) (h : History) : History := h <| h_purged := h_purged h ∖ {[id]} |>.
Definition h_register (present : bool) (id : bytes) (h : History) : History :=
  let h := h_enroll id h <| h_acked := {[id]} ∪ h_acked h |> in
  if present then h else h <| h_registered := {[id]} ∪ h_registered h |>.
Definition h_refuse (present : bool) (id : bytes) (h : History) : History :=
  let h := h_enroll id h in
  if present then h else h <| h_failed := {[id]} ∪ h_failed h |>.
Definition h_attempt (id : bytes) (h : History) : History := h <| h_attempted := {[id]} ∪ h_attempted h |>.
Definition h_revoke (id : bytes) (h : History) : History := h <| h_revoked := {[id]} ∪ h_revoked h |>.
Definition h_expire (ids : gset bytes) (h : History) : History := h <| h_expired := ids ∪ h_expired h |>.
Definition h_purge (ids : gset bytes) (h : History) : History :=
  h <| h_expired := ids ∪ h_expired h |> <| h_purged := (ids ∖ h_expired h) ∪ h_purged h |>.
Definition h_grant (id : bytes) (h : History) : History := h <| h_granted := id :: h_granted h |>.
Definition h_use (id : bytes) (h : History) : History := h <| h_used := id :: h_used h |>.

(** The disk, the registry of the process when one runs, and the history. *)
Record DeviceSystem := { ds_disk : DeviceDisk; ds_registry : option Registry; ds_history : History }.

Definition ds_start : DeviceSystem := {| ds_disk := dk_empty; ds_registry := None; ds_history := h_empty |}.

Section machine.
Context {B3 : Blake3} {HX : Hex} {DJ : DeviceJson} (W : bytes → bytes → Prop).

(** After an operation: its history when it succeeds, or when it fails. *)
Definition after {A} (ok : A → History) (failed : History) (res : result string A * DeviceWorld) : DeviceSystem :=
  {| ds_disk := w_disk (snd res); ds_registry := Some (w_extra (snd res));
     ds_history := match fst res with Ok a => ok a | Err _ => failed end |}.
Definition started (h : History) (res : result string Registry * DeviceWorld) : DeviceSystem :=
  {| ds_disk := w_disk (snd res); ds_registry := match fst res with Ok r => Some r | Err _ => None end;
     ds_history := h |}.
Definition running d r h : DeviceSystem := {| ds_disk := d; ds_registry := Some r; ds_history := h |}.
Definition stopped d h : DeviceSystem := {| ds_disk := d; ds_registry := None; ds_history := h |}.

Inductive device_step : DeviceSystem → DeviceSystem → Prop :=
  | step_load d h mtime fates :
      device_step (stopped d h) (started h (load mtime (world d fates rg_empty)))
  | step_authenticate d r h token now :
      device_step (running d r h) (running d (snd (authenticate token now r)) h)
  | step_register d r h id name t now fates :
      W id t →
      device_step (running d r h)
        (after (λ _, h_register (bool_decide (is_Some (rg_by_id r !! id))) id h)
               (h_refuse (bool_decide (is_Some (rg_by_id r !! id))) id h)
               (register id name t now (world d fates r)))
  | step_revoke d r h id now fates :
      now ≤ U64_MAX →
      device_step (running d r h)
        (after (λ _, h_revoke id (h_attempt id h)) (h_attempt id h) (revoke id now (world d fates r)))
  | step_purge d r h ttl now fates :
      now ≤ U64_MAX →
      device_step (running d r h)
        (after (λ _, h_purge (expired_ids ttl now r) h) (h_expire (expired_ids ttl now r) h)
               (purge_expired_revoked ttl now (world d fates r)))
  | step_report d r h id session vault capabilities fates :
      device_step (running d r h)
        (after (λ _, h) h (report_capabilities id session vault capabilities (world d fates r)))
  | step_flush d r h force now fates :
      device_step (running d r h) (after (λ _, h) h (flush_last_seen force now (world d fates r)))
  | step_grant d r h id t ttl now fates :
      W id t →
      device_step (running d r h)
        (after (λ _, h_grant id h) (h_grant id h) (grant_deletion_bypass id ttl now (world d fates r)))
  | step_consume d r h id t now fates :
      W id t →
      device_step (running d r h)
        (after (λ used : bool, if used then h_use id h else h) h (consume_deletion_bypass id now (world d fates r)))
  | step_exit d r h : device_step (running d r h) (stopped d h)
  | step_crash d d' reg h :
      dk_survives d d' →
      device_step {| ds_disk := d; ds_registry := reg; ds_history := h |} (stopped d' h).

Definition device_reachable : DeviceSystem → Prop := rtc device_step ds_start.

(** * The invariant *)

Definition times (id : bytes) (l : list bytes) : nat := length (filter (λ x, x = id) l).

Definition marks_of (h : History) (loaded bypass : gset bytes) : Marks :=
  {| mk_loaded := loaded; mk_registered := h_registered h ∪ h_revoked h; mk_failed := h_failed h;
     mk_revoked := h_revoked h; mk_attempted := h_attempted h; mk_expired := h_expired h;
     mk_purged := h_purged h; mk_bypass := bypass |}.

(** An acknowledgement is for a device somebody registered; a device is revoked
    or expires only when its revocation was tried. *)
Record history_ok (h : History) : Prop := {
  ho_acked : h_acked h ⊆ h_registered h ∪ h_revoked h ∪ h_failed h;
  ho_revoked : h_revoked h ⊆ h_attempted h;
  ho_expired : h_expired h ⊆ h_attempted h;
}.

Definition grants_ok (h : History) (bypass : gset bytes) : Prop :=
  ∀ id, (times id (h_used h) ≤ times id (h_granted h))%nat ∧
    (id ∈ bypass → (times id (h_used h) < times id (h_granted h))%nat).

Definition system_inv (s : DeviceSystem) : Prop :=
  ∃ loaded bypass, let mk := marks_of (ds_history s) loaded bypass in
    history_ok (ds_history s) ∧ grants_ok (ds_history s) bypass ∧ dev_inv W mk (ds_disk s) ∧
    match ds_registry s with Some r => reg_inv W mk r ∧ apart mk | None => True end.

Lemma times_cons id id' l : times id (id' :: l) = ((if decide (id' = id) then 1 else 0) + times id l)%nat.
Proof. unfold times. rewrite filter_cons. by case_decide. Qed.

Lemma grants_ok_grant h bypass id : grants_ok h bypass → grants_ok (h_grant id h) ({[id]} ∪ bypass).
Proof.
  intros H id'. destruct (H id') as [H1 H2]. cbn [h_grant h_use h_granted h_used update_field rebuild h_settable]. rewrite times_cons.
  split; [case_decide; lia|]. rewrite elem_of_union, elem_of_singleton.
  intros [->|Hin]; [rewrite decide_True by done; lia|]. specialize (H2 Hin). case_decide; lia.
Qed.

Lemma grants_ok_use h bypass id : grants_ok h bypass → id ∈ bypass → grants_ok (h_use id h) (bypass ∖ {[id]}).
Proof.
  intros H Hin id'. destruct (H id') as [H1 H2]. cbn [h_grant h_use h_granted h_used update_field rebuild h_settable]. rewrite times_cons.
  rewrite elem_of_difference, elem_of_singleton. case_decide; [subst|].
  - specialize (H2 Hin). split; [lia|]. by intros [_ []].
  - split; [lia|]. intros [? _]. auto.
Qed.

Lemma system_inv_intro d r h loaded bypass mk :
  history_ok h → grants_ok h bypass → marks_of h loaded bypass = mk → apart mk → sys_inv W mk d r →
  system_inv (running d r h).
Proof. intros Hh Hg <- Ha [Hd Hr]. by exists loaded, bypass. Qed.

Lemma system_inv_after {A} (m : Dev A) d r fates (ok : A → History) failed Q E :
  triple True (λ d' r', d' = d ∧ r' = r) m Q E →
  (∀ a d' r', Q a d' r' → system_inv (running d' r' (ok a))) →
  (∀ d' r', E d' r' → system_inv (running d' r' failed)) →
  system_inv (after ok failed (m (world d fates r))).
Proof.
  intros Ht HQ HE. pose proof (triple_run True _ _ _ _ d fates r Ht (λ _, I) (conj eq_refl eq_refl)) as H.
  unfold after. destruct (m (world d fates r)) as [[a|e] w]; cbn [fst snd].
  - by apply HQ.
  - destruct H as [_ H]. by apply HE.
Qed.

Context (HW : enrollment_ok W).

Lemma dev_inv_unloaded mk d : dev_inv W mk d → dev_inv W (unloaded mk) d.
Proof. intros H. by apply (dev_inv_marks W mk). Qed.

(** A device that is revoked for good is loaded with its marker. *)
Lemma start_revoked h bypass d id :
  dev_inv W (marks_of h ∅ bypass) d → id ∉ h_expired h → id ∈ h_revoked h →
  id ∈ names_loaded d ∧ is_Some (marker_at d id).
Proof.
  intros Hd Hx Hin. set (mk := marks_of h ∅ bypass) in *. destruct (Hd id) as [H1 _ H3 H4].
  destruct (H4 Hx Hin) as [Hg Hn]. destruct (H3 Hx Hg) as (E1 & _ & E3).
  destruct (sd_visible (dd_json (dk_dir id d))) as [c|] eqn:Ec.
  2:{ destruct E3. rewrite <-Ec. apply sd_visible_contents. }
  destruct (visible_file_ok W mk d Hd id JsonFile c Ec) as (_ & _ & i & _ & _ & Hw).
  split; [apply (names_loaded_iff W mk d HW Hd _ _ Hw); split; [done|]; by rewrite Ec|].
  apply (marker_at_iff W mk d Hd). destruct (sd_visible (dd_revoked (dk_dir id d))) as [c'|] eqn:Ec'; [done|].
  destruct Hn. rewrite <-Ec'. apply sd_visible_contents.
Qed.

Lemma loaded_info mk d id : dev_inv W mk d → id ∈ names_loaded d → ∃ info, info_at d id = Some info.
Proof.
  intros Hd Hin. unfold names_loaded in Hin. apply elem_of_list_to_set, list_elem_of_fmap in Hin as (info & -> & Hin).
  apply list_elem_of_omap in Hin as (n & _ & E). destruct (info_at_ok W mk d Hd _ _ E) as (Hi & _).
  exists info. by rewrite Hi.
Qed.

Lemma restart_ok h bypass d r :
  dev_inv W (marks_of h ∅ bypass) d → loaded_from W d (names_loaded d) r →
  let mk := marks_of h (names_loaded d) bypass in dev_inv W mk d ∧ reg_inv W mk r ∧ apart mk.
Proof.
  intros Hd [Hm Hl Hr] mk. set (mk0 := marks_of h ∅ bypass) in *.
  assert (∀ id, id ∈ names_loaded d → id ∈ mk_known mk ∧ id ∉ mk_purged mk) as Hk.
  { intros id Hin. destruct (loaded_info mk0 d id Hd Hin) as [info E]. by apply (info_at_known W mk0 d Hd _ _ E). }
  split_and!.
  - intros name. destruct (Hd name) as [H1 H2 H3 H4]. split; [|intros Hx Hin|done..].
    + intros k c Hc. apply H1 in Hc. by destruct k.
    + destruct (loaded_info mk0 d name Hd Hin) as [info E].
      destruct (info_at_ok W mk0 d Hd _ _ E) as (_ & Hw & _).
      by apply (names_loaded_iff W mk0 d HW Hd _ _ Hw).
  - split; [done|done| | |].
    + intros id Hin. by apply Hk.
    + intros id Hx Hin. destruct (start_revoked h bypass d id Hd Hx Hin) as [Hn Hmark].
      apply Hl in Hn as [a Ha]. destruct (rm_id W r Hm id a Ha) as (e & He & _). exists a, e.
      split_and!; [done..|]. rewrite (Hr _ _ _ Ha He). by apply bool_decide_eq_true_2.
    + intros id a e Ha He Hv. rewrite (Hr _ _ _ Ha He) in Hv. apply bool_decide_eq_true in Hv.
      apply (marker_at_iff W mk0 d Hd) in Hv as [c Hc].
      by destruct (visible_file_ok W mk0 d Hd id RevokedFile c Hc) as [? _].
  - intros id Hp Hin. by apply (Hk id).
Qed.

Lemma load_run h bypass d fates mtime :
  dev_inv W (marks_of h ∅ bypass) d →
  let res := load mtime (world d fates rg_empty) in
  w_disk (snd res) = d ∧
  match fst res with Ok r => loaded_from W d (names_loaded d) r | Err _ => fates ≠ [] end.
Proof.
  intros Hd. pose proof (triple_run _ _ _ _ _ d fates rg_empty
    (load_spec (F := fates ≠ []) W (marks_of h ∅ bypass) d rg_empty HW Hd mtime) id (conj eq_refl eq_refl)) as H.
  cbn zeta. destruct (load mtime (world d fates rg_empty)) as [[r|e] w]; cbn [fst snd].
  - destruct H as (? & -> & _). done.
  - destruct H as (? & -> & _). done.
Qed.

(** The histories after a registration and a purge, as marks. *)
Lemma marks_register h loaded bypass id :
  marks_of (h_register false id h) ({[id]} ∪ loaded) bypass = with_device id (unpurged id (marks_of h loaded bypass)).
Proof. unfold marks_of, with_device, unpurged, update_field. cbn. f_equal. set_solver. Qed.

Lemma marks_revoke h loaded bypass id :
  marks_of (h_revoke id (h_attempt id h)) loaded bypass = with_revoked id (with_attempt id (marks_of h loaded bypass)).
Proof. unfold marks_of, with_revoked, with_attempt, update_field. cbn. f_equal. set_solver. Qed.

Lemma history_ok_register h r present id loaded bypass :
  history_ok h → reg_inv W (marks_of h loaded bypass) r → (present = true → id ∈ loaded) →
  history_ok (h_register present id h).
Proof.
  intros [H1 H2 H3] Hr Hp. unfold h_register, h_enroll. destruct present; (split; cbn; [|done..]); [|set_solver].
  pose proof (ri_known _ _ _ Hr id (Hp eq_refl)) as Hk. unfold mk_known in Hk. cbn in Hk. set_solver.
Qed.

Lemma history_ok_refuse h present id : history_ok h → history_ok (h_refuse present id h).
Proof. intros [H1 H2 H3]. unfold h_refuse, h_enroll. destruct present; split; cbn; set_solver. Qed.

Lemma register_inv d r h id name t now fates loaded bypass :
  history_ok h → grants_ok h bypass → dev_inv W (marks_of h loaded bypass) d → reg_inv W (marks_of h loaded bypass) r →
  apart (marks_of h loaded bypass) → W id t →
  system_inv (after (λ _, h_register (bool_decide (is_Some (rg_by_id r !! id))) id h)
    (h_refuse (bool_decide (is_Some (rg_by_id r !! id))) id h) (register id name t now (world d fates r))).
Proof.
  intros Hh Hg Hd Hr Ha Hw. eapply system_inv_after.
  { eapply t_pre; [by apply (register_spec W HW (marks_of h loaded bypass) r id name t now)|]. by intros ? ? [-> ->]. }
  - intros u d' r'. cbv beta. clear u.
    assert (history_ok (h_register (bool_decide (is_Some (rg_by_id r !! id))) id h)) as Hh'.
    { eapply (history_ok_register h r _ id loaded bypass); [done..|]. intros E%bool_decide_eq_true. by apply (ri_loaded _ _ _ Hr). }
    revert Hh'. destruct (rg_by_id r !! id) as [a|] eqn:E; [rewrite bool_decide_eq_true_2 by (by eexists)
      |rewrite bool_decide_eq_false_2 by (by intros [? ?])]; intros Hh'.
    + apply (system_inv_intro _ _ _ loaded bypass); [done..|]. unfold apart in *. cbn in *. set_solver.
    + apply (system_inv_intro _ _ _ ({[id]} ∪ loaded) bypass); [done|done|apply marks_register|].
      unfold apart in *. cbn in *. set_solver.
  - intros d' r'. pose proof (history_ok_refuse h (bool_decide (is_Some (rg_by_id r !! id))) id Hh) as Hh'. revert Hh'.
    destruct (rg_by_id r !! id) as [a|] eqn:E; [rewrite bool_decide_eq_true_2 by (by eexists)
      |rewrite bool_decide_eq_false_2 by (by intros [? ?])]; intros Hh';
      (apply (system_inv_intro _ _ _ loaded bypass); [done..|]; unfold apart in *; cbn in *; set_solver).
Qed.

Lemma purge_inv d r h ttl now fates loaded bypass :
  history_ok h → grants_ok h bypass → dev_inv W (marks_of h loaded bypass) d → reg_inv W (marks_of h loaded bypass) r →
  apart (marks_of h loaded bypass) → now ≤ U64_MAX →
  system_inv (after (λ _, h_purge (expired_ids ttl now r) h) (h_expire (expired_ids ttl now r) h)
    (purge_expired_revoked ttl now (world d fates r))).
Proof.
  intros [H1 H2 H3] Hg Hd Hr Ha Hn. pose proof (expired_attempted W _ ttl now r Hr) as He. cbn in He.
  eapply system_inv_after.
  { eapply t_pre; [by apply (purge_spec W HW (marks_of h loaded bypass) r ttl now)|]. by intros ? ? [-> ->]. }
  - intros u d' r'. cbv beta. clear u.
    apply (system_inv_intro _ _ _ (loaded ∖ expired_ids ttl now r) bypass); [|done|done|].
    + split; cbn; [done..|set_solver].
    + unfold apart in *. cbn in *. set_solver.
  - intros d' r'. apply (system_inv_intro _ _ _ loaded bypass); [|done..]. split; cbn; [done..|set_solver].
Qed.

Lemma device_step_inv s s' : system_inv s → device_step s s' → system_inv s'.
Proof.
  intros (loaded & bypass & Hh & Hg & Hd & Hr) Hstep.
  destruct Hstep as [d h mtime fates|d r h token now|d r h id name t now fates Hw|d r h id now fates Hn
    |d r h ttl now fates Hn|d r h id session vault capabilities fates|d r h force now fates|d r h id t ttl now fates Hw
    |d r h id t now fates Hw|d r h|d d' reg h Hs];
    cbn [stopped running ds_history ds_disk ds_registry] in *; try destruct Hr as [Hr Ha].
  - apply dev_inv_unloaded in Hd. change (unloaded _) with (marks_of h ∅ bypass) in Hd.
    pose proof (load_run h bypass d fates mtime Hd) as Hrun. cbn zeta in Hrun. unfold started.
    destruct (load mtime (world d fates rg_empty)) as [[r|e] w]; cbn [fst snd] in *; destruct Hrun as [-> Hl].
    + exists (names_loaded d), bypass. split; [done|]. split; [done|]. by apply restart_ok.
    + by exists ∅, bypass.
  - exists loaded, bypass. do 3 (split; [done|]). split; [by apply authenticate_inv|done].
  - by eapply register_inv.
  - eapply system_inv_after.
    { eapply t_pre; [by apply (revoke_spec W HW (marks_of h loaded bypass) r id now)|]. by intros ? ? [-> ->]. }
    + intros u d' r'. cbv beta. clear u. apply (system_inv_intro _ _ _ loaded bypass); [|done|apply marks_revoke|done].
      destruct Hh. split; cbn; set_solver.
    + intros d' r'. apply (system_inv_intro _ _ _ loaded bypass); [|done..]. destruct Hh. split; cbn; set_solver.
  - by eapply purge_inv.
  - eapply system_inv_after.
    { eapply t_pre; [by apply (report_capabilities_spec W HW (marks_of h loaded bypass) r)|]. by intros ? ? [-> ->]. }
    all: intros; by apply (system_inv_intro _ _ _ loaded bypass (marks_of h loaded bypass)).
  - eapply system_inv_after.
    { eapply t_pre; [by apply (flush_spec W HW (marks_of h loaded bypass))|]. by intros ? ? [-> ->]. }
    all: intros; by apply (system_inv_intro _ _ _ loaded bypass (marks_of h loaded bypass)).
  - eapply system_inv_after.
    { eapply t_pre; [by apply (grant_spec W HW (marks_of h loaded bypass) r id t)|]. by intros ? ? [-> ->]. }
    all: intros; apply (system_inv_intro _ _ _ loaded ({[id]} ∪ bypass) (with_grant id (marks_of h loaded bypass)));
      [by destruct Hh; split|by apply grants_ok_grant|done..].
  - eapply system_inv_after.
    { eapply t_pre; [by apply (consume_spec W HW (marks_of h loaded bypass) r id t)|]. by intros ? ? [-> ->]. }
    + intros used d' r' [Hs Hu]. destruct used; [|by eapply system_inv_intro].
      eapply (system_inv_intro _ _ _ loaded (bypass ∖ {[id]})); [by destruct Hh; split| |done|done|done].
      apply grants_ok_use; [done|by apply Hu].
    + done.
  - by exists loaded, bypass.
  - exists ∅, bypass. split; [done|]. split; [done|]. split; [|done].
    by eapply (dev_inv_survives W (marks_of h loaded bypass)).
Qed.

Lemma device_reachable_inv s : device_reachable s → system_inv s.
Proof.
  intros H. refine (rtc_ind_r system_inv ds_start _ _ s H).
  - exists ∅, ∅. split_and!; [done| |intros name|done].
    + intros id. split; [done|set_solver].
    + apply dir_inv_absent. intros _. cbn. set_solver.
  - intros s1 s2 _ Hstep Hinv. by eapply device_step_inv.
Qed.

(** * The theorems *)

(** C29: Revocation lasts. Once [revoke] returned for a device, in every state of
    the process that can follow - other requests and purges with faults
    anywhere, exits, crashes that lose what was not synchronised, restarts -
    as long as no purge has found the device expired (revoked for longer than
    the purge was told to keep it), its bearer token is refused as revoked, no
    token authenticates as it, it has no session and the registry reports it
    revoked. When the first purge that finds it expired succeeds, the token is
    unknown from then on, over crashes and restarts too, and the device has no
    record and no session, until somebody tries to register the identifier
    again. Nothing is claimed of a device whose purge failed. *)
Theorem revoked_stays_revoked d r h id t now :
  device_reachable (running d r h) → id ∈ h_revoked h → W id t →
  (id ∉ h_expired h →
    fst (authenticate t now r) = Err Revoked ∧
    (∀ t' now', fst (authenticate t' now' r) ≠ Ok id) ∧
    session_token id r = None ∧ is_revoked id r = true) ∧
  (id ∈ h_purged h →
    fst (authenticate t now r) = Err Unknown ∧
    (∀ t' now', fst (authenticate t' now' r) ≠ Ok id) ∧
    session_token id r = None ∧ get id r = None).
Proof.
  intros Hreach Hin Hw. destruct (device_reachable_inv _ Hreach) as (loaded & bypass & _ & _ & _ & Hr & Ha).
  cbn [running ds_registry ds_history] in Hr, Ha. split; intros Hx.
  - destruct (ri_revoked _ _ _ Hr id Hx Hin) as (a & e & Hid & He & Hrev). split_and!.
    + rewrite (authenticate_id W HW _ t now r id a e Hr Hid He Hw). by rewrite Hrev.
    + intros t' now' E. destruct (authenticate_entry W _ t' now' r id Hr E) as (a' & e' & Ha' & He' & Hn & _). congruence.
    + unfold session_token, rg_entry. rewrite Hid. cbn. rewrite He. cbn. by rewrite Hrev.
    + unfold is_revoked, rg_entry. rewrite Hid. cbn. by rewrite He.
  - assert (rg_by_id r !! id = None) as Hid.
    { destruct (rg_by_id r !! id) eqn:E; [|done]. destruct (Ha id Hx). apply (ri_loaded _ _ _ Hr). by eexists. }
    split_and!.
    + by eapply authenticate_unknown.
    + intros t' now' E. destruct (authenticate_entry W _ t' now' r id Hr E) as (a' & e' & Ha' & _). congruence.
    + unfold session_token, rg_entry. by rewrite Hid.
    + unfold get, rg_entry. by rewrite Hid.
Qed.

(** C30: Registration is durable. From every disk that exits, crashes, purges and
    faults can leave behind, a start without faults succeeds, and a device
    whose registration was acknowledged is authenticated by its token, unless
    a revocation of it was tried. The acknowledgement is one of a registration
    that wrote the record, or one of any registration - the short answer to a
    repeated one included - when none failed before: a registration that failed
    may have left a record that is not synchronised, for which the repeated
    one writes only the token index ([retried_registration_lost]). *)
Theorem registration_durable d h id t now mtime :
  device_reachable (stopped d h) →
  id ∈ h_registered h ∨ id ∈ h_acked h ∧ id ∉ h_failed h →
  id ∉ h_attempted h → W id t →
  ∃ r w, load mtime (world d [] rg_empty) = (Ok r, w) ∧ w_disk w = d ∧ fst (authenticate t now r) = Ok id.
Proof.
  intros Hreach Hin Hna Hw. destruct (device_reachable_inv _ Hreach) as (loaded & bypass & [H1 H2 H3] & _ & Hd & _).
  cbn [stopped ds_disk ds_history] in *. apply dev_inv_unloaded in Hd. change (unloaded _) with (marks_of h ∅ bypass) in Hd.
  assert (id ∈ h_registered h ∪ h_revoked h) as Hreg by set_solver. assert (id ∉ h_expired h) as Hx by set_solver.
  pose proof (load_run h bypass d [] mtime Hd) as Hrun. cbn zeta in Hrun.
  destruct (load mtime (world d [] rg_empty)) as [[r|e] w]; cbn [fst snd] in Hrun; destruct Hrun as [Hdisk Hl]; [|done].
  exists r, w. split_and!; [done..|]. destruct (restart_ok h bypass d r Hd Hl) as [_ [Hr _]].
  destruct Hl as [Hm Hids Hrev]. destruct (Hd id) as [_ _ Hp _]. destruct (Hp Hx Hreg) as (E1 & _ & E3).
  assert (id ∈ names_loaded d) as Hn.
  { apply (names_loaded_iff W _ d HW Hd _ _ Hw). split; [done|].
    destruct (sd_visible (dd_json (dk_dir id d))) eqn:Ec; [done|]. destruct E3. rewrite <-Ec. apply sd_visible_contents. }
  apply Hids in Hn as [a Ha]. destruct (rm_id W r Hm id a Ha) as (e & He & _).
  rewrite (authenticate_id W HW _ t now r id a e Hr Ha He Hw), (Hrev _ _ _ Ha He).
  rewrite bool_decide_eq_false_2; [done|]. rewrite (marker_at_iff W _ d Hd). intros [c Hc].
  destruct (visible_file_ok W _ d Hd id RevokedFile c Hc) as [? _]. by apply Hna.
Qed.

(** C34: A one-time grant is spent once: whatever crashes, faults and restarts
    happen, a device's deletions bypass the guard at most as often as a grant
    was requested for it, requests that failed included (such a grant may be
    on the disk all the same). *)
Theorem bypass_spent_once s id :
  device_reachable s → (times id (h_used (ds_history s)) ≤ times id (h_granted (ds_history s)))%nat.
Proof.
  intros Hreach. destruct (device_reachable_inv _ Hreach) as (loaded & bypass & _ & Hg & _). apply (Hg id).
Qed.
End machine.


(** * A format for [device.json] *)

#[global] Instance DeviceInfo_eq_dec : EqDecision DeviceInfo.
Proof. solve_decision. Defined.

#[global] Instance DeviceInfo_countable : Countable DeviceInfo.
Proof.
  refine (inj_countable'
    (λ i, (di_name i, di_device_id i, di_enrolled_at i, di_last_seen i, di_vaults i, di_capabilities i, di_bearer_token i))
    (λ '(n, i, a, s, v, c, t), {| di_name := n; di_device_id := i; di_enrolled_at := a; di_last_seen := s;
       di_vaults := v; di_capabilities := c; di_bearer_token := t |}) _).
  by intros [].
Defined.

Fixpoint bits_of (p : positive) : bytes :=
  match p with xH => [x02] | xO p => x00 :: bits_of p | xI p => x01 :: bits_of p end.
Fixpoint of_bits (bs : bytes) : option positive :=
  match bs with
  | [x02] => Some xH
  | x00 :: bs => p ← of_bits bs; Some (xO p)
  | x01 :: bs => p ← of_bits bs; Some (xI p)
  | _ => None
  end.

Lemma of_bits_of p : of_bits (bits_of p) = Some p.
Proof. induction p as [p IH|p IH|]; cbn [bits_of of_bits]; [| |done]; by rewrite IH. Qed.

Lemma bits_nonempty p : bits_of p ≠ [].
Proof. by destruct p. Qed.

#[local] Program Instance countable_json : DeviceJson := {
  dj_encode info := bits_of (encode info);
  dj_decode bs := p ← of_bits bs; decode p;
}.
Next Obligation. intros info. cbn. rewrite of_bits_of. cbn. apply decode_encode. Qed.
Next Obligation. intros info. apply bits_nonempty. Qed.

#[local] Existing Instance poly_blake3.
#[local] Existing Instance base16_hex.

(** * Two enrollments *)

Definition laptop : bytes := str "laptop".
Definition phone : bytes := str "phone".
Definition laptop_token : bytes := replicate 64 "a"%byte.
Definition phone_token : bytes := replicate 64 "b"%byte.

Definition enrolled (id t : bytes) : Prop := (id = laptop ∧ t = laptop_token) ∨ (id = phone ∧ t = phone_token).

Lemma enrolled_ok : enrollment_ok enrolled.
Proof.
  split.
  - intros id t [[-> ->]|[-> ->]]; by vm_compute.
  - intros id t [[-> ->]|[-> ->]]; by vm_compute.
  - intros id t t' [[-> ->]|[-> ->]] [[? ->]|[? ->]]; done.
  - intros id id' t [[-> ->]|[-> ->]] [[-> ?]|[-> ?]]; done.
Qed.

Definition ex_mtime (token : bytes) : N := 0.

Lemma laptop_enrolled : enrolled laptop laptop_token.
Proof. by left. Qed.
Lemma phone_enrolled : enrolled phone phone_token.
Proof. by right. Qed.

(** Both register, the phone twice, the laptop is revoked while a report of the
    phone meets a fault, and the server stops; it starts again and purges. *)
Definition ex_laptop := register laptop (str "Laptop") laptop_token 5 (world dk_empty [] rg_empty).
Definition ex_phone := register phone (str "Phone") phone_token 6 (world (w_disk (snd ex_laptop)) [] (w_extra (snd ex_laptop))).
Definition ex_repeat := register phone (str "Phone") phone_token 6 (world (w_disk (snd ex_phone)) [] (w_extra (snd ex_phone))).
Definition ex_revoke := revoke laptop 7 (world (w_disk (snd ex_repeat)) [] (w_extra (snd ex_repeat))).
Definition ex_report :=
  report_capabilities phone (str "s") (Some (str "v")) [str "versioned-root-v1"]
    (world (w_disk (snd ex_revoke)) [Done; Done; Done; Fails 0] (w_extra (snd ex_revoke))).
Definition ex_restart := load ex_mtime (world (w_disk (snd ex_report)) [] rg_empty).
Definition ex_registry := match fst ex_restart with Ok r => r | Err _ => rg_empty end.
Definition ex_purge := purge_expired_revoked 0 100 (world (w_disk (snd ex_restart)) [] ex_registry).

Definition ex_enrolled : History :=
  h_register true phone (h_register false phone (h_register false laptop h_empty)).
Definition ex_history : History := h_revoke laptop (h_attempt laptop ex_enrolled).
Definition ex_purged : History := h_purge (expired_ids 0 100 ex_registry) ex_history.

Lemma ex_outcomes :
  fst ex_laptop = Ok tt ∧ fst ex_phone = Ok tt ∧ fst ex_repeat = Ok tt ∧ fst ex_revoke = Ok tt
  ∧ is_ok (fst ex_report) = false ∧ is_ok (fst ex_restart) = true ∧ fst ex_purge = Ok 1.
Proof. by vm_compute. Qed.

Lemma ex_running :
  device_reachable enrolled (running (w_disk (snd ex_repeat)) (w_extra (snd ex_repeat)) ex_enrolled).
Proof.
  destruct ex_outcomes as (E1 & E2 & E3 & _).
  eapply rtc_l; [apply (step_load _ dk_empty h_empty ex_mtime [])|].
  eapply rtc_l; [apply (step_register _ dk_empty rg_empty h_empty laptop (str "Laptop") laptop_token 5 []), laptop_enrolled|].
  fold ex_laptop. unfold after. rewrite E1.
  eapply rtc_l; [eapply (step_register _ _ _ _ phone (str "Phone") phone_token 6 []), phone_enrolled|].
  change (world (w_disk (snd ex_laptop)) [] _) with (world (w_disk (snd ex_laptop)) [] (w_extra (snd ex_laptop))).
  fold ex_phone. unfold after. rewrite E2.
  eapply rtc_l; [eapply (step_register _ _ _ _ phone (str "Phone") phone_token 6 []), phone_enrolled|].
  fold ex_repeat. unfold after. rewrite E3.
  assert (bool_decide (is_Some (rg_by_id rg_empty !! laptop)) = false) as -> by by vm_compute.
  assert (bool_decide (is_Some (rg_by_id (w_extra (snd ex_laptop)) !! phone)) = false) as -> by by vm_compute.
  assert (bool_decide (is_Some (rg_by_id (w_extra (snd ex_phone)) !! phone)) = true) as -> by by vm_compute.
  apply rtc_refl.
Qed.

Lemma ex_stopped : device_reachable enrolled (stopped (w_disk (snd ex_report)) ex_history).
Proof.
  destruct ex_outcomes as (_ & _ & _ & E4 & _). eapply rtc_r; [|apply step_exit].
  replace (running (w_disk (snd ex_report)) (w_extra (snd ex_report)) ex_history)
    with (after (λ _, ex_history) ex_history ex_report) by (unfold after; by destruct (fst ex_report)).
  eapply rtc_r; [|apply (step_report _ _ _ _ phone (str "s") (Some (str "v")) [str "versioned-root-v1"]
    [Done; Done; Done; Fails 0])].
  replace (running (w_disk (snd ex_revoke)) (w_extra (snd ex_revoke)) ex_history)
    with (after (λ _, ex_history) (h_attempt laptop ex_enrolled) ex_revoke) by (unfold after; by rewrite E4).
  eapply rtc_r; [exact ex_running|]. by apply (step_revoke _ _ _ _ laptop 7 []).
Qed.

(** * The theorems at work *)

Lemma ex_restarted : device_reachable enrolled (running (w_disk (snd ex_restart)) ex_registry ex_history).
Proof.
  destruct ex_outcomes as (_ & _ & _ & _ & _ & E & _). eapply rtc_r; [exact ex_stopped|].
  replace (running (w_disk (snd ex_restart)) ex_registry ex_history) with (started ex_history ex_restart); [apply step_load|].
  unfold started, running, ex_registry. by destruct (fst ex_restart).
Qed.

Lemma ex_after_purge : device_reachable enrolled (running (w_disk (snd ex_purge)) (w_extra (snd ex_purge)) ex_purged).
Proof.
  destruct ex_outcomes as (_ & _ & _ & _ & _ & _ & E). eapply rtc_r; [exact ex_restarted|].
  replace (running (w_disk (snd ex_purge)) (w_extra (snd ex_purge)) ex_purged)
    with (after (λ _, ex_purged) (h_expire (expired_ids 0 100 ex_registry) ex_history) ex_purge) by (unfold after; by rewrite E).
  by apply (step_purge _ _ _ _ 0 100 []).
Qed.

Lemma revoked_stays_revoked_witness :
  (fst (authenticate laptop_token 9 ex_registry) = Err Revoked ∧
   (∀ t' now', fst (authenticate t' now' ex_registry) ≠ Ok laptop) ∧
   session_token laptop ex_registry = None ∧ is_revoked laptop ex_registry = true) ∧
  let r := w_extra (snd ex_purge) in
  fst (authenticate laptop_token 101 r) = Err Unknown ∧
  (∀ t' now', fst (authenticate t' now' r) ≠ Ok laptop) ∧ session_token laptop r = None ∧ get laptop r = None.
Proof.
  split.
  - apply (revoked_stays_revoked enrolled enrolled_ok _ _ _ laptop laptop_token 9 ex_restarted);
      [|exact laptop_enrolled|]; apply (bool_decide_unpack _); by vm_compute.
  - apply (revoked_stays_revoked enrolled enrolled_ok _ _ _ laptop laptop_token 101 ex_after_purge);
      [|exact laptop_enrolled|]; apply (bool_decide_unpack _); by vm_compute.
Defined.

Lemma registration_durable_witness : ∃ r w,
  load ex_mtime (world (w_disk (snd ex_report)) [] rg_empty) = (Ok r, w) ∧
  w_disk w = w_disk (snd ex_report) ∧ fst (authenticate phone_token 9 r) = Ok phone.
Proof.
  apply (registration_durable enrolled enrolled_ok _ _ _ _ _ _ ex_stopped).
  - right. split; apply (bool_decide_unpack _); by vm_compute.
  - apply (bool_decide_unpack _); by vm_compute.
  - exact phone_enrolled.
Defined.

(** A grant that is used, and not a second time. *)
Definition ex_grant := grant_deletion_bypass phone 60 10 (world (w_disk (snd ex_repeat)) [] (w_extra (snd ex_repeat))).
Definition ex_use := consume_deletion_bypass phone 11 (world (w_disk (snd ex_grant)) [] (w_extra (snd ex_grant))).
Definition ex_again := consume_deletion_bypass phone 12 (world (w_disk (snd ex_use)) [] (w_extra (snd ex_use))).

Lemma ex_grant_outcomes : fst ex_grant = Ok tt ∧ fst ex_use = Ok true ∧ fst ex_again = Ok false.
Proof. by vm_compute. Qed.

Definition ex_granted_history : History := h_use phone (h_grant phone ex_enrolled).

Lemma ex_used : device_reachable enrolled (running (w_disk (snd ex_again)) (w_extra (snd ex_again)) ex_granted_history).
Proof.
  destruct ex_grant_outcomes as (E4 & E5 & E6). unfold device_reachable. etrans; [exact ex_running|].
  eapply rtc_l; [eapply (step_grant _ _ _ _ phone phone_token 60 10 []), phone_enrolled|].
  fold ex_grant. unfold after. rewrite E4.
  eapply rtc_l; [eapply (step_consume _ _ _ _ phone phone_token 11 []), phone_enrolled|].
  fold ex_use. unfold after. rewrite E5.
  eapply rtc_l; [eapply (step_consume _ _ _ _ phone phone_token 12 []), phone_enrolled|].
  fold ex_again. unfold after. rewrite E6. apply rtc_refl.
Qed.

Lemma bypass_spent_once_witness :
  (times phone (h_used ex_granted_history) ≤ times phone (h_granted ex_granted_history))%nat
  ∧ times phone (h_used ex_granted_history) = 1%nat.
Proof. split; [apply (bypass_spent_once enrolled enrolled_ok _ phone ex_used)|by vm_compute]. Defined.

(** * What goes wrong *)

(** The crash that keeps only what was synchronised. *)
Definition sd_oldest (f : SideFile) : SideFile := {| sd_durable := sd_durable f; sd_pending := [] |}.
Definition dd_oldest (x : DeviceDir) : DeviceDir :=
  if dd_linked x then dd_create (dd_map (λ _, sd_oldest) x) else dd_absent.
Definition dk_oldest (d : DeviceDisk) : DeviceDisk :=
  {| dk_dirs := dd_oldest <$> dk_dirs d; dk_tokens := sd_oldest <$> dk_tokens d |}.

Lemma sd_oldest_survives f : sd_survives f (sd_oldest f).
Proof. exists (sd_durable f). split; [left|done]. Qed.

Lemma dk_oldest_survives d : dk_survives d (dk_oldest d).
Proof.
  split; intros name.
  - assert (dk_dir name (dk_oldest d) = dd_oldest (dk_dir name d)) as ->.
    { unfold dk_dir, dk_oldest. cbn [dk_dirs]. rewrite lookup_fmap. by destruct (dk_dirs d !! name). }
    unfold dd_survives, dd_oldest. destruct (dd_linked (dk_dir name d)) eqn:E; [right|left; auto].
    split_and!; [done|done|by right|]. intros k. destruct k; apply sd_oldest_survives.
  - unfold dk_token, dk_oldest. cbn [dk_tokens]. rewrite lookup_fmap.
    destruct (dk_tokens d !! name); [apply sd_oldest_survives|]. exists None. split; [left|done].
Qed.

(** Who the token is after a restart. *)
Definition authenticate_after_restart (d : DeviceDisk) (token : bytes) : option (result AuthenticationError bytes) :=
  match load ex_mtime (world d [] rg_empty) with
  | (Ok r, _) => Some (fst (authenticate token 200 r))
  | (Err _, _) => None
  end.

(** A purge that fails half way brings the revoked device back. The laptop
    is revoked; when its time is over [purge_expired_revoked] removes its
    directory, but the removal fails after [revoked] and before
    [device.json]: the caller gets an error, and after the next restart the
    token of the revoked device authenticates. *)
Theorem purge_can_unrevoke :
  let purge := purge_expired_revoked 0 100
    (world (w_disk (snd ex_revoke)) [Done; Done; Done; Fails 2] (w_extra (snd ex_revoke))) in
  fst ex_revoke = Ok tt ∧
  fst (authenticate laptop_token 100 (w_extra (snd ex_revoke))) = Err Revoked ∧
  fst purge = Err "remove_dir_all failed"%string ∧
  authenticate_after_restart (w_disk (snd purge)) laptop_token = Some (Ok laptop).
Proof. by vm_compute. Qed.

(** The first attempt, the restart and the second attempt. *)
Definition ex_first :=
  register laptop (str "Laptop") laptop_token 5 (world dk_empty (replicate 11 Done ++ [Fails 0]) rg_empty).
Definition ex_found := load ex_mtime (world (w_disk (snd ex_first)) [] rg_empty).
Definition ex_retry :=
  register laptop (str "Laptop") laptop_token 6
    (world (w_disk (snd ex_first)) [] (match fst ex_found with Ok r => r | Err _ => rg_empty end)).

(** A registration that is retried after a restart is acknowledged and can
    be lost. The first attempt fails when the device directory is to be
    synchronised; the process restarts and finds the record; the retry takes
    the branch for a known device, which writes only the token index and
    returns; a crash then keeps what was synchronised, and the token is
    unknown. *)
Theorem retried_registration_lost :
  fst ex_first = Err "sync failed"%string ∧ is_ok (fst ex_found) = true ∧ fst ex_retry = Ok tt ∧
  ∃ d, dk_survives (w_disk (snd ex_retry)) d ∧ authenticate_after_restart d laptop_token = Some (Err Unknown).
Proof.
  split_and!; [by vm_compute..|]. eexists. split; [apply dk_oldest_survives|]. by vm_compute.
Qed.
