(* ===== verification/RootHeadProps.v ===== *)
(** The head codec: what is written is read back, what is read back was
    written, and validation does not depend on the order of the receipts. *)

From S2P Require Import Prelude Bytes Text Keyed Hash StorageLayout RootHead.
Local Open Scope N_scope.

(** * Receipts of a valid head *)
Section codec.
Context {B3 : Blake3} {HX : Hex} {HL : HexLower} {RJ : RootJson}.

Lemma validate_receipts_ok l :
  validate_receipts l = Ok tt ↔
  Forall (λ kv, component_safe kv.1 = true ∧ receipt_validate kv.2 = Ok tt) l.
Proof using.
  induction l as [|[d r] l IH]; cbn [validate_receipts]; [by split|].
  rewrite Forall_cons, <-IH. cbn [fst snd]. unfold validate_device_id.
  destruct (component_safe d); cbn [negb]; [|naive_solver].
  destruct (receipt_validate r) as [[]|]; naive_solver.
Qed.

Lemma receipt_list_perm head : receipt_list head ≡ₚ map_to_list (head_receipts head).
Proof using. unfold receipt_list. apply sort_by_perm. Qed.

Lemma receipt_list_nil head : receipt_list head = [] ↔ head_receipts head = ∅.
Proof using.
  split.
  - intros E. apply map_to_list_empty_iff, Permutation_nil_r. by rewrite <-receipt_list_perm, E.
  - intros E. unfold receipt_list. by rewrite E, map_to_list_empty.
Qed.

Lemma map_Forall_list {A} (P : bytes → A → Prop) (m : gmap bytes A) :
  map_Forall P m ↔ Forall (λ kv, P kv.1 kv.2) (map_to_list m).
Proof using. rewrite map_Forall_to_list. apply Forall_iff. by intros []. Qed.

(** What [validate_head] accepts. *)
Definition head_valid (head : RootHead) : Prop :=
  N.of_nat (size (head_receipts head)) ≤ MAX_ROOT_RECEIPT_DEVICES ∧
  map_Forall (λ d r, component_safe d = true ∧ receipt_validate r = Ok tt) (head_receipts head) ∧
  (head_root_hash head = None →
     head_receipts head ≠ ∅ ∧ map_Forall (λ _ r, is_cancelled r = true) (head_receipts head)).

Lemma validate_head_ok head : validate_head head = Ok tt ↔ head_valid head.
Proof using.
  unfold validate_head, head_valid.
  destruct (N.ltb_spec MAX_ROOT_RECEIPT_DEVICES (N.of_nat (size (head_receipts head)))) as [Hlt|Hle].
  { split; [done|]. intros [? _]. lia. }
  assert (∀ P, Forall P (receipt_list head) ↔ Forall P (map_to_list (head_receipts head))) as Hperm.
  { intros P. by rewrite receipt_list_perm. }
  assert (validate_receipts (receipt_list head) = Ok tt ↔
    map_Forall (λ d r, component_safe d = true ∧ receipt_validate r = Ok tt) (head_receipts head)) as Hr.
  { by rewrite validate_receipts_ok, Hperm, map_Forall_list. }
  destruct (validate_receipts (receipt_list head)) as [[]|e].
  2: { split; [done|]. intros (_ & H & _). by apply Hr in H. }
  destruct (head_root_hash head) as [h|].
  { split; [|done]. intros _. split_and!; [done|by apply Hr|done]. }
  pose proof (receipt_list_nil head) as Hnil. pose proof (Hperm (λ kv, is_cancelled kv.2 = true)) as Hc.
  rewrite (map_Forall_list (λ _ r, is_cancelled r = true)).
  destruct (receipt_list head) as [|x l] eqn:El.
  { split; [done|]. intros (_ & _ & H). destruct (H eq_refl) as [H' _]. by destruct (H' (proj1 Hnil eq_refl)). }
  assert (existsb (λ kv, negb (is_cancelled kv.2)) (x :: l) = false
    ↔ Forall (λ kv : bytes * RootReceipt, is_cancelled kv.2 = true) (x :: l)) as Hex.
  { generalize (x :: l). clear. intros l. induction l as [|y l IH]; [by split|].
    cbn [existsb]. rewrite orb_false_iff, negb_false_iff, Forall_cons. by rewrite IH. }
  destruct (existsb _ _).
  - split; [done|]. intros (_ & _ & H). destruct (H eq_refl) as [_ H']. exfalso.
    assert (true = false) as [=]. by apply Hex, Hc.
  - split; [|done]. intros _. split_and!; [done|by apply Hr|]. intros _. split; [naive_solver|].
    by apply Hc, Hex.
Qed.

(** * Round trips *)

(** What the Rust types guarantee of a head. *)
Definition head_typed (head : RootHead) : Prop :=
  (∀ h, head_root_hash head = Some h → len h = 32) ∧
  map_Forall (λ _ r, receipt_typed r = true) (head_receipts head).

Lemma hex_to_hash_hex h : len h = 32 → hex_to_hash (hash_to_hex h) = Ok h.
Proof using. intros Hh. unfold hex_to_hash, hash_to_hex. rewrite hex_decode_encode, Hh. done. Qed.

Lemma lower_hex_encode h : len h = 32 → lower_hex (hash_to_hex h) 64 = true.
Proof using HL.
  intros Hh. unfold lower_hex, hash_to_hex. rewrite hex_encode_len, Hh. apply hex_encode_lower.
Qed.

Lemma lower_hex_byte_range b :
  lower_hex_byte b = true → in_range 0x21 (b2n b) 0x7E = true ∧ ascii_byte b = true
    ∧ is_ascii_hexdigit b = true.
Proof using.
  unfold is_ascii_hexdigit. intros H. rewrite H. split_and!; [| |done]; revert H;
    unfold lower_hex_byte, in_range, ascii_byte; intros [H|H]%orb_prop;
    apply andb_prop in H as [H1%N.leb_le H2%N.leb_le];
    try apply andb_true_intro; rewrite ?N.leb_le, ?N.ltb_lt; lia.
Qed.

Lemma lower_hex_text s :
  forallb lower_hex_byte s = true →
  trim s = s ∧ utf8 s = true ∧ forallb is_ascii_hexdigit s = true.
Proof using.
  intros H. split_and!.
  - apply trim_none, no_space_printable. eapply forallb_impl; [|exact H]. intros b Hb.
    by apply lower_hex_byte_range.
  - apply utf8_ascii. eapply forallb_impl; [|exact H]. intros b Hb. by apply lower_hex_byte_range.
  - eapply forallb_impl; [|exact H]. intros b Hb. by apply lower_hex_byte_range.
Qed.

Lemma checksum_text p :
  len (checksum_hex p) = 64 ∧ forallb lower_hex_byte (checksum_hex p) = true.
Proof using HL.
  unfold checksum_hex, hash_to_hex, ih_finalize. rewrite hex_encode_len, len_hash_bytes.
  split; [done|]. apply hex_encode_lower.
Qed.

(** A frame is never taken for the legacy form: it starts with a letter that
    is no digit. *)
Lemma frame_not_legacy p : legacy_text (frame_payload p) = None.
Proof using.
  unfold legacy_text.
  assert (∃ l, frame_payload p = x4f :: l) as [l El] by (by eexists).
  rewrite El. assert (trim (x4f :: l) `prefix_of` x4f :: l) as [k Hk].
  { apply trim_prefix. by destruct l as [|? [|? ?]]. }
  destruct (trim (x4f :: l)) as [|c t]; [by rewrite andb_false_r|].
  injection Hk as <- _. cbn [forallb]. change (is_ascii_hexdigit x4f) with false.
  by rewrite andb_false_r.
Qed.

Lemma frame_parts p :
  takeN (len MAGIC) (frame_payload p) = MAGIC ∧
  takeN 64 (dropN (len MAGIC) (frame_payload p)) = checksum_hex p ∧
  takeN 1 (dropN (len MAGIC + 64) (frame_payload p)) = [x0a] ∧
  dropN PREFIX_BYTES (frame_payload p) = p ∧
  len (frame_payload p) = PREFIX_BYTES + len p.
Proof using HL.
  destruct (checksum_text p) as [Hl _]. unfold frame_payload, PREFIX_BYTES.
  split_and!.
  - by apply takeN_app.
  - rewrite dropN_app by done. by apply takeN_app.
  - rewrite <-dropN_dropN, (dropN_app (len MAGIC)), (dropN_app 64) by done. by apply takeN_app.
  - rewrite <-!dropN_dropN, (dropN_app (len MAGIC)), (dropN_app 64) by done. by apply dropN_app.
  - rewrite !len_app, Hl, len_cons, (@len_nil byte). lia.
Qed.

Definition payload_of (vault_id : bytes) (head : RootHead) : Payload :=
  {| pl_schema := 1; pl_vault_id := vault_id; pl_root_hash := hash_to_hex <$> head_root_hash head;
     pl_receipts := head_receipts head |}.

Lemma payload_of_typed vault_id head : head_typed head → payload_typed (payload_of vault_id head).
Proof using. intros [_ Hr]. by split. Qed.

Lemma encode_spec vault_id head b :
  head_encode vault_id head = Ok b →
  head_valid head ∧
  ((head_receipts head = ∅ ∧ ∃ h, head_root_hash head = Some h ∧ b = hash_to_hex h) ∨
   (head_receipts head ≠ ∅ ∧ ∃ p, payload_bytes vault_id head = Ok p ∧ b = frame_payload p)).
Proof using.
  unfold head_encode. destruct (validate_head head) as [[]|] eqn:Ev; [|done].
  apply validate_head_ok in Ev. case_bool_decide as Er.
  - destruct (head_root_hash head) as [h|]; [|done]. intros [= <-]. eauto 10.
  - destruct (payload_bytes vault_id head) as [p|]; [|done]. intros [= <-]. eauto 10.
Qed.

Lemma payload_bytes_spec vault_id head p :
  payload_bytes vault_id head = Ok p ↔
  p = payload_json (payload_of vault_id head) ∧ PREFIX_BYTES + len p ≤ MAX_ROOT_HEAD_BYTES.
Proof using.
  unfold payload_bytes, bounded_json. fold (payload_of vault_id head).
  assert (PREFIX_BYTES ≤ MAX_ROOT_HEAD_BYTES) as Hp by (vm_compute; discriminate).
  destruct (N.leb_spec (len (payload_json (payload_of vault_id head)))
    (MAX_ROOT_HEAD_BYTES - PREFIX_BYTES)) as [H|H].
  - split; [intros [= <-]; split; [done|lia]|by intros [-> _]].
  - split; [done|]. intros [-> Hle]. lia.
Qed.

(** Decoding a frame whose payload is the text of a valid head. *)
Lemma decode_frame vault_id head p :
  head_typed head → head_valid head →
  payload_bytes vault_id head = Ok p → head_decode vault_id (frame_payload p) = Ok head.
Proof using HL.
  intros Ht Hh Hp. pose proof Hp as [Ep Hlen]%payload_bytes_spec.
  destruct (frame_parts p) as (F1 & F2 & F3 & F4 & F5). destruct (checksum_text p) as [_ Hc].
  unfold head_decode. rewrite F5, (proj2 (N.ltb_ge _ _)) by done. rewrite frame_not_legacy.
  rewrite F1, F2, F3, F4, Hc, (proj2 (N.ltb_ge _ _)) by lia. unfold beq.
  rewrite !bool_decide_eq_true_2 by done. cbn [negb orb].
  rewrite Ep at 1. rewrite payload_of_json_json by (by apply payload_of_typed).
  cbn [payload_of pl_schema pl_vault_id pl_root_hash pl_receipts].
  rewrite bool_decide_eq_true_2 by done. cbn [negb orb N.eqb Pos.eqb].
  destruct Ht as [Hr _]. destruct head as [[h|] rs]; cbn [head_root_hash head_receipts fmap option_fmap option_map] in *.
  - rewrite lower_hex_encode, hex_to_hash_hex by (by apply Hr).
    rewrite (proj2 (validate_head_ok _) Hh), Hp. by rewrite bool_decide_eq_true_2.
  - rewrite (proj2 (validate_head_ok _) Hh), Hp. by rewrite bool_decide_eq_true_2.
Qed.

Lemma decode_encode vault_id head b :
  head_typed head → head_encode vault_id head = Ok b →
  head_decode vault_id b = Ok head ∧ len b ≤ MAX_ROOT_HEAD_BYTES.
Proof using HL.
  intros Ht He. apply encode_spec in He as [Hh [(Er & h & Eh & ->)|(_ & p & Hp & ->)]].
  - pose proof (proj1 Ht h Eh) as Hlen. pose proof (lower_hex_encode h Hlen) as Hx.
    unfold lower_hex in Hx. apply andb_prop in Hx as [Hl%N.eqb_eq Hx].
    destruct (lower_hex_text _ Hx) as (T1 & T2 & T3).
    rewrite Hl. split; [|vm_compute; discriminate].
    unfold head_decode, legacy_text. rewrite T1, T2, T3, Hl. cbn [N.eqb Pos.eqb andb].
    rewrite (proj2 (N.ltb_ge _ _)) by (vm_compute; discriminate).
    rewrite hex_to_hash_hex by done. destruct head as [rh rs]. cbn in *. by subst.
  - split; [by apply decode_frame|]. destruct (frame_parts p) as (_ & _ & _ & _ & ->).
    by apply payload_bytes_spec in Hp as [_ ?].
Qed.

(** What [head_decode] accepts is a valid head, and a framed one is the only
    frame of that head. *)
Lemma decode_inv vault_id b head :
  head_decode vault_id b = Ok head →
  (legacy_text b ≠ None ∧ head_receipts head = ∅ ∧ ∃ h, head_root_hash head = Some h) ∨
  (head_valid head ∧ ∃ p, payload_bytes vault_id head = Ok p ∧ b = frame_payload p).
Proof using.
  unfold head_decode. case_match; [done|]. destruct (legacy_text b) as [t|].
  { destruct (hex_to_hash t) as [h|]; [|done]. intros [= <-]. left. split_and!; cbn; eauto. }
  case_match eqn:E1; [done|]. apply orb_false_iff in E1 as [E1 E2].
  apply negb_false_iff, bool_decide_eq_true in E2.
  case_match eqn:E3; [done|]. apply orb_false_iff in E3 as [E3 _].
  apply negb_false_iff, bool_decide_eq_true in E3.
  case_match eqn:E4; [done|]. apply negb_false_iff, bool_decide_eq_true in E4.
  destruct (payload_of_json _) as [parsed|]; [|done]. case_match; [done|].
  match goal with |- (let? h := ?m in _) = _ → _ => destruct m as [h|]; [|done] end.
  destruct (validate_head _) as [[]|] eqn:Ev; [|done]. apply validate_head_ok in Ev.
  destruct (payload_bytes _ _) as [again|] eqn:Ep; [|done]. unfold beq.
  case_bool_decide as E5; [|done]. intros [= <-]. right. split; [done|]. exists again.
  split; [done|]. subst again. unfold frame_payload. rewrite <-E4, <-E3, <-E2 at 1.
  unfold PREFIX_BYTES. rewrite <-!dropN_dropN, !takeN_dropN. done.
Qed.

(** The head file is a faithful and unambiguous record. Every head that
    can be written is read back as it was, within the size limit; and whatever
    a reader accepts is either the legacy form, with no receipts, or the one
    framed text a writer produces for that head. *)
Theorem root_head_roundtrip vault_id head :
  head_typed head →
  (∀ b, head_encode vault_id head = Ok b →
     head_decode vault_id b = Ok head ∧ len b ≤ MAX_ROOT_HEAD_BYTES) ∧
  (∀ b, head_decode vault_id b = Ok head → head_receipts head ≠ ∅ → head_encode vault_id head = Ok b).
Proof using HL.
  intros Ht. split; [by intros; apply decode_encode|].
  intros b [(_ & Hr & _)|(Hh & p & Hp & ->)]%decode_inv Hne; [done|].
  unfold head_encode. rewrite (proj2 (validate_head_ok _) Hh), bool_decide_eq_false_2 by done.
  by rewrite Hp.
Qed.
End codec.
