(* ===== verification/RootOutcome.v ===== *)
(** src/crates/sync-server/src/root_outcome.rs: the identity of a root
    mutation, and the decision between replaying an old outcome and admitting
    a new operation.

    The JSON and base64 readers are third-party code; requests are untrusted,
    so nothing is assumed of them: the class [RequestCodec] has no laws. A
    reader refuses unknown fields and, for [OutcomeQuery], explicit nulls. *)

From S2P Require Import Prelude Bytes Text Hash RootHead RootHeadProps.
Local Open Scope N_scope.

Definition MAX_ROOT_BYTES : N := 512 * 1024.
Definition MAX_COMMIT_REQUEST_BYTES : N := 704 * 1024.
Definition MAX_QUERY_BYTES : N := 4 * 1024.
Definition MAX_CANCEL_REQUEST_BYTES : N := 4 * 1024.
Definition MAX_SEQUENCE : N := 9007199254740991.
Definition PROTOCOL_VERSION : N := 1.

(** [ServerError], the variants these handlers return. *)
Inductive ServerError :=
  | BadRequest (message : string)
  | PayloadTooLarge (message : string)
  | ConflictError (message : bytes)
  | NotFoundError (message : string)
  | UpgradeRequired (message : string)
  | Internal (message : string)
  | ServiceUnavailable (message : string)
  | Io (message : string).

Record RootCommit := {
  rc_server_incarnation : bytes;
  rc_sequence : N;
  rc_mutation_id : bytes;
  rc_request_hash : bytes;
}.

Record CommitRequest := {
  cq_protocol_version : N;
  cq_server_incarnation : bytes;
  cq_sequence : N;
  cq_mutation_id : bytes;
  cq_parent_root : bytes;
  cq_root : bytes;
}.

Record CancelRequest := {
  xq_protocol_version : N;
  xq_server_incarnation : bytes;
  xq_sequence : N;
  xq_mutation_id : bytes;
  xq_request_hash : bytes;
}.

Record OutcomeQuery := {
  oq_protocol_version : N;
  oq_sequence : option N;
  oq_mutation_id : option bytes;
  oq_request_hash : option bytes;
}.

Class RequestCodec := {
  commit_of_json : bytes → option CommitRequest;
  cancel_of_json : bytes → option CancelRequest;
  query_of_json : bytes → option OutcomeQuery;
  base64_decode : bytes → option bytes;
}.

Definition invalid_request : ServerError := BadRequest "invalid root-outcome-v1 request".

(** [hex_field]. *)
Definition hex_field (value : bytes) (n : N) : bool :=
  (len value =? n * 2) && forallb lower_hex_byte value.

(** [valid_sequence]. *)
Definition valid_sequence (value : N) : bool := (1 <=? value) && (value <=? MAX_SEQUENCE).

(** A request scope is a non-empty vault and device of at most 128 bytes. *)
Definition scope_ok (vault device : bytes) : bool :=
  negb (beq vault []) && (len vault <=? 128) && negb (beq device []) && (len device <=? 128).

(** The fields of the request hash, each behind its length. *)
Definition delimited (field : bytes) : bytes := le_bytes 8 (len field) ++ field.
Definition commit_preimage (sequence : N)
    (vault device incarnation mutation parent root : bytes) : bytes :=
  str "obsetync.root-commit.v1" ++ [x00] ++ le_bytes 8 sequence
  ++ concat (delimited <$> [vault; device; incarnation; mutation; parent; root]).

(** [format!("{:<64}", parent)]. *)
Definition pad64 (parent : bytes) : bytes :=
  parent ++ replicate (64 - length parent) x20.

Section decode.
Context {B3 : Blake3} {HX : Hex} {RC : RequestCodec}.

(** [decode_commit]: the commit and the body of the legacy route. *)
Definition decode_commit (b vault device : bytes) : result ServerError (RootCommit * bytes) :=
  if MAX_COMMIT_REQUEST_BYTES <? len b
  then Err (PayloadTooLarge "root commit request exceeds limit")
  else
    match commit_of_json b with
    | None => Err invalid_request
    | Some q =>
        if negb (cq_protocol_version q =? PROTOCOL_VERSION)
           || negb (valid_sequence (cq_sequence q))
           || negb (hex_field (cq_server_incarnation q) 32)
           || negb (hex_field (cq_mutation_id q) 16)
           || (negb (beq (cq_parent_root q) []) && negb (hex_field (cq_parent_root q) 32))
           || negb (scope_ok vault device)
        then Err invalid_request
        else if (MAX_ROOT_BYTES + 2) / 3 * 4 <? len (cq_root q)
        then Err (PayloadTooLarge "root bytes exceed limit")
        else
          match base64_decode (cq_root q) with
          | None => Err invalid_request
          | Some root =>
              if MAX_ROOT_BYTES <? len root then Err (PayloadTooLarge "root bytes exceed limit")
              else if beq root [] then Err invalid_request
              else
                Ok ({| rc_server_incarnation := cq_server_incarnation q;
                       rc_sequence := cq_sequence q;
                       rc_mutation_id := cq_mutation_id q;
                       rc_request_hash :=
                         hash_to_hex (hash_bytes
                           (commit_preimage (cq_sequence q) vault device
                              (cq_server_incarnation q) (cq_mutation_id q)
                              (cq_parent_root q) root)) |},
                    pad64 (cq_parent_root q) ++ root)
          end
    end.

(** [decode_query]. *)
Definition decode_query (b : bytes) : result ServerError OutcomeQuery :=
  if MAX_QUERY_BYTES <? len b then Err (PayloadTooLarge "root outcome query exceeds limit")
  else
    match query_of_json b with
    | None => Err invalid_request
    | Some q =>
        if negb (oq_protocol_version q =? PROTOCOL_VERSION) then Err invalid_request
        else
          match oq_sequence q, oq_mutation_id q, oq_request_hash q with
          | None, None, None => Ok q
          | Some sequence, Some mutation, Some hash =>
              if valid_sequence sequence && hex_field mutation 16 && hex_field hash 32
              then Ok q else Err invalid_request
          | _, _, _ => Err invalid_request
          end
    end.

(** [decode_cancel]. *)
Definition decode_cancel (b vault device : bytes) : result ServerError RootCommit :=
  if MAX_CANCEL_REQUEST_BYTES <? len b
  then Err (PayloadTooLarge "root cancellation request exceeds limit")
  else
    match cancel_of_json b with
    | None => Err invalid_request
    | Some q =>
        if negb (xq_protocol_version q =? PROTOCOL_VERSION)
           || negb (valid_sequence (xq_sequence q))
           || negb (hex_field (xq_server_incarnation q) 32)
           || negb (hex_field (xq_mutation_id q) 16)
           || negb (hex_field (xq_request_hash q) 32)
           || negb (scope_ok vault device)
        then Err invalid_request
        else Ok {| rc_server_incarnation := xq_server_incarnation q;
                   rc_sequence := xq_sequence q;
                   rc_mutation_id := xq_mutation_id q;
                   rc_request_hash := xq_request_hash q |}
    end.
End decode.

(** [terminal_outcome]: the JSON object, in key order. *)
Definition terminal_outcome (incarnation : bytes) (receipt : RootReceipt) : Value :=
  Obj [(str "mutation_id", Str (mutation_id receipt));
       (str "protocol_version", Num (PosInt PROTOCOL_VERSION));
       (str "request_hash", Str (request_hash receipt));
       (str "result", outcome receipt);
       (str "sequence", Num (PosInt (sequence receipt)));
       (str "server_incarnation", Str incarnation);
       (str "status", Str (if is_cancelled receipt then str "cancelled" else str "accepted"))].

(** [replay_or_admit]: [Ok (Some v)] is an exact replay, [Ok None] admits the
    operation. *)
Definition replay_or_admit (commit : RootCommit) (receipt : option RootReceipt)
    (incarnation : bytes) : result ServerError (option Value) :=
  let last := match receipt with Some r => sequence r | None => 0 end in
  let verdict :=
    if rc_sequence commit <=? last
    then Err (ConflictError (str "root mutation outcome expired; reconciliation required"))
    else if negb (rc_sequence commit =? last + 1)
    then Err (ConflictError (str "root mutation sequence gap; reconciliation required"))
    else if negb (beq (rc_server_incarnation commit) incarnation)
    then Err (ConflictError (str "root mutation incarnation changed; outcome unknown, reconciliation required"))
    else Ok None in
  match receipt with
  | Some r =>
      if rc_sequence commit =? last then
        if beq (rc_mutation_id commit) (mutation_id r)
           && beq (rc_request_hash commit) (request_hash r)
        then Ok (Some (terminal_outcome incarnation r))
        else Err (ConflictError (str "root mutation identity does not match stored request"))
      else verdict
  | None => verdict
  end.


(** * The preimage is unambiguous *)

Lemma delimited_inj a b x y :
  len a ≤ U64_MAX → len b ≤ U64_MAX → delimited a ++ x = delimited b ++ y → a = b ∧ x = y.
Proof.
  intros Ha Hb E. unfold delimited in E. rewrite <-!app_assoc in E.
  apply app_inj_1 in E as [El E]; [|by rewrite !length_le_bytes].
  apply (f_equal le_val) in El. rewrite !le_val_le_bytes in El
    by (unfold U64_MAX in *; simpl; lia).
  apply app_inj_1 in E; [done|]. unfold len in El. lia.
Qed.

Lemma commit_preimage_inj n1 v1 d1 i1 m1 p1 r1 n2 v2 d2 i2 m2 p2 r2 :
  n1 ≤ U64_MAX → n2 ≤ U64_MAX →
  Forall (λ b, len b ≤ U64_MAX) [v1; d1; i1; m1; p1; r1] →
  Forall (λ b, len b ≤ U64_MAX) [v2; d2; i2; m2; p2; r2] →
  commit_preimage n1 v1 d1 i1 m1 p1 r1 = commit_preimage n2 v2 d2 i2 m2 p2 r2 →
  n1 = n2 ∧ v1 = v2 ∧ d1 = d2 ∧ i1 = i2 ∧ m1 = m2 ∧ p1 = p2 ∧ r1 = r2.
Proof.
  intros H1 H2 F1 F2. unfold commit_preimage. rewrite !Forall_cons in F1, F2.
  destruct F1 as (A1 & A2 & A3 & A4 & A5 & A6 & _), F2 as (B1 & B2 & B3 & B4 & B5 & B6 & _).
  cbn [fmap list_fmap concat]. intros E. apply app_inv_head, app_inv_head in E.
  apply app_inj_1 in E as [En E]; [|by rewrite !length_le_bytes].
  apply (f_equal le_val) in En. rewrite !le_val_le_bytes in En by (unfold U64_MAX in *; simpl; lia).
  apply delimited_inj in E as [-> E]; [|done..]. apply delimited_inj in E as [-> E]; [|done..].
  apply delimited_inj in E as [-> E]; [|done..]. apply delimited_inj in E as [-> E]; [|done..].
  apply delimited_inj in E as [-> E]; [|done..]. apply delimited_inj in E as [-> _]; [|done..].
  done.
Qed.

Section decode.
Context {B3 : Blake3} {HX : Hex} {RC : RequestCodec}.

(** What a decoded commit and its body stand for. *)
Record commit_parts (vault device : bytes) (commit : RootCommit) (body parent root : bytes) : Prop := {
  cp_sequence : 1 ≤ rc_sequence commit ≤ MAX_SEQUENCE;
  cp_incarnation : len (rc_server_incarnation commit) = 64;
  cp_mutation : len (rc_mutation_id commit) = 32;
  cp_parent : forallb lower_hex_byte parent = true ∧ (parent = [] ∨ len parent = 64);
  cp_root : 1 ≤ len root ≤ MAX_ROOT_BYTES;
  cp_scope : 1 ≤ len vault ≤ 128 ∧ 1 ≤ len device ≤ 128;
  cp_body : body = pad64 parent ++ root;
  cp_hash : rc_request_hash commit = hash_to_hex (hash_bytes
    (commit_preimage (rc_sequence commit) vault device (rc_server_incarnation commit)
       (rc_mutation_id commit) parent root));
}.

Lemma hex_field_spec v n : hex_field v n = true ↔ len v = n * 2 ∧ forallb lower_hex_byte v = true.
Proof using. unfold hex_field. by rewrite andb_true_iff, N.eqb_eq. Qed.

Lemma len_pos_ne {A} (l : list A) : l ≠ [] ↔ 1 ≤ len l.
Proof using. rewrite <-len_0. lia. Qed.

Lemma scope_ok_spec vault device :
  scope_ok vault device = true → 1 ≤ len vault ≤ 128 ∧ 1 ≤ len device ≤ 128.
Proof using.
  unfold scope_ok, beq. rewrite !andb_true_iff, !negb_true_iff, !bool_decide_eq_false, !N.leb_le.
  rewrite !len_pos_ne. lia.
Qed.

Lemma decode_commit_parts b vault device commit body :
  decode_commit b vault device = Ok (commit, body) →
  ∃ parent root, commit_parts vault device commit body parent root.
Proof using.
  unfold decode_commit. destruct (_ <? len b); [done|].
  destruct (commit_of_json b) as [q|]; [|done].
  destruct (_ || _) eqn:E; [done|]. rewrite !orb_false_iff, !negb_false_iff in E.
  destruct E as (((((E1 & E2) & E3) & E4) & E5) & E6). destruct (_ <? len (cq_root q)); [done|].
  destruct (base64_decode (cq_root q)) as [root|]; [|done].
  destruct (N.ltb_spec MAX_ROOT_BYTES (len root)) as [|Hr]; [done|].
  unfold beq at 1. case_bool_decide as Hne; [done|]. intros [= <- <-].
  exists (cq_parent_root q), root. apply hex_field_spec in E3 as [E3 _], E4 as [E4 _].
  unfold valid_sequence in E2. apply andb_prop in E2 as [E2%N.leb_le E2'%N.leb_le].
  split; cbn; [done|lia|lia| |split; [by apply len_pos_ne|done]|by apply scope_ok_spec|done|done].
  apply andb_false_iff in E5 as [E5|E5]; apply negb_false_iff in E5.
  - apply bool_decide_eq_true in E5 as ->. by split; [|left].
  - apply hex_field_spec in E5 as [H1 H2]. split; [done|right; lia].
Qed.

(** [publish_root] finds the parent in the padded body. *)
Lemma trim_pad64 parent :
  forallb lower_hex_byte parent = true → parent = [] ∨ len parent = 64 → trim (pad64 parent) = parent.
Proof using.
  intros Hp [->|Hl]; [by vm_compute|]. unfold pad64.
  replace (64 - length parent)%nat with 0%nat by (unfold len in Hl; lia). rewrite app_nil_r.
  by apply lower_hex_text.
Qed.

Lemma len_pad64 parent : parent = [] ∨ len parent = 64 → len (pad64 parent) = 64.
Proof using.
  intros [->|Hl]; [done|]. unfold pad64. rewrite len_app, Hl. unfold len in *.
  rewrite length_replicate. lia.
Qed.

(** The text the request hash is taken of, from the commit and its body. *)
Definition commit_input (vault device : bytes) (commit : RootCommit) (body : bytes) : bytes :=
  commit_preimage (rc_sequence commit) vault device (rc_server_incarnation commit)
    (rc_mutation_id commit) (trim (takeN 64 body)) (dropN 64 body).

Lemma commit_input_parts vault device commit body parent root :
  commit_parts vault device commit body parent root →
  takeN 64 body = pad64 parent ∧ trim (takeN 64 body) = parent ∧ dropN 64 body = root.
Proof using.
  intros [_ _ _ [H1 H2] _ _ -> _]. pose proof (len_pad64 _ H2) as Hl.
  rewrite takeN_app, dropN_app by done. split_and!; [done|by apply trim_pad64|done].
Qed.

(** The request hash identifies the request. Two decoded commits with
    the same request hash, in any vaults and from any devices, are equal in
    every respect: vault, device, server incarnation, sequence number,
    mutation, parent and root bytes, unless BLAKE3 collides on the two
    texts. *)
Theorem request_hash_binds b1 v1 d1 c1 body1 b2 v2 d2 c2 body2 :
  decode_commit b1 v1 d1 = Ok (c1, body1) → decode_commit b2 v2 d2 = Ok (c2, body2) →
  injective_on hash_bytes (λ b, b = commit_input v1 d1 c1 body1 ∨ b = commit_input v2 d2 c2 body2) →
  rc_request_hash c1 = rc_request_hash c2 →
  v1 = v2 ∧ d1 = d2 ∧ c1 = c2 ∧ body1 = body2.
Proof using.
  intros (p1 & r1 & P1)%decode_commit_parts (p2 & r2 & P2)%decode_commit_parts Hinj E.
  destruct (commit_input_parts _ _ _ _ _ _ P1) as (_ & T1 & D1).
  destruct (commit_input_parts _ _ _ _ _ _ P2) as (_ & T2 & D2).
  unfold commit_input in Hinj. rewrite T1, D1, T2, D2 in Hinj.
  destruct P1 as [S1 I1 M1 [_ Q1] R1 [V1 U1] B1 H1], P2 as [S2 I2 M2 [_ Q2] R2 [V2 U2] B2 H2].
  assert (commit_preimage (rc_sequence c1) v1 d1 (rc_server_incarnation c1) (rc_mutation_id c1) p1 r1
    = commit_preimage (rc_sequence c2) v2 d2 (rc_server_incarnation c2) (rc_mutation_id c2) p2 r2) as Ep.
  { apply Hinj; [by left|by right|]. rewrite H1, H2 in E. unfold hash_to_hex in E.
    apply (f_equal hex_decode) in E. rewrite !hex_decode_encode in E. congruence. }
  assert (∀ p : bytes, p = [] ∨ len p = 64 → len p ≤ U64_MAX) as Hp.
  { intros p [->|Hl]; [vm_compute; discriminate|]. rewrite Hl. vm_compute. discriminate. }
  unfold MAX_SEQUENCE, MAX_ROOT_BYTES in *.
  apply commit_preimage_inj in Ep as (En & -> & -> & Ei & Em & -> & ->).
  - split_and!; [done..| |congruence]. destruct c1, c2; cbn in *. congruence.
  - unfold U64_MAX. lia.
  - unfold U64_MAX. lia.
  - repeat constructor; [..|by apply Hp|]; unfold U64_MAX; lia.
  - repeat constructor; [..|by apply Hp|]; unfold U64_MAX; lia.
Qed.
End decode.
