(* ===== verification/VaultStore.v ===== *)
(** src/crates/sync-server/src/storage.rs, [VaultStore]: the head and the root
    history of one vault on disk, with what the operating system may do to
    them.

    A file that is replaced by a rename has, besides the content that is
    visible, every content it had since its directory was last synchronised:
    after a crash any of them may be found, each of them whole, because the
    temporary file is synchronised before the rename. The temporary name may
    survive a crash or not. Names are regular files and [rename] replaces its
    target, as on POSIX systems: the fallback of [write_blob_with_optional_perf]
    for other systems and the performance counters are left out.

    Acknowledged outcomes survive: whatever fails and whenever the server
    crashes, a receipt that was returned once is there or superseded, and two
    receipts of one device with one sequence number are the same. *)

From S2P Require Import Prelude Bytes Text Keyed Hash Chunk VersionedRoot StorageLayout RootHead RootHeadProps.
Local Open Scope N_scope.

(** * The disk *)

Record DiskFile := {
  df_durable : option bytes;
  df_pending : list bytes;
}.

Definition df_absent : DiskFile := {| df_durable := None; df_pending := [] |}.
Definition df_written (b : bytes) : DiskFile := {| df_durable := Some b; df_pending := [] |}.
Definition df_visible (f : DiskFile) : option bytes :=
  match last (df_pending f) with Some b => Some b | None => df_durable f end.

(** A rename that was not synchronised, a directory synchronisation. *)
Definition df_rename (b : bytes) (f : DiskFile) : DiskFile :=
  {| df_durable := df_durable f; df_pending := df_pending f ++ [b] |}.
Definition df_sync (f : DiskFile) : DiskFile :=
  {| df_durable := df_visible f; df_pending := [] |}.

(** What a crash may leave of a file. *)
Definition df_survives (f f' : DiskFile) : Prop :=
  df_pending f' = [] ∧
  (df_durable f' = df_durable f ∨ ∃ b, b ∈ df_pending f ∧ df_durable f' = Some b).

Record VaultDisk := {
  vd_current : DiskFile;
  vd_temporary : bool;
  vd_roots : gmap FileHash DiskFile;
}.

Definition vd_new : VaultDisk :=
  {| vd_current := df_absent; vd_temporary := false; vd_roots := ∅ |}.
Definition vd_root (h : FileHash) (d : VaultDisk) : DiskFile := default df_absent (vd_roots d !! h).
Definition vd_set_current (f : DiskFile) (temporary : bool) (d : VaultDisk) : VaultDisk :=
  {| vd_current := f; vd_temporary := temporary; vd_roots := vd_roots d |}.
Definition vd_set_root (h : FileHash) (f : DiskFile) (d : VaultDisk) : VaultDisk :=
  {| vd_current := vd_current d; vd_temporary := vd_temporary d; vd_roots := <[h := f]> (vd_roots d) |}.

Definition vd_survives (d d' : VaultDisk) : Prop :=
  df_survives (vd_current d) (vd_current d') ∧
  ∀ h, df_survives (vd_root h d) (vd_root h d').

(** Where an operation of the operating system fails. *)
Inductive WriteFault :=
  | NoFault
  | BeforeTemporary
  | BeforeRename
  | AfterRename.

(** [io::Error]: a refused publication, marked as such, or any other error. *)
Inductive StoreError := Refused (message : string) | IoFault (message : string).

(** [root_head_input_error]. *)
Definition refuse {A} (r : IoResult A) : result StoreError A :=
  match r with Ok a => Ok a | Err m => Err (Refused m) end.
Definition io_fault {A} (r : IoResult A) : result StoreError A :=
  match r with Ok a => Ok a | Err m => Err (IoFault m) end.

(** [is_root_publication_refusal]. *)
Definition is_root_publication_refusal (e : StoreError) : bool :=
  match e with Refused _ => true | IoFault _ => false end.

Section store.
Context {B3 : Blake3} {HX : Hex} {RJ : RootJson} {FB : FlatBuffers}.
Context (vault_id : bytes).

(** * Reading *)

(** [read_root_head] and [read_current_head]. *)
Definition read_current_head (read_fails : bool) (d : VaultDisk)
    : IoResult (option RootHead) :=
  if read_fails then Err "read failed"%string
  else
    match df_visible (vd_current d) with
    | None =>
        if vd_temporary d
        then Err "missing root head has an orphan temporary; recovery required"%string
        else Ok None
    | Some b =>
        if MAX_ROOT_HEAD_BYTES <? len b then Err "invalid or oversized root head file"%string
        else let? head := head_decode vault_id b in Ok (Some head)
    end.

(** [try_get_current_root]. *)
Definition try_get_current_root (read_fails : bool) (d : VaultDisk) : IoResult (option FileHash) :=
  let? loaded := read_current_head read_fails d in
  Ok (loaded ≫= head_root_hash).

(** [get_root_receipt]: the receipt is returned only behind a barrier. *)
Definition get_root_receipt (read_fails barrier_fails : bool) (device_id : bytes) (d : VaultDisk)
    : IoResult (option RootReceipt) * VaultDisk :=
  match validate_device_id device_id with
  | Err e => (Err e, d)
  | Ok _ =>
      match read_current_head read_fails d with
      | Err e => (Err e, d)
      | Ok None => (Ok None, d)
      | Ok (Some head) =>
          match head_receipts head !! device_id with
          | None => (Ok None, d)
          | Some receipt =>
              if barrier_fails then (Err "sync failed"%string, d)
              else (Ok (Some receipt), vd_set_current (df_sync (vd_current d)) (vd_temporary d) d)
          end
      end
  end.

(** * Publication *)

(** [publish_current_head]: encode, create the directories and the temporary
    file, write and synchronise it, rename it over the head, synchronise the
    directories. *)
Definition publish_current_head (fault : WriteFault) (head : RootHead) (d : VaultDisk)
    : result StoreError unit * VaultDisk :=
  match refuse (head_encode vault_id head) with
  | Err e => (Err e, d)
  | Ok b =>
      match fault with
      | BeforeTemporary => (Err (IoFault "open failed"), d)
      | BeforeRename => (Err (IoFault "write failed"), vd_set_current (vd_current d) true d)
      | AfterRename =>
          (Err (IoFault "sync failed"), vd_set_current (df_rename b (vd_current d)) false d)
      | NoFault => (Ok tt, vd_set_current (df_sync (df_rename b (vd_current d))) false d)
      end
  end.

(** [set_current_root]. *)
Definition set_current_root (read_fails : bool) (fault : WriteFault) (hash : FileHash)
    (d : VaultDisk) : result StoreError unit * VaultDisk :=
  match io_fault (read_current_head read_fails d) with
  | Err e => (Err e, d)
  | Ok loaded =>
      let receipts := match loaded with Some head => head_receipts head | None => ∅ end in
      publish_current_head fault {| head_root_hash := Some hash; head_receipts := receipts |} d
  end.

(** [prepare_receipt_head]. *)
Definition prepare_receipt_head (read_fails : bool) (device_id : bytes) (receipt : RootReceipt)
    (d : VaultDisk) : result StoreError RootHead :=
  let? _ := refuse (validate_device_id device_id) in
  let? _ := refuse (receipt_validate receipt) in
  let? loaded := io_fault (read_current_head read_fails d) in
  let head := match loaded with
              | Some head => head
              | None => {| head_root_hash := None; head_receipts := ∅ |}
              end in
  let previous := match head_receipts head !! device_id with
                  | Some last => sequence last
                  | None => 0
                  end in
  if (previous =? MAX_ROOT_SEQUENCE) || negb (sequence receipt =? previous + 1)
  then Err (Refused "root receipt sequence is not the next operation")
  else Ok {| head_root_hash := head_root_hash head;
             head_receipts := <[device_id := receipt]> (head_receipts head) |}.

(** [receipt.result.get("root_hash").and_then(|value| value.as_str())]. *)
Definition result_root_hash (receipt : RootReceipt) : option bytes :=
  match as_object (outcome receipt) with
  | Some object => match field (str "root_hash") object with Some v => as_str v | None => None end
  | None => None
  end.

(** [prepare_root_receipt]. *)
Definition prepare_root_receipt (read_fails : bool) (hash : FileHash) (device_id : bytes)
    (receipt : RootReceipt) (d : VaultDisk) : result StoreError RootHead :=
  if negb (bool_decide (result_root_hash receipt = Some (hash_to_hex hash)))
  then Err (Refused "published root and receipt result disagree")
  else
    let? head := prepare_receipt_head read_fails device_id receipt d in
    Ok {| head_root_hash := Some hash; head_receipts := head_receipts head |}.

(** [set_current_root_with_receipt]. *)
Definition set_current_root_with_receipt (read_fails : bool) (fault : WriteFault)
    (hash : FileHash) (device_id : bytes) (receipt : RootReceipt) (d : VaultDisk)
    : result StoreError unit * VaultDisk :=
  match prepare_root_receipt read_fails hash device_id receipt d with
  | Err e => (Err e, d)
  | Ok head => publish_current_head fault head d
  end.

(** [cancel_root_with_receipt]. *)
Definition cancel_root_with_receipt (read_fails : bool) (fault : WriteFault)
    (device_id : bytes) (receipt : RootReceipt) (d : VaultDisk)
    : result StoreError unit * VaultDisk :=
  if negb (is_cancelled receipt)
  then (Err (Refused "cancellation requires a cancelled receipt"), d)
  else
    match prepare_receipt_head read_fails device_id receipt d with
    | Err e => (Err e, d)
    | Ok head => publish_current_head fault head d
    end.

(** [validate_root_receipt]. *)
Definition validate_root_receipt (read_fails : bool) (hash : FileHash) (device_id : bytes)
    (receipt : RootReceipt) (d : VaultDisk) : result StoreError unit :=
  let? head := prepare_root_receipt read_fails hash device_id receipt d in
  let? _ := refuse (head_encode vault_id head) in
  Ok tt.

(** * Root history *)

(** [write_blob_with_optional_perf]: nothing is written over equal bytes. *)
Definition write_blob (fault : WriteFault) (hash : FileHash) (data : bytes) (d : VaultDisk)
    : result StoreError unit * VaultDisk :=
  if bool_decide (df_visible (vd_root hash d) = Some data) then (Ok tt, d)
  else
    match fault with
    | BeforeTemporary | BeforeRename => (Err (IoFault "write failed"), d)
    | AfterRename =>
        (Err (IoFault "sync failed"), vd_set_root hash (df_rename data (vd_root hash d)) d)
    | NoFault => (Ok tt, vd_set_root hash (df_sync (df_rename data (vd_root hash d))) d)
    end.

(** The test that keeps a stored root of the same identity. *)
Definition history_match (hash : FileHash) (existing : bytes) : bool :=
  match vr_deserialize existing with
  | Ok root => beq (vr_vault_id root) vault_id && beq (vr_hash root) hash
  | Err _ => false
  end.

(** [store_root]. *)
Definition store_root (fault : WriteFault) (hash : FileHash) (data : bytes) (d : VaultDisk)
    : result StoreError unit * VaultDisk :=
  if MAX_ROOT_HEAD_BYTES <? len data
  then (Err (IoFault "root history object exceeds bounded root response capacity"), d)
  else
    match df_visible (vd_root hash d) with
    | None => write_blob fault hash data d
    | Some existing =>
        if MAX_ROOT_HEAD_BYTES <? len existing
        then (Err (IoFault "existing root history object exceeds bounded capacity"), d)
        else if history_match hash existing then
          match fault with
          | NoFault => (Ok tt, vd_set_root hash (df_sync (vd_root hash d)) d)
          | _ => (Err (IoFault "sync failed"), d)
          end
        else write_blob fault hash data d
    end.

(** [get_root]. *)
Definition get_root (read_fails : bool) (hash : FileHash) (d : VaultDisk) : option bytes :=
  if read_fails then None
  else
    match df_visible (vd_root hash d) with
    | Some b => if MAX_ROOT_HEAD_BYTES <? len b then None else Some b
    | None => None
    end.
End store.


(** * All contents a file may turn out to have *)

Definition versions (f : DiskFile) : list (option bytes) := df_durable f :: (Some <$> df_pending f).

Section versions.
Context (Q : option bytes → Prop).

Definition all_versions (f : DiskFile) : Prop := Forall Q (versions f).

Lemma visible_version f : df_visible f ∈ versions f.
Proof using.
  unfold df_visible, versions. destruct (last (df_pending f)) as [b|] eqn:E; [|by left].
  right. apply list_elem_of_fmap. exists b. split; [done|]. by apply last_Some_elem_of.
Qed.

Lemma all_visible f : all_versions f → Q (df_visible f).
Proof using. intros H. unfold all_versions in H. rewrite Forall_forall in H. apply H, visible_version. Qed.

Lemma all_rename b f : all_versions f → Q (Some b) → all_versions (df_rename b f).
Proof using.
  unfold all_versions, versions. cbn. intros H Hb. apply Forall_cons in H as [H1 H2].
  constructor; [done|]. rewrite fmap_app. apply Forall_app. split; [done|]. by repeat constructor.
Qed.

Lemma all_sync f : Q (df_visible f) → all_versions (df_sync f).
Proof using. intros H. by repeat constructor. Qed.

Lemma all_survives f f' : all_versions f → df_survives f f' → all_versions f'.
Proof using.
  intros H [Ep Hd]. unfold all_versions, versions in *. rewrite Ep. constructor; [|constructor].
  apply Forall_cons in H as [H1 H2].
  destruct Hd as [->|(b & Hb & ->)]; [done|]. rewrite Forall_forall in H2. apply H2.
  by apply list_elem_of_fmap_2.
Qed.

Lemma visible_rename b f : df_visible (df_rename b f) = Some b.
Proof using. unfold df_visible, df_rename. cbn. by rewrite last_snoc. Qed.
End versions.

(** * Receipts only move forward *)

(** [r'] is [r], or the outcome of a later operation. *)
Definition follows (r r' : RootReceipt) : Prop := r' = r ∨ sequence r < sequence r'.

#[global] Instance follows_trans : Transitive follows.
Proof. intros a b c [->|H1] [->|H2]; unfold follows; auto. right. lia. Qed.

Definition receipts_of (o : option RootHead) : gmap bytes RootReceipt :=
  match o with Some head => head_receipts head | None => ∅ end.

Definition forward (old new : gmap bytes RootReceipt) : Prop :=
  ∀ dev r, old !! dev = Some r → ∃ r', new !! dev = Some r' ∧ follows r r'.

Section store.
Context {B3 : Blake3} {HX : Hex} {HL : HexLower} {RJ : RootJson} {FB : FlatBuffers}.
Context (vault_id : bytes).

(** A content that reads as a well-typed head, and one in which the
    receipt [r] of [dev] stands. *)
Definition head_file (o : option bytes) (head : RootHead) : Prop :=
  ∃ b, o = Some b ∧ head_decode vault_id b = Ok head ∧ head_typed head
       ∧ len b ≤ MAX_ROOT_HEAD_BYTES.
Definition readable_version (o : option bytes) : Prop := o = None ∨ ∃ head, head_file o head.
Definition stands_in (dev : bytes) (r : RootReceipt) (o : option bytes) : Prop :=
  ∃ head r', head_file o head ∧ head_receipts head !! dev = Some r' ∧ follows r r'.

Definition disk_ok (d : VaultDisk) : Prop := all_versions readable_version (vd_current d).
Definition stands (dev : bytes) (r : RootReceipt) (d : VaultDisk) : Prop :=
  all_versions (stands_in dev r) (vd_current d).

Lemma head_file_fun o h1 h2 : head_file o h1 → head_file o h2 → h1 = h2.
Proof using. intros (b & -> & H1 & _) (b' & [= <-] & H2 & _). congruence. Qed.

Lemma read_head_file d loaded :
  disk_ok d → read_current_head vault_id false d = Ok loaded →
  match loaded with
  | Some head => head_file (df_visible (vd_current d)) head
  | None => df_visible (vd_current d) = None
  end.
Proof using.
  intros Hd. unfold read_current_head. pose proof (all_visible _ _ Hd) as [E|(head & b & E & Hf)].
  - rewrite E. destruct (vd_temporary d); [done|]. by intros [= <-].
  - rewrite E. destruct Hf as (Hdec & Ht & Hl). rewrite (proj2 (N.ltb_ge _ _)) by done.
    rewrite Hdec. intros [= <-]. by exists b.
Qed.

Lemma read_ok fails d loaded :
  read_current_head vault_id fails d = Ok loaded → read_current_head vault_id false d = Ok loaded.
Proof using. by destruct fails. Qed.

(** * Publishing *)

(** How the disk may change: the head stays, or a new head that is ahead of
    the visible one takes its place, now or on a later crash. *)
Definition head_moves (d d' : VaultDisk) : Prop :=
  vd_current d' = vd_current d ∨ vd_current d' = df_sync (vd_current d) ∨
  ∃ b head, head_file (Some b) head ∧
    (∀ old, head_file (df_visible (vd_current d)) old → forward (head_receipts old) (head_receipts head)) ∧
    (vd_current d' = df_rename b (vd_current d) ∨ vd_current d' = df_sync (df_rename b (vd_current d))).

Lemma head_moves_ok d d' : disk_ok d → head_moves d d' → disk_ok d'.
Proof using.
  unfold disk_ok. intros Hd [->|[->|(b & head & Hb & _ & H)]]; [done|by apply all_sync, all_visible|].
  assert (readable_version (Some b)) as Hr by (right; eauto).
  destruct H as [->| ->]; [by apply all_rename|]. apply all_sync. by rewrite visible_rename.
Qed.

Lemma head_moves_stands dev r d d' : stands dev r d → head_moves d d' → stands dev r d'.
Proof using.
  unfold stands. intros Hd [->|[->|(b & head & Hb & Hfw & H)]]; [done|by apply all_sync, all_visible|].
  assert (stands_in dev r (Some b)) as Hr.
  { destruct (all_visible _ _ Hd) as (old & r' & Ho & Hl & Hf).
    destruct (Hfw old Ho dev r' Hl) as (r'' & Hl' & Hf'). exists head, r''.
    split_and!; [done..|by trans r']. }
  destruct H as [->| ->]; [by apply all_rename|]. apply all_sync. by rewrite visible_rename.
Qed.

Lemma publish_moves fault head d res d' :
  head_typed head →
  (∀ old, head_file (df_visible (vd_current d)) old → forward (head_receipts old) (head_receipts head)) →
  publish_current_head vault_id fault head d = (res, d') →
  head_moves d d' ∧
  (res = Ok tt → ∃ b, head_file (Some b) head ∧ vd_current d' = df_written b).
Proof using HL.
  intros Ht Hfw. unfold publish_current_head.
  destruct (head_encode vault_id head) as [b|e] eqn:Ee; cbn [refuse].
  2: { intros [= <- <-]. split; [by left|done]. }
  destruct (decode_encode vault_id head b Ht Ee) as [Hdec Hl].
  assert (head_file (Some b) head) as Hf by (by exists b).
  destruct fault; intros [= <- <-]; cbn [vd_set_current vd_current].
  - split; [right; right; exists b, head; auto|]. intros _. exists b. split; [done|].
    unfold df_sync. by rewrite visible_rename.
  - split; [by left|done].
  - split; [by left|done].
  - split; [right; right; exists b, head; auto|done].
Qed.

Lemma forward_refl m : forward m m.
Proof using. intros dev r H. exists r. split; [done|by left]. Qed.

Lemma set_current_root_moves fails fault hash d res d' :
  disk_ok d → len hash = 32 →
  set_current_root vault_id fails fault hash d = (res, d') → head_moves d d'.
Proof using HL.
  intros Hd Hh. unfold set_current_root.
  destruct (read_current_head vault_id fails d) as [loaded|] eqn:Er; cbn [io_fault].
  2: { intros [= <- <-]. by left. }
  apply read_ok, read_head_file in Er; [|done]. intros Hp.
  eapply publish_moves; [| |exact Hp]; cbn.
  - split; cbn; [by intros h [= <-]|]. destruct loaded as [head|]; [|done].
    destruct Er as (b & _ & _ & Ht & _). apply Ht.
  - intros old Ho. destruct loaded as [head|].
    + rewrite (head_file_fun _ _ _ Er Ho). apply forward_refl.
    + destruct Ho as (b & Ho & _). congruence.
Qed.

Lemma prepare_receipt_forward fails dev receipt d head :
  disk_ok d → (receipt_validate receipt = Ok tt → receipt_typed receipt = true) →
  prepare_receipt_head vault_id fails dev receipt d = Ok head →
  head_typed head ∧ head_receipts head !! dev = Some receipt ∧
  (∀ old, head_file (df_visible (vd_current d)) old →
     forward (head_receipts old) (head_receipts head)).
Proof using.
  intros Hd Ht. unfold prepare_receipt_head.
  destruct (validate_device_id dev) as [[]|]; [|done]. destruct (receipt_validate receipt) as [[]|]; [|done].
  specialize (Ht eq_refl).
  destruct (read_current_head vault_id fails d) as [loaded|] eqn:Er; [|done]. cbn [refuse io_fault].
  apply read_ok, read_head_file in Er; [|done].
  set (h0 := match loaded with Some head => head | None => _ end).
  assert (head_typed h0) as Ht0.
  { unfold h0. destruct loaded as [head0|]; [by destruct Er as (? & _ & _ & ? & _)|].
    split; cbn; [by intros h|apply map_Forall_empty]. }
  match goal with |- (if ?c then _ else _) = _ → _ => destruct c eqn:E end; [done|].
  apply orb_false_iff in E as [_ E].
  apply negb_false_iff, N.eqb_eq in E. intros [= <-]. cbn. split_and!.
  - split; cbn; [apply Ht0|]. apply map_Forall_insert_2; [done|apply Ht0].
  - apply lookup_insert_eq.
  - intros old Ho dev' r Hr. destruct loaded as [head0|].
    2: { destruct Ho as (? & Ho & _). congruence. }
    rewrite (head_file_fun _ _ _ Ho Er) in Hr. unfold h0 in *.
    destruct (decide (dev' = dev)) as [->|Hne].
    + rewrite lookup_insert_eq. exists receipt. split; [done|]. right. rewrite Hr in E. lia.
    + rewrite lookup_insert_ne by done. exists r. split; [done|by left].
Qed.

(** What acknowledging a receipt means: it is the receipt of the visible
    head, and no other content can come back. *)
Definition shows (dev : bytes) (r : RootReceipt) (d : VaultDisk) : Prop :=
  df_pending (vd_current d) = [] ∧
  ∃ head, head_file (df_visible (vd_current d)) head ∧ head_receipts head !! dev = Some r.

Lemma shows_stands dev r d : shows dev r d → stands dev r d.
Proof using.
  intros (Hp & head & Hf & Hl). unfold stands, all_versions, versions. rewrite Hp.
  unfold df_visible in Hf. rewrite Hp in Hf. constructor; [|constructor].
  exists head, r. split_and!; [done..|by left].
Qed.

Lemma shows_follows dev r r' d : shows dev r' d → stands dev r d → follows r r'.
Proof using.
  intros (_ & head & Hf & Hl) Hs. destruct (all_visible _ _ Hs) as (head' & r'' & Hf' & Hl' & Hw).
  rewrite (head_file_fun _ _ _ Hf' Hf) in Hl'. congruence.
Qed.

Lemma written_shows dev r b head d :
  head_file (Some b) head → vd_current d = df_written b → head_receipts head !! dev = Some r →
  shows dev r d.
Proof using. intros Hf Hc Hr. unfold shows. rewrite Hc. split; [done|]. by exists head. Qed.

Lemma set_root_with_receipt_moves fails fault hash dev receipt d res d' :
  disk_ok d → len hash = 32 → (receipt_validate receipt = Ok tt → receipt_typed receipt = true) →
  set_current_root_with_receipt vault_id fails fault hash dev receipt d = (res, d') →
  head_moves d d' ∧ (res = Ok tt → shows dev receipt d').
Proof using HL.
  intros Hd Hh Ht. unfold set_current_root_with_receipt, prepare_root_receipt.
  case_bool_decide; cbn [negb]; [|intros [= <- <-]; split; [by left|done]].
  destruct (prepare_receipt_head vault_id fails dev receipt d) as [h0|] eqn:Ep.
  2: { intros [= <- <-]. split; [by left|done]. }
  intros Hp. destruct (prepare_receipt_forward _ _ _ _ _ Hd Ht Ep) as (Ht0 & Hl & Hfw).
  edestruct publish_moves as [Hm Hok]; [| |exact Hp|].
  - split; cbn; [by intros h [= <-]|apply Ht0].
  - exact Hfw.
  - split; [done|]. intros ->. destruct (Hok eq_refl) as (b & Hf & Hc).
    by eapply written_shows.
Qed.

Lemma cancel_moves fails fault dev receipt d res d' :
  disk_ok d → (receipt_validate receipt = Ok tt → receipt_typed receipt = true) →
  cancel_root_with_receipt vault_id fails fault dev receipt d = (res, d') →
  head_moves d d' ∧ (res = Ok tt → shows dev receipt d').
Proof using HL.
  intros Hd Ht. unfold cancel_root_with_receipt.
  destruct (is_cancelled receipt); cbn [negb]; [|intros [= <- <-]; split; [by left|done]].
  destruct (prepare_receipt_head vault_id fails dev receipt d) as [h0|] eqn:Ep.
  2: { intros [= <- <-]. split; [by left|done]. }
  intros Hp. destruct (prepare_receipt_forward _ _ _ _ _ Hd Ht Ep) as (Ht0 & Hl & Hfw).
  edestruct publish_moves as [Hm Hok]; [exact Ht0|exact Hfw|exact Hp|].
  split; [done|]. intros ->. destruct (Hok eq_refl) as (b & Hf & Hc). by eapply written_shows.
Qed.

Lemma get_root_receipt_moves fails bar dev d res d' :
  disk_ok d → get_root_receipt vault_id fails bar dev d = (res, d') →
  head_moves d d' ∧ (∀ r, res = Ok (Some r) → shows dev r d').
Proof using.
  intros Hd. unfold get_root_receipt. destruct (validate_device_id dev) as [[]|].
  2: { intros [= <- <-]. split; [by left|done]. }
  destruct (read_current_head vault_id fails d) as [[head|]|] eqn:Er;
    try (intros [= <- <-]; split; [by left|done]).
  apply read_ok, read_head_file in Er; [|done].
  destruct (head_receipts head !! dev) as [r|] eqn:El; [|intros [= <- <-]; split; [by left|done]].
  destruct bar; intros [= <- <-]; [split; [by left|done]|].
  split; [right; by left|]. intros r' [= <-]. split; [done|]. exists head. by split.
Qed.

Lemma store_root_current fault h data d res d' :
  store_root vault_id fault h data d = (res, d') → vd_current d' = vd_current d.
Proof using.
  unfold store_root, write_blob. repeat case_match; intros; by simplify_eq.
Qed.

(** * Runs *)

(** Everything that happens to a vault directory: lookups, publications,
    cancellations, legacy and administrative replacements, history writes,
    each with whatever fails, and crashes. The event is the receipt that was
    acknowledged. *)
Inductive vault_step : VaultDisk → option (bytes * RootReceipt) → VaultDisk → Prop :=
  | step_lookup fails bar dev d res d' :
      get_root_receipt vault_id fails bar dev d = (res, d') →
      vault_step d (match res with Ok (Some r) => Some (dev, r) | _ => None end) d'
  | step_commit fails fault hash dev receipt d res d' :
      len hash = 32 → (receipt_validate receipt = Ok tt → receipt_typed receipt = true) →
      set_current_root_with_receipt vault_id fails fault hash dev receipt d = (res, d') →
      vault_step d (match res with Ok _ => Some (dev, receipt) | Err _ => None end) d'
  | step_cancel fails fault dev receipt d res d' :
      (receipt_validate receipt = Ok tt → receipt_typed receipt = true) →
      cancel_root_with_receipt vault_id fails fault dev receipt d = (res, d') →
      vault_step d (match res with Ok _ => Some (dev, receipt) | Err _ => None end) d'
  | step_replace fails fault hash d res d' :
      len hash = 32 →
      set_current_root vault_id fails fault hash d = (res, d') → vault_step d None d'
  | step_history fault h data d res d' :
      store_root vault_id fault h data d = (res, d') → vault_step d None d'
  | step_crash d d' : vd_survives d d' → vault_step d None d'.

(** A run, with the acknowledged receipts, the newest first. *)
Inductive vault_run (start : VaultDisk) : list (bytes * RootReceipt) → VaultDisk → Prop :=
  | run_start : vault_run start [] start
  | run_step acks event d d' :
      vault_run start acks d → vault_step d event d' →
      vault_run start (option_list event ++ acks) d'.

Lemma vault_step_keeps d event d' :
  disk_ok d → vault_step d event d' →
  disk_ok d' ∧ (∀ dev r, stands dev r d → stands dev r d') ∧
  (∀ dev r, event = Some (dev, r) → shows dev r d').
Proof using HL.
  intros Hd Hs.
  assert (∀ d', head_moves d d' → disk_ok d' ∧ ∀ dev r, stands dev r d → stands dev r d') as Hmv.
  { intros d1 Hm. split; [by eapply head_moves_ok|]. intros dev r Hst. by eapply head_moves_stands. }
  destruct Hs as [fails bar dev d res d' H|fails fault hash dev receipt d res d' Hh Ht H
    |fails fault dev receipt d res d' Ht H|fails fault hash d res d' Hh H
    |fault h data d res d' H|d d' [Hsv _]].
  - destruct (get_root_receipt_moves _ _ _ _ _ _ Hd H) as [Hm Ha]. destruct (Hmv _ Hm).
    split_and!; [done..|]. intros dev' r. destruct res as [[r0|]|]; try done. intros [= <- <-]. by apply Ha.
  - destruct (set_root_with_receipt_moves _ _ _ _ _ _ _ _ Hd Hh Ht H) as [Hm Ha]. destruct (Hmv _ Hm).
    split_and!; [done..|]. intros dev' r. destruct res as [[]|]; try done. intros [= <- <-]. by apply Ha.
  - destruct (cancel_moves _ _ _ _ _ _ _ Hd Ht H) as [Hm Ha]. destruct (Hmv _ Hm).
    split_and!; [done..|]. intros dev' r. destruct res as [[]|]; try done. intros [= <- <-]. by apply Ha.
  - pose proof (set_current_root_moves _ _ _ _ _ _ Hd Hh H) as Hm. destruct (Hmv _ Hm).
    by split_and!.
  - apply store_root_current in H. destruct (Hmv d') as [? ?]; [by left|]. by split_and!.
  - split_and!; [by eapply all_survives|intros dev r Hst; by eapply all_survives|done].
Qed.

Lemma vault_run_stands start acks d :
  disk_ok start → vault_run start acks d →
  disk_ok d ∧ ∀ dev r, (dev, r) ∈ acks → stands dev r d.
Proof using HL.
  intros H0. induction 1 as [|acks event d d' _ IH Hs]; [split; [done|]|].
  { by intros dev r ?%not_elem_of_nil. }
  destruct (IH) as [Hd Hacks].
  destruct (vault_step_keeps _ _ _ Hd Hs) as (Hd' & Hk & Ha). split; [done|].
  intros dev r [Hin|Hin]%elem_of_app; [|by apply Hk, Hacks].
  apply shows_stands, Ha. destruct event as [e|]; cbn in Hin; [|by apply not_elem_of_nil in Hin].
  by apply list_elem_of_singleton in Hin as <-.
Qed.

(** Acknowledged receipts of one device follow each other. *)
Lemma vault_run_follows start acks d :
  disk_ok start → vault_run start acks d →
  ∀ l1 l2 dev r1 r2, acks = l1 ++ (dev, r2) :: l2 → (dev, r1) ∈ l2 → follows r1 r2.
Proof using HL.
  intros H0. induction 1 as [|acks event d d' Hrun IH Hs]; intros l1 l2 dev r1 r2 E Hin.
  { by destruct l1. }
  destruct (vault_run_stands _ _ _ H0 Hrun) as [Hd Hst].
  destruct (vault_step_keeps _ _ _ Hd Hs) as (_ & Hk & Ha).
  destruct event as [e|]; cbn [option_list app] in E; [|by eapply IH].
  destruct l1 as [|x l1]; cbn [app] in E; [|injection E as _ E; by eapply IH].
  injection E as -> ->. eapply shows_follows; [by apply Ha|]. by apply Hk, Hst.
Qed.

(** What a reader finds of an acknowledged receipt. *)
Lemma stands_read dev r d :
  stands dev r d →
  ∃ head r', read_current_head vault_id false d = Ok (Some head)
    ∧ head_receipts head !! dev = Some r' ∧ follows r r'.
Proof using.
  intros Hs. destruct (all_visible _ _ Hs) as (head & r' & (b & E & Hd & _ & Hl) & Hr & Hf).
  exists head, r'. split_and!; [|done..]. unfold read_current_head.
  by rewrite E, (proj2 (N.ltb_ge _ _)), Hd.
Qed.

Lemma follows_same r1 r2 : follows r1 r2 → sequence r1 = sequence r2 → r1 = r2.
Proof using. intros [->|H] E; [done|lia]. Qed.

Lemma new_ok : disk_ok vd_new.
Proof using. repeat constructor. Qed.

Lemma acks_unique acks d dev r1 r2 :
  vault_run vd_new acks d → (dev, r1) ∈ acks → (dev, r2) ∈ acks → sequence r1 = sequence r2 → r1 = r2.
Proof using HL.
  intros Hrun H1 H2 E. apply list_elem_of_split in H2 as (l1 & l2 & ->).
  apply elem_of_app in H1 as [H1|[H1|H1]%elem_of_cons].
  - apply list_elem_of_split in H1 as (k1 & k2 & ->). symmetry. apply follows_same; [|done].
    eapply (vault_run_follows _ _ _ new_ok Hrun k1 (k2 ++ (dev, r2) :: l2)); [by rewrite <-app_assoc|].
    apply elem_of_app. right. by left.
  - congruence.
  - apply follows_same; [|done]. by eapply (vault_run_follows _ _ _ new_ok Hrun l1 l2).
Qed.

(** C7: exactly-once publication. In every run of a vault directory from
    scratch, with any failures of reads, writes and barriers and with crashes
    at any point, two acknowledged outcomes of one device with the same
    sequence number are the same outcome; and after a further crash or none,
    an acknowledged outcome is still what a reader finds, or the outcome of a
    later operation of that device. *)
Theorem outcomes_exactly_once acks d :
  vault_run vd_new acks d →
  (∀ dev r1 r2, (dev, r1) ∈ acks → (dev, r2) ∈ acks → sequence r1 = sequence r2 → r1 = r2) ∧
  (∀ dev r d', (dev, r) ∈ acks → d' = d ∨ vd_survives d d' →
     ∃ head r', read_current_head vault_id false d' = Ok (Some head)
       ∧ head_receipts head !! dev = Some r' ∧ follows r r').
Proof using HL.
  intros Hrun. pose proof (vault_run_stands _ _ _ new_ok Hrun) as [Hd Hst]. split.
  - intros dev r1 r2. by eapply acks_unique.
  - intros dev r d' Hin [->|[Hsv _]]; apply stands_read; [by apply Hst|].
    eapply all_survives; [by apply Hst|done].
Qed.
End store.
