(* ===== verification/IgnoreMatch.v ===== *)
(** src/crates/sync-server/src/ignore_match.rs: the patterns of the
    administrative purge. [matches_any] decides which files of a vault a purge
    removes; [wildcard] is its greedy matcher for one path segment, and
    [segment_glob] what such a pattern means. *)

From S2P Require Import Prelude Bytes Text.
Local Open Scope N_scope.

Definition asterisk : byte := "*"%byte.
Definition slash : byte := "/"%byte.

(** * Strings *)

(** [s.find(p)] for a string. *)
Fixpoint find_text (s p : bytes) : option nat :=
  if starts_with s p then Some O
  else match s with [] => None | _ :: s => S <$> find_text s p end.

(** [s.trim_start_matches(p)] for a non-empty string. *)
Fixpoint trim_matches_loop (fuel : nat) (s p : bytes) : bytes :=
  match fuel with
  | O => s
  | S fuel => if starts_with s p then trim_matches_loop fuel (drop (length p) s) p else s
  end.
Definition trim_start_matches (s p : bytes) : bytes := trim_matches_loop (length s) s p.

(** * The matcher *)

(** The loop of [wildcard] over the parts of the pattern: [rest] is
    [text[pos..]], [first] tells the part with index 0. *)
Fixpoint wildcard_loop (first : bool) (parts : list bytes) (rest : bytes) : bool :=
  match parts with
  | [] => true
  | part :: parts =>
      if beq part [] then wildcard_loop false parts rest
      else if first then
        if starts_with rest part then wildcard_loop false parts (drop (length part) rest) else false
      else
        match parts with
        | [] => if ends_with rest part then wildcard_loop false parts rest else false
        | _ =>
            match find_text rest part with
            | Some idx => wildcard_loop false parts (drop (idx + length part) rest)
            | None => false
            end
        end
  end.

(** [wildcard]. *)
Definition wildcard (text pat : bytes) : bool :=
  if negb (contains_byte pat asterisk) then beq text pat
  else wildcard_loop true (split_byte pat asterisk) text.

(** [matches_one]. *)
Definition matches_one (path : bytes) (segments : list bytes) (raw : bytes) : bool :=
  let p := trim raw in
  if beq p [] || starts_with p (str "#") then false
  else
    let dir_only := ends_with p [slash] in
    let p := if dir_only then take (length p - 1) p else p in
    let p := match p with c :: rest => if bool_decide (c = slash) then rest else p | [] => p end in
    if beq p [] then false
    else if contains_byte p slash then beq path p || starts_with path (p ++ [slash])
    else if dir_only then
      let ancestors := take (length segments - 1) segments in
      existsb (λ s, wildcard s p) ancestors
    else existsb (λ s, wildcard s p) segments.

(** [matches_any]. *)
Definition matches_any (path : bytes) (patterns : list bytes) : bool :=
  let norm := trim_start_matches (trim_start_matches path (str "./")) [slash] in
  if beq norm [] then false
  else
    let segments := split_byte norm slash in
    existsb (λ raw, matches_one norm segments raw) patterns.

(** * What a segment pattern means *)

Inductive segment_glob : bytes → bytes → Prop :=
  | segment_end : segment_glob [] []
  | segment_star p u v : segment_glob p v → segment_glob (asterisk :: p) (u ++ v)
  | segment_byte c p t : c ≠ asterisk → segment_glob p t → segment_glob (c :: p) (c :: t).

(** The same, on the parts between the asterisks. *)
Fixpoint parts_glob (parts : list bytes) (t : bytes) : Prop :=
  match parts with
  | [] => False
  | part :: parts =>
      match parts with
      | [] => t = part
      | _ => ∃ u v, t = part ++ u ++ v ∧ parts_glob parts v
      end
  end.

(** A text some suffix of which matches the parts. *)
Definition suffix_glob (parts : list bytes) (t : bytes) : Prop :=
  ∃ u v, t = u ++ v ∧ parts_glob parts v.

Lemma parts_glob_cons part q parts t :
  parts_glob (part :: q :: parts) t ↔ ∃ w, t = part ++ w ∧ suffix_glob (q :: parts) w.
Proof.
  split.
  - intros (u & v & -> & H). exists (u ++ v). split; [done|]. by exists u, v.
  - intros (w & -> & u & v & -> & H). by exists u, v.
Qed.

Lemma suffix_glob_mono parts u t : suffix_glob parts t → suffix_glob parts (u ++ t).
Proof. intros (a & v & -> & H). exists (u ++ a), v. by rewrite app_assoc. Qed.

Lemma suffix_glob_cons part q parts t :
  suffix_glob (part :: q :: parts) t ↔ ∃ a w, t = a ++ part ++ w ∧ suffix_glob (q :: parts) w.
Proof.
  split.
  - intros (a & v & -> & (w & -> & H)%parts_glob_cons). by exists a, w.
  - intros (a & w & -> & H). exists a, (part ++ w). split; [done|]. apply parts_glob_cons. by exists w.
Qed.

(** The pattern and its parts. *)
Lemma segment_glob_parts pat t : segment_glob pat t ↔ parts_glob (split_byte pat asterisk) t.
Proof.
  revert t. induction pat as [|c pat IH]; intros t.
  - cbn. split; [by inversion 1|]. intros ->. constructor.
  - cbn [split_byte]. pose proof (split_byte_nonempty pat asterisk) as Hne.
    case_bool_decide as Hc.
    + subst c. destruct (split_byte pat asterisk) as [|q parts] eqn:E; [done|].
      rewrite parts_glob_cons. cbn [app]. split.
      * inversion 1 as [|p u v Hv|]; [|done]. simplify_eq. exists (u ++ v). split; [done|].
        exists u, v. split; [done|]. by apply IH.
      * intros (w & -> & u & v & -> & Hv). constructor. by apply IH.
    + destruct (split_byte pat asterisk) as [|seg segs] eqn:E; [done|]. split.
      * inversion 1 as [| |c' p t' Hc' Ht]; [done|]. simplify_eq. apply IH in Ht.
        destruct segs as [|q segs]; cbn [parts_glob] in *; [by subst|].
        destruct Ht as (u & v & -> & Hv). by exists u, v.
      * destruct segs as [|q segs]; cbn [parts_glob] in *.
        -- intros ->. constructor; [done|]. by apply IH.
        -- intros (u & v & -> & Hv). cbn [app]. constructor; [done|]. apply IH. by exists u, v.
Qed.

(** * The greedy search *)

Lemma ends_with_app s p : ends_with s p = true ↔ ∃ q, s = q ++ p.
Proof.
  unfold ends_with. rewrite starts_with_app. split; intros [q E].
  - exists (rev q). apply (f_equal (@rev byte)) in E. by rewrite rev_app_distr, !rev_involutive in E.
  - exists (rev q). by rewrite E, rev_app_distr.
Qed.

Lemma find_text_Some s p i :
  find_text s p = Some i →
  ∃ a w, s = a ++ p ++ w ∧ length a = i ∧
    ∀ a' w', s = a' ++ p ++ w' → ∃ v, w = v ++ w'.
Proof.
  revert i. induction s as [|c s IH]; intros i; cbn [find_text].
  - destruct (starts_with [] p) eqn:E; [|done]. intros [= <-].
    apply starts_with_app in E as [q Hq]. exists [], q. split_and!; [done..|].
    intros a' w' E'. destruct p, a', q, w'; try done. by exists [].
  - destruct (starts_with (c :: s) p) eqn:E.
    + intros [= <-]. apply starts_with_app in E as [q Hq]. exists [], q. split_and!; [done..|].
      intros a' w' E'. rewrite Hq in E'. exists (drop (length p) (a' ++ p)).
      apply (f_equal (drop (length p))) in E'. rewrite drop_app_length, app_assoc in E'.
      rewrite E', drop_app_le; [done|]. rewrite length_app. lia.
    + intros H. apply fmap_Some in H as (j & Hj & ->).
      destruct (IH _ Hj) as (a & w & -> & <- & Hw). exists (c :: a), w. split_and!; [done..|].
      intros a' w' E'. destruct a' as [|c' a'].
      * exfalso. rewrite (proj2 (starts_with_app _ _)) in E; [done|]. by exists w'.
      * injection E' as <- E'. by apply Hw in E'.
Qed.

Lemma find_text_prefix p w : find_text (p ++ w) p = Some O.
Proof.
  assert (starts_with (p ++ w) p = true) as H by (apply starts_with_app; by exists w).
  destruct (p ++ w); cbn [find_text]; by rewrite H.
Qed.

Lemma find_text_None s p a w : find_text s p = None → s ≠ a ++ p ++ w.
Proof.
  revert s. induction a as [|c a IH]; intros s Hf ->.
  - cbn [app] in Hf. by rewrite find_text_prefix in Hf.
  - cbn [app find_text] in Hf. destruct (starts_with _ _); [done|].
    apply fmap_None in Hf. by apply (IH _ Hf).
Qed.

Lemma wildcard_loop_cons q q' parts rest :
  wildcard_loop false (q :: q' :: parts) rest =
    if beq q [] then wildcard_loop false (q' :: parts) rest
    else match find_text rest q with
         | Some idx => wildcard_loop false (q' :: parts) (drop (idx + length q) rest)
         | None => false
         end.
Proof. reflexivity. Qed.

Lemma wildcard_loop_first p q parts text :
  wildcard_loop true (p :: q :: parts) text =
    if beq p [] then wildcard_loop false (q :: parts) text
    else if starts_with text p then wildcard_loop false (q :: parts) (drop (length p) text) else false.
Proof. reflexivity. Qed.

(** After the first part, the loop looks for the rest of the pattern anywhere. *)
Lemma wildcard_loop_rest q parts rest :
  wildcard_loop false (q :: parts) rest = true ↔ suffix_glob (q :: parts) rest.
Proof.
  revert q rest. induction parts as [|q' parts IH]; intros q rest.
  - cbn [wildcard_loop]. unfold beq. case_bool_decide as Hq.
    + split; [|done]. intros _. exists rest, []. by rewrite app_nil_r.
    + destruct (ends_with rest q) eqn:E.
      * split; [|done]. intros _. apply ends_with_app in E as [a ->]. by exists a, q.
      * split; [done|]. intros (a & v & -> & ->). rewrite (proj2 (ends_with_app _ _)) in E; [done|].
        by exists a.
  - rewrite wildcard_loop_cons, suffix_glob_cons. unfold beq. case_bool_decide as Hq.
    + rewrite IH. subst q. split.
      * intros H. by exists [], rest.
      * intros (a & w & -> & H). by apply suffix_glob_mono.
    + destruct (find_text rest q) as [i|] eqn:E.
      * rewrite IH. destruct (find_text_Some _ _ _ E) as (a & w & -> & <- & Hw).
        rewrite drop_app_add, drop_app_length. split.
        -- intros H. by exists a, w.
        -- intros (a' & w' & E' & H). destruct (Hw _ _ E') as [v ->]. by apply suffix_glob_mono.
      * split; [done|]. intros (a & w & Hr & _). by destruct (find_text_None _ _ a w E).
Qed.

Lemma no_star_glob pat t : contains_byte pat asterisk = false → segment_glob pat t ↔ t = pat.
Proof.
  intros Hc. rewrite segment_glob_parts.
  assert (split_byte pat asterisk = [pat]) as ->; [|done].
  revert Hc. unfold contains_byte. induction pat as [|c pat IH]; [done|]. cbn [existsb split_byte].
  case_bool_decide; [done|]. intros Hc. by rewrite IH.
Qed.

Lemma star_parts pat :
  contains_byte pat asterisk = true → ∃ p q parts, split_byte pat asterisk = p :: q :: parts.
Proof.
  unfold contains_byte. induction pat as [|c pat IH]; [done|]. cbn [existsb split_byte].
  case_bool_decide.
  - intros _. pose proof (split_byte_nonempty pat asterisk). destruct (split_byte pat asterisk); [done|].
    by eexists _, _, _.
  - intros (p & q & parts & ->)%IH. by eexists _, _, _.
Qed.

(** The segment matcher of the purge is exact. Its single greedy pass,
    with the first part anchored at the start and the last one at the end,
    accepts a path segment exactly when the segment matches the pattern with
    every asterisk standing for any text. *)
Theorem wildcard_correct text pat : wildcard text pat = true ↔ segment_glob pat text.
Proof.
  unfold wildcard. destruct (contains_byte pat asterisk) eqn:Hc; cbn [negb].
  - rewrite segment_glob_parts. destruct (star_parts pat Hc) as (p & q & parts & ->).
    rewrite parts_glob_cons, wildcard_loop_first. unfold beq. case_bool_decide as Hp.
    + rewrite wildcard_loop_rest. subst p. cbn. split; [by eauto|]. by intros (w & -> & H).
    + destruct (starts_with text p) eqn:E.
      * apply starts_with_app in E as [w ->]. rewrite drop_app_length, wildcard_loop_rest. split.
        -- intros H. by exists w.
        -- intros (w' & E & H). by apply app_inv_head in E as ->.
      * split; [done|]. intros (w & -> & _). rewrite (proj2 (starts_with_app _ _)) in E; [done|by exists w].
  - unfold beq. rewrite bool_decide_eq_true, no_star_glob by done. done.
Qed.

(** A leading slash does not anchor a pattern of one segment: a file far down
    the vault matches. *)
Example leading_slash_matches_anywhere :
  matches_any (str "work/app/target/out.bin") [str "/target/"] = true ∧
  matches_any (str "notes/build") [str "/build"] = true.
Proof. split; vm_compute; reflexivity. Qed.
