(* ===== verification/Bridge.v ===== *)
(** src/crates/sync-server/src/bridge.rs: the validation of an uploaded root,
    the listing, the projection of a root to another tree version and the
    administrative purge, without the threads and executors they run on. The
    remaining functions of the file call the merge and the diff of the core
    library.

    The server's view of roots: an uploaded root that passes validation is a
    well-formed vault, projecting a root to another tree version keeps its
    files, and a purge removes exactly the files its patterns name. *)

From S2P Require Import Prelude Bytes Keyed Hash Chunk Store TreeV1 TreeV1Merge TreeV1Build TreeV1Repr TreeV1Props TreeV2Codec TreeV2CodecProps TreeV2 VersionedRoot MergeTreesProps IgnoreMatch.
Local Open Scope N_scope.

Definition MAX_ROOT_FILES : N := 5000000.
Definition JS_MAX_SAFE_INTEGER : N := 9007199254740991.

(** [valid_vault_path]. *)
Definition valid_vault_path (path : bytes) : bool :=
  if (len path =? 0) || (4096 <? len path) || starts_with path (str "/")
     || contains_byte path "\"%byte
  then false
  else if existsb is_control (chars path) then false
  else forallb (λ segment, negb (beq segment []) && negb (beq segment (str "."))
                           && negb (beq segment (str "..")))
         (split_byte path "/"%byte).

(** [valid_top_level_prefix]. *)
Definition valid_top_level_prefix (prefix : bytes) : bool :=
  if beq prefix [] then true
  else
    match last prefix with
    | Some c =>
        if bool_decide (c = "/"%byte) then
          let segment := take (length prefix - 1) prefix in
          negb (contains_byte segment "/"%byte) && valid_vault_path segment
        else false
    | None => false
    end.

(** The test on the integers of an entry. *)
Definition entry_in_range (e : FileEntry) : bool :=
  (fe_size_bytes e <=? JS_MAX_SAFE_INTEGER) && (fe_mtime_ms e <=? JS_MAX_SAFE_INTEGER).

(** [previous.is_some_and(|previous| previous >= next)]. *)
Definition out_of_order (previous : option bytes) (next : bytes) : bool :=
  match previous with Some p => ble next p | None => false end.

(** The loop over the entries of one child. *)
Fixpoint validate_child (prefix : bytes) (total : N) (previous : option bytes)
    (child entries : list FileEntry) : result string (list FileEntry) :=
  match child with
  | [] => Ok entries
  | e :: child =>
      if negb (valid_vault_path (fe_path e)) then Err "unsafe vault path"%string
      else if negb (beq (top_level_prefix (fe_path e)) prefix)
      then Err "entry is stored under wrong root prefix"%string
      else if out_of_order previous (fe_path e)
      then Err "root entries are not strictly path-sorted"%string
      else if negb (entry_in_range e) then Err "entry exceeds client integer range"%string
      else
        let entries := entries ++ [e] in
        if total <? len entries then Err "root contains more entries than declared"%string
        else validate_child prefix total (Some (fe_path e)) child entries
  end.

Section validate.
Context {S : Type} {B3 : Blake3} {FB : FlatBuffers} {CS : ChunkStore S}.

(** The loop over the children of the root. *)
Fixpoint validate_children (s : S) (total : N) (previous : option bytes)
    (children : list (bytes * FileHash)) (entries : list FileEntry)
    : result string (list FileEntry) :=
  match children with
  | [] => Ok entries
  | (prefix, child_hash) :: children =>
      if out_of_order previous prefix
      then Err "root child prefixes are not strictly sorted"%string
      else if negb (valid_top_level_prefix prefix) then Err "invalid root child prefix"%string
      else
        match load_all_entries child_hash s with
        | Err _ => Err "child does not load"%string
        | Ok child =>
            let? entries := validate_child prefix total None child entries in
            validate_children s total (Some prefix) children entries
        end
  end.

(** [run_validate_root]. *)
Definition validate_root (s : S) (root : RootNode) : result string (list FileEntry) :=
  if negb (rn_version root =? 1) then Err "unsupported root version"%string
  else if MAX_ROOT_FILES <? rn_total_files root then Err "root declares too many files"%string
  else if (rn_total_files root <? len (rn_children root)) && negb (rn_total_files root =? 0)
  then Err "root has more top-level children than files"%string
  else if (rn_total_files root =? 0) && negb (len (rn_children root) =? 0)
  then Err "empty root has child nodes"%string
  else
    let? entries := validate_children s (rn_total_files root) None (rn_children root) [] in
    if negb (len entries =? rn_total_files root)
    then Err "root declares another number of files"%string
    else Ok entries.

(** The loop over the entries of a version 2 tree. *)
Fixpoint validate_listed (entries : list FileEntry) : result string unit :=
  match entries with
  | [] => Ok tt
  | e :: entries =>
      if negb (valid_vault_path (fe_path e)) then Err "unsafe vault path"%string
      else if negb (entry_in_range e) then Err "entry exceeds client integer range"%string
      else validate_listed entries
  end.

(** [run_validate_versioned_root]. *)
Definition validate_versioned_root (s : S) (root : VersionedRoot)
    : result string (list FileEntry) :=
  match root with
  | V1 root => validate_root s root
  | V2 root =>
      if MAX_ROOT_FILES <? r2_total_files root then Err "root declares too many files"%string
      else
        match load_all_entries_v2 (r2_tree root) s with
        | Err _ => Err "tree does not load"%string
        | Ok entries => let? _ := validate_listed entries in Ok entries
        end
  end.

(** [run_versioned_list_entries]. *)
Definition versioned_list_entries (s : S) (root : VersionedRoot)
    : result ChunkError (list FileEntry) := vr_load_all_entries root s.

(** [run_project_root_version]. *)
Definition project_root_version (now : N) (root : VersionedRoot) (target_version : N)
    (device_id : bytes) : St S ChunkError VersionedRoot :=
  let! entries := (λ s, (vr_load_all_entries root s, s)) in
  build_root now entries target_version (vr_vault_id root) device_id.

(** [run_versioned_purge]: the new root, the numbers of removed and of kept
    entries. *)
Definition versioned_purge (now : N) (root : VersionedRoot) (patterns : list bytes)
    : St S ChunkError (VersionedRoot * N * N) :=
  let version := vr_version root in
  let vault_id := vr_vault_id root in
  let parent := vr_hash root in
  let! entries := (λ s, (vr_load_all_entries root s, s)) in
  let before := len entries in
  let entries := List.filter (λ e, negb (matches_any (fe_path e) patterns)) entries in
  let kept := len entries in
  let removed := before - kept in
  let! new_root := build_root now entries version vault_id (str "admin-purge") in
  let new_root := set_history_metadata 0 (Some parent) (str "admin-purge") new_root in
  st_ret (new_root, removed, kept).
End validate.


(** * Validation *)

Definition entry_admitted (e : FileEntry) : Prop :=
  valid_vault_path (fe_path e) = true ∧ entry_in_range e = true.

Lemma out_of_order_Some p q : out_of_order (Some p) q = false → p ≺ q.
Proof.
  unfold out_of_order. intros H. destruct (bytes_trichotomy p q) as [Hlt|Hle]; [done|].
  assert (ble q p = true); [|congruence]. apply ble_true. intros Hlt.
  destruct Hle as [->|Hgt]; [by apply bytes_lt_ne in Hlt|by apply (bytes_lt_asym p q)].
Qed.

(** What the loop over one child adds. *)
Lemma validate_child_ok prefix total prev child entries es :
  validate_child prefix total prev child entries = Ok es →
  es = entries ++ child ∧ Forall entry_admitted child ∧
  Forall (λ e, top_level_prefix (fe_path e) = prefix) child ∧
  ssorted fe_path child ∧
  (∀ p, prev = Some p → Forall (λ e, p ≺ fe_path e) child).
Proof.
  revert prev entries. induction child as [|e child IH]; intros prev entries; cbn [validate_child].
  - intros [= <-]. rewrite app_nil_r. repeat constructor.
  - destruct (valid_vault_path (fe_path e)) eqn:E1; [|done].
    destruct (beq (top_level_prefix (fe_path e)) prefix) eqn:E2; [|done].
    destruct (out_of_order prev (fe_path e)) eqn:E3; [done|].
    destruct (entry_in_range e) eqn:E4; [|done]. cbn [negb].
    destruct (total <? len (entries ++ [e])); [done|].
    intros (-> & H1 & H2 & H3 & H4)%IH. specialize (H4 _ eq_refl).
    apply beq_true in E2. rewrite <-app_assoc. split_and!; [done|by constructor|by constructor| |].
    + by apply ssorted_cons.
    + intros p ->. apply out_of_order_Some in E3. constructor; [done|].
      eapply Forall_impl; [exact H4|]. intros x Hx. by etrans.
Qed.

Section validate.
Context {S : Type} {B3 : Blake3} {FB : FlatBuffers} {CS : ChunkStore S}.

(** What the loop over the children adds; [above] says that the prefixes are
    still to come. *)
Lemma validate_children_ok s total prev children entries es :
  validate_children s total prev children entries = Ok es →
  ∃ new, es = entries ++ new ∧ load_children children s = Ok new ∧
    Forall entry_admitted new ∧ NoDup (fe_path <$> new) ∧
    (∀ p, prev = Some p → Forall (λ e, p ≺ top_level_prefix (fe_path e)) new).
Proof using.
  revert prev entries. induction children as [|[prefix h] children IH]; intros prev entries;
    cbn [validate_children load_children].
  - intros [= <-]. exists []. rewrite app_nil_r. repeat constructor.
  - destruct (out_of_order prev prefix) eqn:E1; [done|].
    destruct (valid_top_level_prefix prefix); [|done]. cbn [negb].
    destruct (load_all_entries h s) as [child|]; [|done].
    destruct (validate_child prefix total None child entries) as [entries'|] eqn:E2; [|done].
    apply validate_child_ok in E2 as (-> & H1 & H2 & H3 & _).
    intros (new & -> & -> & H4 & H5 & H6)%IH. specialize (H6 _ eq_refl).
    exists (child ++ new). rewrite app_assoc. split_and!; [done|done|by apply Forall_app| |].
    + rewrite fmap_app, NoDup_app. split_and!; [by apply ssorted_NoDup| |done].
      intros p (e & -> & He)%list_elem_of_fmap (e' & E & He')%list_elem_of_fmap.
      rewrite Forall_forall in H2, H6. specialize (H2 _ He). specialize (H6 _ He').
      rewrite <-E, H2 in H6. by apply bytes_lt_ne in H6.
    + intros p ->. apply out_of_order_Some in E1. apply Forall_app. split.
      * eapply Forall_impl; [exact H2|]. by intros e ->.
      * eapply Forall_impl; [exact H6|]. intros e He. by etrans.
Qed.

Lemma validate_listed_ok entries : validate_listed entries = Ok tt → Forall entry_admitted entries.
Proof using.
  induction entries as [|e entries IH]; [constructor|]. cbn [validate_listed].
  destruct (valid_vault_path (fe_path e)) eqn:E1; [|done].
  destruct (entry_in_range e) eqn:E2; [|done]. intros H. constructor; [done|]. by apply IH.
Qed.

(** What loading a version 2 tree has checked. *)
Lemma load_v2_checked root s es :
  load_all_entries_v2 root s = Ok es → len es = tv_total_files root ∧ ssorted fe_path es.
Proof using.
  unfold load_all_entries_v2. unfold st_bind at 1.
  destruct (collect_leaf_refs root s tb_default) as [[leaves|] b]; [|done].
  unfold st_bind at 1. destruct (load_leaf_span leaves s b) as [[out|] b'] eqn:E; [|done].
  destruct (N.eqb_spec (len out) (tv_total_files root)) as [Hl|]; [|done]. cbn.
  intros [= <-]. split; [done|]. revert E. unfold load_leaf_span, st_bind, st_lift.
  repeat match goal with |- context [match ?m with Ok _ => _ | Err _ => _ end] =>
    lazymatch m with validate_entries _ => fail | _ => destruct m; [|done] end end.
  destruct (load_span_loop s leaves [] b) as [[out'|] b1]; [|done].
  destruct (validate_entries out') as [[]|] eqn:Ev; [|done]. cbn. intros [= <- <-].
  by apply validate_entries_ok in Ev as (_ & _ & Hs).
Qed.

(** C20: the gate for uploaded roots. When the validation of a root of either
    version accepts, the root holds exactly the files it lists: no path occurs
    twice, every path is a safe relative path, all numbers are ones a client
    can represent, the declared total is the number of files and within the
    limit, and every later read of the root yields these files in path
    order. *)
Theorem validated_root_sound s root es :
  validate_versioned_root s root = Ok es →
  NoDup (fe_path <$> es) ∧ Forall entry_admitted es ∧
  len es = vr_total_files root ∧ len es ≤ MAX_ROOT_FILES ∧
  vr_load_all_entries root s = Ok (sort_by fe_path es).
Proof using.
  destruct root as [root|root]; cbn [validate_versioned_root].
  - unfold validate_root. destruct (negb (rn_version root =? 1)); [done|].
    destruct (N.ltb_spec MAX_ROOT_FILES (rn_total_files root)) as [|Hmax]; [done|].
    destruct (_ && _); [done|]. destruct (_ && _); [done|].
    destruct (validate_children _ _ _ _ _) as [es'|] eqn:E; [|done].
    apply validate_children_ok in E as (new & -> & Hload & Ha & Hnd & _). cbn [app].
    destruct (N.eqb_spec (len new) (rn_total_files root)) as [Hl|]; [|done]. intros [= <-].
    split_and!; [done..|by rewrite Hl|]. unfold vr_load_all_entries. cbn [vr_total_files].
    rewrite (proj2 (N.ltb_ge _ _)), Hload by (unfold MAX_ROOT_FILES, MAX_LOADED_ENTRIES in *; lia).
    rewrite (proj2 (strictly_ordered_ssorted _ _)) by (by apply sort_by_ssorted).
    unfold len in *. rewrite length_sort_by, Hl, N.eqb_refl. done.
  - destruct (N.ltb_spec MAX_ROOT_FILES (r2_total_files root)) as [|Hmax]; [done|].
    destruct (load_all_entries_v2 (r2_tree root) s) as [entries|] eqn:E; [|done].
    destruct (validate_listed entries) as [[]|] eqn:El; [|done]. intros [= <-].
    pose proof (load_v2_checked _ _ _ E) as [Hl Hs]. unfold r2_total_files in Hmax.
    split_and!; [by apply ssorted_NoDup|by apply validate_listed_ok|done|by rewrite Hl|].
    unfold vr_load_all_entries. cbn [vr_total_files]. unfold r2_total_files.
    rewrite (proj2 (N.ltb_ge _ _)), E by (unfold MAX_ROOT_FILES, MAX_LOADED_ENTRIES in *; lia).
    rewrite Hl, N.eqb_refl. cbn [negb]. rewrite (proj2 (strictly_ordered_ssorted _ _) Hs). cbn.
    by rewrite sort_by_id.
Qed.

(** * Objects are never lost *)

(** What loads from a store loads from every larger store. *)
Lemma load_loop_le fuel s s' pending out es :
  store_le s s' → load_loop fuel s pending out = Ok es → load_loop fuel s' pending out = Ok es.
Proof using.
  intros Hle. revert pending out. induction fuel as [|fuel IH]; intros [|h pending] out; try done.
  cbn [load_loop]. destruct (cs_get h s) as [b|] eqn:E; [|done]. rewrite (Hle _ _ E).
  destruct (leaf_deserialize b); [destruct (_ <? _); [done|]; apply IH|].
  destruct (internal_deserialize b); [apply IH|done].
Qed.

Lemma load_all_entries_le h s s' es :
  store_le s s' → load_all_entries h s = Ok es → load_all_entries h s' = Ok es.
Proof using.
  intros Hle. unfold load_all_entries. generalize (N.to_nat TreeV1.MAX_VISITED_NODES). intros fuel.
  destruct (load_loop fuel s [h] []) as [l|] eqn:E; [|done].
  by rewrite (load_loop_le _ _ _ _ _ _ Hle E).
Qed.

Lemma load_children_le children s s' es :
  store_le s s' → load_children children s = Ok es → load_children children s' = Ok es.
Proof using.
  intros Hle. revert es. induction children as [|[p h] children IH]; intros es; [done|].
  cbn [load_children]. destruct (load_all_entries h s) as [l|] eqn:E; [|done].
  rewrite (load_all_entries_le _ _ _ _ Hle E).
  destruct (load_children children s) as [rest|] eqn:E'; [|done]. by rewrite (IH _ eq_refl).
Qed.

Lemma load_node_le s s' range node :
  store_le s s' → TreeV2.load_node s range = Ok node → TreeV2.load_node s' range = Ok node.
Proof using.
  intros Hle. unfold TreeV2.load_node. destruct (validate_range range); [|done].
  destruct (cs_get (rr_hash range) s) as [b|] eqn:E; [|done]. by rewrite (Hle _ _ E).
Qed.

(** A traversal that succeeds is the same in a larger store. *)
Definition extends {A} (m m' : St TraversalBudget ChunkError A) : Prop :=
  ∀ b a b', m b = (Ok a, b') → m' b = (Ok a, b').

Lemma extends_refl {A} (m : St TraversalBudget ChunkError A) : extends m m.
Proof using. by intros b a b'. Qed.

Lemma extends_bind {A B} (m m' : St TraversalBudget ChunkError A) (k k' : A → St TraversalBudget ChunkError B) :
  extends m m' → (∀ a, extends (k a) (k' a)) → extends (st_bind m k) (st_bind m' k').
Proof using.
  intros Hm Hk b r b'. unfold st_bind. destruct (m b) as [[a|] b1] eqn:E; [|done].
  rewrite (Hm _ _ _ E). apply Hk.
Qed.

Lemma extends_node s s' range :
  store_le s s' → extends (st_lift (TreeV2.load_node s range)) (st_lift (TreeV2.load_node s' range)).
Proof using.
  intros Hle b node b'. unfold st_lift. destruct (TreeV2.load_node s range) eqn:E; [|done].
  by rewrite (load_node_le _ _ _ _ Hle E).
Qed.

Lemma extends_collect s s' fuel pending leaves :
  store_le s s' → extends (collect_loop fuel s pending leaves) (collect_loop fuel s' pending leaves).
Proof using.
  intros Hle. revert pending leaves.
  induction fuel as [|fuel IH]; intros [|r pending] leaves; try apply extends_refl.
  cbn [collect_loop]. apply extends_bind; [apply extends_refl|intros _].
  destruct (rr_height r =? 0); [apply IH|]. apply extends_bind; [by apply extends_node|].
  intros [|? children]; [apply extends_refl|apply IH].
Qed.

Lemma extends_span s s' leaves out :
  store_le s s' → extends (load_span_loop s leaves out) (load_span_loop s' leaves out).
Proof using.
  intros Hle. revert out. induction leaves as [|r leaves IH]; intros out; [apply extends_refl|].
  cbn [load_span_loop]. apply extends_bind; [apply extends_refl|intros _].
  apply extends_bind; [by apply extends_node|]. intros [entries|]; [|apply extends_refl].
  apply extends_bind; [apply extends_refl|intros _]. apply IH.
Qed.

Lemma load_all_entries_v2_le root s s' es :
  store_le s s' → load_all_entries_v2 root s = Ok es → load_all_entries_v2 root s' = Ok es.
Proof using.
  intros Hle. unfold load_all_entries_v2, collect_leaf_refs.
  generalize (N.to_nat (TreeV2Codec.MAX_VISITED_NODES + 1)). intros fuel.
  match goal with |- (?m tb_default).1 = _ → (?m' tb_default).1 = _ => assert (extends m m') as H end.
  { apply extends_bind.
    - apply extends_bind; [apply extends_refl|intros _].
      apply extends_bind; [by apply extends_collect|intros leaves; apply extends_refl].
    - intros leaves. apply extends_bind; [|intros; apply extends_refl]. unfold load_leaf_span.
      do 2 (apply extends_bind; [apply extends_refl|intros _]).
      apply extends_bind; [by apply extends_span|intros; apply extends_refl]. }
  match goal with |- (?m tb_default).1 = _ → _ => destruct (m tb_default) as [[a|] b] eqn:E end; [|done].
  intros [= <-]. by rewrite (H _ _ _ E).
Qed.

Lemma vr_load_le root s s' es :
  store_le s s' → vr_load_all_entries root s = Ok es → vr_load_all_entries root s' = Ok es.
Proof using.
  intros Hle. unfold vr_load_all_entries. destruct (_ <? _); [done|].
  destruct root as [root|root].
  - destruct (load_children (rn_children root) s) as [l|] eqn:E; [|done].
    by rewrite (load_children_le _ _ _ _ Hle E).
  - destruct (load_all_entries_v2 (r2_tree root) s) as [l|] eqn:E; [|done].
    by rewrite (load_all_entries_v2_le _ _ _ _ Hle E).
Qed.
End validate.

(** * Projection and purge *)

Lemma ssorted_filter f es : ssorted fe_path es → ssorted fe_path (List.filter f es).
Proof.
  induction es as [|e es IH]; [done|]. intros [He Hs]%ssorted_cons. cbn [List.filter].
  destruct (f e); [|by apply IH]. apply ssorted_cons. split; [|by apply IH].
  rewrite Forall_forall in *. intros x Hx. apply He.
  apply list_elem_of_In, filter_In in Hx as [Hx _]. by apply list_elem_of_In.
Qed.

Lemma entries_map_filter g es p :
  entries_map (List.filter (λ e, negb (g (fe_path e))) es) !! p
    = if g p then None else entries_map es !! p.
Proof.
  unfold entries_map. induction es as [|e es IH]; [by destruct (g p)|]. cbn [List.filter].
  rewrite (kmap_cons _ e es). destruct (g (fe_path e)) eqn:E; cbn [negb].
  - rewrite IH. destruct (decide (fe_path e = p)) as [<-|Hne]; [by rewrite E|].
    by rewrite lookup_insert_ne.
  - rewrite kmap_cons. destruct (decide (fe_path e = p)) as [<-|Hne].
    + by rewrite !lookup_insert_eq, E.
    + by rewrite !lookup_insert_ne, IH.
Qed.

Section rebuild.
Context {S : Type} {B3 : Blake3} {FB : FlatBuffers} {CS : ChunkStore S} {CSL : ChunkStoreLaws S}.
Context (P : bytes → Prop) (Hinj : injective_on hash_bytes P).

Lemma device_id_purge : validate_root_id "device" (str "admin-purge") true = Ok tt.
Proof using. vm_compute. reflexivity. Qed.

(** Activating another tree version changes no file. Projecting a root
    that loads to either version succeeds, the projected root lists the same
    entries, and the old root still loads: the operation can be undone. *)
Theorem projection_keeps_vault now root version device_id s es :
  store_ok P s → vr_load_all_entries root s = Ok es →
  version = TREE_V1 ∨ version = TREE_V2 → buildable P version es →
  validate_root_id "vault" (vr_vault_id root) false = Ok tt →
  validate_root_id "device" device_id true = Ok tt →
  ∃ root' s', project_root_version now root version device_id s = (Ok root', s') ∧
    vr_version root' = version ∧ store_ok P s' ∧
    vr_load_all_entries root' s' = Ok es ∧ vr_load_all_entries root s' = Ok es.
Proof using CSL Hinj.
  intros Hs Hload Hver Hb Hvid Hdid. pose proof (load_sorted _ _ _ Hload) as Hso.
  destruct (build_root_spec P Hinj now es version (vr_vault_id root) device_id s)
    as (root' & s' & Hrun & Hv & Hs' & Hle & Hl); [done|done|by apply ssorted_NoDup|done..|].
  exists root', s'. unfold project_root_version. erewrite st_bind_run by (by rewrite Hload).
  rewrite sort_by_id in Hl by done. split_and!; [done..|]. by apply (vr_load_le root s s').
Qed.

(** A purge removes exactly the files its patterns name. On a root that
    loads, the purge succeeds; the new root, of the same version and with the
    old root as its parent, lists precisely the entries whose path no pattern
    matches, unchanged; the counts are right; and the old root still loads,
    so that the purge can be rolled back. *)
Theorem purge_exact now root patterns s es :
  let kept := List.filter (λ e, negb (matches_any (fe_path e) patterns)) es in
  store_ok P s → vr_load_all_entries root s = Ok es → buildable P (vr_version root) kept →
  validate_root_id "vault" (vr_vault_id root) false = Ok tt →
  ∃ root' s', versioned_purge now root patterns s = (Ok (root', len es - len kept, len kept), s') ∧
    vr_version root' = vr_version root ∧ vr_parent_hash root' = Some (vr_hash root) ∧
    vr_load_all_entries root' s' = Ok kept ∧
    (∀ p, entries_map kept !! p = if matches_any p patterns then None else entries_map es !! p) ∧
    vr_load_all_entries root s' = Ok es.
Proof using CSL Hinj.
  intros kept Hs Hload Hb Hvid. pose proof (load_sorted _ _ _ Hload) as Hso.
  assert (ssorted fe_path kept) as Hsk by (by apply ssorted_filter).
  destruct (build_root_spec P Hinj now kept (vr_version root) (vr_vault_id root) (str "admin-purge") s)
    as (root' & s' & Hrun & Hv & Hs' & Hle & Hl);
    [by destruct root; [left|right]|done|by apply ssorted_NoDup|done|done|apply device_id_purge|].
  rewrite sort_by_id in Hl by done.
  exists (set_history_metadata 0 (Some (vr_hash root)) (str "admin-purge") root'), s'.
  unfold versioned_purge. erewrite st_bind_run by (by rewrite Hload). fold kept.
  erewrite st_bind_run by exact Hrun. split_and!; [done|by destruct root'|by destruct root'| | |].
  - by rewrite load_set_history.
  - intros p. apply (entries_map_filter (λ p, matches_any p patterns)).
  - by apply (vr_load_le root s s').
Qed.
End rebuild.
