(* ===== verification/Publish.v ===== *)
(** src/crates/sync-server/src/api.rs, the root handlers: [publish_root] with
    its receipt lookup, validation, merge, guard, history writes and
    publication, cancellation, the outcome query and the rollback.

    Every handler runs under the lock of its vault, so it is one function of
    the vault's disk, the chunk store and the content store. What the outside
    decides is a parameter of each call: the clock, where the operating
    system fails, which contents are present, what the session of the device
    supports, the guard configuration and the answer of the deletion bypass.
    One value stands for the readings of the clock during a request.
    [post_rollback] reads its target before it takes the lock; the target is
    in the history, where an object once read keeps its identity, so it is
    read with the rest here. Log lines and change notifications are left out,
    and an error carries the fixed part of its message. *)

From S2P Require Import Prelude Bytes Text Keyed Hash Chunk Store TreeV1 VersionedRoot.
From S2P Require Import ContentStore SyncRules Conflict Merge Guard Bridge.
From S2P Require Import StorageLayout RootHead RootOutcome VaultStore.
Local Open Scope N_scope.

Record PublishEnv := {
  pe_incarnation : bytes;
  pe_now : N;
  pe_receipt_read_fails : bool;
  pe_barrier_fails : bool;
  pe_head_read_fails : bool;
  pe_current_read_fails : bool;
  pe_base_read_fails : bool;
  pe_check_read_fails : bool;
  pe_commit_read_fails : bool;
  pe_incoming_fault : WriteFault;
  pe_merged_fault : WriteFault;
  pe_commit_fault : WriteFault;
  pe_blocking_fails : bool;
  pe_present : FileEntry → bool;
  pe_supports_v2 : bool;
  pe_guard : GuardConfig;
  pe_bypass : bool;
}.

(** [?] on an [io::Error]. *)
Definition io_error {A} (r : IoResult A) : result ServerError A :=
  match r with Ok a => Ok a | Err m => Err (Io m) end.

(** [root_publication_error]. *)
Definition root_publication_error (e : StoreError) : ServerError :=
  if is_root_publication_refusal e
  then PayloadTooLarge "root outcome retention limit reached; publication deferred"
  else match e with Refused m => Io m | IoFault m => Io m end.
Definition plain_error (e : StoreError) : ServerError :=
  match e with Refused m => Io m | IoFault m => Io m end.

Definition accepted_result `{Hex} (hash : FileHash) : Value :=
  Obj [(str "accepted", Bool true); (str "root_hash", Str (hash_to_hex hash))].

Definition conflict_row `{Hex} (c : FileConflict) : Value :=
  Obj [(str "base_hash", Str (hash_to_hex (fc_base_hash c)));
       (str "path", Str (fc_path c));
       (str "side_a_hash", Str (hash_to_hex (fc_side_a_hash c)));
       (str "side_b_hash", Str (hash_to_hex (fc_side_b_hash c)))].

Definition merged_result `{Hex} (hash : FileHash) (r : VersionedMergeResult) : Value :=
  Obj [(str "auto_resolved", Num (PosInt (vmr_auto_resolved_count r)));
       (str "conflicts", Arr (conflict_row <$> vmr_file_conflicts r));
       (str "merged", Bool true);
       (str "root_hash", Str (hash_to_hex hash));
       (str "text_merged", Num (PosInt (vmr_text_merged_count r)))].

(** [RootReceipt { sequence: commit.sequence, ... }]. *)
Definition receipt_for (commit : RootCommit) (result : Value) : RootReceipt :=
  {| sequence := rc_sequence commit; mutation_id := rc_mutation_id commit;
     request_hash := rc_request_hash commit; outcome := result |}.

Section handlers.
Context {S C : Type} {B3 : Blake3} {HX : Hex} {RJ : RootJson} {FB : FlatBuffers}.
Context {CS : ChunkStore S} {CT : ContentStore C} {SM : Similar}.
Context (vault_id : bytes).

(** The state a handler works on. *)
Abbreviation VaultState := (VaultDisk * S * C)%type.
Abbreviation Handler := (St VaultState ServerError).

Definition on_disk {A} (convert : StoreError → ServerError)
    (f : VaultDisk → result StoreError A * VaultDisk) : Handler A := λ st,
  let '(d, s, c) := st in
  match f d with
  | (Ok a, d) => (Ok a, (d, s, c))
  | (Err e, d) => (Err (convert e), (d, s, c))
  end.

(** [decode_stored_root] and [validate_root_identity]. *)
Definition stored_root (hash : FileHash) (b : bytes) : result ServerError VersionedRoot :=
  match vr_deserialize b with
  | Err _ => Err (Internal "corrupt stored root")
  | Ok root =>
      if negb (beq (vr_vault_id root) vault_id) || negb (beq (vr_hash root) hash)
      then Err (Internal "root identity mismatch")
      else Ok root
  end.

(** [require_tree_access]. *)
Definition require_tree_access (env : PublishEnv) (version : N) : result ServerError unit :=
  if negb (version =? TREE_V2) then Ok tt
  else if pe_supports_v2 env then Ok tt
  else Err (UpgradeRequired "this vault uses Tree v2; update/reload the Obsetync plugin and retry — enrollment remains valid").

(** The receipt lookup at the start of [publish_root] and [post_root_cancel]. *)
Definition lookup_receipt (env : PublishEnv) (device : bytes) : Handler (option RootReceipt) := λ st,
  let '(d, s, c) := st in
  let '(res, d) := get_root_receipt vault_id (pe_receipt_read_fails env) (pe_barrier_fails env)
                     device d in
  (io_error res, (d, s, c)).

(** [commit_root_result]. *)
Definition commit_root_result (env : PublishEnv) (device : bytes) (root : FileHash)
    (result : Value) (commit : option RootCommit) : Handler Value :=
  match commit with
  | Some commit =>
      let receipt := receipt_for commit result in
      let! _ := on_disk root_publication_error
                  (set_current_root_with_receipt vault_id (pe_commit_read_fails env)
                     (pe_commit_fault env) root device receipt) in
      st_ret (terminal_outcome (pe_incarnation env) receipt)
  | None =>
      let! _ := on_disk plain_error
                  (set_current_root vault_id (pe_commit_read_fails env) (pe_commit_fault env) root) in
      st_ret result
  end.

(** [validate_root_result]. *)
Definition validate_root_result (env : PublishEnv) (device : bytes) (root : FileHash)
    (result : Value) (commit : option RootCommit) : Handler unit := λ st,
  let '(d, s, c) := st in
  match commit with
  | None => (Ok tt, st)
  | Some commit =>
      match validate_root_receipt vault_id (pe_check_read_fails env) root device
              (receipt_for commit result) d with
      | Ok _ => (Ok tt, st)
      | Err e => (Err (root_publication_error e), st)
      end
  end.

(** The guard, with its answer as an error of the handler. *)
Definition guard_root (env : PublishEnv) (current candidate : VersionedRoot) : Handler unit := λ st,
  let '(d, s, c) := st in
  match enforce_guard s (pe_guard env) (pe_bypass env) current candidate with
  | GuardPass _ => (Ok tt, st)
  | GuardRejected reason _ => (Err (ConflictError reason), st)
  | GuardFailed _ => (Err (Internal "guard scan failed"), st)
  end.

(** The structure of the uploaded root and the content it refers to. *)
Definition validate_upload (env : PublishEnv) (root : VersionedRoot) : Handler unit := λ st,
  let '(d, s, c) := st in
  match validate_versioned_root s root with
  | Err _ => (Err (BadRequest "invalid root structure"), st)
  | Ok entries =>
      if pe_blocking_fails env then (Err (ServiceUnavailable "storage worker"), st)
      else if forallb (pe_present env) entries then (Ok tt, st)
      else (Err (BadRequest "root references missing content"), st)
  end.

Definition serialize_root (root : VersionedRoot) : result ServerError bytes :=
  match vr_serialize root with Ok b => Ok b | Err _ => Err (Internal "serialize root") end.

Definition history_root (missing : ServerError) (read_fails : bool) (hash : FileHash)
    : Handler VersionedRoot := λ st,
  let '(d, s, c) := st in
  match get_root read_fails hash d with
  | None => (Err missing, st)
  | Some b => (stored_root hash b, st)
  end.

Definition write_history (fault : WriteFault) (hash : FileHash) (b : bytes) : Handler unit :=
  on_disk plain_error (store_root vault_id fault hash b).

(** [bridge::run_versioned_merge]. *)
Definition merge_roots (env : PublishEnv) (base current incoming : VersionedRoot)
    : Handler VersionedMergeResult := λ st,
  let '(d, s, c) := st in
  match merge_versioned_trees (pe_now env) base current incoming s c with
  | (Ok r, s, c) => (Ok r, (d, s, c))
  | (Err _, s, c) => (Err (Internal "merge failed"), (d, s, c))
  end.

(** The first root of a vault. *)
Definition publish_first (env : PublishEnv) (device : bytes) (incoming : VersionedRoot)
    (commit : option RootCommit) : Handler Value :=
  if negb (vr_version incoming =? TREE_V1)
  then st_err (ConflictError (str "Tree v2 is not active for this vault; create it with Tree v1 first"))
  else
    let hash := vr_hash incoming in
    let! b := st_lift (serialize_root (set_history_metadata (pe_now env) None device incoming)) in
    let! _ := write_history (pe_incoming_fault env) hash b in
    commit_root_result env device hash (accepted_result hash) commit.

(** A root whose parent is the current root. *)
Definition publish_forward (env : PublishEnv) (device : bytes) (current incoming : VersionedRoot)
    (incoming_bytes : bytes) (commit : option RootCommit) : Handler Value :=
  let hash := vr_hash incoming in
  let result := accepted_result hash in
  let! _ := validate_root_result env device hash result commit in
  let! _ := guard_root env current incoming in
  let! _ := write_history (pe_incoming_fault env) hash incoming_bytes in
  commit_root_result env device hash result commit.

(** A root that diverged from the current one: merged with it. *)
Definition publish_merge (env : PublishEnv) (device : bytes) (parent_hash current_hash : FileHash)
    (current incoming : VersionedRoot) (incoming_bytes : bytes) (commit : option RootCommit)
    : Handler Value :=
  let! base := history_root (BadRequest "parent root not found in history — full rescan needed")
                 (pe_base_read_fails env) parent_hash in
  let! merge_result := merge_roots env base current incoming in
  let merged_hash := vr_hash (vmr_new_root merge_result) in
  let new_root := set_history_metadata (pe_now env) (Some current_hash) (str "server")
                    (vmr_new_root merge_result) in
  let! merged_bytes := st_lift (serialize_root new_root) in
  let result := merged_result merged_hash merge_result in
  let! _ := validate_root_result env device merged_hash result commit in
  let! _ := guard_root env current new_root in
  let! _ := write_history (pe_incoming_fault env) (vr_hash incoming) incoming_bytes in
  let! _ := write_history (pe_merged_fault env) merged_hash merged_bytes in
  commit_root_result env device merged_hash result commit.

(** The branch of a vault that has a current root. *)
Definition publish_next (env : PublishEnv) (device parent_hex : bytes) (current_hash : FileHash)
    (incoming : VersionedRoot) (commit : option RootCommit) : Handler Value :=
  match hex_to_hash parent_hex with
  | Err _ => st_err (BadRequest "invalid X-Parent-Root header")
  | Ok parent_hash =>
      let! current := history_root (Internal "current root data missing")
                        (pe_current_read_fails env) current_hash in
      let! _ := st_lift (require_tree_access env (vr_version current)) in
      if negb (vr_version incoming =? vr_version current) then
        if vr_version current =? TREE_V2
        then st_err (UpgradeRequired "this vault uses Tree v2; update/reload the Obsetync plugin and retry — enrollment remains valid")
        else st_err (ConflictError (str "Tree v2 is not active for this vault"))
      else
        let! _ := st_lift (require_tree_access env (vr_version incoming)) in
        let incoming := set_history_metadata (pe_now env) (Some parent_hash) device incoming in
        let! incoming_bytes := st_lift (serialize_root incoming) in
        if beq current_hash parent_hash
        then publish_forward env device current incoming incoming_bytes commit
        else publish_merge env device parent_hash current_hash current incoming incoming_bytes commit
  end.

(** The checks on the body, and the two branches. *)
Definition publish_body (env : PublishEnv) (device body : bytes) (commit : option RootCommit)
    : Handler Value := λ st,
  let '(d, s, c) := st in
  match try_get_current_root vault_id (pe_head_read_fails env) d with
  | Err m => (Err (Io m), st)
  | Ok current_root_hash =>
      if len body <? 64 then (Err (BadRequest "body too short for parent_root prefix"), st)
      else if negb (utf8 (takeN 64 body)) then (Err (BadRequest "parent_root prefix not UTF-8"), st)
      else
        let parent_hex := trim (takeN 64 body) in
        let root_bytes := dropN 64 body in
        if MAX_ROOT_HEAD_BYTES <? len root_bytes
        then (Err (PayloadTooLarge "root exceeds bounded root capacity"), st)
        else
          match vr_deserialize root_bytes with
          | Err _ => (Err (BadRequest "invalid root"), st)
          | Ok incoming =>
              if negb (beq (vr_vault_id incoming) vault_id)
              then (Err (BadRequest "root vault_id does not match request path"), st)
              else
                (let! _ := validate_upload env incoming in
                 match current_root_hash with
                 | None => publish_first env device incoming commit
                 | Some current_hash =>
                     publish_next env device parent_hex current_hash incoming commit
                 end) st
          end
  end.

(** [publish_root]. *)
Definition publish_root (env : PublishEnv) (device body : bytes) (commit : option RootCommit)
    : Handler Value :=
  match commit with
  | None => publish_body env device body None
  | Some c =>
      let! receipt := lookup_receipt env device in
      let! replay := st_lift (replay_or_admit c receipt (pe_incarnation env)) in
      match replay with
      | Some result => st_ret result
      | None => publish_body env device body commit
      end
  end.

(** [post_root_commit]. *)
Definition post_root_commit {RC : RequestCodec} (env : PublishEnv) (device request : bytes)
    : Handler Value :=
  let! ' (commit, root_body) := st_lift (decode_commit request vault_id device) in
  publish_root env device root_body (Some commit).

(** [post_root_cancel]. *)
Definition post_root_cancel {RC : RequestCodec} (env : PublishEnv) (device request : bytes)
    : Handler Value :=
  let! cancellation := st_lift (decode_cancel request vault_id device) in
  let! existing := lookup_receipt env device in
  let! replay := st_lift (replay_or_admit cancellation existing (pe_incarnation env)) in
  match replay with
  | Some terminal => st_ret terminal
  | None =>
      let receipt := receipt_for cancellation (Obj [(str "cancelled", Bool true)]) in
      let! _ := on_disk root_publication_error
                  (cancel_root_with_receipt vault_id (pe_commit_read_fails env)
                     (pe_commit_fault env) device receipt) in
      st_ret (terminal_outcome (pe_incarnation env) receipt)
  end.

(** [post_root_outcome]: a stored outcome, or the state of the stream. *)
Inductive OutcomeReply :=
  | Terminal (v : Value)
  | StreamState (status : bytes) (last_sequence : N) (current : option FileHash).

Definition post_root_outcome {RC : RequestCodec} (env : PublishEnv) (device request : bytes)
    : Handler OutcomeReply :=
  let! query := st_lift (decode_query request) in
  let! receipt := lookup_receipt env device in
  let last_sequence := match receipt with Some r => sequence r | None => 0 end in
  let rest : Handler OutcomeReply := λ st,
    let '(d, s, c) := st in
    let status :=
      match oq_sequence query with
      | None => str "stream"
      | Some n => if n <? last_sequence then str "expired" else str "unknown"
      end in
    match try_get_current_root vault_id (pe_head_read_fails env) d with
    | Err m => (Err (Io m), st)
    | Ok current => (Ok (StreamState status last_sequence current), st)
    end in
  match oq_sequence query, receipt with
  | Some n, Some r =>
      if n =? sequence r then
        if negb (bool_decide (oq_mutation_id query = Some (mutation_id r)))
           || negb (bool_decide (oq_request_hash query = Some (request_hash r)))
        then st_err (ConflictError (str "root mutation identity does not match stored request"))
        else st_ret (Terminal (terminal_outcome (pe_incarnation env) r))
      else rest
  | _, _ => rest
  end.

(** [post_rollback]; [fleet_ready] is the answer of [fleet_capability]. *)
Definition post_rollback (env : PublishEnv) (fleet_ready : bool) (body : bytes) : Handler unit :=
  if negb (utf8 body) then st_err (BadRequest "rollback body must be a hex root hash")
  else
    match hex_to_hash (trim body) with
    | Err _ => st_err (BadRequest "invalid root hash")
    | Ok hash =>
        let! target := history_root (NotFoundError "root not found in history")
                         (pe_base_read_fails env) hash in
        let! _ := st_lift (require_tree_access env (vr_version target)) in
        if (vr_version target =? TREE_V2) && negb fleet_ready
        then st_err (ConflictError (str "Tree v2 rollback blocked"))
        else
          let! current := (λ st, (io_error (try_get_current_root vault_id (pe_head_read_fails env)
                                              st.1.1), st)) in
          let! _ :=
            match current with
            | None => st_ret tt
            | Some current_hash =>
                let! root := history_root (Internal "current root data missing")
                               (pe_current_read_fails env) current_hash in
                st_lift (require_tree_access env (vr_version root))
            end in
          on_disk plain_error
            (set_current_root vault_id (pe_commit_read_fails env) (pe_commit_fault env) hash)
    end.
End handlers.
