(* ===== verification/PublishProps.v ===== *)
(** The root handlers over a vault directory: every reply to a commit or a
    cancellation is an acknowledged receipt of that very request, so that each
    operation of a device has one outcome; a refused push does not move the
    head. *)

From S2P Require Import Prelude Bytes Text Keyed Hash Chunk Store TreeV1 TreeV2Codec VersionedRoot.
From S2P Require Import ContentStore SyncRules Conflict Merge Guard Bridge.
From S2P Require Import StorageLayout RootHead RootHeadProps RootOutcome VaultStore Publish.
Local Open Scope N_scope.

(** * Well-typed results *)

Lemma receipt_validate_seq `{RootJson} r : receipt_validate r = Ok tt → sequence r ≤ MAX_ROOT_SEQUENCE
  ∧ validate_result (outcome r) = Ok tt.
Proof.
  unfold receipt_validate. destruct (_ || _) eqn:E; [done|].
  apply orb_false_iff in E as [_ E%N.ltb_ge]. case_match; [done|].
  destruct (validate_result (outcome r)) as [[]|]; [|done]. done.
Qed.

Lemma accepted_typed `{Hex} h : value_typed (accepted_result h) = true.
Proof. reflexivity. Qed.

Lemma conflict_rows_typed `{Hex} l : forallb value_typed (conflict_row <$> l) = true.
Proof. induction l as [|c l IH]; [done|]. csimpl. by rewrite IH. Qed.

Lemma merged_typed `{Hex} h r :
  validate_result (merged_result h r) = Ok tt → value_typed (merged_result h r) = true.
Proof.
  intros Hv. assert (vmr_auto_resolved_count r ≤ MAX_ROOT_SEQUENCE ∧
    vmr_text_merged_count r ≤ MAX_ROOT_SEQUENCE) as [H1 H2].
  { unfold validate_result, merged_result in Hv. cbn [as_object] in Hv.
    change (only_cancelled _) with false in Hv. cbn match in Hv.
    destruct (is_lower_hex_field _ _); [|done]. cbn [negb forallb] in Hv.
    match type of Hv with context [is_safe_count (str "auto_resolved") ?o] =>
      change (is_true_value (field (str "accepted") o)) with false in Hv;
      change (is_true_value (field (str "merged") o)) with true in Hv;
      change (is_safe_count (str "auto_resolved") o) with
        (vmr_auto_resolved_count r <=? MAX_ROOT_SEQUENCE) in Hv;
      change (is_safe_count (str "text_merged") o) with
        (vmr_text_merged_count r <=? MAX_ROOT_SEQUENCE) in Hv end.
    cbn [forallb andb negb orb] in Hv. revert Hv.
    destruct (N.leb_spec (vmr_auto_resolved_count r) MAX_ROOT_SEQUENCE); [|done].
    destruct (N.leb_spec (vmr_text_merged_count r) MAX_ROOT_SEQUENCE); [|done]. done. }
  assert (MAX_ROOT_SEQUENCE ≤ U64_MAX) by (vm_compute; discriminate).
  unfold merged_result. cbn [value_typed forallb fst snd].
  rewrite (conflict_rows_typed (vmr_file_conflicts r)).
  rewrite !(proj2 (N.leb_le _ _)) by lia. reflexivity.
Qed.

Lemma len_vr_hash `{Blake3} r : len (vr_hash r) = 32.
Proof. destruct r as [r|r]; apply len_hash_bytes. Qed.

Lemma accepted_receipt_typed `{Hex} `{RootJson} commit h :
  receipt_validate (receipt_for commit (accepted_result h)) = Ok tt →
  receipt_typed (receipt_for commit (accepted_result h)) = true.
Proof.
  intros [Hs _]%receipt_validate_seq. unfold receipt_typed. rewrite (accepted_typed h).
  rewrite (proj2 (N.leb_le _ _)); [done|]. unfold MAX_ROOT_SEQUENCE, U64_MAX in *. lia.
Qed.

Lemma merged_receipt_typed `{Hex} `{RootJson} commit h r :
  receipt_validate (receipt_for commit (merged_result h r)) = Ok tt →
  receipt_typed (receipt_for commit (merged_result h r)) = true.
Proof.
  intros [Hs Hv]%receipt_validate_seq. unfold receipt_typed. cbn [receipt_for outcome] in *.
  rewrite (merged_typed h r Hv). rewrite (proj2 (N.leb_le _ _)); [done|].
  unfold MAX_ROOT_SEQUENCE, U64_MAX in *. lia.
Qed.

Lemma cancelled_receipt_typed `{RootJson} commit :
  receipt_validate (receipt_for commit (Obj [(str "cancelled", Bool true)])) = Ok tt →
  receipt_typed (receipt_for commit (Obj [(str "cancelled", Bool true)])) = true.
Proof.
  intros [Hs _]%receipt_validate_seq. unfold receipt_typed.
  rewrite (proj2 (N.leb_le _ _)); [done|]. unfold MAX_ROOT_SEQUENCE, U64_MAX in *. lia.
Qed.

Section handlers.
Context {S C : Type} {B3 : Blake3} {HX : Hex} {HL : HexLower} {RJ : RootJson} {FB : FlatBuffers}.
Context {CS : ChunkStore S} {CT : ContentStore C} {SM : Similar}.
Context (vault_id : bytes).

Abbreviation VaultState := (VaultDisk * S * C)%type.
Abbreviation Handler := (St VaultState ServerError).
Abbreviation ack := (bytes * RootReceipt)%type.

Lemma vault_run_app d1 d2 d3 l1 l2 :
  vault_run vault_id d1 l1 d2 → vault_run vault_id d2 l2 d3 → vault_run vault_id d1 (l2 ++ l1) d3.
Proof using.
  intros H1. induction 1 as [|acks event d d' _ IH Hs]; [done|].
  rewrite <-app_assoc. by eapply run_step.
Qed.

(** A handler only does steps of the vault directory; [Q] relates its answer
    to the receipts it acknowledged. *)
Definition traced {A} (m : Handler A) (Q : A → list ack → Prop) : Prop :=
  ∀ st res st', m st = (res, st') →
    ∃ acks, vault_run vault_id st.1.1 acks st'.1.1 ∧
      match res with Ok a => Q a acks | Err _ => True end.

Abbreviation anything := (λ _ _, True).

Lemma traced_pure {A} (m : Handler A) (Q : A → list ack → Prop) :
  (∀ st, ∃ res s' c', m st = (res, (st.1.1, s', c')) ∧ ∀ a, res = Ok a → Q a []) → traced m Q.
Proof using.
  intros H st res st' E. destruct (H st) as (res' & s' & c' & E' & HQ). rewrite E' in E.
  injection E as <- <-. exists []. split; [constructor|]. destruct res'; [by apply HQ|done].
Qed.

Lemma traced_bind {A B} (m : Handler A) (k : A → Handler B) Q1 Q :
  traced m Q1 →
  (∀ a acks, Q1 a acks → traced (k a) (λ b acks', Q b (acks' ++ acks))) →
  traced (st_bind m k) Q.
Proof using.
  intros Hm Hk st res st'. unfold st_bind. destruct (m st) as [[a|e] st1] eqn:E1.
  - intros E. destruct (Hm _ _ _ E1) as (l1 & R1 & HQ1).
    destruct (Hk a l1 HQ1 _ _ _ E) as (l2 & R2 & HQ2).
    exists (l2 ++ l1). split; [by eapply vault_run_app|done].
  - intros [= <- <-]. destruct (Hm _ _ _ E1) as (l1 & R1 & _). by exists l1.
Qed.

(** The usual case: the first part acknowledges nothing that matters. *)
Lemma traced_then {A B} (m : Handler A) (k : A → Handler B) Q :
  (∀ b l l', Q b l → Q b (l ++ l')) →
  traced m anything → (∀ a, traced (k a) Q) → traced (st_bind m k) Q.
Proof using.
  intros Hmono Hm Hk. eapply traced_bind; [exact Hm|]. intros a acks _ st res st' E.
  destruct (Hk a _ _ _ E) as (l & R & HQ). exists l. split; [done|]. destruct res; [by apply Hmono|done].
Qed.

Lemma traced_lift {A} (r : result ServerError A) : traced (st_lift r) anything.
Proof using. apply traced_pure. intros [[d s] c]. by exists r, s, c. Qed.
Lemma traced_err {A} e (Q : A → list ack → Prop) : traced (st_err e) Q.
Proof using. apply traced_pure. intros [[d s] c]. by exists (Err e), s, c. Qed.
Lemma traced_ret {A} (a : A) Q : Q a [] → traced (st_ret a) Q.
Proof using. intros H. apply traced_pure. intros [[d s] c]. exists (Ok a), s, c. by split; [|intros ? [= <-]]. Qed.

(** An operation on the disk is one step. *)
Lemma traced_disk {A} convert (f : VaultDisk → result StoreError A * VaultDisk) Q :
  (∀ d res d', f d = (res, d') → ∃ event, vault_step vault_id d event d' ∧
     match res with Ok a => Q a (option_list event) | Err _ => True end) →
  traced (on_disk convert f) Q.
Proof using.
  intros H [[d s] c] res st' E. unfold on_disk in E. destruct (f d) as [r d1] eqn:Ef.
  destruct (H _ _ _ Ef) as (event & Hs & HQ).
  exists (option_list event ++ []). destruct r as [a|e]; injection E as <- <-.
  - split; [|by rewrite app_nil_r]. eapply run_step; [constructor|done].
  - split; [|done]. eapply run_step; [constructor|done].
Qed.

Lemma traced_history fault h b : traced (write_history (S := S) (C := C) vault_id fault h b) anything.
Proof using.
  apply traced_disk. intros d res d' E. exists None. split; [by eapply step_history|by destruct res].
Qed.

(** The answer to a commit: an acknowledged receipt with its identity. *)
Definition answers (env : PublishEnv) (device : bytes) (commit : RootCommit) (v : Value)
    (acks : list ack) : Prop :=
  ∃ r, (device, r) ∈ acks ∧ v = terminal_outcome (pe_incarnation env) r
    ∧ sequence r = rc_sequence commit ∧ mutation_id r = rc_mutation_id commit
    ∧ request_hash r = rc_request_hash commit.
Definition answered (env : PublishEnv) (device : bytes) (commit : option RootCommit) (v : Value)
    (acks : list ack) : Prop :=
  match commit with Some commit => answers env device commit v acks | None => True end.

Lemma answered_mono env device commit v l l' :
  answered env device commit v l → answered env device commit v (l ++ l').
Proof using.
  destruct commit as [commit|]; [|done]. intros (r & Hin & H). exists r. split; [|done].
  apply elem_of_app. by left.
Qed.

Lemma traced_commit env device h result commit :
  len h = 32 →
  (∀ c, commit = Some c → receipt_validate (receipt_for c result) = Ok tt →
     receipt_typed (receipt_for c result) = true) →
  traced (commit_root_result (S := S) (C := C) vault_id env device h result commit)
    (answered env device commit).
Proof using.
  intros Hh Ht. unfold commit_root_result. destruct commit as [commit|].
  - eapply traced_bind with (Q1 := λ _ acks, (device, receipt_for commit result) ∈ acks).
    + apply traced_disk. intros d res d' E. eexists. split; [by eapply step_commit; [|apply Ht|]|].
      destruct res as [[]|]; [by left|done].
    + intros _ acks Hin. apply traced_ret. exists (receipt_for commit result). cbn [app]. by split.
  - apply traced_then; [done| |by intros; apply traced_ret].
    apply traced_disk. intros d res d' E. exists None. split; [by eapply step_replace|by destruct res].
Qed.

Lemma traced_lookup env device :
  traced (lookup_receipt (S := S) (C := C) vault_id env device)
    (λ o acks, match o with Some r => (device, r) ∈ acks | None => True end).
Proof using.
  intros [[d s] c] res st'. unfold lookup_receipt.
  destruct (get_root_receipt _ _ _ _ _) as [r d'] eqn:E. intros [= <- <-].
  eexists. split; [eapply run_step; [constructor|by eapply step_lookup]|].
  destruct r as [[r|]|]; cbn; [by left|done..].
Qed.

(** The parts that do not touch the directory. *)
Lemma traced_check env device h result commit :
  traced (validate_root_result (S := S) (C := C) vault_id env device h result commit) anything.
Proof using.
  apply traced_pure. intros [[d s] c]. unfold validate_root_result. destruct commit; [|by do 3 eexists].
  destruct (validate_root_receipt _ _ _ _ _ _); by do 3 eexists.
Qed.
Lemma traced_guard env current candidate :
  traced (guard_root (S := S) (C := C) env current candidate) anything.
Proof using.
  apply traced_pure. intros [[d s] c]. unfold guard_root.
  destruct (enforce_guard _ _ _ _ _); by do 3 eexists.
Qed.
Lemma traced_upload env root : traced (validate_upload (S := S) (C := C) env root) anything.
Proof using.
  apply traced_pure. intros [[d s] c]. unfold validate_upload.
  destruct (validate_versioned_root _ _); [|by do 3 eexists].
  destruct (pe_blocking_fails env); [by do 3 eexists|]. destruct (forallb _ _); by do 3 eexists.
Qed.
Lemma traced_history_root missing fails h :
  traced (history_root (S := S) (C := C) vault_id missing fails h) anything.
Proof using.
  apply traced_pure. intros [[d s] c]. unfold history_root. destruct (get_root _ _ _); by do 3 eexists.
Qed.
Lemma traced_merge env base current incoming :
  traced (merge_roots (S := S) (C := C) env base current incoming) anything.
Proof using.
  apply traced_pure. intros [[d s] c]. unfold merge_roots.
  destruct (merge_versioned_trees _ _ _ _ _ _) as [[[r|e] s'] c']; by do 3 eexists.
Qed.

Ltac trace :=
  first [ apply traced_then; [intros; by apply answered_mono| |intros ?]
        | apply traced_lift | apply traced_err | apply traced_check | apply traced_guard
        | apply traced_upload | apply traced_history_root | apply traced_merge
        | apply traced_history ].

Lemma traced_publish_first env device incoming commit :
  traced (publish_first (S := S) (C := C) vault_id env device incoming commit)
    (answered env device commit).
Proof using.
  unfold publish_first. destruct (negb _); [trace|]. repeat trace.
  apply traced_commit; [apply len_vr_hash|]. intros c _. apply accepted_receipt_typed.
Qed.

Lemma traced_publish_forward env device current incoming b commit :
  traced (publish_forward (S := S) (C := C) vault_id env device current incoming b commit)
    (answered env device commit).
Proof using.
  unfold publish_forward. repeat trace.
  apply traced_commit; [apply len_vr_hash|]. intros c _. apply accepted_receipt_typed.
Qed.

Lemma traced_publish_merge env device parent current_hash current incoming b commit :
  traced (publish_merge (S := S) (C := C) vault_id env device parent current_hash current incoming b commit)
    (answered env device commit).
Proof using.
  unfold publish_merge. repeat trace.
  apply traced_commit; [apply len_vr_hash|]. intros c _. apply merged_receipt_typed.
Qed.

Lemma traced_publish_next env device parent_hex current_hash incoming commit :
  traced (publish_next (S := S) (C := C) vault_id env device parent_hex current_hash incoming commit)
    (answered env device commit).
Proof using.
  unfold publish_next. destruct (hex_to_hash parent_hex); [|trace]. repeat trace.
  destruct (negb _).
  - destruct (_ =? TREE_V2); trace.
  - repeat trace. destruct (beq _ _); [apply traced_publish_forward|apply traced_publish_merge].
Qed.

Lemma traced_publish_body env device body commit :
  traced (publish_body (S := S) (C := C) vault_id env device body commit)
    (answered env device commit).
Proof using.
  intros st res st' E. revert E. unfold publish_body. destruct st as [[d s] c] eqn:Est.
  rewrite <-Est.
  assert (∀ e, (@Err ServerError Value e, st) = (res, st') →
    ∃ acks, vault_run vault_id st.1.1 acks st'.1.1 ∧
      match res with Ok a => answered env device commit a acks | Err _ => True end) as Hfail.
  { intros e [= <- <-]. exists []. split; [constructor|done]. }
  destruct (try_get_current_root _ _ _) as [cur|]; [|apply Hfail].
  destruct (len body <? 64); [apply Hfail|]. destruct (utf8 _); [|apply Hfail]. cbn [negb].
  destruct (MAX_ROOT_HEAD_BYTES <? _); [apply Hfail|].
  destruct (vr_deserialize _) as [incoming|]; [|apply Hfail].
  destruct (beq _ _); [|apply Hfail]. cbn [negb].
  match goal with |- ?m st = _ → _ => assert (traced m (answered env device commit)) as Hm end.
  { repeat trace. destruct cur; [apply traced_publish_next|apply traced_publish_first]. }
  apply Hm.
Qed.

(** What a replay or an admission says. *)
Lemma replay_answer env device commit receipt v acks :
  replay_or_admit commit receipt (pe_incarnation env) = Ok (Some v) →
  (match receipt with Some r => (device, r) ∈ acks | None => True end) →
  answers env device commit v acks.
Proof using.
  unfold replay_or_admit. destruct receipt as [r|].
  2: { repeat case_match; done. }
  destruct (N.eqb_spec (rc_sequence commit) (sequence r)) as [E|E].
  2: { repeat case_match; done. }
  unfold beq. destruct (bool_decide (rc_mutation_id commit = _)) eqn:E1; [|done].
  destruct (bool_decide (rc_request_hash commit = _)) eqn:E2; [|done].
  apply bool_decide_eq_true in E1, E2. intros [= <-] Hin. by exists r.
Qed.

Lemma traced_mono {A} (m : Handler A) (Q Q' : A → list ack → Prop) :
  (∀ a l, Q a l → Q' a l) → traced m Q → traced m Q'.
Proof using.
  intros H Hm st res st' E. destruct (Hm _ _ _ E) as (l & R & HQ). exists l. split; [done|].
  destruct res; [by apply H|done].
Qed.

Lemma traced_replay {B} env device commit (k : option Value → Handler B) Q :
  (∀ v acks, answers env device commit v acks → traced (k (Some v)) (λ b l, Q b (l ++ acks))) →
  (∀ acks, traced (k None) (λ b l, Q b (l ++ acks))) →
  traced (st_bind (lookup_receipt vault_id env device) (λ receipt,
    st_bind (st_lift (replay_or_admit commit receipt (pe_incarnation env))) k)) Q.
Proof using.
  intros H1 H2. eapply traced_bind; [apply traced_lookup|]. intros receipt acks Hr.
  eapply traced_bind with (Q1 := λ o l, l = [] ∧ ∀ v, o = Some v → answers env device commit v acks).
  - apply traced_pure. intros [[d s] c]. eexists _, s, c. split; [done|]. intros o Ho.
    split; [done|]. intros v ->. by eapply replay_answer.
  - intros o l [-> Hv]. eapply traced_mono with (Q := λ b l, Q b (l ++ acks)).
    { intros b l. by rewrite app_nil_r. }
    destruct o as [v|]; [by apply H1, Hv|apply H2].
Qed.

Lemma traced_publish_root env device body commit :
  traced (publish_root (S := S) (C := C) vault_id env device body commit)
    (answered env device commit).
Proof using.
  unfold publish_root. destruct commit as [commit|]; [|apply (traced_publish_body _ _ _ None)].
  apply (traced_replay env device commit (λ replay,
    match replay with
    | Some result => st_ret result
    | None => publish_body vault_id env device body (Some commit)
    end)).
  - intros v acks Hv. by apply traced_ret.
  - intros acks. eapply traced_mono; [|apply traced_publish_body]. intros a l. apply answered_mono.
Qed.

Context {RC : RequestCodec}.

Lemma traced_post_commit env device request :
  traced (post_root_commit (S := S) (C := C) vault_id env device request)
    (λ v acks, ∃ commit body, decode_commit request vault_id device = Ok (commit, body)
                              ∧ answers env device commit v acks).
Proof using.
  unfold post_root_commit. eapply traced_bind with (Q1 := λ cb l, l = [] ∧
    decode_commit request vault_id device = Ok cb).
  - apply traced_pure. intros [[d s] c]. eexists _, s, c. split; [done|]. by intros a ->.
  - intros [commit body] l [-> Hd]. eapply traced_mono; [|apply traced_publish_root].
    intros v l Hv. rewrite app_nil_r. by exists commit, body.
Qed.

Lemma traced_post_cancel env device request :
  traced (post_root_cancel (S := S) (C := C) vault_id env device request)
    (λ v acks, ∃ commit, decode_cancel request vault_id device = Ok commit
                         ∧ answers env device commit v acks).
Proof using.
  unfold post_root_cancel. eapply traced_bind with (Q1 := λ c l, l = [] ∧
    decode_cancel request vault_id device = Ok c).
  { apply traced_pure. intros [[d s] c]. eexists _, s, c. split; [done|]. by intros a ->. }
  intros commit l [-> Hd]. apply traced_replay.
  - intros v acks Hv. apply traced_ret. exists commit. split; [done|].
    cbn. by rewrite app_nil_r.
  - intros acks. set (receipt := receipt_for commit _).
    eapply traced_bind with (Q1 := λ _ l, (device, receipt) ∈ l).
    + apply traced_disk. intros d res d' E. eexists.
      split; [by eapply step_cancel; [apply cancelled_receipt_typed|]|].
      destruct res as [[]|]; [by left|done].
    + intros _ l Hin. apply traced_ret. exists commit. split; [done|]. exists receipt. cbn [app].
      rewrite app_nil_r. split; [|done]. apply elem_of_app. by left.
Qed.

Lemma traced_rollback env ready body :
  traced (post_rollback (S := S) (C := C) vault_id env ready body) anything.
Proof using.
  unfold post_rollback. destruct (utf8 body); [|apply traced_err]. cbn [negb].
  destruct (hex_to_hash (trim body)) as [hash|] eqn:Eh; [|apply traced_err].
  apply traced_then; [done|apply traced_history_root|intros target].
  apply traced_then; [done|apply traced_lift|intros _].
  destruct (_ && _); [apply traced_err|].
  apply traced_then; [done| |intros current].
  { apply traced_pure. intros [[d s] c]. by eexists _, s, c. }
  apply traced_then; [done| |intros _].
  { destruct current; [|by apply traced_ret].
    apply traced_then; [done|apply traced_history_root|intros; apply traced_lift]. }
  apply traced_disk. intros d res d' E. exists None. split; [|by destruct res].
  eapply step_replace; [|exact E]. unfold hex_to_hash in Eh. destruct (hex_decode _) as [b|]; [|done].
  destruct (N.eqb_spec (len b) 32); [|done]. cbn in Eh. congruence.
Qed.

Lemma traced_outcome env device request :
  traced (post_root_outcome (S := S) (C := C) vault_id env device request)
    (λ reply acks, ∀ v, reply = Terminal v → ∃ r, (device, r) ∈ acks
                        ∧ v = terminal_outcome (pe_incarnation env) r).
Proof using.
  unfold post_root_outcome. apply traced_then; [|apply traced_lift|intros query].
  { intros b l l' H v Hv. destruct (H v Hv) as (r & Hin & E). exists r. split; [|done].
    apply elem_of_app. by left. }
  eapply traced_bind; [apply traced_lookup|]. intros receipt acks Hr.
  match goal with |- context [λ st : VaultState, @?f st] => set (rest := f) end.
  assert (traced rest (λ reply _, ∀ v, reply = Terminal v → False)) as Hrest.
  { apply traced_pure. intros [[d s] c]. unfold rest.
    destruct (try_get_current_root _ _ _); eexists _, s, c; (split; [done|]); [|done].
    intros a' Ha v Hv. congruence. }
  assert (traced rest (λ reply l, ∀ v, reply = Terminal v → ∃ r, (device, r) ∈ l ++ acks
                        ∧ v = terminal_outcome (pe_incarnation env) r)) as Hrest'.
  { eapply traced_mono; [|exact Hrest]. intros a l H v Hv. by destruct (H v Hv). }
  destruct (oq_sequence query) as [n|]; [|exact Hrest']. destruct receipt as [r|]; [|exact Hrest'].
  destruct (n =? sequence r); [|exact Hrest']. destruct (_ || _); [apply traced_err|].
  apply traced_ret. intros v [= <-]. by exists r.
Qed.

(** * Refused pushes *)

Abbreviation shown st := (df_visible (vd_current (fst (fst st)))).

Definition not_io (e : ServerError) : Prop := match e with Io _ => False | _ => True end.

(** A handler that never moves the head, and one that does not move it when
    it fails with anything but an I/O error. *)
Definition head_kept {A} (m : Handler A) : Prop :=
  ∀ st res st', m st = (res, st') → shown st' = shown st.
Definition refusal_keeps {A} (m : Handler A) : Prop :=
  ∀ st e st', m st = (Err e, st') → not_io e → shown st' = shown st.

Lemma refusal_bind {A B} (m : Handler A) (k : A → Handler B) :
  head_kept m → (∀ a, refusal_keeps (k a)) → refusal_keeps (st_bind m k).
Proof using.
  intros Hm Hk st e st'. unfold st_bind. destruct (m st) as [[a|e1] st1] eqn:E1; intros E He.
  - rewrite (Hk a _ _ _ E He). by eapply Hm.
  - injection E as <- <-. by eapply Hm.
Qed.

Lemma refusal_kept {A} (m : Handler A) : head_kept m → refusal_keeps m.
Proof using. intros H st e st' E _. by eapply H. Qed.

Lemma kept_pure {A} (m : Handler A) :
  (∀ st, ∃ res s' c', m st = (res, (st.1.1, s', c'))) → head_kept m.
Proof using. intros H st res st' E. destruct (H st) as (r & s' & c' & E'). rewrite E' in E. by simplify_eq. Qed.

Lemma kept_lift {A} (r : result ServerError A) : head_kept (st_lift r).
Proof using. apply kept_pure. intros [[d s] c]. by exists r, s, c. Qed.
Lemma kept_err {A} e : head_kept (A := A) (st_err e).
Proof using. apply kept_pure. intros [[d s] c]. by exists (Err e), s, c. Qed.
Lemma kept_ret {A} (a : A) : head_kept (st_ret a).
Proof using. apply kept_pure. intros [[d s] c]. by exists (Ok a), s, c. Qed.
Lemma kept_check env device h result commit :
  head_kept (validate_root_result (S := S) (C := C) vault_id env device h result commit).
Proof using.
  apply kept_pure. intros [[d s] c]. unfold validate_root_result. destruct commit; [|by do 3 eexists].
  destruct (validate_root_receipt _ _ _ _ _ _); by do 3 eexists.
Qed.
Lemma kept_guard env current candidate :
  head_kept (guard_root (S := S) (C := C) env current candidate).
Proof using.
  apply kept_pure. intros [[d s] c]. unfold guard_root.
  destruct (enforce_guard _ _ _ _ _); by do 3 eexists.
Qed.
Lemma kept_upload env root : head_kept (validate_upload (S := S) (C := C) env root).
Proof using.
  apply kept_pure. intros [[d s] c]. unfold validate_upload.
  destruct (validate_versioned_root _ _); [|by do 3 eexists].
  destruct (pe_blocking_fails env); [by do 3 eexists|]. destruct (forallb _ _); by do 3 eexists.
Qed.
Lemma kept_history_root missing fails h :
  head_kept (history_root (S := S) (C := C) vault_id missing fails h).
Proof using.
  apply kept_pure. intros [[d s] c]. unfold history_root. destruct (get_root _ _ _); by do 3 eexists.
Qed.
Lemma kept_merge env base current incoming :
  head_kept (merge_roots (S := S) (C := C) env base current incoming).
Proof using.
  apply kept_pure. intros [[d s] c]. unfold merge_roots.
  destruct (merge_versioned_trees _ _ _ _ _ _) as [[[r|e] s'] c']; by do 3 eexists.
Qed.
Lemma kept_history fault h b : head_kept (write_history (S := S) (C := C) vault_id fault h b).
Proof using.
  intros [[d s] c] res st'. unfold write_history, on_disk.
  destruct (store_root _ _ _ _ _) as [r d'] eqn:E. apply store_root_current in E.
  destruct r; intros [= <- <-]; cbn; by rewrite E.
Qed.
Lemma kept_lookup env device : head_kept (lookup_receipt (S := S) (C := C) vault_id env device).
Proof using.
  intros [[d s] c] res st'. unfold lookup_receipt, get_root_receipt.
  repeat case_match; intros; by simplify_eq.
Qed.

(** A refused publication writes nothing. *)
Lemma publish_refused fault head d m d' :
  publish_current_head vault_id fault head d = (Err (Refused m), d') → d' = d.
Proof using.
  unfold publish_current_head. destruct (head_encode vault_id head); cbn [refuse].
  - by destruct fault.
  - by intros [= _ <-].
Qed.

Lemma refusal_publish {A} f (k : unit → Handler A) :
  (∀ d m d', f d = (Err (Refused m), d') → d' = d) → (∀ a, ∃ v, k a = st_ret v) →
  refusal_keeps (st_bind (on_disk root_publication_error f) k).
Proof using.
  intros Hf Hk [[d s] c] e st'. unfold st_bind, on_disk. destruct (f d) as [[a|[m|m]] d'] eqn:E.
  - destruct (Hk a) as [v ->]. done.
  - intros [= <- <-] _. cbn. by rewrite (Hf _ _ _ E).
  - intros [= <- <-] H. done.
Qed.

Lemma refusal_commit env device h result commit :
  refusal_keeps (commit_root_result (S := S) (C := C) vault_id env device h result commit).
Proof using.
  unfold commit_root_result. destruct commit as [commit|].
  - apply refusal_publish; [|by eauto]. intros d m d'. unfold set_current_root_with_receipt.
    destruct (prepare_root_receipt _ _ _ _ _ _); [apply publish_refused|by intros [= _ <-]].
  - intros [[d s] c] e st'. unfold st_bind, on_disk.
    destruct (set_current_root _ _ _ _ _) as [[a|[m|m]] d'] eqn:E; [done|..]; intros [= <- <-] H; done.
Qed.

Ltac refuses :=
  first [ apply refusal_commit | apply refusal_bind; [|intros ?] | apply refusal_kept
        | apply kept_lift | apply kept_err | apply kept_ret | apply kept_check | apply kept_guard
        | apply kept_upload | apply kept_history_root | apply kept_merge | apply kept_history
        | apply kept_lookup ].

Lemma refusal_next env device parent_hex current_hash incoming commit :
  refusal_keeps (publish_next (S := S) (C := C) vault_id env device parent_hex current_hash incoming commit).
Proof using.
  unfold publish_next, publish_forward, publish_merge.
  destruct (hex_to_hash parent_hex); [|repeat refuses].
  apply refusal_bind; [refuses|intros current]. apply refusal_bind; [refuses|intros _].
  destruct (negb _); [destruct (_ =? TREE_V2); repeat refuses|].
  do 2 (apply refusal_bind; [refuses|intros ?]). destruct (beq _ _); repeat refuses.
Qed.

Lemma refusal_publish_root env device body commit :
  refusal_keeps (publish_root (S := S) (C := C) vault_id env device body commit).
Proof using.
  assert (∀ commit, refusal_keeps (publish_body (S := S) (C := C) vault_id env device body commit)) as Hb.
  { clear commit. intros commit st e st' E. revert E. unfold publish_body.
    destruct st as [[d s] c] eqn:Est. rewrite <-Est.
    assert (∀ e', (@Err ServerError Value e', st) = (Err e, st') → not_io e → shown st' = shown st) as Hf.
    { by intros e' [= _ <-]. }
    destruct (try_get_current_root _ _ _) as [cur|]; [|apply Hf].
    destruct (len body <? 64); [apply Hf|]. destruct (utf8 _); [|apply Hf]. cbn [negb].
    destruct (MAX_ROOT_HEAD_BYTES <? _); [apply Hf|].
    destruct (vr_deserialize _) as [incoming|]; [|apply Hf].
    destruct (beq _ _); [|apply Hf]. cbn [negb].
    match goal with |- ?m st = _ → _ => assert (refusal_keeps m) as Hm end.
    { apply refusal_bind; [refuses|intros _]. destruct cur; [apply refusal_next|].
      unfold publish_first. destruct (negb _); repeat refuses. }
    apply Hm. }
  unfold publish_root. destruct commit as [commit|]; [|apply Hb].
  do 2 (apply refusal_bind; [refuses|intros ?]).
  match goal with |- refusal_keeps (match ?o with _ => _ end) => destruct o end; [repeat refuses|apply Hb].
Qed.

(** C26: a refused push does not move the head. When a commit, a legacy push
    or a cancellation fails for any reason but an I/O error (a malformed or
    foreign root, missing content, a conflict, the guard, a version the
    session does not support, a retention limit), the head of the vault reads
    as before. *)
Theorem refused_push_keeps_head env device request st e st' :
  post_root_commit vault_id env device request st = (Err e, st')
    ∨ post_root_cancel vault_id env device request st = (Err e, st')
    ∨ publish_root vault_id env device request None st = (Err e, st') →
  not_io e → shown st' = shown st.
Proof using.
  assert (refusal_keeps (post_root_commit (S := S) (C := C) vault_id env device request)) as H1.
  { unfold post_root_commit. apply refusal_bind; [refuses|]. intros [commit body]. apply refusal_publish_root. }
  assert (refusal_keeps (post_root_cancel (S := S) (C := C) vault_id env device request)) as H2.
  { unfold post_root_cancel. do 3 (apply refusal_bind; [refuses|intros ?]).
    match goal with |- refusal_keeps (match ?o with _ => _ end) => destruct o end; [repeat refuses|].
    apply refusal_publish; [|by eauto]. intros d m d'. unfold cancel_root_with_receipt.
    destruct (is_cancelled _); cbn [negb]; [|by intros [= _ <-]].
    destruct (prepare_receipt_head _ _ _ _ _); [apply publish_refused|by intros [= _ <-]]. }
  intros [E|[E|E]]; [by apply (H1 _ _ _ E)|by apply (H2 _ _ _ E)|].
  by apply (refusal_publish_root _ _ _ _ _ _ _ E).
Qed.

(** * Runs of the server *)

(** Requests to one vault under its lock, in any order, uploads of objects in
    between, and crashes; the event is the identity of a commit or a
    cancellation with the successful reply it got. *)
Record Reply := {
  re_device : bytes;
  re_commit : RootCommit;
  re_incarnation : bytes;
  re_value : Value;
}.

Inductive server_step : VaultState → option Reply → VaultState → Prop :=
  | server_commit env device request st v st' commit body :
      decode_commit request vault_id device = Ok (commit, body) →
      post_root_commit vault_id env device request st = (Ok v, st') →
      server_step st (Some {| re_device := device; re_commit := commit;
                              re_incarnation := pe_incarnation env; re_value := v |}) st'
  | server_cancel env device request st v st' commit :
      decode_cancel request vault_id device = Ok commit →
      post_root_cancel vault_id env device request st = (Ok v, st') →
      server_step st (Some {| re_device := device; re_commit := commit;
                              re_incarnation := pe_incarnation env; re_value := v |}) st'
  | server_commit_failed env device request st e st' :
      post_root_commit vault_id env device request st = (Err e, st') → server_step st None st'
  | server_cancel_failed env device request st e st' :
      post_root_cancel vault_id env device request st = (Err e, st') → server_step st None st'
  | server_put env device body st res st' :
      publish_root vault_id env device body None st = (res, st') → server_step st None st'
  | server_query env device request st res st' :
      post_root_outcome vault_id env device request st = (res, st') → server_step st None st'
  | server_rollback env ready body st res st' :
      post_rollback vault_id env ready body st = (res, st') → server_step st None st'
  | server_objects d s c s' c' : server_step (d, s, c) None (d, s', c')
  | server_crash d d' s c s' c' : vd_survives d d' → server_step (d, s, c) None (d', s', c').

Inductive server_run (start : VaultState) : list Reply → VaultState → Prop :=
  | server_start : server_run start [] start
  | server_next log event st st' :
      server_run start log st → server_step st event st' →
      server_run start (option_list event ++ log) st'.

Definition justified (acks : list ack) (e : Reply) : Prop :=
  ∃ r, (re_device e, r) ∈ acks ∧ re_value e = terminal_outcome (re_incarnation e) r
    ∧ sequence r = rc_sequence (re_commit e) ∧ mutation_id r = rc_mutation_id (re_commit e)
    ∧ request_hash r = rc_request_hash (re_commit e).

Lemma server_step_run st event st' :
  server_step st event st' →
  ∃ acks, vault_run vault_id st.1.1 acks st'.1.1 ∧ ∀ e, event = Some e → justified acks e.
Proof using.
  destruct 1 as [env device request st v st' commit body Hd E|env device request st v st' commit Hd E
    |env device request st e st' E|env device request st e st' E|env device body st res st' E
    |env device request st res st' E|env ready body st res st' E|d s c s' c'|d d' s c s' c' Hs].
  - destruct (traced_post_commit _ _ _ _ _ _ E) as (acks & R & commit' & body' & Hd' & H).
    exists acks. split; [done|]. intros e [= <-]. rewrite Hd in Hd'. injection Hd' as <- <-. exact H.
  - destruct (traced_post_cancel _ _ _ _ _ _ E) as (acks & R & commit' & Hd' & H).
    exists acks. split; [done|]. intros e [= <-]. rewrite Hd in Hd'. injection Hd' as <-. exact H.
  - destruct (traced_post_commit _ _ _ _ _ _ E) as (acks & R & _). by exists acks.
  - destruct (traced_post_cancel _ _ _ _ _ _ E) as (acks & R & _). by exists acks.
  - destruct (traced_publish_root _ _ _ _ _ _ _ E) as (acks & R & _). by exists acks.
  - destruct (traced_outcome _ _ _ _ _ _ E) as (acks & R & _). by exists acks.
  - destruct (traced_rollback _ _ _ _ _ _ E) as (acks & R & _). by exists acks.
  - exists []. split; [constructor|done].
  - exists []. split; [|done]. eapply (run_step _ _ [] None); [constructor|by apply step_crash].
Qed.

Lemma server_run_vault start log st :
  server_run start log st →
  ∃ acks, vault_run vault_id start.1.1 acks st.1.1 ∧ Forall (justified acks) log.
Proof using.
  induction 1 as [|log event st st' _ IH Hs]; [exists []; split; constructor|].
  destruct IH as (acks & R & Hj). destruct (server_step_run _ _ _ Hs) as (acks' & R' & He).
  exists (acks' ++ acks). split; [by eapply vault_run_app|]. apply Forall_app. split.
  - destruct event as [e|]; cbn; [|constructor]. constructor; [|constructor].
    destruct (He e eq_refl) as (r & Hin & H). exists r. split; [|done]. apply elem_of_app. by left.
  - eapply Forall_impl; [exact Hj|]. intros e (r & Hin & H). exists r. split; [|done].
    apply elem_of_app. by right.
Qed.

(** C1: every operation has one outcome. However the requests, retries and
    cancellations of a vault's devices, the rollbacks, the failures and the
    crashes are interleaved, two successful replies to requests of one device
    with one sequence number carry the same mutation id and request hash, and
    report the same stored outcome. *)
Theorem commit_exactly_once s0 c0 log st e1 e2 :
  server_run (vd_new, s0, c0) log st → e1 ∈ log → e2 ∈ log →
  re_device e1 = re_device e2 →
  rc_sequence (re_commit e1) = rc_sequence (re_commit e2) →
  ∃ r, re_value e1 = terminal_outcome (re_incarnation e1) r
    ∧ re_value e2 = terminal_outcome (re_incarnation e2) r
    ∧ rc_mutation_id (re_commit e1) = rc_mutation_id (re_commit e2)
    ∧ rc_request_hash (re_commit e1) = rc_request_hash (re_commit e2).
Proof using HL.
  intros Hrun H1 H2 Hdev Hseq. apply server_run_vault in Hrun as (acks & R & Hj).
  rewrite Forall_forall in Hj.
  destruct (Hj e1 H1) as (r1 & I1 & V1 & S1 & M1 & Q1), (Hj e2 H2) as (r2 & I2 & V2 & S2 & M2 & Q2).
  assert (r1 = r2) as <-.
  { apply (acks_unique vault_id acks st.1.1 (re_device e1)); [done..| |congruence]. by rewrite Hdev. }
  exists r1. split_and!; [done..|congruence|congruence].
Qed.
End handlers.
