(* ===== verification/RootExamples.v ===== *)
(** The guard and the root bridge on concrete roots.

    Executable stand-ins for the text forms the root metadata relies on: the
    lower-case hex digits of [Concrete] and a self-delimiting codec in the
    place of [serde_json]. They satisfy the laws of [HexLower] and
    [RootJson]; they are not the formats of those libraries.

    A vault directory at work: two devices publish, one crash loses an
    unsynchronised rename, a retry is answered from the receipt, a diverged
    root is merged and an operation is cancelled. The hypotheses of the
    theorems on heads, requests and publications hold on this run. *)

From S2P Require Import Prelude Bytes Text Keyed Hash Chunk Concrete Store TreeV1 TreeV1Merge TreeV1Build TreeV1Repr TreeV1Props TreeV1Examples TreeV2Codec TreeV2CodecProps TreeV2Segment TreeV2 TreeV2Build TreeV2Store SyncRules ContentStore Conflict VersionedRoot TreeV2DiffProps TreeV2Examples Merge MergeExamples Guard StorageLayout RootHead RootHeadProps RootOutcome VaultStore IgnoreMatch Bridge Publish PublishProps.
Local Open Scope N_scope.

#[local] Existing Instance poly_blake3.
#[local] Existing Instance plain_flatbuffers.

(** Enforcing, with no allowance. *)
Definition gx_env (key : bytes) : option bytes :=
  if beq key (str "OBSETYNC_GUARD") then Some (str "enforce")
  else if beq key (str "OBSETYNC_GUARD_MTIME_K") then Some (str "+0")
  else if beq key (str "OBSETYNC_GUARD_BLAST_MIN") then Some (str "0")
  else if beq key (str "OBSETYNC_GUARD_BLAST_PCT") then Some (str "25%")
  else None.
Definition gx_cfg : GuardConfig := guard_from_env gx_env.

(** A value that does not parse falls back to the default. *)
Example gx_cfg_values :
  gx_cfg = {| mode := Enforce; mtime_regression_max := 0; mtime_skew_ms := 43200000;
              blast_pct := 25; blast_min := 0 |}.
Proof. vm_compute. reflexivity. Qed.

Lemma gx_holds :
  vr_holds v2_P dx_store (dx_root v2_sorted) (entries_map v2_sorted) ∧
  vr_holds v2_P dx_store (dx_root v2_new) (entries_map v2_new).
Proof.
  destruct dx_stored as [H1 H2].
  split; apply dx_holds; [exact v2_sorted_ok|exact H1|vm_compute; discriminate
                         |exact v2_new_ok|exact H2|vm_compute; discriminate].
Qed.

Lemma guard_scan_exact_witness :
  scan_versioned dx_store gx_cfg (dx_root v2_sorted) (dx_root v2_new)
    = Ok (true_scan (mtime_skew_ms gx_cfg) (entries_map v2_sorted) (entries_map v2_new)).
Proof.
  destruct gx_holds as [H1 H2]. apply (guard_scan_exact v2_P); [exact H1|exact H2].
Defined.

Lemma guard_verdict_exact_witness :
  let t := true_scan (mtime_skew_ms gx_cfg) (entries_map v2_sorted) (entries_map v2_new) in
  limit_exceeded gx_cfg (entries_map v2_sorted) (entries_map v2_new) = Some (str "blast_radius") ∧
  enforce_guard dx_store gx_cfg false (dx_root v2_sorted) (dx_root v2_new) = GuardRejected (str "blast_radius") t ∧
  enforce_guard dx_store gx_cfg true (dx_root v2_sorted) (dx_root v2_new) = GuardPass true.
Proof.
  destruct gx_holds as [H1 H2].
  assert (limit_exceeded gx_cfg (entries_map v2_sorted) (entries_map v2_new) = Some (str "blast_radius")) as E
    by (vm_compute; reflexivity).
  split; [exact E|].
  split; rewrite (guard_verdict_exact v2_P dx_store gx_cfg _ (dx_root v2_sorted) (dx_root v2_new) _ _ H1 H2), E; reflexivity.
Defined.

(** The counts of that push. *)
Example gx_counts :
  match scan_versioned dx_store gx_cfg (dx_root v2_sorted) (dx_root v2_new) with
  | Ok t => (deletions t, content_changes t, mtime_regressions t, additions t, current_total t)
  | Err _ => (9, 9, 9, 9, 9)
  end = (1, 1, 0, 1, 4).
Proof. vm_compute. reflexivity. Qed.



Definition bx_patterns : list bytes := [str "# build output"; str "old/"; str "*.tmp"].
Definition bx_kept : list FileEntry := Eval vm_compute in
  List.filter (λ e, negb (matches_any (fe_path e) bx_patterns)) mx_base.

(** The objects of the vaults and of the purged one. *)
Definition bx_objects : list bytes := Eval vm_compute in remove_dups (written bx_kept ++ mx_objects).
Definition bx_P (b : bytes) : Prop := b ∈ bx_objects.

Lemma bx_inj : injective_on hash_bytes bx_P.
Proof. apply NoDup_injective_on. by_decision. Qed.
Lemma bx_store_ok : store_ok bx_P mx_v2.2.
Proof. apply mem_store_ok. unfold bx_P. by_decision. Qed.

Lemma bx_loads : vr_load_all_entries mx_v2.1.1.1 mx_v2.2 = Ok mx_base.
Proof. vm_cast_no_check (@eq_refl (result ChunkError (list FileEntry)) (Ok mx_base)). Qed.

Lemma validated_root_sound_witness :
  ∃ es, validate_versioned_root mx_v1.2 mx_v1.1.1.1 = Ok es ∧ len es = 4 ∧
    NoDup (fe_path <$> es) ∧ Forall entry_admitted es ∧
    vr_load_all_entries mx_v1.1.1.1 mx_v1.2 = Ok (sort_by fe_path es).
Proof.
  destruct (validate_versioned_root mx_v1.2 mx_v1.1.1.1) as [es|e] eqn:E.
  - exists es. destruct (validated_root_sound mx_v1.2 mx_v1.1.1.1 es E) as (H1 & H2 & H3 & _ & H5).
    split; [reflexivity|]. split; [rewrite H3; vm_compute; reflexivity|].
    split; [exact H1|]. split; [exact H2|exact H5].
  - exfalso. assert (is_ok (validate_versioned_root mx_v1.2 mx_v1.1.1.1) = true) as H
      by (vm_compute; reflexivity).
    rewrite E in H. discriminate H.
Defined.

(** From Tree v2 back to Tree v1. *)
Lemma projection_keeps_vault_witness :
  ∃ root' s', project_root_version 7 mx_v2.1.1.1 TREE_V1 (str "admin") mx_v2.2 = (Ok root', s') ∧
    vr_version root' = TREE_V1 ∧ store_ok mx_P s' ∧
    vr_load_all_entries root' s' = Ok mx_base ∧ vr_load_all_entries mx_v2.1.1.1 s' = Ok mx_base.
Proof.
  apply (projection_keeps_vault mx_P mx_inj 7 mx_v2.1.1.1 TREE_V1 (str "admin") mx_v2.2 mx_base).
  - exact mx_store_ok.
  - exact bx_loads.
  - left. reflexivity.
  - split; [|vm_compute; discriminate]. apply entries_vault_ok; [by_decision|reflexivity|by_decision| |].
    all: unfold mx_P; by_decision.
  - vm_compute. reflexivity.
  - vm_compute. reflexivity.
Defined.

Lemma purge_exact_witness :
  ∃ root' s', versioned_purge 7 mx_v2.1.1.1 bx_patterns mx_v2.2 = (Ok (root', 1, 3), s') ∧
    vr_load_all_entries root' s' = Ok bx_kept ∧ vr_load_all_entries mx_v2.1.1.1 s' = Ok mx_base.
Proof.
  destruct (purge_exact bx_P bx_inj 7 mx_v2.1.1.1 bx_patterns mx_v2.2 mx_base)
    as (root' & s' & H1 & _ & _ & H4 & _ & H6).
  - exact bx_store_ok.
  - exact bx_loads.
  - change (List.filter _ mx_base) with bx_kept.
    split; [split; vm_compute; reflexivity|]. unfold bx_P. by_decision.
  - vm_compute. reflexivity.
  - exists root', s'. split; [exact H1|]. split; [exact H4|exact H6].
Defined.


(** * Hex *)

Lemma nibble_lower n :
  n < 16 → in_range 0x30 (b2n (nibble n)) 0x39 || in_range 0x61 (b2n (nibble n)) 0x66 = true.
Proof.
  intros Hn. destruct n as [|p]; [done|]. do 4 (destruct p as [p|p|]; try done); lia.
Qed.

Lemma base16_lower : @HexLower base16_hex.
Proof.
  split.
  - intros b. change (len (base16_encode b) = 2 * len b). unfold len.
    induction b as [|x b IH]; [done|]. cbn [base16_encode length]. lia.
  - intros b. change (forallb lower_hex_byte (base16_encode b) = true).
    induction b as [|x b IH]; [done|]. cbn [base16_encode forallb]. rewrite IH.
    pose proof (b2n_bound x). unfold lower_hex_byte.
    rewrite !nibble_lower; [done|by apply N.mod_upper_bound|].
    apply N.Div0.div_lt_upper_bound. lia.
Qed.

(** * JSON values *)

Fixpoint enc_value (v : Value) : bytes :=
  match v with
  | Null => [x00]
  | Bool b => [x01; if b then x01 else x00]
  | Num (PosInt n) => x02 :: enc_num n
  | Num (NegInt n) => x03 :: enc_num n
  | Num (Float t) => x04 :: enc_str t
  | Str s => x05 :: enc_str s
  | Arr l => x06 :: enc_list enc_value l
  | Obj l => x07 :: enc_list (λ kv, enc_str kv.1 ++ enc_value kv.2) l
  end.

Fixpoint depth (v : Value) : nat :=
  match v with
  | Arr l => S (max_list (depth <$> l))
  | Obj l => S (max_list ((λ kv, depth kv.2) <$> l))
  | _ => 1
  end.

Fixpoint dec_value (fuel : nat) (s : bytes) : option (Value * bytes) :=
  match fuel, s with
  | S fuel, x00 :: s => Some (Null, s)
  | S fuel, x01 :: x00 :: s => Some (Bool false, s)
  | S fuel, x01 :: x01 :: s => Some (Bool true, s)
  | S fuel, x02 :: s => '(n, s) ← dec_num s; Some (Num (PosInt n), s)
  | S fuel, x03 :: s => '(n, s) ← dec_num s; Some (Num (NegInt n), s)
  | S fuel, x04 :: s => '(t, s) ← dec_str s; Some (Num (Float t), s)
  | S fuel, x05 :: s => '(t, s) ← dec_str s; Some (Str t, s)
  | S fuel, x06 :: s => '(l, s) ← dec_list (dec_value fuel) (length s) s; Some (Arr l, s)
  | S fuel, x07 :: s =>
      '(l, s) ← dec_list (λ s, '(k, s) ← dec_str s; '(v, s) ← dec_value fuel s; Some ((k, v), s))
                  (length s) s;
      Some (Obj l, s)
  | _, _ => None
  end.

Lemma max_list_fmap_le {A} (f : A → nat) l n :
  (max_list (f <$> l) ≤ n)%nat → Forall (λ x, (f x ≤ n)%nat) l.
Proof. induction l as [|x l IH]; csimpl; [constructor|]. intros H. constructor; [|apply IH]; lia. Qed.

Lemma Forall_both {A} (P Q : A → Prop) l : Forall P l → Forall Q l → Forall (λ x, P x ∧ Q x) l.
Proof. intros HP HQ. by apply Forall_and. Qed.

Lemma dec_enc_value fuel :
  codec_law enc_value (dec_value fuel) (λ v, (depth v ≤ fuel)%nat ∧ value_typed v = true).
Proof.
  induction fuel as [|fuel IH]; intros v rest [Hd Ht].
  { destruct v; cbn in Hd; lia. }
  destruct v as [|[]|[n|n|t]|t|l|l]; cbn [enc_value dec_value app]; try done.
  - cbn in Ht. apply N.leb_le in Ht. by rewrite dec_enc_num.
  - cbn in Ht. apply andb_prop in Ht as [_ Ht%N.leb_le].
    rewrite dec_enc_num; [done|]. unfold U64_MAX. lia.
  - by rewrite dec_enc_str.
  - cbn in Ht. rewrite (dec_enc_list _ _ _ IH); [done|]. apply Forall_both.
    + apply max_list_fmap_le. cbn in Hd. lia.
    + apply Forall_forall. rewrite forallb_forall in Ht. intros x Hx. by apply Ht, list_elem_of_In.
  - cbn in Ht. apply andb_prop in Ht as [_ Ht].
    rewrite (dec_enc_list _ _ (λ kv, (depth kv.2 ≤ fuel)%nat ∧ value_typed kv.2 = true)); [done| |].
    + intros [k v] rest' Hv. rewrite <-app_assoc, dec_enc_str by done. cbn [mbind option_bind fst snd].
      by rewrite IH.
    + apply Forall_both.
      * apply (max_list_fmap_le (λ kv, depth kv.2)). cbn in Hd. lia.
      * apply Forall_forall. rewrite forallb_forall in Ht. intros x Hx. by apply Ht, list_elem_of_In.
Qed.

(** * Receipts and payloads *)

Definition enc_receipt (r : RootReceipt) : bytes :=
  enc_num (sequence r) ++ enc_str (mutation_id r) ++ enc_str (request_hash r) ++ enc_value (outcome r).
Definition dec_receipt (fuel : nat) : parser RootReceipt := λ s,
  '(n, s) ← dec_num s; '(m, s) ← dec_str s; '(q, s) ← dec_str s; '(v, s) ← dec_value fuel s;
  Some ({| sequence := n; mutation_id := m; request_hash := q; outcome := v |}, s).

Lemma dec_enc_receipt fuel :
  codec_law enc_receipt (dec_receipt fuel)
    (λ r, (depth (outcome r) ≤ fuel)%nat ∧ receipt_typed r = true).
Proof.
  intros [n m q v] rest [Hd [Hn%N.leb_le Hv]%andb_prop]. unfold dec_receipt, enc_receipt.
  cbn [sequence mutation_id request_hash outcome] in *.
  rewrite <-!app_assoc, dec_enc_num by done. cbn [mbind option_bind].
  rewrite dec_enc_str by done. cbn [mbind option_bind].
  rewrite dec_enc_str by done. cbn [mbind option_bind]. by rewrite dec_enc_value.
Qed.

Definition enc_row (kv : bytes * RootReceipt) : bytes := enc_str kv.1 ++ enc_receipt kv.2.
Definition dec_row (fuel : nat) : parser (bytes * RootReceipt) := λ s,
  '(k, s) ← dec_str s; '(r, s) ← dec_receipt fuel s; Some ((k, r), s).

Lemma dec_enc_row fuel :
  codec_law enc_row (dec_row fuel)
    (λ kv, (depth (outcome kv.2) ≤ fuel)%nat ∧ receipt_typed kv.2 = true).
Proof.
  intros [k r] rest Hr. unfold dec_row, enc_row. cbn [fst snd] in *.
  rewrite <-app_assoc, dec_enc_str by done. cbn [mbind option_bind]. by rewrite dec_enc_receipt.
Qed.

(** The text opens with the nesting depth of its values, in unary. *)
Definition payload_depth (p : Payload) : nat :=
  max_list ((λ kv, depth (outcome kv.2)) <$> map_to_list (pl_receipts p)).
Definition enc_payload (p : Payload) : bytes :=
  enc_str (replicate (payload_depth p) x01) ++ enc_num (pl_schema p) ++ enc_str (pl_vault_id p)
  ++ enc_opt (pl_root_hash p) ++ enc_list enc_row (map_to_list (pl_receipts p)).
Definition dec_payload (s : bytes) : option Payload :=
  '(f, s) ← dec_str s; '(n, s) ← dec_num s; '(v, s) ← dec_str s; '(h, s) ← dec_opt s;
  '(l, s) ← dec_list (dec_row (length f)) (length s) s;
  Some {| pl_schema := n; pl_vault_id := v; pl_root_hash := h; pl_receipts := list_to_map l |}.

Lemma dec_enc_payload p : payload_typed p → dec_payload (enc_payload p) = Some p.
Proof.
  intros [Hn Hr]. unfold dec_payload, enc_payload.
  rewrite dec_enc_str by done. cbn [mbind option_bind].
  rewrite dec_enc_num by (unfold U64_MAX; lia). cbn [mbind option_bind].
  rewrite dec_enc_str by done. cbn [mbind option_bind].
  rewrite dec_enc_opt by done. cbn [mbind option_bind].
  rewrite <-(app_nil_r (enc_list enc_row _)), length_replicate.
  rewrite (dec_enc_list _ _ _ (dec_enc_row _)).
  - cbn. rewrite list_to_map_to_list. by destruct p.
  - apply Forall_both; [by apply (max_list_fmap_le (λ kv, depth (outcome kv.2)))|].
    apply Forall_forall. intros [k r] Hin%elem_of_map_to_list. by apply (Hr _ _ Hin).
Qed.

Definition plain_json : RootJson := {|
  receipt_json := enc_receipt; payload_json := enc_payload; payload_of_json := dec_payload;
  payload_of_json_json := dec_enc_payload |}.


#[local] Existing Instance simple_similar.
#[local] Existing Instance base16_hex.
#[local] Existing Instance base16_lower.
#[local] Existing Instance plain_json.

(** * Requests *)

Fixpoint find_row {A} (key : bytes) (rows : list (bytes * A)) : option A :=
  match rows with
  | [] => None
  | (k, a) :: rows => if beq key k then Some a else find_row key rows
  end.

(** A reader that knows these requests; bodies are sent as they are. *)
Definition table_codec (commits : list (bytes * CommitRequest))
    (cancels : list (bytes * CancelRequest)) : RequestCodec := {|
  commit_of_json b := find_row b commits;
  cancel_of_json b := find_row b cancels;
  query_of_json _ := None;
  base64_decode := Some;
|}.

Definition rx_vault : bytes := str "vault".
Definition rx_phone : bytes := str "phone".
Definition rx_laptop : bytes := str "laptop".
Definition rx_incarnation : bytes := hex_encode (hash_bytes (str "incarnation")).
Definition rx_mutation (n : N) : bytes := hex_encode (le_bytes 16 n).

Definition rx_roots := mx_roots TREE_V1.
Definition rx_base : VersionedRoot := rx_roots.1.1.1.
Definition rx_a : VersionedRoot := rx_roots.1.1.2.
Definition rx_b : VersionedRoot := rx_roots.1.2.
Definition rx_store : MemoryChunkStore := rx_roots.2.
Definition rx_text (r : VersionedRoot) : bytes := match vr_serialize r with Ok b => b | Err _ => [] end.

Definition rx_commit (sequence mutation : N) (parent : bytes) (r : VersionedRoot) : CommitRequest :=
  {| cq_protocol_version := 1; cq_server_incarnation := rx_incarnation; cq_sequence := sequence;
     cq_mutation_id := rx_mutation mutation; cq_parent_root := parent; cq_root := rx_text r |}.

Definition rx_codec : RequestCodec := Eval vm_compute in
  table_codec
    [(str "first", rx_commit 1 1 [] rx_base); (str "first, spaced", rx_commit 1 1 [] rx_base);
     (str "edit", rx_commit 1 2 (hex_encode (vr_hash rx_base)) rx_a);
     (str "diverged", rx_commit 2 3 (hex_encode (vr_hash rx_base)) rx_b)]
    [(str "give up", {| xq_protocol_version := 1; xq_server_incarnation := rx_incarnation;
                        xq_sequence := 2; xq_mutation_id := rx_mutation 4;
                        xq_request_hash := hex_encode (hash_bytes (str "never sent")) |})].
#[local] Existing Instance rx_codec.

Definition rx_env (barrier_fails : bool) (commit_fault : WriteFault) : PublishEnv :=
  {| pe_incarnation := rx_incarnation; pe_now := 1700000000100;
     pe_receipt_read_fails := false; pe_barrier_fails := barrier_fails; pe_head_read_fails := false;
     pe_current_read_fails := false; pe_base_read_fails := false; pe_check_read_fails := false;
     pe_commit_read_fails := false; pe_incoming_fault := NoFault; pe_merged_fault := NoFault;
     pe_commit_fault := commit_fault; pe_blocking_fails := false; pe_present := λ _, true;
     pe_supports_v2 := true; pe_guard := guard_from_env (λ _, None); pe_bypass := false |}.

Abbreviation State := (VaultDisk * MemoryChunkStore * MemoryContentStore)%type.

Definition rx_post (env : PublishEnv) (device request : bytes) (st : State)
    : result ServerError Value * State := post_root_commit rx_vault env device request st.
(** A crash that loses every rename that was not synchronised. *)
Definition df_lost (f : DiskFile) : DiskFile := {| df_durable := df_durable f; df_pending := [] |}.
Definition rx_crash (st : State) : State :=
  let '(d, s, c) := st in
  ({| vd_current := df_lost (vd_current d); vd_temporary := vd_temporary d;
      vd_roots := df_lost <$> vd_roots d |}, s, c).

(** * The run *)

Definition rx0 : State := (vd_new, rx_store, mx_content).
Definition rx1 : State := (rx_post (rx_env false NoFault) rx_phone (str "first") rx0).2.
(** The answer to the edit is lost: its rename was not synchronised. *)
Definition rx2 : State := (rx_post (rx_env false AfterRename) rx_laptop (str "edit") rx1).2.
Definition rx3 : State := rx_crash rx2.
Definition rx4 : State := (rx_post (rx_env false NoFault) rx_laptop (str "edit") rx3).2.
(** The retry of the first operation, and its successor, which is merged. *)
Definition rx5 : State := (rx_post (rx_env false NoFault) rx_phone (str "first") rx4).2.
Definition rx6 : State := (rx_post (rx_env false NoFault) rx_phone (str "diverged") rx5).2.
Definition rx7 : State :=
  (post_root_cancel rx_vault (rx_env false NoFault) rx_laptop (str "give up") rx6).2.

Definition reply_ok (r : result ServerError Value) : Value := match r with Ok v => v | Err _ => Null end.

Lemma ok_run {E A T} (d : A) (r : result E A * T) :
  is_ok r.1 = true → r = (Ok (match r.1 with Ok a => a | Err _ => d end), r.2).
Proof. by destruct r as [[a|e] t]. Qed.

Definition err_or {E A} (d : E) (r : result E A) : E := match r with Ok _ => d | Err e => e end.
Lemma err_run {E A T} (d : E) (r : result E A * T) :
  is_ok r.1 = false → r = (Err (err_or d r.1), r.2).
Proof. by destruct r as [[a|e] t]. Qed.

(** The commit a request stands for. *)
Definition rx_decoded (request device : bytes) : RootCommit * bytes :=
  match decode_commit request rx_vault device with
  | Ok x => x
  | Err _ => ({| rc_server_incarnation := []; rc_sequence := 0; rc_mutation_id := [];
                 rc_request_hash := [] |}, [])
  end.

Lemma rx_decoded_ok request device :
  is_ok (decode_commit request rx_vault device) = true →
  decode_commit request rx_vault device
    = Ok ((rx_decoded request device).1, (rx_decoded request device).2).
Proof. unfold rx_decoded. destruct (decode_commit _ _ _) as [[c b]|e]; [done|discriminate]. Qed.

Definition rx_reply (device request : bytes) (st : State) : Reply :=
  {| re_device := device; re_commit := (rx_decoded request device).1;
     re_incarnation := rx_incarnation;
     re_value := reply_ok (rx_post (rx_env false NoFault) device request st).1 |}.

Lemma rx_commits device request st :
  is_ok (decode_commit request rx_vault device) = true →
  is_ok (rx_post (rx_env false NoFault) device request st).1 = true →
  server_step rx_vault st (Some (rx_reply device request st))
    (rx_post (rx_env false NoFault) device request st).2.
Proof.
  intros Hd%rx_decoded_ok Hp. eapply (server_commit rx_vault (rx_env false NoFault)); [exact Hd|].
  exact (ok_run Null _ Hp).
Qed.

Lemma rx_fails env device request st :
  is_ok (rx_post env device request st).1 = false →
  server_step rx_vault st None (rx_post env device request st).2.
Proof. intros Hp. eapply server_commit_failed. exact (err_run (Io "") _ Hp). Qed.

Lemma df_lost_survives f : df_survives f (df_lost f).
Proof. split; [done|by left]. Qed.

Lemma rx_crash_survives st : vd_survives st.1.1 (rx_crash st).1.1.
Proof.
  destruct st as [[d s] c]. split; [apply df_lost_survives|].
  intros h. unfold vd_root. cbn. rewrite lookup_fmap.
  destruct (vd_roots d !! h); [apply df_lost_survives|]. by split; [|left].
Qed.

Lemma rx_crashes st : server_step rx_vault st None (rx_crash st).
Proof.
  pose proof (rx_crash_survives st) as H. destruct st as [[d s] c]. by apply server_crash.
Qed.

Definition rx_cancel (request device : bytes) : RootCommit :=
  match decode_cancel request rx_vault device with
  | Ok c => c
  | Err _ => (rx_decoded [] []).1
  end.
Definition rx_cancelled (device request : bytes) (st : State) : Reply :=
  {| re_device := device; re_commit := rx_cancel request device; re_incarnation := rx_incarnation;
     re_value := reply_ok (post_root_cancel rx_vault (rx_env false NoFault) device request st).1 |}.

Lemma rx_cancels device request st :
  is_ok (decode_cancel request rx_vault device) = true →
  is_ok (post_root_cancel rx_vault (rx_env false NoFault) device request st).1 = true →
  server_step rx_vault st (Some (rx_cancelled device request st))
    (post_root_cancel rx_vault (rx_env false NoFault) device request st).2.
Proof.
  intros Hd Hp. eapply (server_cancel rx_vault (rx_env false NoFault)).
  - instantiate (1 := request). unfold rx_cancel.
    destruct (decode_cancel request rx_vault device); [done|discriminate].
  - exact (ok_run Null _ Hp).
Qed.

Definition rx_log : list Reply :=
  [rx_cancelled rx_laptop (str "give up") rx6; rx_reply rx_phone (str "diverged") rx5; rx_reply rx_phone (str "first") rx4;
   rx_reply rx_laptop (str "edit") rx3; rx_reply rx_phone (str "first") rx0].

Lemma rx_run : server_run rx_vault rx0 rx_log rx7.
Proof.
  unfold rx_log.
  eapply (server_next _ _ _ (Some (rx_cancelled rx_laptop (str "give up") rx6)));
    [|apply rx_cancels; vm_cast_no_check (@eq_refl bool true)].
  eapply (server_next _ _ _ (Some (rx_reply rx_phone (str "diverged") rx5)));
    [|apply rx_commits; vm_cast_no_check (@eq_refl bool true)].
  eapply (server_next _ _ _ (Some (rx_reply rx_phone (str "first") rx4)));
    [|apply rx_commits; vm_cast_no_check (@eq_refl bool true)].
  eapply (server_next _ _ _ (Some (rx_reply rx_laptop (str "edit") rx3)));
    [|apply rx_commits; vm_cast_no_check (@eq_refl bool true)].
  eapply (server_next _ _ _ None); [|apply rx_crashes].
  eapply (server_next _ _ _ None); 
    [|apply rx_fails; vm_cast_no_check (@eq_refl bool false)].
  eapply (server_next _ _ [] (Some (rx_reply rx_phone (str "first") rx0)));
    [constructor|apply rx_commits; vm_cast_no_check (@eq_refl bool true)].
Qed.

Lemma commit_exactly_once_witness :
  rc_sequence (re_commit (rx_reply rx_phone (str "first") rx4)) = 1 ∧
  ∃ r, re_value (rx_reply rx_phone (str "first") rx4) = terminal_outcome rx_incarnation r
    ∧ re_value (rx_reply rx_phone (str "first") rx0) = terminal_outcome rx_incarnation r
    ∧ rc_mutation_id (re_commit (rx_reply rx_phone (str "first") rx4))
      = rc_mutation_id (re_commit (rx_reply rx_phone (str "first") rx0))
    ∧ rc_request_hash (re_commit (rx_reply rx_phone (str "first") rx4))
      = rc_request_hash (re_commit (rx_reply rx_phone (str "first") rx0)).
Proof.
  split; [vm_compute; reflexivity|].
  apply (commit_exactly_once rx_vault rx_store mx_content rx_log rx7
           (rx_reply rx_phone (str "first") rx4) (rx_reply rx_phone (str "first") rx0) rx_run).
  - unfold rx_log. do 2 apply list_elem_of_further. apply list_elem_of_here.
  - unfold rx_log. do 4 apply list_elem_of_further. apply list_elem_of_here.
  - exact (@eq_refl bytes rx_phone).
  - exact (@eq_refl N (rc_sequence (rx_decoded (str "first") rx_phone).1)).
Defined.

(** The same request from another device than the stored one is refused. *)
Lemma refused_push_keeps_head_witness :
  let refused := rx_post (rx_env false NoFault) rx_phone (str "edit") rx1 in
  df_visible (vd_current refused.2.1.1) = df_visible (vd_current rx1.1.1).
Proof.
  intros refused.
  apply (refused_push_keeps_head rx_vault (rx_env false NoFault) rx_phone (str "edit") rx1
           (err_or (Io "") refused.1) refused.2).
  - left. exact (err_run (Io "") _ ltac:(vm_cast_no_check (@eq_refl bool false))).
  - vm_compute. exact I.
Defined.

(** * The parts of the run *)

Definition rx_first : RootCommit := (rx_decoded (str "first") rx_phone).1.
Definition rx_receipt : RootReceipt := receipt_for rx_first (accepted_result (vr_hash rx_base)).
Definition rx_head : RootHead :=
  {| head_root_hash := Some (vr_hash rx_base); head_receipts := {[rx_phone := rx_receipt]} |}.

Lemma rx_head_typed : head_typed rx_head.
Proof.
  split.
  { intros h E. apply (f_equal (default [])) in E. rewrite <-(E : vr_hash rx_base = h).
    apply len_vr_hash. }
  cbn [rx_head head_receipts].
  apply map_Forall_singleton. vm_compute. reflexivity.
Qed.

Lemma root_head_roundtrip_witness :
  ∃ b, head_encode rx_vault rx_head = Ok b ∧ head_decode rx_vault b = Ok rx_head
    ∧ len b ≤ MAX_ROOT_HEAD_BYTES.
Proof.
  destruct (head_encode rx_vault rx_head) as [b|e] eqn:E.
  - exists b. split; [reflexivity|].
    exact (proj1 (root_head_roundtrip rx_vault rx_head rx_head_typed) b E).
  - exfalso. assert (is_ok (head_encode rx_vault rx_head) = true) as H by (vm_compute; reflexivity).
    rewrite E in H. discriminate H.
Defined.

(** Two texts of one request. *)
Lemma request_hash_binds_witness :
  str "first" ≠ str "first, spaced" ∧
  (rx_decoded (str "first") rx_phone).1 = (rx_decoded (str "first, spaced") rx_phone).1.
Proof.
  split; [by_decision|].
  refine (proj1 (proj2 (proj2 (request_hash_binds (str "first") rx_vault rx_phone _ _
    (str "first, spaced") rx_vault rx_phone _ _
    (rx_decoded_ok (str "first") rx_phone _) (rx_decoded_ok (str "first, spaced") rx_phone _) _ _)))).
  - vm_cast_no_check (@eq_refl bool true).
  - vm_cast_no_check (@eq_refl bool true).
  - intros x y [->| ->] [->| ->] _; vm_compute; reflexivity.
  - vm_compute. reflexivity.
Defined.

Lemma step_committed hash dev r d :
  len hash = 32 → receipt_typed r = true →
  is_ok (set_current_root_with_receipt rx_vault false NoFault hash dev r d).1 = true →
  vault_step rx_vault d (Some (dev, r))
    (set_current_root_with_receipt rx_vault false NoFault hash dev r d).2.
Proof.
  intros Hh Ht Hr.
  exact (step_commit rx_vault false NoFault hash dev r d (Ok _) _ Hh (λ _, Ht) (ok_run tt _ Hr)).
Qed.

Lemma step_found dev r d :
  (get_root_receipt rx_vault false false dev d).1 = Ok (Some r) →
  vault_step rx_vault d (Some (dev, r)) (get_root_receipt rx_vault false false dev d).2.
Proof.
  intros Hr. destruct (get_root_receipt _ _ _ _ _) as [res d'] eqn:E. cbn in Hr. subst res.
  exact (step_lookup rx_vault false false dev d (Ok (Some r)) d' E).
Qed.

Definition rx_published : VaultDisk :=
  (set_current_root_with_receipt rx_vault false NoFault (vr_hash rx_base) rx_phone rx_receipt vd_new).2.
Definition rx_found : VaultDisk := (get_root_receipt rx_vault false false rx_phone rx_published).2.

Lemma rx_vault_run :
  vault_run rx_vault vd_new [(rx_phone, rx_receipt); (rx_phone, rx_receipt)] rx_found.
Proof.
  eapply (run_step _ _ _ (Some (rx_phone, rx_receipt)) rx_published); [|apply step_found].
  2: vm_cast_no_check (@eq_refl (IoResult (option RootReceipt)) (Ok (Some rx_receipt))).
  eapply (run_step _ _ [] (Some (rx_phone, rx_receipt))); [constructor|].
  apply step_committed; vm_compute; reflexivity.
Qed.

Definition rx_found_lost : VaultDisk := (rx_crash (rx_found, rx_store, mx_content)).1.1.

Lemma outcomes_exactly_once_witness :
  ∃ head r', read_current_head rx_vault false rx_found_lost = Ok (Some head)
    ∧ head_receipts head !! rx_phone = Some r' ∧ follows rx_receipt r'.
Proof.
  apply (proj2 (outcomes_exactly_once rx_vault _ _ rx_vault_run) rx_phone rx_receipt rx_found_lost).
  - apply list_elem_of_here.
  - right. exact (rx_crash_survives (rx_found, rx_store, mx_content)).
Defined.

(** * Rollback without a barrier *)

Definition rx_lossy : PublishEnv :=
  {| pe_incarnation := rx_incarnation; pe_now := 1700000000100;
     pe_receipt_read_fails := false; pe_barrier_fails := false; pe_head_read_fails := false;
     pe_current_read_fails := false; pe_base_read_fails := false; pe_check_read_fails := false;
     pe_commit_read_fails := false; pe_incoming_fault := AfterRename; pe_merged_fault := NoFault;
     pe_commit_fault := NoFault; pe_blocking_fails := false; pe_present := λ _, true;
     pe_supports_v2 := true; pe_guard := guard_from_env (λ _, None); pe_bypass := false |}.

(** The push whose history write is not synchronised, the rollback to it, and
    the crash. *)
Definition rx_unsynced : State := (rx_post rx_lossy rx_laptop (str "edit") rx1).2.
Definition rx_rolled : result ServerError unit * State :=
  post_rollback rx_vault (rx_env false NoFault) true (hex_encode (vr_hash rx_a)) rx_unsynced.
Definition rx_lost : State := rx_crash rx_rolled.2.

(** a rollback can leave the vault without its root. A push whose
    history write is renamed but not synchronised fails; a rollback to that
    root succeeds, since [get_root] sees the file, and does not synchronise it
    before the head is moved there. After a crash the head, which is durable,
    names a root that is not in the history. *)
Example rollback_names_lost_root :
  is_ok (rx_post rx_lossy rx_laptop (str "edit") rx1).1 = false ∧
  is_ok rx_rolled.1 = true ∧ vd_survives rx_rolled.2.1.1 rx_lost.1.1 ∧
  match try_get_current_root rx_vault false rx_lost.1.1 with
  | Ok (Some h) => beq h (vr_hash rx_a)
  | _ => false
  end = true ∧
  get_root false (vr_hash rx_a) rx_rolled.2.1.1 ≠ None ∧
  get_root false (vr_hash rx_a) rx_lost.1.1 = None.
Proof.
  split; [vm_cast_no_check (@eq_refl bool false)|].
  split; [vm_cast_no_check (@eq_refl bool true)|].
  split; [unfold rx_lost; apply rx_crash_survives|].
  split; [vm_cast_no_check (@eq_refl bool true)|].
  split; by_decision.
Qed.
