(* ===== verification/SeqTracker.v ===== *)
(** src/crates/sync-server/src/seq_tracker.rs: the durable anti-replay window
    of the request transport.

    The tracker is the map of the mutex; the disk is the set of directories
    below [devices/], each with its [seq-window] file. A file that was
    renamed into place but not yet synchronised has a visible and a durable
    content: after a crash of the machine either may be found, while a restart
    of the process finds the visible one and leaves both. The directory of a
    device is not lost in a crash: enrollment has created and synchronised it
    (DevicesProps, [register_device_spec]) before a request of the device can be
    authenticated.

    The anti-replay window: the bit array implements a set of numbers, the
    tracker decides exactly which numbers are replays, and no number is
    accepted twice over any interleaving of requests, failed writes and
    restarts.

    The anti-replay theorems on concrete runs, and the identifiers they do not
    cover. *)

From S2P Require Import Prelude Bytes Text Hash Concrete StorageLayout.
Local Open Scope N_scope.

Definition WINDOW_BITS : N := 1024.
Definition WINDOW_BYTES : N := WINDOW_BITS / 8.
Definition RESERVATION_BLOCK : N := 4096.
Definition FILE_BYTES : N := 8.

Inductive ReplayDecision :=
  | Accepted
  | Replay (greatest_seen : N).

Record ReplayWindow := {
  greatest_seen : N;
  reserved_through : N;
  seen : bytes;
}.

Definition window_default : ReplayWindow := {|
  greatest_seen := 0; reserved_through := 0;
  seen := replicate (N.to_nat WINDOW_BYTES) x00 |}.

(** * The bit window *)

(** [bits[index / 8] & (1 << (index % 8)) != 0]; the index is in range
    wherever the code calls it. *)
Definition bit_is_set (bits : bytes) (index : N) : bool :=
  match bits !! N.to_nat (index / 8) with
  | Some b => negb (N.land (b2n b) (N.shiftl 1 (index mod 8)) =? 0)
  | None => false
  end.

Definition set_bit (bits : bytes) (index : N) : bytes :=
  alter (λ b, n2b (N.lor (b2n b) (N.shiftl 1 (index mod 8)))) (N.to_nat (index / 8)) bits.

Definition is_seen_or_stale (state : ReplayWindow) (sequence : N) : bool :=
  if greatest_seen state <? sequence then false
  else
    let age := greatest_seen state - sequence in
    (WINDOW_BITS <=? age) || bit_is_set (seen state) age.

(** The copy loop of [record]: every bit below [n] moves up by [shift]. *)
Definition shift_bits (previous : bytes) (shift : N) (n : nat) (bits : bytes) : bytes :=
  fold_left
    (λ bits age,
      if bit_is_set previous (N.of_nat age) then set_bit bits (N.of_nat age + shift) else bits)
    (seq 0 n) bits.

Definition record (state : ReplayWindow) (sequence : N) : ReplayWindow :=
  if greatest_seen state <? sequence then
    let delta := sequence - greatest_seen state in
    let cleared := replicate (length (seen state)) x00 in
    let moved :=
      if WINDOW_BITS <=? delta then cleared
      else shift_bits (seen state) delta (N.to_nat (WINDOW_BITS - delta)) cleared in
    {| greatest_seen := sequence; reserved_through := reserved_through state;
       seen := set_bit moved 0 |}
  else
    {| greatest_seen := greatest_seen state; reserved_through := reserved_through state;
       seen := set_bit (seen state) (greatest_seen state - sequence) |}.

Definition reservation_ceiling (sequence : N) : N :=
  let remainder := sequence mod RESERVATION_BLOCK in
  if remainder =? 0 then sequence
  else saturating_add64 sequence (RESERVATION_BLOCK - remainder).

(** * The disk *)

Record SeqFile := { sf_visible : option bytes; sf_durable : option bytes }.

(** The directories below [devices/]. *)
Abbreviation SeqDisk := (gmap bytes SeqFile).

(** What the operating system answers: whether reads fail, and how far
    [persist] gets. *)
Inductive PersistFault :=
  | NoFault
  | FailsBeforeDirectory
  | FailsBeforeRename
  | FailsAfterRename.

Abbreviation SequenceTracker := (gmap bytes ReplayWindow).
Abbreviation ServerState := (SequenceTracker * SeqDisk)%type.

Section tracker.
Context {B3 : Blake3} {HX : Hex}.

Definition all_seen : bytes := replicate (N.to_nat WINDOW_BYTES) xff.

(** [load]. *)
Definition load (disk : SeqDisk) (read_fails : bool) (device_id : bytes)
    : result string ReplayWindow :=
  if read_fails then Err "read failed"%string
  else
    match disk !! storage_component device_id ≫= sf_visible with
    | None => Ok window_default
    | Some b =>
        if negb (len b =? FILE_BYTES)
        then Err "invalid sequence-reservation file length"%string
        else
          let reserved := be_val b in
          Ok {| greatest_seen := reserved; reserved_through := reserved; seen := all_seen |}
    end.

(** [persist]: write and synchronise a temporary file, rename it over the
    reservation, synchronise the directory. *)
Definition persist (fault : PersistFault) (device_id : bytes) (reserved : N) (disk : SeqDisk)
    : result string unit * SeqDisk :=
  let dir := storage_component device_id in
  let file := default {| sf_visible := None; sf_durable := None |} (disk !! dir) in
  let content := be_bytes 8 reserved in
  match fault with
  | FailsBeforeDirectory => (Err "persist failed"%string, disk)
  | FailsBeforeRename => (Err "persist failed"%string, <[dir := file]> disk)
  | FailsAfterRename =>
      (Err "persist failed"%string,
       <[dir := {| sf_visible := Some content; sf_durable := sf_durable file |}]> disk)
  | NoFault =>
      (Ok tt, <[dir := {| sf_visible := Some content; sf_durable := Some content |}]> disk)
  end.

(** The loop of [load_existing_devices] over the directory listing. *)
Fixpoint load_listed (disk : SeqDisk) (read_fails : bool) (names : list bytes)
    (states : SequenceTracker) : result string SequenceTracker :=
  match names with
  | [] => Ok states
  | name :: names =>
      if beq name (str "tokens") then load_listed disk read_fails names states
      else
        let device_id := from_utf8_lossy name in
        let? window := load disk read_fails device_id in
        load_listed disk read_fails names (<[device_id := window]> states)
  end.

(** [SequenceTracker::new]. *)
Definition tracker_new (disk : SeqDisk) (read_fails : bool) : result string SequenceTracker :=
  load_listed disk read_fails (map_to_list disk).*1 ∅.

(** The answer to a rejected request. *)
Definition replay_of (state : ReplayWindow) : ReplayDecision :=
  Replay (N.max (reserved_through state) (greatest_seen state)).

(** [check_in_memory]: [None] asks the caller to take the durable path. *)
Definition check_in_memory (device_id : bytes) (sequence : N) (states : SequenceTracker)
    : option ReplayDecision * SequenceTracker :=
  let state := default window_default (states !! device_id) in
  let states := <[device_id := state]> states in
  if (sequence =? 0) || is_seen_or_stale state sequence then (Some (replay_of state), states)
  else if reserved_through state <? sequence then (None, states)
  else (Some Accepted, <[device_id := record state sequence]> states).

(** The window a device has in memory, loaded when it has none. *)
Definition resident (disk : SeqDisk) (read_fails : bool) (device_id : bytes)
    (states : SequenceTracker) : result string ReplayWindow :=
  match states !! device_id with
  | Some state => Ok state
  | None => load disk read_fails device_id
  end.

(** [check_and_record]. *)
Definition check_and_record (fault : PersistFault) (read_fails : bool) (device_id : bytes)
    (sequence : N) (states : SequenceTracker) (disk : SeqDisk)
    : result string ReplayDecision * SequenceTracker * SeqDisk :=
  match resident disk read_fails device_id states with
  | Err e => (Err e, states, disk)
  | Ok state =>
      let states := <[device_id := state]> states in
      if (sequence =? 0) || is_seen_or_stale state sequence
      then (Ok (replay_of state), states, disk)
      else if reserved_through state <? sequence then
        let ceiling := reservation_ceiling sequence in
        match persist fault device_id ceiling disk with
        | (Err e, disk) => (Err e, states, disk)
        | (Ok _, disk) =>
            let state := {| greatest_seen := greatest_seen state;
                            reserved_through := ceiling; seen := seen state |} in
            (Ok Accepted, <[device_id := record state sequence]> states, disk)
        end
      else (Ok Accepted, <[device_id := record state sequence]> states, disk)
  end.

(** * The running server *)

(** One request after another, with restarts between them: of the process, which
    changes nothing on the disk, or of the machine, which keeps, for every
    file, the visible or the durable content. [Some (d, n)] is the event that
    number [n] of device [d] was accepted. *)
Definition survives (disk disk' : SeqDisk) : Prop :=
  ∀ dir, match disk !! dir with
         | None => disk' !! dir = None
         | Some f => ∃ c, (c = sf_visible f ∨ c = sf_durable f)
                          ∧ disk' !! dir = Some {| sf_visible := c; sf_durable := c |}
         end.

Inductive request_step : ServerState → option (bytes * N) → ServerState → Prop :=
  | step_memory device_id sequence states states' decision disk :
      sequence ≤ U64_MAX →
      check_in_memory device_id sequence states = (decision, states') →
      request_step (states, disk)
        (match decision with Some Accepted => Some (device_id, sequence) | _ => None end)
        (states', disk)
  | step_durable device_id sequence fault read_fails states states' disk disk' decision :
      sequence ≤ U64_MAX →
      check_and_record fault read_fails device_id sequence states disk
        = (decision, states', disk') →
      request_step (states, disk)
        (match decision with Ok Accepted => Some (device_id, sequence) | _ => None end)
        (states', disk').

Inductive server_step : ServerState → option (bytes * N) → ServerState → Prop :=
  | step_request s event s' : request_step s event s' → server_step s event s'
  | step_process states states' disk :
      tracker_new disk false = Ok states' →
      server_step (states, disk) None (states', disk)
  | step_restart states states' disk disk' :
      survives disk disk' →
      tracker_new disk' false = Ok states' →
      server_step (states, disk) None (states', disk').

(** Runs with the list of accepted requests, the newest first. *)
Inductive run_of (step : ServerState → option (bytes * N) → ServerState → Prop)
    (start : ServerState) : list (bytes * N) → ServerState → Prop :=
  | run_start : run_of step start [] start
  | run_step accepted event s s' :
      run_of step start accepted s →
      step s event s' →
      run_of step start (option_list event ++ accepted) s'.
End tracker.


(** * Bits *)

Lemma land_bit x i : negb (N.land x (N.shiftl 1 i) =? 0) = N.testbit x i.
Proof.
  rewrite N.shiftl_1_l. destruct (N.testbit x i) eqn:E.
  - apply negb_true_iff, N.eqb_neq. intros H.
    assert (N.testbit (N.land x (2 ^ i)) i = true) as Ht
      by (by rewrite N.land_spec, E, N.pow2_bits_true).
    rewrite H, N.bits_0 in Ht. done.
  - apply negb_false_iff, N.eqb_eq, N.bits_inj_0. intros j.
    rewrite N.land_spec, N.pow2_bits_eqb.
    destruct (N.eqb_spec i j) as [->|]; [by rewrite E|by rewrite andb_false_r].
Qed.

Lemma bit_is_set_testbit bits i b :
  bits !! N.to_nat (i / 8) = Some b → bit_is_set bits i = N.testbit (b2n b) (i mod 8).
Proof. unfold bit_is_set. intros ->. apply land_bit. Qed.

Lemma length_set_bit bits i : length (set_bit bits i) = length bits.
Proof. apply length_alter. Qed.

Lemma bit_set_bit bits i j :
  j < 8 * len bits → bit_is_set (set_bit bits j) i = bool_decide (i = j) || bit_is_set bits i.
Proof.
  intros Hj. destruct (lookup_lt_is_Some_2 bits (N.to_nat (j / 8))) as [b Hb].
  { pose proof (N.Div0.div_lt_upper_bound j 8 (len bits) Hj). unfold len in *. lia. }
  pose proof (N.mod_upper_bound i 8 ltac:(done)). pose proof (N.mod_upper_bound j 8 ltac:(done)).
  pose proof (N.div_mod' i 8). pose proof (N.div_mod' j 8).
  unfold set_bit. destruct (decide (i / 8 = j / 8)) as [E|E].
  - rewrite (bit_is_set_testbit _ _ (n2b (N.lor (b2n b) (N.shiftl 1 (j mod 8))))).
    2: { by rewrite E, list_lookup_alter_eq, Hb. }
    rewrite (bit_is_set_testbit bits i b) by (by rewrite E).
    rewrite b2n_n2b. change 256 with (2 ^ 8). rewrite N.mod_pow2_bits_low by lia.
    rewrite N.lor_spec, N.shiftl_1_l, N.pow2_bits_eqb, orb_comm. f_equal.
    case_bool_decide; [apply N.eqb_eq|apply N.eqb_neq]; lia.
  - rewrite bool_decide_eq_false_2 by congruence. unfold bit_is_set.
    rewrite list_lookup_alter_ne; [done|]. lia.
Qed.

Lemma bit_cleared n i : bit_is_set (replicate n x00) i = false.
Proof.
  unfold bit_is_set. destruct (replicate n x00 !! N.to_nat (i / 8)) as [b|] eqn:E; [|done].
  apply lookup_replicate in E as [-> _]. apply (land_bit 0 (i mod 8)).
Qed.

Lemma bit_all_seen i : i < WINDOW_BITS → bit_is_set all_seen i = true.
Proof.
  intros Hi. rewrite (bit_is_set_testbit _ _ xff).
  - pose proof (N.mod_upper_bound i 8 ltac:(done)).
    apply (N.ones_spec_low 8). done.
  - apply lookup_replicate. split; [done|].
    pose proof (N.Div0.div_lt_upper_bound i 8 128 Hi). change (N.to_nat WINDOW_BYTES) with (N.to_nat 128). lia.
Qed.

(** The bits the copy loop has produced. *)
Lemma shift_bits_spec previous shift n bits i :
  N.of_nat n + shift ≤ 8 * len bits →
  length (shift_bits previous shift n bits) = length bits ∧
  bit_is_set (shift_bits previous shift n bits) i
    = bit_is_set bits i
      || (bool_decide (shift ≤ i ∧ i < N.of_nat n + shift) && bit_is_set previous (i - shift)).
Proof.
  induction n as [|n IH]; intros Hn.
  - split; [done|]. rewrite bool_decide_eq_false_2 by lia. by rewrite orb_false_r.
  - destruct IH as [IHl IHb]; [lia|]. unfold shift_bits in *.
    rewrite seq_S, fold_left_app. cbn [fold_left]. rewrite Nat.add_0_l.
    destruct (bit_is_set previous (N.of_nat n)) eqn:E.
    + rewrite length_set_bit. split; [done|].
      rewrite bit_set_bit, IHb by (unfold len in *; lia).
      destruct (decide (i = N.of_nat n + shift)) as [->|Hi].
      * rewrite bool_decide_eq_true_2 by done.
        rewrite (bool_decide_eq_true_2 (shift ≤ _ ∧ _ < N.of_nat (S n) + _)) by lia.
        replace (N.of_nat n + shift - shift) with (N.of_nat n) by lia. rewrite E.
        cbn. by rewrite orb_true_r.
      * rewrite bool_decide_eq_false_2 by done. cbn [orb]. f_equal. f_equal.
        apply bool_decide_ext. lia.
    + split; [done|]. rewrite IHb. f_equal.
      destruct (decide (i = N.of_nat n + shift)) as [->|Hi].
      * replace (N.of_nat n + shift - shift) with (N.of_nat n) by lia. by rewrite E, !andb_false_r.
      * f_equal. apply bool_decide_ext. lia.
Qed.

(** * The window as a set *)

(** What a window knows: everything up to the ceiling [c] it was loaded with,
    and the numbers [hist] recorded since. *)
Definition replayed (c : N) (hist : list N) (n : N) : Prop :=
  n = 0 ∨ n ≤ c ∨ n ∈ hist ∨ ∃ g, g ∈ hist ∧ n + WINDOW_BITS ≤ g.

Record window_of (c : N) (hist : list N) (w : ReplayWindow) : Prop := {
  wo_length : length (seen w) = N.to_nat WINDOW_BYTES;
  wo_greatest : greatest_seen w = c ∨ greatest_seen w ∈ hist;
  wo_ceiling : c ≤ greatest_seen w;
  wo_bound : ∀ n, n ∈ hist → n ≤ greatest_seen w;
  wo_seen : ∀ n, 0 < n → is_seen_or_stale w n = true ↔ replayed c hist n;
}.

Lemma window_default_of : window_of 0 [] window_default.
Proof.
  split.
  - apply length_replicate.
  - by left.
  - done.
  - by intros n ?%not_elem_of_nil.
  - intros n Hn. unfold is_seen_or_stale. cbn [greatest_seen window_default].
    rewrite (proj2 (N.ltb_lt 0 n)) by done. split; [done|].
    intros [?|[?|[?%not_elem_of_nil|(g & ?%not_elem_of_nil & _)]]]; [lia|lia|done..].
Qed.

Lemma window_loaded_of c :
  window_of c [] {| greatest_seen := c; reserved_through := c; seen := all_seen |}.
Proof.
  split; cbn [greatest_seen seen].
  - apply length_replicate.
  - by left.
  - done.
  - by intros n ?%not_elem_of_nil.
  - intros n Hn. unfold is_seen_or_stale. cbn [greatest_seen seen].
    destruct (N.ltb_spec c n).
    + split; [done|]. intros [?|[?|[?%not_elem_of_nil|(g & ?%not_elem_of_nil & _)]]]; [lia|lia|done..].
    + split; [by right; left|]. intros _. destruct (N.leb_spec WINDOW_BITS (c - n)); [done|].
      by rewrite bit_all_seen.
Qed.

Lemma seen_older w n :
  n ≤ greatest_seen w →
  is_seen_or_stale w n
  = (WINDOW_BITS <=? greatest_seen w - n) || bit_is_set (seen w) (greatest_seen w - n).
Proof. intros. unfold is_seen_or_stale. by rewrite (proj2 (N.ltb_ge _ _)). Qed.

Lemma seen_newer w n : greatest_seen w < n → is_seen_or_stale w n = false.
Proof. intros. unfold is_seen_or_stale. by rewrite (proj2 (N.ltb_lt _ _)). Qed.

(** Recording an unseen number adds exactly that number, and moves the window
    when the number is the greatest so far. *)
Lemma record_seen w k n :
  length (seen w) = N.to_nat WINDOW_BYTES → is_seen_or_stale w k = false →
  is_seen_or_stale (record w k) n
  = bool_decide (n = k) || is_seen_or_stale w n || bool_decide (n + WINDOW_BITS ≤ k).
Proof.
  intros Hl Hk. unfold record. destruct (N.ltb_spec (greatest_seen w) k) as [Hlt|Hge].
  - set (moved := if WINDOW_BITS <=? _ then _ else _).
    assert (len (replicate (length (seen w)) x00) = 128) as Hc
      by (unfold len; rewrite length_replicate, Hl; reflexivity).
    assert (len moved = 128 ∧ ∀ i, i < WINDOW_BITS → bit_is_set moved i
              = bool_decide (k - greatest_seen w ≤ i)
                && bit_is_set (seen w) (i - (k - greatest_seen w))) as [Hml Hmb].
    { unfold moved. destruct (N.leb_spec WINDOW_BITS (k - greatest_seen w)) as [Hd|Hd].
      - split; [done|]. intros i Hi. rewrite bit_cleared, bool_decide_eq_false_2 by lia. done.
      - assert (N.of_nat (N.to_nat (WINDOW_BITS - (k - greatest_seen w))) + (k - greatest_seen w)
                  ≤ 8 * len (replicate (length (seen w)) x00)) as Hb
          by (rewrite Hc; unfold WINDOW_BITS in *; lia).
        split; [unfold len in *; rewrite (proj1 (shift_bits_spec _ _ _ _ 0 Hb)); done|].
        intros i Hi. rewrite (proj2 (shift_bits_spec _ _ _ _ i Hb)), bit_cleared. cbn [orb].
        f_equal. apply bool_decide_ext. lia. }
    destruct (N.le_gt_cases n k) as [Hn|Hn].
    + rewrite seen_older by done. cbn [greatest_seen seen].
      rewrite bit_set_bit by lia.
      destruct (N.leb_spec WINDOW_BITS (k - n)) as [Hs|Hs].
      { rewrite (bool_decide_eq_true_2 (n + _ ≤ k)) by lia. by rewrite orb_true_r. }
      rewrite (bool_decide_eq_false_2 (n + _ ≤ k)), orb_false_r by lia. cbn [orb].
      rewrite Hmb by done. f_equal; [apply bool_decide_ext; lia|].
      destruct (N.le_gt_cases n (greatest_seen w)) as [Hg|Hg].
      * rewrite bool_decide_eq_true_2 by lia. rewrite seen_older by done.
        rewrite (proj2 (N.leb_gt _ _)) by lia. cbn [orb andb]. f_equal. lia.
      * rewrite bool_decide_eq_false_2 by lia. by rewrite seen_newer.
    + rewrite seen_newer by done. rewrite !bool_decide_eq_false_2 by lia.
      rewrite seen_newer by lia. done.
  - rewrite seen_older in Hk by done. bool_to_prop.
    destruct (N.le_gt_cases n (greatest_seen w)) as [Hn|Hn].
    + rewrite !seen_older by done. cbn [greatest_seen seen].
      rewrite bit_set_bit by (unfold len; rewrite Hl; change (N.of_nat (N.to_nat WINDOW_BYTES)) with 128; unfold WINDOW_BITS in *; lia).
      rewrite (bool_decide_ext (greatest_seen w - n = _) (n = k)) by lia.
      destruct (N.leb_spec WINDOW_BITS (greatest_seen w - n)).
      { cbn. by rewrite orb_true_r. }
      rewrite (bool_decide_eq_false_2 (n + _ ≤ k)) by lia. by rewrite orb_false_r.
    + rewrite !seen_newer by done. rewrite !bool_decide_eq_false_2 by lia. done.
Qed.

Lemma greatest_record w k : greatest_seen (record w k) = N.max (greatest_seen w) k.
Proof. unfold record. destruct (N.ltb_spec (greatest_seen w) k); cbn; lia. Qed.

Lemma reserved_record w k : reserved_through (record w k) = reserved_through w.
Proof. unfold record. by destruct (greatest_seen w <? k). Qed.

Lemma length_shift_bits previous shift n bits :
  length (shift_bits previous shift n bits) = length bits.
Proof.
  unfold shift_bits. generalize (seq 0 n) as ages. intros ages. revert bits.
  induction ages as [|a ages IH]; intros bits; cbn [fold_left]; [done|].
  rewrite IH. destruct (bit_is_set previous (N.of_nat a)); [apply length_set_bit|done].
Qed.

Lemma length_record w k : length (seen (record w k)) = length (seen w).
Proof.
  unfold record. destruct (greatest_seen w <? k); cbn [seen]; rewrite length_set_bit; [|done].
  destruct (WINDOW_BITS <=? _); rewrite ?length_shift_bits; apply length_replicate.
Qed.

Lemma window_of_record c hist w k :
  window_of c hist w → 0 < k → is_seen_or_stale w k = false →
  window_of c (k :: hist) (record w k).
Proof.
  intros Hw Hk Hn. split.
  - rewrite length_record. apply Hw.
  - rewrite greatest_record. destruct (N.max_spec (greatest_seen w) k) as [[_ ->]|[_ ->]].
    + right. left.
    + destruct (wo_greatest _ _ _ Hw); [by left|right; by right].
  - rewrite greatest_record. pose proof (wo_ceiling _ _ _ Hw). lia.
  - intros n. rewrite elem_of_cons, greatest_record.
    intros [->|H%(wo_bound _ _ _ Hw)]; lia.
  - intros n Hp. rewrite record_seen by (done || apply Hw).
    rewrite !orb_true_iff, !bool_decide_eq_true, (wo_seen _ _ _ Hw) by done.
    unfold replayed. setoid_rewrite elem_of_cons. naive_solver.
Qed.

(** * Devices *)

(** The identifiers that name their own directory; enrollment generates 32
    hexadecimal digits. *)
Definition valid_device (device_id : bytes) : bool :=
  component_safe device_id && negb (beq device_id (str "tokens")).

(** The accepted numbers of one device. *)
Definition numbers (device_id : bytes) (accepted : list (bytes * N)) : list N :=
  (filter (λ e, e.1 = device_id) accepted).*2.

Lemma numbers_app d l1 l2 : numbers d (l1 ++ l2) = numbers d l1 ++ numbers d l2.
Proof. unfold numbers. by rewrite filter_app, fmap_app. Qed.

Lemma elem_of_numbers d n l : n ∈ numbers d l ↔ (d, n) ∈ l.
Proof.
  unfold numbers. rewrite list_elem_of_fmap. split.
  - intros ([d' n'] & -> & [??]%list_elem_of_filter). simpl in *. by subst.
  - intros. exists (d, n). by rewrite list_elem_of_filter.
Qed.

Lemma numbers_NoDup l : (∀ d, d ∈ l.*1 → NoDup (numbers d l)) → NoDup l.
Proof.
  induction l as [|[d n] l IH]; intros H; [constructor|].
  constructor.
  - intros Hin. specialize (H d). unfold numbers in H. rewrite filter_cons_True in H by done.
    apply NoDup_cons in H as [H _]; [|left]. by apply H, elem_of_numbers.
  - apply IH. intros d' Hd'. specialize (H d'). unfold numbers in H.
    rewrite filter_cons in H. case_decide; [|apply H; by right].
    apply NoDup_cons in H as [_ H]; [done|by right].
Qed.

Section devices.
Context {B3 : Blake3} {HX : Hex}.
Implicit Types (states : SequenceTracker) (disk : SeqDisk).

Lemma valid_component d : valid_device d = true → storage_component d = d.
Proof. intros [H _]%andb_prop. by apply storage_component_safe. Qed.

(** No other identifier is stored in the directory of a valid device. *)
Lemma component_owner d d' :
  valid_device d = true → storage_component d' = d → d' = d.
Proof.
  intros Hd. unfold storage_component. destruct (component_safe d'); [done|].
  intros <-. unfold valid_device, component_safe in Hd. bool_to_prop. discriminate.
Qed.

Lemma lossy_owner d name :
  valid_device d = true → from_utf8_lossy name = d ↔ name = d.
Proof.
  intros Hd. apply andb_prop in Hd as [Hd%component_safe_ascii _]. split.
  - intros <-. symmetry. by apply from_utf8_lossy_ascii.
  - intros ->. by apply from_utf8_lossy_valid, utf8_ascii.
Qed.

(** The ceiling found in a reservation file. *)
Definition stored_ceiling (disk : SeqDisk) (device_id : bytes) : N :=
  match disk !! device_id ≫= sf_visible with Some b => be_val b | None => 0 end.

Lemma load_valid disk d w :
  valid_device d = true → load disk false d = Ok w →
  window_of (stored_ceiling disk d) [] w
  ∧ greatest_seen w = stored_ceiling disk d ∧ reserved_through w = stored_ceiling disk d
  ∧ (∀ b, disk !! d ≫= sf_visible = Some b → len b = 8).
Proof.
  intros Hd. unfold load, stored_ceiling. rewrite valid_component by done.
  destruct (disk !! d ≫= sf_visible) as [b|].
  - destruct (len b =? FILE_BYTES) eqn:El; [|done]. cbn [negb].
    intros [= <-]. bool_to_prop. split_and!; [apply window_loaded_of|done..|].
    by intros ? [= <-].
  - intros [= <-]. split_and!; [apply window_default_of|done..].
Qed.

Lemma load_listed_valid disk names states states' d :
  valid_device d = true → load_listed disk false names states = Ok states' →
  (d ∉ names → states' !! d = states !! d)
  ∧ (d ∈ names → ∃ w, load disk false d = Ok w ∧ states' !! d = Some w).
Proof.
  intros Hd. revert states. induction names as [|name names IH]; intros states; cbn [load_listed].
  { intros [= <-]. split; [done|]. by intros ?%not_elem_of_nil. }
  destruct (beq name (str "tokens")) eqn:Et.
  { intros Hr. destruct (IH _ Hr) as [H1 H2]. rewrite !elem_of_cons.
    apply beq_true in Et as ->. apply andb_prop in Hd as [_ Hd].
    assert (d ≠ str "tokens") by (intros ->; by rewrite (proj2 (beq_true _ _)) in Hd). naive_solver. }
  rewrite let_ok. intros (w & Hw & Hr). destruct (IH _ Hr) as [H1 H2].
  rewrite !elem_of_cons. destruct (decide (name = d)) as [->|Hne].
  - rewrite (proj2 (lossy_owner d d Hd)) in * by done. split; [naive_solver|]. intros _.
    destruct (decide (d ∈ names)) as [Hin|Hin]; [by apply H2|].
    exists w. split; [done|]. rewrite H1 by done. by rewrite lookup_insert_eq.
  - rewrite lookup_insert_ne in H1; [naive_solver|]. by rewrite lossy_owner.
Qed.

Lemma tracker_new_valid disk states d :
  valid_device d = true → tracker_new disk false = Ok states →
  match disk !! d with
  | None => states !! d = None
  | Some _ => ∃ w, load disk false d = Ok w ∧ states !! d = Some w
  end.
Proof.
  intros Hd Hn. destruct (load_listed_valid _ _ _ _ d Hd Hn) as [H1 H2].
  destruct (disk !! d) as [f|] eqn:E.
  - apply H2. rewrite list_elem_of_fmap. exists (d, f). by rewrite elem_of_map_to_list.
  - rewrite H1, lookup_empty; [done|]. rewrite list_elem_of_fmap.
    intros ([d' f] & -> & Hin%elem_of_map_to_list). simpl in E. by rewrite E in Hin.
Qed.

(** * The invariant *)

(** Both contents of the reservation file cover [r]. *)
Definition reserved_on (disk : SeqDisk) (d : bytes) (r : N) : Prop :=
  ∃ f bv bd, disk !! d = Some f ∧ sf_visible f = Some bv ∧ sf_durable f = Some bd
    ∧ r ≤ be_val bv ∧ r ≤ be_val bd.

Definition covered (disk : SeqDisk) (d : bytes) (r : N) : Prop := r = 0 ∨ reserved_on disk d r.

(** Device [d] is in a window loaded with ceiling [c] that has since accepted
    [recent]; once it has accepted something, what memory reserves is reserved
    on the disk. *)
Definition device_ok (d : bytes) (c : N) (recent : list N) (s : ServerState) : Prop :=
  match s.1 !! d with
  | Some w => window_of c recent w ∧ greatest_seen w ≤ reserved_through w
              ∧ (recent = [] ∧ reserved_through w ≤ c ∨ reserved_on s.2 d (reserved_through w))
  | None => c = 0 ∧ recent = [] ∧ s.2 !! d = None
  end.

Lemma reservation_ceiling_bound n :
  n ≤ U64_MAX → n ≤ reservation_ceiling n ∧ reservation_ceiling n ≤ U64_MAX.
Proof.
  intros Hn. unfold reservation_ceiling, saturating_add64.
  destruct (n mod RESERVATION_BLOCK =? 0); lia.
Qed.

(** What [persist] does to the file of a device, and to no other. *)
Lemma persist_spec fault d' r disk res disk' d :
  valid_device d = true → r ≤ U64_MAX → persist fault d' r disk = (res, disk') →
  (d' ≠ d → disk' !! d = disk !! d)
  ∧ (d' = d → (res = Ok tt → reserved_on disk' d r)
              ∧ ∀ r', r' ≤ r → reserved_on disk d r' → reserved_on disk' d r').
Proof.
  intros Hd Hr Hp.
  assert (be_val (be_bytes 8 r) = r) as Hb
    by (apply be_val_be_bytes; change (256 ^ N.of_nat 8) with (U64_MAX + 1); lia).
  split.
  - intros Hne. assert (storage_component d' ≠ d) as Hc by (intros ?%component_owner; done).
    unfold persist in Hp. destruct fault; simplify_eq; by rewrite ?lookup_insert_ne.
  - intros ->. unfold persist in Hp. rewrite valid_component in Hp by done. split.
    + intros ->. destruct fault; simplify_eq. eexists _, _, _. rewrite lookup_insert_eq.
      split_and!; [done..|lia|lia].
    + intros r' Hle (f & bv & bd & Hf & Hv & Hdu & H1 & H2).
      rewrite Hf in Hp. cbn [default] in Hp.
      destruct fault; simplify_eq; eexists _, _, _; rewrite ?lookup_insert_eq, ?Hf;
        split_and!; try done; cbn in *; simplify_eq; lia.
Qed.

Lemma device_ok_other d d' c recent states disk w :
  d' ≠ d → device_ok d c recent (states, disk) → device_ok d c recent (<[d' := w]> states, disk).
Proof. intros Hne. unfold device_ok. cbn [fst snd]. by rewrite lookup_insert_ne. Qed.

Lemma device_ok_accept d c recent states disk w k :
  device_ok d c recent (states, disk) → states !! d = Some w →
  0 < k → is_seen_or_stale w k = false → k ≤ reserved_through w →
  device_ok d c (k :: recent) (<[d := record w k]> states, disk).
Proof.
  unfold device_ok. cbn [fst snd]. intros H Hw Hk Hn Hr. rewrite Hw in H.
  destruct H as (H1 & H2 & H3). rewrite lookup_insert_eq. split_and!.
  - by apply window_of_record.
  - rewrite greatest_record, reserved_record. lia.
  - rewrite reserved_record. destruct H3 as [[-> H3]|H3]; [|by right].
    assert (is_seen_or_stale w k = true) as E by (apply (wo_seen _ _ _ H1); [done|]; right; left; lia).
    congruence.
Qed.

(** A device the tracker has not met gets the empty window. *)
Lemma device_ok_resident d c recent states disk w :
  device_ok d c recent (states, disk) →
  (states !! d = None → window_of 0 [] w ∧ greatest_seen w = 0 ∧ reserved_through w = 0) →
  (∀ w', states !! d = Some w' → w = w') →
  device_ok d c recent (<[d := w]> states, disk).
Proof.
  unfold device_ok. cbn [fst snd]. intros H HN HS. rewrite lookup_insert_eq.
  destruct (states !! d) as [w'|] eqn:E.
  - by rewrite (HS w').
  - destruct H as (-> & -> & _). destruct HN as (H1 & H2 & H3); [done|].
    rewrite H2, H3. split_and!; [done..|]. left. split; [done|lia].
Qed.

(** Accepting is possible only for a number the abstract window does not
    reject. *)
Definition fresh (d : bytes) (c : N) (recent : list N) (event : option (bytes * N)) : Prop :=
  ∀ k, event = Some (d, k) → ¬ replayed c recent k.

Definition recent_after (d : bytes) (event : option (bytes * N)) (recent : list N) : list N :=
  numbers d (option_list event) ++ recent.

Lemma recent_after_other d d' k recent :
  d' ≠ d → recent_after d (Some (d', k)) recent = recent.
Proof. intros. unfold recent_after, numbers. change (option_list (Some (d', k))) with [(d', k)]. by rewrite filter_cons_False. Qed.

Lemma recent_after_same d k recent : recent_after d (Some (d, k)) recent = k :: recent.
Proof. unfold recent_after, numbers. change (option_list (Some (d, k))) with [(d, k)]. by rewrite filter_cons_True. Qed.

Lemma recent_after_None d recent : recent_after d None recent = recent.
Proof. done. Qed.

(** The window a request of device [d] is decided on. *)
Lemma window_decides d c recent states disk w n :
  device_ok d c recent (states, disk) → states !! d = Some w → 0 < n →
  is_seen_or_stale w n = true ↔ replayed c recent n.
Proof.
  unfold device_ok. cbn [fst]. intros H Hw Hn. rewrite Hw in H. by apply H.
Qed.

Lemma memory_window_ok d c recent states disk :
  device_ok d c recent (states, disk) →
  device_ok d c recent (<[d := default window_default (states !! d)]> states, disk).
Proof.
  intros H. apply device_ok_resident; [done|..].
  - intros ->. split_and!; [apply window_default_of|done..].
  - by intros w' ->.
Qed.

Lemma step_memory_ok d c recent d' n states states' decision disk :
  check_in_memory d' n states = (decision, states') →
  device_ok d c recent (states, disk) →
  let event := match decision with Some Accepted => Some (d', n) | _ => None end in
  fresh d c recent event ∧ device_ok d c (recent_after d event recent) (states', disk).
Proof.
  intros Hc Hok. cbv zeta. destruct (decide (d' = d)) as [->|Hne].
  - apply memory_window_ok in Hok. unfold check_in_memory in Hc.
    set (w := default window_default (states !! d)) in *.
    destruct ((n =? 0) || is_seen_or_stale w n) eqn:E1; [simplify_eq; by split|].
    bool_to_prop. destruct (N.ltb_spec (reserved_through w) n); [simplify_eq; by split|].
    simplify_eq. rewrite recent_after_same. split.
    + intros k [= <-] Hr. revert Hr. rewrite <-window_decides; [|done|apply lookup_insert_eq|lia].
      congruence.
    + apply device_ok_accept; try done; [apply lookup_insert_eq|lia].
  - assert (∃ w, states' = <[d' := w]> states) as [w ->].
    { unfold check_in_memory in Hc. repeat case_match; simplify_eq; eexists; rewrite ?insert_insert_eq; done. }
    destruct decision as [[]|]; (split; [intros k ?; congruence|]);
      rewrite ?recent_after_other, ?recent_after_None by done; by apply device_ok_other.
Qed.

Lemma resident_window_ok d c recent states disk read_fails w :
  valid_device d = true → device_ok d c recent (states, disk) →
  resident disk read_fails d states = Ok w →
  device_ok d c recent (<[d := w]> states, disk).
Proof.
  intros Hd H Hr. unfold resident in Hr. apply device_ok_resident; [done|..].
  - intros E. rewrite E in Hr. destruct read_fails; [done|].
    destruct (load_valid _ _ _ Hd Hr) as (H1 & H2 & H3 & _).
    unfold device_ok in H. cbn [fst snd] in H. rewrite E in H. destruct H as (_ & _ & Hn).
    unfold stored_ceiling in *. rewrite Hn in *. by cbn in *.
  - intros w' E. rewrite E in Hr. by injection Hr.
Qed.

(** A persisted reservation raises what the device may accept. *)
Lemma device_ok_reserve d c recent states disk disk' w r res fault :
  valid_device d = true → r ≤ U64_MAX → persist fault d r disk = (res, disk') →
  reserved_through w ≤ r →
  device_ok d c recent (<[d := w]> states, disk) →
  let w' := if is_ok res
            then {| greatest_seen := greatest_seen w; reserved_through := r; seen := seen w |}
            else w in
  device_ok d c recent (<[d := w']> states, disk').
Proof.
  intros Hd Hr Hp Hle. unfold device_ok. cbn [fst snd]. rewrite !lookup_insert_eq.
  intros (H1 & H2 & H3).
  destruct (persist_spec _ _ _ _ _ _ d Hd Hr Hp) as [_ Hs]. destruct Hs as [Hs1 Hs2]; [done|].
  destruct res as [[]|e]; cbn [is_ok]; [cbn|].
  - split_and!; [by destruct H1; split|lia|]. right. by apply Hs1.
  - split_and!; [done..|]. destruct H3; [by left|right]. by apply Hs2.
Qed.

Lemma device_ok_disk d d' c recent states disk disk' r fault res :
  valid_device d = true → d' ≠ d → r ≤ U64_MAX → persist fault d' r disk = (res, disk') →
  device_ok d c recent (states, disk) → device_ok d c recent (states, disk').
Proof.
  intros Hd Hne Hr Hp. destruct (persist_spec _ _ _ _ _ _ d Hd Hr Hp) as [Hs _].
  unfold device_ok, reserved_on. cbn [fst snd]. by rewrite Hs.
Qed.

Lemma step_durable_ok d c recent d' n fault read_fails states states' disk disk' decision :
  valid_device d = true → n ≤ U64_MAX →
  check_and_record fault read_fails d' n states disk = (decision, states', disk') →
  device_ok d c recent (states, disk) →
  let event := match decision with Ok Accepted => Some (d', n) | _ => None end in
  fresh d c recent event ∧ device_ok d c (recent_after d event recent) (states', disk').
Proof.
  intros Hd Hn Hc Hok. cbv zeta. unfold check_and_record in Hc.
  destruct (reservation_ceiling_bound n Hn) as [Hge Hmax].
  destruct (resident disk read_fails d' states) as [w|e] eqn:Er; [|simplify_eq; by split].
  destruct (decide (d' = d)) as [->|Hne].
  - apply (resident_window_ok _ _ _ _ _ _ _ Hd Hok) in Er as Hok'. clear Hok.
    assert (is_seen_or_stale w n = false → 0 < n → ¬ replayed c recent n) as Hfresh.
    { intros E Hp. rewrite <-window_decides; [|done|apply lookup_insert_eq|done]. congruence. }
    destruct ((n =? 0) || is_seen_or_stale w n) eqn:E1; [simplify_eq; by split|].
    bool_to_prop. destruct (N.ltb_spec (reserved_through w) n).
    + destruct (persist fault d (reservation_ceiling n) disk) as [[[]|e] disk1] eqn:Ep; simplify_eq.
      * apply (device_ok_reserve _ _ _ _ _ _ _ _ _ _ Hd Hmax Ep) in Hok'; [|lia]. cbn in Hok'.
        rewrite recent_after_same. split; [intros k [= <-]; apply Hfresh; [done|lia]|].
        rewrite insert_insert_eq.
        rewrite <-(insert_insert_eq states d _
          {| greatest_seen := greatest_seen w; reserved_through := reservation_ceiling n; seen := seen w |}).
        apply device_ok_accept; try done; [apply lookup_insert_eq|lia].
      * apply (device_ok_reserve _ _ _ _ _ _ _ _ _ _ Hd Hmax Ep) in Hok'; [|lia]. by split.
    + simplify_eq. rewrite recent_after_same. split; [intros k [= <-]; apply Hfresh; [done|lia]|].
      apply device_ok_accept; try done; [apply lookup_insert_eq|lia].
  - assert (∃ w', states' = <[d' := w']> states) as [w' ->].
    { repeat case_match; simplify_eq; eexists; rewrite ?insert_insert_eq; done. }
    assert (device_ok d c recent (<[d' := w']> states, disk')) as Hok'.
    { apply device_ok_other; [done|]. repeat case_match; simplify_eq; try done;
        eapply device_ok_disk; try done. }
    destruct decision as [[]|]; (split; [intros k ?; congruence|]);
      by rewrite ?recent_after_other, ?recent_after_None by done.
Qed.

Lemma request_step_ok d c recent s event s' :
  valid_device d = true → request_step s event s' → device_ok d c recent s →
  fresh d c recent event ∧ device_ok d c (recent_after d event recent) s'.
Proof.
  intros Hd. destruct 1; intros Hok.
  - by eapply step_memory_ok.
  - by eapply step_durable_ok.
Qed.

Lemma tracker_new_ok disk states d :
  valid_device d = true → tracker_new disk false = Ok states →
  device_ok d (stored_ceiling disk d) [] (states, disk).
Proof.
  intros Hd Hn. pose proof (tracker_new_valid _ _ _ Hd Hn) as Hv.
  unfold device_ok. cbn [fst snd]. destruct (disk !! d) as [f|] eqn:Ef.
  - destruct Hv as (w & Hw & ->). destruct (load_valid _ _ _ Hd Hw) as (H1 & H2 & H3 & H4).
    rewrite H2, H3. split_and!; [done..|]. by left.
  - rewrite Hv. unfold stored_ceiling. by rewrite Ef.
Qed.

(** * Runs *)

(** What the disk covers of the numbers up to the ceiling, it goes on covering. *)
Lemma request_covers d c recent s event s' r :
  valid_device d = true → request_step s event s' → device_ok d c recent s → r ≤ c →
  covered s.2 d r → covered s'.2 d r.
Proof.
  intros Hd Hstep Hok Hrc [->|Hr]; [by left|].
  destruct Hstep as [|d' n fault read_fails states states' disk disk' decision Hn Hc]; [by right|].
  cbn [snd] in *. unfold check_and_record in Hc. destruct (reservation_ceiling_bound n Hn) as [Hge Hmax].
  destruct (resident disk read_fails d' states) as [w|e] eqn:Er; [|simplify_eq; by right].
  destruct (_ || _); [simplify_eq; by right|].
  destruct (N.ltb_spec (reserved_through w) n); [|simplify_eq; by right].
  destruct (persist fault d' (reservation_ceiling n) disk) as [res disk1] eqn:Ep.
  assert (disk' = disk1) as -> by (destruct res as [[]|]; by simplify_eq).
  destruct (persist_spec _ _ _ _ _ _ d Hd Hmax Ep) as [Ho Hs]. right. destruct (decide (d' = d)) as [->|Hne].
  - apply Hs; [done| |done].
    apply (resident_window_ok _ _ _ _ _ _ _ Hd Hok) in Er. unfold device_ok in Er. cbn [fst snd] in Er.
    rewrite lookup_insert_eq in Er. destruct Er as (Hw & Hg & _). pose proof (wo_ceiling _ _ _ Hw). lia.
  - unfold reserved_on in *. by rewrite Ho.
Qed.

(** A start, of the process or the machine, finds what was covered. *)
Lemma covered_stored disk disk' d r :
  survives disk disk' ∨ disk' = disk → covered disk d r → r ≤ stored_ceiling disk' d.
Proof.
  intros Hs [->|(f & bv & bd & Hf & Hv & Hdu & H1 & H2)]; [lia|]. unfold stored_ceiling.
  destruct Hs as [Hs| ->]; [|rewrite Hf; cbn; rewrite Hv; done].
  specialize (Hs d). rewrite Hf in Hs. destruct Hs as (x & Hx & E). rewrite E. cbn.
  destruct Hx as [->| ->]; rewrite ?Hv, ?Hdu; done.
Qed.

Lemma covered_survives disk disk' d r : survives disk disk' → covered disk d r → covered disk' d r.
Proof.
  intros Hs [->|(f & bv & bd & Hf & Hv & Hdu & H1 & H2)]; [by left|right].
  specialize (Hs d). rewrite Hf in Hs. destruct Hs as (x & Hx & E).
  destruct Hx as [->| ->]; rewrite ?Hv, ?Hdu in E; by eexists _, _, _.
Qed.

Lemma requests_ok d c start accepted s :
  valid_device d = true → device_ok d c [] start → run_of request_step start accepted s →
  device_ok d c (numbers d accepted) s.
Proof.
  intros Hd Hs. induction 1 as [|accepted event s s' _ IH Hstep]; [done|].
  rewrite numbers_app. by eapply request_step_ok.
Qed.

(** What the two checks answer in a state the invariant describes. *)
Lemma device_ok_memory d c recent states disk n :
  device_ok d c recent (states, disk) →
  (∃ g, (check_in_memory d n states).1 = Some (Replay g)) ↔ replayed c recent n.
Proof.
  intros Hok%memory_window_ok. unfold check_in_memory.
  set (w := default window_default (states !! d)) in *.
  destruct (N.eqb_spec n 0) as [->|Hn]; cbn [orb].
  { split; [by left|]. intros _. by eexists. }
  rewrite <-(window_decides _ _ _ _ _ w n Hok); [|apply lookup_insert_eq|lia].
  destruct (is_seen_or_stale w n); [split; [done|by eexists]|].
  split; [|done]. destruct (reserved_through w <? n); by intros (g & ?).
Qed.

Lemma device_ok_durable d c recent states disk n :
  valid_device d = true → device_ok d c recent (states, disk) →
  (check_and_record NoFault false d n states disk).1.1 = Ok Accepted ↔ ¬ replayed c recent n.
Proof.
  intros Hd Hok. unfold check_and_record.
  assert (∃ w, resident disk false d states = Ok w) as [w Hw].
  { unfold resident. unfold device_ok in Hok. cbn [fst snd] in Hok.
    destruct (states !! d) as [w|]; [by exists w|]. unfold load. rewrite valid_component by done.
    destruct Hok as (_ & _ & ->). by eexists. }
  rewrite Hw. apply (resident_window_ok _ _ _ _ _ _ _ Hd Hok) in Hw as Hok'.
  destruct (N.eqb_spec n 0) as [->|Hn]; cbn [orb].
  { split; [done|]. intros H. destruct H. by left. }
  rewrite <-(window_decides _ _ _ _ _ w n Hok'); [|apply lookup_insert_eq|lia].
  destruct (is_seen_or_stale w n); [by split|].
  split; [done|]. intros _. destruct (reserved_through w <? n); [|done].
  by unfold persist.
Qed.

(** The invariant of all runs: the accepted numbers of a device are those of
    the current window and older ones, at or below a number [r] that its
    ceiling and the disk cover. *)
Definition history_ok (d : bytes) (accepted : list (bytes * N)) (s : ServerState) : Prop :=
  NoDup (numbers d accepted) ∧
  ∃ c recent old r, numbers d accepted = recent ++ old ∧ (∀ n, n ∈ old → n ≤ r) ∧ r ≤ c ∧ covered s.2 d r
    ∧ (∀ n, n ∈ numbers d accepted → 0 < n) ∧ device_ok d c recent s.

Lemma history_request d accepted s event s' :
  valid_device d = true → history_ok d accepted s → request_step s event s' →
  history_ok d (option_list event ++ accepted) s'.
Proof.
  intros Hd (Hnd & c & recent & old & r & Hacc & Hold & Hrc & Hcov & Hpos & Hok) Hstep.
  destruct (request_step_ok _ _ _ _ _ _ Hd Hstep Hok) as [Hf Hok'].
  pose proof (request_covers _ _ _ _ _ _ _ Hd Hstep Hok Hrc Hcov) as Hcov'.
  assert ((∃ k, event = Some (d, k)) ∨ ¬ ∃ k, event = Some (d, k)) as [[k ->]|Hne].
  { destruct event as [[d' k]|]; [|by right; intros [??]].
    destruct (decide (d' = d)) as [->|]; [by left; exists k|right; naive_solver]. }
  2: { assert (numbers d (option_list event) = []) as E.
       { destruct event as [[d' k]|]; [|done]. assert (d' ≠ d) by naive_solver.
         unfold numbers. change (option_list (Some (d', k))) with [(d', k)].
         by rewrite filter_cons_False. }
       unfold history_ok, recent_after in *. rewrite numbers_app, E in *. cbn [app] in *.
       split; [done|]. by exists c, recent, old, r. }
  specialize (Hf k eq_refl). rewrite recent_after_same in Hok'.
  assert (numbers d (option_list (Some (d, k)) ++ accepted) = k :: numbers d accepted) as E
    by (rewrite numbers_app; apply (recent_after_same d k (numbers d accepted))).
  unfold history_ok. rewrite E. split.
  - constructor; [|done]. rewrite Hacc, elem_of_app.
    intros [?|Hk%Hold]; apply Hf; [by do 2 right; left|right; left; lia].
  - exists c, (k :: recent), old, r. rewrite Hacc. split_and!; [done..| |done].
    intros n. rewrite <-Hacc, elem_of_cons. intros [->|?]; [|by apply Hpos].
    destruct (N.eq_dec k 0); [|lia]. destruct Hf. by left.
Qed.

(** All accepted numbers are covered. *)
Lemma history_covered d accepted s :
  history_ok d accepted s → ∃ r, covered s.2 d r ∧ ∀ n, n ∈ numbers d accepted → n ≤ r.
Proof.
  intros (_ & c & recent & old & r & Hacc & Hold & Hrc & Hcov & Hpos & Hok). rewrite Hacc.
  unfold device_ok in Hok. destruct (s.1 !! d) as [w|].
  - destruct Hok as (Hw & Hg & [[-> _]|Hr]); [by exists r|]. exists (reserved_through w). split; [by right|].
    pose proof (wo_ceiling _ _ _ Hw). intros n [?%(wo_bound _ _ _ Hw)|?%Hold]%elem_of_app; lia.
  - destruct Hok as (_ & -> & _). by exists r.
Qed.

Lemma history_restart d accepted states states' disk disk' :
  valid_device d = true → history_ok d accepted (states, disk) →
  survives disk disk' ∨ disk' = disk → tracker_new disk' false = Ok states' →
  history_ok d accepted (states', disk').
Proof.
  intros Hd Hh Hs Hn. destruct (history_covered _ _ _ Hh) as (r & Hcov & Hall). cbn [snd] in *.
  destruct Hh as (Hnd & _ & _ & _ & _ & _ & _ & _ & _ & Hpos & _). split; [done|].
  exists (stored_ceiling disk' d), [], (numbers d accepted), r.
  split_and!; [done|done|by eapply covered_stored| |done|by apply tracker_new_ok].
  destruct Hs as [Hs| ->]; [by eapply covered_survives|done].
Qed.

Lemma server_run_history d start accepted s :
  valid_device d = true → history_ok d [] start → run_of server_step start accepted s →
  history_ok d accepted s.
Proof.
  intros Hd Hs. induction 1 as [|accepted event s s' _ IH Hstep]; [done|].
  destruct Hstep; [by eapply history_request|eapply history_restart; eauto..].
Qed.

Lemma history_start d disk states :
  valid_device d = true → tracker_new disk false = Ok states → history_ok d [] (states, disk).
Proof.
  intros. split; [constructor|]. exists (stored_ceiling disk d), [], [], 0.
  split_and!; [done|by intros ? ?%not_elem_of_nil|lia|by left|by intros ? ?%not_elem_of_nil|by apply tracker_new_ok].
Qed.

(** C14: no request number is accepted twice. From any disk the server boots
    on, over every sequence of fast and durable checks, by any devices, with
    writes failing at any point, restarts of the process and crashes of the
    machine that keep the old or the new reservation, an accepted number of an
    enrolled device is never accepted again. *)
Theorem seq_no_replay disk states accepted s :
  tracker_new disk false = Ok states →
  run_of server_step (states, disk) accepted s →
  Forall (λ e, valid_device e.1 = true) accepted →
  NoDup accepted.
Proof.
  intros Hn Hrun Hv. apply numbers_NoDup. intros d Hd.
  assert (valid_device d = true) as Hd'.
  { apply list_elem_of_fmap in Hd as (e & -> & He). by eapply Forall_forall in Hv. }
  by destruct (server_run_history d _ _ _ Hd' (history_start d _ _ Hd' Hn) Hrun).
Qed.

(** C40: Between restarts the tracker rejects exactly the replays: zero, the
    numbers the stored reservation covers, the numbers accepted since, and
    those 1024 or more below an accepted one. Everything else passes the
    memory check, and is accepted when the disk works. *)
Theorem seq_decides disk states accepted states' disk' d n :
  tracker_new disk false = Ok states →
  run_of request_step (states, disk) accepted (states', disk') →
  valid_device d = true →
  let replay := replayed (stored_ceiling disk d) (numbers d accepted) n in
  ((∃ g, (check_in_memory d n states').1 = Some (Replay g)) ↔ replay) ∧
  ((check_and_record NoFault false d n states' disk').1.1 = Ok Accepted ↔ ¬ replay).
Proof.
  intros Hn Hrun Hd.
  pose proof (requests_ok d _ _ _ _ Hd (tracker_new_ok _ _ _ Hd Hn) Hrun) as Hok.
  split; [by eapply device_ok_memory|by apply device_ok_durable].
Qed.
End devices.


#[local] Existing Instance poly_blake3.
#[local] Existing Instance base16_hex.

Definition laptop : bytes := str "0123456789abcdef0123456789abcdef".

(** Requests 5 and 3 arrive in that order; 5000 needs a new block, whose write
    fails after the rename; the process restarts, and the machine crashes with
    the new block lost. *)
Definition ex_first := check_and_record NoFault false laptop 5 ∅ ∅.
Definition ex_second := check_in_memory laptop 3 ex_first.1.2.
Definition ex_third := check_and_record FailsAfterRename false laptop 5000 ex_second.2 ex_first.2.
Definition file (visible durable : N) : SeqDisk :=
  {[ laptop := {| sf_visible := Some (be_bytes 8 visible);
                  sf_durable := Some (be_bytes 8 durable) |} ]}.
Definition ex_process : SequenceTracker :=
  match tracker_new (file 8192 4096) false with Ok t => t | Err _ => ∅ end.
Definition ex_rebooted : SequenceTracker :=
  match tracker_new (file 4096 4096) false with Ok t => t | Err _ => ∅ end.
Definition ex_fifth := check_in_memory laptop 5 ex_rebooted.
Definition ex_sixth := check_and_record NoFault false laptop 4097 ex_fifth.2 (file 4096 4096).

Lemma crash_survives : survives (file 8192 4096) (file 4096 4096).
Proof.
  intros dir. unfold file. destruct (decide (dir = laptop)) as [->|Hne].
  - rewrite !lookup_singleton_eq. eexists. split; [by right|done].
  - by rewrite !lookup_singleton_ne by done.
Qed.

(** Evaluate a run and compare its result. *)
#[local] Ltac ran :=
  lazymatch goal with
  | |- ?a = ?b => vm_cast_no_check (@eq_refl _ b)
  | |- _ <= _ => vm_compute; discriminate
  end.

Lemma example_run :
  run_of server_step (∅, ∅) [(laptop, 4097); (laptop, 3); (laptop, 5)] (ex_sixth.1.2, ex_sixth.2).
Proof.
  apply (run_step _ _ [(laptop, 3); (laptop, 5)] (Some (laptop, 4097)) (ex_fifth.2, file 4096 4096)).
  2: { apply step_request.
       apply (step_durable laptop 4097 NoFault false ex_fifth.2 ex_sixth.1.2 (file 4096 4096)
                ex_sixth.2 (Ok Accepted)); ran. }
  apply (run_step _ _ [(laptop, 3); (laptop, 5)] None (ex_rebooted, file 4096 4096)).
  2: { apply step_request.
       apply (step_memory laptop 5 ex_rebooted ex_fifth.2 (Some (Replay 4096))); ran. }
  apply (run_step _ _ [(laptop, 3); (laptop, 5)] None (ex_process, file 8192 4096)).
  2: { apply step_restart; [apply crash_survives|ran]. }
  apply (run_step _ _ [(laptop, 3); (laptop, 5)] None (ex_third.1.2, file 8192 4096)).
  2: { apply step_process; ran. }
  apply (run_step _ _ [(laptop, 3); (laptop, 5)] None (ex_second.2, ex_first.2)).
  2: { apply step_request.
       apply (step_durable laptop 5000 FailsAfterRename false ex_second.2 ex_third.1.2 ex_first.2
                (file 8192 4096) (Err "persist failed"%string)); ran. }
  apply (run_step _ _ [(laptop, 5)] (Some (laptop, 3)) (ex_first.1.2, ex_first.2)).
  2: { apply step_request.
       apply (step_memory laptop 3 ex_first.1.2 ex_second.2 (Some Accepted)); ran. }
  apply (run_step _ _ [] (Some (laptop, 5)) (∅, ∅)).
  2: { apply step_request.
       apply (step_durable laptop 5 NoFault false ∅ ex_first.1.2 ∅ ex_first.2 (Ok Accepted)); ran. }
  apply run_start.
Qed.

Lemma seq_no_replay_witness :
  tracker_new ∅ false = Ok ∅ ∧
  run_of server_step (∅, ∅) [(laptop, 4097); (laptop, 3); (laptop, 5)] (ex_sixth.1.2, ex_sixth.2)
  ∧ NoDup [(laptop, 4097); (laptop, 3); (laptop, 5)].
Proof.
  split; [reflexivity|]. split; [exact example_run|].
  apply (seq_no_replay ∅ ∅ _ (ex_sixth.1.2, ex_sixth.2));
    [reflexivity|exact example_run|by repeat constructor].
Defined.

Lemma example_requests :
  run_of request_step (∅, ∅) [(laptop, 3); (laptop, 5)] (ex_second.2, ex_first.2).
Proof.
  apply (run_step _ _ [(laptop, 5)] (Some (laptop, 3)) (ex_first.1.2, ex_first.2)).
  2: { apply (step_memory laptop 3 ex_first.1.2 ex_second.2 (Some Accepted)); ran. }
  apply (run_step _ _ [] (Some (laptop, 5)) (∅, ∅)).
  2: { apply (step_durable laptop 5 NoFault false ∅ ex_first.1.2 ∅ ex_first.2 (Ok Accepted)); ran. }
  apply run_start.
Qed.

(** After 5 and 3 were accepted, 3 is a replay and 4 is new. *)
Lemma seq_decides_witness :
  (∃ g, (check_in_memory laptop 3 ex_second.2).1 = Some (Replay g)) ∧
  (check_and_record NoFault false laptop 4 ex_second.2 ex_first.2).1.1 = Ok Accepted.
Proof.
  pose proof (λ n, seq_decides ∅ ∅ [(laptop, 3); (laptop, 5)] ex_second.2 ex_first.2
    laptop n eq_refl example_requests eq_refl) as D. cbv zeta in D.
  assert (numbers laptop [(laptop, 3); (laptop, 5)] = [3; 5]) as En by ran.
  assert (stored_ceiling ∅ laptop = 0) as Ec by ran.
  split.
  - apply (D 3). rewrite En, Ec. right; right; left. by left.
  - apply (D 4). rewrite En, Ec. unfold replayed. intros [?|[?|[H|(g & Hg & Hle)]]]; [lia|lia|..].
    + by apply elem_of_cons in H as [?|[?|?%not_elem_of_nil]%elem_of_cons].
    + unfold WINDOW_BITS in Hle.
      apply elem_of_cons in Hg as [->|[->|?%not_elem_of_nil]%elem_of_cons]; [lia|lia|done].
Defined.

(** An identifier outside the safe alphabet: its directory name is a hash, and
    the startup scan files the reservation under that name. *)
Definition phone : bytes := str "my phone".
Definition ph_first := check_and_record NoFault false phone 7 ∅ ∅.
Definition ph_rebooted : SequenceTracker :=
  match tracker_new ph_first.2 false with Ok t => t | Err _ => ∅ end.
Definition ph_memory := check_in_memory phone 7 ph_rebooted.
Definition ph_second := check_and_record NoFault false phone 7 ph_memory.2 ph_first.2.

(** an identifier that does not name its own directory has no replay
    protection across a restart. The number 7 of such a device is accepted,
    its block is on the disk, and after a clean restart, with the two checks
    made in the order of the request handler, 7 is accepted again. *)
Theorem unsafe_device_replayed :
  component_safe phone = false ∧
  ∃ t1 d1 t2 t3,
    check_and_record NoFault false phone 7 ∅ ∅ = (Ok Accepted, t1, d1) ∧
    survives d1 d1 ∧ tracker_new d1 false = Ok t2 ∧
    check_in_memory phone 7 t2 = (None, t3) ∧
    (check_and_record NoFault false phone 7 t3 d1).1.1 = Ok Accepted.
Proof.
  split; [reflexivity|].
  exists ph_first.1.2, ph_first.2, ph_rebooted, ph_memory.2.
  split_and!; try ran.
  intros dir.
  assert (ph_first.2 = {[ storage_component phone :=
            {| sf_visible := Some (be_bytes 8 4096); sf_durable := Some (be_bytes 8 4096) |} ]}) as -> by ran.
  destruct (decide (dir = storage_component phone)) as [->|Hne].
  - rewrite !lookup_singleton_eq. eexists. split; [by left|done].
  - by rewrite !lookup_singleton_ne by done.
Qed.
