(* ===== verification/Crc32c.v ===== *)
(** src/crates/sync-server/src/pack_store.rs, [Crc32c]: the framing checksum
    of segments and records.

    The code processes a byte at a time with a table of 256 words computed at
    compile time. The reference is the shift register of the CRC definition,
    which takes the bits of the message one at a time, least significant
    first: [crc32c_serial] is equal to the code's function on every message,
    and with it the checksum of a message changes whenever up to four
    consecutive bytes of it do. *)

From S2P Require Import Prelude Bytes.
Local Open Scope N_scope.

(** * The code *)

(** The reversed Castagnoli polynomial. *)
Definition CRC32C_POLY : N := 0x82f63b78.

(** One turn of the inner loop of [crc32c_table]. *)
Definition crc_bit (value : N) : N :=
  if N.land value 1 =? 1 then N.lxor CRC32C_POLY (N.shiftr value 1) else N.shiftr value 1.

Definition crc_byte (value : N) : N := Nat.iter 8 crc_bit value.

(** [crc32c_table] and [CRC32C_TABLE]. *)
Definition crc32c_table : list N := (λ i, crc_byte (N.of_nat i)) <$> seq 0 256.
Definition CRC32C_TABLE : list N := crc32c_table.

Record Crc32c := { crc_state : N }.

Definition crc_new : Crc32c := {| crc_state := U32_MAX |}.

(** The body of the loop of [update]: the index is below 256, so the lookup
    never leaves the table. *)
Definition crc_step (state : N) (b : byte) : N :=
  let index := N.land (N.lxor state (b2n b)) 0xff in
  N.lxor (default 0 (CRC32C_TABLE !! N.to_nat index)) (N.shiftr state 8).

Definition crc_update (c : Crc32c) (data : bytes) : Crc32c :=
  {| crc_state := foldl crc_step (crc_state c) data |}.
Definition crc_finalize (c : Crc32c) : N := N.lxor (crc_state c) U32_MAX.
Definition crc32c (data : bytes) : N := crc_finalize (crc_update crc_new data).

(** * The reference *)

(** The bits of a message in transmission order. *)
Definition byte_bits (b : byte) : list bool := (λ i, N.testbit (b2n b) (N.of_nat i)) <$> seq 0 8.
Definition message_bits (data : bytes) : list bool := data ≫= byte_bits.

(** One clock of the register: the outgoing bit and the incoming bit decide
    whether the polynomial is added. *)
Definition serial_step (state : N) (bit : bool) : N :=
  let shifted := N.shiftr state 1 in
  if xorb (N.odd state) bit then N.lxor CRC32C_POLY shifted else shifted.

Definition crc32c_serial (data : bytes) : N :=
  N.lxor (foldl serial_step U32_MAX (message_bits data)) U32_MAX.

(** * Linearity *)

Definition if_poly (b : bool) : N := if b then CRC32C_POLY else 0.

Lemma if_poly_xorb a b : if_poly (xorb a b) = N.lxor (if_poly a) (if_poly b).
Proof. by destruct a, b. Qed.

Lemma crc_bit_odd v : crc_bit v = N.lxor (if_poly (N.odd v)) (N.shiftr v 1).
Proof.
  unfold crc_bit. rewrite <-N.bit0_odd.
  change (N.land v 1) with (N.land v (N.ones 1)). rewrite N.land_ones.
  change (2 ^ 1) with 2. rewrite <-N.bit0_mod. by destruct (N.testbit v 0).
Qed.

Lemma odd_lxor a b : N.odd (N.lxor a b) = xorb (N.odd a) (N.odd b).
Proof. by rewrite <-!N.bit0_odd, N.lxor_spec. Qed.

Lemma lxor_swap a b c d : N.lxor (N.lxor a b) (N.lxor c d) = N.lxor (N.lxor a c) (N.lxor b d).
Proof.
  rewrite !N.lxor_assoc. f_equal. rewrite <-!N.lxor_assoc. by rewrite (N.lxor_comm b c).
Qed.

Lemma crc_bit_lxor a b : crc_bit (N.lxor a b) = N.lxor (crc_bit a) (crc_bit b).
Proof. by rewrite !crc_bit_odd, odd_lxor, N.shiftr_lxor, if_poly_xorb, lxor_swap. Qed.

Lemma iter_crc_bit_lxor n a b :
  Nat.iter n crc_bit (N.lxor a b) = N.lxor (Nat.iter n crc_bit a) (Nat.iter n crc_bit b).
Proof. induction n as [|n IH]; simpl; [done|]. by rewrite IH, crc_bit_lxor. Qed.

(** Clocking a word whose low bits are zero shifts it. *)
Lemma iter_crc_bit_shiftl n a : Nat.iter n crc_bit (N.shiftl a (N.of_nat n)) = a.
Proof.
  revert a. induction n as [|n IH]; intros a; [apply N.shiftl_0_r|].
  rewrite Nat.iter_succ_r, crc_bit_odd.
  assert (N.odd (N.shiftl a (N.of_nat (S n))) = false) as ->.
  { rewrite <-N.bit0_odd. apply N.shiftl_spec_low. lia. }
  rewrite N.lxor_0_l, N.shiftr_shiftl_l by lia.
  replace (N.of_nat (S n) - 1) with (N.of_nat n) by lia. apply IH.
Qed.

Lemma split_low x n : x = N.lxor (N.land x (N.ones n)) (N.shiftl (N.shiftr x n) n).
Proof.
  apply N.bits_inj. intros i. rewrite N.lxor_spec, N.land_spec.
  destruct (N.lt_ge_cases i n).
  - rewrite N.ones_spec_low, N.shiftl_spec_low by lia. by rewrite andb_true_r, xorb_false_r.
  - rewrite N.ones_spec_high, N.shiftl_spec_high' by lia.
    rewrite N.shiftr_spec', andb_false_r. simpl. f_equal. lia.
Qed.

Lemma shiftr_byte b : N.shiftr (b2n b) 8 = 0.
Proof.
  pose proof (b2n_bound b). rewrite N.shiftr_div_pow2. apply N.div_small. done.
Qed.

Lemma table_lookup i : i < 256 → CRC32C_TABLE !! N.to_nat i = Some (crc_byte i).
Proof.
  intros. unfold CRC32C_TABLE, crc32c_table. rewrite list_lookup_fmap, lookup_seq_lt by lia.
  csimpl. f_equal. f_equal. lia.
Qed.

(** The table step is eight clocks of the register with the byte added to
    its low bits. *)
Lemma crc_step_clock s b : crc_step s b = crc_byte (N.lxor s (b2n b)).
Proof.
  unfold crc_step. change 0xff with (N.ones 8).
  assert (N.land (N.lxor s (b2n b)) (N.ones 8) < 256) as Hlt.
  { rewrite N.land_ones. change 256 with (2 ^ 8). apply N.mod_upper_bound. done. }
  rewrite (table_lookup _ Hlt). csimpl.
  rewrite (split_low (N.lxor s (b2n b)) 8) at 2. unfold crc_byte.
  rewrite iter_crc_bit_lxor, N.shiftr_lxor, shiftr_byte, N.lxor_0_r.
  f_equal. by rewrite (iter_crc_bit_shiftl 8).
Qed.

(** * The code is the reference *)

Lemma serial_step_clock s bit : serial_step s bit = crc_bit (N.lxor s (N.b2n bit)).
Proof.
  rewrite crc_bit_odd, odd_lxor, N.shiftr_lxor. unfold serial_step.
  replace (N.odd (N.b2n bit)) with bit by (by destruct bit).
  replace (N.shiftr (N.b2n bit) 1) with 0 by (by destruct bit).
  rewrite N.lxor_0_r. destruct (xorb _ _); [done|]. by rewrite N.lxor_0_l.
Qed.

Definition bits_val (l : list bool) : N := foldr (λ b n, N.lxor (N.b2n b) (N.shiftl n 1)) 0 l.

Lemma serial_word l s :
  foldl serial_step s l = Nat.iter (length l) crc_bit (N.lxor s (bits_val l)).
Proof.
  revert s. induction l as [|b l IH]; intros s; [by rewrite N.lxor_0_r|].
  cbn [foldl]. rewrite IH, serial_step_clock. cbn [length]. rewrite Nat.iter_succ_r.
  f_equal. cbn [bits_val foldr]. rewrite <-N.lxor_assoc, !crc_bit_lxor.
  f_equal. symmetry. apply (iter_crc_bit_shiftl 1).
Qed.

Lemma byte_bits_val b : bits_val (byte_bits b) = b2n b.
Proof. by destruct b. Qed.

Lemma serial_byte s b : foldl serial_step s (byte_bits b) = crc_step s b.
Proof. by rewrite serial_word, crc_step_clock, byte_bits_val. Qed.

(** The table-driven checksum of every message is the one the CRC-32C
    shift register computes bit by bit. *)
Theorem crc32c_is_serial data : crc32c data = crc32c_serial data.
Proof.
  unfold crc32c, crc32c_serial, crc_finalize, crc_update, crc_new; cbn [crc_state].
  f_equal. generalize U32_MAX. induction data as [|b data IH]; intros s; [done|].
  cbn [foldl]. rewrite IH. unfold message_bits. rewrite bind_cons.
  by rewrite foldl_app, serial_byte.
Qed.

(** * Error detection *)

Definition word32 (n : N) : Prop := n < 2 ^ 32.

Lemma lxor_lt a b n : a < 2 ^ n → b < 2 ^ n → N.lxor a b < 2 ^ n.
Proof.
  intros Ha Hb. destruct (decide (N.lxor a b = 0)) as [->|Hne]; [lia|].
  apply N.log2_lt_pow2; [lia|].
  destruct (decide (a = 0)) as [->|]; [rewrite N.lxor_0_l in *; apply N.log2_lt_pow2; lia|].
  destruct (decide (b = 0)) as [->|]; [rewrite N.lxor_0_r in *; apply N.log2_lt_pow2; lia|].
  eapply N.le_lt_trans; [apply N.log2_lxor|]. apply N.max_lub_lt; apply N.log2_lt_pow2; lia.
Qed.

Lemma crc_bit_word32 v : word32 v → word32 (crc_bit v).
Proof.
  unfold word32. intros Hv. rewrite crc_bit_odd. apply lxor_lt.
  - by destruct (N.odd v).
  - rewrite N.shiftr_div_pow2. apply N.Div0.div_lt_upper_bound. change (2 ^ 1) with 2. lia.
Qed.

Lemma iter_crc_bit_word32 n v : word32 v → word32 (Nat.iter n crc_bit v).
Proof. intros. induction n; simpl; [done|]. by apply crc_bit_word32. Qed.

Lemma crc_bit_0 d : word32 d → crc_bit d = 0 → d = 0.
Proof.
  unfold word32. change (2 ^ 32) with 4294967296. intros Hd.
  rewrite crc_bit_odd, N.shiftr_div_pow2. change (2 ^ 1) with 2.
  pose proof (N.div_mod d 2 ltac:(done)) as Hdm. destruct (N.odd d) eqn:Ho; simpl if_poly.
  - intros E%N.lxor_eq. exfalso. rewrite <-E in Hdm. unfold CRC32C_POLY in Hdm.
    clear E Ho. revert Hdm. generalize (d mod 2). intros m Hm. lia.
  - rewrite N.lxor_0_l. intros E. rewrite E in Hdm.
    rewrite <-N.bit0_odd in Ho. pose proof (N.bit0_mod d) as Hm. rewrite Ho in Hm. simpl in Hm. lia.
Qed.

Lemma iter_crc_bit_inj n a b :
  word32 a → word32 b → Nat.iter n crc_bit a = Nat.iter n crc_bit b → a = b.
Proof.
  intros Ha Hb E. apply N.lxor_eq.
  assert (Nat.iter n crc_bit (N.lxor a b) = 0) as E'.
  { by rewrite iter_crc_bit_lxor, E, N.lxor_nilpotent. }
  assert (word32 (N.lxor a b)) as Hd by (by apply lxor_lt).
  clear E. induction n as [|n IH]; simpl in E'; [done|].
  apply IH. apply crc_bit_0; [by apply iter_crc_bit_word32|done].
Qed.

Lemma byte_word32 b : word32 (b2n b).
Proof. pose proof (b2n_bound b). unfold word32. eapply N.lt_trans; [done|]. done. Qed.

Lemma crc_step_word32 s b : word32 s → word32 (crc_step s b).
Proof.
  intros. rewrite crc_step_clock. apply iter_crc_bit_word32, lxor_lt; [done|apply byte_word32].
Qed.

Lemma crc_fold_word32 data s : word32 s → word32 (foldl crc_step s data).
Proof.
  revert s. induction data as [|b data IH]; intros s Hs; simpl; [done|].
  by apply IH, crc_step_word32.
Qed.

(** The register never forgets: the same bytes from different states give
    different states. *)
Lemma crc_fold_inj data s s' :
  word32 s → word32 s' → foldl crc_step s data = foldl crc_step s' data → s = s'.
Proof.
  revert s s'. induction data as [|b data IH]; intros s s' Hs Hs'; simpl; [done|].
  intros E. apply IH in E; [|by apply crc_step_word32..].
  rewrite !crc_step_clock in E.
  apply iter_crc_bit_inj in E; [|by apply lxor_lt, byte_word32..].
  assert (N.lxor (N.lxor s (b2n b)) (b2n b) = N.lxor (N.lxor s' (b2n b)) (b2n b)) as E' by (by rewrite E).
  by rewrite !N.lxor_assoc, N.lxor_nilpotent, !N.lxor_0_r in E'.
Qed.

(** Up to four bytes act as one word added to the register. *)
Lemma crc_fold_word data s :
  foldl crc_step s data = Nat.iter (8 * length data) crc_bit (N.lxor s (le_val data)).
Proof.
  revert s. induction data as [|b data IH]; intros s; [by rewrite N.lxor_0_r|].
  cbn [foldl]. rewrite IH, crc_step_clock. unfold crc_byte.
  replace (8 * length (b :: data))%nat with (8 * length data + 8)%nat by (simpl; lia).
  rewrite Nat.iter_add. f_equal.
  assert (le_val (b :: data) = N.lxor (b2n b) (N.shiftl (le_val data) 8)) as ->.
  { cbn [le_val]. symmetry. rewrite N.shiftl_mul_pow2. change (2 ^ 8) with 256.
    rewrite (N.mul_comm 256). symmetry. apply N.add_nocarry_lxor, N.bits_inj. intros i.
    rewrite N.land_spec, N.bits_0. change 256 with (2 ^ 8). rewrite <-N.shiftl_mul_pow2.
    destruct (N.lt_ge_cases i 8); [by rewrite N.shiftl_spec_low, andb_false_r by lia|].
    pose proof (b2n_bound b).
    destruct (decide (b2n b = 0)) as [->|]; [by rewrite N.bits_0|].
    rewrite N.bits_above_log2; [done|]. eapply N.lt_le_trans; [|done].
    apply N.log2_lt_pow2; [lia|done]. }
  rewrite <-N.lxor_assoc, !(iter_crc_bit_lxor 8), (iter_crc_bit_shiftl 8). done.
Qed.

Lemma le_val_inj a b : length a = length b → le_val a = le_val b → a = b.
Proof.
  intros El E. rewrite <-(le_bytes_le_val a (length a)), <-(le_bytes_le_val b (length b)) by done.
  by rewrite E, El.
Qed.

Lemma le_val_word32 w : (length w ≤ 4)%nat → word32 (le_val w).
Proof.
  intros. unfold word32. eapply N.lt_le_trans; [apply le_val_bound|].
  change (2 ^ 32) with (256 ^ 4). apply N.pow_le_mono_r; [done|]. unfold len. lia.
Qed.

Lemma crc_finalize_inj s s' : N.lxor s U32_MAX = N.lxor s' U32_MAX → s = s'.
Proof.
  intros E. assert (N.lxor (N.lxor s U32_MAX) U32_MAX = N.lxor (N.lxor s' U32_MAX) U32_MAX) as E'
    by (by rewrite E).
  by rewrite !N.lxor_assoc, N.lxor_nilpotent, !N.lxor_0_r in E'.
Qed.

(** C37: replacing up to four consecutive bytes of a message by other bytes
    changes its checksum. *)
Theorem crc32c_detects_burst before good bad after :
  length good = length bad → (length good ≤ 4)%nat → good ≠ bad →
  crc32c (before ++ good ++ after) ≠ crc32c (before ++ bad ++ after).
Proof.
  intros El H4 Hne E. unfold crc32c, crc_finalize, crc_update, crc_new in E; cbn [crc_state] in E.
  apply crc_finalize_inj in E. rewrite !foldl_app in E.
  assert (word32 U32_MAX) as H0 by done.
  apply (crc_fold_word32 before) in H0. revert E H0. generalize (foldl crc_step U32_MAX before).
  intros s E Hs. apply crc_fold_inj in E; [|by apply crc_fold_word32..].
  rewrite !crc_fold_word, <-El in E.
  apply iter_crc_bit_inj in E; [|apply lxor_lt; [done|apply le_val_word32; lia]..].
  apply Hne, le_val_inj; [done|].
  apply N.lxor_eq_0_iff. apply (f_equal (N.lxor s)) in E.
  rewrite <-!N.lxor_assoc, N.lxor_nilpotent, !N.lxor_0_l in E. by rewrite E, N.lxor_nilpotent.
Qed.

Lemma crc32c_detects_burst_witness :
  crc32c (str "ab" ++ str "cdef" ++ str "g") ≠ crc32c (str "ab" ++ str "cdeF" ++ str "g").
Proof. apply crc32c_detects_burst; [reflexivity|vm_compute; lia|discriminate]. Defined.

(** The check value of the CRC catalogue. *)
Example crc32c_check_value : crc32c (str "123456789") = 0xe3069283.
Proof. vm_compute. reflexivity. Qed.

Lemma crc32c_word32 data : crc32c data < 256 ^ 4.
Proof. apply (lxor_lt _ _ 32); [|done]. by apply (crc_fold_word32 data U32_MAX). Qed.

Lemma crc_update_app data data' :
  crc_update (crc_update crc_new data) data' = crc_update crc_new (data ++ data').
Proof. unfold crc_update; cbn [crc_state]. by rewrite foldl_app. Qed.
