(* ===== verification/PackFormat.v ===== *)
(** src/crates/sync-server/src/pack_store.rs, the formats: segment headers,
    records, the scan of a segment and the sidecar index of a sealed one.

    A file is the list of its bytes; a field written into a fixed-size array
    at constant positions is a concatenation here, and a field read from it a
    [slice]. [serde_json] is third-party code: the class [JsonValue] is
    [serde_json::from_slice] at type [Value], without laws. *)

From S2P Require Import Prelude Bytes Keyed Hash Chunk RootHead Crc32c.
Local Open Scope N_scope.

(** * Constants *)

Definition SEGMENT_MAGIC : bytes := str "OSG1".
Definition SEGMENT_VERSION : byte := x01.
Definition SEGMENT_HEADER_BYTES : N := 32.
Definition RECORD_MAGIC : bytes := str "OSR1".
Definition RECORD_VERSION : byte := x01.
Definition RECORD_HEADER_BYTES : N := 56.
Definition RECORD_TRAILER_BYTES : N := 4.
Definition INDEX_MAGIC : bytes := str "OSI1".
Definition INDEX_VERSION : byte := x01.
Definition INDEX_HEADER_BYTES : N := 48.
Definition INDEX_ENTRY_BYTES : N := 64.
Definition INDEX_TRAILER_BYTES : N := 32.

Definition SEGMENT_TARGET_BYTES : N := 256 * 1024 * 1024.
Definition SEGMENT_OBJECT_TARGET : N := 262144.
Definition MAX_SEGMENT_BYTES : N := 384 * 1024 * 1024.
Definition MAX_SEGMENT_OBJECTS : N := SEGMENT_OBJECT_TARGET + 4096.
Definition MAX_PACK_OBJECT_BYTES : N := 64 * 1024 * 1024.
Definition MAX_SIDECAR_BYTES : N :=
  INDEX_HEADER_BYTES + MAX_SEGMENT_OBJECTS * INDEX_ENTRY_BYTES + INDEX_TRAILER_BYTES.

(** [checked_mul] on [u64]. *)
Definition checked_mul64 (a b : N) : option N := if a * b <=? U64_MAX then Some (a * b) else None.

(** * Data *)

Inductive PackedObjectKind := Content | ContentChunk | IndexChunk | Manifest.

(** [kind as u8] and [TryFrom<u8>]. *)
Definition kind_code (k : PackedObjectKind) : byte :=
  match k with Content => x00 | ContentChunk => x01 | IndexChunk => x02 | Manifest => x03 end.
Definition kind_try_from (value : byte) : IoResult PackedObjectKind :=
  match value with
  | x00 => Ok Content
  | x01 => Ok ContentChunk
  | x02 => Ok IndexChunk
  | x03 => Ok Manifest
  | _ => Err "unknown packed object kind"%string
  end.

Record PackedObject := { po_kind : PackedObjectKind; po_hash : FileHash; po_bytes : bytes }.
Record ObjectKey := { ok_kind : PackedObjectKind; ok_hash : FileHash }.
Record RecordLocation := {
  rl_segment_id : N;
  rl_record_offset : N;
  rl_plain_len : N;
  rl_stored_len : N;
  rl_record_crc32c : N;
}.
Record IndexEntry := { ie_key : ObjectKey; ie_location : RecordLocation }.
Record DecodedRecordHeader := { dh_key : ObjectKey; dh_plain_len : N; dh_stored_len : N }.
Record ScannedSegment := { ss_entries : list IndexEntry; ss_segment_len : N }.

#[global] Instance PackedObjectKind_eq_dec : EqDecision PackedObjectKind.
Proof. solve_decision. Defined.
#[global] Instance PackedObject_eq_dec : EqDecision PackedObject.
Proof. solve_decision. Defined.
#[global] Instance ObjectKey_eq_dec : EqDecision ObjectKey.
Proof. solve_decision. Defined.
#[global] Instance RecordLocation_eq_dec : EqDecision RecordLocation.
Proof. solve_decision. Defined.
#[global] Instance IndexEntry_eq_dec : EqDecision IndexEntry.
Proof. solve_decision. Defined.

Lemma kind_try_from_code k : kind_try_from (kind_code k) = Ok k.
Proof. by destruct k. Qed.

Lemma kind_code_inj k k' : kind_code k = kind_code k' → k = k'.
Proof. by destruct k, k'. Qed.

(** The derived order of [ObjectKey] is the byte order of this image. *)
Definition key_bytes (k : ObjectKey) : bytes := kind_code (ok_kind k) :: ok_hash k.

#[global] Instance key_bytes_inj : Inj (=) (=) key_bytes.
Proof. intros [k h] [k' h'] [= Hk%kind_code_inj ->]. by subst. Qed.

#[global] Program Instance ObjectKey_countable : Countable ObjectKey :=
  inj_countable key_bytes
    (λ b, match b with
          | c :: h => match kind_try_from c with
                      | Ok k => Some {| ok_kind := k; ok_hash := h |}
                      | Err _ => None
                      end
          | [] => None
          end) _.
Next Obligation. intros [k h]. unfold key_bytes; cbn [ok_kind ok_hash]. by rewrite kind_try_from_code. Qed.

Definition object_key (o : PackedObject) : ObjectKey :=
  {| ok_kind := po_kind o; ok_hash := po_hash o |}.

(** * Validation *)

Class JsonValue := { json_value : bytes → option Value }.

(** [Value::get] with a string key. *)
Definition value_get (key : bytes) (v : Value) : option Value :=
  match as_object v with Some o => field key o | None => None end.

Section pack.
Context {B3 : Blake3} {HX : Hex} {JV : JsonValue}.

Definition validate_bytes (kind : PackedObjectKind) (hash : FileHash) (data : bytes) : IoResult unit :=
  if MAX_PACK_OBJECT_BYTES <? len data then Err "object exceeds pack byte limit"%string
  else if bool_decide (kind = Manifest) then
    let? value := ok_or (json_value data) "manifest is not valid JSON"%string in
    let? declared := ok_or (value_get (str "file_hash") value ≫= as_str)
                       "manifest has no file_hash"%string in
    let? declared := map_err (λ _, "manifest file_hash is invalid"%string) (hex_to_hash declared) in
    if negb (beq declared hash) then Err "manifest file_hash does not match its address"%string
    else Ok tt
  else if negb (beq (hash_bytes data) hash)
  then Err "plaintext BLAKE3 does not match its address"%string
  else Ok tt.

Definition validate_object (o : PackedObject) : IoResult unit :=
  validate_bytes (po_kind o) (po_hash o) (po_bytes o).

(** * Segments *)

Definition zeros (n : nat) : bytes := repeat x00 n.

(** The first 24 bytes of [segment_header]. *)
Definition segment_prefix (segment_id : N) : bytes :=
  SEGMENT_MAGIC ++ [SEGMENT_VERSION] ++ zeros 3 ++ le_bytes 8 segment_id ++ zeros 8.

Definition segment_header (segment_id : N) : bytes :=
  segment_prefix segment_id ++ le_bytes 4 (crc32c (segment_prefix segment_id)) ++ zeros 4.

(** [validate_segment_header] on the content of the file. *)
Definition validate_segment_header (file : bytes) (segment_id : N) : IoResult unit :=
  if len file <? SEGMENT_HEADER_BYTES then Err "failed to fill whole buffer"%string
  else
    let header := slice file 0 SEGMENT_HEADER_BYTES in
    if negb (beq (slice header 0 4) SEGMENT_MAGIC && beq (slice header 4 5) [SEGMENT_VERSION]
             && beq (slice header 5 8) (zeros 3) && beq (slice header 16 24) (zeros 8)
             && beq (slice header 28 32) (zeros 4))
    then Err "invalid segment header"%string
    else if negb (le_val (slice header 8 16) =? segment_id)
    then Err "segment id does not match filename"%string
    else if negb (le_val (slice header 24 28) =? crc32c (slice header 0 24))
    then Err "segment header checksum mismatch"%string
    else Ok tt.

(** * Records *)

Definition padding_for (raw_len : N) : N := (8 - raw_len mod 8) mod 8.

Definition record_header (o : PackedObject) : bytes :=
  RECORD_MAGIC ++ [RECORD_VERSION] ++ [kind_code (po_kind o)] ++ zeros 2 ++ po_hash o
  ++ le_bytes 8 (len (po_bytes o)) ++ le_bytes 8 (len (po_bytes o)).

Definition record_crc (header data : bytes) : N :=
  crc_finalize (crc_update (crc_update crc_new header) data).

(** [RECORD_HEADER_BYTES + stored_len + RECORD_TRAILER_BYTES], checked. *)
Definition raw_record_len (stored_len : N) : IoResult N :=
  ok_or (checked_add64 RECORD_HEADER_BYTES stored_len ≫= λ v, checked_add64 v RECORD_TRAILER_BYTES)
    "record length overflow"%string.

(** [offset + raw_len + padding], checked. *)
Definition record_end (offset raw_len : N) : IoResult N :=
  ok_or (checked_add64 offset raw_len ≫= λ v, checked_add64 v (padding_for raw_len))
    "record offset overflow"%string.

(** The bytes [write_record] sends to its output. *)
Definition record_bytes (o : PackedObject) : bytes :=
  let header := record_header o in
  header ++ po_bytes o ++ le_bytes 4 (record_crc header (po_bytes o))
  ++ zeros (N.to_nat (padding_for (RECORD_HEADER_BYTES + len (po_bytes o) + RECORD_TRAILER_BYTES))).

(** [write_record]: the bytes written, the entry and the next offset. The
    length check comes before the output, the offset check after it. *)
Definition write_record (segment_id offset : N) (o : PackedObject)
    : bytes * IoResult (IndexEntry * N) :=
  let length := len (po_bytes o) in
  match raw_record_len length with
  | Err e => ([], Err e)
  | Ok raw_len =>
      (record_bytes o,
       let? next_offset := record_end offset raw_len in
       Ok ({| ie_key := object_key o;
              ie_location := {| rl_segment_id := segment_id;
                                rl_record_offset := offset;
                                rl_plain_len := length;
                                rl_stored_len := length;
                                rl_record_crc32c := record_crc (record_header o) (po_bytes o) |} |},
           next_offset))
  end.

Definition decode_record_header (header : bytes) : IoResult DecodedRecordHeader :=
  if negb (beq (slice header 0 4) RECORD_MAGIC && beq (slice header 4 5) [RECORD_VERSION]
           && beq (slice header 6 8) (zeros 2))
  then Err "invalid record header"%string
  else
    let? kind := kind_try_from (default x00 (header !! 5%nat)) in
    let hash := slice header 8 40 in
    let plain_len := le_val (slice header 40 48) in
    let stored_len := le_val (slice header 48 56) in
    if negb (plain_len =? stored_len) then Err "compressed records are not implemented"%string
    else if MAX_PACK_OBJECT_BYTES <? stored_len
    then Err "record exceeds object byte limit"%string
    else Ok {| dh_key := {| ok_kind := kind; ok_hash := hash |};
               dh_plain_len := plain_len;
               dh_stored_len := stored_len |}.

(** * The scan of a segment *)

(** The [while] loop of [scan_segment] over the content [file]; the flag of
    the result says that the tail from [ss_segment_len] on is to be
    truncated. Every turn passes at least a header, so the length of the file
    is enough fuel. *)
Fixpoint scan_loop (fuel : nat) (file : bytes) (segment_id : N) (allow_tail_truncate : bool)
    (offset records_seen : N) (entries : list IndexEntry) : IoResult (ScannedSegment * bool) :=
  let file_len := len file in
  if negb (offset <? file_len)
  then Ok ({| ss_entries := entries; ss_segment_len := offset |}, false)
  else
    match fuel with
    | O => Err "segment record count overflow"%string
    | S fuel =>
        let records_seen := records_seen + 1 in
        if MAX_SEGMENT_OBJECTS <? records_seen
        then Err "segment exceeds hard object limit"%string
        else if file_len - offset <? RECORD_HEADER_BYTES then
          if allow_tail_truncate
          then Ok ({| ss_entries := entries; ss_segment_len := offset |}, true)
          else Err "sealed segment has a truncated record header"%string
        else
          let header := slice file offset (offset + RECORD_HEADER_BYTES) in
          let? decoded := decode_record_header header in
          let? raw_len := raw_record_len (dh_stored_len decoded) in
          let? next_offset := record_end offset raw_len in
          if file_len <? next_offset then
            if allow_tail_truncate
            then Ok ({| ss_entries := entries; ss_segment_len := offset |}, true)
            else Err "sealed segment has a truncated record"%string
          else
            let data_end := offset + RECORD_HEADER_BYTES + dh_stored_len decoded in
            let data := slice file (offset + RECORD_HEADER_BYTES) data_end in
            let stored_crc := le_val (slice file data_end (data_end + RECORD_TRAILER_BYTES)) in
            let padding := slice file (data_end + RECORD_TRAILER_BYTES) next_offset in
            let valid := (stored_crc =? record_crc header data)
                         && forallb (λ b, bool_decide (b = x00)) padding
                         && is_ok (validate_bytes (ok_kind (dh_key decoded)) (ok_hash (dh_key decoded)) data) in
            let entry := {| ie_key := dh_key decoded;
                            ie_location := {| rl_segment_id := segment_id;
                                              rl_record_offset := offset;
                                              rl_plain_len := dh_plain_len decoded;
                                              rl_stored_len := dh_stored_len decoded;
                                              rl_record_crc32c := stored_crc |} |} in
            scan_loop fuel file segment_id allow_tail_truncate next_offset records_seen
              (if valid then entries ++ [entry] else entries)
    end.

Definition scan_content (file : bytes) (segment_id : N) (allow_tail_truncate : bool)
    : IoResult (ScannedSegment * bool) :=
  if MAX_SEGMENT_BYTES <? len file then Err "segment exceeds hard byte limit"%string
  else scan_loop (length file) file segment_id allow_tail_truncate SEGMENT_HEADER_BYTES 0 [].

(** [read_location] on the content of the segment, after the file is open. *)
Definition read_record (file : bytes) (key : ObjectKey) (location : RecordLocation) : IoResult bytes :=
  let offset := rl_record_offset location in
  let? header := ok_or (get_range file offset (offset + RECORD_HEADER_BYTES))
                   "failed to fill whole buffer"%string in
  let? decoded := decode_record_header header in
  if negb (bool_decide (dh_key decoded = key) && (dh_plain_len decoded =? rl_plain_len location)
           && (dh_stored_len decoded =? rl_stored_len location))
  then Err "record header disagrees with index"%string
  else if MAX_PACK_OBJECT_BYTES <? dh_stored_len decoded
  then Err "stored length exceeds object cap"%string
  else
    let data_end := offset + RECORD_HEADER_BYTES + dh_stored_len decoded in
    let? data := ok_or (get_range file (offset + RECORD_HEADER_BYTES) data_end)
                   "failed to fill whole buffer"%string in
    let? trailer := ok_or (get_range file data_end (data_end + RECORD_TRAILER_BYTES))
                      "failed to fill whole buffer"%string in
    let stored_crc := le_val trailer in
    if (stored_crc =? rl_record_crc32c location) && (stored_crc =? record_crc header data)
       && is_ok (validate_bytes (ok_kind key) (ok_hash key) data)
    then Ok data
    else Err "record checksum or content address mismatch"%string.

(** * Sidecars *)

Definition encode_index_entry (e : IndexEntry) : bytes :=
  [kind_code (ok_kind (ie_key e))] ++ [x01] ++ zeros 2 ++ ok_hash (ie_key e)
  ++ le_bytes 8 (rl_record_offset (ie_location e)) ++ le_bytes 8 (rl_plain_len (ie_location e))
  ++ le_bytes 8 (rl_stored_len (ie_location e)) ++ le_bytes 4 (rl_record_crc32c (ie_location e)).

Definition decode_index_entry (data : bytes) (segment_id segment_len : N) : IoResult IndexEntry :=
  if negb ((len data =? INDEX_ENTRY_BYTES) && beq (slice data 1 2) [x01] && beq (slice data 2 4) (zeros 2))
  then Err "invalid sidecar entry"%string
  else
    let? kind := kind_try_from (default x00 (data !! 0%nat)) in
    let hash := slice data 4 36 in
    let record_offset := le_val (slice data 36 44) in
    let plain_len := le_val (slice data 44 52) in
    let stored_len := le_val (slice data 52 60) in
    let record_crc32c := le_val (slice data 60 64) in
    if (record_offset <? SEGMENT_HEADER_BYTES) || (segment_len <=? record_offset)
       || negb (plain_len =? stored_len) || (MAX_PACK_OBJECT_BYTES <? stored_len)
    then Err "sidecar entry is out of bounds"%string
    else
      let? record_end :=
        ok_or (checked_add64 record_offset RECORD_HEADER_BYTES ≫= λ v, checked_add64 v stored_len
               ≫= λ v, checked_add64 v RECORD_TRAILER_BYTES
               ≫= λ v, checked_add64 v
                         (padding_for (RECORD_HEADER_BYTES + stored_len + RECORD_TRAILER_BYTES)))
          "sidecar record bound overflow"%string in
      if segment_len <? record_end then Err "sidecar entry crosses segment end"%string
      else Ok {| ie_key := {| ok_kind := kind; ok_hash := hash |};
                 ie_location := {| rl_segment_id := segment_id;
                                   rl_record_offset := record_offset;
                                   rl_plain_len := plain_len;
                                   rl_stored_len := stored_len;
                                   rl_record_crc32c := record_crc32c |} |}.

(** [by_key] of [write_sidecar], its values sorted by key. *)
Definition by_key (entries : list IndexEntry) : gmap ObjectKey IndexEntry :=
  foldl (λ m e, <[ie_key e := e]> m) ∅ entries.
Definition entry_key_bytes (e : IndexEntry) : bytes := key_bytes (ie_key e).
Definition canonical_entries (entries : list IndexEntry) : list IndexEntry :=
  sort_by entry_key_bytes (map_to_list (by_key entries)).*2.

Definition sidecar_header (segment_id segment_len count entries_len : N) : bytes :=
  INDEX_MAGIC ++ [INDEX_VERSION] ++ zeros 3 ++ le_bytes 8 segment_id ++ le_bytes 8 segment_len
  ++ le_bytes 8 count ++ le_bytes 8 entries_len ++ zeros 8.

(** The content [write_sidecar] writes to the temporary file. *)
Definition encode_sidecar (segment_id segment_len : N) (entries : list IndexEntry) : IoResult bytes :=
  let canonical := canonical_entries entries in
  if MAX_SEGMENT_OBJECTS <? len canonical then Err "sidecar exceeds hard object limit"%string
  else
    let count := len canonical in
    let? entries_len := ok_or (checked_mul64 count INDEX_ENTRY_BYTES)
                          "sidecar byte length overflow"%string in
    let body := sidecar_header segment_id segment_len count entries_len
                ++ concat (encode_index_entry <$> canonical) in
    Ok (body ++ hash_bytes body).

(** The loop over [chunks_exact(INDEX_ENTRY_BYTES)]. *)
Fixpoint decode_entries (fuel : nat) (data : bytes) (segment_id segment_len : N)
    (previous : option ObjectKey) : IoResult (list IndexEntry) :=
  match fuel with
  | O => Ok []
  | S fuel =>
      if len data <? INDEX_ENTRY_BYTES then Ok []
      else
        let? entry := decode_index_entry (takeN INDEX_ENTRY_BYTES data) segment_id segment_len in
        if match previous with
           | Some key => ble (key_bytes (ie_key entry)) (key_bytes key)
           | None => false
           end
        then Err "sidecar entries are not strictly sorted"%string
        else
          let? entries := decode_entries fuel (dropN INDEX_ENTRY_BYTES data) segment_id segment_len
                            (Some (ie_key entry)) in
          Ok (entry :: entries)
  end.

(** [load_sidecar] on the content of the file. *)
Definition decode_sidecar (data : bytes) (segment_id segment_len : N) : IoResult (list IndexEntry) :=
  if MAX_SIDECAR_BYTES <? len data then Err "sidecar exceeds hard byte limit"%string
  else if len data <? INDEX_HEADER_BYTES + INDEX_TRAILER_BYTES then Err "sidecar is truncated"%string
  else
    let header := slice data 0 INDEX_HEADER_BYTES in
    if negb (beq (slice header 0 4) INDEX_MAGIC && beq (slice header 4 5) [INDEX_VERSION]
             && beq (slice header 5 8) (zeros 3) && beq (slice header 40 48) (zeros 8))
    then Err "invalid sidecar header"%string
    else if negb (le_val (slice header 8 16) =? segment_id)
            || negb (le_val (slice header 16 24) =? segment_len)
    then Err "sidecar does not match segment"%string
    else
      let count := le_val (slice header 24 32) in
      if MAX_SEGMENT_OBJECTS <? count then Err "sidecar exceeds hard object limit"%string
      else
        let entries_len := le_val (slice header 32 40) in
        let? expected_entries_len := ok_or (checked_mul64 count INDEX_ENTRY_BYTES)
                                       "sidecar byte length overflow"%string in
        if negb (entries_len =? expected_entries_len)
        then Err "sidecar count/length mismatch"%string
        else
          let? expected_len :=
            ok_or (checked_add64 INDEX_HEADER_BYTES entries_len
                   ≫= λ v, checked_add64 v INDEX_TRAILER_BYTES)
              "sidecar total length overflow"%string in
          if negb (len data =? expected_len) then Err "sidecar file length mismatch"%string
          else
            let trailer_start := INDEX_HEADER_BYTES + entries_len in
            if negb (beq (hash_bytes (takeN trailer_start data)) (dropN trailer_start data))
            then Err "sidecar checksum mismatch"%string
            else
              decode_entries (length data) (slice data INDEX_HEADER_BYTES trailer_start)
                segment_id segment_len None.

End pack.
