(* ===== verification/PackFormatProps.v ===== *)
(** The formats of PackFormat read back what they write: record headers,
    records, whole segments with a torn tail, and sidecars.

    The sidecar index of a sealed segment: what is written is read back, in
    canonical form, and a sidecar that is read only names records inside its
    segment. Prefixes of a segment, as a crash leaves them. *)

From S2P Require Import Prelude Bytes Keyed Hash Chunk RootHead Crc32c PackFormat.
Local Open Scope N_scope.

(** * Slices of concatenations *)

Lemma slice_skip a b k from to :
  len a = k → k ≤ from → slice (a ++ b) from to = slice b (from - k) (to - k).
Proof.
  unfold slice, len. intros <- Hle. rewrite drop_app_ge by lia.
  f_equal; [lia|]. f_equal. lia.
Qed.

Lemma slice_hit a b to : len a = to → slice (a ++ b) 0 to = a.
Proof.
  intros <-. unfold slice. rewrite N.sub_0_r. change (drop (N.to_nat 0) (a ++ b)) with (a ++ b).
  unfold len. by rewrite take_app_length' by lia.
Qed.

Lemma slice_whole a to : len a = to → slice a 0 to = a.
Proof. intros. rewrite <-(app_nil_r a) at 1. by apply slice_hit. Qed.

Lemma slice_app_l a b from to : to ≤ len a → slice (a ++ b) from to = slice a from to.
Proof.
  unfold slice, len. intros. destruct (N.le_gt_cases from to).
  - rewrite drop_app_le by lia. rewrite take_app_le; [done|]. rewrite length_drop. lia.
  - replace (N.to_nat (to - from)) with 0%nat by lia. done.
Qed.

Lemma len_slice s from to : from ≤ to → to ≤ len s → len (slice s from to) = to - from.
Proof. unfold slice, len. intros. rewrite length_take, length_drop. lia. Qed.

Lemma slice_mid a b c from to :
  len a = from → from + len b = to → slice (a ++ b ++ c) from to = b.
Proof.
  intros <- <-. rewrite (slice_skip a _ (len a)) by lia.
  rewrite N.sub_diag. apply slice_hit. lia.
Qed.

Lemma get_range_mid a b c from to :
  len a = from → from + len b = to → get_range (a ++ b ++ c) from to = Some b.
Proof.
  intros <- <-. unfold get_range. rewrite !len_app.
  destruct (N.leb_spec (len a) (len a + len b)); [|lia].
  destruct (N.leb_spec (len a + len b) (len a + (len b + len c))); [|lia].
  simpl. f_equal. by apply slice_mid.
Qed.

Lemma len_zeros n : len (zeros n) = N.of_nat n.
Proof. unfold len, zeros. by rewrite repeat_length. Qed.

#[export] Hint Rewrite len_zeros : sync.

(** The length of a field of a format. *)
Ltac field_len :=
  solve [ apply len_le_bytes | apply len_zeros | eassumption | cbv; reflexivity ].

(** Reads a field of a concatenation: skip the fields before it. *)
Ltac field_skip :=
  erewrite slice_skip; [|field_len|solve [apply N.leb_le; reflexivity]];
  match goal with
  | |- slice ?b ?f ?t = ?r =>
      let f' := eval vm_compute in f in
      let t' := eval vm_compute in t in change (slice b f' t' = r)
  end.
Ltac field_read :=
  repeat field_skip; first [rewrite slice_hit by field_len | rewrite slice_whole by field_len]; reflexivity.
Ltac read_fields :=
  repeat match goal with
  | |- context [slice ?f ?a ?b] =>
      let H := fresh in eassert (slice f a b = _) as H by field_read; rewrite H; clear H
  end.

(** * Records *)

Section records.
Context {B3 : Blake3} {HX : Hex} {JV : JsonValue}.

Definition object_valid (o : PackedObject) : Prop := validate_object o = Ok tt.

Lemma validate_bytes_ok kind hash data :
  validate_bytes kind hash data = Ok tt → len hash = 32 ∧ len data ≤ MAX_PACK_OBJECT_BYTES.
Proof.
  unfold validate_bytes, hex_to_hash. intros H. case_code; simplify_eq; bool_to_prop; try discriminate.
  - unfold map_err in *. case_code; simplify_eq. bool_to_prop.
    match goal with H : beq _ _ = true |- _ => apply beq_true in H end. by subst.
  - match goal with H : beq _ _ = true |- _ => apply beq_true in H end. subst.
    split; [apply len_hash_bytes|done].
Qed.

Lemma object_valid_len o :
  object_valid o → len (po_hash o) = 32 ∧ len (po_bytes o) ≤ MAX_PACK_OBJECT_BYTES.
Proof. apply validate_bytes_ok. Qed.

Lemma len_u64 (b : bytes) : len b ≤ MAX_PACK_OBJECT_BYTES → len b < 256 ^ N.of_nat 8.
Proof. unfold MAX_PACK_OBJECT_BYTES. intros. eapply N.le_lt_trans; [done|]. done. Qed.

Lemma len_record_header o : len (po_hash o) = 32 → len (record_header o) = RECORD_HEADER_BYTES.
Proof. intros H. unfold record_header. autorewrite with sync. rewrite H. done. Qed.

Lemma decode_encode_header o :
  object_valid o →
  decode_record_header (record_header o) =
  Ok {| dh_key := object_key o; dh_plain_len := len (po_bytes o); dh_stored_len := len (po_bytes o) |}.
Proof.
  intros [Hh Hb]%object_valid_len. unfold decode_record_header, record_header.
  set (n := len (po_bytes o)) in *.
  read_fields.
  rewrite !beq_refl. cbn -[n MAX_PACK_OBJECT_BYTES le_bytes le_val].
  rewrite kind_try_from_code, !le_val_le_bytes by (by apply len_u64).
  rewrite N.eqb_refl. simpl negb. cbv iota.
  destruct (N.ltb_spec MAX_PACK_OBJECT_BYTES n); [lia|]. done.
Qed.

(** ** The parts of a record *)

Definition raw_len_of (o : PackedObject) : N :=
  RECORD_HEADER_BYTES + len (po_bytes o) + RECORD_TRAILER_BYTES.
Definition record_tail (o : PackedObject) : bytes := zeros (N.to_nat (padding_for (raw_len_of o))).
Definition object_crc (o : PackedObject) : N := record_crc (record_header o) (po_bytes o).

Definition entry_at (segment_id offset : N) (o : PackedObject) : IndexEntry :=
  {| ie_key := object_key o;
     ie_location := {| rl_segment_id := segment_id;
                       rl_record_offset := offset;
                       rl_plain_len := len (po_bytes o);
                       rl_stored_len := len (po_bytes o);
                       rl_record_crc32c := object_crc o |} |}.

Lemma record_bytes_parts o :
  record_bytes o = record_header o ++ po_bytes o ++ le_bytes 4 (object_crc o) ++ record_tail o.
Proof. done. Qed.

Lemma len_record_tail o : len (record_tail o) = padding_for (raw_len_of o).
Proof. unfold record_tail. rewrite len_zeros. lia. Qed.

Lemma padding_for_lt n : padding_for n < 8.
Proof. unfold padding_for. apply N.mod_upper_bound. done. Qed.

Lemma len_record_bytes o :
  len (po_hash o) = 32 → len (record_bytes o) = raw_len_of o + padding_for (raw_len_of o).
Proof.
  intros H. rewrite record_bytes_parts, !len_app, len_record_header, len_le_bytes, len_record_tail by done.
  unfold raw_len_of, RECORD_TRAILER_BYTES. change (N.of_nat 4) with 4. lia.
Qed.

(** Records are aligned. *)
Lemma record_bytes_aligned o : len (po_hash o) = 32 → len (record_bytes o) mod 8 = 0.
Proof.
  intros H. rewrite len_record_bytes by done. unfold padding_for.
  generalize (raw_len_of o). intros n.
  pose proof (N.mod_upper_bound n 8 ltac:(done)). pose proof (N.div_mod n 8 ltac:(done)) as Hd.
  revert Hd H0. generalize (n mod 8) (n / 8). intros m q -> Hm.
  destruct (decide (m = 0)) as [->|E].
  - change ((8 - 0) mod 8) with 0. rewrite !N.add_0_r, N.mul_comm. apply N.Div0.mod_mul.
  - rewrite (N.mod_small (8 - m)) by lia.
    replace (8 * q + m + (8 - m)) with ((q + 1) * 8) by lia. apply N.Div0.mod_mul.
Qed.

Lemma record_crc_u32 header data : record_crc header data < 256 ^ N.of_nat 4.
Proof. unfold record_crc. rewrite crc_update_app. apply crc32c_word32. Qed.

Lemma raw_record_len_ok n : n ≤ MAX_PACK_OBJECT_BYTES →
  raw_record_len n = Ok (RECORD_HEADER_BYTES + n + RECORD_TRAILER_BYTES).
Proof.
  unfold raw_record_len, checked_add64, MAX_PACK_OBJECT_BYTES, RECORD_HEADER_BYTES, U64_MAX.
  intros. destruct (N.leb_spec (56 + n) 18446744073709551615); [csimpl|lia].
  destruct (N.leb_spec (56 + n + RECORD_TRAILER_BYTES) 18446744073709551615); [done|].
  unfold RECORD_TRAILER_BYTES in *. lia.
Qed.

Lemma record_end_ok offset raw : offset + raw + padding_for raw ≤ U64_MAX →
  record_end offset raw = Ok (offset + raw + padding_for raw).
Proof.
  unfold record_end, checked_add64. intros.
  destruct (N.leb_spec (offset + raw) U64_MAX); [csimpl|lia].
  destruct (N.leb_spec (offset + raw + padding_for raw) U64_MAX); [done|lia].
Qed.

Lemma write_record_ok segment_id offset o :
  object_valid o → offset + len (record_bytes o) ≤ U64_MAX →
  write_record segment_id offset o =
  (record_bytes o, Ok (entry_at segment_id offset o, offset + len (record_bytes o))).
Proof.
  intros [Hh Hb]%object_valid_len. rewrite len_record_bytes by done. intros Hle.
  unfold write_record. rewrite raw_record_len_ok by done. fold (raw_len_of o).
  rewrite record_end_ok by lia. by rewrite N.add_assoc.
Qed.

(** ** Reading a record back *)

Lemma read_record_ok file pre o post segment_id :
  object_valid o → file = pre ++ record_bytes o ++ post →
  read_record file (object_key o) (ie_location (entry_at segment_id (len pre) o)) = Ok (po_bytes o).
Proof.
  intros Hv ->. pose proof (object_valid_len o Hv) as [Hh Hb].
  unfold read_record. cbn [entry_at ie_location rl_record_offset rl_plain_len rl_stored_len rl_record_crc32c].
  rewrite record_bytes_parts, <-!app_assoc.
  rewrite (get_range_mid pre (record_header o)) by (rewrite ?len_record_header by done; done).
  cbn [ok_or]. rewrite decode_encode_header by done. cbn [dh_key dh_plain_len dh_stored_len].
  rewrite bool_decide_true, N.eqb_refl by done. cbn [andb negb].
  destruct (N.ltb_spec MAX_PACK_OBJECT_BYTES (len (po_bytes o))); [lia|].
  rewrite (app_assoc pre (record_header o)).
  rewrite (get_range_mid (pre ++ record_header o) (po_bytes o))
    by (rewrite ?len_app, ?len_record_header by done; done).
  cbn [ok_or]. rewrite (app_assoc _ (po_bytes o)).
  rewrite (get_range_mid ((pre ++ record_header o) ++ po_bytes o) (le_bytes 4 (object_crc o)))
    by (rewrite ?len_app, ?len_record_header, ?len_le_bytes by done; done).
  cbn [ok_or]. rewrite le_val_le_bytes by apply record_crc_u32.
  unfold object_crc. rewrite !N.eqb_refl.
  replace (is_ok _) with true; [done|].
  symmetry. unfold object_valid, validate_object in Hv. cbn [object_key ok_kind ok_hash]. by rewrite Hv.
Qed.

(** * Segments *)

Definition records (os : list PackedObject) : bytes := concat (record_bytes <$> os).
Definition segment_bytes (segment_id : N) (os : list PackedObject) : bytes :=
  segment_header segment_id ++ records os.

Fixpoint entries_at (segment_id offset : N) (os : list PackedObject) : list IndexEntry :=
  match os with
  | [] => []
  | o :: os => entry_at segment_id offset o :: entries_at segment_id (offset + len (record_bytes o)) os
  end.

(** The entries of a segment. *)
Definition segment_entries_of (segment_id : N) (os : list PackedObject) : list IndexEntry :=
  entries_at segment_id SEGMENT_HEADER_BYTES os.

Lemma records_app os os' : records (os ++ os') = records os ++ records os'.
Proof. unfold records. by rewrite fmap_app, concat_app. Qed.
Lemma records_cons o os : records (o :: os) = record_bytes o ++ records os.
Proof. done. Qed.

Lemma segment_bytes_app segment_id os os' :
  segment_bytes segment_id (os ++ os') = segment_bytes segment_id os ++ records os'.
Proof. unfold segment_bytes. by rewrite records_app, app_assoc. Qed.

Lemma entries_at_app segment_id offset os os' :
  entries_at segment_id offset (os ++ os') =
  entries_at segment_id offset os ++ entries_at segment_id (offset + len (records os)) os'.
Proof.
  revert offset. induction os as [|o os IH]; intros offset; [by rewrite N.add_0_r|].
  cbn [app entries_at]. by rewrite IH, records_cons, len_app, N.add_assoc.
Qed.

Lemma length_entries_at segment_id offset os : length (entries_at segment_id offset os) = length os.
Proof. revert offset. induction os; intros; simpl; auto. Qed.

Lemma entries_at_inv segment_id offset os e :
  e ∈ entries_at segment_id offset os ↔
  ∃ pre o post, os = pre ++ o :: post ∧ e = entry_at segment_id (offset + len (records pre)) o.
Proof.
  revert offset. induction os as [|o os IH]; intros offset; cbn [entries_at].
  - split; [by intros ?%elem_of_nil|]. by intros ([|? ?] & ? & ? & ? & _).
  - rewrite elem_of_cons, IH. split.
    + intros [->|(pre & o' & post & -> & ->)].
      * exists [], o, os. by rewrite N.add_0_r.
      * exists (o :: pre), o', post. by rewrite records_cons, len_app, N.add_assoc.
    + intros ([|o' pre] & o'' & post & E & ->); injection E as -> ->.
      * left. by rewrite N.add_0_r.
      * right. exists pre, o'', post. by rewrite records_cons, len_app, N.add_assoc.
Qed.

Lemma len_segment_header segment_id : len (segment_header segment_id) = SEGMENT_HEADER_BYTES.
Proof. unfold segment_header, segment_prefix. by autorewrite with sync. Qed.

Lemma len_segment_bytes segment_id os :
  len (segment_bytes segment_id os) = SEGMENT_HEADER_BYTES + len (records os).
Proof. unfold segment_bytes. by rewrite len_app, len_segment_header. Qed.

Lemma validate_segment_header_ok segment_id rest :
  segment_id ≤ U64_MAX → validate_segment_header (segment_header segment_id ++ rest) segment_id = Ok tt.
Proof.
  intros Hid. unfold validate_segment_header.
  rewrite len_app, len_segment_header.
  destruct (N.ltb_spec (SEGMENT_HEADER_BYTES + len rest) SEGMENT_HEADER_BYTES); [lia|].
  rewrite slice_hit by apply len_segment_header.
  assert (slice (segment_header segment_id) 0 24 = segment_prefix segment_id) as ->.
  { unfold segment_header. apply slice_hit. unfold segment_prefix. by autorewrite with sync. }
  unfold segment_header, segment_prefix. rewrite <-!app_assoc.
  set (c := crc32c _). assert (c < 256 ^ N.of_nat 4) as Hc by apply crc32c_word32.
  clearbody c. read_fields. rewrite !beq_refl. cbn [andb negb].
  rewrite !le_val_le_bytes.
  - by rewrite !N.eqb_refl.
  - done.
  - unfold U64_MAX in Hid. change (256 ^ N.of_nat 8) with 18446744073709551616. lia.
Qed.

(** ** The scan *)

Lemma scan_step fuel file pre o post segment_id allow seen acc :
  object_valid o → file = pre ++ record_bytes o ++ post → len file ≤ MAX_SEGMENT_BYTES →
  seen + 1 ≤ MAX_SEGMENT_OBJECTS →
  scan_loop (S fuel) file segment_id allow (len pre) seen acc =
  scan_loop fuel file segment_id allow (len pre + len (record_bytes o)) (seen + 1)
    (acc ++ [entry_at segment_id (len pre) o]).
Proof.
  intros Hv Hf Hmax Hseen. pose proof (object_valid_len o Hv) as [Hh Hb].
  pose proof (len_record_bytes o Hh) as Hlen.
  assert (RECORD_HEADER_BYTES ≤ len (record_bytes o)) by (rewrite Hlen; unfold raw_len_of; lia).
  assert (0 < RECORD_HEADER_BYTES) by done.
  assert (len file = len pre + len (record_bytes o) + len post) as Hfl
    by (rewrite Hf, !len_app; lia).
  assert (MAX_SEGMENT_BYTES ≤ U64_MAX) by (by apply N.leb_le).
  cbn [scan_loop]. set (R := record_bytes o) in *.
  destruct (N.ltb_spec (len pre) (len file)); [|lia]. cbn [negb].
  destruct (N.ltb_spec MAX_SEGMENT_OBJECTS (seen + 1)); [lia|].
  destruct (N.ltb_spec (len file - len pre) RECORD_HEADER_BYTES); [lia|].
  subst R. assert (file = pre ++ record_header o ++ po_bytes o ++ le_bytes 4 (object_crc o)
                    ++ record_tail o ++ post) as Hf'.
  { rewrite Hf, record_bytes_parts. by rewrite <-!app_assoc. }
  assert (slice file (len pre) (len pre + RECORD_HEADER_BYTES) = record_header o) as ->.
  { rewrite Hf'. apply slice_mid; [done|]. by rewrite len_record_header. }
  rewrite decode_encode_header by done. cbn [dh_key dh_plain_len dh_stored_len].
  rewrite raw_record_len_ok by done. fold (raw_len_of o).
  rewrite record_end_ok by lia.
  destruct (N.ltb_spec (len file) (len pre + raw_len_of o + padding_for (raw_len_of o))); [lia|].
  assert (slice file (len pre + RECORD_HEADER_BYTES) (len pre + RECORD_HEADER_BYTES + len (po_bytes o))
          = po_bytes o) as ->.
  { rewrite Hf', (app_assoc pre). apply slice_mid; [|done]. by rewrite len_app, len_record_header. }
  assert (slice file (len pre + RECORD_HEADER_BYTES + len (po_bytes o))
            (len pre + RECORD_HEADER_BYTES + len (po_bytes o) + RECORD_TRAILER_BYTES)
          = le_bytes 4 (object_crc o)) as ->.
  { rewrite Hf', (app_assoc pre), (app_assoc (pre ++ _)). apply slice_mid; [|by rewrite len_le_bytes].
    by rewrite !len_app, len_record_header. }
  assert (slice file (len pre + RECORD_HEADER_BYTES + len (po_bytes o) + RECORD_TRAILER_BYTES)
            (len pre + raw_len_of o + padding_for (raw_len_of o)) = record_tail o) as ->.
  { rewrite Hf', (app_assoc pre), (app_assoc (pre ++ _)), (app_assoc ((pre ++ _) ++ _)).
    apply slice_mid; rewrite ?len_record_tail, ?len_app, ?len_record_header, ?len_le_bytes by done;
      unfold raw_len_of; rewrite ?N.add_assoc; done. }
  rewrite le_val_le_bytes by apply record_crc_u32. unfold object_crc at 1. rewrite N.eqb_refl.
  assert (forallb (λ b, bool_decide (b = x00)) (record_tail o) = true) as ->.
  { apply forallb_forall. intros b Hb'%repeat_spec. by apply bool_decide_eq_true. }
  unfold object_valid, validate_object in Hv. cbn [object_key ok_kind ok_hash]. rewrite Hv.
  cbn [is_ok andb]. f_equal. lia.
Qed.

Lemma scan_records fuel os file pre post segment_id allow seen acc :
  Forall object_valid os → file = pre ++ records os ++ post → len file ≤ MAX_SEGMENT_BYTES →
  seen + len os ≤ MAX_SEGMENT_OBJECTS →
  scan_loop (length os + fuel) file segment_id allow (len pre) seen acc =
  scan_loop fuel file segment_id allow (len pre + len (records os)) (seen + len os)
    (acc ++ entries_at segment_id (len pre) os).
Proof.
  revert pre seen acc. induction os as [|o os IH]; intros pre seen acc Hv Hf Hmax Hseen.
  - cbn [length Nat.add entries_at]. by rewrite app_nil_r, !N.add_0_r.
  - apply Forall_cons in Hv as [Ho Hos]. rewrite len_cons in Hseen.
    rewrite records_cons, <-app_assoc in Hf.
    cbn [length Nat.add]. erewrite scan_step; [|done|done|done|lia].
    rewrite <-len_app. rewrite IH; [|done|by rewrite Hf, <-!app_assoc|done|lia].
    rewrite records_cons, len_cons, !len_app, <-app_assoc. cbn [app entries_at].
    f_equal; lia.
Qed.

(** What is left behind the last complete record: nothing, or a part of a
    record. *)
Definition torn (tail : bytes) : Prop :=
  ∃ o rest, object_valid o ∧ record_bytes o = tail ++ rest ∧ rest ≠ [].

Lemma scan_torn fuel file pre tail segment_id seen acc :
  torn tail → tail ≠ [] → file = pre ++ tail → len file ≤ MAX_SEGMENT_BYTES →
  seen + 1 ≤ MAX_SEGMENT_OBJECTS →
  scan_loop (S fuel) file segment_id true (len pre) seen acc =
  Ok ({| ss_entries := acc; ss_segment_len := len pre |}, true).
Proof.
  intros (o & rest & Hv & Hr & Hrest) Ht -> Hmax Hseen.
  pose proof (object_valid_len o Hv) as [Hh Hb]. pose proof (len_record_bytes o Hh) as Hlen.
  assert (len tail ≠ 0 ∧ len rest ≠ 0) as [Ht0 Hr0] by (rewrite !len_0; done).
  assert (len (record_bytes o) = len tail + len rest) as Hsum by (rewrite Hr, len_app; lia).
  assert (len (pre ++ tail) = len pre + len tail) as Hfl by (by rewrite len_app).
  assert (MAX_SEGMENT_BYTES + MAX_PACK_OBJECT_BYTES + 100 ≤ U64_MAX) by (by apply N.leb_le).
  cbn [scan_loop]. set (n := len (pre ++ tail)) in *.
  destruct (N.ltb_spec (len pre) n); [|lia]. cbn [negb].
  destruct (N.ltb_spec MAX_SEGMENT_OBJECTS (seen + 1)); [lia|].
  destruct (N.ltb_spec (n - len pre) RECORD_HEADER_BYTES) as [Hs|Hs]; [done|].
  assert (slice (pre ++ tail) (len pre) (len pre + RECORD_HEADER_BYTES) = record_header o) as ->.
  { rewrite (slice_skip pre tail (len pre)) by lia. rewrite N.sub_diag, N.add_comm, N.add_sub.
    rewrite <-(slice_app_l tail rest) by lia. rewrite <-Hr, record_bytes_parts.
    by apply slice_hit, len_record_header. }
  rewrite decode_encode_header by done. cbn [dh_stored_len].
  rewrite raw_record_len_ok by done. fold (raw_len_of o).
  rewrite record_end_ok.
  2:{ pose proof (padding_for_lt (raw_len_of o)). unfold raw_len_of, RECORD_HEADER_BYTES, RECORD_TRAILER_BYTES in *. lia. }
  destruct (N.ltb_spec n (len pre + raw_len_of o + padding_for (raw_len_of o))); [done|lia].
Qed.

Lemma scan_done fuel file segment_id allow seen acc :
  scan_loop fuel file segment_id allow (len file) seen acc =
  Ok ({| ss_entries := acc; ss_segment_len := len file |}, false).
Proof.
  assert (len file <? len file = false) as E by (apply N.ltb_ge; lia).
  destruct fuel; cbn [scan_loop]; rewrite E; done.
Qed.

Lemma object_valid_nonempty o : object_valid o → 1 ≤ len (record_bytes o).
Proof.
  intros [Hh _]%object_valid_len. rewrite len_record_bytes by done.
  unfold raw_len_of, RECORD_HEADER_BYTES. lia.
Qed.

Lemma len_records_ge os : Forall object_valid os → len os ≤ len (records os).
Proof.
  induction 1 as [|o os Ho _ IH]; [done|]. rewrite len_cons, records_cons, len_app.
  pose proof (object_valid_nonempty o Ho). lia.
Qed.

(** A complete segment: every record is found, nothing is truncated. *)
Lemma scan_complete segment_id os allow :
  Forall object_valid os → len (segment_bytes segment_id os) ≤ MAX_SEGMENT_BYTES →
  len os ≤ MAX_SEGMENT_OBJECTS →
  scan_content (segment_bytes segment_id os) segment_id allow =
  Ok ({| ss_entries := segment_entries_of segment_id os;
         ss_segment_len := len (segment_bytes segment_id os) |}, false).
Proof.
  intros Hv Hmax Hn. unfold scan_content.
  destruct (N.ltb_spec MAX_SEGMENT_BYTES (len (segment_bytes segment_id os))); [lia|].
  pose proof (len_records_ge os Hv). pose proof (len_segment_bytes segment_id os) as Hl.
  replace (length (segment_bytes segment_id os))
    with (length os + (length (segment_bytes segment_id os) - length os))%nat
    by (unfold len in *; lia).
  rewrite <-(len_segment_header segment_id).
  rewrite (scan_records _ os _ _ []); [|done|by rewrite app_nil_r|done|lia].
  rewrite <-len_app. fold (segment_bytes segment_id os). rewrite scan_done.
  cbn [app]. by rewrite len_segment_header.
Qed.

(** A segment with a torn last record: the complete ones are found, the tail
    is to be truncated. *)
Lemma scan_torn_segment segment_id os tail :
  Forall object_valid os → torn tail → tail ≠ [] →
  len (segment_bytes segment_id os ++ tail) ≤ MAX_SEGMENT_BYTES → len os + 1 ≤ MAX_SEGMENT_OBJECTS →
  scan_content (segment_bytes segment_id os ++ tail) segment_id true =
  Ok ({| ss_entries := segment_entries_of segment_id os;
         ss_segment_len := len (segment_bytes segment_id os) |}, true).
Proof.
  intros Hv Ht Hne Hmax Hn. unfold scan_content.
  destruct (N.ltb_spec MAX_SEGMENT_BYTES (len (segment_bytes segment_id os ++ tail))); [lia|].
  pose proof (len_records_ge os Hv). pose proof (len_segment_bytes segment_id os) as Hl.
  assert (len tail ≠ 0) by (by rewrite len_0).
  assert (∃ k, length (segment_bytes segment_id os ++ tail) = (length os + S k)%nat) as [k ->].
  { exists (length (segment_bytes segment_id os ++ tail) - length os - 1)%nat.
    rewrite length_app. unfold len in *. lia. }
  rewrite <-(len_segment_header segment_id).
  rewrite (scan_records _ os _ (segment_header segment_id) tail);
    [|done|unfold segment_bytes; by rewrite <-app_assoc|done|lia].
  rewrite <-len_app. fold (segment_bytes segment_id os).
  rewrite (scan_torn _ _ (segment_bytes segment_id os) tail); [|done..|lia].
  cbn [app]. by rewrite len_segment_header.
Qed.
End records.


Section sidecar.
Context {B3 : Blake3} {HX : Hex} {JV : JsonValue}.

(** * Entries *)

(** An entry that fits a segment: what the struct fields guarantee, and the
    bounds [decode_index_entry] asks for. *)
Definition entry_fits (segment_id segment_len : N) (e : IndexEntry) : Prop :=
  len (ok_hash (ie_key e)) = 32 ∧
  rl_segment_id (ie_location e) = segment_id ∧
  SEGMENT_HEADER_BYTES ≤ rl_record_offset (ie_location e) ∧
  rl_plain_len (ie_location e) = rl_stored_len (ie_location e) ∧
  rl_stored_len (ie_location e) ≤ MAX_PACK_OBJECT_BYTES ∧
  rl_record_crc32c (ie_location e) < 256 ^ N.of_nat 4 ∧
  let raw := RECORD_HEADER_BYTES + rl_stored_len (ie_location e) + RECORD_TRAILER_BYTES in
  rl_record_offset (ie_location e) + raw + padding_for raw ≤ segment_len.

Lemma len_encode_index_entry e :
  len (ok_hash (ie_key e)) = 32 → len (encode_index_entry e) = INDEX_ENTRY_BYTES.
Proof. intros H. unfold encode_index_entry. autorewrite with sync. rewrite H. done. Qed.

Lemma u64_bound n : n ≤ U64_MAX → n < 256 ^ N.of_nat 8.
Proof. unfold U64_MAX. change (256 ^ N.of_nat 8) with 18446744073709551616. lia. Qed.

Lemma decode_encode_index_entry segment_id segment_len e :
  entry_fits segment_id segment_len e → segment_len ≤ U64_MAX →
  decode_index_entry (encode_index_entry e) segment_id segment_len = Ok e.
Proof.
  intros (Hh & Hid & Hoff & Hpl & Hsl & Hcrc & Hend) Hu.
  unfold decode_index_entry. rewrite len_encode_index_entry, N.eqb_refl by done.
  destruct e as [[kind hash] [sid off plain stored crc]].
  unfold encode_index_entry. cbn [ie_key ie_location ok_kind ok_hash rl_segment_id rl_record_offset
    rl_plain_len rl_stored_len rl_record_crc32c] in *. subst sid plain.
  assert (default x00 (([kind_code kind] ++ [x01] ++ zeros 2 ++ hash ++ le_bytes 8 off ++ le_bytes 8 stored
           ++ le_bytes 8 stored ++ le_bytes 4 crc) !! 0%nat) = kind_code kind) as -> by done.
  read_fields. rewrite !beq_refl, kind_try_from_code. cbn [andb negb].
  assert (stored ≤ U64_MAX) by (eapply N.le_trans; [exact Hsl|by apply N.leb_le]).
  rewrite !le_val_le_bytes by (done || apply u64_bound; lia).
  assert (SEGMENT_HEADER_BYTES = 32) as Es by done. assert (RECORD_HEADER_BYTES = 56) as Er by done.
  assert (RECORD_TRAILER_BYTES = 4) as Et by done. rewrite Es, Er, Et in *.
  destruct (N.ltb_spec off 32); [lia|]. destruct (N.leb_spec segment_len off); [lia|].
  rewrite N.eqb_refl. destruct (N.ltb_spec MAX_PACK_OBJECT_BYTES stored); [lia|]. cbn [orb negb].
  unfold checked_add64.
  destruct (N.leb_spec (off + 56) U64_MAX); [csimpl|lia].
  destruct (N.leb_spec (off + 56 + stored) U64_MAX); [csimpl|lia].
  destruct (N.leb_spec (off + 56 + stored + 4) U64_MAX); [csimpl|lia].
  set (pad := padding_for (56 + stored + 4)) in *.
  destruct (N.leb_spec (off + 56 + stored + 4 + pad) U64_MAX); [csimpl|lia].
  cbn [ok_or]. destruct (N.ltb_spec segment_len (off + 56 + stored + 4 + pad)); [lia|done].
Qed.

(** * Canonical form *)

Lemma by_key_fold entries (m : gmap ObjectKey IndexEntry) k :
  foldl (λ m e, <[ie_key e := e]> m) m entries !! k =
  match last (filter (λ e, ie_key e = k) entries) with Some e => Some e | None => m !! k end.
Proof.
  revert m. induction entries as [|e entries IH]; intros m; [done|].
  cbn [foldl]. rewrite IH, filter_cons. destruct (decide (ie_key e = k)) as [<-|Hne].
  - rewrite last_cons. destruct (last _); [done|]. by rewrite lookup_insert_eq.
  - destruct (last _); [done|]. by rewrite lookup_insert_ne.
Qed.

(** The last entry of a key counts. *)
Lemma by_key_lookup entries k : by_key entries !! k = last (filter (λ e, ie_key e = k) entries).
Proof. unfold by_key. rewrite by_key_fold. by destruct (last _). Qed.

Lemma by_key_Some entries k e : by_key entries !! k = Some e → e ∈ entries ∧ ie_key e = k.
Proof.
  rewrite by_key_lookup. intros H. apply last_Some_elem_of in H.
  by apply list_elem_of_filter in H as [??].
Qed.

Lemma by_key_is_Some entries e : e ∈ entries → is_Some (by_key entries !! ie_key e).
Proof.
  intros He. rewrite by_key_lookup. rewrite last_is_Some.
  intros E. assert (e ∈ filter (λ e', ie_key e' = ie_key e) entries) as H.
  { by apply list_elem_of_filter. }
  rewrite E in H. by apply elem_of_nil in H.
Qed.

Lemma elem_of_canonical entries e :
  e ∈ canonical_entries entries ↔ by_key entries !! ie_key e = Some e.
Proof.
  unfold canonical_entries. rewrite elem_of_sort_by, list_elem_of_fmap. split.
  - intros ([k e'] & -> & Hin%elem_of_map_to_list). cbn [snd].
    pose proof (by_key_Some _ _ _ Hin) as [_ ->]. done.
  - intros H. exists (ie_key e, e). split; [done|]. by apply elem_of_map_to_list.
Qed.

Lemma canonical_sorted entries : ssorted entry_key_bytes (canonical_entries entries).
Proof.
  apply sort_by_ssorted. unfold entry_key_bytes.
  assert ((λ e, key_bytes (ie_key e)) <$> (map_to_list (by_key entries)).*2
          = key_bytes <$> (map_to_list (by_key entries)).*1) as ->.
  { rewrite <-!list_fmap_compose. apply list_fmap_ext. intros i [k e] Hi.
    apply list_elem_of_lookup_2, elem_of_map_to_list, by_key_Some in Hi as [_ Hk]. simpl. by rewrite Hk. }
  apply NoDup_fmap_2; [apply _|]. apply NoDup_fst_map_to_list.
Qed.

Lemma canonical_subset entries e : e ∈ canonical_entries entries → e ∈ entries.
Proof. intros He%elem_of_canonical. by apply by_key_Some in He as [??]. Qed.

Lemma canonical_keys entries e :
  e ∈ entries → ∃ e', e' ∈ canonical_entries entries ∧ ie_key e' = ie_key e.
Proof.
  intros [e' He']%by_key_is_Some. exists e'. pose proof (by_key_Some _ _ _ He') as [_ Hk].
  split; [|done]. apply elem_of_canonical. by rewrite Hk.
Qed.

Lemma canonical_length entries : (length (canonical_entries entries) ≤ length entries)%nat.
Proof.
  apply submseteq_length, NoDup_submseteq.
  - apply (NoDup_fmap_1 entry_key_bytes), ssorted_NoDup, canonical_sorted.
  - intros e. apply canonical_subset.
Qed.

(** * The round trip *)

Lemma decode_entries_ok segment_id segment_len es fuel previous :
  Forall (entry_fits segment_id segment_len) es → segment_len ≤ U64_MAX →
  ssorted entry_key_bytes es →
  (∀ k e, previous = Some k → e ∈ es → key_bytes k ≺ entry_key_bytes e) →
  (length es < fuel)%nat →
  decode_entries fuel (concat (encode_index_entry <$> es)) segment_id segment_len previous = Ok es.
Proof.
  intros Hfit Hu. revert fuel previous.
  induction Hfit as [|e es He Hes IH]; intros [|fuel] previous Hs Hp Hf; try (simpl in Hf; lia).
  - done.
  - apply ssorted_cons in Hs as [Hlt Hs]. rewrite fmap_cons. cbn [concat decode_entries].
    assert (len (encode_index_entry e) = INDEX_ENTRY_BYTES) as Hl
      by (apply len_encode_index_entry, He).
    rewrite len_app, Hl.
    match goal with |- context [?n <? INDEX_ENTRY_BYTES] =>
      destruct (N.ltb_spec n INDEX_ENTRY_BYTES); [lia|] end.
    rewrite takeN_app, dropN_app by done. rewrite decode_encode_index_entry by done.
    replace (match previous with Some key => _ | None => false end) with false.
    2:{ destruct previous as [k|]; [|done]. symmetry.
        assert (key_bytes k ≺ entry_key_bytes e) as Hk by (apply Hp; [done|left]).
        unfold ble. apply bcmp_gt in Hk. unfold entry_key_bytes in Hk. by rewrite Hk. }
    rewrite IH; [done|done| |simpl in Hf; lia].
    intros k e' [= <-] He'. rewrite Forall_forall in Hlt. by apply Hlt.
Qed.

Lemma len_concat_entries es :
  Forall (λ e, len (ok_hash (ie_key e)) = 32) es →
  len (concat (encode_index_entry <$> es)) = len es * INDEX_ENTRY_BYTES.
Proof.
  induction 1 as [|e es He _ IH]; [done|]. rewrite fmap_cons. cbn [concat]. rewrite len_app, len_cons, IH.
  rewrite len_encode_index_entry by done. lia.
Qed.

(** The sidecar of a list of entries, without the checks. *)
Definition sidecar_bytes (segment_id segment_len : N) (entries : list IndexEntry) : bytes :=
  let canonical := canonical_entries entries in
  let body := sidecar_header segment_id segment_len (len canonical) (len canonical * INDEX_ENTRY_BYTES)
              ++ concat (encode_index_entry <$> canonical) in
  body ++ hash_bytes body.

Lemma encode_sidecar_ok segment_id segment_len entries :
  len (canonical_entries entries) ≤ MAX_SEGMENT_OBJECTS →
  encode_sidecar segment_id segment_len entries = Ok (sidecar_bytes segment_id segment_len entries).
Proof.
  intros Hn. unfold encode_sidecar.
  destruct (N.ltb_spec MAX_SEGMENT_OBJECTS (len (canonical_entries entries))); [lia|].
  unfold checked_mul64.
  assert (len (canonical_entries entries) * INDEX_ENTRY_BYTES ≤ U64_MAX) as Hm.
  { transitivity (MAX_SEGMENT_OBJECTS * INDEX_ENTRY_BYTES); [by apply N.mul_le_mono_r|by apply N.leb_le]. }
  apply N.leb_le in Hm. rewrite Hm. done.
Qed.

Lemma sidecar_header_fields segment_id segment_len count entries_len :
  let header := sidecar_header segment_id segment_len count entries_len in
  len header = INDEX_HEADER_BYTES ∧
  slice header 0 4 = INDEX_MAGIC ∧ slice header 4 5 = [INDEX_VERSION] ∧
  slice header 5 8 = zeros 3 ∧ slice header 8 16 = le_bytes 8 segment_id ∧
  slice header 16 24 = le_bytes 8 segment_len ∧ slice header 24 32 = le_bytes 8 count ∧
  slice header 32 40 = le_bytes 8 entries_len ∧ slice header 40 48 = zeros 8.
Proof.
  unfold sidecar_header. cbv zeta.
  split; [by autorewrite with sync|]. repeat split; field_read.
Qed.

Lemma decode_sidecar_bytes segment_id segment_len entries :
  Forall (entry_fits segment_id segment_len) entries →
  segment_id ≤ U64_MAX → segment_len ≤ U64_MAX →
  len (canonical_entries entries) ≤ MAX_SEGMENT_OBJECTS →
  decode_sidecar (sidecar_bytes segment_id segment_len entries) segment_id segment_len =
  Ok (canonical_entries entries).
Proof.
  intros Hfit Hid Hu Hn.
  assert (Forall (entry_fits segment_id segment_len) (canonical_entries entries)) as Hc.
  { rewrite Forall_forall in Hfit |- *. intros e He%canonical_subset. auto. }
  pose proof (canonical_sorted entries) as Hs.
  unfold sidecar_bytes. revert Hc Hs Hn. generalize (canonical_entries entries). intros es Hc Hs Hn.
  assert (len (concat (encode_index_entry <$> es)) = len es * INDEX_ENTRY_BYTES) as Hlen.
  { apply len_concat_entries. eapply Forall_impl; [exact Hc|]. by intros e []. }
  pose proof (sidecar_header_fields segment_id segment_len (len es) (len es * INDEX_ENTRY_BYTES))
    as (HH & F0 & F4 & F5 & F8 & F16 & F24 & F32 & F40).
  revert HH F0 F4 F5 F8 F16 F24 F32 F40.
  generalize (sidecar_header segment_id segment_len (len es) (len es * INDEX_ENTRY_BYTES)).
  intros H0 HH F0 F4 F5 F8 F16 F24 F32 F40.
  set (C := concat (encode_index_entry <$> es)) in *.
  unfold decode_sidecar.
  assert (len ((H0 ++ C) ++ hash_bytes (H0 ++ C)) =
          INDEX_HEADER_BYTES + len es * INDEX_ENTRY_BYTES + INDEX_TRAILER_BYTES) as Htot.
  { rewrite !len_app, HH, Hlen, len_hash_bytes. done. }
  rewrite Htot.
  match goal with |- context [?n <? ?m] => destruct (N.ltb_spec n m) as [Hbad|_] end.
  { exfalso. revert Hbad. apply N.le_ngt. unfold MAX_SIDECAR_BYTES.
    apply N.add_le_mono_r, N.add_le_mono_l, N.mul_le_mono_r, Hn. }
  match goal with |- context [?n <? ?m] => destruct (N.ltb_spec n m) as [Hbad|_] end; [lia|].
  rewrite <-app_assoc, (slice_hit H0) by done.
  assert (len es * INDEX_ENTRY_BYTES ≤ U64_MAX) as Hm.
  { transitivity (MAX_SEGMENT_OBJECTS * INDEX_ENTRY_BYTES); [by apply N.mul_le_mono_r|by apply N.leb_le]. }
  assert (len es ≤ U64_MAX) as Hm' by (transitivity MAX_SEGMENT_OBJECTS; [done|by apply N.leb_le]).
  set (n := len es) in *. set (m := n * INDEX_ENTRY_BYTES) in *.
  cbv zeta. rewrite F0, F4, F5, F8, F16, F24, F32, F40, !beq_refl. cbn [andb negb].
  rewrite !le_val_le_bytes by (by apply u64_bound). rewrite !N.eqb_refl. cbn [orb negb].
  destruct (N.ltb_spec MAX_SEGMENT_OBJECTS n); [lia|].
  unfold checked_mul64. fold m. rewrite (proj2 (N.leb_le m U64_MAX)) by done. cbn [ok_or].
  rewrite N.eqb_refl. cbn [negb]. unfold checked_add64.
  assert (INDEX_HEADER_BYTES + m + INDEX_TRAILER_BYTES ≤ U64_MAX) as Hsum.
  { transitivity MAX_SIDECAR_BYTES; [|by apply N.leb_le]. unfold MAX_SIDECAR_BYTES.
    apply N.add_le_mono_r, N.add_le_mono_l, N.mul_le_mono_r, Hn. }
  rewrite (proj2 (N.leb_le (INDEX_HEADER_BYTES + m) U64_MAX)) by lia. csimpl.
  rewrite (proj2 (N.leb_le (INDEX_HEADER_BYTES + m + INDEX_TRAILER_BYTES) U64_MAX)) by lia.
  cbn [ok_or]. rewrite N.eqb_refl. cbn [negb].
  assert (len (H0 ++ C) = INDEX_HEADER_BYTES + m) as HHC by (by rewrite len_app, HH, Hlen).
  rewrite (app_assoc H0 C), takeN_app, dropN_app, beq_refl by done. cbn [negb].
  rewrite <-app_assoc, slice_mid by (done || by rewrite Hlen).
  apply decode_entries_ok; [done..|].
  rewrite !length_app, hash_bytes_length. unfold m, n, len, INDEX_ENTRY_BYTES in Hlen.
  assert (length C = length es * 64)%nat by lia. lia.
Qed.

(** Loading the sidecar that was written for a segment gives back its
    entries in canonical form: one per key (the last), in key order. *)
Theorem sidecar_roundtrip segment_id segment_len entries :
  Forall (entry_fits segment_id segment_len) entries →
  segment_id ≤ U64_MAX → segment_len ≤ U64_MAX →
  len (canonical_entries entries) ≤ MAX_SEGMENT_OBJECTS →
  ∃ data, encode_sidecar segment_id segment_len entries = Ok data ∧
          decode_sidecar data segment_id segment_len = Ok (canonical_entries entries).
Proof.
  intros. eexists. split; [by apply encode_sidecar_ok|by apply decode_sidecar_bytes].
Qed.

(** The entries of a segment fit it. *)
Lemma segment_entry_fits segment_id os e :
  Forall object_valid os → e ∈ segment_entries_of segment_id os →
  entry_fits segment_id (len (segment_bytes segment_id os)) e.
Proof.
  intros Hv (pre & o & post & -> & ->)%entries_at_inv.
  apply Forall_app in Hv as [_ [Ho _]%Forall_cons].
  pose proof (object_valid_len o Ho) as [Hh Hb]. pose proof (len_record_bytes o Hh) as Hl.
  repeat split; try done.
  - cbn. lia.
  - apply record_crc_u32.
  - cbn [entry_at ie_location rl_record_offset rl_stored_len].
    fold (raw_len_of o). rewrite len_segment_bytes, records_app, records_cons, !len_app. lia.
Qed.

Lemma canonical_within segment_id os es :
  (∀ e, e ∈ es → e ∈ segment_entries_of segment_id os) → len (canonical_entries es) ≤ len os.
Proof.
  intros Hes. assert (length (canonical_entries es) ≤ length os)%nat; [|unfold len in *; lia].
  rewrite <-(length_entries_at segment_id SEGMENT_HEADER_BYTES os).
  apply submseteq_length, NoDup_submseteq.
  - apply (NoDup_fmap_1 entry_key_bytes), ssorted_NoDup, canonical_sorted.
  - intros e He%canonical_subset. by apply Hes.
Qed.

(** * Prefixes *)

Lemma prefix_by_len {A} (a b c : list A) :
  a `prefix_of` c → b `prefix_of` c → len a ≤ len b → a `prefix_of` b.
Proof.
  intros Ha Hb Hle. destruct (prefix_weak_total a b c Ha Hb) as [|Hba]; [done|].
  apply prefix_length_eq in Hba as ->; [done|]. unfold len in Hle. lia.
Qed.

(** A prefix of a list of records is some of them, and a torn one. *)
Lemma records_prefix os b :
  Forall object_valid os → b `prefix_of` records os →
  ∃ kept lost tail, os = kept ++ lost ∧ b = records kept ++ tail ∧
    (tail = [] ∨ (torn tail ∧ lost ≠ [])).
Proof.
  intros Hv. revert b. induction Hv as [|o os Ho Hos IH]; intros b Hb.
  { exists [], [], []. split; [done|]. split; [|by left]. by apply prefix_nil_inv in Hb. }
  rewrite records_cons in Hb. destruct (decide (len b < len (record_bytes o))) as [Hlt|Hge].
  - exists [], (o :: os), b. split; [done|]. split; [done|]. right. split; [|done].
    assert (b `prefix_of` record_bytes o) as [r Hr].
    { eapply prefix_by_len; [done|by apply prefix_app_r|lia]. }
    exists o, r. split_and!; [done|done|]. intros ->. rewrite app_nil_r in Hr. rewrite Hr in Hlt. lia.
  - assert (record_bytes o `prefix_of` b) as [b' ->].
    { eapply prefix_by_len; [by apply prefix_app_r|done|lia]. }
    apply prefix_app_inv in Hb. destruct (IH b' Hb) as (kept & lost & tail & -> & -> & Ht).
    exists (o :: kept), lost, tail. rewrite records_cons, <-app_assoc. done.
Qed.
End sidecar.
