(* ===== verification/PackStore.v ===== *)
(** src/crates/sync-server/src/pack_store.rs, [PackStore]: the object store on
    a disk that fails and crashes.

    - [SegFile] is a segment file: its visible bytes, the contents it had
      since the last [sync_data], how many leading bytes are durable and
      whether its directory entry is. The name of a sidecar is a [SideFile].
      A crash ([pk_survives]) leaves of a segment a prefix
      of one of its contents that has at least the durable bytes, and of a
      sidecar name any of its contents, whole; temporary files may be left.
      That what is lost of an append is its end, with no zeros or garbage in
      its place, is an assumption on the file system.
    - Every operation of the operating system consumes a [Fate]: it is done,
      or it fails ([Fails n] of a write has written [n] bytes). An empty list
      of fates is a run without faults. [Path::exists] is taken as reliable;
      the reads of one scan fail as one operation.
    - The index ([RwLock<HashMap>]) is part of the state. No code panics while
      it holds the lock, so the lock is never poisoned. Performance counters
      are left out. The active segment is a value: [append_group] returns the
      new one, and after an error its only callers drop it. *)

From S2P Require Import Prelude Bytes Keyed Hash Chunk Faults RootHead Crc32c PackFormat.
Local Open Scope N_scope.

(** * Files *)

Record SegFile := {
  sf_bytes : bytes;
  sf_old : list bytes;
  sf_synced : N;
  sf_linked : bool;
}.

Definition sf_created : SegFile :=
  {| sf_bytes := []; sf_old := []; sf_synced := 0; sf_linked := false |}.
Definition sf_write (offset : N) (data : bytes) (f : SegFile) : SegFile :=
  {| sf_bytes := takeN offset (sf_bytes f) ++ data ++ dropN (offset + len data) (sf_bytes f);
     sf_old := sf_bytes f :: sf_old f;
     sf_synced := N.min (sf_synced f) offset;
     sf_linked := sf_linked f |}.
Definition sf_set_len (offset : N) (f : SegFile) : SegFile :=
  {| sf_bytes := takeN offset (sf_bytes f);
     sf_old := sf_bytes f :: sf_old f;
     sf_synced := N.min (sf_synced f) offset;
     sf_linked := sf_linked f |}.
Definition sf_sync (f : SegFile) : SegFile :=
  {| sf_bytes := sf_bytes f; sf_old := []; sf_synced := len (sf_bytes f); sf_linked := sf_linked f |}.
Definition sf_link (f : SegFile) : SegFile :=
  {| sf_bytes := sf_bytes f; sf_old := sf_old f; sf_synced := sf_synced f; sf_linked := true |}.

(** A file nothing can happen to any more. *)
Definition sf_stable (content : bytes) : SegFile :=
  {| sf_bytes := content; sf_old := []; sf_synced := len content; sf_linked := true |}.

Definition sf_survives (f f' : SegFile) : Prop :=
  ∃ content c,
    f' = sf_stable content ∧ c ∈ sf_bytes f :: sf_old f ∧ content `prefix_of` c ∧
    takeN (sf_synced f) (sf_bytes f) `prefix_of` content.

(** * The disk *)

Record PackDisk := {
  pk_segments : gmap N SegFile;
  pk_sidecars : gmap N SideFile;
  pk_loose : gmap ObjectKey bytes;
  pk_stray : list bytes;
}.

Definition pk_empty : PackDisk :=
  {| pk_segments := ∅; pk_sidecars := ∅; pk_loose := ∅; pk_stray := [] |}.

Definition pk_sidecar (id : N) (d : PackDisk) : SideFile := default sd_absent (pk_sidecars d !! id).
Definition pk_set_segment (id : N) (f : SegFile) (d : PackDisk) : PackDisk :=
  {| pk_segments := <[id := f]> (pk_segments d); pk_sidecars := pk_sidecars d;
     pk_loose := pk_loose d; pk_stray := pk_stray d |}.
Definition pk_alter_segment (id : N) (g : SegFile → SegFile) (d : PackDisk) : PackDisk :=
  {| pk_segments := alter g id (pk_segments d); pk_sidecars := pk_sidecars d;
     pk_loose := pk_loose d; pk_stray := pk_stray d |}.
Definition pk_set_sidecar (id : N) (c : option bytes) (d : PackDisk) : PackDisk :=
  {| pk_segments := pk_segments d;
     pk_sidecars := <[id := sd_set c (pk_sidecar id d)]> (pk_sidecars d);
     pk_loose := pk_loose d; pk_stray := pk_stray d |}.

(** Synchronising the segments directory. *)
Definition pk_sync_directory (d : PackDisk) : PackDisk :=
  {| pk_segments := sf_link <$> pk_segments d; pk_sidecars := sd_sync <$> pk_sidecars d;
     pk_loose := pk_loose d; pk_stray := pk_stray d |}.

Definition pk_survives (d d' : PackDisk) : Prop :=
  (∀ id, match pk_segments d !! id, pk_segments d' !! id with
         | Some f, Some f' => sf_survives f f'
         | Some f, None => sf_linked f = false
         | None, Some _ => False
         | None, None => True
         end) ∧
  (∀ id, sd_survives (pk_sidecar id d) (pk_sidecar id d')) ∧
  pk_loose d' = pk_loose d ∧
  (∀ name, name ∈ pk_stray d' → name ∈ pk_stray d ∨ ends_with name (str ".pack") = false).

(** * The state and the operating system *)

Abbreviation PackWorld := (World PackDisk (gmap ObjectKey RecordLocation)).
Abbreviation w_index := w_extra.
Abbreviation w_set_index := w_set_extra.
Abbreviation Pack := (St PackWorld string).

Definition sync_directory : Pack unit := os_try "sync failed" pk_sync_directory.

(** * Names *)

(** A digit of [{:x}]. *)
Definition hex_digit (n : N) : byte := n2b (if n <? 10 then 0x30 + n else 0x57 + n).
Definition digit_value (b : byte) : N := if b2n b <? 0x3a then b2n b - 0x30 else b2n b - 0x57.
Definition is_lower_hex_digit (b : byte) : bool :=
  in_range 0x30 (b2n b) 0x39 || in_range 0x61 (b2n b) 0x66.

(** The [k] low digits of [n], leading zeros included. *)
Fixpoint hex_digits (k : nat) (n : N) : bytes :=
  match k with O => [] | S k => hex_digits k (n / 16) ++ [hex_digit (n mod 16)] end.

(** [u64::from_str_radix(_, 16)] of lower-case digits. *)
Definition from_hex (digits : bytes) : N := foldl (λ acc b, 16 * acc + digit_value b) 0 digits.

(** The file names of [object_segment_path] and [object_segment_index_path]. *)
Definition segment_file_name (id : N) : bytes := hex_digits 16 id ++ str ".pack".
Definition sidecar_file_name (id : N) : bytes := hex_digits 16 id ++ str ".idx".

(** [str::strip_suffix]. *)
Definition strip_suffix (s suffix : bytes) : option bytes :=
  if ends_with s suffix then Some (take (length s - length suffix) s) else None.

(** The body of the loop of [list_segment_ids]. *)
Definition segment_id_of_name (name : bytes) : option N :=
  match strip_suffix name (str ".pack") with
  | None => None
  | Some stem =>
      if (len stem =? 16) && forallb is_lower_hex_digit stem then Some (from_hex stem) else None
  end.

(** [read_dir] of the segments directory: sidecars that are visible, other
    files, segments. *)
Definition directory_names (d : PackDisk) : list bytes :=
  omap (λ x, match sd_visible x.2 with Some _ => Some (sidecar_file_name x.1) | None => None end)
    (map_to_list (pk_sidecars d))
  ++ pk_stray d ++ ((λ x, segment_file_name x.1) <$> map_to_list (pk_segments d)).

Definition list_segment_ids : Pack (list N) :=
  let! _ := os_read "read_dir failed" in
  let! d := get_disk in
  st_ret (omap segment_id_of_name (directory_names d)).

(** [sort_unstable] and [dedup] on ids. *)
Definition sorted_ids (ids : list N) : list N := remove_dups (merge_sort N.le ids).

(** * Segments on the disk *)

Record ActiveSegment := { as_id : N; as_len : N; as_entries : list IndexEntry }.

Inductive CommitFault := NoCommitFault | AfterAppendBeforeSync | AfterSyncBeforePublish | AfterPublishBeforeReply.

#[global] Instance CommitFault_eq_dec : EqDecision CommitFault.
Proof. solve_decision. Defined.

Definition segment_content (id : N) : Pack bytes :=
  let! _ := os_read "open failed" in
  let! d := get_disk in
  st_lift (ok_or (sf_bytes <$> pk_segments d !! id) "open failed"%string).

Definition create_active_segment (id : N) : Pack ActiveSegment :=
  let! d := get_disk in
  if bool_decide (is_Some (pk_segments d !! id)) then st_err "file exists"%string
  else
    let! _ := os_try "open failed" (pk_set_segment id sf_created) in
    let header := segment_header id in
    let! _ := os_call "write failed" (pk_alter_segment id (sf_write 0 header))
                (λ n, pk_alter_segment id (sf_write 0 (takeN n header))) in
    let! _ := os_try "sync failed" (pk_alter_segment id sf_sync) in
    let! _ := sync_directory in
    st_ret {| as_id := id; as_len := SEGMENT_HEADER_BYTES; as_entries := [] |}.

Definition initialize_segment_file (id : N) : Pack unit :=
  let! _ := os_try "open failed" (pk_alter_segment id (sf_set_len 0)) in
  let header := segment_header id in
  let! _ := os_call "write failed" (pk_alter_segment id (sf_write 0 header))
              (λ n, pk_alter_segment id (sf_write 0 (takeN n header))) in
  let! _ := os_try "sync failed" (pk_alter_segment id sf_sync) in
  sync_directory.

Definition open_active_segment (id : N) (entries : list IndexEntry) : Pack ActiveSegment :=
  let! content := segment_content id in
  st_ret {| as_id := id; as_len := len content; as_entries := entries |}.

Definition truncate_segment_tail (id offset : N) : Pack unit :=
  let! _ := os_try "set_len failed" (pk_alter_segment id (sf_set_len offset)) in
  os_try "sync failed" (pk_alter_segment id sf_sync).

Definition rollback_segment (active : ActiveSegment) (offset : N) : Pack ActiveSegment :=
  let! _ := os_try "set_len failed" (pk_alter_segment (as_id active) (sf_set_len offset)) in
  let! _ := os_try "sync failed" (pk_alter_segment (as_id active) sf_sync) in
  st_ret {| as_id := as_id active; as_len := offset; as_entries := as_entries active |}.

(** [replace_file]: rename, and when that fails move the target away first. *)
Definition replace_file (id : N) (data : bytes) : Pack unit :=
  let! renamed := os_result (os_try "rename failed" (pk_set_sidecar id (Some data))) in
  match renamed with
  | Ok _ => st_ret tt
  | Err _ =>
      let! d := get_disk in
      let existing := sd_visible (pk_sidecar id d) in
      let! _ := match existing with
                | Some _ => os_try "rename failed" (pk_set_sidecar id None)
                | None => st_ret tt
                end in
      let! again := os_result (os_try "rename failed" (pk_set_sidecar id (Some data))) in
      match again with
      | Ok _ => st_ret tt
      | Err e =>
          let! _ := match existing with
                    | Some _ => os_result (os_try "rename failed" (pk_set_sidecar id existing))
                    | None => st_ret (Ok tt)
                    end in
          st_err e
      end
  end.

Section store.
Context {B3 : Blake3} {HX : Hex} {JV : JsonValue}.

Definition write_sidecar (id segment_len : N) (entries : list IndexEntry) : Pack unit :=
  let! data := st_lift (encode_sidecar id segment_len entries) in
  let! _ := os_read "write failed" in
  let! _ := replace_file id data in
  sync_directory.

Definition load_sidecar (id segment_len : N) : Pack (list IndexEntry) :=
  let! _ := os_read "read failed" in
  let! d := get_disk in
  let! data := st_lift (ok_or (sd_visible (pk_sidecar id d)) "read failed"%string) in
  st_lift (decode_sidecar data id segment_len).

Definition scan_segment (id : N) (allow_tail_truncate : bool) : Pack ScannedSegment :=
  let! content := segment_content id in
  let! '(scan, truncate) := st_lift (scan_content content id allow_tail_truncate) in
  if truncate then
    let! _ := truncate_segment_tail id (ss_segment_len scan) in st_ret scan
  else st_ret scan.

(** * The index *)

Definition publish_into (entries : list IndexEntry) (index : gmap ObjectKey RecordLocation)
    : gmap ObjectKey RecordLocation :=
  foldl (λ m e, <[ie_key e := ie_location e]> m) index entries.

Definition publish_entries (entries : list IndexEntry) : Pack unit := λ w,
  (Ok tt, w_set_index (publish_into entries (w_index w)) w).

Definition current_entries_for_segment (id : N) : Pack (list IndexEntry) := λ w,
  (Ok (omap (λ kl : ObjectKey * RecordLocation,
               if rl_segment_id kl.2 =? id
               then Some {| ie_key := kl.1; ie_location := kl.2 |} else None)
         (map_to_list (w_index w))), w).

Definition hide_location (key : ObjectKey) (location : RecordLocation) : Pack unit := λ w,
  if bool_decide (w_index w !! key = Some location) then
    let w := w_set_index (delete key (w_index w)) w in
    let id := rl_segment_id location in
    match sd_visible (pk_sidecar id (w_disk w)) with
    | None => (Ok tt, w)
    | Some _ =>
        match os_try "remove failed" (pk_set_sidecar id None) w with
        | (Ok _, w) => (Ok tt, snd (sync_directory w))
        | (Err _, w) => (Ok tt, w)
        end
    end
  else (Ok tt, w).

(** * Reading *)

Inductive PackReadError := Corrupt (message : string) | Io (message : string).

Definition read_location (key : ObjectKey) (location : RecordLocation)
    : St PackWorld PackReadError bytes := λ w,
  match segment_content (rl_segment_id location) w with
  | (Err e, w) => (Err (Io e), w)
  | (Ok content, w) => (map_err Corrupt (read_record content key location), w)
  end.

Definition read_loose_verified (key : ObjectKey) : Pack (option bytes) := λ w,
  match os_read "read failed" w with
  | (Err _, w) => (Ok None, w)
  | (Ok _, w) =>
      (Ok (data ← pk_loose (w_disk w) !! key;
           if is_ok (validate_bytes (ok_kind key) (ok_hash key) data) then Some data else None), w)
  end.

Definition read (key : ObjectKey) : St PackWorld PackReadError (option bytes) := λ w,
  match w_index w !! key with
  | Some location =>
      match read_location key location w with
      | (Ok data, w) => (Ok (Some data), w)
      | (Err error, w) =>
          let w := snd (hide_location key location w) in
          match read_loose_verified key w with
          | (Ok (Some data), w) => (Ok (Some data), w)
          | (_, w) => (Err error, w)
          end
      end
  | None =>
      match read_loose_verified key w with
      | (Ok found, w) => (Ok found, w)
      | (Err _, w) => (Ok None, w)
      end
  end.

Definition read_pack_only (key : ObjectKey) : St PackWorld PackReadError (option bytes) := λ w,
  match w_index w !! key with
  | Some location =>
      match read_location key location w with
      | (Ok data, w) => (Ok (Some data), w)
      | (Err error, w) => (Err error, snd (hide_location key location w))
      end
  | None => (Ok None, w)
  end.

Definition indexed (key : ObjectKey) (w : PackWorld) : bool := bool_decide (is_Some (w_index w !! key)).

Definition contains (key : ObjectKey) : Pack bool := λ w,
  if indexed key w then (Ok true, w)
  else match read_loose_verified key w with
       | (Ok found, w) => (Ok (bool_decide (is_Some found)), w)
       | (Err _, w) => (Ok false, w)
       end.

Record ScrubStats := { sc_checked : N; sc_corrupted : N }.

(** The entries are those of the index when the scrub starts. *)
Definition scrub_step (stats : ScrubStats) (kl : ObjectKey * RecordLocation) : Pack ScrubStats := λ w,
  match read_location kl.1 kl.2 w with
  | (Ok _, w) =>
      (Ok {| sc_checked := sc_checked stats + 1; sc_corrupted := sc_corrupted stats |}, w)
  | (Err _, w) =>
      (Ok {| sc_checked := sc_checked stats + 1; sc_corrupted := sc_corrupted stats + 1 |},
       snd (hide_location kl.1 kl.2 w))
  end.

Definition scrub_once : Pack ScrubStats := λ w,
  st_fold scrub_step {| sc_checked := 0; sc_corrupted := 0 |} (map_to_list (w_index w)) w.

(** * Appending *)

(** The loop over [write_record]: the bytes sent to the output and the
    entries with the next offset. *)
Fixpoint write_group (id offset : N) (objects : list PackedObject)
    : bytes * IoResult (list IndexEntry * N) :=
  match objects with
  | [] => ([], Ok ([], offset))
  | o :: objects =>
      match write_record id offset o with
      | (data, Err e) => (data, Err e)
      | (data, Ok (entry, next_offset)) =>
          match write_group id next_offset objects with
          | (rest, Err e) => (data ++ rest, Err e)
          | (rest, Ok (entries, end_offset)) => (data ++ rest, Ok (entry :: entries, end_offset))
          end
      end
  end.

Fixpoint validate_all (objects : list PackedObject) : IoResult unit :=
  match objects with
  | [] => Ok tt
  | o :: objects => let? _ := validate_object o in validate_all objects
  end.

(** [payload_bytes] of [append_group]. *)
Fixpoint group_payload_bytes (total : N) (objects : list PackedObject) : IoResult N :=
  match objects with
  | [] => Ok total
  | o :: objects =>
      let? total := ok_or (checked_add64 total (len (po_bytes o)))
                      "group payload length overflow"%string in
      group_payload_bytes total objects
  end.

Definition seal_active (active : ActiveSegment) : Pack ActiveSegment :=
  let! entries := current_entries_for_segment (as_id active) in
  let! _ := write_sidecar (as_id active) (as_len active) entries in
  let! next_id := st_lift (ok_or (checked_add64 (as_id active) 1) "segment id overflow"%string) in
  create_active_segment next_id.

Definition append_group (active : ActiveSegment) (objects : list PackedObject) (fault : CommitFault)
    : Pack ActiveSegment :=
  if bool_decide (objects = []) then st_ret active
  else
    let! _ := st_lift (validate_all objects) in
    let group_start := as_len active in
    let id := as_id active in
    let '(data, written) := write_group id group_start objects in
    let! _ := os_call "write failed" (pk_alter_segment id (sf_write group_start data))
                (λ n, pk_alter_segment id (sf_write group_start (takeN n data))) in
    let! '(entries, offset) := st_lift written in
    let active := {| as_id := id; as_len := offset; as_entries := as_entries active |} in
    if MAX_SEGMENT_BYTES <? offset then
      let! _ := rollback_segment active group_start in
      st_err "active segment exceeds hard byte limit"%string
    else if MAX_SEGMENT_OBJECTS <? len (as_entries active) + len entries then
      let! _ := rollback_segment active group_start in
      st_err "active segment exceeds hard object limit"%string
    else if bool_decide (fault = AfterAppendBeforeSync)
    then st_err "injected crash before segment fdatasync"%string
    else
      let! _ := os_try "sync failed" (pk_alter_segment id sf_sync) in
      let! _ := st_lift (group_payload_bytes 0 objects) in
      if bool_decide (fault = AfterSyncBeforePublish)
      then st_err "injected crash after segment fdatasync"%string
      else
        let! _ := publish_entries entries in
        let active := {| as_id := id; as_len := offset; as_entries := as_entries active ++ entries |} in
        if bool_decide (fault = AfterPublishBeforeReply)
        then st_err "injected response loss after index publication"%string
        else if (SEGMENT_TARGET_BYTES <=? as_len active)
                || (SEGMENT_OBJECT_TARGET <=? len (as_entries active))
        then seal_active active
        else st_ret active.

(** * Opening *)

(** The branch of the loop of [open] for a segment with a visible sidecar. *)
Definition open_sealed (id pack_len : N) : Pack (list IndexEntry) :=
  let! loaded := os_result (load_sidecar id pack_len) in
  match loaded with
  | Ok entries => st_ret entries
  | Err _ =>
      let! scan := scan_segment id false in
      let! _ := write_sidecar id (ss_segment_len scan) (ss_entries scan) in
      st_ret (ss_entries scan)
  end.

(** One turn of the loop of [open]: the active segment, when this is it. *)
Definition open_segment (id : N) (is_last : bool) : Pack (option ActiveSegment) :=
  let! content := segment_content id in
  let pack_len := len content in
  let! d := get_disk in
  let index_exists := bool_decide (is_Some (sd_visible (pk_sidecar id d))) in
  if is_last && negb index_exists && (pack_len <? SEGMENT_HEADER_BYTES) then
    let! _ := initialize_segment_file id in
    let! active := open_active_segment id [] in
    st_ret (Some active)
  else
    let! header := segment_content id in
    let! _ := st_lift (validate_segment_header header id) in
    if index_exists then
      let! entries := open_sealed id pack_len in
      let! _ := publish_entries entries in
      st_ret None
    else if is_last then
      let! scan := scan_segment id true in
      let! _ := publish_entries (ss_entries scan) in
      let! active := open_active_segment id (ss_entries scan) in
      st_ret (Some active)
    else
      let! scan := scan_segment id false in
      let! _ := write_sidecar id (ss_segment_len scan) (ss_entries scan) in
      let! _ := publish_entries (ss_entries scan) in
      st_ret None.

Fixpoint open_segments (ids : list N) (active : option ActiveSegment) : Pack (option ActiveSegment) :=
  match ids with
  | [] => st_ret active
  | id :: ids =>
      let! opened := open_segment id (bool_decide (ids = [])) in
      open_segments ids (match opened with Some a => Some a | None => active end)
  end.

Definition open : Pack ActiveSegment :=
  let! _ := os_read "create directories failed" in
  let! listed := list_segment_ids in
  let segment_ids := sorted_ids listed in
  let! active := open_segments segment_ids None in
  match active with
  | Some active => st_ret active
  | None =>
      let! next_id := st_lift (ok_or (checked_add64 (default 0 (last segment_ids)) 1)
                                 "segment id overflow"%string) in
      create_active_segment next_id
  end.

End store.
