(* ===== verification/PackInvariant.v ===== *)
(** The invariant of the pack store on a disk that fails and crashes, and the
    program logic its operations are verified with.

    [ghost] maps every adopted segment to the records that are durable in it.
    [disk_inv] holds at every moment, [alive] while the writer has not met an
    error, [settled] after a crash. [W] is any property of the objects the
    store was asked to write: what is found in it has it. *)

From S2P Require Import Prelude Bytes Keyed Hash Chunk Faults RootHead Crc32c PackFormat PackFormatProps.
From S2P Require Import PackFormatProps PackStore.
Local Open Scope N_scope.

Abbreviation Index := (gmap ObjectKey RecordLocation).
Abbreviation assertion := (PackDisk → Index → Prop).

(** * Segments *)

Abbreviation Ghost := (gmap N (list PackedObject)).

Section inv.
Context {B3 : Blake3} {HX : Hex} {JV : JsonValue}.
Context (W : PackedObject → Prop).

Definition good (o : PackedObject) : Prop := object_valid o ∧ W o.

(** Records that may be in one segment. *)
Definition seg_limits (id : N) (os : list PackedObject) : Prop :=
  Forall good os ∧ len (segment_bytes id os) ≤ MAX_SEGMENT_BYTES ∧ len os ≤ MAX_SEGMENT_OBJECTS.

Definition sf_contents (f : SegFile) : list bytes := sf_bytes f :: sf_old f.

(** The records [os] survive any crash, and only complete or torn records
    follow them. *)
Definition seg_durable (id : N) (os : list PackedObject) (f : SegFile) : Prop :=
  ∃ pend, seg_limits id (os ++ pend) ∧ sf_linked f = true ∧
    segment_bytes id os `prefix_of` takeN (sf_synced f) (sf_bytes f) ∧
    Forall (λ c, c `prefix_of` segment_bytes id (os ++ pend)) (sf_contents f).

Definition seg_exact (id : N) (os : list PackedObject) (f : SegFile) : Prop :=
  f = sf_stable (segment_bytes id os) ∧ seg_limits id os.

Definition seg_fresh (id : N) (f : SegFile) : Prop :=
  Forall (λ c, c `prefix_of` segment_header id) (sf_contents f).

Lemma seg_limits_valid id os : seg_limits id os → Forall object_valid os.
Proof. intros [H _]. eapply Forall_impl; [exact H|]. by intros o []. Qed.

Lemma seg_limits_app id os os' : seg_limits id (os ++ os') → seg_limits id os.
Proof.
  intros (H & Hl & Hn). apply Forall_app in H as [H _]. rewrite segment_bytes_app, len_app in Hl.
  rewrite len_app in Hn. split_and!; [done|lia..].
Qed.

Lemma takeN_len {A} (l : list A) : takeN (len l) l = l.
Proof. apply takeN_all. lia. Qed.

Lemma seg_exact_durable id os f : seg_exact id os f → seg_durable id os f.
Proof.
  intros [-> Hl]. exists []. rewrite app_nil_r. cbn [sf_stable sf_bytes sf_synced sf_linked].
  rewrite takeN_len. split_and!; [done..|]. by repeat constructor.
Qed.

Lemma seg_durable_bytes id os f : seg_durable id os f → segment_bytes id os `prefix_of` sf_bytes f.
Proof.
  intros (pend & _ & _ & Hp & _). etrans; [exact Hp|]. apply prefix_take.
Qed.

Lemma seg_durable_limits id os f : seg_durable id os f → seg_limits id os.
Proof. intros (pend & Hl & _). by eapply seg_limits_app. Qed.

Lemma takeN_prefix n (data : bytes) : takeN n data `prefix_of` data.
Proof. apply prefix_take. Qed.

Lemma takeN_app_ge n (l l' : bytes) : len l ≤ n → l `prefix_of` takeN n (l ++ l').
Proof.
  intros Hn. unfold takeN, len in *. rewrite take_app_ge by lia. by apply prefix_app_r.
Qed.

(** Appending at the end of a complete segment, all of it or a part. *)
Lemma seg_append id os new data f :
  seg_exact id os f → seg_limits id (os ++ new) → data `prefix_of` records new →
  seg_durable id os (sf_write (len (segment_bytes id os)) data f).
Proof.
  intros [-> _] Hl Hd. exists new.
  unfold sf_write, sf_contents, sf_stable; cbn [sf_bytes sf_old sf_synced sf_linked].
  rewrite takeN_len, N.min_id. split_and!; [done|done| |].
  - apply takeN_app_ge. lia.
  - rewrite (segment_bytes_app id os new). constructor.
    + apply prefix_app. assert (dropN (len (segment_bytes id os) + len data) (segment_bytes id os) = []) as ->.
      { apply len_0. rewrite len_dropN. lia. }
      by rewrite app_nil_r.
    + repeat constructor. by apply prefix_app_r.
Qed.

Lemma seg_append_sync id os new f :
  seg_exact id os f → seg_limits id (os ++ new) →
  seg_exact id (os ++ new) (sf_sync (sf_write (len (segment_bytes id os)) (records new) f)).
Proof.
  intros [-> _] Hl. split; [|done].
  unfold sf_sync, sf_write, sf_stable; cbn [sf_bytes sf_old sf_synced sf_linked].
  assert (dropN (len (segment_bytes id os) + len (records new)) (segment_bytes id os) = []) as ->.
  { apply len_0. rewrite len_dropN. lia. }
  by rewrite takeN_len, app_nil_r, <-segment_bytes_app.
Qed.

(** Cutting a segment behind its durable records. *)
Lemma seg_set_len id os f :
  seg_durable id os f → seg_durable id os (sf_set_len (len (segment_bytes id os)) f).
Proof.
  intros Hd. pose proof (seg_durable_bytes _ _ _ Hd) as Hb.
  destruct Hd as (pend & Hl & Hlink & Hp & Hc). exists pend.
  unfold sf_set_len, sf_contents; cbn [sf_bytes sf_old sf_synced sf_linked].
  destruct Hb as [rest Hb]. rewrite Hb, takeN_app by done.
  split_and!; [done|done| |].
  - assert (len (segment_bytes id os) ≤ sf_synced f).
    { apply prefix_length in Hp. unfold takeN in Hp. rewrite length_take in Hp. unfold len. lia. }
    rewrite takeN_all by lia. done.
  - apply Forall_cons in Hc as [Hc1 Hc2]. rewrite Hb in Hc1. constructor; [|by constructor].
    etrans; [|exact Hc1]. by apply prefix_app_r.
Qed.

Lemma seg_sync_cut id os f :
  seg_durable id os f →
  seg_exact id os (sf_sync (sf_set_len (len (segment_bytes id os)) f)).
Proof.
  intros Hd. pose proof (seg_durable_bytes _ _ _ Hd) as [rest Hb].
  pose proof (seg_durable_limits _ _ _ Hd) as Hl.
  destruct Hd as (pend & _ & Hlink & _ & _). split; [|done].
  unfold sf_sync, sf_set_len, sf_stable; cbn [sf_bytes sf_linked].
  by rewrite Hb, takeN_app, Hlink.
Qed.

Lemma seg_link id os f : seg_durable id os f → seg_durable id os (sf_link f).
Proof. intros (pend & Hl & Hlink & Hp & Hc). by exists pend. Qed.

Lemma seg_link_exact id os f : seg_exact id os f → seg_exact id os (sf_link f).
Proof. by intros [-> Hl]. Qed.

(** What a crash leaves of a segment. *)
Lemma seg_crash id os f f' :
  seg_durable id os f → sf_survives f f' →
  ∃ new tail, f' = sf_stable (segment_bytes id (os ++ new) ++ tail) ∧
    seg_durable id (os ++ new) f' ∧ (tail = [] ∨ torn tail).
Proof.
  intros (pend & Hl & Hlink & Hp & Hc) (content & c & -> & Hin & Hpre & Hkeep).
  rewrite Forall_forall in Hc. specialize (Hc c Hin).
  assert (segment_bytes id os `prefix_of` content) as [rest ->] by (by etrans).
  assert (rest `prefix_of` records pend) as Hrest.
  { eapply (prefix_app_inv (segment_bytes id os)). rewrite <-segment_bytes_app. by etrans. }
  pose proof (seg_limits_valid _ _ Hl) as Hv. apply Forall_app in Hv as [_ Hv].
  destruct (records_prefix pend rest Hv Hrest) as (kept & lost & tail & -> & -> & Ht).
  exists kept, tail. rewrite segment_bytes_app, app_assoc. split_and!; [done| |naive_solver].
  exists lost. cbn [sf_stable sf_linked sf_synced sf_bytes]. rewrite takeN_len, <-app_assoc.
  split_and!; [done|done| |].
  - rewrite segment_bytes_app. by apply prefix_app_r.
  - repeat constructor. etrans; [|exact Hc]. etrans; [|exact Hpre]. by rewrite <-app_assoc.
Qed.

Lemma seg_fresh_crash id f f' : seg_fresh id f → sf_survives f f' → seg_fresh id f'.
Proof.
  intros Hf (content & c & -> & Hin & Hpre & _). unfold seg_fresh in Hf. rewrite Forall_forall in Hf.
  repeat constructor. etrans; [exact Hpre|auto].
Qed.

Lemma seg_fresh_cut id f : seg_fresh id f → seg_fresh id (sf_set_len 0 f).
Proof. intros Hf. constructor; [|done]. apply prefix_nil. Qed.

Lemma seg_fresh_write id data f :
  seg_fresh id f → sf_bytes f = [] → data `prefix_of` segment_header id →
  seg_fresh id (sf_write 0 data f).
Proof.
  intros Hf Hb Hd. constructor; [|done]. cbn [sf_write sf_bytes]. rewrite Hb.
  unfold takeN, dropN. by rewrite take_nil, drop_nil, app_nil_r.
Qed.

Lemma seg_fresh_sync id f : seg_fresh id f → seg_fresh id (sf_sync f).
Proof. intros Hf. apply Forall_cons in Hf as [Hf _]. by repeat constructor. Qed.

Lemma seg_fresh_created id : seg_fresh id sf_created.
Proof. repeat constructor. apply prefix_nil. Qed.

Lemma seg_fresh_exact id f :
  sf_bytes f = [] →
  seg_exact id [] (sf_link (sf_sync (sf_write 0 (segment_header id) f))).
Proof.
  intros Hb. split.
  - unfold sf_link, sf_sync, sf_write, sf_stable, segment_bytes; cbn [sf_bytes sf_old sf_synced sf_linked].
    rewrite Hb. unfold takeN, dropN, records. by rewrite take_nil, drop_nil, !app_nil_r.
  - split_and!; [done| |done]. unfold segment_bytes, records. by rewrite len_app, len_segment_header.
Qed.

(** * The disk *)

Definition is_top (id : N) (d : PackDisk) : Prop := ∀ id', is_Some (pk_segments d !! id') → id' ≤ id.
Definition no_sidecar (id : N) (d : PackDisk) : Prop := ∀ c, Some c ∉ sd_contents (pk_sidecar id d).

(** A sidecar with entries of its segment for every key in it. *)
Definition sidecar_for (id : N) (os : list PackedObject) (c : bytes) : Prop :=
  ∃ es, c = sidecar_bytes id (len (segment_bytes id os)) es ∧
    (∀ e, e ∈ es → e ∈ segment_entries_of id os) ∧
    (∀ o, o ∈ os → ∃ e, e ∈ es ∧ ie_key e = object_key o).

Record disk_inv (g : Ghost) (d : PackDisk) : Prop := {
  di_durable : ∀ id os, g !! id = Some os → ∃ f, pk_segments d !! id = Some f ∧ seg_durable id os f;
  di_fresh : ∀ id f, pk_segments d !! id = Some f → g !! id = None → seg_fresh id f ∧ is_top id d;
  di_exact : ∀ id os f, g !! id = Some os → pk_segments d !! id = Some f →
    seg_exact id os f ∨ (is_top id d ∧ no_sidecar id d);
  di_sidecar : ∀ id c, Some c ∈ sd_contents (pk_sidecar id d) →
    ∃ os, g !! id = Some os ∧ sidecar_for id os c;
  di_ids : ∀ id, is_Some (pk_segments d !! id) → id ≤ U64_MAX;
  di_stray : ∀ name, name ∈ pk_stray d → segment_id_of_name name = None;
}.

(** The ghost grows. *)
Definition ghost_le (g g' : Ghost) : Prop :=
  ∀ id os, g !! id = Some os → ∃ new, g' !! id = Some (os ++ new).

#[global] Instance ghost_le_preorder : PreOrder ghost_le.
Proof.
  split.
  - intros g id os H. exists []. by rewrite app_nil_r.
  - intros g1 g2 g3 H12 H23 id os H. destruct (H12 _ _ H) as [new H']. destruct (H23 _ _ H') as [new' H''].
    exists (new ++ new'). by rewrite app_assoc.
Qed.

Lemma ghost_le_insert g id os new :
  g !! id = Some os ∨ (g !! id = None ∧ os = []) → ghost_le g (<[id := os ++ new]> g).
Proof.
  intros Hg id' os' H'. destruct (decide (id = id')) as [<-|Hne].
  - rewrite lookup_insert_eq. destruct Hg as [Hg|[Hg _]]; simplify_eq. by exists new.
  - rewrite lookup_insert_ne by done. exists []. by rewrite app_nil_r.
Qed.

(** ** The operations on the disk keep the invariant *)

Lemma is_top_alter id k h d : is_top id d → is_top id (pk_alter_segment k h d).
Proof.
  intros H id' Hs. apply H. cbn [pk_alter_segment pk_segments] in Hs.
  destruct (decide (k = id')) as [->|]; [|by rewrite lookup_alter_ne in Hs].
  rewrite lookup_alter_eq in Hs. destruct (pk_segments d !! id'); [done|]. by destruct Hs.
Qed.

Lemma disk_inv_alter g d id h f :
  disk_inv g d → pk_segments d !! id = Some f →
  match g !! id with
  | Some os => seg_durable id os (h f) ∧ is_top id d ∧ no_sidecar id d
  | None => seg_fresh id (h f)
  end → disk_inv g (pk_alter_segment id h d).
Proof.
  intros H Hf Hc. split; cbn [pk_alter_segment pk_segments pk_sidecar pk_sidecars pk_stray].
  - intros id' os Hg. destruct (decide (id = id')) as [<-|Hne].
    + rewrite Hg in Hc. rewrite lookup_alter_eq, Hf. exists (h f). split; [done|apply Hc].
    + rewrite lookup_alter_ne by done. by apply (di_durable g d H).
  - intros id' f' Hf' Hg. split; [|].
    + destruct (decide (id = id')) as [<-|Hne].
      * rewrite Hg in Hc. rewrite lookup_alter_eq, Hf in Hf'. by simplify_eq/=.
      * rewrite lookup_alter_ne in Hf' by done. by apply (di_fresh g d H).
    + apply is_top_alter. destruct (decide (id = id')) as [<-|Hne].
      * by apply (di_fresh g d H id f).
      * rewrite lookup_alter_ne in Hf' by done. by apply (di_fresh g d H id' f').
  - intros id' os f' Hg Hf'. destruct (decide (id = id')) as [<-|Hne].
    + rewrite Hg in Hc. right. destruct Hc as (_ & Ht & Hn). split; [by apply is_top_alter|done].
    + rewrite lookup_alter_ne in Hf' by done.
      destruct (di_exact g d H id' os f' Hg Hf') as [|[Ht Hn]]; [by left|right].
      split; [by apply is_top_alter|done].
  - apply (di_sidecar g d H).
  - intros id' Hs. destruct (decide (id = id')) as [<-|Hne].
    + apply (di_ids g d H). by rewrite Hf.
    + rewrite lookup_alter_ne in Hs by done. by apply (di_ids g d H).
  - apply (di_stray g d H).
Qed.

(** Adopting a segment, or more records of it. *)
Lemma disk_inv_adopt g d id os f :
  disk_inv g d → pk_segments d !! id = Some f → seg_durable id os f →
  is_top id d → no_sidecar id d → disk_inv (<[id := os]> g) d.
Proof.
  intros H Hf Hd Ht Hn. split.
  - intros id' os' Hg. destruct (decide (id = id')) as [<-|Hne].
    + rewrite lookup_insert_eq in Hg. simplify_eq. by exists f.
    + rewrite lookup_insert_ne in Hg by done. by apply (di_durable g d H).
  - intros id' f' Hf' [Hg Hne]%lookup_insert_None. by apply (di_fresh g d H).
  - intros id' os' f' Hg Hf'. destruct (decide (id = id')) as [<-|Hne]; [by right|].
    rewrite lookup_insert_ne in Hg by done. by apply (di_exact g d H).
  - intros id' c Hc. destruct (di_sidecar g d H id' c Hc) as (os' & Hg & Hs).
    destruct (decide (id = id')) as [<-|Hne]; [by destruct (Hn c)|].
    exists os'. by rewrite lookup_insert_ne.
  - apply (di_ids g d H).
  - apply (di_stray g d H).
Qed.

Lemma pk_sidecar_set id c d id' :
  pk_sidecar id' (pk_set_sidecar id c d) =
  if decide (id = id') then sd_set c (pk_sidecar id d) else pk_sidecar id' d.
Proof.
  unfold pk_sidecar at 1. cbn [pk_set_sidecar pk_sidecars]. destruct (decide (id = id')) as [<-|Hne].
  - by rewrite lookup_insert_eq.
  - by rewrite lookup_insert_ne.
Qed.

Lemma pk_sidecar_sync id d : pk_sidecar id (pk_sync_directory d) = sd_sync (pk_sidecar id d).
Proof.
  unfold pk_sidecar. cbn [pk_sync_directory pk_sidecars]. rewrite lookup_fmap.
  by destruct (pk_sidecars d !! id).
Qed.

Lemma no_sidecar_sync id d : no_sidecar id d → no_sidecar id (pk_sync_directory d).
Proof. intros H c Hc. rewrite pk_sidecar_sync in Hc. by apply sd_contents_sync, H in Hc. Qed.

Lemma is_top_sync id d : is_top id d → is_top id (pk_sync_directory d).
Proof.
  intros H id' Hs. apply H. cbn [pk_sync_directory pk_segments] in Hs. rewrite lookup_fmap in Hs.
  by destruct (pk_segments d !! id').
Qed.

Lemma disk_inv_sync g d : disk_inv g d → disk_inv g (pk_sync_directory d).
Proof.
  intros H. split; cbn [pk_sync_directory pk_segments pk_stray].
  - intros id os Hg. destruct (di_durable g d H id os Hg) as (f & Hf & Hd).
    exists (sf_link f). rewrite lookup_fmap, Hf. split; [done|by apply seg_link].
  - intros id f Hf Hg. rewrite lookup_fmap in Hf. apply fmap_Some in Hf as (f0 & Hf & ->).
    destruct (di_fresh g d H id f0 Hf Hg) as [Hs Ht]. split; [exact Hs|by apply is_top_sync].
  - intros id os f Hg Hf. rewrite lookup_fmap in Hf. apply fmap_Some in Hf as (f0 & Hf & ->).
    destruct (di_exact g d H id os f0 Hg Hf) as [Hx|[Ht Hn]].
    + left. by apply seg_link_exact.
    + right. split; [by apply is_top_sync|by apply no_sidecar_sync].
  - intros id c Hc. rewrite pk_sidecar_sync in Hc. by apply (di_sidecar g d H), sd_contents_sync.
  - intros id Hs. rewrite lookup_fmap in Hs. apply (di_ids g d H). by destruct (pk_segments d !! id).
  - apply (di_stray g d H).
Qed.

Lemma disk_inv_set_sidecar g d id c :
  disk_inv g d →
  (∀ b, c = Some b → ∃ os f, g !! id = Some os ∧ sidecar_for id os b ∧
     pk_segments d !! id = Some f ∧ seg_exact id os f) →
  disk_inv g (pk_set_sidecar id c d).
Proof.
  intros H Hc. split.
  - apply (di_durable g d H).
  - apply (di_fresh g d H).
  - intros id' os f Hg Hf. destruct (decide (id = id')) as [<-|Hne].
    + destruct c as [b|].
      * destruct (Hc b eq_refl) as (os' & f' & Hg' & _ & Hf' & Hx). cbn in Hf. simplify_eq. by left.
      * destruct (di_exact g d H id os f Hg Hf) as [|[Ht Hn]]; [by left|right].
        split; [done|]. intros b Hb. rewrite pk_sidecar_set, decide_True, sd_contents_set in Hb by done.
        apply elem_of_app in Hb as [Hb|Hb%list_elem_of_singleton]; [by apply (Hn b)|done].
    + destruct (di_exact g d H id' os f Hg Hf) as [|[Ht Hn]]; [by left|right].
      split; [done|]. intros b. rewrite pk_sidecar_set, decide_False by done. apply Hn.
  - intros id' b Hb. rewrite pk_sidecar_set in Hb. destruct (decide (id = id')) as [<-|Hne].
    + rewrite sd_contents_set in Hb. apply elem_of_app in Hb as [Hb|<-%list_elem_of_singleton].
      * by apply (di_sidecar g d H).
      * destruct (Hc b eq_refl) as (os & f & Hg & Hs & _). by exists os.
    + by apply (di_sidecar g d H).
  - apply (di_ids g d H).
  - apply (di_stray g d H).
Qed.

(** Creating a segment above all others. *)
Lemma disk_inv_create g d id :
  disk_inv g d → (∀ id', is_Some (pk_segments d !! id') → id' < id) → id ≤ U64_MAX →
  (∀ id' f, pk_segments d !! id' = Some f → ∃ os, g !! id' = Some os ∧ seg_exact id' os f) →
  disk_inv g (pk_set_segment id sf_created d).
Proof.
  intros H Hlt Hid Hall.
  assert (pk_segments d !! id = None) as Hnone.
  { destruct (pk_segments d !! id) as [f|] eqn:E; [|done].
    assert (id < id) by (apply Hlt; by rewrite E). lia. }
  assert (g !! id = None) as Hgn.
  { destruct (g !! id) as [os|] eqn:E; [|done]. destruct (di_durable g d H id os E) as (f & Hf & _). congruence. }
  split; cbn [pk_set_segment pk_segments pk_stray].
  - intros id' os Hg. assert (id ≠ id') by congruence. rewrite lookup_insert_ne by done.
    by apply (di_durable g d H).
  - intros id' f Hf Hg. destruct (decide (id = id')) as [<-|Hne].
    + rewrite lookup_insert_eq in Hf. simplify_eq. split; [apply seg_fresh_created|].
      intros id' Hs. cbn [pk_set_segment pk_segments] in Hs.
      destruct (decide (id = id')) as [<-|]; [lia|]. rewrite lookup_insert_ne in Hs by done.
      apply N.lt_le_incl. auto.
    + rewrite lookup_insert_ne in Hf by done. destruct (Hall id' f Hf) as (os & Hg' & _). congruence.
  - intros id' os f Hg Hf. assert (id ≠ id') by congruence. rewrite lookup_insert_ne in Hf by done.
    destruct (Hall id' f Hf) as (os' & Hg' & Hx). simplify_eq. by left.
  - apply (di_sidecar g d H).
  - intros id' Hs. destruct (decide (id = id')) as [<-|]; [done|].
    rewrite lookup_insert_ne in Hs by done. by apply (di_ids g d H).
  - apply (di_stray g d H).
Qed.

(** * Crashes *)

Lemma finite_choice {A B} (m : gmap N A) (R : N → A → B → Prop) :
  (∀ k a, m !! k = Some a → ∃ b, R k a b) →
  ∃ m' : gmap N B, ∀ k, match m !! k with
                        | Some a => ∃ b, m' !! k = Some b ∧ R k a b
                        | None => m' !! k = None
                        end.
Proof.
  induction m as [|k a m Hk IH] using map_ind; intros H.
  - exists ∅. intros k. by rewrite !lookup_empty.
  - destruct IH as [m' Hm'].
    { intros k' a' H'. apply H. rewrite lookup_insert_ne; congruence. }
    destruct (H k a) as [b Hb]; [by rewrite lookup_insert_eq|].
    exists (<[k := b]> m'). intros k'. destruct (decide (k = k')) as [<-|Hne].
    + rewrite !lookup_insert_eq. by exists b.
    + rewrite !lookup_insert_ne by done. apply Hm'.
Qed.

(** After a crash: every file is stable, and only the top segment may have a
    torn tail. *)
Definition settled (g : Ghost) (d : PackDisk) : Prop :=
  disk_inv g d ∧
  (∀ id f, pk_segments d !! id = Some f → f = sf_stable (sf_bytes f)) ∧
  (∀ id os f, g !! id = Some os → pk_segments d !! id = Some f →
     ∃ tail, sf_bytes f = segment_bytes id os ++ tail ∧ (tail = [] ∨ torn tail)) ∧
  (∀ id, sd_pending (pk_sidecar id d) = []).

Lemma seg_exact_crash id os f f' : seg_exact id os f → sf_survives f f' → f' = f.
Proof.
  intros [-> _] (content & c & -> & Hin & Hpre & Hkeep).
  cbn [sf_stable sf_bytes sf_old sf_synced] in *. apply list_elem_of_singleton in Hin as ->.
  rewrite takeN_len in Hkeep. f_equal. apply prefix_length_eq; [done|by apply prefix_length].
Qed.

(** What was durable is still there after a crash. *)
Lemma disk_inv_crash g d d' :
  disk_inv g d → pk_survives d d' →
  ∃ g', ghost_le g g' ∧ settled g' d'.
Proof.
  intros H (Hseg & Hside & _ & Hstray).
  destruct (finite_choice g (λ id os os', ∃ f f' new tail,
      pk_segments d !! id = Some f ∧ pk_segments d' !! id = Some f' ∧ os' = os ++ new ∧
      f' = sf_stable (segment_bytes id os' ++ tail) ∧ seg_durable id os' f' ∧
      (tail = [] ∨ torn tail) ∧ (seg_exact id os f → new = [] ∧ f' = f))) as [g' Hg'].
  { intros id os Hg. destruct (di_durable g d H id os Hg) as (f & Hf & Hd).
    specialize (Hseg id). rewrite Hf in Hseg. destruct (pk_segments d' !! id) as [f'|] eqn:Hf'.
    2:{ destruct Hd as (? & _ & Hl & _). congruence. }
    destruct (seg_crash id os f f' Hd Hseg) as (new & tail & Heq & Hd' & Ht).
    exists (os ++ new), f, f', new, tail. split_and!; try done.
    intros Hx. pose proof (seg_exact_crash _ _ _ _ Hx Hseg) as ->.
    split; [|done]. destruct Hx as [-> _]. apply (f_equal sf_bytes) in Heq. cbn [sf_stable sf_bytes] in Heq.
    rewrite segment_bytes_app, <-app_assoc in Heq.
    rewrite <-(app_nil_r (segment_bytes id os)) in Heq at 1. apply app_inv_head in Heq.
    destruct new as [|o new]; [done|]. exfalso. rewrite records_cons in Heq.
    apply seg_durable_limits, seg_limits_valid, Forall_app in Hd' as [_ [Ho _]%Forall_cons].
    apply object_valid_nonempty in Ho. apply (f_equal len) in Heq. rewrite !len_app in Heq.
    change (len (@nil byte)) with 0 in Heq. lia. }
  assert (∀ id os', g' !! id = Some os' → ∃ os, g !! id = Some os) as Hback.
  { intros id os' E. specialize (Hg' id). destruct (g !! id); [by eexists|congruence]. }
  assert (∀ id, is_Some (pk_segments d' !! id) → is_Some (pk_segments d !! id)) as Hsub.
  { intros id Hs. specialize (Hseg id). destruct (pk_segments d !! id); [done|].
    destruct (pk_segments d' !! id); [done|by destruct Hs]. }
  assert (∀ id, is_top id d → is_top id d') as Htop by (intros id Ht id' Hs; auto).
  assert (∀ id c, c ∈ sd_contents (pk_sidecar id d') → c ∈ sd_contents (pk_sidecar id d)) as Hcon.
  { intros id c Hc. destruct (Hside id) as (c' & Hc' & E). rewrite E in Hc.
    by apply list_elem_of_singleton in Hc as ->. }
  exists g'. split; [|split; [split|split_and!]].
  - intros id os Hg. specialize (Hg' id). rewrite Hg in Hg'.
    destruct Hg' as (os' & Hg' & f & f' & new & tail & _ & _ & -> & _). by exists new.
  - intros id os' E. destruct (Hback id os' E) as [os Hg]. specialize (Hg' id). rewrite Hg in Hg'.
    destruct Hg' as (os1 & Hg' & f & f' & new & tail & _ & Hf' & _ & _ & Hd' & _). simplify_eq. by exists f'.
  - intros id f' Hf' Hg. specialize (Hseg id). rewrite Hf' in Hseg.
    destruct (pk_segments d !! id) as [f|] eqn:Hf; [|done].
    assert (g !! id = None) as Hgn.
    { specialize (Hg' id). destruct (g !! id); [|done]. destruct Hg' as (? & ? & _). congruence. }
    destruct (di_fresh g d H id f Hf Hgn) as [Hfr Ht]. split; [by eapply seg_fresh_crash|auto].
  - intros id os' f' E Hf'. destruct (Hback id os' E) as [os Hg]. specialize (Hg' id). rewrite Hg in Hg'.
    destruct Hg' as (os1 & Hg' & f & f1 & new & tail & Hf & Hf1 & -> & _ & _ & _ & Hx). simplify_eq.
    destruct (di_exact g d H id os f Hg Hf) as [Hxx|[Ht Hn]].
    + left. destruct (Hx Hxx) as [-> ->]. by rewrite app_nil_r.
    + right. split; [auto|]. intros c Hc. apply (Hn c). auto.
  - intros id c Hc. apply Hcon in Hc. destruct (di_sidecar g d H id c Hc) as (os & Hg & Hs).
    pose proof (Hg' id) as Hgi. rewrite Hg in Hgi.
    destruct Hgi as (os1 & Hg1 & f & f1 & new & tail & Hf & Hf1 & -> & _ & _ & _ & Hx).
    destruct (di_exact g d H id os f Hg Hf) as [Hxx|[Ht Hn]]; [|by destruct (Hn c)].
    destruct (Hx Hxx) as [-> ->]. exists os. rewrite app_nil_r in Hg1. done.
  - intros id Hs. apply (di_ids g d H). auto.
  - intros name [Hn|Hn]%Hstray; [by apply (di_stray g d H)|].
    unfold segment_id_of_name, strip_suffix. by rewrite Hn.
  - intros id f' Hf'. specialize (Hseg id). rewrite Hf' in Hseg.
    destruct (pk_segments d !! id) as [f|]; [|done]. by destruct Hseg as (content & c & -> & _).
  - intros id os' f' E Hf'. destruct (Hback id os' E) as [os Hg]. specialize (Hg' id). rewrite Hg in Hg'.
    destruct Hg' as (os1 & Hg' & f & f1 & new & tail & Hf & Hf1 & _ & Hst & _ & Ht & _).
    rewrite E in Hg'. injection Hg' as <-. rewrite Hf' in Hf1. injection Hf1 as <-.
    exists tail. rewrite Hst. done.
  - intros id. destruct (Hside id) as (c & _ & ->). done.
Qed.

(** * The index and the writer *)

(** The index names records of the ghost, one for every key in it. *)
Definition index_inv (g : Ghost) (i : Index) : Prop :=
  (∀ k l, i !! k = Some l → ∃ id os, g !! id = Some os ∧
     {| ie_key := k; ie_location := l |} ∈ segment_entries_of id os) ∧
  (∀ id os o, g !! id = Some os → o ∈ os → is_Some (i !! object_key o)).

(** The keys of a segment are found in it. *)
Definition index_at (g : Ghost) (i : Index) (id : N) : Prop :=
  ∀ os o, g !! id = Some os → o ∈ os → ∃ l, i !! object_key o = Some l ∧ rl_segment_id l = id.

(** The writer's segment is complete, durable and the newest. *)
Definition alive (g : Ghost) (d : PackDisk) (i : Index) (a : ActiveSegment) : Prop :=
  disk_inv g d ∧ index_inv g i ∧ index_at g i (as_id a) ∧
  ∃ os f, g !! as_id a = Some os ∧ pk_segments d !! as_id a = Some f ∧ seg_exact (as_id a) os f ∧
    is_top (as_id a) d ∧ no_sidecar (as_id a) d ∧
    as_len a = len (segment_bytes (as_id a) os) ∧ len (as_entries a) = len os.

(** What holds of a store whose writer has failed. *)
Definition readable (g : Ghost) (d : PackDisk) (i : Index) : Prop := disk_inv g d ∧ index_inv g i.

Lemma publish_lookup es (i : Index) k :
  publish_into es i !! k =
  match last (filter (λ e, ie_key e = k) es) with Some e => Some (ie_location e) | None => i !! k end.
Proof.
  revert i. induction es as [|e es IH]; intros i; [done|].
  unfold publish_into in *. cbn [foldl]. rewrite IH, filter_cons.
  destruct (decide (ie_key e = k)) as [<-|Hne].
  - rewrite last_cons. destruct (last _); [done|]. by rewrite lookup_insert_eq.
  - destruct (last _); [done|]. by rewrite lookup_insert_ne.
Qed.

Lemma publish_cases es (i : Index) k l :
  publish_into es i !! k = Some l →
  {| ie_key := k; ie_location := l |} ∈ es ∨ i !! k = Some l.
Proof.
  rewrite publish_lookup. destruct (last _) as [e|] eqn:E; [|by right]. intros [= <-]. left.
  apply last_Some_elem_of, list_elem_of_filter in E as [<- He]. by destruct e.
Qed.

Lemma publish_new es (i : Index) e :
  e ∈ es → ∃ e', e' ∈ es ∧ publish_into es i !! ie_key e = Some (ie_location e').
Proof.
  intros He. rewrite publish_lookup.
  assert (is_Some (last (filter (λ e', ie_key e' = ie_key e) es))) as [e' E].
  { apply last_is_Some. intros E. assert (e ∈ filter (λ e', ie_key e' = ie_key e) es) as H
      by (by apply list_elem_of_filter). rewrite E in H. by apply elem_of_nil in H. }
  rewrite E. exists e'. split; [|done]. by apply last_Some_elem_of, list_elem_of_filter in E as [_ ?].
Qed.

Lemma publish_keeps es (i : Index) k : is_Some (i !! k) → is_Some (publish_into es i !! k).
Proof. rewrite publish_lookup. by destruct (last _). Qed.

Lemma entries_at_key id offset os o :
  o ∈ os → ∃ e, e ∈ entries_at id offset os ∧ ie_key e = object_key o.
Proof.
  intros (pre & post & ->)%list_elem_of_split.
  exists (entry_at id (offset + len (records pre)) o). split; [|done].
  apply entries_at_inv. by exists pre, o, post.
Qed.

Lemma segment_entry_id id os e : e ∈ segment_entries_of id os → rl_segment_id (ie_location e) = id.
Proof. by intros (pre & o & post & _ & ->)%entries_at_inv. Qed.

Lemma segment_entry_object id os e :
  e ∈ segment_entries_of id os → ∃ o, o ∈ os ∧ ie_key e = object_key o.
Proof.
  intros (pre & o & post & -> & ->)%entries_at_inv. exists o. split; [|done].
  apply elem_of_app. right. left.
Qed.

Lemma segment_entries_of_app id os new :
  segment_entries_of id (os ++ new) =
  segment_entries_of id os ++ entries_at id (len (segment_bytes id os)) new.
Proof. unfold segment_entries_of. by rewrite entries_at_app, len_segment_bytes. Qed.

(** An index keeps its keys while the ghost grows. *)
Lemma index_keys_mono g g' (i i' : Index) k :
  index_inv g i → ghost_le g g' → index_inv g' i' → is_Some (i !! k) → is_Some (i' !! k).
Proof.
  intros [Hi _] Hle [_ Hi'] [l Hl]. destruct (Hi k l Hl) as (id & os & Hg & He).
  destruct (Hle id os Hg) as [ext Hg']. apply segment_entry_object in He as (o & Ho & Ek).
  cbn in Ek. subst k. eapply Hi'; [done|]. apply elem_of_app. by left.
Qed.

(** Publishing more entries of one segment. *)
Lemma index_inv_publish g (i : Index) id os es :
  index_inv g i →
  (∀ os0, g !! id = Some os0 → ∃ new, os = os0 ++ new) →
  (∀ e, e ∈ es → e ∈ segment_entries_of id os) →
  (∀ o, o ∈ os → (∃ e, e ∈ es ∧ ie_key e = object_key o) ∨ is_Some (i !! object_key o)) →
  index_inv (<[id := os]> g) (publish_into es i).
Proof.
  intros [H1 H2] Hext Hes Hcov. split.
  - intros k l [He|Hl]%publish_cases.
    + exists id, os. rewrite lookup_insert_eq. auto.
    + destruct (H1 k l Hl) as (id' & os' & Hg & He). destruct (decide (id = id')) as [<-|Hne].
      * exists id, os. rewrite lookup_insert_eq. split; [done|].
        destruct (Hext os' Hg) as [new ->]. rewrite segment_entries_of_app. apply elem_of_app. by left.
      * exists id', os'. by rewrite lookup_insert_ne.
  - intros id' os' o Hg Ho. destruct (decide (id = id')) as [<-|Hne].
    + rewrite lookup_insert_eq in Hg. simplify_eq. destruct (Hcov o Ho) as [(e & He & <-)|Hi].
      * destruct (publish_new es i e He) as (e' & _ & ->). by eexists.
      * by apply publish_keeps.
    + rewrite lookup_insert_ne in Hg by done. apply publish_keeps. eauto.
Qed.

End inv.
