(* ===== verification/PackStoreProps.v ===== *)
(** The operations of the pack store keep the invariant of PackInvariant:
    segments, sidecars, appends and reads. *)

From S2P Require Import Prelude Bytes Keyed Hash Chunk Faults RootHead Crc32c PackFormat PackFormatProps.
From S2P Require Import PackFormatProps PackStore PackInvariant.
Local Open Scope N_scope.

Section props.
Context {B3 : Blake3} {HX : Hex} {JV : JsonValue}.
Context (W : PackedObject → Prop) {F : Prop}.

(** * The newest segment *)

Definition top_at (g : Ghost) (id : N) (f : SegFile) (d : PackDisk) : Prop :=
  disk_inv W g d ∧ pk_segments d !! id = Some f ∧ is_top id d ∧ no_sidecar id d.

Lemma top_at_alter g id f h d :
  top_at g id f d →
  match g !! id with Some os => seg_durable W id os (h f) | None => seg_fresh id (h f) end →
  top_at g id (h f) (pk_alter_segment id h d).
Proof.
  intros (H & Hf & Ht & Hn) Hc. split_and!.
  - eapply disk_inv_alter; [done..|]. by destruct (g !! id).
  - cbn [pk_alter_segment pk_segments]. by rewrite lookup_alter_eq, Hf.
  - by apply is_top_alter.
  - done.
Qed.

Lemma top_at_sync g id f d : top_at g id f d → top_at g id (sf_link f) (pk_sync_directory d).
Proof.
  intros (H & Hf & Ht & Hn). split_and!.
  - by apply disk_inv_sync.
  - cbn [pk_sync_directory pk_segments]. by rewrite lookup_fmap, Hf.
  - by apply is_top_sync.
  - by apply no_sidecar_sync.
Qed.

Lemma top_at_adopt g id os f d :
  top_at g id f d → seg_durable W id os f → top_at (<[id := os]> g) id f d.
Proof. intros (H & Hf & Ht & Hn) Hd. split_and!; try done. by eapply disk_inv_adopt. Qed.

Lemma no_ghost_no_sidecar g d id : disk_inv W g d → g !! id = None → no_sidecar id d.
Proof. intros H Hg c Hc. destruct (di_sidecar W g d H id c Hc) as (os & Hg' & _). congruence. Qed.

(** Every segment is complete. *)
Definition all_exact (g : Ghost) (d : PackDisk) : Prop :=
  ∀ id f, pk_segments d !! id = Some f → ∃ os, g !! id = Some os ∧ seg_exact W id os f.

Lemma top_exact_all g d id os f :
  disk_inv W g d → g !! id = Some os → pk_segments d !! id = Some f → seg_exact W id os f →
  is_top id d → all_exact g d.
Proof.
  intros H Hg Hf Hx Ht id' f' Hf'.
  assert (is_top id' d → id' = id) as Heq.
  { intros Ht'. assert (id ≤ id') by (apply Ht'; by rewrite Hf).
    assert (id' ≤ id) by (apply Ht; by rewrite Hf'). lia. }
  destruct (g !! id') as [os'|] eqn:Hg'.
  - exists os'. split; [done|]. destruct (di_exact W g d H id' os' f' Hg' Hf') as [|[Ht' _]]; [done|].
    specialize (Heq Ht') as ->. by simplify_eq.
  - destruct (di_fresh W g d H id' f' Hf' Hg') as [_ Ht']. specialize (Heq Ht') as ->. congruence.
Qed.

(** ** Creating it *)

Lemma create_spec g id (ψ : Index → Prop) :
  id ≤ U64_MAX →
  triple F
    (λ d i, (disk_inv W g d ∧ all_exact g d ∧ ∀ id', is_Some (pk_segments d !! id') → id' < id) ∧ ψ i)
    (create_active_segment id)
    (λ a d i, a = {| as_id := id; as_len := SEGMENT_HEADER_BYTES; as_entries := [] |} ∧
              g !! id = None ∧ ψ i ∧ ∃ f, seg_exact W id [] f ∧ top_at (<[id := []]> g) id f d)
    (λ d i, disk_inv W g d ∧ ψ i).
Proof.
  intros Hid.
  unfold create_active_segment.
  apply t_with_disk. intros d0.
  case_bool_decide as Hs.
  { apply t_err. intros d i (<- & (_ & _ & Hlt) & _). apply Hlt in Hs. lia. }
  eapply t_bind.
  { apply (t_os_try _ _ _ (λ d i, (g !! id = None ∧ top_at g id sf_created d) ∧ ψ i)).
    - intros d i (<- & (H & Hx & Hlt) & Hψ). split; [|done].
      assert (g !! id = None) as Hg.
      { destruct (g !! id) as [os|] eqn:E; [|done].
        destruct (di_durable W g d H id os E) as (f & Hf & _). rewrite Hf in Hs. by destruct Hs. }
      split; [done|]. assert (disk_inv W g (pk_set_segment id sf_created d)) as H'
        by (by apply disk_inv_create).
      split_and!; [done| | |].
      + cbn [pk_set_segment pk_segments]. by rewrite lookup_insert_eq.
      + intros id' Hs'. cbn [pk_set_segment pk_segments] in Hs'.
        destruct (decide (id' = id)) as [->|Hne]; [lia|]. rewrite lookup_insert_ne in Hs' by done.
        apply N.lt_le_incl. auto.
      + by eapply no_ghost_no_sidecar.
    - intros d i _ (<- & (H & _) & Hψ). done. }
  intros []. eapply t_bind.
  { apply (t_os_call _ _ _ _
      (λ d i, (g !! id = None ∧ top_at g id (sf_write 0 (segment_header id) sf_created) d) ∧ ψ i)).
    - intros d i ((Hg & Ht) & Hψ). split; [|done]. split; [done|].
      apply top_at_alter; [done|]. rewrite Hg. apply seg_fresh_write; [apply seg_fresh_created|done..].
    - intros n d i _ ((Hg & Ht) & Hψ). split; [|done]. apply (top_at_alter g id _ _ d Ht).
      rewrite Hg. apply seg_fresh_write; [apply seg_fresh_created|done|apply takeN_prefix]. }
  intros []. eapply t_bind.
  { apply (t_os_try _ _ _
      (λ d i, (g !! id = None ∧ top_at g id (sf_sync (sf_write 0 (segment_header id) sf_created)) d) ∧ ψ i)).
    - intros d i ((Hg & Ht) & Hψ). split; [|done]. split; [done|].
      apply top_at_alter; [done|]. rewrite Hg.
      apply seg_fresh_sync, seg_fresh_write; [apply seg_fresh_created|done..].
    - intros d i _ ((Hg & (H & _)) & Hψ). done. }
  intros []. eapply t_bind.
  { apply (t_os_try _ _ _ (λ d i, (g !! id = None ∧ ∃ f, seg_exact W id [] f ∧ top_at (<[id := []]> g) id f d) ∧ ψ i)).
    - intros d i ((Hg & Ht) & Hψ). split; [|done]. split; [done|]. eexists. apply top_at_sync in Ht.
      assert (seg_exact W id [] (sf_link (sf_sync (sf_write 0 (segment_header id) sf_created)))) as Hx
        by (by apply seg_fresh_exact).
      split; [exact Hx|]. apply top_at_adopt; [done|]. by apply seg_exact_durable.
    - intros d i _ ((Hg & (H & _)) & Hψ). done. }
  intros []. apply t_ret. intros d i [[Hg Hf] Hψ]. done.
Qed.

(** The new segment is a writer's. *)
Lemma alive_created g id f d i :
  g !! id = None → index_inv g i → seg_exact W id [] f → top_at (<[id := []]> g) id f d →
  alive W (<[id := []]> g) d i {| as_id := id; as_len := SEGMENT_HEADER_BYTES; as_entries := [] |}.
Proof.
  intros Hg Hi Hx (Hd & Hf & Ht & Hn). split; [done|]. split.
  { apply (index_inv_publish g i id [] []); [done|congruence|..]; intros ? ?%elem_of_nil; done. }
  split.
  { intros os' o E. cbn [as_id] in *. rewrite lookup_insert_eq in E. simplify_eq.
    by intros ?%elem_of_nil. }
  exists [], f. cbn [as_id as_len as_entries]. rewrite lookup_insert_eq. by split_and!.
Qed.

Lemma ghost_le_created g id : g !! id = None → ghost_le g (<[id := []]> g).
Proof. intros Hg. apply (ghost_le_insert g id [] []). by right. Qed.

(** * Sidecars *)

(** A complete segment, and what else is to be kept of the disk. *)
Definition complete_at (g : Ghost) (id : N) (os : list PackedObject) (d : PackDisk) : Prop :=
  disk_inv W g d ∧ g !! id = Some os ∧ pk_segments d !! id = Some (sf_stable (segment_bytes id os)).

Lemma complete_exact g id os d :
  complete_at g id os d → seg_exact W id os (sf_stable (segment_bytes id os)).
Proof.
  intros (H & Hg & Hf). split; [done|].
  destruct (di_durable W g d H id os Hg) as (f & _ & Hd). by eapply seg_durable_limits.
Qed.

Lemma complete_set_sidecar g id os c d :
  complete_at g id os d → (∀ b, c = Some b → sidecar_for id os b) →
  complete_at g id os (pk_set_sidecar id c d).
Proof.
  intros Hc Hs. pose proof (complete_exact _ _ _ _ Hc) as Hx. destruct Hc as (H & Hg & Hf).
  split_and!; [|done|done]. apply disk_inv_set_sidecar; [done|].
  intros b Hb. exists os. eexists. split_and!; eauto.
Qed.

Lemma complete_sync g id os d : complete_at g id os d → complete_at g id os (pk_sync_directory d).
Proof.
  intros (H & Hg & Hf). split_and!; [by apply disk_inv_sync|done|].
  cbn [pk_sync_directory pk_segments]. by rewrite lookup_fmap, Hf.
Qed.

Lemma visible_sidecar_for g id os d b :
  complete_at g id os d → sd_visible (pk_sidecar id d) = Some b → sidecar_for id os b.
Proof.
  intros (H & Hg & _) Hb. destruct (di_sidecar W g d H id b) as (os' & Hg' & Hs).
  { rewrite <-Hb. apply sd_visible_contents. }
  by simplify_eq.
Qed.

Section sidecar.
Context (g : Ghost) (id : N) (os : list PackedObject) (Φ : PackDisk → Prop) (ψ : Index → Prop).
Hypothesis Φ_set : ∀ c d, Φ d → Φ (pk_set_sidecar id c d).
Hypothesis Φ_sync : ∀ d, Φ d → Φ (pk_sync_directory d).

Definition sealing (d : PackDisk) (i : Index) : Prop := (complete_at g id os d ∧ Φ d) ∧ ψ i.
Definition sealing_failed (d : PackDisk) (i : Index) : Prop := disk_inv W g d ∧ ψ i.

Lemma sealing_fails d i : F → sealing d i → sealing_failed d i.
Proof. intros _ (((H & _) & _) & Hψ). done. Qed.

Lemma sealing_set c d i :
  (∀ b, c = Some b → sidecar_for id os b) → sealing d i → sealing (pk_set_sidecar id c d) i.
Proof. intros Hc ((H & HΦ) & Hψ). split; [|done]. split; [by apply complete_set_sidecar|auto]. Qed.

Lemma rename_spec message c :
  (∀ b, c = Some b → sidecar_for id os b) →
  triple F sealing (os_try message (pk_set_sidecar id c)) (λ _, sealing) sealing.
Proof. intros Hc. apply t_os_try; [|done]. intros d i. by apply sealing_set. Qed.

Lemma replace_file_spec data :
  sidecar_for id os data →
  triple F sealing (replace_file id data) (λ _, sealing) sealing_failed.
Proof.
  intros Hs. assert (∀ b, Some data = Some b → sidecar_for id os b) as Hsd by congruence.
  unfold replace_file. eapply t_bind; [by apply t_handled, rename_spec|].
  intros [u|e]; [apply t_ret; by intros d i []|]. apply t_pure. intros HF. specialize (HF eq_refl).
  apply t_with_disk. intros d0.
  assert (∀ message, triple F sealing (os_try message (pk_set_sidecar id None)) (λ _, sealing) sealing_failed)
    as Hnone.
  { intros message. eapply t_conseq; [apply rename_spec; discriminate|done|done|].
    intros d i. by apply sealing_fails. }
  destruct (sd_visible (pk_sidecar id d0)) as [old|] eqn:Eold.
  - eapply (t_pre _ _ (λ d i, sidecar_for id os old ∧ sealing d i)).
    2:{ intros d i [<- Hd]. split; [|done]. eapply visible_sidecar_for; [|exact Eold]. apply Hd. }
    apply t_pure. intros Ho. assert (∀ b, Some old = Some b → sidecar_for id os b) as Hso by congruence.
    eapply t_bind; [apply Hnone|]. intros []. eapply t_bind; [by apply t_handled, rename_spec|].
    intros [u|e']; [apply t_ret; by intros d i []|].
    eapply t_bind; [eapply t_pre; [by apply t_handled, rename_spec|by intros d i []]|].
    intros r. apply t_err. intros d i [_ Hd]. split; [done|]. by apply sealing_fails.
  - eapply t_bind.
    { apply (t_ret _ _ (λ _, sealing)). by intros d i []. }
    intros []. eapply t_bind; [by apply t_handled, rename_spec|].
    intros [u|e']; [apply t_ret; by intros d i []|].
    eapply t_bind; [apply (t_ret _ _ (λ _, sealing)); by intros d i []|].
    intros r. apply t_err. intros d i Hd. split; [done|]. by apply sealing_fails.
Qed.

(** [write_sidecar] of a complete segment. *)
Lemma write_sidecar_spec es :
  id ≤ U64_MAX →
  (∀ e, e ∈ es → e ∈ segment_entries_of id os) →
  (∀ o, o ∈ os → ∃ e, e ∈ es ∧ ie_key e = object_key o) →
  triple F sealing (write_sidecar id (len (segment_bytes id os)) es) (λ _, sealing) sealing_failed.
Proof.
  intros Hid Hes Hcov. unfold write_sidecar.
  eapply (t_pre _ _ (λ d i, seg_limits W id os ∧ sealing d i)).
  2:{ intros d i Hd. split; [|done]. destruct Hd as [[Hc _] _]. by apply complete_exact in Hc as [_ ?]. }
  apply t_pure. intros Hl. eapply t_bind.
  { eapply (t_lift_ok _ (sidecar_bytes id (len (segment_bytes id os)) es) _ (λ r d i,
      r = sidecar_bytes id (len (segment_bytes id os)) es ∧ sealing d i)); [|done].
    apply encode_sidecar_ok. destruct Hl as (_ & _ & Hn).
    etrans; [by apply (canonical_within id)|done]. }
  intros data. apply t_pure. intros ->.
  eapply t_bind; [apply t_os_read; intros d i; apply sealing_fails|]. intros [].
  eapply t_bind; [apply replace_file_spec; by exists es|]. intros [].
  apply t_os_try; [|intros d i; apply sealing_fails].
  intros d i ((Hc & HΦ) & Hψ). split; [|done]. split; [by apply complete_sync|auto].
Qed.
End sidecar.

(** * Appending *)

Lemma validate_all_ok objects : Forall object_valid objects → validate_all objects = Ok tt.
Proof. induction 1 as [|o objects Ho _ IH]; [done|]. cbn [validate_all]. by rewrite Ho. Qed.

Lemma write_group_ok id offset objects :
  Forall object_valid objects → offset + len (records objects) ≤ U64_MAX →
  write_group id offset objects =
  (records objects, Ok (entries_at id offset objects, offset + len (records objects))).
Proof.
  intros Hv. revert offset. induction Hv as [|o objects Ho _ IH]; intros offset Hle.
  - cbn. by rewrite N.add_0_r.
  - rewrite records_cons, len_app in *. cbn [write_group].
    rewrite write_record_ok by (done || lia). rewrite IH by lia. cbn [entries_at].
    by rewrite N.add_assoc.
Qed.

Lemma payload_bytes_ok objects total :
  Forall object_valid objects → total + len (records objects) ≤ U64_MAX →
  ∃ n, group_payload_bytes total objects = Ok n.
Proof.
  intros Hv. revert total. induction Hv as [|o objects Ho _ IH]; intros total Hle.
  - by exists total.
  - rewrite records_cons, len_app in Hle. cbn [group_payload_bytes]. unfold checked_add64.
    pose proof (object_valid_len o Ho) as [Hh _]. pose proof (len_record_bytes o Hh) as Hl.
    unfold raw_len_of, RECORD_HEADER_BYTES in Hl.
    destruct (N.leb_spec (total + len (po_bytes o)) U64_MAX); [|lia]. cbn [ok_or]. apply IH. lia.
Qed.

(** The entries of the index in one segment. *)
Lemma current_entries_spec g w id os :
  index_inv g (w_index w) → index_at g (w_index w) id → g !! id = Some os →
  ∃ es, current_entries_for_segment id w = (Ok es, w) ∧
    (∀ e, e ∈ es → e ∈ segment_entries_of id os) ∧
    (∀ o, o ∈ os → ∃ e, e ∈ es ∧ ie_key e = object_key o).
Proof.
  intros [H1 H2] Hat Hg. eexists. split; [|split].
  - unfold current_entries_for_segment. reflexivity.
  - intros e ([k l] & Hin & He)%list_elem_of_omap. cbn [fst snd] in He.
    destruct (N.eqb_spec (rl_segment_id l) id) as [Hid|]; [|done]. simplify_eq.
    apply elem_of_map_to_list in Hin. destruct (H1 k l Hin) as (id' & os' & Hg' & He).
    pose proof (segment_entry_id _ _ _ He) as Hid. cbn [ie_location] in Hid. subst id'. by simplify_eq.
  - intros o Ho. destruct (Hat os o Hg Ho) as (l & Hl & Hid).
    exists {| ie_key := object_key o; ie_location := l |}. split; [|done].
    apply list_elem_of_omap. exists (object_key o, l). rewrite elem_of_map_to_list. split; [done|].
    cbn [fst snd]. by rewrite Hid, N.eqb_refl.
Qed.

(** A segment that is not to be sealed. *)
Definition below_target (a : ActiveSegment) : Prop :=
  as_len a < SEGMENT_TARGET_BYTES ∧ len (as_entries a) < SEGMENT_OBJECT_TARGET.

Definition sealed_from (g : Ghost) (a : ActiveSegment) (d : PackDisk) (i : Index) : Prop :=
  below_target a ∧ ∃ g', ghost_le g g' ∧ alive W g' d i a.

Lemma seal_spec g a :
  as_id a < U64_MAX →
  triple F (λ d i, alive W g d i a) (seal_active a) (sealed_from g) (readable W g).
Proof.
  intros Hid. unfold seal_active. intros w Hf HP. revert Hf.
  destruct HP as (H & Hi & Hat & os & f & Hg & Hfs & Hx & Ht & Hn & Hlen & Hent).
  destruct (current_entries_spec g w (as_id a) os Hi Hat Hg) as (es & Hes & Hsub & Hcov).
  rewrite (st_bind_run _ _ _ _ _ Hes). destruct Hx as [-> Hl]. revert w H Hi Hat Hfs Ht Hn Hes.
  intros w0 H Hi Hat Hfs Ht Hn _.
  set (ψ := λ i, index_inv g i ∧ index_at g i (as_id a)).
  assert (triple F (sealing g (as_id a) os (is_top (as_id a)) ψ)
    (let! _ := write_sidecar (as_id a) (as_len a) es in
     let! next_id := st_lift (ok_or (checked_add64 (as_id a) 1) "segment id overflow"%string) in
     create_active_segment next_id) (sealed_from g) (readable W g)) as Ht'.
  2:{ intros Hf. apply Ht'; [done|]. split; [|done]. split; [by split|done]. }
  rewrite Hlen. eapply t_bind.
  { eapply t_conseq; [apply write_sidecar_spec; try done|done|done|].
    - intros c d Hd id' Hs. by apply Hd.
    - intros d. apply is_top_sync.
    - lia.
    - intros d i [Hd [Hdi _]]. done. }
  intros []. assert (checked_add64 (as_id a) 1 = Some (as_id a + 1)) as ->.
  { unfold checked_add64. destruct (N.leb_spec (as_id a + 1) U64_MAX); [done|lia]. }
  eapply t_bind; [apply (t_lift_ok _ (as_id a + 1) _ (λ r d i, r = as_id a + 1 ∧
    sealing g (as_id a) os (is_top (as_id a)) ψ d i)); [done|]; by intros d i|].
  intros next. apply t_pure. intros ->.
  eapply t_conseq; [apply (create_spec g (as_id a + 1) ψ); lia| | |].
  - intros d i ((Hc & Htop) & Hψ). split; [|done]. pose proof (complete_exact _ _ _ _ Hc) as Hxx.
    destruct Hc as (Hd & _ & Hfd). split_and!; [done|by eapply top_exact_all|].
    intros id' Hs. apply Htop in Hs. lia.
  - intros a' d i (-> & Hgn & [Hdi Hda] & f & Hxf & Htop).
    split; [done|]. exists (<[as_id a + 1 := []]> g).
    split; [by apply ghost_le_created|by eapply alive_created].
  - intros d i [Hd [Hdi _]]. done.
Qed.

(** A group within the limits of the active segment. *)
Definition group_fits (a : ActiveSegment) (objects : list PackedObject) : Prop :=
  as_len a + len (records objects) ≤ MAX_SEGMENT_BYTES ∧
  len (as_entries a) + len objects ≤ MAX_SEGMENT_OBJECTS.

Definition in_ghost (g : Ghost) (o : PackedObject) : Prop := ∃ id os, g !! id = Some os ∧ o ∈ os.

Lemma in_ghost_le g g' o : ghost_le g g' → in_ghost g o → in_ghost g' o.
Proof.
  intros Hle (id & os & Hg & Ho). destruct (Hle id os Hg) as [new Hg'].
  exists id, (os ++ new). split; [done|]. apply elem_of_app. by left.
Qed.

Lemma seg_exact_durable_app id os new f : seg_exact W id (os ++ new) f → seg_durable W id os f.
Proof.
  intros [-> Hl]. exists new. cbn [sf_stable sf_bytes sf_synced sf_linked].
  rewrite takeN_len, segment_bytes_app. split_and!; [done|done|by apply prefix_app_r|].
  repeat constructor. cbn. done.
Qed.

Lemma publish_spec es P (Q : assertion) E :
  (∀ d i, P d i → Q d (publish_into es i)) → triple F P (publish_entries es) (λ _, Q) E.
Proof. intros H w Hf HP. simpl. auto. Qed.

(** Publishing a group that was written to the active segment. *)
Lemma alive_published g id os objects f d i entries :
  g !! id = Some os → top_at (<[id := os ++ objects]> g) id f d → seg_exact W id (os ++ objects) f →
  index_inv g i → index_at g i id → len entries = len os →
  let es := entries_at id (len (segment_bytes id os)) objects in
  alive W (<[id := os ++ objects]> g) d (publish_into es i)
    {| as_id := id; as_len := len (segment_bytes id (os ++ objects)); as_entries := entries ++ es |}.
Proof.
  intros Hg (Hd & Hf & Ht & Hn) Hx Hi Hat Hlen es.
  assert (∀ e, e ∈ es → e ∈ segment_entries_of id (os ++ objects)) as Hsub.
  { intros e He. rewrite segment_entries_of_app. apply elem_of_app. by right. }
  split; [done|]. split.
  { apply index_inv_publish; [done| |done|].
    - intros os0 E. simplify_eq. by exists objects.
    - intros o [Ho|Ho]%elem_of_app; [right; by eapply Hi|left]. by apply entries_at_key. }
  split.
  { intros os' o E Ho. cbn [as_id] in *. rewrite lookup_insert_eq in E. simplify_eq.
    assert (∀ e, e ∈ es → rl_segment_id (ie_location e) = id) as Hids
      by (intros e He; by apply (segment_entry_id id (os ++ objects)), Hsub).
    apply elem_of_app in Ho as [Ho|Ho].
    - destruct (Hat os o Hg Ho) as (l & Hl & Hid). rewrite publish_lookup.
      destruct (last _) as [e|] eqn:E; [|by exists l]. exists (ie_location e). split; [done|].
      apply Hids. by apply last_Some_elem_of, list_elem_of_filter in E as [??].
    - destruct (entries_at_key id (len (segment_bytes id os)) objects o Ho) as (e & He & <-).
      destruct (publish_new es i e He) as (e' & He' & ->). eauto. }
  exists (os ++ objects), f. cbn [as_id as_len as_entries]. rewrite lookup_insert_eq.
  split_and!; try done. rewrite !len_app, Hlen. f_equal. unfold len, es. by rewrite length_entries_at.
Qed.

(** Appending a group of valid objects that fits the active segment, with
    any operation of the operating system failing at any point: on success the
    objects are durable and indexed and the writer goes on; on an error, which
    only a fault causes, everything that was durable still is. *)
Lemma append_spec g a objects :
  Forall (good W) objects → group_fits a objects → as_id a < U64_MAX →
  triple F (λ d i, alive W g d i a) (append_group a objects NoCommitFault)
    (λ a' d i, (objects ≠ [] ∨ below_target a → below_target a') ∧
               ∃ g', ghost_le g g' ∧ alive W g' d i a' ∧ Forall (in_ghost g') objects)
    (λ d i, ∃ g', ghost_le g g' ∧ readable W g' d i).
Proof.
  intros Hgood [Hfit1 Hfit2] Hid. unfold append_group. case_bool_decide as Hnil.
  { subst. apply t_ret. intros d i Hd. split; [by intros []|]. by exists g. }
  assert (Forall object_valid objects) as Hv by (eapply Forall_impl; [exact Hgood|by intros ? []]).
  intros w Hf (H & Hi & Hat & os & f & Hg & Hfs & Hx & Ht & Hn & Hlen & Hent). revert Hf.
  set (id := as_id a) in *. set (ψ := λ i, index_inv g i ∧ index_at g i id).
  assert (seg_limits W id (os ++ objects)) as Hl.
  { destruct Hx as [_ (Hl1 & Hl2 & Hl3)]. split_and!.
    - by apply Forall_app.
    - rewrite segment_bytes_app, len_app. lia.
    - rewrite len_app. lia. }
  assert (as_len a + len (records objects) ≤ U64_MAX) as Hu
    by (etrans; [exact Hfit1|by apply N.leb_le]).
  match goal with |- faulty F w → match ?m w with _ => _ end =>
    assert (triple F (λ d i, top_at g id f d ∧ ψ i) m
      (λ a' d i, (objects ≠ [] ∨ below_target a → below_target a') ∧
                 ∃ g', ghost_le g g' ∧ alive W g' d i a' ∧ Forall (in_ghost g') objects)
      (λ d i, ∃ g', ghost_le g g' ∧ readable W g' d i)) as Htr end.
  2:{ intros Hf. apply Htr; [done|]. done. }
  clear w H Hi Hat Hfs Ht Hn. rewrite (write_group_ok id (as_len a) objects Hv Hu).
  eapply t_bind; [apply (t_lift_ok _ tt _ (λ _ d i, top_at g id f d ∧ ψ i)); [by apply validate_all_ok|done]|].
  intros []. eapply t_bind.
  { apply (t_os_call _ _ _ _ (λ d i, top_at g id (sf_write (as_len a) (records objects) f) d ∧ ψ i)).
    - intros d i [Ht Hψ]. split; [|done]. apply top_at_alter; [done|]. rewrite Hg, Hlen.
      by eapply seg_append.
    - intros n d i _ [Ht [Hψ _]]. exists g. split; [done|]. split; [|done].
      apply (top_at_alter g id f _ d Ht). rewrite Hg, Hlen.
      eapply seg_append; [done|done|apply takeN_prefix]. }
  intros []. eapply t_bind.
  { apply (t_lift_ok _ (entries_at id (as_len a) objects, as_len a + len (records objects)) _
      (λ r d i, r = (entries_at id (as_len a) objects, as_len a + len (records objects)) ∧
        top_at g id (sf_write (as_len a) (records objects) f) d ∧ ψ i)); by intros. }
  intros [es off]. apply t_pure. intros [= -> ->]. cbn [as_id as_len as_entries].
  destruct (N.ltb_spec MAX_SEGMENT_BYTES (as_len a + len (records objects))); [lia|].
  assert (len (entries_at id (as_len a) objects) = len objects) as Hes
    by (unfold len; by rewrite length_entries_at).
  rewrite Hes. destruct (N.ltb_spec MAX_SEGMENT_OBJECTS (len (as_entries a) + len objects)); [lia|].
  rewrite bool_decide_false by done.
  set (f' := sf_sync (sf_write (as_len a) (records objects) f)).
  assert (seg_exact W id (os ++ objects) f') as Hx' by (unfold f'; rewrite Hlen; by apply seg_append_sync).
  eapply t_bind.
  { apply (t_os_try _ _ _ (λ d i, top_at (<[id := os ++ objects]> g) id f' d ∧ ψ i)).
    - intros d i [Ht Hψ]. split; [|done]. apply top_at_adopt; [|by apply seg_exact_durable].
      apply top_at_alter; [done|]. rewrite Hg. by eapply seg_exact_durable_app.
    - intros d i _ [(Hd & _) [Hψ _]]. by exists g. }
  intros []. destruct (payload_bytes_ok objects 0 Hv) as [total Htotal]; [lia|].
  eapply t_bind; [apply (t_lift_ok _ total _ (λ _ d i, top_at (<[id := os ++ objects]> g) id f' d ∧ ψ i)); done|].
  intros _total. rewrite bool_decide_false by done.
  set (a' := {| as_id := id; as_len := len (segment_bytes id (os ++ objects));
                as_entries := as_entries a ++ entries_at id (as_len a) objects |}).
  assert (as_len a + len (records objects) = len (segment_bytes id (os ++ objects))) as Hoff
    by (by rewrite Hlen, segment_bytes_app, len_app).
  eapply t_bind.
  { apply (publish_spec _ _ (λ d i, alive W (<[id := os ++ objects]> g) d i a')).
    intros d i [Ht [Hi Hat]]. unfold a'. rewrite Hlen. by eapply alive_published. }
  intros []. rewrite bool_decide_false by done. rewrite Hoff. fold a'.
  assert (ghost_le g (<[id := os ++ objects]> g)) as Hle by (apply ghost_le_insert; by left).
  assert (Forall (in_ghost (<[id := os ++ objects]> g)) objects) as Hin.
  { apply Forall_forall. intros o Ho. exists id, (os ++ objects). rewrite lookup_insert_eq.
    split; [done|]. apply elem_of_app. by right. }
  destruct (_ || _) eqn:Eseal.
  - eapply t_conseq; [by apply (seal_spec (<[id := os ++ objects]> g) a')|done| |].
    + intros a2 d i (Hb & g2 & Hle2 & Ha). split; [done|]. exists g2. split_and!; [by etrans|done|].
      eapply Forall_impl; [exact Hin|]. intros o. by apply in_ghost_le.
    + intros d i Hr. eauto.
  - apply t_ret. intros d i Ha. bool_to_prop. split; [by intros _|]. eauto.
Qed.

(** The groups the limits were chosen for fit every segment that is not to be
    sealed. *)
Definition group_small (objects : list PackedObject) : Prop :=
  len (records objects) ≤ MAX_SEGMENT_BYTES - SEGMENT_TARGET_BYTES ∧ len objects ≤ 4096.

Lemma group_small_fits a objects : below_target a → group_small objects → group_fits a objects.
Proof.
  unfold below_target, group_small, group_fits, MAX_SEGMENT_OBJECTS.
  assert (SEGMENT_TARGET_BYTES ≤ MAX_SEGMENT_BYTES) by (by apply N.leb_le). lia.
Qed.
End props.
