(* ===== verification/PackOpenProps.v ===== *)
(** Opening the pack store after a crash: the names of the segment directory,
    and the loop over the segments. *)

From S2P Require Import Prelude Bytes Keyed Hash Chunk Faults RootHead Crc32c PackFormat PackFormatProps.
From S2P Require Import PackFormatProps PackStore PackInvariant PackStoreProps.
Local Open Scope N_scope.

(** * Names *)

Lemma hex_digit_value n : n < 16 → digit_value (hex_digit n) = n ∧ is_lower_hex_digit (hex_digit n) = true.
Proof.
  intros Hn. destruct n as [|p]; [done|].
  do 4 (destruct p as [p|p|]; try done); exfalso; lia.
Qed.

Lemma length_hex_digits k n : length (hex_digits k n) = k.
Proof. revert n. induction k; intros; simpl; [done|]. rewrite length_app, IHk. simpl. lia. Qed.

Lemma from_hex_digits k n : n < 16 ^ N.of_nat k → from_hex (hex_digits k n) = n.
Proof.
  revert n. induction k as [|k IH]; intros n Hn.
  - simpl in *. unfold from_hex. simpl. lia.
  - cbn [hex_digits]. unfold from_hex in *. rewrite foldl_app, IH.
    + cbn [foldl]. pose proof (N.mod_upper_bound n 16 ltac:(done)) as Hm.
      rewrite (proj1 (hex_digit_value _ Hm)). pose proof (N.div_mod n 16 ltac:(done)). lia.
    + apply N.Div0.div_lt_upper_bound. by rewrite Nat2N.inj_succ, N.pow_succ_r' in Hn.
Qed.

Lemma hex_digits_lower k n : forallb is_lower_hex_digit (hex_digits k n) = true.
Proof.
  revert n. induction k as [|k IH]; intros n; [done|]. cbn [hex_digits].
  rewrite forallb_app, IH. cbn [forallb].
  pose proof (N.mod_upper_bound n 16 ltac:(done)) as Hm. by rewrite (proj2 (hex_digit_value _ Hm)).
Qed.

Lemma ends_with_suffix s p : ends_with (s ++ p) p = true.
Proof. unfold ends_with. rewrite rev_app_distr. apply starts_with_app. by exists (rev s). Qed.

(** A segment is found under its name, and nothing else is taken for one. *)
Lemma segment_name_roundtrip id : id ≤ U64_MAX → segment_id_of_name (segment_file_name id) = Some id.
Proof.
  intros Hid. unfold segment_id_of_name, strip_suffix, segment_file_name.
  rewrite ends_with_suffix, length_app, length_hex_digits. cbn [length str].
  rewrite take_app_length' by (rewrite length_hex_digits; done).
  unfold len. rewrite length_hex_digits, hex_digits_lower. cbn [N.of_nat].
  rewrite from_hex_digits; [done|]. unfold U64_MAX in Hid. simpl N.of_nat.
  change (16 ^ 16) with 18446744073709551616. lia.
Qed.

Lemma sidecar_name_ignored id : segment_id_of_name (sidecar_file_name id) = None.
Proof.
  unfold segment_id_of_name, strip_suffix, sidecar_file_name, ends_with.
  rewrite rev_app_distr. done.
Qed.

Section open.
Context {B3 : Blake3} {HX : Hex} {JV : JsonValue}.
Context (W : PackedObject → Prop) {F : Prop}.

Lemma listed_ids g d id :
  disk_inv W g d → id ∈ omap segment_id_of_name (directory_names d) ↔ is_Some (pk_segments d !! id).
Proof.
  intros H. rewrite list_elem_of_omap. unfold directory_names. split.
  - intros (name & Hin & Hid). apply elem_of_app in Hin as [Hin|[Hin|Hin]%elem_of_app].
    + apply list_elem_of_omap in Hin as ([k s] & _ & Hn). cbn [fst snd] in Hn.
      destruct (sd_visible s); [|done]. injection Hn as <-. by rewrite sidecar_name_ignored in Hid.
    + by rewrite (di_stray W g d H name Hin) in Hid.
    + apply list_elem_of_fmap in Hin as ([k f] & -> & Hk). apply elem_of_map_to_list in Hk.
      cbn [fst] in Hid. assert (k ≤ U64_MAX) by (apply (di_ids W g d H); by rewrite Hk).
      rewrite segment_name_roundtrip in Hid by done. simplify_eq. by rewrite Hk.
  - intros [f Hf]. exists (segment_file_name id). split.
    + apply elem_of_app. right. apply elem_of_app. right. apply list_elem_of_fmap.
      exists (id, f). split; [done|]. by apply elem_of_map_to_list.
    + apply segment_name_roundtrip, (di_ids W g d H). by rewrite Hf.
Qed.

Lemma remove_dups_sorted (l : list N) :
  StronglySorted N.le l → StronglySorted N.lt (remove_dups l).
Proof.
  induction 1 as [|x l Hs IH Hx]; cbn [remove_dups]; [constructor|].
  case_decide as Hin; [done|]. constructor; [done|]. rewrite Forall_forall in Hx |- *.
  intros y Hy. rewrite elem_of_remove_dups in Hy. specialize (Hx y Hy). assert (x ≠ y) by congruence. lia.
Qed.

Lemma sorted_ids_sorted l : StronglySorted N.lt (sorted_ids l).
Proof. apply remove_dups_sorted, StronglySorted_merge_sort; apply _. Qed.

Lemma elem_of_sorted_ids l id : id ∈ sorted_ids l ↔ id ∈ l.
Proof. unfold sorted_ids. by rewrite elem_of_remove_dups, merge_sort_Permutation. Qed.

(** * Reading one segment *)

Lemma segment_content_spec id f P (E : assertion) :
  (∀ d i, P d i → pk_segments d !! id = Some f) → (∀ d i, F → P d i → E d i) →
  triple F P (segment_content id) (λ c d i, c = sf_bytes f ∧ P d i) E.
Proof.
  intros HP HE. unfold segment_content. eapply t_bind; [by apply t_os_read|]. intros [].
  apply t_with_disk. intros d0 w Hf [<- Hw]. simpl. rewrite (HP _ _ Hw). simpl. auto.
Qed.

(** The scan of a complete segment. *)
Lemma scan_exact_spec id os f allow P (E : assertion) :
  seg_exact W id os f → (∀ d i, P d i → pk_segments d !! id = Some f) → (∀ d i, F → P d i → E d i) →
  triple F P (scan_segment id allow)
    (λ scan d i, scan = {| ss_entries := segment_entries_of id os;
                           ss_segment_len := len (segment_bytes id os) |} ∧ P d i) E.
Proof.
  intros [-> (Hg & Hl & Hn)] HP HE. unfold scan_segment.
  eapply t_bind; [by apply segment_content_spec|]. intros c. apply t_pure. intros ->.
  cbn [sf_stable sf_bytes].
  assert (Forall object_valid os) as Hv by (eapply Forall_impl; [exact Hg|by intros ? []]).
  rewrite (scan_complete id os allow Hv Hl Hn).
  eapply t_bind; [apply (t_lift_ok _ ({| ss_entries := segment_entries_of id os;
    ss_segment_len := len (segment_bytes id os) |}, false) _ (λ r d i,
      r = ({| ss_entries := segment_entries_of id os;
              ss_segment_len := len (segment_bytes id os) |}, false) ∧ P d i)); by intros|].
  intros [scan trunc]. apply t_pure. intros [= -> ->]. by apply t_ret.
Qed.

(** The scan of the newest segment cuts a torn tail off. *)
Lemma scan_torn_spec g id os tail (ψ : Index → Prop) :
  g !! id = Some os → seg_limits W id os → (tail = [] ∨ torn tail) →
  let f := sf_stable (segment_bytes id os ++ tail) in
  seg_durable W id os f →
  triple F (λ d i, top_at W g id f d ∧ ψ i) (scan_segment id true)
    (λ scan d i, scan = {| ss_entries := segment_entries_of id os;
                           ss_segment_len := len (segment_bytes id os) |} ∧
                 top_at W g id (sf_stable (segment_bytes id os)) d ∧ ψ i)
    (λ d i, disk_inv W g d ∧ ψ i).
Proof.
  intros Hg Hl Ht f Hd. destruct (decide (tail = [])) as [->|Hne].
  { unfold f in *. rewrite app_nil_r in *.
    apply (scan_exact_spec id os (sf_stable (segment_bytes id os)) true); [done| |].
    - by intros d i [(_ & Hf & _) _].
    - by intros d i _ [(Hdi & _) Hψ]. }
  destruct Ht as [|Ht]; [done|]. unfold scan_segment.
  eapply t_bind; [apply (segment_content_spec id f)|].
  { by intros d i [(_ & Hf & _) _]. }
  { by intros d i _ [(Hdi & _) Hψ]. }
  intros c. apply t_pure. intros ->. change (sf_bytes f) with (segment_bytes id os ++ tail).
  assert (len os + 1 ≤ MAX_SEGMENT_OBJECTS ∧ len (segment_bytes id os ++ tail) ≤ MAX_SEGMENT_BYTES) as [Hn1 Hn2].
  { destruct Hd as (pend & (_ & Hl1 & Hl2) & _ & _ & Hc). apply Forall_cons in Hc as [Hc _].
    unfold f in Hc. cbn [sf_stable sf_bytes] in Hc.
    destruct pend as [|o pend].
    - rewrite app_nil_r in Hc. apply prefix_length in Hc. rewrite length_app in Hc.
      destruct tail; [done|]. simpl in Hc. lia.
    - apply prefix_length in Hc. rewrite len_app, len_cons in Hl2. unfold len in *. lia. }
  rewrite (scan_torn_segment id os tail (seg_limits_valid W _ _ Hl) Ht Hne Hn2 Hn1).
  eapply t_bind; [apply (t_lift_ok _ ({| ss_entries := segment_entries_of id os;
    ss_segment_len := len (segment_bytes id os) |}, true) _ (λ r d i,
      r = ({| ss_entries := segment_entries_of id os;
              ss_segment_len := len (segment_bytes id os) |}, true) ∧ top_at W g id f d ∧ ψ i)); by intros|].
  intros [scan trunc]. apply t_pure. intros [= -> ->]. cbn [ss_segment_len].
  apply (t_bind _ _ _ (λ _ d i, top_at W g id (sf_stable (segment_bytes id os)) d ∧ ψ i));
    [|intros []; apply t_ret; by intros d i]. unfold truncate_segment_tail.
  eapply t_bind.
  { apply (t_os_try _ _ _ (λ d i, top_at W g id (sf_set_len (len (segment_bytes id os)) f) d ∧ ψ i)).
    - intros d i [Htop Hψ]. split; [|done]. apply top_at_alter; [done|]. rewrite Hg. by apply seg_set_len.
    - by intros d i _ [(Hdi & _) Hψ]. }
  intros []. apply t_os_try.
  - intros d i [Htop Hψ]. split; [|done].
    pose proof (seg_sync_cut W id os f Hd) as Hx.
    assert (sf_sync (sf_set_len (len (segment_bytes id os)) f) = sf_stable (segment_bytes id os)) as <-
      by apply Hx.
    apply top_at_alter; [done|]. rewrite Hg. by apply seg_exact_durable.
  - by intros d i _ [(Hdi & _) Hψ].
Qed.

(** * The loop *)

(** What a crash leaves of a segment and its sidecar. *)
Definition settled_at (g : Ghost) (id : N) (d : PackDisk) : Prop :=
  (∃ f, pk_segments d !! id = Some f ∧ f = sf_stable (sf_bytes f) ∧
     ∀ os, g !! id = Some os → ∃ tail, sf_bytes f = segment_bytes id os ++ tail ∧ (tail = [] ∨ torn tail)) ∧
  sd_pending (pk_sidecar id d) = [].

(** The largest segment id. *)
Context (newest : N).

(** The state of the loop with the segments [ids] still to open. *)
Record open_inv (ids : list N) (g : Ghost) (d : PackDisk) (i : Index) : Prop := {
  oi_disk : disk_inv W g d;
  oi_index : ∀ k l, i !! k = Some l → ∃ id os, g !! id = Some os ∧
    {| ie_key := k; ie_location := l |} ∈ segment_entries_of id os;
  oi_keys : ∀ id os o, g !! id = Some os → id ∉ ids → o ∈ os → is_Some (i !! object_key o);
  oi_settled : ∀ id, id ∈ ids → settled_at g id d;
  oi_exact : ∀ id f, pk_segments d !! id = Some f → id ∉ ids →
    ∃ os, g !! id = Some os ∧ seg_exact W id os f;
  oi_below : ∀ id x, is_Some (pk_segments d !! id) → id ∉ ids → x ∈ ids → id < x;
  oi_newest : ∀ id, is_Some (pk_segments d !! id) → id ≤ newest;
}.

Lemma settled_at_set g id k c d : id ≠ k → settled_at g id d → settled_at g id (pk_set_sidecar k c d).
Proof.
  intros Hne [Hf Hs]. split; [exact Hf|]. by rewrite pk_sidecar_set, decide_False.
Qed.

Lemma settled_at_sync g id d : settled_at g id d → settled_at g id (pk_sync_directory d).
Proof.
  intros [(f & Hf & Hst & Ht) Hs]. split.
  - exists f. cbn [pk_sync_directory pk_segments]. rewrite lookup_fmap, Hf. split_and!; [|done..].
    cbn. f_equal. rewrite Hst. done.
  - rewrite pk_sidecar_sync. done.
Qed.

(** What [write_sidecar] leaves alone. *)
Definition open_frame (ids : list N) (g : Ghost) (d : PackDisk) : Prop :=
  (∀ id, id ∈ ids → settled_at g id d) ∧
  (∀ id f, pk_segments d !! id = Some f → id ∉ ids → ∃ os, g !! id = Some os ∧ seg_exact W id os f) ∧
  (∀ id x, is_Some (pk_segments d !! id) → id ∉ ids → x ∈ ids → id < x) ∧
  (∀ id, is_Some (pk_segments d !! id) → id ≤ newest).

Lemma open_frame_set ids g k c d : k ∉ ids → open_frame ids g d → open_frame ids g (pk_set_sidecar k c d).
Proof.
  intros Hk (H1 & H2 & H3 & H4). split_and!; [|exact H2|exact H3|exact H4].
  intros id Hin. apply settled_at_set; [|auto]. intros ->. done.
Qed.

Lemma open_frame_sync ids g d : open_frame ids g d → open_frame ids g (pk_sync_directory d).
Proof.
  intros (H1 & H2 & H3 & H4).
  assert (∀ id, is_Some (pk_segments (pk_sync_directory d) !! id) → is_Some (pk_segments d !! id)) as Hdom.
  { intros id Hs. cbn [pk_sync_directory pk_segments] in Hs. rewrite lookup_fmap in Hs.
    by destruct (pk_segments d !! id). }
  split_and!; [| |by eauto..].
  - intros id Hin. by apply settled_at_sync, H1.
  - intros id f Hf Hin. cbn [pk_sync_directory pk_segments] in Hf. rewrite lookup_fmap in Hf.
    apply fmap_Some in Hf as (f0 & Hf0 & ->). destruct (H2 id f0 Hf0 Hin) as (os & Hg & Hx).
    exists os. split; [done|]. by apply seg_link_exact.
Qed.

(** The entries of the open segments, those of [id] being published next. *)
Definition open_keys (ids : list N) (g : Ghost) (i : Index) : Prop :=
  (∀ k l, i !! k = Some l → ∃ id os, g !! id = Some os ∧
     {| ie_key := k; ie_location := l |} ∈ segment_entries_of id os) ∧
  (∀ id os o, g !! id = Some os → id ∉ ids → o ∈ os → is_Some (i !! object_key o)).

Lemma open_keys_publish id ids g i os es :
  open_keys (id :: ids) g i → g !! id = Some os →
  (∀ e, e ∈ es → e ∈ segment_entries_of id os) →
  (∀ o, o ∈ os → ∃ e, e ∈ es ∧ ie_key e = object_key o) →
  open_keys ids g (publish_into es i).
Proof.
  intros [H1 H2] Hg Hes Hcov. split.
  - intros k l [He|Hl]%publish_cases; [|auto]. exists id, os. auto.
  - intros id' os' o Hg' Hin Ho. destruct (decide (id' = id)) as [->|Hne].
    + simplify_eq. destruct (Hcov o Ho) as (e & He & <-).
      destruct (publish_new es i e He) as (e' & _ & ->). by eexists.
    + apply publish_keeps. eapply H2; [done| |done]. by apply not_elem_of_cons.
Qed.

Lemma open_inv_intro ids g d i :
  disk_inv W g d → open_frame ids g d → open_keys ids g i → open_inv ids g d i.
Proof. intros Hd (H1 & H2 & H3 & H4) [K1 K2]. by split. Qed.

Lemma open_inv_frame id ids g d i os :
  open_inv (id :: ids) g d i → StronglySorted N.lt (id :: ids) → g !! id = Some os →
  pk_segments d !! id = Some (sf_stable (segment_bytes id os)) → open_frame ids g d.
Proof.
  intros H [Hs Hlt]%StronglySorted_inv Hg Hf. split_and!.
  - intros id' Hin. apply (oi_settled _ _ _ _ H). by right.
  - intros id' f Hf' Hin. destruct (decide (id' = id)) as [->|Hne].
    + simplify_eq. exists os. split; [done|].
      destruct (di_durable W g d (oi_disk _ _ _ _ H) id os Hg) as (f & _ & Hd).
      split; [done|by eapply seg_durable_limits].
    + apply (oi_exact _ _ _ _ H); [done|]. by apply not_elem_of_cons.
  - intros id' x Hs' Hin Hx. destruct (decide (id' = id)) as [->|Hne].
    + rewrite Forall_forall in Hlt. auto.
    + apply (oi_below _ _ _ _ H); [done| |by right]. by apply not_elem_of_cons.
  - apply (oi_newest _ _ _ _ H).
Qed.

Definition open_failed (g : Ghost) (d : PackDisk) (i : Index) : Prop :=
  ∃ g', ghost_le g g' ∧ disk_inv W g' d.

(** A complete segment: its entries are published, and its sidecar rewritten
    when asked. *)
Lemma open_rescan_spec {A} id ids g os (k : list IndexEntry → Pack A) Q :
  id ≤ U64_MAX → id ∉ ids → g !! id = Some os → seg_limits W id os →
  let P := sealing W g id os (open_frame ids g) (open_keys (id :: ids) g) in
  triple F P (k (segment_entries_of id os)) Q (open_failed g) →
  triple F P
    (let! scan := scan_segment id false in
     let! _ := write_sidecar id (ss_segment_len scan) (ss_entries scan) in
     k (ss_entries scan)) Q (open_failed g).
Proof.
  intros Hid Hin Hg Hl P Hk.
  assert (∀ d i, F → P d i → open_failed g d i) as Hfail.
  { intros d i _ (((Hd & _) & _) & _). by exists g. }
  eapply t_bind; [apply (scan_exact_spec id os (sf_stable (segment_bytes id os)))|].
  { done. } { by intros d i (((_ & _ & Hf) & _) & _). } { done. }
  intros scan. apply t_pure. intros ->. cbn [ss_segment_len ss_entries].
  eapply t_bind.
  { eapply t_conseq; [apply (write_sidecar_spec W g id os (open_frame ids g) (open_keys (id :: ids) g))
                     |done|done|].
    - intros c d. by apply open_frame_set.
    - intros d. apply open_frame_sync.
    - done.
    - done.
    - intros o Ho. by apply entries_at_key.
    - intros d i [Hd _]. by exists g. }
  by intros [].
Qed.

(** A segment with a visible sidecar. *)
Lemma open_sealed_spec id ids g os es0 :
  id ≤ U64_MAX → id ∉ ids → g !! id = Some os → seg_limits W id os →
  (∀ e, e ∈ es0 → e ∈ segment_entries_of id os) →
  (∀ o, o ∈ os → ∃ e, e ∈ es0 ∧ ie_key e = object_key o) →
  let P := sealing W g id os (open_frame ids g) (open_keys (id :: ids) g) in
  let b := sidecar_bytes id (len (segment_bytes id os)) es0 in
  triple F (λ d i, P d i ∧ sd_visible (pk_sidecar id d) = Some b)
    (open_sealed id (len (segment_bytes id os)))
    (λ es d i, ((∀ e, e ∈ es → e ∈ segment_entries_of id os) ∧
                (∀ o, o ∈ os → ∃ e, e ∈ es ∧ ie_key e = object_key o)) ∧ P d i) (open_failed g).
Proof.
  intros Hid Hin Hg Hl Hes Hcov P b. unfold open_sealed.
  set (P' := λ d i, P d i ∧ sd_visible (pk_sidecar id d) = Some b).
  assert (decode_sidecar b id (len (segment_bytes id os)) = Ok (canonical_entries es0)) as Hdec.
  { destruct Hl as (Hgood & Hl1 & Hl2). apply decode_sidecar_bytes; [|done| |].
    - apply Forall_forall. intros e He. apply segment_entry_fits; [|auto].
      eapply Forall_impl; [exact Hgood|by intros ? []].
    - etrans; [exact Hl1|by apply N.leb_le].
    - etrans; [by apply (canonical_within id)|done]. }
  eapply t_bind.
  { apply (t_os_result _ _ (λ r d i, (∀ es, r = Ok es → es = canonical_entries es0) ∧ P d i)).
    unfold load_sidecar. eapply t_bind.
    { apply t_os_read. intros d i HF [HP _] _ e. split; [discriminate|done]. }
    intros []. apply t_with_disk. intros d0 w Hf [<- [HP Hv]]. unfold st_bind, st_lift.
    rewrite Hv. cbn [ok_or]. rewrite Hdec. split; [done|]. split; [|done]. by intros es [= ->]. }
  intros [es|e].
  - apply t_pure. intros Hcan. specialize (Hcan es eq_refl) as ->. apply t_ret. intros d i HP.
    split; [|done]. split; [intros e He; by apply Hes, canonical_subset|].
    intros o Ho. destruct (Hcov o Ho) as (e & He & <-). by apply canonical_keys.
  - eapply t_pre; [apply (open_rescan_spec id ids g os); [done..|]|by intros d i [_ HP]].
    apply t_ret. intros d i HP. split; [|done]. split; [done|]. intros o Ho. by apply entries_at_key.
Qed.

(** ** The newest segment *)

Definition opened (g : Ghost) (a : ActiveSegment) (d : PackDisk) (i : Index) : Prop :=
  ∃ g', ghost_le g g' ∧ alive W g' d i a.

(** Too short for a header: it is written again. *)
Lemma initialize_spec g id f (ψ : Index → Prop) :
  g !! id = None → seg_fresh id f →
  triple F (λ d i, top_at W g id f d ∧ ψ i) (initialize_segment_file id)
    (λ _ d i, top_at W (<[id := []]> g) id (sf_stable (segment_bytes id [])) d ∧ ψ i)
    (λ d i, disk_inv W g d ∧ ψ i).
Proof.
  intros Hg Hfr. unfold initialize_segment_file.
  assert (∀ f' d i, F → top_at W g id f' d ∧ ψ i → disk_inv W g d ∧ ψ i) as Hfail
    by (by intros f' d i _ [(H & _) Hψ]).
  set (f1 := sf_set_len 0 f). set (f2 := sf_write 0 (segment_header id) f1).
  assert (seg_fresh id f1) as H1 by (by apply seg_fresh_cut).
  eapply t_bind.
  { apply (t_os_try _ _ _ (λ d i, top_at W g id f1 d ∧ ψ i)); [|by apply Hfail].
    intros d i [Ht Hψ]. split; [|done]. apply top_at_alter; [done|]. by rewrite Hg. }
  intros []. eapply t_bind.
  { apply (t_os_call _ _ _ _ (λ d i, top_at W g id f2 d ∧ ψ i)).
    - intros d i [Ht Hψ]. split; [|done]. apply top_at_alter; [done|]. rewrite Hg. by apply seg_fresh_write.
    - intros n d i _ [Ht Hψ]. split; [|done]. apply (top_at_alter W g id f1 _ d Ht). rewrite Hg.
      apply seg_fresh_write; [done|done|apply takeN_prefix]. }
  intros []. eapply t_bind.
  { apply (t_os_try _ _ _ (λ d i, top_at W g id (sf_sync f2) d ∧ ψ i)); [|by apply Hfail].
    intros d i [Ht Hψ]. split; [|done]. apply top_at_alter; [done|]. rewrite Hg.
    by apply seg_fresh_sync, seg_fresh_write. }
  intros []. apply t_os_try; [|by apply Hfail].
  intros d i [Ht%top_at_sync Hψ]. split; [|done].
  pose proof (seg_fresh_exact W id f1 eq_refl) as Hx.
  assert (sf_link (sf_sync f2) = sf_stable (segment_bytes id [])) as <- by apply Hx.
  apply top_at_adopt; [done|]. by apply seg_exact_durable.
Qed.

Lemma open_active_spec g id f es (ψ : Index → Prop) :
  triple F (λ d i, top_at W g id f d ∧ ψ i) (open_active_segment id es)
    (λ a d i, a = {| as_id := id; as_len := len (sf_bytes f); as_entries := es |} ∧ top_at W g id f d ∧ ψ i)
    (open_failed g).
Proof.
  unfold open_active_segment. eapply t_bind; [apply (segment_content_spec id f)|].
  { by intros d i [(_ & Hf & _) _]. }
  { intros d i _ [(Hd & _) _]. by exists g. }
  intros c. apply t_pure. intros ->. by apply t_ret.
Qed.

Lemma alive_opened g id os d i :
  g !! id = Some os → seg_limits W id os → top_at W g id (sf_stable (segment_bytes id os)) d →
  index_inv g i → index_at g i id →
  alive W g d i {| as_id := id; as_len := len (segment_bytes id os);
                   as_entries := segment_entries_of id os |}.
Proof.
  intros Hg Hl (Hd & Hf & Ht & Hn) Hi Hat. split; [done|]. split; [done|]. split; [done|].
  exists os, (sf_stable (segment_bytes id os)). cbn [as_id as_len as_entries]. split_and!; try done.
  unfold len, segment_entries_of. by rewrite length_entries_at.
Qed.

Lemma open_keys_nil g i : open_keys [] g i → index_inv g i.
Proof. intros [H1 H2]. split; [done|]. intros id os o Hg Ho. eapply H2; [done|apply not_elem_of_nil|done]. Qed.

Lemma index_at_publish g id os es i :
  g !! id = Some os → (∀ e, e ∈ es → e ∈ segment_entries_of id os) →
  (∀ o, o ∈ os → ∃ e, e ∈ es ∧ ie_key e = object_key o) →
  index_at g (publish_into es i) id.
Proof.
  intros Hg Hes Hcov os' o E Ho. simplify_eq. destruct (Hcov o Ho) as (e & He & <-).
  destruct (publish_new es i e He) as (e' & He' & ->). exists (ie_location e'). split; [done|].
  by eapply segment_entry_id, Hes.
Qed.

(** With a header: its records are found, a torn one is cut off. *)
Lemma open_newest_spec g id os tail :
  g !! id = Some os → seg_limits W id os → (tail = [] ∨ torn tail) →
  seg_durable W id os (sf_stable (segment_bytes id os ++ tail)) →
  triple F (λ d i, top_at W g id (sf_stable (segment_bytes id os ++ tail)) d ∧ open_keys [id] g i)
    (let! scan := scan_segment id true in
     let! _ := publish_entries (ss_entries scan) in
     let! active := open_active_segment id (ss_entries scan) in
     st_ret (Some active))
    (λ r d i, ∃ a, r = Some a ∧ alive W g d i a) (open_failed g).
Proof.
  intros Hg Hl Ht Hd. eapply t_bind.
  { eapply t_conseq; [by apply (scan_torn_spec g id os tail (open_keys [id] g))|done|done|].
    intros d i [H _]. by exists g. }
  intros scan. apply t_pure. intros ->. cbn [ss_entries].
  assert (∀ o, o ∈ os → ∃ e, e ∈ segment_entries_of id os ∧ ie_key e = object_key o) as Hcov
    by (intros o Ho; by apply entries_at_key).
  eapply t_bind.
  { apply (publish_spec _ _ (λ d i, top_at W g id (sf_stable (segment_bytes id os)) d ∧
                                    (index_inv g i ∧ index_at g i id))).
    intros d i [Htop Hk]. split; [done|]. split.
    - apply open_keys_nil. by eapply open_keys_publish.
    - by eapply index_at_publish. }
  intros []. eapply t_bind; [apply open_active_spec|]. intros a. apply t_pure. intros ->.
  apply t_ret. intros d i [Htop [Hi Hat]]. eexists. split; [done|]. cbn [sf_stable sf_bytes].
  by apply alive_opened.
Qed.

(** ** One turn *)

Definition open_turn (ids : list N) (g : Ghost) (r : option ActiveSegment) (d : PackDisk) (i : Index) : Prop :=
  ∃ g', ghost_le g g' ∧
    match r with Some a => ids = [] ∧ alive W g' d i a | None => open_inv ids g' d i end.

Section turn.
Context (id : N) (ids : list N) (g : Ghost) (d0 : PackDisk) (i0 : Index).
Context (Hs : StronglySorted N.lt (id :: ids)) (H : open_inv (id :: ids) g d0 i0).

Definition pinned (d : PackDisk) (i : Index) : Prop := d = d0 ∧ i = i0.

Lemma turn_id : id ≤ U64_MAX ∧ id ∉ ids.
Proof.
  split.
  - apply (di_ids W g d0 (oi_disk _ _ _ _ H)).
    destruct (oi_settled _ _ _ _ H id ltac:(left)) as [(f & Hf & _) _]. by rewrite Hf.
  - apply StronglySorted_inv in Hs as [_ Hlt]. rewrite Forall_forall in Hlt. intros Hin.
    specialize (Hlt id Hin). lia.
Qed.

Lemma pinned_failed d i : F → pinned d i → open_failed g d i.
Proof. intros _ [-> ->]. exists g. split; [done|]. apply (oi_disk _ _ _ _ H). Qed.

(** The content of the segment, checked. *)
Lemma turn_header_spec {A} f rest (k : unit → Pack A) Q :
  pk_segments d0 !! id = Some f → sf_bytes f = segment_header id ++ rest →
  triple F pinned (k tt) Q (open_failed g) →
  triple F pinned
    (let! header := segment_content id in
     let! u := st_lift (validate_segment_header header id) in k u) Q (open_failed g).
Proof.
  intros Hf Hb Hk. eapply t_bind; [apply (segment_content_spec id f _ (open_failed g))|].
  { by intros d i [-> _]. } { apply pinned_failed. }
  intros c. apply t_pure. intros ->. rewrite Hb, validate_segment_header_ok by apply turn_id.
  eapply t_bind; [apply (t_lift_ok _ tt _ (λ _, pinned)); [done|by intros]|]. by intros [].
Qed.

(** A complete segment, from the state before its turn. *)
Lemma turn_sealing os :
  g !! id = Some os → pk_segments d0 !! id = Some (sf_stable (segment_bytes id os)) →
  sealing W g id os (open_frame ids g) (open_keys (id :: ids) g) d0 i0.
Proof.
  intros Hg Hf. split; [|split; [apply (oi_index _ _ _ _ H)|apply (oi_keys _ _ _ _ H)]].
  split; [split_and!; [apply (oi_disk _ _ _ _ H)|done..]|]. by eapply open_inv_frame.
Qed.

(** The end of the turn of a complete segment. *)
Lemma turn_publish_spec os es :
  g !! id = Some os → (∀ e, e ∈ es → e ∈ segment_entries_of id os) →
  (∀ o, o ∈ os → ∃ e, e ∈ es ∧ ie_key e = object_key o) →
  triple F (sealing W g id os (open_frame ids g) (open_keys (id :: ids) g))
    (let! _ := publish_entries es in st_ret None) (open_turn ids g) (open_failed g).
Proof.
  intros Hg Hes Hcov. eapply t_bind; [apply (publish_spec _ _ (open_inv ids g))|].
  { intros d i (((Hd & _) & Hfr) & Hk). apply open_inv_intro; [done..|]. by eapply open_keys_publish. }
  intros []. apply t_ret. intros d i Ho. exists g. done.
Qed.

Lemma turn_limits os f : g !! id = Some os → pk_segments d0 !! id = Some f → seg_limits W id os.
Proof.
  intros Hg Hf. destruct (di_durable W g d0 (oi_disk _ _ _ _ H) id os Hg) as (f' & _ & Hd).
  by eapply seg_durable_limits.
Qed.

Lemma turn_visible_spec b f :
  sd_visible (pk_sidecar id d0) = Some b → pk_segments d0 !! id = Some f →
  ∃ os, g !! id = Some os ∧ f = sf_stable (segment_bytes id os) ∧
  triple F pinned
    (let! entries := open_sealed id (len (segment_bytes id os)) in
     let! _ := publish_entries entries in
     st_ret None) (open_turn ids g) (open_failed g).
Proof.
  intros Hv Hf. pose proof (oi_disk _ _ _ _ H) as Hd.
  assert (Some b ∈ sd_contents (pk_sidecar id d0)) as Hb by (rewrite <-Hv; apply sd_visible_contents).
  destruct (di_sidecar W g d0 Hd id b Hb) as (os & Hg & es0 & -> & Hes & Hcov).
  destruct (di_exact W g d0 Hd id os f Hg Hf) as [[-> Hl]|[_ Hn]]; [|by destruct (Hn _ Hb)].
  exists os. split; [done|]. split; [done|]. destruct turn_id as [Hid Hin].
  eapply t_bind.
  { eapply t_pre; [by apply (open_sealed_spec id ids g os es0)|].
    intros d i [-> ->]. split; [by apply turn_sealing|done]. }
  intros es. apply t_pure. intros [He1 He2]. by apply turn_publish_spec.
Qed.

Lemma turn_rescan_spec os :
  g !! id = Some os → pk_segments d0 !! id = Some (sf_stable (segment_bytes id os)) →
  triple F pinned
    (let! scan := scan_segment id false in
     let! _ := write_sidecar id (ss_segment_len scan) (ss_entries scan) in
     let! _ := publish_entries (ss_entries scan) in
     st_ret None) (open_turn ids g) (open_failed g).
Proof.
  intros Hg Hf. destruct turn_id as [Hid Hin]. pose proof (turn_limits os _ Hg Hf) as Hl.
  eapply t_pre; [apply (open_rescan_spec id ids g os (λ es, let! _ := publish_entries es in st_ret None));
    [done..|]|intros d i [-> ->]; by apply turn_sealing].
  apply turn_publish_spec; [done..|]. intros o Ho. by apply entries_at_key.
Qed.

(** The last turn, of a segment without a sidecar. *)
Lemma turn_top : ids = [] → is_top id d0.
Proof.
  intros Hnil id' Hs'. destruct (decide (id' = id)) as [->|Hne]; [lia|].
  apply N.lt_le_incl, (oi_below _ _ _ _ H); [done| |left]. rewrite Hnil.
  by intros ?%list_elem_of_singleton.
Qed.

Lemma turn_no_sidecar : sd_visible (pk_sidecar id d0) = None → no_sidecar id d0.
Proof.
  intros Hv c. destruct (oi_settled _ _ _ _ H id ltac:(left)) as [_ Hp].
  unfold sd_contents, sd_visible in *. rewrite Hp in *. cbn in Hv. rewrite Hv.
  by intros ?%list_elem_of_singleton.
Qed.

Lemma turn_initialize_spec f :
  ids = [] → sd_visible (pk_sidecar id d0) = None → pk_segments d0 !! id = Some f →
  len (sf_bytes f) < SEGMENT_HEADER_BYTES →
  triple F pinned
    (let! _ := initialize_segment_file id in
     let! active := open_active_segment id [] in
     st_ret (Some active)) (open_turn ids g) (open_failed g).
Proof.
  intros Hnil Hv Hf Hlen. pose proof (oi_disk _ _ _ _ H) as Hd.
  assert (g !! id = None) as Hg.
  { destruct (g !! id) as [os|] eqn:E; [|done].
    destruct (di_durable W g d0 Hd id os E) as (f' & Hf' & Hdu). simplify_eq.
    apply seg_durable_bytes, prefix_length in Hdu.
    pose proof (len_segment_bytes id os). unfold len in *. lia. }
  destruct (di_fresh W g d0 Hd id f Hf Hg) as [Hfr Ht].
  eapply t_bind.
  { eapply t_conseq; [by apply (initialize_spec g id f (open_keys [id] g))| |done|].
    - intros d i [-> ->]. split; [split_and!; [done..|by apply turn_no_sidecar]|]. rewrite Hnil in H.
      split; [apply (oi_index _ _ _ _ H)|apply (oi_keys _ _ _ _ H)].
    - intros d i [Hdi _]. by exists g. }
  intros []. eapply t_bind.
  { eapply t_conseq; [apply (open_active_spec (<[id := []]> g) id (sf_stable (segment_bytes id [])) []
      (open_keys [id] g))|done|done|].
    intros d i (g' & Hle & Hdi). exists g'. split; [|done]. etrans; [|exact Hle].
    by apply ghost_le_created. }
  intros a. apply t_pure. intros ->. apply t_ret. intros d i [Htop [K1 K2]].
  exists (<[id := []]> g). split; [by apply ghost_le_created|]. split; [done|].
  apply (alive_opened (<[id := []]> g) id []); [by rewrite lookup_insert_eq| |done| |].
  - apply (seg_fresh_exact W id sf_created eq_refl).
  - apply (index_inv_publish g i id [] []); [split; [done|]|congruence|by intros ? ?%elem_of_nil..].
    intros id' os o Hg' Ho. eapply K2; [done| |done]. intros ->%list_elem_of_singleton. congruence.
  - intros os o E. rewrite lookup_insert_eq in E. simplify_eq. by intros ?%elem_of_nil.
Qed.

(** The records of the newest segment, adopted when it only has a header. *)
Lemma turn_adopt f :
  ids = [] → sd_visible (pk_sidecar id d0) = None → pk_segments d0 !! id = Some f →
  SEGMENT_HEADER_BYTES ≤ len (sf_bytes f) →
  ∃ g' os tail, ghost_le g g' ∧ g' !! id = Some os ∧ seg_limits W id os ∧ (tail = [] ∨ torn tail) ∧
    f = sf_stable (segment_bytes id os ++ tail) ∧ seg_durable W id os f ∧ top_at W g' id f d0 ∧
    open_keys [id] g' i0.
Proof.
  intros Hnil Hv Hf Hlen. pose proof (oi_disk _ _ _ _ H) as Hd.
  destruct (oi_settled _ _ _ _ H id ltac:(left)) as [(f' & Hf' & Hst & Htail) _].
  rewrite Hf in Hf'. injection Hf' as <-.
  assert (top_at W g id f d0) as Htop.
  { split_and!; [done|done|by apply turn_top|by apply turn_no_sidecar]. }
  assert (open_keys [id] g i0) as Hk.
  { rewrite <-Hnil. split; [apply (oi_index _ _ _ _ H)|apply (oi_keys _ _ _ _ H)]. }
  destruct (g !! id) as [os|] eqn:Hg.
  - destruct (Htail os eq_refl) as (tail & Hb & Ht). exists g, os, tail.
    destruct (di_durable W g d0 Hd id os Hg) as (f'' & Hf'' & Hdu). simplify_eq.
    split_and!; try done; [by eapply seg_durable_limits|]. by rewrite Hst, Hb.
  - destruct (di_fresh W g d0 Hd id f Hf Hg) as [Hfr Ht]. apply Forall_cons in Hfr as [Hpre _].
    assert (sf_bytes f = segment_bytes id []) as Hb.
    { unfold segment_bytes, records. rewrite app_nil_r. apply prefix_length_eq; [done|].
      pose proof (len_segment_header id). unfold len in *. lia. }
    assert (seg_exact W id [] f) as Hx.
    { split; [by rewrite Hst, Hb|]. apply (seg_fresh_exact W id sf_created eq_refl). }
    exists (<[id := []]> g), [], [].
    split; [by apply ghost_le_created|]. split; [by rewrite lookup_insert_eq|].
    split; [apply Hx|]. split; [by left|]. split; [by rewrite app_nil_r, <-Hb|].
    split; [by apply seg_exact_durable|]. split; [apply top_at_adopt; [done|by apply seg_exact_durable]|].
    destruct Hk as [K1 K2]. split.
    + intros k l Hl. destruct (K1 k l Hl) as (id' & os' & Hg' & He). exists id', os'.
      rewrite lookup_insert_ne by congruence. done.
    + intros id' os' o Hg' Hin Ho. rewrite lookup_insert_ne in Hg'.
      * by eapply K2.
      * intros ->. apply Hin. left.
Qed.

Lemma turn_newest_spec f :
  ids = [] → sd_visible (pk_sidecar id d0) = None → pk_segments d0 !! id = Some f →
  SEGMENT_HEADER_BYTES ≤ len (sf_bytes f) →
  triple F pinned
    (let! scan := scan_segment id true in
     let! _ := publish_entries (ss_entries scan) in
     let! active := open_active_segment id (ss_entries scan) in
     st_ret (Some active)) (open_turn ids g) (open_failed g).
Proof.
  intros Hnil Hv Hf Hlen.
  destruct (turn_adopt f Hnil Hv Hf Hlen) as (g' & os & tail & Hle & Hg & Hl & Ht & -> & Hdu & Htop & Hk).
  eapply t_conseq; [by apply (open_newest_spec g' id os tail)| | |].
  - by intros d i [-> ->].
  - intros r d i (a & -> & Ha). exists g'. done.
  - intros d i (g2 & Hle2 & Hd2). exists g2. split; [by etrans|done].
Qed.
End turn.

Lemma open_segment_spec id ids g :
  StronglySorted N.lt (id :: ids) →
  triple F (open_inv (id :: ids) g) (open_segment id (bool_decide (ids = []))) (open_turn ids g) (open_failed g).
Proof.
  intros Hs. apply t_pin. intros d0 i0 H.
  destruct (oi_settled _ _ _ _ H id ltac:(left)) as [(f & Hf & Hst & Htail) _].
  unfold open_segment.
  eapply t_bind; [apply (segment_content_spec id f _ (open_failed g)); [by intros d i [-> _]|]|].
  { by eapply pinned_failed. }
  intros c. apply t_pure. intros ->. apply t_with_disk. intros d1.
  eapply (t_pre _ _ (λ d i, d1 = d0 ∧ pinned d0 i0 d i)); [|by intros d i (-> & -> & ->)].
  apply t_pure. intros ->.
  assert (SEGMENT_HEADER_BYTES ≤ len (sf_bytes f) → ∃ rest, sf_bytes f = segment_header id ++ rest) as Hhead.
  { intros Hlen. destruct (g !! id) as [os|] eqn:Hg.
    - destruct (Htail os eq_refl) as (tail & -> & _). eexists. unfold segment_bytes. by rewrite <-app_assoc.
    - destruct (di_fresh W g d0 (oi_disk _ _ _ _ H) id f Hf Hg) as [[Hpre _]%Forall_cons _].
      exists []. rewrite app_nil_r. apply prefix_length_eq; [done|].
      pose proof (len_segment_header id). unfold len in *. lia. }
  destruct (sd_visible (pk_sidecar id d0)) as [b|] eqn:Hv.
  - rewrite (bool_decide_true (is_Some (Some b))) by done. rewrite andb_false_r. cbn [andb].
    destruct (turn_visible_spec id ids g d0 i0 Hs H b f Hv Hf) as (os & Hg & -> & Htr).
    cbn [sf_stable sf_bytes] in *. eapply (turn_header_spec id ids g d0 i0 Hs H _ (records os) (λ _, _)); [exact Hf|done|exact Htr].
  - rewrite (bool_decide_false (is_Some None)) by (by intros []). cbn [negb]. rewrite andb_true_r.
    case_bool_decide as Hnil.
    + destruct (N.ltb_spec (len (sf_bytes f)) SEGMENT_HEADER_BYTES) as [Hlt|Hge]; cbn [andb].
      * by eapply turn_initialize_spec.
      * destruct (Hhead Hge) as [rest Hb].
        eapply (turn_header_spec id ids g d0 i0 Hs H f rest (λ _, _)); [done..|].
        by eapply turn_newest_spec.
    + cbn [andb].
      assert (∃ os, g !! id = Some os ∧ f = sf_stable (segment_bytes id os)) as (os & Hg & ->).
      { destruct ids as [|id2 ids']; [done|].
        assert (¬ is_top id d0) as Hnt.
        { intros Ht. destruct (oi_settled _ _ _ _ H id2 ltac:(right; left)) as [(f2 & Hf2 & _) _].
          assert (id2 ≤ id) by (apply Ht; by rewrite Hf2).
          apply StronglySorted_inv in Hs as [_ [Hlt _]%Forall_cons]. lia. }
        destruct (g !! id) as [os|] eqn:Hg.
        - exists os. split; [done|].
          destruct (di_exact W g d0 (oi_disk _ _ _ _ H) id os f Hg Hf) as [[-> _]|[Ht _]]; done.
        - destruct (di_fresh W g d0 (oi_disk _ _ _ _ H) id f Hf Hg) as [_ Ht]. done. }
      cbn [sf_stable sf_bytes] in *.
      eapply (turn_header_spec id ids g d0 i0 Hs H _ (records os) (λ _, _)); [exact Hf|done|].
      by eapply turn_rescan_spec.
Qed.

Lemma open_segments_spec ids g :
  StronglySorted N.lt ids →
  triple F (open_inv ids g) (open_segments ids None)
    (λ r d i, ∃ g', ghost_le g g' ∧
       match r with Some a => alive W g' d i a | None => open_inv [] g' d i end) (open_failed g).
Proof.
  intros Hs. revert g. induction Hs as [|id ids Hs IH Hlt]; intros g; cbn [open_segments].
  { apply t_ret. intros d i H. by exists g. }
  eapply t_bind; [apply open_segment_spec; by constructor|]. intros [a|].
  - apply t_exists. intros g'. apply t_pure. intros Hle. apply t_pure. intros ->. cbn [open_segments].
    apply t_ret. intros d i Ha. by exists g'.
  - apply t_exists. intros g'. apply t_pure. intros Hle.
    eapply t_conseq; [apply IH|done| |].
    + intros r d i (g2 & Hle2 & Hr). exists g2. split; [by etrans|done].
    + intros d i (g2 & Hle2 & Hr). exists g2. split; [by etrans|done].
Qed.
End open.

Section open_store.
Context {B3 : Blake3} {HX : Hex} {JV : JsonValue}.
Context (W : PackedObject → Prop) {F : Prop}.

Lemma sorted_ids_last (l : list N) id : StronglySorted N.lt l → id ∈ l → id ≤ default 0 (last l).
Proof.
  intros Hs. induction Hs as [|x l Hs IH Hx]; [by intros ?%elem_of_nil|].
  rewrite elem_of_cons, last_cons. rewrite Forall_forall in Hx. intros [->|Hin].
  - destruct (last l) as [y|] eqn:E; [|cbn; lia].
    apply last_Some_elem_of in E. specialize (Hx y E). cbn. lia.
  - specialize (IH Hin). destruct (last l) as [y|] eqn:E; [done|].
    apply last_None in E as ->. by apply elem_of_nil in Hin.
Qed.

Lemma settled_open_inv g d ids :
  settled W g d → (∀ id, id ∈ ids ↔ is_Some (pk_segments d !! id)) → StronglySorted N.lt ids →
  open_inv W (default 0 (last ids)) ids g d ∅.
Proof.
  intros (Hd & Hst & Htail & Hside) Hids Hs. split.
  - done.
  - intros k l E. by rewrite lookup_empty in E.
  - intros id os o Hg Hin. destruct (di_durable W g d Hd id os Hg) as (f & Hf & _).
    exfalso. apply Hin, Hids. by rewrite Hf.
  - intros id [f Hf]%Hids. split; [|done]. exists f. split_and!; [done|eauto|]. eauto.
  - intros id f Hf Hin. exfalso. apply Hin, Hids. by rewrite Hf.
  - intros id x Hs' Hin. exfalso. by apply Hin, Hids.
  - intros id Hs'%Hids. by apply sorted_ids_last.
Qed.

(** Opening a store after a crash: it succeeds unless there is a fault, and
    then every durable record is indexed and the writer can append; with a
    fault, everything durable still is. *)
Lemma open_store_spec g :
  triple F (λ d i, (settled W g d ∧ ∀ id, is_Some (pk_segments d !! id) → id < U64_MAX) ∧ i = ∅)
    open (λ a d i, ∃ g', ghost_le g g' ∧ alive W g' d i a) (open_failed W g).
Proof.
  unfold open. set (P := λ d i, (settled W g d ∧ ∀ id, is_Some (pk_segments d !! id) → id < U64_MAX) ∧ i = ∅).
  assert (∀ d i, F → P d i → open_failed W g d i) as Hfail.
  { intros d i _ [[(Hd & _) _] _]. by exists g. }
  eapply t_bind; [by apply t_os_read|]. intros []. eapply t_bind.
  { unfold list_segment_ids. eapply t_bind; [by apply t_os_read|]. intros [].
    apply t_with_disk. intros d0.
    apply (t_ret _ _ (λ l d i, l = omap segment_id_of_name (directory_names d) ∧ P d i)).
    by intros d i [<- HP]. }
  intros listed. apply t_pin. intros d0 i0 (-> & (Hset & Hmax) & ->).
  set (ids := sorted_ids (omap segment_id_of_name (directory_names d0))).
  assert (∀ id, id ∈ ids ↔ is_Some (pk_segments d0 !! id)) as Hids.
  { intros id. unfold ids. rewrite elem_of_sorted_ids. eapply listed_ids, Hset. }
  assert (StronglySorted N.lt ids) as Hs by apply sorted_ids_sorted.
  eapply t_bind.
  { eapply t_pre; [by apply (open_segments_spec W (default 0 (last ids)) ids g)|].
    intros d i [-> ->]. by apply settled_open_inv. }
  intros [a|]; apply t_exists; intros g'; apply t_pure; intros Hle.
  { apply t_ret. intros d i Ha. by exists g'. }
  assert (default 0 (last ids) < U64_MAX) as Hlast.
  { destruct (last ids) as [id|] eqn:E; [|done]. cbn. apply Hmax, Hids. by apply last_Some_elem_of. }
  generalize dependent (default 0 (last ids)). intros top Hlast.
  assert (checked_add64 top 1 = Some (top + 1)) as ->.
  { unfold checked_add64. destruct (N.leb_spec (top + 1) U64_MAX); [done|lia]. }
  eapply t_bind; [apply (t_lift_ok _ (top + 1) _ (λ r d i, r = top + 1 ∧ open_inv W top [] g' d i)); by intros|].
  intros next. apply t_pure. intros ->.
  eapply t_conseq; [apply (create_spec W g' (top + 1) (λ i, open_keys [] g' i)); lia| | |].
  - intros d i H. split; [|split; [apply (oi_index _ _ _ _ _ _ H)|apply (oi_keys _ _ _ _ _ _ H)]].
    split; [apply (oi_disk _ _ _ _ _ _ H)|]. split.
    + intros id f Hf. apply (oi_exact _ _ _ _ _ _ H); [done|apply not_elem_of_nil].
    + intros id Hs'. apply (oi_newest _ _ _ _ _ _ H) in Hs'. lia.
  - intros a d i (-> & Hg & Hk%open_keys_nil & f & Hx & Htop).
    exists (<[top + 1 := []]> g'). split; [|by eapply alive_created].
    etrans; [exact Hle|by apply ghost_le_created].
  - intros d i [Hd _]. by exists g'.
Qed.
End open_store.
