(* ===== verification/PackCrash.v ===== *)
(** The pack store as a state machine: it is opened, appends groups, is read
    and scrubbed, fails and crashes, in any order. Whatever it acknowledged is
    found again.

    What the machine does not do, because the store does not survive it:
    - the process does not restart on its own, without the machine: a start
      after a crash finds durable records only, while one that finds records
      that were never synchronised answers for them (PackExamples,
      [restart_acknowledges_unsynced]);
    - the system fails no read and no scrub: one transient error makes a read
      hide the object until the next start;
    - a group that does not fit the segment meets neither a fault nor a crash
      before it is rolled back: it is written before it is refused, and a start
      refuses a segment with more records than the limit;
    - a crash leaves of what was not synchronised a prefix, no zeros and no
      garbage: a start refuses a segment with a tail that is neither records
      nor the beginning of one ([garbage_tail_refused]). *)

From S2P Require Import Prelude Bytes Keyed Hash Chunk Faults RootHead Crc32c PackFormat PackFormatProps.
From S2P Require Import PackFormatProps PackStore PackInvariant PackStoreProps PackOpenProps.
Local Open Scope N_scope.

Section machine.
Context {B3 : Blake3} {HX : Hex} {JV : JsonValue}.

(** * The machine *)

(** [Offline] after a crash, [Failed] when the process could not open the
    store, [Online] while it serves, with the writer's segment until it meets
    an error (the writer thread ends then). *)
Inductive Phase :=
  | Offline (d : PackDisk)
  | Failed (d : PackDisk)
  | Online (d : PackDisk) (i : Index) (writer : option ActiveSegment).

Record PackState := { ps_phase : Phase; ps_acked : list PackedObject }.

Definition phase_disk (p : Phase) : PackDisk :=
  match p with Offline d => d | Failed d => d | Online d _ _ => d end.

Definition online (w : PackWorld) (writer : option ActiveSegment) : Phase :=
  Online (w_disk w) (w_index w) writer.

(** Segment ids are [u64]: there is one left. *)
Definition ids_left (d : PackDisk) : Prop := ∀ id, is_Some (pk_segments d !! id) → id < U64_MAX.

(** [W] is any property of the objects the callers hand to the writer. *)
Inductive pack_step (W : PackedObject → Prop) : PackState → PackState → Prop :=
  | step_open d fates acked a w :
      ids_left d → open (world d fates ∅) = (Ok a, w) →
      pack_step W {| ps_phase := Offline d; ps_acked := acked |}
                  {| ps_phase := online w (Some a); ps_acked := acked |}
  | step_open_failed d fates acked e w :
      ids_left d → open (world d fates ∅) = (Err e, w) →
      pack_step W {| ps_phase := Offline d; ps_acked := acked |}
                  {| ps_phase := Failed (w_disk w); ps_acked := acked |}
  | step_append d i a fates objects acked a' w :
      Forall object_valid objects → Forall W objects → group_fits a objects → as_id a < U64_MAX →
      append_group a objects NoCommitFault (world d fates i) = (Ok a', w) →
      pack_step W {| ps_phase := Online d i (Some a); ps_acked := acked |}
                  {| ps_phase := online w (Some a'); ps_acked := acked ++ objects |}
  | step_append_failed d i a fates objects acked e w :
      Forall object_valid objects → Forall W objects → group_fits a objects → as_id a < U64_MAX →
      append_group a objects NoCommitFault (world d fates i) = (Err e, w) →
      pack_step W {| ps_phase := Online d i (Some a); ps_acked := acked |}
                  {| ps_phase := online w None; ps_acked := acked |}
  | step_append_refused d i a objects acked e w :
      ¬ (Forall object_valid objects ∧ group_fits a objects) → as_len a + len (records objects) ≤ U64_MAX →
      append_group a objects NoCommitFault (world d [] i) = (Err e, w) →
      pack_step W {| ps_phase := Online d i (Some a); ps_acked := acked |}
                  {| ps_phase := online w None; ps_acked := acked |}
  | step_read d i writer key acked :
      pack_step W {| ps_phase := Online d i writer; ps_acked := acked |}
                  {| ps_phase := online (snd (read key (world d [] i))) writer; ps_acked := acked |}
  | step_read_pack_only d i writer key acked :
      pack_step W {| ps_phase := Online d i writer; ps_acked := acked |}
                  {| ps_phase := online (snd (read_pack_only key (world d [] i))) writer;
                     ps_acked := acked |}
  | step_scrub d i writer acked :
      pack_step W {| ps_phase := Online d i writer; ps_acked := acked |}
                  {| ps_phase := online (snd (scrub_once (world d [] i))) writer; ps_acked := acked |}
  | step_crash p d acked :
      pk_survives (phase_disk p) d →
      pack_step W {| ps_phase := p; ps_acked := acked |}
                  {| ps_phase := Offline d; ps_acked := acked |}.

Definition pack_start : PackState := {| ps_phase := Offline pk_empty; ps_acked := [] |}.
Definition pack_reachable (W : PackedObject → Prop) (s : PackState) : Prop :=
  rtc (pack_step W) pack_start s.

(** * Reading *)

Lemma read_record_valid file key location data :
  read_record file key location = Ok data → validate_bytes (ok_kind key) (ok_hash key) data = Ok tt.
Proof.
  unfold read_record. intros H. case_code; simplify_eq. bool_to_prop.
  match goal with H : is_ok _ = true |- _ => revert H end.
  destruct (validate_bytes _ _ _) as [[]|]; [done|discriminate].
Qed.

Lemma read_loose_valid key w data w' :
  read_loose_verified key w = (Ok (Some data), w') →
  validate_bytes (ok_kind key) (ok_hash key) data = Ok tt.
Proof.
  unfold read_loose_verified. destruct (os_read _ w) as [[u|e] w1]; [|by intros [=]].
  intros [= H _]. destruct (pk_loose (w_disk w1) !! key) as [b|]; [|done]. csimpl in H.
  destruct (validate_bytes (ok_kind key) (ok_hash key) b) as [[]|] eqn:E; simpl in H; by simplify_eq.
Qed.

Lemma read_location_valid key location w data w' :
  read_location key location w = (Ok data, w') →
  validate_bytes (ok_kind key) (ok_hash key) data = Ok tt.
Proof.
  unfold read_location. destruct (segment_content _ w) as [[c|e] w1]; [|by intros [=]].
  intros [= H _]. destruct (read_record c key location) as [b|] eqn:E; [|done].
  simpl in H. simplify_eq. by eapply read_record_valid.
Qed.

(** C33: whatever the disk, the index and the faults are, the bytes a read
    returns carry the content address they were asked for (for a manifest,
    the declared file hash). *)
Theorem read_returns_valid key w data w' :
  read key w = (Ok (Some data), w') ∨ read_pack_only key w = (Ok (Some data), w') →
  validate_bytes (ok_kind key) (ok_hash key) data = Ok tt.
Proof.
  unfold read, read_pack_only. intros [H|H].
  - destruct (w_index w !! key) as [l|].
    + destruct (read_location key l w) as [[b|e] w1] eqn:E.
      * injection H as <- _. by eapply read_location_valid.
      * destruct (read_loose_verified key (snd (hide_location key l w1))) as [[[b|]|e'] w2] eqn:E2; try done.
        injection H as <- _. by eapply read_loose_valid.
    + destruct (read_loose_verified key w) as [[[b|]|e'] w2] eqn:E2; try done.
      injection H as <- _. by eapply read_loose_valid.
  - destruct (w_index w !! key) as [l|]; [|done].
    destruct (read_location key l w) as [[b|e] w1] eqn:E; [|done].
    injection H as <- _. by eapply read_location_valid.
Qed.

(** * Reading without faults *)

Section reads.
Context (W : PackedObject → Prop) (g : Ghost).

Lemma segment_content_quiet d i id f :
  pk_segments d !! id = Some f → segment_content id (world d [] i) = (Ok (sf_bytes f), world d [] i).
Proof. intros Hf. unfold segment_content, st_bind, os_read, os_try, os_call. cbn. by rewrite Hf. Qed.

(** The record a location of the index names. *)
Lemma read_location_quiet d i k l :
  readable W g d i → i !! k = Some l →
  ∃ o, W o ∧ object_valid o ∧ object_key o = k ∧
    read_location k l (world d [] i) = (Ok (po_bytes o), world d [] i).
Proof.
  intros [Hd [Hi _]] Hl. destruct (Hi k l Hl) as (id & os & Hg & He).
  destruct (di_durable W g d Hd id os Hg) as (f & Hf & Hdu).
  pose proof (seg_durable_bytes _ _ _ _ Hdu) as [rest Hb].
  pose proof (seg_durable_limits _ _ _ _ Hdu) as [Hgood _].
  apply entries_at_inv in He as (pre & o & post & -> & E). injection E as -> ->.
  apply Forall_app in Hgood as [_ [[Hv HW] _]%Forall_cons].
  exists o. split_and!; try done. unfold read_location. cbn [rl_segment_id].
  rewrite (segment_content_quiet d i id f Hf).
  assert (read_record (sf_bytes f) (object_key o)
            (ie_location (entry_at id (SEGMENT_HEADER_BYTES + len (records pre)) o)) = Ok (po_bytes o)) as Hr.
  { rewrite <-len_segment_bytes with (segment_id := id).
    apply (read_record_ok _ (segment_bytes id pre) o (records post ++ rest)); [done|].
    rewrite Hb, segment_bytes_app, records_cons. by rewrite <-!app_assoc. }
  cbn [entry_at ie_location] in Hr. rewrite Hr. done.
Qed.

Lemma read_quiet d i k :
  readable W g d i → is_Some (i !! k) →
  ∃ o, W o ∧ object_valid o ∧ object_key o = k ∧
    read k (world d [] i) = (Ok (Some (po_bytes o)), world d [] i).
Proof.
  intros H [l Hl]. destruct (read_location_quiet d i k l H Hl) as (o & HW & Hv & Hk & Hr).
  exists o. split_and!; try done. unfold read. cbn [world w_index]. fold (world d [] i). rewrite Hl.
  by rewrite Hr.
Qed.

(** Without faults reading changes nothing. *)
Lemma read_keeps d i k : readable W g d i → snd (read k (world d [] i)) = world d [] i.
Proof.
  intros H. destruct (i !! k) as [l|] eqn:Hl.
  - destruct (read_quiet d i k H ltac:(by rewrite Hl)) as (o & _ & _ & _ & ->). done.
  - unfold read. cbn [world w_index]. rewrite Hl. unfold read_loose_verified, os_read, os_try, os_call.
    cbn. done.
Qed.

Lemma read_pack_only_keeps d i k : readable W g d i → snd (read_pack_only k (world d [] i)) = world d [] i.
Proof.
  intros H. unfold read_pack_only. cbn [world w_index]. fold (world d [] i).
  destruct (i !! k) as [l|] eqn:Hl; [|done].
  destruct (read_location_quiet d i k l H Hl) as (o & _ & _ & _ & ->). done.
Qed.

Lemma scrub_keeps d i : readable W g d i → snd (scrub_once (world d [] i)) = world d [] i.
Proof.
  intros H. unfold scrub_once. cbn [world w_index]. fold (world d [] i).
  assert (∀ k l, (k, l) ∈ map_to_list i → i !! k = Some l) as Hin
    by (intros k l; by rewrite elem_of_map_to_list).
  revert Hin. generalize {| sc_checked := 0; sc_corrupted := 0 |}.
  induction (map_to_list i) as [|[k l] kls IH]; intros stats Hin; [done|].
  cbn [st_fold]. unfold st_bind, scrub_step at 1. cbn [fst snd].
  destruct (read_location_quiet d i k l H ltac:(apply Hin; left)) as (o & _ & _ & _ & ->).
  apply IH. intros k' l' Hk. apply Hin. by right.
Qed.
End reads.

(** * The invariant *)

Definition phase_inv (W : PackedObject → Prop) (g : Ghost) (p : Phase) : Prop :=
  match p with
  | Offline d => settled W g d
  | Failed d => disk_inv W g d
  | Online d i (Some a) => alive W g d i a
  | Online d i None => readable W g d i
  end.

Definition pack_inv (W : PackedObject → Prop) (s : PackState) : Prop :=
  ∃ g, phase_inv W g (ps_phase s) ∧ Forall (in_ghost g) (ps_acked s).

Lemma phase_inv_disk W g p : phase_inv W g p → disk_inv W g (phase_disk p).
Proof. destruct p as [d|d|d i [a|]]; cbn; [by intros []|done|by intros []|by intros []]. Qed.

Lemma phase_inv_online W g d i wr : phase_inv W g (Online d i wr) → readable W g d i.
Proof. destruct wr as [a|]; cbn; [|done]. by intros (Hd & Hi & _). Qed.

Lemma in_ghosts_le g g' os : ghost_le g g' → Forall (in_ghost g) os → Forall (in_ghost g') os.
Proof. intros Hle H. eapply Forall_impl; [exact H|]. intros o. by apply in_ghost_le. Qed.

Lemma disk_inv_empty W : disk_inv W ∅ pk_empty.
Proof.
  split; cbn.
  - intros id os E. by rewrite lookup_empty in E.
  - intros id f E. by rewrite lookup_empty in E.
  - intros id os f E. by rewrite lookup_empty in E.
  - intros id c Hc. unfold pk_sidecar in Hc. cbn in Hc. rewrite lookup_empty in Hc. cbn in Hc.
    by apply list_elem_of_singleton in Hc.
  - intros id [f E]. by rewrite lookup_empty in E.
  - by intros name ?%elem_of_nil.
Qed.

Lemma pack_inv_start W : pack_inv W pack_start.
Proof.
  exists ∅. split; [|constructor]. split; [apply disk_inv_empty|]. split_and!; cbn.
  - intros id f E. by rewrite lookup_empty in E.
  - intros id os f E. by rewrite lookup_empty in E.
  - intros id. unfold pk_sidecar. cbn. by rewrite lookup_empty.
Qed.

(** ** A group that is refused *)

Lemma validate_all_inv objects : validate_all objects = Ok tt → Forall object_valid objects.
Proof.
  induction objects as [|o objects IH]; [constructor|]. cbn [validate_all].
  destruct (validate_object o) as [[]|] eqn:E; [|done]. cbn. intros H. constructor; [done|by apply IH].
Qed.

(** Written behind the end, cut off and synchronised: as it was. *)
Lemma sf_rolled_back content data :
  sf_sync (sf_set_len (len content) (sf_write (len content) data (sf_stable content))) = sf_stable content.
Proof.
  unfold sf_sync, sf_set_len, sf_write, sf_stable. cbn [sf_bytes sf_linked].
  by rewrite takeN_len, takeN_app by done.
Qed.

Lemma rolled_back d id content data :
  pk_segments d !! id = Some (sf_stable content) →
  pk_alter_segment id sf_sync (pk_alter_segment id (sf_set_len (len content))
    (pk_alter_segment id (sf_write (len content) data) d)) = d.
Proof.
  intros Hf. destruct d as [segments sidecars loose stray]. unfold pk_alter_segment. cbn in *. f_equal.
  apply map_eq. intros id'. destruct (decide (id = id')) as [<-|]; [|by rewrite !lookup_alter_ne].
  rewrite !lookup_alter_eq, Hf. exact (f_equal Some (sf_rolled_back content data)).
Qed.

(** Without faults a group with an invalid object or one that does not fit
    leaves the disk and the index as they were. *)
Lemma append_refused W g d i a objects e w :
  alive W g d i a → ¬ (Forall object_valid objects ∧ group_fits a objects) →
  as_len a + len (records objects) ≤ U64_MAX →
  append_group a objects NoCommitFault (world d [] i) = (Err e, w) → w_disk w = d ∧ w_index w = i.
Proof.
  intros (_ & _ & _ & os & f & _ & Hf & [-> Hl] & _ & _ & Hlen & _) Hno Hu. unfold append_group.
  case_bool_decide as Hnil; [done|]. unfold st_bind, st_lift.
  destruct (validate_all objects) as [[]|err] eqn:Ev; [|by intros [= _ <-]].
  apply validate_all_inv in Ev. rewrite (write_group_ok (as_id a) (as_len a) objects Ev Hu).
  unfold os_call. cbn [world w_fates w_set_disk w_disk w_extra as_entries].
  assert (len (entries_at (as_id a) (as_len a) objects) = len objects) as -> by (unfold len; by rewrite length_entries_at).
  pose proof (rolled_back d (as_id a) _ (records objects) Hf) as Hback. rewrite <-Hlen in Hback.
  destruct (N.ltb_spec MAX_SEGMENT_BYTES (as_len a + len (records objects))).
  { cbn. intros [= _ <-]. cbn. by rewrite Hback. }
  destruct (N.ltb_spec MAX_SEGMENT_OBJECTS (len (as_entries a) + len objects)).
  { cbn. intros [= _ <-]. cbn. by rewrite Hback. }
  by destruct Hno.
Qed.

Lemma alive_readable W g d i a : alive W g d i a → readable W g d i.
Proof. by intros (Hd & Hi & _). Qed.

(** A run of an operation, from its triple. *)
Lemma pack_inv_step W s s' : pack_inv W s → pack_step W s s' → pack_inv W s'.
Proof.
  intros (g & Hp & Hack) Hs.
  destruct Hs as [d fates acked a w Hid E|d fates acked e w Hid E
    |d i a fates os acked a' w Hv HW Hfit Hid E|d i a fates os acked e w Hv HW Hfit Hid E
    |d i a os acked e w Hno Hu E|d i wr k acked|d i wr k acked|d i wr acked|p d acked Hsurv]; cbn [ps_phase ps_acked] in *.
  - pose proof (triple_run True _ _ _ _ d fates ∅ (open_store_spec W g)) as H. rewrite E in H.
    destruct H as (g' & Hle & Ha); [done|done|]. exists g'. split; [done|by eapply in_ghosts_le].
  - pose proof (triple_run True _ _ _ _ d fates ∅ (open_store_spec W g)) as H. rewrite E in H.
    destruct H as (_ & g' & Hle & Ha); [done|done|]. exists g'. split; [done|by eapply in_ghosts_le].
  - assert (Forall (good W) os) as Hg by (apply Forall_and; done).
    pose proof (triple_run True _ _ _ _ d fates i (append_spec W g a os Hg Hfit Hid)) as H. rewrite E in H.
    destruct H as (_ & g' & Hle & Ha & Hin); [done|done|]. exists g'. split; [done|].
    apply Forall_app. split; [by eapply in_ghosts_le|done].
  - assert (Forall (good W) os) as Hg by (apply Forall_and; done).
    pose proof (triple_run True _ _ _ _ d fates i (append_spec W g a os Hg Hfit Hid)) as H. rewrite E in H.
    destruct H as (_ & g' & Hle & Ha); [done|done|]. exists g'. split; [done|by eapply in_ghosts_le].
  - destruct (append_refused W g d i a os e w Hp Hno Hu E) as [E1 E2]. exists g. split; [|done].
    unfold online. rewrite E1, E2. by apply alive_readable in Hp.
  - exists g. rewrite (read_keeps W g d i k) by (by eapply phase_inv_online). done.
  - exists g. rewrite (read_pack_only_keeps W g d i k) by (by eapply phase_inv_online). done.
  - exists g. rewrite (scrub_keeps W g d i) by (by eapply phase_inv_online). done.
  - destruct (disk_inv_crash W g (phase_disk p) d) as (g' & Hle & Hset);
      [by apply phase_inv_disk|done|]. exists g'. split; [done|by eapply in_ghosts_le].
Qed.

Lemma reachable_inv W s : pack_reachable W s → pack_inv W s.
Proof.
  revert s. apply (rtc_ind_r (pack_inv W)); [apply pack_inv_start|].
  intros s1 s2 _ Hs H. by eapply pack_inv_step.
Qed.

(** * The theorems *)

(** C3: an object an append has acknowledged is read back after any
    sequence of appends of groups that fit their segment and starts, which the
    operating system may fail at any point, appends that are refused, reads and
    scrubs, which it does not fail, and crashes: a read gives an object that
    was written under the same key. *)
Theorem acknowledged_object_readable W d i writer acked o :
  pack_reachable W {| ps_phase := Online d i writer; ps_acked := acked |} → o ∈ acked →
  ∃ o', W o' ∧ object_valid o' ∧ object_key o' = object_key o ∧
    fst (read (object_key o) (world d [] i)) = Ok (Some (po_bytes o')).
Proof.
  intros H Ho. apply reachable_inv in H as (g & Hp & Hack). cbn [ps_phase ps_acked] in *.
  apply phase_inv_online in Hp. rewrite Forall_forall in Hack. destruct (Hack o Ho) as (id & os & Hg & Hin).
  destruct (read_quiet W g d i (object_key o) Hp) as (o' & HW & Hv & Hk & Hr).
  { destruct Hp as [_ [_ Hi]]. by eapply Hi. }
  exists o'. by rewrite Hr.
Qed.

(** C11: after any crash the store opens again, unless the operating system
    fails it, and a group of valid objects within the limits is then
    acknowledged. The histories are those of the machine: groups that fit
    their segment with faults and crashes anywhere, groups that are refused
    (an invalid object, or too large for the segment) and rolled back
    without a fault or a crash, reads and scrubs without faults, and crashes
    that leave a prefix of what was not synchronised. *)
Theorem store_reopens W d acked objects :
  pack_reachable W {| ps_phase := Offline d; ps_acked := acked |} → ids_left d →
  ∃ a w, open (world d [] ∅) = (Ok a, w) ∧
    (Forall object_valid objects → Forall W objects → group_fits a objects → as_id a < U64_MAX →
     ∃ a' w', append_group a objects NoCommitFault (world (w_disk w) [] (w_index w)) = (Ok a', w')).
Proof.
  intros H Hid. apply reachable_inv in H as (g & Hp & _). cbn [ps_phase] in Hp.
  pose proof (triple_run False _ _ _ _ d [] ∅ (open_store_spec W g)) as Ho.
  destruct (open (world d [] ∅)) as [[a|e] w]; [|by destruct Ho as [[] _]].
  exists a, w. split; [done|]. intros Hv HW Hfit Hid'. destruct Ho as (g' & Hle & Ha); [done|done|].
  assert (Forall (good W) objects) as Hg by (apply Forall_and; done).
  pose proof (triple_run False _ _ _ _ (w_disk w) [] (w_index w) (append_spec W g' a objects Hg Hfit Hid')) as Happ.
  destruct (append_group _ _ _ _) as [[a'|e] w']; [by exists a', w'|by destruct Happ as [[] _]].
Qed.

(** * A tail that is not a record *)

Lemma scan_garbage segment_id os tail allow :
  Forall object_valid os → len os ≤ MAX_SEGMENT_OBJECTS → RECORD_HEADER_BYTES ≤ len tail →
  is_ok (decode_record_header (takeN RECORD_HEADER_BYTES tail)) = false →
  is_ok (scan_content (segment_bytes segment_id os ++ tail) segment_id allow) = false.
Proof.
  intros Hv Hn Ht Hbad. unfold scan_content.
  destruct (N.ltb_spec MAX_SEGMENT_BYTES (len (segment_bytes segment_id os ++ tail))); [done|].
  pose proof (len_records_ge os Hv). pose proof (len_segment_bytes segment_id os) as Hl.
  assert (0 < RECORD_HEADER_BYTES) by done.
  assert (∃ k, length (segment_bytes segment_id os ++ tail) = (length os + S k)%nat) as [k ->].
  { exists (length (segment_bytes segment_id os ++ tail) - length os - 1)%nat.
    rewrite length_app. unfold len in *. lia. }
  rewrite <-(len_segment_header segment_id).
  rewrite (scan_records _ os _ (segment_header segment_id) tail);
    [|done|unfold segment_bytes; by rewrite <-app_assoc|done|lia].
  rewrite <-len_app. fold (segment_bytes segment_id os). cbn [scan_loop]. rewrite len_app.
  set (n := len (segment_bytes segment_id os)) in *.
  destruct (N.ltb_spec n (n + len tail)); [|lia]. cbn [negb].
  destruct (MAX_SEGMENT_OBJECTS <? _); [done|].
  destruct (N.ltb_spec (n + len tail - n) RECORD_HEADER_BYTES); [lia|].
  rewrite (slice_skip _ tail n) by lia. rewrite N.sub_diag, N.add_comm, N.add_sub.
  replace (slice tail 0 RECORD_HEADER_BYTES) with (takeN RECORD_HEADER_BYTES tail) by (unfold slice; by rewrite N.sub_0_r).
  by destruct (decode_record_header _).
Qed.

Section keeps.
Context (id : N) (content : bytes).

(** The segment has this content, and no sidecar. *)
Definition kept (d : PackDisk) (i : Index) : Prop :=
  sf_bytes <$> pk_segments d !! id = Some content ∧ sd_visible (pk_sidecar id d) = None.
Definition keeps {A} (m : Pack A) : Prop := triple True kept m (λ _, kept) kept.

Lemma keeps_ret {A} (a : A) : keeps (st_ret a).
Proof. by apply t_ret. Qed.
Lemma keeps_err {A} e : keeps (st_err (A := A) e).
Proof. by apply t_err. Qed.
Lemma keeps_bind {A B} (m : Pack A) (k : A → Pack B) : keeps m → (∀ a, keeps (k a)) → keeps (st_bind m k).
Proof. intros H1 H2. eapply t_bind; [exact H1|exact H2]. Qed.
Lemma keeps_lift {A} (r : IoResult A) : keeps (st_lift r).
Proof. destruct r; [apply keeps_ret|apply keeps_err]. Qed.
Lemma keeps_disk {B} (k : PackDisk → Pack B) : (∀ d, keeps (k d)) → keeps (st_bind get_disk k).
Proof. intros H. apply t_with_disk. intros d. eapply t_pre; [apply H|]. by intros ? ? [_ ?]. Qed.
Lemma keeps_result {A} (m : Pack A) : keeps m → keeps (os_result m).
Proof. intros H. apply t_os_result. eapply t_conseq; [exact H|done..]. Qed.
Lemma keeps_call message f g :
  (∀ d i, kept d i → kept (f d) i) → (∀ n d i, kept d i → kept (g n d) i) → keeps (os_call message f g).
Proof. intros Hf Hg. apply t_os_call; auto. Qed.
Lemma keeps_publish es : keeps (publish_entries es).
Proof. intros w Hf Hk. cbn. by split. Qed.

Lemma kept_alter id' g d i : id' ≠ id → kept d i → kept (pk_alter_segment id' g d) i.
Proof. intros Hne [H1 H2]. split; [|done]. cbn. by rewrite lookup_alter_ne. Qed.
Lemma kept_sidecar id' c d i : id' ≠ id → kept d i → kept (pk_set_sidecar id' c d) i.
Proof. intros Hne [H1 H2]. split; [done|]. unfold pk_sidecar in *. cbn. by rewrite lookup_insert_ne. Qed.
Lemma kept_sync d i : kept d i → kept (pk_sync_directory d) i.
Proof.
  intros [H1 H2]. unfold kept, pk_sidecar in *. cbn. rewrite !lookup_fmap.
  destruct (pk_segments d !! id), (pk_sidecars d !! id); done.
Qed.

Ltac keep :=
  repeat first
    [ apply keeps_disk; intros ? | apply keeps_bind; [|intros ?] | apply keeps_ret | apply keeps_err
    | apply keeps_lift | apply keeps_publish | apply keeps_result
    | apply keeps_call; intros; first [done | by apply kept_alter | by apply kept_sidecar | by apply kept_sync]
    | case_match ].

(** The turns for the other segments do not touch it. *)
Lemma keeps_open_segment id' is_last : id' ≠ id → keeps (open_segment id' is_last).
Proof.
  intros Hne. unfold open_segment, segment_content, initialize_segment_file, open_active_segment, open_sealed,
    load_sidecar, scan_segment, write_sidecar, truncate_segment_tail, segment_content, replace_file, sync_directory.
  unfold os_read, os_try. keep.
Qed.

Context (Hbad : ∀ allow, is_ok (scan_content content id allow) = false) (Hlen : SEGMENT_HEADER_BYTES ≤ len content).

Lemma content_kept : triple True kept (segment_content id) (λ c d i, c = content ∧ kept d i) kept.
Proof.
  unfold segment_content. eapply t_bind; [by apply t_os_read|]. intros []. apply t_with_disk. intros d0.
  intros w Hf (E & Hk). cbn. rewrite <-E. destruct Hk as [H1 H2]. by rewrite H1.
Qed.

Lemma scan_refused allow : triple True kept (scan_segment id allow) (λ _ _ _, False) kept.
Proof.
  unfold scan_segment. eapply t_bind; [exact content_kept|]. intros c. apply t_pure. intros ->.
  specialize (Hbad allow). destruct (scan_content content id allow); [done|]. intros w Hf Hk. cbn. done.
Qed.

Lemma open_segment_refused is_last : triple True kept (open_segment id is_last) (λ _ _ _, False) kept.
Proof.
  unfold open_segment. eapply t_bind; [exact content_kept|]. intros c. apply t_pure. intros ->.
  apply t_with_disk. intros d0. apply t_pin. intros d1 i1 (-> & Hk). destruct Hk as [H1 H2] eqn:Ek. clear Ek.
  rewrite H2. rewrite bool_decide_eq_false_2 by (by intros [? ?]).
  destruct (N.ltb_spec (len content) SEGMENT_HEADER_BYTES); [lia|]. rewrite andb_false_r.
  eapply t_pre; [|intros ? ? [-> ->]; exact Hk].
  eapply t_bind; [exact content_kept|]. intros header. apply t_pure. intros ->.
  eapply t_bind; [apply keeps_lift|]. intros [].
  destruct is_last; (eapply t_bind; [apply scan_refused|]; by intros ? ? ? []).
Qed.

Lemma open_segments_refused ids active :
  id ∈ ids → triple True kept (open_segments ids active) (λ _ _ _, False) kept.
Proof.
  revert active. induction ids as [|id' ids IH]; intros active Hin; [by apply elem_of_nil in Hin|].
  cbn [open_segments]. destruct (decide (id' = id)) as [->|Hne].
  - eapply t_bind; [apply open_segment_refused|]. by intros ? ? ? [].
  - eapply t_bind; [by apply keeps_open_segment|]. intros opened. apply IH. by apply elem_of_cons in Hin as [?|?].
Qed.
End keeps.

(** C39: the limit of the crash recovery. Whatever else is on the disk, a segment
    without a sidecar in which complete records are followed by at least a
    record header of bytes that are not a record header - zeros a file system
    left behind a crash, for example - keeps the store from opening: [open]
    answers an error for every sequence of faults, and without faults too. Only
    a tail that is the beginning of a record, or is shorter than a header, is
    cut off. *)
Theorem garbage_tail_refused id os tail d fates i :
  Forall object_valid os → len os ≤ MAX_SEGMENT_OBJECTS → RECORD_HEADER_BYTES ≤ len tail →
  is_ok (decode_record_header (takeN RECORD_HEADER_BYTES tail)) = false →
  sf_bytes <$> pk_segments d !! id = Some (segment_bytes id os ++ tail) →
  sd_visible (pk_sidecar id d) = None → id ≤ U64_MAX →
  is_ok (fst (open (world d fates i))) = false.
Proof.
  intros Hv Hn Ht Hbad Hf Hs Hid. set (content := segment_bytes id os ++ tail) in *.
  assert (SEGMENT_HEADER_BYTES ≤ len content) as Hlen by (unfold content; rewrite len_app, len_segment_bytes; lia).
  assert (triple True (kept id content) open (λ _ _ _, False) (kept id content)) as Ho.
  { unfold open. eapply t_bind; [by apply t_os_read|]. intros [].
    eapply (t_bind _ _ _ (λ l d i, id ∈ l ∧ kept id content d i)).
    { unfold list_segment_ids. eapply t_bind; [by apply t_os_read|]. intros []. apply t_with_disk. intros d0.
      apply t_ret. intros d1 i1 [-> Hk]. split; [|done]. destruct Hk as [Hk _].
      apply list_elem_of_omap. exists (segment_file_name id). split; [|by apply segment_name_roundtrip].
      unfold directory_names. rewrite !elem_of_app. right. right. apply list_elem_of_fmap.
      destruct (pk_segments d0 !! id) as [f|] eqn:E; [|done]. exists (id, f). by rewrite elem_of_map_to_list. }
    intros listed. apply t_pure. intros Hin. eapply t_bind.
    { apply open_segments_refused; [|done|by apply elem_of_sorted_ids]. intros allow. by apply scan_garbage. }
    by intros ? ? ? []. }
  pose proof (triple_run True _ _ _ _ d fates i Ho) as H.
  destruct (open (world d fates i)) as [[a|e] w]; [|done]. cbn in *. by destruct H.
Qed.
End machine.
