(* ===== verification/StorageWriter.v ===== *)
(** src/crates/sync-server/src/storage_writer.rs, what the writer thread does
    with a group of objects, and the import of the legacy journal before the
    store is served.

    The thread is the only owner of the active segment: an operation takes it
    and returns the new one. The legacy journal is a file of its own: its
    content is an argument, and the result says whether it was renamed away. *)

From S2P Require Import Prelude Bytes Keyed Hash Chunk Faults RootHead Crc32c PackFormat PackStore.
Local Open Scope N_scope.

(** * Outcomes *)

Inductive StoreOutcome := Stored | AlreadyPresent.
Inductive WriterError :=
  | Busy
  | Closed
  | InvalidObject (message : string)
  | WriterIo (message : string).
Abbreviation StoreResult := (result WriterError StoreOutcome).

Record CommitReport := { cr_results : list StoreResult; cr_fatal : bool }.

(** * Committing a group *)

(** The variables of [commit_objects] in its first loop. *)
Record CommitPlan := {
  cp_results : list StoreResult;
  cp_primary_by_key : gmap ObjectKey nat;
  cp_pending : list nat;
  cp_aliases : list (nat * nat);
}.

Section writer.
Context {B3 : Blake3} {HX : Hex} {JV : JsonValue}.

Definition set_result (index : nat) (r : StoreResult) (p : CommitPlan) : CommitPlan :=
  {| cp_results := <[index := r]> (cp_results p);
     cp_primary_by_key := cp_primary_by_key p;
     cp_pending := cp_pending p;
     cp_aliases := cp_aliases p |}.

(** One turn of the first loop. *)
Definition plan_object (w : PackWorld) (p : CommitPlan) (index : nat) (o : PackedObject) : CommitPlan :=
  match validate_object o with
  | Err error => set_result index (Err (InvalidObject error)) p
  | Ok _ =>
      let key := object_key o in
      if indexed key w then set_result index (Ok AlreadyPresent) p
      else
        match cp_primary_by_key p !! key with
        | Some primary =>
            {| cp_results := cp_results p;
               cp_primary_by_key := cp_primary_by_key p;
               cp_pending := cp_pending p;
               cp_aliases := cp_aliases p ++ [(index, primary)] |}
        | None =>
            {| cp_results := cp_results p;
               cp_primary_by_key := <[key := index]> (cp_primary_by_key p);
               cp_pending := cp_pending p ++ [index];
               cp_aliases := cp_aliases p |}
        end
  end.

Fixpoint plan_objects (w : PackWorld) (p : CommitPlan) (index : nat) (objects : list PackedObject)
    : CommitPlan :=
  match objects with
  | [] => p
  | o :: objects => plan_objects w (plan_object w p index o) (S index) objects
  end.

Definition initial_plan (n : nat) : CommitPlan :=
  {| cp_results := replicate n (Err Closed);
     cp_primary_by_key := ∅;
     cp_pending := [];
     cp_aliases := [] |}.

Definition set_all (r : StoreResult) (indexes : list nat) (results : list StoreResult) : list StoreResult :=
  foldl (λ rs i, <[i := r]> rs) results indexes.

(** The last loop: an alias has the outcome of its primary. *)
Definition set_aliases (aliases : list (nat * nat)) (results : list StoreResult) : list StoreResult :=
  foldl (λ rs ap, <[fst ap := match rs !! snd ap with
                              | Some (Ok _) => Ok AlreadyPresent
                              | Some (Err error) => Err error
                              | None => Err Closed
                              end]> rs) results aliases.

(** [commit_objects]; the new active segment is meaningful unless the report
    is fatal. *)
Definition commit_objects (active : ActiveSegment) (objects : list PackedObject) (w : PackWorld)
    : CommitReport * ActiveSegment * PackWorld :=
  let plan := plan_objects w (initial_plan (length objects)) 0 objects in
  if bool_decide (cp_pending plan = [])
  then ({| cr_results := cp_results plan; cr_fatal := false |}, active, w)
  else
    let pending_objects := omap (λ i, objects !! i) (cp_pending plan) in
    match append_group active pending_objects NoCommitFault w with
    | (Err error, w) =>
        let error := Err (WriterIo error) in
        ({| cr_results := set_all error (cp_aliases plan).*1
                            (set_all error (cp_pending plan) (cp_results plan));
            cr_fatal := true |}, active, w)
    | (Ok active, w) =>
        ({| cr_results := set_aliases (cp_aliases plan)
                            (set_all (Ok Stored) (cp_pending plan) (cp_results plan));
            cr_fatal := false |}, active, w)
    end.

(** * The legacy journal *)

Definition LEGACY_MAGIC : bytes := str "OWG1".
Definition LEGACY_VERSION : byte := x01.
Definition LEGACY_GROUP_HEADER_BYTES : N := 20.
Definition LEGACY_RECORD_HEADER_BYTES : N := 44.
Definition LEGACY_GROUP_TRAILER_BYTES : N := 32.
Definition LEGACY_MAX_GROUP_OBJECTS : N := 8192.
Definition LEGACY_MAX_GROUP_BYTES : N := 80 * 1024 * 1024.

(** The loop of [decode_legacy_payload], [count] turns from [cursor]. *)
Fixpoint decode_legacy_records (count : nat) (payload : bytes) (cursor : N)
    : IoResult (list PackedObject * N) :=
  match count with
  | O => Ok ([], cursor)
  | S count =>
      let? header_end := ok_or (checked_add64 cursor LEGACY_RECORD_HEADER_BYTES)
                           "legacy record cursor overflow"%string in
      let? header := ok_or (get_range payload cursor header_end)
                       "legacy record header is truncated"%string in
      let? kind := kind_try_from (default x00 (header !! 0%nat)) in
      if negb (beq (slice header 1 4) (zeros 3))
      then Err "legacy record flags are unsupported"%string
      else
        let hash := slice header 4 36 in
        let data_len := le_val (slice header 36 44) in
        if MAX_PACK_OBJECT_BYTES <? data_len then Err "legacy object exceeds byte limit"%string
        else
          let? data_end := ok_or (checked_add64 header_end data_len)
                             "legacy object cursor overflow"%string in
          let? data := ok_or (get_range payload header_end data_end)
                         "legacy object bytes are truncated"%string in
          let? '(objects, cursor) := decode_legacy_records count payload data_end in
          Ok ({| po_kind := kind; po_hash := hash; po_bytes := data |} :: objects, cursor)
  end.

Definition decode_legacy_payload (count : N) (payload : bytes) : IoResult (list PackedObject) :=
  let? minimum := ok_or (checked_mul64 count LEGACY_RECORD_HEADER_BYTES)
                    "legacy record headers overflow"%string in
  if len payload <? minimum then Err "legacy record headers are truncated"%string
  else
    let? '(objects, cursor) := decode_legacy_records (N.to_nat count) payload 0 in
    if negb (cursor =? len payload) then Err "legacy group has trailing payload bytes"%string
    else Ok objects.

(** One turn of the loop of [migrate_legacy_journal] at [offset]: the objects
    of the group and its end, or [None] for a torn tail. *)
Definition legacy_group (journal : bytes) (offset : N) : IoResult (option (list PackedObject * N)) :=
  let file_len := len journal in
  if file_len - offset <? LEGACY_GROUP_HEADER_BYTES then Ok None
  else
    let header := slice journal offset (offset + LEGACY_GROUP_HEADER_BYTES) in
    if negb (beq (slice header 0 4) LEGACY_MAGIC && beq (slice header 4 5) [LEGACY_VERSION]
             && beq (slice header 5 8) (zeros 3))
    then Err "legacy storage journal header is corrupt"%string
    else
      let count := le_val (slice header 8 12) in
      let payload_len := le_val (slice header 12 20) in
      if (LEGACY_MAX_GROUP_OBJECTS <? count) || (LEGACY_MAX_GROUP_BYTES <? payload_len)
      then Err "legacy journal group exceeds limits"%string
      else
        let? total_len := ok_or (checked_add64 LEGACY_GROUP_HEADER_BYTES payload_len
                                 ≫= λ v, checked_add64 v LEGACY_GROUP_TRAILER_BYTES)
                            "legacy journal group length overflow"%string in
        let? group_end := ok_or (checked_add64 offset total_len)
                            "legacy journal offset overflow"%string in
        if file_len <? group_end then Ok None
        else
          let payload_start := offset + LEGACY_GROUP_HEADER_BYTES in
          let payload := slice journal payload_start (payload_start + payload_len) in
          let trailer := slice journal (payload_start + payload_len) group_end in
          if negb (beq (hash_bytes (header ++ payload)) trailer)
          then Err "legacy storage journal checksum mismatch"%string
          else
            let? objects := decode_legacy_payload count payload in
            Ok (Some (objects, group_end)).

(** The loop of [migrate_legacy_journal]. Every turn passes a group header,
    so the length of the journal is enough fuel. *)
Fixpoint migrate_loop (fuel : nat) (journal : bytes) (offset : N) (active : ActiveSegment)
    : Pack ActiveSegment :=
  if negb (offset <? len journal) then st_ret active
  else
    match fuel with
    | O => st_err "legacy journal offset overflow"%string
    | S fuel =>
        let! _ := os_read "read failed" in
        let! group := st_lift (legacy_group journal offset) in
        match group with
        | None =>
            let! _ := os_read "truncate failed" in
            st_ret active
        | Some (objects, group_end) =>
            let! missing := (λ w, (Ok (filter (λ o, indexed (object_key o) w = false) objects), w)) in
            let! active := append_group active missing NoCommitFault in
            migrate_loop fuel journal group_end active
        end
    end.

(** [migrate_legacy_journal]: [Ok] means that a journal that existed was
    renamed away. *)
Definition migrate_legacy_journal (journal : option bytes) (active : ActiveSegment) : Pack ActiveSegment :=
  match journal with
  | None => st_ret active
  | Some journal =>
      let! _ := os_read "open failed" in
      let! active := migrate_loop (length journal) journal 0 active in
      let! _ := os_read "rename failed" in
      st_ret active
  end.

(** [StorageWriter::start], up to the threads it spawns. *)
Definition start (journal : option bytes) : Pack ActiveSegment :=
  let! active := open in
  migrate_legacy_journal journal active.

End writer.
