(* ===== verification/StorageWriterProps.v ===== *)
(** The storage writer: the outcome of every object of a group, and the import
    of the legacy journal.

    The import of the legacy journal: its groups are read back, a torn last
    one is dropped, and every object of the others is in the store. *)

From S2P Require Import Prelude Bytes Keyed Hash Chunk RootHead Faults Crc32c PackFormat PackFormatProps PackStore PackInvariant PackStoreProps PackOpenProps PackCrash StorageWriter.
Local Open Scope N_scope.

Section commit.
Context {B3 : Blake3} {HX : Hex} {JV : JsonValue}.

(** * The reference *)

(** What becomes of an object, decided from left to right: [seen] are the
    keys of the group that are to be stored. *)
Inductive ObjectClass :=
  | CInvalid (error : string)
  | CPresent
  | CAlias
  | CStored.

Fixpoint classify (w : PackWorld) (seen : gset ObjectKey) (objects : list PackedObject) : list ObjectClass :=
  match objects with
  | [] => []
  | o :: objects =>
      match validate_object o with
      | Err error => CInvalid error :: classify w seen objects
      | Ok _ =>
          if indexed (object_key o) w then CPresent :: classify w seen objects
          else if bool_decide (object_key o ∈ seen) then CAlias :: classify w seen objects
          else CStored :: classify w ({[object_key o]} ∪ seen) objects
      end
  end.

Definition is_stored (c : ObjectClass) : bool := match c with CStored => true | _ => false end.
Definition is_alias (c : ObjectClass) : bool := match c with CAlias => true | _ => false end.

(** The group that is appended. *)
Definition stored_objects (w : PackWorld) (objects : list PackedObject) : list PackedObject :=
  omap (λ oc, if is_stored (snd oc) then Some (fst oc) else None) (zip objects (classify w ∅ objects)).

(** The outcome when [appended] is the outcome of the appended objects, and
    [alias] that of their duplicates. *)
Definition class_outcome (appended alias : StoreResult) (c : ObjectClass) : StoreResult :=
  match c with
  | CInvalid error => Err (InvalidObject error)
  | CPresent => Ok AlreadyPresent
  | CAlias => alias
  | CStored => appended
  end.

Definition commit_reference (active : ActiveSegment) (objects : list PackedObject) (w : PackWorld)
    : CommitReport * ActiveSegment * PackWorld :=
  let outcomes appended alias := class_outcome appended alias <$> classify w ∅ objects in
  match append_group active (stored_objects w objects) NoCommitFault w with
  | (Ok active, w) =>
      ({| cr_results := outcomes (Ok Stored) (Ok AlreadyPresent); cr_fatal := false |}, active, w)
  | (Err error, w) =>
      ({| cr_results := outcomes (Err (WriterIo error)) (Err (WriterIo error)); cr_fatal := true |}, active, w)
  end.

(** * The plan *)

Fixpoint positions (f : ObjectClass → bool) (index : nat) (cs : list ObjectClass) : list nat :=
  match cs with
  | [] => []
  | c :: cs => if f c then index :: positions f (S index) cs else positions f (S index) cs
  end.

Lemma elem_of_positions f index cs i :
  i ∈ positions f index cs ↔ (index ≤ i)%nat ∧ ∃ c, cs !! (i - index)%nat = Some c ∧ f c = true.
Proof.
  revert index. induction cs as [|c cs IH]; intros index; cbn [positions].
  { split; [by intros ?%elem_of_nil|]. by intros (_ & c & E & _). }
  assert (i ∈ positions f (S index) cs ↔ (S index ≤ i)%nat ∧ ∃ c, cs !! (i - S index)%nat = Some c ∧ f c = true)
    as IH' by apply IH.
  assert ((index < i)%nat → (c :: cs) !! (i - index)%nat = cs !! (i - S index)%nat) as Hshift.
  { intros. replace (i - index)%nat with (S (i - S index)) by lia. done. }
  destruct (f c) eqn:Ef; rewrite ?elem_of_cons, IH'; split.
  - intros [->|(Hle & c' & E & Hc)]; [rewrite Nat.sub_diag; eauto|].
    split; [lia|]. rewrite Hshift by lia. eauto.
  - intros (Hle & c' & E & Hc). destruct (decide (i = index)) as [->|]; [by left|right].
    rewrite Hshift in E by lia. split; [lia|eauto].
  - intros (Hle & c' & E & Hc). split; [lia|]. rewrite Hshift by lia. eauto.
  - intros (Hle & c' & E & Hc). destruct (decide (i = index)) as [->|].
    + rewrite Nat.sub_diag in E. simplify_eq/=. congruence.
    + rewrite Hshift in E by lia. split; [lia|eauto].
Qed.

Lemma positions_shift f index cs : positions f (S index) cs = S <$> positions f index cs.
Proof.
  revert index. induction cs as [|c cs IH]; intros index; cbn [positions]; [done|].
  rewrite (IH (S index)). by destruct (f c).
Qed.

Lemma omap_positions f (objects : list PackedObject) cs :
  omap (λ i, objects !! i) (positions f 0 cs) =
  omap (λ oc, if f (snd oc) then Some (fst oc) else None) (zip objects cs).
Proof.
  revert cs. induction objects as [|o objects IH]; intros [|c cs]; try done.
  - induction (positions f 0 (c :: cs)) as [|i l IHl]; [done|]. csimpl. done.
  - cbn [positions zip zip_with]. rewrite positions_shift.
    assert (omap (λ i, (o :: objects) !! i) (S <$> positions f 0 cs) =
            omap (λ i, objects !! i) (positions f 0 cs)) as E.
    { generalize (positions f 0 cs). intros l. induction l as [|i l IHl]; csimpl; [done|]. by rewrite IHl. }
    destruct (f c) eqn:Ef; csimpl; rewrite Ef, E, IH; done.
Qed.

(** The class of the object at a position of the group. *)
Definition class_at (index : nat) (cs : list ObjectClass) (i : nat) : option ObjectClass :=
  if decide (index ≤ i)%nat then cs !! (i - index)%nat else None.

Lemma class_at_cons index c cs i :
  class_at index (c :: cs) i = if decide (i = index) then Some c else class_at (S index) cs i.
Proof.
  unfold class_at. destruct (decide (i = index)) as [->|Hne].
  - rewrite decide_True by lia. by rewrite Nat.sub_diag.
  - destruct (decide (index ≤ i)%nat), (decide (S index ≤ i)%nat); try lia; [|done].
    by replace (i - index)%nat with (S (i - S index)) by lia.
Qed.

(** The results of the first loop. *)
Definition plan_result (old : option StoreResult) (c : option ObjectClass) : option StoreResult :=
  match c with
  | Some (CInvalid e) => (λ _, Err (InvalidObject e)) <$> old
  | Some CPresent => (λ _, Ok AlreadyPresent) <$> old
  | _ => old
  end.

Definition plan_ok (p : CommitPlan) : Prop :=
  (∀ k q, cp_primary_by_key p !! k = Some q → q ∈ cp_pending p) ∧
  (∀ a q, (a, q) ∈ cp_aliases p → q ∈ cp_pending p).

Lemma insert_result (results : list StoreResult) index r i :
  <[index := r]> results !! i = if decide (i = index) then (λ _, r) <$> (results !! i) else results !! i.
Proof.
  destruct (decide (i = index)) as [->|Hne]; [|by rewrite list_lookup_insert_ne].
  destruct (results !! index) as [x|] eqn:E.
  - apply lookup_lt_Some in E. by rewrite list_lookup_insert_eq.
  - apply lookup_ge_None in E. rewrite list_insert_ge by lia. by apply lookup_ge_None.
Qed.

Lemma plan_spec w objects p index :
  plan_ok p →
  let cs := classify w (dom (cp_primary_by_key p)) objects in
  let p' := plan_objects w p index objects in
  cp_pending p' = cp_pending p ++ positions is_stored index cs ∧
  (cp_aliases p').*1 = (cp_aliases p).*1 ++ positions is_alias index cs ∧
  plan_ok p' ∧
  ∀ i, cp_results p' !! i = plan_result (cp_results p !! i) (class_at index cs i).
Proof.
  revert p index. induction objects as [|o objects IH]; intros p index Hok; cbv zeta.
  { cbn [plan_objects classify positions]. rewrite !app_nil_r. split_and!; try done; [apply Hok..|].
    intros i. unfold class_at. by destruct (decide _). }
  cbn [plan_objects classify]. unfold plan_object.
  destruct (validate_object o) as [[]|e] eqn:Ev; [destruct (indexed (object_key o) w) eqn:Ei|].
  - destruct (IH (set_result index (Ok AlreadyPresent) p) (S index) Hok) as (H1 & H2 & H3 & H4).
    cbn [set_result cp_pending cp_aliases cp_primary_by_key cp_results positions is_stored is_alias] in *.
    split_and!; [done|done|apply H3..|]. intros i. rewrite H4, class_at_cons, insert_result.
    destruct (decide (i = index)) as [->|]; [|done]. unfold class_at. rewrite decide_False by lia. done.
  - destruct (cp_primary_by_key p !! object_key o) as [q|] eqn:Eq.
    + rewrite (bool_decide_true (object_key o ∈ dom (cp_primary_by_key p)))
        by (apply elem_of_dom; by rewrite Eq).
      set (p1 := {| cp_results := _; cp_aliases := cp_aliases p ++ [(index, q)] |}).
      destruct (IH p1 (S index)) as (H1 & H2 & H3 & H4).
      { destruct Hok as [K1 K2]. split; [done|]. cbn. intros a q' [Ha|Ha]%elem_of_app; [eauto|].
        apply list_elem_of_singleton in Ha. simplify_eq. eauto. }
      cbn [p1 cp_pending cp_aliases cp_primary_by_key cp_results positions is_stored is_alias] in *.
      split_and!; [done|by rewrite H2, fmap_app, <-app_assoc|apply H3..|].
      intros i. rewrite H4, class_at_cons. destruct (decide (i = index)) as [->|]; [|done].
      unfold class_at. rewrite decide_False by lia. done.
    + rewrite (bool_decide_false (object_key o ∈ dom (cp_primary_by_key p)))
        by (by apply not_elem_of_dom).
      set (p1 := {| cp_primary_by_key := <[object_key o := index]> (cp_primary_by_key p) |}).
      destruct (IH p1 (S index)) as (H1 & H2 & H3 & H4).
      { destruct Hok as [K1 K2]. split; cbn.
        - intros k q Hq. apply elem_of_app. destruct (decide (object_key o = k)) as [<-|].
          + rewrite lookup_insert_eq in Hq. simplify_eq. right. left.
          + rewrite lookup_insert_ne in Hq by done. left. eauto.
        - intros a q Ha. apply elem_of_app. left. eauto. }
      unfold p1 in *. clear p1.
      cbn [cp_pending cp_aliases cp_primary_by_key cp_results positions is_stored is_alias] in *.
      rewrite dom_insert_L in *. split_and!; [by rewrite H1, <-app_assoc|done|apply H3..|].
      intros i. rewrite H4, class_at_cons. destruct (decide (i = index)) as [->|]; [|done].
      unfold class_at. rewrite decide_False by lia. done.
  - destruct (IH (set_result index (Err (InvalidObject e)) p) (S index) Hok) as (H1 & H2 & H3 & H4).
    cbn [set_result cp_pending cp_aliases cp_primary_by_key cp_results positions is_stored is_alias] in *.
    split_and!; [done|done|apply H3..|]. intros i. rewrite H4, class_at_cons, insert_result.
    destruct (decide (i = index)) as [->|]; [|done]. unfold class_at. rewrite decide_False by lia. done.
Qed.

(** * The results *)

Lemma set_all_lookup r indexes results i :
  set_all r indexes results !! i =
  if decide (i ∈ indexes) then (λ _, r) <$> (results !! i) else results !! i.
Proof.
  unfold set_all. revert results. induction indexes as [|j indexes IH]; intros results; [done|].
  cbn [foldl]. rewrite IH, insert_result.
  destruct (decide (i = j)) as [->|Hne].
  - rewrite (decide_True (P := j ∈ j :: indexes)) by left. case_decide; [|done].
    by destruct (results !! j).
  - destruct (decide (i ∈ indexes)) as [Hin|Hin].
    + by rewrite decide_True by (by right).
    + rewrite decide_False; [done|]. by apply not_elem_of_cons.
Qed.

Lemma set_aliases_lookup aliases results i :
  (∀ a q, (a, q) ∈ aliases → (∃ x, results !! q = Some (Ok x)) ∧ q ∉ aliases.*1) →
  set_aliases aliases results !! i =
  if decide (i ∈ aliases.*1) then (λ _, Ok AlreadyPresent) <$> (results !! i) else results !! i.
Proof.
  unfold set_aliases. revert results. induction aliases as [|[a q] aliases IH]; intros results H; [done|].
  cbn [foldl fst snd]. destruct (H a q ltac:(left)) as [[x Hx] Hq]. rewrite Hx.
  csimpl in Hq. apply not_elem_of_cons in Hq as [Hqa Hq].
  rewrite IH.
  2:{ intros a' q' Hin. destruct (H a' q' ltac:(by right)) as [[x' Hx'] Hq'].
      csimpl in Hq'. apply not_elem_of_cons in Hq' as [Hqa' Hq']. split; [|done].
      exists x'. by rewrite list_lookup_insert_ne. }
  rewrite insert_result. csimpl. destruct (decide (i = a)) as [->|Hne].
  - rewrite (decide_True (P := a ∈ a :: aliases.*1)) by left. case_decide; [|done].
    by destruct (results !! a).
  - destruct (decide (i ∈ aliases.*1)) as [Hin|Hin].
    + by rewrite decide_True by (by right).
    + rewrite decide_False; [done|]. by apply not_elem_of_cons.
Qed.

Lemma length_classify w seen objects : length (classify w seen objects) = length objects.
Proof.
  revert seen. induction objects as [|o objects IH]; intros seen; cbn [classify]; [done|].
  destruct (validate_object o); [|simpl; by rewrite IH].
  destruct (indexed _ _); [simpl; by rewrite IH|]. case_bool_decide; simpl; by rewrite IH.
Qed.

(** The plan of a whole group. *)
Lemma group_plan w objects :
  let cs := classify w ∅ objects in
  let p := plan_objects w (initial_plan (length objects)) 0 objects in
  cp_pending p = positions is_stored 0 cs ∧ (cp_aliases p).*1 = positions is_alias 0 cs ∧
  (∀ a q, (a, q) ∈ cp_aliases p → q ∈ cp_pending p) ∧
  ∀ i, cp_results p !! i = (class_outcome (Err Closed) (Err Closed)) <$> (cs !! i).
Proof.
  intros cs p. destruct (plan_spec w objects (initial_plan (length objects)) 0) as (H1 & H2 & [_ H3] & H4).
  { split; cbn; [intros k q E; by rewrite lookup_empty in E|by intros a q ?%elem_of_nil]. }
  cbn [initial_plan cp_pending cp_aliases cp_primary_by_key cp_results] in *. rewrite dom_empty_L in *.
  split_and!; [done|done|done|]. intros i. unfold p. rewrite H4. unfold class_at.
  rewrite decide_True by lia. rewrite Nat.sub_0_r. fold cs.
  destruct (cs !! i) as [c|] eqn:E.
  - assert (i < length objects)%nat as Hlt
      by (apply lookup_lt_Some in E; unfold cs in E; by rewrite length_classify in E).
    rewrite lookup_replicate_2 by done. by destruct c.
  - apply lookup_ge_None in E. unfold cs in E. rewrite length_classify in E.
    cbn [plan_result fmap option_fmap option_map]. apply lookup_ge_None. by rewrite length_replicate.
Qed.

Lemma positions_class f cs i : i ∈ positions f 0 cs ↔ ∃ c, cs !! i = Some c ∧ f c = true.
Proof. rewrite elem_of_positions, Nat.sub_0_r. split; [by intros [_ H]|]. intros H. split; [lia|done]. Qed.

Lemma commit_refines active objects w :
  commit_objects active objects w = commit_reference active objects w.
Proof.
  unfold commit_objects, commit_reference, stored_objects. rewrite <-omap_positions.
  destruct (group_plan w objects) as (Hp & Ha & Hq & Hr).
  set (p := plan_objects w (initial_plan (length objects)) 0 objects) in *.
  set (cs := classify w ∅ objects) in *. rewrite <-Hp.
  assert (∀ i c, cs !! i = Some c → i ∈ cp_pending p ↔ is_stored c = true) as Hps.
  { intros i c E. rewrite Hp, positions_class. split; [|by eauto]. intros (c' & E' & Hc). by simplify_eq. }
  assert (∀ i c, cs !! i = Some c → i ∈ (cp_aliases p).*1 ↔ is_alias c = true) as Has.
  { intros i c E. rewrite Ha, positions_class. split; [|by eauto]. intros (c' & E' & Hc). by simplify_eq. }
  assert (∀ i, cs !! i = None → i ∉ cp_pending p ∧ i ∉ (cp_aliases p).*1) as Hnone.
  { intros i E. rewrite Hp, Ha, !positions_class. split; by intros (c & E' & _); simplify_eq. }
  assert (∀ results appended alias,
    (∀ i, results !! i = match cs !! i with
                         | Some c => Some (class_outcome appended alias c)
                         | None => None
                         end) → results = class_outcome appended alias <$> cs) as Hext.
  { intros results appended alias H. apply list_eq. intros i. rewrite H, list_lookup_fmap.
    by destruct (cs !! i). }
  case_bool_decide as Hnil.
  - rewrite Hnil. cbn. f_equal. f_equal. f_equal. apply Hext. intros i. rewrite Hr.
    destruct (cs !! i) as [c|] eqn:E; csimpl; [|done]. f_equal.
    pose proof (Hps i c E) as Hc1. rewrite Hnil in Hc1.
    destruct c; try done.
    + exfalso. pose proof (proj2 (Has i CAlias E) eq_refl) as Hin.
      apply list_elem_of_fmap in Hin as ([a q] & _ & Hin). apply Hq in Hin. rewrite Hnil in Hin.
      by apply elem_of_nil in Hin.
    + exfalso. apply (elem_of_nil (A := nat) i). by apply Hc1.
  - destruct (append_group _ _ _ w) as [[a'|e] w']; f_equal; f_equal; f_equal; apply Hext; intros i.
    + rewrite set_aliases_lookup.
      * rewrite set_all_lookup, Hr. destruct (cs !! i) as [c|] eqn:E; csimpl.
        -- pose proof (Hps i c E) as Hc1. pose proof (Has i c E) as Hc2.
           do 2 case_decide; csimpl; f_equal; destruct c; naive_solver.
        -- by do 2 case_decide.
      * intros a q Hin. pose proof (Hq a q Hin) as Hqp. rewrite set_all_lookup, decide_True, Hr by done.
        pose proof Hqp as Hqp'. rewrite Hp, positions_class in Hqp'. destruct Hqp' as (c & E & Hc).
        rewrite E. csimpl. split; [by eexists|]. rewrite (Has q c E). by destruct c.
    + rewrite !set_all_lookup, Hr. destruct (cs !! i) as [c|] eqn:E; csimpl.
      * pose proof (Hps i c E) as Hc1. pose proof (Has i c E) as Hc2.
        do 2 case_decide; csimpl; f_equal; destruct c; naive_solver.
      * by do 2 case_decide.
Qed.

(** C13: committing a group is the reference: every object is checked, found
    already present, stored once per key or answered like the one that is; a
    failed append fails exactly the new objects and ends the writer. *)
Theorem commit_is_reference active objects w :
  commit_objects active objects w = commit_reference active objects w.
Proof. apply commit_refines. Qed.

(** * What an outcome means *)

Lemma stored_object_inv w seen objects o :
  o ∈ omap (λ oc, if is_stored (snd oc) then Some (fst oc) else None) (zip objects (classify w seen objects)) →
  o ∈ objects ∧ object_valid o.
Proof.
  revert seen. induction objects as [|o' objects IH]; intros seen; cbn [classify]; [by intros ?%elem_of_nil|].
  destruct (validate_object o') as [[]|e] eqn:Ev; [destruct (indexed _ w); [|case_bool_decide]|]; csimpl.
  - intros [??]%IH. split; [by right|done].
  - intros [??]%IH. split; [by right|done].
  - rewrite elem_of_cons. intros [->|[??]%IH]; (split; [|done]); [by left|by right].
  - intros [??]%IH. split; [by right|done].
Qed.

Lemma class_key w seen objects j o c :
  objects !! j = Some o → classify w seen objects !! j = Some c →
  match c with
  | CInvalid _ => True
  | CPresent => is_Some (w_index w !! object_key o)
  | _ => object_key o ∈ seen ∨
         ∃ o', o' ∈ omap (λ oc, if is_stored (snd oc) then Some (fst oc) else None)
                      (zip objects (classify w seen objects)) ∧ object_key o' = object_key o
  end.
Proof.
  revert seen j. induction objects as [|o' objects IH]; intros seen j; [done|]. cbn [classify].
  destruct (validate_object o') as [[]|e] eqn:Ev; [destruct (indexed (object_key o') w) eqn:Ei|].
  - destruct j as [|j]; csimpl; intros Ho Hc.
    + simplify_eq. unfold indexed in Ei. by apply bool_decide_eq_true in Ei.
    + specialize (IH seen j Ho Hc). by destruct c.
  - case_bool_decide as Hin; destruct j as [|j]; csimpl; intros Ho Hc.
    + simplify_eq. by left.
    + specialize (IH seen j Ho Hc). by destruct c.
    + simplify_eq. right. exists o. split; [left|done].
    + specialize (IH _ j Ho Hc). destruct c; try done.
      * destruct IH as [[->%elem_of_singleton|?]%elem_of_union|(o2 & ? & ?)]; [|by left|].
        -- right. exists o'. split; [left|done].
        -- right. exists o2. split; [by right|done].
      * destruct IH as [[->%elem_of_singleton|?]%elem_of_union|(o2 & ? & ?)]; [|by left|].
        -- right. exists o'. split; [left|done].
        -- right. exists o2. split; [by right|done].
  - destruct j as [|j]; csimpl; intros Ho Hc; [by simplify_eq|].
    specialize (IH seen j Ho Hc). by destruct c.
Qed.

Section committed.
Context (W : PackedObject → Prop).

Definition writer_inv (g : Ghost) (fatal : bool) (a : ActiveSegment) (w : PackWorld) : Prop :=
  if fatal then readable W g (w_disk w) (w_index w) else alive W g (w_disk w) (w_index w) a.

Lemma writer_inv_readable g fatal a w : writer_inv g fatal a w → readable W g (w_disk w) (w_index w).
Proof. destruct fatal; cbn; [done|]. by intros (Hd & Hi & _). Qed.

Lemma commit_spec g d i fates a objects report a' w' :
  alive W g d i a → Forall W objects → as_id a < U64_MAX →
  group_fits a (stored_objects (world d fates i) objects) →
  commit_objects a objects (world d fates i) = (report, a', w') →
  (∃ g', ghost_le g g' ∧ writer_inv g' (cr_fatal report) a' w') ∧
  ∀ j o r, cr_results report !! j = Some (Ok r) → objects !! j = Some o →
    is_Some (w_index w' !! object_key o).
Proof.
  intros Ha HW Hid Hfit E. rewrite commit_refines in E. unfold commit_reference in E.
  set (w := world d fates i) in *. set (new := stored_objects w objects) in *.
  assert (Forall (good W) new) as Hgood.
  { apply Forall_forall. intros o [Hin Hv]%stored_object_inv. split; [done|].
    rewrite Forall_forall in HW. auto. }
  pose proof (triple_run True _ _ _ _ d fates i (append_spec W g a new Hgood Hfit Hid)) as H.
  fold w in H. destruct (append_group a new NoCommitFault w) as [[a1|e] w1].
  - destruct H as (_ & g' & Hle & Ha' & Hnew); [done|done|]. injection E as <- <- <-.
    cbn [cr_fatal cr_results]. split; [by exists g'|]. intros j o r Hr Ho.
    rewrite list_lookup_fmap in Hr. destruct (classify w ∅ objects !! j) as [c|] eqn:Ec; [|done].
    assert (∀ k, is_Some (i !! k) → is_Some (w_index w1 !! k)) as Hmono.
    { intros k. eapply index_keys_mono; [apply Ha|exact Hle|apply Ha']. }
    pose proof (class_key w ∅ objects j o c Ho Ec) as Hc.
    assert (∀ o', o' ∈ new → is_Some (w_index w1 !! object_key o')) as Hin.
    { intros o' Hin. rewrite Forall_forall in Hnew. destruct (Hnew o' Hin) as (id & os & Hg & Hos).
      destruct Ha' as (_ & [_ Hi'] & _). by eapply Hi'. }
    destruct c; csimpl in Hr; [done|by apply Hmono|..];
      (destruct Hc as [?%elem_of_empty|(o' & Hin' & <-)]; [done|by apply Hin]).
  - destruct H as (_ & g' & Hle & Ha'); [done|done|]. injection E as <- <- <-.
    cbn [cr_fatal cr_results]. split; [by exists g'|]. intros j o r Hr Ho.
    rewrite list_lookup_fmap in Hr. destruct (classify w ∅ objects !! j) as [c|] eqn:Ec; [|done].
    pose proof (class_key w ∅ objects j o c Ho Ec) as Hc.
    destruct c; csimpl in Hr; try done.
    eapply index_keys_mono; [apply Ha|exact Hle|apply Ha'|exact Hc].
Qed.

Lemma commit_readable g d i fates a objects report a' w' j o r :
  alive W g d i a → Forall W objects → as_id a < U64_MAX →
  group_fits a (stored_objects (world d fates i) objects) →
  commit_objects a objects (world d fates i) = (report, a', w') →
  cr_results report !! j = Some (Ok r) → objects !! j = Some o →
  ∃ o', W o' ∧ object_valid o' ∧ object_key o' = object_key o ∧
    fst (read (object_key o) (world (w_disk w') [] (w_index w'))) = Ok (Some (po_bytes o')).
Proof.
  intros Ha HW Hid Hfit E Hr Ho.
  destruct (commit_spec g d i fates a objects report a' w' Ha HW Hid Hfit E) as [(g' & _ & Hinv) Hres].
  destruct (read_quiet W g' (w_disk w') (w_index w') (object_key o)) as (o' & HWo & Hv & Hk & Hread).
  { by eapply writer_inv_readable. }
  { by eapply Hres. }
  exists o'. by rewrite Hread.
Qed.
End committed.
End commit.


Section legacy.
Context {B3 : Blake3} {HX : Hex} {JV : JsonValue}.

(** * The format *)

Definition legacy_record (o : PackedObject) : bytes :=
  [kind_code (po_kind o)] ++ zeros 3 ++ po_hash o ++ le_bytes 8 (len (po_bytes o)) ++ po_bytes o.
Definition legacy_payload (objects : list PackedObject) : bytes := concat (legacy_record <$> objects).
Definition legacy_header (count payload_len : N) : bytes :=
  LEGACY_MAGIC ++ [LEGACY_VERSION] ++ zeros 3 ++ le_bytes 4 count ++ le_bytes 8 payload_len.

Definition legacy_group_bytes (objects : list PackedObject) : bytes :=
  let payload := legacy_payload objects in
  let header := legacy_header (len objects) (len payload) in
  header ++ payload ++ hash_bytes (header ++ payload).

Definition legacy_fits (objects : list PackedObject) : Prop :=
  Forall object_valid objects ∧ len objects ≤ LEGACY_MAX_GROUP_OBJECTS ∧
  len (legacy_payload objects) ≤ LEGACY_MAX_GROUP_BYTES.

Lemma len_legacy_record o : len (po_hash o) = 32 → len (legacy_record o) = 44 + len (po_bytes o).
Proof. intros H. unfold legacy_record. autorewrite with sync. rewrite H. cbn [N.of_nat Pos.of_succ_nat Pos.succ]. lia. Qed.

Lemma legacy_payload_cons o objects : legacy_payload (o :: objects) = legacy_record o ++ legacy_payload objects.
Proof. done. Qed.

Lemma decode_legacy_records_ok objects pre post payload :
  Forall object_valid objects → payload = pre ++ legacy_payload objects ++ post → len payload ≤ U64_MAX →
  decode_legacy_records (length objects) payload (len pre) =
  Ok (objects, len pre + len (legacy_payload objects)).
Proof.
  intros Hv. revert pre. induction Hv as [|o objects Ho _ IH]; intros pre Hp Hu.
  { cbn. by rewrite N.add_0_r. }
  pose proof (object_valid_len o Ho) as [Hh Hb]. rewrite legacy_payload_cons, <-app_assoc in Hp.
  set (header := [kind_code (po_kind o)] ++ zeros 3 ++ po_hash o ++ le_bytes 8 (len (po_bytes o))).
  assert (len header = 44) as Hlh by (unfold header; autorewrite with sync; by rewrite Hh).
  assert (legacy_record o = header ++ po_bytes o) as Hrec
    by (unfold legacy_record, header; by rewrite <-!app_assoc).
  assert (len payload = len pre + (44 + len (po_bytes o) + (len (legacy_payload objects) + len post))) as Hlen.
  { rewrite Hp, Hrec, !len_app, Hlh. lia. }
  cbn [length decode_legacy_records]. unfold checked_add64, LEGACY_RECORD_HEADER_BYTES.
  destruct (N.leb_spec (len pre + 44) U64_MAX); [cbn [ok_or]|lia].
  assert (get_range payload (len pre) (len pre + 44) = Some header) as ->.
  { rewrite Hp, Hrec, <-app_assoc. apply get_range_mid; [done|by rewrite Hlh]. }
  cbn [ok_or].
  assert (default x00 (header !! 0%nat) = kind_code (po_kind o)) as -> by done.
  set (n := len (po_bytes o)) in *.
  assert (slice header 1 4 = zeros 3 ∧ slice header 4 36 = po_hash o ∧ slice header 36 44 = le_bytes 8 n)
    as (F1 & F4 & F36) by (unfold header; repeat split; field_read).
  rewrite kind_try_from_code, F1, F4, F36, beq_refl. cbn [negb].
  rewrite le_val_le_bytes by (by apply len_u64).
  destruct (N.ltb_spec MAX_PACK_OBJECT_BYTES n); [lia|].
  destruct (N.leb_spec (len pre + 44 + n) U64_MAX); [cbn [ok_or]|lia].
  assert (get_range payload (len pre + 44) (len pre + 44 + n) = Some (po_bytes o)) as ->.
  { rewrite Hp, Hrec, <-app_assoc, (app_assoc pre header).
    apply get_range_mid; [by rewrite len_app, Hlh|done]. }
  cbn [ok_or].
  assert (len pre + 44 + n = len (pre ++ legacy_record o)) as -> by (rewrite Hrec, !len_app, Hlh; lia).
  rewrite IH; [|by rewrite Hp, <-app_assoc|done].
  destruct o as [kind hash data]. cbn [po_kind po_hash po_bytes] in *. f_equal. f_equal.
  rewrite legacy_payload_cons, !len_app. lia.
Qed.

Lemma len_legacy_payload_ge objects :
  Forall object_valid objects → len objects * LEGACY_RECORD_HEADER_BYTES ≤ len (legacy_payload objects).
Proof.
  induction 1 as [|o objects Ho _ IH]; [done|]. rewrite legacy_payload_cons, len_app, len_cons.
  rewrite len_legacy_record by apply (object_valid_len o Ho). unfold LEGACY_RECORD_HEADER_BYTES in *. lia.
Qed.

Lemma legacy_max_u64 : LEGACY_MAX_GROUP_BYTES + 100 ≤ U64_MAX.
Proof. by apply N.leb_le. Qed.

Lemma decode_legacy_payload_ok objects :
  legacy_fits objects → decode_legacy_payload (len objects) (legacy_payload objects) = Ok objects.
Proof.
  intros (Hv & Hn & Hl). pose proof (len_legacy_payload_ge objects Hv) as Hge. pose proof legacy_max_u64.
  unfold decode_legacy_payload, checked_mul64.
  destruct (N.leb_spec (len objects * LEGACY_RECORD_HEADER_BYTES) U64_MAX); [cbn [ok_or]|lia].
  destruct (N.ltb_spec (len (legacy_payload objects)) (len objects * LEGACY_RECORD_HEADER_BYTES)); [lia|].
  replace (N.to_nat (len objects)) with (length objects) by (unfold len; lia).
  change 0 with (len (@nil byte)).
  rewrite (decode_legacy_records_ok objects [] []); [|done|by rewrite app_nil_r|lia].
  change (len (@nil byte)) with 0. rewrite N.add_0_l, N.eqb_refl. done.
Qed.

Lemma len_legacy_header c p : len (legacy_header c p) = 20.
Proof. unfold legacy_header. by autorewrite with sync. Qed.

Lemma legacy_header_fields c p :
  let h := legacy_header c p in
  slice h 0 4 = LEGACY_MAGIC ∧ slice h 4 5 = [LEGACY_VERSION] ∧ slice h 5 8 = zeros 3 ∧
  slice h 8 12 = le_bytes 4 c ∧ slice h 12 20 = le_bytes 8 p.
Proof. unfold legacy_header. cbv zeta. repeat split; field_read. Qed.

Lemma len_legacy_group objects : len (legacy_group_bytes objects) = 20 + len (legacy_payload objects) + 32.
Proof. unfold legacy_group_bytes. rewrite !len_app, len_legacy_header, len_hash_bytes. lia. Qed.

(** Reading the header of a group, complete or not. *)
Lemma legacy_group_head objects journal offset :
  legacy_fits objects → offset + 20 ≤ len journal → len journal + 1 ≤ U64_MAX - LEGACY_MAX_GROUP_BYTES - 100 →
  slice journal offset (offset + 20) = legacy_header (len objects) (len (legacy_payload objects)) →
  let payload_len := len (legacy_payload objects) in
  legacy_group journal offset =
    if len journal <? offset + (20 + payload_len + 32) then Ok None
    else
      let payload := slice journal (offset + 20) (offset + 20 + payload_len) in
      let trailer := slice journal (offset + 20 + payload_len) (offset + (20 + payload_len + 32)) in
      if negb (beq (hash_bytes (legacy_header (len objects) payload_len ++ payload)) trailer)
      then Err "legacy storage journal checksum mismatch"%string
      else let? os := decode_legacy_payload (len objects) payload in
           Ok (Some (os, offset + (20 + payload_len + 32))).
Proof.
  intros (Hv & Hn & Hl) Hoff Hu Hh payload_len. unfold legacy_group.
  change LEGACY_GROUP_HEADER_BYTES with 20. change LEGACY_GROUP_TRAILER_BYTES with 32.
  destruct (N.ltb_spec (len journal - offset) 20); [lia|]. rewrite Hh.
  destruct (legacy_header_fields (len objects) (len (legacy_payload objects))) as (F0 & F4 & F5 & F8 & F12).
  rewrite F0, F4, F5, F8, F12, !beq_refl. cbn [andb negb].
  pose proof legacy_max_u64 as Hm. fold payload_len in Hl |- *.
  rewrite !le_val_le_bytes.
  2:{ apply u64_bound. lia. }
  2:{ change (256 ^ N.of_nat 4) with 4294967296. unfold LEGACY_MAX_GROUP_OBJECTS in Hn. lia. }
  destruct (N.ltb_spec LEGACY_MAX_GROUP_OBJECTS (len objects)); [lia|].
  destruct (N.ltb_spec LEGACY_MAX_GROUP_BYTES payload_len); [lia|]. cbn [orb].
  unfold checked_add64.
  destruct (N.leb_spec (20 + payload_len) U64_MAX); [csimpl|lia].
  destruct (N.leb_spec (20 + payload_len + 32) U64_MAX); [csimpl|lia]. cbn [ok_or].
  destruct (N.leb_spec (offset + (20 + payload_len + 32)) U64_MAX); [|lia]. done.
Qed.

Definition journal_small (journal : bytes) : Prop :=
  len journal + 1 ≤ U64_MAX - LEGACY_MAX_GROUP_BYTES - 100.

Lemma legacy_group_ok objects pre post :
  legacy_fits objects → journal_small (pre ++ legacy_group_bytes objects ++ post) →
  legacy_group (pre ++ legacy_group_bytes objects ++ post) (len pre) =
  Ok (Some (objects, len pre + len (legacy_group_bytes objects))).
Proof.
  intros Hf Hs. pose proof (len_legacy_group objects) as Hlg.
  set (n := len (legacy_payload objects)) in *. set (h := legacy_header (len objects) n).
  assert (len h = 20) as Hlh by apply len_legacy_header.
  assert (pre ++ legacy_group_bytes objects ++ post =
          pre ++ h ++ legacy_payload objects ++ hash_bytes (h ++ legacy_payload objects) ++ post) as E.
  { unfold legacy_group_bytes. fold n h. by rewrite <-!app_assoc. }
  rewrite (legacy_group_head objects); [|done|rewrite !len_app; lia|done|].
  2:{ rewrite E. apply (slice_mid pre h); [done|by rewrite Hlh]. }
  fold n h. destruct (N.ltb_spec (len (pre ++ legacy_group_bytes objects ++ post)) (len pre + (20 + n + 32))) as [Hbad|_].
  { rewrite !len_app in Hbad. lia. }
  rewrite E. cbv zeta.
  rewrite (app_assoc pre h), (slice_mid (pre ++ h)) by (rewrite ?len_app, ?Hlh; done).
  rewrite (app_assoc (pre ++ h)), (slice_mid ((pre ++ h) ++ _)).
  2:{ rewrite !len_app, Hlh. done. }
  2:{ rewrite len_hash_bytes. lia. }
  rewrite beq_refl. cbn [negb]. rewrite decode_legacy_payload_ok by done. by rewrite Hlg.
Qed.

(** A torn last group. *)
Definition legacy_torn (tail : bytes) : Prop :=
  ∃ objects rest, legacy_fits objects ∧ legacy_group_bytes objects = tail ++ rest ∧ rest ≠ [].

Lemma legacy_group_torn pre tail :
  legacy_torn tail → journal_small (pre ++ tail) → legacy_group (pre ++ tail) (len pre) = Ok None.
Proof.
  intros (objects & rest & Hf & E & Hne) Hs. pose proof (len_legacy_group objects) as Hlg.
  assert (len rest ≠ 0) by (by rewrite len_0).
  assert (len (legacy_group_bytes objects) = len tail + len rest) as Hsum by (by rewrite E, len_app).
  destruct (decide (len tail < 20)) as [Hlt|Hge].
  { unfold legacy_group. change LEGACY_GROUP_HEADER_BYTES with 20.
    rewrite len_app. destruct (N.ltb_spec (len pre + len tail - len pre) 20); [done|lia]. }
  rewrite (legacy_group_head objects); [|done|rewrite len_app; lia|done|].
  - rewrite len_app. destruct (N.ltb_spec (len pre + len tail) (len pre + (20 + len (legacy_payload objects) + 32)));
      [done|lia].
  - rewrite (slice_skip pre tail (len pre)) by lia. rewrite N.sub_diag, N.add_comm, N.add_sub.
    rewrite <-(slice_app_l tail rest) by lia. rewrite <-E. unfold legacy_group_bytes.
    apply slice_hit, len_legacy_header.
Qed.

(** * The import *)

Definition journal_bytes (groups : list (list PackedObject)) : bytes :=
  concat (legacy_group_bytes <$> groups).

Lemma len_records_sublist l l' : l `sublist_of` l' → len (records l) ≤ len (records l').
Proof.
  induction 1 as [|o l l' _ IH|o l l' _ IH]; [done|..]; rewrite ?records_cons, ?len_app; lia.
Qed.

Lemma group_small_sublist l l' : l `sublist_of` l' → group_small l' → group_small l.
Proof.
  intros Hs [H1 H2]. split.
  - etrans; [by apply len_records_sublist|done].
  - apply sublist_length in Hs. unfold len in *. lia.
Qed.

Section import.
Context (W : PackedObject → Prop) {F : Prop}.

(** Ids are left for the segments the import may seal. *)
Definition migrating (g : Ghost) (imported : list PackedObject) (left : N) (a : ActiveSegment)
    (d : PackDisk) (i : Index) : Prop :=
  ∃ g', ghost_le g g' ∧ alive W g' d i a ∧ below_target a ∧ as_id a + left ≤ U64_MAX ∧
    Forall (λ o, is_Some (i !! object_key o)) imported.

Definition import_failed (g : Ghost) (d : PackDisk) (i : Index) : Prop :=
  ∃ g', ghost_le g g' ∧ readable W g' d i.

Lemma append_id a objects fault w a' w' :
  append_group a objects fault w = (Ok a', w') → as_id a' ≤ as_id a + 1.
Proof.
  unfold append_group. case_bool_decide; [intros [= <- _]; lia|].
  destruct (write_group _ _ _) as [data written]. cbn [as_id as_len as_entries].
  intros (u & w1 & _ & H1)%st_bind_Ok. revert H1.
  intros (u1 & w2 & _ & H2)%st_bind_Ok. revert H2.
  intros ([es off] & w3 & _ & H3)%st_bind_Ok. revert H3. cbn [as_id as_len as_entries].
  destruct (_ <? off); [by intros (? & ? & _ & [=])%st_bind_Ok|].
  destruct (_ <? _); [by intros (? & ? & _ & [=])%st_bind_Ok|].
  case_bool_decide; [done|]. intros (? & w4 & _ & (? & w5 & _ & H5)%st_bind_Ok)%st_bind_Ok. revert H5.
  case_bool_decide; [done|]. intros (? & w6 & _ & H6)%st_bind_Ok. revert H6.
  case_bool_decide; [done|]. destruct (_ || _); [|intros [= <- _]; cbn; lia].
  unfold seal_active. cbn [as_id as_len].
  intros (? & ? & _ & (? & ? & _ & (next & ? & Hnext & Hc)%st_bind_Ok)%st_bind_Ok)%st_bind_Ok.
  unfold st_lift, checked_add64 in Hnext. destruct (_ <=? _) in Hnext; [|done]. injection Hnext as <- _.
  revert Hc. unfold create_active_segment. intros (d0 & ? & _ & Hc)%st_bind_Ok. revert Hc.
  case_bool_decide; [done|].
  intros (? & ? & _ & (? & ? & _ & (? & ? & _ & (? & ? & _ & [= <- _])%st_bind_Ok)%st_bind_Ok)%st_bind_Ok)%st_bind_Ok.
  cbn. lia.
Qed.

(** One group: what is missing of it is appended. *)
Lemma import_group_spec g imported left a objects :
  Forall object_valid objects → Forall W objects → group_small objects → 1 ≤ left →
  triple F (migrating g imported left a)
    (let! missing := (λ w, (Ok (filter (λ o, indexed (object_key o) w = false) objects), w)) in
     append_group a missing NoCommitFault)
    (λ a' d i, migrating g (imported ++ objects) (left - 1) a' d i) (import_failed g).
Proof.
  intros Hv HW Hsmall Hleft w Hf (g' & Hle & Ha & Hb & Hid & Himp).
  unfold st_bind. set (missing := filter (λ o, indexed (object_key o) w = false) objects).
  assert (missing `sublist_of` objects) as Hsub by apply sublist_filter.
  assert (Forall (good W) missing) as Hgood.
  { apply Forall_forall. intros o Ho%list_elem_of_filter. destruct Ho as [_ Ho].
    rewrite Forall_forall in Hv, HW. split; auto. }
  assert (group_fits a missing) as Hfit by (apply group_small_fits; [done|by eapply group_small_sublist]).
  assert (as_id a < U64_MAX) as Hid' by lia.
  pose proof (append_spec (F := F) W g' a missing Hgood Hfit Hid' w Hf Ha) as H.
  pose proof (append_id a missing NoCommitFault w) as Hnext.
  destruct (append_group a missing NoCommitFault w) as [[a'|e] w'].
  - destruct H as (Hf' & Hbelow & g2 & Hle2 & Ha2 & Hin). split; [done|].
    specialize (Hnext a' w' eq_refl). exists g2. split; [by etrans|]. split; [done|].
    split; [apply Hbelow; by right|]. split; [lia|].
    assert (∀ k, is_Some (w_index w !! k) → is_Some (w_index w' !! k)) as Hmono.
    { intros k. eapply index_keys_mono; [apply Ha|exact Hle2|apply Ha2]. }
    apply Forall_app. split; [eapply Forall_impl; [exact Himp|]; auto|].
    apply Forall_forall. intros o Ho. destruct (indexed (object_key o) w) eqn:Ei.
    + unfold indexed in Ei. apply bool_decide_eq_true in Ei. auto.
    + rewrite Forall_forall in Hin. destruct (Hin o) as (id & os & Hg & Hos).
      { by apply list_elem_of_filter. }
      destruct Ha2 as (_ & [_ Hi] & _). by eapply Hi.
  - destruct H as (HF & g2 & Hle2 & Hr). split; [done|]. exists g2. split; [by etrans|done].
Qed.

Lemma migrate_loop_spec g groups pre tail imported a fuel :
  let journal := pre ++ journal_bytes groups ++ tail in
  Forall legacy_fits groups → Forall (λ os, Forall W os ∧ group_small os) groups →
  (tail = [] ∨ legacy_torn tail) → journal_small journal → (length groups < fuel)%nat →
  triple F (migrating g imported (len groups) a) (migrate_loop fuel journal (len pre) a)
    (λ a' d i, migrating g (imported ++ concat groups) 0 a' d i) (import_failed g).
Proof.
  intros journal Hfit. unfold journal. clear journal. revert pre imported a fuel.
  induction Hfit as [|objects groups Ho _ IH]; intros pre imported a [|fuel] HW Ht Hs Hfuel;
    try (cbn in Hfuel; lia); cbn [migrate_loop].
  - unfold journal_bytes in *. csimpl in *.
    destruct (decide (tail = [])) as [->|Hne].
    { rewrite app_nil_r. assert (len pre <? len pre = false) as -> by (apply N.ltb_ge; lia). cbn [negb].
      apply t_ret. intros d i H. by rewrite app_nil_r. }
    destruct Ht as [|Ht]; [done|]. assert (len tail ≠ 0) as Hlt by (by rewrite len_0).
    assert (len pre <? len (pre ++ tail) = true) as -> by (apply N.ltb_lt; rewrite len_app; lia). cbn [negb].
    assert (∀ d i, F → migrating g imported (len (@nil (list PackedObject))) a d i → import_failed g d i) as Hfail.
    { intros d i _ (g' & Hle & (Hd & Hi & _) & _). by exists g'. }
    eapply t_bind; [by apply t_os_read|]. intros [].
    rewrite legacy_group_torn by done.
    eapply t_bind; [apply (t_lift_ok _ None _ (λ r d i, r = None ∧ migrating g imported 0 a d i)); by intros|].
    intros r. apply t_pure. intros ->. eapply t_bind; [by apply t_os_read|]. intros [].
    apply t_ret. intros d i H. by rewrite app_nil_r.
  - apply Forall_cons in HW as [[HWo Hsmall] HW].
    assert (journal_bytes (objects :: groups) = legacy_group_bytes objects ++ journal_bytes groups) as E by done.
    rewrite E, <-app_assoc in *. pose proof (len_legacy_group objects) as Hlg.
    set (journal := pre ++ legacy_group_bytes objects ++ journal_bytes groups ++ tail) in *.
    assert (len pre <? len journal = true) as -> by (apply N.ltb_lt; unfold journal; rewrite !len_app; lia).
    cbn [negb]. rewrite len_cons.
    assert (∀ left d i, F → migrating g imported left a d i → import_failed g d i) as Hfail.
    { intros left d i _ (g' & Hle & (Hd & Hi & _) & _). by exists g'. }
    eapply t_bind; [apply t_os_read; apply Hfail|]. intros [].
    unfold journal at 1. rewrite legacy_group_ok by done.
    eapply t_bind; [apply (t_lift_ok _ (Some (objects, len pre + len (legacy_group_bytes objects))) _
      (λ r d i, r = Some (objects, len pre + len (legacy_group_bytes objects)) ∧
         migrating g imported (1 + len groups) a d i)); by intros|].
    intros r. apply t_pure. intros ->.
    apply t_assoc.
    eapply t_bind; [apply (import_group_spec g imported (1 + len groups) a objects); [apply Ho|done..|lia]|].
    intros a'. replace (1 + len groups - 1) with (len groups) by lia.
    rewrite <-len_app. unfold journal.
    assert (pre ++ legacy_group_bytes objects ++ journal_bytes groups ++ tail =
            (pre ++ legacy_group_bytes objects) ++ journal_bytes groups ++ tail) as -> by (by rewrite <-!app_assoc).
    cbn [concat]. rewrite (app_assoc imported objects). apply IH; [done|done| |cbn in Hfuel; lia].
    unfold journal in Hs. by rewrite <-!app_assoc.
Qed.
End import.

Lemma length_journal groups tail : groups ≠ [] → (length groups < length (journal_bytes groups ++ tail))%nat.
Proof.
  intros Hne. rewrite length_app.
  assert (2 * length groups ≤ length (journal_bytes groups))%nat; [|destruct groups; [done|cbn in *; lia]].
  clear Hne. induction groups as [|os groups IH]; [done|].
  unfold journal_bytes in *. rewrite fmap_cons. cbn [concat length]. rewrite length_app.
  pose proof (len_legacy_group os). unfold len in *. lia.
Qed.

(** C23: a journal of groups within the limits of a segment, with a torn last
    group or not, is imported into the store: unless the operating system
    fails it the import succeeds, and every object of the groups can then be
    read. *)
Theorem legacy_import_complete W g d i a groups tail o :
  alive W g d i a → below_target a → as_id a + len groups ≤ U64_MAX →
  Forall legacy_fits groups → Forall (λ os, Forall W os ∧ group_small os) groups →
  (tail = [] ∨ legacy_torn tail) → journal_small (journal_bytes groups ++ tail) →
  o ∈ concat groups →
  ∃ a' w o', migrate_legacy_journal (Some (journal_bytes groups ++ tail)) a (world d [] i) = (Ok a', w) ∧
    W o' ∧ object_key o' = object_key o ∧
    fst (read (object_key o) (world (w_disk w) [] (w_index w))) = Ok (Some (po_bytes o')).
Proof.
  intros Ha Hb Hid Hfit HW Ht Hs Ho. set (journal := journal_bytes groups ++ tail) in *.
  assert (triple False (migrating W g [] (len groups) a) (migrate_legacy_journal (Some journal) a)
            (λ a' d i, migrating W g (concat groups) 0 a' d i) (import_failed W g)) as Htr.
  { unfold migrate_legacy_journal.
    eapply t_bind; [apply t_os_read; by intros ? ? []|]. intros [].
    eapply t_bind; [apply (migrate_loop_spec W g groups [] tail []); try done|].
    { apply length_journal. intros ->. by apply elem_of_nil in Ho. }
    intros a'. eapply t_bind; [apply t_os_read; by intros ? ? []|]. intros [].
    by apply t_ret. }
  pose proof (triple_run False _ _ _ _ d [] i Htr) as Hrun.
  destruct (migrate_legacy_journal (Some journal) a (world d [] i)) as [[a'|e] w].
  - destruct Hrun as (g' & Hle & Ha' & _ & _ & Himp); [done|by exists g|].
    rewrite Forall_forall in Himp. specialize (Himp o Ho).
    destruct (read_quiet W g' (w_disk w) (w_index w) (object_key o)) as (o' & HWo & Hv & Hk & Hr).
    { destruct Ha' as (Hd & Hi & _). done. }
    { done. }
    exists a', w, o'. by rewrite Hr.
  - destruct Hrun as [[] _]; [done|by exists g].
Qed.
End legacy.
