(* ===== verification/WriterQueue.v ===== *)
(** src/crates/sync-server/src/storage_writer.rs, the queue in front of the
    writer thread: the reservations of memory ([QueueState]) and the order in
    which messages are served ([FairScheduler]).

    An [expect] or a [debug_assert!] that would fail is a panic: [release],
    [push], [pop_class] and the operations that use them return [None] for it.
    (A release build leaves the [debug_assert!]s of [push] out; what does not
    panic here does not panic there.) An [Instant] is a number of
    nanoseconds. *)

From S2P Require Import Prelude Bytes StorageWriter PackFormat.
Local Open Scope N_scope.

(** * Constants *)

Definition CHANNEL_MESSAGES : N := 64.
Definition QUEUE_BYTES : N := 64 * 1024 * 1024.
Definition BULK_QUEUE_MESSAGES : N := 56.
Definition BULK_QUEUE_BYTES : N := 56 * 1024 * 1024.
Definition MAX_ACTIVE_OWNERS : N := 64.
Definition OWNER_QUEUE_MESSAGES : N := 24.
Definition OWNER_QUEUE_BYTES : N := QUEUE_BYTES.
Definition OWNER_BULK_MESSAGES : N := 16.
Definition OWNER_BULK_BYTES : N := 16 * 1024 * 1024.
Definition OWNER_CONTROL_MESSAGES : N := 8.
Definition OWNER_CONTROL_BYTES : N := 8 * 1024 * 1024.
Definition MAX_OWNER_KEY_BYTES : N := 128.
Definition MAX_CONTROL_BURST : N := 8.
Definition BULK_AGING : N := 25 * 1000000.
Definition MAX_BATCH_OBJECTS : N := 4096.

Inductive WriterClass := Control | Bulk.
Inductive WriterOwner := Internal | Authenticated (key : bytes).

#[global] Instance WriterClass_eq_dec : EqDecision WriterClass.
Proof. solve_decision. Defined.
#[global] Instance WriterOwner_eq_dec : EqDecision WriterOwner.
Proof. solve_decision. Defined.
#[global] Instance WriterOwner_countable : Countable WriterOwner.
Proof.
  refine (inj_countable' (λ o, match o with Internal => None | Authenticated k => Some k end)
            (λ x, match x with None => Internal | Some k => Authenticated k end) _).
  by intros [].
Defined.

(** [WriterOwner::authenticated]. *)
Definition authenticated (value : bytes) : result WriterError WriterOwner :=
  if (len value =? 0) || (MAX_OWNER_KEY_BYTES <? len value)
  then Err (InvalidObject "storage writer owner key is invalid")
  else Ok (Authenticated value).

Definition is_internal (o : WriterOwner) : bool := match o with Internal => true | _ => false end.

(** [batch_reservation_bytes]. *)
Fixpoint sum_reservation (total : N) (objects : list PackedObject) : result WriterError N :=
  match objects with
  | [] => Ok total
  | o :: objects =>
      let? total := ok_or (checked_add64 total (N.max (len (po_bytes o)) 1))
                      (InvalidObject "batch byte length overflow") in
      sum_reservation total objects
  end.

Definition batch_reservation_bytes (objects : list PackedObject) : result WriterError N :=
  if bool_decide (objects = []) then Ok 1
  else if MAX_BATCH_OBJECTS <? len objects then Err (InvalidObject "batch has too many objects")
  else sum_reservation 0 objects.

(** * Reservations *)

Record OwnerUsage := {
  ou_messages : N;
  ou_bytes : N;
  ou_bulk_messages : N;
  ou_bulk_bytes : N;
}.

Definition no_usage : OwnerUsage :=
  {| ou_messages := 0; ou_bytes := 0; ou_bulk_messages := 0; ou_bulk_bytes := 0 |}.

Record QueueState := {
  qs_messages : N;
  qs_bytes : N;
  qs_bulk_messages : N;
  qs_bulk_bytes : N;
  qs_owners : gmap WriterOwner OwnerUsage;
}.

Definition qs_default : QueueState :=
  {| qs_messages := 0; qs_bytes := 0; qs_bulk_messages := 0; qs_bulk_bytes := 0; qs_owners := ∅ |}.

(** A [QueueReservation]; its count of objects only feeds the performance
    counters. *)
Record QueueReservation := { rv_owner : WriterOwner; rv_class : WriterClass; rv_bytes : N }.

(** [a.checked_add(b).map_or(true, |value| value > limit)] *)
Definition exceeds (a b limit : N) : bool :=
  match checked_add64 a b with Some v => limit <? v | None => true end.

(** The class-specific checks of [reserve]. *)
Definition reserve_bulk (q : QueueState) (current : OwnerUsage) (bytes : N) : result WriterError unit :=
  let? next_bulk_messages := ok_or (checked_add64 (qs_bulk_messages q) 1) Busy in
  let? next_bulk_bytes := ok_or (checked_add64 (qs_bulk_bytes q) bytes) Busy in
  let? next_owner_bulk_bytes := ok_or (checked_add64 (ou_bulk_bytes current) bytes) Busy in
  if (BULK_QUEUE_MESSAGES <? next_bulk_messages) || (BULK_QUEUE_BYTES <? next_bulk_bytes)
     || (OWNER_BULK_MESSAGES <=? ou_bulk_messages current) || (OWNER_BULK_BYTES <? next_owner_bulk_bytes)
  then Err Busy else Ok tt.

Definition reserve_control (owner : WriterOwner) (current : OwnerUsage) (bytes : N)
    : result WriterError unit :=
  let control_messages := ou_messages current - ou_bulk_messages current in
  let control_bytes := ou_bytes current - ou_bulk_bytes current in
  let owner_control_bytes := if is_internal owner then QUEUE_BYTES else OWNER_CONTROL_BYTES in
  if (OWNER_CONTROL_MESSAGES <=? control_messages) || exceeds control_bytes bytes owner_control_bytes
  then Err Busy else Ok tt.

(** The amount a class counts as bulk. *)
Definition bulk_part (class : WriterClass) (n : N) : N := match class with Bulk => n | Control => 0 end.

Definition reserve (owner : WriterOwner) (class : WriterClass) (bytes : N) (q : QueueState)
    : result WriterError QueueState :=
  let? next_messages := ok_or (checked_add64 (qs_messages q) 1) Busy in
  let? next_bytes := ok_or (checked_add64 (qs_bytes q) bytes) Busy in
  if (CHANNEL_MESSAGES <? next_messages) || (QUEUE_BYTES <? next_bytes) then Err Busy
  else if negb (bool_decide (is_Some (qs_owners q !! owner)))
          && (MAX_ACTIVE_OWNERS <=? N.of_nat (size (qs_owners q)))
  then Err Busy
  else
    let current := default no_usage (qs_owners q !! owner) in
    if (OWNER_QUEUE_MESSAGES <=? ou_messages current) || exceeds (ou_bytes current) bytes OWNER_QUEUE_BYTES
    then Err Busy
    else
      let? _ := match class with
                | Bulk => reserve_bulk q current bytes
                | Control => reserve_control owner current bytes
                end in
      Ok {| qs_messages := next_messages;
            qs_bytes := next_bytes;
            qs_bulk_messages := qs_bulk_messages q + bulk_part class 1;
            qs_bulk_bytes := qs_bulk_bytes q + bulk_part class bytes;
            qs_owners := <[owner := {| ou_messages := ou_messages current + 1;
                                       ou_bytes := ou_bytes current + bytes;
                                       ou_bulk_messages := ou_bulk_messages current + bulk_part class 1;
                                       ou_bulk_bytes := ou_bulk_bytes current + bulk_part class bytes |}]>
                           (qs_owners q) |}.

Definition release (owner : WriterOwner) (class : WriterClass) (bytes : N) (q : QueueState)
    : option QueueState :=
  messages ← checked_sub64 (qs_messages q) 1;
  total ← checked_sub64 (qs_bytes q) bytes;
  bulk_messages ← checked_sub64 (qs_bulk_messages q) (bulk_part class 1);
  bulk_bytes ← checked_sub64 (qs_bulk_bytes q) (bulk_part class bytes);
  usage ← qs_owners q !! owner;
  owner_messages ← checked_sub64 (ou_messages usage) 1;
  owner_bytes ← checked_sub64 (ou_bytes usage) bytes;
  owner_bulk_messages ← checked_sub64 (ou_bulk_messages usage) (bulk_part class 1);
  owner_bulk_bytes ← checked_sub64 (ou_bulk_bytes usage) (bulk_part class bytes);
  Some {| qs_messages := messages;
          qs_bytes := total;
          qs_bulk_messages := bulk_messages;
          qs_bulk_bytes := bulk_bytes;
          qs_owners :=
            if owner_messages =? 0 then delete owner (qs_owners q)
            else <[owner := {| ou_messages := owner_messages;
                               ou_bytes := owner_bytes;
                               ou_bulk_messages := owner_bulk_messages;
                               ou_bulk_bytes := owner_bulk_bytes |}]> (qs_owners q) |}.

(** * The scheduler *)

Record Scheduled (T : Type) := { sc_enqueued_at : N; sc_value : T }.
Arguments sc_enqueued_at {T}.
Arguments sc_value {T}.

Record OwnerQueues (T : Type) := { oq_control : list (Scheduled T); oq_bulk : list (Scheduled T) }.
Arguments oq_control {T}.
Arguments oq_bulk {T}.

Record FairScheduler (T : Type) := {
  fs_owners : gmap WriterOwner (OwnerQueues T);
  fs_control_order : list WriterOwner;
  fs_bulk_order : list WriterOwner;
  fs_control_burst : N;
  fs_len : N;
}.
Arguments fs_owners {T}.
Arguments fs_control_order {T}.
Arguments fs_bulk_order {T}.
Arguments fs_control_burst {T}.
Arguments fs_len {T}.

Section scheduler.
Context {T : Type}.
Implicit Types (s : FairScheduler T) (qs : OwnerQueues T).

Definition fs_default : FairScheduler T :=
  {| fs_owners := ∅; fs_control_order := []; fs_bulk_order := []; fs_control_burst := 0; fs_len := 0 |}.

Definition oq_default : OwnerQueues T := {| oq_control := []; oq_bulk := [] |}.

(** The queue of a class, and the order of its owners. *)
Definition oq_queue (class : WriterClass) qs : list (Scheduled T) :=
  match class with Control => oq_control qs | Bulk => oq_bulk qs end.
Definition oq_set (class : WriterClass) (l : list (Scheduled T)) qs : OwnerQueues T :=
  match class with
  | Control => {| oq_control := l; oq_bulk := oq_bulk qs |}
  | Bulk => {| oq_control := oq_control qs; oq_bulk := l |}
  end.
Definition fs_order (class : WriterClass) s : list WriterOwner :=
  match class with Control => fs_control_order s | Bulk => fs_bulk_order s end.
Definition fs_set (class : WriterClass) (order : list WriterOwner) (owners : gmap WriterOwner (OwnerQueues T))
    (n : N) s : FairScheduler T :=
  {| fs_owners := owners;
     fs_control_order := match class with Control => order | Bulk => fs_control_order s end;
     fs_bulk_order := match class with Control => fs_bulk_order s | Bulk => order end;
     fs_control_burst := fs_control_burst s;
     fs_len := n |}.

Definition fs_is_empty s : bool := fs_len s =? 0.

(** [push] up to its assertions. *)
Definition enqueue (owner : WriterOwner) (class : WriterClass) (enqueued_at : N) (value : T) s : FairScheduler T :=
  let queues := default oq_default (fs_owners s !! owner) in
  let queue := oq_queue class queues in
  let order := if bool_decide (length queue = 0%nat) then fs_order class s ++ [owner] else fs_order class s in
  fs_set class order
    (<[owner := oq_set class (queue ++ [{| sc_enqueued_at := enqueued_at; sc_value := value |}]) queues]>
       (fs_owners s))
    (fs_len s + 1) s.

Definition push (owner : WriterOwner) (class : WriterClass) (enqueued_at : N) (value : T) s
    : option (FairScheduler T) :=
  let s := enqueue owner class enqueued_at value s in
  if (N.of_nat (size (fs_owners s)) <=? MAX_ACTIVE_OWNERS) && (fs_len s <=? CHANNEL_MESSAGES)
  then Some s else None.

(** [None] is a panic, [Some (None, _)] an empty class. *)
Definition pop_class (class : WriterClass) s : option (option T * FairScheduler T) :=
  match fs_order class s with
  | [] => Some (None, s)
  | owner :: order =>
      queues ← fs_owners s !! owner;
      match oq_queue class queues with
      | [] => None
      | scheduled :: queue =>
          let queues := oq_set class queue queues in
          let class_has_more := negb (bool_decide (length queue = 0%nat)) in
          let owner_is_empty := bool_decide (length (oq_control queues) = 0%nat)
                                && bool_decide (length (oq_bulk queues) = 0%nat) in
          let order := if class_has_more then order ++ [owner] else order in
          let owners := if owner_is_empty then delete owner (fs_owners s)
                        else <[owner := queues]> (fs_owners s) in
          n ← checked_sub64 (fs_len s) 1;
          Some (Some (sc_value scheduled), fs_set class order owners n s)
      end
  end.

Definition set_burst (n : N) s : FairScheduler T :=
  {| fs_owners := fs_owners s; fs_control_order := fs_control_order s; fs_bulk_order := fs_bulk_order s;
     fs_control_burst := n; fs_len := fs_len s |}.

Definition pop_selected (class : WriterClass) s : option (option T * FairScheduler T) :=
  popped ← pop_class class s;
  match popped with
  | (None, s) => Some (None, s)
  | (Some value, s) =>
      Some (Some value,
            match class with
            | Control => set_burst (saturating_add64 (fs_control_burst s) 1) s
            | Bulk => set_burst 0 s
            end)
  end.

Definition bulk_is_aged (now : N) s : bool :=
  existsb (λ owner,
    match fs_owners s !! owner with
    | Some qs => match oq_bulk qs with
                 | item :: _ => BULK_AGING <=? now - sc_enqueued_at item
                 | [] => false
                 end
    | None => false
    end) (fs_bulk_order s).

Definition bulk_should_run (now : N) s : bool :=
  negb (bool_decide (length (fs_bulk_order s) = 0%nat))
  && ((MAX_CONTROL_BURST <=? fs_control_burst s)
      || ((0 <? fs_control_burst s) && bulk_is_aged now s)).

Definition pop (now : N) s : option (option T * FairScheduler T) :=
  match fs_control_order s, fs_bulk_order s with
  | [], [] => Some (None, s)
  | _ :: _, [] => pop_selected Control s
  | [], _ :: _ => pop_selected Bulk s
  | _ :: _, _ :: _ => if bulk_should_run now s then pop_selected Bulk s else pop_selected Control s
  end.

Definition pop_control_for_group (now : N) s : option (option T * FairScheduler T) :=
  if bool_decide (length (fs_control_order s) = 0%nat) || bulk_should_run now s
  then Some (None, s)
  else pop_selected Control s.

(** The messages that are dropped with the scheduler. *)
Definition scheduled_messages s : list T :=
  map_to_list (fs_owners s) ≫= λ x, sc_value <$> (oq_control (snd x) ++ oq_bulk (snd x)).
End scheduler.
