(* ===== verification/WriterQueueProps.v ===== *)
(** The queue of the storage writer: the accounts are those of the
    reservations that are held and never exceed the caps; the scheduler loses
    and invents nothing, serves every owner's messages of a class in order, and
    a bulk message waits for a bounded number of others.

    The fair scheduler of the storage writer: it loses, invents and reorders
    nothing within an owner's class, panics only on a push beyond its caps,
    which the reservations exclude ([WriterLoop]), is never idle while a
    message waits, and serves a bulk message after a bounded number of others
    however many control messages arrive. *)

From S2P Require Import Prelude Bytes PackFormat StorageWriter WriterQueue.
Local Open Scope N_scope.

(** * Reservations *)

Definition sum_of {A} (f : A → N) (l : list A) : N := foldr (λ x n, f x + n) 0 l.

Lemma sum_of_mid {A} (f : A → N) l1 x l2 : sum_of f (l1 ++ x :: l2) = f x + sum_of f (l1 ++ l2).
Proof. unfold sum_of. induction l1 as [|y l1 IH]; simpl; [done|]. rewrite IH. lia. Qed.

Definition usage_of (held : list QueueReservation) : OwnerUsage :=
  {| ou_messages := sum_of (λ _, 1) held;
     ou_bytes := sum_of rv_bytes held;
     ou_bulk_messages := sum_of (λ r, bulk_part (rv_class r) 1) held;
     ou_bulk_bytes := sum_of (λ r, bulk_part (rv_class r) (rv_bytes r)) held |}.

Definition of_owner (o : WriterOwner) (held : list QueueReservation) : list QueueReservation :=
  filter (λ r, rv_owner r = o) held.

(** The state is the account of the reservations that are held. *)
Definition queue_rep (held : list QueueReservation) (q : QueueState) : Prop :=
  {| ou_messages := qs_messages q; ou_bytes := qs_bytes q;
     ou_bulk_messages := qs_bulk_messages q; ou_bulk_bytes := qs_bulk_bytes q |} = usage_of held ∧
  ∀ o, qs_owners q !! o =
       if decide (of_owner o held = []) then None else Some (usage_of (of_owner o held)).

Definition control_messages (u : OwnerUsage) : N := ou_messages u - ou_bulk_messages u.
Definition control_bytes (u : OwnerUsage) : N := ou_bytes u - ou_bulk_bytes u.

(** The caps of the queue and of one owner. *)
Definition owner_caps (o : WriterOwner) (u : OwnerUsage) : Prop :=
  ou_messages u ≤ OWNER_QUEUE_MESSAGES ∧ ou_bytes u ≤ OWNER_QUEUE_BYTES ∧
  ou_bulk_messages u ≤ OWNER_BULK_MESSAGES ∧ ou_bulk_bytes u ≤ OWNER_BULK_BYTES ∧
  control_messages u ≤ OWNER_CONTROL_MESSAGES ∧
  control_bytes u ≤ (if is_internal o then QUEUE_BYTES else OWNER_CONTROL_BYTES).

Definition queue_caps (q : QueueState) : Prop :=
  qs_messages q ≤ CHANNEL_MESSAGES ∧ qs_bytes q ≤ QUEUE_BYTES ∧
  qs_bulk_messages q ≤ BULK_QUEUE_MESSAGES ∧ qs_bulk_bytes q ≤ BULK_QUEUE_BYTES ∧
  N.of_nat (size (qs_owners q)) ≤ MAX_ACTIVE_OWNERS ∧
  map_Forall owner_caps (qs_owners q).

(** Reservations are taken, and dropped in any order. *)
Inductive queue_step : list QueueReservation * QueueState → list QueueReservation * QueueState → Prop :=
  | step_reserve held q r q' :
      reserve (rv_owner r) (rv_class r) (rv_bytes r) q = Ok q' →
      queue_step (held, q) (r :: held, q')
  | step_release l1 r l2 q q' :
      release (rv_owner r) (rv_class r) (rv_bytes r) q = Some q' →
      queue_step (l1 ++ r :: l2, q) (l1 ++ l2, q').

Lemma bulk_part_le class n : bulk_part class n ≤ n.
Proof. destruct class; cbn; lia. Qed.

Lemma usage_bulk_le held :
  ou_bulk_messages (usage_of held) ≤ ou_messages (usage_of held) ∧
  ou_bulk_bytes (usage_of held) ≤ ou_bytes (usage_of held).
Proof.
  cbn. induction held as [|r held [IH1 IH2]]; cbn; [done|].
  pose proof (bulk_part_le (rv_class r) 1). pose proof (bulk_part_le (rv_class r) (rv_bytes r)).
  unfold sum_of in *. split; lia.
Qed.

Lemma rep_current held q o :
  queue_rep held q → default no_usage (qs_owners q !! o) = usage_of (of_owner o held).
Proof. intros [_ H]. rewrite H. by destruct (decide _) as [->|]. Qed.

Lemma checked_add64_Some a b c : checked_add64 a b = Some c → c = a + b.
Proof. unfold checked_add64. case_match; congruence. Qed.

Lemma exceeds_false a b limit : exceeds a b limit = false → a + b ≤ limit.
Proof.
  unfold exceeds. destruct (checked_add64 a b) as [c|] eqn:E; [|done].
  apply checked_add64_Some in E as ->. intros ?%N.ltb_ge. done.
Qed.

(** What a granted reservation has checked. *)
Lemma reserve_checks owner class bytes q q' :
  reserve owner class bytes q = Ok q' →
  let current := default no_usage (qs_owners q !! owner) in
  (qs_messages q + 1 ≤ CHANNEL_MESSAGES ∧ qs_bytes q + bytes ≤ QUEUE_BYTES) ∧
  (is_Some (qs_owners q !! owner) ∨ N.of_nat (size (qs_owners q)) < MAX_ACTIVE_OWNERS) ∧
  (ou_messages current < OWNER_QUEUE_MESSAGES ∧ ou_bytes current + bytes ≤ OWNER_QUEUE_BYTES) ∧
  match class with
  | Bulk => qs_bulk_messages q + 1 ≤ BULK_QUEUE_MESSAGES ∧ qs_bulk_bytes q + bytes ≤ BULK_QUEUE_BYTES ∧
            ou_bulk_messages current < OWNER_BULK_MESSAGES ∧ ou_bulk_bytes current + bytes ≤ OWNER_BULK_BYTES
  | Control => control_messages current < OWNER_CONTROL_MESSAGES ∧
               control_bytes current + bytes ≤ (if is_internal owner then QUEUE_BYTES else OWNER_CONTROL_BYTES)
  end ∧
  q' = {| qs_messages := qs_messages q + 1;
          qs_bytes := qs_bytes q + bytes;
          qs_bulk_messages := qs_bulk_messages q + bulk_part class 1;
          qs_bulk_bytes := qs_bulk_bytes q + bulk_part class bytes;
          qs_owners := <[owner := {| ou_messages := ou_messages current + 1;
                                     ou_bytes := ou_bytes current + bytes;
                                     ou_bulk_messages := ou_bulk_messages current + bulk_part class 1;
                                     ou_bulk_bytes := ou_bulk_bytes current + bulk_part class bytes |}]>
                         (qs_owners q) |}.
Proof.
  unfold reserve. set (current := default no_usage (qs_owners q !! owner)).
  destruct (checked_add64 (qs_messages q) 1) as [m|] eqn:Em; [cbn [ok_or]|done].
  destruct (checked_add64 (qs_bytes q) bytes) as [b|] eqn:Eb; [cbn [ok_or]|done].
  apply checked_add64_Some in Em as ->. apply checked_add64_Some in Eb as ->.
  destruct (_ || _) eqn:E1; [done|]. destruct (_ && _) eqn:E2; [done|].
  destruct ((_ <=? _) || _) eqn:E3; [done|].
  apply orb_false_elim in E1 as [E1a%N.ltb_ge E1b%N.ltb_ge].
  apply orb_false_elim in E3 as [E3a%N.leb_gt E3b%exceeds_false].
  assert (is_Some (qs_owners q !! owner) ∨ N.of_nat (size (qs_owners q)) < MAX_ACTIVE_OWNERS) as Hown.
  { apply andb_false_iff in E2 as [E2|E2%N.leb_gt]; [left|by right].
    apply negb_false_iff, bool_decide_eq_true in E2. done. }
  intros H. apply let_ok in H as (u & Hc & [= <-]). cbv zeta. split_and!; try done.
  destruct class.
  - unfold reserve_control in Hc. destruct (_ || _) eqn:E4; [done|].
    apply orb_false_elim in E4 as [E4a%N.leb_gt E4b%exceeds_false]. done.
  - unfold reserve_bulk in Hc.
    destruct (checked_add64 (qs_bulk_messages q) 1) as [x|] eqn:Ex; [cbn [ok_or] in Hc|done].
    destruct (checked_add64 (qs_bulk_bytes q) bytes) as [y|] eqn:Ey; [cbn [ok_or] in Hc|done].
    destruct (checked_add64 (ou_bulk_bytes current) bytes) as [z|] eqn:Ez; [cbn [ok_or] in Hc|done].
    apply checked_add64_Some in Ex as ->. apply checked_add64_Some in Ey as ->.
    apply checked_add64_Some in Ez as ->. destruct (_ || _) eqn:E4 in Hc; [done|]. bool_to_prop. done.
Qed.

Lemma of_owner_cons o r held :
  of_owner o (r :: held) = if decide (rv_owner r = o) then r :: of_owner o held else of_owner o held.
Proof. unfold of_owner. by rewrite filter_cons. Qed.

Lemma reserve_rep held q r q' :
  queue_rep held q → reserve (rv_owner r) (rv_class r) (rv_bytes r) q = Ok q' → queue_rep (r :: held) q'.
Proof.
  intros Hrep H. pose proof (rep_current held q (rv_owner r) Hrep) as Hcur.
  apply reserve_checks in H as (_ & _ & _ & _ & ->). rewrite Hcur. destruct Hrep as [Ht Ho].
  injection Ht as E1 E2 E3 E4.
  split; cbn [qs_messages qs_bytes qs_bulk_messages qs_bulk_bytes qs_owners].
  - rewrite E1, E2, E3, E4. unfold usage_of, sum_of. cbn. f_equal; lia.
  - intros o. rewrite of_owner_cons. destruct (decide (rv_owner r = o)) as [<-|Hne].
    + rewrite lookup_insert_eq, decide_False by done. f_equal. unfold usage_of, sum_of. cbn. f_equal; lia.
    + by rewrite lookup_insert_ne.
Qed.

Lemma reserve_caps held q r q' :
  queue_rep held q → queue_caps q → reserve (rv_owner r) (rv_class r) (rv_bytes r) q = Ok q' → queue_caps q'.
Proof.
  intros Hrep (C1 & C2 & C3 & C4 & C5 & C6) H. pose proof (rep_current held q (rv_owner r) Hrep) as Hcur.
  apply reserve_checks in H as (H1 & H2 & H3 & H4 & ->).
  pose proof (usage_bulk_le (of_owner (rv_owner r) held)) as [Hb1 Hb2]. rewrite <-Hcur in Hb1, Hb2.
  set (u := default no_usage (qs_owners q !! rv_owner r)) in *.
  assert (owner_caps (rv_owner r) u) as (U1 & U2 & U3 & U4 & U5 & U6).
  { unfold u. destruct (qs_owners q !! rv_owner r) as [x|] eqn:E; [by apply (C6 _ _ E)|].
    cbn. split_and!; try done. cbn. by destruct (is_internal _). }
  split_and!; cbn [qs_messages qs_bytes qs_bulk_messages qs_bulk_bytes qs_owners].
  - lia.
  - lia.
  - destruct (rv_class r); cbn [bulk_part]; lia.
  - destruct (rv_class r); cbn [bulk_part]; lia.
  - destruct (qs_owners q !! rv_owner r) as [x|] eqn:E.
    + rewrite map_size_insert, E. cbn. done.
    + rewrite map_size_insert, E. destruct H2 as [[? ?]|H2]; [done|]. cbn. lia.
  - apply map_Forall_insert_2; [|done].
    unfold owner_caps, control_messages, control_bytes in *.
    cbn [ou_messages ou_bytes ou_bulk_messages ou_bulk_bytes].
    destruct (rv_class r); cbn [bulk_part]; split_and!; lia.
Qed.

(** ** Releasing *)

Lemma checked_sub64_ok a b : b ≤ a → checked_sub64 a b = Some (a - b).
Proof. intros H. unfold checked_sub64. by rewrite (proj2 (N.leb_le b a) H). Qed.

Lemma of_owner_app o l1 l2 : of_owner o (l1 ++ l2) = of_owner o l1 ++ of_owner o l2.
Proof. unfold of_owner. by rewrite filter_app. Qed.

Lemma usage_mid l1 r l2 :
  let u := usage_of (l1 ++ r :: l2) in let v := usage_of (l1 ++ l2) in
  ou_messages u = 1 + ou_messages v ∧ ou_bytes u = rv_bytes r + ou_bytes v ∧
  ou_bulk_messages u = bulk_part (rv_class r) 1 + ou_bulk_messages v ∧
  ou_bulk_bytes u = bulk_part (rv_class r) (rv_bytes r) + ou_bulk_bytes v.
Proof. cbn. rewrite !sum_of_mid. done. Qed.

Lemma usage_messages_0 held : ou_messages (usage_of held) = 0 → held = [].
Proof. destruct held; cbn; [done|]. lia. Qed.

(** A held reservation is released without a panic. *)
Lemma release_rep l1 r l2 q :
  queue_rep (l1 ++ r :: l2) q →
  ∃ q', release (rv_owner r) (rv_class r) (rv_bytes r) q = Some q' ∧ queue_rep (l1 ++ l2) q'.
Proof.
  intros [Ht Ho]. destruct (usage_mid l1 r l2) as (M1 & M2 & M3 & M4).
  rewrite <-Ht in M1, M2, M3, M4. cbn [ou_messages ou_bytes ou_bulk_messages ou_bulk_bytes] in M1, M2, M3, M4.
  set (k := rv_owner r) in *.
  assert (of_owner k (l1 ++ r :: l2) = of_owner k l1 ++ r :: of_owner k l2) as Hk.
  { rewrite of_owner_app, of_owner_cons, decide_True by done. done. }
  assert (of_owner k (l1 ++ l2) = of_owner k l1 ++ of_owner k l2) as Hk' by apply of_owner_app.
  destruct (usage_mid (of_owner k l1) r (of_owner k l2)) as (O1 & O2 & O3 & O4).
  rewrite <-Hk, <-Hk' in O1, O2, O3, O4.
  set (u := usage_of (of_owner k (l1 ++ r :: l2))) in *. set (v := usage_of (of_owner k (l1 ++ l2))) in *.
  set (t := usage_of (l1 ++ l2)) in *.
  assert (qs_owners q !! k = Some u) as Hu.
  { rewrite Ho, decide_False; [done|]. rewrite Hk. by destruct (of_owner k l1). }
  clearbody u.
  unfold release. rewrite (checked_sub64_ok (qs_messages q)), (checked_sub64_ok (qs_bytes q)),
    (checked_sub64_ok (qs_bulk_messages q)), (checked_sub64_ok (qs_bulk_bytes q)) by lia.
  csimpl. rewrite Hu. csimpl.
  rewrite (checked_sub64_ok (ou_messages u)), (checked_sub64_ok (ou_bytes u)),
    (checked_sub64_ok (ou_bulk_messages u)), (checked_sub64_ok (ou_bulk_bytes u)) by lia. csimpl.
  eexists. split; [done|]. split; cbn [qs_messages qs_bytes qs_bulk_messages qs_bulk_bytes qs_owners].
  - fold t. replace t with {| ou_messages := ou_messages t; ou_bytes := ou_bytes t;
      ou_bulk_messages := ou_bulk_messages t; ou_bulk_bytes := ou_bulk_bytes t |} by (by destruct t).
    f_equal; lia.
  - intros o. destruct (decide (k = o)) as [<-|Hne].
    + destruct (N.eqb_spec (ou_messages u - 1) 0) as [E|E].
      * rewrite lookup_delete_eq, decide_True; [done|]. apply usage_messages_0. fold v. lia.
      * rewrite lookup_insert_eq, decide_False.
        -- f_equal. fold v. replace v with {| ou_messages := ou_messages v; ou_bytes := ou_bytes v;
             ou_bulk_messages := ou_bulk_messages v; ou_bulk_bytes := ou_bulk_bytes v |} by (by destruct v).
           f_equal; lia.
        -- intros E'. apply E. unfold v in O1. rewrite E' in O1. cbn in O1. lia.
    + assert (of_owner o (l1 ++ r :: l2) = of_owner o (l1 ++ l2)) as Heq.
      { rewrite !of_owner_app, of_owner_cons, decide_False by done. done. }
      specialize (Ho o). rewrite Heq in Ho.
      destruct (_ =? 0); [by rewrite lookup_delete_ne|by rewrite lookup_insert_ne].
Qed.

(** The caps only depend on the amounts, which a release lowers. *)
Lemma release_caps l1 r l2 q q' :
  queue_rep (l1 ++ r :: l2) q → queue_rep (l1 ++ l2) q' → queue_caps q → queue_caps q'.
Proof.
  intros [Ht Ho] [Ht' Ho'] (C1 & C2 & C3 & C4 & C5 & C6).
  destruct (usage_mid l1 r l2) as (M1 & M2 & M3 & M4).
  rewrite <-Ht, <-Ht' in M1, M2, M3, M4.
  cbn [ou_messages ou_bytes ou_bulk_messages ou_bulk_bytes] in M1, M2, M3, M4.
  assert (∀ o, is_Some (qs_owners q' !! o) → is_Some (qs_owners q !! o)) as Hsub.
  { intros o. rewrite Ho, Ho'. intros [x Hx]. case_decide as E; [done|].
    rewrite decide_False; [by eauto|]. rewrite of_owner_app, of_owner_cons in *.
    case_decide; [by destruct (of_owner o l1)|done]. }
  split_and!; [lia..| |].
  - enough (size (qs_owners q') ≤ size (qs_owners q))%nat by lia.
    rewrite <-!size_dom. apply subseteq_size. intros o. rewrite !elem_of_dom. apply Hsub.
  - intros o u Hu. destruct (Hsub o) as [w Hw]; [by eauto|]. pose proof (C6 o w Hw) as Hc.
    rewrite Ho in Hw. rewrite Ho' in Hu. case_decide; [done|]. case_decide; [done|]. simplify_eq.
    rewrite of_owner_app, of_owner_cons in Hc. rewrite of_owner_app.
    case_decide; [|done].
    destruct (usage_mid (of_owner o l1) r (of_owner o l2)) as (O1 & O2 & O3 & O4).
    pose proof (usage_bulk_le (of_owner o l1 ++ of_owner o l2)) as [B1 B2].
    unfold owner_caps, control_messages, control_bytes in *.
    pose proof (bulk_part_le (rv_class r) 1). pose proof (bulk_part_le (rv_class r) (rv_bytes r)).
    destruct Hc as (? & ? & ? & ? & ? & ?). split_and!; lia.
Qed.

Definition queue_ok (c : list QueueReservation * QueueState) : Prop := queue_rep c.1 c.2 ∧ queue_caps c.2.

Lemma queue_ok_init : queue_ok ([], qs_default).
Proof.
  split; [split; [done|intros o; cbn; by rewrite lookup_empty]|].
  by split_and!.
Qed.

Lemma queue_ok_step c c' : queue_step c c' → queue_ok c → queue_ok c'.
Proof.
  intros [held q r q' H|l1 r l2 q q' H] [Hrep Hcaps]; cbn in *.
  - split; [by eapply reserve_rep|by eapply reserve_caps].
  - destruct (release_rep _ _ _ _ Hrep) as (q'' & H' & Hrep'). rewrite H in H'. simplify_eq.
    split; [done|by eapply release_caps].
Qed.

Lemma queue_ok_reachable c : rtc queue_step ([], qs_default) c → queue_ok c.
Proof.
  intros H. refine (rtc_ind_r queue_ok _ queue_ok_init _ _ H).
  intros y z _ Hs Hy. by apply (queue_ok_step y).
Qed.

(** The order of the reservations does not matter. *)
Lemma sum_of_perm {A} (f : A → N) l1 l2 : l1 ≡ₚ l2 → sum_of f l1 = sum_of f l2.
Proof. unfold sum_of. induction 1; cbn; lia. Qed.

Lemma usage_of_perm l1 l2 : l1 ≡ₚ l2 → usage_of l1 = usage_of l2.
Proof. intros H. unfold usage_of. by rewrite !(sum_of_perm _ l1 l2 H). Qed.

Lemma queue_ok_perm l1 l2 q : l1 ≡ₚ l2 → queue_ok (l1, q) → queue_ok (l2, q).
Proof.
  intros Hp [[Ht Ho] Hc]. split; [split|done]; cbn [fst snd] in *.
  - by rewrite <-(usage_of_perm l1 l2).
  - intros o. rewrite Ho. assert (of_owner o l1 ≡ₚ of_owner o l2) as Hp' by (unfold of_owner; by rewrite Hp).
    rewrite (usage_of_perm _ _ Hp'). destruct (decide (of_owner o l1 = [])) as [E|E], (decide (of_owner o l2 = [])) as [E'|E']; try done.
    + rewrite E in Hp'. by apply Permutation_nil_l in Hp'.
    + rewrite E' in Hp'. by apply Permutation_nil_r in Hp'.
Qed.

(** The caps bound the reservations that are held at a time, and their
    owners. *)
Lemma queue_ok_bounds held q :
  queue_ok (held, q) →
  len held ≤ CHANNEL_MESSAGES ∧ N.of_nat (size (list_to_set (rv_owner <$> held) : gset WriterOwner)) ≤ MAX_ACTIVE_OWNERS.
Proof.
  intros [[Ht Ho] (H1 & _ & _ & _ & H5 & _)]; cbn in *. split.
  - injection Ht as E _. rewrite E in H1. etrans; [|exact H1]. clear. unfold sum_of. induction held as [|r held IH]; [done|].
    cbn. rewrite len_cons. lia.
  - etrans; [|exact H5]. rewrite <-size_dom. apply N.eq_le_incl. do 2 f_equal. apply set_eq. intros o.
    rewrite elem_of_list_to_set, elem_of_dom, Ho, list_elem_of_fmap. unfold of_owner. split.
    + intros (r & -> & Hr). rewrite decide_False; [done|]. intros E.
      assert (r ∈ filter (λ x, rv_owner x = rv_owner r) held) as H by (by apply list_elem_of_filter).
      rewrite E in H. by apply elem_of_nil in H.
    + intros [x Hx]. case_decide as E; [done|].
      destruct (filter (λ r, rv_owner r = o) held) as [|r l] eqn:El; [done|].
      assert (r ∈ filter (λ r, rv_owner r = o) held) as [<- Hr]%list_elem_of_filter by (rewrite El; left).
      by exists r.
Qed.

(** C21: however reservations are granted and dropped, the accounts of the
    writer's queue are exactly the sums over the reservations that are held,
    in total and per owner; the caps of the queue, of every owner and of every
    class hold; an owner that holds nothing has no entry; and dropping any
    reservation that is held does not panic. *)
Theorem queue_accounts_exact (held : list QueueReservation) (q : QueueState) :
  rtc queue_step ([], qs_default) (held, q) →
  queue_rep held q ∧ queue_caps q ∧
  ∀ l1 r l2, held = l1 ++ r :: l2 →
    ∃ q', release (rv_owner r) (rv_class r) (rv_bytes r) q = Some q' ∧ queue_rep (l1 ++ l2) q' ∧ queue_caps q'.
Proof.
  intros H. apply queue_ok_reachable in H as [Hrep Hcaps]. cbn in *. split; [done|]. split; [done|].
  intros l1 r l2 ->. destruct (release_rep _ _ _ _ Hrep) as (q' & ? & ?).
  exists q'. split; [done|]. split; [done|]. by eapply release_caps.
Qed.


Section scheduler.
Context {T : Type}.
Implicit Types (s : FairScheduler T) (c : WriterClass) (o : WriterOwner).

(** * The queues behind the scheduler *)

Definition queue_at c o s : list (Scheduled T) :=
  match fs_owners s !! o with Some qs => oq_queue c qs | None => [] end.

Definition queued c s : N := sum_of (λ o, len (queue_at c o s)) (fs_order c s).

(** The orders list the owners whose queue is not empty, once each; no owner
    without messages is kept; [len] counts the messages. *)
Record sched_inv s : Prop := {
  si_nodup : ∀ c, NoDup (fs_order c s);
  si_order : ∀ c o, o ∈ fs_order c s ↔ queue_at c o s ≠ [];
  si_owner : ∀ o, is_Some (fs_owners s !! o) → ∃ c, queue_at c o s ≠ [];
  si_len : fs_len s = queued Control s + queued Bulk s;
}.

Lemma sum_of_ext {A} (f g : A → N) l : (∀ x, x ∈ l → f x = g x) → sum_of f l = sum_of g l.
Proof.
  unfold sum_of. induction l as [|x l IH]; intros H; [done|]. simpl.
  rewrite (H x) by apply list_elem_of_here. f_equal. apply IH. intros y Hy. apply H. by right.
Qed.

Lemma sum_of_app {A} (f : A → N) l1 l2 : sum_of f (l1 ++ l2) = sum_of f l1 + sum_of f l2.
Proof. unfold sum_of. induction l1 as [|x l1 IH]; simpl; [lia|]. rewrite IH. lia. Qed.

(** The sum over an order when the queue of one of its owners changes. *)
Lemma sum_of_update {A} `{EqDecision A} (f g : A → N) l x :
  NoDup l → x ∈ l → (∀ y, y ≠ x → f y = g y) → sum_of f l + g x = sum_of g l + f x.
Proof.
  intros Hnd (l1 & l2 & ->)%list_elem_of_split Hext. rewrite !sum_of_mid.
  apply NoDup_app in Hnd as (_ & Hd & Hnd). apply NoDup_cons in Hnd as [Hx _].
  rewrite (sum_of_ext f g (l1 ++ l2)); [lia|].
  intros y Hy. apply Hext. intros ->. apply elem_of_app in Hy as [Hy|Hy]; [|done].
  apply (Hd x Hy). apply list_elem_of_here.
Qed.

Lemma fs_order_set c c' order owners n s :
  fs_order c' (fs_set c order owners n s) = if decide (c' = c) then order else fs_order c' s.
Proof. by destruct c, c'. Qed.

Lemma oq_queue_set c c' l (qs : OwnerQueues T) :
  oq_queue c' (oq_set c l qs) = if decide (c' = c) then l else oq_queue c' qs.
Proof. by destruct c, c'. Qed.

Lemma queue_at_default c o s : queue_at c o s = oq_queue c (default oq_default (fs_owners s !! o)).
Proof. unfold queue_at. destruct (fs_owners s !! o); [done|]. by destruct c. Qed.

(** A change of one queue that keeps the order in step keeps the invariant;
    both operations are of this form. *)
Lemma sched_inv_update c o l s s' :
  sched_inv s →
  (∀ c' o', queue_at c' o' s' = if decide (c' = c ∧ o' = o) then l else queue_at c' o' s) →
  (∀ o', is_Some (fs_owners s' !! o') → ∃ c', queue_at c' o' s' ≠ []) →
  (∀ c', c' ≠ c → fs_order c' s' = fs_order c' s) →
  NoDup (fs_order c s') →
  (∀ o', o' ∈ fs_order c s' ↔ if decide (o' = o) then l ≠ [] else o' ∈ fs_order c s) →
  queued c s' + len (queue_at c o s) = queued c s + len l →
  fs_len s' + len (queue_at c o s) = fs_len s + len l →
  sched_inv s'.
Proof.
  intros [Hnd Hord Hown Hlen] Hq Hown' Hne Hnd' Hord' Hcount Hlen'.
  assert (∀ c', c' ≠ c → queued c' s' = queued c' s) as Hother.
  { intros c' Hc. unfold queued. rewrite Hne by done. apply sum_of_ext. intros o' _.
    by rewrite Hq, decide_False by (by intros [? ?]). }
  split; [| |done|].
  - intros c'. destruct (decide (c' = c)) as [->|Hc]; [done|]. by rewrite Hne.
  - intros c' o'. destruct (decide (c' = c)) as [->|Hc].
    + rewrite Hord', Hq. destruct (decide (o' = o)) as [->|Ho].
      * by rewrite decide_True.
      * by rewrite decide_False by (by intros [? ?]).
    + rewrite Hne, Hq, decide_False by (by try intros [? ?]). apply Hord.
  - destruct c; [rewrite (Hother Bulk) by done|rewrite (Hother Control) by done]; lia.
Qed.

Lemma count_update c o l s s' :
  sched_inv s →
  (∀ c' o', queue_at c' o' s' = if decide (c' = c ∧ o' = o) then l else queue_at c' o' s) →
  o ∈ fs_order c s → fs_order c s' = fs_order c s →
  queued c s' + len (queue_at c o s) = queued c s + len l.
Proof.
  intros Hinv Hq Ho Heq. unfold queued. rewrite Heq.
  pose proof (sum_of_update (λ o, len (queue_at c o s')) (λ o, len (queue_at c o s)) (fs_order c s) o) as H.
  cbn beta in H. rewrite H; [|apply Hinv|done|].
  - f_equal. by rewrite Hq, decide_True.
  - intros y Hy. by rewrite Hq, decide_False by (by intros [? ?]).
Qed.

(** * Enqueue *)

Lemma enqueue_queue_at o c at_ v s c' o' :
  queue_at c' o' (enqueue o c at_ v s) =
  if decide (c' = c ∧ o' = o)
  then queue_at c o s ++ [{| sc_enqueued_at := at_; sc_value := v |}] else queue_at c' o' s.
Proof.
  unfold enqueue. cbv zeta. unfold queue_at at 1. cbn [fs_owners fs_set].
  destruct (decide (o = o')) as [<-|Ho].
  - rewrite lookup_insert_eq, oq_queue_set, <-!queue_at_default.
    destruct (decide (c' = c)) as [->|Hc]; [by rewrite decide_True|].
    by rewrite decide_False by (by intros [? ?]).
  - rewrite lookup_insert_ne by done. by rewrite decide_False by (by intros [? ?]).
Qed.

Lemma enqueue_order o c at_ v s c' :
  fs_order c' (enqueue o c at_ v s) =
  if decide (c' = c)
  then if decide (queue_at c o s = []) then fs_order c s ++ [o] else fs_order c s
  else fs_order c' s.
Proof.
  unfold enqueue. cbv zeta. rewrite fs_order_set, <-queue_at_default. case_decide; [|done].
  by destruct (queue_at c o s).
Qed.

Lemma enqueue_owner_busy o c at_ v s o' :
  sched_inv s → is_Some (fs_owners (enqueue o c at_ v s) !! o') → ∃ c', queue_at c' o' (enqueue o c at_ v s) ≠ [].
Proof.
  intros Hinv Hs. destruct (decide (o' = o)) as [->|Ho].
  - exists c. rewrite enqueue_queue_at, decide_True by done. by destruct (queue_at c o s).
  - destruct (si_owner s Hinv o') as [c' Hc'].
    + unfold enqueue in Hs. cbn [fs_owners fs_set] in Hs. by rewrite lookup_insert_ne in Hs.
    + exists c'. by rewrite enqueue_queue_at, decide_False by (by intros [? ?]).
Qed.

Lemma enqueue_inv o c at_ v s : sched_inv s → sched_inv (enqueue o c at_ v s).
Proof.
  intros Hinv. pose proof (si_order s Hinv c) as Hord. pose proof (si_nodup s Hinv c) as Hnd.
  apply (sched_inv_update c o (queue_at c o s ++ [{| sc_enqueued_at := at_; sc_value := v |}]) s); try done.
  - intros c' o'. apply enqueue_queue_at.
  - intros o'. by apply enqueue_owner_busy.
  - intros c' Hc. by rewrite enqueue_order, decide_False.
  - rewrite enqueue_order, decide_True by done. case_decide as E; [|done].
    apply NoDup_app. split_and!; [done| |apply NoDup_singleton].
    intros o' Ho'. rewrite list_elem_of_singleton. intros ->. by apply Hord in Ho'.
  - intros o'. rewrite enqueue_order, decide_True by done.
    assert (queue_at c o s ++ [{| sc_enqueued_at := at_; sc_value := v |}] ≠ []) by (by destruct (queue_at c o s)).
    case_decide as E; destruct (decide (o' = o)) as [->|Ho]; rewrite ?elem_of_app, ?list_elem_of_singleton.
    + naive_solver.
    + naive_solver.
    + rewrite Hord. naive_solver.
    + done.
  - destruct (decide (queue_at c o s = [])) as [E|E].
    + unfold queued. rewrite enqueue_order, decide_True, decide_True, sum_of_app by done.
      cbn. rewrite enqueue_queue_at, decide_True, E by done. cbn.
      rewrite (sum_of_ext _ (λ o, len (queue_at c o s))); [unfold len; simpl; lia|].
      intros o' Ho'. rewrite enqueue_queue_at, decide_False; [done|]. intros [_ ->]. by apply Hord in Ho'.
    + apply (count_update c o); [done| | |].
      * intros c' o'. apply enqueue_queue_at.
      * by apply Hord.
      * by rewrite enqueue_order, decide_True, decide_False.
  - cbn [fs_len enqueue fs_set]. unfold len. rewrite length_app. cbn [length]. lia.
Qed.

(** * Pop *)

(** What serving the first owner of a class does. *)
Record served c s (v : T) s' o (order : list WriterOwner) (queue : list (Scheduled T)) : Prop := {
  sv_order : fs_order c s = o :: order;
  sv_queue : ∃ item, queue_at c o s = item :: queue ∧ sc_value item = v;
  sv_order' : fs_order c s' = if decide (queue = []) then order else order ++ [o];
  sv_other : ∀ c', c' ≠ c → fs_order c' s' = fs_order c' s;
  sv_queue' : ∀ c' o', queue_at c' o' s' = if decide (c' = c ∧ o' = o) then queue else queue_at c' o' s;
  sv_inv : sched_inv s';
}.

Lemma served_counts c s s' o order item queue :
  sched_inv s → fs_order c s = o :: order → queue_at c o s = item :: queue →
  fs_order c s' = (if decide (queue = []) then order else order ++ [o]) →
  (∀ c' o', queue_at c' o' s' = if decide (c' = c ∧ o' = o) then queue else queue_at c' o' s) →
  queued c s' + len (queue_at c o s) = queued c s + len queue.
Proof.
  intros Hinv Ho Hq Ho' Hq'. pose proof (si_nodup s Hinv c) as Hnd. rewrite Ho in Hnd.
  apply NoDup_cons in Hnd as [Hin Hnd]. unfold queued. rewrite Ho, Ho'.
  assert (sum_of (λ o, len (queue_at c o s')) order = sum_of (λ o, len (queue_at c o s)) order) as Hrest.
  { apply sum_of_ext. intros o' Hin'. rewrite Hq', decide_False; [done|]. by intros [_ ->]. }
  change (sum_of (λ o, len (queue_at c o s)) (o :: order))
    with (len (queue_at c o s) + sum_of (λ o, len (queue_at c o s)) order).
  case_decide as E.
  - rewrite Hrest, E. change (len (@nil (Scheduled T))) with 0. lia.
  - rewrite sum_of_app, Hrest. cbn [sum_of foldr]. rewrite Hq', decide_True by done. lia.
Qed.

Lemma pop_class_queue_at c o s order item queue qs n :
  fs_order c s = o :: order → fs_owners s !! o = Some qs → oq_queue c qs = item :: queue →
  let qs' := oq_set c queue qs in
  let s' := fs_set c (if negb (bool_decide (length queue = 0%nat)) then order ++ [o] else order)
              (if bool_decide (length (oq_control qs') = 0%nat) && bool_decide (length (oq_bulk qs') = 0%nat)
               then delete o (fs_owners s) else <[o := qs']> (fs_owners s)) n s in
  (∀ c' o', queue_at c' o' s' = if decide (c' = c ∧ o' = o) then queue else queue_at c' o' s) ∧
  (is_Some (fs_owners s' !! o) → ∃ c', queue_at c' o s' ≠ []).
Proof.
  intros Ho Hs Hq qs' s'.
  assert (∀ c', queue_at c' o s' = oq_queue c' qs') as Hat.
  { intros c'. unfold queue_at, s'. cbn [fs_owners fs_set].
    destruct (_ && _) eqn:E; [|by rewrite lookup_insert_eq].
    rewrite lookup_delete_eq. apply andb_true_iff in E as [E1%bool_decide_eq_true E2%bool_decide_eq_true].
    apply nil_length_inv in E1. apply nil_length_inv in E2. by destruct c'. }
  split.
  - intros c' o'. destruct (decide (o' = o)) as [->|Hne].
    + rewrite Hat. unfold qs'. rewrite oq_queue_set.
      destruct (decide (c' = c)) as [->|Hc]; [by rewrite decide_True|].
      rewrite decide_False by (by intros [? ?]). unfold queue_at. by rewrite Hs.
    + rewrite decide_False by (by intros [? ?]). unfold queue_at, s'. cbn [fs_owners fs_set].
      destruct (_ && _); [by rewrite lookup_delete_ne|by rewrite lookup_insert_ne].
  - unfold s' at 1. cbn [fs_owners fs_set]. destruct (_ && _) eqn:E.
    + rewrite lookup_delete_eq. by intros [? ?].
    + intros _. apply andb_false_iff in E as [E|E]; apply bool_decide_eq_false in E;
        [exists Control|exists Bulk]; rewrite Hat; intros E'; cbn in E'; by rewrite E' in E.
Qed.

Lemma pop_class_spec c s :
  sched_inv s →
  (fs_order c s = [] ∧ pop_class c s = Some (None, s)) ∨
  (∃ v s' o order queue, pop_class c s = Some (Some v, s') ∧ served c s v s' o order queue ∧
     fs_control_burst s' = fs_control_burst s).
Proof.
  intros Hinv. unfold pop_class. destruct (fs_order c s) as [|o order] eqn:Ho; [by left|right].
  assert (queue_at c o s ≠ []) as Hne. { apply (si_order s Hinv). rewrite Ho. apply list_elem_of_here. }
  unfold queue_at in Hne. destruct (fs_owners s !! o) as [qs|] eqn:Hs; [|done]. cbn [mbind option_bind].
  destruct (oq_queue c qs) as [|item queue] eqn:Hq; [done|]. clear Hne.
  assert (queue_at c o s = item :: queue) as Hat by (unfold queue_at; by rewrite Hs).
  assert (queued c s + 1 ≤ fs_len s + 1 ∧ 1 ≤ queued c s) as [Hle Hpos].
  { rewrite (si_len s Hinv). unfold queued at 4. rewrite Ho. cbn [sum_of foldr]. rewrite Hat. unfold len at 1.
    cbn [length]. destruct c; lia. }
  rewrite checked_sub64_ok by lia. cbn [mbind option_bind].
  destruct (pop_class_queue_at c o s order item queue qs (fs_len s - 1) Ho Hs Hq) as [Hq' Hown].
  match goal with |- context [Some (Some _, ?x)] => set (s' := x) in * end.
  exists (sc_value item), s', o, order, queue. split; [done|]. split; [|by destruct c].
  assert (fs_order c s' = if decide (queue = []) then order else order ++ [o]) as Hord'.
  { unfold s'. rewrite fs_order_set, decide_True by done. by destruct queue. }
  pose proof (si_nodup s Hinv c) as Hnd. rewrite Ho in Hnd. apply NoDup_cons in Hnd as [Hnin Hnd].
  split; [done|by eauto|done| |done|].
  - intros c' Hc. unfold s'. by rewrite fs_order_set, decide_False.
  - apply (sched_inv_update c o queue s); try done.
    + intros o' Hs'. destruct (decide (o' = o)) as [->|Hne]; [by apply Hown|].
      destruct (si_owner s Hinv o') as [c' Hc'].
      * unfold s' in Hs'. cbn [fs_owners fs_set] in Hs'.
        destruct (_ && _); [by rewrite lookup_delete_ne in Hs'|by rewrite lookup_insert_ne in Hs'].
      * exists c'. by rewrite Hq', decide_False by (by intros [? ?]).
    + intros c' Hc. unfold s'. by rewrite fs_order_set, decide_False.
    + rewrite Hord'. case_decide; [done|]. apply NoDup_app. split_and!; [done| |apply NoDup_singleton].
      intros o' Ho'. rewrite list_elem_of_singleton. by intros ->.
    + intros o'. rewrite Hord', Ho.
      case_decide; destruct (decide (o' = o)) as [->|]; rewrite ?elem_of_app, ?list_elem_of_singleton, ?elem_of_cons;
        naive_solver.
    + by apply (served_counts c s s' o order item queue).
    + rewrite Hat. unfold s', len. cbn [fs_len fs_set length]. lia.
Qed.

Lemma served_set_burst c s v s' o order queue n :
  served c s v s' o order queue → served c s v (set_burst n s') o order queue.
Proof. intros [H1 H2 H3 H4 H5 []]. by split; [..|split]. Qed.

(** A pop of either kind serves the first owner of a class; it serves control
    before waiting bulk messages only during a burst of fewer than eight. *)
Definition pops (s : FairScheduler T) (v : T) s' : Prop :=
  ∃ c o order queue, served c s v s' o order queue ∧
    fs_control_burst s' = match c with Control => saturating_add64 (fs_control_burst s) 1 | Bulk => 0 end ∧
    (c = Control → fs_bulk_order s ≠ [] → fs_control_burst s < MAX_CONTROL_BURST).

Lemma pop_selected_spec c s :
  sched_inv s → fs_order c s ≠ [] →
  (c = Control → fs_bulk_order s ≠ [] → fs_control_burst s < MAX_CONTROL_BURST) →
  ∃ v s', pop_selected c s = Some (Some v, s') ∧ pops s v s'.
Proof.
  intros Hinv Hne Hb. unfold pop_selected.
  destruct (pop_class_spec c s Hinv) as [[? _]|(v & s' & o & order & queue & -> & Hs & Hburst)]; [done|].
  cbn [mbind option_bind]. eexists v, _. split; [done|].
  exists c, o, order, queue. split_and!; [by destruct c; apply served_set_burst| |done].
  destruct c; cbn; by rewrite ?Hburst.
Qed.

Lemma bulk_should_run_false now s :
  bulk_should_run now s = false → fs_bulk_order s ≠ [] → fs_control_burst s < MAX_CONTROL_BURST.
Proof.
  unfold bulk_should_run. intros H Hne.
  rewrite bool_decide_eq_false_2 in H by (by destruct (fs_bulk_order s)). cbn [negb andb] in H.
  apply orb_false_elim in H as [H%N.leb_gt _]. done.
Qed.

Lemma pop_spec now s :
  sched_inv s →
  (fs_control_order s = [] ∧ fs_bulk_order s = [] ∧ pop now s = Some (None, s)) ∨
  ∃ v s', pop now s = Some (Some v, s') ∧ pops s v s'.
Proof.
  intros Hinv. unfold pop. destruct (fs_control_order s) as [|o1 l1] eqn:E1, (fs_bulk_order s) as [|o2 l2] eqn:E2.
  - by left.
  - right. apply pop_selected_spec; cbn; [done|by rewrite E2|done].
  - right. apply pop_selected_spec; cbn; [done|by rewrite E1|by rewrite E2].
  - right. destruct (bulk_should_run now s) eqn:E; apply pop_selected_spec; cbn; rewrite ?E1, ?E2; try done.
    intros _ _. apply (bulk_should_run_false now s E). by rewrite E2.
Qed.

Lemma pop_control_for_group_spec now s :
  sched_inv s →
  pop_control_for_group now s = Some (None, s) ∨
  ∃ v s', pop_control_for_group now s = Some (Some v, s') ∧ pops s v s'.
Proof.
  intros Hinv. unfold pop_control_for_group. destruct (_ || _) eqn:E; [by left|right].
  apply orb_false_elim in E as [E1%bool_decide_eq_false E2].
  apply pop_selected_spec; [done| |].
  - cbn. intros E. by rewrite E in E1.
  - intros _. by apply (bulk_should_run_false now).
Qed.

Lemma pops_inv s v s' : pops s v s' → sched_inv s'.
Proof. intros (? & ? & ? & ? & Hs & _). apply Hs. Qed.

Lemma fs_default_inv : sched_inv fs_default.
Proof.
  split; [by intros []; apply NoDup_nil| | |done].
  - intros c o. unfold queue_at. cbn. rewrite lookup_empty. destruct c; cbn; by rewrite elem_of_nil.
  - intros o [x Hx]. cbn in Hx. by rewrite lookup_empty in Hx.
Qed.

Lemma queued_0 c s : queued c s = 0 → sched_inv s → fs_order c s = [].
Proof.
  intros H Hinv. destruct (fs_order c s) as [|o order] eqn:E; [done|].
  assert (queue_at c o s ≠ []) as Hne. { apply Hinv. rewrite E. apply list_elem_of_here. }
  unfold queued in H. rewrite E in H. cbn [sum_of foldr] in H.
  destruct (queue_at c o s); [done|]. unfold len in H. cbn [length] in H. lia.
Qed.
End scheduler.

(** * Runs *)

(** What the writer thread does with its scheduler. A message carries its
    owner, its class and the time it was sent, as [WriterMessage] does. *)
Inductive SchedEvent (T : Type) :=
  | EvPush (m : T)
  | EvPop (now : N)
  | EvPopGroup (now : N).
Arguments EvPush {T}.
Arguments EvPop {T}.
Arguments EvPopGroup {T}.

Section runs.
Context {T : Type} (owner_of : T → WriterOwner) (class_of : T → WriterClass) (at_of : T → N).
Implicit Types (s : FairScheduler T) (ev : SchedEvent T).

Definition sched_event ev s : option (option T * FairScheduler T) :=
  match ev with
  | EvPush m => s ← push (owner_of m) (class_of m) (at_of m) m s; Some (None, s)
  | EvPop now => pop now s
  | EvPopGroup now => pop_control_for_group now s
  end.

(** The messages served, in order; [None] is a panic. *)
Fixpoint sched_run (evs : list (SchedEvent T)) s : option (list T * FairScheduler T) :=
  match evs with
  | [] => Some ([], s)
  | ev :: evs =>
      '(v, s) ← sched_event ev s;
      '(popped, s) ← sched_run evs s;
      Some (option_list v ++ popped, s)
  end.

Definition pushed (evs : list (SchedEvent T)) : list T :=
  omap (λ ev, match ev with EvPush m => Some m | _ => None end) evs.

(** The messages of one owner and class. *)
Definition lane (o : WriterOwner) (c : WriterClass) (l : list T) : list T :=
  filter (λ m, owner_of m = o ∧ class_of m = c) l.

Definition lane_queue (o : WriterOwner) (c : WriterClass) s : list T := sc_value <$> queue_at c o s.

(** Every message waits in the queue of its owner and class. *)
Definition sched_labelled s : Prop :=
  ∀ c o, Forall (λ m, owner_of m = o ∧ class_of m = c) (lane_queue o c s).

Definition sched_ok s : Prop := sched_inv s ∧ sched_labelled s.

(** What went into a lane and what came out of it. *)
Definition flows s (ins outs : list T) s' : Prop :=
  ∀ o c, lane_queue o c s ++ lane o c ins = lane o c outs ++ lane_queue o c s'.

Lemma lane_app o c l1 l2 : lane o c (l1 ++ l2) = lane o c l1 ++ lane o c l2.
Proof. apply filter_app. Qed.

Lemma flows_trans s1 i1 o1 s2 i2 o2 s3 :
  flows s1 i1 o1 s2 → flows s2 i2 o2 s3 → flows s1 (i1 ++ i2) (o1 ++ o2) s3.
Proof. intros H1 H2 o c. by rewrite !lane_app, app_assoc, H1, <-app_assoc, H2, app_assoc. Qed.

Lemma flows_refl s : flows s [] [] s.
Proof. intros o c. by rewrite app_nil_r. Qed.

Lemma lane_one o c m : lane o c [m] = if decide (c = class_of m ∧ o = owner_of m) then [m] else [].
Proof.
  unfold lane. rewrite filter_cons, filter_nil.
  destruct (decide (owner_of m = o ∧ class_of m = c)) as [[<- <-]|H]; [by rewrite decide_True|].
  rewrite decide_False; [done|]. naive_solver.
Qed.

Lemma enqueue_flows m s :
  sched_ok s →
  let s' := enqueue (owner_of m) (class_of m) (at_of m) m s in sched_ok s' ∧ flows s [m] [] s'.
Proof.
  intros [Hinv Hlab] s'.
  assert (∀ o c, lane_queue o c s' = lane_queue o c s ++ lane o c [m]) as Hq.
  { intros o c. unfold lane_queue, s'. rewrite enqueue_queue_at, lane_one.
    case_decide as E; [|by rewrite app_nil_r]. destruct E as [-> ->]. by rewrite fmap_app. }
  split; [split|].
  - by apply enqueue_inv.
  - intros c o. rewrite Hq. apply Forall_app. split; [apply Hlab|]. rewrite lane_one.
    case_decide; [|done]. destruct_and?. subst. by constructor.
  - intros o c. by rewrite Hq.
Qed.

(** ** The messages in the scheduler *)

Lemma elem_of_lane o c m l : m ∈ lane o c l ↔ (owner_of m = o ∧ class_of m = c) ∧ m ∈ l.
Proof. unfold lane. by rewrite list_elem_of_filter. Qed.

(** A bucket of messages of one owner. *)
Lemma lane_bucket o c o' (qs : OwnerQueues T) :
  (∀ c, Forall (λ m, owner_of m = o' ∧ class_of m = c) (sc_value <$> oq_queue c qs)) →
  lane o c (sc_value <$> (oq_control qs ++ oq_bulk qs)) =
  if decide (o = o') then sc_value <$> oq_queue c qs else [].
Proof.
  clear at_of. intros Hq. pose proof (Hq Control) as H1. pose proof (Hq Bulk) as H2. cbn [oq_queue] in H1, H2.
  assert (∀ c' l, Forall (λ m, owner_of m = o' ∧ class_of m = c') l →
    lane o c l = if decide (o = o') then if decide (c = c') then l else [] else []) as Hl.
  { intros c' l Hf. unfold lane. induction Hf as [|m l [Ho Hc] _ IH]; [by repeat case_decide|].
    rewrite filter_cons, IH. destruct (decide (o = o')), (decide (c = c')); subst; case_decide; naive_solver. }
  rewrite fmap_app, lane_app, (Hl Control), (Hl Bulk) by done.
  destruct (decide (o = o')); [|done]. destruct c; cbn; by rewrite ?app_nil_r.
Qed.

Lemma lane_scheduled s : sched_ok s → ∀ o c, lane o c (scheduled_messages s) = lane_queue o c s.
Proof.
  clear at_of. intros [_ Hlab] o c. unfold scheduled_messages, lane_queue, queue_at.
  pose proof (λ x, proj1 (elem_of_map_to_list' (fs_owners s) x)) as Hin.
  assert (∀ x : WriterOwner * OwnerQueues T, x ∈ map_to_list (fs_owners s) →
    ∀ c, Forall (λ m, owner_of m = fst x ∧ class_of m = c) (sc_value <$> oq_queue c (snd x))) as Hq.
  { intros [o' qs] Hx c'. apply elem_of_map_to_list in Hx. specialize (Hlab c' o').
    unfold lane_queue, queue_at in Hlab. by rewrite Hx in Hlab. }
  assert (∀ qs, (o, qs) ∈ map_to_list (fs_owners s) ↔ fs_owners s !! o = Some qs) as Hmap
    by (intros qs; apply elem_of_map_to_list).
  pose proof (NoDup_fst_map_to_list (fs_owners s)) as Hnd. clear Hlab Hin.
  destruct (fs_owners s !! o) as [qs|].
  - assert ((o, qs) ∈ map_to_list (fs_owners s)) as Hx by (by apply Hmap).
    apply list_elem_of_split in Hx as (l1 & l2 & E). rewrite E in *.
    assert (∀ l, (∀ x, x ∈ l → x ∈ l1 ++ (o, qs) :: l2) → o ∉ l.*1 →
      lane o c (l ≫= λ x, sc_value <$> (oq_control (snd x) ++ oq_bulk (snd x))) = []) as Hrest.
    { induction l as [|x l IH]; intros Hsub Hni; [done|]. cbn [mbind list_bind].
      rewrite lane_app, (lane_bucket o c (fst x)) by (apply Hq, Hsub; left).
      csimpl in Hni. apply not_elem_of_cons in Hni as [Hne Hni].
      rewrite decide_False by done. apply IH; [|done]. intros y Hy. apply Hsub. by right. }
    rewrite fmap_app, fmap_cons in Hnd. cbn [fst] in Hnd. apply NoDup_app in Hnd as (_ & Hd & Hnd).
    apply NoDup_cons in Hnd as [Hn2 _].
    rewrite bind_app. cbn [mbind list_bind]. rewrite !lane_app, (lane_bucket o c o).
    2:{ apply (Hq (o, qs)). set_solver. }
    rewrite decide_True, !Hrest by (done || set_solver). by rewrite app_nil_r.
  - assert (o ∉ (map_to_list (fs_owners s)).*1) as Hn.
    { intros ([o' qs] & -> & Hx)%list_elem_of_fmap. by apply Hmap in Hx. }
    clear Hnd Hmap. revert Hq Hn. generalize (map_to_list (fs_owners s)).
    induction l as [|x l IH]; intros Hq Hn; [done|]. cbn [mbind list_bind].
    rewrite lane_app, (lane_bucket o c (fst x)) by (apply Hq; left).
    csimpl in Hn. apply not_elem_of_cons in Hn as [Hne Hn].
    rewrite decide_False by done. apply IH; [|done]. intros y Hy. apply Hq. by right.
Qed.

Lemma pops_flows s v s' : sched_ok s → pops s v s' → sched_ok s' ∧ flows s [] [v] s'.
Proof.
  intros [Hinv Hlab] (c & o & order & queue & Hs & _).
  destruct (sv_queue _ _ _ _ _ _ _ Hs) as (item & Hq & Hv). pose proof (sv_queue' _ _ _ _ _ _ _ Hs) as Hq'.
  assert (owner_of v = o ∧ class_of v = c) as [Ho Hc].
  { pose proof (Hlab c o) as Hl. unfold lane_queue in Hl. rewrite Hq in Hl. cbn in Hl. rewrite Hv in Hl.
    by apply Forall_cons in Hl as [? _]. }
  assert (∀ o' c', lane_queue o' c' s = lane o' c' [v] ++ lane_queue o' c' s') as Hl.
  { intros o' c'. unfold lane_queue. rewrite lane_one, Ho, Hc, Hq'.
    case_decide as E; [|done]. destruct E as [-> ->]. rewrite Hq. cbn. by rewrite Hv. }
  split; [split|].
  - apply Hs.
  - intros c' o'. pose proof (Hlab c' o') as H. rewrite Hl in H. by apply Forall_app in H as [_ ?].
  - intros o' c'. cbn. by rewrite app_nil_r, Hl.
Qed.

(** Lists with the same lanes hold the same messages. *)
Lemma lanes_perm l1 l2 : (∀ o c, lane o c l1 ≡ₚ lane o c l2) → l1 ≡ₚ l2.
Proof.
  revert l2. induction l1 as [|m l1 IH]; intros l2 H.
  - destruct l2 as [|m l2]; [done|]. specialize (H (owner_of m) (class_of m)).
    unfold lane in H at 2. rewrite filter_cons, decide_True in H by done. by apply Permutation_nil_cons in H.
  - assert (m ∈ l2) as (l3 & l4 & ->)%list_elem_of_split.
    { apply (elem_of_lane (owner_of m) (class_of m)). rewrite <-H. apply elem_of_lane.
      split; [done|left]. }
    rewrite <-Permutation_middle. apply perm_skip, IH. intros o c. specialize (H o c).
    change (m :: l1) with ([m] ++ l1) in H. change (m :: l4) with ([m] ++ l4) in H.
    rewrite !lane_app in H. rewrite lane_app.
    apply (Permutation_app_inv_l (lane o c [m])). rewrite H. solve_Permutation.
Qed.

Lemma sum_lanes c order l :
  NoDup order → (∀ m, m ∈ l → class_of m = c → owner_of m ∈ order) →
  sum_of (λ o, len (lane o c l)) order = len (filter (λ m, class_of m = c) l).
Proof.
  intros Hnd. induction l as [|m l IH]; intros Hin.
  - cbn. clear Hin Hnd. induction order as [|o order IH]; [done|]. unfold sum_of in *. cbn. by rewrite IH.
  - assert (∀ m', m' ∈ l → class_of m' = c → owner_of m' ∈ order) as Hin'.
    { intros m' Hm. apply Hin. by right. }
    specialize (IH Hin'). rewrite filter_cons. case_decide as Ec.
    + pose proof (sum_of_update (λ o, len (lane o c (m :: l))) (λ o, len (lane o c l)) order (owner_of m) Hnd) as Hu.
      cbn beta in Hu. rewrite IH in Hu. rewrite len_cons.
      assert (len (lane (owner_of m) c (m :: l)) = 1 + len (lane (owner_of m) c l)) as E1.
      { unfold lane. rewrite filter_cons, decide_True by done. by rewrite len_cons. }
      rewrite E1 in Hu. lapply (Hu (Hin m (list_elem_of_here _ _) Ec)); [lia|].
      intros o Ho. unfold lane. rewrite filter_cons, decide_False; [done|]. by intros [<- _].
    + rewrite <-IH. apply sum_of_ext. intros o _. unfold lane. rewrite filter_cons, decide_False; [done|].
      by intros [_ ?].
Qed.

Lemma len_scheduled s : sched_ok s → len (scheduled_messages s) = fs_len s.
Proof.
  intros Hok. pose proof Hok as [Hinv _]. rewrite (si_len s Hinv). set (l := scheduled_messages s).
  assert (∀ c, queued c s = len (filter (λ m, class_of m = c) l)) as Hc.
  { intros c. rewrite <-(sum_lanes c (fs_order c s)); [|apply Hinv|].
    - unfold queued. apply sum_of_ext. intros o _. unfold l. rewrite (lane_scheduled s Hok).
      unfold lane_queue, len. by rewrite length_fmap.
    - intros m Hm Ec. apply (si_order s Hinv). intros E.
      assert (m ∈ lane (owner_of m) c l) as Hl by (by apply elem_of_lane).
      unfold l in Hl. rewrite (lane_scheduled s Hok) in Hl. unfold lane_queue in Hl. rewrite E in Hl.
      by apply elem_of_nil in Hl. }
  rewrite !Hc. clear Hc. induction l as [|m l IH]; [done|].
  rewrite !filter_cons, len_cons, IH. destruct (class_of m); repeat case_decide; try done; rewrite ?len_cons; lia.
Qed.

Definition owners_of (l : list T) : gset WriterOwner := list_to_set (owner_of <$> l).

Lemma dom_scheduled s : sched_ok s → dom (fs_owners s) = owners_of (scheduled_messages s).
Proof.
  intros Hok. pose proof Hok as [Hinv _]. apply set_eq. intros o. rewrite elem_of_dom.
  unfold owners_of. rewrite elem_of_list_to_set, list_elem_of_fmap. split.
  - intros Hs. destruct (si_owner s Hinv o Hs) as [c Hc].
    assert (lane o c (scheduled_messages s) ≠ []) as Hl.
    { rewrite (lane_scheduled s Hok). unfold lane_queue. by destruct (queue_at c o s). }
    destruct (lane o c (scheduled_messages s)) as [|m l] eqn:E; [done|].
    assert (m ∈ lane o c (scheduled_messages s)) as [[<- _] Hm]%elem_of_lane by (rewrite E; left).
    by exists m.
  - intros (m & -> & Hm).
    assert (m ∈ lane (owner_of m) (class_of m) (scheduled_messages s)) as Hl by (by apply elem_of_lane).
    rewrite (lane_scheduled s Hok) in Hl. unfold lane_queue, queue_at in Hl.
    destruct (fs_owners s !! owner_of m); [done|]. by apply elem_of_nil in Hl.
Qed.

(** Another message fits: at most [CHANNEL_MESSAGES] messages of at most
    [MAX_ACTIVE_OWNERS] owners are then in the scheduler. *)
Definition room_for (m : T) s : Prop :=
  len (m :: scheduled_messages s) ≤ CHANNEL_MESSAGES ∧
  N.of_nat (size (owners_of (m :: scheduled_messages s))) ≤ MAX_ACTIVE_OWNERS.

#[global] Instance room_for_dec m s : Decision (room_for m s).
Proof. apply _. Defined.

Lemma push_room m s :
  sched_ok s →
  push (owner_of m) (class_of m) (at_of m) m s =
  if decide (room_for m s) then Some (enqueue (owner_of m) (class_of m) (at_of m) m s) else None.
Proof.
  intros Hok. unfold push. set (s' := enqueue _ _ _ _ _).
  assert (fs_len s' = len (m :: scheduled_messages s)) as ->.
  { rewrite len_cons, (len_scheduled s Hok). cbn. lia. }
  assert (size (fs_owners s') = size (owners_of (m :: scheduled_messages s))) as ->.
  { rewrite <-size_dom. f_equal. unfold s', enqueue. cbn [fs_set fs_owners].
    rewrite dom_insert_L, (dom_scheduled s Hok). done. }
  unfold room_for. case_decide as E.
  - rewrite (proj2 (N.leb_le _ _)), (proj2 (N.leb_le _ _)) by apply E. done.
  - destruct (_ && _) eqn:E'; [|done]. bool_to_prop. by destruct E.
Qed.

(** ** Runs *)

Lemma event_flows ev s v s' :
  sched_ok s → sched_event ev s = Some (v, s') →
  sched_ok s' ∧ flows s (pushed [ev]) (option_list v) s' ∧ match v with Some m => pops s m s' | None => True end.
Proof.
  intros Hok. destruct ev as [m|now|now]; cbn [sched_event pushed].
  - rewrite push_room by done. case_decide; [|done]. intros [= <- <-]. destruct (enqueue_flows m s Hok). by split_and!.
  - destruct (pop_spec now s (proj1 Hok)) as [(_ & _ & ->)|(x & s1 & -> & Hp)]; intros [= <- <-].
    + split_and!; try done; [by apply Hok..|apply flows_refl].
    + destruct (pops_flows s x s1 Hok Hp). by split_and!.
  - destruct (pop_control_for_group_spec now s (proj1 Hok)) as [->|(x & s1 & -> & Hp)]; intros [= <- <-].
    + split_and!; try done; [by apply Hok..|apply flows_refl].
    + destruct (pops_flows s x s1 Hok Hp). by split_and!.
Qed.

(** Only a push that does not fit panics. *)
Lemma event_panics ev s :
  sched_ok s → sched_event ev s = None ↔ ∃ m, ev = EvPush m ∧ ¬ room_for m s.
Proof.
  intros Hok. destruct ev as [m|now|now]; cbn [sched_event].
  - rewrite push_room by done. case_decide; cbn; naive_solver.
  - destruct (pop_spec now s (proj1 Hok)) as [(_ & _ & ->)|(x & s1 & -> & Hp)]; naive_solver.
  - destruct (pop_control_for_group_spec now s (proj1 Hok)) as [->|(x & s1 & -> & Hp)]; naive_solver.
Qed.

Lemma pushed_cons ev evs : pushed (ev :: evs) = pushed [ev] ++ pushed evs.
Proof. by destruct ev. Qed.

Lemma run_flows evs s popped s' :
  sched_ok s → sched_run evs s = Some (popped, s') → sched_ok s' ∧ flows s (pushed evs) popped s'.
Proof.
  revert s popped. induction evs as [|ev evs IH]; intros s popped Hok; cbn [sched_run].
  - intros [= <- <-]. split; [done|apply flows_refl].
  - destruct (sched_event ev s) as [[v s1]|] eqn:E; [|done]. cbn [mbind option_bind].
    destruct (event_flows ev s v s1 Hok E) as (Hok1 & Hf1 & _).
    destruct (sched_run evs s1) as [[popped1 s2]|] eqn:E1; [|done]. cbn [mbind option_bind]. intros [= <- <-].
    destruct (IH s1 popped1 Hok1 E1) as [Hok2 Hf2]. split; [done|]. rewrite pushed_cons. by eapply flows_trans.
Qed.

Lemma run_panics evs s :
  sched_ok s →
  sched_run evs s = None ↔ ∃ before m after popped s', evs = before ++ EvPush m :: after ∧
    sched_run before s = Some (popped, s') ∧ ¬ room_for m s'.
Proof.
  revert s. induction evs as [|ev evs IH]; intros s Hok; cbn [sched_run].
  { split; [done|]. by intros ([|??] & ? & ? & ? & ? & ? & _). }
  destruct (sched_event ev s) as [[v s1]|] eqn:E; cbn [mbind option_bind].
  - destruct (event_flows ev s v s1 Hok E) as (Hok1 & _). specialize (IH s1 Hok1).
    transitivity (sched_run evs s1 = None).
    { destruct (sched_run evs s1) as [[? ?]|]; [by split|done]. }
    rewrite IH. split.
    + intros (before & m & after & popped & s' & -> & Hr & Hn). exists (ev :: before), m, after.
      cbn [sched_run]. rewrite E. cbn [mbind option_bind]. rewrite Hr. cbn. by eexists _, _.
    + intros ([|ev' before] & m & after & popped & s' & Hev & Hr & Hn); injection Hev as -> ->.
      * cbn in Hr. injection Hr as <- <-. exfalso. assert (sched_event (EvPush m) s = None) as E'; [|by rewrite E in E'].
        apply event_panics; [done|by exists m].
      * cbn [sched_run] in Hr. rewrite E in Hr. cbn [mbind option_bind] in Hr.
        destruct (sched_run before s1) as [[popped1 s2]|] eqn:E1; [|done]. injection Hr as <- <-.
        by exists before, m, after, popped1, s2.
  - split; [|done]. intros _. apply event_panics in E as (m & -> & Hn); [|done].
    by exists [], m, evs, [], s.
Qed.

Lemma fs_default_ok : sched_ok fs_default.
Proof. split; [apply fs_default_inv|]. intros c o. unfold lane_queue, queue_at. cbn. by rewrite lookup_empty. Qed.

(** No owner in turn: nothing waits. *)
Lemma idle_empty s :
  sched_inv s → fs_control_order s = [] → fs_bulk_order s = [] →
  fs_is_empty s = true ∧ ∀ o c, lane_queue o c s = [].
Proof.
  intros Hinv E1 E2. split.
  - unfold fs_is_empty. rewrite (si_len s Hinv). unfold queued. cbn [fs_order]. by rewrite E1, E2.
  - intros o c. unfold lane_queue. destruct (queue_at c o s) eqn:E; [done|].
    assert (o ∈ fs_order c s) as Ho by (apply Hinv; by rewrite E).
    destruct c; cbn in Ho; [rewrite E1 in Ho|rewrite E2 in Ho]; by apply elem_of_nil in Ho.
Qed.

(** C19: the scheduler under any pushes and pops in any order. It panics
    exactly when a message is pushed that makes more than [CHANNEL_MESSAGES]
    messages or [MAX_ACTIVE_OWNERS] owners wait, which the [debug_assert!]s of
    [push] refuse. Otherwise, for every owner and class, the messages served
    followed by the messages still waiting are exactly the messages pushed, in
    their order; the next pop serves a message unless every queue is empty, and
    then the scheduler is empty by its own count. *)
Theorem scheduler_fifo_lossless (evs : list (SchedEvent T)) :
  (sched_run evs fs_default = None ↔
     ∃ before m after popped s, evs = before ++ EvPush m :: after ∧
       sched_run before fs_default = Some (popped, s) ∧ ¬ room_for m s) ∧
  match sched_run evs fs_default with
  | None => True
  | Some (popped, s) =>
      (∀ o c, lane o c (pushed evs) = lane o c popped ++ lane_queue o c s) ∧
      ∀ now, match pop now s with
             | Some (Some _, _) => fs_is_empty s = false
             | Some (None, s') => s' = s ∧ fs_is_empty s = true ∧ ∀ o c, lane_queue o c s = []
             | None => False
             end
  end.
Proof.
  split; [apply run_panics, fs_default_ok|].
  destruct (sched_run evs fs_default) as [[popped s]|] eqn:Hr; [|done].
  destruct (run_flows evs fs_default popped s fs_default_ok Hr) as [[Hinv _] Hf]. split.
  - intros o c. rewrite <-(Hf o c). unfold lane_queue, queue_at. cbn. by rewrite lookup_empty.
  - intros now. destruct (pop_spec now s Hinv) as [(E1 & E2 & ->)|(v & s' & -> & Hp)].
    + split; [done|]. by apply idle_empty.
    + destruct (fs_is_empty s) eqn:E; [|done]. exfalso. apply N.eqb_eq in E. rewrite (si_len s Hinv) in E.
      destruct Hp as (c & o & order & queue & Hs & _). pose proof (sv_order _ _ _ _ _ _ _ Hs) as Ho.
      rewrite (queued_0 c s) in Ho; [done| |done]. destruct c; lia.
Qed.

(** ** The wait of a bulk message *)

(** [m] is the [k]-th bulk message of the owner at position [p] of the order. *)
Definition bulk_waits s (o : WriterOwner) (p k : nat) (m : T) : Prop :=
  fs_bulk_order s !! p = Some o ∧ lane_queue o Bulk s !! k = Some m.

Definition burst_left s : N := MAX_CONTROL_BURST - N.min (fs_control_burst s) MAX_CONTROL_BURST.

(** The messages that may still be served before it: at most eight control
    messages before each bulk message, and one bulk message of every owner
    ahead of it in every round. *)
Definition wait_bound (owners p k : nat) s : N :=
  (MAX_CONTROL_BURST + 1) * N.of_nat (p + owners * k) + burst_left s.

Lemma push_waits ev m o p k s s' v :
  bulk_waits s o p k m → sched_ok s →
  match ev with EvPush _ => True | _ => False end → sched_event ev s = Some (v, s') →
  v = None ∧ bulk_waits s' o p k m ∧ fs_control_burst s' = fs_control_burst s.
Proof.
  intros [Hp Hk] Hok Hev. destruct ev as [m'|?|?]; [|done..]. cbn [sched_event].
  rewrite push_room by done. case_decide; [|done]. intros [= <- <-]. split; [done|]. split; [split|].
  - change (fs_order Bulk (enqueue (owner_of m') (class_of m') (at_of m') m' s) !! p = Some o).
    change (fs_order Bulk s !! p = Some o) in Hp. rewrite enqueue_order. case_decide as E; [|done].
    rewrite <-E. case_decide; [|done]. rewrite lookup_app_l; [done|]. by apply lookup_lt_Some in Hp.
  - unfold lane_queue in *. rewrite enqueue_queue_at. case_decide as E; [|done]. destruct E as [<- ->].
    rewrite fmap_app, lookup_app_l; [done|]. by apply lookup_lt_Some in Hk.
  - unfold enqueue. by destruct (class_of m').
Qed.

Lemma pops_waits owners v m o p k s s' :
  sched_inv s → bulk_waits s o p k m → pops s v s' → (length (fs_bulk_order s') ≤ owners)%nat →
  v = m ∨ ∃ p' k', bulk_waits s' o p' k' m ∧ wait_bound owners p' k' s' + 1 ≤ wait_bound owners p k s.
Proof.
  intros Hinv [Hp Hk] (c & o1 & order & queue & Hs & Hburst & Hctl) Hlen.
  unfold wait_bound, burst_left. rewrite Hburst.
  pose proof (sv_queue' _ _ _ _ _ _ _ Hs) as Hq'. destruct (sv_queue _ _ _ _ _ _ _ Hs) as (item & Hq & Hv).
  pose proof (sv_order _ _ _ _ _ _ _ Hs) as Ho. destruct c.
  - right. exists p, k. split; [split|].
    + change (fs_order Bulk s' !! p = Some o). by rewrite (sv_other _ _ _ _ _ _ _ Hs).
    + unfold lane_queue. by rewrite Hq', decide_False by (by intros [? ?]).
    + assert (fs_control_burst s < MAX_CONTROL_BURST) as Hlt.
      { apply Hctl; [done|]. intros E. by rewrite E in Hp. }
      assert (8 < U64_MAX) as Hmax by done. unfold MAX_CONTROL_BURST in *. unfold saturating_add64. lia.
  - cbn [fs_order] in Ho. pose proof (sv_order' _ _ _ _ _ _ _ Hs) as Ho'. cbn [fs_order] in Ho'.
    rewrite Ho in Hp. destruct p as [|p]; cbn in Hp.
    + simplify_eq. destruct k as [|k].
      { left. unfold lane_queue in Hk. rewrite Hq in Hk. cbn in Hk. congruence. }
      right. exists (length order), k. unfold lane_queue in Hk. rewrite Hq in Hk. cbn in Hk.
      assert (fs_bulk_order s' = order ++ [o]) as E by (rewrite Ho'; case_decide; [by subst|done]).
      split; [split|].
      * rewrite E. by apply list_lookup_middle.
      * unfold lane_queue. by rewrite Hq', decide_True.
      * rewrite E, length_app in Hlen. cbn [length] in Hlen. unfold MAX_CONTROL_BURST. lia.
    + right. exists p, k. split; [split|].
      * rewrite Ho'. case_decide; [done|]. rewrite lookup_app_l; [done|]. by apply lookup_lt_Some in Hp.
      * unfold lane_queue in *. rewrite Hq', decide_False; [done|]. intros [_ ->].
        pose proof (si_nodup s Hinv Bulk) as Hnd. cbn [fs_order] in Hnd. rewrite Ho in Hnd.
        apply NoDup_cons in Hnd as [Hn _]. apply Hn. by apply list_elem_of_lookup_2 in Hp.
      * unfold MAX_CONTROL_BURST. lia.
Qed.

(** In every state of the run at most [owners] owners have bulk messages. *)
Fixpoint owners_within (owners : nat) (evs : list (SchedEvent T)) s : Prop :=
  match evs with
  | [] => True
  | ev :: evs =>
      match sched_event ev s with
      | Some (_, s') => (length (fs_bulk_order s') ≤ owners)%nat ∧ owners_within owners evs s'
      | None => True
      end
  end.

Lemma event_waits owners ev v m o p k s s' :
  sched_ok s → bulk_waits s o p k m → sched_event ev s = Some (v, s') →
  (length (fs_bulk_order s') ≤ owners)%nat →
  v = Some m ∨
  ∃ p' k', bulk_waits s' o p' k' m ∧
    wait_bound owners p' k' s' + len (option_list v) ≤ wait_bound owners p k s.
Proof.
  intros Hok Hw Hev Hlen. pose proof (proj1 Hok) as Hinv.
  assert (∀ x, pops s x s' → v = Some x → v = Some m ∨ ∃ p' k', bulk_waits s' o p' k' m ∧
    wait_bound owners p' k' s' + len (option_list v) ≤ wait_bound owners p k s) as Hpop.
  { intros x Hx ->. by destruct (pops_waits owners x m o p k s s' Hinv Hw Hx Hlen) as [->|]; [left|right]. }
  assert (v = None → s' = s → ∃ p' k', bulk_waits s' o p' k' m ∧
    wait_bound owners p' k' s' + len (option_list v) ≤ wait_bound owners p k s) as Hnone.
  { intros -> ->. exists p, k. split; [done|]. change (len (option_list (@None T))) with 0. lia. }
  destruct ev as [m'|now|now].
  - right. destruct (push_waits (EvPush m') m o p k s s' v Hw Hok I Hev) as (-> & Hw' & Hb).
    exists p, k. split; [done|]. unfold wait_bound, burst_left. rewrite Hb. change (len (option_list (@None T))) with 0. lia.
  - cbn in Hev. destruct (pop_spec now s Hinv) as [(_ & _ & E)|(x & s1 & E & Hp)]; rewrite E in Hev; simplify_eq.
    + right. by apply Hnone.
    + by apply (Hpop x).
  - cbn in Hev. destruct (pop_control_for_group_spec now s Hinv) as [E|(x & s1 & E & Hp)];
      rewrite E in Hev; simplify_eq.
    + right. by apply Hnone.
    + by apply (Hpop x).
Qed.

Lemma run_waits owners evs popped s s' m o p k :
  sched_ok s → bulk_waits s o p k m → owners_within owners evs s →
  sched_run evs s = Some (popped, s') → wait_bound owners p k s < len popped → m ∈ popped.
Proof.
  revert popped s p k. induction evs as [|ev evs IH]; intros popped s p k Hok Hw Hin Hr Hlt; cbn [sched_run] in Hr.
  - simplify_eq. unfold len in Hlt. cbn in Hlt. lia.
  - destruct (sched_event ev s) as [[v s1]|] eqn:E; [|done]. cbn [owners_within] in Hin.
    destruct (event_flows ev s v s1 Hok E) as (Hok1 & _). rewrite E in Hin. cbn [mbind option_bind] in Hr. destruct Hin as [Hlen Hin].
    destruct (sched_run evs s1) as [[popped1 s2]|] eqn:E1; [|done]. cbn [mbind option_bind] in Hr. simplify_eq.
    destruct (event_waits owners ev v m o p k s s1 Hok Hw E Hlen) as [->|(p' & k' & Hw' & Hle)].
    + cbn. apply list_elem_of_here.
    + apply elem_of_app. right. apply (IH popped1 s1 p' k'); try done.
      unfold len in *. rewrite length_app in Hlt. lia.
Qed.

(** C27: a bulk message is not starved: in a reachable scheduler, if it is the
    [k]-th of its owner and [p] owners are ahead of it, it is served within
    [9 * (p + owners * k) + 9] messages, whatever else is pushed meanwhile,
    as long as at most [owners] owners have bulk messages at a time. *)
Theorem bulk_bounded_wait (owners : nat) (before after : list (SchedEvent T)) popped0 popped s s' m o p k :
  sched_run before fs_default = Some (popped0, s) → sched_run after s = Some (popped, s') →
  bulk_waits s o p k m → owners_within owners after s →
  (MAX_CONTROL_BURST + 1) * (N.of_nat (p + owners * k) + 1) ≤ len popped → m ∈ popped.
Proof.
  intros Hb Ha Hw Hin Hle. destruct (run_flows before fs_default popped0 s fs_default_ok Hb) as [Hok _]. apply (run_waits owners after popped s s' m o p k); try done.
  unfold wait_bound, burst_left, MAX_CONTROL_BURST in *. lia.
Qed.
End runs.
