(* ===== verification/WriterLoop.v ===== *)
(** src/crates/sync-server/src/storage_writer.rs, the writer thread: it takes
    messages from the channel, gathers a group, commits it, returns the
    reservations and answers every message.

    The loop is a state machine: a step is one turn of the outer loop or of the
    gathering loop, with what the channel and the clock answer in it ([Turn];
    an answer that is not asked for is not used). A reply channel is a number.
    [wl_queue] is the account that the loop shares with the request handlers.
    [wl_received] lists the messages taken from the channel and [wl_dropped]
    those that are dropped unanswered when the loop ends after a fatal commit;
    their senders see the reply channel closed. [WriterSystem] is the loop with
    the handlers: they reserve, drop a reservation or send it with a message.

    The theorems: the thread does not panic, neither in an assertion of the
    scheduler nor in returning a reservation; every message taken from the
    channel is answered once, in the order of its owner and class, with one
    result per object, unless a commit fails fatally; a result that
    acknowledges an object means that it is readable. *)

From S2P Require Import Prelude Bytes Keyed Hash Chunk RootHead Faults Crc32c PackFormat PackFormatProps PackStore PackInvariant PackStoreProps PackOpenProps PackCrash StorageWriter StorageWriterProps WriterQueue WriterQueueProps.
Local Open Scope N_scope.

Definition GROUP_TARGET_BYTES : N := 16 * 1024 * 1024.
Definition GROUP_LATENCY : N := 5 * 1000000.
Definition GROUP_OBJECT_TARGET : N := 4096.

Record WriterMessage := {
  wm_objects : list PackedObject;
  wm_reply : N;
  wm_reservation : QueueReservation;
  wm_enqueued_at : N;
}.

Definition message_owner (m : WriterMessage) : WriterOwner := rv_owner (wm_reservation m).
Definition message_class (m : WriterMessage) : WriterClass := rv_class (wm_reservation m).

(** The sum is of lengths of vectors in memory: it does not wrap. *)
Definition message_bytes (m : WriterMessage) : N :=
  foldr (λ o n, N.max (len (po_bytes o)) 1 + n) 0 (wm_objects m).

Definition schedule_writer_message (scheduler : FairScheduler WriterMessage) (message : WriterMessage)
    : option (FairScheduler WriterMessage) :=
  push (message_owner message) (message_class message) (wm_enqueued_at message) message scheduler.

(** [drop] of the reservation of a message. *)
Definition drop_reservation (m : WriterMessage) (q : QueueState) : option QueueState :=
  release (message_owner m) (message_class m) (rv_bytes (wm_reservation m)) q.

(** What [recv_timeout] returns. *)
Inductive WaitResult := Received (m : WriterMessage) | TimedOut | Disconnected.

Record Turn := {
  tn_recv : option WriterMessage;
  tn_drained : list WriterMessage;
  tn_disconnected : bool;
  tn_now : N;
  tn_later : N;
  tn_wait : WaitResult;
}.

(** The variables of the gathering loop. *)
Record Group := {
  gr_messages : list WriterMessage;
  gr_bytes : N;
  gr_objects : N;
  gr_deadline : N;
  gr_control : bool;
  gr_coalesce : bool;
}.

(** [Fatal] is the end after a commit that failed fatally. *)
Inductive LoopPhase := Outer | Gathering (g : Group) | Ended | Fatal | Panicked.

Record WriterLoop := {
  wl_phase : LoopPhase;
  wl_scheduler : FairScheduler WriterMessage;
  wl_open : bool;
  wl_active : ActiveSegment;
  wl_world : PackWorld;
  wl_queue : QueueState;
  wl_replies : list (WriterMessage * list StoreResult);
  wl_received : list WriterMessage;
  wl_dropped : list WriterMessage;
}.
#[global] Instance wl_settable : Settable WriterLoop := λ l,
  {| wl_phase := wl_phase l; wl_scheduler := wl_scheduler l; wl_open := wl_open l; wl_active := wl_active l;
     wl_world := wl_world l; wl_queue := wl_queue l; wl_replies := wl_replies l; wl_received := wl_received l;
     wl_dropped := wl_dropped l |}.

Definition panicked (l : WriterLoop) : bool := match wl_phase l with Panicked => true | _ => false end.

Definition receive (m : WriterMessage) (l : WriterLoop) : WriterLoop :=
  let l := l <| wl_received := wl_received l ++ [m] |> in
  match schedule_writer_message (wl_scheduler l) m with
  | Some s => l <| wl_scheduler := s |>
  | None => l <| wl_phase := Panicked |>
  end.

Fixpoint receive_all (ms : list WriterMessage) (l : WriterLoop) : WriterLoop :=
  match ms with
  | [] => l
  | m :: ms => let l := receive m l in if panicked l then l else receive_all ms l
  end.

Definition drain_writer_channel (t : Turn) (l : WriterLoop) : WriterLoop :=
  if negb (wl_open l) then l
  else
    let l := receive_all (tn_drained t) l in
    l <| wl_open := wl_open l && negb (tn_disconnected t) |>.

(** * Answers *)

Record FlatObject := { fo_message_index : nat; fo_object_index : nat; fo_object : PackedObject }.

Definition flatten_messages (messages : list WriterMessage) : list FlatObject :=
  concat (imap (λ mi m, imap (λ oi o, {| fo_message_index := mi; fo_object_index := oi; fo_object := o |})
                             (wm_objects m)) messages).

Definition separate (messages : list WriterMessage) (results : list StoreResult) : list (list StoreResult) :=
  foldl (λ separated fr,
           alter (λ rs, <[fo_object_index (fst fr) := snd fr]> rs) (fo_message_index (fst fr)) separated)
    ((λ m, replicate (length (wm_objects m)) (Err Closed)) <$> messages)
    (zip (flatten_messages messages) results).

Section loop.
Context {B3 : Blake3} {HX : Hex} {JV : JsonValue}.

(** The loop over the messages of a group and their results. *)
Fixpoint answer_messages (answers : list (WriterMessage * list StoreResult)) (l : WriterLoop) : WriterLoop :=
  match answers with
  | [] => l
  | answer :: answers =>
      match drop_reservation (fst answer) (wl_queue l) with
      | None => l <| wl_phase := Panicked |>
      | Some q => answer_messages answers (l <| wl_queue := q |> <| wl_replies := wl_replies l ++ [answer] |>)
      end
  end.

(** Messages that are dropped: a reservation is returned, its reply channel
    closes. *)
Fixpoint drop_messages (messages : list WriterMessage) (l : WriterLoop) : WriterLoop :=
  match messages with
  | [] => l
  | m :: messages =>
      match drop_reservation m (wl_queue l) with
      | None => l <| wl_phase := Panicked |>
      | Some q => drop_messages messages (l <| wl_queue := q |> <| wl_dropped := wl_dropped l ++ [m] |>)
      end
  end.

(** The end of a turn of the outer loop. A fatal report ends the loop, and the
    scheduler is dropped. *)
Definition finish_group (messages : list WriterMessage) (l : WriterLoop) : WriterLoop :=
  let '(report, active, w) :=
    commit_objects (wl_active l) (fo_object <$> flatten_messages messages) (wl_world l) in
  let l := answer_messages (zip messages (separate messages (cr_results report)))
             (l <| wl_phase := Outer |> <| wl_active := active |> <| wl_world := w |>) in
  if panicked l then l
  else if cr_fatal report
  then drop_messages (scheduled_messages (wl_scheduler l)) (l <| wl_phase := Fatal |> <| wl_scheduler := fs_default |>)
  else l.

Definition new_group (first : WriterMessage) (now : N) : Group :=
  {| gr_messages := [first];
     gr_bytes := message_bytes first;
     gr_objects := len (wm_objects first);
     gr_deadline := now + GROUP_LATENCY;
     gr_control := bool_decide (message_class first = Control);
     gr_coalesce := len (wm_objects first) =? 1 |}.

Definition add_message (m : WriterMessage) (g : Group) : Group :=
  {| gr_messages := gr_messages g ++ [m];
     gr_bytes := saturating_add64 (gr_bytes g) (message_bytes m);
     gr_objects := saturating_add64 (gr_objects g) (len (wm_objects m));
     gr_deadline := gr_deadline g;
     gr_control := gr_control g;
     gr_coalesce := gr_coalesce g |}.

(** A turn of the outer loop up to the gathering loop. *)
Definition start_group (t : Turn) (l : WriterLoop) : WriterLoop :=
  let l := drain_writer_channel t l in
  if panicked l then l
  else match pop (tn_now t) (wl_scheduler l) with
       | None => l <| wl_phase := Panicked |>
       | Some (None, s) => l <| wl_scheduler := s |>
       | Some (Some first, s) =>
           l <| wl_scheduler := s |> <| wl_phase := Gathering (new_group first (tn_later t)) |>
       end.

Definition outer_turn (t : Turn) (l : WriterLoop) : WriterLoop :=
  if fs_is_empty (wl_scheduler l) then
    if negb (wl_open l) then l <| wl_phase := Ended |>
    else match tn_recv t with
         | Some message =>
             let l := receive message l in
             if panicked l then l else start_group t l
         | None => l <| wl_phase := Ended |>
         end
  else start_group t l.

(** A turn of the gathering loop: the test of its condition, and its body. *)
Definition gathering_turn (t : Turn) (g : Group) (l : WriterLoop) : WriterLoop :=
  if gr_coalesce g && (gr_bytes g <? GROUP_TARGET_BYTES) && (gr_objects g <? GROUP_OBJECT_TARGET) then
    let l := drain_writer_channel t l in
    if panicked l then l
    else
      let next := if gr_control g then pop_control_for_group (tn_now t) (wl_scheduler l)
                  else pop (tn_now t) (wl_scheduler l) in
      match next with
      | None => l <| wl_phase := Panicked |>
      | Some (Some message, s) => l <| wl_scheduler := s |> <| wl_phase := Gathering (add_message message g) |>
      | Some (None, s) =>
          let l := l <| wl_scheduler := s |> in
          if negb (fs_is_empty s) then finish_group (gr_messages g) l
          else if negb (wl_open l) then finish_group (gr_messages g) l
          else if gr_deadline g - tn_later t =? 0 then finish_group (gr_messages g) l
          else match tn_wait t with
               | Received message => receive message l
               | TimedOut => finish_group (gr_messages g) l
               | Disconnected => finish_group (gr_messages g) (l <| wl_open := false |>)
               end
      end
  else finish_group (gr_messages g) l.

Definition writer_turn (l : WriterLoop) (t : Turn) : WriterLoop :=
  match wl_phase l with
  | Outer => outer_turn t l
  | Gathering g => gathering_turn t g l
  | Ended | Fatal | Panicked => l
  end.

Definition writer_start (active : ActiveSegment) (w : PackWorld) : WriterLoop :=
  {| wl_phase := Outer; wl_scheduler := fs_default; wl_open := true; wl_active := active; wl_world := w;
     wl_queue := qs_default; wl_replies := []; wl_received := []; wl_dropped := [] |}.

(** * The loop and the request handlers *)

(** [sy_admitted]: the reservations that the handlers hold, those of the
    messages in the channel included. *)
Record WriterSystem := { sy_loop : WriterLoop; sy_admitted : list QueueReservation }.

(** The messages the channel holds out to a turn. *)
Definition offered (t : Turn) : list WriterMessage :=
  option_list (tn_recv t) ++ tn_drained t ++ match tn_wait t with Received m => [m] | _ => [] end.

(** A handler reserves ([reserve_for]), or drops what it reserved; the loop
    takes a turn, in which messages pass to it with their reservations. *)
Inductive system_step : WriterSystem → WriterSystem → Prop :=
  | sys_admit l admitted r q :
      reserve (rv_owner r) (rv_class r) (rv_bytes r) (wl_queue l) = Ok q →
      system_step {| sy_loop := l; sy_admitted := admitted |}
                  {| sy_loop := l <| wl_queue := q |>; sy_admitted := r :: admitted |}
  | sys_drop l before r after q :
      release (rv_owner r) (rv_class r) (rv_bytes r) (wl_queue l) = Some q →
      system_step {| sy_loop := l; sy_admitted := before ++ r :: after |}
                  {| sy_loop := l <| wl_queue := q |>; sy_admitted := before ++ after |}
  | sys_turn l admitted t delivered rest :
      (wm_reservation <$> offered t) ⊆+ admitted →
      wl_received (writer_turn l t) = wl_received l ++ delivered →
      admitted ≡ₚ (wm_reservation <$> delivered) ++ rest →
      system_step {| sy_loop := l; sy_admitted := admitted |}
                  {| sy_loop := writer_turn l t; sy_admitted := rest |}.

Definition system_start (active : ActiveSegment) (w : PackWorld) : WriterSystem :=
  {| sy_loop := writer_start active w; sy_admitted := [] |}.
End loop.


(** * Separating the results *)

Definition put_result (separated : list (list StoreResult)) (fr : FlatObject * StoreResult) :=
  alter (λ rs, <[fo_object_index (fst fr) := snd fr]> rs) (fo_message_index (fst fr)) separated.

Definition no_results (m : WriterMessage) : list StoreResult := replicate (length (wm_objects m)) (Err Closed).

Definition flat_of (mi oi : nat) (objects : list PackedObject) : list FlatObject :=
  imap (λ i o, {| fo_message_index := mi; fo_object_index := (oi + i)%nat; fo_object := o |}) objects.

Lemma flat_of_cons mi oi o objects :
  flat_of mi oi (o :: objects) =
  {| fo_message_index := mi; fo_object_index := oi; fo_object := o |} :: flat_of mi (S oi) objects.
Proof.
  unfold flat_of. rewrite imap_cons, Nat.add_0_r. f_equal. apply imap_ext. intros i x _. cbn.
  by rewrite Nat.add_succ_r.
Qed.

(** One message: its results are filled in from left to right. *)
Lemma put_message pre filled objects results rest :
  length results = length objects →
  foldl put_result (pre ++ (filled ++ replicate (length objects) (Err Closed)) :: rest)
    (zip (flat_of (length pre) (length filled) objects) results) = pre ++ (filled ++ results) :: rest.
Proof.
  revert filled results. induction objects as [|o objects IH]; intros filled [|r results] Hlen; try done.
  rewrite flat_of_cons. cbn [zip_with foldl].
  assert (put_result (pre ++ (filled ++ replicate (length (o :: objects)) (Err Closed)) :: rest)
            ({| fo_message_index := length pre; fo_object_index := length filled; fo_object := o |}, r) =
          pre ++ ((filled ++ [r]) ++ replicate (length objects) (Err Closed)) :: rest) as ->.
  { unfold put_result. cbn [fst snd fo_message_index fo_object_index].
    rewrite alter_app_r_alt, Nat.sub_diag by done. cbn [alter list_alter]. f_equal. f_equal. cbn [length replicate].
    rewrite insert_app_r_alt, Nat.sub_diag by done. by rewrite <-app_assoc. }
  replace (S (length filled)) with (length (filled ++ [r])) by (rewrite length_app; cbn; lia).
  rewrite IH by (cbn in Hlen; lia). by rewrite <-app_assoc.
Qed.

(** The objects of the messages from the [n]-th on. *)
Definition flat_from (n : nat) (messages : list WriterMessage) : list FlatObject :=
  concat (imap (λ i m, flat_of (n + i) 0 (wm_objects m)) messages).

Lemma flat_from_cons n m messages :
  flat_from n (m :: messages) = flat_of n 0 (wm_objects m) ++ flat_from (S n) messages.
Proof.
  unfold flat_from. rewrite imap_cons. cbn [concat]. rewrite Nat.add_0_r. f_equal. f_equal.
  apply imap_ext. intros i x _. cbn. by rewrite Nat.add_succ_r.
Qed.

Lemma length_flat_of mi oi objects : length (flat_of mi oi objects) = length objects.
Proof. apply length_imap. Qed.

Lemma flat_of_objects mi oi objects : fo_object <$> flat_of mi oi objects = objects.
Proof.
  revert oi. induction objects as [|o objects IH]; intros oi; [done|]. rewrite flat_of_cons. csimpl.
  by rewrite IH.
Qed.

Lemma flatten_objects messages : fo_object <$> flatten_messages messages = messages ≫= wm_objects.
Proof.
  change (flatten_messages messages) with (flat_from 0 messages). generalize 0%nat.
  induction messages as [|m messages IH]; intros n; [done|].
  rewrite flat_from_cons, fmap_app, flat_of_objects, IH. done.
Qed.

(** The results cut into pieces of the lengths of the messages. *)
Fixpoint cut_results (messages : list WriterMessage) (results : list StoreResult) : list (list StoreResult) :=
  match messages with
  | [] => []
  | m :: messages =>
      take (length (wm_objects m)) results :: cut_results messages (drop (length (wm_objects m)) results)
  end.

Lemma put_messages pre messages results :
  length results = length (messages ≫= wm_objects) →
  foldl put_result (pre ++ (no_results <$> messages)) (zip (flat_from (length pre) messages) results) =
  pre ++ cut_results messages results.
Proof.
  revert pre results. induction messages as [|m messages IH]; intros pre results Hlen; [done|].
  cbn [mbind list_bind] in Hlen. rewrite length_app in Hlen.
  rewrite flat_from_cons. cbn [cut_results]. set (n := length (wm_objects m)) in *.
  rewrite <-(take_drop n results) at 1.
  rewrite zip_with_app by (rewrite length_flat_of, length_take; lia).
  rewrite foldl_app. csimpl.
  pose proof (put_message pre [] (wm_objects m) (take n results) (no_results <$> messages)) as Hm.
  cbn [app length] in Hm. change (no_results m) with (replicate (length (wm_objects m)) (@Err WriterError StoreOutcome Closed)).
  rewrite Hm by (rewrite length_take; lia).
  specialize (IH (pre ++ [take n results]) (drop n results)). rewrite length_app, Nat.add_1_r in IH.
  rewrite <-!app_assoc in IH. cbn [app] in IH. apply IH. rewrite length_drop. lia.
Qed.

Lemma separate_cut messages results :
  length results = length (messages ≫= wm_objects) → separate messages results = cut_results messages results.
Proof. intros H. apply (put_messages [] messages results H). Qed.

Lemma cut_results_lengths messages results :
  length results = length (messages ≫= wm_objects) →
  Forall2 (λ m rs, length rs = length (wm_objects m)) messages (cut_results messages results).
Proof.
  revert results. induction messages as [|m messages IH]; intros results Hlen; cbn [cut_results]; constructor.
  - cbn [mbind list_bind] in Hlen. rewrite length_app in Hlen. rewrite length_take. lia.
  - apply IH. cbn [mbind list_bind] in Hlen. rewrite length_app in Hlen. rewrite length_drop. lia.
Qed.

(** Every result of a piece is the result of the object at its place. *)
Lemma cut_results_object messages results m rs j r o :
  length results = length (messages ≫= wm_objects) → (m, rs) ∈ zip messages (cut_results messages results) →
  rs !! j = Some r → wm_objects m !! j = Some o →
  ∃ n, results !! n = Some r ∧ (messages ≫= wm_objects) !! n = Some o.
Proof.
  revert results. induction messages as [|m' messages IH]; intros results Hlen Hin Hr Ho; cbn [cut_results] in Hin.
  { by apply elem_of_nil in Hin. }
  cbn [mbind list_bind] in Hlen |- *. rewrite length_app in Hlen.
  cbn [zip_with] in Hin. apply elem_of_cons in Hin as [[= -> ->]|Hin].
  - exists j. rewrite lookup_take_Some in Hr. destruct Hr as [Hr _]. split; [done|].
    by apply lookup_app_l_Some.
  - destruct (IH (drop (length (wm_objects m')) results)) as (n & H1 & H2); try done.
    { rewrite length_drop. lia. }
    exists (length (wm_objects m') + n)%nat. rewrite lookup_drop in H1. split; [done|].
    rewrite lookup_app_r by lia. by replace (length (wm_objects m') + n - length (wm_objects m'))%nat with n by lia.
Qed.

(** * The loop *)

Section loop.
Context {B3 : Blake3} {HX : Hex} {JV : JsonValue}.
Implicit Types (l : WriterLoop) (t : Turn) (pool : list QueueReservation).

Lemma commit_results_length active objects w :
  length (cr_results (fst (fst (commit_objects active objects w)))) = length objects.
Proof.
  rewrite commit_refines. unfold commit_reference.
  destruct (append_group active (stored_objects w objects) NoCommitFault w) as [[a|e] w']; cbn [fst cr_results];
    by rewrite length_fmap, length_classify.
Qed.

(** The group that is being gathered, and what the loop holds. *)
Definition gathered l : list WriterMessage :=
  match wl_phase l with Gathering g => gr_messages g | _ => [] end.
Definition answered l : list WriterMessage := (wl_replies l).*1.
Definition in_flight l : list WriterMessage := gathered l ++ scheduled_messages (wl_scheduler l).

Record loop_inv l : Prop := {
  li_phase : wl_phase l ≠ Panicked;
  li_sched : sched_ok message_owner message_class (wl_scheduler l);
  li_flow : flows message_owner message_class fs_default (wl_received l) (answered l ++ gathered l ++ wl_dropped l)
              (wl_scheduler l);
  li_lengths : Forall (λ mr, length (snd mr) = length (wm_objects (fst mr))) (wl_replies l);
  li_dropped : wl_phase l ≠ Fatal → wl_dropped l = [];
  li_ended : wl_phase l = Ended ∨ wl_phase l = Fatal → scheduled_messages (wl_scheduler l) = [];
}.

(** [pool]: the reservations outside of the loop. *)
Definition loop_ok pool l : Prop :=
  loop_inv l ∧ queue_ok (pool ++ (wm_reservation <$> in_flight l), wl_queue l).

(** Messages passed from the pool to the loop. *)
Definition takes pool l pool' l' : Prop :=
  ∃ delivered, wl_received l' = wl_received l ++ delivered ∧ pool ≡ₚ (wm_reservation <$> delivered) ++ pool'.

Lemma takes_none pool l l' : wl_received l' = wl_received l → takes pool l pool l'.
Proof. intros E. exists []. by rewrite E, app_nil_r. Qed.

Lemma takes_trans pool1 l1 pool2 l2 pool3 l3 :
  takes pool1 l1 pool2 l2 → takes pool2 l2 pool3 l3 → takes pool1 l1 pool3 l3.
Proof.
  intros (d1 & E1 & P1) (d2 & E2 & P2). exists (d1 ++ d2). split; [by rewrite E2, E1, app_assoc|].
  by rewrite P1, P2, fmap_app, app_assoc.
Qed.

Lemma flows_scheduled s ins outs s' :
  sched_ok message_owner message_class s → sched_ok message_owner message_class s' →
  flows message_owner message_class s ins outs s' → scheduled_messages s ++ ins ≡ₚ outs ++ scheduled_messages s'.
Proof.
  intros H1 H2 Hf. apply (lanes_perm message_owner message_class). intros o c.
  rewrite !lane_app, (lane_scheduled message_owner message_class s H1), (lane_scheduled message_owner message_class s' H2).
  by rewrite (Hf o c).
Qed.

Lemma start_ok active w : loop_ok [] (writer_start active w).
Proof. split; [|apply queue_ok_init]. split; try done. apply fs_default_ok. Qed.

(** ** Receiving *)

(** A message of the pool fits: the caps of the reservations are those of the
    assertions. *)
Lemma admitted_room pool l m :
  loop_ok (wm_reservation m :: pool) l → room_for message_owner m (wl_scheduler l).
Proof.
  intros [_ Hq]. apply queue_ok_bounds in Hq as [Hn Ho]. unfold room_for.
  assert ((wm_reservation <$> m :: scheduled_messages (wl_scheduler l)) ⊆+
    (wm_reservation m :: pool) ++ (wm_reservation <$> in_flight l)) as Hsub.
  { unfold in_flight. rewrite fmap_app. cbn [fmap list_fmap app]. apply submseteq_skip.
    by do 2 apply submseteq_inserts_l. }
  split.
  - etrans; [|exact Hn]. apply submseteq_length in Hsub. rewrite length_fmap in Hsub. unfold len. lia.
  - etrans; [|exact Ho]. enough (owners_of message_owner (m :: scheduled_messages (wl_scheduler l)) ⊆
      list_to_set (rv_owner <$> (wm_reservation m :: pool) ++ (wm_reservation <$> in_flight l))) as H%subseteq_size by lia.
    unfold owners_of. intros o. rewrite !elem_of_list_to_set, !list_elem_of_fmap. intros (m' & -> & Hm').
    exists (wm_reservation m'). split; [done|]. eapply elem_of_submseteq; [|exact Hsub].
    apply list_elem_of_fmap. by exists m'.
Qed.

Lemma receive_ok pool l m :
  loop_ok (wm_reservation m :: pool) l → wl_phase l ≠ Ended → wl_phase l ≠ Fatal →
  loop_ok pool (receive m l) ∧ takes (wm_reservation m :: pool) l pool (receive m l) ∧
  wl_phase (receive m l) = wl_phase l ∧ panicked (receive m l) = false ∧ wl_open (receive m l) = wl_open l.
Proof.
  intros Hok He Hf. pose proof (admitted_room pool l m Hok) as Hroom. destruct Hok as [[H1 H2 H3 H4 H5 H6] Hq].
  destruct (enqueue_flows message_owner message_class wm_enqueued_at m (wl_scheduler l) H2) as [H7 H8].
  set (s' := enqueue _ _ _ _ _) in *.
  assert (receive m l = l <| wl_received := wl_received l ++ [m] |> <| wl_scheduler := s' |>) as ->.
  { unfold receive, schedule_writer_message. cbn [wl_scheduler update_field]. 
    rewrite (push_room message_owner message_class wm_enqueued_at) by done. by rewrite decide_True. }
  split_and!; try done.
  - split; [split; try done|].
    + pose proof (flows_trans _ _ _ _ _ _ _ _ _ H3 H8) as H9. by rewrite app_nil_r in H9.
    + intros [E|E]; [by destruct He|by destruct Hf].
    + eapply queue_ok_perm; [|exact Hq]. pose proof (flows_scheduled _ _ _ _ H2 H7 H8) as Hp.
      unfold in_flight, gathered. cbn. rewrite !fmap_app, <-Hp, fmap_app. cbn. solve_Permutation.
  - exists [m]. done.
  - unfold panicked. cbn. by destruct (wl_phase l).
Qed.

Lemma receive_all_ok ms pool l :
  loop_ok ((wm_reservation <$> ms) ++ pool) l → wl_phase l ≠ Ended → wl_phase l ≠ Fatal →
  loop_ok pool (receive_all ms l) ∧ takes ((wm_reservation <$> ms) ++ pool) l pool (receive_all ms l) ∧
  wl_phase (receive_all ms l) = wl_phase l ∧ wl_open (receive_all ms l) = wl_open l.
Proof.
  revert l. induction ms as [|m ms IH]; intros l Hok He Hf; cbn [receive_all].
  { split_and!; try done. by apply takes_none. }
  destruct (receive_ok _ l m Hok He Hf) as (H1 & H2 & H3 & -> & H4).
  destruct (IH (receive m l) H1) as (H5 & H6 & H7 & H8); [by rewrite H3..|].
  split_and!; [done|by eapply takes_trans|congruence..].
Qed.

Lemma set_open_ok pool l b : loop_ok pool l → loop_ok pool (l <| wl_open := b |>).
Proof. by intros [[] ?]. Qed.

(** After a drain the messages it was offered are in the loop, or the channel
    was closed before and they stay where they were. *)
Lemma drain_ok t pool l :
  loop_ok ((wm_reservation <$> tn_drained t) ++ pool) l → wl_phase l ≠ Ended → wl_phase l ≠ Fatal →
  let l' := drain_writer_channel t l in
  wl_phase l' = wl_phase l ∧
  ∃ pool', loop_ok pool' l' ∧ takes ((wm_reservation <$> tn_drained t) ++ pool) l pool' l' ∧
    (wl_open l = true → pool' = pool) ∧ (wl_open l = false → wl_open l' = false).
Proof.
  intros Hok He Hf. cbv zeta. unfold drain_writer_channel. destruct (wl_open l) eqn:Ho; cbn [negb].
  - destruct (receive_all_ok _ _ _ Hok He Hf) as (H1 & H2 & H3 & H4).
    split; [done|]. exists pool. split_and!; try done. by apply set_open_ok.
  - split; [done|]. exists ((wm_reservation <$> tn_drained t) ++ pool). split_and!; try done. by apply takes_none.
Qed.

Lemma running_quiet pool l : loop_ok pool l → panicked l = false.
Proof. intros [[H _ _ _ _ _] _]. unfold panicked. by destruct (wl_phase l). Qed.

(** ** Gathering *)

(** A popped message joins the group. *)
Lemma pop_joins pool l s m g :
  loop_ok pool l → pops (wl_scheduler l) m s → wl_phase l ≠ Fatal → gr_messages g = gathered l ++ [m] →
  loop_ok pool (l <| wl_scheduler := s |> <| wl_phase := Gathering g |>).
Proof.
  intros [[H1 H2 H3 H4 H5 H6] Hq] Hp Hf Hg.
  destruct (pops_flows message_owner message_class wm_enqueued_at (wl_scheduler l) m s H2 Hp) as [H7 H8].
  rewrite (H5 Hf), app_nil_r in H3. split; [split; try done|].
  - cbn. rewrite (H5 Hf), app_nil_r. unfold gathered in *. cbn. rewrite Hg.
    pose proof (flows_trans _ _ _ _ _ _ _ _ _ H3 H8) as H9. by rewrite app_nil_r, <-app_assoc in H9.
  - intros _. by apply H5.
  - by intros [|].
  - eapply queue_ok_perm; [|exact Hq]. pose proof (flows_scheduled _ _ _ _ H2 H7 H8) as Hp'.
    rewrite app_nil_r in Hp'. unfold in_flight. unfold gathered at 2. cbn. rewrite Hg, Hp', <-app_assoc. done.
Qed.

Lemma set_scheduler_same l : l <| wl_scheduler := wl_scheduler l |> = l.
Proof. by destruct l. Qed.

(** ** Answering *)

Lemma drop_ok pool m ms q :
  queue_ok (pool ++ (wm_reservation <$> m :: ms), q) →
  ∃ q', drop_reservation m q = Some q' ∧ queue_ok (pool ++ (wm_reservation <$> ms), q').
Proof.
  intros [Hrep Hcaps]. destruct (release_rep _ _ _ _ Hrep) as (q' & E & Hrep').
  exists q'. split; [exact E|]. split; [exact Hrep'|]. by eapply release_caps.
Qed.

Lemma answer_ok answers pool l :
  queue_ok (pool ++ (wm_reservation <$> answers.*1), wl_queue l) →
  ∃ q, answer_messages answers l = l <| wl_queue := q |> <| wl_replies := wl_replies l ++ answers |> ∧
    queue_ok (pool, q).
Proof.
  revert l. induction answers as [|[m rs] answers IH]; intros l Hq; cbn [answer_messages].
  - exists (wl_queue l). rewrite app_nil_r in Hq |- *. split; [by destruct l|done].
  - destruct (drop_ok pool m answers.*1 (wl_queue l) Hq) as (q & E & Hq'). cbn [fst]. rewrite E.
    destruct (IH (l <| wl_queue := q |> <| wl_replies := wl_replies l ++ [(m, rs)] |>)) as (q' & -> & Hq''); [exact Hq'|].
    exists q'. split; [|done]. cbn. by rewrite <-app_assoc.
Qed.

Lemma drops_ok ms pool l :
  queue_ok (pool ++ (wm_reservation <$> ms), wl_queue l) →
  ∃ q, drop_messages ms l = l <| wl_queue := q |> <| wl_dropped := wl_dropped l ++ ms |> ∧ queue_ok (pool, q).
Proof.
  revert l. induction ms as [|m ms IH]; intros l Hq; cbn [drop_messages].
  - exists (wl_queue l). rewrite app_nil_r in Hq |- *. split; [by destruct l|done].
  - destruct (drop_ok pool m ms (wl_queue l) Hq) as (q & E & Hq'). rewrite E.
    destruct (IH (l <| wl_queue := q |> <| wl_dropped := wl_dropped l ++ [m] |>)) as (q' & -> & Hq''); [exact Hq'|].
    exists q'. split; [|done]. cbn. by rewrite <-app_assoc.
Qed.

Lemma zip_fst_lengths (messages : list WriterMessage) (rs : list (list StoreResult)) :
  Forall2 (λ m rs, length rs = length (wm_objects m)) messages rs →
  (zip messages rs).*1 = messages ∧
  Forall (λ mr, length (snd mr) = length (wm_objects (fst mr))) (zip messages rs).
Proof.
  induction 1 as [|m r ms rs H _ [IH1 IH2]]; [done|]. cbn [zip_with]. csimpl. split; [by rewrite IH1|].
  by constructor.
Qed.

Lemma scheduled_default : scheduled_messages (@fs_default WriterMessage) = [].
Proof. unfold scheduled_messages. cbn. by rewrite map_to_list_empty. Qed.

Lemma finish_ok pool l g :
  loop_ok pool l → wl_phase l = Gathering g →
  loop_ok pool (finish_group (gr_messages g) l) ∧ wl_received (finish_group (gr_messages g) l) = wl_received l.
Proof.
  intros [[H1 H2 H3 H4 H5 H6] Hq] Hp. set (messages := gr_messages g).
  assert (gathered l = messages) as Hg by (unfold gathered; by rewrite Hp).
  rewrite (H5 ltac:(by rewrite Hp)), app_nil_r, Hg in H3. unfold in_flight in Hq. rewrite Hg, fmap_app in Hq.
  unfold finish_group.
  pose proof (commit_results_length (wl_active l) (fo_object <$> flatten_messages messages) (wl_world l)) as Hlen.
  destruct (commit_objects _ _ _) as [[report active] w]. cbn [fst] in Hlen. rewrite flatten_objects in Hlen.
  rewrite separate_cut by done.
  destruct (zip_fst_lengths _ _ (cut_results_lengths _ _ Hlen)) as [Hz1 Hz2].
  set (l1 := l <| wl_phase := Outer |> <| wl_active := active |> <| wl_world := w |>).
  set (answers := zip messages (cut_results messages (cr_results report))) in *.
  assert (queue_ok ((pool ++ (wm_reservation <$> scheduled_messages (wl_scheduler l))) ++
    (wm_reservation <$> answers.*1), wl_queue l1)) as Hq1.
  { rewrite Hz1. eapply queue_ok_perm; [|exact Hq]. solve_Permutation. }
  destruct (answer_ok answers _ l1 Hq1) as (q & -> & Hq2).
  set (l2 := l1 <| wl_queue := q |> <| wl_replies := wl_replies l1 ++ answers |>).
  assert (answered l2 = answered l ++ messages) as Ha by (unfold answered; cbn; by rewrite fmap_app, Hz1).
  assert (Forall (λ mr, length (snd mr) = length (wm_objects (fst mr))) (wl_replies l2)) as Hl by (by apply Forall_app).
  assert (wl_dropped l2 = []) as Hd by (cbn; apply H5; by rewrite Hp).
  cbn [panicked l2 l1 wl_phase update_field]. destruct (cr_fatal report).
  - destruct (drops_ok (scheduled_messages (wl_scheduler l2)) pool
      (l2 <| wl_phase := Fatal |> <| wl_scheduler := fs_default |>)) as (q' & E & Hq3); [exact Hq2|].
    change (panicked l2) with false. cbn [wl_phase]. rewrite E. split; [|done]. split; [split; try done|].
    + apply fs_default_ok.
    + intros o c. specialize (H3 o c).
      change (lane_queue o c fs_default ++ lane message_owner message_class o c (wl_received l) =
        lane message_owner message_class o c (answered l2 ++ [] ++ (wl_dropped l2 ++ scheduled_messages (wl_scheduler l)))
        ++ lane_queue o c fs_default).
      rewrite H3, Ha, Hd, !lane_app, (lane_scheduled message_owner message_class (wl_scheduler l) H2).
      replace (lane_queue o c fs_default) with (@nil WriterMessage); [by rewrite app_nil_r|].
      unfold lane_queue, queue_at. cbn. by rewrite lookup_empty.
    + eapply queue_ok_perm; [|exact Hq3]. unfold in_flight. cbn. by rewrite scheduled_default, app_nil_r.
  - split; [|done]. split; [split; try done|].
    + change (flows message_owner message_class fs_default (wl_received l) (answered l2 ++ [] ++ wl_dropped l2) (wl_scheduler l)).
      by rewrite Ha, Hd, app_nil_r.
    + by intros [|].
    + exact Hq2.
Qed.

(** ** The turns *)

Definition pool_ok pool l pool' l' : Prop := loop_ok pool' l' ∧ takes pool l pool' l'.

Lemma loop_ok_perm pool pool' l : pool ≡ₚ pool' → loop_ok pool l → loop_ok pool' l.
Proof. intros Hp [? Hq]. split; [done|]. eapply queue_ok_perm; [|exact Hq]. by rewrite Hp. Qed.

Lemma pool_ok_perm pool0 pool l pool' l' : pool0 ≡ₚ pool → pool_ok pool l pool' l' → pool_ok pool0 l pool' l'.
Proof. intros Hp [H (d & E & Hd)]. split; [done|]. exists d. split; [done|]. by rewrite Hp. Qed.

Lemma finish_pool pool0 l0 pool l g :
  loop_ok pool l → takes pool0 l0 pool l → wl_phase l = Gathering g →
  pool_ok pool0 l0 pool (finish_group (gr_messages g) l).
Proof.
  intros Hok Ht Hp. destruct (finish_ok pool l g Hok Hp) as [H1 H2]. split; [done|].
  eapply takes_trans; [exact Ht|]. by apply takes_none.
Qed.

Lemma start_group_ok t pool l :
  loop_ok ((wm_reservation <$> tn_drained t) ++ pool) l → wl_phase l = Outer →
  ∃ pool', pool_ok ((wm_reservation <$> tn_drained t) ++ pool) l pool' (start_group t l).
Proof.
  intros Hok Hp. destruct (drain_ok t pool l Hok) as (Hp' & pool' & Hd & Ht & _); [by rewrite Hp..|].
  exists pool'. unfold start_group. set (l1 := drain_writer_channel t l) in *.
  rewrite (running_quiet pool' l1 Hd). rewrite Hp in Hp'.
  destruct (pop_spec (tn_now t) (wl_scheduler l1) (proj1 (li_sched l1 (proj1 Hd)))) as [(_ & _ & ->)|(v & s & -> & Hv)].
  - by rewrite set_scheduler_same.
  - split; [|done]. apply (pop_joins pool' l1 s v); try done; [by rewrite Hp'|]. unfold gathered. by rewrite Hp'.
Qed.

Lemma ended_ok pool l :
  loop_ok pool l → wl_phase l = Outer → fs_is_empty (wl_scheduler l) = true → loop_ok pool (l <| wl_phase := Ended |>).
Proof.
  intros [[H1 H2 H3 H4 H5 H6] Hq] Hp He. unfold in_flight, gathered in *. rewrite Hp in *.
  split; [split; try done|].
  - intros _. by apply H5.
  - intros _. apply len_0. rewrite (len_scheduled message_owner message_class) by done. by apply N.eqb_eq.
  - exact Hq.
Qed.

Lemma outer_ok t pool l :
  loop_ok ((wm_reservation <$> offered t) ++ pool) l → wl_phase l = Outer →
  ∃ pool', pool_ok ((wm_reservation <$> offered t) ++ pool) l pool' (outer_turn t l).
Proof.
  intros Hok Hp. unfold outer_turn.
  destruct (fs_is_empty (wl_scheduler l)) eqn:He.
  - assert (∃ pool', pool_ok ((wm_reservation <$> offered t) ++ pool) l pool' (l <| wl_phase := Ended |>)) as Hend.
    { eexists. split; [by apply ended_ok|by apply takes_none]. }
    destruct (negb (wl_open l)); [done|]. destruct (tn_recv t) as [m|] eqn:Er; [|done]. clear Hend.
    set (others := (wm_reservation <$> match tn_wait t with Received m => [m] | _ => [] end) ++ pool).
    assert ((wm_reservation <$> offered t) ++ pool ≡ₚ wm_reservation m :: (wm_reservation <$> tn_drained t) ++ others) as Hp1.
    { unfold offered, others. rewrite Er, !fmap_app. cbn. by rewrite <-app_assoc. }
    destruct (receive_ok _ l m (loop_ok_perm _ _ _ Hp1 Hok)) as (H1 & H2 & H3 & -> & _); [by rewrite Hp..|].
    destruct (start_group_ok t _ (receive m l) H1) as (pool' & H4 & H5); [by rewrite H3|].
    exists pool'. apply (pool_ok_perm _ _ _ _ _ Hp1). split; [done|]. by eapply takes_trans.
  - set (others := (wm_reservation <$> option_list (tn_recv t)) ++
      (wm_reservation <$> match tn_wait t with Received m => [m] | _ => [] end) ++ pool).
    assert ((wm_reservation <$> offered t) ++ pool ≡ₚ (wm_reservation <$> tn_drained t) ++ others) as Hp1.
    { unfold offered, others. rewrite !fmap_app. solve_Permutation. }
    destruct (start_group_ok t others l (loop_ok_perm _ _ _ Hp1 Hok) Hp) as (pool' & H). exists pool'.
    by apply (pool_ok_perm _ _ _ _ _ Hp1).
Qed.

Lemma gathering_ok t g pool l :
  loop_ok ((wm_reservation <$> offered t) ++ pool) l → wl_phase l = Gathering g →
  ∃ pool', pool_ok ((wm_reservation <$> offered t) ++ pool) l pool' (gathering_turn t g l).
Proof.
  intros Hok Hp. unfold gathering_turn.
  destruct (_ && _); [|eexists; by apply (finish_pool _ _ _ _ _ Hok (takes_none _ _ _ eq_refl) Hp)].
  set (waited := wm_reservation <$> match tn_wait t with Received m => [m] | _ => [] end).
  set (rest := (wm_reservation <$> option_list (tn_recv t)) ++ pool).
  assert ((wm_reservation <$> offered t) ++ pool ≡ₚ (wm_reservation <$> tn_drained t) ++ waited ++ rest) as Hp1.
  { unfold offered, waited, rest. rewrite !fmap_app. solve_Permutation. }
  destruct (drain_ok t (waited ++ rest) l (loop_ok_perm _ _ _ Hp1 Hok)) as (Hp' & pool' & Hd & Ht & Hopen & Hclosed);
    [by rewrite Hp..|].
  set (l1 := drain_writer_channel t l) in *. rewrite Hp in Hp'. rewrite (running_quiet pool' l1 Hd).
  assert (∀ p l', pool_ok ((wm_reservation <$> tn_drained t) ++ waited ++ rest) l p l' →
    ∃ pool', pool_ok ((wm_reservation <$> offered t) ++ pool) l pool' l') as Hout.
  { intros p l' H. exists p. by apply (pool_ok_perm _ _ _ _ _ Hp1). }
  set (next := if gr_control g then _ else _).
  assert (next = Some (None, wl_scheduler l1) ∨
    ∃ v s, next = Some (Some v, s) ∧ pops (wl_scheduler l1) v s) as Hnext.
  { unfold next. pose proof (proj1 (li_sched l1 (proj1 Hd))) as Hs. destruct (gr_control g).
    - by apply pop_control_for_group_spec.
    - destruct (pop_spec (tn_now t) _ Hs) as [(_ & _ & ->)|?]; [by left|by right]. }
  destruct Hnext as [->|(v & s & -> & Hv)].
  - rewrite set_scheduler_same. destruct (negb _); [by apply (Hout pool'), finish_pool|].
    destruct (wl_open l1) eqn:Ho; cbn [negb]; [|by apply (Hout pool'), finish_pool].
    destruct (_ =? 0); [by apply (Hout pool'), finish_pool|].
    destruct (tn_wait t) as [m| |] eqn:Ew; [|by apply (Hout pool'), finish_pool|].
    + assert (pool' = waited ++ rest) as Epool.
      { apply Hopen. destruct (wl_open l) eqn:Eo; [done|]. by specialize (Hclosed eq_refl). }
      unfold waited in Epool. cbn in Epool. rewrite Epool in Hd, Ht.
      destruct (receive_ok rest l1 m Hd) as (H1 & H2 & _); [by rewrite Hp'..|].
      apply (Hout rest). split; [done|]. by eapply takes_trans.
    + apply (Hout pool'), finish_pool; [by apply set_open_ok|done|done].
  - apply (Hout pool'). split; [|done]. apply (pop_joins pool' l1 s v); try done; [by rewrite Hp'|].
    cbn [add_message gr_messages]. unfold gathered. by rewrite Hp'.
Qed.

Lemma turn_ok t pool l :
  loop_ok ((wm_reservation <$> offered t) ++ pool) l →
  ∃ pool', pool_ok ((wm_reservation <$> offered t) ++ pool) l pool' (writer_turn l t).
Proof.
  intros Hok. unfold writer_turn. destruct (wl_phase l) eqn:E; [by apply outer_ok|by apply gathering_ok|..];
    eexists; (split; [exact Hok|by apply takes_none]).
Qed.

(** ** The system *)

Definition system_ok (s : WriterSystem) : Prop := loop_ok (sy_admitted s) (sy_loop s).

Lemma set_queue_inv l q : loop_inv l → loop_inv (l <| wl_queue := q |>).
Proof. by intros []. Qed.

Lemma system_step_ok s s' : system_ok s → system_step s s' → system_ok s'.
Proof.
  intros [Hinv Hq] Hs. destruct Hs as [l admitted r q Hr|l before r after q Hr|l admitted t delivered rest Hsub Hrec Hp];
    cbn [sy_loop sy_admitted] in *.
  - split; [by apply set_queue_inv|].
    exact (queue_ok_step _ _ (step_reserve _ _ r q Hr) Hq).
  - split; [by apply set_queue_inv|]. cbn [sy_admitted sy_loop]. rewrite <-app_assoc in Hq |- *.
    exact (queue_ok_step _ _ (step_release _ r _ _ q Hr) Hq).
  - apply submseteq_Permutation in Hsub as [k Hk].
    destruct (turn_ok t k l) as (pool' & Hok & (d & Ed & Hd)); [by apply (loop_ok_perm admitted); [|split]|].
    rewrite Hrec in Ed. apply app_inv_head in Ed as <-. eapply loop_ok_perm; [|exact Hok].
    apply (Permutation_app_inv_l (wm_reservation <$> delivered)). by rewrite <-Hd, <-Hk, <-Hp.
Qed.

(** A turn that the channel can offer is a step. *)
Lemma turn_enabled l admitted t :
  system_ok {| sy_loop := l; sy_admitted := admitted |} → (wm_reservation <$> offered t) ⊆+ admitted →
  ∃ rest, system_step {| sy_loop := l; sy_admitted := admitted |} {| sy_loop := writer_turn l t; sy_admitted := rest |}.
Proof.
  intros Hok Hsub. pose proof Hsub as [k Hk]%submseteq_Permutation.
  destruct (turn_ok t k l) as (pool' & _ & (d & Ed & Hd)); [by apply (loop_ok_perm admitted)|].
  exists pool'. apply (sys_turn l admitted t d pool'); [done..|]. by rewrite Hk.
Qed.

Lemma system_reachable_ok active w s : rtc system_step (system_start active w) s → system_ok s.
Proof.
  intros H. refine (rtc_ind_r system_ok (system_start active w) (start_ok active w) _ _ H).
  intros y z _ Hs Hy. by apply (system_step_ok y).
Qed.

(** C8: the writer thread against any request handlers, which reserve, give
    reservations back and send messages under them, and whatever faults its
    commits meet. It does not panic: not in the assertions of the scheduler,
    not in taking a message from it, not in returning a reservation. For every
    owner and class the messages answered, being gathered, dropped and still
    queued are, in this order, exactly the messages received; messages are
    dropped only when a commit fails fatally, and when the loop ends otherwise
    every message received was answered. An answer has one result per object.
    The account of the queue is the sum over the reservations of the handlers
    and of the messages in the loop, so an answered or dropped message holds
    none. *)
Theorem messages_answered_once active w (s : WriterSystem) (l := sy_loop s) :
  rtc system_step (system_start active w) s →
  wl_phase l ≠ Panicked ∧
  (∀ o c, lane message_owner message_class o c (wl_received l) =
          lane message_owner message_class o c (answered l ++ gathered l ++ wl_dropped l)
          ++ lane_queue o c (wl_scheduler l)) ∧
  (wl_phase l ≠ Fatal → wl_dropped l = []) ∧
  (wl_phase l = Ended → wl_received l ≡ₚ answered l) ∧
  Forall (λ mr, length (snd mr) = length (wm_objects (fst mr))) (wl_replies l) ∧
  queue_rep (sy_admitted s ++ (wm_reservation <$> gathered l ++ scheduled_messages (wl_scheduler l))) (wl_queue l) ∧
  queue_caps (wl_queue l).
Proof.
  intros H. apply system_reachable_ok in H as [[H1 H2 H3 H4 H5 H6] [Hq Hc]]. fold l in H1, H2, H3, H4, H5, H6, Hq, Hc.
  assert (∀ o c, lane message_owner message_class o c (wl_received l) =
    lane message_owner message_class o c (answered l ++ gathered l ++ wl_dropped l) ++ lane_queue o c (wl_scheduler l)) as Hl.
  { intros o c. rewrite <-(H3 o c). unfold lane_queue, queue_at. cbn [fs_default fs_owners]. by rewrite lookup_empty. }
  split_and!; try done. intros He. apply (lanes_perm message_owner message_class). intros o c.
  rewrite Hl, <-(lane_scheduled message_owner message_class) by done.
  rewrite H6, H5 by (rewrite He; auto). unfold gathered. rewrite He. by rewrite !app_nil_r.
Qed.

(** ** What an answer means *)

Lemma answer_effects answers l :
  ∃ n, wl_world (answer_messages answers l) = wl_world l ∧
    wl_replies (answer_messages answers l) = wl_replies l ++ take n answers.
Proof.
  revert l. induction answers as [|a answers IH]; intros l; cbn [answer_messages].
  - exists 0%nat. by rewrite app_nil_r.
  - destruct (drop_reservation _ _) as [q|]; [|exists 0%nat; by rewrite app_nil_r].
    destruct (IH (l <| wl_queue := q |> <| wl_replies := wl_replies l ++ [a] |>)) as (n & E1 & E2).
    exists (S n). rewrite E1, E2. cbn. by rewrite <-app_assoc.
Qed.

Lemma drop_effects ms l :
  wl_world (drop_messages ms l) = wl_world l ∧ wl_replies (drop_messages ms l) = wl_replies l.
Proof.
  revert l. induction ms as [|m ms IH]; intros l; cbn [drop_messages]; [done|].
  destruct (drop_reservation _ _) as [q|]; [|done]. by rewrite !(proj1 (IH _)), !(proj2 (IH _)).
Qed.

(** The world of the commit, and the answers it gave. *)
Lemma finish_effects messages l :
  let c := commit_objects (wl_active l) (fo_object <$> flatten_messages messages) (wl_world l) in
  ∃ n, wl_world (finish_group messages l) = snd c ∧
    wl_replies (finish_group messages l) =
      wl_replies l ++ take n (zip messages (separate messages (cr_results (fst (fst c))))).
Proof.
  cbv zeta. unfold finish_group. destruct (commit_objects _ _ _) as [[report active] w]. cbn [fst snd].
  destruct (answer_effects (zip messages (separate messages (cr_results report)))
    (l <| wl_phase := Outer |> <| wl_active := active |> <| wl_world := w |>)) as (n & E1 & E2).
  exists n. destruct (panicked _); [done|]. destruct (cr_fatal report); [|done].
  by rewrite !(proj1 (drop_effects _ _)), !(proj2 (drop_effects _ _)).
Qed.

Section answer.
Context (W : PackedObject → Prop).

(** C5: when a group of messages is committed, an object that its message is
    told is stored or already present is readable from then on, with content
    that is valid for its key, whatever faults the commit met. *)
Theorem acknowledged_message_readable g (l : WriterLoop) d i fates messages m rs j o r :
  wl_world l = world d fates i → alive W g d i (wl_active l) → as_id (wl_active l) < U64_MAX →
  Forall W (messages ≫= wm_objects) →
  group_fits (wl_active l) (stored_objects (world d fates i) (messages ≫= wm_objects)) →
  (m, rs) ∈ drop (length (wl_replies l)) (wl_replies (finish_group messages l)) →
  rs !! j = Some (Ok r) → wm_objects m !! j = Some o →
  let w' := wl_world (finish_group messages l) in
  ∃ o', W o' ∧ object_valid o' ∧ object_key o' = object_key o ∧
    fst (read (object_key o) (world (w_disk w') [] (w_index w'))) = Ok (Some (po_bytes o')).
Proof.
  intros Hw Ha Hid HW Hfit Hin Hr Ho.
  destruct (finish_effects messages l) as (n & Ew & Er). rewrite Er, drop_app_length in Hin. rewrite Ew.
  rewrite flatten_objects, Hw in *.
  pose proof (commit_results_length (wl_active l) (messages ≫= wm_objects) (world d fates i)) as Hlen.
  destruct (commit_objects _ _ _) as [[report active] w] eqn:E. cbn [fst snd] in *.
  apply elem_of_take in Hin as (k & Hin%list_elem_of_lookup_2 & _). rewrite separate_cut in Hin by done.
  destruct (cut_results_object _ _ m rs j (Ok r) o Hlen Hin Hr Ho) as (k' & Hn & Hno).
  by apply (commit_readable W g d i fates (wl_active l) (messages ≫= wm_objects) report active w k' o r).
Qed.
End answer.
End loop.
