(* ===== verification/Bulk.v ===== *)
(** src/crates/sync-server/src/bulk.rs: the binary messages of the bulk data
    plane. Hashes are checked, uploaded and downloaded in groups; the header of
    a message is at constant positions of its body, [usize] has 64 bits and an
    error is its message. The encoders of requests are those of the tests of
    that file, which stand for the client.

    The messages of the bulk data plane are canonical: a body is accepted
    exactly when it is the encoding of the message it decodes to, within the
    limits. The bitmap of a check response says what is needed. *)

From S2P Require Import Prelude Bytes Hash RootHead PackFormat PackFormatProps.
Local Open Scope N_scope.

(** * Constants *)

Definition CHECK_MAGIC : bytes := str "OBC1".
Definition CHECK_ACK_MAGIC : bytes := str "OBA1".
Definition PACK_MAGIC : bytes := str "OBP1".
Definition PACK_ACK_MAGIC : bytes := str "OBK1".
Definition GET_MAGIC : bytes := str "OBG1".
Definition DOWNLOAD_MAGIC : bytes := str "OBD1".

Definition CHECK_HEADER_BYTES : N := 9.
Definition PACK_HEADER_BYTES : N := 10.
Definition UPLOAD_HEADER_BYTES : N := 42.
Definition GET_HEADER_BYTES : N := 17.
Definition DOWNLOAD_HEADER_BYTES : N := 12.

(** * Data *)

Inductive ObjectKind := KContent | KContentChunk | KIndexChunk | KManifest.

#[global] Instance ObjectKind_eq_dec : EqDecision ObjectKind.
Proof. solve_decision. Defined.

Definition object_kind_code (k : ObjectKind) : byte :=
  match k with KContent => x00 | KContentChunk => x01 | KIndexChunk => x02 | KManifest => x03 end.
Definition object_kind (value : byte) : IoResult ObjectKind :=
  match value with
  | x00 => Ok KContent
  | x01 => Ok KContentChunk
  | x02 => Ok KIndexChunk
  | x03 => Ok KManifest
  | _ => Err "unknown object kind"%string
  end.

Record CheckRequest := { ck_kind : ObjectKind; ck_hashes : list FileHash }.

Record UploadRecord := {
  ur_kind : ObjectKind;
  ur_flags : byte;
  ur_hash : FileHash;
  ur_plain_len : N;
  ur_bytes : bytes;
}.

Record GetRequest := {
  gr_kind : ObjectKind;
  gr_cursor : N;
  gr_max_response_bytes : N;
  gr_hashes : list FileHash;
}.

Inductive UploadStatus := UStored | UAlreadyPresent | UBadHash | URejectedLimit | URetryableStorageError.

Definition upload_status_code (s : UploadStatus) : byte :=
  match s with
  | UStored => x00
  | UAlreadyPresent => x01
  | UBadHash => x02
  | URejectedLimit => x03
  | URetryableStorageError => x04
  end.

(** * Fields *)

(** [u32::try_from(len)]. *)
Definition u32_try (n : N) (message : string) : IoResult N :=
  if n <=? U32_MAX then Ok n else Err message.

Definition require_magic (body expected : bytes) : IoResult unit :=
  if bool_decide (get_range body 0 4 = Some expected) then Ok tt
  else Err "invalid bulk message magic"%string.

Definition read_u16 (body : bytes) (offset : N) : IoResult N :=
  let? b := ok_or (get_range body offset (offset + 2)) "truncated u16"%string in Ok (le_val b).
Definition read_u32 (body : bytes) (offset : N) : IoResult N :=
  let? b := ok_or (get_range body offset (offset + 4)) "truncated u32"%string in Ok (le_val b).

(** [body[offset]], where the header was measured. *)
Definition read_u8 (body : bytes) (offset : N) : byte := nth (N.to_nat offset) body x00.

(** [chunks_exact(32)] of a body that was measured. *)
Fixpoint split_hashes (count : nat) (b : bytes) : list FileHash :=
  match count with
  | O => []
  | S count => take 32 b :: split_hashes count (drop 32 b)
  end.

(** * Bitmaps *)

Definition bitmap_bytes (count : N) : IoResult N :=
  let? v := ok_or (checked_add64 count 7) "bitmap length overflow"%string in Ok (v / 8).

Definition bitmap_get (bitmap : bytes) (index : N) : bool :=
  match bitmap !! N.to_nat (index / 8) with
  | Some b => N.testbit (b2n b) (index mod 8)
  | None => false
  end.

Definition bitmap_set (bitmap : bytes) (index : N) : bytes :=
  alter (λ b, n2b (N.lor (b2n b) (N.shiftl 1 (index mod 8)))) (N.to_nat (index / 8)) bitmap.

(** * Checks *)

Definition decode_check_request (body : bytes) (max_objects : N) : IoResult CheckRequest :=
  let? _ := require_magic body CHECK_MAGIC in
  if len body <? CHECK_HEADER_BYTES then Err "truncated check header"%string
  else
    let? kind := object_kind (read_u8 body 4) in
    let? count := read_u32 body 5 in
    if max_objects <? count then Err "check object count exceeds limit"%string
    else
      let? hash_len := ok_or (checked_mul64 count 32) "check hash length overflow"%string in
      let? expected := ok_or (checked_add64 CHECK_HEADER_BYTES hash_len) "check length overflow"%string in
      if negb (len body =? expected) then Err "check body length mismatch"%string
      else Ok {| ck_kind := kind;
                 ck_hashes := split_hashes (N.to_nat count) (dropN CHECK_HEADER_BYTES body) |}.

Definition encode_check_request (kind : ObjectKind) (hashes : list FileHash) : IoResult bytes :=
  let? count := u32_try (len hashes) "check request count overflow" in
  let? hash_len := ok_or (checked_mul64 (len hashes) 32) "check request length overflow"%string in
  let? _ := ok_or (checked_add64 CHECK_HEADER_BYTES hash_len) "check request length overflow"%string in
  Ok (CHECK_MAGIC ++ [object_kind_code kind] ++ le_bytes 4 count ++ concat hashes).

(** The loop over [needed.iter().enumerate()]. *)
Fixpoint set_needed (bitmap : bytes) (index : N) (needed : list bool) : bytes :=
  match needed with
  | [] => bitmap
  | is_needed :: needed =>
      set_needed (if is_needed : bool then bitmap_set bitmap index else bitmap) (index + 1) needed
  end.

Definition encode_check_response (needed : list bool) : IoResult bytes :=
  let? count := u32_try (len needed) "check response count overflow" in
  let? bitmap_len := bitmap_bytes (len needed) in
  Ok (CHECK_ACK_MAGIC ++ le_bytes 4 count ++ set_needed (repeat x00 (N.to_nat bitmap_len)) 0 needed).

(** * Packs *)

(** [count] turns of the loop of [decode_upload_pack], from [cursor]: the
    records and the last cursor. *)
Fixpoint upload_loop (body : bytes) (count : nat) (cursor : N) : IoResult (list UploadRecord * N) :=
  match count with
  | O => Ok ([], cursor)
  | S count =>
      let? header_end := ok_or (checked_add64 cursor UPLOAD_HEADER_BYTES)
                           "upload record cursor overflow"%string in
      if len body <? header_end then Err "truncated upload record header"%string
      else
        let? kind := object_kind (read_u8 body cursor) in
        let record_flags := read_u8 body (cursor + 1) in
        let hash := slice body (cursor + 2) (cursor + 34) in
        let? plain_len := read_u32 body (cursor + 34) in
        let? stored_len := read_u32 body (cursor + 38) in
        let? data_end := ok_or (checked_add64 header_end stored_len)
                           "upload stored length overflow"%string in
        if len body <? data_end then Err "truncated upload record bytes"%string
        else
          let record := {| ur_kind := kind; ur_flags := record_flags; ur_hash := hash;
                           ur_plain_len := plain_len; ur_bytes := slice body header_end data_end |} in
          let? rest := upload_loop body count data_end in
          Ok (record :: fst rest, snd rest)
  end.

Definition decode_upload_pack (body : bytes) (max_objects max_request_bytes : N)
    : IoResult (list UploadRecord) :=
  if max_request_bytes <? len body then Err "upload pack exceeds byte limit"%string
  else
    let? _ := require_magic body PACK_MAGIC in
    if len body <? PACK_HEADER_BYTES then Err "truncated upload pack header"%string
    else
      let? flags := read_u16 body 4 in
      if negb (flags =? 0) then Err "unsupported upload pack flags"%string
      else
        let? count := read_u32 body 6 in
        if max_objects <? count then Err "upload object count exceeds limit"%string
        else
          let? headers := ok_or (checked_mul64 count UPLOAD_HEADER_BYTES)
                            "upload record header overflow"%string in
          let? minimum := ok_or (checked_add64 PACK_HEADER_BYTES headers)
                            "upload minimum length overflow"%string in
          if len body <? minimum then Err "truncated upload record headers"%string
          else
            let? rest := upload_loop body (N.to_nat count) PACK_HEADER_BYTES in
            if negb (snd rest =? len body) then Err "trailing bytes after upload pack"%string
            else Ok (fst rest).

Definition encoded_pack_step (total : N) (r : UploadRecord) : IoResult N :=
  ok_or (checked_add64 total UPLOAD_HEADER_BYTES ≫= λ v, checked_add64 v (len (ur_bytes r)))
    "encoded upload pack length overflow"%string.

Fixpoint encoded_pack_loop (total : N) (records : list UploadRecord) : IoResult N :=
  match records with
  | [] => Ok total
  | r :: records => let? total := encoded_pack_step total r in encoded_pack_loop total records
  end.

Definition encoded_pack_len (records : list UploadRecord) : IoResult N :=
  encoded_pack_loop PACK_HEADER_BYTES records.

Definition upload_record_bytes (r : UploadRecord) : bytes :=
  [object_kind_code (ur_kind r); ur_flags r] ++ ur_hash r ++ le_bytes 4 (ur_plain_len r)
  ++ le_bytes 4 (len (ur_bytes r)) ++ ur_bytes r.

Fixpoint encode_records (records : list UploadRecord) : IoResult bytes :=
  match records with
  | [] => Ok []
  | r :: records =>
      let? _ := u32_try (len (ur_bytes r)) "upload record length overflow" in
      let? rest := encode_records records in
      Ok (upload_record_bytes r ++ rest)
  end.

Definition encode_upload_pack (records : list UploadRecord) : IoResult bytes :=
  let? count := u32_try (len records) "upload pack count overflow" in
  let? _ := encoded_pack_len records in
  let? body := encode_records records in
  Ok (PACK_MAGIC ++ le_bytes 2 0 ++ le_bytes 4 count ++ body).

Definition encode_upload_ack (statuses : list UploadStatus) : IoResult bytes :=
  let? count := u32_try (len statuses) "upload ack count overflow" in
  Ok (PACK_ACK_MAGIC ++ le_bytes 4 count ++ (upload_status_code <$> statuses)).

(** * Downloads *)

Definition decode_get_request (body : bytes) (max_objects : N) : IoResult GetRequest :=
  let? _ := require_magic body GET_MAGIC in
  if len body <? GET_HEADER_BYTES then Err "truncated bulk get header"%string
  else
    let? kind := object_kind (read_u8 body 4) in
    let? count := read_u32 body 5 in
    if max_objects <? count then Err "bulk get object count exceeds limit"%string
    else
      let? cursor := read_u32 body 9 in
      if count <? cursor then Err "bulk get cursor exceeds count"%string
      else
        let? max_response_bytes := read_u32 body 13 in
        let? hash_len := ok_or (checked_mul64 count 32) "bulk get hash length overflow"%string in
        let? expected := ok_or (checked_add64 GET_HEADER_BYTES hash_len)
                           "bulk get length overflow"%string in
        if negb (len body =? expected) then Err "bulk get body length mismatch"%string
        else Ok {| gr_kind := kind; gr_cursor := cursor; gr_max_response_bytes := max_response_bytes;
                   gr_hashes := split_hashes (N.to_nat count) (dropN GET_HEADER_BYTES body) |}.

Definition encode_get_request (kind : ObjectKind) (hashes : list FileHash) (cursor max_response_bytes : N)
    : IoResult bytes :=
  if len hashes <? cursor then Err "bulk get cursor exceeds count"%string
  else
    let? count := u32_try (len hashes) "bulk get request count overflow" in
    let? hash_len := ok_or (checked_mul64 (len hashes) 32) "bulk get request length overflow"%string in
    let? _ := ok_or (checked_add64 GET_HEADER_BYTES hash_len) "bulk get request length overflow"%string in
    Ok (GET_MAGIC ++ [object_kind_code kind] ++ le_bytes 4 count ++ le_bytes 4 cursor
        ++ le_bytes 4 max_response_bytes ++ concat hashes).

Definition encode_download_response (request_count next_cursor : N) (remaining : bytes)
    (records : list UploadRecord) : IoResult bytes :=
  if request_count <? next_cursor then Err "download cursor exceeds request count"%string
  else
    let? bitmap_len := bitmap_bytes request_count in
    if negb (len remaining =? bitmap_len) then Err "download remaining bitmap length mismatch"%string
    else
      let? count := u32_try request_count "download request count overflow" in
      let? cursor := u32_try next_cursor "download cursor overflow" in
      let? pack := encode_upload_pack records in
      let? _ := ok_or (checked_add64 DOWNLOAD_HEADER_BYTES (len remaining) ≫= λ v, checked_add64 v (len pack))
                  "download response length overflow"%string in
      Ok (DOWNLOAD_MAGIC ++ le_bytes 4 count ++ le_bytes 4 cursor ++ remaining ++ pack).


(** * Positions *)

Lemma slice_dropN_app s a b : a ≤ b → slice s a b ++ dropN b s = dropN a s.
Proof.
  intros H. unfold slice, dropN. rewrite <-(take_drop (N.to_nat (b - a)) (drop (N.to_nat a) s)) at 2.
  f_equal. rewrite drop_drop. f_equal. lia.
Qed.

Lemma dropN_cons s i : i < len s → read_u8 s i :: dropN (i + 1) s = dropN i s.
Proof.
  unfold len, read_u8, dropN. intros H. replace (N.to_nat (i + 1)) with (S (N.to_nat i)) by lia.
  destruct (lookup_lt_is_Some_2 s (N.to_nat i)) as [b Hb]; [lia|].
  rewrite (drop_S s b (N.to_nat i)) by done. f_equal. by apply nth_lookup_Some.
Qed.

Lemma read_u8_skip a b i : read_u8 (a ++ b) (len a + i) = read_u8 b i.
Proof.
  unfold read_u8, len. rewrite app_nth2 by lia. f_equal. lia.
Qed.

Lemma slice_skip_len a b i j : slice (a ++ b) (len a + i) (len a + j) = slice b i j.
Proof. rewrite (slice_skip a b (len a)) by lia. f_equal; lia. Qed.

Lemma get_range_skip a b i j : i ≤ j → get_range (a ++ b) (len a + i) (len a + j) = get_range b i j.
Proof.
  intros H. unfold get_range. rewrite slice_skip_len, len_app.
  destruct (N.leb_spec (len a + i) (len a + j)), (N.leb_spec i j),
    (N.leb_spec (len a + j) (len a + len b)), (N.leb_spec j (len b)); done || lia.
Qed.

Lemma get_range_Some s i j b : get_range s i j = Some b ↔ i ≤ j ∧ j ≤ len s ∧ slice s i j = b.
Proof.
  unfold get_range. destruct (N.leb_spec i j), (N.leb_spec j (len s)); cbn; naive_solver lia.
Qed.

Lemma read_u32_Ok s i n : read_u32 s i = Ok n ↔ i + 4 ≤ len s ∧ n = le_val (slice s i (i + 4)).
Proof.
  unfold read_u32. destruct (get_range s i (i + 4)) as [b|] eqn:E; cbn.
  - apply get_range_Some in E as (_ & H & <-). naive_solver.
  - split; [done|]. intros [H _]. assert (get_range s i (i + 4) = Some (slice s i (i + 4))) by (apply get_range_Some; split_and!; [lia|done|done]).
    congruence.
Qed.

Lemma read_u32_skip a b i : read_u32 (a ++ b) (len a + i) = read_u32 b i.
Proof. unfold read_u32. by rewrite <-N.add_assoc, get_range_skip by lia. Qed.

(** A field of four bytes is the encoding of its value. *)
Lemma field32 s i : i + 4 ≤ len s → le_bytes 4 (le_val (slice s i (i + 4))) = slice s i (i + 4) ∧
  le_val (slice s i (i + 4)) ≤ U32_MAX.
Proof.
  intros H. pose proof (len_slice s i (i + 4) ltac:(lia) H) as Hl. split.
  - apply le_bytes_le_val. unfold len in Hl. lia.
  - pose proof (le_val_bound (slice s i (i + 4))) as Hb. rewrite Hl in Hb.
    replace (i + 4 - i) with 4 in Hb by lia. change (256 ^ 4) with (U32_MAX + 1) in Hb. lia.
Qed.

Lemma le_val4 n : n ≤ U32_MAX → le_val (le_bytes 4 n) = n.
Proof. intros H. apply le_val_le_bytes. change (256 ^ N.of_nat 4) with (U32_MAX + 1). lia. Qed.

Lemma object_kind_Ok b k : object_kind b = Ok k ↔ b = object_kind_code k.
Proof. split; [|intros ->; by destruct k]. unfold object_kind. destruct b; naive_solver. Qed.

Lemma u32_try_Ok n message m : u32_try n message = Ok m ↔ m = n ∧ n ≤ U32_MAX.
Proof. unfold u32_try. destruct (N.leb_spec n U32_MAX); naive_solver lia. Qed.

Lemma require_magic_Ok body m u : len m = 4 → require_magic body m = Ok u ↔ ∃ rest, body = m ++ rest.
Proof.
  intros Hm. destruct u. unfold require_magic. case_bool_decide as H.
  - split; [intros _|done]. apply get_range_Some in H as (_ & _ & <-).
    exists (dropN 4 body). by rewrite slice_dropN_app.
  - split; [done|]. intros [rest ->]. destruct H. apply (get_range_mid [] m rest); [done|]. by rewrite Hm.
Qed.

(** Sums that fit into 64 bits. *)
Lemma checked_add64_Ok (a b c : N) (m : string) : ok_or (checked_add64 a b) m = Ok c ↔ c = a + b ∧ a + b ≤ U64_MAX.
Proof. unfold checked_add64. destruct (N.leb_spec (a + b) U64_MAX); cbn; naive_solver lia. Qed.
Lemma checked_mul64_Ok (a b c : N) (m : string) : ok_or (checked_mul64 a b) m = Ok c ↔ c = a * b ∧ a * b ≤ U64_MAX.
Proof. unfold checked_mul64. destruct (N.leb_spec (a * b) U64_MAX); cbn; naive_solver lia. Qed.

Lemma Ok_inj {E A} (a b : A) : @Ok E A a = Ok b → a = b.
Proof. congruence. Qed.

Lemma bind_Ok {E A B} (m : result E A) (k : A → result E B) b :
  (let? a := m in k a) = Ok b ↔ ∃ a, m = Ok a ∧ k a = Ok b.
Proof. destruct m; cbn; naive_solver. Qed.

Lemma if_Err_Ok {E A} (c : bool) (e : E) (m : result E A) b : (if c then Err e else m) = Ok b ↔ c = false ∧ m = Ok b.
Proof. destruct c; naive_solver. Qed.

(** * Lists of hashes *)

Abbreviation hashes_ok := (Forall (λ h : bytes, len h = 32)).

Lemma len_concat_hashes hs : hashes_ok hs → len (concat hs) = len hs * 32.
Proof.
  induction 1 as [|h hs Hh _ IH]; [done|]. cbn [concat]. rewrite len_app, Hh, IH. unfold len. cbn [length]. lia.
Qed.

Lemma split_concat hs : hashes_ok hs → split_hashes (length hs) (concat hs) = hs.
Proof.
  induction 1 as [|h hs Hh _ IH]; [done|]. cbn [length split_hashes concat].
  assert (length h = 32%nat) as Hl by (unfold len in Hh; lia).
  rewrite <-Hl, take_app_length, drop_app_length. by rewrite IH.
Qed.

Lemma concat_split n b : length b = (32 * n)%nat →
  concat (split_hashes n b) = b ∧ hashes_ok (split_hashes n b) ∧ length (split_hashes n b) = n.
Proof.
  revert b. induction n as [|n IH]; intros b Hb; cbn [split_hashes concat length].
  - split_and!; [|constructor|done]. destruct b; [done|discriminate].
  - destruct (IH (drop 32 b)) as (H1 & H2 & H3); [rewrite length_drop; lia|].
    rewrite H1, take_drop. split_and!; [done| |by rewrite H3].
    constructor; [|done]. unfold len. rewrite length_take. lia.
Qed.

(** * Check requests *)

Lemma len_CHECK_MAGIC : len CHECK_MAGIC = 4. Proof. done. Qed.
Lemma len_GET_MAGIC : len GET_MAGIC = 4. Proof. done. Qed.
Lemma len_PACK_MAGIC : len PACK_MAGIC = 4. Proof. done. Qed.
Lemma len_DOWNLOAD_MAGIC : len DOWNLOAD_MAGIC = 4. Proof. done. Qed.
#[local] Hint Rewrite len_CHECK_MAGIC len_GET_MAGIC len_PACK_MAGIC len_DOWNLOAD_MAGIC
  @len_app @len_cons @len_nil len_le_bytes : lens.

(** Lengths of messages. *)
Ltac lens :=
  autorewrite with lens in *;
  unfold CHECK_HEADER_BYTES, GET_HEADER_BYTES, PACK_HEADER_BYTES, UPLOAD_HEADER_BYTES, DOWNLOAD_HEADER_BYTES in *;
  lia.

(** A check request is accepted exactly when it is the encoding of what it
    asks for. *)
Lemma check_request_canonical body max_objects r :
  decode_check_request body max_objects = Ok r ↔
  hashes_ok (ck_hashes r) ∧ len (ck_hashes r) ≤ max_objects ∧
  encode_check_request (ck_kind r) (ck_hashes r) = Ok body.
Proof.
  unfold decode_check_request, encode_check_request. split.
  - rewrite bind_Ok. intros ([] & Hm & H). apply require_magic_Ok in Hm as [rest Hbody]; [|done].
    rewrite if_Err_Ok in H. destruct H as [Hlen H]. apply N.ltb_ge in Hlen.
    apply bind_Ok in H as (kind & Hk & H). apply object_kind_Ok in Hk.
    apply bind_Ok in H as (count & Hc & H). apply read_u32_Ok in Hc as [Hc Hcount].
    apply if_Err_Ok in H as [Hmax H]. apply N.ltb_ge in Hmax.
    apply bind_Ok in H as (hl & Hhl & H). apply checked_mul64_Ok in Hhl as [-> Hmul].
    apply bind_Ok in H as (ex & Hex & H). apply checked_add64_Ok in Hex as [-> Hadd].
    apply if_Err_Ok in H as [Heq H]. apply negb_false_iff, N.eqb_eq in Heq. injection H as <-.
    cbn [ck_kind ck_hashes].
    destruct (field32 body 5 Hc) as [Hf Hb]. rewrite <-Hcount in Hf, Hb.
    destruct (concat_split (N.to_nat count) (dropN CHECK_HEADER_BYTES body)) as (H1 & H2 & H3).
    { unfold dropN, len, CHECK_HEADER_BYTES in *. rewrite length_drop. lia. }
    assert (len (split_hashes (N.to_nat count) (dropN CHECK_HEADER_BYTES body)) = count) as Hn.
    { unfold len. rewrite H3. lia. }
    split; [done|].
    rewrite Hn. split; [done|].
    apply bind_Ok. exists count. split; [by apply u32_try_Ok|].
    apply bind_Ok. exists (count * 32). split; [by apply checked_mul64_Ok|].
    apply bind_Ok. exists (CHECK_HEADER_BYTES + count * 32). split; [by apply checked_add64_Ok|].
    rewrite H1, Hf, <-Hk. f_equal.
    assert (CHECK_MAGIC = slice body 0 4) as ->.
    { rewrite Hbody. symmetry. by apply slice_hit. }
    change CHECK_HEADER_BYTES with (5 + 4) in *. rewrite (slice_dropN_app body 5 (5 + 4)) by done.
    change (dropN 5 body) with (dropN (4 + 1) body). cbn [app]. rewrite dropN_cons by lia.
    by rewrite slice_dropN_app.
  - intros (Hh & Hmax & H). apply bind_Ok in H as (count & [-> Hu]%u32_try_Ok & H).
    apply bind_Ok in H as (hl & [-> Hmul]%checked_mul64_Ok & H).
    apply bind_Ok in H as (ex & [-> Hadd]%checked_add64_Ok & H). apply Ok_inj in H as <-.
    apply bind_Ok. exists tt. split; [apply require_magic_Ok; [done|]; by eexists|].
    pose proof (len_concat_hashes _ Hh) as Hcat.
    rewrite if_Err_Ok, N.ltb_ge. split; [lens|]. apply bind_Ok. exists (ck_kind r). split; [by apply object_kind_Ok|].
    apply bind_Ok. exists (len (ck_hashes r)). split.
    { apply read_u32_Ok. split; [lens|]. rewrite app_assoc, slice_mid; [by rewrite le_val4|lens..]. }
    rewrite if_Err_Ok, N.ltb_ge. split; [done|].
    apply bind_Ok. exists (len (ck_hashes r) * 32). split; [by apply checked_mul64_Ok|].
    apply bind_Ok. exists (CHECK_HEADER_BYTES + len (ck_hashes r) * 32). split; [by apply checked_add64_Ok|].
    rewrite if_Err_Ok, negb_false_iff, N.eqb_eq. split; [lens|]. f_equal. destruct r as [k hs].
    cbn [ck_kind ck_hashes] in *. f_equal. rewrite !app_assoc, dropN_app by lens.
    unfold len. rewrite Nat2N.id. by apply split_concat.
Qed.

(** * Download requests *)

(** The hashes at the end of a request. *)
Lemma tail_hashes body header count :
  len body = header + count * 32 →
  let hs := split_hashes (N.to_nat count) (dropN header body) in
  concat hs = dropN header body ∧ hashes_ok hs ∧ len hs = count.
Proof.
  intros Hb. cbn zeta. destruct (concat_split (N.to_nat count) (dropN header body)) as (H1 & H2 & H3).
  { unfold dropN, len in *. rewrite length_drop. lia. }
  split_and!; [done..|]. unfold len. rewrite H3. lia.
Qed.

Lemma split_tail hs prefix header :
  hashes_ok hs → len prefix = header → split_hashes (N.to_nat (len hs)) (dropN header (prefix ++ concat hs)) = hs.
Proof. intros Hh Hp. rewrite dropN_app by done. unfold len. rewrite Nat2N.id. by apply split_concat. Qed.

(** The same for a request to download. *)
Lemma get_request_canonical body max_objects r :
  decode_get_request body max_objects = Ok r ↔
  hashes_ok (gr_hashes r) ∧ len (gr_hashes r) ≤ max_objects ∧ gr_max_response_bytes r ≤ U32_MAX ∧
  encode_get_request (gr_kind r) (gr_hashes r) (gr_cursor r) (gr_max_response_bytes r) = Ok body.
Proof.
  unfold decode_get_request, encode_get_request. split.
  - rewrite bind_Ok. intros ([] & Hm & H). apply require_magic_Ok in Hm as [rest Hbody]; [|done].
    rewrite if_Err_Ok in H. destruct H as [Hlen H]. apply N.ltb_ge in Hlen.
    apply bind_Ok in H as (kind & Hk%object_kind_Ok & H).
    apply bind_Ok in H as (count & [Hc Hcount]%read_u32_Ok & H).
    apply if_Err_Ok in H as [Hmax%N.ltb_ge H].
    apply bind_Ok in H as (cursor & [Hcu Hcursor]%read_u32_Ok & H).
    apply if_Err_Ok in H as [Hle%N.ltb_ge H].
    apply bind_Ok in H as (budget & [Hbu Hbudget]%read_u32_Ok & H).
    apply bind_Ok in H as (hl & [-> Hmul]%checked_mul64_Ok & H).
    apply bind_Ok in H as (ex & [-> Hadd]%checked_add64_Ok & H).
    apply if_Err_Ok in H as [Heq%negb_false_iff%N.eqb_eq H]. injection H as <-.
    cbn [gr_kind gr_hashes gr_cursor gr_max_response_bytes].
    destruct (field32 body 5 Hc) as [Hf1 Hb1], (field32 body 9 Hcu) as [Hf2 Hb2], (field32 body 13 Hbu) as [Hf3 Hb3].
    rewrite <-Hcount in Hf1, Hb1. rewrite <-Hcursor in Hf2, Hb2. rewrite <-Hbudget in Hf3, Hb3.
    destruct (tail_hashes body GET_HEADER_BYTES count Heq) as (H1 & H2 & H3).
    rewrite H3. split_and!; [done..|]. rewrite if_Err_Ok, N.ltb_ge. split; [done|].
    apply bind_Ok. exists count. split; [by apply u32_try_Ok|].
    apply bind_Ok. exists (count * 32). split; [by apply checked_mul64_Ok|].
    apply bind_Ok. exists (GET_HEADER_BYTES + count * 32). split; [by apply checked_add64_Ok|].
    rewrite H1, Hf1, Hf2, Hf3, <-Hk. f_equal.
    assert (GET_MAGIC = slice body 0 4) as -> by (rewrite Hbody; symmetry; by apply slice_hit).
    change GET_HEADER_BYTES with (13 + 4) in *.
    rewrite (slice_dropN_app body 13 (13 + 4)) by done.
    change (dropN 13 body) with (dropN (9 + 4) body). rewrite (slice_dropN_app body 9 (9 + 4)) by done.
    change (dropN 9 body) with (dropN (5 + 4) body). rewrite (slice_dropN_app body 5 (5 + 4)) by done.
    change (dropN 5 body) with (dropN (4 + 1) body). cbn [app]. rewrite dropN_cons by lia.
    by rewrite slice_dropN_app.
  - intros (Hh & Hmax & Hbu & H). apply if_Err_Ok in H as [Hcu%N.ltb_ge H].
    apply bind_Ok in H as (count & [-> Hu]%u32_try_Ok & H).
    apply bind_Ok in H as (hl & [-> Hmul]%checked_mul64_Ok & H).
    apply bind_Ok in H as (ex & [-> Hadd]%checked_add64_Ok & H). apply Ok_inj in H as <-.
    pose proof (len_concat_hashes _ Hh) as Hcat.
    apply bind_Ok. exists tt. split; [apply require_magic_Ok; [done|]; by eexists|].
    rewrite if_Err_Ok, N.ltb_ge. split; [lens|].
    apply bind_Ok. exists (gr_kind r). split; [by apply object_kind_Ok|].
    apply bind_Ok. exists (len (gr_hashes r)). split.
    { apply read_u32_Ok. split; [lens|]. rewrite app_assoc, slice_mid; [by rewrite le_val4|lens..]. }
    rewrite if_Err_Ok, N.ltb_ge. split; [done|].
    apply bind_Ok. exists (gr_cursor r). split.
    { apply read_u32_Ok. split; [lens|].
      epose proof (slice_mid (GET_MAGIC ++ [_] ++ le_bytes 4 _) (le_bytes 4 (gr_cursor r)) _ 9 (9 + 4)
        ltac:(lens) ltac:(lens)) as Hs. rewrite <-!app_assoc in Hs. rewrite Hs, le_val4; [done|lia]. }
    rewrite if_Err_Ok, N.ltb_ge. split; [done|].
    apply bind_Ok. exists (gr_max_response_bytes r). split.
    { apply read_u32_Ok. split; [lens|].
      epose proof (slice_mid (GET_MAGIC ++ [_] ++ le_bytes 4 _ ++ le_bytes 4 _)
        (le_bytes 4 (gr_max_response_bytes r)) _ 13 (13 + 4) ltac:(lens) ltac:(lens)) as Hs.
      rewrite <-!app_assoc in Hs. by rewrite Hs, le_val4. }
    apply bind_Ok. exists (len (gr_hashes r) * 32). split; [by apply checked_mul64_Ok|].
    apply bind_Ok. exists (GET_HEADER_BYTES + len (gr_hashes r) * 32). split; [by apply checked_add64_Ok|].
    rewrite if_Err_Ok, negb_false_iff, N.eqb_eq. split; [lens|]. f_equal. destruct r as [k cu bu hs].
    cbn [gr_kind gr_hashes gr_cursor gr_max_response_bytes] in *. f_equal. rewrite !app_assoc.
    apply split_tail; [done|]. lens.
Qed.

(** * Packs *)

Definition upload_record_ok (r : UploadRecord) : Prop :=
  len (ur_hash r) = 32 ∧ ur_plain_len r ≤ U32_MAX ∧ len (ur_bytes r) ≤ U32_MAX.

Definition pack_bytes (rs : list UploadRecord) : bytes := concat (upload_record_bytes <$> rs).

Lemma pack_bytes_cons r rs : pack_bytes (r :: rs) = upload_record_bytes r ++ pack_bytes rs.
Proof. done. Qed.

Lemma len_upload_record r : len (ur_hash r) = 32 → len (upload_record_bytes r) = UPLOAD_HEADER_BYTES + len (ur_bytes r).
Proof. intros Hh. unfold upload_record_bytes. lens. Qed.

Lemma encode_records_Ok rs b :
  encode_records rs = Ok b ↔ Forall (λ r, len (ur_bytes r) ≤ U32_MAX) rs ∧ b = pack_bytes rs.
Proof.
  revert b. induction rs as [|r rs IH]; intros b; cbn [encode_records].
  - unfold pack_bytes. cbn. split; [intros [= <-]; split; [constructor|done]|by intros [_ ->]].
  - rewrite bind_Ok. setoid_rewrite u32_try_Ok. setoid_rewrite bind_Ok. setoid_rewrite IH. rewrite Forall_cons.
    unfold pack_bytes. cbn. naive_solver.
Qed.

Lemma encoded_pack_loop_Ok total rs n :
  Forall upload_record_ok rs →
  encoded_pack_loop total rs = Ok n ↔ n = total + len (pack_bytes rs) ∧ (rs ≠ [] → n ≤ U64_MAX).
Proof.
  intros Hrs. revert total n. induction Hrs as [|r rs Hr Hrs IH]; intros total n; cbn [encoded_pack_loop].
  - unfold pack_bytes. cbn. rewrite len_nil, N.add_0_r. naive_solver.
  - rewrite bind_Ok. setoid_rewrite IH. unfold encoded_pack_step, pack_bytes. cbn [fmap list_fmap concat].
    fold (pack_bytes rs). rewrite len_app, len_upload_record by apply Hr. unfold checked_add64.
    destruct (N.leb_spec (total + UPLOAD_HEADER_BYTES) U64_MAX); cbn.
    2:{ split; [intros (? & [=] & _)|]. intros [-> H']. specialize (H' ltac:(done)). lia. }
    destruct (N.leb_spec (total + UPLOAD_HEADER_BYTES + len (ur_bytes r)) U64_MAX); cbn.
    2:{ split; [intros (? & [=] & _)|]. intros [-> H']. specialize (H' ltac:(done)). lia. }
    split.
    + intros (? & [= <-] & -> & H'). split; [lia|]. intros _. destruct rs; [|by apply H'].
      unfold pack_bytes. cbn. rewrite len_nil. lia.
    + intros [-> H']. eexists. split; [done|]. split; [lia|]. intros _. by apply H'.
Qed.

(** The fields of a record, from the start of the rest of a body. *)
Definition record_at (rest : bytes) (kind : ObjectKind) : UploadRecord :=
  {| ur_kind := kind; ur_flags := read_u8 rest 1; ur_hash := slice rest 2 34;
     ur_plain_len := le_val (slice rest 34 38);
     ur_bytes := slice rest 42 (42 + le_val (slice rest 38 42)) |}.

Lemma record_at_bytes rest kind :
  read_u8 rest 0 = object_kind_code kind → 42 + le_val (slice rest 38 42) ≤ len rest →
  upload_record_ok (record_at rest kind) ∧
  len (ur_bytes (record_at rest kind)) = le_val (slice rest 38 42) ∧
  rest = upload_record_bytes (record_at rest kind) ++ dropN (42 + le_val (slice rest 38 42)) rest.
Proof.
  intros Hk Hlen. destruct (field32 rest 34 ltac:(lia)) as [Hf1 Hb1], (field32 rest 38 ltac:(lia)) as [Hf2 Hb2].
  change (34 + 4) with 38 in *. change (38 + 4) with 42 in *.
  assert (len (ur_bytes (record_at rest kind)) = le_val (slice rest 38 42)) as Hd.
  { cbn [record_at ur_bytes]. rewrite len_slice; lia. }
  split_and!; [|done|].
  - split_and!; cbn [record_at ur_hash ur_plain_len]; [rewrite len_slice; lia|done|]. by rewrite Hd.
  - unfold upload_record_bytes. rewrite Hd, Hf2. cbn [record_at ur_kind ur_flags ur_hash ur_plain_len ur_bytes].
    rewrite Hf1, <-Hk, <-!app_assoc, !slice_dropN_app by lia.
    change (dropN 2 rest) with (dropN (1 + 1) rest). cbn [app].
    rewrite dropN_cons by lia. change (dropN 1 rest) with (dropN (0 + 1) rest). by rewrite dropN_cons by lia.
Qed.

Lemma record_at_record r tail :
  upload_record_ok r → record_at (upload_record_bytes r ++ tail) (ur_kind r) = r ∧
  read_u8 (upload_record_bytes r ++ tail) 0 = object_kind_code (ur_kind r) ∧
  le_val (slice (upload_record_bytes r ++ tail) 38 42) = len (ur_bytes r).
Proof.
  intros (Hh & Hp & Hb). unfold upload_record_bytes. rewrite <-!app_assoc.
  set (front := [object_kind_code (ur_kind r); ur_flags r]). assert (len front = 2) as Hf by done.
  assert (slice (front ++ ur_hash r ++ le_bytes 4 (ur_plain_len r) ++ le_bytes 4 (len (ur_bytes r))
    ++ ur_bytes r ++ tail) 2 34 = ur_hash r) as E1 by (apply slice_mid; [done|lens]).
  pose proof (slice_mid (front ++ ur_hash r) (le_bytes 4 (ur_plain_len r))
    (le_bytes 4 (len (ur_bytes r)) ++ ur_bytes r ++ tail) 34 38 ltac:(lens) ltac:(lens)) as E2.
  pose proof (slice_mid (front ++ ur_hash r ++ le_bytes 4 (ur_plain_len r)) (le_bytes 4 (len (ur_bytes r)))
    (ur_bytes r ++ tail) 38 42 ltac:(lens) ltac:(lens)) as E3.
  pose proof (slice_mid (front ++ ur_hash r ++ le_bytes 4 (ur_plain_len r) ++ le_bytes 4 (len (ur_bytes r)))
    (ur_bytes r) tail 42 (42 + len (ur_bytes r)) ltac:(lens) ltac:(lens)) as E4.
  repeat rewrite <-app_assoc in E2. repeat rewrite <-app_assoc in E3. repeat rewrite <-app_assoc in E4. unfold record_at.
  rewrite E1, E2, E3, !le_val4, E4 by done. split_and!; [by destruct r|done|done].
Qed.

(** One turn of the loop, from the rest of the body. *)
Lemma upload_loop_S pre rest n rs e :
  upload_loop (pre ++ rest) (S n) (len pre) = Ok (rs, e) ↔
  ∃ kind rs', let stored := le_val (slice rest 38 42) in
    rs = record_at rest kind :: rs' ∧ read_u8 rest 0 = object_kind_code kind ∧
    42 + stored ≤ len rest ∧ len pre + 42 + stored ≤ U64_MAX ∧
    upload_loop (pre ++ rest) n (len pre + 42 + stored) = Ok (rs', e).
Proof.
  cbn [upload_loop].
  assert (read_u8 (pre ++ rest) (len pre) = read_u8 rest 0) as E0.
  { rewrite <-(read_u8_skip pre rest 0). by rewrite N.add_0_r. }
  rewrite E0, read_u8_skip, !read_u32_skip, slice_skip_len, len_app. change UPLOAD_HEADER_BYTES with 42. split.
  - intros H. apply bind_Ok in H as (he & [-> H1]%checked_add64_Ok & H). apply if_Err_Ok in H as [H2%N.ltb_ge H].
    apply bind_Ok in H as (kind & Hk%object_kind_Ok & H). cbn zeta in H.
    apply bind_Ok in H as (pl & [H3 ->]%read_u32_Ok & H). apply bind_Ok in H as (sl & [H4 ->]%read_u32_Ok & H).
    apply bind_Ok in H as (de & [-> H5]%checked_add64_Ok & H). apply if_Err_Ok in H as [H6%N.ltb_ge H].
    apply bind_Ok in H as ([rs' e'] & H7 & H). apply Ok_inj in H. injection H as <- <-.
    change (38 + 4) with 42 in *. exists kind, rs'. split_and!; [|done|lia|done|done].
    f_equal. unfold record_at. f_equal. by rewrite <-N.add_assoc, slice_skip_len.
  - intros (kind & rs' & -> & Hk & H1 & H2 & H3). change (38 + 4) with 42 in *.
    apply bind_Ok. exists (len pre + 42). split; [apply checked_add64_Ok; lia|].
    apply if_Err_Ok. rewrite N.ltb_ge. split; [lia|].
    apply bind_Ok. exists kind. split; [by apply object_kind_Ok|]. cbn zeta.
    apply bind_Ok. eexists. split; [apply read_u32_Ok; split; [lia|done]|].
    apply bind_Ok. eexists. split; [apply read_u32_Ok; split; [lia|done]|].
    apply bind_Ok. eexists. split; [apply checked_add64_Ok; split; [done|done]|].
    apply if_Err_Ok. rewrite N.ltb_ge. change (38 + 4) with 42. split; [lia|].
    apply bind_Ok. exists (rs', e). split; [done|]. cbn. f_equal. f_equal. f_equal. unfold record_at. f_equal.
    by rewrite <-N.add_assoc, slice_skip_len.
Qed.

Lemma upload_loop_Ok n pre rest rs e :
  upload_loop (pre ++ rest) n (len pre) = Ok (rs, e) ↔
  length rs = n ∧ Forall upload_record_ok rs ∧ e = len pre + len (pack_bytes rs) ∧ (rs ≠ [] → e ≤ U64_MAX) ∧
  ∃ tail, rest = pack_bytes rs ++ tail.
Proof.
  revert pre rest rs. induction n as [|n IH]; intros pre rest rs.
  - cbn [upload_loop]. split.
    + intros [= <- <-]. split_and!; [done|constructor| |done|by exists rest]. unfold pack_bytes. cbn. by rewrite len_nil, N.add_0_r.
    + intros (Hl & _ & -> & _). destruct rs; [|done]. unfold pack_bytes. cbn. by rewrite len_nil, N.add_0_r.
  - rewrite upload_loop_S. cbn zeta. split.
    + intros (kind & rs' & -> & Hk & Hlen & Hmax & Hrest).
      destruct (record_at_bytes rest kind Hk Hlen) as (Hr & Hd & Hsplit). rewrite Hsplit in Hrest at 1.
      rewrite app_assoc in Hrest.
      assert (len pre + 42 + le_val (slice rest 38 42) = len (pre ++ upload_record_bytes (record_at rest kind))) as E.
      { rewrite len_app, len_upload_record by apply Hr. rewrite Hd. change UPLOAD_HEADER_BYTES with 42. lia. }
      rewrite E in Hrest, Hmax. apply IH in Hrest as (Hl & Hrs & -> & He & tail & Ht).
      split_and!; [by rewrite <-Hl|by constructor| | |].
      * rewrite pack_bytes_cons, !len_app. lia.
      * intros _. destruct rs'; [|by apply He]. change (pack_bytes []) with (@nil byte). rewrite len_nil. lia.
      * exists tail. by rewrite pack_bytes_cons, <-app_assoc, <-Ht.
    + intros (Hl & Hrs & He & Hmax & tail & ->). destruct rs as [|r rs]; [done|].
      apply Forall_cons in Hrs as [Hr Hrs]. injection Hl as Hl. specialize (Hmax ltac:(done)).
      rewrite pack_bytes_cons in *. rewrite len_app, (len_upload_record r (proj1 Hr)) in He. change UPLOAD_HEADER_BYTES with 42 in He.
      destruct (record_at_record r (pack_bytes rs ++ tail) Hr) as (E1 & E2 & E3).
      rewrite <-app_assoc. exists (ur_kind r), rs. rewrite E1, E2, E3. split_and!; [done|done| |lia|].
      * rewrite len_app, (len_upload_record r (proj1 Hr)). change UPLOAD_HEADER_BYTES with 42. lia.
      * rewrite app_assoc.
        replace (len pre + 42 + len (ur_bytes r)) with (len (pre ++ upload_record_bytes r)).
        2:{ rewrite len_app, (len_upload_record r (proj1 Hr)). change UPLOAD_HEADER_BYTES with 42. lia. }
        apply IH. split_and!; [done|done| |by intros _|by exists tail].
        rewrite len_app, (len_upload_record r (proj1 Hr)). change UPLOAD_HEADER_BYTES with 42. lia.
Qed.

Lemma upload_pack_decoded body max_objects max_request_bytes rs :
  max_request_bytes ≤ U64_MAX →
  decode_upload_pack body max_objects max_request_bytes = Ok rs →
  Forall upload_record_ok rs ∧ len rs ≤ max_objects ∧ len body ≤ max_request_bytes ∧
  encode_upload_pack rs = Ok body.
Proof.
  intros Hu64. unfold decode_upload_pack, encode_upload_pack.
  rewrite if_Err_Ok, N.ltb_ge. intros [Hreq H].
  apply bind_Ok in H as ([] & Hm & H). apply require_magic_Ok in Hm as [rest Hbody]; [|done].
  apply if_Err_Ok in H as [Hlen%N.ltb_ge H]. change PACK_HEADER_BYTES with (6 + 4) in *.
  apply bind_Ok in H as (flags & Hfl & H). unfold read_u16 in Hfl.
  apply bind_Ok in Hfl as (fb & Hfb & Hfl). apply Ok_inj in Hfl as <-.
  destruct (get_range body 4 (4 + 2)) as [b|] eqn:Eb; [|done]. apply Ok_inj in Hfb as ->.
  apply get_range_Some in Eb as (_ & _ & <-).
  apply if_Err_Ok in H as [Hz%negb_false_iff%N.eqb_eq H].
  apply bind_Ok in H as (count & [Hc Hcount]%read_u32_Ok & H).
  apply if_Err_Ok in H as [Hmax%N.ltb_ge H].
  apply bind_Ok in H as (hl & [-> Hmul]%checked_mul64_Ok & H).
  apply bind_Ok in H as (minimum & [-> Hadd]%checked_add64_Ok & H).
  apply if_Err_Ok in H as [Hmin%N.ltb_ge H].
  apply bind_Ok in H as ([rs' e] & Hloop & H). apply if_Err_Ok in H as [He%negb_false_iff%N.eqb_eq H].
  apply Ok_inj in H as <-. cbn [fst snd] in *.
  destruct (field32 body 6 Hc) as [Hf Hb]. rewrite <-Hcount in Hf, Hb.
  assert (body = takeN (6 + 4) body ++ dropN (6 + 4) body) as Hsplit.
  { unfold takeN, dropN. by rewrite take_drop. }
  assert (len (takeN (6 + 4) body) = 6 + 4) as Hfront by (rewrite len_takeN; lia).
  assert (upload_loop (takeN (6 + 4) body ++ dropN (6 + 4) body) (N.to_nat count) (len (takeN (6 + 4) body)) = Ok (rs', e))
    as Hloop' by (by rewrite <-Hsplit, Hfront). apply upload_loop_Ok in Hloop' as (Hl & Hrs & Hend & Hmax' & tail & Ht).
  rewrite Hfront in Hend.
  assert (tail = []) as ->.
  { apply len_0. pose proof (f_equal len Ht) as E. rewrite len_app, len_dropN in E. lia. }
  rewrite app_nil_r in Ht.
  assert (len rs' = count) as Hn by (unfold len; lia).
  split_and!; [done|lia|done|]. rewrite Hn.
  apply bind_Ok. exists count. split; [by apply u32_try_Ok|].
  apply bind_Ok. exists e. split.
  { apply encoded_pack_loop_Ok; [done|]. split; [done|]. intros _. lia. }
  apply bind_Ok. exists (pack_bytes rs'). split.
  { apply encode_records_Ok. split; [|done]. eapply Forall_impl; [done|]. by intros r (_ & _ & ?). }
  rewrite Hf, <-Ht. f_equal. change (6 + 4) with (4 + 2 + 4) in *.
  rewrite (slice_dropN_app body 6 (4 + 2 + 4)) by done.
  assert (le_bytes 2 0 = slice body 4 (4 + 2)) as ->.
  { rewrite <-Hz. apply le_bytes_le_val. pose proof (len_slice body 4 (4 + 2)) as E. unfold len in *. lia. }
  change (dropN 6 body) with (dropN (4 + 2) body). rewrite slice_dropN_app by done.
  assert (PACK_MAGIC = slice body 0 4) as -> by (rewrite Hbody; symmetry; by apply slice_hit).
  by rewrite slice_dropN_app.
Qed.

Lemma upload_pack_encoded body max_objects max_request_bytes rs :
  max_request_bytes ≤ U64_MAX →
  Forall upload_record_ok rs ∧ len rs ≤ max_objects ∧ len body ≤ max_request_bytes ∧
  encode_upload_pack rs = Ok body →
  decode_upload_pack body max_objects max_request_bytes = Ok rs.
Proof.
  intros Hu64. unfold decode_upload_pack, encode_upload_pack.
  intros (Hrs & Hmax & Hreq & H).
  apply bind_Ok in H as (count & [-> Hu]%u32_try_Ok & H).
  apply bind_Ok in H as (total & Htotal & H). apply encoded_pack_loop_Ok in Htotal as [-> Htotal]; [|done].
  apply bind_Ok in H as (pb & [_ ->]%encode_records_Ok & H). apply Ok_inj in H as <-.
  rewrite if_Err_Ok, N.ltb_ge. split; [done|].
  apply bind_Ok. exists tt. split; [apply require_magic_Ok; [done|]; by eexists|].
  rewrite if_Err_Ok, N.ltb_ge. split; [lens|].
  apply bind_Ok. exists 0. split.
  { unfold read_u16. apply bind_Ok. exists (le_bytes 2 0). split; [|done].
    rewrite (get_range_mid PACK_MAGIC (le_bytes 2 0)); done. }
  apply if_Err_Ok. split; [done|].
  apply bind_Ok. exists (len rs). split.
  { apply read_u32_Ok. split; [lens|]. rewrite app_assoc, slice_mid; [by rewrite le_val4|done|by rewrite len_le_bytes]. }
  assert (len rs * UPLOAD_HEADER_BYTES ≤ len (pack_bytes rs)) as Hheads.
  { clear -Hrs. induction Hrs as [|r rs Hr _ IH]; [done|].
    rewrite pack_bytes_cons, len_app, len_cons, (len_upload_record r (proj1 Hr)). lia. }
  rewrite if_Err_Ok, N.ltb_ge. split; [done|].
  apply bind_Ok. exists (len rs * UPLOAD_HEADER_BYTES). split; [apply checked_mul64_Ok; split; [done|lens]|].
  apply bind_Ok. eexists. split; [apply checked_add64_Ok; split; [done|lens]|].
  rewrite if_Err_Ok, N.ltb_ge. split; [lens|].
  apply bind_Ok. exists (rs, PACK_HEADER_BYTES + len (pack_bytes rs)). split.
  + rewrite !app_assoc. set (front := (PACK_MAGIC ++ le_bytes 2 0) ++ le_bytes 4 (len rs)).
    assert (len front = PACK_HEADER_BYTES) as <- by done.
    apply upload_loop_Ok. split_and!; [unfold len; lia|done|done| |exists []; by rewrite app_nil_r].
    intros Hne. by apply Htotal.
  + cbn [fst snd]. rewrite if_Err_Ok, negb_false_iff, N.eqb_eq. split; [lens|done].
Qed.

(** An upload pack is accepted exactly when it is the encoding of its records,
    within the limits. *)
Lemma upload_pack_canonical body max_objects max_request_bytes rs :
  max_request_bytes ≤ U64_MAX →
  decode_upload_pack body max_objects max_request_bytes = Ok rs ↔
  Forall upload_record_ok rs ∧ len rs ≤ max_objects ∧ len body ≤ max_request_bytes ∧
  encode_upload_pack rs = Ok body.
Proof. intros Hu64. split; [by apply upload_pack_decoded|by apply upload_pack_encoded]. Qed.

(** C35: The requests of the bulk data plane are canonical. A check, a
    download request or an upload pack is accepted exactly when it is the
    encoding of the message it decodes to, within the limits: two bodies
    never mean the same request, nothing may follow a message, and whatever
    the encoders produce within the limits is accepted and read back. *)
Theorem bulk_requests_canonical body max_objects max_request_bytes :
  max_request_bytes ≤ U64_MAX →
  (∀ r, decode_check_request body max_objects = Ok r ↔
     hashes_ok (ck_hashes r) ∧ len (ck_hashes r) ≤ max_objects ∧
     encode_check_request (ck_kind r) (ck_hashes r) = Ok body) ∧
  (∀ r, decode_get_request body max_objects = Ok r ↔
     hashes_ok (gr_hashes r) ∧ len (gr_hashes r) ≤ max_objects ∧ gr_max_response_bytes r ≤ U32_MAX ∧
     encode_get_request (gr_kind r) (gr_hashes r) (gr_cursor r) (gr_max_response_bytes r) = Ok body) ∧
  (∀ rs, decode_upload_pack body max_objects max_request_bytes = Ok rs ↔
     Forall upload_record_ok rs ∧ len rs ≤ max_objects ∧ len body ≤ max_request_bytes ∧
     encode_upload_pack rs = Ok body).
Proof.
  intros Hu. split; [|split]; intros r;
    [apply check_request_canonical|apply get_request_canonical|by apply upload_pack_canonical].
Qed.

Definition bulk_sample : UploadRecord :=
  {| ur_kind := KContent; ur_flags := x00; ur_hash := repeat x07 32; ur_plain_len := 3; ur_bytes := str "abc" |}.
Definition bulk_body : bytes := match encode_upload_pack [bulk_sample] with Ok b => b | Err _ => [] end.

(** One record, and the same body with a byte after it. *)
Lemma bulk_requests_canonical_witness :
  decode_upload_pack bulk_body 256 1000 = Ok [bulk_sample] ∧
  is_ok (decode_upload_pack (bulk_body ++ [x00]) 256 1000) = false.
Proof.
  split; [|vm_compute; reflexivity].
  apply (bulk_requests_canonical bulk_body 256 1000); [done|]. split; [|split; [|split]].
  - apply Forall_singleton. by vm_compute.
  - done.
  - done.
  - vm_compute. reflexivity.
Defined.

(** * Bitmaps *)

Lemma len_bitmap_set bitmap i : len (bitmap_set bitmap i) = len bitmap.
Proof. unfold len, bitmap_set. by rewrite length_alter. Qed.

Lemma index_split i j : i / 8 = j / 8 → i mod 8 = j mod 8 → i = j.
Proof. intros H1 H2. rewrite (N.div_mod i 8), (N.div_mod j 8) by done. by rewrite H1, H2. Qed.

Lemma bitmap_get_set bitmap i j :
  i / 8 < len bitmap → bitmap_get (bitmap_set bitmap i) j = bool_decide (i = j) || bitmap_get bitmap j.
Proof.
  unfold bitmap_get, bitmap_set, len. intros Hi.
  destruct (decide (i / 8 = j / 8)) as [E|E].
  - rewrite <-E, list_lookup_alter_eq.
    destruct (lookup_lt_is_Some_2 bitmap (N.to_nat (i / 8))) as [b Hb]; [lia|]. rewrite Hb. cbn.
    assert (N.lor (b2n b) (N.shiftl 1 (i mod 8)) < 2 ^ 8) as Hlt.
    { pose proof (b2n_bound b) as Hb'.
      pose proof (N.mod_lt i 8 ltac:(done)) as Hm. rewrite N.shiftl_1_l.
      destruct (N.eq_0_gt_0_cases (N.lor (b2n b) (2 ^ (i mod 8)))) as [->|Hpos]; [done|].
      apply N.log2_lt_pow2; [lia|]. rewrite N.log2_lor. apply N.max_lub_lt.
      - destruct (N.eq_0_gt_0_cases (b2n b)) as [->|]; [done|]. apply N.log2_lt_pow2; [lia|]. by change (2 ^ 8) with 256.
      - by rewrite N.log2_pow2 by apply N.le_0_l. }
    rewrite b2n_n2b, N.mod_small by done. rewrite N.lor_spec, N.shiftl_1_l, N.pow2_bits_eqb.
    rewrite orb_comm. f_equal. destruct (N.eqb_spec (i mod 8) (j mod 8)) as [Em|Em].
    + symmetry. apply bool_decide_eq_true_2. by apply index_split.
    + symmetry. apply bool_decide_eq_false_2. congruence.
  - rewrite list_lookup_alter_ne by lia. rewrite bool_decide_eq_false_2 by congruence. done.
Qed.

Lemma set_needed_spec needed bitmap start j :
  (start + len needed + 7) / 8 ≤ len bitmap →
  len (set_needed bitmap start needed) = len bitmap ∧
  bitmap_get (set_needed bitmap start needed) j =
    bitmap_get bitmap j || (start <=? j) && default false (needed !! N.to_nat (j - start)).
Proof.
  revert bitmap start. induction needed as [|b needed IH]; intros bitmap start Hlen; cbn [set_needed].
  { split; [done|]. destruct (N.to_nat (j - start)); cbn; by rewrite andb_false_r, orb_false_r. }
  rewrite len_cons in Hlen.
  assert (start / 8 < len bitmap) as Hs.
  { apply N.lt_le_trans with ((start + 8) / 8).
    - replace (start + 8) with (start + 1 * 8) by lia. rewrite N.div_add by done. lia.
    - etrans; [|exact Hlen]. apply N.Div0.div_le_mono. lia. }
  destruct (IH (if b then bitmap_set bitmap start else bitmap) (start + 1)) as [IH1 IH2].
  { replace (start + 1 + len needed + 7) with (start + (1 + len needed) + 7) by lia.
    destruct b; [by rewrite len_bitmap_set|done]. }
  split; [rewrite IH1; destruct b; [apply len_bitmap_set|done]|]. rewrite IH2. clear IH1 IH2 IH.
  destruct (N.lt_trichotomy start j) as [Hj|[->|Hj]].
  - replace (start + 1 <=? j) with true by (symmetry; apply N.leb_le; lia).
    replace (start <=? j) with true by (symmetry; apply N.leb_le; lia).
    replace (N.to_nat (j - start)) with (S (N.to_nat (j - (start + 1)))) by lia. cbn [lookup list_lookup].
    destruct b; [|done]. rewrite bitmap_get_set by done. by rewrite bool_decide_eq_false_2 by lia.
  - replace (j + 1 <=? j) with false by (symmetry; apply N.leb_gt; lia).
    rewrite N.leb_refl, N.sub_diag. cbn. rewrite orb_false_r.
    destruct b; [|by rewrite orb_false_r]. rewrite bitmap_get_set, bool_decide_eq_true_2 by done. by rewrite orb_true_r.
  - replace (start + 1 <=? j) with false by (symmetry; apply N.leb_gt; lia).
    replace (start <=? j) with false by (symmetry; apply N.leb_gt; lia). cbn. rewrite !orb_false_r.
    destruct b; [|done]. rewrite bitmap_get_set by done. by rewrite bool_decide_eq_false_2 by lia.
Qed.

Lemma bitmap_get_zero n j : bitmap_get (repeat x00 n) j = false.
Proof.
  unfold bitmap_get. destruct (repeat x00 n !! N.to_nat (j / 8)) as [b|] eqn:E; [|done].
  apply list_elem_of_lookup_2, list_elem_of_In, repeat_spec in E as ->. apply N.bits_0.
Qed.

(** The response to a check: its bits are the answers, and no other is set. *)
Lemma check_response_bits needed response :
  encode_check_response needed = Ok response →
  ∃ bitmap, response = CHECK_ACK_MAGIC ++ le_bytes 4 (len needed) ++ bitmap ∧
    len bitmap = (len needed + 7) / 8 ∧
    ∀ j, bitmap_get bitmap j = default false (needed !! N.to_nat j).
Proof.
  unfold encode_check_response. intros H. apply bind_Ok in H as (count & [-> Hu]%u32_try_Ok & H).
  apply bind_Ok in H as (bl & Hbl & H). apply Ok_inj in H as <-.
  unfold bitmap_bytes in Hbl. apply bind_Ok in Hbl as (v & [-> Hv]%checked_add64_Ok & Hbl). apply Ok_inj in Hbl as <-.
  eexists. split; [done|].
  assert (len (repeat x00 (N.to_nat ((len needed + 7) / 8))) = (len needed + 7) / 8) as Hlen.
  { unfold len at 1. rewrite repeat_length. lia. }
  split.
  - destruct (set_needed_spec needed (repeat x00 (N.to_nat ((len needed + 7) / 8))) 0 0) as [-> _]; [|done].
    by rewrite Hlen, N.add_0_l.
  - intros j. destruct (set_needed_spec needed (repeat x00 (N.to_nat ((len needed + 7) / 8))) 0 j) as [_ ->];
      [by rewrite Hlen, N.add_0_l|].
    rewrite bitmap_get_zero, N.sub_0_r. cbn. destruct (N.leb_spec 0 j); [done|lia].
Qed.
