(* ===== verification/Objects.v ===== *)
(** src/crates/sync-server/src/api.rs, the object endpoints: content, chunks,
    index chunks and manifests, one at a time and in bulk.

    The storage writer is the class [ObjectStore], which the pack store
    implements ([ObjectsStore]); a handler threads its state. The text of
    error messages is shortened; counters and the pool of blocking threads are
    left out. A reservation is released when its admission is
    dropped, after the run of the handler. [serde_json] at the type of
    manifests is the class [WireManifestJson], and the array of strings of the
    legacy checks the class [HashArrayJson], both without a law. *)

From S2P Require Import Prelude Bytes Hash RootHead RootOutcome PackFormat PackStore StorageWriter WriterQueue Bulk.
Local Open Scope N_scope.

Abbreviation Internal := RootOutcome.Internal.

Definition BULK_REQUEST_BYTES : N := 8 * 1024 * 1024.
Definition BULK_OBJECTS : N := 256.
Definition BULK_OBJECT_BYTES : N := 1024 * 1024 - 1.
Definition STORAGE_CONTROL_BYTES : N := 8 * 1024 * 1024.
Definition HTTP_STORAGE_PAYLOAD_COPIES : N := 2.
Definition LEGACY_HASH_CHECK_REQUEST_BYTES : N := 128 * 1024.
Definition LEGACY_HASH_CHECK_ITEMS : N := 1000.
Definition MAX_CONTENT_CHUNK_BYTES : N := 4 * 1024 * 1024.
Definition MAX_MANIFEST_CHUNKS : N := 1000000.

(** * The storage writer *)

Class ObjectStore (S : Type) := {
  ob_contains : ObjectKey → S → bool * S;
  ob_read : ObjectKey → S → result PackReadError (option bytes) * S;
  ob_reserve : WriterOwner → WriterClass → N → S → result WriterError unit * S;
  ob_submit : list PackedObject → S → result WriterError (list StoreResult) * S;
}.

(** * Manifests *)

Record WireContentChunkRef := { wc_hash : bytes; wc_offset : N; wc_size : N }.
Record WireContentManifest := {
  wm_file_hash : bytes;
  wm_total_size : N;
  wm_chunks : list WireContentChunkRef;
}.

Class WireManifestJson := {
  wm_decode : bytes → option WireContentManifest;
  wm_encode : WireContentManifest → bytes;
}.

Class HashArrayJson := { string_array : bytes → option (list bytes) }.

Definition storage_object_kind (kind : ObjectKind) : PackedObjectKind :=
  match kind with
  | KContent => Content
  | KContentChunk => ContentChunk
  | KIndexChunk => IndexChunk
  | KManifest => Manifest
  end.

Definition storage_key (kind : PackedObjectKind) (hash : FileHash) : ObjectKey :=
  {| ok_kind := kind; ok_hash := hash |}.

Definition upload_status (r : StoreResult) : UploadStatus :=
  match r with
  | Ok Stored => UStored
  | Ok AlreadyPresent => UAlreadyPresent
  | Err (InvalidObject _) => UBadHash
  | Err _ => URetryableStorageError
  end.

Definition storage_writer_error (e : WriterError) : ServerError :=
  match e with
  | InvalidObject message => BadRequest message
  | _ => ServiceUnavailable "storage writer"
  end.

Section objects.
Context {B3 : Blake3} {HX : Hex} {WJ : WireManifestJson} {HJ : HashArrayJson}.
Context {S : Type} {OS : ObjectStore S}.
Abbreviation Api := (St S ServerError).

Definition contains_object (kind : PackedObjectKind) (hash : FileHash) : Api bool := λ s,
  match ob_contains (storage_key kind hash) s with (b, s) => (Ok b, s) end.

(** [writer.read(..).ok().flatten()]. *)
Definition read_if_any (kind : PackedObjectKind) (hash : FileHash) : Api (option bytes) := λ s,
  match ob_read (storage_key kind hash) s with
  | (Ok found, s) => (Ok found, s)
  | (Err _, s) => (Ok None, s)
  end.

Definition read_stored_object (kind : PackedObjectKind) (hash : FileHash) : Api (option bytes) := λ s,
  match ob_read (storage_key kind hash) s with
  | (Ok found, s) => (Ok found, s)
  | (Err _, s) => (Err (Internal "read failed"), s)
  end.

(** [admit_object_request]: the bytes that are reserved. *)
Definition admit_object_request (owner : bytes) (kind : PackedObjectKind) (size : N) : Api N :=
  let! retained := st_lift (ok_or (checked_mul64 size HTTP_STORAGE_PAYLOAD_COPIES)
                              (PayloadTooLarge "HTTP storage workset overflow")) in
  let class := if bool_decide (kind = IndexChunk) && (retained <=? STORAGE_CONTROL_BYTES)
               then Control else WriterQueue.Bulk in
  let! owner := st_lift (map_err storage_writer_error (authenticated owner)) in
  λ s, match ob_reserve owner class (N.max retained 1) s with
       | (Ok _, s) => (Ok (N.max retained 1), s)
       | (Err e, s) => (Err (storage_writer_error e), s)
       end.

(** [StorageWriter::store_admitted] with an admission of [reserved] bytes. *)
Definition store_admitted (reserved : N) (objects : list PackedObject) (s : S)
    : result WriterError (list StoreResult) * S :=
  if bool_decide (objects = []) then (Ok [], s)
  else match batch_reservation_bytes objects with
       | Err e => (Err e, s)
       | Ok size => if reserved <? size
                    then (Err (InvalidObject "prepared batch exceeds its request admission"), s)
                    else ob_submit objects s
       end.

Definition store_one_object (reserved : N) (kind : PackedObjectKind) (hash : FileHash) (data : bytes)
    : Api StoreOutcome := λ s,
  match store_admitted reserved [{| po_kind := kind; po_hash := hash; po_bytes := data |}] s with
  | (Err e, s) => (Err (storage_writer_error e), s)
  | (Ok results, s) =>
      (let? r := ok_or (last results) (Internal "storage writer returned no object result") in
       map_err storage_writer_error r, s)
  end.

(** ** Validation *)

(** The loop of [validate_content_manifest_structure]: the hashes of the
    chunks and the offset after the last one. *)
Fixpoint manifest_layout (total_size expected_offset : N) (chunks : list WireContentChunkRef)
    : IoResult (list FileHash * N) :=
  match chunks with
  | [] => Ok ([], expected_offset)
  | chunk :: chunks =>
      if negb (wc_offset chunk =? expected_offset) || (wc_size chunk =? 0)
         || (MAX_CONTENT_CHUNK_BYTES <? wc_size chunk)
      then Err "invalid manifest chunk layout"%string
      else
        let? expected_offset := ok_or (checked_add64 expected_offset (wc_size chunk))
                                  "manifest size overflow"%string in
        if total_size <? expected_offset then Err "manifest chunks exceed total_size"%string
        else
          let? hash := map_err (λ _, "invalid chunk hash"%string) (hex_to_hash (wc_hash chunk)) in
          let? rest := manifest_layout total_size expected_offset chunks in
          Ok (hash :: fst rest, snd rest)
  end.

Definition validate_content_manifest_structure (expected_file_hash : FileHash) (m : WireContentManifest)
    : IoResult (list FileHash) :=
  let? declared := map_err (λ _, "invalid manifest file_hash"%string) (hex_to_hash (wm_file_hash m)) in
  if negb (beq declared expected_file_hash)
  then Err "manifest file_hash does not match request path"%string
  else if MAX_MANIFEST_CHUNKS <? len (wm_chunks m) then Err "manifest has too many chunks"%string
  else if (0 <? wm_total_size m) && bool_decide (wm_chunks m = [])
  then Err "non-empty manifest has no chunks"%string
  else
    let? layout := manifest_layout (wm_total_size m) 0 (wm_chunks m) in
    if negb (snd layout =? wm_total_size m) then Err "manifest chunks do not cover total_size"%string
    else if (wm_total_size m =? 0) && negb (beq expected_file_hash (hash_bytes []))
    then Err "empty manifest does not match file_hash"%string
    else Ok (fst layout).

(** The loop of [validate_content_manifest_with_loader]: the bytes the
    hasher has absorbed. *)
Fixpoint validate_chunks (load_chunk : FileHash → Api (option bytes)) (absorbed : bytes)
    (chunks : list (WireContentChunkRef * FileHash)) : Api bytes :=
  match chunks with
  | [] => st_ret absorbed
  | (chunk, chunk_hash) :: chunks =>
      let! found := load_chunk chunk_hash in
      match found with
      | None => st_err (BadRequest "manifest chunk is missing")
      | Some data =>
          if negb (len data =? wc_size chunk) || negb (beq (hash_bytes data) chunk_hash)
          then st_err (BadRequest "manifest chunk failed size/hash validation")
          else validate_chunks load_chunk (absorbed ++ data) chunks
      end
  end.

Definition validate_content_manifest_with_loader (expected_file_hash : FileHash) (m : WireContentManifest)
    (load_chunk : FileHash → Api (option bytes)) : Api unit :=
  let! chunk_hashes := st_lift (map_err BadRequest (validate_content_manifest_structure expected_file_hash m)) in
  let! absorbed := validate_chunks load_chunk [] (zip (wm_chunks m) chunk_hashes) in
  if negb (beq (hash_bytes absorbed) expected_file_hash)
  then st_err (BadRequest "manifest chunks do not hash to file_hash")
  else st_ret tt.

Definition validate_content_manifest (expected_file_hash : FileHash) (m : WireContentManifest) : Api unit :=
  validate_content_manifest_with_loader expected_file_hash m (read_if_any ContentChunk).

(** [chunks.iter().all(|chunk| writer.contains(..))], which stops at the first
    that is missing. *)
Fixpoint contains_all (chunks : list FileHash) : Api bool :=
  match chunks with
  | [] => st_ret true
  | chunk :: chunks =>
      let! found := contains_object ContentChunk chunk in
      if found : bool then contains_all chunks else st_ret false
  end.

Definition stored_manifest_is_usable (file_hash : FileHash) : Api bool :=
  let! found := read_if_any Manifest file_hash in
  match found ≫= wm_decode with
  | None => st_ret false
  | Some m => match validate_content_manifest_structure file_hash m with
              | Ok chunk_hashes => contains_all chunk_hashes
              | Err _ => st_ret false
              end
  end.

(** ** One object at a time *)

Definition parse_path_hash (hash_hex : bytes) : result ServerError FileHash :=
  map_err (λ _, BadRequest "invalid hash") (hex_to_hash hash_hex).

(** The bodies of [get_chunk], [get_content] and [get_content_chunk], which
    differ in the kind. *)
Definition get_object (kind : PackedObjectKind) (hash_hex : bytes) : Api bytes :=
  let! hash := st_lift (parse_path_hash hash_hex) in
  let! data := read_stored_object kind hash in
  st_lift (ok_or data (NotFoundError "object not found")).
Definition get_chunk := get_object IndexChunk.
Definition get_content := get_object Content.
Definition get_content_chunk := get_object ContentChunk.

(** The bodies of [put_chunk], [put_content] and [put_content_chunk]. *)
Definition put_object (kind : PackedObjectKind) (device hash_hex body : bytes) : Api unit :=
  let! expected := st_lift (parse_path_hash hash_hex) in
  let! admission := admit_object_request device kind (len body) in
  if negb (beq expected (hash_bytes body)) then st_err (BadRequest "hash mismatch")
  else
    let! _ := store_one_object admission kind expected body in
    st_ret tt.
Definition put_chunk := put_object IndexChunk.
Definition put_content := put_object Content.
Definition put_content_chunk := put_object ContentChunk.

Definition get_manifest (hash_hex : bytes) : Api bytes :=
  let! hash := st_lift (parse_path_hash hash_hex) in
  let! data := read_stored_object Manifest hash in
  let! data := st_lift (ok_or data (NotFoundError "manifest not found")) in
  let! m := st_lift (ok_or (wm_decode data) (Internal "corrupt manifest")) in
  let! chunk_hashes := st_lift (map_err Internal (validate_content_manifest_structure hash m)) in
  let! complete := contains_all chunk_hashes in
  if complete : bool then st_ret data else st_err (Internal "manifest references a missing chunk").

Definition put_manifest (device hash_hex body : bytes) : Api unit :=
  let! hash := st_lift (parse_path_hash hash_hex) in
  let! admission := admit_object_request device Manifest (len body) in
  let! m := st_lift (ok_or (wm_decode body) (BadRequest "invalid manifest")) in
  let! _ := validate_content_manifest hash m in
  let! _ := store_one_object admission Manifest hash (wm_encode m) in
  st_ret tt.

(** ** Legacy checks *)

(** The items of [LegacyHashCheckBatch], [count] before this one. *)
Fixpoint legacy_hashes (count : N) (values : list bytes) : option (list FileHash) :=
  match values with
  | [] => Some []
  | value :: values =>
      if count =? LEGACY_HASH_CHECK_ITEMS then None
      else if negb (lower_hex value 64) then None
      else match hex_to_hash value with
           | Err _ => None
           | Ok h => hs ← legacy_hashes (count + 1) values; Some (h :: hs)
           end
  end.

Definition parse_legacy_hash_check (body : bytes) : result ServerError (list FileHash) :=
  if LEGACY_HASH_CHECK_REQUEST_BYTES <? len body
  then Err (PayloadTooLarge "legacy hash check exceeds its limit")
  else ok_or (string_array body ≫= legacy_hashes 0) (BadRequest "expected canonical JSON array of hashes").

Definition object_is_usable (kind : PackedObjectKind) (hash : FileHash) : Api bool :=
  if bool_decide (kind = Manifest) then stored_manifest_is_usable hash else contains_object kind hash.

(** The hexadecimal hashes of [needed], in order. *)
Fixpoint needed_hashes (kind : PackedObjectKind) (hashes : list FileHash) : Api (list bytes) :=
  match hashes with
  | [] => st_ret []
  | hash :: hashes =>
      let! usable := object_is_usable kind hash in
      let! rest := needed_hashes kind hashes in
      st_ret (if usable : bool then rest else hash_to_hex hash :: rest)
  end.

Definition process_legacy_hash_check (kind : PackedObjectKind) (body : bytes) : Api (list bytes) :=
  let! hashes := st_lift (parse_legacy_hash_check body) in
  needed_hashes kind hashes.

(** ** Bulk checks *)

Definition bulk_object_is_usable (kind : ObjectKind) (hash : FileHash) : Api bool :=
  match kind with
  | KManifest => stored_manifest_is_usable hash
  | _ => contains_object (storage_object_kind kind) hash
  end.

Definition process_bulk_check (body : bytes) (max_request_bytes : N) : Api bytes :=
  if max_request_bytes <? len body
  then st_err (PayloadTooLarge "bulk check exceeds advertised byte limit")
  else
    let! request := st_lift (map_err BadRequest (decode_check_request body BULK_OBJECTS)) in
    let! needed := st_map (λ hash, let! usable := bulk_object_is_usable (ck_kind request) hash in
                                   st_ret (negb usable)) (ck_hashes request) in
    st_lift (map_err Internal (encode_check_response needed)).

(** ** Bulk uploads *)

Record PreparedBulkPut := {
  pb_statuses : list (option UploadStatus);
  pb_writer_objects : list PackedObject;
  pb_record_for_writer_object : list nat;
  pb_pending_chunks : gmap FileHash (bytes * nat);
  pb_manifest_dependencies : list (nat * nat * list nat);
}.

Definition set_status (index : nat) (status : UploadStatus) (p : PreparedBulkPut) : PreparedBulkPut :=
  {| pb_statuses := <[index := Some status]> (pb_statuses p);
     pb_writer_objects := pb_writer_objects p;
     pb_record_for_writer_object := pb_record_for_writer_object p;
     pb_pending_chunks := pb_pending_chunks p;
     pb_manifest_dependencies := pb_manifest_dependencies p |}.

(** The chunks of earlier records, then the store. *)
Definition load_pending (pending : gmap FileHash (bytes * nat)) (chunk_hash : FileHash) : Api (option bytes) :=
  match pending !! chunk_hash with
  | Some (data, _) => st_ret (Some data)
  | None => read_if_any ContentChunk chunk_hash
  end.

(** The bytes to store for a record and the chunks it references, or the
    status it is refused with. *)
Definition check_record (pending : gmap FileHash (bytes * nat)) (record : UploadRecord)
    : Api (result UploadStatus (bytes * list FileHash)) :=
  if negb (b2n (ur_flags record) =? 0) || negb (ur_plain_len record =? len (ur_bytes record))
     || (BULK_OBJECT_BYTES <? ur_plain_len record)
  then st_ret (Err URejectedLimit)
  else if bool_decide (ur_kind record = KManifest) then
    match wm_decode (ur_bytes record) with
    | None => st_ret (Err UBadHash)
    | Some m =>
        match validate_content_manifest_structure (ur_hash record) m with
        | Err _ => st_ret (Err UBadHash)
        | Ok referenced => λ s,
            match validate_content_manifest_with_loader (ur_hash record) m (load_pending pending) s with
            | (Err _, s) => (Ok (Err UBadHash), s)
            | (Ok _, s) => (Ok (Ok (wm_encode m, referenced)), s)
            end
        end
    end
  else if negb (beq (hash_bytes (ur_bytes record)) (ur_hash record)) then st_ret (Err UBadHash)
  else st_ret (Ok (ur_bytes record, [])).

Definition add_object (index : nat) (record : UploadRecord) (stored_bytes : bytes)
    (referenced : list FileHash) (p : PreparedBulkPut) : PreparedBulkPut :=
  let writer_index := length (pb_writer_objects p) in
  let pending := if bool_decide (ur_kind record = KContentChunk)
                 then <[ur_hash record := (ur_bytes record, writer_index)]> (pb_pending_chunks p)
                 else pb_pending_chunks p in
  {| pb_statuses := pb_statuses p;
     pb_writer_objects := pb_writer_objects p ++
       [{| po_kind := storage_object_kind (ur_kind record); po_hash := ur_hash record; po_bytes := stored_bytes |}];
     pb_record_for_writer_object := pb_record_for_writer_object p ++ [index];
     pb_pending_chunks := pending;
     pb_manifest_dependencies := pb_manifest_dependencies p ++
       (if bool_decide (ur_kind record = KManifest)
        then [(writer_index, index, omap (λ h, snd <$> pending !! h) referenced)] else []) |}.

(** One turn of the loop of [prepare_bulk_put]. *)
Definition prepare_record (p : PreparedBulkPut) (x : nat * UploadRecord) : Api PreparedBulkPut :=
  let '(index, record) := x in
  let! checked := check_record (pb_pending_chunks p) record in
  match checked with
  | Err status => st_ret (set_status index status p)
  | Ok (stored_bytes, referenced) =>
      let! usable := bulk_object_is_usable (ur_kind record) (ur_hash record) in
      if usable : bool then st_ret (set_status index UAlreadyPresent p)
      else st_ret (add_object index record stored_bytes referenced p)
  end.

Definition prepare_bulk_put (body : bytes) (max_request_bytes : N) : Api PreparedBulkPut :=
  let! records := st_lift (map_err (λ e, if max_request_bytes <? len body then PayloadTooLarge e else BadRequest e)
                             (decode_upload_pack body BULK_OBJECTS max_request_bytes)) in
  st_fold prepare_record
    {| pb_statuses := replicate (length records) None; pb_writer_objects := [];
       pb_record_for_writer_object := []; pb_pending_chunks := ∅; pb_manifest_dependencies := [] |}
    (imap pair records).

(** The statuses after the answers of the writer. *)
Definition set_answers (answers : list (nat * StoreResult)) (statuses : list (option UploadStatus))
    : list (option UploadStatus) :=
  foldl (λ st ir, <[fst ir := Some (upload_status (snd ir))]> st) statuses answers.

Definition result_at (results : list StoreResult) (i : nat) : bool :=
  match results !! i with Some r => is_ok r | None => false end.

Definition set_dependents (results : list StoreResult) (dependencies : list (nat * nat * list nat))
    (statuses : list (option UploadStatus)) : list (option UploadStatus) :=
  foldl (λ st d, let '(manifest_index, record_index, needs) := d in
                 if result_at results manifest_index && existsb (λ i, negb (result_at results i)) needs
                 then <[record_index := Some URetryableStorageError]> st else st) statuses dependencies.

Definition process_bulk_put (owner body : bytes) (max_request_bytes : N) : Api bytes :=
  if max_request_bytes <? len body then st_err (PayloadTooLarge "bulk upload pack exceeds byte limit")
  else
    let! admission := admit_object_request owner Content (len body) in
    let! p := prepare_bulk_put body max_request_bytes in
    let! results :=
      λ s, match store_admitted admission (pb_writer_objects p) s with
           | (Ok results, s) => (Ok results, s)
           | (Err e, s) => (Ok (replicate (length (pb_record_for_writer_object p)) (Err e)), s)
           end in
    if negb (length results =? length (pb_record_for_writer_object p))%nat
    then st_err (Internal "storage writer returned the wrong result count")
    else
      let statuses := set_dependents results (pb_manifest_dependencies p)
                        (set_answers (zip (pb_record_for_writer_object p) results) (pb_statuses p)) in
      let! statuses := st_lift (ok_or (mapM id statuses) (Internal "bulk writer left an ACK unset")) in
      st_lift (map_err Internal (encode_upload_ack statuses)).

(** ** Bulk downloads *)

Definition read_bulk_object (kind : ObjectKind) (hash : FileHash) : Api (option bytes) :=
  let! found := read_stored_object (storage_object_kind kind) hash in
  match found with
  | None => st_ret None
  | Some data =>
      if bool_decide (kind = KManifest) then
        let! m := st_lift (ok_or (wm_decode data) (Internal "corrupt manifest")) in
        let! chunks := st_lift (map_err Internal (validate_content_manifest_structure hash m)) in
        let! complete := contains_all chunks in
        if complete : bool then st_ret (Some data)
        else st_err (Internal "manifest references a missing content chunk")
      else st_ret (Some data)
  end.

(** The loop of [process_bulk_get], from [next_cursor]: the cursor, the bytes
    of the response and the records after it. *)
Fixpoint download_loop (kind : ObjectKind) (budget start next_cursor encoded_bytes : N)
    (hashes : list FileHash) : Api (N * list (FileHash * bytes)) :=
  match hashes with
  | [] => st_ret (next_cursor, [])
  | hash :: hashes =>
      let! found := read_bulk_object kind hash in
      match found with
      | None => download_loop kind budget start (next_cursor + 1) encoded_bytes hashes
      | Some data =>
          if BULK_OBJECT_BYTES <? len data
          then st_err (PayloadTooLarge "object exceeds bulk-v1 per-object limit; use single GET")
          else
            let! record_bytes := st_lift (ok_or (checked_add64 UPLOAD_HEADER_BYTES (len data))
                                            (BadRequest "bulk record length overflow")) in
            if match checked_add64 encoded_bytes record_bytes with
               | Some total => budget <? total
               | None => true
               end
            then if next_cursor =? start
                 then st_err (PayloadTooLarge "bulk get response budget cannot fit the next object")
                 else st_ret (next_cursor, [])
            else
              let! rest := download_loop kind budget start (next_cursor + 1) (encoded_bytes + record_bytes) hashes in
              st_ret (fst rest, (hash, data) :: snd rest)
      end
  end.

Definition download_record (kind : ObjectKind) (x : FileHash * bytes) : UploadRecord :=
  {| ur_kind := kind; ur_flags := x00; ur_hash := fst x; ur_plain_len := len (snd x) mod 2 ^ 32;
     ur_bytes := snd x |}.

(** [for index in from..to { bitmap_set(..) }], [n] of them. *)
Fixpoint set_remaining (n : nat) (from : N) (bitmap : bytes) : bytes :=
  match n with
  | O => bitmap
  | Datatypes.S n => set_remaining n (from + 1) (bitmap_set bitmap from)
  end.

Definition process_bulk_get (body : bytes) (max_request_bytes max_response_bytes : N) : Api bytes :=
  if max_request_bytes <? len body
  then st_err (PayloadTooLarge "bulk get request exceeds advertised byte limit")
  else
    let! request := st_lift (map_err BadRequest (decode_get_request body BULK_OBJECTS)) in
    let budget := gr_max_response_bytes request in
    if (budget =? 0) || (max_response_bytes <? budget)
    then st_err (PayloadTooLarge "bulk get response budget exceeds advertised limit")
    else
      let count := len (gr_hashes request) in
      let! bitmap_len := st_lift (map_err BadRequest (bitmap_bytes count)) in
      let! fixed_bytes := st_lift (ok_or (checked_add64 DOWNLOAD_HEADER_BYTES bitmap_len
                                            ≫= λ v, checked_add64 v PACK_HEADER_BYTES)
                                     (BadRequest "bulk get response length overflow")) in
      if budget <? fixed_bytes
      then st_err (PayloadTooLarge "bulk get response budget is below protocol overhead")
      else
        let start := gr_cursor request in
        let! '(next_cursor, owned) :=
          download_loop (gr_kind request) budget start start fixed_bytes (dropN start (gr_hashes request)) in
        let remaining := set_remaining (N.to_nat (count - next_cursor)) next_cursor
                           (repeat x00 (N.to_nat bitmap_len)) in
        st_lift (map_err Internal
                   (encode_download_response count next_cursor remaining
                      (download_record (gr_kind request) <$> owned))).
End objects.
