(* ===== verification/ObjectsProps.v ===== *)
(** The object endpoints: a manifest is accepted exactly when it describes a
    file whose chunks are there, the pages of a bulk download are complete,
    and the acknowledgements of a bulk upload are true. *)

From S2P Require Import Prelude Bytes Hash RootHead RootOutcome PackFormat PackFormatProps Faults Crc32c PackStore PackInvariant PackStoreProps StorageWriter WriterQueue Bulk Objects.
Local Open Scope N_scope.

(** * The interface of the store *)

(** The store answers reads from [view] and they change nothing: no faults,
    and no write in between. *)
Definition quiet_reads {S} `{ObjectStore S} (view : ObjectKey → option bytes) (s : S) : Prop :=
  ∀ k, ob_read k s = (Ok (view k), s) ∧ ob_contains k s = (bool_decide (is_Some (view k)), s).

(** What a store promises: [ob_has k] - the object is there to be read - once
    it said so, for every operation after. *)
Class ObjectStoreLaws (S : Type) {B3 : Blake3} {HX : Hex} {JV : JsonValue} `{ObjectStore S} := {
  ob_inv : S → Prop;
  ob_has : ObjectKey → S → Prop;
  ob_contains_law : ∀ k s b s', ob_inv s → ob_contains k s = (b, s') →
    ob_inv s' ∧ (∀ k', ob_has k' s → ob_has k' s') ∧ (b = true → ob_has k s');
  ob_read_law : ∀ k s r s', ob_inv s → ob_read k s = (r, s') →
    ob_inv s' ∧ (∀ k', ob_has k' s → ob_has k' s') ∧ (∀ data, r = Ok (Some data) → ob_has k s');
  ob_reserve_law : ∀ owner class n s r s', ob_inv s → ob_reserve owner class n s = (r, s') →
    ob_inv s' ∧ (∀ k', ob_has k' s → ob_has k' s');
  ob_submit_law : ∀ objects s r s', ob_inv s → group_small objects → ob_submit objects s = (r, s') →
    (∀ k', ob_has k' s → ob_has k' s') ∧
    (∀ results, r = Ok results → length results = length objects ∧
       ∀ i o outcome, results !! i = Some (Ok outcome) → objects !! i = Some o → ob_has (object_key o) s');
}.

(** * Manifests *)

Section manifests.
Context {B3 : Blake3} {HX : Hex}.

(** The chunks of a manifest are these pieces, one after the other. *)
Fixpoint describes (offset : N) (chunks : list WireContentChunkRef) (pieces : list bytes) : Prop :=
  match chunks, pieces with
  | [], [] => True
  | c :: chunks, p :: pieces =>
      wc_offset c = offset ∧ wc_size c = len p ∧ 0 < len p ≤ MAX_CONTENT_CHUNK_BYTES ∧
      hex_to_hash (wc_hash c) = Ok (hash_bytes p) ∧ describes (offset + len p) chunks pieces
  | _, _ => False
  end.

(** The same without the contents. *)
Fixpoint tiles (offset : N) (chunks : list WireContentChunkRef) (hashes : list FileHash) (last : N) : Prop :=
  match chunks, hashes with
  | [], [] => last = offset
  | c :: chunks, h :: hashes =>
      wc_offset c = offset ∧ 0 < wc_size c ≤ MAX_CONTENT_CHUNK_BYTES ∧
      hex_to_hash (wc_hash c) = Ok h ∧ tiles (offset + wc_size c) chunks hashes last
  | _, _ => False
  end.

Lemma tiles_le offset chunks hs last : tiles offset chunks hs last → offset ≤ last.
Proof.
  revert offset hs. induction chunks as [|c chunks IH]; intros offset [|h hs]; cbn; [lia|done..|].
  intros (_ & Hs & _ & H). apply IH in H. lia.
Qed.

Lemma map_err_Ok {E F A} (f : E → F) (r : result E A) a : map_err f r = Ok a ↔ r = Ok a.
Proof. destruct r; cbn; naive_solver. Qed.

Lemma manifest_layout_Ok total chunks offset hs last :
  manifest_layout total offset chunks = Ok (hs, last) ↔
  tiles offset chunks hs last ∧ (chunks ≠ [] → last ≤ total ∧ last ≤ U64_MAX).
Proof.
  revert offset hs. induction chunks as [|c chunks IH]; intros offset hs; cbn [manifest_layout tiles].
  { destruct hs; naive_solver. }
  rewrite if_Err_Ok, bind_Ok. setoid_rewrite checked_add64_Ok. setoid_rewrite if_Err_Ok.
  setoid_rewrite bind_Ok. setoid_rewrite map_err_Ok. setoid_rewrite bind_Ok.
  rewrite !orb_false_iff, negb_false_iff, N.eqb_eq, N.eqb_neq, N.ltb_ge. split.
  - intros (((Ho & Hz) & Hm) & e & [-> Hu] & Ht%N.ltb_ge & h & Hh & [hs' e'] & H & [= <- <-]).
    cbn [fst snd] in *. apply IH in H as [H Hle]. pose proof (tiles_le _ _ _ _ H).
    apply bind_Ok in Hh. split_and!; [done|lia|done|done|done|]. intros _. destruct chunks; [|by apply Hle].
    destruct hs'; [|done]. cbn in H. subst. lia.
  - destruct hs as [|h hs]; [by intros [? _]|]. intros ((Ho & Hs & Hh & H) & Hle).
    destruct Hle as [Hle1 Hle2]; [done|]. pose proof (tiles_le _ _ _ _ H).
    split_and!; [done|lia|lia|]. eexists. split; [split; [done|lia]|]. rewrite N.ltb_ge. split; [lia|].
    exists h. split; [by apply bind_Ok|]. exists (hs, last). split; [|done]. apply IH. split; [done|]. intros _. lia.
Qed.

Lemma describes_tiles offset chunks pieces :
  describes offset chunks pieces ↔
  tiles offset chunks (hash_bytes <$> pieces) (offset + len (concat pieces)) ∧
  Forall2 (λ c p, wc_size c = len p) chunks pieces.
Proof.
  revert offset pieces. induction chunks as [|c chunks IH]; intros offset [|p pieces]; cbn [describes tiles fmap list_fmap concat].
  - rewrite len_nil, N.add_0_r. split; [|done]. split; [done|constructor].
  - split; [done|]. intros [? _]. done.
  - split; [done|]. intros [? _]. done.
  - rewrite IH, len_app, Forall2_cons, N.add_assoc. split.
    + intros (Ho & Hs & Hb & Hh & Ht & Hf). rewrite Hs. done.
    + intros ((Ho & Hb & Hh & Ht) & Hs & Hf). rewrite Hs in *. done.
Qed.

Lemma structure_Ok fh m hs :
  validate_content_manifest_structure fh m = Ok hs ↔
  hex_to_hash (wm_file_hash m) = Ok fh ∧ len (wm_chunks m) ≤ MAX_MANIFEST_CHUNKS ∧
  tiles 0 (wm_chunks m) hs (wm_total_size m) ∧ (wm_chunks m ≠ [] → wm_total_size m ≤ U64_MAX) ∧
  (wm_total_size m = 0 → fh = hash_bytes []).
Proof.
  unfold validate_content_manifest_structure. split.
  - intros H. apply bind_Ok in H as (d & Hd%map_err_Ok & H).
    apply if_Err_Ok in H as [->%negb_false_iff%beq_true H]. apply if_Err_Ok in H as [Hc%N.ltb_ge H].
    apply if_Err_Ok in H as [_ H]. apply bind_Ok in H as ([hs' last] & [Ht Hle]%manifest_layout_Ok & H).
    cbn [fst snd] in *. apply if_Err_Ok in H as [Hlast%negb_false_iff%N.eqb_eq H].
    apply if_Err_Ok in H as [He H]. apply Ok_inj in H as ->. subst. split_and!; [done|done|done| |].
    + intros Hne. by apply Hle.
    + intros Hz. rewrite Hz in He. cbn in He. by apply negb_false_iff, beq_true in He.
  - intros (Hd & Hc & Ht & Hu & Hz). apply bind_Ok. exists fh. split; [by apply map_err_Ok|].
    rewrite beq_refl. cbn [negb]. apply if_Err_Ok. split; [by apply N.ltb_ge|].
    apply if_Err_Ok. split.
    { apply andb_false_iff. rewrite N.ltb_ge. destruct (wm_chunks m); [left|right; done].
      cbn in Ht. destruct hs; [|done]. lia. }
    apply bind_Ok. exists (hs, wm_total_size m). split; [apply manifest_layout_Ok; split; [done|]; intros; split; [lia|auto]|].
    cbn [fst snd]. rewrite if_Err_Ok, negb_false_iff, N.eqb_eq. split; [done|]. rewrite if_Err_Ok. split; [|done].
    destruct (N.eqb_spec (wm_total_size m) 0); [|done]. cbn. apply negb_false_iff, beq_true. auto.
Qed.

Section loader.
Context {S : Type}.
Implicit Types (load : FileHash → St S ServerError (option bytes)) (s : S).

Lemma tiles_zip offset chunks hs last pieces :
  tiles offset chunks hs last → Forall2 (λ c p, len p = wc_size c.1 ∧ hash_bytes p = c.2) (zip chunks hs) pieces →
  describes offset chunks pieces ∧ hs = hash_bytes <$> pieces ∧ last = offset + len (concat pieces).
Proof.
  revert offset hs pieces. induction chunks as [|c chunks IH]; intros offset [|h hs] pieces; cbn [tiles zip zip_with]; try done.
  - intros -> ->%Forall2_nil_inv_l. cbn. by rewrite len_nil, N.add_0_r.
  - intros (Ho & Hs & Hh & Ht) Hp. destruct pieces as [|p pieces]; [by inversion Hp|].
    apply Forall2_cons in Hp as [[Hlen Hhash] Hp]. cbn [fst snd] in *. subst h. rewrite <-Hlen in *.
    destruct (IH _ _ _ Ht Hp) as (Hd & -> & ->). cbn [describes fmap list_fmap concat]. rewrite len_app. split_and!; first [done|lia].
Qed.

(** What a validation saw: [P] holds of every piece when it is loaded, and
    stays true while the rest is. *)
Section chunks.
Context (R : S → S → Prop) `{!PreOrder R} (I : S → Prop) (P : FileHash → bytes → S → Prop).
Context (load : FileHash → St S ServerError (option bytes)).
Context (HP : ∀ h p s s', R s s' → P h p s → P h p s').
Context (Hload : ∀ h s r s', I s → load h s = (r, s') → I s' ∧ R s s' ∧ (∀ p, r = Ok (Some p) → P h p s')).

Lemma validate_chunks_Ok absorbed cs s r s' :
  I s → validate_chunks load absorbed cs s = (r, s') →
  I s' ∧ R s s' ∧
  ∀ all, r = Ok all → ∃ pieces, all = absorbed ++ concat pieces ∧
    Forall2 (λ c p, len p = wc_size c.1 ∧ hash_bytes p = c.2) cs pieces ∧
    Forall (λ p, P (hash_bytes p) p s') pieces.
Proof using Hload HP PreOrder0.
  revert absorbed s. induction cs as [|[c h] cs IH]; intros absorbed s HI; cbn [validate_chunks].
  { intros [= <- <-]. split_and!; [done|done|]. intros all [= <-]. exists []. rewrite app_nil_r. split_and!; constructor. }
  unfold st_bind. destruct (load h s) as [found s1] eqn:E. destruct (Hload h s found s1 HI E) as (HI1 & Hmono & Hp).
  destruct found as [[p|]|e]; [|by intros [= <- <-]..].
  destruct (negb _ || negb _) eqn:Ec; [by intros [= <- <-]|].
  apply orb_false_iff in Ec as [E1%negb_false_iff%N.eqb_eq E2%negb_false_iff%beq_true].
  intros Hrun. destruct (IH _ _ HI1 Hrun) as (HI2 & Hmono2 & Hall). split_and!; [done|by etrans|].
  intros all ->. destruct (Hall all eq_refl) as (pieces & -> & Hf & HPs). exists (p :: pieces).
  cbn [concat]. rewrite <-app_assoc. split_and!; [done|by constructor|]. constructor; [|done].
  subst h. eapply HP; [exact Hmono2|]. by apply Hp.
Qed.

Lemma validate_loader_Ok fh m s r s' :
  I s → validate_content_manifest_with_loader fh m load s = (r, s') →
  I s' ∧ R s s' ∧
  (r = Ok tt → ∃ pieces, describes 0 (wm_chunks m) pieces ∧ len (concat pieces) = wm_total_size m ∧
    hash_bytes (concat pieces) = fh ∧ validate_content_manifest_structure fh m = Ok (hash_bytes <$> pieces) ∧
    Forall (λ p, P (hash_bytes p) p s') pieces).
Proof using Hload HP PreOrder0.
  intros HI. unfold validate_content_manifest_with_loader, st_bind, st_lift.
  destruct (validate_content_manifest_structure fh m) as [hs|e] eqn:Es; cbn [map_err]; [|by intros [= <- <-]].
  destruct (validate_chunks load [] (zip (wm_chunks m) hs) s) as [res s1] eqn:Ev.
  destruct (validate_chunks_Ok _ _ _ _ _ HI Ev) as (HI1 & Hmono & Hall).
  destruct res as [all|e]; [|by intros [= <- <-]].
  destruct (negb _) eqn:E; [by intros [= <- <-]|]. apply negb_false_iff, beq_true in E. intros [= <- <-].
  split_and!; [done..|]. intros _. destruct (Hall all eq_refl) as (pieces & -> & Hp & HPs).
  pose proof Es as Es'. apply structure_Ok in Es' as (_ & _ & Ht & _).
  destruct (tiles_zip _ _ _ _ _ Ht Hp) as (Hd & -> & Hl). exists pieces. split_and!; [done|lia|done|done|done].
Qed.
End chunks.

(** A loader that answers from a view. *)
Lemma validate_chunks_view (view : FileHash → option bytes) load absorbed s chunks pieces offset :
  (∀ h, load h s = (Ok (view h), s)) → describes offset chunks pieces →
  Forall (λ p, view (hash_bytes p) = Some p) pieces →
  validate_chunks load absorbed (zip chunks (hash_bytes <$> pieces)) s = (Ok (absorbed ++ concat pieces), s).
Proof.
  intros Hload. revert offset absorbed pieces. induction chunks as [|c chunks IH]; intros offset absorbed [|p pieces];
    cbn [describes]; try done.
  - intros _ _. cbn. by rewrite app_nil_r.
  - intros (Ho & Hs & Hb & Hh & Hd) [Hv Hvs]%Forall_cons. cbn [fmap list_fmap zip zip_with validate_chunks].
    unfold st_bind. rewrite Hload, Hv, Hs, N.eqb_refl, beq_refl. cbn [negb orb].
    by rewrite (IH _ _ _ Hd Hvs), <-app_assoc.
Qed.
End loader.
End manifests.

(** C25: The validation of a manifest is exact. Over a store that answers from
    a view, [validate_content_manifest] accepts a manifest for a file hash
    exactly when it declares that hash, has at most a million chunks and a
    64-bit size, and its chunks are, in order and without gap or overlap, the
    contiguous pieces - each of 1 byte to 4 MiB and stored under its own
    hash - of a file of that size with that hash. *)
Theorem manifest_validation_exact {B3 : Blake3} {HX : Hex} {S} {OS : ObjectStore S} view (s : S) fh m :
  quiet_reads view s →
  validate_content_manifest fh m s = (Ok tt, s) ↔
  hex_to_hash (wm_file_hash m) = Ok fh ∧ len (wm_chunks m) ≤ MAX_MANIFEST_CHUNKS ∧
  (wm_chunks m ≠ [] → wm_total_size m ≤ U64_MAX) ∧
  ∃ pieces, describes 0 (wm_chunks m) pieces ∧
    Forall (λ p, view (storage_key ContentChunk (hash_bytes p)) = Some p) pieces ∧
    len (concat pieces) = wm_total_size m ∧ hash_bytes (concat pieces) = fh.
Proof.
  intros Hq. assert (∀ h, read_if_any ContentChunk h s = (Ok (view (storage_key ContentChunk h)), s)) as Hload.
  { intros h. unfold read_if_any. by rewrite (proj1 (Hq _)). }
  unfold validate_content_manifest. split.
  - intros H.
    edestruct (validate_loader_Ok eq (λ s', s' = s) (λ h p _, view (storage_key ContentChunk h) = Some p)
      (read_if_any ContentChunk)) as (_ & _ & Hok); [done| |done|exact H|].
    { intros h s1 r s2 -> E. rewrite Hload in E. injection E as <- <-. naive_solver. }
    destruct (Hok eq_refl) as (pieces & Hd & Hl & Hh & Hs & HP).
    apply structure_Ok in Hs as (H1 & H2 & _ & H4 & _). split_and!; [done..|]. by exists pieces.
  - intros (H1 & H2 & H3 & pieces & Hd & Hv & Hl & Hh).
    assert (validate_content_manifest_structure fh m = Ok (hash_bytes <$> pieces)) as Hs.
    { apply structure_Ok. apply describes_tiles in Hd as [Hd _]. rewrite N.add_0_l, Hl in Hd.
      split_and!; [done..|]. intros Hz. rewrite Hz in Hl. apply len_0 in Hl. by rewrite <-Hh, Hl. }
    unfold validate_content_manifest_with_loader, st_bind, st_lift. rewrite Hs. cbn [map_err].
    rewrite (validate_chunks_view (λ h, view (storage_key ContentChunk h)) _ [] s _ _ 0 Hload Hd Hv). cbn [app].
    by rewrite Hh, beq_refl.
Qed.

(** * Downloads *)



Section downloads.
Context {B3 : Blake3} {HX : Hex} {WJ : WireManifestJson} {S : Type} {OS : ObjectStore S}.


Context (view : ObjectKey → option bytes) (s : S) (Hq : quiet_reads view s).

(** What a bulk download finds under a hash. *)
Definition bulk_view (kind : ObjectKind) (hash : FileHash) : result ServerError (option bytes) :=
  match view (storage_key (storage_object_kind kind) hash) with
  | None => Ok None
  | Some data =>
      if bool_decide (kind = KManifest) then
        let? m := ok_or (wm_decode data) (Internal "corrupt manifest") in
        let? chunks := map_err Internal (validate_content_manifest_structure hash m) in
        if forallb (λ c, bool_decide (is_Some (view (storage_key ContentChunk c)))) chunks then Ok (Some data)
        else Err (Internal "manifest references a missing content chunk")
      else Ok (Some data)
  end.

Lemma contains_all_quiet chunks :
  contains_all chunks s = (Ok (forallb (λ c, bool_decide (is_Some (view (storage_key ContentChunk c)))) chunks), s).
Proof using Hq.
  induction chunks as [|c chunks IH]; [done|]. cbn [contains_all forallb]. unfold st_bind, contains_object.
  rewrite (proj2 (Hq _)). by destruct (bool_decide _).
Qed.

Lemma read_bulk_object_quiet kind hash : read_bulk_object kind hash s = (bulk_view kind hash, s).
Proof using Hq.
  unfold read_bulk_object, bulk_view, st_bind, read_stored_object, st_lift. rewrite (proj1 (Hq _)).
  destruct (view _) as [data|]; [|done]. case_bool_decide; [|done].
  destruct (wm_decode data) as [m|]; [|done]. cbn [ok_or].
  destruct (validate_content_manifest_structure hash m) as [chunks|]; [|done]. cbn [map_err].
  rewrite contains_all_quiet. by destruct (forallb _ chunks).
Qed.

Context (kind : ObjectKind) (obj : FileHash → option bytes).


Definition found (hashes : list FileHash) : list UploadRecord :=
  download_record kind <$> omap (λ h, (h,.) <$> obj h) hashes.




Lemma download_loop_too_large budget start cursor encoded hash hashes data :
  bulk_view kind hash = Ok (Some data) → BULK_OBJECT_BYTES < len data →
  download_loop kind budget start cursor encoded (hash :: hashes) s
    = (Err (PayloadTooLarge "object exceeds bulk-v1 per-object limit; use single GET"), s).
Proof using Hq.
  intros Hv Hlt. cbn [download_loop]. unfold st_bind. rewrite read_bulk_object_quiet, Hv.
  by rewrite (proj2 (N.ltb_lt BULK_OBJECT_BYTES (len data))).
Qed.








End downloads.

