(* ===== verification/ObjectsUpload.v ===== *)
(** The acknowledgements of a bulk upload are true, over any store that keeps
    the promises of [ObjectStoreLaws]. *)

From S2P Require Import Prelude Bytes Hash RootHead RootOutcome PackFormat PackFormatProps Faults Crc32c PackStore PackInvariant PackStoreProps StorageWriter WriterQueue Bulk Objects ObjectsProps.
Local Open Scope N_scope.

Section upload.
Context {B3 : Blake3} {HX : Hex} {WJ : WireManifestJson} {JV : JsonValue}.
Context {S : Type} {OS : ObjectStore S} {LAWS : ObjectStoreLaws S}.
Implicit Types (s : S) (r : UploadRecord) (p : PreparedBulkPut).

Abbreviation chunk_key := (storage_key ContentChunk).

(** * Operations that only add to the store *)

Definition more s s' : Prop := ∀ k, ob_has k s → ob_has k s'.
Definition grows s s' : Prop := ob_inv s' ∧ more s s'.

#[local] Instance more_preorder : PreOrder more.
Proof. split; [by intros s k|]. intros s1 s2 s3 H1 H2 k Hk. by apply H2, H1. Qed.

Lemma ob_grows_refl s : ob_inv s → grows s s.
Proof. done. Qed.
Lemma ob_grows_trans s1 s2 s3 : grows s1 s2 → grows s2 s3 → grows s1 s3.
Proof. intros [_ H1] [H2 H3]. split; [done|]. intros k Hk. by apply H3, H1. Qed.

Lemma contains_object_grows kind h s x s' :
  ob_inv s → contains_object kind h s = (x, s') →
  grows s s' ∧ ∃ b, x = Ok b ∧ (b = true → ob_has (storage_key kind h) s').
Proof.
  intros HI. unfold contains_object. destruct (ob_contains _ s) as [b s1] eqn:E. intros [= <- <-].
  destruct (ob_contains_law _ _ _ _ HI E) as (H1 & H2 & H3). split; [done|]. by exists b.
Qed.

Lemma read_if_any_grows kind h s x s' :
  ob_inv s → read_if_any kind h s = (x, s') →
  grows s s' ∧ ∃ found, x = Ok found ∧ ∀ data, found = Some data → ob_has (storage_key kind h) s'.
Proof.
  intros HI. unfold read_if_any. destruct (ob_read _ s) as [r s1] eqn:E.
  destruct (ob_read_law _ _ _ _ HI E) as (H1 & H2 & H3). destruct r as [found|e]; intros [= <- <-].
  - split; [done|]. exists found. split; [done|]. intros data ->. by eapply H3.
  - split; [done|]. by exists None.
Qed.

Lemma contains_all_grows chunks s x s' :
  ob_inv s → contains_all chunks s = (x, s') → grows s s' ∧ ∃ b, x = Ok b.
Proof.
  revert s. induction chunks as [|c chunks IH]; intros s HI; cbn [contains_all].
  { intros [= <- <-]. split; [by apply ob_grows_refl|]. by eexists. }
  unfold st_bind. destruct (contains_object ContentChunk c s) as [y s1] eqn:E.
  destruct (contains_object_grows _ _ _ _ _ HI E) as (Hg & b & -> & _). destruct b.
  - intros H. destruct (IH s1 (proj1 Hg) H) as [Hg' ?]. split; [by eapply ob_grows_trans|done].
  - intros [= <- <-]. split; [done|]. by eexists.
Qed.

Lemma usable_grows kind h s x s' :
  ob_inv s → bulk_object_is_usable kind h s = (x, s') →
  grows s s' ∧ ∃ b, x = Ok b ∧ (b = true → ob_has (storage_key (storage_object_kind kind) h) s').
Proof.
  intros HI. destruct kind; cbn [bulk_object_is_usable]; [by apply contains_object_grows..|].
  unfold stored_manifest_is_usable, st_bind. destruct (read_if_any Manifest h s) as [y s1] eqn:E.
  destruct (read_if_any_grows _ _ _ _ _ HI E) as (Hg & found & -> & Hhas).
  destruct found as [data|]; cbn [mbind option_bind].
  2:{ intros [= <- <-]. split; [done|]. by eexists. }
  destruct (wm_decode data) as [m|]; [|intros [= <- <-]; split; [done|]; by eexists].
  destruct (validate_content_manifest_structure h m); [|intros [= <- <-]; split; [done|]; by eexists].
  intros H. destruct (contains_all_grows _ _ _ _ (proj1 Hg) H) as [Hg' [b ->]].
  split; [by eapply ob_grows_trans|]. exists b. split; [done|]. intros _. apply Hg'. by eapply Hhas.
Qed.

(** * One record *)

Definition record_key r : ObjectKey := storage_key (storage_object_kind (ur_kind r)) (ur_hash r).

(** The bytes of a record that is not a manifest have its hash. *)
Definition record_ok r : Prop := ur_kind r ≠ KManifest → hash_bytes (ur_bytes r) = ur_hash r.

(** The record is a manifest of a file with its hash, all of whose pieces
    satisfy [P]. *)
Definition manifest_of (P : FileHash → Prop) r (hashes : list FileHash) : Prop :=
  ∃ m pieces, wm_decode (ur_bytes r) = Some m ∧ describes 0 (wm_chunks m) pieces ∧
    hash_bytes (concat pieces) = ur_hash r ∧ hashes = hash_bytes <$> pieces ∧ Forall P hashes.

Lemma check_record_spec pending r s x s' :
  ob_inv s → check_record pending r s = (x, s') →
  grows s s' ∧
  ((∃ st, x = Ok (Err st) ∧ st ≠ UStored ∧ st ≠ UAlreadyPresent) ∨
   (∃ data referenced, x = Ok (Ok (data, referenced)) ∧ record_ok r ∧
      (ur_kind r = KManifest → manifest_of (λ h, ob_has (chunk_key h) s' ∨ is_Some (pending !! h)) r referenced))).
Proof.
  intros HI. unfold check_record. destruct (_ || _ || _).
  { intros [= <- <-]. split; [by apply ob_grows_refl|]. left. by exists URejectedLimit. }
  case_bool_decide as Hk.
  - destruct (wm_decode (ur_bytes r)) as [m|] eqn:Em; [|intros [= <- <-]; split; [by apply ob_grows_refl|]; left; by exists UBadHash].
    destruct (validate_content_manifest_structure (ur_hash r) m) as [hs|] eqn:Es;
      [|intros [= <- <-]; split; [by apply ob_grows_refl|]; left; by exists UBadHash].
    destruct (validate_content_manifest_with_loader (ur_hash r) m (load_pending pending) s) as [res s1] eqn:Ev.
    edestruct (validate_loader_Ok more ob_inv
      (λ h _ s, ob_has (chunk_key h) s ∨ is_Some (pending !! h)) (load_pending pending))
      as (HI' & Hmono & Hok); [| |exact HI|exact Ev|].
    { intros h _ s2 s3 Hs [?|?]; [left; by apply Hs|by right]. }
    { intros h s2 y s3 HI2. unfold load_pending. destruct (pending !! h) as [[d w]|] eqn:Ep.
      - intros [= <- <-]. split_and!; [done..|]. intros _ _. right. by eexists.
      - intros E. destruct (read_if_any_grows _ _ _ _ _ HI2 E) as ([H1 H2] & found & -> & Hhas).
        split_and!; [done..|]. intros q [= ->]. left. by eapply Hhas. }
    destruct res as [[]|e]; intros [= <- <-]; (split; [done|]); [|left; by exists UBadHash].
    right. exists (wm_encode m), hs. split; [done|]. split; [by intros []|]. intros _.
    destruct (Hok eq_refl) as (pieces & Hd & _ & Hh & Hs & HPs). rewrite Es in Hs. apply Ok_inj in Hs as ->.
    exists m, pieces. split_and!; [done..|]. apply Forall_fmap. eapply Forall_impl; [exact HPs|]. done.
  - destruct (beq _ _) eqn:Eh; cbn [negb]; intros [= <- <-]; (split; [by apply ob_grows_refl|]).
    + right. exists (ur_bytes r), []. split; [done|]. split; [|done]. intros _. by apply beq_true.
    + left. by exists UBadHash.
Qed.

(** * The loop *)

Section loop.
Context (rs : list UploadRecord).

(** The pieces of the manifest of a writer object are in the store or among
    the objects it depends on. *)
Definition backed p s (deps : list nat) (h : FileHash) : Prop :=
  ob_has (chunk_key h) s ∨ ∃ w o, w ∈ deps ∧ pb_writer_objects p !! w = Some o ∧ object_key o = chunk_key h.

(** After [k] records. *)
Record prep_inv (k : nat) p s : Prop := {
  pi_inv : ob_inv s;
  pi_len : length (pb_statuses p) = length rs;
  pi_size : length (pb_record_for_writer_object p) = length (pb_writer_objects p);
  pi_status : ∀ i st, pb_statuses p !! i = Some (Some st) →
    (i < k)%nat ∧ st ≠ UStored ∧ i ∉ pb_record_for_writer_object p;
  pi_present : ∀ i r, pb_statuses p !! i = Some (Some UAlreadyPresent) → rs !! i = Some r →
    record_ok r ∧ ob_has (record_key r) s;
  pi_objects : ∀ w i, pb_record_for_writer_object p !! w = Some i → (i < k)%nat ∧
    ∃ r o, rs !! i = Some r ∧ pb_writer_objects p !! w = Some o ∧ object_key o = record_key r ∧ record_ok r;
  pi_nodup : NoDup (pb_record_for_writer_object p);
  pi_total : ∀ i, (i < k)%nat → (∃ st, pb_statuses p !! i = Some (Some st)) ∨ i ∈ pb_record_for_writer_object p;
  pi_pending : ∀ h data w, pb_pending_chunks p !! h = Some (data, w) →
    ∃ o, pb_writer_objects p !! w = Some o ∧ object_key o = chunk_key h;
  pi_manifest : ∀ w i r, pb_record_for_writer_object p !! w = Some i → rs !! i = Some r → ur_kind r = KManifest →
    ∃ deps hashes, (w, i, deps) ∈ pb_manifest_dependencies p ∧ manifest_of (backed p s deps) r hashes;
}.

Lemma manifest_of_impl (P Q : FileHash → Prop) r hashes :
  (∀ h, P h → Q h) → manifest_of P r hashes → manifest_of Q r hashes.
Proof.
  intros HPQ (m & pieces & H1 & H2 & H3 & H4 & H5). exists m, pieces. split_and!; [done..|].
  eapply Forall_impl; [exact H5|done].
Qed.

Lemma prep_inv_grows k p s s' : prep_inv k p s → grows s s' → prep_inv k p s'.
Proof.
  intros [H1 H2 H3 H4 H5 H6 H7 H8 H9 H10] [HI Hm]. split; [done..| |done|done|done|done|].
  - intros i r Hi Hr. destruct (H5 i r Hi Hr). split; [done|]. by apply Hm.
  - intros w i r Hw Hi Hk. destruct (H10 w i r Hw Hi Hk) as (deps & hashes & Hd & HM). exists deps, hashes.
    split; [done|]. eapply manifest_of_impl; [|exact HM]. intros h [?|?]; [left; by apply Hm|by right].
Qed.

Lemma set_status_inv k p s st r :
  prep_inv k p s → rs !! k = Some r → st ≠ UStored →
  (st = UAlreadyPresent → record_ok r ∧ ob_has (record_key r) s) →
  prep_inv (Datatypes.S k) (set_status k st p) s.
Proof.
  intros [H1 H2 H3 H4 H5 H6 H7 H8 H9 H10] Hr Hst Hp.
  assert (k < length (pb_statuses p))%nat as Hk by (rewrite H2; by eapply lookup_lt_Some).
  split; cbn [set_status pb_statuses pb_writer_objects pb_record_for_writer_object pb_pending_chunks
    pb_manifest_dependencies]; [done|by rewrite length_insert|done|..].
  - intros i st'. destruct (decide (i = k)) as [->|Hne].
    + rewrite list_lookup_insert_eq by done. intros [= <-]. split_and!; [lia|done|].
      intros [w Hw]%list_elem_of_lookup. destruct (H6 w k Hw). lia.
    + rewrite list_lookup_insert_ne by done. intros Hi. destruct (H4 i st' Hi) as (? & ? & ?). split_and!; [lia|done|done].
  - intros i r'. destruct (decide (i = k)) as [->|Hne].
    + rewrite list_lookup_insert_eq by done. intros [= ->] Hr'. rewrite Hr in Hr'. injection Hr' as <-. by apply Hp.
    + rewrite list_lookup_insert_ne by done. apply H5.
  - intros w i Hw. destruct (H6 w i Hw) as [? ?]. split; [lia|done].
  - done.
  - intros i Hi. destruct (decide (i = k)) as [->|Hne].
    + left. exists st. by rewrite list_lookup_insert_eq.
    + rewrite list_lookup_insert_ne by done. apply H8. lia.
  - done.
  - done.
Qed.

Lemma add_object_inv k p s r data referenced :
  prep_inv k p s → rs !! k = Some r → record_ok r →
  (ur_kind r = KManifest →
     manifest_of (λ h, ob_has (chunk_key h) s ∨ is_Some (pb_pending_chunks p !! h)) r referenced) →
  pb_statuses p !! k = Some None →
  prep_inv (Datatypes.S k) (add_object k r data referenced p) s.
Proof.
  intros [H1 H2 H3 H4 H5 H6 H7 H8 H9 H10] Hr Hok HM Hnone.
  assert (k ∉ pb_record_for_writer_object p) as Hfresh.
  { intros [w Hw]%list_elem_of_lookup. destruct (H6 w k Hw). lia. }
  set (o := {| po_kind := storage_object_kind (ur_kind r); po_hash := ur_hash r; po_bytes := data |}).
  set (n := length (pb_writer_objects p)).
  assert (∀ w o', pb_writer_objects p !! w = Some o' → (pb_writer_objects p ++ [o]) !! w = Some o') as Hkeep.
  { intros w o' Hw. by apply lookup_app_l_Some. }
  assert ((pb_writer_objects p ++ [o]) !! n = Some o) as Hnew by (by rewrite list_lookup_middle).
  split; cbn [add_object pb_statuses pb_writer_objects pb_record_for_writer_object pb_pending_chunks
    pb_manifest_dependencies]; fold o n; [done|done|rewrite !length_app, H3; done|..].
  - intros i st Hi. destruct (H4 i st Hi) as (? & ? & ?). split_and!; [lia|done|].
    rewrite not_elem_of_app, list_elem_of_singleton. split; [done|]. lia.
  - done.
  - intros w i. rewrite lookup_snoc_Some. intros [[_ Hw]|[-> <-]].
    + destruct (H6 w i Hw) as (? & r' & o' & ? & ? & ? & ?). split; [lia|]. exists r', o'. auto.
    + split; [lia|]. exists r, o. rewrite H3. auto.
  - apply NoDup_app. split_and!; [done| |apply NoDup_singleton]. intros i Hi ->%list_elem_of_singleton. done.
  - intros i Hi. destruct (decide (i = k)) as [->|Hne]; [right; apply elem_of_app; right; by apply list_elem_of_singleton|].
    destruct (H8 i) as [?|?]; [lia|by left|right; by apply elem_of_app; left].
  - intros h d w. case_bool_decide as Hkind.
    + destruct (decide (h = ur_hash r)) as [->|Hne].
      * rewrite lookup_insert_eq. intros [= <- <-]. exists o. split; [done|]. unfold o, object_key. cbn. by rewrite Hkind.
      * rewrite lookup_insert_ne by done. intros Hh. destruct (H9 h d w Hh) as (o' & ? & ?). exists o'. auto.
    + intros Hh. destruct (H9 h d w Hh) as (o' & ? & ?). exists o'. auto.
  - intros w i r'. rewrite lookup_snoc_Some. intros [[_ Hw]|[-> <-]] Hr' Hk.
    + destruct (H10 w i r' Hw Hr' Hk) as (deps & hashes & Hd & HM'). exists deps, hashes.
      split; [apply elem_of_app; by left|]. eapply manifest_of_impl; [|exact HM'].
      intros h [?|(w' & o' & ? & ? & ?)]; [by left|right]. exists w', o'. cbn. auto.
    + rewrite Hr in Hr'. injection Hr' as <-. rewrite H3. rewrite (bool_decide_eq_true_2 _ Hk).
      rewrite bool_decide_eq_false_2 by (by rewrite Hk). eexists _, referenced.
      split; [apply elem_of_app; right; by apply list_elem_of_singleton|].
      specialize (HM Hk). destruct HM as (m & pieces & E1 & E2 & E3 & -> & E5). exists m, pieces. split_and!; [done..|].
      rewrite Forall_forall in E5 |- *. intros h Hh. destruct (E5 h Hh) as [?|[[d w] Hw]]; [by left|right].
      destruct (H9 h d w Hw) as (o' & Ho & Hkey). exists w, o'. split_and!; [|cbn; by apply Hkeep|done].
      apply list_elem_of_omap. exists h. split; [done|]. by rewrite Hw.
Qed.

Lemma prepare_record_inv k p s r x s' :
  prep_inv k p s → rs !! k = Some r → prepare_record p (k, r) s = (x, s') →
  ∃ p', x = Ok p' ∧ prep_inv (Datatypes.S k) p' s'.
Proof.
  intros Hp Hr. cbn [prepare_record]. unfold st_bind.
  assert (pb_statuses p !! k = Some None) as Hnone.
  { destruct (lookup_lt_is_Some_2 (pb_statuses p) k) as [st Hst].
    - rewrite (pi_len _ _ _ Hp). by eapply lookup_lt_Some.
    - destruct st as [st|]; [|done]. destruct (pi_status _ _ _ Hp k st Hst). lia. }
  destruct (check_record (pb_pending_chunks p) r s) as [y s1] eqn:Ec.
  destruct (check_record_spec _ _ _ _ _ (pi_inv _ _ _ Hp) Ec) as [Hg [(st & -> & Hst1 & Hst2)|(data & refd & -> & Hok & HM)]].
  { intros [= <- <-]. eexists. split; [done|]. eapply set_status_inv; [by eapply prep_inv_grows|done|done|done]. }
  destruct (bulk_object_is_usable (ur_kind r) (ur_hash r) s1) as [z s2] eqn:Eu.
  destruct (usable_grows _ _ _ _ _ (proj1 Hg) Eu) as (Hg2 & b & -> & Hhas).
  assert (prep_inv k p s2) as Hp2 by (eapply prep_inv_grows; [exact Hp|by eapply ob_grows_trans]).
  destruct b; intros [= <- <-]; eexists; (split; [done|]).
  - eapply set_status_inv; [done|exact Hr|done|]. intros _. split; [done|]. by apply Hhas.
  - eapply add_object_inv; [done|done|done| |done]. intros Hk. eapply manifest_of_impl; [|by apply HM].
    intros h [?|?]; [left; by apply Hg2|by right].
Qed.

Lemma prepare_loop_inv l k p s x s' :
  prep_inv k p s → (∀ j, l !! j = (λ r, (k + j, r)%nat) <$> rs !! (k + j)%nat) →
  st_fold prepare_record p l s = (x, s') → ∃ p', x = Ok p' ∧ prep_inv (length rs) p' s'.
Proof.
  revert k p s. induction l as [|[i r] l IH]; intros k p s Hp Hl; cbn [st_fold].
  - intros [= <- <-]. exists p. split; [done|]. specialize (Hl 0%nat). rewrite Nat.add_0_r in Hl. cbn in Hl.
    destruct (rs !! k) eqn:E; [done|]. apply lookup_ge_None in E.
    destruct Hp as [H1 H2 H3 H4 H5 H6 H7 H8 H9 H10]. split; [done|done|done| |done| |done| |done|done].
    + intros i st Hi. destruct (H4 i st Hi) as (_ & ? & ?). split_and!; [|done|done]. rewrite <-H2. by eapply lookup_lt_Some.
    + intros w i Hw. destruct (H6 w i Hw) as (_ & r & o & Hr & ?). split; [by eapply lookup_lt_Some|eauto].
    + intros i Hi. apply H8. lia.
  - pose proof (Hl 0%nat) as H0. rewrite Nat.add_0_r in H0. cbn in H0.
    destruct (rs !! k) as [r'|] eqn:Er; [|done]. cbn in H0. injection H0 as -> ->.
    unfold st_bind. destruct (prepare_record p (k, r') s) as [y s1] eqn:E.
    destruct (prepare_record_inv k p s r' y s1 Hp Er E) as (p1 & -> & Hp1). apply IH with (k := Datatypes.S k); [done|].
    intros j. specialize (Hl (Datatypes.S j)). change (((k, r') :: l) !! Datatypes.S j) with (l !! j) in Hl.
    rewrite Hl. replace (k + Datatypes.S j)%nat with (Datatypes.S k + j)%nat by lia. done.
Qed.

Lemma prep_inv_start s : ob_inv s →
  prep_inv 0 {| pb_statuses := replicate (length rs) None; pb_writer_objects := [];
    pb_record_for_writer_object := []; pb_pending_chunks := ∅; pb_manifest_dependencies := [] |} s.
Proof.
  intros HI. split; cbn; [done|by rewrite length_replicate|done|..].
  - intros i st Hi. by apply lookup_replicate in Hi as [? _].
  - intros i r Hi. by apply lookup_replicate in Hi as [? _].
  - done.
  - constructor.
  - lia.
  - intros h data w H. by rewrite lookup_empty in H.
  - done.
Qed.
End loop.

(** * The batch *)

Lemma sum_reservation_Ok total objects n :
  Forall (λ o, len (po_hash o) = 32) objects → sum_reservation total objects = Ok n →
  total + len (records objects) ≤ n + 68 * len objects.
Proof.
  intros Hh. revert total n. induction Hh as [|o objects Ho _ IH]; intros total n; cbn [sum_reservation].
  { intros [= ->]. change (records []) with (@nil byte). rewrite !len_nil. lia. }
  intros H. apply bind_Ok in H as (t & Ht & H). apply IH in H.
  unfold checked_add64 in Ht. destruct (N.leb_spec (total + N.max (len (po_bytes o)) 1) U64_MAX); [|done].
  cbn in Ht. injection Ht as <-. rewrite records_cons, len_app, len_cons, len_record_bytes by done.
  pose proof (padding_for_lt (raw_len_of o)). unfold raw_len_of, RECORD_HEADER_BYTES, RECORD_TRAILER_BYTES in *. lia.
Qed.

Lemma batch_small objects n :
  Forall (λ o, len (po_hash o) = 32) objects → batch_reservation_bytes objects = Ok n →
  n ≤ 2 * BULK_REQUEST_BYTES → group_small objects.
Proof.
  intros Hh. unfold batch_reservation_bytes. case_bool_decide as E.
  { subst. intros _ _. by split. }
  destruct (N.ltb_spec MAX_BATCH_OBJECTS (len objects)); [done|]. intros Hs Hn.
  apply sum_reservation_Ok in Hs; [|done]. unfold MAX_BATCH_OBJECTS, BULK_REQUEST_BYTES in *. unfold group_small.
  split; [|done]. change (MAX_SEGMENT_BYTES - SEGMENT_TARGET_BYTES) with 134217728. lia.
Qed.

(** * The answers *)

Lemma set_answers_length answers st : length (set_answers answers st) = length st.
Proof. unfold set_answers. revert st. induction answers as [|a l IH]; intros st; [done|]. cbn [foldl]. by rewrite IH, length_insert. Qed.

Lemma set_answers_other answers st i : i ∉ answers.*1 → set_answers answers st !! i = st !! i.
Proof.
  unfold set_answers. revert st. induction answers as [|[j r] l IH]; intros st Hi; [done|]. csimpl in *.
  apply not_elem_of_cons in Hi as [Hne Hi]. rewrite IH by done. by rewrite list_lookup_insert_ne.
Qed.

Lemma set_answers_hit answers st (w i : nat) answer :
  NoDup answers.*1 → answers !! w = Some (i, answer) → (i < length st)%nat →
  set_answers answers st !! i = Some (Some (upload_status answer)).
Proof.
  revert st w. induction answers as [|[j x] l IH]; intros st w Hnd Hw Hi; [done|].
  csimpl in Hnd. apply NoDup_cons in Hnd as [Hj Hnd]. unfold set_answers in *. cbn [foldl fst snd].
  destruct w as [|w]; cbn in Hw.
  - injection Hw as -> ->. fold (set_answers l (<[i := Some (upload_status answer)]> st)).
    rewrite set_answers_other by done. by rewrite list_lookup_insert_eq.
  - apply (IH _ w); [done|done|]. by rewrite length_insert.
Qed.

(** A dependent keeps its status when what it needs was stored. *)
Lemma set_dependents_lookup results deps st i x :
  set_dependents results deps st !! i = Some x →
  x = Some URetryableStorageError ∨
  (st !! i = Some x ∧ ∀ w needs, (w, i, needs) ∈ deps → (i < length st)%nat →
     result_at results w = true → Forall (λ j, result_at results j = true) needs).
Proof.
  unfold set_dependents. revert st. induction deps as [|[[w j] needs] deps IH]; intros st; cbn [foldl].
  { intros H. right. split; [done|]. intros w needs Hin. by apply elem_of_nil in Hin. }
  intros [H|[H Hall]]%IH; [by left|].
  destruct (result_at results w && existsb (λ i, negb (result_at results i)) needs) eqn:E.
  - destruct (decide (i = j)) as [->|Hne].
    + destruct (decide (j < length st)%nat) as [Hlt|Hge].
      * rewrite list_lookup_insert_eq in H by done. left. congruence.
      * rewrite list_insert_ge in H by lia. right. split; [done|]. intros; lia.
    + rewrite list_lookup_insert_ne in H by done. right. split; [done|].
      intros w' needs' [[= -> -> ->]|Hin]%elem_of_cons Hlt; [done|]. apply Hall; [done|]. by rewrite length_insert.
  - right. split; [done|]. intros w' needs' [[= -> -> ->]|Hin]%elem_of_cons Hlt Hw; [|by apply (Hall w')].
    rewrite Hw in E. cbn in E. apply Forall_forall. intros k Hk. destruct (result_at results k) eqn:Ek; [done|].
    rewrite <-not_true_iff_false in E. destruct E. apply existsb_exists. exists k. split; [by apply list_elem_of_In|]. by rewrite Ek.
Qed.

Lemma set_dependents_length results deps st : length (set_dependents results deps st) = length st.
Proof.
  unfold set_dependents. revert st. induction deps as [|[[w j] needs] deps IH]; intros st; [done|]. cbn [foldl].
  rewrite IH. destruct (_ && _); [apply length_insert|done].
Qed.

Lemma set_dependents_some results deps st i :
  (∃ x, st !! i = Some (Some x)) → ∃ x, set_dependents results deps st !! i = Some (Some x).
Proof.
  unfold set_dependents. revert st. induction deps as [|[[w j] needs] deps IH]; intros st Hi; [done|]. cbn [foldl].
  apply IH. destruct (_ && _); [|done]. destruct Hi as [x Hi]. destruct (decide (i = j)) as [->|Hne].
  - exists URetryableStorageError. apply list_lookup_insert_eq. by eapply lookup_lt_Some.
  - exists x. by rewrite list_lookup_insert_ne.
Qed.

(** * The handler *)

Lemma admit_grows owner kind size s x s' :
  ob_inv s → admit_object_request owner kind size s = (x, s') →
  grows s s' ∧ ∀ n, x = Ok n → n = N.max (size * 2) 1.
Proof.
  intros HI. unfold admit_object_request, st_bind, st_lift.
  destruct (checked_mul64 size HTTP_STORAGE_PAYLOAD_COPIES) as [n|] eqn:En; cbn [ok_or];
    [|intros [= <- <-]; split; [by apply ob_grows_refl|done]].
  destruct (authenticated owner) as [o|e]; cbn [map_err]; [|intros [= <- <-]; split; [by apply ob_grows_refl|done]].
  destruct (ob_reserve o _ (N.max n 1) s) as [res s1] eqn:Er.
  destruct (ob_reserve_law _ _ _ _ _ _ HI Er) as [H1 H2].
  unfold checked_mul64 in En. destruct (_ <=? _); [|done]. injection En as <-.
  destruct res; intros [= <- <-]; (split; [done|]); [intros n [= <-]; done|done].
Qed.

(** What the writer answered for the objects of a prepared upload. *)
Lemma answers_spec rs p s reserved x s' :
  prep_inv rs (length rs) p s → Forall upload_record_ok rs → reserved ≤ 2 * BULK_REQUEST_BYTES →
  store_admitted reserved (pb_writer_objects p) s = (x, s') →
  more s s' ∧
  let results := match x with Ok results => results
                 | Err e => replicate (length (pb_record_for_writer_object p)) (Err e) end in
  length results = length (pb_record_for_writer_object p) ∧
  ∀ w o, result_at results w = true → pb_writer_objects p !! w = Some o → ob_has (object_key o) s'.
Proof.
  intros Hp Hrs Hres. unfold store_admitted. case_bool_decide as E0.
  { intros [= <- <-]. split; [done|]. cbn zeta. rewrite (pi_size _ _ _ _ Hp), E0. split; [done|]. by intros w o H. }
  assert (∀ e, let results := replicate (length (pb_record_for_writer_object p)) (Err e) : list StoreResult in
    length results = length (pb_record_for_writer_object p) ∧
    ∀ w o, result_at results w = true → pb_writer_objects p !! w = Some o → ob_has (object_key o) s) as Herr.
  { intros e. cbn zeta. rewrite length_replicate. split; [done|]. intros w o. unfold result_at.
    destruct (replicate _ _ !! w) as [y|] eqn:Ey; [|done]. by apply lookup_replicate in Ey as [-> _]. }
  destruct (batch_reservation_bytes (pb_writer_objects p)) as [size|e] eqn:Eb; [|intros [= <- <-]; split; [done|apply Herr]].
  destruct (N.ltb_spec reserved size); [intros [= <- <-]; split; [done|apply Herr]|].
  intros Hsub. assert (Forall (λ o, len (po_hash o) = 32) (pb_writer_objects p)) as Hh.
  { apply Forall_lookup. intros w o Ho. assert (w < length (pb_record_for_writer_object p))%nat as Hw
      by (rewrite (pi_size _ _ _ _ Hp); by eapply lookup_lt_Some).
    destruct (lookup_lt_is_Some_2 _ _ Hw) as [i Hi]. destruct (pi_objects _ _ _ _ Hp w i Hi) as (_ & r & o' & Hr & Ho' & Hk & _).
    rewrite Ho in Ho'. injection Ho' as <-. injection Hk as _ ->. rewrite Forall_forall in Hrs.
    apply (Hrs r). by eapply list_elem_of_lookup_2. }
  destruct (ob_submit_law _ _ _ _ (pi_inv _ _ _ _ Hp)
    (batch_small _ _ Hh Eb ltac:(lia)) Hsub) as [Hmore Hok].
  split; [done|]. destruct x as [results|e]; cbn zeta.
  - destruct (Hok results eq_refl) as [Hl Hhas]. split; [by rewrite Hl, (pi_size _ _ _ _ Hp)|].
    intros w o Hw Ho. unfold result_at in Hw. destruct (results !! w) as [[oc|]|] eqn:Ew; [|done..]. by eapply Hhas.
  - destruct (Herr e) as [Hl _]. split; [done|]. intros w o. unfold result_at.
    destruct (replicate _ _ !! w) as [y|] eqn:Ey; [|done]. by apply lookup_replicate in Ey as [-> _].
Qed.

(** A record with its final status: what an acknowledgement says. *)
Definition acknowledged s r (st : UploadStatus) : Prop :=
  st = UStored ∨ st = UAlreadyPresent →
  ob_has (record_key r) s ∧ record_ok r ∧
  (ur_kind r = KManifest → st = UStored → ∃ hashes, manifest_of (λ h, ob_has (chunk_key h) s) r hashes).

Lemma statuses_true rs p s s' results i r st :
  prep_inv rs (length rs) p s → more s s' →
  length results = length (pb_record_for_writer_object p) →
  (∀ w o, result_at results w = true → pb_writer_objects p !! w = Some o → ob_has (object_key o) s') →
  rs !! i = Some r →
  set_dependents results (pb_manifest_dependencies p)
    (set_answers (zip (pb_record_for_writer_object p) results) (pb_statuses p)) !! i = Some (Some st) →
  acknowledged s' r st.
Proof.
  intros Hp Hmore Hlen Hhas Hr Hst Hack.
  assert ((zip (pb_record_for_writer_object p) results).*1 = pb_record_for_writer_object p) as Hfst
    by (apply fst_zip; lia).
  apply set_dependents_lookup in Hst as [[= ->]|[Hst Hdeps]]; [by destruct Hack|].
  destruct (decide (i ∈ pb_record_for_writer_object p)) as [Hin|Hnin].
  - apply list_elem_of_lookup in Hin as [w Hw]. destruct (pi_objects _ _ _ _ Hp w i Hw) as (Hi & r' & o & Hr' & Ho & Hk & Hok).
    rewrite Hr in Hr'. injection Hr' as <-.
    destruct (lookup_lt_is_Some_2 results w) as [answer Ha]; [rewrite Hlen; by eapply lookup_lt_Some|].
    assert (i < length (pb_statuses p))%nat as Hlt by (rewrite (pi_len _ _ _ _ Hp); by eapply lookup_lt_Some).
    assert (Some (Some (upload_status answer)) = Some (Some st)) as [= <-].
    { rewrite <-Hst. symmetry. apply (set_answers_hit _ _ w); [rewrite Hfst; apply Hp| |done].
      apply lookup_zip_with_Some. by exists i, answer. }
    assert (result_at results w = true) as Hra.
    { unfold result_at. rewrite Ha. destruct answer as [oc|e]; [done|]. by destruct e, Hack. }
    rewrite <-Hk. split_and!; [by eapply Hhas|done|]. intros Hm _.
    destruct (pi_manifest _ _ _ _ Hp w i r Hw Hr Hm) as (deps & hashes & Hd & HM). exists hashes.
    assert (Forall (λ j, result_at results j = true) deps) as Hall.
    { apply (Hdeps w deps Hd); [by rewrite set_answers_length|done]. }
    eapply manifest_of_impl; [|exact HM]. intros h [?|(j & o' & Hj & Ho' & Hk')]; [by apply Hmore|].
    rewrite <-Hk'. rewrite Forall_forall in Hall. by eapply Hhas; [apply Hall|].
  - rewrite set_answers_other in Hst by (by rewrite Hfst).
    destruct (pi_status _ _ _ _ Hp i st Hst) as (_ & Hns & _). destruct Hack as [->| ->]; [done|].
    destruct (pi_present _ _ _ _ Hp i r Hst Hr) as [Hok Hh]. split_and!; [by apply Hmore|done|by intros _ [=]].
Qed.

Lemma statuses_set rs p s results i :
  prep_inv rs (length rs) p s → length results = length (pb_record_for_writer_object p) → (i < length rs)%nat →
  ∃ st, set_dependents results (pb_manifest_dependencies p)
    (set_answers (zip (pb_record_for_writer_object p) results) (pb_statuses p)) !! i = Some (Some st).
Proof.
  intros Hp Hlen Hi. apply set_dependents_some.
  assert ((zip (pb_record_for_writer_object p) results).*1 = pb_record_for_writer_object p) as Hfst
    by (apply fst_zip; lia).
  destruct (decide (i ∈ pb_record_for_writer_object p)) as [Hin|Hnin].
  - apply list_elem_of_lookup in Hin as [w Hw].
    destruct (lookup_lt_is_Some_2 results w) as [answer Ha]; [rewrite Hlen; by eapply lookup_lt_Some|].
    exists (upload_status answer). apply (set_answers_hit _ _ w); [rewrite Hfst; apply Hp| |by rewrite (pi_len _ _ _ _ Hp)].
    apply lookup_zip_with_Some. by exists i, answer.
  - destruct (pi_total _ _ _ _ Hp i Hi) as [[st Hst]|?]; [|done]. exists st.
    by rewrite set_answers_other by (by rewrite Hfst).
Qed.

(** C18: The answer to a bulk upload is true and complete, over any store that
    keeps its promises. A pack that is well-formed and admitted is answered -
    the internal errors of the handler do not occur - with one status for
    every record, in order; a record that is reported stored or already
    present has the hash it was sent under, or is a manifest, and its object
    is in the store; and for a manifest that is reported stored, all pieces of
    the file with its hash are in the store too. *)
Theorem bulk_put_acks_true owner body max_request_bytes s x s' :
  ob_inv s → max_request_bytes ≤ BULK_REQUEST_BYTES → process_bulk_put owner body max_request_bytes s = (x, s') →
  match x with
  | Ok ack => ∃ rs statuses, decode_upload_pack body BULK_OBJECTS max_request_bytes = Ok rs ∧
      encode_upload_ack statuses = Ok ack ∧ length statuses = length rs ∧
      ∀ i r st, rs !! i = Some r → statuses !! i = Some st → acknowledged s' r st
  | Err e => max_request_bytes < len body ∨ is_ok (fst (admit_object_request owner Content (len body) s)) = false ∨
      is_ok (decode_upload_pack body BULK_OBJECTS max_request_bytes) = false
  end.
Proof.
  intros HI Hmax. unfold process_bulk_put. destruct (N.ltb_spec max_request_bytes (len body)) as [Hlt|Hle].
  { intros [= <- <-]. by left. }
  unfold st_bind at 1. destruct (admit_object_request owner Content (len body) s) as [adm s1] eqn:Ea.
  destruct (admit_grows _ _ _ _ _ _ HI Ea) as [Hg Hadm].
  destruct adm as [n|e]; [|intros [= <- <-]; right; by left]. specialize (Hadm n eq_refl).
  unfold st_bind at 1, prepare_bulk_put, st_lift at 1, st_bind at 1.
  destruct (decode_upload_pack body BULK_OBJECTS max_request_bytes) as [rs|e] eqn:Ed; cbn [map_err];
    [|intros [= <- <-]; right; by right].
  assert (max_request_bytes ≤ U64_MAX) as Hu by (unfold BULK_REQUEST_BYTES, U64_MAX in *; lia).
  pose proof Ed as Ed'. apply (upload_pack_canonical _ _ _ _ Hu) in Ed' as (Hrs & Hcount & _ & _).
  destruct (st_fold prepare_record _ (imap pair rs) s1) as [y s2] eqn:Ef.
  destruct (prepare_loop_inv rs (imap pair rs) 0 _ s1 y s2 (prep_inv_start rs s1 (proj1 Hg))) with (2 := Ef)
    as (p & -> & Hp).
  { intros j. rewrite list_lookup_imap. done. }
  unfold st_bind at 1. destruct (store_admitted n (pb_writer_objects p) s2) as [z s3] eqn:Es.
  destruct (answers_spec rs p s2 n z s3 Hp Hrs) as (Hmore & Hlen & Hhas); [|exact Es|].
  { unfold BULK_REQUEST_BYTES in *. lia. }
  cbn zeta in Hlen, Hhas.
  assert ((match z with Ok results => (Ok results, s3)
           | Err e => (Ok (replicate (length (pb_record_for_writer_object p)) (Err e)), s3) end)
    = (@Ok ServerError _ (match z with Ok results => results
           | Err e => replicate (length (pb_record_for_writer_object p)) (Err e) end), s3)) as -> by by destruct z.
  revert Hlen Hhas. generalize (match z with Ok results => results
           | Err e => replicate (length (pb_record_for_writer_object p)) (Err e) end). intros results Hlen Hhas.
  rewrite Hlen, Nat.eqb_refl. cbn [negb]. unfold st_bind, st_lift.
  set (final := set_dependents _ _ _). assert (length final = length rs) as Hfl.
  { unfold final. rewrite set_dependents_length, set_answers_length. apply Hp. }
  assert (∃ statuses, mapM id final = Some statuses) as [statuses Hst].
  { apply mapM_is_Some. apply Forall_lookup. intros i o Ho.
    destruct (statuses_set rs p s2 results i Hp Hlen) as [st Hi]; [rewrite <-Hfl; by eapply lookup_lt_Some|].
    unfold final in Ho. rewrite Hi in Ho. injection Ho as <-. by eexists. }
  rewrite Hst. cbn [ok_or]. pose proof (Forall2_length _ _ _ (proj1 (mapM_Some _ _ _) Hst)) as Hml.
  assert (len statuses ≤ U32_MAX) as Hsl.
  { unfold len, BULK_OBJECTS, U32_MAX in *. lia. }
  unfold encode_upload_ack, u32_try at 1. rewrite (proj2 (N.leb_le _ _) Hsl). cbn [map_err]. intros [= <- <-].
  exists rs, statuses. split; [done|]. split; [unfold encode_upload_ack, u32_try; by rewrite (proj2 (N.leb_le _ _) Hsl)|].
  split; [lia|]. intros i r st Hr Hi. eapply statuses_true; [exact Hp|done|exact Hlen|done|done|].
  apply mapM_Some in Hst. destruct (Forall2_lookup_r _ _ _ _ _ Hst Hi) as (o & Ho & Eo). cbn in Eo. subst o. exact Ho.
Qed.
End upload.
