(* ===== verification/ObjectsStore.v ===== *)
(** The storage writer with its pack store as the [ObjectStore] of the object
    endpoints, and its laws; examples.

    A read meets no fault; a submission is committed as a group of its own and
    meets the faults [os_fates] lists for it. *)

From S2P Require Import Prelude Bytes Hash RootHead RootOutcome Faults PackFormat PackFormatProps Crc32c PackStore PackInvariant PackStoreProps PackOpenProps PackCrash Concrete StorageWriter StorageWriterProps WriterQueue WriterQueueProps WriterLoop Bulk Objects ObjectsProps ObjectsUpload.
Local Open Scope N_scope.

(** * The writer *)

(** A writer that has failed has no active segment. *)
Record WriterStore := {
  os_disk : PackDisk;
  os_index : gmap ObjectKey RecordLocation;
  os_active : option ActiveSegment;
  os_fates : list (list Fate);
  os_queue : QueueState;
}.

Definition os_world (s : WriterStore) : PackWorld := world (os_disk s) [] (os_index s).
Definition os_set_world (w : PackWorld) (s : WriterStore) : WriterStore :=
  {| os_disk := w_disk w; os_index := w_index w; os_active := os_active s; os_fates := os_fates s;
     os_queue := os_queue s |}.

Section store.
Context {B3 : Blake3} {HX : Hex} {JV : JsonValue}.

Definition store_submit (objects : list PackedObject) (s : WriterStore)
    : result WriterError (list StoreResult) * WriterStore :=
  match os_active s with
  | None => (Err Closed, s)
  | Some active =>
      match commit_objects active objects (world (os_disk s) (hd [] (os_fates s)) (os_index s)) with
      | (report, active, w) =>
          (Ok (cr_results report),
           {| os_disk := w_disk w; os_index := w_index w;
              os_active := if cr_fatal report then None else Some active;
              os_fates := tl (os_fates s); os_queue := os_queue s |})
      end
  end.

Definition store_reserve (owner : WriterOwner) (class : WriterClass) (n : N) (s : WriterStore)
    : result WriterError unit * WriterStore :=
  match reserve owner class n (os_queue s) with
  | Err e => (Err e, s)
  | Ok q => (Ok tt, {| os_disk := os_disk s; os_index := os_index s; os_active := os_active s;
                       os_fates := os_fates s; os_queue := q |})
  end.

#[global] Instance writer_store : ObjectStore WriterStore := {|
  ob_contains := λ k s, match contains k (os_world s) with
                        | (r, w) => (match r with Ok b => b | Err _ => false end, os_set_world w s)
                        end;
  ob_read := λ k s, match read k (os_world s) with (r, w) => (r, os_set_world w s) end;
  ob_reserve := store_reserve;
  ob_submit := store_submit;
|}.

(** * Its laws *)

Definition store_inv (s : WriterStore) : Prop :=
  ∃ g, match os_active s with
       | Some a => alive (λ _, True) g (os_disk s) (os_index s) a ∧ below_target a ∧ as_id a < U64_MAX
       | None => readable (λ _, True) g (os_disk s) (os_index s)
       end.

(** What a read without faults answers. *)
Definition loose_view (d : PackDisk) (k : ObjectKey) : option bytes :=
  data ← pk_loose d !! k; if is_ok (validate_bytes (ok_kind k) (ok_hash k) data) then Some data else None.
Definition store_view (s : WriterStore) (k : ObjectKey) : option bytes :=
  match fst (read k (os_world s)) with Ok found => found | Err _ => None end.
Definition store_has (k : ObjectKey) (s : WriterStore) : Prop :=
  is_Some (os_index s !! k) ∨ is_Some (loose_view (os_disk s) k).

Lemma store_inv_readable s : store_inv s → ∃ g, readable (λ _, True) g (os_disk s) (os_index s).
Proof. intros [g H]. exists g. destruct (os_active s); [|done]. by destruct H as [(Hd & Hi & _) _]. Qed.

Lemma os_set_same s : os_set_world (os_world s) s = s.
Proof. by destruct s. Qed.

Lemma loose_quiet s k : read_loose_verified k (os_world s) = (Ok (loose_view (os_disk s) k), os_world s).
Proof. done. Qed.

(** Without faults the answers are those of the view, and nothing changes. *)
Lemma store_read_spec s k :
  store_inv s →
  ob_read k s = (Ok (store_view s k), s) ∧ ob_contains k s = (bool_decide (is_Some (store_view s k)), s) ∧
  (is_Some (store_view s k) ↔ store_has k s).
Proof.
  intros [g H]%store_inv_readable. cbn [ob_read ob_contains writer_store]. unfold store_view, contains, store_has, indexed.
  destruct (os_index s !! k) as [l|] eqn:El.
  - destruct (read_quiet _ g _ _ k H ltac:(by rewrite El)) as (o & _ & _ & _ & Hr). fold (os_world s) in Hr.
    rewrite Hr. change (w_index (os_world s)) with (os_index s). rewrite El, os_set_same. cbn.
    split; [done|]. split; [by rewrite os_set_same|]. split; [by left; eexists|by eexists].
  - unfold read. change (w_index (os_world s)) with (os_index s). rewrite El, loose_quiet. cbn [fst].
    rewrite (bool_decide_eq_false_2 (is_Some None)) by apply is_Some_None. rewrite os_set_same.
    split; [done|]. split; [done|]. split; [by right|]. by intros [[? [=]]|?].
Qed.

Theorem store_quiet s : store_inv s → quiet_reads (store_view s) s.
Proof. intros H k. by destruct (store_read_spec s k H) as (? & ? & _). Qed.

(** The programs that leave the loose files alone. *)
Definition loose_kept {A} (m : Pack A) : Prop :=
  ∀ L, triple True (λ d _, pk_loose d = L) m (λ _ d _, pk_loose d = L) (λ d _, pk_loose d = L).

Lemma loose_bind {A B} (m : Pack A) (k : A → Pack B) : loose_kept m → (∀ a, loose_kept (k a)) → loose_kept (st_bind m k).
Proof. intros Hm Hk L. eapply t_bind; [apply Hm|intros a; apply Hk]. Qed.
Lemma loose_call message f g :
  (∀ d, pk_loose (f d) = pk_loose d) → (∀ n d, pk_loose (g n d) = pk_loose d) → loose_kept (os_call message f g).
Proof. intros Hf Hg L. apply t_os_call; intros; by rewrite ?Hf, ?Hg. Qed.
Lemma loose_try message f : (∀ d, pk_loose (f d) = pk_loose d) → loose_kept (os_try message f).
Proof. intros Hf. by apply loose_call. Qed.
Lemma loose_lift {A} (r : IoResult A) : loose_kept (st_lift r).
Proof. intros L. by apply t_lift. Qed.
Lemma loose_ret {A} (a : A) : loose_kept (st_ret a).
Proof. intros L. by apply t_ret. Qed.
Lemma loose_err {A} e : loose_kept (st_err e : Pack A).
Proof. intros L. by apply t_err. Qed.
Lemma loose_disk {B} (k : PackDisk → Pack B) : (∀ d, loose_kept (k d)) → loose_kept (st_bind get_disk k).
Proof. intros Hk L. apply t_with_disk. intros d. eapply t_pre; [apply Hk|]. by intros ? ? [_ ?]. Qed.
Lemma loose_result {A} (m : Pack A) : loose_kept m → loose_kept (os_result m).
Proof.
  intros Hm L. apply t_os_result. eapply t_conseq; [apply (Hm L)|done|done|]. by intros d i H _ e.
Qed.
Lemma loose_entries id : loose_kept (current_entries_for_segment id).
Proof. intros L w Hf HP. done. Qed.
Lemma loose_publish es : loose_kept (publish_entries es).
Proof. intros L w Hf HP. done. Qed.

Create HintDb loose_kept.
Hint Resolve loose_try loose_call loose_lift loose_ret loose_err loose_result loose_entries loose_publish : loose_kept.
Ltac loose_kept := repeat first
  [ case_match | apply loose_disk; intros ? | apply loose_bind; [|intros ?] | by eauto with loose_kept ].

(** Appending does not touch the loose files. *)
Lemma append_kept a objects : loose_kept (append_group a objects NoCommitFault).
Proof.
  unfold append_group, rollback_segment, seal_active, write_sidecar, replace_file, sync_directory, create_active_segment, os_read.
  loose_kept.
Qed.

Lemma commit_loose a objects w report a' w' :
  commit_objects a objects w = (report, a', w') → pk_loose (w_disk w') = pk_loose (w_disk w).
Proof.
  unfold commit_objects. case_bool_decide; [by intros [= <- <- <-]|].
  set (pending := omap _ _). pose proof (append_kept a pending (pk_loose (w_disk w)) w (λ _, I) eq_refl) as Hkept.
  destruct (append_group a pending NoCommitFault w) as [[a1|e] w1]; intros [= <- <- <-]; apply Hkept.
Qed.

Lemma stored_objects_sublist w objects : stored_objects w objects `sublist_of` objects.
Proof.
  unfold stored_objects. generalize (classify w ∅ objects). intros cs.
  revert cs. induction objects as [|o objects IH]; intros [|c cs]; csimpl; [done|done|apply sublist_nil_l|].
  destruct (is_stored c); [by apply sublist_skip|by apply sublist_cons].
Qed.

(** A commit that is not fatal leaves a segment that is not to be sealed. *)
Lemma commit_below g d i fates a objects report a' w' :
  alive (λ _, True) g d i a → as_id a < U64_MAX → group_fits a (stored_objects (world d fates i) objects) →
  below_target a → commit_objects a objects (world d fates i) = (report, a', w') →
  cr_fatal report = false → below_target a'.
Proof.
  intros Ha Hid Hfit Hb E. rewrite commit_refines in E. unfold commit_reference in E. set (w := world d fates i) in *.
  assert (Forall (good (λ _, True)) (stored_objects w objects)) as Hgood
    by (apply Forall_forall; by intros o [Hin Hv]%stored_object_inv).
  pose proof (triple_run True _ _ _ _ d fates i (append_spec _ g a _ Hgood Hfit Hid)) as H. fold w in H.
  destruct (append_group a (stored_objects w objects) NoCommitFault w) as [[a1|e] w1];
    injection E as <- <- <-; [|done]. destruct H as [Hlt _]; [done|done|]. intros _. auto.
Qed.

Lemma store_submit_inv objects s r s' :
  store_inv s → group_small objects → store_submit objects s = (r, s') →
  (∀ a, os_active s' = Some a → as_id a < U64_MAX) → store_inv s'.
Proof.
  intros [g H] Hsmall. unfold store_submit. destruct (os_active s) as [a|] eqn:Ea.
  2:{ intros [= <- <-] _. exists g. by rewrite Ea. }
  destruct H as (Ha & Hb & Hid). set (w := world _ _ _).
  assert (group_fits a (stored_objects w objects)) as Hfit.
  { apply group_small_fits; [done|]. eapply group_small_sublist; [|exact Hsmall]. apply stored_objects_sublist. }
  destruct (commit_objects a objects w) as [[report a'] w'] eqn:Ec. intros [= <- <-] Hids.
  destruct (commit_spec (λ _, True) g (os_disk s) (os_index s) (hd [] (os_fates s)) a objects report a' w')
    with (5 := Ec) as [(g' & Hle & Hw) Hr]; [done|by apply Forall_true|done|done|].
  exists g'. cbn [os_active os_disk os_index] in *. unfold writer_inv in Hw.
  destruct (cr_fatal report) eqn:Ef; [done|]. split_and!; [done|exact (commit_below _ _ _ _ _ _ _ _ _ Ha Hid Hfit Hb Ec Ef)|by apply Hids].
Qed.

Lemma store_submit_has objects s r s' k :
  store_inv s → group_small objects → store_submit objects s = (r, s') →
  (store_has k s → store_has k s') ∧
  (∀ results, r = Ok results → length results = length objects ∧
     ∀ i o outcome, results !! i = Some (Ok outcome) → objects !! i = Some o → store_has (object_key o) s').
Proof.
  intros [g H] Hsmall. unfold store_submit. destruct (os_active s) as [a|] eqn:Ea; [|by intros [= <- <-]].
  destruct H as (Ha & Hb & Hid). set (w := world _ _ _).
  pose proof (commit_results_length a objects w) as Hlen.
  destruct (commit_objects a objects w) as [[report a'] w'] eqn:Ec. intros [= <- <-].
  destruct (commit_spec (λ _, True) g (os_disk s) (os_index s) (hd [] (os_fates s)) a objects report a' w')
    with (5 := Ec) as [(g' & Hle & Hw) Hr]; [done|..].
  { by apply Forall_true. }
  { done. }
  { apply group_small_fits; [done|]. eapply group_small_sublist; [|exact Hsmall]. apply stored_objects_sublist. }
  pose proof (commit_loose _ _ _ _ _ _ Ec) as Hl. apply writer_inv_readable in Hw as [_ Hi'].
  destruct Ha as (_ & Hi & _). split.
  - intros [Hk|Hk]; [left|right]; cbn; [eapply index_keys_mono; [exact Hi|exact Hle|exact Hi'|exact Hk]|]. unfold loose_view in *. by rewrite Hl.
  - intros results [= <-]. split; [done|]. intros i o outcome Hi1 Ho. left. cbn. by eapply Hr.
Qed.

(** The pack store keeps the promises the object endpoints rely on. *)
#[global] Program Instance writer_store_laws : ObjectStoreLaws WriterStore := {|
  ob_inv := store_inv;
  ob_has := store_has;
|}.
Next Obligation.
  intros k s b s' HI. destruct (store_read_spec s k HI) as (_ & -> & Hh). intros [= <- <-].
  split_and!; [done|done|]. intros Hb%bool_decide_eq_true. by apply Hh.
Qed.
Next Obligation.
  intros k s r s' HI. destruct (store_read_spec s k HI) as (-> & _ & Hh). intros [= <- <-].
  split_and!; [done|done|]. intros data [= Hd]. apply Hh. by rewrite Hd.
Qed.
Next Obligation.
  intros owner class n s r s' HI. cbn [ob_reserve writer_store]. unfold store_reserve.
  destruct (reserve _ _ _ _); by intros [= <- <-].
Qed.
Next Obligation.
  intros objects s r s' HI Hsmall H. split.
  - intros k. by eapply (store_submit_has objects s r s' k).
  - by eapply (store_submit_has objects s r s' {| ok_kind := Content; ok_hash := [] |}).
Qed.

(** A store that was just opened on an empty disk. *)
Definition opened : IoResult ActiveSegment * PackWorld := open (world pk_empty [] ∅).
Definition opened_store (fates : list (list Fate)) : WriterStore :=
  {| os_disk := w_disk (snd opened); os_index := w_index (snd opened);
     os_active := match fst opened with Ok a => Some a | Err _ => None end;
     os_fates := fates; os_queue := qs_default |}.

Definition segment_ok (a : ActiveSegment) : bool :=
  (as_len a <? SEGMENT_TARGET_BYTES) && (len (as_entries a) <? SEGMENT_OBJECT_TARGET) && (as_id a <? U64_MAX).

Lemma opened_inv fates :
  match fst opened with Ok a => segment_ok a | Err _ => false end = true → store_inv (opened_store fates).
Proof.
  unfold store_inv, opened_store. cbn [os_active os_disk os_index]. pose proof (pack_inv_start (λ _, True)) as (g & Hset & _).
  pose proof (triple_run False _ _ _ _ pk_empty [] ∅ (open_store_spec (λ _, True) g)) as H. fold opened in H.
  destruct opened as [[a|e] w]; [|done]. cbn [fst snd].
  destruct H as (g' & _ & Ha); [done|split; [split; [done|]|done]|].
  { intros id [f Hf]. cbn [pk_empty pk_segments] in Hf. by rewrite lookup_empty in Hf. }
  intros Hok. unfold segment_ok in Hok. bool_to_prop. exists g'. by split_and!.
Qed.
End store.

(** * Examples *)

#[local] Existing Instance poly_blake3.
#[local] Existing Instance base16_hex.

Definition ox_chunk_codec (c : WireContentChunkRef) : bytes :=
  enc_str (wc_hash c) ++ enc_num (wc_offset c) ++ enc_num (wc_size c).
Definition ox_chunk_parser : parser WireContentChunkRef := λ s,
  '(h, s) ← dec_str s; '(o, s) ← dec_num s; '(n, s) ← dec_num s;
  Some ({| wc_hash := h; wc_offset := o; wc_size := n |}, s).

#[local] Instance ox_json : WireManifestJson := {|
  wm_encode := λ m, enc_str (wm_file_hash m) ++ enc_num (wm_total_size m) ++ enc_list ox_chunk_codec (wm_chunks m);
  wm_decode := λ s, '(h, s) ← dec_str s; '(n, s) ← dec_num s; '(cs, s) ← dec_list ox_chunk_parser (length s) s;
                    Some {| wm_file_hash := h; wm_total_size := n; wm_chunks := cs |};
|}.
#[local] Instance ox_value : JsonValue := {|
  json_value := λ s, m ← wm_decode s; Some (Obj [(str "file_hash", Str (wm_file_hash m))]);
|}.

(** A file in two pieces. *)
Definition ox_pieces : list bytes := [str "first piece "; str "and the second"].
Definition ox_file : FileHash := hash_bytes (concat ox_pieces).
Definition ox_hash (p : bytes) : bytes := hash_to_hex (hash_bytes p).
Definition ox_manifest : WireContentManifest :=
  {| wm_file_hash := hash_to_hex ox_file; wm_total_size := 26;
     wm_chunks := [{| wc_hash := ox_hash (str "first piece "); wc_offset := 0; wc_size := 12 |};
                   {| wc_hash := ox_hash (str "and the second"); wc_offset := 12; wc_size := 14 |}] |}.
Definition ox_objects : list PackedObject :=
  (λ p, {| po_kind := ContentChunk; po_hash := hash_bytes p; po_bytes := p |}) <$> ox_pieces.

Definition ox_start : WriterStore := opened_store [].
Definition ox_stored : WriterStore := snd (store_submit ox_objects ox_start).

Lemma ox_start_inv : store_inv ox_start.
Proof. apply opened_inv. by vm_compute. Qed.

Lemma group_small_bool objects :
  (len (records objects) <=? MAX_SEGMENT_BYTES - SEGMENT_TARGET_BYTES) && (len objects <=? 4096) = true →
  group_small objects.
Proof. intros H. bool_to_prop. done. Qed.

Lemma submit_inv_bool objects s :
  store_inv s →
  (len (records objects) <=? MAX_SEGMENT_BYTES - SEGMENT_TARGET_BYTES) && (len objects <=? 4096) = true →
  match os_active (snd (store_submit objects s)) with Some a => segment_ok a | None => true end = true →
  store_inv (snd (store_submit objects s)).
Proof.
  intros HI Hsmall%group_small_bool Hids. destruct (store_submit objects s) as [r s'] eqn:E.
  eapply store_submit_inv; [exact HI|exact Hsmall|exact E|]. intros a Ha. cbn [snd] in *. rewrite Ha in Hids.
  unfold segment_ok in Hids. by bool_to_prop.
Qed.

Lemma ox_stored_inv : store_inv ox_stored.
Proof. apply submit_inv_bool; [apply ox_start_inv|by vm_compute..]. Qed.

Lemma manifest_validation_exact_witness : validate_content_manifest ox_file ox_manifest ox_stored = (Ok tt, ox_stored).
Proof.
  apply (manifest_validation_exact (store_view ox_stored) ox_stored ox_file ox_manifest).
  - apply store_quiet, ox_stored_inv.
  - split; [by vm_compute|]. split; [by vm_compute|]. split; [by vm_compute|]. exists ox_pieces.
    split; [by vm_compute|]. split; [|split; by vm_compute].
    repeat constructor; vm_compute; reflexivity.
Defined.

(** One of the three objects that are asked for is not there. *)
Definition ox_hashes : list FileHash :=
  [hash_bytes (str "first piece "); hash_bytes (str "missing"); hash_bytes (str "and the second")].
Definition ox_found (h : FileHash) : option bytes := store_view ox_stored (storage_key ContentChunk h).



Example ox_downloaded : (ur_bytes <$> found KContentChunk ox_found ox_hashes) = ox_pieces.
Proof. vm_compute. reflexivity. Qed.

(** An upload of the pieces and the manifest of a file. *)
Definition ox_record (kind : ObjectKind) (hash : FileHash) (data : bytes) : UploadRecord :=
  {| ur_kind := kind; ur_flags := x00; ur_hash := hash; ur_plain_len := len data; ur_bytes := data |}.
Definition ox_records : list UploadRecord :=
  ((λ p, ox_record KContentChunk (hash_bytes p) p) <$> ox_pieces) ++ [ox_record KManifest ox_file (wm_encode ox_manifest)].
Definition ox_body : bytes := match encode_upload_pack ox_records with Ok b => b | Err _ => [] end.
Definition ox_put : result ServerError bytes * WriterStore :=
  process_bulk_put (str "device") ox_body BULK_REQUEST_BYTES ox_start.

Example ox_put_ack : fst ox_put = map_err Internal (encode_upload_ack [UStored; UStored; UStored]).
Proof. vm_compute. reflexivity. Qed.

Lemma bulk_put_acks_true_witness :
  ∃ ack rs statuses, fst ox_put = Ok ack ∧ decode_upload_pack ox_body BULK_OBJECTS BULK_REQUEST_BYTES = Ok rs ∧
    encode_upload_ack statuses = Ok ack ∧ length statuses = length rs ∧
    ∀ i r st, rs !! i = Some r → statuses !! i = Some st → acknowledged (snd ox_put) r st.
Proof.
  pose proof (bulk_put_acks_true (str "device") ox_body BULK_REQUEST_BYTES ox_start (fst ox_put) (snd ox_put)
    ox_start_inv) as H. rewrite ox_put_ack in H.
  destruct (encode_upload_ack [UStored; UStored; UStored]) as [ack|e] eqn:E; [|discriminate E].
  cbn [map_err] in H. destruct H as (rs & statuses & H); [done| |].
  { change (ox_put = (Ok ack, snd ox_put)). rewrite (surjective_pairing ox_put) at 1. by rewrite ox_put_ack, E. }
  exists ack, rs, statuses. rewrite ox_put_ack, E. exact (conj eq_refl H).
Defined.

(** A manifest of the same file without its chunks: the writer accepts it -
    it declares the file hash it is stored under - as it does when it imports
    the loose objects of an older server. *)
Definition ox_broken : WireContentManifest :=
  {| wm_file_hash := hash_to_hex ox_file; wm_total_size := 26; wm_chunks := [] |}.
Definition ox_imported : WriterStore :=
  snd (store_submit [{| po_kind := Manifest; po_hash := ox_file; po_bytes := wm_encode ox_broken |}] ox_start).
Definition ox_repair : result ServerError bytes * WriterStore :=
  process_bulk_put (str "device") ox_body BULK_REQUEST_BYTES ox_imported.

(** The check asks for the manifest, the upload of the right one is answered
    [AlreadyPresent], and afterwards the check asks for it again and it cannot
    be read: the writer does not replace an object it has. *)
Example broken_manifest_stays :
  fst (stored_manifest_is_usable ox_file ox_imported) = Ok false ∧
  fst ox_repair = map_err Internal (encode_upload_ack [UStored; UStored; UAlreadyPresent]) ∧
  fst (stored_manifest_is_usable ox_file (snd ox_repair)) = Ok false ∧
  fst (get_manifest (hash_to_hex ox_file) (snd ox_repair)) = Err (Internal "non-empty manifest has no chunks") ∧
  fst (put_manifest (str "device") (hash_to_hex ox_file) (wm_encode ox_manifest) (snd ox_repair)) = Ok tt.
Proof. vm_compute. split_and!; reflexivity. Qed.
