(* ===== verification/DiffPage.v ===== *)
(** src/crates/sync-core/src/diff_page.rs: bounded binary pages of a diff, and
    the cursor that continues after a page.

    A record within the limits is encoded in the announced length and read
    back, a cursor names the record it was made from, and the page after it
    starts with the next one, makes progress and stays within its cap. *)

From S2P Require Import Prelude Bytes Keyed Hash Chunk Diff RootHead PackFormat PackFormatProps Bulk.
Local Open Scope N_scope.

Definition REQUEST_MAGIC : bytes := str "OBQ1".
Definition PAGE_MAGIC : bytes := str "OBD1".
Definition CURSOR_MAGIC : bytes := str "OBC1".
Definition CURSOR_VERSION : byte := x01.

Definition REQUEST_HEADER_BYTES : N := 4 + 32 + 32 + 4 + 4 + 2.
Definition PAGE_HEADER_BYTES : N := 4 + 32 + 32 + 4 + 2.
Definition MIN_PAGE_BYTES : N := 64 * 1024.
Definition MAX_PAGE_BYTES : N := 2 * 1024 * 1024.
Definition MAX_PAGE_RECORDS : N := 8192.
Definition MAX_PATH_BYTES : N := 4096.
Definition MAX_CURSOR_BYTES : N := 4 + 1 + 32 + 32 + 1 + 2 + 2 + 2 * MAX_PATH_BYTES.
Definition CURSOR_FIXED : N := 4 + 1 + 32 + 32 + 1 + 2 + 2.

Record CursorKey := { cu_path : bytes; cu_action : N; cu_old_path : bytes }.
Record DiffCursor := { dc_from_root : FileHash; dc_to_root : FileHash; dc_key : CursorKey }.
Record DiffPageRequest := {
  rq_from_root : FileHash;
  rq_to_root : option FileHash;
  rq_max_records : N;
  rq_max_plain_bytes : N;
  rq_cursor : option DiffCursor;
}.
Record EncodedPage := { ep_bytes : bytes; ep_record_count : N; ep_has_more : bool }.

(** * Fields *)

Definition read_hash (b : bytes) (offset : N) : IoResult FileHash :=
  ok_or (get_range b offset (offset + 32)) "diff hash is truncated"%string.
Definition read_u16 (b : bytes) (offset : N) : IoResult N :=
  ok_or (le_val <$> get_range b offset (offset + 2)) "diff u16 is truncated"%string.
Definition read_u32 (b : bytes) (offset : N) : IoResult N :=
  ok_or (le_val <$> get_range b offset (offset + 4)) "diff u32 is truncated"%string.

(** [varint_len], for a value of 64 bits. *)
Fixpoint varint_len_loop (fuel : nat) (value : N) : N :=
  match fuel with
  | O => 1
  | S fuel => if 0x80 <=? value then 1 + varint_len_loop fuel (N.shiftr value 7) else 1
  end.
Definition varint_len (value : N) : N := varint_len_loop 10 value.

Fixpoint encode_varint_loop (fuel : nat) (value : N) : bytes :=
  match fuel with
  | O => []
  | S fuel =>
      let low := N.land value 0x7f in
      let value := N.shiftr value 7 in
      if value =? 0 then [n2b low] else n2b (N.lor low 0x80) :: encode_varint_loop fuel value
  end.
Definition encode_varint (value : N) : IoResult bytes :=
  if U32_MAX <? value then Err "diff varint overflow"%string else Ok (encode_varint_loop 10 value).

(** * Deltas *)

Definition validate_path (path : bytes) : IoResult unit :=
  if (len path =? 0) || (MAX_PATH_BYTES <? len path) || starts_with path (str "/")
  then Err "invalid vault-relative path length"%string
  else if contains_byte path "\"%byte
          || existsb (λ c, is_control c || (c =? 0x7f)) (chars path)
          || existsb (λ segment, beq segment [] || beq segment (str ".") || beq segment (str ".."))
               (split_byte path "/"%byte)
  then Err "unsafe vault-relative path"%string
  else Ok tt.

Definition validate_delta (d : FileDelta) : IoResult unit :=
  let? _ := validate_path (delta_path d) in
  match d with
  | Renamed path old_path _ _ _ =>
      let? _ := validate_path old_path in
      if beq path old_path then Err "rename source equals target"%string else Ok tt
  | _ => Ok tt
  end.

Definition action (d : FileDelta) : N :=
  match d with Added _ _ _ _ => 1 | Modified _ _ _ _ => 2 | Deleted _ _ => 3 | Renamed _ _ _ _ _ => 4 end.

Definition old_path (d : FileDelta) : bytes :=
  match d with Renamed _ old_path _ _ _ => old_path | _ => [] end.

(** The order of tuples of a path, an action and an old path. *)
Definition key_cmp (a b : CursorKey) : comparison :=
  match bcmp (cu_path a) (cu_path b) with
  | Eq => match cu_action a ?= cu_action b with
          | Eq => bcmp (cu_old_path a) (cu_old_path b)
          | c => c
          end
  | c => c
  end.

Definition left_key (d : FileDelta) : CursorKey :=
  {| cu_path := delta_path d; cu_action := action d; cu_old_path := old_path d |}.
Definition compare_deltas (left right : FileDelta) : comparison := key_cmp (left_key left) (left_key right).
Definition compare_delta_cursor (d : FileDelta) (cursor : CursorKey) : comparison := key_cmp (left_key d) cursor.

(** [sort_unstable_by(compare_deltas)]; records with equal keys are refused
    afterwards. *)
Fixpoint insert_delta (d : FileDelta) (ds : list FileDelta) : list FileDelta :=
  match ds with
  | [] => [d]
  | d' :: ds => match compare_deltas d d' with Gt => d' :: insert_delta d ds | _ => d :: d' :: ds end
  end.
Fixpoint sort_deltas (ds : list FileDelta) : list FileDelta :=
  match ds with [] => [] | d :: ds => insert_delta d (sort_deltas ds) end.

Fixpoint validate_deltas (ds : list FileDelta) : IoResult unit :=
  match ds with [] => Ok tt | d :: ds => let? _ := validate_delta d in validate_deltas ds end.

(** The loop over [windows(2)]. *)
Fixpoint check_pairs (ds : list FileDelta) : IoResult unit :=
  match ds with
  | a :: ((b :: _) as rest) =>
      if beq (delta_path a) (delta_path b) then Err "diff touches one target path more than once"%string
      else match compare_deltas a b with
           | Lt => check_pairs rest
           | _ => Err "diff records are not strictly ordered"%string
           end
  | _ => Ok tt
  end.

Definition sort_and_validate_deltas (deltas : list FileDelta) : IoResult (list FileDelta) :=
  let? _ := validate_deltas deltas in
  let deltas := sort_deltas deltas in
  let? _ := check_pairs deltas in
  Ok deltas.

(** * Cursors *)

Definition u16_try (n : N) (message : string) : IoResult N := if n <=? U16_MAX then Ok n else Err message.

Definition encode_cursor (from_root to_root : FileHash) (d : FileDelta) : IoResult bytes :=
  let path := delta_path d in
  let old_path := old_path d in
  let? path_len := u16_try (len path) "cursor path length overflow" in
  let? old_path_len := u16_try (len old_path) "cursor old path length overflow" in
  Ok (CURSOR_MAGIC ++ [CURSOR_VERSION] ++ from_root ++ to_root ++ [n2b (action d)]
      ++ le_bytes 2 path_len ++ le_bytes 2 old_path_len ++ path ++ old_path).

Definition byte_at (b : bytes) (i : N) : byte := nth (N.to_nat i) b x00.

Definition decode_cursor (b : bytes) : IoResult DiffCursor :=
  if (len b <? CURSOR_FIXED) || (MAX_CURSOR_BYTES <? len b) then Err "diff cursor length is invalid"%string
  else if negb (bool_decide (get_range b 0 4 = Some CURSOR_MAGIC)) || negb (bool_decide (byte_at b 4 = CURSOR_VERSION))
  then Err "unsupported diff cursor"%string
  else
    let? from_root := read_hash b 5 in
    let? to_root := read_hash b 37 in
    let action := b2n (byte_at b 69) in
    if negb (in_range 1 action 4) then Err "diff cursor action is invalid"%string
    else
      let? path_len := read_u16 b 70 in
      let? old_path_len := read_u16 b 72 in
      if (path_len =? 0) || (MAX_PATH_BYTES <? path_len) || (MAX_PATH_BYTES <? old_path_len)
      then Err "diff cursor path length is invalid"%string
      else if (action =? 4) && (old_path_len =? 0) || negb (action =? 4) && negb (old_path_len =? 0)
      then Err "diff cursor fields do not match action"%string
      else
        let? expected := ok_or (checked_add64 CURSOR_FIXED path_len ≫= λ size, checked_add64 size old_path_len)
                           "diff cursor length overflow"%string in
        if negb (len b =? expected) then Err "diff cursor has trailing or missing bytes"%string
        else
          let path_end := CURSOR_FIXED + path_len in
          let path := slice b CURSOR_FIXED path_end in
          if negb (utf8 path) then Err "diff cursor path is not UTF-8"%string
          else
            let old_path := dropN path_end b in
            if negb (utf8 old_path) then Err "diff cursor old path is not UTF-8"%string
            else
              let? _ := validate_path path in
              let? _ :=
                if beq old_path [] then Ok tt
                else
                  let? _ := validate_path old_path in
                  if beq old_path path then Err "diff cursor rename source equals target"%string else Ok tt in
              Ok {| dc_from_root := from_root; dc_to_root := to_root;
                    dc_key := {| cu_path := path; cu_action := action; cu_old_path := old_path |} |}.

(** * Requests *)

Definition zero_root : FileHash := repeat x00 32.

Definition decode_request (b : bytes) : IoResult DiffPageRequest :=
  if len b <? REQUEST_HEADER_BYTES then Err "diff request is truncated"%string
  else if negb (bool_decide (get_range b 0 4 = Some REQUEST_MAGIC)) then Err "invalid diff request magic"%string
  else
    let? from_root := read_hash b 4 in
    let? raw_to_root := read_hash b 36 in
    let? max_records := read_u32 b 68 in
    let? max_plain_bytes := read_u32 b 72 in
    let? cursor_len := read_u16 b 76 in
    if (max_records =? 0) || (MAX_PAGE_RECORDS <? max_records) then Err "diff request record cap is invalid"%string
    else if negb (in_range MIN_PAGE_BYTES max_plain_bytes MAX_PAGE_BYTES)
    then Err "diff request byte cap is invalid"%string
    else if MAX_CURSOR_BYTES <? cursor_len then Err "diff cursor exceeds hard limit"%string
    else
      let? expected := ok_or (checked_add64 REQUEST_HEADER_BYTES cursor_len) "diff request length overflow"%string in
      if negb (len b =? expected) then Err "diff request has trailing or missing bytes"%string
      else
        let to_root := if beq raw_to_root zero_root then None else Some raw_to_root in
        let? cursor :=
          if cursor_len =? 0 then Ok None
          else
            let? cursor := decode_cursor (dropN REQUEST_HEADER_BYTES b) in
            let? requested_to := ok_or to_root "continuation request omitted target root"%string in
            if negb (beq (dc_from_root cursor) from_root) || negb (beq (dc_to_root cursor) requested_to)
            then Err "diff cursor roots do not match request"%string
            else Ok (Some cursor) in
        Ok {| rq_from_root := from_root; rq_to_root := to_root; rq_max_records := max_records;
              rq_max_plain_bytes := max_plain_bytes; rq_cursor := cursor |}.

(** * Pages *)

Definition encoded_record_len (d : FileDelta) : IoResult N :=
  let? _ := validate_delta d in
  let length := 1 + varint_len (len (delta_path d)) + len (delta_path d) in
  let? length := match d with
                 | Renamed _ old_path _ _ _ =>
                     ok_or (checked_add64 length (varint_len (len old_path) + len old_path))
                       "diff record length overflow"%string
                 | _ => Ok length
                 end in
  match d with
  | Deleted _ _ => Ok length
  | _ => ok_or (checked_add64 length (32 + 8 + 8)) "diff record length overflow"%string
  end.

Definition encode_record (d : FileDelta) : IoResult bytes :=
  let? path_len := encode_varint (len (delta_path d)) in
  let? old := match d with
              | Renamed _ old_path _ _ _ =>
                  let? old_len := encode_varint (len old_path) in Ok (old_len ++ old_path)
              | _ => Ok []
              end in
  let meta := match d with
              | Added _ hash size mtime_ms | Modified _ hash size mtime_ms | Renamed _ _ hash size mtime_ms =>
                  hash ++ le_bytes 8 size ++ le_bytes 8 mtime_ms
              | Deleted _ _ => []
              end in
  Ok ([n2b (action d)] ++ path_len ++ delta_path d ++ old ++ meta).

Fixpoint encode_all (ds : list FileDelta) : IoResult bytes :=
  match ds with
  | [] => Ok []
  | d :: ds => let? b := encode_record d in let? rest := encode_all ds in Ok (b ++ rest)
  end.

(** The loop of [encode_page] over [deltas[end..]]: [count] is [end - start].
    The records, their bytes and the cursor of the page. *)
Fixpoint page_loop (from_root to_root : FileHash) (max_records max_plain_bytes count record_bytes : N)
    (next_cursor : bytes) (rest : list FileDelta) : IoResult (N * N * bytes) :=
  match rest with
  | [] => Ok (count, record_bytes, next_cursor)
  | d :: rest =>
      if negb (count <? max_records) then Ok (count, record_bytes, next_cursor)
      else
        let? encoded_len := encoded_record_len d in
        let? candidate_record_bytes := ok_or (checked_add64 record_bytes encoded_len)
                                         "diff page length overflow"%string in
        let? candidate_cursor := if bool_decide (rest = []) then Ok [] else encode_cursor from_root to_root d in
        let? candidate_total := ok_or (checked_add64 PAGE_HEADER_BYTES (len candidate_cursor)
                                         ≫= λ size, checked_add64 size candidate_record_bytes)
                                  "diff page length overflow"%string in
        if max_plain_bytes <? candidate_total then
          if count =? 0 then Err "one diff record exceeds negotiated page cap"%string
          else Ok (count, record_bytes, next_cursor)
        else page_loop from_root to_root max_records max_plain_bytes (count + 1) candidate_record_bytes
               candidate_cursor rest
  end.

Definition page_start (deltas : list FileDelta) (cursor : option DiffCursor) : IoResult nat :=
  match cursor with
  | None => Ok 0%nat
  | Some cursor =>
      match binary_search_by (λ d, compare_delta_cursor d (dc_key cursor)) deltas with
      | Ok i => Ok (S i)
      | Err _ => Err "diff cursor record is absent from snapshot"%string
      end
  end.

Definition encode_page (from_root to_root : FileHash) (deltas : list FileDelta) (request : DiffPageRequest)
    : IoResult EncodedPage :=
  if negb (beq (rq_from_root request) from_root) then Err "diff request source root changed"%string
  else if match rq_to_root request with Some root => negb (beq root to_root) | None => false end
  then Err "diff request target root changed"%string
  else if match rq_cursor request with
          | Some cursor => negb (beq (dc_from_root cursor) from_root) || negb (beq (dc_to_root cursor) to_root)
          | None => false
          end
  then Err "diff cursor snapshot changed"%string
  else
    let? start := page_start deltas (rq_cursor request) in
    let? '(record_count, record_bytes, next_cursor) :=
      page_loop from_root to_root (rq_max_records request) (rq_max_plain_bytes request) 0 0 [] (drop start deltas) in
    let finish := (start + N.to_nat record_count)%nat in
    let has_more := (finish <? length deltas)%nat in
    let? next_cursor :=
      if has_more && bool_decide (next_cursor = []) then
        let? previous := ok_or (match finish with O => None | S previous => deltas !! previous end)
                           "diff page made no cursor progress"%string in
        encode_cursor from_root to_root previous
      else Ok next_cursor in
    let next_cursor := if has_more then next_cursor else [] in
    let? cursor_len := u16_try (len next_cursor) "diff cursor length overflow" in
    let? count := if record_count <=? U32_MAX then Ok record_count else Err "diff record count overflow"%string in
    let? records := encode_all (take (N.to_nat record_count) (drop start deltas)) in
    let output := PAGE_MAGIC ++ from_root ++ to_root ++ le_bytes 4 count ++ le_bytes 2 cursor_len
                  ++ next_cursor ++ records in
    if rq_max_plain_bytes request <? len output then Err "encoded diff page exceeded negotiated cap"%string
    else Ok {| ep_bytes := output; ep_record_count := record_count; ep_has_more := has_more |}.

(** * Order *)

Lemma compare_paths a b : delta_path a ≠ delta_path b → compare_deltas a b = bcmp (delta_path a) (delta_path b).
Proof.
  intros Hne. unfold compare_deltas, key_cmp. cbn [left_key cu_path].
  destruct (bcmp_spec (delta_path a) (delta_path b)); done.
Qed.

Lemma insert_delta_perm d ds : insert_delta d ds ≡ₚ d :: ds.
Proof.
  induction ds as [|d' ds IH]; [done|]. cbn. destruct (compare_deltas d d'); [done..|].
  rewrite IH. apply Permutation_swap.
Qed.

Lemma sort_deltas_perm ds : sort_deltas ds ≡ₚ ds.
Proof. induction ds as [|d ds IH]; [done|]. cbn. by rewrite insert_delta_perm, IH. Qed.

Lemma insert_delta_by d ds : delta_path d ∉ (delta_path <$> ds) → insert_delta d ds = insert_by delta_path d ds.
Proof.
  induction ds as [|d' ds IH]; [done|]. csimpl. intros [Hne Hin]%not_elem_of_cons.
  rewrite (compare_paths d d' Hne), (IH Hin). unfold ble. by destruct (bcmp _ _).
Qed.

(** With one record for each path the order is that of the paths. *)
Lemma sort_deltas_by ds : NoDup (delta_path <$> ds) → sort_deltas ds = sort_by delta_path ds.
Proof.
  induction ds as [|d ds IH]; [done|]. csimpl. intros [Hd Hnd]%NoDup_cons. rewrite (IH Hnd).
  apply insert_delta_by. by rewrite sort_by_perm.
Qed.

Lemma check_pairs_Ok ds : check_pairs ds = Ok tt ↔ ssorted delta_path ds.
Proof.
  induction ds as [|a [|b ds] IH]; [split; [constructor|done]|split; [repeat constructor|done]|].
  change (check_pairs (a :: b :: ds)) with
    (if beq (delta_path a) (delta_path b) then Err "diff touches one target path more than once"%string
     else match compare_deltas a b with
          | Lt => check_pairs (b :: ds)
          | _ => Err "diff records are not strictly ordered"%string
          end).
  destruct (beq (delta_path a) (delta_path b)) eqn:E.
  { apply beq_true in E. split; [done|]. intros [[H _]%Forall_cons _]%ssorted_cons.
    exfalso. unfold key_lt in H. rewrite E in H. by apply (irreflexivity bytes_lt) in H. }
  assert (delta_path a ≠ delta_path b) as Hne by (intros H%beq_true; congruence).
  rewrite (compare_paths a b Hne). destruct (bcmp_spec (delta_path a) (delta_path b)) as [|Hlt|Hgt]; [done| |].
  - rewrite IH. rewrite (ssorted_cons _ a). split; [|by intros []]. intros Hs. split; [|done].
    constructor; [done|]. apply ssorted_cons in Hs as [Hs _]. eapply Forall_impl; [exact Hs|].
    intros x Hx. by etrans.
  - split; [done|]. intros [[H _]%Forall_cons _]%ssorted_cons. exfalso. by eapply bytes_lt_asym.
Qed.

Lemma validate_deltas_Ok ds : validate_deltas ds = Ok tt ↔ Forall (λ d, validate_delta d = Ok tt) ds.
Proof.
  induction ds as [|d ds IH]; [done|]. cbn. rewrite Forall_cons. destruct (validate_delta d) as [[]|]; naive_solver.
Qed.

Lemma sort_and_validate_Ok ds sorted :
  sort_and_validate_deltas ds = Ok sorted ↔
  Forall (λ d, validate_delta d = Ok tt) ds ∧ sorted = sort_deltas ds ∧ ssorted delta_path sorted.
Proof.
  unfold sort_and_validate_deltas. rewrite <-validate_deltas_Ok, <-check_pairs_Ok.
  destruct (validate_deltas ds) as [[]|]; [|split; [done|by intros [? _]]].
  destruct (check_pairs (sort_deltas ds)) as [[]|] eqn:E.
  - split; [intros [= <-]; done|]. by intros (_ & -> & _).
  - split; [done|]. intros (_ & -> & H). congruence.
Qed.

(** * Variable-length integers *)

(** The reader of a client. *)
Fixpoint parse_varint (fuel : nat) (b : bytes) : option (N * bytes) :=
  match fuel, b with
  | S fuel, x :: b =>
      if b2n x <? 0x80 then Some (b2n x, b)
      else '(high, b) ← parse_varint fuel b; Some (b2n x - 0x80 + 0x80 * high, b)
  | _, _ => None
  end.

Lemma low_bits v : N.land v 0x7f = v mod 128.
Proof. change 0x7f with (N.ones 7). by rewrite N.land_ones. Qed.

Lemma high_bit v : v < 128 → N.lor v 0x80 = v + 128.
Proof. intros H. destruct v as [|p]; [done|]. do 7 (destruct p as [p|p|]; try done); lia. Qed.

Lemma encode_varint_S fuel v :
  encode_varint_loop (S fuel) v =
  if v / 128 =? 0 then [n2b (v mod 128)] else n2b (N.lor (v mod 128) 0x80) :: encode_varint_loop fuel (v / 128).
Proof. cbn [encode_varint_loop]. rewrite low_bits, N.shiftr_div_pow2. done. Qed.
Lemma varint_len_S fuel v :
  varint_len_loop (S fuel) v = if 128 <=? v then 1 + varint_len_loop fuel (v / 128) else 1.
Proof. cbn [varint_len_loop]. by rewrite N.shiftr_div_pow2. Qed.
Lemma parse_varint_S fuel x b :
  parse_varint (S fuel) (x :: b) =
  if b2n x <? 0x80 then Some (b2n x, b)
  else '(high, b) ← parse_varint fuel b; Some (b2n x - 0x80 + 0x80 * high, b).
Proof. done. Qed.

Lemma parse_encode_varint fuel v rest :
  v < 128 ^ N.of_nat (S fuel) →
  parse_varint (S fuel) (encode_varint_loop (S fuel) v ++ rest) = Some (v, rest) ∧
  len (encode_varint_loop (S fuel) v) = varint_len_loop (S fuel) v.
Proof.
  revert v. induction fuel as [|fuel IH]; intros v Hv; rewrite encode_varint_S, varint_len_S;
    pose proof (N.mod_upper_bound v 128 ltac:(done)) as Hm; pose proof (N.div_mod v 128 ltac:(done)) as Hd;
    (destruct (N.eqb_spec (v / 128) 0) as [Hz|Hnz];
     [assert (v < 128) as Hs by lia; cbn [app]; rewrite parse_varint_S, b2n_n2b, (N.mod_small _ 256), (N.mod_small v 128) by lia;
      rewrite (proj2 (N.ltb_lt v 128)), (proj2 (N.leb_gt 128 v)) by lia; done|]).
  - exfalso. apply Hnz, N.div_small. cbn in Hv. lia.
  - assert (v / 128 < 128 ^ N.of_nat (S fuel)) as Hlt.
    { apply N.Div0.div_lt_upper_bound. rewrite <-N.pow_succ_r'. by rewrite <-Nat2N.inj_succ. }
    destruct (IH (v / 128) Hlt) as [IH1 IH2]. rewrite high_bit by done.
    assert (128 ≤ v) by (destruct (N.le_gt_cases 128 v); [done|]; rewrite N.div_small in Hnz by done; done).
    rewrite len_cons, IH2, (proj2 (N.leb_le 128 v)) by done. split; [|lia]. clear Hv Hlt IH IH2.
    rewrite <-app_comm_cons, parse_varint_S, b2n_n2b, (N.mod_small _ 256) by lia.
    rewrite (proj2 (N.ltb_ge (v mod 128 + 128) 128)) by apply N.le_add_l.
    rewrite IH1. cbn [mbind option_bind]. f_equal. f_equal. revert Hd. generalize (v mod 128) (v / 128). intros a b ->. rewrite N.add_sub. apply N.add_comm.
Qed.

(** * Records *)

(** What the record of a delta carries: a deletion comes without its hash. *)
Definition wire_delta (d : FileDelta) : FileDelta := match d with Deleted p _ => Deleted p [] | _ => d end.

(** What the types and the validation guarantee of a delta. *)
Definition meta_fits (hash : FileHash) (size mtime_ms : N) : Prop :=
  len hash = 32 ∧ size ≤ U64_MAX ∧ mtime_ms ≤ U64_MAX.
Definition delta_fits (d : FileDelta) : Prop :=
  validate_delta d = Ok tt ∧ utf8 (delta_path d) = true ∧ utf8 (old_path d) = true ∧
  match d with
  | Added _ h s m | Modified _ h s m | Renamed _ _ h s m => meta_fits h s m
  | Deleted _ _ => True
  end.

Definition take_bytes (n : N) (b : bytes) : option (bytes * bytes) :=
  if n <=? len b then Some (takeN n b, dropN n b) else None.

Definition parse_string (b : bytes) : option (bytes * bytes) :=
  '(n, b) ← parse_varint 10 b; take_bytes n b.

Definition parse_meta (b : bytes) : option (FileHash * N * N * bytes) :=
  '(h, b) ← take_bytes 32 b; '(s, b) ← take_bytes 8 b; '(m, b) ← take_bytes 8 b;
  Some (h, le_val s, le_val m, b).

Definition parse_record (b : bytes) : option (FileDelta * bytes) :=
  match b with
  | [] => None
  | a :: b =>
      '(path, b) ← parse_string b;
      match b2n a with
      | 1 => '(h, s, m, b) ← parse_meta b; Some (Added path h s m, b)
      | 2 => '(h, s, m, b) ← parse_meta b; Some (Modified path h s m, b)
      | 3 => Some (Deleted path [], b)
      | 4 => '(old, b) ← parse_string b; '(h, s, m, b) ← parse_meta b; Some (Renamed path old h s m, b)
      | _ => None
      end
  end.

Fixpoint parse_records (count : nat) (b : bytes) : option (list FileDelta) :=
  match count with
  | O => if bool_decide (b = []) then Some [] else None
  | S count => '(d, b) ← parse_record b; ds ← parse_records count b; Some (d :: ds)
  end.

Lemma take_bytes_app a rest n : len a = n → take_bytes n (a ++ rest) = Some (a, rest).
Proof.
  intros <-. unfold take_bytes. rewrite len_app, (proj2 (N.leb_le _ _)) by lia.
  by rewrite takeN_app, dropN_app.
Qed.

Lemma page_path_len p u : validate_path p = Ok u → 0 < len p ≤ MAX_PATH_BYTES.
Proof.
  unfold validate_path. destruct (_ || _) eqn:E; [done|]. bool_to_prop. intros _. lia.
Qed.

Lemma valid_lens d : validate_delta d = Ok tt →
  0 < len (delta_path d) ≤ MAX_PATH_BYTES ∧ len (old_path d) ≤ MAX_PATH_BYTES ∧
  validate_path (delta_path d) = Ok tt ∧
  (action d = 4 → 0 < len (old_path d) ∧ validate_path (old_path d) = Ok tt ∧ old_path d ≠ delta_path d).
Proof.
  unfold validate_delta. destruct (validate_path (delta_path d)) as [[]|] eqn:E; [|done].
  apply page_path_len in E as Hp. destruct d as [p h s m|p h s m|p h|p o h s m]; cbn in *;
    try (intros _; split_and!; [lia|lia|by rewrite len_nil|done|done]).
  destruct (validate_path o) as [[]|] eqn:Eo; [|done]. apply page_path_len in Eo as Ho.
  destruct (beq p o) eqn:Ebeq; [done|]. intros _. split_and!; [lia|lia|lia|done|]. intros _.
  split_and!; [lia|done|]. intros ->. by rewrite beq_refl in Ebeq.
Qed.

Lemma encode_varint_fits n : n ≤ MAX_PATH_BYTES →
  ∃ b, encode_varint n = Ok b ∧ len b = varint_len n ∧ varint_len n ≤ 2 ∧
    ∀ rest, parse_varint 10 (b ++ rest) = Some (n, rest).
Proof.
  unfold MAX_PATH_BYTES. intros Hn. exists (encode_varint_loop 10 n). unfold encode_varint, varint_len.
  rewrite (proj2 (N.ltb_ge _ _)) by (unfold U32_MAX; lia).
  assert (n < 128 ^ N.of_nat 10) as Hlt by (change (128 ^ N.of_nat 10) with 1180591620717411303424; lia).
  split_and!; [done|by apply (parse_encode_varint 9 n [])| |intros rest; by apply (parse_encode_varint 9 n rest)].
  rewrite varint_len_S. destruct (_ <=? _); [|lia]. rewrite varint_len_S.
  rewrite (proj2 (N.leb_gt _ _)); [lia|]. apply N.Div0.div_lt_upper_bound. lia.
Qed.

Lemma parse_string_ok p rest b :
  len p ≤ MAX_PATH_BYTES → encode_varint (len p) = Ok b → parse_string (b ++ p ++ rest) = Some (p, rest).
Proof.
  intros (b' & E & _ & _ & Hp)%encode_varint_fits. rewrite E. intros [= <-]. unfold parse_string. rewrite Hp.
  cbn [mbind option_bind]. by apply take_bytes_app.
Qed.

Lemma parse_meta_ok h s m rest :
  meta_fits h s m → parse_meta (h ++ le_bytes 8 s ++ le_bytes 8 m ++ rest) = Some (h, s, m, rest).
Proof.
  intros (Hh & Hs & Hm). unfold parse_meta. rewrite (take_bytes_app h _ 32 Hh). cbn [mbind option_bind].
  rewrite !take_bytes_app by (by rewrite len_le_bytes). cbn [mbind option_bind].
  rewrite take_bytes_app by (by rewrite len_le_bytes). cbn [mbind option_bind].
  unfold U64_MAX in *. rewrite !le_val_le_bytes by (cbn; lia). done.
Qed.

(** A record within the limits is encoded in the announced length, and read
    back whatever follows it. *)
Lemma encode_record_fits d :
  delta_fits d →
  ∃ b, encode_record d = Ok b ∧ encoded_record_len d = Ok (len b) ∧ len b ≤ 8245 ∧
    ∀ rest, parse_record (b ++ rest) = Some (wire_delta d, rest).
Proof.
  intros (Hv & _ & _ & Hm). pose proof (valid_lens d Hv) as (Hp & Ho & _ & _).
  unfold encode_record, encoded_record_len. rewrite Hv.
  destruct (encode_varint_fits (len (delta_path d))) as (pb & Epb & Hpb & Hpb2 & _); [lia|]. rewrite Epb.
  unfold MAX_PATH_BYTES in *.
  assert (∀ a rest', b2n (n2b a) = a → parse_record (([n2b a] ++ pb ++ delta_path d ++ rest')) =
    match a with
    | 1 => '(h, s, m, b) ← parse_meta rest'; Some (Added (delta_path d) h s m, b)
    | 2 => '(h, s, m, b) ← parse_meta rest'; Some (Modified (delta_path d) h s m, b)
    | 3 => Some (Deleted (delta_path d) [], rest')
    | 4 => '(old, b) ← parse_string rest'; '(h, s, m, b) ← parse_meta b; Some (Renamed (delta_path d) old h s m, b)
    | _ => None
    end) as Hparse.
  { intros a rest' Ha. cbn [app parse_record]. rewrite (parse_string_ok (delta_path d) rest' pb); [|by apply Hp|done].
    cbn [mbind option_bind]. by rewrite Ha. }
  destruct d as [p h s m|p h s m|p h|p o h s m]; cbn [delta_path old_path action wire_delta] in *.
  1,2: destruct Hm as (Hh & Hs & Hmt); eexists; split; [done|];
    rewrite !len_app, !len_le_bytes, Hh, Hpb; change (len [n2b 1]) with 1; change (len [n2b 2]) with 1;
    change (len (@nil byte)) with 0;
    (split; [unfold checked_add64; rewrite (proj2 (N.leb_le _ _)) by (unfold U64_MAX; lia); cbn [ok_or]; f_equal; lia|]);
    (split; [lia|]); intros rest; rewrite <-!app_assoc, Hparse by done; rewrite ?app_nil_l;
    by rewrite parse_meta_ok.
  - eexists. split; [done|]. rewrite !len_app, Hpb. change (len [n2b 3]) with 1. change (len (@nil byte)) with 0.
    split; [f_equal; lia|]. split; [lia|]. intros rest. rewrite !app_nil_r, <-!app_assoc. by rewrite Hparse.
  - destruct (encode_varint_fits (len o)) as (ob & Eob & Hob & Hob2 & _); [unfold MAX_PATH_BYTES; lia|]. rewrite Eob.
    destruct Hm as (Hh & Hs & Hmt). eexists. split; [done|].
    rewrite !len_app, !len_le_bytes, Hh, Hpb, Hob. change (len [n2b 4]) with 1. unfold checked_add64.
    rewrite (proj2 (N.leb_le _ _)) by (unfold U64_MAX; lia). cbn [ok_or].
    rewrite (proj2 (N.leb_le _ _)) by (unfold U64_MAX; lia). cbn [ok_or].
    split; [f_equal; lia|]. split; [lia|]. intros rest. rewrite <-!app_assoc, Hparse by done.
    rewrite (parse_string_ok o _ ob); [|unfold MAX_PATH_BYTES; lia|done]. cbn [mbind option_bind]. by rewrite parse_meta_ok.
Qed.

Lemma encode_all_fits ds :
  Forall delta_fits ds → ∃ b, encode_all ds = Ok b ∧ parse_records (length ds) b = Some (wire_delta <$> ds) .
Proof.
  induction 1 as [|d ds Hd _ (b & E & IH)]; [by exists []|].
  destruct (encode_record_fits d Hd) as (r & Er & _ & _ & Hr). exists (r ++ b). cbn [encode_all length parse_records].
  rewrite Er, E. split; [done|]. rewrite Hr. cbn [mbind option_bind]. by rewrite IH.
Qed.

(** * Cursors *)

Lemma action_byte d : b2n (n2b (action d)) = action d ∧ 1 ≤ action d ≤ 4.
Proof. by destruct d. Qed.

Lemma get_field c pre f post i j : c = pre ++ f ++ post → len pre = i → i + len f = j → get_range c i j = Some f.
Proof. intros ->. apply get_range_mid. Qed.

Lemma byte_field c pre x post i : c = pre ++ [x] ++ post → len pre = i → byte_at c i = x.
Proof.
  intros -> <-. unfold byte_at, len. rewrite Nat2N.id, app_nth2 by lia. by rewrite Nat.sub_diag.
Qed.

Lemma hash_field c pre h post i : c = pre ++ h ++ post → len pre = i → len h = 32 → read_hash c i = Ok h.
Proof. intros Hc Hi Hh. unfold read_hash. by rewrite (get_field c pre h post i (i + 32)) by (by rewrite ?Hh). Qed.

Lemma u16_field c pre n post i : c = pre ++ le_bytes 2 n ++ post → len pre = i → n ≤ U16_MAX → read_u16 c i = Ok n.
Proof.
  intros Hc Hi Hn. unfold read_u16. rewrite (get_field c pre (le_bytes 2 n) post i (i + 2)) by (by rewrite ?len_le_bytes).
  cbn [fmap option_fmap option_map ok_or]. f_equal. apply le_val_le_bytes. unfold U16_MAX in Hn. cbn. lia.
Qed.

Lemma u32_field c pre n post i : c = pre ++ le_bytes 4 n ++ post → len pre = i → n ≤ U32_MAX → read_u32 c i = Ok n.
Proof.
  intros Hc Hi Hn. unfold read_u32. rewrite (get_field c pre (le_bytes 4 n) post i (i + 4)) by (by rewrite ?len_le_bytes).
  cbn [fmap option_fmap option_map ok_or]. f_equal. apply le_val_le_bytes. unfold U32_MAX in Hn. cbn. lia.
Qed.

Lemma old_path_checked d : validate_delta d = Ok tt →
  (action d =? 4) && (len (old_path d) =? 0) || negb (action d =? 4) && negb (len (old_path d) =? 0) = false ∧
  (if beq (old_path d) [] then Ok tt
   else let? _ := validate_path (old_path d) in
        if beq (old_path d) (delta_path d) then Err "diff cursor rename source equals target"%string else Ok tt) = Ok tt.
Proof.
  intros (_ & _ & _ & H)%valid_lens. destruct d as [p h s m|p h s m|p h|p o h s m]; [done..|].
  cbn [action old_path delta_path] in *. destruct (H eq_refl) as (Ho & -> & Hne). split.
  - rewrite (proj2 (N.eqb_neq (len o) 0)) by lia. done.
  - destruct (beq o []) eqn:E; [done|]. destruct (beq o p) eqn:E2; [|done]. by apply beq_true in E2.
Qed.

Lemma cursor_roundtrip from_root to_root d :
  len from_root = 32 → len to_root = 32 → delta_fits d →
  ∃ c, encode_cursor from_root to_root d = Ok c ∧ CURSOR_FIXED < len c ≤ MAX_CURSOR_BYTES ∧
    decode_cursor c = Ok {| dc_from_root := from_root; dc_to_root := to_root; dc_key := left_key d |}.
Proof.
  intros Hf Ht (Hv & Hu & Huo & _). pose proof (valid_lens d Hv) as (Hp & Ho & Hvp & Hren).
  pose proof (action_byte d) as [Hab Ha].
  unfold encode_cursor, u16_try. unfold MAX_PATH_BYTES in Hp, Ho.
  rewrite (proj2 (N.leb_le (len (delta_path d)) U16_MAX)), (proj2 (N.leb_le (len (old_path d)) U16_MAX)) by (unfold U16_MAX; lia).
  set (c := CURSOR_MAGIC ++ _). exists c. split; [done|].
  assert (∀ x : byte, len [x] = 1) as H1 by done. assert (len CURSOR_MAGIC = 4) as Hm by done.
  assert (CURSOR_FIXED = 74) as HF by done. assert (MAX_CURSOR_BYTES = 8266) as HM by done.
  assert (len c = CURSOR_FIXED + len (delta_path d) + len (old_path d)) as Hlen.
  { unfold c. rewrite !len_app, !len_le_bytes, Hf, Ht, Hm, !H1. lia. }
  split; [lia|]. unfold decode_cursor.
  assert (get_range c 0 4 = Some CURSOR_MAGIC) as -> by (eapply (get_field c []); [done|done|by rewrite Hm]).
  assert (byte_at c 4 = CURSOR_VERSION) as -> by (by eapply (byte_field c CURSOR_MAGIC)).
  rewrite (hash_field c (CURSOR_MAGIC ++ [CURSOR_VERSION]) from_root _ 5 eq_refl) by done.
  erewrite (hash_field c (CURSOR_MAGIC ++ [CURSOR_VERSION] ++ from_root) to_root _ 37);
    [|by rewrite <-!app_assoc|rewrite !len_app, Hf, Hm, !H1; lia|done].
  erewrite (byte_field c (CURSOR_MAGIC ++ [CURSOR_VERSION] ++ from_root ++ to_root) (n2b (action d)) _ 69);
    [|by rewrite <-!app_assoc|rewrite !len_app, Hf, Ht, Hm, !H1; lia].
  set (pre := CURSOR_MAGIC ++ [CURSOR_VERSION] ++ from_root ++ to_root ++ [n2b (action d)]).
  assert (len pre = 70) as Hpre by (unfold pre; rewrite !len_app, Hf, Ht, Hm, !H1; lia).
  assert (c = pre ++ le_bytes 2 (len (delta_path d)) ++ le_bytes 2 (len (old_path d)) ++ delta_path d ++ old_path d)
    as Hc by (unfold c, pre; by rewrite <-!app_assoc).
  rewrite (u16_field c pre _ _ 70 Hc Hpre) by (unfold U16_MAX; lia).
  erewrite (u16_field c (pre ++ le_bytes 2 (len (delta_path d))) (len (old_path d)) _ 72);
    [|by rewrite Hc, <-!app_assoc|rewrite len_app, len_le_bytes, Hpre; lia|unfold U16_MAX; lia].
  assert (slice c CURSOR_FIXED (CURSOR_FIXED + len (delta_path d)) = delta_path d) as Hs.
  { rewrite Hc, (app_assoc _ (le_bytes 2 (len (old_path d)))), app_assoc. apply slice_mid; [|done].
    rewrite !len_app, !len_le_bytes, Hpre. done. }
  assert (dropN (CURSOR_FIXED + len (delta_path d)) c = old_path d) as Hd.
  { rewrite Hc, !app_assoc. apply dropN_app. rewrite !len_app, !len_le_bytes, Hpre. done. }
  clearbody c.
  rewrite (proj2 (N.ltb_ge (len c) CURSOR_FIXED)), (proj2 (N.ltb_ge MAX_CURSOR_BYTES (len c))) by lia.
  rewrite !bool_decide_eq_true_2 by done. cbn [orb negb]. rewrite Hab. unfold in_range.
  rewrite (proj2 (andb_true_iff _ _)) by (split; apply N.leb_le; lia). cbn [negb].
  destruct (old_path_checked d Hv) as [Hact Hold]. rewrite Hact, Hs, Hd, Hu, Huo, Hvp, Hold. cbn [negb].
  unfold MAX_PATH_BYTES. rewrite (proj2 (N.eqb_neq (len (delta_path d)) 0)) by lia.
  rewrite (proj2 (N.ltb_ge 4096 (len (delta_path d)))), (proj2 (N.ltb_ge 4096 (len (old_path d)))) by lia. cbn [orb].
  unfold checked_add64. rewrite (proj2 (N.leb_le (CURSOR_FIXED + len (delta_path d)) U64_MAX)) by (unfold U64_MAX; lia).
  cbn [mbind option_bind]. rewrite (proj2 (N.leb_le _ U64_MAX)) by (unfold U64_MAX; lia). cbn [ok_or].
  by rewrite Hlen, N.eqb_refl.
Qed.

(** * The loop of a page *)

Section pages.
Context (from_root to_root : FileHash) (Hfrom : len from_root = 32) (Hto : len to_root = 32).
Context (max_records max_plain_bytes : N).
Context (Hmin : MIN_PAGE_BYTES ≤ max_plain_bytes) (Hmax : max_plain_bytes ≤ MAX_PAGE_BYTES).

(** The cursor of a page that takes [n] of the records [rest]. *)
Definition cursor_after (rest : list FileDelta) (n : nat) (cursor : bytes) : Prop :=
  (n = length rest ∧ cursor = []) ∨
  (∃ d, (n < length rest)%nat ∧ rest !! pred n = Some d ∧ encode_cursor from_root to_root d = Ok cursor).

Lemma candidate_cursor_ok d (rest : list FileDelta) :
  delta_fits d → ∃ c, (if bool_decide (rest = []) then Ok [] else encode_cursor from_root to_root d) = Ok c ∧
    len c ≤ MAX_CURSOR_BYTES ∧ cursor_after (d :: rest) 1 c.
Proof.
  intros Hd. case_bool_decide as E.
  - exists []. split_and!; [done|done|]. left. by subst.
  - destruct (cursor_roundtrip _ _ d Hfrom Hto Hd) as (c & Ec & Hc & _). exists c. split_and!; [done|lia|].
    right. exists d. destruct rest; [done|]. cbn. by split_and!; [lia| |].
Qed.

Lemma page_loop_spec rest count rb cur :
  Forall delta_fits rest → rb ≤ max_plain_bytes → (count = 0 → rb = 0) →
  ∃ n recs cursor,
    page_loop from_root to_root max_records max_plain_bytes count rb cur rest
      = Ok (count + N.of_nat n, rb + len recs, cursor) ∧
    (n ≤ length rest)%nat ∧ encode_all (take n rest) = Ok recs ∧
    (n = 0%nat → cursor = cur) ∧
    ((0 < n)%nat → cursor_after rest n cursor ∧ count + N.of_nat n ≤ max_records ∧
       PAGE_HEADER_BYTES + len cursor + (rb + len recs) ≤ max_plain_bytes) ∧
    (count = 0 → 0 < max_records → rest ≠ [] → (0 < n)%nat).
Proof.
  intros Hrest. revert count rb cur.
  assert (∀ count rb cur (rest : list FileDelta), (count = 0 → 0 < max_records → rest ≠ [] → False) →
    ∃ n recs cursor, @Ok string _ (count, rb, cur) = Ok (count + N.of_nat n, rb + len recs, cursor) ∧
    (n ≤ length rest)%nat ∧ encode_all (take n rest) = Ok recs ∧ (n = 0%nat → cursor = cur) ∧
    ((0 < n)%nat → cursor_after rest n cursor ∧ count + N.of_nat n ≤ max_records ∧
       PAGE_HEADER_BYTES + len cursor + (rb + len recs) ≤ max_plain_bytes) ∧
    (count = 0 → 0 < max_records → rest ≠ [] → (0 < n)%nat)) as Hstop.
  { intros count rb cur rest' Hne. exists 0%nat, [], cur. rewrite (len_nil (A := byte)), !N.add_0_r.
    split_and!; [done|lia|done|done|lia|]. intros H1 H2 H3. by destruct (Hne H1 H2 H3). }
  induction Hrest as [|d rest Hd Hrest IH]; intros count rb cur Hrb H0; cbn [page_loop]; [by apply Hstop|].
  destruct (N.ltb_spec count max_records) as [Hc|Hc]; cbn [negb]; [|apply Hstop; lia].
  destruct (encode_record_fits d Hd) as (r & Er & El & Hl & _). rewrite El.
  destruct (candidate_cursor_ok d rest Hd) as (c & Ec & Hcl & Hca).
  unfold MIN_PAGE_BYTES, MAX_PAGE_BYTES in Hmin, Hmax. change MAX_CURSOR_BYTES with 8266 in Hcl. change PAGE_HEADER_BYTES with 74 in *.
  assert (∀ x y, x + y ≤ 20000000 → checked_add64 x y = Some (x + y)) as Hadd.
  { intros x y Hxy. unfold checked_add64. by rewrite (proj2 (N.leb_le _ _)) by (unfold U64_MAX; lia). }
  rewrite Hadd by lia. cbn [ok_or]. rewrite Ec, Hadd by lia. cbn [mbind option_bind]. rewrite Hadd by lia. cbn [ok_or].
  destruct (N.ltb_spec max_plain_bytes (74 + len c + (rb + len r))) as [Hbig|Hfit].
  { destruct (N.eqb_spec count 0) as [Hz|Hnz]; [specialize (H0 Hz); lia|]. apply Hstop. lia. }
  destruct (IH (count + 1) (rb + len r) c) as (n & recs & cursor & Hrun & Hn & Henc & Hsame & Hmore & _); [lia|lia|].
  exists (S n), (r ++ recs), cursor. rewrite Hrun, len_app. split; [f_equal; f_equal; f_equal; lia|].
  split; [cbn; lia|]. split; [cbn [take encode_all]; by rewrite Er, Henc|]. split; [done|]. split; [|lia]. intros _.
  destruct (decide (n = 0%nat)) as [->|Hnz].
  - rewrite (Hsame eq_refl). cbn [take encode_all] in Henc. injection Henc as <-. rewrite len_nil.
    split_and!; [done|lia|lia].
  - destruct Hmore as (Hcur & Hcount & Hbytes); [lia|]. split_and!; [|lia|lia].
    destruct Hcur as [[-> ->]|(d' & Hlt & Hd' & Ed')]; [by left|]. right. exists d'. split_and!; [cbn; lia| |done].
    destruct n; [done|]. done.
Qed.

(** The cursor a request continues from: after the first [k] records. *)
Definition cursor_at (ds : list FileDelta) (k : nat) (cursor : option DiffCursor) : Prop :=
  (k = 0%nat ∧ cursor = None) ∨
  (∃ d, (0 < k)%nat ∧ ds !! pred k = Some d ∧
     cursor = Some {| dc_from_root := from_root; dc_to_root := to_root; dc_key := left_key d |}).

Lemma page_start_at ds k cursor : ssorted delta_path ds → cursor_at ds k cursor → page_start ds cursor = Ok k.
Proof.
  intros Hs [[-> ->]|(d & Hk & Hd & ->)]; [done|]. unfold page_start. cbn [dc_key].
  destruct (list_elem_of_split_length _ _ _ Hd) as (l1 & l2 & -> & Hl).
  apply ssorted_app in Hs as (Hlt & _ & [Hgt _]%ssorted_cons).
  assert (∀ a b, delta_path a ≺ delta_path b → compare_deltas a b = Lt ∧ compare_deltas b a = Gt) as Hcmp.
  { intros a b Hab. rewrite !compare_paths by (intros E; rewrite E in Hab; by apply (irreflexivity bytes_lt) in Hab).
    split; [done|]. by apply bcmp_gt. }
  rewrite binary_search_by_Ok.
  - f_equal. lia.
  - apply Forall_forall. intros x Hx. apply (Hcmp x d), Hlt; [done|]. left.
  - unfold compare_delta_cursor, key_cmp. by rewrite !bcmp_refl, N.compare_refl.
  - eapply Forall_impl; [exact Hgt|]. intros x Hx. by apply (Hcmp d x).
Qed.

(** The cursor of a page that ends after the first [k] records. *)
Definition page_end (ds : list FileDelta) (k : nat) (cursor : bytes) : Prop :=
  (k = length ds ∧ cursor = []) ∨
  ∃ d, (k < length ds)%nat ∧ ds !! pred k = Some d ∧ encode_cursor from_root to_root d = Ok cursor ∧
    CURSOR_FIXED < len cursor ≤ MAX_CURSOR_BYTES.

Lemma page_end_len ds k cursor : page_end ds k cursor → len cursor ≤ MAX_CURSOR_BYTES.
Proof. intros [[_ ->]|(d & _ & _ & _ & _ & H)]; [apply N.le_0_l|exact H]. Qed.

Lemma page_end_more ds k cursor :
  page_end ds k cursor →
  (k <? length ds)%nat && bool_decide (cursor = []) = false ∧ (if (k <? length ds)%nat then cursor else []) = cursor.
Proof.
  intros [[-> ->]|(d & Hk & _ & _ & Hc & _)]; [by rewrite Nat.ltb_irrefl|].
  rewrite (proj2 (Nat.ltb_lt _ _) Hk), bool_decide_eq_false_2; [done|]. intros ->. by apply N.nlt_0_r in Hc.
Qed.

(** The loop after the first [k] records. *)
Lemma page_run ds k :
  Forall delta_fits ds → (k ≤ length ds)%nat → 0 < max_records →
  ∃ n recs cursor,
    page_loop from_root to_root max_records max_plain_bytes 0 0 [] (drop k ds) = Ok (N.of_nat n, len recs, cursor) ∧
    (k + n ≤ length ds)%nat ∧ N.of_nat n ≤ max_records ∧ ((k < length ds)%nat → (0 < n)%nat) ∧
    encode_all (take n (drop k ds)) = Ok recs ∧ page_end ds (k + n) cursor ∧
    PAGE_HEADER_BYTES + len cursor + len recs ≤ max_plain_bytes.
Proof.
  intros Hds Hk Hpos.
  destruct (page_loop_spec (drop k ds) 0 0 []) as (n & recs & cursor & Hrun & Hn & Henc & Hzero & Hmore & Hprog);
    [by apply Forall_drop|lia|done|]. rewrite !N.add_0_l in Hrun. rewrite length_drop in Hn.
  assert ((k < length ds)%nat → (0 < n)%nat) as Hn0.
  { intros Hlt. apply Hprog; [done|done|]. intros E%(f_equal length). rewrite length_drop in E. cbn in E. lia. }
  exists n, recs, cursor. split; [exact Hrun|]. split; [lia|].
  destruct (decide (n = 0%nat)) as [->|Hnz].
  - cbn [take encode_all] in *. injection Henc as <-. rewrite (Hzero eq_refl). change (len (@nil byte)) with 0.
    split_and!; [lia|done|done|left; split; [lia|done]|]. unfold MIN_PAGE_BYTES in Hmin. change PAGE_HEADER_BYTES with 74. lia.
  - destruct Hmore as (Hcur & Hcount & Hbytes); [lia|]. split_and!; [lia|done|done| |lia].
    destruct Hcur as [[Hl ->]|(d & Hlt & Hd & Ed)]; rewrite length_drop in *; [left; split; [lia|done]|]. right. exists d.
    rewrite lookup_drop in Hd. replace (k + pred n)%nat with (pred (k + n)) in Hd by lia. split_and!; [lia|done|done|..];
      rewrite Forall_forall in Hds;
      destruct (cursor_roundtrip _ _ d Hfrom Hto (Hds d (list_elem_of_lookup_2 _ _ _ Hd))) as (c & Ec & Hc & _);
      rewrite Ed in Ec; injection Ec as <-; lia.
Qed.

(** The page after the first [k] records. *)
Lemma encode_page_at ds k request :
  Forall delta_fits ds → ssorted delta_path ds → (k ≤ length ds)%nat → cursor_at ds k (rq_cursor request) →
  rq_from_root request = from_root → rq_to_root request = None ∨ rq_to_root request = Some to_root →
  rq_max_records request = max_records → rq_max_plain_bytes request = max_plain_bytes →
  0 < max_records → max_records ≤ U32_MAX →
  ∃ n recs cursor, encode_page from_root to_root ds request =
      Ok {| ep_bytes := PAGE_MAGIC ++ from_root ++ to_root ++ le_bytes 4 (N.of_nat n) ++ le_bytes 2 (len cursor)
                        ++ cursor ++ recs;
            ep_record_count := N.of_nat n; ep_has_more := (k + n <? length ds)%nat |} ∧
    (k + n ≤ length ds)%nat ∧ N.of_nat n ≤ max_records ∧ ((k < length ds)%nat → (0 < n)%nat) ∧
    encode_all (take n (drop k ds)) = Ok recs ∧ page_end ds (k + n) cursor.
Proof.
  intros Hds Hs Hk Hcur Hf Ht Hmr Hmp Hpos Hu32. unfold encode_page. rewrite Hf, beq_refl. cbn [negb].
  assert (match rq_to_root request with Some root => negb (beq root to_root) | None => false end = false) as ->
    by (destruct Ht as [-> | ->]; [done|by rewrite beq_refl]).
  assert (match rq_cursor request with
          | Some cursor => negb (beq (dc_from_root cursor) from_root) || negb (beq (dc_to_root cursor) to_root)
          | None => false end = false) as ->
    by (destruct Hcur as [[_ ->]|(d & _ & _ & ->)]; [done|]; cbn; by rewrite !beq_refl).
  rewrite (page_start_at ds k _ Hs Hcur), Hmr, Hmp.
  destruct (page_run ds k Hds Hk Hpos) as (n & recs & cursor & Hrun & Hn & Hcount & Hprog & Henc & Hend & Hbytes).
  rewrite Hrun, Nat2N.id. destruct (page_end_more _ _ _ Hend) as [-> ->]. pose proof (page_end_len _ _ _ Hend) as Hcl.
  unfold u16_try. change MAX_CURSOR_BYTES with 8266 in Hcl.
  rewrite (proj2 (N.leb_le (len cursor) U16_MAX)) by (unfold U16_MAX; lia).
  rewrite (proj2 (N.leb_le (N.of_nat n) U32_MAX)) by lia. rewrite Henc, (proj2 (N.ltb_ge _ _)).
  2:{ rewrite !len_app, !len_le_bytes, Hfrom, Hto. change (len PAGE_MAGIC) with 4. change PAGE_HEADER_BYTES with 74 in Hbytes. lia. }
  by exists n, recs, cursor.
Qed.
End pages.

(** * Requests *)

(** The request of a client; the first one sends a target root of zeros to ask
    for the current root, the later ones the root and the cursor of the page. *)
Definition page_request (from_root to_root : FileHash) (max_records max_plain_bytes : N) (cursor : bytes) : bytes :=
  REQUEST_MAGIC ++ from_root ++ to_root ++ le_bytes 4 max_records ++ le_bytes 4 max_plain_bytes
  ++ le_bytes 2 (len cursor) ++ cursor.

Definition caps_ok (max_records max_plain_bytes : N) : Prop :=
  0 < max_records ≤ MAX_PAGE_RECORDS ∧ MIN_PAGE_BYTES ≤ max_plain_bytes ≤ MAX_PAGE_BYTES.

Lemma decode_page_request from_root to_root mr mb cursor decoded :
  len from_root = 32 → len to_root = 32 → caps_ok mr mb →
  (cursor = [] ∧ decoded = None) ∨
  (∃ c, decoded = Some c ∧ 0 < len cursor ≤ MAX_CURSOR_BYTES ∧ decode_cursor cursor = Ok c ∧
     dc_from_root c = from_root ∧ dc_to_root c = to_root ∧ to_root ≠ zero_root) →
  decode_request (page_request from_root to_root mr mb cursor) =
  Ok {| rq_from_root := from_root; rq_to_root := if beq to_root zero_root then None else Some to_root;
        rq_max_records := mr; rq_max_plain_bytes := mb; rq_cursor := decoded |}.
Proof.
  intros Hf Ht [Hmr Hmb] Hcur. unfold MAX_PAGE_RECORDS, MIN_PAGE_BYTES, MAX_PAGE_BYTES in *.
  assert (MAX_CURSOR_BYTES = 8266) as HM by done. assert (REQUEST_HEADER_BYTES = 78) as HR by done.
  assert (len cursor ≤ 8266) as Hc.
  { destruct Hcur as [[-> _]|(c & _ & H & _)]; [rewrite len_nil; lia|lia]. }
  unfold decode_request. set (b := page_request _ _ _ _ _). assert (len REQUEST_MAGIC = 4) as Hm by done.
  assert (len b = REQUEST_HEADER_BYTES + len cursor) as Hlen.
  { unfold b, page_request. rewrite !len_app, !len_le_bytes, Hf, Ht, Hm, HR. lia. }
  rewrite (proj2 (N.ltb_ge (len b) REQUEST_HEADER_BYTES)) by lia.
  assert (get_range b 0 4 = Some REQUEST_MAGIC) as -> by (eapply (get_field b []); [done|done|by rewrite Hm]).
  rewrite bool_decide_eq_true_2 by done. cbn [negb].
  rewrite (hash_field b REQUEST_MAGIC from_root _ 4 eq_refl Hm Hf).
  erewrite (hash_field b (REQUEST_MAGIC ++ from_root) to_root _ 36); [|by rewrite <-!app_assoc|by rewrite len_app, Hf, Hm|done].
  erewrite (u32_field b (REQUEST_MAGIC ++ from_root ++ to_root) mr _ 68);
    [|by rewrite <-!app_assoc|by rewrite !len_app, Hf, Ht, Hm|unfold U32_MAX; lia].
  erewrite (u32_field b (REQUEST_MAGIC ++ from_root ++ to_root ++ le_bytes 4 mr) mb _ 72);
    [|by rewrite <-!app_assoc|by rewrite !len_app, Hf, Ht, Hm, len_le_bytes|unfold U32_MAX; lia].
  erewrite (u16_field b (REQUEST_MAGIC ++ from_root ++ to_root ++ le_bytes 4 mr ++ le_bytes 4 mb) (len cursor) _ 76);
    [|by rewrite <-!app_assoc|by rewrite !len_app, Hf, Ht, Hm, !len_le_bytes|unfold U16_MAX; lia].
  assert (dropN REQUEST_HEADER_BYTES b = cursor) as Hdrop.
  { unfold b, page_request. rewrite !app_assoc. apply dropN_app. by rewrite !len_app, !len_le_bytes, Hf, Ht, Hm. }
  clearbody b. unfold MAX_PAGE_RECORDS, in_range, MIN_PAGE_BYTES, MAX_PAGE_BYTES.
  rewrite (proj2 (N.eqb_neq mr 0)), (proj2 (N.ltb_ge 8192 mr)) by lia. cbn [orb].
  rewrite (proj2 (andb_true_iff _ _)) by (split; apply N.leb_le; lia). cbn [negb].
  rewrite (proj2 (N.ltb_ge MAX_CURSOR_BYTES (len cursor))) by lia.
  unfold checked_add64. rewrite (proj2 (N.leb_le _ U64_MAX)) by (unfold U64_MAX; lia). cbn [ok_or].
  rewrite Hlen, N.eqb_refl, Hdrop. cbn [negb].
  destruct Hcur as [[-> ->]|(c & -> & Hcl & -> & -> & -> & Hnz)]; [done|].
  rewrite (proj2 (N.eqb_neq (len cursor) 0)) by lia.
  destruct (beq to_root zero_root) eqn:E; [by apply beq_true in E|]. cbn [ok_or]. by rewrite !beq_refl.
Qed.

(** * The client *)

(** What a client reads off a page: the target root, the cursor and the
    records. *)
Definition read_page (b : bytes) : option (FileHash * bytes * list FileDelta) :=
  '(m, b) ← take_bytes 4 b; '(from_root, b) ← take_bytes 32 b; '(to_root, b) ← take_bytes 32 b;
  '(count, b) ← take_bytes 4 b; '(cursor_len, b) ← take_bytes 2 b;
  '(cursor, b) ← take_bytes (le_val cursor_len) b;
  if beq m PAGE_MAGIC
  then ds ← parse_records (N.to_nat (le_val count)) b; Some (to_root, cursor, ds)
  else None.

Lemma read_page_ok from_root to_root n cursor recs ds :
  len from_root = 32 → len to_root = 32 → N.of_nat n ≤ U32_MAX → len cursor ≤ U16_MAX →
  parse_records n recs = Some ds →
  read_page (PAGE_MAGIC ++ from_root ++ to_root ++ le_bytes 4 (N.of_nat n) ++ le_bytes 2 (len cursor) ++ cursor ++ recs)
  = Some (to_root, cursor, ds).
Proof.
  intros Hf Ht Hn Hc Hp. unfold read_page, U32_MAX, U16_MAX in *.
  rewrite (take_bytes_app PAGE_MAGIC _ 4 eq_refl). cbn [mbind option_bind].
  rewrite (take_bytes_app from_root _ 32 Hf). cbn [mbind option_bind].
  rewrite (take_bytes_app to_root _ 32 Ht). cbn [mbind option_bind].
  rewrite (take_bytes_app (le_bytes 4 _) _ 4 (len_le_bytes _ _)). cbn [mbind option_bind].
  rewrite (take_bytes_app (le_bytes 2 _) _ 2 (len_le_bytes _ _)). cbn [mbind option_bind].
  rewrite !le_val_le_bytes by (cbn; lia). rewrite take_bytes_app by done. cbn [mbind option_bind].
  by rewrite beq_refl, Nat2N.id, Hp.
Qed.
