(* ===== verification/DiffPull.v ===== *)
(** src/crates/sync-server/src/api.rs, the diff endpoints: a client that pages
    through the diff of two roots is brought from the one vault to the other,
    whatever other devices publish meanwhile.

    The handlers run on the state of a vault as the root handlers do
    ([Publish]); they change nothing. *)

From S2P Require Import Prelude Bytes Text Keyed Hash Chunk Store StoreProps TreeV1 TreeV1Merge TreeV1Build TreeV1Repr TreeV1Props TreeV2Codec TreeV2Segment TreeV2 TreeV2Build TreeV2Store TreeV2Props.
From S2P Require Import Diff VersionedRoot TreeV2Diff TreeV2DiffProps ContentStore SyncRules Conflict Merge Guard Bridge.
From S2P Require Import StorageLayout RootHead RootOutcome VaultStore Publish DiffPage.
From S2P Require Import Concrete TreeV1Examples TreeV2CodecProps TreeV2Examples MergeExamples RootExamples.
Local Open Scope N_scope.

Section handlers.
Context {S C : Type} {B3 : Blake3} {HX : Hex} {RJ : RootJson} {FB : FlatBuffers} {CS : ChunkStore S}.
Context (vault_id : bytes).
Abbreviation VaultState := (VaultDisk * S * C)%type.
Abbreviation Handler := (St VaultState ServerError).

Definition load_snapshot_root (read_fails : bool) (hash : FileHash) : Handler VersionedRoot :=
  history_root vault_id (BadRequest "root not found in history - full rescan needed") read_fails hash.

Definition empty_diff_root (version : N) : result ServerError VersionedRoot :=
  map_err (λ _, Internal "build empty diff root") (empty_versioned_root version vault_id (str "fresh-client")).

(** [bridge::run_versioned_diff_with_stats]. *)
Definition run_versioned_diff_with_stats (env : PublishEnv) (from_root to_root : VersionedRoot)
    : Handler (list FileDelta) := λ st,
  let '(d, s, c) := st in
  if pe_blocking_fails env then (Err (Internal "diff failed"), st)
  else match compute_versioned_deltas_with_stats s from_root to_root with
       | Err _ => (Err (Internal "diff failed"), st)
       | Ok r => (Ok (dr_deltas r), st)
       end.

Definition current_root (env : PublishEnv) : Handler FileHash := λ st,
  (let? current := io_error (try_get_current_root vault_id (pe_head_read_fails env) st.1.1) in
   ok_or current (NotFoundError "vault not found"), st).

(** The root a client has, all zeros for a client that has none. *)
Definition source_root (env : PublishEnv) (from_hash : FileHash) (version : N) : Handler VersionedRoot :=
  if beq from_hash zero_root then st_lift (empty_diff_root version)
  else load_snapshot_root (pe_base_read_fails env) from_hash.

Definition post_diff_page (env : PublishEnv) (body : bytes) : Handler bytes :=
  let! request := st_lift (map_err BadRequest (decode_request body)) in
  let! to_hash := match rq_to_root request with
                  | Some hash => st_ret hash
                  | None => current_root env
                  end in
  let! to_root := load_snapshot_root (pe_current_read_fails env) to_hash in
  let! _ := st_lift (require_tree_access env (vr_version to_root)) in
  let! from_root := source_root env (rq_from_root request) (vr_version to_root) in
  let! deltas := run_versioned_diff_with_stats env from_root to_root in
  let! deltas := st_lift (map_err Internal (sort_and_validate_deltas deltas)) in
  let! page := st_lift (map_err BadRequest (encode_page (rq_from_root request) to_hash deltas request)) in
  st_ret (ep_bytes page).

(** [WireDelta]. *)
Inductive WireDelta :=
  | WireAdded (path hash : bytes) (size mtime_ms : N)
  | WireModified (path hash : bytes) (size mtime_ms : N)
  | WireDeleted (path : bytes)
  | WireRenamed (path old_path hash : bytes) (size mtime_ms : N).

Definition wire_from (d : FileDelta) : WireDelta :=
  match d with
  | Added path hash size mtime_ms => WireAdded path (hash_to_hex hash) size mtime_ms
  | Modified path hash size mtime_ms => WireModified path (hash_to_hex hash) size mtime_ms
  | Deleted path _ => WireDeleted path
  | Renamed path old_path hash size mtime_ms => WireRenamed path old_path (hash_to_hex hash) size mtime_ms
  end.

(** [NOT_MODIFIED], or the deltas. *)
Definition post_diff (env : PublishEnv) (body : bytes) : Handler (option (list WireDelta)) :=
  if len body <? 64 then st_err (BadRequest "body too short for device_root prefix")
  else if negb (utf8 (slice body 0 64)) then st_err (BadRequest "device_root prefix not UTF-8")
  else
    let! device_root_hash := st_lift (map_err (λ _, BadRequest "invalid device_root hash")
                                        (hex_to_hash (trim (slice body 0 64)))) in
    let! current_hash := current_root env in
    let! to_root := load_snapshot_root (pe_current_read_fails env) current_hash in
    let! _ := st_lift (require_tree_access env (vr_version to_root)) in
    if beq device_root_hash current_hash then st_ret None
    else
      let! from_root := source_root env device_root_hash (vr_version to_root) in
      let! deltas := run_versioned_diff_with_stats env from_root to_root in
      st_ret (Some (wire_from <$> deltas)).
End handlers.

(** * The deltas of two vaults can be paged *)

Lemma valid_path_page p : valid_vault_path p = true → DiffPage.validate_path p = Ok tt.
Proof.
  unfold valid_vault_path, DiffPage.validate_path, DiffPage.MAX_PATH_BYTES.
  destruct (len p =? 0), (4096 <? len p), (starts_with p (str "/")), (contains_byte p "\"%byte); try done. cbn [orb].
  destruct (existsb is_control (chars p)) eqn:Ec; [done|]. intros Hs.
  assert (existsb (λ c, is_control c || (c =? 0x7f)) (chars p) = false) as ->.
  { apply not_true_iff_false. intros (c & Hin & Hc)%existsb_exists. rewrite <-not_true_iff_false in Ec. apply Ec.
    apply existsb_exists. exists c. split; [done|]. apply orb_prop in Hc as [|Hc%N.eqb_eq]; [done|]. by subst. }
  match goal with |- (if ?c then _ else _) = _ => destruct c eqn:E; [|done] end.
  apply existsb_exists in E as (seg & Hin & Hc). rewrite forallb_forall in Hs. specialize (Hs seg Hin).
  by destruct (beq seg []), (beq seg (str ".")), (beq seg (str "..")).
Qed.

(** What the validation of uploads and the types guarantee of a vault. *)
Definition entry_fits (k : bytes) (e : FileEntry) : Prop :=
  valid_vault_path k = true ∧ utf8 k = true ∧ meta_fits (fe_hash e) (fe_size_bytes e) (fe_mtime_ms e).
Definition vault_fits (m : vault) : Prop := map_Forall entry_fits m.

Lemma effect_paths d : (delta_effects d).*1 = match d with Renamed p o _ _ _ => [o; p] | _ => [delta_path d] end.
Proof. by destruct d. Qed.

Lemma delta_path_effects ds : NoDup (effects ds).*1 → NoDup (delta_path <$> ds).
Proof.
  induction ds as [|d ds IH]; [constructor|]. rewrite effects_cons, fmap_app, fmap_cons. intros (H1 & H2 & H3)%NoDup_app.
  apply NoDup_cons. split; [|by apply IH]. intros (d' & E & Hin)%list_elem_of_fmap.
  apply (H2 (delta_path d)); [rewrite effect_paths; destruct d; cbn; set_solver|].
  rewrite E. apply list_elem_of_fmap. destruct (delta_effects d') as [|x xs] eqn:Ed; [by destruct d'|].
  assert (delta_path d' ∈ (delta_effects d').*1) as Hp by (rewrite effect_paths; destruct d'; cbn; set_solver).
  apply list_elem_of_fmap in Hp as (y & Ey & Hy). exists y. split; [done|].
  apply list_elem_of_In, in_concat. exists (delta_effects d'). rewrite <-!list_elem_of_In. split; [|done].
  apply list_elem_of_fmap. by exists d'.
Qed.

Lemma exact_delta_fits ds m1 m2 :
  vault_fits m1 → vault_fits m2 → exact_delta (effects ds) m1 m2 → Forall delta_fits ds.
Proof.
  intros F1 F2 [Hnd Hx]. apply Forall_forall. intros d Hin.
  assert (∀ x, x ∈ delta_effects d → x ∈ effects ds) as Hsub.
  { intros x Hxin. apply list_elem_of_In, in_concat. exists (delta_effects d). rewrite <-!list_elem_of_In.
    split; [apply list_elem_of_fmap; by exists d|done]. }
  assert (∀ k o, (k, o) ∈ delta_effects d → valid_vault_path k = true ∧ utf8 k = true ∧
    match o with Some e => meta_fits (fe_hash e) (fe_size_bytes e) (fe_mtime_ms e) | None => True end) as Hk.
  { intros k o Hko. apply Hsub, Hx in Hko as [Hne ->]. destruct (m2 !! k) as [e|] eqn:E2; [by apply (F2 k e E2)|].
    destruct (m1 !! k) as [e|] eqn:E1; [|done]. destruct (F1 k e E1) as (? & ? & _). done. }
  unfold delta_fits, validate_delta.
  destruct d as [p h s m|p h s m|p h|p o h s m]; cbn [delta_path old_path delta_effects] in *.
  1,2: destruct (Hk p (Some {| fe_path := p; fe_hash := h; fe_mtime_ms := m; fe_size_bytes := s |}))
         as (Hv & Hu & Hm); [unfold write; set_solver|]; by rewrite (valid_path_page p Hv).
  - destruct (Hk p None) as (Hv & Hu & _); [set_solver|]. by rewrite (valid_path_page p Hv).
  - destruct (Hk p (Some {| fe_path := p; fe_hash := h; fe_mtime_ms := m; fe_size_bytes := s |}))
      as (Hv & Hu & Hm); [unfold write; set_solver|].
    destruct (Hk o None) as (Hvo & Huo & _); [set_solver|]. rewrite (valid_path_page p Hv), (valid_path_page o Hvo).
    destruct (beq p o) eqn:E; [|done]. apply beq_true in E as ->. exfalso.
    apply list_elem_of_split in Hin as (l1 & l2 & ->). rewrite effects_app, effects_cons, !fmap_app in Hnd.
    apply NoDup_app in Hnd as (_ & _ & [Hnd _]%NoDup_app). cbn in Hnd. apply NoDup_cons in Hnd as [Hn _]. apply Hn. left.
Qed.

Lemma sorted_deltas_paged ds m1 m2 :
  vault_fits m1 → vault_fits m2 → exact_delta (effects ds) m1 m2 →
  sort_and_validate_deltas (sort_by delta_path ds) = Ok (sort_by delta_path ds) ∧
  Forall delta_fits (sort_by delta_path ds) ∧ ssorted delta_path (sort_by delta_path ds).
Proof.
  intros F1 F2 Hx. pose proof (exact_delta_fits ds m1 m2 F1 F2 Hx) as Hfit. destruct Hx as [Hnd _].
  apply delta_path_effects in Hnd. pose proof (sort_by_ssorted delta_path ds Hnd) as Hs.
  assert (Forall delta_fits (sort_by delta_path ds)) as Hfit'.
  { apply Forall_forall. intros d Hd%elem_of_sort_by. rewrite Forall_forall in Hfit. by apply Hfit. }
  split_and!; [|done|done].
  apply sort_and_validate_Ok. split; [eapply Forall_impl; [exact Hfit'|by intros d [? _]]|].
  rewrite sort_deltas_by by (by apply ssorted_NoDup). rewrite (sort_by_id delta_path _ Hs). by split.
Qed.

Lemma exact_delta_length ds m1 m2 :
  exact_delta (effects ds) m1 m2 → (length ds ≤ size m1 + size m2)%nat.
Proof.
  intros [Hnd Hx]. pose proof (delta_path_effects ds Hnd) as Hd. rewrite <-(length_fmap delta_path).
  rewrite <-!size_dom. trans (size (dom m1 ∪ dom m2)).
  2:{ rewrite size_union_alt. apply Nat.add_le_mono_l, subseteq_size. set_solver. }
  rewrite <-(size_list_to_set (C := gset bytes)) by done. apply subseteq_size. intros k.
  rewrite elem_of_list_to_set, elem_of_union, !elem_of_dom. intros (d & -> & Hin)%list_elem_of_fmap.
  assert (∃ o, (delta_path d, o) ∈ effects ds) as [o [Hne _]%Hx].
  { assert (delta_path d ∈ (delta_effects d).*1) as ([k o] & E & Hko)%list_elem_of_fmap
      by (rewrite effect_paths; destruct d; cbn; set_solver).
    exists o. cbn in E. rewrite E. apply list_elem_of_In, in_concat. exists (delta_effects d). rewrite <-!list_elem_of_In.
    split; [apply list_elem_of_fmap; by exists d|done]. }
  destruct (m1 !! delta_path d), (m2 !! delta_path d); try done; by (left + right).
Qed.

Lemma effects_wire ds : effects (wire_delta <$> ds) = effects ds.
Proof. unfold effects. f_equal. rewrite <-list_fmap_compose. apply list_fmap_ext. intros i d _. by destruct d. Qed.

(** * The client *)

Section pull.
Context {S C : Type} {B3 : Blake3} {HX : Hex} {RJ : RootJson} {FB : FlatBuffers} {CS : ChunkStore S} {CSL : ChunkStoreLaws S}.
Context (P : bytes → Prop) (vault_id from_hash to_hash : bytes) (r1 r2 : VersionedRoot) (m1 m2 : vault) (mr mb : N).
Abbreviation VaultState := (VaultDisk * S * C)%type.

(** The requests of one pull, each answered in a state of its own. *)
Fixpoint client_pull (requests : list (PublishEnv * VaultState)) (to_root cursor : bytes)
    : option (FileHash * list FileDelta) :=
  match requests with
  | [] => None
  | (env, st) :: requests =>
      match fst (post_diff_page vault_id env (page_request from_hash to_root mr mb cursor) st) with
      | Err _ => None
      | Ok page =>
          '(to_root, cursor, ds) ← read_page page;
          if bool_decide (cursor = []) then Some (to_root, ds)
          else '(to_root, rest) ← client_pull requests to_root cursor; Some (to_root, ds ++ rest)
      end
  end.

(** A state in which both roots are in the history and hold the two vaults,
    and the device may read them. The current root can be any other. *)
Record snapshot (env : PublishEnv) (st : VaultState) : Prop := {
  sn_target : fst (load_snapshot_root vault_id (pe_current_read_fails env) to_hash st) = Ok r2;
  sn_source : fst (source_root vault_id env from_hash (vr_version r2) st) = Ok r1;
  sn_access : require_tree_access env (vr_version r2) = Ok tt;
  sn_runs : pe_blocking_fails env = false;
  sn_from : vr_holds P st.1.2 r1 m1;
  sn_to : vr_holds P st.1.2 r2 m2;
}.

Context (Hlf : len from_hash = 32) (Hlt : len to_hash = 32) (Hnz : to_hash ≠ zero_root).
Context (Hcaps : caps_ok mr mb) (Hsep : hashes_separate r1 r2).
Context (Hmax : N.of_nat (size m1) + N.of_nat (size m2) ≤ MAX_LOADED_ENTRIES).
Context (Hf1 : vault_fits m1) (Hf2 : vault_fits m2).

Definition pulled : list FileDelta := sort_by delta_path (versioned_deltas r1 r2 m1 m2).

(** The handlers leave the state alone. *)
Lemma reads_keep {A} (m : St VaultState ServerError A) st a :
  (∀ st, snd (m st) = st) → fst (m st) = Ok a → m st = (Ok a, st).
Proof. intros Hk Ha. rewrite (surjective_pairing (m st)), Ha, Hk. done. Qed.

Lemma load_keeps b h (st : VaultState) : snd (load_snapshot_root vault_id b h st) = st.
Proof. unfold load_snapshot_root, history_root. destruct st as [[d s] c]. by destruct (get_root b h d). Qed.

Lemma source_keeps env h v (st : VaultState) : snd (source_root vault_id env h v st) = st.
Proof. unfold source_root. destruct (beq h zero_root); [done|]. apply load_keeps. Qed.

Lemma diff_run env st : snapshot env st →
  run_versioned_diff_with_stats env r1 r2 st = (Ok pulled, st) ∧
  exact_delta (effects (versioned_deltas r1 r2 m1 m2)) m1 m2.
Proof.
  intros H. destruct (versioned_deltas_run P st.1.2 r1 r2 m1 m2 (sn_from _ _ H) (sn_to _ _ H) Hsep Hmax) as [Hrun Hx].
  split; [|done]. destruct st as [[d s] c]. unfold run_versioned_diff_with_stats. rewrite (sn_runs _ _ H).
  unfold compute_versioned_deltas in Hrun. cbn [fst snd] in Hrun.
  destruct (compute_versioned_deltas_with_stats s r1 r2) as [r|]; [|done]. by injection Hrun as ->.
Qed.

(** The page of a request after the first [k] deltas. *)
Lemma pull_page env st k to_root cursor :
  snapshot env st →
  (to_root = to_hash ∨ to_root = zero_root ∧ fst (current_root vault_id env st) = Ok to_hash) →
  (k = 0%nat ∧ cursor = []) ∨
  (∃ d, (0 < k)%nat ∧ pulled !! pred k = Some d ∧ encode_cursor from_hash to_hash d = Ok cursor ∧ to_root = to_hash) →
  (k ≤ length pulled)%nat →
  ∃ n cursor', (k + n ≤ length pulled)%nat ∧ ((k < length pulled)%nat → (0 < n)%nat) ∧
    match fst (post_diff_page vault_id env (page_request from_hash to_root mr mb cursor) st) with
    | Ok page => read_page page = Some (to_hash, cursor', wire_delta <$> take n (drop k pulled))
    | Err _ => False
    end ∧
    page_end from_hash to_hash pulled (k + n) cursor'.
Proof.
  intros H Hto Hcur Hk. destruct (diff_run env st H) as [Hdiff Hx].
  destruct (sorted_deltas_paged _ m1 m2 Hf1 Hf2 Hx) as (Hsort & Hfit & Hs). fold pulled in Hsort, Hfit, Hs.
  destruct Hcaps as [Hmr Hmb].
  assert (∃ decoded, cursor_at from_hash to_hash pulled k decoded ∧
    decode_request (page_request from_hash to_root mr mb cursor) =
    Ok {| rq_from_root := from_hash; rq_to_root := if beq to_root zero_root then None else Some to_root;
          rq_max_records := mr; rq_max_plain_bytes := mb; rq_cursor := decoded |}) as (decoded & Hat & Hdec).
  { assert (len to_root = 32) as Hl by (destruct Hto as [->|[-> _]]; done).
    destruct Hcur as [[-> ->]|(d & Hpos & Hd & Hc & ->)].
    - exists None. split; [by left|]. apply decode_page_request; [done|done|done|by left].
    - rewrite Forall_forall in Hfit. pose proof (Hfit d (list_elem_of_lookup_2 _ _ _ Hd)) as Hdf.
      destruct (cursor_roundtrip _ _ d Hlf Hlt Hdf) as (c & Ec & Hcl & Hdc). rewrite Hc in Ec. injection Ec as <-.
      eexists. split; [right; by exists d|]. apply decode_page_request; [done|done|done|].
      right. eexists. change CURSOR_FIXED with 74 in Hcl. split_and!; [done|lia|lia|exact Hdc|done..]. }
  set (request := {| rq_from_root := from_hash |}) in *.
  destruct (encode_page_at from_hash to_hash Hlf Hlt mr mb (proj1 Hmb) (proj2 Hmb) pulled k request)
    as (n & recs & cursor' & Hpage & Hn & Hcount & Hprog & Henc & Hend); try done.
  { unfold request. cbn [rq_to_root]. destruct Hto as [->|[-> _]]; [|by left]. right. destruct (beq to_hash zero_root) eqn:E; [|done].
    by apply beq_true in E. }
  { lia. }
  { unfold MAX_PAGE_RECORDS, U32_MAX in *. lia. }
  exists n, cursor'. split_and!; [done|done| |done].
  unfold post_diff_page, st_bind at 1, st_lift at 1. rewrite Hdec. cbn [map_err].
  assert ((match rq_to_root request with Some hash => st_ret hash | None => current_root vault_id env end) st
    = (Ok to_hash, st)) as Htarget.
  { unfold request. cbn [rq_to_root]. destruct Hto as [->|[-> Hcurrent]].
    - destruct (beq to_hash zero_root) eqn:E; [by apply beq_true in E|done].
    - rewrite beq_refl. by apply reads_keep. }
  unfold st_bind at 1. rewrite Htarget. unfold st_bind at 1.
  rewrite (reads_keep _ _ _ (load_keeps _ _) (sn_target _ _ H)). unfold st_bind at 1, st_lift at 1.
  rewrite (sn_access _ _ H). unfold st_bind at 1. cbn [rq_from_root request].
  rewrite (reads_keep _ _ _ (source_keeps _ _ _) (sn_source _ _ H)). unfold st_bind at 1. rewrite Hdiff.
  unfold st_bind at 1, st_lift at 1. rewrite Hsort. cbn [map_err]. unfold st_bind at 1, st_lift at 1. rewrite Hpage.
  cbn [map_err fst st_ret ep_bytes].
  destruct (encode_all_fits (take n (drop k pulled))) as (b & Eb & Hb); [by apply Forall_take, Forall_drop|].
  rewrite Henc in Eb. injection Eb as <-. apply read_page_ok; try done.
  - unfold MAX_PAGE_RECORDS, U32_MAX in *. lia.
  - pose proof (page_end_len from_hash to_hash _ _ _ Hend) as Hcl. change MAX_CURSOR_BYTES with 8266 in Hcl. unfold U16_MAX. lia.
  - by rewrite length_take, length_drop, Nat.min_l in Hb by lia.
Qed.

Lemma client_pull_rest requests k to_root cursor :
  Forall (λ x, snapshot x.1 x.2) requests →
  (to_root = to_hash ∨
   to_root = zero_root ∧ ∃ env st rest, requests = (env, st) :: rest ∧ fst (current_root vault_id env st) = Ok to_hash) →
  (k = 0%nat ∧ cursor = []) ∨
  (∃ d, (0 < k)%nat ∧ pulled !! pred k = Some d ∧ encode_cursor from_hash to_hash d = Ok cursor ∧ to_root = to_hash) →
  (k ≤ length pulled)%nat → (length pulled - k < length requests)%nat →
  client_pull requests to_root cursor = Some (to_hash, wire_delta <$> drop k pulled).
Proof.
  intros Hsn. revert k to_root cursor. induction Hsn as [|[env st] requests H Hsn IH]; intros k to_root cursor Hto Hcur Hk Hlen;
    [cbn in Hlen; lia|]. cbn [fst snd] in H. cbn [length] in Hlen.
  assert (to_root = to_hash ∨ to_root = zero_root ∧ fst (current_root vault_id env st) = Ok to_hash) as Hto'.
  { destruct Hto as [?|(? & env' & st' & rest & [= -> -> ->] & ?)]; [by left|by right]. }
  destruct (pull_page env st k to_root cursor H Hto' Hcur Hk) as (n & cursor' & Hn & Hprog & Hpage & Hend).
  cbn [client_pull]. destruct (fst (post_diff_page vault_id env _ st)) as [page|]; [|done].
  rewrite Hpage. cbn [mbind option_bind].
  destruct Hend as [[Hl ->]|(d & Hlt' & Hd & Ed & Hne)].
  - rewrite bool_decide_eq_true_2 by done. rewrite take_ge by (rewrite length_drop; lia). done.
  - rewrite bool_decide_eq_false_2 by (intros ->; rewrite len_nil in Hne; lia).
    rewrite (IH (k + n)%nat to_hash cursor'); [|by left|right; exists d; split_and!; [lia|done..]|lia|lia].
    cbn [mbind option_bind]. rewrite <-fmap_app, <-drop_drop, take_drop. done.
Qed.
End pull.

(** C10: A paged pull is exact, whatever is published meanwhile. A client asks
    for the changes from a root it has - or from nothing - to the current root
    and continues from the cursor of every page until there is none. If both
    roots stay in the history and hold their vaults, whatever else happens to
    the store and to the current root between the requests, then after at most
    one request more than the vaults have files the client has the target
    root, and the records it received, applied to the first vault, give the
    second; no page fails. *)
Theorem pull_is_exact {S C : Type} {B3 : Blake3} {HX : Hex} {RJ : RootJson} {FB : FlatBuffers} {CS : ChunkStore S}
    {CSL : ChunkStoreLaws S} P vault_id from_hash to_hash r1 r2 m1 m2 mr mb
    (requests : list (PublishEnv * (VaultDisk * S * C))) env st :
  len from_hash = 32 → len to_hash = 32 → to_hash ≠ zero_root → caps_ok mr mb →
  hashes_separate r1 r2 → N.of_nat (size m1) + N.of_nat (size m2) ≤ MAX_LOADED_ENTRIES →
  vault_fits m1 → vault_fits m2 →
  Forall (λ x, snapshot P vault_id from_hash to_hash r1 r2 m1 m2 x.1 x.2) ((env, st) :: requests) →
  fst (current_root vault_id env st) = Ok to_hash →
  (size m1 + size m2 ≤ length requests)%nat →
  ∃ ds, client_pull vault_id from_hash mr mb ((env, st) :: requests) zero_root [] = Some (to_hash, ds) ∧
    apply_deltas ds m1 = m2.
Proof.
  intros Hlf Hlt Hnz Hcaps Hsep Hmax F1 F2 Hsn Hcur Hlen.
  assert (snapshot P vault_id from_hash to_hash r1 r2 m1 m2 env st) as H by (by apply Forall_cons in Hsn as [? _]).
  destruct (diff_run P vault_id from_hash to_hash r1 r2 m1 m2 Hsep Hmax env st H) as [_ Hx].
  pose proof (exact_delta_length _ _ _ Hx) as Hl.
  exists (wire_delta <$> pulled r1 r2 m1 m2). split.
  - rewrite (client_pull_rest P vault_id from_hash to_hash r1 r2 m1 m2 mr mb Hlf Hlt Hnz Hcaps Hsep Hmax F1 F2
      _ 0 zero_root []); [done|exact Hsn|right; split; [done|]; by exists env, st, requests|by left|lia|].
    unfold pulled. rewrite length_sort_by. cbn. lia.
  - unfold apply_deltas. rewrite effects_wire. apply exact_delta_apply. eapply exact_delta_perm; [|exact Hx].
    apply effects_perm. symmetry. apply sort_by_perm.
Qed.

(** * A pull *)

#[local] Existing Instance poly_blake3.
#[local] Existing Instance plain_flatbuffers.
#[local] Existing Instance base16_hex.
#[local] Existing Instance plain_json.

Definition entry_fits_b (e : FileEntry) : bool :=
  valid_vault_path (fe_path e) && utf8 (fe_path e) && (len (fe_hash e) =? 32) &&
  (fe_size_bytes e <=? U64_MAX) && (fe_mtime_ms e <=? U64_MAX).

Lemma vault_fits_list es : forallb entry_fits_b es = true → vault_fits (entries_map es).
Proof.
  intros H k e (e' & [= -> ->] & Hin)%elem_of_list_to_map_2%list_elem_of_fmap. rewrite forallb_forall in H. specialize (H e' (proj1 (list_elem_of_In _ _) Hin)).
  unfold entry_fits_b in H. bool_to_prop. done.
Qed.

Definition dp_from : FileHash := vr_hash (dx_root v2_sorted).
Definition dp_to : FileHash := vr_hash (dx_root v2_new).

(** Both roots are in the history and the second is the current one; later the
    first is the current one again. *)
Definition dp_write (r : VersionedRoot) (d : VaultDisk) : VaultDisk :=
  snd (store_root rx_vault NoFault (vr_hash r) (rx_text r) d).
Definition dp_move (h : FileHash) (d : VaultDisk) : VaultDisk := snd (set_current_root rx_vault false NoFault h d).
Definition dp_disk : VaultDisk := dp_move dp_to (dp_write (dx_root v2_new) (dp_write (dx_root v2_sorted) vd_new)).
Definition dp_state (d : VaultDisk) : State := (d, dx_store, mx_content).
Definition dp_env : PublishEnv := rx_env false NoFault.

Lemma dp_snapshot d :
  fst (load_snapshot_root rx_vault false dp_to (dp_state d)) = Ok (dx_root v2_new) →
  fst (load_snapshot_root rx_vault false dp_from (dp_state d)) = Ok (dx_root v2_sorted) →
  snapshot v2_P rx_vault dp_from dp_to (dx_root v2_sorted) (dx_root v2_new) (entries_map v2_sorted) (entries_map v2_new)
    dp_env (dp_state d).
Proof.
  intros H1 H2. destruct dx_stored as [S1 S2]. split; [exact H1| |done|done| |].
  - unfold source_root. destruct (beq dp_from zero_root) eqn:E; [|exact H2]. vm_compute in E. discriminate E.
  - apply dx_holds; [exact v2_sorted_ok|exact S1|vm_compute; discriminate].
  - apply dx_holds; [exact v2_new_ok|exact S2|vm_compute; discriminate].
Qed.

Lemma pull_is_exact_witness :
  ∃ ds, client_pull rx_vault dp_from 100 65536
          ((dp_env, dp_state dp_disk) :: replicate 20 (dp_env, dp_state (dp_move dp_from dp_disk))) zero_root []
        = Some (dp_to, ds) ∧ apply_deltas ds (entries_map v2_sorted) = entries_map v2_new.
Proof.
  apply (pull_is_exact v2_P rx_vault dp_from dp_to (dx_root v2_sorted) (dx_root v2_new)
    (entries_map v2_sorted) (entries_map v2_new) 100 65536).
  - vm_compute. reflexivity.
  - vm_compute. reflexivity.
  - by_decision.
  - repeat split; vm_compute; discriminate || reflexivity.
  - exact dx_roots.
  - vm_compute. discriminate.
  - apply vault_fits_list. vm_compute. reflexivity.
  - apply vault_fits_list. vm_compute. reflexivity.
  - constructor; [|apply Forall_replicate]; apply dp_snapshot; vm_compute; reflexivity.
  - vm_compute. reflexivity.
  - vm_compute. repeat constructor.
Defined.
