(* ===== verification/StableSort.v ===== *)
(** src/crates/sync-core/src/candidate_mutation_v1.rs, [Sort]: the stable
    merge sort that a session runs in small units - over indices, with one
    comparison or one swap of records in a unit - and its retirement.

    Its ticks end, never index outside of an array, and leave the stable sort
    of the records. *)

From S2P Require Import Prelude Bytes Keyed.

Inductive SortPhase := Indexing | Merging | Inverting | Permuting | SortReady | SortRetiring.

(** The positions of vectors are numbers below lengths that a memory can hold,
    so that the saturating sums of the code are sums. *)
Record Sort (A : Type) := {
  so_values : list A;
  so_source : list nat;
  so_source_allocated : bool;
  so_target : list nat;
  so_target_allocated : bool;
  so_input_sorted : bool;
  so_width : nat;
  so_start : nat;
  so_left : nat;
  so_right : nat;
  so_middle : nat;
  so_end : nat;
  so_output : nat;
  so_position : nat;
  so_phase : SortPhase;
}.
Arguments so_values {A}.
Arguments so_source {A}.
Arguments so_source_allocated {A}.
Arguments so_target {A}.
Arguments so_target_allocated {A}.
Arguments so_input_sorted {A}.
Arguments so_width {A}.
Arguments so_start {A}.
Arguments so_left {A}.
Arguments so_right {A}.
Arguments so_middle {A}.
Arguments so_end {A}.
Arguments so_output {A}.
Arguments so_position {A}.
Arguments so_phase {A}.

#[global] Instance sort_settable A : Settable (Sort A) := λ s,
  {| so_values := so_values s; so_source := so_source s; so_source_allocated := so_source_allocated s;
     so_target := so_target s; so_target_allocated := so_target_allocated s;
     so_input_sorted := so_input_sorted s; so_width := so_width s; so_start := so_start s;
     so_left := so_left s; so_right := so_right s; so_middle := so_middle s; so_end := so_end s;
     so_output := so_output s; so_position := so_position s; so_phase := so_phase s |}.

(** [v[i] = x] and [v.swap(i, j)]; [None] is the panic of an index outside. *)
Definition vec_set {A} (i : nat) (x : A) (v : list A) : option (list A) :=
  if (i <? length v)%nat then Some (<[i := x]> v) else None.
Definition vec_swap {A} (i j : nat) (v : list A) : option (list A) :=
  x ← v !! i; y ← v !! j; Some (<[i := y]> (<[j := x]> v)).

Section sort.
Context {A : Type} (key : A → bytes).

(** [with_workspace], with the two empty buffers reserved for all records. *)
Definition sort_new (values : list A) : Sort A :=
  {| so_values := values; so_source := []; so_source_allocated := negb (bool_decide (values = []));
     so_target := []; so_target_allocated := negb (bool_decide (values = []));
     so_input_sorted := true; so_width := 1; so_start := 0; so_left := 0; so_right := 0; so_middle := 0;
     so_end := 0; so_output := 0; so_position := 0; so_phase := Indexing |}.

(** [values[i] <= values[j]]. *)
Definition value_le (values : list A) (i j : nat) : option bool :=
  x ← values !! i; y ← values !! j; Some (ble (key x) (key y)).

(** The block that starts at [start]: the first part of a merging unit. *)
Definition next_block (s : Sort A) : Sort A :=
  let len := length (so_values s) in
  let middle := Nat.min (so_start s + so_width s) len in
  let end_ := Nat.min (so_start s + so_width s * 2) len in
  s <| so_left := so_start s |> <| so_middle := middle |> <| so_right := middle |> <| so_end := end_ |>
    <| so_output := so_start s |> <| so_start := end_ |>.

(** One index of the merge. *)
Definition merge_one (s : Sort A) : option (Sort A) :=
  take_left ←
    if (so_right s =? so_end s)%nat then Some true
    else if (so_left s <? so_middle s)%nat then
      l ← so_source s !! so_left s; r ← so_source s !! so_right s; value_le (so_values s) l r
    else Some false;
  let from := if (take_left : bool) then so_left s else so_right s in
  let s := if take_left then s <| so_left := S (so_left s) |> else s <| so_right := S (so_right s) |> in
  index ← so_source s !! from;
  target ← vec_set (so_output s) index (so_target s);
  Some (s <| so_target := target |> <| so_output := S (so_output s) |>).

(** One round of the [loop] of [tick]: [inl] continues, [inr] returns. *)
Definition sort_round (s : Sort A) : option (Sort A + bool * Sort A) :=
  let len := length (so_values s) in
  match so_phase s with
  | Indexing =>
      if (length (so_source s) <? len)%nat then
        let index := length (so_source s) in
        descends ←
          match index with
          | O => Some false
          | S previous => negb <$> value_le (so_values s) previous index
          end;
        let s := if (descends : bool) then s <| so_input_sorted := false |> else s in
        Some (inr (true, s <| so_source := so_source s ++ [index] |> <| so_target := so_target s ++ [0%nat] |>))
      else if so_input_sorted s then Some (inl (s <| so_phase := SortReady |>))
      else Some (inl (s <| so_phase := Merging |>))
  | Merging =>
      if (len <=? so_width s)%nat then Some (inl (s <| so_phase := Inverting |>))
      else if (so_output s =? so_end s)%nat then
        if (so_start s =? len)%nat then
          Some (inl (s <| so_source := so_target s |> <| so_target := so_source s |>
                       <| so_width := (so_width s * 2)%nat |> <| so_start := 0%nat |> <| so_output := 0%nat |>
                       <| so_end := 0%nat |>))
        else s ← merge_one (next_block s); Some (inr (true, s))
      else s ← merge_one s; Some (inr (true, s))
  | Inverting =>
      if (so_position s <? len)%nat then
        slot ← so_source s !! so_position s;
        target ← vec_set slot (so_position s) (so_target s);
        Some (inr (true, s <| so_target := target |> <| so_position := S (so_position s) |>))
      else Some (inl (s <| so_position := 0%nat |> <| so_phase := Permuting |>))
  | Permuting =>
      if (so_position s =? len)%nat then Some (inl (s <| so_phase := SortReady |>))
      else
        destination ← so_target s !! so_position s;
        if (destination =? so_position s)%nat then
          Some (inr (true, s <| so_position := S (so_position s) |>))
        else
          values ← vec_swap (so_position s) destination (so_values s);
          target ← vec_swap (so_position s) destination (so_target s);
          Some (inr (true, s <| so_values := values |> <| so_target := target |>))
  | SortReady => Some (inr (false, s))
  | SortRetiring => None
  end.

(** [tick]; [None] is a panic. A round that continues enters a later phase, or
    the next pass of the merge, which then emits an index; eight rounds are
    more than there can be before a return. *)
Fixpoint tick_rounds (fuel : nat) (s : Sort A) : option (bool * Sort A) :=
  match fuel with
  | O => None
  | S fuel =>
      r ← sort_round s;
      match r with inl s => tick_rounds fuel s | inr r => Some r end
  end.
Definition sort_tick (s : Sort A) : option (bool * Sort A) := tick_rounds 8 s.

(** [finish]; [None] is the assertion failure. *)
Definition sort_finish (s : Sort A) : option (list A) :=
  match so_phase s with SortReady => Some (so_values s) | _ => None end.

(** [retire_one]; the last value is popped. *)
Definition sort_retire_one (s : Sort A) : bool * Sort A :=
  let s := s <| so_phase := SortRetiring |> in
  match last (so_values s) with
  | Some _ => (true, s <| so_values := removelast (so_values s) |>)
  | None =>
      if so_source_allocated s then (true, s <| so_source := [] |> <| so_source_allocated := false |>)
      else if so_target_allocated s then (true, s <| so_target := [] |> <| so_target_allocated := false |>)
      else (false, s)
  end.
End sort.

(** * Slices *)

Definition slice_of {X} (l : list X) (a b : nat) : list X := take (b - a) (drop a l).
#[global] Arguments slice_of : simpl never.

Section slices.
Context {X : Type}.
Implicit Types l : list X.

Lemma slice_all l : slice_of l 0 (length l) = l.
Proof. unfold slice_of. rewrite drop_0, Nat.sub_0_r. apply firstn_all. Qed.

Lemma slice_nil l a : slice_of l a a = [].
Proof. unfold slice_of. by rewrite Nat.sub_diag. Qed.

Lemma slice_cons l a b : (a < b)%nat → (b ≤ length l)%nat → ∃ x, l !! a = Some x ∧ slice_of l a b = x :: slice_of l (S a) b.
Proof.
  intros Hab Hb. destruct (lookup_lt_is_Some_2 l a) as [x Hx]; [lia|]. exists x. split; [done|].
  unfold slice_of. rewrite (drop_S _ _ _ Hx). replace (b - a)%nat with (S (b - S a)) by lia. done.
Qed.

Lemma slice_set_after l a b i x : (b ≤ i)%nat → slice_of (<[i := x]> l) a b = slice_of l a b.
Proof.
  intros Hi. unfold slice_of. apply list_eq. intros j.
  destruct (decide (j < b - a)%nat).
  - rewrite !lookup_take_lt, !lookup_drop, list_lookup_insert_ne by lia. done.
  - rewrite !lookup_take_ge by lia. done.
Qed.

Lemma slice_set_end l a i x : (a ≤ i)%nat → (i < length l)%nat →
  slice_of (<[i := x]> l) a (S i) = slice_of l a i ++ [x].
Proof.
  intros Ha Hi. unfold slice_of. replace (S i - a)%nat with (S (i - a)) by lia.
  rewrite (take_S_r _ _ x).
  - change (take (i - a) (drop a (<[i := x]> l))) with (slice_of (<[i := x]> l) a i). by rewrite slice_set_after.
  - rewrite lookup_drop. replace (a + (i - a))%nat with i by lia. by apply list_lookup_insert_eq.
Qed.

Lemma seq_join a m e : (a ≤ m)%nat → (m ≤ e)%nat → seq a (m - a) ++ seq m (e - m) = seq a (e - a).
Proof.
  intros H1 H2. replace (e - a)%nat with ((m - a) + (e - m))%nat by lia. rewrite seq_app. repeat f_equal. lia.
Qed.
End slices.

(** * The order of the indices *)
Section correct.
Context {A : Type} (key : A → bytes) (vs : list A).
Abbreviation n := (length vs).

Definition key_at (i : nat) : bytes := default [] (key <$> vs !! i).
(** By key, then by position. *)
Definition before (i j : nat) : Prop := key_at i ≺ key_at j ∨ key_at i = key_at j ∧ (i < j)%nat.

Lemma before_trans i j k : before i j → before j k → before i k.
Proof.
  intros [H1|[H1 H1']] [H2|[H2 H2']]; unfold before.
  - left. by etrans.
  - left. by rewrite <-H2.
  - left. by rewrite H1.
  - right. split; [congruence|lia].
Qed.

Lemma before_asym i j : before i j → ¬ before j i.
Proof.
  intros [H1|[H1 H1']] [H2|[H2 H2']].
  - by eapply bytes_lt_asym.
  - rewrite H2 in H1. by apply (irreflexivity bytes_lt) in H1.
  - rewrite H1 in H2. by apply (irreflexivity bytes_lt) in H2.
  - lia.
Qed.

Lemma value_le_at i j : (i < n)%nat → (j < n)%nat → value_le key vs i j = Some (ble (key_at i) (key_at j)).
Proof.
  intros [x Hx]%lookup_lt_is_Some_2 [y Hy]%lookup_lt_is_Some_2. unfold value_le, key_at. by rewrite Hx, Hy.
Qed.

Lemma le_before i j : (i < j)%nat → ble (key_at i) (key_at j) = true → before i j.
Proof.
  intros Hij. rewrite ble_true. intros H. unfold before.
  destruct (bcmp_spec (key_at i) (key_at j)); auto. done.
Qed.

Lemma gt_before i j : ble (key_at i) (key_at j) = false → before j i.
Proof. unfold ble, before. destruct (bcmp_spec (key_at i) (key_at j)); auto; done. Qed.

Definition sorted_range (l : list nat) (a b : nat) : Prop :=
  StronglySorted before (slice_of l a b) ∧ slice_of l a b ≡ₚ seq a (b - a).

(** * Merging *)

Record passes (s : Sort A) : Prop := {
  ps_phase : so_phase s = Merging;
  ps_values : so_values s = vs;
  ps_source_len : length (so_source s) = n;
  ps_target_len : length (so_target s) = n;
  ps_width : (1 ≤ so_width s)%nat;
  ps_start : so_start s = so_end s;
  ps_end : (so_end s ≤ n)%nat;
  ps_source : ∀ a, (so_width s | a)%nat → (a < n)%nat → sorted_range (so_source s) a (Nat.min (a + so_width s) n);
}.

Definition merged (s : Sort A) (b : nat) : Prop :=
  ∀ a, (so_width s * 2 | a)%nat → (a < b)%nat → sorted_range (so_target s) a (Nat.min (a + so_width s * 2) n).

(** Between two blocks. *)
Record between (s : Sort A) : Prop := {
  bt_passes : passes s;
  bt_output : so_output s = so_end s;
  bt_end : (so_width s * 2 | so_end s)%nat ∨ so_end s = n;
  bt_merged : merged s (so_end s);
}.

(** In the block that starts at [b]. *)
Record inside (s : Sort A) (b : nat) : Prop := {
  in_passes : passes s;
  in_base : (so_width s * 2 | b)%nat;
  in_end : so_end s = Nat.min (b + so_width s * 2) n;
  in_middle : so_middle s = Nat.min (b + so_width s) n;
  in_merged : merged s b;
  in_left : (b ≤ so_left s ≤ so_middle s)%nat;
  in_right : (so_middle s ≤ so_right s ≤ so_end s)%nat;
  in_output : (so_output s = so_left s + (so_right s - so_middle s))%nat;
  in_open : (so_output s < so_end s)%nat;
  in_out : StronglySorted before (slice_of (so_target s) b (so_output s));
  in_first : StronglySorted before (slice_of (so_source s) (so_left s) (so_middle s));
  in_second : StronglySorted before (slice_of (so_source s) (so_right s) (so_end s));
  in_perm : slice_of (so_target s) b (so_output s) ++ slice_of (so_source s) (so_left s) (so_middle s)
            ++ slice_of (so_source s) (so_right s) (so_end s) ≡ₚ seq b (so_end s - b);
  in_order : ∀ x y, x ∈ slice_of (so_target s) b (so_output s) →
    y ∈ slice_of (so_source s) (so_left s) (so_middle s) ++ slice_of (so_source s) (so_right s) (so_end s) → before x y;
  in_low : Forall (λ i, (i < so_middle s)%nat) (slice_of (so_source s) (so_left s) (so_middle s));
  in_high : Forall (λ i, (so_middle s ≤ i)%nat) (slice_of (so_source s) (so_right s) (so_end s));
}.

Lemma next_block_inside s :
  between s → (so_width s < n)%nat → so_start s ≠ n → inside (next_block s) (so_start s).
Proof.
  intros [Hp Ho He Hm] Hw Hs. pose proof Hp as [P1 P2 P3 P4 P5 P6 P7 P8].
  destruct He as [He|He]; [|congruence].
  assert ((so_width s | so_start s)%nat) as Hd.
  { rewrite P6. destruct He as [q ->]. exists (q * 2)%nat. lia. }
  assert (so_start s < n)%nat as Hlt by lia.
  unfold next_block. rewrite P2. cbn zeta.
  destruct (P8 (so_start s) Hd Hlt) as [S1 S2].
  assert (sorted_range (so_source s) (Nat.min (so_start s + so_width s) n) (Nat.min (so_start s + so_width s * 2) n)) as [T1 T2].
  { destruct (decide (so_start s + so_width s < n)%nat).
    - rewrite (Nat.min_l (_ + _)) by lia. replace (so_start s + so_width s * 2)%nat with (so_start s + so_width s + so_width s)%nat by lia.
      apply P8; [|lia]. destruct Hd as [q ->]. exists (S q). lia.
    - rewrite !Nat.min_r by lia. unfold sorted_range. rewrite slice_nil, Nat.sub_diag. split; [constructor|done]. }
  split; cbn; rewrite ?slice_nil; try done.
  - split; cbn; try done; lia.
  - by rewrite P6.
  - rewrite P6. exact Hm.
  - lia.
  - lia.
  - lia.
  - lia.
  - constructor.
  - cbn. rewrite S2, T2, seq_join by lia. done.
  - set_solver.
  - rewrite S2. apply Forall_forall. intros x. rewrite elem_of_seq. lia.
  - rewrite T2. apply Forall_forall. intros x. rewrite elem_of_seq. lia.
Qed.

(** The index that is taken comes before all that are left. *)
Lemma merge_pick s b :
  inside s b →
  ∃ (take_left : bool) i,
    let s' := if take_left then s <| so_left := S (so_left s) |> else s <| so_right := S (so_right s) |> in
    merge_one key s =
      Some (s' <| so_target := <[so_output s := i]> (so_target s) |> <| so_output := S (so_output s) |>) ∧
    (so_left s' ≤ so_middle s)%nat ∧ (so_right s' ≤ so_end s)%nat ∧
    slice_of (so_source s) (so_left s) (so_middle s) ++ slice_of (so_source s) (so_right s) (so_end s) ≡ₚ
      i :: slice_of (so_source s) (so_left s') (so_middle s) ++ slice_of (so_source s) (so_right s') (so_end s) ∧
    Forall (before i) (slice_of (so_source s) (so_left s') (so_middle s)
                       ++ slice_of (so_source s) (so_right s') (so_end s)) ∧
    (StronglySorted before (slice_of (so_source s) (so_left s') (so_middle s)) ∧
     StronglySorted before (slice_of (so_source s) (so_right s') (so_end s))) ∧
    Forall (λ i, (i < so_middle s)%nat) (slice_of (so_source s) (so_left s') (so_middle s)) ∧
    Forall (λ i, (so_middle s ≤ i)%nat) (slice_of (so_source s) (so_right s') (so_end s)).
Proof.
  intros [[P1 P2 P3 P4 P5 P6 P7 P8] I1 I2 I3 I4 I5 I6 I7 I8 I9 I10 I11 I12 I13 I14 I15].
  assert (∀ i, i ∈ slice_of (so_source s) (so_left s) (so_middle s) ++ slice_of (so_source s) (so_right s) (so_end s) →
    (i < n)%nat) as Hin.
  { intros i Hi. assert (i ∈ seq b (so_end s - b)) as Hs by (rewrite <-I12; apply elem_of_app; by right).
    apply elem_of_seq in Hs. lia. }
  assert (∀ x, vec_set (so_output s) x (so_target s) = Some (<[so_output s := x]> (so_target s))) as Hset.
  { intros x. unfold vec_set. rewrite (proj2 (Nat.ltb_lt _ _)) by lia. done. }
  unfold merge_one. destruct (Nat.eqb_spec (so_right s) (so_end s)) as [Er|Er].
  { destruct (slice_cons (so_source s) (so_left s) (so_middle s)) as (i & Hi & Ei); [lia..|].
    exists true, i. cbn. rewrite Hi. cbn. rewrite Hset. cbn.
    rewrite Ei, Er, slice_nil, !app_nil_r in *. apply StronglySorted_cons in I10 as [? ?].
    apply Forall_cons in I14 as [_ ?]. split_and!; done || lia. }
  destruct (slice_cons (so_source s) (so_right s) (so_end s)) as (r & Hr & Er'); [lia..|].
  destruct (Nat.ltb_spec (so_left s) (so_middle s)) as [Hl|Hl].
  2: { exists false, r. cbn. rewrite Hr. cbn. rewrite Hset. cbn.
       replace (so_left s) with (so_middle s) in * by lia. rewrite slice_nil in *. cbn [app] in *.
       rewrite Er' in *. apply StronglySorted_cons in I11 as [? ?]. apply Forall_cons in I15 as [_ ?].
       split_and!; done || lia. }
  destruct (slice_cons (so_source s) (so_left s) (so_middle s)) as (i & Hi & Ei); [lia..|].
  rewrite Hi, Hr. cbn [mbind option_bind].
  rewrite Ei, Er' in *. apply StronglySorted_cons in I10 as [O1 O1'], I11 as [O2 O2'].
  apply Forall_cons in I14 as [L1 L2], I15 as [R1 R2].
  rewrite P2, value_le_at by (apply Hin; set_solver). cbn [mbind option_bind].
  destruct (ble (key_at i) (key_at r)) eqn:E.
  - exists true, i. cbn. rewrite Hi. cbn. rewrite Hset. cbn. rewrite Er'.
    assert (Forall (λ i, (so_middle s ≤ i)%nat) (r :: slice_of (so_source s) (S (so_right s)) (so_end s))) by (by constructor).
    split_and!; try done; try lia; [|by constructor]. apply Forall_app. split; [done|].
    apply le_before in E; [|lia]. constructor; [done|].
    eapply Forall_impl; [exact O2|]. intros x Hx. by eapply before_trans.
  - exists false, r. cbn. rewrite Hr. cbn. rewrite Hset. cbn. rewrite Ei.
    assert (Forall (λ i, (i < so_middle s)%nat) (i :: slice_of (so_source s) (S (so_left s)) (so_middle s))) by (by constructor).
    split_and!; try done; try lia; [solve_Permutation| |by constructor]. apply gt_before in E.
    apply Forall_app. split; [|done]. constructor; [done|].
    eapply Forall_impl; [exact O1|]. intros x Hx. by eapply before_trans.
Qed.

Lemma StronglySorted_snoc {X} (R : relation X) l x :
  StronglySorted R l → (∀ y, y ∈ l → R y x) → StronglySorted R (l ++ [x]).
Proof.
  induction 1 as [|y l Hl IH Hy]; intros Hx; [repeat constructor|]. cbn. constructor.
  - apply IH. intros z Hz. apply Hx. by right.
  - apply Forall_app. split; [done|]. constructor; [|done]. apply Hx. by left.
Qed.

Lemma merge_one_inside s b :
  inside s b →
  ∃ s', merge_one key s = Some s' ∧ so_width s' = so_width s ∧ so_output s' = S (so_output s) ∧ (inside s' b ∨ between s').
Proof.
  intros Hi. destruct (merge_pick s b Hi) as (tl & i & Hrun & Hl & Hr & Hp & Hf & [Hs1 Hs2] & Hlow & Hhigh). cbn zeta in *.
  destruct Hi as [[P1 P2 P3 P4 P5 P6 P7 P8] I1 I2 I3 I4 I5 I6 I7 I8 I9 I10 I11 I12 I13 I14 I15].
  eexists. split; [exact Hrun|]. set (s1 := if tl then _ else _) in *.
  assert (so_values s1 = vs ∧ so_source s1 = so_source s ∧ so_width s1 = so_width s ∧ so_start s1 = so_start s ∧
    so_middle s1 = so_middle s ∧ so_end s1 = so_end s ∧ so_phase s1 = Merging ∧
    (so_left s1 + so_right s1 = S (so_left s + so_right s))%nat ∧
    (so_left s ≤ so_left s1)%nat ∧ (so_right s ≤ so_right s1)%nat) as (E1 & E2 & E3 & E4 & E5 & E6 & E7 & E8 & E9 & E10).
  { unfold s1. destruct tl; cbn; split_and!; try done; lia. }
  clearbody s1. cbn. split; [done|]. split; [done|].
  assert (slice_of (<[so_output s:=i]> (so_target s)) b (S (so_output s)) =
    slice_of (so_target s) b (so_output s) ++ [i]) as Hout by (apply slice_set_end; lia).
  assert (StronglySorted before (slice_of (so_target s) b (so_output s) ++ [i])) as Hsorted.
  { apply StronglySorted_snoc; [done|]. intros y Hy. apply I13; [done|]. rewrite Hp. by left. }
  assert (passes (s1 <| so_target := <[so_output s:=i]> (so_target s) |> <| so_output := S (so_output s) |>)) as Hps.
  { split; cbn; rewrite ?E1, ?E2, ?E3, ?E4, ?E6, ?E7; try done. by rewrite length_insert. }
  assert (∀ a, (so_width s * 2 | a)%nat → (a < b)%nat →
    sorted_range (<[so_output s:=i]> (so_target s)) a (Nat.min (a + so_width s * 2) n)) as Hdone.
  { intros a Ha Hab. unfold sorted_range. rewrite slice_set_after; [by apply I4|].
    destruct Ha as [q ->], I1 as [q' ->]. assert (q * (so_width s * 2) + so_width s * 2 ≤ q' * (so_width s * 2))%nat; [|lia].
    assert (q < q')%nat by nia. nia. }
  destruct (decide (S (so_output s) = so_end s)) as [Ee|Ee].
  - right. split; cbn; rewrite ?E3, ?E6; try done.
    { rewrite I2. destruct (decide (b + so_width s * 2 ≤ n)%nat); [left|right; lia].
      rewrite Nat.min_l by done. by apply Nat.divide_add_r. }
    unfold merged. cbn. rewrite E3. intros a Ha Hab.
    destruct (decide (a < b)%nat) as [?|Hge]; [by apply Hdone|].
    assert (a = b) as ->.
    { destruct Ha as [q ->], I1 as [q' ->]. assert (q = q'); [|by subst]. nia. }
    rewrite <-I2, <-Ee. unfold sorted_range. rewrite Hout, Ee. split; [done|].
    rewrite <-I12. f_equiv. symmetry. rewrite Hp.
    assert (so_left s1 = so_middle s ∧ so_right s1 = so_end s) as [-> ->] by lia.
    by rewrite !slice_nil.
  - left. split; cbn; rewrite ?E2, ?E3, ?E5, ?E6, ?Hout; try done; try lia.
    + unfold merged. cbn. by rewrite E3.
    + rewrite <-I12, <-app_assoc. f_equiv. by rewrite Hp.
    + intros x y Hx Hy. apply elem_of_app in Hx as [Hx|Hx%list_elem_of_singleton]; [|subst x].
      * apply I13; [done|]. rewrite Hp. by right.
      * rewrite Forall_forall in Hf. by apply Hf.
Qed.

(** * The sorted order is the stable sort *)

(** Two sorted lists with the same records of every key, in order. *)
Lemma wsorted_unique l1 l2 :
  wsorted key l1 → wsorted key l2 → (∀ k, with_key key k l1 = with_key key k l2) → l1 = l2.
Proof.
  revert l2. induction l1 as [|x l1 IH]; intros l2 H1 H2 Hk.
  { destruct l2 as [|y l2]; [done|]. specialize (Hk (key y)). unfold with_key in Hk.
    rewrite filter_cons, decide_True in Hk by done. done. }
  destruct l2 as [|y l2].
  { specialize (Hk (key x)). unfold with_key in Hk. by rewrite filter_cons, decide_True in Hk. }
  assert (∀ z l l', wsorted key (z :: l) → ∀ w, w ∈ with_key key (key w) l' → with_key key (key w) (z :: l) = with_key key (key w) l' →
    ¬ key w ≺ key z) as Hmin.
  { intros z l l' Hs w Hw E. rewrite <-E in Hw. apply list_elem_of_filter in Hw as [_ [->|Hw]%elem_of_cons].
    - apply (irreflexivity bytes_lt).
    - apply StronglySorted_cons in Hs as [Hs _]. rewrite Forall_forall in Hs. by apply Hs. }
  assert (key x = key y) as Exy.
  { assert (¬ key y ≺ key x) as Ha.
    { eapply (Hmin x l1 (y :: l2) H1 y); [apply list_elem_of_filter; split; [done|by left]|apply Hk]. }
    assert (¬ key x ≺ key y) as Hb.
    { eapply (Hmin y l2 (x :: l1) H2 x); [apply list_elem_of_filter; split; [done|by left]|by rewrite Hk]. }
    destruct (bcmp_spec (key x) (key y)); done. }
  assert (x = y ∧ with_key key (key x) l1 = with_key key (key x) l2) as [-> Etl].
  { specialize (Hk (key x)). unfold with_key in Hk. rewrite !filter_cons, !decide_True in Hk by done. by injection Hk. }
  f_equal. apply StronglySorted_cons in H1 as [_ H1], H2 as [_ H2]. apply IH; [done..|].
  intros k. specialize (Hk k). unfold with_key in *. rewrite !filter_cons in Hk.
  destruct (decide (key y = k)) as [<-|]; [|done]. by injection Hk.
Qed.

Definition pick (src : list nat) : list A := omap (vs !!.) src.

Lemma pick_cons i src : (i < n)%nat → ∃ x, vs !! i = Some x ∧ key x = key_at i ∧ pick (i :: src) = x :: pick src.
Proof.
  intros [x Hx]%lookup_lt_is_Some_2. exists x. unfold pick, key_at. cbn. by rewrite Hx.
Qed.

Lemma pick_lookup src p i : Forall (λ i, (i < n)%nat) src → src !! p = Some i → pick src !! p = vs !! i.
Proof.
  intros Hsrc. revert p. induction Hsrc as [|j src Hj Hsrc IH]; intros p Hp; [done|].
  destruct (pick_cons j src Hj) as (x & Hx & _ & ->). destruct p as [|p]; [|by apply IH].
  injection Hp as ->. done.
Qed.

Lemma pick_length src : Forall (λ i, (i < n)%nat) src → length (pick src) = length src.
Proof.
  induction 1 as [|i src Hi Hsrc IH]; [done|]. destruct (pick_cons i src Hi) as (x & _ & _ & ->). cbn. by rewrite IH.
Qed.

Lemma pick_seq : pick (seq 0 n) = vs.
Proof.
  assert (Forall (λ i, (i < n)%nat) (seq 0 n)) as Hr by (apply Forall_forall; intros i; rewrite elem_of_seq; lia).
  apply list_eq. intros p. destruct (decide (p < n)%nat) as [Hp|Hp].
  - rewrite (pick_lookup _ p p); [done|done|by rewrite lookup_seq_lt].
  - rewrite (lookup_ge_None_2 vs) by lia. apply lookup_ge_None_2.
    rewrite pick_length, length_seq by done. lia.
Qed.

Lemma pick_with_key k src : Forall (λ i, (i < n)%nat) src →
  with_key key k (pick src) = pick (filter (λ i, key_at i = k) src).
Proof.
  induction 1 as [|i src Hi Hsrc IH]; [done|]. destruct (pick_cons i src Hi) as (x & Hx & Ek & ->).
  unfold with_key in *. rewrite !filter_cons, Ek, IH. destruct (decide (key_at i = k)); [|done].
  destruct (pick_cons i (filter (λ i, key_at i = k) src) Hi) as (y & Hy & _ & ->). congruence.
Qed.

Lemma pick_wsorted src : Forall (λ i, (i < n)%nat) src → StronglySorted before src → wsorted key (pick src).
Proof.
  induction 1 as [|i src Hi Hsrc IH]; [constructor|]. intros [Hb Hs]%StronglySorted_cons.
  destruct (pick_cons i src Hi) as (x & Hx & Ek & ->). constructor; [by apply IH|].
  rewrite Forall_forall in Hb, Hsrc. apply Forall_forall. intros y (j & Hj & Hy)%list_elem_of_omap.
  assert (key y = key_at j) as Ej by (unfold key_at; by rewrite Hy).
  unfold key_le. rewrite Ek, Ej. intros Hlt. destruct (Hb j Hj) as [H|[H _]].
  - by eapply bytes_lt_asym.
  - rewrite H in Hlt. by apply (irreflexivity bytes_lt) in Hlt.
Qed.

Lemma before_le_sorted k src :
  StronglySorted before src → StronglySorted le (filter (λ i, key_at i = k) src).
Proof.
  induction 1 as [|i src Hs IH Hi]; [constructor|]. rewrite filter_cons. destruct (decide (key_at i = k)) as [E|]; [|done].
  constructor; [done|]. rewrite Forall_forall in Hi. apply Forall_forall. intros j [Ej Hj]%list_elem_of_filter.
  destruct (Hi j Hj) as [H|[_ H]]; [|lia]. rewrite E, Ej in H. by apply (irreflexivity bytes_lt) in H.
Qed.

Lemma seq_le_sorted a m : StronglySorted le (seq a m).
Proof.
  revert a. induction m as [|m IH]; intros a; [constructor|]. cbn. constructor; [done|].
  apply Forall_forall. intros j. rewrite elem_of_seq. lia.
Qed.

Lemma pick_sorted src : StronglySorted before src → src ≡ₚ seq 0 n → pick src = sort_by key vs.
Proof.
  intros Hs Hp.
  assert (Forall (λ i, (i < n)%nat) src) as Hr.
  { rewrite Hp. apply Forall_forall. intros i. rewrite elem_of_seq. lia. }
  apply wsorted_unique; [by apply pick_wsorted|apply sort_by_wsorted|]. intros k.
  rewrite with_key_sort_by. trans (with_key key k (pick (seq 0 n))); [|by rewrite pick_seq].
  rewrite !pick_with_key; [|apply Forall_forall; intros i; rewrite elem_of_seq; lia|done]. f_equal.
  apply (StronglySorted_unique le).
  - by apply before_le_sorted.
  - assert (∀ l, StronglySorted le l → StronglySorted le (filter (λ i, key_at i = k) l)) as Hfl.
    { induction 1 as [|i l Hl IH Hi]; [constructor|]. rewrite filter_cons. destruct (decide _); [|done].
      constructor; [done|]. rewrite Forall_forall in Hi |- *. intros j [_ Hj]%list_elem_of_filter. auto. }
    apply Hfl, seq_le_sorted.
  - by rewrite Hp.
Qed.

(** * Permuting the records *)

Definition unfixed (target : list nat) : nat := length (filter (λ j, target !! j ≠ Some j) (seq 0 (length target))).
#[local] Arguments unfixed : simpl never.
#[local] Arguments Nat.sub : simpl never.

Record permuting (s : Sort A) : Prop := {
  pm_phase : so_phase s = Permuting;
  pm_values_len : length (so_values s) = n;
  pm_target_len : length (so_target s) = n;
  pm_position : (so_position s ≤ n)%nat;
  pm_range : Forall (λ t, (t < n)%nat) (so_target s);
  pm_inj : NoDup (so_target s);
  pm_place : ∀ j t, so_target s !! j = Some t → so_values s !! j = sort_by key vs !! t;
  pm_fixed : ∀ j, (j < so_position s)%nat → so_target s !! j = Some j;
}.

Lemma swap_lookup {X} (l : list X) i j x y k :
  l !! i = Some x → l !! j = Some y → i ≠ j →
  <[i := y]> (<[j := x]> l) !! k = if decide (k = i) then Some y else if decide (k = j) then Some x else l !! k.
Proof.
  intros Hi Hj Hne. apply lookup_lt_Some in Hi as Hi'. apply lookup_lt_Some in Hj as Hj'.
  destruct (decide (k = i)) as [->|]; [by apply list_lookup_insert_eq; rewrite length_insert|].
  rewrite list_lookup_insert_ne by done. destruct (decide (k = j)) as [->|]; [by apply list_lookup_insert_eq|].
  by apply list_lookup_insert_ne.
Qed.

(** A swap fixes its destination. *)
Lemma unfixed_swap (t : list nat) p d e :
  NoDup t → t !! p = Some d → t !! d = Some e → d ≠ p →
  (unfixed (<[p := e]> (<[d := d]> t)) < unfixed t)%nat.
Proof.
  intros Hnd Hp Hd Hne. unfold unfixed. rewrite !length_insert.
  assert (∀ j, <[p := e]> (<[d := d]> t) !! j ≠ Some j → t !! j ≠ Some j) as Hsub.
  { intros j. rewrite (swap_lookup t p d d e j) by done. repeat case_decide; subst; try done. intros _ E. congruence. }
  assert (d ∈ filter (λ j, t !! j ≠ Some j) (seq 0 (length t))) as Hin.
  { apply list_elem_of_filter. split.
    - rewrite Hd. intros [= ->]. apply Hne. symmetry. by eapply NoDup_lookup.
    - apply elem_of_seq. apply lookup_lt_Some in Hd. lia. }
  set (l := seq 0 (length t)) in *. clearbody l. induction l as [|j l IH]; [by apply not_elem_of_nil in Hin|].
  assert (∀ l, length (filter (λ j, <[p := e]> (<[d := d]> t) !! j ≠ Some j) l) ≤ length (filter (λ j, t !! j ≠ Some j) l))%nat as Hle.
  { clear -Hsub. intros l. induction l as [|j l IH]; [done|]. rewrite !filter_cons.
    repeat case_decide; cbn; try lia; naive_solver. }
  rewrite !filter_cons in *. destruct (decide (j = d)) as [->|Hj].
  - rewrite decide_False, decide_True; [specialize (Hle l); cbn; lia| |].
    + rewrite Hd. intros [= ->]. apply Hne. symmetry. by eapply NoDup_lookup.
    + rewrite (swap_lookup t p d d e d) by done. rewrite decide_False, decide_True by done. auto.
  - assert (d ∈ filter (λ j, t !! j ≠ Some j) l) as Hin'.
    { destruct (decide (t !! j ≠ Some j)); [|done]. by apply elem_of_cons in Hin as [?|?]. }
    specialize (IH Hin'). repeat case_decide; cbn; try lia; naive_solver.
Qed.

Lemma swap_perm {X} (l : list X) i j x y :
  l !! i = Some x → l !! j = Some y → <[i := y]> (<[j := x]> l) ≡ₚ l.
Proof.
  intros Hi Hj. destruct (decide (i = j)) as [->|Hne].
  { by rewrite list_insert_insert_eq, list_insert_id by congruence. }
  assert (x :: <[i := y]> (<[j := x]> l) ≡ₚ x :: l) as Hp; [|by apply Permutation_cons_inv in Hp].
  assert (∀ (l : list X) k z w, l !! k = Some z → z :: <[k := w]> l ≡ₚ w :: l) as Hone.
  { clear. induction l as [|a l IH]; intros [|k] z w Hk; cbn in *; try done.
    - injection Hk as ->. apply Permutation_swap.
    - rewrite Permutation_swap, (IH k z w Hk). apply Permutation_swap. }
  rewrite (Hone _ i x y) by (by rewrite list_lookup_insert_ne). by rewrite (Hone l j y x).
Qed.

Lemma permuting_step s :
  permuting s → so_position s ≠ n →
  ∃ s', sort_round key s = Some (inr (true, s')) ∧ permuting s' ∧
    (n - so_position s' + unfixed (so_target s') < n - so_position s + unfixed (so_target s))%nat.
Proof.
  intros [P1 P2 P3 P4 P5 P6 P7 P8] Hne. unfold sort_round. rewrite P1, P2.
  rewrite (proj2 (Nat.eqb_neq _ _)) by done.
  destruct (lookup_lt_is_Some_2 (so_target s) (so_position s)) as [d Hd]; [lia|]. rewrite Hd. cbn [mbind option_bind].
  destruct (Nat.eqb_spec d (so_position s)) as [->|Hdp].
  { eexists. split; [done|]. split; [|cbn; lia]. split; cbn; try done; [lia|].
    intros j Hj. destruct (decide (j = so_position s)) as [->|]; [done|]. apply P8. lia. }
  assert (d < n)%nat as Hdn by (rewrite Forall_forall in P5; apply P5; by eapply list_elem_of_lookup_2).
  destruct (lookup_lt_is_Some_2 (so_target s) d) as [e He]; [lia|].
  destruct (lookup_lt_is_Some_2 (so_values s) (so_position s)) as [x Hx]; [lia|].
  destruct (lookup_lt_is_Some_2 (so_values s) d) as [y Hy]; [lia|].
  unfold vec_swap. rewrite Hx, Hy, Hd, He. cbn [mbind option_bind].
  eexists. split; [done|]. split; [|cbn; pose proof (unfixed_swap _ _ _ _ P6 Hd He Hdp); lia].
  assert (<[so_position s:=e]> (<[d:=d]> (so_target s)) ≡ₚ so_target s) as Hperm by (by apply swap_perm).
  split; cbn; rewrite ?length_insert, ?Hperm; try done.
  - intros j t. rewrite (swap_lookup (so_target s) _ d d e j), (swap_lookup (so_values s) _ d x y j) by done.
    repeat case_decide; subst.
    + intros [= <-]. rewrite <-Hy. by apply P7.
    + intros [= <-]. rewrite <-Hx. by apply P7.
    + apply P7.
  - intros j Hj. rewrite (swap_lookup (so_target s) _ d d e j) by done. rewrite decide_False by lia.
    destruct (decide (j = d)) as [->|]; [done|by apply P8].
Qed.

Lemma permuting_done s : permuting s → so_position s = n → so_values s = sort_by key vs.
Proof.
  intros [P1 P2 P3 P4 P5 P6 P7 P8] Hp. apply list_eq. intros j. destruct (decide (j < n)%nat) as [Hj|Hj].
  - apply P7. apply P8. lia.
  - rewrite !lookup_ge_None_2; [done| |lia]. rewrite length_sort_by. lia.
Qed.

(** * Inverting the order *)

Record inverting (s : Sort A) : Prop := {
  iv_phase : so_phase s = Inverting;
  iv_values : so_values s = vs;
  iv_target_len : length (so_target s) = n;
  iv_sorted : StronglySorted before (so_source s);
  iv_perm : so_source s ≡ₚ seq 0 n;
  iv_position : (so_position s ≤ n)%nat;
  iv_inverse : ∀ p i, (p < so_position s)%nat → so_source s !! p = Some i → so_target s !! i = Some p;
}.

Lemma source_range src p i : src ≡ₚ seq 0 n → src !! p = Some i → (i < n)%nat.
Proof.
  intros Hp Hi. apply list_elem_of_lookup_2 in Hi. rewrite Hp in Hi. apply elem_of_seq in Hi. lia.
Qed.

Lemma inverting_step s :
  inverting s → (so_position s < n)%nat →
  ∃ s', sort_round key s = Some (inr (true, s')) ∧ inverting s' ∧ so_position s' = S (so_position s).
Proof.
  intros [P1 P2 P3 P4 P5 P6 P7] Hlt. unfold sort_round. rewrite P1, P2, (proj2 (Nat.ltb_lt _ _)) by done.
  destruct (lookup_lt_is_Some_2 (so_source s) (so_position s)) as [i Hi].
  { rewrite P5, length_seq. done. }
  pose proof (source_range _ _ _ P5 Hi) as Hin. rewrite Hi. cbn [mbind option_bind]. unfold vec_set.
  rewrite (proj2 (Nat.ltb_lt _ _)) by lia. cbn [mbind option_bind]. eexists. split; [done|]. split; [|done].
  split; cbn; try done; [by rewrite length_insert|]. intros p j Hp Hj.
  destruct (decide (p = so_position s)) as [->|Hne].
  - rewrite Hi in Hj. injection Hj as <-. apply list_lookup_insert_eq. lia.
  - rewrite list_lookup_insert_ne; [apply P7; [lia|done]|]. intros ->. apply Hne.
    assert (NoDup (so_source s)) as Hnd by (rewrite P5; apply NoDup_seq). by eapply NoDup_lookup.
Qed.

Lemma inverting_done s :
  inverting s → so_position s = n → permuting (s <| so_position := 0%nat |> <| so_phase := Permuting |>).
Proof.
  intros [P1 P2 P3 P4 P5 P6 P7] Hp.
  assert (Forall (λ i, (i < n)%nat) (so_source s)) as Hr.
  { rewrite P5. apply Forall_forall. intros i. rewrite elem_of_seq. lia. }
  assert (∀ j t, so_target s !! j = Some t → so_source s !! t = Some j) as Hinv.
  { intros j t Ht. assert (j ∈ so_source s) as Hj.
    { rewrite P5. apply elem_of_seq. apply lookup_lt_Some in Ht. lia. }
    apply list_elem_of_lookup in Hj as [p Hpj]. rewrite (P7 p j) in Ht; [by injection Ht as <-| |done].
    apply lookup_lt_Some in Hpj. rewrite P5, length_seq in Hpj. lia. }
  split; cbn; try done; [by rewrite P2|lia| | | |lia].
  - apply Forall_forall. intros t [j Hj]%list_elem_of_lookup. apply Hinv, lookup_lt_Some in Hj.
    rewrite P5, length_seq in Hj. done.
  - apply NoDup_alt. intros i j t Hi Hj. apply Hinv in Hi, Hj. congruence.
  - intros j t Ht. rewrite P2, <-(pick_sorted (so_source s)) by done. symmetry. apply pick_lookup; [done|]. by apply Hinv.
Qed.

(** * Indexing *)

Record indexing (s : Sort A) : Prop := {
  ix_phase : so_phase s = Indexing;
  ix_values : so_values s = vs;
  ix_source : so_source s = seq 0 (length (so_source s));
  ix_count : (length (so_source s) ≤ n)%nat;
  ix_target_len : length (so_target s) = length (so_source s);
  ix_width : so_width s = 1%nat;
  ix_start : so_start s = 0%nat;
  ix_end : so_end s = 0%nat;
  ix_output : so_output s = 0%nat;
  ix_position : so_position s = 0%nat;
  ix_sorted : if so_input_sorted s
              then ∀ i x y, (S i < length (so_source s))%nat → vs !! i = Some x → vs !! S i = Some y → key_le key x y
              else (1 < n)%nat;
}.

Lemma indexing_step s :
  indexing s → (length (so_source s) < n)%nat →
  ∃ s', sort_round key s = Some (inr (true, s')) ∧ indexing s' ∧ length (so_source s') = S (length (so_source s)).
Proof.
  intros [P1 P2 P3 P4 P5 P6 P7 P8 P9 P10 P11] Hlt. unfold sort_round.
  rewrite P1, P2, (proj2 (Nat.ltb_lt _ _)) by done.
  assert (∃ d, (match length (so_source s) with O => Some false
      | S previous => negb <$> value_le key vs previous (length (so_source s)) end) = Some d ∧
    if d then (1 < n)%nat else ∀ i x y, S i = length (so_source s) → vs !! i = Some x → vs !! S i = Some y → key_le key x y)
    as (d & -> & Hd).
  { destruct (length (so_source s)) as [|i] eqn:E; [by exists false|].
    rewrite value_le_at by lia. cbn [fmap option_fmap option_map]. eexists. split; [done|].
    destruct (ble (key_at i) (key_at (S i))) eqn:Eb; cbn; [|lia].
    intros j x y [= ->] Hx Hy. unfold key_at in Eb. rewrite Hx, Hy in Eb. cbn in Eb. by apply ble_true in Eb. }
  cbn [mbind option_bind]. eexists. split; [done|]. split.
  - destruct d; split; cbn; rewrite ?length_app; cbn; try done; try lia.
    1, 2: rewrite seq_app, <-P3; done.
    destruct (so_input_sorted s); [|done]. intros i x y Hi Hx Hy.
    destruct (decide (S i = length (so_source s))); [by eapply Hd|]. apply (P11 i x y); [lia|done..].
  - destruct d; cbn; rewrite length_app; cbn; lia.
Qed.

Lemma adjacent_sorted l :
  (∀ i x y, l !! i = Some x → l !! S i = Some y → key_le key x y) → wsorted key l.
Proof.
  intros H. apply Sorted_StronglySorted; [apply _|]. induction l as [|x l IH]; [constructor|]. constructor.
  - apply IH. intros i. apply (H (S i)).
  - destruct l as [|y l]; constructor. by apply (H 0%nat).
Qed.

Lemma indexing_done s :
  indexing s → length (so_source s) = n →
  if so_input_sorted s then so_values s = sort_by key vs
  else between (s <| so_phase := Merging |>) ∧ (1 < n)%nat.
Proof.
  intros [P1 P2 P3 P4 P5 P6 P7 P8 P9 P10 P11] Hn. destruct (so_input_sorted s).
  - rewrite P2. symmetry. apply sort_by_wsorted_id, adjacent_sorted. intros i x y Hx Hy.
    apply (P11 i); [|done..]. apply lookup_lt_Some in Hy. lia.
  - split; [|done]. split; cbn; try congruence; [|left; rewrite P8; by exists 0%nat|].
    + split; cbn; try congruence; try lia. rewrite P6. intros a _ Ha. rewrite Nat.min_l by lia.
      rewrite P3, Hn. unfold sorted_range, slice_of. replace (a + 1 - a)%nat with 1%nat by lia.
      rewrite drop_seq. destruct (n - a)%nat as [|m] eqn:E; [lia|]. cbn. split; [repeat constructor|done].
    + intros a _. rewrite P8. lia.
Qed.

(** * The whole sort *)

Inductive sort_inv (s : Sort A) : Prop :=
  | Inv_indexing : indexing s → sort_inv s
  | Inv_between : between s → (1 < n)%nat → so_position s = 0%nat → sort_inv s
  | Inv_inside b : inside s b → (so_width s < n)%nat → (1 < n)%nat → so_position s = 0%nat → sort_inv s
  | Inv_inverting : inverting s → sort_inv s
  | Inv_permuting : permuting s → sort_inv s
  | Inv_ready : so_phase s = SortReady → so_values s = sort_by key vs → sort_inv s.

(** A bound on the units left. *)
Definition units_left (s : Sort A) : nat :=
  match so_phase s with
  | Indexing => (n - length (so_source s)) + n * n + 5 * n + 1
  | Merging => (n - so_width s) * n + (n - so_output s) + 4 * n + 1
  | Inverting => (n - so_position s) + 3 * n + 1
  | Permuting => (n - so_position s) + unfixed (so_target s)
  | _ => 0
  end%nat.

(** A bound on the rounds before a return. *)
Definition rank (s : Sort A) : nat :=
  match so_phase s with
  | Indexing => 7
  | Merging => if (so_start s =? n)%nat && (so_output s =? so_end s)%nat then 6 else 5
  | Inverting => 4
  | Permuting => 3
  | _ => 2
  end%nat.

Lemma unfixed_le t : (unfixed t ≤ length t)%nat.
Proof.
  unfold unfixed. etrans; [apply length_filter|]. by rewrite length_seq.
Qed.

Lemma merge_one_keeps s s' : merge_one key s = Some s' → so_phase s' = so_phase s ∧ so_position s' = so_position s.
Proof.
  unfold merge_one. intros H. repeat (case_match || simplify_option_eq); done.
Qed.

(** A pass that is over. *)
Lemma pass_done s :
  between s → so_start s = n →
  between (s <| so_source := so_target s |> <| so_target := so_source s |> <| so_width := (so_width s * 2)%nat |>
             <| so_start := 0%nat |> <| so_output := 0%nat |> <| so_end := 0%nat |>).
Proof.
  intros [[P1 P2 P3 P4 P5 P6 P7 P8] B1 B2 B3] Hs. split; cbn; [split; cbn; try done; try lia|done|left; by exists 0%nat|].
  - intros a Ha Hlt. apply B3; [done|]. congruence.
  - intros a _ Hlt. lia.
Qed.

Lemma between_inverting s :
  between s → so_position s = 0%nat → (n ≤ so_width s)%nat → (1 < n)%nat → inverting (s <| so_phase := Inverting |>).
Proof.
  intros [[P1 P2 P3 P4 P5 P6 P7 P8] B1 B2 B3] Hp Hw Hn.
  destruct (P8 0%nat) as [S1 S2]; [by exists 0%nat|lia|]. rewrite Nat.min_r, <-P3, slice_all in S1, S2 by lia.
  rewrite P3, Nat.sub_0_r in S2. split; cbn; try done; lia.
Qed.

(** What a round does with a state of the sort. *)
Definition round_good (s : Sort A) (r : Sort A + bool * Sort A) : Prop :=
  match r with
  | inl s' => sort_inv s' ∧ (rank s' < rank s)%nat ∧ (units_left s' ≤ units_left s)%nat
  | inr (true, s') => sort_inv s' ∧ (units_left s' < units_left s)%nat
  | inr (false, s') => so_phase s' = SortReady ∧ so_values s' = sort_by key vs
  end.

Lemma merging_round s b :
  inside s b → (so_width s < n)%nat → (1 < n)%nat → so_position s = 0%nat →
  ∃ s', merge_one key s = Some s' ∧ round_good s (inr (true, s')).
Proof.
  intros Hi Hw Hn Hp. destruct (merge_one_inside s b Hi) as (s' & Hs & Ew & Eo & Hi').
  destruct (merge_one_keeps _ _ Hs) as [E1 E2]. pose proof (ps_phase _ (in_passes _ _ Hi)) as Eph.
  exists s'. split; [done|]. split.
  - destruct Hi' as [Hi'|Hi']; [eapply Inv_inside|eapply Inv_between]; rewrite ?Ew, ?E2; done.
  - unfold units_left. rewrite E1, Eph, Ew, Eo. pose proof (in_open _ _ Hi). pose proof (ps_end _ (in_passes _ _ Hi)). lia.
Qed.

Lemma round_progress s : sort_inv s → ∃ r, sort_round key s = Some r ∧ round_good s r.
Proof.
  intros [Hi|Hb Hn Hp|b Hi Hw Hn Hp|Hi|Hi|Hr Hv].
  - pose proof Hi as [P1 P2 P3 P4 P5 P6 P7 P8 P9 P10 P11]. destruct (decide (length (so_source s) < n)%nat) as [Hlt|Hge].
    { destruct (indexing_step s Hi Hlt) as (s' & Hs & Hi' & El). eexists. split; [exact Hs|]. split; [by apply Inv_indexing|].
      unfold units_left. rewrite P1, (ix_phase _ Hi'), El. lia. }
    assert (length (so_source s) = n) as El by lia. pose proof (indexing_done s Hi El) as Hd.
    unfold sort_round. rewrite P1, P2, (proj2 (Nat.ltb_ge _ _)) by lia. destruct (so_input_sorted s).
    + eexists. split; [done|]. split_and!; [by apply Inv_ready| |]; unfold rank, units_left; cbn; rewrite P1; lia.
    + destruct Hd as [Hd Hn]. eexists. split; [done|]. split_and!; [by apply Inv_between| |]; unfold rank, units_left; cbn; rewrite P1.
      * rewrite P7, P8, P9. destruct n; [lia|cbn; lia].
      * rewrite P6, P9. nia.
  - pose proof Hb as [[P1 P2 P3 P4 P5 P6 P7 P8] B1 B2 B3]. unfold sort_round. rewrite P1, P2.
    destruct (Nat.leb_spec n (so_width s)) as [Hw|Hw].
    { eexists. split; [done|]. split_and!; [by apply Inv_inverting, between_inverting| |]; unfold rank, units_left; cbn; rewrite P1.
      - destruct (_ && _); lia.
      - rewrite Hp. lia. }
    rewrite (proj2 (Nat.eqb_eq _ _)) by done. destruct (Nat.eqb_spec (so_start s) n) as [Hs|Hs].
    { eexists. split; [done|]. split_and!; [apply Inv_between; [by apply pass_done|done..]| |]; unfold rank, units_left; cbn; rewrite P1.
      - rewrite Hs, B1, !Nat.eqb_refl. destruct n; [lia|cbn; lia].
      - assert ((n - so_width s * 2) * n + n ≤ (n - so_width s) * n)%nat; [|lia].
        replace (n - so_width s)%nat with (S (n - so_width s - 1)) by lia. cbn. nia. }
    destruct (merging_round (next_block s) (so_start s)) as (s' & Hrun & Hg); [by apply next_block_inside|done..|].
    eexists. rewrite Hrun. cbn [mbind option_bind]. split; [done|]. destruct Hg as [? Hu]. split; [done|].
    eapply Nat.lt_le_trans; [exact Hu|]. unfold units_left, next_block. cbn. rewrite P1. lia.
  - pose proof (in_passes _ _ Hi) as [P1 P2 P3 P4 P5 P6 P7 P8]. unfold sort_round. rewrite P1, P2.
    rewrite (proj2 (Nat.leb_gt _ _)) by done. pose proof (in_open _ _ Hi). rewrite (proj2 (Nat.eqb_neq _ _)) by lia.
    destruct (merging_round s b Hi Hw Hn Hp) as (s' & Hrun & Hg). eexists. rewrite Hrun. split; [done|exact Hg].
  - pose proof Hi as [P1 P2 P3 P4 P5 P6 P7]. destruct (decide (so_position s < n)%nat) as [Hlt|Hge].
    { destruct (inverting_step s Hi Hlt) as (s' & Hs & Hi' & El). eexists. split; [exact Hs|]. split; [by apply Inv_inverting|].
      unfold units_left. rewrite P1, (iv_phase _ Hi'), El. lia. }
    unfold sort_round. rewrite P1, P2, (proj2 (Nat.ltb_ge _ _)) by lia. eexists. split; [done|].
    split_and!; [apply Inv_permuting, inverting_done; [done|lia]| |]; unfold rank, units_left; cbn; rewrite P1; [lia|].
    pose proof (unfixed_le (so_target s)). lia.
  - pose proof Hi as [P1 P2 P3 P4 P5 P6 P7 P8]. destruct (decide (so_position s = n)) as [E|Hne].
    { unfold sort_round. rewrite P1, P2, (proj2 (Nat.eqb_eq _ _)) by done. eexists. split; [done|].
      split_and!; [apply Inv_ready; [done|exact (permuting_done s Hi E)]| |]; unfold rank, units_left; cbn; rewrite P1; lia. }
    destruct (permuting_step s Hi Hne) as (s' & Hs & Hi' & Hlt). eexists. split; [exact Hs|]. split; [by apply Inv_permuting|].
    unfold units_left. rewrite P1, (pm_phase _ Hi'). done.
  - unfold sort_round. rewrite Hr. eexists. split; [done|]. done.
Qed.

Lemma tick_progress s : sort_inv s →
  ∃ b s', sort_tick key s = Some (b, s') ∧
    if b then sort_inv s' ∧ (units_left s' < units_left s)%nat
    else sort_finish s' = Some (sort_by key vs).
Proof.
  assert (∀ fuel s, (rank s ≤ fuel)%nat → sort_inv s →
    ∃ b s', tick_rounds key fuel s = Some (b, s') ∧
      if (b : bool) then sort_inv s' ∧ (units_left s' < units_left s)%nat
      else sort_finish s' = Some (sort_by key vs)) as Hfuel.
  { induction fuel as [|fuel IH]; intros s1 Hr Hi.
    { unfold rank in Hr. destruct (so_phase s1); try destruct (_ && _); lia. }
    destruct (round_progress s1 Hi) as (r & Hrun & Hg). cbn [tick_rounds]. rewrite Hrun. cbn [mbind option_bind].
    destruct r as [s'|[[|] s']]; cbn [round_good] in Hg.
    - destruct Hg as (Hi' & Hr' & Hu). destruct (IH s') as (b & s'' & Ht & Hb); [lia|done|].
      exists b, s''. split; [done|]. destruct b; [|done]. destruct Hb as [? ?]. split; [done|lia].
    - eexists true, s'. done.
    - exists false, s'. split; [done|]. destruct Hg as [E1 E2]. unfold sort_finish. by rewrite E1, E2. }
  apply Hfuel. unfold rank. destruct (so_phase s); try destruct (_ && _); lia.
Qed.

Lemma sort_new_inv : sort_inv (sort_new vs).
Proof. apply Inv_indexing. split; cbn; try done; lia. Qed.
End correct.

(** * The whole sort and its retirement *)
Section run.
Context {A : Type} (key : A → bytes).

(** Ticks until one returns false, then [finish]. *)
Fixpoint sort_run (fuel : nat) (s : Sort A) : option (list A) :=
  match fuel with
  | O => None
  | S fuel => '(more, s) ← sort_tick key s; if (more : bool) then sort_run fuel s else sort_finish s
  end.

(** Units of retirement until one returns false. *)
Fixpoint retire_run (fuel : nat) (s : Sort A) : bool * Sort A :=
  match fuel with
  | O => (true, s)
  | S fuel => let r := sort_retire_one s in if r.1 then retire_run fuel r.2 else r
  end.

Lemma sort_run_inv vs fuel s :
  sort_inv key vs s → (units_left vs s < fuel)%nat → sort_run fuel s = Some (sort_by key vs).
Proof.
  revert s. induction fuel as [|fuel IH]; intros s Hi Hf; [lia|].
  destruct (tick_progress key vs s Hi) as (b & s' & Ht & Hb). cbn [sort_run]. rewrite Ht. cbn [mbind option_bind].
  destruct b; [|done]. destruct Hb as [Hi' Hu]. apply IH; [done|lia].
Qed.

Definition retired (s : Sort A) : Prop :=
  so_values s = [] ∧ so_source_allocated s = false ∧ so_target_allocated s = false ∧ so_phase s = SortRetiring.

Lemma retire_run_empty fuel s :
  (length (so_values s) + 2 < fuel)%nat → (retire_run fuel s).1 = false ∧ retired (retire_run fuel s).2.
Proof.
  set (m := λ s : Sort A, (length (so_values s) + (if so_source_allocated s then 1 else 0) + (if so_target_allocated s then 1 else 0))%nat).
  assert (∀ fuel s, (m s < fuel)%nat → (retire_run fuel s).1 = false ∧ retired (retire_run fuel s).2) as H.
  { clear. induction fuel as [|fuel IH]; intros s Hf; [lia|]. cbn [retire_run]. unfold sort_retire_one.
    destruct s as [vs src srca tgt tgta]. cbn -[last removelast] in *. destruct (last vs) as [v|] eqn:El.
    - apply last_Some in El as [l ->]. rewrite removelast_last. cbn. apply IH. unfold m in *. cbn in *.
      rewrite length_app in Hf. cbn in Hf. lia.
    - apply last_None in El as ->. unfold m in Hf. cbn in *. destruct srca, tgta; cbn; try (apply IH; unfold m; cbn in *; lia); done. }
  intros Hf. apply H. unfold m. repeat case_match; lia.
Qed.
End run.

(** C38: The resumable sort of a candidate's rows - one comparison or one swap
    in a unit, over two arrays of indices - never indexes outside of an array
    and ends within a quadratic number of units with the stable sort of the
    rows; given up in any state, its retirement releases every row and both
    arrays, one in a unit, and then has nothing left. *)
Theorem sort_units_stable {A} (key : A → bytes) (values : list A) (given_up : Sort A) :
  let n := length values in let r := retire_run (length (so_values given_up) + 3) given_up in
  sort_run key (n * n + 6 * n + 2) (sort_new values) = Some (sort_by key values) ∧ r.1 = false ∧ retired r.2.
Proof.
  cbn zeta. split; [|apply retire_run_empty; lia].
  apply sort_run_inv; [apply sort_new_inv|]. unfold units_left. cbn. lia.
Qed.
