(* ===== verification/Session.v ===== *)
(** src/crates/sync-core/src/transactional_tree_v2.rs: the tree of a session
    in memory, with a committed root and a candidate that is updated, then
    committed or dropped. It composes the builder, the update, the
    reachability walk, the garbage collection and the generations of the
    in-memory store.

    The session refines a vault with transactions, and the objects it reports
    as fresh are exactly those the committed vault does not have. *)

From S2P Require Import Prelude Bytes Keyed Hash Chunk Store StoreProps TreeV1 TreeV1Build TreeV1Props.
From S2P Require Import TreeV2Codec TreeV2CodecProps TreeV2Segment TreeV2 TreeV2Build TreeV2Store TreeV2Props TreeV2Diff TreeV2DiffProps.
From S2P Require Import Concrete Reachability ReachabilityProps VersionedRoot Diff TreeV1Examples TreeV2Examples.
Local Open Scope N_scope.

Definition MAX_SAFE_OUTPUT_SETTLEMENT_BYTES : N := 2 ^ 53 - 1.
Definition state_error (message : string) : ChunkError := Deserialize message.

Record ChunkGcStats := { gs_before : N; gs_reachable : N; gs_removed : N; gs_after : N; gs_bytes_removed : N }.

Record V2StableOutputMemoryV1 := {
  so1_node_payload_bytes : N;
  so1_range_endpoint_resident_requested_bytes : N;
  so1_resident_admission_bytes : N;
  so1_counters_valid : bool;
}.

(** The numbers of [CandidateOpenMemoryPlanV1]. *)
Record CandidateOpenMemoryPlanV1 := {
  op_resident_chunk_count : N;
  op_root_string_count : N;
  op_root_identity_requested_bytes : N;
  op_root_endpoint_requested_bytes : N;
  op_root_string_requested_bytes : N;
  op_peak_admission_bytes : N;
}.

Record TransactionalTreeV2 := {
  tt_committed_root : option RootNodeV2;
  tt_candidate_root : option RootNodeV2;
  tt_candidate_start_chunks : option N;
  tt_store : MemoryChunkStore;
  tt_vault_id : bytes;
  tt_device_id : bytes;
}.
#[global] Instance tt_settable : Settable TransactionalTreeV2 := λ t,
  {| tt_committed_root := tt_committed_root t; tt_candidate_root := tt_candidate_root t;
     tt_candidate_start_chunks := tt_candidate_start_chunks t; tt_store := tt_store t;
     tt_vault_id := tt_vault_id t; tt_device_id := tt_device_id t |}.
#[global] Instance root_settable : Settable RootNodeV2 := λ r,
  {| r2_vault_id := r2_vault_id r; r2_created_ms := r2_created_ms r; r2_tree := r2_tree r;
     r2_parent_hash := r2_parent_hash r; r2_device_id := r2_device_id r |}.
#[global] Instance root_node_eq_dec : EqDecision RootNodeV2.
Proof. solve_decision. Defined.

Section session.
Context {B3 : Blake3}.
Abbreviation Tree := TransactionalTreeV2.
Abbreviation Op := (St Tree ChunkError).

Definition on_store {A} (m : St MemoryChunkStore ChunkError A) : Op A := λ t,
  let '(r, s) := m (tt_store t) in (r, t <| tt_store := s |>).
Definition st_update (f : Tree → Tree) : Op unit := λ t, (Ok tt, f t).
Definition st_read {A} (f : Tree → result ChunkError A) : Op A := λ t, (f t, t).

Definition tt_new (vault_id device_id : bytes) : Tree :=
  {| tt_committed_root := None; tt_candidate_root := None; tt_candidate_start_chunks := None;
     tt_store := ms_new; tt_vault_id := vault_id; tt_device_id := device_id |}.

Definition from_verified_replacement (root : RootNodeV2) (store : MemoryChunkStore) (vault_id device_id : bytes) : Tree :=
  {| tt_committed_root := Some root; tt_candidate_root := None; tt_candidate_start_chunks := None;
     tt_store := store; tt_vault_id := vault_id; tt_device_id := device_id |}.

Definition load_root_without_chunks (root : RootNodeV2) (t : Tree) : Tree :=
  t <| tt_committed_root := Some root |> <| tt_candidate_root := None |>
    <| tt_candidate_start_chunks := None |> <| tt_store := ms_new |>.

Definition has_candidate (t : Tree) : bool := bool_decide (is_Some (tt_candidate_root t)).
Definition committed_or (t : Tree) : result ChunkError RootNodeV2 :=
  ok_or (tt_committed_root t) (state_error "no committed root").
Definition candidate_or (t : Tree) : result ChunkError RootNodeV2 :=
  ok_or (tt_candidate_root t) (state_error "no active candidate").

Definition tt_rebuild (entries : list FileEntry) : Op unit := λ t,
  let '(r, replacement_store) := build_tree_v2 entries ms_new in
  let replaced :=
    let? tree := r in
    let? replacement_root := r2_new (tt_vault_id t) (tt_device_id t) tree in
    let? _ := reachable_hashes replacement_store (r2_tree replacement_root) in
    Ok (t <| tt_store := replacement_store |> <| tt_committed_root := Some replacement_root |>
          <| tt_candidate_root := None |> <| tt_candidate_start_chunks := None |>) in
  match replaced with Ok t => (Ok tt, t) | Err e => (Err e, t) end.

Definition candidate_open_memory_plan (t : Tree) : result ChunkError CandidateOpenMemoryPlanV1 :=
  if has_candidate t then Err (state_error "candidate already active")
  else
    let? _ := candidate_baseline_preflight (tt_store t) in
    let? root := committed_or t in
    let overflow := state_error "candidate root string request overflow" in
    let? identity := ok_or (checked_add64 (len (r2_vault_id root)) (len (r2_device_id root))) overflow in
    let? endpoint :=
      match tv_child (r2_tree root) with
      | Some range => ok_or (checked_add64 (len (rr_min_path range)) (len (rr_max_path range))) overflow
      | None => Ok 0
      end in
    let? total := ok_or (total ← checked_add64 identity endpoint;
                         if total <=? MAX_SAFE_OUTPUT_SETTLEMENT_BYTES then Some total else None)
                    (state_error "candidate root string request is not JS-exact") in
    let resident := ms_len (tt_store t) in
    if MAX_SAFE_OUTPUT_SETTLEMENT_BYTES <? resident then Err (state_error "candidate resident count is not JS-exact")
    else Ok {| op_resident_chunk_count := resident;
               op_root_string_count := if tv_child (r2_tree root) then 4 else 2;
               op_root_identity_requested_bytes := identity; op_root_endpoint_requested_bytes := endpoint;
               op_root_string_requested_bytes := total; op_peak_admission_bytes := total |}.

Definition prepare_candidate_root (t : Tree) : result ChunkError RootNodeV2 :=
  let? _ := candidate_open_memory_plan t in committed_or t.

Definition open_prepared_candidate (prepared : option RootNodeV2) : Op unit := λ t,
  if has_candidate t then (Err (state_error "candidate already active"), t)
  else
    match prepared with
    | None => (Err (state_error "candidate root is not prepared"), t)
    | Some candidate_root =>
        if negb (bool_decide (tt_committed_root t = Some candidate_root))
        then (Err (state_error "prepared candidate root no longer matches committed state"), t)
        else
          (let! cut := st_read (λ t, candidate_baseline_preflight (tt_store t)) in
           let! _ := on_store (open_candidate_baseline cut) in
           st_update (λ t, t <| tt_candidate_root := Some candidate_root |>
                             <| tt_candidate_start_chunks := Some cut |>)) t
    end.

Definition open_candidate_after_validation : Op unit :=
  let! prepared := st_read prepare_candidate_root in
  open_prepared_candidate (Some prepared).

Definition begin_candidate : Op unit := λ t,
  if has_candidate t then (Err (state_error "candidate already active"), t)
  else
    (let! committed := st_read committed_or in
     let! _ := st_read (λ t, reachable_hashes (tt_store t) (r2_tree committed)) in
     open_candidate_after_validation) t.

Definition apply_candidate (changed : list FileEntry) (deleted : list bytes) : Op unit := λ t,
  match tt_candidate_root t with
  | None => (Err (state_error "no active candidate"), t)
  | Some root =>
      if bool_decide (changed = []) && bool_decide (deleted = []) then (Ok tt, t)
      else
        (let! ' (next, _) := on_store (update_tree_v2 (r2_tree root) changed deleted) in
         st_update (λ t, t <| tt_candidate_root := Some (root <| r2_tree := next |>
                                                            <| r2_parent_hash := Some (r2_hash root) |>) |>)) t
  end.

(** [sweep_marked]; [retain_chunks] asserts that no baseline is pinned, which
    holds after [close_candidate_baseline]. *)
Definition sweep_marked (reachable : gset FileHash) : Op ChunkGcStats := λ t,
  match retain_chunks reachable (tt_store t) with
  | Some (before, after, bytes_removed, s) =>
      (Ok {| gs_before := before; gs_reachable := N.of_nat (size reachable); gs_removed := before - after;
             gs_after := after; gs_bytes_removed := bytes_removed |}, t <| tt_store := s |>)
  | None => (Err (state_error "cannot sweep a pinned candidate baseline"), t)
  end.

(** [close_candidate_baseline] with the baseline of the candidate. *)
Definition close_baseline : Op unit :=
  let! b := st_read (λ t, ok_or (tt_candidate_start_chunks t) (state_error "candidate baseline is missing")) in
  on_store (close_candidate_baseline b).

Definition commit_candidate : Op ChunkGcStats :=
  let! candidate := st_read candidate_or in
  let! reachable := st_read (λ t, reachable_hashes (tt_store t) (r2_tree candidate)) in
  let! _ := close_baseline in
  let! stats := sweep_marked reachable in
  let! _ := st_update (λ t, t <| tt_committed_root := tt_candidate_root t |> <| tt_candidate_root := None |>
                              <| tt_candidate_start_chunks := None |>) in
  st_ret stats.

Definition abort_candidate : Op ChunkGcStats := λ t,
  if negb (has_candidate t) then (Err (state_error "no active candidate"), t)
  else
    (let! reachable := st_read (λ t, match tt_committed_root t with
                                     | Some root => reachable_hashes (tt_store t) (r2_tree root)
                                     | None => Ok ∅
                                     end) in
     let! _ := close_baseline in
     let! stats := sweep_marked reachable in
     let! _ := st_update (λ t, t <| tt_candidate_root := None |> <| tt_candidate_start_chunks := None |>) in
     st_ret stats) t.

Definition apply_committed (changed : list FileEntry) (deleted : list bytes) : Op ChunkGcStats :=
  let! _ := begin_candidate in
  λ t, match apply_candidate changed deleted t with
       | (Err error, t) => (Err error, snd (abort_candidate t))
       | (Ok _, t) =>
           match commit_candidate t with
           | (Ok stats, t) => (Ok stats, t)
           | (Err error, t) => (Err error, snd (abort_candidate t))
           end
       end.

(** * Objects *)

Definition sorted_hashes (hashes : gset FileHash) : list FileHash := sort_by id (elements hashes).

Definition committed_chunk_hashes (t : Tree) : result ChunkError (list FileHash) :=
  let? root := committed_or t in
  let? reachable := reachable_hashes (tt_store t) (r2_tree root) in
  Ok (sorted_hashes reachable).
Definition candidate_chunk_hashes (t : Tree) : result ChunkError (list FileHash) :=
  let? root := candidate_or t in
  let? reachable := reachable_hashes (tt_store t) (r2_tree root) in
  Ok (sorted_hashes reachable).

(** The loop over the sorted hashes. *)
Fixpoint fresh_hashes (baseline : N) (s : MemoryChunkStore) (all : list FileHash) : result ChunkError (list FileHash) :=
  match all with
  | [] => Ok []
  | hash :: all =>
      let? is_fresh := is_fresh_since hash baseline s in
      let? fresh := fresh_hashes baseline s all in
      Ok (if is_fresh then hash :: fresh else fresh)
  end.

Definition candidate_chunk_plan_from_reachable (reachable : gset FileHash) (t : Tree)
    : result ChunkError (list FileHash * list FileHash) :=
  let? _ := candidate_or t in
  let? baseline := ok_or (tt_candidate_start_chunks t) (state_error "candidate chunk baseline is missing") in
  let all := sorted_hashes reachable in
  let? fresh := fresh_hashes baseline (tt_store t) all in
  Ok (all, fresh).

Definition new_candidate_chunk_hashes (t : Tree) : result ChunkError (list FileHash) :=
  let? root := candidate_or t in
  let? reachable := reachable_hashes (tt_store t) (r2_tree root) in
  let? ' (_, fresh) := candidate_chunk_plan_from_reachable reachable t in
  Ok fresh.

Definition candidate_chunk_is_fresh (hash : FileHash) (t : Tree) : result ChunkError bool :=
  let? _ := candidate_or t in
  let? baseline := ok_or (tt_candidate_start_chunks t) (state_error "candidate chunk baseline is missing") in
  is_fresh_since hash baseline (tt_store t).

(** * Settlement *)

Definition stable_root_endpoint_requested_bytes (root : RootNodeV2) : result ChunkError N :=
  match tv_child (r2_tree root) with
  | None => Ok 0
  | Some child =>
      ok_or (bytes ← checked_add64 (len (rr_min_path child)) (len (rr_max_path child));
             if bytes <=? MAX_SAFE_OUTPUT_SETTLEMENT_BYTES then Some bytes else None)
        (state_error "V2 stable root endpoint byte count is not JS-exact")
  end.

(** The memory summary of the store; the capacity of its map does not matter. *)
Definition store_memory (t : Tree) : ChunkStoreMemory := ms_memory_summary (tt_store t) 0.

Definition preflight_output_settlement_v1 (root : RootNodeV2) (t : Tree) : result ChunkError N :=
  let? endpoint_bytes := stable_root_endpoint_requested_bytes root in
  let memory := store_memory t in
  if negb (csm_counters_valid memory)
     || (MAX_SAFE_OUTPUT_SETTLEMENT_BYTES <? csm_chunks memory)
     || (MAX_SAFE_OUTPUT_SETTLEMENT_BYTES <? csm_payload_bytes memory)
     || match checked_add64 (csm_payload_bytes memory) endpoint_bytes with
        | Some total => MAX_SAFE_OUTPUT_SETTLEMENT_BYTES <? total
        | None => true
        end
  then Err (state_error "V2 stable output memory counters are not exact")
  else Ok endpoint_bytes.

Definition output_settlement_v1_after_sweep (t : Tree) (endpoint_bytes : N) : V2StableOutputMemoryV1 :=
  let memory := store_memory t in
  let total := checked_add64 (csm_payload_bytes memory) endpoint_bytes in
  {| so1_node_payload_bytes := csm_payload_bytes memory;
     so1_range_endpoint_resident_requested_bytes := endpoint_bytes;
     so1_resident_admission_bytes := match total with Some total => total | None => U64_MAX end;
     so1_counters_valid :=
       csm_counters_valid memory && (csm_payload_bytes memory <=? MAX_SAFE_OUTPUT_SETTLEMENT_BYTES)
       && (endpoint_bytes <=? MAX_SAFE_OUTPUT_SETTLEMENT_BYTES)
       && match total with Some total => total <=? MAX_SAFE_OUTPUT_SETTLEMENT_BYTES | None => false end |}.

Definition commit_candidate_output_settlement_v1 : Op (ChunkGcStats * V2StableOutputMemoryV1) :=
  let! endpoint_bytes := st_read (λ t, let? root := candidate_or t in preflight_output_settlement_v1 root t) in
  let! stats := commit_candidate in
  st_read (λ t, Ok (stats, output_settlement_v1_after_sweep t endpoint_bytes)).

Definition abort_candidate_output_settlement_v1 : Op (ChunkGcStats * V2StableOutputMemoryV1) := λ t,
  if negb (has_candidate t) then (Err (state_error "no active candidate"), t)
  else
    (let! endpoint_bytes := st_read (λ t, match tt_committed_root t with
                                          | Some root => preflight_output_settlement_v1 root t
                                          | None => Ok 0
                                          end) in
     let! _ := st_read (λ t, match tt_committed_root t with
       | Some _ => Ok tt
       | None =>
           let memory := store_memory t in
           if negb (csm_counters_valid memory) || (MAX_SAFE_OUTPUT_SETTLEMENT_BYTES <? csm_chunks memory)
              || (MAX_SAFE_OUTPUT_SETTLEMENT_BYTES <? csm_payload_bytes memory)
           then Err (state_error "V2 stable output memory counters are not exact") else Ok tt
       end) in
     let! stats := abort_candidate in
     st_read (λ t, Ok (stats, output_settlement_v1_after_sweep t endpoint_bytes))) t.
End session.

(** * The update only adds objects *)
Section adds.
Context {B3 : Blake3}.

Definition adds {A} (m : St MemoryChunkStore ChunkError A) : Prop :=
  ∀ s, mem_wf s → mem_wf (snd (m s)) ∧ ∃ X, grows X s (snd (m s)).

Lemma adds_same s : mem_wf s → mem_wf s ∧ ∃ X, grows X s s.
Proof. eauto using grows_refl. Qed.

Lemma adds_lift {A} (r : result ChunkError A) : adds (st_lift r).
Proof. intros s. apply adds_same. Qed.
Lemma adds_ret {A} (a : A) : adds (st_ret a).
Proof. intros s. apply adds_same. Qed.
Lemma adds_err {A} e : adds (A := A) (st_err e).
Proof. intros s. apply adds_same. Qed.
Lemma adds_put h b : adds (cs_put h b).
Proof. intros s Hw. destruct (insert_chunk_spec h (exact_buffer b) s Hw). eauto. Qed.
Lemma adds_bind {A B} (m : St MemoryChunkStore ChunkError A) (f : A → St MemoryChunkStore ChunkError B) :
  adds m → (∀ a, adds (f a)) → adds (st_bind m f).
Proof.
  intros Hm Hf s Hw. unfold st_bind. specialize (Hm s Hw). destruct (m s) as [[a|e] s']; [|done].
  destruct Hm as [Hw' [X HX]]. destruct (Hf a s' Hw') as [Hw'' [Y HY]]. eauto using grows_trans.
Qed.
Lemma adds_map {A B} (f : A → St MemoryChunkStore ChunkError B) l : (∀ a, adds (f a)) → adds (st_map f l).
Proof. intros Hf. induction l as [|a l IH]; [apply adds_ret|]. cbn. repeat (apply adds_bind; [done|intros]). apply adds_ret. Qed.
Lemma adds_budget {A} (m : MemoryChunkStore → St TraversalBudget ChunkError A) b : adds (with_budget m b).
Proof. intros s. unfold with_budget. destruct (m s b) as [[?|?] ?]; apply adds_same. Qed.
Create HintDb adds.
#[local] Hint Resolve adds_lift adds_ret adds_err adds_put adds_bind adds_map adds_budget : adds.
#[local] Hint Extern 1 (adds (st_bind _ _)) => apply adds_bind; intros : adds.

Lemma adds_store_leaf es : adds (store_leaf es).
Proof. unfold store_leaf. eauto 10 with adds. Qed.
Lemma adds_store_internal h rs : adds (store_internal h rs).
Proof. unfold store_internal. eauto 10 with adds. Qed.
#[local] Hint Resolve adds_store_leaf adds_store_internal : adds.

Lemma adds_build_levels fuel rs n : adds (build_levels fuel rs n).
Proof.
  revert rs n. induction fuel as [|fuel IH]; intros [|r [|r' rs]] n; cbn [build_levels]; eauto with adds.
  all: destruct (_ <=? _); eauto 10 with adds.
Qed.
#[local] Hint Resolve adds_build_levels : adds.
Lemma adds_root_from_leaves rs : adds (root_from_leaves rs).
Proof.
  unfold root_from_leaves. destruct rs; [eauto with adds|].
  repeat (apply adds_bind; [eauto with adds|intros]). destruct a1. eauto with adds.
Qed.
#[local] Hint Resolve adds_root_from_leaves : adds.
Lemma adds_build es : adds (build_tree_v2 es).
Proof.
  unfold build_tree_v2. apply adds_bind; [eauto with adds|intros _]. destruct (sort_by fe_path es); [eauto with adds|].
  repeat (apply adds_bind; [eauto with adds|intros]). destruct a1. eauto with adds.
Qed.
#[local] Hint Resolve adds_build : adds.

Lemma adds_update root us ds : adds (update_tree_v2 root us ds).
Proof.
  unfold update_tree_v2. do 3 (apply adds_bind; [apply adds_lift|intros _]).
  destruct (sort_by _ _); [apply adds_ret|]. apply adds_bind; [apply adds_budget|]. intros [leaves b].
  destruct leaves as [|leaf leaves].
  { repeat (apply adds_bind; [eauto with adds|intros]). apply adds_ret. }
  unfold update_leaves. apply adds_bind; [apply adds_budget|]. intros [loaded b']. apply adds_bind; [apply adds_budget|].
  intros [[[[segments entries] rest] stats] b'']. apply adds_bind; [eauto with adds|]. intros refs.
  apply adds_bind; [apply adds_lift|intros _]. apply adds_bind; [apply adds_root_from_leaves|]. intros [next n]. apply adds_ret.
Qed.
End adds.

(** * The store of a session *)
Section store.
Context {B3 : Blake3}.
Abbreviation hashes es := (hash_bytes <$> written es).

(** The objects of a store. *)
Definition has_hash (s : MemoryChunkStore) (h : FileHash) : Prop := is_Some (ms_map s !! h).

Lemma stored_has s bs b : stored s bs → b ∈ bs → has_hash s (hash_bytes b).
Proof.
  intros Hst Hb. specialize (Hst b Hb). cbn in Hst. unfold has_hash. by destruct (ms_map s !! hash_bytes b).
Qed.

Lemma put_all_grows bs s : mem_wf s → grows (list_to_set (hash_bytes <$> bs)) s (put_all bs s).
Proof.
  revert s. induction bs as [|b bs IH]; intros s Hw; [apply grows_refl|].
  change (put_all (b :: bs) s) with (put_all bs (insert_chunk (hash_bytes b) (exact_buffer b) s)).
  destruct (insert_chunk_spec (hash_bytes b) (exact_buffer b) s Hw) as [Hw' Hg].
  eapply grows_trans; [exact Hg|by apply IH].
Qed.

Lemma sweep_spec P es s :
  store_ok P s → mem_wf s → ms_active_baseline s = None → stored s (written es) →
  ∃ before after removed s',
    retain_chunks (list_to_set (hashes es)) s = Some (before, after, removed, s') ∧
    mem_wf s' ∧ store_ok P s' ∧ ms_active_baseline s' = None ∧
    ms_insertion_generation s' = ms_insertion_generation s ∧ stored s' (written es) ∧
    ∀ h, has_hash s' h ↔ h ∈ hashes es.
Proof.
  intros Hs Hw Hb Hst.
  assert (∃ before after removed s', retain_chunks (list_to_set (hashes es)) s = Some (before, after, removed, s'))
    as (before & after & removed & s' & Hret).
  { unfold retain_chunks. rewrite Hb. destruct (fold_left _ _ _) as [[??]?]. eauto. }
  destruct (retain_chunks_map _ _ _ _ _ _ Hw Hret) as (Hw' & _ & Hb' & Hg & Hm).
  exists before, after, removed, s'. split_and!; try done.
  - intros h b Hget. apply Hs. cbn in *. rewrite Hm in Hget. by case_bool_decide.
  - intros b Hin. specialize (Hst b Hin). cbn in *. rewrite Hm, bool_decide_eq_true_2; [done|].
    apply elem_of_list_to_set, list_elem_of_fmap. eauto.
  - intros h. unfold has_hash. rewrite Hm. case_bool_decide as Hin; rewrite elem_of_list_to_set in Hin.
    + split; [done|]. intros _. apply list_elem_of_fmap in Hin as (b & -> & Hin). by eapply stored_has.
    + split; [by intros [??]|done].
Qed.

Lemma length_subtrees t : len (subtrees t) = t_nodes t.
Proof.
  induction t as [g|h cs IH] using rtree_ind'; [done|]. rewrite subtrees_eq, len_cons, t_nodes_children. cbn [children].
  f_equal. clear h. induction IH as [|c cs Hc _ IH]; [done|]. rewrite forest_cons. csimpl. by rewrite len_app, Hc, IH.
Qed.

Lemma length_written es s : entries_ok es → stored s (written es) → len (written es) ≤ 317464.
Proof.
  intros Hes Hst. destruct (root_forest_ok es s Hes Hst) as (_ & _ & _ & Hn). etrans; [|exact Hn].
  assert (len (written es) = len (f_blobs (root_forest es))) as ->.
  { unfold len. f_equal. by rewrite (written_blobs es Hes). }
  unfold f_blobs. rewrite len_fmap. clear. induction (root_forest es) as [|t ts IH]; [done|].
  rewrite forest_cons. csimpl. rewrite len_app, length_subtrees. lia.
Qed.

Lemma set_size_le (l : list FileHash) : (size (list_to_set l : gset FileHash) ≤ length l)%nat.
Proof.
  induction l as [|x l IH]; [done|]. cbn [list_to_set length]. rewrite size_union_alt, size_singleton.
  assert (size (list_to_set l ∖ {[x]} : gset FileHash) ≤ size (list_to_set l : gset FileHash))%nat; [|lia].
  apply subseteq_size. set_solver.
Qed.

Lemma store_small es s :
  entries_ok es → stored s (written es) → (∀ h, has_hash s h → h ∈ hashes es) → ms_len s ≤ 317464.
Proof.
  intros Hes Hst Hin. etrans; [|by apply (length_written es s)]. unfold ms_len, len.
  assert (size (ms_map s) ≤ length (written es))%nat; [|lia].
  rewrite <-(size_dom (D := gset FileHash)).
  assert (dom (ms_map s) ⊆ (list_to_set (hashes es) : gset FileHash)) as Hsub.
  { intros h [c Hc]%elem_of_dom. apply elem_of_list_to_set, Hin. by exists c. }
  etrans; [by apply subseteq_size|]. rewrite <-(length_fmap hash_bytes (written es)). apply set_size_le.
Qed.
End store.

(** * What a session holds *)
Section invariant.
Context {B3 : Blake3} (P : bytes → Prop) (Hinj : injective_on hash_bytes P).
Abbreviation hashes es := (hash_bytes <$> written es).

(** A vault the theorems cover: within the limits of the tree, and with paths of
    at most 205 bytes, up to which an update gives the tree of a rebuild. The
    code accepts paths of up to 4,096 bytes. *)
Definition vault_fits (es : list FileEntry) : Prop := entries_ok es ∧ short_paths es ∧ Forall P (written es).

Definition ids (t : TransactionalTreeV2) : bytes * bytes := (tt_vault_id t, tt_device_id t).
Definition names (r : RootNodeV2) (es : list FileEntry) : Prop :=
  r2_tree r = root_of es ∧ len (r2_vault_id r) ≤ MAX_ROOT_ID_BYTES ∧ len (r2_device_id r) ≤ MAX_ROOT_ID_BYTES.

(** No transaction: the store has the objects of [es] and no others. *)
Record settled (g : N) (t : TransactionalTreeV2) (es : list FileEntry) : Prop := {
  sd_root : ∃ r, tt_committed_root t = Some r ∧ names r es;
  sd_candidate : tt_candidate_root t = None;
  sd_fits : vault_fits es;
  sd_store : store_ok P (tt_store t);
  sd_wf : mem_wf (tt_store t);
  sd_baseline : ms_active_baseline (tt_store t) = None;
  sd_generation : ms_insertion_generation (tt_store t) ≤ g;
  sd_stored : stored (tt_store t) (written es);
  sd_only : ∀ h, has_hash (tt_store t) h → h ∈ hashes es;
}.

(** A transaction from [es], now at [es']. [s0] is the store at its begin. *)
Record pending (g : N) (t : TransactionalTreeV2) (es es' : list FileEntry) : Prop := {
  pd_root : ∃ r, tt_committed_root t = Some r ∧ names r es;
  pd_candidate : ∃ r, tt_candidate_root t = Some r ∧ names r es';
  pd_fits : vault_fits es;
  pd_fits' : vault_fits es';
  pd_store : store_ok P (tt_store t);
  pd_baseline : ∃ b s0, tt_candidate_start_chunks t = Some b ∧ ms_active_baseline (tt_store t) = Some b ∧
    pinned b s0 (tt_store t) ∧ ∀ h, has_hash s0 h ↔ h ∈ hashes es;
  pd_generation : ms_insertion_generation (tt_store t) ≤ g;
  pd_stored : stored (tt_store t) (written es);
  pd_stored' : stored (tt_store t) (written es');
}.

Lemma pd_wf g t es es' : pending g t es es' → mem_wf (tt_store t).
Proof. intros H. destruct (pd_baseline _ _ _ _ H) as (b & s0 & _ & _ & [? _] & _). done. Qed.

Lemma tree_endpoints es s c :
  entries_ok es → stored s (written es) → tv_child (root_of es) = Some c →
  len (rr_min_path c) ≤ 4096 ∧ len (rr_max_path c) ≤ 4096.
Proof.
  intros Hes Hst Hc. destruct (decide (es = [])) as [->|Hne]; [done|].
  destruct (stored_tree es s Hes Hne Hst) as [_ _ _ (h & _ & _ & Hv & _) _].
  assert (tv_child (root_of es) = Some (t_ref (grow 17 0 (leaf_level es)))) as E by (by destruct es).
  revert Hv E. generalize (t_ref (grow 17 0 (leaf_level es))). intros r Hv E. rewrite Hc in E. injection E as <-.
  pose proof (validate_path_len _ _ (rv_min _ Hv)) as [_ H1]. pose proof (validate_path_len _ _ (rv_max _ Hv)) as [_ H2].
  unfold TreeV2Codec.MAX_PATH_BYTES in *. done.
Qed.

(** ** Replacing the whole tree *)
Lemma rebuild_settled g t entries :
  validate_root_id "vault" (tt_vault_id t) false = Ok tt → validate_root_id "device" (tt_device_id t) true = Ok tt →
  vault_fits (sort_by fe_path entries) →
  ∃ t', tt_rebuild entries t = (Ok tt, t') ∧ settled g t' (sort_by fe_path entries) ∧ ids t' = ids t.
Proof.
  intros Hv Hd Hf. pose proof Hf as (Hes & Hsh & HP). unfold tt_rebuild. rewrite build_tree_v2_run by done.
  assert (store_ok P ms_new) as Hnew by (intros h b; cbn; by rewrite lookup_empty).
  destruct (put_all_ok P Hinj (written (sort_by fe_path entries)) ms_new Hnew HP) as (Hs & _ & Hst).
  assert (mem_wf ms_new) as Hwn.
  { split; cbn; [apply counts_new|by intros ??; rewrite lookup_empty|done]. }
  assert (mem_wf (put_all (written (sort_by fe_path entries)) ms_new)) as Hws.
  { pose proof (adds_build entries ms_new Hwn) as [H _]. by rewrite build_tree_v2_run in H. }
  set (s := put_all _ _) in *. cbn [map_err].
  assert (r2_new (tt_vault_id t) (tt_device_id t) (root_of (sort_by fe_path entries)) =
    Ok {| r2_vault_id := tt_vault_id t; r2_created_ms := 0; r2_tree := root_of (sort_by fe_path entries);
          r2_parent_hash := None; r2_device_id := tt_device_id t |}) as ->.
  { unfold r2_new, r2_validate. cbn [r2_tree r2_vault_id r2_device_id]. rewrite (root_of_shape _ s) by done. by rewrite Hv, Hd. }
  cbn [r2_tree]. rewrite reachable_run by done. eexists. split; [done|]. split; [|done].
  destruct (put_all_grows (written (sort_by fe_path entries)) ms_new Hwn) as [Hg Hb _ Hin _]. fold s in Hg, Hb, Hin.
  destruct (validate_root_id_len _ _ _ _ Hv) as [L1 _]. destruct (validate_root_id_len _ _ _ _ Hd) as [L2 _].
  clearbody s. split; cbn [tt_committed_root tt_candidate_root tt_store update_field rebuild tt_settable]; try done.
  - eexists. split; [done|]. done.
  - rewrite Hg. cbn. lia.
  - intros h [c Hc]. destruct (Hin h c) as [Hh _]; [apply lookup_empty|done|]. by apply elem_of_list_to_set in Hh.
Qed.

(** ** A transaction *)
Lemma begin_pending g t es :
  settled g t es → g < U64_MAX → ∃ t', begin_candidate t = (Ok tt, t') ∧ pending (g + 1) t' es es ∧ ids t' = ids t.
Proof.
  intros [(r & Hr & Hn) Hc Hf Hs Hw Hb Hg Hst Ho] Hlt. pose proof Hf as (Hes & _ & _). pose proof Hn as (Ht & L1 & L2).
  unfold begin_candidate, has_candidate. rewrite bool_decide_eq_false_2 by (rewrite Hc; by intros [??]).
  unfold st_bind at 1, st_read at 1, committed_or. rewrite Hr. cbn [ok_or].
  unfold st_bind at 1, st_read at 1. rewrite Ht, reachable_run by done.
  assert (candidate_baseline_preflight (tt_store t) = Ok (ms_insertion_generation (tt_store t))) as Hpre.
  { unfold candidate_baseline_preflight. rewrite Hb. unfold checked_add64.
    rewrite (proj2 (N.leb_le _ _)) by lia. done. }
  assert (prepare_candidate_root t = Ok r) as Hprep.
  { unfold prepare_candidate_root, candidate_open_memory_plan, has_candidate, committed_or.
    rewrite bool_decide_eq_false_2 by (rewrite Hc; by intros [??]). rewrite Hpre, Hr. cbn [ok_or].
    unfold MAX_ROOT_ID_BYTES in *. unfold checked_add64. rewrite (proj2 (N.leb_le _ _)) by (unfold U64_MAX; lia). cbn [ok_or].
    assert (∃ e, match tv_child (r2_tree r) with
      | Some range => ok_or (if len (rr_min_path range) + len (rr_max_path range) <=? U64_MAX
                             then Some (len (rr_min_path range) + len (rr_max_path range)) else None)
                        (state_error "candidate root string request overflow")
      | None => Ok 0 end = Ok e ∧ e ≤ 8192) as (e & -> & He).
    { rewrite Ht. destruct (tv_child (root_of es)) as [c|] eqn:Ec; [|exists 0; split; [done|lia]].
      destruct (tree_endpoints es (tt_store t) c Hes Hst Ec). rewrite (proj2 (N.leb_le _ _)) by (unfold U64_MAX; lia).
      eexists. split; [done|lia]. }
    rewrite (proj2 (N.leb_le _ _)) by (unfold U64_MAX; lia). cbn [mbind option_bind].
    rewrite (proj2 (N.leb_le _ _)) by (unfold MAX_SAFE_OUTPUT_SETTLEMENT_BYTES; lia). cbn [ok_or].
    pose proof (store_small es (tt_store t) Hes Hst Ho).
    rewrite (proj2 (N.ltb_ge _ _)) by (unfold MAX_SAFE_OUTPUT_SETTLEMENT_BYTES; lia). done. }
  unfold open_candidate_after_validation. unfold st_bind at 1, st_read at 1. rewrite Hprep.
  unfold open_prepared_candidate, has_candidate. rewrite bool_decide_eq_false_2 by (rewrite Hc; by intros [??]).
  rewrite bool_decide_eq_true_2 by done. cbn [negb]. unfold st_bind at 1, st_read at 1. rewrite Hpre.
  assert (open_candidate_baseline (ms_insertion_generation (tt_store t)) (tt_store t) =
    (Ok tt, {| ms_map := ms_map (tt_store t); ms_memory := ms_memory (tt_store t);
               ms_insertion_generation := ms_insertion_generation (tt_store t) + 1;
               ms_active_baseline := Some (ms_insertion_generation (tt_store t)) |})) as Hopen.
  { unfold open_candidate_baseline. rewrite bool_decide_eq_false_2 by (rewrite Hb; by intros [??]).
    rewrite N.eqb_refl. cbn [orb negb]. unfold checked_add64. rewrite (proj2 (N.leb_le _ _)) by lia. done. }
  pose proof (pinned_open _ _ _ Hw Hopen) as Hpin.
  unfold st_bind at 1, on_store. rewrite Hopen. eexists. split; [reflexivity|]. split; [|done].
  split; cbn [tt_committed_root tt_candidate_root tt_candidate_start_chunks tt_store update_field rebuild tt_settable
              ms_insertion_generation]; try done; eauto.
  - eexists _, _. split_and!; [done..|]. intros h. unfold has_hash. cbn. split; [apply Ho|].
    intros (b & -> & Hin)%list_elem_of_fmap. by eapply stored_has.
  - lia.
Qed.

Definition paths_valid (us : list FileEntry) (ds : list bytes) : Prop :=
  Forall (λ e, validate_path (fe_path e) = Ok tt) us ∧ Forall (λ p, validate_path p = Ok tt) ds.

Lemma apply_pending g t es es' us ds :
  pending g t es es' → paths_valid us ds → vault_fits (merge_prefix_entries es' us ds) →
  ∃ t', apply_candidate us ds t = (Ok tt, t') ∧ pending g t' es (merge_prefix_entries es' us ds) ∧ ids t' = ids t.
Proof.
  intros Hp [Hus Hds] Hf. pose proof (pd_wf _ _ _ _ Hp) as Hw.
  pose proof Hp as [Hr (r & Hc & Ht & L1 & L2) F1 (E1 & E2 & _) Hs (b & s0 & Hb1 & Hb2 & Hpin & Hh) Hg S1 S2].
  unfold apply_candidate. rewrite Hc. destruct (bool_decide (us = []) && bool_decide (ds = [])) eqn:E.
  { apply andb_true_iff in E as [->%bool_decide_eq_true ->%bool_decide_eq_true]. exists t. rewrite merge_nil_ops. done. }
  pose proof Hf as (HN & HN2 & HP). rewrite Ht.
  destruct (update_tree_v2_spec P Hinj es' us ds (tt_store t)) as (stats & s' & Hrun & Hs' & Hle & Hst'); [done..|].
  destruct (adds_update (root_of es') us ds (tt_store t) Hw) as [Hw' [X HX]]. rewrite Hrun in Hw', HX. cbn [snd] in Hw', HX.
  unfold st_bind, on_store. rewrite Hrun. eexists. split; [reflexivity|]. split; [|done].
  split; cbn [tt_committed_root tt_candidate_root tt_candidate_start_chunks tt_store update_field rebuild tt_settable]; try done.
  - eexists. split; [done|]. done.
  - exists b, s0. rewrite (gr_baseline _ _ _ HX). split_and!; try done. by eapply pinned_grows.
  - by rewrite (gr_generation _ _ _ HX).
  - intros x Hx. by apply Hle, S1.
Qed.

(** Closing the baseline and sweeping, for either vault of the transaction. *)
Lemma settle_run g t es es' ev :
  pending g t es es' → stored (tt_store t) (written ev) →
  ∃ stats s', (let! _ := close_baseline in sweep_marked (list_to_set (hashes ev))) t = (Ok stats, t <| tt_store := s' |>) ∧
    mem_wf s' ∧ store_ok P s' ∧ ms_active_baseline s' = None ∧ ms_insertion_generation s' ≤ g ∧
    stored s' (written ev) ∧ ∀ h, has_hash s' h ↔ h ∈ hashes ev.
Proof.
  intros Hp Hst. pose proof (pd_wf _ _ _ _ Hp) as Hw.
  pose proof Hp as [_ _ _ _ Hs (b & s0 & Hb1 & Hb2 & _ & _) Hg _ _].
  set (s1 := {| ms_map := ms_map (tt_store t); ms_memory := ms_memory (tt_store t);
                ms_insertion_generation := ms_insertion_generation (tt_store t); ms_active_baseline := None |}).
  assert (close_baseline t = (Ok tt, t <| tt_store := s1 |>)) as Hclose.
  { unfold close_baseline, st_bind, st_read, on_store. rewrite Hb1. cbn [ok_or]. unfold close_candidate_baseline.
    by rewrite bool_decide_eq_true_2. }
  destruct (sweep_spec P ev s1) as (before & after & removed & s' & Hret & ? & ? & ? & Hg' & ? & ?); [done| |done|done|].
  { split; cbn; [apply Hw|apply (wf_birth _ Hw)|done]. }
  eexists _, s'. unfold st_bind. rewrite Hclose. split.
  - unfold sweep_marked. cbn [tt_store update_field rebuild tt_settable]. rewrite Hret. reflexivity.
  - split_and!; try done. by rewrite Hg'.
Qed.

Lemma commit_settled g t es es' :
  pending g t es es' → ∃ stats t', commit_candidate t = (Ok stats, t') ∧ settled g t' es' ∧ ids t' = ids t.
Proof.
  intros Hp. pose proof Hp as [_ (r & Hc & Hn) _ F2 _ _ _ _ S2].
  destruct (settle_run g t es es' es' Hp S2) as (stats & s' & Hrun & W & S & B & G & St & O).
  unfold commit_candidate, st_bind at 1, st_read at 1, candidate_or. rewrite Hc. cbn [ok_or].
  unfold st_bind at 1, st_read at 1. pose proof Hn as (-> & _ & _). rewrite reachable_run by (done || apply F2).
  revert Hrun. unfold st_bind. destruct (close_baseline t) as [[[]|e] t1]; [|done]. intros ->.
  cbn [st_update st_ret]. eexists _, _. split; [reflexivity|]. split; [|done].
  split; cbn [tt_committed_root tt_candidate_root tt_store update_field rebuild tt_settable]; try done; [by exists r|].
  intros h. apply O.
Qed.

Lemma abort_settled g t es es' :
  pending g t es es' → ∃ stats t', abort_candidate t = (Ok stats, t') ∧ settled g t' es ∧ ids t' = ids t.
Proof.
  intros Hp. pose proof Hp as [(r & Hr & Hn) (r' & Hc & _) F1 _ _ _ _ S1 _].
  destruct (settle_run g t es es' es Hp S1) as (stats & s' & Hrun & W & S & B & G & St & O).
  unfold abort_candidate, has_candidate. rewrite bool_decide_eq_true_2 by (rewrite Hc; by eexists). cbn [negb].
  unfold st_bind at 1, st_read at 1. rewrite Hr. pose proof Hn as (-> & _ & _). rewrite reachable_run by (done || apply F1).
  revert Hrun. unfold st_bind. destruct (close_baseline t) as [[[]|e] t1]; [|done]. intros ->.
  cbn [st_update st_ret]. eexists _, _. split; [reflexivity|]. split; [|done].
  split; cbn [tt_committed_root tt_candidate_root tt_store update_field rebuild tt_settable]; try done; [by exists r|].
  intros h. apply O.
Qed.

(** An update with an invalid path changes nothing. *)
Lemma apply_refused t r us ds :
  tt_candidate_root t = Some r → ¬ paths_valid us ds →
  ∃ e, apply_candidate us ds t = (Err e, t).
Proof.
  intros Hc Hbad. unfold apply_candidate. rewrite Hc.
  destruct (bool_decide (us = []) && bool_decide (ds = [])) eqn:E.
  { apply andb_true_iff in E as [->%bool_decide_eq_true ->%bool_decide_eq_true]. destruct Hbad. split; constructor. }
  assert (∃ e, update_tree_v2 (r2_tree r) us ds (tt_store t) = (Err e, tt_store t)) as [e He].
  { unfold update_tree_v2, st_bind at 1, st_lift at 1. destruct (validate_root_shape _) as [|e]; [|by exists e].
    unfold st_bind at 1, st_lift at 1. destruct (for_each (λ e, validate_path (fe_path e)) us) as [[]|e] eqn:E1; [|by exists e].
    unfold st_bind at 1, st_lift at 1. destruct (for_each validate_path ds) as [[]|e] eqn:E2; [|by exists e].
    destruct Hbad. split; by eapply for_each_ok. }
  exists e. unfold st_bind, on_store. rewrite He. by destruct t.
Qed.

(** ** Sequences of operations *)

Inductive TreeOp :=
  | OpRebuild (entries : list FileEntry)
  | OpBegin
  | OpApply (changed : list FileEntry) (deleted : list bytes)
  | OpCommit
  | OpAbort
  | OpApplyCommitted (changed : list FileEntry) (deleted : list bytes).

Definition run_op (op : TreeOp) (t : TransactionalTreeV2) : bool * TransactionalTreeV2 :=
  match op with
  | OpRebuild entries => let '(r, t) := tt_rebuild entries t in (is_ok r, t)
  | OpBegin => let '(r, t) := begin_candidate t in (is_ok r, t)
  | OpApply changed deleted => let '(r, t) := apply_candidate changed deleted t in (is_ok r, t)
  | OpCommit => let '(r, t) := commit_candidate t in (is_ok r, t)
  | OpAbort => let '(r, t) := abort_candidate t in (is_ok r, t)
  | OpApplyCommitted changed deleted => let '(r, t) := apply_committed changed deleted t in (is_ok r, t)
  end.

(** A vault with transactions: the committed vault, if there is one, and the
    vault of an open transaction. *)
Definition Vault : Type := option (list FileEntry * option (list FileEntry)).

Definition valid_paths (us : list FileEntry) (ds : list bytes) : bool :=
  forallb (λ e, is_ok (validate_path (fe_path e))) us && forallb (λ p, is_ok (validate_path p)) ds.

(** The effect of an operation; [None] when it is refused. *)
Definition spec_op (op : TreeOp) (v : Vault) : option Vault :=
  match op, v with
  | OpRebuild entries, _ => Some (Some (sort_by fe_path entries, None))
  | OpBegin, Some (es, None) => Some (Some (es, Some es))
  | OpApply us ds, Some (es, Some es') =>
      if valid_paths us ds then Some (Some (es, Some (merge_prefix_entries es' us ds))) else None
  | OpCommit, Some (_, Some es') => Some (Some (es', None))
  | OpAbort, Some (es, Some _) => Some (Some (es, None))
  | OpApplyCommitted us ds, Some (es, None) =>
      if valid_paths us ds then Some (Some (merge_prefix_entries es us ds, None)) else None
  | _, _ => None
  end.

Definition run_spec (op : TreeOp) (v : Vault) : bool * Vault :=
  match spec_op op v with Some v' => (true, v') | None => (false, v) end.

Definition fits_all (v : Vault) : Prop :=
  match v with
  | None => True
  | Some (es, None) => vault_fits es
  | Some (es, Some es') => vault_fits es ∧ vault_fits es'
  end.

(** The session holds the vault. *)
Definition holds (g : N) (t : TransactionalTreeV2) (v : Vault) : Prop :=
  match v with
  | None => tt_committed_root t = None ∧ tt_candidate_root t = None
  | Some (es, None) => settled g t es
  | Some (es, Some es') => pending g t es es'
  end.

Fixpoint run_ops (ops : list TreeOp) (t : TransactionalTreeV2) : list bool * TransactionalTreeV2 :=
  match ops with
  | [] => ([], t)
  | op :: ops => let '(ok, t) := run_op op t in let '(oks, t) := run_ops ops t in (ok :: oks, t)
  end.
Fixpoint run_specs (ops : list TreeOp) (v : Vault) : list bool * Vault :=
  match ops with
  | [] => ([], v)
  | op :: ops => let '(ok, v) := run_spec op v in let '(oks, v) := run_specs ops v in (ok :: oks, v)
  end.
(** Every vault on the way can be held. *)
Fixpoint ops_fit (ops : list TreeOp) (v : Vault) : Prop :=
  match ops with [] => True | op :: ops => fits_all (run_spec op v).2 ∧ ops_fit ops (run_spec op v).2 end.

Lemma valid_paths_spec us ds : valid_paths us ds = true ↔ paths_valid us ds.
Proof.
  unfold valid_paths, paths_valid. rewrite andb_true_iff.
  assert (∀ {X} (f : X → result ChunkError unit) l, forallb (λ x, is_ok (f x)) l = true ↔ Forall (λ x, f x = Ok tt) l) as H.
  { intros X f l. induction l as [|x l IH]; [done|]. cbn. rewrite andb_true_iff, Forall_cons, IH.
    destruct (f x) as [[]|]; naive_solver. }
  pose proof (H _ (λ e, validate_path (fe_path e)) us) as H1. pose proof (H _ validate_path ds) as H2. cbn beta in H1, H2.
  by rewrite H1, H2.
Qed.

Lemma settled_mono g g' t es : g ≤ g' → settled g t es → settled g' t es.
Proof. intros Hg []. split; try done. lia. Qed.
Lemma pending_mono g g' t es es' : g ≤ g' → pending g t es es' → pending g' t es es'.
Proof. intros Hg []. split; try done. lia. Qed.

Section steps.
Context (vault_id device_id : bytes).
Context (Hv : validate_root_id "vault" vault_id false = Ok tt) (Hd : validate_root_id "device" device_id true = Ok tt).

Lemma op_step g t v op :
  ids t = (vault_id, device_id) → holds g t v → g < U64_MAX → fits_all (run_spec op v).2 →
  ∃ t', run_op op t = ((run_spec op v).1, t') ∧ holds (g + 1) t' (run_spec op v).2 ∧ ids t' = ids t.
Proof.
  intros Hids Hh Hg Hf. unfold run_spec in *.
  assert (holds (g + 1) t v) as Hmono.
  { destruct v as [[es [es'|]]|]; cbn in *; [eapply pending_mono; [|done]; lia|eapply settled_mono; [|done]; lia|done]. }
  assert (∀ r : bool * TransactionalTreeV2, r = (false, t) →
    ∃ t', r = (false, t') ∧ holds (g + 1) t' v ∧ ids t' = ids t) as Hrefused by (intros r ->; eauto).
  assert (∀ es, v = Some (es, None) → tt_candidate_root t = None) as Hnone by (intros es ->; apply Hh).
  destruct op as [entries| |us ds| | |us ds]; cbn [spec_op run_op] in *.
  - injection Hids as E1 E2. destruct (rebuild_settled (g + 1) t entries) as (t' & -> & Hs & Hi); [by rewrite E1|by rewrite E2|done|].
    exists t'. done.
  - destruct v as [[es [es'|]]|].
    + apply Hrefused. unfold begin_candidate, has_candidate.
      destruct (pd_candidate _ _ _ _ Hh) as (r & Hc & _). rewrite bool_decide_eq_true_2 by (rewrite Hc; by eexists). done.
    + destruct (begin_pending g t es Hh Hg) as (t' & -> & Hp & Hi). exists t'. done.
    + apply Hrefused. unfold begin_candidate, has_candidate. destruct Hh as [E1 E2].
      rewrite bool_decide_eq_false_2 by (rewrite E2; by intros [??]). unfold st_bind, st_read, committed_or. by rewrite E1.
  - destruct v as [[es [es'|]]|].
    + destruct (valid_paths us ds) eqn:Ev; cbn [fst snd] in *.
      * apply valid_paths_spec in Ev.
        destruct (apply_pending (g + 1) t es es' us ds Hmono Ev) as (t' & -> & Hp & Hi); [apply Hf|]. exists t'. done.
      * destruct (pd_candidate _ _ _ _ Hh) as (r & Hc & _).
        destruct (apply_refused t r us ds Hc) as [e ->]; [|by apply Hrefused]. rewrite <-valid_paths_spec. congruence.
    + apply Hrefused. unfold apply_candidate. by rewrite (Hnone es).
    + apply Hrefused. unfold apply_candidate. destruct Hh as [_ ->]. done.
  - destruct v as [[es [es'|]]|].
    + destruct (commit_settled (g + 1) t es es' Hmono) as (stats & t' & -> & Hs & Hi). exists t'. done.
    + apply Hrefused. unfold commit_candidate, st_bind, st_read, candidate_or. by rewrite (Hnone es).
    + apply Hrefused. unfold commit_candidate, st_bind, st_read, candidate_or. destruct Hh as [_ ->]. done.
  - destruct v as [[es [es'|]]|].
    + destruct (abort_settled (g + 1) t es es' Hmono) as (stats & t' & -> & Hs & Hi). exists t'. done.
    + apply Hrefused. unfold abort_candidate, has_candidate. by rewrite (Hnone es).
    + apply Hrefused. unfold abort_candidate, has_candidate. destruct Hh as [_ ->]. done.
  - unfold apply_committed, st_bind. destruct v as [[es [es'|]]|].
    + apply Hrefused. unfold begin_candidate, has_candidate.
      destruct (pd_candidate _ _ _ _ Hh) as (r & Hc & _). rewrite bool_decide_eq_true_2 by (rewrite Hc; by eexists). done.
    + destruct (begin_pending g t es Hh Hg) as (t1 & -> & Hp1 & Hi1). destruct (valid_paths us ds) eqn:Ev; cbn [fst snd] in *.
      * apply valid_paths_spec in Ev. destruct (apply_pending (g + 1) t1 es es us ds Hp1 Ev) as (t2 & -> & Hp2 & Hi2); [done|].
        destruct (commit_settled (g + 1) t2 es _ Hp2) as (stats & t' & -> & Hs & Hi). exists t'. split_and!; [done|done|congruence].
      * destruct (pd_candidate _ _ _ _ Hp1) as (r & Hc & _).
        destruct (apply_refused t1 r us ds Hc) as [e ->]; [rewrite <-valid_paths_spec; congruence|].
        destruct (abort_settled (g + 1) t1 es es Hp1) as (stats & t' & -> & Hs & Hi). exists t'. split_and!; [done|done|]. cbn. congruence.
    + apply Hrefused. unfold begin_candidate, has_candidate. destruct Hh as [E1 E2].
      rewrite bool_decide_eq_false_2 by (rewrite E2; by intros [??]). unfold st_bind, st_read, committed_or. by rewrite E1.
Qed.

Lemma ops_run ops g t v :
  ids t = (vault_id, device_id) → holds g t v → g + len ops ≤ U64_MAX → ops_fit ops v →
  (run_ops ops t).1 = (run_specs ops v).1 ∧ holds (g + len ops) (run_ops ops t).2 (run_specs ops v).2.
Proof.
  revert g t v. induction ops as [|op ops IH]; intros g t v Hi Hh Hg Hf; [by rewrite N.add_0_r|].
  rewrite len_cons in *. destruct Hf as [Hf Hfs].
  destruct (op_step g t v op Hi Hh) as (t' & Hrun & Hh' & Hi'); [lia|done|].
  cbn [run_ops run_specs]. rewrite Hrun. destruct (run_spec op v) as [ok v']. cbn [fst snd] in *.
  destruct (IH (g + 1) t' v') as [E1 E2]; [congruence|done|lia|done|].
  destruct (run_ops ops t') as [oks t'']. destruct (run_specs ops v') as [oks' v'']. cbn [fst snd] in *.
  split; [by rewrite E1|]. by replace (g + (1 + len ops)) with (g + 1 + len ops) by lia.
Qed.
End steps.

(** ** What a session shows *)

(** The objects a candidate has and the committed vault has not, and the two
    lists they are taken from. *)
Definition fresh_exact (t : TransactionalTreeV2) : Prop :=
  ∃ all old fresh, candidate_chunk_hashes t = Ok all ∧ committed_chunk_hashes t = Ok old ∧
    new_candidate_chunk_hashes t = Ok fresh ∧ ∀ h, h ∈ fresh ↔ h ∈ all ∧ h ∉ old.

Definition shows (t : TransactionalTreeV2) (v : Vault) : Prop :=
  match v with
  | None => tt_committed_root t = None ∧ tt_candidate_root t = None
  | Some (es, candidate) =>
      (∃ r, tt_committed_root t = Some r ∧ load_all_entries_v2 (r2_tree r) (tt_store t) = Ok es ∧
            r2_tree r = root_of es) ∧
      match candidate with
      | None => tt_candidate_root t = None ∧
                ∃ old, committed_chunk_hashes t = Ok old ∧ ∀ h, cs_has h (tt_store t) = true ↔ h ∈ old
      | Some es' =>
          (∃ r, tt_candidate_root t = Some r ∧ load_all_entries_v2 (r2_tree r) (tt_store t) = Ok es' ∧
                r2_tree r = root_of es') ∧ fresh_exact t
      end
  end.

Lemma elem_of_sorted_hashes h es : h ∈ sorted_hashes (list_to_set (hashes es)) ↔ h ∈ hashes es.
Proof. unfold sorted_hashes. by rewrite elem_of_sort_by, elem_of_elements, elem_of_list_to_set. Qed.

Lemma fresh_hashes_spec b s0 s all :
  pinned b s0 s → ms_active_baseline s = Some b → Forall (has_hash s) all →
  ∃ fresh, fresh_hashes b s all = Ok fresh ∧ ∀ h, h ∈ fresh ↔ h ∈ all ∧ ¬ has_hash s0 h.
Proof.
  intros (_ & _ & Hp) Hb. destruct (Hp Hb) as [Hold Hnew]. induction 1 as [|x all [c Hc] _ (fresh & IH & Hfresh)].
  { exists []. split; [done|]. intros h. set_solver. }
  cbn [fresh_hashes]. unfold is_fresh_since. rewrite bool_decide_eq_true_2, Hc, IH by done. eexists. split; [done|].
  intros h. destruct (ms_map s0 !! x) as [c0|] eqn:E0.
  - destruct (Hold x c0 E0) as (c' & Hc' & Hle). rewrite Hc in Hc'. injection Hc' as <-.
    rewrite (proj2 (N.ltb_ge _ _)) by done. rewrite Hfresh, elem_of_cons. split; [naive_solver|].
    intros [[->|?] Hn]; [|done]. destruct Hn. by exists c0.
  - rewrite (proj2 (N.ltb_lt _ _)) by (by apply (Hnew x)). rewrite !elem_of_cons, Hfresh. split; [|naive_solver].
    intros [->|[? ?]]; split; auto. intros [??]. congruence.
Qed.

Lemma holds_shows g t v : holds g t v → shows t v.
Proof.
  destruct v as [[es [es'|]]|]; [| |done].
  - intros Hp. pose proof Hp as [(r & Hr & Ht & _) (r' & Hc & Ht' & _) (E1 & _) (E2 & _) _ (b & s0 & B1 & B2 & Hpin & Hh) _ S1 S2].
    pose proof (reachable_run es (tt_store t) E1 S1) as R1. pose proof (reachable_run es' (tt_store t) E2 S2) as R2.
    cbn [shows]. split_and!.
    + exists r. rewrite Ht. split_and!; [done| |done]. by apply load_all_entries_run.
    + exists r'. rewrite Ht'. split_and!; [done| |done]. by apply load_all_entries_run.
    + destruct (fresh_hashes_spec b s0 (tt_store t) (sorted_hashes (list_to_set (hashes es')))) as (fresh & Hf & Hiff); [done..| |].
      { apply Forall_forall. intros h Hin. apply elem_of_sorted_hashes, list_elem_of_fmap in Hin as (x & -> & Hx).
        by eapply stored_has. }
      unfold fresh_exact, candidate_chunk_hashes, committed_chunk_hashes, new_candidate_chunk_hashes, candidate_or, committed_or.
      unfold candidate_chunk_plan_from_reachable, candidate_or. rewrite Hr, Hc, B1. cbn [ok_or].
      rewrite Ht, Ht', R1, R2, Hf. eexists _, _, fresh. split_and!; [done..|].
      intros h. by rewrite Hiff, Hh, !elem_of_sorted_hashes.
  - intros [(r & Hr & Ht & _) Hc (E1 & _) _ _ _ _ S1 Ho].
    pose proof (reachable_run es (tt_store t) E1 S1) as R1. cbn [shows]. split_and!; [|done|].
    + exists r. rewrite Ht. split_and!; [done| |done]. by apply load_all_entries_run.
    + unfold committed_chunk_hashes, committed_or. rewrite Hr. cbn [ok_or]. rewrite Ht, R1. eexists. split; [done|].
      intros h. rewrite elem_of_sorted_hashes. cbn [cs_has mem_chunk_store]. rewrite bool_decide_eq_true. split; [apply Ho|].
      intros (x & -> & Hx)%list_elem_of_fmap. by eapply stored_has.
Qed.
End invariant.

(** C15: A session refines a vault with transactions. Whatever sequence of
    rebuilds, begins, updates, commits, aborts and one-shot updates runs,
    every operation succeeds exactly when it makes sense - a transaction is
    open or not, the paths are valid - and otherwise leaves the vaults as they
    were; the committed and the candidate root load the two vaults and are the
    roots a rebuild would give; without a transaction the store has the
    objects of the committed vault and no others; and the objects the session
    reports as fresh are exactly those of the candidate that the committed
    vault does not have. The sequences are those on whose way every vault is
    within the limits of the tree and has paths of at most 205 bytes
    ([ops_fit]): beyond that an update can give another root than a rebuild. *)
Theorem session_refines {B3 : Blake3} P vault_id device_id ops :
  injective_on hash_bytes P →
  validate_root_id "vault" vault_id false = Ok tt → validate_root_id "device" device_id true = Ok tt →
  len ops ≤ U64_MAX → ops_fit P ops None →
  (run_ops ops (tt_new vault_id device_id)).1 = (run_specs ops None).1 ∧
  shows (run_ops ops (tt_new vault_id device_id)).2 (run_specs ops None).2.
Proof.
  intros Hinj Hv Hd Hl Hf.
  destruct (ops_run P Hinj vault_id device_id Hv Hd ops 0 (tt_new vault_id device_id) None) as [E1 E2]; [done..|].
  split; [done|]. by eapply holds_shows.
Qed.

(** * A session *)

#[local] Existing Instance poly_blake3.

Definition sx_ops : list TreeOp :=
  [OpRebuild v2_old; OpCommit; OpBegin; OpApply v2_us v2_ds; OpBegin; OpCommit;
   OpApplyCommitted [] [str "../x"]; OpBegin; OpApply [] [str "new/c.md"]; OpAbort; OpBegin; OpApply v2_us []].

Definition sx_less : list FileEntry := Eval vm_compute in merge_prefix_entries v2_new [] [str "new/c.md"].
Definition sx_objects : list bytes :=
  Eval vm_compute in remove_dups (written v2_sorted ++ written v2_new ++ written sx_less).
Definition sx_P (b : bytes) : Prop := b ∈ sx_objects.

Lemma sx_inj : injective_on hash_bytes sx_P.
Proof. apply NoDup_injective_on. by_decision. Qed.
Lemma sx_fits : vault_fits sx_P v2_sorted ∧ vault_fits sx_P v2_new ∧ vault_fits sx_P sx_less.
Proof.
  assert (∀ es, entries_ok es → Forall (λ e, len (fe_path e) ≤ 205) es → Forall sx_P (written es) → vault_fits sx_P es) as H
    by (intros es ?? ?; by split_and!).
  repeat apply conj; apply H; first [exact v2_sorted_ok|exact v2_new_ok|by_decision|unfold sx_P; by_decision|split; vm_compute; reflexivity].
Qed.

Lemma session_refines_witness :
  (run_ops sx_ops (tt_new (str "vault") (str "phone"))).1 =
    [true; false; true; true; false; true; false; true; true; true; true; true] ∧
  shows (run_ops sx_ops (tt_new (str "vault") (str "phone"))).2 (Some (v2_new, Some v2_new)).
Proof.
  assert ((run_specs sx_ops None).1 = [true; false; true; true; false; true; false; true; true; true; true; true]) as E1
    by (vm_compute; reflexivity).
  assert ((run_specs sx_ops None).2 = Some (v2_new, Some v2_new)) as E2 by (vm_compute; reflexivity).
  rewrite <-E1, <-E2. apply (session_refines sx_P); [exact sx_inj|vm_compute; reflexivity..|vm_compute; discriminate|].
  destruct sx_fits as (F1 & F2 & F3).
  change (ops_fit sx_P sx_ops None) with
    (vault_fits sx_P v2_sorted ∧ vault_fits sx_P v2_sorted ∧ (vault_fits sx_P v2_sorted ∧ vault_fits sx_P v2_sorted) ∧
     (vault_fits sx_P v2_sorted ∧ vault_fits sx_P v2_new) ∧ (vault_fits sx_P v2_sorted ∧ vault_fits sx_P v2_new) ∧
     vault_fits sx_P v2_new ∧ vault_fits sx_P v2_new ∧ (vault_fits sx_P v2_new ∧ vault_fits sx_P v2_new) ∧
     (vault_fits sx_P v2_new ∧ vault_fits sx_P sx_less) ∧ vault_fits sx_P v2_new ∧
     (vault_fits sx_P v2_new ∧ vault_fits sx_P v2_new) ∧ (vault_fits sx_P v2_new ∧ vault_fits sx_P v2_new) ∧ True).
  by split_and!.
Defined.
