(* ===== verification/Rebuild.v ===== *)
(** src/crates/sync-core/src/replacement_rebuild_v2.rs: the construction of a
    complete Tree v2 in small units. The entries are sorted by [StableSort],
    the levels are planned over indices of the entries before anything is
    encoded, the caller admits the plan, and the emission follows it. *)

From S2P Require Import Prelude Bytes Keyed Hash Chunk Store TreeV1 TreeV2Codec TreeV2Segment TreeV2 StableSort Session.
Local Open Scope N_scope.

Inductive Phase :=
  | Ph_Sort | Ph_ValidateEntries | Ph_SegmentLeaves | Ph_PlanLeafDescriptors | Ph_PlanValidateRanges
  | Ph_PlanSegmentRanges | Ph_PlanEmitParents | Ph_PlanRetireRanges | Ph_PlanRoot | Ph_PlanReady
  | Ph_EmitLeaves | Ph_ValidateRanges | Ph_SegmentRanges | Ph_EmitParents | Ph_RetireRanges | Ph_Root
  | Ph_Closure | Ph_CleanupClosure | Ph_CleanupEntries | Ph_Ready | Ph_Failed | Ph_Retiring.
#[global] Instance phase_eq_dec : EqDecision Phase.
Proof. solve_decision. Defined.

Record Span := { sp_start : N; sp_end : N; sp_bytes : N }.
Record PlannedInternalSpan := { pi_span : Span; pi_child_height : N }.
Record PlannedRange := {
  pr_min_entry : N; pr_max_entry : N; pr_file_count : N; pr_serialized_bytes : N; pr_height : N }.
#[global] Instance span_eq_dec : EqDecision Span.
Proof. solve_decision. Defined.

Record ReplacementBuildPlanV2 := {
  bp_node_count : N;
  bp_leaf_count : N;
  bp_internal_count : N;
  bp_node_payload_bytes : N;
  bp_max_node_bytes : N;
  bp_stored_root_bytes : N;
}.
Definition bp_default : ReplacementBuildPlanV2 :=
  {| bp_node_count := 0; bp_leaf_count := 0; bp_internal_count := 0; bp_node_payload_bytes := 0;
     bp_max_node_bytes := 0; bp_stored_root_bytes := 0 |}.
#[global] Instance bp_settable : Settable ReplacementBuildPlanV2 := λ p,
  {| bp_node_count := bp_node_count p; bp_leaf_count := bp_leaf_count p; bp_internal_count := bp_internal_count p;
     bp_node_payload_bytes := bp_node_payload_bytes p; bp_max_node_bytes := bp_max_node_bytes p;
     bp_stored_root_bytes := bp_stored_root_bytes p |}.

(** src/crates/sync-core/src/replacement_rebuild.rs. *)
Record ReplacementOutputMemoryPlanV1 := {
  om_node_payload_bytes : N;
  om_range_endpoint_peak_requested_bytes : N;
  om_range_endpoint_resident_requested_bytes : N;
  om_peak_admission_bytes : N;
  om_resident_admission_bytes : N;
}.
Definition om_default : ReplacementOutputMemoryPlanV1 :=
  {| om_node_payload_bytes := 0; om_range_endpoint_peak_requested_bytes := 0;
     om_range_endpoint_resident_requested_bytes := 0; om_peak_admission_bytes := 0; om_resident_admission_bytes := 0 |}.

(** [ReplacementBuildPlanV2::add_node]. *)
Definition add_node (p : ReplacementBuildPlanV2) (size : N) (leaf : bool) : result ChunkError ReplacementBuildPlanV2 :=
  let? node_count := ok_or (checked_add64 (bp_node_count p) 1) (invalid "Tree v2 plan node count overflow") in
  if MAX_VISITED_NODES <? node_count then Err (invalid "Tree v2 exceeds the node limit")
  else
    let? p :=
      if leaf then
        let? leaf_count := ok_or (checked_add64 (bp_leaf_count p) 1) (invalid "Tree v2 plan leaf count overflow") in
        Ok (p <| bp_leaf_count := leaf_count |>)
      else
        let? internal_count := ok_or (checked_add64 (bp_internal_count p) 1)
                                 (invalid "Tree v2 plan internal count overflow") in
        Ok (p <| bp_internal_count := internal_count |>) in
    let? node_payload_bytes := ok_or (checked_add64 (bp_node_payload_bytes p) size)
                                 (invalid "Tree v2 plan byte overflow") in
    Ok (p <| bp_node_count := node_count |> <| bp_node_payload_bytes := node_payload_bytes |>
          <| bp_max_node_bytes := N.max (bp_max_node_bytes p) (size mod 2 ^ 32) |>).

(** [ClosureValidation]. The top of [pending] is its head. *)
Record ClosureValidation := {
  cl_pending : list RangeRef;
  cl_pending_allocated : bool;
  cl_expanding : option (list RangeRef);
  cl_reachable : gset FileHash;
  cl_descriptors : gmap FileHash RangeRef;
  cl_visited_nodes : N;
  cl_visited_entries : N;
}.
#[global] Instance cl_settable : Settable ClosureValidation := λ c,
  {| cl_pending := cl_pending c; cl_pending_allocated := cl_pending_allocated c; cl_expanding := cl_expanding c;
     cl_reachable := cl_reachable c; cl_descriptors := cl_descriptors c; cl_visited_nodes := cl_visited_nodes c;
     cl_visited_entries := cl_visited_entries c |}.

Definition cl_new (root : TreeV2Root) : ClosureValidation :=
  let pending := match tv_child root with Some c => [c] | None => [] end in
  {| cl_pending := pending; cl_pending_allocated := negb (bool_decide (pending = [])); cl_expanding := None;
     cl_reachable := ∅; cl_descriptors := ∅; cl_visited_nodes := 0; cl_visited_entries := 0 |}.

(** [ReplacementRebuildV2], without the meters of memory. A vector has an
    allocation once something was pushed, until it is taken. *)
Record ReplacementRebuildV2 := {
  rb_phase : Phase;
  rb_sorter : option (Sort FileEntry);
  rb_entries : list FileEntry;
  rb_entries_owned : bool;
  rb_cursor : N;
  rb_segment_start : N;
  rb_segment_bytes : N;
  rb_spans : list Span;
  rb_leaf_spans : list Span;
  rb_planned_ranges : list PlannedRange;
  rb_next_planned_ranges : list PlannedRange;
  rb_planned_spans : list Span;
  rb_planned_internal_spans : list PlannedInternalSpan;
  rb_planned_height : N;
  rb_plan : ReplacementBuildPlanV2;
  rb_planned_range_endpoint_requested_bytes : N;
  rb_output_memory_plan : ReplacementOutputMemoryPlanV1;
  rb_emitted_nodes : N;
  rb_emitted_payload_bytes : N;
  rb_emitted_internal_spans : N;
  rb_emit : N;
  rb_ranges : list RangeRef;
  rb_ranges_allocated : bool;
  rb_next_ranges : list RangeRef;
  rb_next_ranges_allocated : bool;
  rb_range_height : N;
  rb_root : option RootNodeV2;
  rb_closure : option ClosureValidation;
  rb_retiring_descriptors : list (FileHash * RangeRef);
  rb_store : MemoryChunkStore;
  rb_vault_id : bytes;
  rb_device_id : bytes;
  rb_completed : N;
}.
#[global] Instance rb_settable : Settable ReplacementRebuildV2 := λ s,
  {| rb_phase := rb_phase s; rb_sorter := rb_sorter s; rb_entries := rb_entries s; rb_entries_owned := rb_entries_owned s;
     rb_cursor := rb_cursor s; rb_segment_start := rb_segment_start s; rb_segment_bytes := rb_segment_bytes s;
     rb_spans := rb_spans s; rb_leaf_spans := rb_leaf_spans s; rb_planned_ranges := rb_planned_ranges s;
     rb_next_planned_ranges := rb_next_planned_ranges s; rb_planned_spans := rb_planned_spans s;
     rb_planned_internal_spans := rb_planned_internal_spans s; rb_planned_height := rb_planned_height s;
     rb_plan := rb_plan s;
     rb_planned_range_endpoint_requested_bytes := rb_planned_range_endpoint_requested_bytes s;
     rb_output_memory_plan := rb_output_memory_plan s; rb_emitted_nodes := rb_emitted_nodes s;
     rb_emitted_payload_bytes := rb_emitted_payload_bytes s; rb_emitted_internal_spans := rb_emitted_internal_spans s;
     rb_emit := rb_emit s; rb_ranges := rb_ranges s; rb_ranges_allocated := rb_ranges_allocated s;
     rb_next_ranges := rb_next_ranges s; rb_next_ranges_allocated := rb_next_ranges_allocated s;
     rb_range_height := rb_range_height s; rb_root := rb_root s; rb_closure := rb_closure s;
     rb_retiring_descriptors := rb_retiring_descriptors s; rb_store := rb_store s; rb_vault_id := rb_vault_id s;
     rb_device_id := rb_device_id s; rb_completed := rb_completed s |}.

Definition rb_new (entries : list FileEntry) (vault_id device_id : bytes) : ReplacementRebuildV2 :=
  {| rb_phase := Ph_Sort; rb_sorter := Some (sort_new entries); rb_entries := []; rb_entries_owned := false;
     rb_cursor := 0; rb_segment_start := 0; rb_segment_bytes := LEAF_HEADER_BYTES; rb_spans := []; rb_leaf_spans := [];
     rb_planned_ranges := []; rb_next_planned_ranges := []; rb_planned_spans := []; rb_planned_internal_spans := [];
     rb_planned_height := 0; rb_plan := bp_default; rb_planned_range_endpoint_requested_bytes := 0;
     rb_output_memory_plan := om_default; rb_emitted_nodes := 0; rb_emitted_payload_bytes := 0;
     rb_emitted_internal_spans := 0; rb_emit := 0; rb_ranges := []; rb_ranges_allocated := false;
     rb_next_ranges := []; rb_next_ranges_allocated := false; rb_range_height := 0; rb_root := None;
     rb_closure := None; rb_retiring_descriptors := []; rb_store := ms_new; rb_vault_id := vault_id;
     rb_device_id := device_id; rb_completed := 0 |}.

Section rebuild.
Context {B3 : Blake3}.
Abbreviation State := ReplacementRebuildV2.
Abbreviation Tick := (St State ChunkError).

Definition get {A} (f : State → A) : Tick A := λ s, (Ok (f s), s).
Definition try_get {A} (f : State → result ChunkError A) : Tick A := λ s, (f s, s).
Definition put (f : State → State) : Tick unit := λ s, (Ok tt, f s).

(** [v[i]]; a panic is an error. *)
Definition index {X} (v : list X) (i : N) : result ChunkError X :=
  ok_or (v !! N.to_nat i) (invalid "index out of bounds").

(** * Segmentation *)

(** The body shared by [segment_record] and [segment_planned_record]: the
    start and the bytes of the open segment, and the spans so far. *)
Definition segment_step (k : SegmentKind) (message_cap message_overflow : string) (index length : N) (key : bytes)
    (acc : N * N * list Span) : result ChunkError (N * N * list Span) :=
  let '(start, size, spans) := acc in
  if MAX_NODE_BYTES <? saturating_add64 (sk_header_bytes k) length then Err (invalid message_cap)
  else
    let '(start, size, spans) :=
      if (start <? index)
         && ((sk_max_records k <=? index - start) || (MAX_NODE_BYTES <? saturating_add64 size length))
      then (index, sk_header_bytes k, spans ++ [{| sp_start := start; sp_end := index; sp_bytes := size |}])
      else (start, size, spans) in
    let? size := ok_or (checked_add64 size length) (invalid message_overflow) in
    if closes k (index - start + 1) size key
    then Ok (index + 1, sk_header_bytes k, spans ++ [{| sp_start := start; sp_end := index + 1; sp_bytes := size |}])
    else Ok (start, size, spans).

Definition segment_record (k : SegmentKind) (index length : N) (key : bytes) : Tick unit :=
  let! ' (start, size, spans) := try_get (λ s,
    segment_step k "one Tree v2 record exceeds the node cap" "Tree v2 segment length overflow" index length key
      (rb_segment_start s, rb_segment_bytes s, rb_spans s)) in
  put (λ s, s <| rb_segment_start := start |> <| rb_segment_bytes := size |> <| rb_spans := spans |>).

Definition segment_planned_record (index length : N) (key : bytes) : Tick unit :=
  let! ' (start, size, spans) := try_get (λ s,
    segment_step internal_kind "one Tree v2 planned range exceeds the node cap" "Tree v2 planned segment length overflow"
      index length key (rb_segment_start s, rb_segment_bytes s, rb_planned_spans s)) in
  put (λ s, s <| rb_segment_start := start |> <| rb_segment_bytes := size |> <| rb_planned_spans := spans |>).

Definition planned_range_record_len (s : State) (range : PlannedRange) : result ChunkError N :=
  let? min_entry := ok_or (rb_entries s !! N.to_nat (pr_min_entry range)) (invalid "Tree v2 planned minimum entry is missing") in
  let? max_entry := ok_or (rb_entries s !! N.to_nat (pr_max_entry range)) (invalid "Tree v2 planned maximum entry is missing") in
  ok_or (try_sum 48 [len (fe_path min_entry); len (fe_path max_entry)]) (invalid "Tree v2 planned range length overflow").

(** The last, open segment. *)
Definition open_span (start size count : N) (spans : list Span) : list Span :=
  if start <? count then spans ++ [{| sp_start := start; sp_end := count; sp_bytes := size |}] else spans.

(** * Plan totals *)

Definition endpoint_pair_bytes (min_path max_path : bytes) : result ChunkError N :=
  ok_or (checked_add64 (len min_path) (len max_path)) (invalid "Tree v2 planned endpoint byte overflow").

Definition build_output_memory_plan_v1 (node_payload_bytes descriptor_endpoint_bytes root_endpoint_bytes : N)
    : result ChunkError ReplacementOutputMemoryPlanV1 :=
  let? endpoint_peak := ok_or (checked_add64 descriptor_endpoint_bytes root_endpoint_bytes)
                          (invalid "Tree v2 planned endpoint byte overflow") in
  let? peak_admission_bytes := ok_or (checked_add64 node_payload_bytes endpoint_peak)
                                 (invalid "Tree v2 output memory plan byte overflow") in
  let? resident_admission_bytes := ok_or (checked_add64 node_payload_bytes root_endpoint_bytes)
                                     (invalid "Tree v2 output memory plan byte overflow") in
  Ok {| om_node_payload_bytes := node_payload_bytes; om_range_endpoint_peak_requested_bytes := endpoint_peak;
        om_range_endpoint_resident_requested_bytes := root_endpoint_bytes;
        om_peak_admission_bytes := peak_admission_bytes; om_resident_admission_bytes := resident_admission_bytes |}.

Definition add_planned_range_endpoint_bytes (min_entry max_entry : N) : Tick unit :=
  let! total := try_get (λ s,
    let? first := index (rb_entries s) min_entry in
    let? last := index (rb_entries s) max_entry in
    let? size := endpoint_pair_bytes (fe_path first) (fe_path last) in
    ok_or (checked_add64 (rb_planned_range_endpoint_requested_bytes s) size)
      (invalid "Tree v2 planned endpoint byte overflow")) in
  put (λ s, s <| rb_planned_range_endpoint_requested_bytes := total |>).

Definition plan_add_node (size : N) (leaf : bool) : Tick unit :=
  let! plan := try_get (λ s, add_node (rb_plan s) size leaf) in
  put (λ s, s <| rb_plan := plan |>).

Definition record_emitted_node (size : N) : Tick unit :=
  let! emitted := try_get (λ s, ok_or (checked_add64 (rb_emitted_nodes s) 1) (invalid "Tree v2 emitted node count overflow")) in
  let! _ := put (λ s, s <| rb_emitted_nodes := emitted |>) in
  let! total := try_get (λ s, ok_or (checked_add64 (rb_emitted_payload_bytes s) size)
                                (invalid "Tree v2 emitted payload byte overflow")) in
  put (λ s, s <| rb_emitted_payload_bytes := total |>).

(** * Levels *)

Definition start_planned_range_level_or_root : Tick unit :=
  let! planned_ranges := get rb_planned_ranges in
  match planned_ranges with
  | first :: _ :: _ =>
      let! _ := put (λ s, s <| rb_planned_height := pr_height first |>) in
      if MAX_TREE_DEPTH <=? pr_height first then st_err (invalid "Tree v2 exceeds the depth limit")
      else put (λ s, s <| rb_cursor := 0 |> <| rb_phase := Ph_PlanValidateRanges |>)
  | _ => put (λ s, s <| rb_phase := Ph_PlanRoot |>)
  end.

Definition start_range_level_or_root : Tick unit :=
  let! ranges := get rb_ranges in
  match ranges with
  | first :: _ :: _ =>
      let! _ := put (λ s, s <| rb_range_height := rr_height first |>) in
      if MAX_TREE_DEPTH <=? rr_height first then st_err (invalid "Tree v2 exceeds the depth limit")
      else put (λ s, s <| rb_cursor := 0 |> <| rb_phase := Ph_ValidateRanges |>)
  | _ =>
      let! _ := try_get (λ s,
        if negb (rb_emitted_nodes s =? bp_node_count (rb_plan s))
           || negb (rb_emitted_payload_bytes s =? bp_node_payload_bytes (rb_plan s))
           || negb (rb_emitted_internal_spans s =? len (rb_planned_internal_spans s))
        then Err (invalid "Tree v2 emitted graph differs from its plan") else Ok tt) in
      put (λ s, s <| rb_planned_internal_spans := [] |> <| rb_phase := Ph_Root |>)
  end.

(** * The units of a phase: [true] is one unit of work, [false] a change of the
    phase, which is free. *)

Definition tick_sort : Tick bool :=
  let! sorter := try_get (λ s, ok_or (rb_sorter s) (invalid "sort phase must own its stable sorter")) in
  let! ' (more, sorter) := st_lift (ok_or (sort_tick fe_path sorter) (invalid "stable sort panicked")) in
  let! _ := put (λ s, s <| rb_sorter := Some sorter |>) in
  if more then st_ret true
  else
    let! entries := st_lift (ok_or (sort_finish sorter) (invalid "stable sort is not ready")) in
    let! _ := put (λ s, s <| rb_sorter := None |> <| rb_entries := entries |> <| rb_entries_owned := true |>) in
    if MAX_LOADED_ENTRIES <? len entries then st_err (invalid "Tree v2 exceeds the entry limit")
    else let! _ := put (λ s, s <| rb_cursor := 0 |> <| rb_phase := Ph_ValidateEntries |>) in st_ret false.

Definition tick_validate_entries : Tick bool := λ s,
  if rb_cursor s =? len (rb_entries s) then
    (Ok false, s <| rb_cursor := 0 |> <| rb_segment_start := 0 |> <| rb_segment_bytes := LEAF_HEADER_BYTES |>
                 <| rb_phase := Ph_SegmentLeaves |>)
  else
    (let! entry := st_lift (index (rb_entries s) (rb_cursor s)) in
     let! _ := st_lift (validate_path (fe_path entry)) in
     let! _ := st_lift (
       if 0 <? rb_cursor s then
         let? previous := index (rb_entries s) (rb_cursor s - 1) in
         check (blt (fe_path previous) (fe_path entry)) (invalid "Tree v2 entries are not strictly ordered")
       else Ok tt) in
     let! _ := put (λ s, s <| rb_cursor := rb_cursor s + 1 |>) in
     st_ret true) s.

Definition tick_segment_leaves : Tick bool := λ s,
  if rb_cursor s =? len (rb_entries s) then
    (Ok false, s <| rb_leaf_spans := open_span (rb_segment_start s) (rb_segment_bytes s) (len (rb_entries s)) (rb_spans s) |>
                 <| rb_spans := [] |> <| rb_cursor := 0 |> <| rb_plan := bp_default |>
                 <| rb_planned_range_endpoint_requested_bytes := 0 |> <| rb_output_memory_plan := om_default |>
                 <| rb_phase := Ph_PlanLeafDescriptors |>)
  else
    (let! entry := st_lift (index (rb_entries s) (rb_cursor s)) in
     let! _ := segment_record leaf_kind (rb_cursor s) (leaf_record_len entry) (fe_path entry) in
     let! _ := put (λ s, s <| rb_cursor := rb_cursor s + 1 |>) in
     st_ret true) s.

Definition tick_plan_leaf_descriptors : Tick bool := λ s,
  if rb_cursor s =? len (rb_leaf_spans s) then
    (let! _ := put (λ s, s <| rb_cursor := 0 |>) in
     let! _ := start_planned_range_level_or_root in
     st_ret false) s
  else
    (let! span := st_lift (index (rb_leaf_spans s) (rb_cursor s)) in
     let! _ := st_lift (check (sp_bytes span <=? U32_MAX)
                          (invalid "Tree v2 planned leaf length does not fit its descriptor")) in
     let! _ := add_planned_range_endpoint_bytes (sp_start span) (sp_end span - 1) in
     let! _ := plan_add_node (sp_bytes span) true in
     let! _ := put (λ s, s <| rb_planned_ranges := rb_planned_ranges s ++
                 [{| pr_min_entry := sp_start span; pr_max_entry := sp_end span - 1;
                     pr_file_count := sp_end span - sp_start span; pr_serialized_bytes := sp_bytes span;
                     pr_height := 0 |}] |> <| rb_cursor := rb_cursor s + 1 |>) in
     st_ret true) s.

Definition tick_plan_validate_ranges : Tick bool := λ s,
  if rb_cursor s =? len (rb_planned_ranges s) then
    (Ok false, s <| rb_cursor := 0 |> <| rb_segment_start := 0 |> <| rb_segment_bytes := INTERNAL_HEADER_BYTES |>
                 <| rb_planned_spans := [] |> <| rb_phase := Ph_PlanSegmentRanges |>)
  else
    (let! current := st_lift (index (rb_planned_ranges s) (rb_cursor s)) in
     let! _ := st_lift (
       if negb (pr_height current =? rb_planned_height s) || (pr_max_entry current <? pr_min_entry current)
          || (len (rb_entries s) <=? pr_max_entry current) || (pr_serialized_bytes current =? 0)
          || (MAX_NODE_BYTES <? pr_serialized_bytes current)
       then Err (invalid "Tree v2 planned range is inconsistent") else Ok tt) in
     let! _ := st_lift (
       if 0 <? rb_cursor s then
         let? previous := index (rb_planned_ranges s) (rb_cursor s - 1) in
         check (pr_max_entry previous <? pr_min_entry current) (invalid "Tree v2 planned ranges overlap or are unordered")
       else Ok tt) in
     let! _ := put (λ s, s <| rb_cursor := rb_cursor s + 1 |>) in
     st_ret true) s.

Definition tick_plan_segment_ranges : Tick bool := λ s,
  if rb_cursor s =? len (rb_planned_ranges s) then
    (Ok false, s <| rb_planned_spans := open_span (rb_segment_start s) (rb_segment_bytes s) (len (rb_planned_ranges s))
                                          (rb_planned_spans s) |>
                 <| rb_next_planned_ranges := [] |> <| rb_emit := 0 |> <| rb_phase := Ph_PlanEmitParents |>)
  else
    (let! range := st_lift (index (rb_planned_ranges s) (rb_cursor s)) in
     let! length := st_lift (planned_range_record_len s range) in
     let! last := st_lift (index (rb_entries s) (pr_max_entry range)) in
     let! _ := segment_planned_record (rb_cursor s) length (fe_path last) in
     let! _ := put (λ s, s <| rb_cursor := rb_cursor s + 1 |>) in
     st_ret true) s.

Definition span_slice {X} (v : list X) (span : Span) : list X :=
  take (N.to_nat (sp_end span - sp_start span)) (drop (N.to_nat (sp_start span)) v).

Definition tick_plan_emit_parents : Tick bool := λ s,
  if rb_emit s =? len (rb_planned_spans s) then
    (Ok false, s <| rb_emit := 0 |> <| rb_phase := Ph_PlanRetireRanges |>)
  else
    (let! span := st_lift (index (rb_planned_spans s) (rb_emit s)) in
     let children := span_slice (rb_planned_ranges s) span in
     let! file_count := st_lift (ok_or (try_sum 0 (pr_file_count <$> children)) (invalid "Tree v2 file count overflow")) in
     let! _ := st_lift (check (sp_bytes span <=? U32_MAX)
                          (invalid "Tree v2 planned internal length does not fit its descriptor")) in
     let! first := st_lift (index children 0) in
     let! last := st_lift (index children (len children - 1)) in
     let! _ := add_planned_range_endpoint_bytes (pr_min_entry first) (pr_max_entry last) in
     let! _ := plan_add_node (sp_bytes span) false in
     let! _ := put (λ s, s
       <| rb_planned_internal_spans := rb_planned_internal_spans s ++
            [{| pi_span := span; pi_child_height := rb_planned_height s |}] |>
       <| rb_next_planned_ranges := rb_next_planned_ranges s ++
            [{| pr_min_entry := pr_min_entry first; pr_max_entry := pr_max_entry last; pr_file_count := file_count;
                pr_serialized_bytes := sp_bytes span; pr_height := rb_planned_height s + 1 |}] |>
       <| rb_emit := rb_emit s + 1 |>) in
     st_ret true) s.

Definition tick_plan_retire_ranges : Tick bool := λ s,
  match last (rb_planned_ranges s) with
  | Some _ => (Ok true, s <| rb_planned_ranges := removelast (rb_planned_ranges s) |>)
  | None =>
      (let! _ := put (λ s, s <| rb_planned_ranges := rb_next_planned_ranges s |> <| rb_next_planned_ranges := [] |>) in
       let! _ := start_planned_range_level_or_root in
       st_ret false) s
  end.

Definition tick_plan_root : Tick bool := λ s,
  (let! ' (child_paths, root_endpoint_bytes) := st_lift (
     match rb_planned_ranges s with
     | [] => Ok (None, 0)
     | [child] =>
         let? first := index (rb_entries s) (pr_min_entry child) in
         let? last := index (rb_entries s) (pr_max_entry child) in
         let? size := endpoint_pair_bytes (fe_path first) (fe_path last) in
         Ok (Some (fe_path first, fe_path last), size)
     | _ => Err (invalid "Tree v2 planned root level is incomplete")
     end) in
   let! stored_root_bytes := st_lift (
     replacement_root_serialized_length (rb_vault_id s) (rb_device_id s) child_paths) in
   let! _ := st_lift (check (stored_root_bytes <=? U32_MAX) (invalid "Tree v2 planned root length does not fit the ABI")) in
   let! _ := put (λ s, s <| rb_plan := rb_plan s <| bp_stored_root_bytes := stored_root_bytes |> |>) in
   let! memory_plan := try_get (λ s,
     build_output_memory_plan_v1 (bp_node_payload_bytes (rb_plan s)) (rb_planned_range_endpoint_requested_bytes s)
       root_endpoint_bytes) in
   let! _ := put (λ s, s <| rb_output_memory_plan := memory_plan |> <| rb_planned_ranges := [] |>
                         <| rb_next_planned_ranges := [] |> <| rb_planned_spans := [] |> <| rb_phase := Ph_PlanReady |>) in
   st_ret true) s.

Definition tick_emit_leaves : Tick bool := λ s,
  if rb_emit s =? len (rb_spans s) then
    (let! _ := put (λ s, s <| rb_spans := [] |> <| rb_emit := 0 |>) in
     let! _ := start_range_level_or_root in
     st_ret false) s
  else
    (let! span := st_lift (index (rb_spans s) (rb_emit s)) in
     let entries := span_slice (rb_entries s) span in
     let! b := st_lift (encode_leaf entries) in
     let! _ := st_lift (check (len b =? sp_bytes span) (invalid "Tree v2 emitted leaf differs from its plan")) in
     let hash := hash_bytes b in
     let! _ := st_lift (check (len b <=? U32_MAX) (invalid "Tree v2 leaf length does not fit its descriptor")) in
     let! first := st_lift (index entries 0) in
     let! last := st_lift (index entries (len entries - 1)) in
     let range := {| rr_min_path := fe_path first; rr_max_path := fe_path last; rr_hash := hash;
                     rr_file_count := len entries; rr_serialized_bytes := len b; rr_height := 0 |} in
     let! _ := put (λ s, s <| rb_store := insert_chunk hash (exact_buffer b) (rb_store s) |>
                           <| rb_ranges := rb_ranges s ++ [range] |> <| rb_ranges_allocated := true |>) in
     let! _ := record_emitted_node (sp_bytes span) in
     let! _ := put (λ s, s <| rb_emit := rb_emit s + 1 |>) in
     st_ret true) s.

Definition tick_validate_ranges : Tick bool := λ s,
  if rb_cursor s =? len (rb_ranges s) then
    (Ok false, s <| rb_cursor := 0 |> <| rb_segment_start := 0 |> <| rb_segment_bytes := INTERNAL_HEADER_BYTES |>
                 <| rb_spans := [] |> <| rb_phase := Ph_SegmentRanges |>)
  else
    (let! current := st_lift (index (rb_ranges s) (rb_cursor s)) in
     let! _ := st_lift (check (rr_height current =? rb_range_height s) (invalid "Tree v2 range height is inconsistent")) in
     let! _ := st_lift (validate_range current) in
     let! _ := st_lift (
       if 0 <? rb_cursor s then
         let? previous := index (rb_ranges s) (rb_cursor s - 1) in
         check (blt (rr_max_path previous) (rr_min_path current) && blt (rr_max_path previous) (rr_max_path current))
           (invalid "Tree v2 ranges overlap or are unordered")
       else Ok tt) in
     let! _ := put (λ s, s <| rb_cursor := rb_cursor s + 1 |>) in
     st_ret true) s.

Definition tick_segment_ranges : Tick bool := λ s,
  if rb_cursor s =? len (rb_ranges s) then
    (Ok false, s <| rb_spans := open_span (rb_segment_start s) (rb_segment_bytes s) (len (rb_ranges s)) (rb_spans s) |>
                 <| rb_next_ranges := [] |> <| rb_emit := 0 |> <| rb_phase := Ph_EmitParents |>)
  else
    (let! range := st_lift (index (rb_ranges s) (rb_cursor s)) in
     let! _ := segment_record internal_kind (rb_cursor s) (range_record_len range) (rr_max_path range) in
     let! _ := put (λ s, s <| rb_cursor := rb_cursor s + 1 |>) in
     st_ret true) s.

(** [std::mem::take] of the two endpoints that move to the parent. *)
Definition take_endpoints (span : Span) (ranges : list RangeRef) : list RangeRef :=
  let clear_min r := {| rr_min_path := []; rr_max_path := rr_max_path r; rr_hash := rr_hash r;
                        rr_file_count := rr_file_count r; rr_serialized_bytes := rr_serialized_bytes r;
                        rr_height := rr_height r |} in
  let clear_max r := {| rr_min_path := rr_min_path r; rr_max_path := []; rr_hash := rr_hash r;
                        rr_file_count := rr_file_count r; rr_serialized_bytes := rr_serialized_bytes r;
                        rr_height := rr_height r |} in
  alter clear_max (N.to_nat (sp_end span - 1)) (alter clear_min (N.to_nat (sp_start span)) ranges).

Definition tick_emit_parents : Tick bool := λ s,
  if rb_emit s =? len (rb_spans s) then
    (Ok false, s <| rb_spans := [] |> <| rb_emit := 0 |> <| rb_phase := Ph_RetireRanges |>)
  else
    (let! span := st_lift (index (rb_spans s) (rb_emit s)) in
     let! expected := st_lift (ok_or (rb_planned_internal_spans s !! N.to_nat (rb_emitted_internal_spans s))
                                 (invalid "Tree v2 emitted an unplanned internal node")) in
     let! _ := st_lift (check (bool_decide (pi_span expected = span) && (pi_child_height expected =? rb_range_height s))
                          (invalid "Tree v2 internal segmentation differs from its plan")) in
     let children := span_slice (rb_ranges s) span in
     let! b := st_lift (encode_internal (rb_range_height s) children) in
     let! _ := st_lift (check (len b =? sp_bytes span) (invalid "Tree v2 emitted internal node differs from its plan")) in
     let hash := hash_bytes b in
     let! _ := st_lift (check (len b <=? U32_MAX) (invalid "Tree v2 internal length does not fit its descriptor")) in
     let! file_count := st_lift (count_files children) in
     let! _ := put (λ s, s <| rb_store := insert_chunk hash (exact_buffer b) (rb_store s) |>) in
     let! first := st_lift (index (rb_ranges s) (sp_start span)) in
     let! last := st_lift (index (rb_ranges s) (sp_end span - 1)) in
     let range := {| rr_min_path := rr_min_path first; rr_max_path := rr_max_path last; rr_hash := hash;
                     rr_file_count := file_count; rr_serialized_bytes := len b; rr_height := rb_range_height s + 1 |} in
     let! _ := put (λ s, s <| rb_ranges := take_endpoints span (rb_ranges s) |>
                           <| rb_next_ranges := rb_next_ranges s ++ [range] |> <| rb_next_ranges_allocated := true |>) in
     let! _ := record_emitted_node (sp_bytes span) in
     let! _ := put (λ s, s <| rb_emitted_internal_spans := rb_emitted_internal_spans s + 1 |>
                           <| rb_emit := rb_emit s + 1 |>) in
     st_ret true) s.

Definition tick_retire_ranges : Tick bool := λ s,
  match last (rb_ranges s) with
  | Some _ => (Ok true, s <| rb_ranges := removelast (rb_ranges s) |>)
  | None =>
      if rb_ranges_allocated s then (Ok true, s <| rb_ranges_allocated := false |>)
      else
        (let! _ := put (λ s, s <| rb_ranges := rb_next_ranges s |> <| rb_ranges_allocated := rb_next_ranges_allocated s |>
                               <| rb_next_ranges := [] |> <| rb_next_ranges_allocated := false |>) in
         let! _ := start_range_level_or_root in
         st_ret false) s
  end.

Definition tick_root : Tick bool := λ s,
  (let! child := st_lift (
     match rb_ranges s with
     | [] => Ok None
     | [range] => Ok (Some range)
     | _ => Err (invalid "Tree v2 replacement root level is incomplete")
     end) in
   let! _ := put (λ s, s <| rb_ranges := [] |> <| rb_ranges_allocated := false |>) in
   let tree := {| tv_version := TREE_VERSION; tv_total_files := len (rb_entries s); tv_child := child |} in
   let! root := st_lift (r2_new (rb_vault_id s) (rb_device_id s) tree) in
   let! length := st_lift (r2_serialized_length root) in
   let! _ := st_lift (check (length =? bp_stored_root_bytes (rb_plan s)) (invalid "Tree v2 emitted root differs from its plan")) in
   let! _ := put (λ s, s <| rb_root := Some root |> <| rb_closure := Some (cl_new tree) |> <| rb_phase := Ph_Closure |>) in
   st_ret true) s.

(** [ClosureValidation::tick]. *)
Definition closure_tick (store : MemoryChunkStore) : St ClosureValidation ChunkError bool := λ c,
  match cl_expanding c with
  | Some (child :: children) =>
      (Ok true, c <| cl_expanding := Some children |> <| cl_pending := child :: cl_pending c |>
                  <| cl_pending_allocated := true |>)
  | Some [] => (Ok true, c <| cl_expanding := None |>)
  | None =>
      match cl_pending c with
      | [] => if cl_pending_allocated c then (Ok true, c <| cl_pending_allocated := false |>) else (Ok false, c)
      | range :: pending =>
          let c := c <| cl_pending := pending |> in
          match cl_descriptors c !! rr_hash range with
          | Some previous =>
              if bool_decide (previous = range) then (Ok true, c)
              else (Err (invalid "Tree v2 repeated hash has a different child descriptor"), c)
          | None =>
              let c := c <| cl_visited_nodes := saturating_add64 (cl_visited_nodes c) 1 |> in
              if (MAX_TREE_DEPTH <? rr_height range) || (MAX_VISITED_NODES <? cl_visited_nodes c)
              then (Err (invalid "Tree v2 exceeds the node limit"), c)
              else
                match (let? b := ok_or (get_chunk (rr_hash range) store)
                                   (invalid "private Tree v2 replacement chunk is missing") in
                       validate_loaded_node range b) with
                | Err e => (Err e, c)
                | Ok node =>
                    let record c := c <| cl_reachable := {[ rr_hash range ]} ∪ cl_reachable c |>
                                      <| cl_descriptors := <[rr_hash range := range]> (cl_descriptors c) |> in
                    match node with
                    | V2Leaf entries =>
                        let c := c <| cl_visited_entries := saturating_add64 (cl_visited_entries c) (len entries) |> in
                        if MAX_LOADED_ENTRIES <? cl_visited_entries c
                        then (Err (invalid "Tree v2 exceeds the entry limit"), c)
                        else (Ok true, record c)
                    | V2Internal _ children =>
                        (Ok true, record (match children with [] => c | _ => c <| cl_expanding := Some children |> end))
                    end
                end
          end
      end
  end.

Definition tick_closure : Tick bool := λ s,
  match rb_closure s with
  | None => (Err (invalid "closure phase must own its validation cursor"), s)
  | Some closure =>
      match closure_tick (rb_store s) closure with
      | (Err e, closure) => (Err e, s <| rb_closure := Some closure |>)
      | (Ok true, closure) => (Ok true, s <| rb_closure := Some closure |>)
      | (Ok false, closure) =>
          (Ok false, s <| rb_closure := None |> <| rb_retiring_descriptors := map_to_list (cl_descriptors closure) |>
                       <| rb_phase := Ph_CleanupClosure |>)
      end
  end.

Definition tick_cleanup_closure : Tick bool := λ s,
  match rb_retiring_descriptors s with
  | _ :: rest => (Ok true, s <| rb_retiring_descriptors := rest |>)
  | [] => (Ok false, s <| rb_phase := Ph_CleanupEntries |>)
  end.

Definition tick_cleanup_entries : Tick bool := λ s,
  match last (rb_entries s) with
  | Some _ => (Ok true, s <| rb_entries := removelast (rb_entries s) |>)
  | None =>
      if rb_entries_owned s then (Ok true, s <| rb_entries_owned := false |>)
      else (Ok false, s <| rb_phase := Ph_Ready |>)
  end.

Definition tick : Tick bool := λ s,
  match rb_phase s with
  | Ph_Sort => tick_sort s
  | Ph_ValidateEntries => tick_validate_entries s
  | Ph_SegmentLeaves => tick_segment_leaves s
  | Ph_PlanLeafDescriptors => tick_plan_leaf_descriptors s
  | Ph_PlanValidateRanges => tick_plan_validate_ranges s
  | Ph_PlanSegmentRanges => tick_plan_segment_ranges s
  | Ph_PlanEmitParents => tick_plan_emit_parents s
  | Ph_PlanRetireRanges => tick_plan_retire_ranges s
  | Ph_PlanRoot => tick_plan_root s
  | Ph_PlanReady => (Ok false, s)
  | Ph_EmitLeaves => tick_emit_leaves s
  | Ph_ValidateRanges => tick_validate_ranges s
  | Ph_SegmentRanges => tick_segment_ranges s
  | Ph_EmitParents => tick_emit_parents s
  | Ph_RetireRanges => tick_retire_ranges s
  | Ph_Root => tick_root s
  | Ph_Closure => tick_closure s
  | Ph_CleanupClosure => tick_cleanup_closure s
  | Ph_CleanupEntries => tick_cleanup_entries s
  | Ph_Ready => (Ok false, s)
  | Ph_Failed => (Err (invalid "replacement rebuild is in a failed state"), s)
  | Ph_Retiring => (Err (invalid "replacement rebuild retirement has started"), s)
  end.

(** * The steps of a caller *)

Definition halted (p : Phase) : bool := match p with Ph_Ready | Ph_PlanReady => true | _ => false end.
Definition stop_after_unit (p : Phase) : bool :=
  match p with Ph_EmitLeaves | Ph_ValidateRanges | Ph_EmitParents | Ph_Root | Ph_Closure => true | _ => false end.

(** The [while] loop of [step] for [max_units] more units. A change of the
    phase is free, and at most [fuel] of them follow each other. *)
Fixpoint step_loop (fuel : nat) (max_units units : N) (s : State) : result ChunkError N * State :=
  match fuel with
  | O => (Ok units, s)
  | S fuel =>
      if (units <? max_units) && negb (halted (rb_phase s)) then
        let stop := stop_after_unit (rb_phase s) in
        match tick s with
        | (Ok true, s) =>
            match checked_add64 (rb_completed s) 1 with
            | None => (Err (invalid "replacement rebuild progress overflow"), s <| rb_phase := Ph_Failed |>)
            | Some completed =>
                let s := s <| rb_completed := completed |> in
                if stop then (Ok (units + 1), s) else step_loop fuel max_units (units + 1) s
            end
        | (Ok false, s) => step_loop fuel max_units units s
        | (Err error, s) => (Err error, s <| rb_phase := Ph_Failed |>)
        end
      else (Ok units, s)
  end.

Definition step (max_units : N) (s : State) : result ChunkError N * State :=
  if max_units =? 0 then (Err (invalid "replacement rebuild step budget must be positive"), s <| rb_phase := Ph_Failed |>)
  else match rb_phase s with
       | Ph_Failed => (Err (invalid "replacement rebuild is in a failed state"), s)
       | Ph_Retiring => (Err (invalid "replacement rebuild retirement has started"), s)
       | Ph_PlanReady => (Ok 0, s)
       | _ => step_loop (N.to_nat (9 * (max_units + 1))) max_units 0 s
       end.

Definition rb_plan_of (s : State) : result ChunkError ReplacementBuildPlanV2 :=
  if bool_decide (rb_phase s = Ph_PlanReady) then Ok (rb_plan s)
  else Err (invalid "Tree v2 replacement plan is not ready").

Definition output_memory_plan_v1 (s : State) : result ChunkError ReplacementOutputMemoryPlanV1 :=
  if bool_decide (rb_phase s = Ph_PlanReady) then Ok (rb_output_memory_plan s)
  else Err (invalid "Tree v2 replacement output memory plan is not ready").

Definition resume_plan_ready (s : State) : State :=
  s <| rb_spans := rb_leaf_spans s |> <| rb_leaf_spans := [] |> <| rb_emit := 0 |> <| rb_emitted_internal_spans := 0 |>
    <| rb_phase := Ph_EmitLeaves |>.

Definition resume_after_plan (expected_node_payload_bytes : N) : Tick unit := λ s,
  if negb (bool_decide (rb_phase s = Ph_PlanReady)) then (Err (invalid "Tree v2 replacement plan is not ready"), s)
  else if negb (expected_node_payload_bytes =? bp_node_payload_bytes (rb_plan s))
  then (Err (invalid "Tree v2 replacement plan byte witness changed"), s)
  else (Ok tt, resume_plan_ready s).

Definition resume_after_output_memory_plan_v1 (expected_payload expected_peak expected_resident : N) : Tick unit := λ s,
  if negb (bool_decide (rb_phase s = Ph_PlanReady))
  then (Err (invalid "Tree v2 replacement output memory plan is not ready"), s)
  else
    let expected := rb_output_memory_plan s in
    if negb (expected_payload =? om_node_payload_bytes expected)
       || negb (expected_peak =? om_range_endpoint_peak_requested_bytes expected)
       || negb (expected_resident =? om_range_endpoint_resident_requested_bytes expected)
    then (Err (invalid "Tree v2 replacement output memory plan witness changed"), s)
    else (Ok tt, resume_plan_ready s).

Definition is_ready (s : State) : bool := bool_decide (rb_phase s = Ph_Ready).

Definition take_ready : Tick TransactionalTreeV2 := λ s,
  if negb (is_ready s) then (Err (invalid "replacement rebuild is not ready"), s)
  else match rb_root s with
       | None => (Err (invalid "verified replacement root is missing"), s)
       | Some root =>
           (Ok (from_verified_replacement root (rb_store s) (rb_vault_id s) (rb_device_id s)),
            s <| rb_root := None |> <| rb_store := ms_new |> <| rb_vault_id := [] |> <| rb_device_id := [] |>
              <| rb_phase := Ph_Retiring |>)
       end.
End rebuild.

(** * Taking a tick apart *)

Lemma st_bind_inv {S E A B} (m : St S E A) (f : A → St S E B) s b s' :
  st_bind m f s = (Ok b, s') → ∃ a s1, m s = (Ok a, s1) ∧ f a s1 = (Ok b, s').
Proof. unfold st_bind. destruct (m s) as [[a|e] s1]; [eauto|done]. Qed.

Lemma lifted_inv {S E A} (r : result E A) (s s' : S) a : st_lift r s = (Ok a, s') → s' = s ∧ r = Ok a.
Proof. unfold st_lift. by intros [= -> ->]. Qed.
Lemma st_ret_inv {S E A} (a b : A) (s s' : S) : st_ret (E := E) a s = (Ok b, s') → s' = s ∧ a = b.
Proof. unfold st_ret. by intros [= -> ->]. Qed.
Lemma put_inv f (s s' : ReplacementRebuildV2) a : put f s = (Ok a, s') → s' = f s.
Proof. unfold put. intros H. by apply (f_equal snd) in H. Qed.
Lemma try_get_inv {A} (f : ReplacementRebuildV2 → result ChunkError A) s s' a : try_get f s = (Ok a, s') → s' = s ∧ f s = Ok a.
Proof. unfold try_get. by intros [= -> ->]. Qed.
Lemma ok_inv {A} (a b : A) (s s' : ReplacementRebuildV2) : (@Ok ChunkError A a, s) = (Ok b, s') → s' = s ∧ a = b.
Proof. by intros [= -> ->]. Qed.

(** Taking a tick apart that returned. *)
Ltac tick_inv :=
  repeat match goal with
         | H : st_bind _ _ _ = (Ok _, _) |- _ => apply st_bind_inv in H as (? & ? & ? & H); cbn beta zeta in H
         | H : st_lift _ _ = (Ok _, _) |- _ => apply lifted_inv in H as [-> ?]
         | H : st_ret _ _ = (Ok _, _) |- _ => apply st_ret_inv in H as [-> ?]
         | H : st_err _ _ = (Ok _, _) |- _ => discriminate H
         | H : put _ _ = (Ok _, _) |- _ => apply put_inv in H as ->
         | H : try_get _ _ = (Ok _, _) |- _ => apply try_get_inv in H as [-> ?]
         | H : (let '(_, _) := ?p in _) _ = (Ok _, _) |- _ => destruct p; cbn beta iota in H
         | H : (if ?b then _ else _) _ = (Ok _, _) |- _ => destruct b eqn:?
         | H : (if ?b then _ else _) = (Ok _, _) |- _ => destruct b eqn:?
         | H : (Ok _, _) = (Ok _, _) |- _ => apply ok_inv in H as [-> ?]
         | H : (Err _, _) = (Ok _, _) |- _ => discriminate H
         | H : true = false |- _ => discriminate H
         end.

(** * Driving the builder *)
Section drive.
Context {B3 : Blake3}.
Abbreviation State := ReplacementRebuildV2.

(** A bound on the changes of the phase before the next unit. *)
Definition free_left (s : State) : nat :=
  match rb_phase s with
  | Ph_Sort => 8
  | Ph_ValidateEntries => 7
  | Ph_SegmentLeaves => 6
  | Ph_PlanLeafDescriptors => 5
  | Ph_PlanValidateRanges => if (rb_cursor s =? len (rb_planned_ranges s))%N then 4 else 0
  | Ph_PlanSegmentRanges => 3
  | Ph_PlanEmitParents => 2
  | Ph_PlanRetireRanges => 1
  | Ph_EmitLeaves => 1
  | Ph_ValidateRanges => if (rb_cursor s =? len (rb_ranges s))%N then 4 else 0
  | Ph_SegmentRanges => 3
  | Ph_EmitParents => 2
  | Ph_RetireRanges => 1
  | Ph_Closure => 3
  | Ph_CleanupClosure => 2
  | Ph_CleanupEntries => 1
  | _ => 0
  end%nat.

Lemma start_planned_free s s' :
  start_planned_range_level_or_root s = (Ok tt, s') → free_left s' = 0%nat.
Proof.
  unfold start_planned_range_level_or_root, st_bind, get. destruct (rb_planned_ranges s) as [|r [|r' rs]] eqn:E; intros H.
  1,2: by injection H as <-.
  cbn [put st_bind] in H. destruct (MAX_TREE_DEPTH <=? _); [done|]. injection H as <-.
  unfold free_left. cbn. rewrite E, !len_cons.
  by destruct (len rs).
Qed.

Lemma start_free s s' : start_range_level_or_root s = (Ok tt, s') → free_left s' = 0%nat.
Proof.
  unfold start_range_level_or_root, st_bind, get. destruct (rb_ranges s) as [|r [|r' rs]] eqn:E; intros H.
  1,2: cbn [put st_bind try_get] in H; unfold try_get in H; destruct (_ || _); [done|]; by injection H as <-.
  cbn [put st_bind] in H. destruct (MAX_TREE_DEPTH <=? _); [done|]. injection H as <-.
  unfold free_left. cbn. rewrite E, !len_cons. by destruct (len rs).
Qed.

Lemma free_decreases s s' : halted (rb_phase s) = false → tick s = (Ok false, s') → (free_left s' < free_left s)%nat.
Proof.
  unfold tick, free_left at 2. destruct (rb_phase s) eqn:Ep; cbn [halted]; try done; intros _ H.
  - unfold tick_sort in H. tick_inv. unfold free_left. cbn. lia.
  - unfold tick_validate_entries in H. tick_inv. unfold free_left. cbn. lia.
  - unfold tick_segment_leaves in H. tick_inv. unfold free_left. cbn. lia.
  - unfold tick_plan_leaf_descriptors in H. tick_inv. destruct x1. erewrite start_planned_free by done. lia.
  - unfold tick_plan_validate_ranges in H. tick_inv. unfold free_left. cbn. lia.
  - unfold tick_plan_segment_ranges in H. tick_inv. unfold free_left. cbn. lia.
  - unfold tick_plan_emit_parents in H. tick_inv. unfold free_left. cbn. lia.
  - unfold tick_plan_retire_ranges in H. destruct (last _); tick_inv. destruct x1. erewrite start_planned_free by done. lia.
  - unfold tick_plan_root in H. tick_inv. 
  - unfold tick_emit_leaves in H. tick_inv. destruct x1. erewrite start_free by done. lia.
  - unfold tick_validate_ranges in H. tick_inv. unfold free_left. cbn. lia.
  - unfold tick_segment_ranges in H. tick_inv. unfold free_left. cbn. lia.
  - unfold tick_emit_parents in H. tick_inv. unfold free_left. cbn. lia.
  - unfold tick_retire_ranges in H. destruct (last _); tick_inv. destruct x1. erewrite start_free by done. lia.
  - unfold tick_root in H. tick_inv.
  - unfold tick_closure in H. destruct (rb_closure s); [|done]. destruct (closure_tick _ _) as [[[]|] ?]; tick_inv. unfold free_left. cbn. lia.
  - unfold tick_cleanup_closure in H. destruct (rb_retiring_descriptors s); tick_inv. unfold free_left. cbn. lia.
  - unfold tick_cleanup_entries in H. destruct (last _); tick_inv. unfold free_left. cbn. lia.
Qed.

(** The fuel of [step] is enough: more changes nothing. *)
Lemma step_fuel max_units fuel fuel' units s :
  (9 * N.to_nat (max_units - units) + free_left s < fuel)%nat →
  (9 * N.to_nat (max_units - units) + free_left s < fuel')%nat →
  step_loop fuel max_units units s = step_loop fuel' max_units units s.
Proof.
  assert (∀ s, free_left s ≤ 8)%nat as H8.
  { intros s1. unfold free_left. destruct (rb_phase s1); try destruct (_ =? _); lia. }
  revert fuel' units s. induction fuel as [|fuel IH]; intros [|fuel'] units s1 H1 H2; [lia..|]. cbn [step_loop].
  destruct (N.ltb_spec units max_units) as [Hu|]; [|done]. cbn [andb].
  destruct (halted (rb_phase s1)) eqn:Eh; [done|]. cbn [negb]. destruct (tick s1) as [[[]|] s2] eqn:Et; [| |done].
  - destruct (checked_add64 _ _); [|done]. destruct (stop_after_unit _); [done|].
    apply IH; specialize (H8 (s2 <| rb_completed := n |>)); lia.
  - pose proof (free_decreases _ _ Eh Et). apply IH; lia.
Qed.
End drive.
