(* ===== verification/RebuildPlan.v ===== *)
(** The resumable construction of Tree v2 is the construction at once: driven
    with any positive budgets it announces the objects it will write, writes
    exactly them and ends with the tree of a rebuild. This file holds the
    notion of a run that leads somewhere and the planning half: sorted entries,
    leaf spans, and the planned nodes of every level. *)

From S2P Require Import Prelude Bytes Keyed Hash Chunk Concrete Store StoreProps TreeV1 TreeV1Build TreeV1Props TreeV2Codec TreeV2CodecProps TreeV2Segment TreeV2 TreeV2Build TreeV2Store TreeV2Props VersionedRoot TreeV2Diff TreeV2DiffProps Reachability ReachabilityProps StableSort Session Rebuild.
Local Open Scope N_scope.

(** * Driving the builder *)
Section leads.
Context {B3 : Blake3}.
Abbreviation State := ReplacementRebuildV2.
Implicit Types (Q R : State → Prop) (s : State).

(** At most [n] ticks, whatever the count of completed units is, lead to a
    state in [Q]. *)
Inductive leads Q : N → State → Prop :=
  | leads_here n s : Q s → leads Q n s
  | leads_tick n s b s' : halted (rb_phase s) = false → tick s = (Ok b, s') →
      (∀ c, leads Q n (s' <| rb_completed := c |>)) → leads Q (1 + n) s.

Lemma leads_weaken Q n m s : leads Q n s → n ≤ m → leads Q m s.
Proof.
  intros H. revert m. induction H as [n s HQ|n s b s' Hh Ht _ IH]; intros m Hm; [by apply leads_here|].
  replace m with (1 + (m - 1)) by lia. eapply leads_tick; [done..|]. intros c. apply IH. lia.
Qed.

Lemma leads_trans Q R n m s : leads Q n s → (∀ s, Q s → leads R m s) → leads R (n + m) s.
Proof.
  intros H Hm. induction H as [n s HQ|n s b s' Hh Ht _ IH].
  - eapply leads_weaken; [by apply Hm|lia].
  - rewrite <-N.add_assoc. by eapply leads_tick.
Qed.

(** A phase that handles the items of a list, one in a unit. *)
Lemma leads_loop (I : N → State → Prop) (k : N) :
  (∀ i s, i < k → I i s → ∃ b s', halted (rb_phase s) = false ∧ tick s = (Ok b, s') ∧
     ∀ c, I (i + 1) (s' <| rb_completed := c |>)) →
  ∀ s, I 0 s → leads (I k) k s.
Proof.
  intros Hstep. assert (∀ (n : nat) i s, i + N.of_nat n = k → I i s → leads (I k) (N.of_nat n) s) as H.
  { induction n as [|n IH]; intros i s Hi Hs.
    - apply leads_here. by replace k with i by lia.
    - destruct (Hstep i s) as (b & s' & Hh & Ht & Hn); [lia|done|].
      replace (N.of_nat (S n)) with (1 + N.of_nat n) by lia. eapply leads_tick; [done..|].
      intros c. apply (IH (i + 1)); [lia|done]. }
  intros s Hs. specialize (H (N.to_nat k) 0 s). rewrite N2Nat.id in H. apply H; [lia|done].
Qed.

Lemma leads_one Q s b s' :
  halted (rb_phase s) = false → tick s = (Ok b, s') → (∀ c, Q (s' <| rb_completed := c |>)) → leads Q 1 s.
Proof. intros Hh Ht HQ. eapply (leads_tick _ 0); [done..|]. intros c. by apply leads_here. Qed.

(** ** Steps of any size *)

Fixpoint run_steps (budgets : list N) (s : State) : result ChunkError unit * State :=
  match budgets with
  | [] => (Ok tt, s)
  | max_units :: budgets =>
      match step max_units s with (Ok _, s) => run_steps budgets s | (Err e, s) => (Err e, s) end
  end.

Lemma completed_eta s : s <| rb_completed := rb_completed s |> = s.
Proof. by destruct s. Qed.

Lemma start_planned_completed s a s' : start_planned_range_level_or_root s = (Ok a, s') → rb_completed s' = rb_completed s.
Proof.
  unfold start_planned_range_level_or_root, st_bind, get. intros H.
  destruct (rb_planned_ranges s) as [|? [|??]]; tick_inv; try done. cbn [put] in H. by tick_inv.
Qed.
Lemma start_completed s a s' : start_range_level_or_root s = (Ok a, s') → rb_completed s' = rb_completed s.
Proof.
  unfold start_range_level_or_root. intros H. apply st_bind_inv in H as (rs & s1 & Hg & H).
  unfold get in Hg. apply ok_inv in Hg as [-> _]. destruct rs as [|? [|??]]; tick_inv; done.
Qed.

(** The count of completed units belongs to [step]. *)
Lemma tick_completed s b s' : tick s = (Ok b, s') → rb_completed s' = rb_completed s.
Proof.
  unfold tick. destruct (rb_phase s); intros H; try discriminate H; try (apply ok_inv in H as [-> _]; done).
  all: cbv beta delta [tick_sort tick_validate_entries tick_segment_leaves tick_plan_leaf_descriptors tick_plan_validate_ranges
         tick_plan_segment_ranges tick_plan_emit_parents tick_plan_retire_ranges tick_plan_root tick_emit_leaves
         tick_validate_ranges tick_segment_ranges tick_emit_parents tick_retire_ranges tick_root tick_closure
         tick_cleanup_closure tick_cleanup_entries segment_record segment_planned_record add_planned_range_endpoint_bytes
         plan_add_node record_emitted_node] in H.
  all: repeat match type of H with match ?x with _ => _ end = _ => lazymatch x with _ => destruct x end end.
  all: tick_inv; try done.
  all: first [by erewrite start_planned_completed by done|by erewrite start_completed by done].
Qed.

Lemma leads_0 Q s : leads Q 0 s → Q s.
Proof. inversion 1; [done|lia]. Qed.

Lemma step_loop_leads Q fuel max_units units n s :
  (∀ s, Q s → halted (rb_phase s) = true) → leads Q n s → rb_completed s + n ≤ U64_MAX →
  ∃ u s' n', step_loop fuel max_units units s = (Ok u, s') ∧ leads Q n' s' ∧ rb_completed s' + n' ≤ rb_completed s + n ∧
    n' ≤ n ∧ ((0 < fuel)%nat → units < max_units → n' < n ∨ Q s' ∧ n' = 0).
Proof.
  intros HQ. revert units n s. induction fuel as [|fuel IH]; intros units n s Hl Hc.
  { exists units, s, n. split_and!; [done..|lia|lia]. }
  destruct Hl as [n s Hs|n s b s' Hh Ht Hl]; cbn [step_loop].
  { rewrite (HQ _ Hs), andb_false_r. exists units, s, 0. split_and!; [done|by apply leads_here|lia|lia|auto]. }
  destruct (N.ltb_spec units max_units) as [Hu|Hu]; cbn [andb].
  2: { exists units, s, (1 + n). split_and!; [done|by eapply leads_tick|done|lia|lia]. }
  rewrite Hh, Ht. cbn [negb]. pose proof (tick_completed _ _ _ Ht) as Ec.
  destruct b.
  - unfold checked_add64. rewrite Ec, (proj2 (N.leb_le _ _)) by lia.
    destruct (stop_after_unit _).
    + eexists _, _, n. split_and!; [done|apply Hl|cbn; lia|lia|lia].
    + destruct (IH (units + 1) n (s' <| rb_completed := rb_completed s + 1 |>)) as (u & s1 & n' & H1 & H2 & H3 & H4 & _);
        [done|cbn; lia|]. cbn in H3. exists u, s1, n'. split_and!; [done..|lia|lia|lia].
  - destruct (IH units n s') as (u & s1 & n' & H1 & H2 & H3 & H4 & _); [|lia|].
    { rewrite <-completed_eta. apply Hl. }
    exists u, s1, n'. split_and!; [done..|lia|lia|lia].
Qed.

Lemma step_leads Q max_units n s :
  (∀ s, Q s → halted (rb_phase s) = true) → 0 < max_units → leads Q n s → rb_completed s + n ≤ U64_MAX →
  ∃ u s' n', step max_units s = (Ok u, s') ∧ leads Q n' s' ∧ rb_completed s' + n' ≤ rb_completed s + n ∧
    (n' < n ∨ Q s' ∧ n' = 0).
Proof.
  intros HQ Hm Hl Hc. unfold step. rewrite (proj2 (N.eqb_neq _ _)) by lia.
  assert (∃ u s' n', step_loop (N.to_nat (9 * (max_units + 1))) max_units 0 s = (Ok u, s') ∧ leads Q n' s' ∧
    rb_completed s' + n' ≤ rb_completed s + n ∧ (n' < n ∨ Q s' ∧ n' = 0)) as H.
  { destruct (step_loop_leads Q (N.to_nat (9 * (max_units + 1))) max_units 0 n s) as (u & s' & n' & H1 & H2 & H3 & H4 & H5);
      [done..|]. exists u, s', n'. split_and!; [done..|]. apply H5; lia. }
  inversion Hl as [? ? HQs|? ? b s' Hh Ht]; subst.
  - destruct (rb_phase s) eqn:E; try exact H; [|by specialize (HQ s HQs); rewrite E in HQ..].
    exists 0, s, 0. split_and!; [done|by apply leads_here|lia|by right].
  - destruct (rb_phase s) eqn:E; try exact H; try discriminate Hh; unfold tick in Ht; rewrite E in Ht; discriminate.
Qed.

Lemma run_steps_leads Q n s budgets :
  (∀ s, Q s → halted (rb_phase s) = true) → leads Q n s → rb_completed s + n ≤ U64_MAX →
  Forall (λ b, 0 < b) budgets → n ≤ len budgets →
  ∃ s', run_steps budgets s = (Ok tt, s') ∧ Q s' ∧ rb_completed s' ≤ rb_completed s + n.
Proof.
  intros HQ Hl Hc Hb. revert n s Hl Hc. induction Hb as [|b bs Hb _ IH]; intros n s Hl Hc Hn; cbn [run_steps].
  { exists s. split_and!; [done| |lia]. apply leads_0. eapply leads_weaken; [done|]. by rewrite len_nil in Hn. }
  destruct (step_leads Q b n s) as (u & s' & n' & -> & H1 & H2 & H3); [done..|].
  destruct (IH n' s') as (s1 & E & HQ1 & Hc1); [done|lia| |].
  { rewrite len_cons in Hn. destruct H3 as [?|[_ ->]]; lia. }
  exists s1. split_and!; [done..|lia].
Qed.
End leads.

(** * Segmentation record by record *)
Section segments.
Context {A : Type} (k : SegmentKind) (rec : A → N * bytes).
Context (Hmax : 1 < sk_max_records k) (Hhdr : sk_header_bytes k ≤ MAX_NODE_BYTES).
Implicit Types (l g : list A) (gs : list (list A)).

(** The spans of consecutive groups that start at [base]. *)
Fixpoint spans_of (base : N) gs : list Span :=
  match gs with
  | [] => []
  | g :: gs => {| sp_start := base; sp_end := base + len g; sp_bytes := weight k rec g |} :: spans_of (base + len g) gs
  end.

Lemma spans_of_app base gs gs' : spans_of base (gs ++ gs') = spans_of base gs ++ spans_of (base + len (concat gs)) gs'.
Proof.
  revert base. induction gs as [|g gs IH]; intros base; cbn [spans_of app concat].
  - by rewrite len_nil, N.add_0_r.
  - by rewrite IH, len_app, N.add_assoc.
Qed.

Lemma length_spans base gs : len (spans_of base gs) = len gs.
Proof. revert base. induction gs as [|g gs IH]; intros base; [done|]. cbn [spans_of]. by rewrite !len_cons, IH. Qed.

Lemma spans_lookup base gs i g :
  gs !! i = Some g → spans_of base gs !! i =
    Some {| sp_start := base + len (concat (take i gs)); sp_end := base + len (concat (take i gs)) + len g;
            sp_bytes := weight k rec g |}.
Proof.
  revert base i. induction gs as [|g' gs IH]; intros base [|i] H; [done..| |].
  - injection H as ->. cbn. by rewrite len_nil, N.add_0_r.
  - cbn [spans_of take concat]. rewrite lookup_cons_ne_0 by done. cbn [pred]. rewrite (IH _ i) by done.
    by rewrite len_app, !N.add_assoc.
Qed.

Lemma slice_span gs i g (sp := {| sp_start := len (concat (take i gs)); sp_end := len (concat (take i gs)) + len g;
                                  sp_bytes := weight k rec g |}) :
  gs !! i = Some g → span_slice (concat gs) sp = g.
Proof.
  intros H. rewrite <-(take_drop_middle gs i g H) at 1. rewrite concat_app. cbn [concat].
  unfold span_slice, sp, len. cbn [sp_start sp_end].
  replace (N.to_nat (_ - _)) with (length g) by lia. by rewrite Nat2N.id, drop_app_length, take_app_length.
Qed.

(** The registers of the segmentation after the records of [l]. *)
Definition registers l : N * N * list Span :=
  let '(gs, cur) := run_cut k rec l in (len (concat gs), weight k rec cur, spans_of 0 gs).

Lemma registers_nil : registers [] = (0, sk_header_bytes k, []).
Proof. unfold registers, run_cut. cbn. by rewrite weight_nil. Qed.

Lemma segment_step_cut m1 m2 l x :
  Forall (record_fits k rec) (l ++ [x]) →
  segment_step k m1 m2 (len l) (rec x).1 (rec x).2 (registers l) = Ok (registers (l ++ [x])).
Proof.
  intros [Hl Hx]%Forall_app. apply Forall_cons in Hx as [Hx _]. pose proof (run_cut_spec k rec Hmax Hhdr l Hl) as Hs.
  unfold registers. unfold run_cut at 2. rewrite fold_left_app. fold (run_cut k rec l). cbn [fold_left].
  destruct (run_cut k rec l) as [gs cur]. destruct Hs as (El & Hgs & Ho).
  assert ((rec x).1 ≤ MAX_NODE_BYTES) as Hx' by (unfold record_fits in Hx; lia).
  assert (len l = len (concat gs) + len cur) as -> by (by rewrite <-El, len_app).
  unfold segment_step, saturating_add64 at 1. rewrite N.min_l by (unfold record_fits, MAX_NODE_BYTES, U64_MAX in *; lia).
  rewrite (proj2 (N.ltb_ge _ _)) by done. rewrite overflows_code by (done || apply Ho).
  unfold cut_step. pose proof (cut_before_spec k rec Hmax Hhdr (gs, cur) x Hx Hgs Ho) as Hb.
  assert ((if overflows k rec cur x then
       (len (concat gs) + len cur, sk_header_bytes k,
        spans_of 0 gs ++ [{| sp_start := len (concat gs); sp_end := len (concat gs) + len cur; sp_bytes := weight k rec cur |}])
     else (len (concat gs), weight k rec cur, spans_of 0 gs)) =
    let r := cut_before k rec (gs, cur) x in (len (concat r.1), weight k rec r.2, spans_of 0 r.1)) as ->.
  { unfold cut_before. cbn [fst snd]. destruct (overflows k rec cur x); [|done]. cbn zeta. cbn [fst snd].
    rewrite spans_of_app, weight_nil, concat_app, len_app. cbn [concat spans_of]. by rewrite app_nil_r, N.add_0_l. }
  destruct (cut_before k rec (gs, cur) x) as [gs1 cur1]. cbn [fst snd] in *. destruct Hb as (E & Hgs1 & Ho1 & Hw).
  unfold checked_add64. rewrite (proj2 (N.leb_le _ _)) by (unfold MAX_NODE_BYTES, U64_MAX in *; lia).
  cbn [ok_or]. rewrite <-weight_snoc.
  assert (len (concat gs) + len cur = len (concat gs1) + len cur1) as ->.
  { apply (f_equal len) in E. rewrite !len_app in E. lia. }
  unfold cut_push. cbn [fst snd].
  assert (len (concat gs1) + len cur1 - len (concat gs1) + 1 = len (cur1 ++ [x])) as ->
    by (rewrite len_app, len_cons, len_nil; lia).
  destruct (closes k _ _ _).
  - rewrite spans_of_app, weight_nil, len_concat_snoc, len_snoc. cbn [spans_of]. by rewrite N.add_0_l, len_snoc, !N.add_assoc.
  - done.
Qed.

Lemma open_span_cut l :
  Forall (record_fits k rec) l →
  let '(start, size, spans) := registers l in open_span start size (len l) spans = spans_of 0 (cut k rec l).
Proof.
  intros Hl. pose proof (run_cut_spec k rec Hmax Hhdr l Hl) as Hs. unfold registers, cut.
  destruct (run_cut k rec l) as [gs cur]. destruct Hs as (El & _ & _).
  assert (len l = len (concat gs) + len cur) as -> by (by rewrite <-El, len_app). unfold open_span.
  destruct cur as [|y cur].
  - rewrite len_nil, N.add_0_r, N.ltb_irrefl. done.
  - rewrite (proj2 (N.ltb_lt _ _)) by (rewrite len_cons; lia). rewrite spans_of_app. done.
Qed.
End segments.

(** * The plan *)
Section planned.
Context {B3 : Blake3}.

(** The first and the last entry of a tree carry its end points. *)
Record shaped (t : rtree) : Prop := {
  sh_first : ∃ e, head (t_entries t) = Some e ∧ fe_path e = rr_min_path (t_ref t);
  sh_last : ∃ e, last (t_entries t) = Some e ∧ fe_path e = rr_max_path (t_ref t);
  sh_count : rr_file_count (t_ref t) = len (t_entries t);
}.

Lemma shaped_leaf g : g ≠ [] → shaped (RLeaf g).
Proof.
  intros Hg. assert (t_entries (RLeaf g) = g) as E by apply app_nil_r. split; rewrite E; [| |done].
  - destruct g as [|e g]; [done|]. by exists e.
  - destruct g as [|e g]; [done|]. exists (List.last g e). split; [|done].
    destruct g as [|x g _] using rev_ind; [done|]. by rewrite app_comm_cons, last_snoc, List.last_last.
Qed.

Lemma shaped_nonempty t : shaped t → 1 ≤ len (t_entries t).
Proof. intros [(e & He & _) _ _]. destruct (t_entries t); [done|]. rewrite len_cons. lia. Qed.

Lemma shaped_sum cs : Forall shaped cs → sum_files (t_ref <$> cs) = len (f_entries cs).
Proof.
  unfold sum_files. induction 1 as [|t cs Ht _ IH]; [done|]. rewrite len_f_cons. csimpl. rewrite (sh_count _ Ht).
  by rewrite IH.
Qed.

Lemma shaped_node h cs : cs ≠ [] → Forall shaped cs → shaped (RNode h cs).
Proof.
  intros Hne Hcs. pose proof (shaped_sum cs Hcs) as Hsum. split; rewrite t_entries_node.
  - destruct cs as [|c cs]; [done|]. apply Forall_cons in Hcs as [[(e & He & Hp) _ _] _].
    exists e. split; [|by cbn]. unfold f_entries. csimpl. by destruct (t_entries c).
  - destruct cs as [|c cs _] using rev_ind; [done|]. apply Forall_app in Hcs as [_ Hc].
    apply Forall_cons in Hc as [[_ (e & He & Hp) _] _]. exists e. split.
    + rewrite f_entries_app. unfold f_entries at 2. csimpl. rewrite app_nil_r, last_app, He. done.
    + rewrite Hp. cbn [t_ref parent_ref rr_max_path]. change (map t_ref (cs ++ [c])) with (t_ref <$> (cs ++ [c])).
      rewrite fmap_app. csimpl. destruct (t_ref <$> cs) as [|r rs]; [done|]. cbn [app]. by rewrite List.last_last.
  - done.
Qed.

(** The ranges of a level that are planned, as positions of entries. *)
Definition planned_one (base : N) (t : rtree) : PlannedRange :=
  {| pr_min_entry := base; pr_max_entry := base + len (t_entries t) - 1; pr_file_count := len (t_entries t);
     pr_serialized_bytes := rr_serialized_bytes (t_ref t); pr_height := rr_height (t_ref t) |}.
Fixpoint planned (base : N) (ts : list rtree) : list PlannedRange :=
  match ts with [] => [] | t :: ts => planned_one base t :: planned (base + len (t_entries t)) ts end.

Lemma planned_app base ts us : planned base (ts ++ us) = planned base ts ++ planned (base + len (f_entries ts)) us.
Proof.
  revert base. induction ts as [|t ts IH]; intros base; cbn [planned app].
  - unfold f_entries. cbn. by rewrite len_nil, N.add_0_r.
  - by rewrite IH, len_f_cons, N.add_assoc.
Qed.
Lemma len_planned base ts : len (planned base ts) = len ts.
Proof. revert base. induction ts as [|t ts IH]; intros base; [done|]. cbn [planned]. by rewrite !len_cons, IH. Qed.
Lemma length_planned base ts : length (planned base ts) = length ts.
Proof. pose proof (len_planned base ts). unfold len in *. lia. Qed.
Lemma planned_lookup base ts i t :
  ts !! i = Some t → planned base ts !! i = Some (planned_one (base + len (f_entries (take i ts))) t).
Proof.
  intros H. rewrite <-(take_drop_middle ts i t H) at 1. rewrite planned_app, lookup_app_r; rewrite length_planned, length_take_le;
    try (apply lookup_lt_Some in H; lia). by rewrite Nat.sub_diag.
Qed.

(** The slice of the planned ranges under a span of a level. *)
Lemma planned_slice gs i g (sp := {| sp_start := len (concat (take i gs)); sp_end := len (concat (take i gs)) + len g;
                                     sp_bytes := weight internal_kind tree_record g |}) :
  gs !! i = Some g → span_slice (planned 0 (concat gs)) sp = planned (len (f_entries (concat (take i gs)))) g.
Proof.
  intros H. rewrite <-(take_drop_middle gs i g H) at 1. rewrite concat_app. cbn [concat]. rewrite !planned_app.
  unfold span_slice, sp. cbn [sp_start sp_end]. unfold len at 1 2 3 4 5.
  replace (N.to_nat (_ - _)) with (length (planned (0 + len (f_entries (concat (take i gs)))) g)) by (rewrite length_planned; lia).
  rewrite Nat2N.id, drop_app_length' by (by rewrite length_planned). by rewrite take_app_length, N.add_0_l.
Qed.

Lemma planned_head base g : g ≠ [] → ∃ r, planned base g !! 0%nat = Some r ∧ pr_min_entry r = base.
Proof. destruct g; [done|]. intros _. eexists. split; [done|]. done. Qed.

Lemma planned_last base g :
  g ≠ [] → Forall shaped g →
  ∃ r, index (planned base g) (len (planned base g) - 1) = Ok r ∧ pr_max_entry r = base + len (f_entries g) - 1.
Proof.
  intros Hne Hg. destruct g as [|t g _] using rev_ind; [done|]. rewrite len_planned, planned_app, f_entries_app.
  apply Forall_app in Hg as [_ Ht]. apply Forall_cons in Ht as [Ht%shaped_nonempty _].
  exists (planned_one (base + len (f_entries g)) t). unfold index. rewrite len_app. change (len [t]) with 1.
  rewrite lookup_app_r; rewrite length_planned; unfold len; [|lia].
  replace (_ - _)%nat with 0%nat by lia. split; [done|]. cbn [pr_max_entry planned_one].
  unfold f_entries at 3. cbn [fmap list_fmap concat]. rewrite app_nil_r, length_app. unfold len. lia.
Qed.

Lemma planned_count base g :
  len (f_entries g) ≤ U64_MAX → try_sum 0 (pr_file_count <$> planned base g) = Some (len (f_entries g)).
Proof.
  intros Hl. assert (foldr N.add 0 (pr_file_count <$> planned base g) = len (f_entries g)) as E.
  { clear. revert base. induction g as [|t g IH]; intros base; [done|]. cbn [planned]. rewrite len_f_cons. csimpl. by rewrite IH. }
  rewrite try_sum_Some; rewrite E; [by f_equal|lia].
Qed.
End planned.

(** * Plan totals *)
Section totals.

Definition total (xs : list N) : N := foldr N.add 0 xs.
Lemma total_app xs ys : total (xs ++ ys) = total xs + total ys.
Proof. unfold total. induction xs as [|x xs IH]; [done|]. cbn. rewrite IH. lia. Qed.
Lemma total_bound b xs : Forall (λ x, x ≤ b) xs → total xs ≤ b * len xs.
Proof. induction 1 as [|x xs Hx _ IH]; [cbn; lia|]. unfold total in *. cbn [foldr]. rewrite len_cons. lia. Qed.
Definition max_of (xs : list N) : N := foldr N.max 0 xs.
Lemma max_of_snoc xs x : max_of (xs ++ [x]) = N.max (max_of xs) x.
Proof. unfold max_of. induction xs as [|y xs IH]; cbn [app foldr]; [lia|]. rewrite IH. lia. Qed.

(** The plan of leaves and internal nodes of the given sizes. *)
Definition plan_for (leaves internals : list N) : ReplacementBuildPlanV2 :=
  {| bp_node_count := len leaves + len internals; bp_leaf_count := len leaves; bp_internal_count := len internals;
     bp_node_payload_bytes := total (leaves ++ internals); bp_max_node_bytes := max_of (leaves ++ internals);
     bp_stored_root_bytes := 0 |}.

Definition node_small (x : N) : Prop := x ≤ MAX_NODE_BYTES.

Lemma add_node_run leaves internals x (leaf : bool) (ls := if leaf then leaves ++ [x] else leaves)
    (ns := if leaf then internals else internals ++ [x]) :
  (leaf = true → internals = []) →
  Forall node_small (leaves ++ internals) → node_small x → len leaves + len internals < 317464 →
  add_node (plan_for leaves internals) x leaf = Ok (plan_for ls ns).
Proof.
  intros Hleaf Hs Hx Hl. pose proof (total_bound _ _ Hs) as Hsum. rewrite len_app in Hsum. unfold node_small, MAX_NODE_BYTES in Hx, Hsum.
  assert (ls ++ ns = (leaves ++ internals) ++ [x]) as E.
  { unfold ls, ns. destruct leaf; [rewrite Hleaf by done|]; by rewrite ?app_nil_r, <-?app_assoc. }
  unfold add_node, checked_add64. cbn [bp_node_count plan_for].
  rewrite (proj2 (N.leb_le _ _)) by (unfold U64_MAX; lia). cbn [ok_or].
  rewrite (proj2 (N.ltb_ge _ _)) by (unfold MAX_VISITED_NODES; lia).
  assert (x mod 2 ^ 32 = x) as Em by (apply N.mod_small; change (2 ^ 32) with 4294967296; lia).
  assert (plan_for ls ns = {| bp_node_count := len ls + len ns; bp_leaf_count := len ls; bp_internal_count := len ns;
    bp_node_payload_bytes := total (leaves ++ internals) + x; bp_max_node_bytes := N.max (max_of (leaves ++ internals)) x;
    bp_stored_root_bytes := 0 |}) as ->.
  { unfold plan_for. rewrite E, total_app, max_of_snoc. change (total [x]) with (x + 0). by rewrite N.add_0_r. }
  destruct leaf; cbn [bp_leaf_count bp_internal_count plan_for].
  all: rewrite (proj2 (N.leb_le _ _)) by (unfold U64_MAX; lia); cbn [ok_or].
  all: cbn -[total max_of N.modulo N.max U64_MAX]; rewrite (proj2 (N.leb_le _ _)) by (unfold U64_MAX; lia); cbn [ok_or].
  all: rewrite Em; f_equal; unfold ls, ns; rewrite ?len_snoc.
  - by replace (len leaves + 1 + len internals) with (len leaves + len internals + 1) by lia.
  - by rewrite N.add_assoc.
Qed.
End totals.

(** * Levels *)
Section level.
Context {B3 : Blake3} (es : list FileEntry) (Hes : entries_ok es).

Record level (h : N) (ts : list rtree) : Prop := {
  lv_refs : refs_ok h (t_ref <$> ts);
  lv_entries : f_entries ts = es;
  lv_shaped : Forall shaped ts;
}.

Lemma leaf_level_level : level 0 (leaf_level es).
Proof.
  destruct (leaf_level_groups es Hes) as (Hc & Hf & _). split; [by apply leaf_level_ok| |].
  - unfold f_entries, leaf_level. rewrite <-list_fmap_compose. rewrite <-Hc at 2. f_equal.
    rewrite <-(list_fmap_id (cut _ _ _)) at 2. apply list_fmap_ext. intros _ g _. apply app_nil_r.
  - unfold leaf_level. apply Forall_fmap. eapply Forall_impl; [exact Hf|]. intros g [Hg _]. by apply shaped_leaf.
Qed.

Lemma next_level_level h ts : h < MAX_TREE_DEPTH → level h ts → level (h + 1) (next_level h ts).
Proof.
  intros Hh [Hr He Hs]. destruct (level_groups h ts Hr) as [Hc Hg]. split; [by apply next_level_ok| |].
  - rewrite <-He. unfold next_level. rewrite <-Hc at 2. unfold f_entries. rewrite fmap_concat, <-list_fmap_compose.
    clear. induction (cut _ _ _) as [|g gs IH]; [done|]. csimpl. rewrite IH, t_entries_node, concat_app. done.
  - unfold next_level. apply Forall_fmap. rewrite <-Hc in Hs. rewrite Forall_concat in Hs. rewrite Forall_forall in Hs, Hg |- *.
    intros g Hin. apply shaped_node; [by apply Hg|by apply Hs].
Qed.

Lemma path_bound e : e ∈ es → len (fe_path e) ≤ 4096.
Proof.
  destruct Hes as [(_ & Hv & _)%validate_entries_ok _]. rewrite Forall_forall in Hv. intros He%Hv.
  by apply validate_path_len in He as [_ ?].
Qed.

(** The end points of a tree of the level are the paths of the planned entries. *)
Lemma level_endpoints h ts i t (base := len (f_entries (take i ts))) :
  level h ts → ts !! i = Some t →
  (∃ e, e ∈ es ∧ index es base = Ok e ∧ fe_path e = rr_min_path (t_ref t)) ∧
  (∃ e, e ∈ es ∧ index es (base + len (t_entries t) - 1) = Ok e ∧ es !! N.to_nat (base + len (t_entries t) - 1) = Some e ∧
        fe_path e = rr_max_path (t_ref t)) ∧
  es !! N.to_nat base = (head (t_entries t)) ∧ base + len (t_entries t) ≤ len es.
Proof.
  intros [_ He Hs] Ht. pose proof (take_drop_middle ts i t Ht) as Ets. rewrite <-Ets in He.
  change (t :: drop (S i) ts) with ([t] ++ drop (S i) ts) in He. rewrite !f_entries_app in He. fold base in He.
  assert (f_entries [t] = t_entries t) as E1 by apply app_nil_r. rewrite E1 in He.
  rewrite Forall_forall in Hs. pose proof (Hs t) as Hst. destruct Hst as [(e & Hh & Hp) (e' & Hl & Hp') _]; [by eapply list_elem_of_lookup_2|].
  assert (es !! N.to_nat base = Some e) as L1.
  { rewrite <-He. unfold base, len. rewrite Nat2N.id, lookup_app_r, Nat.sub_diag by lia. by destruct (t_entries t). }
  assert (es !! N.to_nat (base + len (t_entries t) - 1) = Some e') as L2.
  { rewrite <-He. apply last_Some in Hl as [l Hl]. rewrite Hl. rewrite lookup_app_r; unfold base, len; rewrite length_app; cbn [length]; [|lia].
    rewrite <-app_assoc, lookup_app_r by lia. cbn [app]. replace (_ - _ - _)%nat with 0%nat by lia. done. }
  split_and!.
  - exists e. split_and!; [by eapply list_elem_of_lookup_2| |done]. unfold index. by rewrite L1.
  - exists e'. split_and!; [by eapply list_elem_of_lookup_2| |done|done]. unfold index. by rewrite L2.
  - by rewrite L1, Hh.
  - rewrite <-He, !len_app. unfold base. lia.
Qed.
End level.


(** ** The monadic steps of the segmentation *)
Section segment_runs.
Context {A : Type} (k : SegmentKind) (rec : A → N * bytes).
Context (Hmax : 1 < sk_max_records k) (Hhdr : sk_header_bytes k ≤ MAX_NODE_BYTES).

Lemma segment_record_run l i x s :
  l !! N.to_nat i = Some x → Forall (record_fits k rec) l →
  (rb_segment_start s, rb_segment_bytes s, rb_spans s) = registers k rec (take (N.to_nat i) l) →
  let r := registers k rec (take (N.to_nat (i + 1)) l) in
  segment_record k i (rec x).1 (rec x).2 s =
    (Ok tt, s <| rb_segment_start := r.1.1 |> <| rb_segment_bytes := r.1.2 |> <| rb_spans := r.2 |>).
Proof.
  intros Hx Hl Hreg. unfold segment_record, st_bind, try_get. rewrite Hreg.
  replace (N.to_nat (i + 1)) with (S (N.to_nat i)) by lia. rewrite (take_S_r _ _ _ Hx).
  assert (i = len (take (N.to_nat i) l)) as Ei.
  { apply lookup_lt_Some in Hx. unfold len. rewrite length_take_le by lia. lia. }
  rewrite Ei at 1. rewrite segment_step_cut; [|done..|rewrite <-(take_S_r _ _ _ Hx); by apply Forall_take].
  generalize (registers k rec (take (N.to_nat i) l ++ [x])). intros [[??]?]. reflexivity.
Qed.

Lemma segment_planned_run l i x s :
  k = internal_kind → l !! N.to_nat i = Some x → Forall (record_fits k rec) l →
  (rb_segment_start s, rb_segment_bytes s, rb_planned_spans s) = registers k rec (take (N.to_nat i) l) →
  let r := registers k rec (take (N.to_nat (i + 1)) l) in
  segment_planned_record i (rec x).1 (rec x).2 s =
    (Ok tt, s <| rb_segment_start := r.1.1 |> <| rb_segment_bytes := r.1.2 |> <| rb_planned_spans := r.2 |>).
Proof.
  intros Ek Hx Hl Hreg. unfold segment_planned_record, st_bind, try_get. rewrite Hreg.
  replace (N.to_nat (i + 1)) with (S (N.to_nat i)) by lia. rewrite (take_S_r _ _ _ Hx).
  assert (i = len (take (N.to_nat i) l)) as Ei.
  { apply lookup_lt_Some in Hx. unfold len. rewrite length_take_le by lia. lia. }
  rewrite Ei at 1. rewrite <-Ek, segment_step_cut; [|done..|rewrite <-(take_S_r _ _ _ Hx); by apply Forall_take].
  generalize (registers k rec (take (N.to_nat i) l ++ [x])). intros [[??]?]. reflexivity.
Qed.
End segment_runs.

Section plan.
Context {B3 : Blake3} (entries : list FileEntry) (vault_id device_id : bytes).
Abbreviation es := (sort_by fe_path entries).
Context (Hes : entries_ok es).
Abbreviation State := ReplacementRebuildV2.
Implicit Types s : State.

Lemma entries_bound : len es ≤ 10000000.
Proof. destruct Hes as [(Hl & _)%validate_entries_ok _]. exact Hl. Qed.

(** What planning does not touch. *)
Definition frame s :=
  (rb_entries s, rb_entries_owned s, rb_store s, (rb_ranges s, rb_ranges_allocated s),
   (rb_next_ranges s, rb_next_ranges_allocated s), (rb_emitted_nodes s, rb_emitted_payload_bytes s),
   (rb_vault_id s, rb_device_id s)).
Definition planning_frame : _ :=
  (es, true, ms_new, ([] : list RangeRef, false), ([] : list RangeRef, false), (0, 0), (vault_id, device_id)).

Lemma frame_entries s : frame s = planning_frame → rb_entries s = es.
Proof. by intros [=]. Qed.

(** ** Sorting and validation *)

Definition untouched s : Prop :=
  rb_planned_ranges s = [] ∧ rb_planned_internal_spans s = [].

Definition at_entries (p : Phase) (i : N) s : Prop :=
  frame s = planning_frame ∧ untouched s ∧ rb_spans s = [] ∧ rb_phase s = p ∧ rb_cursor s = i.

Definition sorting s : Prop :=
  frame s = ([], false, ms_new, ([], false), ([], false), (0, 0), (vault_id, device_id)) ∧ untouched s ∧ rb_spans s = [] ∧ rb_phase s = Ph_Sort.

Lemma sort_unit so s :
  sort_inv fe_path entries so → rb_sorter s = Some so → sorting s →
  ∃ b s', tick s = (Ok b, s') ∧
    ∀ c, at_entries Ph_ValidateEntries 0 (s' <| rb_completed := c |>) ∨
      sorting (s' <| rb_completed := c |>) ∧
      ∃ so', rb_sorter s' = Some so' ∧ sort_inv fe_path entries so' ∧ (units_left entries so' < units_left entries so)%nat.
Proof.
  intros Hi Hs (Hf & Hu & Hsp & Hp). destruct (tick_progress fe_path entries so Hi) as (b & so' & Ht & Hb).
  unfold tick. rewrite Hp. unfold tick_sort, st_bind, try_get. rewrite Hs. cbn [ok_or]. unfold st_lift. rewrite Ht.
  cbn [ok_or]. unfold put at 1. destruct b.
  - destruct Hb as [Hi' Hlt]. eexists _, _. split; [done|]. intros c. right. split; [done|]. by exists so'.
  - rewrite Hb. cbn [ok_or]. unfold put at 1. rewrite (proj2 (N.ltb_ge _ _)) by apply entries_bound.
    eexists _, _. split; [done|]. intros c. left. injection Hf as F1 F2 F3 F4 F5 F6 F7 F8 F9 F10 F11.
    split_and!; try done. unfold frame, planning_frame. cbn. by rewrite F3, F4, F5, F6, F7, F8, F9, F10, F11.
Qed.

Lemma sort_leads s :
  sorting s → rb_sorter s = Some (sort_new entries) →
  leads (at_entries Ph_ValidateEntries 0) (len es * len es + 6 * len es + 3) s.
Proof.
  assert (∀ n so s, sort_inv fe_path entries so → (units_left entries so < n)%nat → rb_sorter s = Some so → sorting s →
    leads (at_entries Ph_ValidateEntries 0) (N.of_nat n) s) as H.
  { induction n as [|n IH]; intros so s' Hi Hn Hs Hso; [lia|].
    destruct (sort_unit so s' Hi Hs Hso) as (b & s1 & Ht & Hb).
    replace (N.of_nat (S n)) with (1 + N.of_nat n) by lia. eapply leads_tick; [by destruct Hso as (_ & _ & _ & ->)|done|].
    intros c. destruct (Hb c) as [Hd|(Hso' & so' & E & Hi' & Hlt)]; [by apply leads_here|]. apply (IH so'); [done|lia|done..]. }
  intros Hso Hs. eapply leads_weaken; [eapply (H (length entries * length entries + 6 * length entries + 3)%nat); [apply sort_new_inv| |done..]|].
  - unfold units_left. cbn. lia.
  - pose proof (length_sort_by fe_path entries). unfold len. lia.
Qed.

(** ** Leaves *)

Definition segmenting (i : N) s : Prop :=
  frame s = planning_frame ∧ untouched s ∧ rb_phase s = Ph_SegmentLeaves ∧ rb_cursor s = i ∧
  (rb_segment_start s, rb_segment_bytes s, rb_spans s) = registers leaf_kind entry_record (take (N.to_nat i) es).

Lemma validate_entries_leads s :
  at_entries Ph_ValidateEntries 0 s → leads (segmenting 0) (len es + 1) s.
Proof.
  intros H0. eapply leads_trans; [eapply (leads_loop (at_entries Ph_ValidateEntries) (len es)); [|exact H0]|].
  - intros i s1 Hi (Hf & Hu & Hsp & Hp & Hc). destruct (lookup_lt_is_Some_2 es (N.to_nat i)) as [e He]; [unfold len in Hi; lia|].
    destruct Hes as [(_ & Hv & Hso)%validate_entries_ok _]. rewrite Forall_forall in Hv.
    exists true. eexists. rewrite Hp. split_and!; [done| |].
    + unfold tick. rewrite Hp. unfold tick_validate_entries. rewrite Hc, (frame_entries _ Hf), (proj2 (N.eqb_neq _ _)) by lia.
      unfold index. rewrite He. cbn [ok_or]. erewrite st_bind_run by done.
      rewrite Hv by (by eapply list_elem_of_lookup_2). erewrite st_bind_run by done.
      erewrite st_bind_run; [done|]. unfold st_lift. f_equal. destruct (N.ltb_spec 0 i); [|done].
      destruct (lookup_lt_is_Some_2 es (N.to_nat (i - 1))) as [e' He']; [unfold len in Hi; lia|]. rewrite He'. cbn [ok_or].
      unfold check. rewrite (proj2 (blt_true _ _)); [done|].
      eapply (StronglySorted_lookup_lt (key_lt fe_path) es _ _ e' e); [exact Hso| |done..]. lia.
    + intros c. split_and!; try done. cbn. by rewrite Hc.
  - intros s1 (Hf & Hu & Hsp & Hp & Hc). eapply leads_one; [by rewrite Hp| |].
    + unfold tick. rewrite Hp. unfold tick_validate_entries. rewrite Hc, (frame_entries _ Hf), N.eqb_refl. done.
    + intros c. split_and!; try done. rewrite take_0, registers_nil. cbn. by rewrite Hsp.
Qed.

Abbreviation groups := (cut leaf_kind entry_record es).
Definition leaf_sizes : list N := len <$> leaves_bytes es.

(** What is planned: a level, the sizes of the nodes so far, and the spans of
    the internal ones. *)
Definition planning (ts : list rtree) (ls ns : list N) (spans : list PlannedInternalSpan) s : Prop :=
  frame s = planning_frame ∧ rb_leaf_spans s = spans_of leaf_kind entry_record 0 groups ∧
  rb_planned_ranges s = planned 0 ts ∧ rb_planned_internal_spans s = spans ∧ rb_plan s = plan_for ls ns ∧
  Forall node_small (ls ++ ns) ∧ rb_planned_range_endpoint_requested_bytes s ≤ 8192 * (len ls + len ns).

Definition describing (i : N) s : Prop :=
  planning (take (N.to_nat i) (leaf_level es)) (take (N.to_nat i) leaf_sizes) [] [] s ∧
  rb_phase s = Ph_PlanLeafDescriptors ∧ rb_cursor s = i.

Lemma segment_leaves_leads s : segmenting 0 s → leads (describing 0) (len es + 1) s.
Proof.
  intros H0. destruct (entries_fit es Hes) as [Hfit _]. destruct leaf_kind_ok as [K1 K2].
  eapply leads_trans; [eapply (leads_loop segmenting (len es)); [|exact H0]|].
  - intros i s1 Hi (Hf & Hu & Hp & Hc & Hreg). destruct (lookup_lt_is_Some_2 es (N.to_nat i)) as [e He]; [unfold len in Hi; lia|].
    exists true. eexists. rewrite Hp. split_and!; [done| |].
    + unfold tick. rewrite Hp. unfold tick_segment_leaves. rewrite Hc, (frame_entries _ Hf), (proj2 (N.eqb_neq _ _)) by lia.
      unfold index. rewrite He. cbn [ok_or]. erewrite st_bind_run by done.
      erewrite st_bind_run by (by apply (segment_record_run leaf_kind entry_record K1 K2 es i e)). done.
    + intros c. split_and!; try done; [cbn; by rewrite Hc|]. cbn. by rewrite <-!surjective_pairing.
  - intros s1 (Hf & Hu & Hp & Hc & Hreg). eapply leads_one; [by rewrite Hp| |].
    + unfold tick. rewrite Hp. unfold tick_segment_leaves. rewrite Hc, (frame_entries _ Hf), N.eqb_refl. done.
    + intros c. destruct Hu as [Hu1 Hu2]. split_and!; try done; cbn.
      pose proof (open_span_cut leaf_kind entry_record K1 K2 es Hfit) as Ho.
      rewrite firstn_all2 in Hreg by (unfold len; lia). by rewrite <-Hreg in Ho.
Qed.

(** ** Descriptors *)
Context (Htotal : len (written es) ≤ 317464).

Lemma endpoints_run s i j e e' :
  frame s = planning_frame → e ∈ es → e' ∈ es → index es i = Ok e → index es j = Ok e' →
  rb_planned_range_endpoint_requested_bytes s ≤ 8192 * 317464 →
  add_planned_range_endpoint_bytes i j s =
    (Ok tt, s <| rb_planned_range_endpoint_requested_bytes :=
               rb_planned_range_endpoint_requested_bytes s + (len (fe_path e) + len (fe_path e')) |>).
Proof.
  intros Hf He%(path_bound _ Hes) He'%(path_bound _ Hes) Hi Hj Hb.
  unfold add_planned_range_endpoint_bytes, st_bind, try_get. rewrite (frame_entries _ Hf), Hi, Hj.
  unfold endpoint_pair_bytes, checked_add64. rewrite (proj2 (N.leb_le _ _)) by (unfold U64_MAX; lia). cbn [ok_or].
  rewrite (proj2 (N.leb_le _ _)) by (unfold U64_MAX; lia). done.
Qed.

Lemma plan_add_run s ls ns x (leaf : bool) :
  (leaf = true → ns = []) → rb_plan s = plan_for ls ns → Forall node_small (ls ++ ns) → node_small x →
  len ls + len ns < 317464 →
  plan_add_node x leaf s =
    (Ok tt, s <| rb_plan := plan_for (if leaf then ls ++ [x] else ls) (if leaf then ns else ns ++ [x]) |>).
Proof. intros Hl Hp Hs Hx Hn. unfold plan_add_node, st_bind, try_get. rewrite Hp, add_node_run by done. done. Qed.

(** The start of a level of at least two ranges, or of the root. *)
Definition level_start (h : N) (ts : list rtree) (ls ns : list N) (spans : list PlannedInternalSpan) s : Prop :=
  planning ts ls ns spans s ∧
  match ts with
  | _ :: _ :: _ => rb_phase s = Ph_PlanValidateRanges ∧ rb_cursor s = 0 ∧ rb_planned_height s = h
  | _ => rb_phase s = Ph_PlanRoot
  end.

Lemma start_planned_run h ts ls ns spans s :
  planning ts ls ns spans s → refs_ok h (t_ref <$> ts) → h < MAX_TREE_DEPTH →
  ∃ s', start_planned_range_level_or_root s = (Ok tt, s') ∧
    ∀ c, level_start h ts ls ns spans (s' <| rb_completed := c |>).
Proof.
  intros Hp Hr Hh. pose proof Hp as (Hf & Hl & Hpr & Hi & Hpl & Hsm & Hb).
  unfold start_planned_range_level_or_root, st_bind, get. rewrite Hpr.
  destruct ts as [|t [|t' ts]]; cbn [planned]; [eexists; split; [done|]; intros c; by repeat split..|].
  cbn [put pr_height planned_one].
  assert (rr_height (t_ref t) = h) as Eh.
  { pose proof (ro_good _ _ Hr) as Hg. csimpl in Hg. by apply Forall_cons in Hg as [[? _] _]. }
  rewrite Eh, (proj2 (N.leb_gt _ _)) by done. eexists. split; [done|]. intros c. by repeat split.
Qed.

Lemma leaf_sizes_length : len leaf_sizes = len groups.
Proof. unfold leaf_sizes, leaves_bytes. by rewrite !len_fmap. Qed.

Lemma leaf_group i g :
  groups !! i = Some g →
  entries_ok g ∧ fits leaf_kind entry_record g ∧ leaf_level es !! i = Some (RLeaf g) ∧
  leaf_sizes !! i = Some (weight leaf_kind entry_record g) ∧
  f_entries (take i (leaf_level es)) = concat (take i groups) ∧ len (leaf_bytes g) = weight leaf_kind entry_record g.
Proof.
  intros Hg. destruct (leaf_level_groups es Hes) as (_ & Hfit & Hok). rewrite Forall_forall in Hfit, Hok.
  assert (g ∈ groups) as Hin by (by eapply list_elem_of_lookup_2).
  pose proof (len_leaf_bytes g (Hok g Hin)) as El. split_and!; [by apply Hok|by apply Hfit| | | |done].
  - unfold leaf_level. by rewrite list_lookup_fmap, Hg.
  - unfold leaf_sizes, leaves_bytes. rewrite !list_lookup_fmap, Hg. cbn [fmap option_fmap option_map]. by rewrite El.
  - unfold leaf_level. rewrite <-fmap_take. apply leaves_forest.
Qed.

Lemma describe_leads s :
  describing 0 s → leads (level_start 0 (leaf_level es) leaf_sizes [] []) (len groups + 1) s.
Proof.
  intros H0. pose proof (leaf_level_level es Hes) as Hlv. pose proof leaf_sizes_length as Els.
  assert (len groups ≤ 317464) as Hcount.
  { rewrite <-Els. unfold leaf_sizes. rewrite len_fmap. unfold written in Htotal. rewrite len_app in Htotal. lia. }
  eapply leads_trans; [eapply (leads_loop describing (len groups)); [|exact H0]|].
  - intros i s1 Hi ((Hf & Hls & Hpr & His & Hpl & Hsm & Hb) & Hp & Hc).
    destruct (lookup_lt_is_Some_2 groups (N.to_nat i)) as [g Hg]; [unfold len in Hi; lia|].
    destruct (leaf_group _ _ Hg) as (Hok & Hfit & Hll & Hsz & Hfe & Hlen). pose proof Hfit as (_ & _ & Hw).
    assert (len (take (N.to_nat i) leaf_sizes) = i) as El.
    { unfold len in *. rewrite length_take_le; lia. }
    rewrite El, N.add_0_r in Hb.
    destruct (level_endpoints es 0 (leaf_level es) (N.to_nat i) (RLeaf g) Hlv Hll) as ((e & Hin & Hie & _) & (e' & Hin' & Hie' & _ & _) & _ & _).
    assert (t_entries (RLeaf g) = g) as Eg by apply app_nil_r. rewrite Hfe, Eg in *.
    pose proof (path_bound es Hes e Hin). pose proof (path_bound es Hes e' Hin').
    exists true. eexists. rewrite Hp. split_and!; [done| |].
    + unfold tick. rewrite Hp. unfold tick_plan_leaf_descriptors. rewrite Hc, Hls, length_spans, (proj2 (N.eqb_neq _ _)) by lia.
      unfold index at 1. rewrite (spans_lookup _ _ _ _ _ _ Hg). cbn [ok_or]. erewrite st_bind_run by done. cbn [sp_bytes sp_start sp_end].
      unfold check. rewrite (proj2 (N.leb_le _ _)) by (unfold MAX_NODE_BYTES, U32_MAX in *; lia). erewrite st_bind_run by done.
      rewrite N.add_0_l. erewrite st_bind_run by (apply (endpoints_run s1 _ _ e e'); [done..|lia]).
      erewrite st_bind_run by (apply plan_add_run; [done|exact Hpl|done|done|rewrite El, len_nil; lia]). done.
    + intros c.
      unfold describing. replace (N.to_nat (i + 1)) with (S (N.to_nat i)) by lia.
      rewrite (take_S_r _ _ _ Hll), (take_S_r _ _ _ Hsz).
      split_and!; try done; cbn; [split_and!; try done; cbn|by rewrite Hc].
      * rewrite Hpr, planned_app, Hfe. cbn [planned]. unfold planned_one. rewrite Eg. cbn [t_ref leaf_ref rr_serialized_bytes rr_height].
        rewrite Hlen, N.add_0_l. do 3 f_equal. lia.
      * rewrite app_nil_r in *. apply Forall_app. split; [done|]. by constructor.
      * rewrite len_snoc, El, len_nil. lia.
  - intros s1 (Hpl & Hp & Hc). pose proof Hpl as (_ & Hls & _).
    assert (N.to_nat (len groups) = length groups) as En by (unfold len; lia).
    destruct (start_planned_run 0 (leaf_level es) leaf_sizes [] [] (s1 <| rb_cursor := 0 |>)) as (s2 & Hrun & Hst).
    { rewrite En, !firstn_all2 in Hpl; [exact Hpl|unfold len in Els; lia|]. unfold leaf_level. rewrite length_fmap. done. }
    { by apply leaf_level_ok. }
    { done. }
    eapply leads_one; [by rewrite Hp| |exact Hst].
    unfold tick. rewrite Hp. unfold tick_plan_leaf_descriptors. rewrite Hc, Hls, length_spans, N.eqb_refl.
    erewrite st_bind_run by done. erewrite st_bind_run by exact Hrun. done.
Qed.
(** ** A level *)
Section one_level.
Context (h : N) (ts : list rtree) (ls ns : list N) (spans : list PlannedInternalSpan).
Context (Hlv : level es h ts) (Hh : h < MAX_TREE_DEPTH).
Abbreviation parts := (cut internal_kind tree_record ts).
Definition level_sizes : list N := len <$> level_bytes h ts.
Definition level_spans : list PlannedInternalSpan :=
  (λ sp, {| pi_span := sp; pi_child_height := h |}) <$> spans_of internal_kind tree_record 0 parts.

Definition checking (i : N) s : Prop :=
  planning ts ls ns spans s ∧ rb_phase s = Ph_PlanValidateRanges ∧ rb_cursor s = i ∧ rb_planned_height s = h.
Definition cutting (i : N) s : Prop :=
  planning ts ls ns spans s ∧ rb_phase s = Ph_PlanSegmentRanges ∧ rb_cursor s = i ∧ rb_planned_height s = h ∧
  (rb_segment_start s, rb_segment_bytes s, rb_planned_spans s) = registers internal_kind tree_record (take (N.to_nat i) ts).
Definition parenting (i : N) s : Prop :=
  planning ts ls (ns ++ take (N.to_nat i) level_sizes) (spans ++ take (N.to_nat i) level_spans) s ∧
  rb_phase s = Ph_PlanEmitParents ∧ rb_emit s = i ∧ rb_planned_height s = h ∧
  rb_planned_spans s = spans_of internal_kind tree_record 0 parts ∧
  rb_next_planned_ranges s = planned 0 (take (N.to_nat i) (next_level h ts)).
Definition dropping (i : N) s : Prop :=
  planning (take (N.to_nat (len ts - i)) ts) ls (ns ++ level_sizes) (spans ++ level_spans) s ∧
  rb_phase s = Ph_PlanRetireRanges ∧ rb_next_planned_ranges s = planned 0 (next_level h ts).

Lemma planned_at i t :
  ts !! i = Some t →
  planned 0 ts !! i = Some (planned_one (len (f_entries (take i ts))) t) ∧ shaped t ∧
  range_good h (t_ref t) ∧ 1 ≤ len (t_entries t) ∧ len (f_entries (take i ts)) + len (t_entries t) ≤ len es.
Proof.
  intros Ht. destruct (level_endpoints es h ts i t Hlv Ht) as (_ & _ & _ & Hle).
  assert (t ∈ ts) as Hin by (by eapply list_elem_of_lookup_2). pose proof (lv_shaped _ _ _ Hlv) as Hsh.
  rewrite Forall_forall in Hsh. pose proof (ro_good _ _ (lv_refs _ _ _ Hlv)) as Hg. rewrite Forall_fmap, Forall_forall in Hg.
  split_and!; [by rewrite (planned_lookup _ _ _ _ Ht)|by apply Hsh|by apply Hg|by apply shaped_nonempty, Hsh|done].
Qed.

Lemma check_leads s : checking 0 s → leads (cutting 0) (len ts + 1) s.
Proof.
  intros H0. eapply leads_trans; [eapply (leads_loop checking (len ts)); [|exact H0]|].
  - intros i s1 Hi (Hpl & Hp & Hc & Hhe). pose proof Hpl as (Hf & _ & Hpr & _).
    destruct (lookup_lt_is_Some_2 ts (N.to_nat i)) as [t Ht]; [unfold len in Hi; lia|].
    destruct (planned_at _ _ Ht) as (Hlk & _ & (Ehe & Hv & _) & Hne & Hle).
    exists true. eexists. rewrite Hp. split_and!; [done| |].
    + unfold tick. rewrite Hp. unfold tick_plan_validate_ranges. rewrite Hc, Hpr, len_planned, (proj2 (N.eqb_neq _ _)) by lia.
      unfold index at 1. rewrite Hlk. cbn [ok_or]. erewrite st_bind_run by done. cbn [pr_height pr_max_entry pr_min_entry pr_serialized_bytes planned_one].
      rewrite Hhe, Ehe, N.eqb_refl, (frame_entries _ Hf). cbn [negb orb].
      rewrite (proj2 (N.ltb_ge _ _)), (proj2 (N.leb_gt _ _)) by lia. cbn [orb].
      destruct (rv_bytes _ Hv) as [? ?]. rewrite (proj2 (N.eqb_neq _ _)), (proj2 (N.ltb_ge _ _)) by lia. cbn [orb].
      erewrite st_bind_run by done. erewrite st_bind_run; [done|]. unfold st_lift. f_equal. destruct (N.ltb_spec 0 i); [|done].
      destruct (lookup_lt_is_Some_2 ts (N.to_nat (i - 1))) as [t' Ht']; [unfold len in Hi; lia|].
      destruct (planned_at _ _ Ht') as (Hlk' & _ & _ & Hne' & _). unfold index. rewrite Hlk'. cbn [ok_or].
      unfold check. cbn [pr_max_entry planned_one]. rewrite (proj2 (N.ltb_lt _ _)); [done|].
      replace (N.to_nat i) with (S (N.to_nat (i - 1))) by lia. rewrite (take_S_r _ _ _ Ht'), f_entries_app, len_app.
      unfold f_entries at 3. cbn [fmap list_fmap concat]. rewrite app_nil_r. lia.
    + intros c. split_and!; try done; cbn. by rewrite Hc.
  - intros s1 (Hpl & Hp & Hc & Hhe). pose proof Hpl as (_ & _ & Hpr & _). eapply leads_one; [by rewrite Hp| |].
    + unfold tick. rewrite Hp. unfold tick_plan_validate_ranges. rewrite Hc, Hpr, len_planned, N.eqb_refl. done.
    + intros c. split_and!; done.
Qed.

Lemma record_len_run s i t :
  frame s = planning_frame → ts !! i = Some t →
  planned_range_record_len s (planned_one (len (f_entries (take i ts))) t) = Ok (tree_record t).1 ∧
  ∃ e, index es (pr_max_entry (planned_one (len (f_entries (take i ts))) t)) = Ok e ∧ fe_path e = (tree_record t).2.
Proof.
  intros Hf Ht. destruct (level_endpoints es h ts i t Hlv Ht) as ((e & Hin & He & Hp) & (e' & Hin' & He' & He1 & Hp') & Hhd & _).
  split; [|by exists e']. unfold planned_range_record_len. cbn [pr_min_entry pr_max_entry planned_one].
  rewrite (frame_entries _ Hf), He1. assert (es !! N.to_nat (len (f_entries (take i ts))) = Some e) as ->.
  { unfold index in He. destruct (es !! N.to_nat _); [by injection He as ->|done]. }
  cbn [ok_or]. pose proof (path_bound es Hes e Hin). pose proof (path_bound es Hes e' Hin').
  rewrite try_sum_Some by (cbn [foldr]; unfold U64_MAX; lia). cbn [ok_or foldr tree_record range_record fst].
  unfold range_record_len. rewrite <-Hp, <-Hp'. f_equal. lia.
Qed.

Lemma cut_leads s : cutting 0 s → leads (parenting 0) (len ts + 1) s.
Proof.
  intros H0. destruct internal_kind_ok as [K1 K2]. destruct (refs_fit h ts (lv_refs _ _ _ Hlv)) as [Hfit _].
  eapply leads_trans; [eapply (leads_loop cutting (len ts)); [|exact H0]|].
  - intros i s1 Hi (Hpl & Hp & Hc & Hhe & Hreg). pose proof Hpl as (Hf & _ & Hpr & _).
    destruct (lookup_lt_is_Some_2 ts (N.to_nat i)) as [t Ht]; [unfold len in Hi; lia|].
    destruct (planned_at _ _ Ht) as (Hlk & _). destruct (record_len_run s1 _ _ Hf Ht) as (Hrl & e & He & Hpe).
    exists true. eexists. rewrite Hp. split_and!; [done| |].
    + unfold tick. rewrite Hp. unfold tick_plan_segment_ranges. rewrite Hc, Hpr, len_planned, (proj2 (N.eqb_neq _ _)) by lia.
      unfold index at 1. rewrite Hlk. cbn [ok_or]. erewrite st_bind_run by done. rewrite Hrl. erewrite st_bind_run by done.
      rewrite (frame_entries _ Hf), He. erewrite st_bind_run by done. rewrite Hpe.
      erewrite st_bind_run by (by apply (segment_planned_run internal_kind tree_record K1 K2 ts i t)). done.
    + intros c. split_and!; try done; [cbn; by rewrite Hc|]. cbn. by rewrite <-!surjective_pairing.
  - intros s1 (Hpl & Hp & Hc & Hhe & Hreg). pose proof Hpl as (_ & _ & Hpr & _). eapply leads_one; [by rewrite Hp| |].
    + unfold tick. rewrite Hp. unfold tick_plan_segment_ranges. rewrite Hc, Hpr, len_planned, N.eqb_refl. done.
    + intros c. unfold parenting. rewrite take_0, !app_nil_r. split_and!; try done. cbn.
      pose proof (open_span_cut internal_kind tree_record K1 K2 ts Hfit) as Ho.
      rewrite firstn_all2 in Hreg by (unfold len; lia). by rewrite <-Hreg in Ho.
Qed.

Lemma level_sizes_length : len level_sizes = len parts.
Proof. unfold level_sizes, level_bytes. by rewrite !len_fmap. Qed.

Lemma level_group i g :
  parts !! i = Some g →
  g ≠ [] ∧ Forall shaped g ∧ refs_ok h (t_ref <$> g) ∧ fits internal_kind range_record (t_ref <$> g) ∧
  next_level h ts !! i = Some (RNode h g) ∧ level_sizes !! i = Some (weight internal_kind tree_record g) ∧
  level_spans !! i = Some {| pi_span := {| sp_start := len (concat (take i parts));
      sp_end := len (concat (take i parts)) + len g; sp_bytes := weight internal_kind tree_record g |}; pi_child_height := h |} ∧
  f_entries (take i (next_level h ts)) = f_entries (concat (take i parts)) ∧
  len (node_bytes h (t_ref <$> g)) = weight internal_kind tree_record g ∧ weight internal_kind tree_record g ≤ MAX_NODE_BYTES.
Proof.
  intros Hg. destruct (level_groups h ts (lv_refs _ _ _ Hlv)) as (Hcc & Hall). rewrite Forall_forall in Hall.
  assert (g ∈ parts) as Hin by (by eapply list_elem_of_lookup_2). destruct (Hall g Hin) as (Hne & Hfit & Hok).
  pose proof (lv_shaped _ _ _ Hlv) as Hsh. rewrite <-Hcc, Forall_concat, Forall_forall in Hsh.
  assert (weight internal_kind range_record (t_ref <$> g) = weight internal_kind tree_record g) as Ew
    by apply (weight_fmap internal_kind range_record t_ref).
  pose proof (len_node_bytes h (t_ref <$> g) Hok) as El. rewrite Ew in El. pose proof Hfit as (_ & _ & Hw). rewrite Ew in Hw.
  split_and!; try done.
  - by apply Hsh.
  - unfold next_level. by rewrite list_lookup_fmap, Hg.
  - unfold level_sizes, level_bytes. rewrite !list_lookup_fmap, Hg. cbn [fmap option_fmap option_map]. by rewrite El.
  - unfold level_spans. rewrite list_lookup_fmap, (spans_lookup _ _ _ _ _ _ Hg). done.
  - unfold next_level. rewrite <-fmap_take. clear. induction (take i parts) as [|g' gs IH]; [done|].
    cbn [concat]. rewrite f_entries_app, <-IH. change (f_entries (RNode h <$> g' :: gs)) with (t_entries (RNode h g') ++ f_entries (RNode h <$> gs)).
    by rewrite t_entries_node.
Qed.

(** The planned parent of a group. *)
Lemma parent_plan i g (base := len (f_entries (concat (take i parts)))) (sp := {| sp_start := len (concat (take i parts));
      sp_end := len (concat (take i parts)) + len g; sp_bytes := weight internal_kind tree_record g |}) :
  parts !! i = Some g →
  ∃ first last e e',
    try_sum 0 (pr_file_count <$> span_slice (planned 0 ts) sp) = Some (len (f_entries g)) ∧
    index (span_slice (planned 0 ts) sp) 0 = Ok first ∧
    index (span_slice (planned 0 ts) sp) (len (span_slice (planned 0 ts) sp) - 1) = Ok last ∧
    pr_min_entry first = base ∧ pr_max_entry last = base + len (f_entries g) - 1 ∧
    e ∈ es ∧ e' ∈ es ∧ index es base = Ok e ∧ index es (base + len (f_entries g) - 1) = Ok e'.
Proof.
  intros Hg. destruct (level_group _ _ Hg) as (Hne & Hsh & _ & _ & Hnl & _ & _ & Hfe & _).
  destruct (level_groups h ts (lv_refs _ _ _ Hlv)) as (Hcc & _).
  assert (level es (h + 1) (next_level h ts)) as Hlv' by (by apply next_level_level).
  destruct (level_endpoints es (h + 1) _ _ _ Hlv' Hnl) as ((e & Hin & He & _) & (e' & Hin' & He' & _ & _) & _ & Hle).
  rewrite Hfe, t_entries_node in *. fold base in He, He', Hle.
  assert (span_slice (planned 0 ts) sp = planned base g) as ->.
  { rewrite <-Hcc at 1. by apply planned_slice. }
  destruct (planned_head base g Hne) as (first & Hfirst & Ef). destruct (planned_last base g Hne Hsh) as (last & Hlast & El).
  exists first, last, e, e'. split_and!; try done.
  - apply planned_count. pose proof entries_bound. unfold U64_MAX. lia.
  - unfold index. change (N.to_nat 0) with 0%nat. by rewrite Hfirst.
Qed.

Context (Hroom : len ls + len (ns ++ level_sizes) ≤ 317464).

Lemma parent_leads s : parenting 0 s → leads (dropping 0) (len parts + 1) s.
Proof.
  intros H0. pose proof level_sizes_length as Els. pose proof Hroom as Hroom'. rewrite len_app in Hroom'.
  eapply leads_trans; [eapply (leads_loop parenting (len parts)); [|exact H0]|].
  - intros i s1 Hi ((Hf & Hls & Hpr & His & Hpl & Hsm & Hb) & Hp & Hem & Hhe & Hps & Hnp).
    destruct (lookup_lt_is_Some_2 parts (N.to_nat i)) as [g Hg]; [unfold len in Hi; lia|].
    destruct (level_group _ _ Hg) as (Hne & Hsh & Hok & Hfit & Hnl & Hsz & Hlsp & Hfe & Hlen & Hw).
    destruct (parent_plan _ _ Hg) as (first & last & e & e' & Hsum & Hfirst & Hlast & Efst & Elst & Hin & Hin' & He & He').
    assert (len (take (N.to_nat i) level_sizes) = i) as El.
    { unfold len in *. rewrite length_take_le; lia. }
    rewrite len_app, El in Hb.
    pose proof (path_bound es Hes e Hin). pose proof (path_bound es Hes e' Hin').
    exists true. eexists. rewrite Hp. split_and!; [done| |].
    + unfold tick. rewrite Hp. unfold tick_plan_emit_parents. rewrite Hem, Hps, length_spans, (proj2 (N.eqb_neq _ _)) by lia.
      unfold index at 1. rewrite (spans_lookup _ _ _ _ _ _ Hg). cbn [ok_or]. erewrite st_bind_run by done. cbn [sp_bytes].
      rewrite N.add_0_l, Hpr, Hsum. cbn [ok_or]. erewrite st_bind_run by done.
      unfold check. rewrite (proj2 (N.leb_le _ _)) by (unfold MAX_NODE_BYTES, U32_MAX in *; lia). erewrite st_bind_run by done.
      rewrite Hfirst. erewrite st_bind_run by done. rewrite Hlast. erewrite st_bind_run by done.
      rewrite Efst, Elst. erewrite st_bind_run by (apply (endpoints_run s1 _ _ e e'); [done..|lia]).
      erewrite st_bind_run by (apply (plan_add_run _ ls (ns ++ take (N.to_nat i) level_sizes)); [done|exact Hpl|done|done|rewrite len_app, El; lia]). done.
    + intros c. unfold parenting. replace (N.to_nat (i + 1)) with (S (N.to_nat i)) by lia.
      rewrite (take_S_r _ _ _ Hsz), (take_S_r _ _ _ Hlsp), (take_S_r _ _ _ Hnl), !app_assoc.
      split_and!; try done; cbn -[N.add N.sub]; [split_and!; try done; cbn -[N.add N.sub]|by rewrite Hem|].
      * by rewrite His, Hhe.
      * rewrite app_assoc. apply Forall_app. split; [exact Hsm|by constructor].
      * rewrite !len_app, El. change (len [_]) with 1. lia.
      * rewrite Hnp, planned_app, Hfe. cbn [planned]. unfold planned_one. rewrite t_entries_node. cbn [t_ref parent_ref rr_serialized_bytes rr_height].
        change (map t_ref g) with (t_ref <$> g). by rewrite Hlen, Hhe, N.add_0_l.
  - intros s1 (Hpl & Hp & Hem & Hhe & Hps & Hnp). eapply leads_one; [by rewrite Hp| |].
    + unfold tick. rewrite Hp. unfold tick_plan_emit_parents. rewrite Hem, Hps, length_spans, N.eqb_refl. done.
    + intros c. unfold dropping. rewrite N.sub_0_r, firstn_all2 by (unfold len; lia).
      assert (N.to_nat (len parts) = length parts) as En by (unfold len; lia). rewrite En in *.
      rewrite !firstn_all2 in Hpl; [|unfold level_spans; rewrite length_fmap; pose proof (length_spans internal_kind tree_record 0 parts); unfold len in *; lia|unfold len in *; lia].
      rewrite firstn_all2 in Hnp by (unfold next_level; by rewrite length_fmap). split_and!; done.
Qed.

Lemma drop_leads s :
  dropping 0 s → h + 1 < MAX_TREE_DEPTH →
  leads (level_start (h + 1) (next_level h ts) ls (ns ++ level_sizes) (spans ++ level_spans)) (len ts + 1) s.
Proof.
  intros H0 Hh'. eapply leads_trans; [eapply (leads_loop dropping (len ts)); [|exact H0]|].
  - intros i s1 Hi ((Hf & Hls & Hpr & Hrest) & Hp & Hnp).
    destruct (lookup_lt_is_Some_2 ts (N.to_nat (len ts - (i + 1)))) as [t Ht]; [unfold len in *; lia|].
    assert (planned 0 (take (N.to_nat (len ts - i)) ts) = planned 0 (take (N.to_nat (len ts - (i + 1))) ts) ++
      [planned_one (0 + len (f_entries (take (N.to_nat (len ts - (i + 1))) ts))) t]) as Epl.
    { replace (N.to_nat (len ts - i)) with (S (N.to_nat (len ts - (i + 1)))) by lia.
      by rewrite (take_S_r _ _ _ Ht), planned_app. }
    exists true. eexists. rewrite Hp. split_and!; [done| |].
    + unfold tick. rewrite Hp. unfold tick_plan_retire_ranges. rewrite Hpr, Epl, last_snoc. done.
    + intros c. split_and!; try done; cbn. split_and!; try done; [|apply Hrest..]. apply removelast_last.
  - intros s1 ((Hf & Hls & Hpr & Hrest) & Hp & Hnp). rewrite N.sub_diag, take_0 in Hpr.
    destruct (start_planned_run (h + 1) (next_level h ts) ls (ns ++ level_sizes) (spans ++ level_spans)
      (s1 <| rb_planned_ranges := rb_next_planned_ranges s1 |> <| rb_next_planned_ranges := [] |>)) as (s2 & Hrun & Hst).
    { split_and!; try done; apply Hrest. }
    { apply next_level_ok; [done|apply Hlv]. }
    { done. }
    eapply leads_one; [by rewrite Hp| |exact Hst].
    unfold tick. rewrite Hp. unfold tick_plan_retire_ranges. rewrite Hpr. cbn [last planned].
    erewrite st_bind_run by done. erewrite st_bind_run by exact Hrun. done.
Qed.

(** One level is planned. *)
Lemma level_leads s :
  level_start h ts ls ns spans s → 2 ≤ len ts → h + 1 < MAX_TREE_DEPTH →
  leads (level_start (h + 1) (next_level h ts) ls (ns ++ level_sizes) (spans ++ level_spans)) (4 * len ts + 4) s.
Proof.
  intros [Hpl Hm] H2 Hh'.
  assert (checking 0 s) as Hck.
  { split; [done|]. clear -Hm H2. by destruct ts as [|t [|t' ts']]. }
  assert (len parts ≤ len ts) as Hle.
  { destruct (level_groups h ts (lv_refs _ _ _ Hlv)) as (Hcc & Hall). rewrite <-Hcc at 2. clear -Hall.
    induction Hall as [|g gs (Hg & _) _ IH]; [done|]. cbn [concat]. rewrite len_cons, len_app. destruct g; [done|]. rewrite len_cons. lia. }
  eapply leads_weaken; [eapply leads_trans; [eapply leads_trans; [eapply leads_trans; [apply check_leads|exact cut_leads]|exact parent_leads]|]|].
  - done.
  - intros s1 Hs1. by apply drop_leads.
  - lia.
Qed.
End one_level.
(** ** All levels *)

Lemma parents_le h ts : level es h ts → len (next_level h ts) ≤ len ts.
Proof.
  intros Hlv. unfold next_level. rewrite len_fmap. destruct (level_groups h ts (lv_refs _ _ _ Hlv)) as (Hcc & Hall).
  rewrite <-Hcc at 2. clear -Hall. induction Hall as [|g gs (Hg & _) _ IH]; [done|]. cbn [concat].
  rewrite len_cons, len_app. destruct g; [done|]. rewrite len_cons. lia.
Qed.

(** The planned spans of the internal nodes above a level. *)
Fixpoint grow_spans (fuel : nat) (h : N) (ts : list rtree) : list PlannedInternalSpan :=
  match ts, fuel with
  | [t], _ => []
  | _, O => []
  | _, S fuel => level_spans h ts ++ grow_spans fuel (h + 1) (next_level h ts)
  end.

Definition at_root (ts : list rtree) (ls ns : list N) (spans : list PlannedInternalSpan) s : Prop :=
  planning ts ls ns spans s ∧ rb_phase s = Ph_PlanRoot.

Lemma levels_lead (k fuel : nat) h ts ls ns spans s (M : N) :
  (k ≤ fuel)%nat → h + N.of_nat k < MAX_TREE_DEPTH → len ts ≤ 16 ^ N.of_nat k → len ts ≤ M → level es h ts → ts ≠ [] →
  len ls + len (ns ++ (len <$> grow_bytes fuel h ts)) ≤ 317464 →
  level_start h ts ls ns spans s →
  leads (at_root [grow fuel h ts] ls (ns ++ (len <$> grow_bytes fuel h ts)) (spans ++ grow_spans fuel h ts))
    (N.of_nat k * (4 * M + 4)) s.
Proof.
  revert fuel h ts ns spans s. induction k as [|k IH]; intros fuel h ts ns spans s Hk Hh Hl HM Hlv Hne Hroom Hst.
  all: destruct ts as [|t [|t' ts]]; [done| |].
  1,3: assert (grow fuel h [t] = t ∧ grow_bytes fuel h [t] = [] ∧ grow_spans fuel h [t] = []) as (-> & -> & ->)
         by (by destruct fuel); cbn [fmap list_fmap]; rewrite !app_nil_r; by apply leads_here.
  { change (16 ^ N.of_nat 0) with 1 in Hl. rewrite !len_cons in Hl. lia. }
  assert (2 ≤ len (t :: t' :: ts)) as H2 by (rewrite !len_cons; lia).
  set (ts' := t :: t' :: ts) in *. destruct fuel as [|fuel]; [lia|].
  assert (h < MAX_TREE_DEPTH) as Hh' by lia. pose proof (lv_refs _ _ _ Hlv) as Hr.
  change (grow (Datatypes.S fuel) h ts') with (grow fuel (h + 1) (next_level h ts')).
  change (grow_bytes (Datatypes.S fuel) h ts') with (level_bytes h ts' ++ grow_bytes fuel (h + 1) (next_level h ts')) in *.
  change (grow_spans (Datatypes.S fuel) h ts') with (level_spans h ts' ++ grow_spans fuel (h + 1) (next_level h ts')).
  rewrite fmap_app in *. change (len <$> level_bytes h ts') with (level_sizes h ts') in *. rewrite !app_assoc in *.
  pose proof (parents_le h ts' Hlv) as Hle.
  eapply leads_weaken; [eapply leads_trans; [apply (level_leads h ts' ls ns spans); [done|done| |done|done|]|]|].
  - rewrite len_app in Hroom. lia.
  - lia.
  - intros s1 Hs1. apply (IH fuel (h + 1) (next_level h ts') (ns ++ level_sizes h ts') (spans ++ level_spans h ts'));
      [lia|lia|by apply next_level_pow|lia|by apply next_level_level|by apply next_level_nonempty|exact Hroom|done].
  - nia.
Qed.

Abbreviation node_sizes := (len <$> grow_bytes 17 0 (leaf_level es)).

Lemma plan_levels_lead s :
  level_start 0 (leaf_level es) leaf_sizes [] [] s →
  leads (at_root (root_forest es) leaf_sizes node_sizes (grow_spans 17 0 (leaf_level es))) 5000000 s.
Proof.
  intros Hst. destruct (decide (es = [])) as [E|Hne].
  { apply leads_here. rewrite E in *. exact Hst. }
  assert (root_forest es = [grow 17 0 (leaf_level es)]) as -> by (by destruct es).
  pose proof (leaf_level_count es Hes) as Hc. pose proof entries_bound.
  assert (len (leaf_level es) ≤ 158731) as HM by lia. assert (5 ≤ 17)%nat as H5 by lia. clear Hc H.
  assert (len leaf_sizes + len ([] ++ node_sizes) ≤ 317464) as Hroom.
  { rewrite app_nil_l. unfold leaf_sizes. rewrite !len_fmap, <-len_app. exact Htotal. }
  pose proof (levels_lead 5 17 0 (leaf_level es) leaf_sizes [] [] s 158731 H5 eq_refl (leaf_level_pow es Hes) HM
    (leaf_level_level es Hes) (leaf_level_nonempty es Hes Hne) Hroom Hst) as H1. clear Hroom. rewrite !app_nil_l in H1.
  eapply leads_weaken; [exact H1|done].
Qed.
Lemma grow_level (k fuel : nat) h ts :
  (k ≤ fuel)%nat → h + N.of_nat k ≤ MAX_TREE_DEPTH → len ts ≤ 16 ^ N.of_nat k → level es h ts → ts ≠ [] →
  ∃ h', level es h' [grow fuel h ts].
Proof.
  revert fuel h ts. induction k as [|k IH]; intros fuel h ts Hk Hh Hl Hlv Hne.
  all: destruct ts as [|t [|t' ts]]; [done|by exists h; destruct fuel|].
  { change (16 ^ N.of_nat 0) with 1 in Hl. rewrite !len_cons in Hl. lia. }
  set (ts' := t :: t' :: ts) in *. destruct fuel as [|fuel]; [lia|]. pose proof (lv_refs _ _ _ Hlv) as Hr.
  change (grow (Datatypes.S fuel) h ts') with (grow fuel (h + 1) (next_level h ts')).
  apply (IH fuel (h + 1)); [lia|lia|by apply next_level_pow|apply next_level_level; [lia|done]|by apply next_level_nonempty].
Qed.

(** ** The root *)
Context (Hvault : validate_root_id "vault" vault_id false = Ok tt) (Hdevice : validate_root_id "device" device_id true = Ok tt).

Lemma root_level t : root_forest es = [t] → ∃ h, level es h [t].
Proof.
  intros E. destruct (decide (es = [])) as [E'|Hne]; [by rewrite E' in E|].
  assert (root_forest es = [grow 17 0 (leaf_level es)]) as E1 by (by destruct es).
  assert (∃ h, level es h [grow 17 0 (leaf_level es)]) as Hg.
  { apply (grow_level 5 17 0); [lia|done|by apply leaf_level_pow|by apply leaf_level_level|by apply leaf_level_nonempty]. }
  rewrite E in E1. revert Hg E1. generalize (grow 17 0 (leaf_level es)). by intros g Hg [= ->].
Qed.

Definition child_paths : option (bytes * bytes) :=
  (λ c, (rr_min_path c, rr_max_path c)) <$> tv_child (root_of es).

Lemma root_child t : root_forest es = [t] → tv_child (root_of es) = Some (t_ref t).
Proof.
  unfold root_forest, root_of. destruct es as [|e l]; [done|]. cbn [tv_child]. generalize (grow 17 0 (leaf_level (e :: l))).
  by intros g [= ->].
Qed.

(** The length of the stored root. *)
Definition root_length : N :=
  STORED_ROOT_HEADER_BYTES + len vault_id + len device_id +
  match child_paths with Some (p, q) => 50 + len p + len q | None => 0 end.

Lemma root_length_run :
  replacement_root_serialized_length vault_id device_id child_paths = Ok root_length ∧ root_length ≤ MAX_STORED_ROOT_BYTES.
Proof.
  destruct (validate_root_id_len _ _ _ _ Hvault) as [L1 _]. destruct (validate_root_id_len _ _ _ _ Hdevice) as [L2 _].
  unfold replacement_root_serialized_length, root_length. rewrite Hvault, Hdevice.
  unfold MAX_ROOT_ID_BYTES, STORED_ROOT_HEADER_BYTES in *. rewrite try_sum_Some by (cbn [foldr]; unfold U64_MAX; lia).
  cbn [ok_or foldr]. unfold child_paths. destruct (root_forest es) as [|t [|t' ts]] eqn:E.
  - assert (tv_child (root_of es) = None) as -> by (unfold root_of, root_forest in *; by destruct es).
    cbn [fmap option_fmap option_map]. unfold MAX_STORED_ROOT_BYTES. rewrite (proj2 (N.ltb_ge _ _)) by lia. split; [f_equal|]; lia.
  - rewrite (root_child t E). destruct (root_level t E) as [h Hlv]. cbn [fmap option_fmap option_map].
    pose proof (ro_good _ _ (lv_refs _ _ _ Hlv)) as Hg. apply Forall_cons in Hg as [(_ & Hv & _) _].
    rewrite (rv_min _ Hv), (rv_max _ Hv). destruct (blt _ _) eqn:Eo.
    { apply blt_true in Eo. by apply (rv_order _ Hv) in Eo. }
    pose proof (validate_path_len _ _ (rv_min _ Hv)) as [_ L3]. pose proof (validate_path_len _ _ (rv_max _ Hv)) as [_ L4].
    unfold MAX_PATH_BYTES in *. rewrite try_sum_Some by (cbn [foldr]; unfold U64_MAX; lia). cbn [ok_or foldr].
    unfold MAX_STORED_ROOT_BYTES. rewrite (proj2 (N.ltb_ge _ _)) by lia. split; [f_equal|]; lia.
  - unfold root_forest in E. by destruct es.
Qed.

(** What the plan announces. *)
Definition announced (m : ReplacementOutputMemoryPlanV1) : Prop :=
  om_node_payload_bytes m = total (len <$> written es) ∧
  om_resident_admission_bytes m =
    om_node_payload_bytes m + match child_paths with Some (p, q) => len p + len q | None => 0 end.
Definition plan_ready s : Prop :=
  frame s = planning_frame ∧ rb_leaf_spans s = spans_of leaf_kind entry_record 0 groups ∧
  rb_planned_internal_spans s = grow_spans 17 0 (leaf_level es) ∧
  rb_plan s = plan_for leaf_sizes node_sizes <| bp_stored_root_bytes := root_length |> ∧
  announced (rb_output_memory_plan s) ∧ rb_phase s = Ph_PlanReady.

Lemma root_endpoints s :
  frame s = planning_frame →
  ∃ r, r ≤ 8192 ∧ r = match child_paths with Some (p, q) => len p + len q | None => 0 end ∧
    match planned 0 (root_forest es) with
    | [] => Ok (None, 0)
    | [child] =>
        let? first := index (rb_entries s) (pr_min_entry child) in
        let? last := index (rb_entries s) (pr_max_entry child) in
        let? size := endpoint_pair_bytes (fe_path first) (fe_path last) in
        Ok (Some (fe_path first, fe_path last), size)
    | _ => Err (invalid "Tree v2 planned root level is incomplete")
    end = Ok (child_paths, r).
Proof.
  intros Hf. unfold child_paths. destruct (root_forest es) as [|t [|t' ts]] eqn:E.
  - exists 0. assert (tv_child (root_of es) = None) as -> by (unfold root_of, root_forest in *; by destruct es). done.
  - rewrite (root_child t E). destruct (root_level t E) as [h Hlv]. cbn [planned].
    destruct (level_endpoints es h [t] 0 t Hlv eq_refl) as ((e & Hin & He & Hp) & (e' & Hin' & He' & _ & Hp') & _ & _).
    cbn [pr_min_entry pr_max_entry planned_one]. rewrite (frame_entries _ Hf). change (len (f_entries (take 0 [t]))) with 0 in *.
    rewrite He, He'. pose proof (path_bound es Hes e Hin). pose proof (path_bound es Hes e' Hin').
    unfold endpoint_pair_bytes, checked_add64. rewrite (proj2 (N.leb_le _ _)) by (unfold U64_MAX; lia). cbn [ok_or fmap option_fmap option_map].
    exists (len (fe_path e) + len (fe_path e')). rewrite Hp, Hp' in *. split_and!; [lia|done|done].
  - unfold root_forest in E. by destruct es.
Qed.

Lemma root_leads s :
  at_root (root_forest es) leaf_sizes node_sizes (grow_spans 17 0 (leaf_level es)) s → leads plan_ready 1 s.
Proof.
  assert (len leaf_sizes + len node_sizes ≤ 317464) as Hn.
  { unfold leaf_sizes. rewrite !len_fmap, <-len_app. exact Htotal. }
  assert ((len <$> written es) = leaf_sizes ++ node_sizes) as Ew by apply fmap_app.
  unfold plan_ready, announced. rewrite Ew. clear Ew. revert Hn. generalize node_sizes as sizes, (grow_spans 17 0 (leaf_level es)) as spans.
  intros sizes spans Hn.
  intros ((Hf & Hls & Hpr & His & Hpl & Hsm & Hb) & Hp). destruct root_length_run as [Hrl Hrb].
  destruct (root_endpoints s Hf) as (r & Hr & Er & Hm).
  pose proof (total_bound _ _ Hsm) as Hsum. rewrite len_app in Hsum. unfold MAX_NODE_BYTES in Hsum.
  assert (build_output_memory_plan_v1 (total (leaf_sizes ++ sizes)) (rb_planned_range_endpoint_requested_bytes s) r =
    Ok {| om_node_payload_bytes := total (leaf_sizes ++ sizes);
          om_range_endpoint_peak_requested_bytes := rb_planned_range_endpoint_requested_bytes s + r;
          om_range_endpoint_resident_requested_bytes := r;
          om_peak_admission_bytes := total (leaf_sizes ++ sizes) + (rb_planned_range_endpoint_requested_bytes s + r);
          om_resident_admission_bytes := total (leaf_sizes ++ sizes) + r |}) as Hom.
  { unfold build_output_memory_plan_v1, checked_add64. rewrite (proj2 (N.leb_le _ _)) by (unfold U64_MAX; lia). cbn [ok_or].
    rewrite !(proj2 (N.leb_le _ _)) by (unfold U64_MAX; lia). done. }
  eapply leads_one; [by rewrite Hp| |].
  - unfold tick. rewrite Hp. unfold tick_plan_root. rewrite Hpr, Hm. erewrite st_bind_run by done.
    injection Hf as _ _ _ _ _ _ _ _ _ -> ->. rewrite Hrl. erewrite st_bind_run by done.
    unfold check. rewrite (proj2 (N.leb_le _ _)) by (unfold MAX_STORED_ROOT_BYTES, U32_MAX in *; lia). erewrite st_bind_run by done.
    erewrite st_bind_run by done. erewrite st_bind_run; [|unfold try_get; cbn; rewrite Hpl; exact (f_equal (λ x, (x, _)) Hom)].
    done.
  - intros c. split_and!; try done; cbn; by rewrite ?Hpl, ?Er.
Qed.

(** ** From the start to the plan *)
Lemma plan_leads s :
  s = rb_new entries vault_id device_id →
  leads plan_ready (len es * len es + 6 * len es + 3 + (len es + 1) + (len es + 1) + (len groups + 1) + 5000000 + 1) s.
Proof.
  intros ->. eapply leads_trans; [|exact root_leads]. eapply leads_trans; [|exact plan_levels_lead].
  eapply leads_trans; [|exact describe_leads]. eapply leads_trans; [|exact segment_leaves_leads].
  eapply leads_trans; [|exact validate_entries_leads]. apply sort_leads; [|done]. by split_and!.
Qed.
End plan.
