(* ===== verification/RebuildEmit.v ===== *)
(** The writing half of the resumable construction: leaves, the internal
    nodes of every level, the root, the validation of everything it reaches,
    and the tree that is handed over. *)

From S2P Require Import Prelude Bytes Keyed Hash Chunk Concrete Store StoreProps TreeV1 TreeV1Build TreeV1Props Diff TreeV1Examples TreeV2Codec TreeV2CodecProps TreeV2Segment TreeV2 TreeV2Build TreeV2Store TreeV2Props VersionedRoot TreeV2Diff TreeV2DiffProps Reachability ReachabilityProps TreeV2Examples StableSort Session Rebuild RebuildPlan.
Local Open Scope N_scope.

Section emit.
Context {B3 : Blake3} (entries : list FileEntry) (vault_id device_id : bytes).
Abbreviation es := (sort_by fe_path entries).
Context (Hes : entries_ok es).
(** The plan that is followed. *)
Context (plan : ReplacementBuildPlanV2) (planned_spans : list PlannedInternalSpan).
Abbreviation State := ReplacementRebuildV2.
Implicit Types s : State.

Definition emit_frame s :=
  (rb_entries s, rb_entries_owned s, rb_plan s, rb_planned_internal_spans s, (rb_vault_id s, rb_device_id s)).
Definition the_frame := (es, true, plan, planned_spans, (vault_id, device_id)).

Lemma emit_entries s : emit_frame s = the_frame → rb_entries s = es.
Proof. by intros [=]. Qed.

(** What was written: the store, its counts, and the number of internal nodes. *)
Definition wrote (bs : list bytes) (k : N) s : Prop :=
  emit_frame s = the_frame ∧ rb_store s = put_all bs ms_new ∧ rb_emitted_nodes s = len bs ∧
  rb_emitted_payload_bytes s = total (len <$> bs) ∧ rb_emitted_internal_spans s = k ∧
  Forall node_small (len <$> bs).

Lemma record_emitted_run (bs : list bytes) s x :
  rb_emitted_nodes s = len bs → rb_emitted_payload_bytes s = total (len <$> bs) → Forall node_small (len <$> bs) →
  node_small x → len bs ≤ 317464 →
  record_emitted_node x s =
    (Ok tt, s <| rb_emitted_nodes := len bs + 1 |> <| rb_emitted_payload_bytes := total (len <$> bs) + x |>).
Proof.
  intros Hn Hp Hs Hx Hl. unfold record_emitted_node, st_bind, try_get, put. rewrite Hn.
  pose proof (total_bound _ _ Hs) as Hsum. rewrite len_fmap in Hsum. unfold node_small, MAX_NODE_BYTES in *.
  unfold checked_add64. rewrite (proj2 (N.leb_le _ _)) by (unfold U64_MAX; lia). cbn [ok_or].
  change (rb_emitted_payload_bytes (s <| rb_emitted_nodes := len bs + 1 |>)) with (rb_emitted_payload_bytes s).
  rewrite Hp, (proj2 (N.leb_le _ _)) by (unfold U64_MAX; lia). done.
Qed.

Lemma wrote_snoc bs k s b k' s' :
  wrote bs k s → node_small (len b) → emit_frame s' = the_frame →
  rb_store s' = insert_chunk (hash_bytes b) (exact_buffer b) (rb_store s) → rb_emitted_nodes s' = len bs + 1 →
  rb_emitted_payload_bytes s' = total (len <$> bs) + len b → rb_emitted_internal_spans s' = k' →
  wrote (bs ++ [b]) k' s'.
Proof.
  intros (Hf & Hs & Hn & Hp & Hk & Hsm) Hb Hf' Hs' Hn' Hp' Hk'. split_and!; try done.
  - rewrite Hs', Hs, put_all_app. done.
  - by rewrite Hn', len_app.
  - rewrite Hp', fmap_app, total_app. change (total (len <$> [b])) with (len b + 0). by rewrite N.add_0_r.
  - rewrite fmap_app. apply Forall_app. split; [done|]. by constructor.
Qed.

(** ** Leaves *)
Abbreviation groups := (cut leaf_kind entry_record es).
Context (Htotal : len (written es) ≤ 317464).

Lemma emit_leaf_group i g :
  groups !! i = Some g →
  entries_ok g ∧ fits leaf_kind entry_record g ∧ leaf_level es !! i = Some (RLeaf g) ∧
  leaves_bytes es !! i = Some (leaf_bytes g) ∧ len (leaf_bytes g) = weight leaf_kind entry_record g ∧
  weight leaf_kind entry_record g ≤ MAX_NODE_BYTES ∧
  span_slice es {| sp_start := len (concat (take i groups)); sp_end := len (concat (take i groups)) + len g;
                   sp_bytes := weight leaf_kind entry_record g |} = g.
Proof.
  intros Hg. destruct (leaf_level_groups es Hes) as (Hc & Hfit & Hok). rewrite Forall_forall in Hfit, Hok.
  assert (g ∈ groups) as Hin by (by eapply list_elem_of_lookup_2).
  pose proof (len_leaf_bytes g (Hok g Hin)) as El. pose proof (Hfit g Hin) as (_ & _ & Hw).
  split_and!; try done; [by apply Hok|by apply Hfit| | |].
  - unfold leaf_level. by rewrite list_lookup_fmap, Hg.
  - unfold leaves_bytes. by rewrite list_lookup_fmap, Hg.
  - rewrite <-Hc at 1. by apply slice_span.
Qed.

Definition emitting_leaves (i : N) s : Prop :=
  wrote (take (N.to_nat i) (leaves_bytes es)) 0 s ∧ rb_ranges s = t_ref <$> take (N.to_nat i) (leaf_level es) ∧
  rb_phase s = Ph_EmitLeaves ∧ rb_emit s = i ∧ rb_spans s = spans_of leaf_kind entry_record 0 groups.

(** The start of a level of at least two ranges, or of the root. *)
Definition begun (h : N) (ts : list rtree) (bs : list bytes) (k : N) s : Prop :=
  wrote bs k s ∧ rb_ranges s = t_ref <$> ts ∧ rb_phase s = Ph_ValidateRanges ∧ rb_cursor s = 0 ∧ rb_range_height s = h.
Definition rooted (ts : list rtree) (bs : list bytes) s : Prop :=
  rb_entries s = es ∧ rb_entries_owned s = true ∧ rb_plan s = plan ∧ (rb_vault_id s, rb_device_id s) = (vault_id, device_id) ∧
  rb_store s = put_all bs ms_new ∧ rb_ranges s = t_ref <$> ts ∧ rb_phase s = Ph_Root.

Definition next_stage (h : N) (ts : list rtree) (bs : list bytes) (k : N) s : Prop :=
  match ts with _ :: _ :: _ => begun h ts bs k s | _ => rooted ts bs s end.

(** With at most one range left, all was written that is planned. *)
Definition totals_met (ts : list rtree) (bs : list bytes) (k : N) : Prop :=
  len ts ≤ 1 → len bs = bp_node_count plan ∧ total (len <$> bs) = bp_node_payload_bytes plan ∧ k = len planned_spans.

Lemma start_range_run h ts bs k s :
  wrote bs k s → rb_ranges s = t_ref <$> ts → Forall (λ t, rr_height (t_ref t) = h) ts → h < MAX_TREE_DEPTH → totals_met ts bs k →
  ∃ s', start_range_level_or_root s = (Ok tt, s') ∧ ∀ c, next_stage h ts bs k (s' <| rb_completed := c |>).
Proof.
  intros Hw Hr Hall Hh Ht. pose proof Hw as (Hf & Hs & Hn & Hp & Hk & Hsm). injection Hf as F1 F2 F3 F4 F5 F6.
  unfold start_range_level_or_root, st_bind, get. rewrite Hr.
  destruct ts as [|t [|t' ts]]; cbn [fmap list_fmap].
  1,2: destruct Ht as (T1 & T2 & T3); [by rewrite ?len_cons, ?len_nil|]; unfold try_get; rewrite Hn, Hp, Hk, F3, F4, T1, T2, T3, !N.eqb_refl;
    cbn [negb orb]; eexists; split; [done|]; intros c; split_and!; try done; cbn; congruence.
  cbn [put]. apply Forall_cons in Hall as [-> _]. rewrite (proj2 (N.leb_gt _ _)) by done.
  eexists. split; [done|]. intros c. by split_and!.
Qed.

Lemma emit_leaf_ref (g : list FileEntry) :
  g ≠ [] → ∃ first last, index g 0 = Ok first ∧ index g (len g - 1) = Ok last ∧
    leaf_ref g = {| rr_min_path := fe_path first; rr_max_path := fe_path last; rr_hash := hash_bytes (leaf_bytes g);
                    rr_file_count := len g; rr_serialized_bytes := len (leaf_bytes g); rr_height := 0 |}.
Proof.
  destruct g as [|e g]; [done|]. intros _. exists e, (List.last g e). split_and!; [done| |done].
  unfold index. destruct g as [|x g _] using rev_ind; [done|]. rewrite List.last_last.
  assert (N.to_nat (len (e :: g ++ [x]) - 1) = S (length g)) as -> by (unfold len; cbn [length]; rewrite length_app; cbn; lia).
  change ((e :: g ++ [x]) !! S (length g)) with ((g ++ [x]) !! length g). by rewrite list_lookup_middle.
Qed.

Lemma emit_leaves_lead s :
  emitting_leaves 0 s → totals_met (leaf_level es) (leaves_bytes es) 0 →
  leads (next_stage 0 (leaf_level es) (leaves_bytes es) 0) (len groups + 1) s.
Proof.
  intros H0 Ht. eapply leads_trans; [eapply (leads_loop emitting_leaves (len groups)); [|exact H0]|].
  - intros i s1 Hi (Hw & Hr & Hp & Hem & Hsp).
    destruct (lookup_lt_is_Some_2 groups (N.to_nat i)) as [g Hg]; [unfold len in Hi; lia|].
    destruct (emit_leaf_group _ _ Hg) as (Hok & Hfit & Hll & Hlb & Hlen & Hwt & Hsl).
    destruct (emit_leaf_ref g) as (first & last & Hfirst & Hlast & Eref); [apply Hfit|].
    pose proof Hw as (Hf & Hst & Hn & Hpay & Hk & Hsm).
    assert (len (take (N.to_nat i) (leaves_bytes es)) ≤ 317464) as Hcount.
    { etrans; [|exact Htotal]. unfold written, len. rewrite length_take, length_app. lia. }
    assert (node_small (weight leaf_kind entry_record g)) as Hsmall by done.
    exists true. eexists. rewrite Hp. split_and!; [done| |].
    + unfold tick. rewrite Hp. unfold tick_emit_leaves. rewrite Hem, Hsp, length_spans, (proj2 (N.eqb_neq _ _)) by lia.
      unfold index at 1. rewrite (spans_lookup _ _ _ _ _ _ Hg). cbn [ok_or]. erewrite st_bind_run by done.
      rewrite N.add_0_l, (emit_entries _ Hf), Hsl. cbn zeta. rewrite leaf_group_encodes by done. erewrite st_bind_run by done.
      cbn [sp_bytes]. unfold check at 1. rewrite Hlen, N.eqb_refl. erewrite st_bind_run by done.
      unfold check at 1. rewrite (proj2 (N.leb_le _ _)) by (unfold MAX_NODE_BYTES, U32_MAX in *; lia). erewrite st_bind_run by done.
      rewrite Hfirst. erewrite st_bind_run by done. rewrite Hlast. erewrite st_bind_run by done.
      erewrite st_bind_run by done.
      erewrite st_bind_run by (by apply (record_emitted_run (take (N.to_nat i) (leaves_bytes es)))). done.
    + intros c. unfold emitting_leaves. replace (N.to_nat (i + 1)) with (S (N.to_nat i)) by lia.
      rewrite (take_S_r _ _ _ Hll), (take_S_r _ _ _ Hlb). split_and!; try done.
      * apply (wrote_snoc _ _ _ _ _ _ Hw); try done; rewrite Hlen; done.
      * cbn -[leaf_ref]. rewrite Hr, fmap_app. cbn [fmap list_fmap t_ref]. by rewrite Eref, Hlen.
      * cbn. by rewrite Hem.
  - intros s1 (Hw & Hr & Hp & Hem & Hsp). assert (N.to_nat (len groups) = length groups) as En by (unfold len; lia).
    rewrite En, firstn_all2 in Hw by (unfold leaves_bytes; by rewrite length_fmap).
    rewrite En, firstn_all2 in Hr by (unfold leaf_level; by rewrite length_fmap).
    destruct (start_range_run 0 (leaf_level es) (leaves_bytes es) 0 (s1 <| rb_spans := [] |> <| rb_emit := 0 |>)) as (s2 & Hrun & Hst);
      [done|done| |done|done|].
    { pose proof (ro_good _ _ (leaf_level_ok es Hes)) as Hg. rewrite Forall_fmap in Hg. eapply Forall_impl; [exact Hg|]. by intros t [? _]. }
    eapply leads_one; [by rewrite Hp| |exact Hst].
    unfold tick. rewrite Hp. unfold tick_emit_leaves. rewrite Hem, Hsp, length_spans, N.eqb_refl.
    erewrite st_bind_run by done. erewrite st_bind_run by exact Hrun. done.
Qed.
(** ** A level *)
Section one_level.
Context (h : N) (ts : list rtree) (bs : list bytes) (k : N).
Context (Hlv : level es h ts) (Hh : h < MAX_TREE_DEPTH).
Abbreviation parts := (cut internal_kind tree_record ts).

Definition verifying (i : N) s : Prop :=
  wrote bs k s ∧ rb_ranges s = t_ref <$> ts ∧ rb_phase s = Ph_ValidateRanges ∧ rb_cursor s = i ∧ rb_range_height s = h.
Definition slicing (i : N) s : Prop :=
  wrote bs k s ∧ rb_ranges s = t_ref <$> ts ∧ rb_phase s = Ph_SegmentRanges ∧ rb_cursor s = i ∧ rb_range_height s = h ∧
  (rb_segment_start s, rb_segment_bytes s, rb_spans s) = registers internal_kind tree_record (take (N.to_nat i) ts).
(** The ranges before the next group have lost end points to their parents. *)
Definition joining (i : N) s : Prop :=
  wrote (bs ++ take (N.to_nat i) (level_bytes h ts)) (k + i) s ∧
  (let n := length (concat (take (N.to_nat i) parts)) in
   length (rb_ranges s) = length ts ∧ drop n (rb_ranges s) = t_ref <$> drop n ts) ∧
  rb_next_ranges s = t_ref <$> take (N.to_nat i) (next_level h ts) ∧
  rb_phase s = Ph_EmitParents ∧ rb_emit s = i ∧ rb_range_height s = h ∧ rb_spans s = spans_of internal_kind tree_record 0 parts.
Definition releasing (i : N) s : Prop :=
  wrote (bs ++ level_bytes h ts) (k + len parts) s ∧ length (rb_ranges s) = (length ts - N.to_nat i)%nat ∧
  rb_next_ranges s = t_ref <$> next_level h ts ∧ rb_phase s = Ph_RetireRanges.

Lemma verify_leads s : verifying 0 s → leads (slicing 0) (len ts + 1) s.
Proof.
  intros H0. pose proof (lv_refs _ _ _ Hlv) as [Hg Hso _]. rewrite Forall_fmap, Forall_forall in Hg.
  eapply leads_trans; [eapply (leads_loop verifying (len ts)); [|exact H0]|].
  - intros i s1 Hi (Hw & Hr & Hp & Hc & Hhe).
    destruct (lookup_lt_is_Some_2 ts (N.to_nat i)) as [t Ht]; [unfold len in Hi; lia|].
    destruct (Hg t) as (Ehe & Hv & _); [by eapply list_elem_of_lookup_2|].
    exists true. eexists. rewrite Hp. split_and!; [done| |].
    + unfold tick. rewrite Hp. unfold tick_validate_ranges. rewrite Hc, Hr, len_fmap, (proj2 (N.eqb_neq _ _)) by lia.
      unfold index at 1. rewrite list_lookup_fmap, Ht. cbn [fmap option_fmap option_map ok_or]. erewrite st_bind_run by done.
      rewrite Hhe, Ehe. unfold check at 1. rewrite N.eqb_refl. erewrite st_bind_run by done.
      rewrite (proj2 (validate_range_ok _ tt) Hv). erewrite st_bind_run by done.
      erewrite st_bind_run; [done|]. unfold st_lift. f_equal. destruct (N.ltb_spec 0 i); [|done].
      destruct (lookup_lt_is_Some_2 ts (N.to_nat (i - 1))) as [t' Ht']; [unfold len in Hi; lia|].
      unfold index. rewrite list_lookup_fmap, Ht'. cbn [fmap option_fmap option_map ok_or]. unfold check.
      destruct (StronglySorted_lookup_lt range_lt (t_ref <$> ts) (N.to_nat (i - 1)) (N.to_nat i) (t_ref t') (t_ref t)) as [L1 L2];
        [done|lia|by rewrite list_lookup_fmap, Ht'|by rewrite list_lookup_fmap, Ht|].
      by rewrite (proj2 (blt_true _ _) L1), (proj2 (blt_true _ _) L2).
    + intros c. split_and!; try done; cbn. by rewrite Hc.
  - intros s1 (Hw & Hr & Hp & Hc & Hhe). eapply leads_one; [by rewrite Hp| |].
    + unfold tick. rewrite Hp. unfold tick_validate_ranges. rewrite Hc, Hr, len_fmap, N.eqb_refl. done.
    + intros c. split_and!; done.
Qed.

Lemma slice_leads s : slicing 0 s → leads (joining 0) (len ts + 1) s.
Proof.
  intros H0. destruct internal_kind_ok as [K1 K2]. destruct (refs_fit h ts (lv_refs _ _ _ Hlv)) as [Hfit _].
  eapply leads_trans; [eapply (leads_loop slicing (len ts)); [|exact H0]|].
  - intros i s1 Hi (Hw & Hr & Hp & Hc & Hhe & Hreg).
    destruct (lookup_lt_is_Some_2 ts (N.to_nat i)) as [t Ht]; [unfold len in Hi; lia|].
    exists true. eexists. rewrite Hp. split_and!; [done| |].
    + unfold tick. rewrite Hp. unfold tick_segment_ranges. rewrite Hc, Hr, len_fmap, (proj2 (N.eqb_neq _ _)) by lia.
      unfold index at 1. rewrite list_lookup_fmap, Ht. cbn [fmap option_fmap option_map ok_or]. erewrite st_bind_run by done.
      erewrite st_bind_run by (by apply (segment_record_run internal_kind tree_record K1 K2 ts i t)). done.
    + intros c. split_and!; try done; [cbn; by rewrite Hc|]. cbn. by rewrite <-!surjective_pairing.
  - intros s1 (Hw & Hr & Hp & Hc & Hhe & Hreg). eapply leads_one; [by rewrite Hp| |].
    + unfold tick. rewrite Hp. unfold tick_segment_ranges. rewrite Hc, Hr, len_fmap, N.eqb_refl. done.
    + intros c. unfold joining. rewrite take_0, app_nil_r, N.add_0_r. split_and!; try done.
      * cbn. by rewrite Hr, length_fmap.
      * cbn.
        pose proof (open_span_cut internal_kind tree_record K1 K2 ts Hfit) as Ho.
        rewrite firstn_all2 in Hreg by (unfold len; lia). rewrite <-Hreg in Ho. exact Ho.
Qed.

Lemma group_ranges (rs : list RangeRef) i g (n := length (concat (take i parts))) (sp := {| sp_start := len (concat (take i parts));
      sp_end := len (concat (take i parts)) + len g; sp_bytes := weight internal_kind tree_record g |}) :
  parts !! i = Some g → drop n rs = t_ref <$> drop n ts →
  span_slice rs sp = t_ref <$> g ∧ length (concat (take (S i) parts)) = (n + length g)%nat ∧
  ∃ first last, index rs (sp_start sp) = Ok first ∧ index rs (sp_end sp - 1) = Ok last ∧
    parent_ref h (t_ref <$> g) =
      {| rr_min_path := rr_min_path first; rr_max_path := rr_max_path last; rr_hash := hash_bytes (node_bytes h (t_ref <$> g));
         rr_file_count := sum_files (t_ref <$> g); rr_serialized_bytes := len (node_bytes h (t_ref <$> g)); rr_height := h + 1 |}.
Proof.
  intros Hg Hd. destruct (level_group entries h ts Hlv _ _ Hg) as (Hne & _).
  destruct (level_groups h ts (lv_refs _ _ _ Hlv)) as (Hcc & _).
  assert (drop n ts = g ++ concat (drop (S i) parts)) as Edrop.
  { rewrite <-Hcc at 1. rewrite <-(take_drop_middle parts i g Hg) at 1. rewrite concat_app. cbn [concat].
    by rewrite drop_app_length' by done. }
  rewrite Edrop, fmap_app in Hd.
  assert (∀ j r, (t_ref <$> g) !! j = Some r → rs !! (n + j)%nat = Some r) as Hlk.
  { intros j r Hj. rewrite <-lookup_drop, Hd. by apply lookup_app_l_Some. }
  split_and!.
  - unfold span_slice, sp. cbn [sp_start sp_end]. unfold len. rewrite Nat2N.id. fold n. rewrite Hd.
    replace (N.to_nat (_ - _)) with (length (t_ref <$> g)) by (rewrite length_fmap; lia). apply take_app_length.
  - rewrite (take_S_r _ _ _ Hg), concat_app, length_app. cbn [concat]. by rewrite app_nil_r.
  - destruct g as [|t g]; [done|]. exists (t_ref t), (t_ref (List.last g t)). unfold index, sp. cbn [sp_start sp_end].
    split_and!.
    + unfold len. rewrite Nat2N.id. fold n. rewrite <-(Nat.add_0_r n). by rewrite (Hlk 0%nat (t_ref t)).
    + assert (N.to_nat (len (concat (take i parts)) + len (t :: g) - 1) = (n + length g)%nat) as ->
        by (unfold len, n; cbn [length]; lia).
      rewrite (Hlk _ (t_ref (List.last g t))); [done|]. rewrite list_lookup_fmap.
      destruct g as [|x g _] using rev_ind; [done|]. rewrite List.last_last.
      rewrite length_app. cbn [length]. rewrite Nat.add_1_r.
      change ((t :: g ++ [x]) !! S (length g)) with ((g ++ [x]) !! length g). by rewrite list_lookup_middle.
    + unfold parent_ref. cbn [fmap list_fmap]. f_equal.
      destruct g as [|x g _] using rev_ind; [done|]. rewrite List.last_last.
      change (list_fmap _ _ t_ref (g ++ [x])) with (t_ref <$> (g ++ [x])). rewrite fmap_app. cbn [fmap list_fmap]. by rewrite List.last_last.
Qed.

Context (pre post : list PlannedInternalSpan) (Hspans : planned_spans = pre ++ level_spans h ts ++ post) (Hk : k = len pre).
Context (Hroom : len (bs ++ level_bytes h ts) ≤ 317464).

Lemma joined_ranges (i : N) g rs :
  parts !! N.to_nat i = Some g → length rs = length ts →
  drop (length (concat (take (N.to_nat i) parts))) rs = t_ref <$> drop (length (concat (take (N.to_nat i) parts))) ts →
  let sp := {| sp_start := len (concat (take (N.to_nat i) parts)); sp_end := len (concat (take (N.to_nat i) parts)) + len g;
               sp_bytes := weight internal_kind tree_record g |} in
  let n := length (concat (take (N.to_nat (i + 1)) parts)) in
  length (take_endpoints sp rs) = length ts ∧ drop n (take_endpoints sp rs) = t_ref <$> drop n ts.
Proof.
  intros Hg Hl Hd. cbn zeta. replace (N.to_nat (i + 1)) with (S (N.to_nat i)) by lia.
  destruct (level_group entries h ts Hlv _ _ Hg) as (Hne & _).
  destruct (group_ranges rs _ _ Hg Hd) as (_ & -> & _). unfold take_endpoints. cbn [sp_start sp_end].
  rewrite !length_alter. split; [done|]. assert (0 < length g)%nat by (destruct g; [done|cbn; lia]).
  rewrite !drop_alter_lt by (unfold len; lia). rewrite <-!drop_drop, Hd. by rewrite !fmap_drop.
Qed.

Lemma join_leads s : joining 0 s → leads (releasing 0) (len parts + 1) s.
Proof.
  intros H0. pose proof Hroom as Hroom'. rewrite len_app in Hroom'.
  assert (len (level_bytes h ts) = len parts) as Elb by (unfold level_bytes; by rewrite len_fmap).
  eapply leads_trans; [eapply (leads_loop joining (len parts)); [|exact H0]|].
  - intros i s1 Hi (Hw & (Hlr & Hdr) & Hnr & Hp & Hem & Hhe & Hsp).
    destruct (lookup_lt_is_Some_2 parts (N.to_nat i)) as [g Hg]; [unfold len in Hi; lia|].
    destruct (level_group entries h ts Hlv _ _ Hg) as (Hne & Hsh & Hok & Hfit & Hnl & Hsz & Hls & _ & Hlen & Hwt).
    destruct (group_ranges _ _ _ Hg Hdr) as (Hsl & _ & first & last & Hfirst & Hlast & Eref).
    pose proof (joined_ranges i g _ Hg Hlr Hdr) as Hjr. cbn zeta in Hjr.
    pose proof Hw as (Hf & Hst & Hn & Hpay & Hki & Hsm). pose proof Hf as [= F1 F2 F3 F4 F5 F6].
    assert (level_bytes h ts !! N.to_nat i = Some (node_bytes h (t_ref <$> g))) as Hlb
      by (unfold level_bytes; by rewrite list_lookup_fmap, Hg).
    assert (planned_spans !! N.to_nat (k + i) = level_spans h ts !! N.to_nat i) as Hexp.
    { rewrite Hspans, Hk. unfold len. replace (N.to_nat _) with (length pre + N.to_nat i)%nat by lia.
      rewrite lookup_app_r by lia. replace (_ - _)%nat with (N.to_nat i) by lia. apply lookup_app_l. by apply lookup_lt_Some in Hls. }
    assert (len (bs ++ take (N.to_nat i) (level_bytes h ts)) ≤ 317464) as Hcount.
    { etrans; [|exact Hroom]. rewrite !len_app. unfold len. rewrite length_take. lia. }
    assert (node_small (weight internal_kind tree_record g)) as Hsmall by done.
    exists true. eexists. rewrite Hp. split_and!; [done| |].
    + unfold tick. rewrite Hp. unfold tick_emit_parents. rewrite Hem, Hsp, length_spans, (proj2 (N.eqb_neq _ _)) by lia.
      unfold index at 1. rewrite (spans_lookup _ _ _ _ _ _ Hg). cbn [ok_or]. erewrite st_bind_run by done. rewrite N.add_0_l.
      rewrite Hki, F4, Hexp, Hls. cbn [ok_or]. erewrite st_bind_run by done. cbn [pi_span pi_child_height].
      unfold check at 1. rewrite bool_decide_eq_true_2, Hhe, N.eqb_refl by done. erewrite st_bind_run by done.
      cbn zeta. rewrite Hsl, node_group_encodes by done. erewrite st_bind_run by done. cbn [sp_bytes].
      unfold check at 1. rewrite Hlen, N.eqb_refl. erewrite st_bind_run by done.
      unfold check at 1. rewrite (proj2 (N.leb_le _ _)) by (unfold MAX_NODE_BYTES, U32_MAX in *; lia). erewrite st_bind_run by done.
      rewrite count_files_ok by (pose proof (ro_files _ _ Hok); unfold MAX_LOADED_ENTRIES, U64_MAX in *; lia).
      erewrite st_bind_run by done. erewrite st_bind_run by done.
      cbn [sp_start sp_end] in Hfirst, Hlast |- *. rewrite Hfirst. erewrite st_bind_run by done. rewrite Hlast. erewrite st_bind_run by done.
      erewrite st_bind_run by done.
      erewrite st_bind_run by (by apply (record_emitted_run (bs ++ take (N.to_nat i) (level_bytes h ts)))). done.
    + intros c. unfold joining. replace (N.to_nat (i + 1)) with (S (N.to_nat i)) in * by lia.
      rewrite (take_S_r _ _ _ Hnl), (take_S_r _ _ _ Hlb), app_assoc. split_and!; try done.
      * apply (wrote_snoc _ _ _ _ _ _ Hw); try done; [rewrite Hlen; done..|]. cbn -[N.add]. lia.
      * apply Hjr.
      * apply Hjr.
      * cbn -[N.add parent_ref]. rewrite Hnr, fmap_app. cbn [fmap list_fmap t_ref]. change (map t_ref g) with (t_ref <$> g).
        by rewrite Eref, Hlen.
      * cbn. by rewrite Hem.
  - intros s1 (Hw & (Hlr & Hdr) & Hnr & Hp & Hem & Hhe & Hsp). eapply leads_one; [by rewrite Hp| |].
    + unfold tick. rewrite Hp. unfold tick_emit_parents. rewrite Hem, Hsp, length_spans, N.eqb_refl. done.
    + intros c. assert (N.to_nat (len parts) = length parts) as En by (unfold len; lia). rewrite En in *.
      rewrite firstn_all2 in Hw by (unfold len in Elb; lia).
      rewrite firstn_all2 in Hnr by (unfold next_level; by rewrite length_fmap). split_and!; try done. cbn. lia.
Qed.

Lemma release_leads s :
  releasing 0 s → h + 1 < MAX_TREE_DEPTH → totals_met (next_level h ts) (bs ++ level_bytes h ts) (k + len parts) →
  leads (next_stage (h + 1) (next_level h ts) (bs ++ level_bytes h ts) (k + len parts)) (len ts + 2) s.
Proof.
  intros H0 Hh' Ht. eapply leads_trans; [eapply (leads_loop releasing (len ts)); [|exact H0]|].
  - intros i s1 Hi (Hw & Hlr & Hnr & Hp).
    assert (∃ rs r, rb_ranges s1 = rs ++ [r]) as (rs & r & Er).
    { destruct (rb_ranges s1) as [|r rs _] using rev_ind; [unfold len in Hi; cbn in Hlr; lia|]. by exists rs, r. }
    exists true. eexists. rewrite Hp. split_and!; [done| |].
    + unfold tick. rewrite Hp. unfold tick_retire_ranges. rewrite Er, last_snoc. done.
    + intros c. split_and!; try done. cbn -[removelast]. rewrite removelast_last. rewrite Er, length_app in Hlr. cbn in Hlr. lia.
  - assert (∀ s1, releasing (len ts) s1 → rb_ranges_allocated s1 = false →
      leads (next_stage (h + 1) (next_level h ts) (bs ++ level_bytes h ts) (k + len parts)) 1 s1) as Hlast.
    { intros s1 (Hw & Hlr & Hnr & Hp) Ha. assert (rb_ranges s1 = []) as Er.
      { apply nil_length_inv. rewrite Hlr. unfold len. lia. }
      destruct (start_range_run (h + 1) (next_level h ts) (bs ++ level_bytes h ts) (k + len parts)
        (s1 <| rb_ranges := rb_next_ranges s1 |> <| rb_ranges_allocated := rb_next_ranges_allocated s1 |>
            <| rb_next_ranges := [] |> <| rb_next_ranges_allocated := false |>)) as (s2 & Hrun & Hst); [done|done| |done|done|].
      { pose proof (ro_good _ _ (next_level_ok h ts Hh (lv_refs _ _ _ Hlv))) as Hg. rewrite Forall_fmap in Hg.
        eapply Forall_impl; [exact Hg|]. by intros t [? _]. }
      eapply leads_one; [by rewrite Hp| |exact Hst].
      unfold tick. rewrite Hp. unfold tick_retire_ranges. rewrite Er, Ha. cbn [last].
      erewrite st_bind_run by done. erewrite st_bind_run by exact Hrun. done. }
    intros s1 Hs1. destruct (rb_ranges_allocated s1) eqn:Ha; [|eapply leads_weaken; [by apply Hlast|lia]].
    pose proof Hs1 as (Hw & Hlr & Hnr & Hp). assert (rb_ranges s1 = []) as Er.
    { apply nil_length_inv. rewrite Hlr. unfold len. lia. }
    change 2 with (1 + 1). eapply leads_tick; [by rewrite Hp| |].
    + unfold tick. rewrite Hp. unfold tick_retire_ranges. rewrite Er, Ha. done.
    + intros c. apply Hlast; done.
Qed.

(** One level is written. *)
Lemma emit_level_leads s :
  begun h ts bs k s → h + 1 < MAX_TREE_DEPTH → totals_met (next_level h ts) (bs ++ level_bytes h ts) (k + len parts) →
  leads (next_stage (h + 1) (next_level h ts) (bs ++ level_bytes h ts) (k + len parts)) (4 * len ts + 5) s.
Proof.
  intros Hb Hh' Ht. pose proof (parents_le entries h ts Hlv) as Hle. unfold next_level in Hle. rewrite len_fmap in Hle.
  eapply leads_weaken; [eapply leads_trans; [eapply leads_trans; [eapply leads_trans; [apply verify_leads|exact slice_leads]|exact join_leads]|]|].
  - exact Hb.
  - intros s1 Hs1. by apply release_leads.
  - lia.
Qed.
End one_level.
(** ** All levels *)
Lemma emit_levels_lead (n fuel : nat) h ts bs k pre s (M : N) :
  (n ≤ fuel)%nat → h + N.of_nat n < MAX_TREE_DEPTH → len ts ≤ 16 ^ N.of_nat n → len ts ≤ M → level es h ts → ts ≠ [] →
  planned_spans = pre ++ grow_spans fuel h ts → k = len pre →
  len (bs ++ grow_bytes fuel h ts) ≤ 317464 → len (bs ++ grow_bytes fuel h ts) = bp_node_count plan →
  total (len <$> (bs ++ grow_bytes fuel h ts)) = bp_node_payload_bytes plan →
  next_stage h ts bs k s →
  leads (rooted [grow fuel h ts] (bs ++ grow_bytes fuel h ts)) (N.of_nat n * (4 * M + 5)) s.
Proof.
  revert fuel h ts bs k pre s. induction n as [|n IH]; intros fuel h ts bs k pre s Hn Hh Hl HM Hlv Hne Hsp Hk Hroom Hcount Hsum Hst.
  all: destruct ts as [|t [|t' ts]]; [done| |].
  1,3: assert (grow fuel h [t] = t ∧ grow_bytes fuel h [t] = []) as [-> ->]
         by (by destruct fuel); rewrite app_nil_r; by apply leads_here.
  { change (16 ^ N.of_nat 0) with 1 in Hl. rewrite !len_cons in Hl. lia. }
  set (ts' := t :: t' :: ts) in *. destruct fuel as [|fuel]; [lia|].
  assert (h < MAX_TREE_DEPTH) as Hh' by lia. pose proof (lv_refs _ _ _ Hlv) as Hr.
  change (grow (Datatypes.S fuel) h ts') with (grow fuel (h + 1) (next_level h ts')).
  change (grow_bytes (Datatypes.S fuel) h ts') with (level_bytes h ts' ++ grow_bytes fuel (h + 1) (next_level h ts')) in *.
  change (grow_spans (Datatypes.S fuel) h ts') with (level_spans h ts' ++ grow_spans fuel (h + 1) (next_level h ts')) in Hsp.
  rewrite !app_assoc in *. pose proof (parents_le entries h ts' Hlv) as Hle.
  pose proof (next_level_nonempty h ts' Hr Hne) as Hne'.
  assert (len (level_spans h ts') = len (cut internal_kind tree_record ts')) as Els.
  { unfold level_spans. by rewrite len_fmap, length_spans. }
  eapply leads_weaken; [eapply leads_trans; [apply (emit_level_leads h ts' bs k) with (pre := pre) (post := grow_spans fuel (h + 1) (next_level h ts'))|]|].
  - done.
  - done.
  - by rewrite app_assoc.
  - done.
  - rewrite len_app in Hroom. lia.
  - exact Hst.
  - lia.
  - intros Hone. destruct (next_level h ts') as [|u [|u' us]] eqn:En; [done| |rewrite !len_cons in Hone; lia].
    assert (grow_bytes fuel (h + 1) [u] = [] ∧ grow_spans fuel (h + 1) [u] = []) as [E1 E2] by (by destruct fuel).
    rewrite E1, app_nil_r in *. rewrite E2, app_nil_r in Hsp. split_and!; [done..|]. rewrite Hsp, len_app, Els. lia.
  - intros s1 Hs1. apply (IH fuel (h + 1) (next_level h ts') (bs ++ level_bytes h ts')
      (k + len (cut internal_kind tree_record ts')) (pre ++ level_spans h ts'));
      [lia|lia|by apply next_level_pow|lia|by apply next_level_level|done|done| |done..].
    rewrite len_app, Els. lia.
  - nia.
Qed.
End emit.


(** * The validation of the closure *)
Section closure.
Context {B3 : Blake3} (store : MemoryChunkStore) (t0 : rtree) (Hin : tree_in store t0).
Implicit Types (c : ClosureValidation) (ps : list rtree) (xs : option (list rtree)).

Definition expanded xs : list rtree := match xs with Some l => l | None => [] end.
Abbreviation all ps xs := (ps ++ expanded xs).

Record closing c ps xs : Prop := {
  co_pending : cl_pending c = t_ref <$> ps;
  co_expanding : cl_expanding c = fmap (M := list) t_ref <$> xs;
  co_allocated : cl_pending_allocated c = false → ps = [] ∧ xs = None;
  co_sub : Forall (.∈ subtrees t0) (all ps xs);
  co_desc : ∀ h r, cl_descriptors c !! h = Some r → ∃ t, t ∈ subtrees t0 ∧ r = t_ref t ∧ rr_hash r = h;
  co_size : cl_visited_nodes c = N.of_nat (size (cl_descriptors c));
  co_nodes : cl_visited_nodes c + forest_nodes (all ps xs) ≤ 317464;
  co_entries : cl_visited_entries c + len (f_entries (all ps xs)) ≤ MAX_LOADED_ENTRIES;
}.

(** The units left. *)
Definition closing_units c ps xs : N :=
  sum_over (λ t, 3 * t_nodes t - 1) ps + match xs with Some xs => 1 + sum_over (λ t, 3 * t_nodes t) xs | None => 0 end
  + if cl_pending_allocated c then 1 else 0.

Lemma closing_load t :
  t ∈ subtrees t0 →
  (let? b := ok_or (get_chunk (rr_hash (t_ref t)) store) (invalid "private Tree v2 replacement chunk is missing") in
   validate_loaded_node (t_ref t) b) =
    Ok (match t with RLeaf g => V2Leaf g | RNode h cs => V2Internal h (t_ref <$> cs) end).
Proof.
  intros Ht. pose proof (tree_in_load store t (subtree_in _ _ _ Hin Ht)) as Hl. unfold load_node in Hl.
  destruct (validate_range (t_ref t)); [|done]. cbn in Hl. unfold get_chunk.
  destruct (ms_map store !! rr_hash (t_ref t)); [|done]. exact Hl.
Qed.

Lemma closing_height t : t ∈ subtrees t0 → rr_height (t_ref t) ≤ MAX_TREE_DEPTH.
Proof.
  intros Ht. pose proof (tree_in_load store t (subtree_in _ _ _ Hin Ht)) as Hl. unfold load_node in Hl.
  destruct (validate_range (t_ref t)) eqn:E; [|done]. by apply validate_range_ok in E as [_ _ _ _ _ _ ?].
Qed.

Lemma sum_over_triple ts : sum_over (λ t, 3 * t_nodes t) ts = 3 * forest_nodes ts.
Proof. induction ts as [|t ts IH]; [done|]. rewrite sum_over_cons, IH, forest_cons. lia. Qed.

(** A new tree is recorded and its children are expanded. *)
Lemma closing_record c t ps entries c1 :
  closing c (t :: ps) None → cl_descriptors c !! rr_hash (t_ref t) = None →
  entries + len (f_entries (children t)) ≤ len (t_entries t) →
  cl_pending c1 = t_ref <$> ps → cl_expanding c1 = match children t with [] => None | _ => Some (t_ref <$> children t) end →
  cl_pending_allocated c1 = cl_pending_allocated c → cl_visited_nodes c1 = cl_visited_nodes c + 1 →
  cl_visited_entries c1 = cl_visited_entries c + entries →
  cl_descriptors c1 = <[rr_hash (t_ref t) := t_ref t]> (cl_descriptors c) →
  ∃ xs', closing c1 ps xs' ∧ closing_units c1 ps xs' < closing_units c (t :: ps) None.
Proof.
  intros [H1 H2 H3 H4 H5 H6 H7 H8] Hnew He E1 E2 E3 E4 E5 E6. cbn [expanded] in *. rewrite app_nil_r in *.
  apply Forall_cons in H4 as [Ht H4]. rewrite forest_cons, t_nodes_children in H7. rewrite len_f_cons in H8.
  set (xs := match children t with [] => None | cs => Some cs end).
  assert (expanded xs = children t) as Exs by (unfold xs; by destruct (children t)).
  assert (cl_pending_allocated c = true) as Ha by (destruct (cl_pending_allocated c); [done|by destruct H3]).
  exists xs. split; [split|].
  - done.
  - rewrite E2. unfold xs. by destruct (children t).
  - by rewrite E3, Ha.
  - rewrite Exs. apply Forall_app. split; [done|]. apply Forall_forall. intros u Hu. by eapply subtrees_child.
  - intros h r. rewrite E6, lookup_insert_Some. intros [[<- <-]|[_ Hr]]; [by exists t|by apply H5].
  - rewrite E4, E6, map_size_insert_None by done. rewrite H6. lia.
  - rewrite E4, Exs, forest_app. lia.
  - rewrite E5, Exs, f_entries_app, len_app. lia.
  - unfold closing_units. rewrite sum_over_cons, E3.
    unfold xs. pose proof (t_nodes_children t) as En. destruct (children t) as [|u us]; rewrite ?sum_over_triple; lia.
Qed.

(** One unit of the validation. *)
Lemma closing_tick c ps xs :
  closing c ps xs →
  ∃ b c', closure_tick store c = (Ok b, c') ∧
    if b then ∃ ps' xs', closing c' ps' xs' ∧ closing_units c' ps' xs' < closing_units c ps xs
    else (N.of_nat (size (cl_descriptors c')) ≤ 317464).
Proof.
  intros Hc. pose proof Hc as [H1 H2 H3 H4 H5 H6 H7 H8]. unfold closure_tick. rewrite H2.
  destruct xs as [[|x xs]|]; cbn [fmap option_fmap option_map list_fmap].
  - (* the expansion ends *)
    exists true. eexists. split; [done|]. exists ps, None. split; [split; cbn; try done; intros Ha; by destruct (H3 Ha)|].
    unfold closing_units. cbn. lia.
  - (* a child moves to the stack *)
    exists true. eexists. split; [done|]. exists (x :: ps), (Some xs).
    assert (all ps (Some (x :: xs)) ≡ₚ all (x :: ps) (Some xs)) as Hp by (cbn; solve_Permutation).
    split; [split; cbn -[forest_nodes f_entries N.add expanded]; try done|].
    + by rewrite H1.
    + by rewrite <-Hp.
    + cbn [expanded app] in *. rewrite forest_app, forest_cons in H7. rewrite forest_cons, forest_app. lia.
    + cbn [expanded app] in *. rewrite f_entries_app, len_app, len_f_cons in H8. rewrite len_f_cons, f_entries_app, len_app. lia.
    + unfold closing_units. rewrite !sum_over_cons. cbn [cl_pending_allocated]. pose proof (t_nodes_pos x). cbn -[N.mul N.add N.sub].
      destruct (cl_pending_allocated c) eqn:Ea; [lia|]. by destruct (H3 eq_refl).
  - rewrite H1. destruct ps as [|t ps]; cbn [fmap list_fmap].
    + destruct (cl_pending_allocated c) eqn:Ea.
      * exists true. eexists. split; [done|]. exists [], None. split; [by split|]. unfold closing_units. cbn. rewrite Ea. lia.
      * exists false. eexists. split; [done|]. cbn in H7. lia.
    + cbn [expanded] in *. rewrite app_nil_r in *. apply Forall_cons in H4 as [Ht H4].
      cbn -[bool_decide]. destruct (cl_descriptors c !! rr_hash (t_ref t)) as [r|] eqn:Ed.
      * assert (r = t_ref t) as ->.
        { destruct (H5 _ _ Ed) as (t' & Ht' & -> & E). f_equal. apply (tree_hash_inj store); [by eapply subtree_in..|done]. }
        rewrite bool_decide_eq_true_2 by done. exists true. eexists. split; [done|]. exists ps, None.
        rewrite forest_cons in H7. rewrite len_f_cons in H8.
        split; [split; cbn -[forest_nodes f_entries N.add]; rewrite ?app_nil_r; try done|].
        -- intros Ha. by destruct (H3 Ha).
        -- lia.
        -- lia.
        -- unfold closing_units. rewrite !sum_over_cons. pose proof (t_nodes_pos t). cbn -[N.mul N.add N.sub]. lia.
      * pose proof (closing_load t Ht) as Hload. pose proof (closing_height t Ht).
        rewrite forest_cons in H7. rewrite len_f_cons in H8. pose proof (t_nodes_pos t).
        unfold saturating_add64 at 1. rewrite N.min_l by (unfold U64_MAX; lia).
        rewrite (proj2 (N.ltb_ge _ _)) by done. rewrite (proj2 (N.ltb_ge MAX_VISITED_NODES _)) by (unfold MAX_VISITED_NODES; lia).
        cbn [orb]. rewrite Hload.
        assert (saturating_add64 (cl_visited_nodes c) 1 = cl_visited_nodes c + 1) as -> by (apply N.min_l; unfold U64_MAX; lia).
        destruct t as [g|h cs].
        -- assert (t_entries (RLeaf g) = g) as Eg by apply app_nil_r. rewrite Eg in H8.
           unfold MAX_LOADED_ENTRIES in *.
           assert (saturating_add64 (cl_visited_entries c) (len g) = cl_visited_entries c + len g) as ->
             by (apply N.min_l; unfold U64_MAX; lia).
           rewrite (proj2 (N.ltb_ge _ _)) by lia. exists true. eexists. split; [done|]. exists ps.
           apply (closing_record c (RLeaf g) ps (len g)); try done. rewrite Eg. unfold f_entries. cbn [children fmap list_fmap concat]. rewrite (len_nil (A := FileEntry)). lia.
        -- pose proof (subtree_in _ _ _ Hin Ht) as (_ & Hcs & _ & _)%tree_in_node.
           exists true. eexists. split; [done|]. exists ps. destruct cs as [|u cs]; [done|].
           apply (closing_record c (RNode h (u :: cs)) ps 0); try done; [by rewrite t_entries_node|]. cbn. lia.
Qed.
End closure.

(** * From the root to the hand-over *)
Section hand_over.
Context {B3 : Blake3} (entries : list FileEntry) (vault_id device_id : bytes).
Abbreviation es := (sort_by fe_path entries).
Abbreviation State := ReplacementRebuildV2.
Implicit Types s : State.
Context (Hes : entries_ok es).
Context (Hvault : validate_root_id "vault" vault_id false = Ok tt) (Hdevice : validate_root_id "device" device_id true = Ok tt).
Context (Hinj : injective_on hash_bytes (.∈ written es)).

Definition the_store : MemoryChunkStore := put_all (written es) ms_new.
Definition the_root : RootNodeV2 :=
  {| r2_vault_id := vault_id; r2_created_ms := 0; r2_tree := root_of es; r2_parent_hash := None; r2_device_id := device_id |}.

Lemma the_store_stored : stored the_store (written es).
Proof. by apply put_all_stored. Qed.
Lemma written_bound : len (written es) ≤ 317464.
Proof. apply (length_written es the_store); [done|]. apply the_store_stored. Qed.

Lemma the_root_valid : r2_new vault_id device_id (root_of es) = Ok the_root.
Proof.
  unfold r2_new, r2_validate. cbn [r2_tree r2_vault_id r2_device_id].
  by rewrite (root_of_shape _ the_store Hes the_store_stored), Hvault, Hdevice.
Qed.

Lemma the_root_length : r2_serialized_length the_root = Ok (root_length entries vault_id device_id).
Proof.
  pose proof the_root_valid as Hv. unfold r2_new in Hv. unfold r2_serialized_length.
  fold the_root in Hv. destruct (r2_validate the_root) as [[]|]; [|done].
  destruct (root_length_run entries vault_id device_id Hes written_bound Hvault Hdevice) as [Hr Hl].
  cbn [r2_vault_id r2_device_id r2_tree r2_parent_hash the_root]. unfold child_paths in Hr. rewrite Hr.
  by rewrite (proj2 (N.ltb_ge _ _)).
Qed.

(** What the last phases keep. *)
Definition kept s : Prop :=
  rb_store s = the_store ∧ rb_root s = Some the_root ∧ (rb_vault_id s, rb_device_id s) = (vault_id, device_id).

Definition validating s : Prop :=
  kept s ∧ rb_entries s = es ∧ rb_phase s = Ph_Closure ∧ rb_closure s = Some (cl_new (root_of es)).

Lemma root_tick_leads plan s :
  rooted entries vault_id device_id plan (root_forest es) (written es) s →
  bp_stored_root_bytes plan = root_length entries vault_id device_id → leads validating 1 s.
Proof.
  intros (He & _ & Hpl & Hid & Hst & Hr & Hp) Hlen. injection Hid as Hv Hd.
  destruct (root_forest_ok es the_store Hes the_store_stored) as (_ & _ & Hrr & _).
  assert (match rb_ranges s with
          | [] => Ok None
          | [range] => Ok (Some range)
          | _ => Err (invalid "Tree v2 replacement root level is incomplete")
          end = Ok (tv_child (root_of es))) as Hchild.
  { rewrite Hr. unfold root_ranges in Hrr. rewrite <-Hrr. by destruct (tv_child (root_of es)). }
  assert ({| tv_version := TREE_VERSION; tv_total_files := len es; tv_child := tv_child (root_of es) |} = root_of es) as Et.
  { unfold root_of. by destruct es. }
  eapply leads_one; [by rewrite Hp| |].
  - unfold tick. rewrite Hp. unfold tick_root. rewrite Hchild. erewrite st_bind_run by done. erewrite st_bind_run by done.
    rewrite He, Hv, Hd, Et, the_root_valid. erewrite st_bind_run by done. rewrite the_root_length. erewrite st_bind_run by done.
    unfold check. rewrite Hpl, Hlen, N.eqb_refl. erewrite st_bind_run by done. erewrite st_bind_run by done. done.
  - intros c. split_and!; try done. split_and!; [done|done|]. exact (f_equal2 pair Hv Hd).
Qed.

Definition cleaning_closure (i : N) s : Prop :=
  kept s ∧ rb_entries s = es ∧ rb_phase s = Ph_CleanupClosure ∧ len (rb_retiring_descriptors s) + i ≤ 317464.
Definition cleaning_entries (i : N) s : Prop :=
  kept s ∧ rb_phase s = Ph_CleanupEntries ∧ length (rb_entries s) = (length es - N.to_nat i)%nat.
Definition ready s : Prop := kept s ∧ rb_phase s = Ph_Ready.

Lemma closure_leads s : validating s → leads (cleaning_closure 0) (3 * 317464 + 2) s.
Proof.
  intros (Hk & He & Hp & Hc).
  destruct (root_forest_ok es the_store Hes the_store_stored) as ([Hin _] & Hee & Hrr & Hn).
  assert (∀ c : ClosureValidation, N.of_nat (size (cl_descriptors c)) ≤ 317464 →
    len (map_to_list (cl_descriptors c)) + 0 ≤ 317464) as Hsize.
  { intros c Hc'. unfold len. rewrite length_map_to_list. lia. }
  assert (∀ s c, kept s → rb_entries s = es → rb_phase s = Ph_Closure → rb_closure s = Some c →
    cl_pending c = [] → cl_expanding c = None → cl_pending_allocated c = false → N.of_nat (size (cl_descriptors c)) ≤ 317464 →
    leads (cleaning_closure 0) 1 s) as Hend.
  { intros s1 c K1 K2 K3 K4 E1 E2 E3 E4. eapply leads_one; [by rewrite K3| |].
    - unfold tick. rewrite K3. unfold tick_closure, closure_tick. rewrite K4, E2, E1, E3. done.
    - intros c'. split_and!; try done. by apply Hsize. }
  unfold root_ranges in Hrr. destruct (root_forest es) as [|t0 [|t1 ts]] eqn:Er; destruct (tv_child (root_of es)) as [r|] eqn:Ec; try done.
  { eapply leads_weaken; [eapply (Hend s (cl_new (root_of es))); try done; unfold cl_new; rewrite Ec; done|lia]. }
  injection Hrr as ->. apply Forall_cons in Hin as [Hin _].
  assert (∀ (n : nat) s c ps xs, kept s → rb_entries s = es → rb_phase s = Ph_Closure → rb_closure s = Some c → closing t0 c ps xs →
    closing_units c ps xs < N.of_nat n → leads (cleaning_closure 0) (N.of_nat n) s) as Hloop.
  { induction n as [|n IH]; intros s1 c ps xs K1 K2 K3 K4 Hcl Hlt; [lia|].
    destruct (closing_tick the_store t0 Hin c ps xs Hcl) as (b & c' & Ht & Hb).
    replace (N.of_nat (S n)) with (1 + N.of_nat n) by lia. destruct b.
    - destruct Hb as (ps' & xs' & Hcl' & Hlt'). eapply leads_tick; [by rewrite K3| |].
      + unfold tick. rewrite K3. unfold tick_closure. destruct K1 as (-> & _). rewrite K4, Ht. done.
      + intros k. apply (IH _ c' ps' xs'); try done. lia.
    - eapply leads_tick; [by rewrite K3| |].
      + unfold tick. rewrite K3. unfold tick_closure. destruct K1 as (-> & _). rewrite K4, Ht. done.
      + intros k. apply leads_here. split_and!; try done. by apply Hsize. }
  assert (cl_new (root_of es) = {| cl_pending := [t_ref t0]; cl_pending_allocated := true; cl_expanding := None; cl_reachable := ∅;
    cl_descriptors := ∅; cl_visited_nodes := 0; cl_visited_entries := 0 |}) as En by (unfold cl_new; by rewrite Ec).
  specialize (Hloop (N.to_nat (3 * 317464 + 2)) s (cl_new (root_of es)) [t0] None). rewrite N2Nat.id in Hloop.
  apply Hloop; try done; rewrite En.
  - split; cbn -[forest_nodes f_entries N.add]; try done.
    + constructor; [apply subtrees_self|constructor].
    + rewrite Hee. destruct Hes as [(Hl & _)%validate_entries_ok _]. exact Hl.
  - unfold closing_units. cbn [cl_pending_allocated]. rewrite sum_over_cons. rewrite forest_cons in Hn.
    change (sum_over (λ t, 3 * t_nodes t - 1) []) with 0. lia.
Qed.

Lemma cleanup_leads s : cleaning_closure 0 s → leads ready (317464 + 1 + (len es + 2)) s.
Proof.
  intros H0. eapply leads_trans; [|].
  - instantiate (1 := cleaning_entries 0). destruct H0 as (Hk & He & Hp & Hl). rewrite N.add_0_r in Hl.
    eapply leads_weaken; [|instantiate (1 := len (rb_retiring_descriptors s) + 1); lia]. remember (rb_retiring_descriptors s) as ds eqn:E.
    symmetry in E. clear Hl. revert s Hk He Hp E. induction ds as [|d ds IH]; intros s Hk He Hp E.
    + eapply leads_one; [by rewrite Hp| |].
      * unfold tick. rewrite Hp. unfold tick_cleanup_closure. rewrite E. done.
      * intros c. split_and!; try done. cbn. rewrite He. lia.
    + rewrite len_cons, <-N.add_assoc. eapply leads_tick; [by rewrite Hp| |].
      * unfold tick. rewrite Hp. unfold tick_cleanup_closure. rewrite E. done.
      * intros c. by apply IH.
  - clear H0 s. intros s H0. eapply leads_trans; [eapply (leads_loop cleaning_entries (len es)); [|exact H0]|].
    + intros i s1 Hi (Hk & Hp & Hl).
      assert (∃ rs r, rb_entries s1 = rs ++ [r]) as (rs & r & Er).
      { destruct (rb_entries s1) as [|r rs _] using rev_ind; [unfold len in Hi; cbn in Hl; lia|]. by exists rs, r. }
      exists true. eexists. rewrite Hp. split_and!; [done| |].
      * unfold tick. rewrite Hp. unfold tick_cleanup_entries. rewrite Er, last_snoc. done.
      * intros c. split_and!; try done. cbn -[removelast]. rewrite removelast_last. rewrite Er, length_app in Hl. cbn in Hl. lia.
    + assert (∀ s1, cleaning_entries (len es) s1 → rb_entries_owned s1 = false → leads ready 1 s1) as Hlast.
      { intros s1 (Hk & Hp & Hl) Ho. assert (rb_entries s1 = []) as Er by (apply nil_length_inv; rewrite Hl; unfold len; lia).
        eapply leads_one; [by rewrite Hp| |].
        - unfold tick. rewrite Hp. unfold tick_cleanup_entries. rewrite Er, Ho. done.
        - intros c. by split. }
      intros s1 Hs1. destruct (rb_entries_owned s1) eqn:Ho; [|eapply leads_weaken; [by apply Hlast|lia]].
      pose proof Hs1 as (Hk & Hp & Hl). assert (rb_entries s1 = []) as Er by (apply nil_length_inv; rewrite Hl; unfold len; lia).
      change 2 with (1 + 1). eapply leads_tick; [by rewrite Hp| |].
      * unfold tick. rewrite Hp. unfold tick_cleanup_entries. rewrite Er, Ho. done.
      * intros c. by apply Hlast.
Qed.
(** ** Resuming *)
Abbreviation groups := (cut leaf_kind entry_record es).
Abbreviation node_sizes := (len <$> grow_bytes 17 0 (leaf_level es)).
Definition the_plan : ReplacementBuildPlanV2 :=
  plan_for (leaf_sizes entries) node_sizes <| bp_stored_root_bytes := root_length entries vault_id device_id |>.
Definition the_spans : list PlannedInternalSpan := grow_spans 17 0 (leaf_level es).

Lemma resumed_emitting s :
  plan_ready entries vault_id device_id s →
  emitting_leaves entries vault_id device_id the_plan the_spans 0 (resume_plan_ready s).
Proof.
  intros (Hf & Hls & Hsp & Hpl & _ & Hp). unfold the_plan, the_spans. revert Hsp Hpl.
  generalize node_sizes as sizes, (grow_spans 17 0 (leaf_level es)) as spans. intros sizes spans Hsp Hpl.
  injection Hf as F1 F2 F3 F4 F5 F6 F7 F8 F9 F10 F11. split_and!; try done. split_and!; try done.
  unfold emit_frame, the_frame. cbn. by rewrite F1, F2, Hpl, Hsp, F10, F11.
Qed.

Lemma leaf_totals_met : totals_met the_plan the_spans (leaf_level es) (leaves_bytes es) 0.
Proof.
  intros Hone. unfold the_plan, the_spans, plan_for, leaf_sizes.
  assert (grow_bytes 17 0 (leaf_level es) = [] ∧ grow_spans 17 0 (leaf_level es) = []) as [-> ->].
  { destruct (leaf_level es) as [|t [|t' ts]]; [done|done|]. rewrite !len_cons in Hone. lia. }
  cbn -[total len]. rewrite app_nil_r, len_fmap. split_and!; [|done|done]. change (len (A := N) []) with 0. lia.
Qed.

Lemma levels_written s :
  next_stage entries vault_id device_id the_plan the_spans 0 (leaf_level es) (leaves_bytes es) 0 s →
  leads (rooted entries vault_id device_id the_plan (root_forest es) (written es)) 5000000 s.
Proof.
  intros Hst. destruct (decide (es = [])) as [E|Hne].
  { apply leads_here. rewrite E in *. exact Hst. }
  assert (root_forest es = [grow 17 0 (leaf_level es)]) as -> by (by destruct es).
  pose proof (leaf_level_count es Hes) as Hc. pose proof (entries_bound entries Hes) as Hb.
  assert (len (leaf_level es) ≤ 158731) as HM by lia. assert (5 ≤ 17)%nat as H5 by lia. clear Hc Hb.
  assert (len (leaves_bytes es ++ grow_bytes 17 0 (leaf_level es)) = bp_node_count the_plan) as T1.
  { unfold the_plan, leaf_sizes. rewrite len_app. cbn [plan_for]. cbn -[len grow_bytes N.add]. by rewrite !len_fmap. }
  assert (total (len <$> (leaves_bytes es ++ grow_bytes 17 0 (leaf_level es))) = bp_node_payload_bytes the_plan) as T2.
  { rewrite fmap_app. done. }
  assert (the_spans = [] ++ grow_spans 17 0 (leaf_level es)) as T0 by (unfold the_spans; by rewrite app_nil_l).
  assert (0 = len (A := PlannedInternalSpan) []) as T3 by done.
  pose proof written_bound as T4. unfold written in T4 |- *.
  pose proof (emit_levels_lead entries vault_id device_id the_plan the_spans written_bound 5 17 0 (leaf_level es) (leaves_bytes es) 0 [] s 158731 H5
    eq_refl (leaf_level_pow es Hes) HM (leaf_level_level es Hes) (leaf_level_nonempty es Hes Hne) T0 T3 T4 T1 T2 Hst) as H1.
  eapply leads_weaken; [exact H1|done].
Qed.

Lemma emission_leads s :
  plan_ready entries vault_id device_id s →
  leads ready (len groups + 1 + 5000000 + 1 + (3 * 317464 + 2) + (317464 + 1 + (len es + 2))) (resume_plan_ready s).
Proof.
  intros Hs. eapply leads_trans; [|exact cleanup_leads]. eapply leads_trans; [|exact closure_leads].
  eapply leads_trans; [|intros s1 Hs1; by apply (root_tick_leads the_plan)]. eapply leads_trans; [|exact levels_written].
  apply (emit_leaves_lead entries vault_id device_id Hes the_plan the_spans written_bound);
    [by apply resumed_emitting|apply leaf_totals_met].
Qed.
End hand_over.

(** C16: The resumable construction is the construction at once. Driven with
    any positive budgets, its plan is ready after finitely many steps and
    announces the number and the bytes of the objects that a rebuild writes;
    a caller that admits other numbers is refused and can try again; resumed
    with the announced ones, any positive budgets finish it, and the tree it
    hands over is, root and store alike, the tree of [rebuild]. *)
Theorem resumable_rebuild_exact {B3 : Blake3} entries vault_id device_id (es := sort_by fe_path entries) :
  entries_ok es → validate_root_id "vault" vault_id false = Ok tt → validate_root_id "device" device_id true = Ok tt →
  injective_on hash_bytes (.∈ written es) →
  ∃ n tree, tt_rebuild entries (tt_new vault_id device_id) = (Ok tt, tree) ∧
    ∀ before after, Forall (λ b, 0 < b) before → Forall (λ b, 0 < b) after → n ≤ len before → n ≤ len after →
    ∃ planned p m resumed finished,
      run_steps before (rb_new entries vault_id device_id) = (Ok tt, planned) ∧
      rb_plan_of planned = Ok p ∧ output_memory_plan_v1 planned = Ok m ∧
      bp_node_count p = len (written es) ∧ bp_node_payload_bytes p = total (len <$> written es) ∧
      om_node_payload_bytes m = bp_node_payload_bytes p ∧
      (∀ x, x ≠ bp_node_payload_bytes p → ∃ e, resume_after_plan x planned = (Err e, planned)) ∧
      resume_after_output_memory_plan_v1 (om_node_payload_bytes m) (om_range_endpoint_peak_requested_bytes m)
        (om_range_endpoint_resident_requested_bytes m) planned = (Ok tt, resumed) ∧
      run_steps after resumed = (Ok tt, finished) ∧ (take_ready finished).1 = Ok tree.
Proof.
  intros Hes Hv Hd Hinj. pose proof (written_bound entries Hes Hinj) as Hw. pose proof (entries_bound entries Hes) as Hb.
  pose proof (leaf_level_count es Hes) as Hg. unfold leaf_level in Hg. rewrite len_fmap in Hg.
  exists (len es * len es + 100000000), (from_verified_replacement (the_root entries vault_id device_id) (the_store entries) vault_id device_id).
  split.
  { unfold tt_rebuild. rewrite build_tree_v2_run by done. fold (the_store entries). cbn [map_err tt_vault_id tt_device_id tt_new].
    rewrite (the_root_valid entries vault_id device_id Hes Hv Hd Hinj). cbn [r2_tree the_root].
    rewrite reachable_run; [done|done|by apply the_store_stored]. }
  intros before after Hpos1 Hpos2 Hl1 Hl2. assert (len es * len es ≤ 10000000 * 10000000) by (apply N.mul_le_mono; done).
  destruct (run_steps_leads (plan_ready entries vault_id device_id) (len es * len es + 100000000) (rb_new entries vault_id device_id) before)
    as (planned & Hrun & Hplan & Hc); [by intros s (_ & _ & _ & _ & _ & ->)| |cbn; unfold U64_MAX; lia|done..|].
  { eapply leads_weaken; [by apply plan_leads|]. unfold es in *. lia. }
  destruct (run_steps_leads (ready entries vault_id device_id) (len es * len es + 100000000) (resume_plan_ready planned) after)
    as (finished & Hrun' & (Hk & Hp) & _); [by intros s [_ ->]| | |done..|].
  { eapply leads_weaken; [by apply emission_leads|]. unfold es in *. lia. }
  { cbn. cbn in Hc. unfold U64_MAX. lia. }
  pose proof Hplan as (_ & _ & _ & Epl & [Em _] & Eph). destruct Hk as (K1 & K2 & K3). injection K3 as K3 K4.
  assert (bp_node_payload_bytes (rb_plan planned) = total (len <$> written es)) as Epay.
  { rewrite Epl. unfold written, leaf_sizes. by rewrite fmap_app. }
  exists planned, (rb_plan planned), (rb_output_memory_plan planned), (resume_plan_ready planned), finished.
  split_and!; try done.
  - unfold rb_plan_of. by rewrite bool_decide_eq_true_2.
  - unfold output_memory_plan_v1. by rewrite bool_decide_eq_true_2.
  - rewrite Epl. unfold written, leaf_sizes. rewrite len_app. cbn -[len grow_bytes N.add]. by rewrite !len_fmap.
  - by rewrite Em, Epay.
  - intros x Hx. unfold resume_after_plan. rewrite bool_decide_eq_true_2, (proj2 (N.eqb_neq _ _)) by done. by eexists.
  - unfold resume_after_output_memory_plan_v1. rewrite bool_decide_eq_true_2, !N.eqb_refl by done. done.
  - unfold take_ready, is_ready. rewrite bool_decide_eq_true_2 by done. cbn [negb]. by rewrite K2, K1, K3, K4.
Qed.

(** * A construction *)

#[local] Existing Instance poly_blake3.

Definition rx_planned : ReplacementRebuildV2 :=
  (run_steps (repeat 64 40) (rb_new v2_old (str "vault") (str "phone"))).2.
Definition rx_plan : ReplacementOutputMemoryPlanV1 := rb_output_memory_plan rx_planned.
Definition rx_finished : ReplacementRebuildV2 :=
  (run_steps (repeat 3 400)
    (resume_after_output_memory_plan_v1 (om_node_payload_bytes rx_plan) (om_range_endpoint_peak_requested_bytes rx_plan)
       (om_range_endpoint_resident_requested_bytes rx_plan) rx_planned).2).2.

Example rx_runs :
  rb_phase rx_planned = Ph_PlanReady ∧ om_node_payload_bytes rx_plan = total (len <$> written v2_sorted) ∧
  (take_ready rx_finished).1 = Ok (tt_rebuild v2_old (tt_new (str "vault") (str "phone"))).2.
Proof. split_and!; vm_compute; reflexivity. Qed.

Lemma resumable_rebuild_exact_witness :
  ∃ n tree, tt_rebuild v2_old (tt_new (str "vault") (str "phone")) = (Ok tt, tree) ∧
    ∀ k, n ≤ len (repeat 3 k) → ∃ planned p,
      run_steps (repeat 3 k) (rb_new v2_old (str "vault") (str "phone")) = (Ok tt, planned) ∧ rb_plan_of planned = Ok p ∧
      bp_node_payload_bytes p = total (len <$> written v2_sorted).
Proof.
  assert (sort_by fe_path v2_old = v2_sorted) as E by (vm_compute; reflexivity).
  destruct (resumable_rebuild_exact v2_old (str "vault") (str "phone")) as (n & tree & Ht & Hrun).
  - rewrite E. exact v2_sorted_ok.
  - vm_compute. reflexivity.
  - vm_compute. reflexivity.
  - rewrite E. apply NoDup_injective_on. by_decision.
  - rewrite E in Hrun. exists n, tree. split; [exact Ht|]. intros k Hk.
    assert (Forall (λ b, 0 < b) (repeat 3 k)) as Hpos by (clear; induction k; constructor; done).
    destruct (Hrun (repeat 3 k) (repeat 3 k) Hpos Hpos Hk Hk) as (planned & p & _ & _ & _ & H1 & H2 & _ & _ & H3 & _).
    exists planned, p. split; [exact H1|]. split; [exact H2|exact H3].
Defined.
