(* ===== verification/PackExamples.v ===== *)
(** Concrete runs of the writer's queue, its scheduler, the pack store and the
    storage writer: the theorems at work, and two ways to lose an acknowledged
    object that they leave out. *)

From S2P Require Import Prelude Bytes Keyed Hash Chunk Concrete Faults RootHead Crc32c PackFormat.
From S2P Require Import PackFormatProps PackStore PackInvariant PackStoreProps.
From S2P Require Import PackOpenProps PackCrash StorageWriter StorageWriterProps.
From S2P Require Import WriterQueue WriterQueueProps WriterLoop.
Local Open Scope N_scope.

(** * Reservations *)

Definition wx_owner : WriterOwner := Authenticated (str "device").
Definition wx_a : QueueReservation := {| rv_owner := wx_owner; rv_class := Bulk; rv_bytes := 1000 |}.
Definition wx_b : QueueReservation := {| rv_owner := Internal; rv_class := Control; rv_bytes := 5 |}.

Definition wx_grant (q : QueueState) (r : QueueReservation) : QueueState :=
  match reserve (rv_owner r) (rv_class r) (rv_bytes r) q with Ok q' => q' | Err _ => q end.
Definition wx_state : QueueState := wx_grant (wx_grant qs_default wx_a) wx_b.

Lemma wx_reachable : rtc queue_step ([], qs_default) ([wx_b; wx_a], wx_state).
Proof.
  apply (rtc_l _ _ ([wx_a], wx_grant qs_default wx_a)).
  { apply step_reserve. vm_compute. reflexivity. }
  apply (rtc_l _ _ ([wx_b; wx_a], wx_state)); [|apply rtc_refl].
  apply step_reserve. vm_compute. reflexivity.
Qed.

(** The first of two reservations is dropped. *)
Lemma queue_accounts_exact_witness :
  qs_bytes wx_state = 1005 ∧
  ∃ q', release wx_owner Bulk 1000 wx_state = Some q' ∧ queue_rep [wx_b] q' ∧ queue_caps q'.
Proof.
  split; [vm_compute; reflexivity|].
  destruct (queue_accounts_exact [wx_b; wx_a] wx_state wx_reachable) as (_ & _ & H).
  exact (H [wx_b] wx_a [] eq_refl).
Defined.

(** A bulk message too large for its owner is refused, a control one is not. *)
Example wx_bulk_cap :
  reserve wx_owner Bulk (OWNER_BULK_BYTES + 1) qs_default = Err Busy ∧
  is_ok (reserve Internal Control (OWNER_BULK_BYTES + 1) qs_default) = true.
Proof. by vm_compute. Qed.

(** * The scheduler *)

(** Messages are numbers: owner and class are read off them. *)
Definition wx_owner_of (m : N) : WriterOwner := if m <? 100 then Internal else wx_owner.
Definition wx_class_of (m : N) : WriterClass := if m <? 100 then Control else Bulk.
Definition wx_run := sched_run wx_owner_of wx_class_of (λ _, 0).

(** One bulk message behind twenty control messages, which keep coming. *)
Definition wx_before : list (SchedEvent N) := EvPush 100 :: ((λ n, EvPush (N.of_nat n)) <$> seq 0 20).
Definition wx_after : list (SchedEvent N) := replicate 9 (EvPop 0).
Definition wx_sched : FairScheduler N := match wx_run wx_before fs_default with Some (_, s) => s | None => fs_default end.
Definition wx_served : list N := match wx_run wx_after wx_sched with Some (l, _) => l | None => [] end.
Definition wx_end : FairScheduler N := match wx_run wx_after wx_sched with Some (_, s) => s | None => fs_default end.

(** It is the ninth message served: the bound is reached. *)
Example wx_served_ninth : wx_served = [0; 1; 2; 3; 4; 5; 6; 7; 100].
Proof. vm_compute. reflexivity. Qed.

Lemma bulk_bounded_wait_witness : (100 : N) ∈ wx_served.
Proof.
  apply (bulk_bounded_wait wx_owner_of wx_class_of (λ _, 0) 1 wx_before wx_after [] wx_served wx_sched wx_end
           100 wx_owner 0 0).
  - vm_compute. reflexivity.
  - vm_compute. reflexivity.
  - split; vm_compute; reflexivity.
  - cbn [wx_after replicate owners_within]. vm_compute. repeat split; repeat constructor.
  - vm_compute. discriminate.
Defined.


#[local] Existing Instance poly_blake3.
#[local] Existing Instance base16_hex.

(** No document is JSON here: the examples have no manifests. *)
#[local] Instance no_json : JsonValue := {| json_value := λ _, None |}.

(** * What a crash may leave *)

Definition pk_map (h : SegFile → bytes) (s : SideFile → option bytes) (d : PackDisk) : PackDisk :=
  {| pk_segments := (λ f, sf_stable (h f)) <$> pk_segments d;
     pk_sidecars := (λ x, {| sd_durable := s x; sd_pending := [] |}) <$> pk_sidecars d;
     pk_loose := pk_loose d;
     pk_stray := pk_stray d |}.

(** Everything that was visible, or nothing that was not synchronised. *)
Definition pk_flush : PackDisk → PackDisk := pk_map sf_bytes sd_visible.
Definition pk_lose : PackDisk → PackDisk := pk_map (λ f, takeN (sf_synced f) (sf_bytes f)) sd_durable.

Lemma pk_map_survives h s d :
  (∀ f, h f `prefix_of` sf_bytes f ∧ takeN (sf_synced f) (sf_bytes f) `prefix_of` h f) →
  (∀ x, s x ∈ sd_contents x) → s sd_absent = None → pk_survives d (pk_map h s d).
Proof.
  intros Hh Hs Ha. split_and!.
  - intros id. cbn [pk_map pk_segments]. rewrite lookup_fmap.
    destruct (pk_segments d !! id) as [f|]; [|done]. cbn.
    exists (h f), (sf_bytes f). destruct (Hh f). split_and!; [done|left|done|done].
  - intros id. unfold pk_sidecar. cbn [pk_map pk_sidecars]. rewrite lookup_fmap.
    destruct (pk_sidecars d !! id) as [x|]; cbn; [by exists (s x)|].
    exists None. split; [left|done].
  - done.
  - intros name Hn. by left.
Qed.

Lemma pk_flush_survives d : pk_survives d (pk_flush d).
Proof.
  apply pk_map_survives; [|apply sd_visible_contents|done].
  intros f. split; [done|]. apply takeN_prefix.
Qed.

Lemma pk_lose_survives d : pk_survives d (pk_lose d).
Proof.
  apply pk_map_survives; [|intros x; left|done]. intros f. split; [apply takeN_prefix|done].
Qed.

Lemma ids_left_bool d :
  bool_decide (map_Forall (λ id _, id < U64_MAX) (pk_segments d)) = true → ids_left d.
Proof. intros H%bool_decide_eq_true id [f Hf]. by apply (H id f). Qed.

(** Runs, kept unevaluated. *)
Definition no_segment : ActiveSegment := {| as_id := 0; as_len := 0; as_entries := [] |}.
Definition run_active (r : IoResult ActiveSegment * PackWorld) : ActiveSegment :=
  match r with (Ok a, _) => a | (Err _, _) => no_segment end.

Lemma run_ok (m : Pack ActiveSegment) w :
  is_ok (fst (m w)) = true → m w = (Ok (run_active (m w)), snd (m w)).
Proof. by destruct (m w) as [[]]. Qed.
Lemma run_err (m : Pack ActiveSegment) w :
  is_ok (fst (m w)) = false → ∃ e, m w = (Err e, snd (m w)).
Proof. destruct (m w) as [[|e]]; [done|]. by exists e. Qed.

Definition px_object (s : string) : PackedObject :=
  {| po_kind := Content; po_hash := hash_bytes (str s); po_bytes := str s |}.
Definition px_o1 : PackedObject := px_object "hello".
Definition px_o2 : PackedObject := px_object "a second object".

Lemma px_o1_valid : object_valid px_o1.
Proof. unfold object_valid. vm_compute. reflexivity. Qed.
Lemma px_o2_valid : object_valid px_o2.
Proof. unfold object_valid. vm_compute. reflexivity. Qed.

Lemma px_both_valid : Forall object_valid [px_o1; px_o2].
Proof. constructor; [apply px_o1_valid|constructor; [apply px_o2_valid|constructor]]. Qed.

Definition px_any (o : PackedObject) : Prop := True.

(** Opened, one object appended, the append of a second one failed in the
    middle of its record; everything visible survives a crash. *)
Definition px_open : IoResult ActiveSegment * PackWorld := open (world pk_empty [] ∅).
Definition px_append : IoResult ActiveSegment * PackWorld :=
  append_group (run_active px_open) [px_o1] NoCommitFault (world (w_disk (snd px_open)) [] (w_index (snd px_open))).
Definition px_torn : IoResult ActiveSegment * PackWorld :=
  append_group (run_active px_append) [px_o2] NoCommitFault
    (world (w_disk (snd px_append)) [Fails 10] (w_index (snd px_append))).
Definition px_crashed : PackDisk := pk_flush (w_disk (snd px_torn)).
Definition px_reopened : IoResult ActiveSegment * PackWorld := open (world px_crashed [] ∅).

Definition fits_bool (a : ActiveSegment) (objects : list PackedObject) : bool :=
  (as_len a + len (records objects) <=? MAX_SEGMENT_BYTES)
  && (len (as_entries a) + len objects <=? MAX_SEGMENT_OBJECTS) && (as_id a <? U64_MAX).

Lemma fits_bool_true a objects : fits_bool a objects = true → group_fits a objects ∧ as_id a < U64_MAX.
Proof. unfold fits_bool, group_fits. intros H. bool_to_prop. done. Qed.

Lemma px_any_all (os : list PackedObject) : Forall px_any os.
Proof. by apply Forall_true. Qed.

Lemma px_trace :
  pack_reachable px_any {| ps_phase := Offline px_crashed; ps_acked := [px_o1] |}.
Proof.
  unfold pack_reachable.
  eapply rtc_l.
  { apply step_open with (fates := []).
    - apply ids_left_bool. vm_compute. reflexivity.
    - apply run_ok. vm_compute. reflexivity. }
  fold px_open.
  assert (fits_bool (run_active px_open) [px_o1] = true) as [Hf1 Hi1]%fits_bool_true
    by (vm_compute; reflexivity).
  eapply rtc_l.
  { eapply step_append with (fates := []) (objects := [px_o1]); [| |exact Hf1|exact Hi1|].
    - constructor; [apply px_o1_valid|constructor].
    - apply px_any_all.
    - apply run_ok. vm_compute. reflexivity. }
  fold px_append.
  assert (fits_bool (run_active px_append) [px_o2] = true) as [Hf2 Hi2]%fits_bool_true
    by (vm_compute; reflexivity).
  destruct (run_err (append_group (run_active px_append) [px_o2] NoCommitFault)
    (world (w_disk (snd px_append)) [Fails 10] (w_index (snd px_append)))) as [e He];
    [vm_compute; reflexivity|].
  eapply rtc_l.
  { eapply step_append_failed; [| |exact Hf2|exact Hi2|exact He].
    - constructor; [apply px_o2_valid|constructor].
    - apply px_any_all. }
  fold px_torn. apply rtc_once. apply step_crash. apply pk_flush_survives.
Qed.

Lemma store_reopens_witness :
  ∃ a w, open (world px_crashed [] ∅) = (Ok a, w) ∧
    (Forall object_valid [px_o2] → Forall px_any [px_o2] → group_fits a [px_o2] → as_id a < U64_MAX →
     ∃ a' w', append_group a [px_o2] NoCommitFault (world (w_disk w) [] (w_index w)) = (Ok a', w')).
Proof.
  apply (store_reopens px_any px_crashed [px_o1] [px_o2]).
  - exact px_trace.
  - apply ids_left_bool. vm_compute. reflexivity.
Defined.

Lemma acknowledged_object_readable_witness :
  ∃ o', px_any o' ∧ object_valid o' ∧ object_key o' = object_key px_o1 ∧
    fst (read (object_key px_o1) (world (w_disk (snd px_reopened)) [] (w_index (snd px_reopened))))
    = Ok (Some (po_bytes o')).
Proof.
  eapply (acknowledged_object_readable px_any _ _ (Some (run_active px_reopened)) [px_o1]).
  - eapply rtc_r; [exact px_trace|]. apply step_open with (fates := []).
    + apply ids_left_bool. vm_compute. reflexivity.
    + apply run_ok. vm_compute. reflexivity.
  - left.
Defined.

Lemma sidecar_roundtrip_witness :
  ∃ data, encode_sidecar 1 (len (segment_bytes 1 [px_o1; px_o2])) (segment_entries_of 1 [px_o1; px_o2]) = Ok data ∧
    decode_sidecar data 1 (len (segment_bytes 1 [px_o1; px_o2])) =
    Ok (canonical_entries (segment_entries_of 1 [px_o1; px_o2])).
Proof.
  apply sidecar_roundtrip.
  - apply Forall_forall. intros e He. apply segment_entry_fits; [apply px_both_valid|exact He].
  - done.
  - apply N.leb_le. vm_compute. reflexivity.
  - etrans; [by apply (canonical_within 1 [px_o1; px_o2])|done].
Defined.

Lemma read_returns_valid_witness : validate_bytes Content (po_hash px_o1) (str "hello") = Ok tt.
Proof.
  apply (read_returns_valid (object_key px_o1) (snd px_reopened) (str "hello")
           (snd (read (object_key px_o1) (snd px_reopened)))).
  left. assert (fst (read (object_key px_o1) (snd px_reopened)) = Ok (Some (str "hello"))) as E
    by (vm_compute; reflexivity).
  destruct (read (object_key px_o1) (snd px_reopened)) as [r w]. cbn [fst snd] in *. by rewrite E.
Defined.

(** The invariant of the store just opened. *)
Lemma px_open_alive :
  ∃ g, alive px_any g (w_disk (snd px_open)) (w_index (snd px_open)) (run_active px_open).
Proof.
  pose proof (pack_inv_start px_any) as (g & Hset & _).
  pose proof (triple_run False _ _ _ _ pk_empty [] ∅ (open_store_spec px_any g)) as H.
  fold px_open in H. assert (is_ok (fst px_open) = true) as Hok by (vm_compute; reflexivity).
  destruct px_open as [[a|e] w]; [|discriminate].
  destruct H as (g' & _ & Ha); [done|split; [split; [done|]|done]|by exists g'].
  intros id [f Hf]. cbn [pk_empty pk_segments] in Hf. by rewrite lookup_empty in Hf.
Qed.

(** A group with an invalid object and a duplicate. *)
Definition px_group : list PackedObject :=
  [px_o1; {| po_kind := Content; po_hash := po_hash px_o2; po_bytes := str "other" |}; px_o1; px_o2].
Definition px_world : PackWorld := world (w_disk (snd px_open)) [] (w_index (snd px_open)).
Definition px_commit : CommitReport * ActiveSegment * PackWorld :=
  commit_objects (run_active px_open) px_group px_world.

Example px_commit_results :
  cr_results (fst (fst px_commit)) =
  [Ok Stored; Err (InvalidObject "plaintext BLAKE3 does not match its address"); Ok AlreadyPresent; Ok Stored].
Proof. vm_compute. reflexivity. Qed.

(** The same objects in two messages: the duplicate is answered by the commit
    of the other message. *)
Definition px_reservation : QueueReservation := {| rv_owner := Internal; rv_class := Control; rv_bytes := 64 |}.
Definition px_message (n : N) (objects : list PackedObject) : WriterMessage :=
  {| wm_objects := objects; wm_reply := n;
     wm_reservation := px_reservation; wm_enqueued_at := 0 |}.
Definition px_messages : list WriterMessage := [px_message 1 (take 2 px_group); px_message 2 (drop 2 px_group)].
Definition px_loop : WriterLoop :=
  writer_start (run_active px_open) px_world
    <| wl_queue := wx_grant (wx_grant qs_default px_reservation) px_reservation |>.
Definition px_done : WriterLoop := finish_group px_messages px_loop.
Definition px_reply (n : nat) : WriterMessage * list StoreResult := default (px_message 0 [], []) (wl_replies px_done !! n).

Lemma acknowledged_message_readable_witness :
  ∃ o', px_any o' ∧ object_valid o' ∧ object_key o' = object_key px_o1 ∧
    fst (read (object_key px_o1) (world (w_disk (wl_world px_done)) [] (w_index (wl_world px_done)))) =
    Ok (Some (po_bytes o')).
Proof.
  destruct px_open_alive as [g Hg].
  assert (fits_bool (run_active px_open) (stored_objects px_world px_group) = true) as [Hf Hi]%fits_bool_true
    by (vm_compute; reflexivity).
  assert (snd (px_reply 1) = [Ok AlreadyPresent; Ok Stored]) as Hr by (vm_compute; reflexivity).
  assert (wm_objects (fst (px_reply 1)) = drop 2 px_group) as Ho by (vm_compute; reflexivity).
  assert (length (wl_replies px_done) = 2%nat) as Hlen by (vm_compute; reflexivity).
  apply (acknowledged_message_readable px_any g px_loop (w_disk (snd px_open)) (w_index (snd px_open)) []
    px_messages (fst (px_reply 1)) (snd (px_reply 1)) 0 px_o1 AlreadyPresent).
  - reflexivity.
  - exact Hg.
  - exact Hi.
  - apply px_any_all.
  - exact Hf.
  - change (length (wl_replies px_loop)) with 0%nat. rewrite drop_0. fold px_done.
    rewrite <-surjective_pairing. unfold px_reply.
    destruct (wl_replies px_done !! 1%nat) as [x|] eqn:E; [by apply list_elem_of_lookup_2 in E|].
    apply lookup_ge_None in E. rewrite Hlen in E. lia.
  - by rewrite Hr.
  - by rewrite Ho.
Defined.

(** The life of the thread: two handlers reserve, their messages come in
    together and are answered, the senders go away and the loop ends. *)
Definition px_turn (recv : option WriterMessage) (drained : list WriterMessage) : Turn :=
  {| tn_recv := recv; tn_drained := drained; tn_disconnected := false; tn_now := 0; tn_later := 0; tn_wait := TimedOut |}.
Definition px_turns : list Turn :=
  [px_turn (head px_messages) (tail px_messages); px_turn None []; px_turn None []; px_turn None []; px_turn None []].
Definition px_ended : WriterLoop := foldl writer_turn px_loop px_turns.

Lemma px_turn_step l t admitted rest :
  (wm_reservation <$> offered t) ⊆+ admitted →
  wl_received (writer_turn l t) = wl_received l ++ offered t → admitted = (wm_reservation <$> offered t) ++ rest →
  system_step {| sy_loop := l; sy_admitted := admitted |} {| sy_loop := writer_turn l t; sy_admitted := rest |}.
Proof. intros H1 H2 ->. by apply (sys_turn l _ t (offered t)). Qed.

Lemma px_lifetime :
  rtc system_step (system_start (run_active px_open) px_world) {| sy_loop := px_ended; sy_admitted := [] |}.
Proof.
  eapply rtc_l; [apply (sys_admit _ [] px_reservation (wx_grant qs_default px_reservation)); vm_compute; reflexivity|].
  eapply rtc_l; [apply (sys_admit _ [px_reservation] px_reservation
    (wx_grant (wx_grant qs_default px_reservation) px_reservation)); vm_compute; reflexivity|].
  change (rtc system_step {| sy_loop := px_loop; sy_admitted := [px_reservation; px_reservation] |}
    {| sy_loop := px_ended; sy_admitted := [] |}).
  unfold px_ended, px_turns. cbn [foldl].
  eapply rtc_l; [apply (px_turn_step px_loop (px_turn (head px_messages) (tail px_messages)) _ []);
    [done|vm_compute; reflexivity|reflexivity]|].
  do 4 (eapply rtc_l; [apply (px_turn_step _ (px_turn None []) _ []); [done|vm_compute; reflexivity|reflexivity]|]).
  apply rtc_refl.
Qed.

Lemma messages_answered_once_witness :
  wl_phase px_ended = Ended ∧ length (wl_replies px_ended) = 2%nat ∧ wl_received px_ended ≡ₚ answered px_ended.
Proof.
  assert (wl_phase px_ended = Ended) as He by (vm_compute; reflexivity).
  split; [exact He|]. split; [vm_compute; reflexivity|].
  destruct (messages_answered_once _ _ _ px_lifetime) as (_ & _ & _ & H & _). exact (H He).
Defined.

(** A legacy journal of one group with a torn second one. *)
Definition px_journal : bytes := journal_bytes [[px_o1; px_o2]] ++ take 30 (legacy_group_bytes [px_o2]).

Lemma legacy_fits_bool os :
  Forall object_valid os → len os <=? LEGACY_MAX_GROUP_OBJECTS = true →
  len (legacy_payload os) <=? LEGACY_MAX_GROUP_BYTES = true → legacy_fits os.
Proof. intros Hv H1 H2. bool_to_prop. done. Qed.

Lemma legacy_import_complete_witness :
  ∃ a' w o', migrate_legacy_journal (Some px_journal) (run_active px_open) px_world = (Ok a', w) ∧
    px_any o' ∧ object_key o' = object_key px_o2 ∧
    fst (read (object_key px_o2) (world (w_disk w) [] (w_index w))) = Ok (Some (po_bytes o')).
Proof.
  destruct px_open_alive as [g Hg].
  apply (legacy_import_complete px_any g _ _ (run_active px_open) [[px_o1; px_o2]]
           (take 30 (legacy_group_bytes [px_o2])) px_o2).
  - exact Hg.
  - split; apply N.ltb_lt; vm_compute; reflexivity.
  - apply N.leb_le. vm_compute. reflexivity.
  - constructor; [|constructor]. apply legacy_fits_bool; [apply px_both_valid|vm_compute; reflexivity..].
  - constructor; [|constructor]. split; [apply px_any_all|].
    split; apply N.leb_le; vm_compute; reflexivity.
  - right. exists [px_o2], (drop 30 (legacy_group_bytes [px_o2])). split_and!.
    + apply legacy_fits_bool; [|vm_compute; reflexivity..].
      constructor; [apply px_o2_valid|constructor].
    + by rewrite take_drop.
    + vm_compute. discriminate.
  - apply N.leb_le. vm_compute. reflexivity.
  - right. left.
Defined.

(** * Two ways to lose an acknowledged object *)

(** The write of a group reaches the page cache, its synchronisation fails and
    the process restarts without a crash of the machine. *)
Definition px_unsynced : IoResult ActiveSegment * PackWorld :=
  append_group (run_active px_open) [px_o1] NoCommitFault
    (world (w_disk (snd px_open)) [Done; Fails 0] (w_index (snd px_open))).
Definition px_restarted : IoResult ActiveSegment * PackWorld := open (world (w_disk (snd px_unsynced)) [] ∅).
Definition px_answer : CommitReport * ActiveSegment * PackWorld :=
  commit_objects (run_active px_restarted) [px_o1] (snd px_restarted).
Definition px_lost : IoResult ActiveSegment * PackWorld := open (world (pk_lose (w_disk (snd px_answer))) [] ∅).

(** Opening a store publishes records that were written but never
    synchronised, and the writer then answers for them: an object whose
    append failed at its [fdatasync] is reported as already present after a
    restart of the process, without any synchronisation, and is gone after a
    crash of the machine. *)
Theorem restart_acknowledges_unsynced :
  is_ok (fst px_unsynced) = false ∧ is_ok (fst px_restarted) = true ∧
  cr_results (fst (fst px_answer)) = [Ok AlreadyPresent] ∧
  pk_survives (w_disk (snd px_answer)) (pk_lose (w_disk (snd px_answer))) ∧
  is_ok (fst px_lost) = true ∧ fst (read (object_key px_o1) (snd px_lost)) = Ok None.
Proof.
  assert (pk_survives (w_disk (snd px_answer)) (pk_lose (w_disk (snd px_answer)))) as H
    by apply pk_lose_survives.
  split_and!; try (vm_compute; reflexivity). exact H.
Qed.

(** Zeros behind the last record, as a file system may leave them that extends a
    file before it writes its data. *)
Definition px_zeros : PackDisk :=
  {| pk_segments := {[1 := sf_stable (segment_bytes 1 [px_o1] ++ repeat x00 64)]}; pk_sidecars := ∅;
     pk_loose := ∅; pk_stray := [] |}.

Lemma garbage_tail_refused_witness : is_ok (fst (open (world px_zeros [] ∅))) = false.
Proof.
  apply (garbage_tail_refused 1 [px_o1] (repeat x00 64) px_zeros [] ∅).
  - constructor; [apply px_o1_valid|constructor].
  - vm_compute. discriminate.
  - vm_compute. discriminate.
  - vm_compute. reflexivity.
  - vm_compute. reflexivity.
  - vm_compute. reflexivity.
  - vm_compute. discriminate.
Defined.

(** A read that fails to open the segment file hides the record; sealing the
    segment makes that permanent. *)
Definition px_hidden : result PackReadError (option bytes) * PackWorld :=
  read (object_key px_o1) (world (w_disk (snd px_append)) [Fails 0] (w_index (snd px_append))).
Definition px_sealed : IoResult ActiveSegment * PackWorld :=
  seal_active (run_active px_append) (world (w_disk (snd px_hidden)) [] (w_index (snd px_hidden))).
Definition px_after : IoResult ActiveSegment * PackWorld := open (world (w_disk (snd px_sealed)) [] ∅).

(** One transient error of a read loses an object for good: its record is
    intact and durable, but once its segment is sealed no restart finds it. *)
Theorem transient_error_loses_object :
  is_ok (fst px_append) = true ∧ fst px_hidden = Err (Io "open failed") ∧ is_ok (fst px_sealed) = true ∧
  is_ok (fst px_after) = true ∧ fst (read (object_key px_o1) (snd px_after)) = Ok None ∧
  (sf_bytes <$> pk_segments (w_disk (snd px_after)) !! 1) = Some (segment_bytes 1 [px_o1]).
Proof. split_and!; vm_compute; reflexivity. Qed.
